(* ===== verification/_CoqProject ===== *)
-Q . S2P
Prelude.v
Bytes.v
Types.v
Retry.v
Store.v
Ranges.v
Machine.v
Lease.v
Coverage.v
Partition.v
IndexFold.v
Lifecycle.v
Retention.v
Compact.v
IndexSpec.v
IndexRefine.v
IndexProps.v
CompactProps.v
QuotaProps.v
Allocator.v
AllocatorProps.v
Log.v
Coordinator.v
CoordinatorProps.v
Replicas.v
Segment.v
SegmentProps.v
Nonce.v
Bundle.v
BundleProps.v
Manifest.v
ManifestProps.v
Stream.v
Merge.v
MergeProps.v
StoreLog.v
StoreLogInv.v
StoreLogProps.v
StoreLogContract.v
ErrorCodes.v
Wire.v
WireProps.v
Batch.v
BatchProps.v
Read.v
ReadProps.v
Api.v
Msg.v
MsgData.v
MsgGroup.v
MsgAdmin.v
Grammar.v
MsgSpec.v
MsgRespSpec.v
MsgProps.v
Group.v
Authz.v
Catalog.v
CatalogProps.v
Topics.v
TopicsProps.v
CatalogList.v
Fetch.v
FetchProps.v
Clients.v
Produce.v
ProduceProps.v
ProduceDurable.v
Delivery.v
GroupSegment.v
Tasks.v
Keys.v
GroupRounds.v
GroupHandlers.v
GroupInv.v
GroupSafe.v
GroupTasksSafe.v
GroupActor.v
GroupWorld.v
GroupQueries.v
