(* ===== verification/Prelude.v ===== *)
(** * oqueue: a verification library

    oqueue is a message broker that speaks the Kafka protocol and keeps its
    data in object storage.  Producers' batches are written as objects; a
    coordinator gives them offsets, journals the commit in a metadata log and
    only then acknowledges it; the metadata log, itself a run of objects, is
    folded into a materialized index that says which object holds which offsets
    of a partition; compaction rewrites many small objects into few, retention
    trims what has expired, and objects that nothing names any more are deleted.
    A lease, again an object, decides which node coordinates.  Beside the data
    path the broker serves consumer groups, whose state is journaled in a log of
    its own.

    The library translates that code into Rocq definitions and proves what makes
    it correct.  Paths below are under src/crates unless they say otherwise.

    ** What models what

    Foundations.
    - Prelude.v: results ([Ok], [Err] and [Panic], so that freedom from panics is
      a theorem), machine integers, sorting, the shared tactics and hints.
    - Bytes.v: byte strings, big-endian integers, UTF-8, reader and writer monads.
    - Types.v: identifiers, offsets, references and log records of oqueue-core
      (error.rs, offset.rs, object_ref.rs, metadata_record.rs and others).
    - Retry.v: retry.rs, rate_governor.rs, staleness.rs.

    Storage.
    - Store.v: the [ObjectStore] trait (store.rs) as a class with its documented
      guarantees as laws, and the in-memory store that satisfies them.
    - Ranges.v: merge.rs, reading many ranges of one object with few requests.
    - Machine.v: programs that interleave at each store call, with processes
      that die and return, clocks that drift and answers that are lost; and the
      search for the newest of a run of numbered keys.
    - Lease.v: lease.rs.
    - Segment.v, SegmentProps.v: metadata_segment.rs, the format of a segment.
    - StoreLog.v, StoreLogInv.v, StoreLogProps.v:
      object_store_log.rs and object_store_log/base.rs, the metadata log as
      objects, with appends, opens, walks and checkpoints.
    - StoreLogContract.v: that log as an instance of the contract of Log.v, with
      the coordinator on top of it.

    The index and the coordinator.
    - Coverage.v: coverage.rs, the check of a compaction swap.
    - Partition.v, IndexFold.v: index_state.rs and its submodules.
    - IndexSpec.v, IndexRefine.v: the specification, one record at a time, and
      the simulation of the batch fold by it; IndexProps.v, QuotaProps.v: what
      follows.
    - Allocator.v, AllocatorProps.v: oqueue-coordinator's allocator.rs with
      admission.rs and expiry.rs.
    - Log.v: the [MetadataLog] trait as a class with laws, and the in-memory log.
    - Coordinator.v, CoordinatorProps.v: serve.rs, leadership.rs, coordinator.rs.
    - Replicas.v: standby.rs and oqueue-index's applier.rs.

    The data objects.
    - Bundle.v, BundleProps.v: cursor.rs, bundle.rs, bundle_footer.rs and what
      they name (key.rs, region_envelope.rs).
    - Manifest.v, ManifestProps.v: partition_manifest.rs and composite.rs.
    - Stream.v: bundle_stream.rs, bundle_name.rs, multipart.rs, and the writer of
      an object in parts as a class with laws.
    - Nonce.v: nonce.rs.
    - Keys.v: oqueue-crypto's dek_cache.rs and unwrap_cache.rs, with the key
      provider of key.rs as a class with laws.
    - Merge.v, MergeProps.v: oqueue-compact's merge.rs, compose.rs and the rounds
      of layout.rs.
    - Batch.v, BatchProps.v: the record batches of oqueue-codec (batch.rs,
      attributes.rs, records.rs), oqueue-checksum, and ingest.rs.

    The broker's data path (oqueue-broker).
    - Read.v, ReadProps.v: read.rs with its submodules and region.rs.
    - Authz.v: principals, grants and quotas of oqueue-core, and authz.rs.
    - Catalog.v, CatalogProps.v, CatalogList.v: oqueue-core's catalog.rs and
      catalog/stored.rs with its submodules, the topics of a shard as objects, and
      their listings.
    - Topics.v, TopicsProps.v: cluster/topics.rs, the cache a node keeps in front
      of the catalog.  What an operation is answered that starts after a given
      moment, while others are in flight, is stated with the marks of Machine.v.
    - Fetch.v, FetchProps.v: fetch/, session.rs and listoffsets.rs.
    - Clients.v: quota_admin.rs and init_producer_id.rs.
    - Produce.v, ProduceProps.v: produce/ and flush.rs; ProduceDurable.v: the
      same with the coordinator's loop behind it.
    - Delivery.v: the two together, from the bytes of a produce request to the
      answer of a fetch.

    Housekeeping (oqueue-compact).
    - Lifecycle.v: gc.rs and lifecycle.rs.
    - Retention.v: retention.rs.
    - Compact.v, CompactProps.v: read_amp.rs, cost.rs, plan.rs, layout.rs, the
      tiling of merge.rs, sweep.rs and namer.rs.

    The wire (oqueue-codec).
    - ErrorCodes.v: error_codes.rs.
    - Wire.v, WireProps.v: wire.rs, emit.rs, varint.rs, flex.rs.
    - Api.v, Msg.v, MsgData.v, MsgGroup.v, MsgAdmin.v: the keys, versions, frames
      and the decoder and encoder of every advertised request.
    - Grammar.v, MsgSpec.v, MsgRespSpec.v: Kafka's published schemas as grammars;
      MsgProps.v: the codecs follow them, and what the decoders return is well
      typed.

    Consumer groups (oqueue-broker, with their core in oqueue-core).
    - Group.v: the state machine, the election, the fence.
    - GroupSegment.v: group_segment.rs.
    - Tasks.v: tasks over shared memory, cut at their await points, and the
      judgement [safe] that carries an invariant through every interleaving.
    - GroupRounds.v, GroupHandlers.v: join_group/, sync_group.rs, heartbeat.rs,
      leave_group.rs, offset_commit.rs and group_transitions.rs, and the replay
      of the group log.
    - GroupInv.v, GroupSafe.v, GroupTasksSafe.v, GroupActor.v:
      the invariant and one judgement per handler; GroupWorld.v: what clients are
      promised, and what a replay rebuilds.
    - GroupQueries.v: the requests that read that state, offset_fetch.rs,
      group_admin.rs and find_coordinator.rs.

    ** What the theorems show

    - Leadership: two nodes never believe in the lease at once, under every
      interleaving, with clocks apart by up to the skew ([lease_mutual_exclusion]).
    - Durability: an entry the stored log acknowledged stays in it through
      failures, restarts and checkpoints, and is read back
      ([store_log_durable], [acknowledged_survives_restart], [open_terminates]);
      the coordinator acknowledges only what is journaled, at the offset the log
      gives it ([ack_is_durable], [acknowledged_is_indexed]), and only if it held
      the lease before the append and after it ([ack_needs_the_lease]); a refused
      commit leaves nothing behind ([refused_commit_rolls_back]); a replay or a
      standby reaches the state the log determines.
    - The index: the batch fold refines the specification, whatever the paging;
      every readable offset is named once; the count of an object is the number of
      entries that name it and of the publications that absorbed such entries, so
      that one with a zero count is named nowhere ([unreferenced_is_unnamed]), and
      garbage collection spares every object a reader could still be fetching
      ([gc_spares_readers]); a read serves a prefix of what a scan would.
    - Produce: a partition answered without an error was checked, is in the store
      where its span says, and is in the durable log at the offset the client is
      told, in the request's own commit or, for a producer's resent batch, in the
      first copy's ([produce_is_durable]); a batch with a damaged byte is refused
      ([damaged_batch_refused]); the base offset is rewritten without
      breaking the checksum ([rewritten_batch_verifies]), and counting records
      agrees with reading them ([record_count_exact]).
    - Delivery: a batch that was acknowledged is what a fetch at its offset
      begins with, whatever was committed since ([produced_is_fetched]).
    - Fetch: what is served is what was stored for the entries of the partition,
      stamped with its offsets and without a gap ([read_serves_contiguous]); an
      answer stays within its budget and one batch, and at most two reads of the
      store fail for it ([fetch_bounded]); a parked fetch answers, with its first
      read that is worth an answer or its fourth ([parked_fetch_answers]); and a
      session reads from a view of its newest write's incarnation that has folded
      it ([session_reads_its_writes]).  Grants and quotas are exact
      ([scoped_grants_exact], [quota_counts_exact]).
    - The catalog: however nodes race, one name has one topic
      ([catalog_agrees]), and once deleted it stays deleted
      ([deleted_stays_deleted]); entries round-trip ([catalog_entry_round_trip]).
      Through the nodes' caches, too: what starts at the node that deleted a topic
      serves it no more ([deleted_not_served_here]), nor does what starts at any
      node a second after the operations in flight at the deletion have ended
      ([deleted_expires_everywhere]); nodes agree on a topic's partitions
      ([partition_counts_agree]).  The listings of a store nobody changes are those
      of the in-memory catalog ([stored_listing_exact]).
    - The data objects: bundles and manifests round-trip ([bundle_round_trip],
      [manifest_round_trip]); a round of merges is put in order, refused if its
      plans overlap or exceed the budget, and loses, repeats and reorders nothing
      ([merge_round_preserves_records]); nonces never repeat
      ([nonces_never_repeat]); merged range reads are exact ([get_many_exact]).
    - Keys: a data key is retired after 64 GiB or seven days, whatever the
      requests interleave with ([data_keys_retire]), what was sealed is opened by
      its own key ([sealed_opens]), and an unwrapped key is used for five minutes
      at most ([unwrapped_keys_expire]).
    - The allocator agrees with the index, and answers a resent batch with the
      offsets of the first, whatever else was committed in between, while the
      producer is among those it remembers ([resend_answers_the_first]).
    - Retention trims exactly the expired; a compaction sweep makes rounds the
      merge accepts.
    - Consumer groups: members of a generation agree on it, but for an empty one
      ([joins_agree], [empty_round_is_answered]), a sync answers what
      the leader submitted, an acknowledged offset commit survives and is what the
      group fetches ([committed_is_fetched]), the log and the state stay in step
      and a replay rebuilds the state, the offsets being the last that were
      committed ([replay_recovers]); a listing of groups is what describing them
      says ([listing_is_described]).
    - A client's quota reads back as it was set ([quota_reads_back]); identities
      minted in one nanosecond differ ([minted_apart]), and others need not
      ([minted_again]).
    - The codecs decode every request and encode every response the schemas
      describe, never panic, return well-typed requests ([decoded_is_typed]),
      and the varint fast path equals the byte loop; the
      segment formats round-trip and refuse truncated input.
    - The rate governor admits at most its rate, and the wait it advises suffices,
      under a fixed or a ramping ceiling ([governor_wait_suffices]).

    ** Bounds and fuel

    A loop whose end is not structural takes fuel, and a theorem says that the
    fuel is enough, or running out is [Panic] or waiting and the theorems hold of
    every amount.  [catch_up_loop] and [evict_loop] have as much as the state
    they consume; the coordinator's, standby's and applier's loops over the log
    ([replay_folds_everything], [standby_follows_the_log]) take any fuel, and
    without answer when it runs out; [put_varint_loop] has 5 or 10 turns, one per
    byte of the widest varint; the search for the newest key doubles at most 64
    times and probes at most 128 times, the width of its [u64]s; a walk of the
    log has one turn per object of the store and one more ([open_terminates]); a
    handler waiting for a round or an assignment is still waiting when its fuel
    is spent; [due_loop] has one turn per entry of the heap; the walks of
    [survey] and [derive] one per offset of the range, as a turn that does not
    advance ends them.  The loops over the records of a batch have one turn per
    byte; a chain of manifests is followed for 16 hops, as in the code; a parked
    fetch reads four times at most ([parked_fetch_answers]); a creator that lost the race for a name looks 64
    times, as in the code; the walk of a listing has as many pages as its argument
    says, and one more than the store has objects is enough
    ([stored_listing_exact]).

    ** How the code is read

    Integers are [Z] with their widths written out where the code checks,
    saturates, wraps or truncates; every profile of the build checks overflow, so
    an unchecked overflow is a panic.  [usize] is 64 bits wide.  A [HashMap] is a
    [gmap]; a loop over one is a fold over [map_to_list], on whose order no
    result depends.  A [Duration] is a number of nanoseconds.  A floating-point
    field of a message is its bits; the one comparison of ratios is exact for the
    counts it can see.  A store call is atomic; its answer may be lost.  Clocks
    of different nodes may differ and the theorems that need it bound the
    difference.  A [Notify] may wake its waiters at any time.  Sections under
    nested locks are one step.  Metrics, tracing and debug assertions are left
    out.  A cancelled task is one that takes no further step; the release of what
    it held by its destructor is not modelled.  Authorization is an argument of
    the handlers, as is the source of time.

    ** What is not modelled

    Sockets, TLS, SASL, telemetry, the HTTP clients of the stores, ciphers and
    compression are input and output, or calls into other libraries; key
    services, the source of entropy, the vectorised checksum and the region
    sealer are parameters.
    The metadata request, and the requests that create, delete and configure
    topics are not modelled (the catalog and the cache they call are), nor is the
    sharing of one load of a creator's topics by its concurrent callers; the stored group log is proved at the contract of its trait,
    not at its objects.
    PROJECT.json lists each part. *)

From stdpp Require Import base tactics list numbers strings gmap sorting.
From Stdlib Require Import ZArith Lia.

Open Scope Z_scope.

(** ** Results

    The program is Rust: a fallible operation returns [Ok] or [Err], and a
    partial one (slice indexing, [unreachable!]) may panic.  [Panic] is kept
    apart from [Err] so that panic-freedom is a theorem and not a convention. *)

Inductive Result (E A : Type) : Type :=
| Ok (a : A)
| Err (e : E)
| Panic.
Arguments Ok {E A} a.
Arguments Err {E A} e.
Arguments Panic {E A}.

Definition res_bind {E A B} (r : Result E A) (k : A -> Result E B) : Result E B :=
  match r with
  | Ok a => k a
  | Err e => Err e
  | Panic => Panic
  end.

Definition res_map_err {E F A} (f : E -> F) (r : Result E A) : Result F A :=
  match r with
  | Ok a => Ok a
  | Err e => Err (f e)
  | Panic => Panic
  end.

Definition is_ok {E A} (r : Result E A) : bool :=
  match r with Ok _ => true | _ => false end.

(** [Result::is_ok_and]. *)
Definition is_ok_and {E A} (r : Result E A) (p : A -> bool) : bool :=
  match r with Ok a => p a | _ => false end.

Declare Scope oq_scope.
Delimit Scope oq_scope with oq.
Notation "'let?' x ':=' e 'in' k" := (res_bind e (fun x => k))
  (at level 10, x pattern, e at level 200, k at level 200) : oq_scope.
Open Scope oq_scope.

(** A [for] loop whose body may return early with an error. *)
Fixpoint res_foldl {E S A} (f : S -> A -> Result E S) (s : S) (l : list A) : Result E S :=
  match l with
  | [] => Ok s
  | a :: l => let? s' := f s a in res_foldl f s' l
  end.

Section results.

Lemma Ok_inj {E A} (a b : A) : Ok (E := E) a = Ok b -> a = b.
Proof. by intros [= ->]. Qed.

Lemma res_bind_Ok {E A B} (r : Result E A) (k : A -> Result E B) b :
  res_bind r k = Ok b <-> exists a, r = Ok a /\ k a = Ok b.
Proof. destruct r; simpl; naive_solver. Qed.

Lemma res_bind_Err {E A B} (r : Result E A) (k : A -> Result E B) e :
  res_bind r k = Err e <-> r = Err e \/ exists a, r = Ok a /\ k a = Err e.
Proof. destruct r; simpl; naive_solver. Qed.

Lemma res_bind_Panic {E A B} (r : Result E A) (k : A -> Result E B) :
  res_bind r k = Panic <-> r = Panic \/ exists a, r = Ok a /\ k a = Panic.
Proof. destruct r; simpl; naive_solver. Qed.

Lemma res_bind_assoc {E A B C} (r : Result E A) (k : A -> Result E B) (h : B -> Result E C) :
  res_bind (res_bind r k) h = res_bind r (fun a => res_bind (k a) h).
Proof. by destruct r. Qed.

Lemma res_bind_ext {E A B} (r : Result E A) (k h : A -> Result E B) :
  (forall a, r = Ok a -> k a = h a) -> res_bind r k = res_bind r h.
Proof. destruct r; simpl; auto. Qed.

Context {E A S : Type}.

Lemma res_foldl_app (f : S -> A -> Result E S) s l1 l2 :
  res_foldl f s (l1 ++ l2) = let? s' := res_foldl f s l1 in res_foldl f s' l2.
Proof.
  revert s; induction l1 as [|a l1 IH]; intros s; simpl; [done|].
  by destruct (f s a); simpl.
Qed.

Lemma res_foldl_ext (f g : S -> A -> Result E S) s l :
  (forall s a, a ∈ l -> f s a = g s a) -> res_foldl f s l = res_foldl g s l.
Proof.
  revert s; induction l as [|a l IH]; intros s Hfg; simpl; [done|].
  rewrite Hfg by set_solver. apply res_bind_ext. intros s' _. apply IH. set_solver.
Qed.

Lemma res_foldl_all_ok (f : S -> A -> Result E S) (g : S -> A -> S) s l :
  (forall s a, a ∈ l -> f s a = Ok (g s a)) -> res_foldl f s l = Ok (foldl g s l).
Proof.
  revert s; induction l as [|a l IH]; intros s Hfg; simpl; [done|].
  rewrite Hfg by set_solver. simpl. apply IH. set_solver.
Qed.

(** A loop invariant of a fallible loop. *)
Lemma res_foldl_inv (P : S -> Prop) (f : S -> A -> Result E S) s l s' :
  P s -> (forall s a s', a ∈ l -> P s -> f s a = Ok s' -> P s') ->
  res_foldl f s l = Ok s' -> P s'.
Proof.
  revert s; induction l as [|a l IH]; intros s Hs Hstep; simpl.
  - by intros [= <-].
  - intros (s1 & H1 & H2)%res_bind_Ok.
    eapply IH, H2; [|intros; eapply Hstep; eauto; set_solver].
    eapply Hstep; eauto. set_solver.
Qed.

Lemma res_foldl_no_panic (P : S -> Prop) (f : S -> A -> Result E S) s l :
  P s -> (forall s a, a ∈ l -> P s -> f s a <> Panic) ->
  (forall s a s', a ∈ l -> P s -> f s a = Ok s' -> P s') ->
  res_foldl f s l <> Panic.
Proof.
  revert s; induction l as [|a l IH]; intros s Hs Hnp Hstep; simpl; [done|].
  intros [H|(s1 & H1 & H2)]%res_bind_Panic.
  - eapply Hnp; eauto. set_solver.
  - eapply IH; [eapply Hstep|..|exact H2]; eauto; set_solver.
Qed.
End results.

(** Take apart every [let?] in the hypotheses. *)
Ltac simplify_res :=
  repeat match goal with
  | H : res_bind _ _ = Ok _ |- _ => apply res_bind_Ok in H as (? & ? & ?)
  | H : Ok _ = Ok _ |- _ => injection H as H
  | H : Ok _ = Err _ |- _ => discriminate H
  | H : Err _ = Ok _ |- _ => discriminate H
  | H : Panic = Ok _ |- _ => discriminate H
  | H : Ok _ = Panic |- _ => discriminate H
  | H : Err _ = Panic |- _ => discriminate H
  end; simplify_eq/=.

(** ** Machine integers

    A w-bit integer is a [Z] whose range is written out; the operations below
    are the ones of Rust's integer types that the modelled code calls. *)

Definition i16_min : Z := - 2 ^ 15.
Definition i16_max : Z := 2 ^ 15 - 1.
Definition i32_min : Z := - 2 ^ 31.
Definition i32_max : Z := 2 ^ 31 - 1.
Definition i64_min : Z := - 2 ^ 63.
Definition i64_max : Z := 2 ^ 63 - 1.
Definition u8_max : Z := 2 ^ 8 - 1.
Definition u32_max : Z := 2 ^ 32 - 1.
Definition u64_max : Z := 2 ^ 64 - 1.
(** [usize] on the 64-bit targets the workspace builds for. *)
Definition usize_max : Z := u64_max.

Definition in_i64 (z : Z) : Prop := i64_min <= z <= i64_max.
Definition in_u32 (z : Z) : Prop := 0 <= z <= u32_max.
Definition in_u64 (z : Z) : Prop := 0 <= z <= u64_max.

Definition i64_checked_add (a b : Z) : option Z :=
  let s := a + b in
  if (i64_min <=? s) && (s <=? i64_max) then Some s else None.
Definition u64_checked_add (a b : Z) : option Z :=
  let s := a + b in if s <=? u64_max then Some s else None.
Definition u64_saturating_add (a b : Z) : Z := Z.min (a + b) u64_max.
Definition u64_saturating_sub (a b : Z) : Z := Z.max (a - b) 0.
Definition i64_saturating_add (a b : Z) : Z := Z.max i64_min (Z.min (a + b) i64_max).
Definition i64_saturating_sub (a b : Z) : Z := Z.max i64_min (Z.min (a - b) i64_max).
(** [i64::try_from(usize).unwrap_or(i64::MAX)]. *)
Definition i64_of_usize (n : Z) : Z := Z.min n i64_max.

Create HintDb oq discriminated.
#[export] Hint Unfold i16_min i16_max i32_min i32_max i64_min i64_max u8_max
  u32_max u64_max usize_max in_i64 in_u32 in_u64 : oq.

(** [lia] with the machine ranges unfolded. *)
Ltac mlia :=
  unfold i64_checked_add, u64_checked_add, u64_saturating_add, u64_saturating_sub,
    i64_saturating_add, i64_saturating_sub, i64_of_usize, in_i64, in_u32, in_u64,
    i16_min, i16_max, i32_min, i32_max, i64_min, i64_max, u8_max, u32_max, usize_max, u64_max in *;
  lia.

(** Decide the boolean comparisons of the code in the goal and hypotheses. *)
Ltac zbool :=
  repeat match goal with
  | H : (_ && _)%bool = true |- _ => apply andb_true_iff in H as [? ?]
  | H : (_ || _)%bool = false |- _ => apply orb_false_iff in H as [? ?]
  | H : (_ <? _) = true |- _ => apply Z.ltb_lt in H
  | H : (_ <? _) = false |- _ => apply Z.ltb_ge in H
  | H : (_ <=? _) = true |- _ => apply Z.leb_le in H
  | H : (_ <=? _) = false |- _ => apply Z.leb_gt in H
  | H : (_ =? _) = true |- _ => apply Z.eqb_eq in H
  | H : (_ =? _) = false |- _ => apply Z.eqb_neq in H
  | H : negb _ = true |- _ => apply negb_true_iff in H
  | H : negb _ = false |- _ => apply negb_false_iff in H
  end.

(** Close a decidable closed goal by evaluating its decision procedure. *)
Ltac vm_decide := apply (bool_decide_unpack _); vm_compute; exact I.

(** ** Stable sort by an integer key ([slice::sort_by_key]) *)

Fixpoint insert_by_key {A} (key : A -> Z) (x : A) (l : list A) : list A :=
  match l with
  | [] => [x]
  | y :: l' => if key x <=? key y then x :: l else y :: insert_by_key key x l'
  end.

Definition sort_by_key {A} (key : A -> Z) (l : list A) : list A :=
  foldr (insert_by_key key) [] l.

Section sorting.
Context {A : Type} (key : A -> Z).

(** Ascending by key; each element is checked against the next. *)
Fixpoint ascending (l : list A) : Prop :=
  match l with
  | x :: (y :: _) as l' => key x <= key y /\ ascending l'
  | _ => True
  end.

Lemma insert_by_key_Permutation x l : insert_by_key key x l ≡ₚ x :: l.
Proof.
  induction l as [|y l IH]; simpl; [done|].
  destruct (key x <=? key y); [done|].
  by rewrite IH, Permutation_swap.
Qed.

Lemma sort_by_key_Permutation l : sort_by_key key l ≡ₚ l.
Proof.
  induction l as [|x l IH]; simpl; [done|].
  by rewrite insert_by_key_Permutation, IH.
Qed.

(** An already ascending list is left alone. *)
Lemma sort_by_key_ascending l : ascending l -> sort_by_key key l = l.
Proof.
  induction l as [|x l IH]; [done|].
  intros Hl. simpl. rewrite IH by (destruct l; naive_solver).
  destruct l as [|y l]; [done|]. simpl. destruct Hl as [Hxy _].
  by apply Z.leb_le in Hxy as ->.
Qed.

Lemma insert_by_key_sorted x l :
  StronglySorted (fun a b => key a <= key b) l ->
  StronglySorted (fun a b => key a <= key b) (insert_by_key key x l).
Proof.
  induction 1 as [|y l Hl IH Hy]; simpl; [repeat constructor|].
  destruct (key x <=? key y) eqn:Hxy; zbool; constructor.
  - by constructor.
  - constructor; [done|]. eapply Forall_impl; [exact Hy|]. simpl. lia.
  - done.
  - rewrite insert_by_key_Permutation. constructor; [lia|done].
Qed.

Lemma sort_by_key_sorted l : StronglySorted (fun a b => key a <= key b) (sort_by_key key l).
Proof. induction l; simpl; [constructor|]. by apply insert_by_key_sorted. Qed.

Lemma sorted_ascending l : StronglySorted (fun a b => key a <= key b) l -> ascending l.
Proof.
  induction 1 as [|x l Hl IH Hx]; [done|]. destruct l as [|y l]; [done|]. split; [|done]. by apply Forall_cons in Hx as [? _].
Qed.
End sorting.

Lemma StronglySorted_filter_b {A} (R : relation A) (f : A -> bool) l : StronglySorted R l -> StronglySorted R (List.filter f l).
Proof.
  induction 1 as [|x l Hl IH Hx]; simpl; [constructor|]. destruct (f x); [|done]. constructor; [done|].
  rewrite Forall_forall in Hx |- *. intros y Hy. apply Hx. rewrite list_elem_of_In in Hy |- *. by apply List.filter_In in Hy as [? _].
Qed.

(** Sorting pairs whose first components are the indices below [n] puts each
    pair at its index. *)
Lemma sort_by_index {B} (l : list (nat * B)) n :
  map fst l ≡ₚ seq 0 n ->
  map fst (sort_by_key (fun o => Z.of_nat o.1) l) = seq 0 n.
Proof.
  intros Hperm. apply (StronglySorted_unique le).
  - pose proof (sort_by_key_sorted (fun o : nat * B => Z.of_nat o.1) l) as Hs.
    induction Hs as [|x l' Hl IH Hx]; simpl; constructor; [done|].
    apply List.Forall_map. eapply Forall_impl; [exact Hx|]. simpl. lia.
  - clear. generalize 0%nat. induction n as [|n IH]; intros k; simpl; constructor; [done|].
    apply Forall_forall. intros x [? ?]%elem_of_seq. lia.
  - rewrite <-Hperm. by rewrite sort_by_key_Permutation.
Qed.

Lemma sort_by_index_lookup {B} (l : list (nat * B)) n i b :
  map fst l ≡ₚ seq 0 n ->
  map snd (sort_by_key (fun o => Z.of_nat o.1) l) !! i = Some b <-> (i, b) ∈ l.
Proof.
  intros Hperm. pose proof (sort_by_index l n Hperm) as Hfst.
  rewrite <-(sort_by_key_Permutation (fun o : nat * B => Z.of_nat o.1) l) at 2.
  set (l' := sort_by_key _ l) in *. change (map snd l') with (snd <$> l').
  rewrite list_lookup_fmap, fmap_Some. change (map fst l') with (fst <$> l') in Hfst.
  assert (forall j x, l' !! j = Some x -> x.1 = j) as Hidx.
  { intros j x Hj. assert ((fst <$> l') !! j = Some x.1) as Hf by (by rewrite list_lookup_fmap, Hj).
    rewrite Hfst in Hf. apply lookup_seq in Hf as [-> _]. lia. }
  split.
  - intros ([j b'] & Hl & ->). apply Hidx in Hl as Hj. simpl in *. subst j.
    by eapply list_elem_of_lookup_2.
  - intros (j & Hj)%list_elem_of_lookup. apply Hidx in Hj as Heq. simpl in Heq. subst j. eauto.
Qed.

(** ** Lists *)

Section lists.
Context {A : Type}.

Definition sumZ (l : list Z) : Z := foldr Z.add 0 l.

Lemma sumZ_app l1 l2 : sumZ (l1 ++ l2) = sumZ l1 + sumZ l2.
Proof. induction l1; simpl; lia. Qed.

(** How many elements satisfy a test. *)
Definition countb (p : A -> bool) (l : list A) : nat := length (List.filter p l).

Lemma countb_app p l1 l2 : countb p (l1 ++ l2) = (countb p l1 + countb p l2)%nat.
Proof. unfold countb. by rewrite List.filter_app, length_app. Qed.

Lemma countb_cons p x l :
  countb p (x :: l) = ((if p x then 1 else 0) + countb p l)%nat.
Proof. unfold countb; simpl. by destruct (p x). Qed.

Lemma countb_Permutation p l1 l2 : l1 ≡ₚ l2 -> countb p l1 = countb p l2.
Proof.
  induction 1 as [|x l1 l2 _ IH|x y l|l1 l2 l3 _ IH1 _ IH2]; [done|..];
    rewrite ?countb_cons; lia.
Qed.

Lemma countb_pos p x l : x ∈ l -> p x = true -> (0 < countb p l)%nat.
Proof.
  induction 1 as [|x y l _ IH]; intros Hp; rewrite countb_cons; [rewrite Hp; lia|].
  specialize (IH Hp). lia.
Qed.

Lemma countb_zero p l : countb p l = 0%nat -> forall x, x ∈ l -> p x = false.
Proof.
  intros Hc x Hx. destruct (p x) eqn:Hp; [|done].
  pose proof (countb_pos p x l Hx Hp). lia.
Qed.

Lemma countb_filter_split p q l :
  countb p l = (countb p (List.filter q l) + countb p (List.filter (fun x => negb (q x)) l))%nat.
Proof.
  induction l as [|x l IH]; [done|]. simpl.
  destruct (q x) eqn:Hq; simpl; rewrite !countb_cons, IH; lia.
Qed.
End lists.

Lemma filter_map_swap {A B} (f : B -> bool) (g : A -> B) l :
  List.filter f (map g l) = map g (List.filter (fun a => f (g a)) l).
Proof. induction l as [|a l IH]; simpl; [done|]. destruct (f (g a)); simpl; by rewrite IH. Qed.

Lemma size_list_to_set_le {A} `{Countable A} (l : list A) :
  (size (list_to_set l : gset A) <= length l)%nat.
Proof.
  induction l as [|x l IH]; simpl; [done|].
  rewrite size_union_alt, size_singleton.
  assert (size ((list_to_set l : gset A) ∖ {[x]}) <= size (list_to_set l : gset A))%nat; [|lia].
  apply subseteq_size. set_solver.
Qed.

(** ** Nested maps

    The program keys its per-partition state by topic and then by partition
    ([HashMap<TopicId, HashMap<PartitionId, V>>]) so that a read borrows the
    topic.  [lookup2] is [get(topic).and_then(|parts| parts.get(&partition))],
    and [insert2] is [entry(topic).or_default().insert(partition, v)]. *)

Notation map2 V := (gmap string (gmap Z V)).

Definition lookup2 {V} (m : map2 V) (t : string) (p : Z) : option V :=
  m !! t ≫= fun parts => parts !! p.

Definition insert2 {V} (m : map2 V) (t : string) (p : Z) (v : V) : map2 V :=
  <[t := <[p := v]> (default ∅ (m !! t))]> m.

Section map2.
Context {V : Type}.
Implicit Types m : map2 V.

Lemma lookup2_empty t p : lookup2 (∅ : map2 V) t p = None.
Proof. unfold lookup2. by rewrite lookup_empty. Qed.

Lemma lookup2_insert2 m t p v t' p' :
  lookup2 (insert2 m t p v) t' p' =
    if decide ((t, p) = (t', p')) then Some v else lookup2 m t' p'.
Proof.
  unfold lookup2, insert2. destruct (decide (t = t')) as [<-|Ht].
  - rewrite lookup_insert_eq. simpl. destruct (decide (p = p')) as [<-|Hp].
    + rewrite lookup_insert_eq. by rewrite decide_True.
    + rewrite lookup_insert_ne by done. rewrite decide_False by congruence.
      by destruct (m !! t); simpl; rewrite ?lookup_empty.
  - rewrite lookup_insert_ne by done. by rewrite decide_False by congruence.
Qed.

Lemma lookup2_insert2_eq m t p v : lookup2 (insert2 m t p v) t p = Some v.
Proof. rewrite lookup2_insert2. by rewrite decide_True. Qed.

Lemma lookup2_insert2_ne m t p v t' p' :
  (t, p) <> (t', p') -> lookup2 (insert2 m t p v) t' p' = lookup2 m t' p'.
Proof. intros. rewrite lookup2_insert2. by rewrite decide_False. Qed.

(** The same reads, keyed by the pair. *)
Definition flat (m : map2 V) : gmap (string * Z) V := map_uncurry (M12 := gmap (string * Z)) m.

Lemma lookup_flat m t p : flat m !! (t, p) = lookup2 m t p.
Proof. unfold flat, lookup2. by rewrite lookup_map_uncurry. Qed.

Lemma flat_empty : flat ∅ = ∅.
Proof. apply map_eq. intros [t p]. by rewrite lookup_flat, lookup2_empty, lookup_empty. Qed.

Lemma flat_insert2 m t p v : flat (insert2 m t p v) = <[(t, p) := v]> (flat m).
Proof.
  apply map_eq. intros [t' p']. rewrite lookup_flat, lookup2_insert2, lookup_insert.
  case_decide; [done|]. by rewrite lookup_flat.
Qed.

End map2.

(** ** Sums over a map *)

Section totals.
Context {K V : Type} `{Countable K} (f : V -> Z).

Definition total_of (m : gmap K V) : Z := map_fold (fun _ v acc => f v + acc) 0 m.

Lemma total_of_empty : total_of ∅ = 0.
Proof. apply map_fold_empty. Qed.

Lemma total_of_insert_fresh m k v : m !! k = None -> total_of (<[k := v]> m) = f v + total_of m.
Proof.
  intros Hk. unfold total_of. rewrite map_fold_insert_L; [done| |done]. intros. lia.
Qed.

Lemma total_of_lookup m k v : m !! k = Some v -> total_of m = f v + total_of (delete k m).
Proof.
  intros Hk. rewrite <-(insert_id m k v) at 1 by done. rewrite <-insert_delete_eq.
  apply total_of_insert_fresh. apply lookup_delete_eq.
Qed.

(** Replacing one partition's value moves the total by its own difference. *)
Lemma total_of_insert m k v :
  total_of (<[k := v]> m) = total_of m + f v - from_option f 0 (m !! k).
Proof.
  destruct (m !! k) as [w|] eqn:Hk; simpl.
  - rewrite (total_of_lookup m k w Hk). rewrite <-insert_delete_eq.
    rewrite total_of_insert_fresh by apply lookup_delete_eq. lia.
  - rewrite total_of_insert_fresh by done. lia.
Qed.

Lemma total_of_nonneg m : (forall k v, m !! k = Some v -> 0 <= f v) -> 0 <= total_of m.
Proof.
  induction m as [|k v m Hk IH] using map_ind; intros Hm.
  - rewrite total_of_empty. lia.
  - rewrite total_of_insert_fresh by done.
    assert (0 <= f v) by (apply (Hm k); by rewrite lookup_insert_eq).
    assert (0 <= total_of m); [|lia]. apply IH. intros k' v' Hk'.
    apply (Hm k'). rewrite lookup_insert_ne; [done|]. by intros ->; rewrite Hk in Hk'.
Qed.

(** One value is at most the total of the non-negative values. *)
Lemma total_of_ge m k v :
  (forall k v, m !! k = Some v -> 0 <= f v) -> m !! k = Some v -> f v <= total_of m.
Proof.
  intros Hm Hk. rewrite (total_of_lookup m k v Hk).
  assert (0 <= total_of (delete k m)); [|lia]. apply total_of_nonneg.
  intros k' v' [_ ?]%lookup_delete_Some. eauto.
Qed.

(** So are the values at any distinct keys. *)
Lemma total_of_ge_list (l : list (K * V)) m :
  (forall k v, m !! k = Some v -> 0 <= f v) -> NoDup (l.*1) ->
  (forall k v, (k, v) ∈ l -> m !! k = Some v) -> sumZ (map (fun kv => f kv.2) l) <= total_of m.
Proof.
  revert m. induction l as [|[k v] l IH]; intros m Hm Hnd Hl; [by apply total_of_nonneg|].
  rewrite fmap_cons, NoDup_cons in Hnd. destruct Hnd as [Hk Hnd].
  rewrite (total_of_lookup m k v) by (apply Hl; set_solver). simpl.
  assert (sumZ (map (fun kv => f kv.2) l) <= total_of (delete k m)); [|unfold sumZ in *; lia].
  apply IH; [|done|].
  - intros k' v' [_ ?]%lookup_delete_Some. eauto.
  - intros k' v' Hin. rewrite lookup_delete_ne; [apply Hl; set_solver|].
    intros ->. apply Hk, list_elem_of_fmap. by exists (k', v').
Qed.

Lemma total_of_list m : total_of m = sumZ (map (fun kv => f kv.2) (map_to_list m)).
Proof.
  unfold total_of. rewrite map_fold_foldr. induction (map_to_list m) as [|[k v] l IH];
    simpl; [done|]. by rewrite IH.
Qed.
End totals.

#[export] Hint Rewrite @lookup2_empty @lookup2_insert2_eq : oq.

(** ** Loops over a map

    A loop over the entries of a map that changes, at each key, only what is
    held under that key.  The order of the entries does not matter: what the
    loop leaves at [k] is its body applied once to what was at [k]. *)
Lemma foldl_upd_lookup {K V P S} `{Countable K} (view : S -> gmap K P)
    (step : S -> K * V -> S) (g : K -> V -> option P -> option P)
    (l : list (K * V)) (acc : S) (k : K) :
  NoDup (l.*1) ->
  (forall s k v, (k, v) ∈ l -> view (step s (k, v)) = partial_alter (g k v) k (view s)) ->
  view (foldl step acc l) !! k =
    match (list_to_map l : gmap K V) !! k with
    | Some v => g k v (view acc !! k)
    | None => view acc !! k
    end.
Proof.
  revert acc; induction l as [|[k' v'] l IH]; intros acc Hnd Hstep; simpl.
  - by rewrite lookup_empty.
  - rewrite fmap_cons, NoDup_cons in Hnd. destruct Hnd as [Hk' Hnd].
    rewrite IH; [|done|intros; apply Hstep; set_solver].
    rewrite Hstep by set_solver. destruct (decide (k = k')) as [->|Hne].
    + rewrite lookup_insert_eq.
      rewrite (not_elem_of_list_to_map_1 (M := gmap K) l k') by done.
      by rewrite lookup_partial_alter_eq.
    + rewrite lookup_insert_ne by done. by rewrite lookup_partial_alter_ne by done.
Qed.

Lemma foldl_upd_map {K V P S} `{Countable K} (view : S -> gmap K P)
    (step : S -> K * V -> S) (g : K -> V -> option P -> option P) (m : gmap K V) (acc : S) (k : K) :
  (forall s k v, m !! k = Some v -> view (step s (k, v)) = partial_alter (g k v) k (view s)) ->
  view (foldl step acc (map_to_list m)) !! k =
    match m !! k with
    | Some v => g k v (view acc !! k)
    | None => view acc !! k
    end.
Proof.
  intros Hstep. rewrite (foldl_upd_lookup view step g).
  - by rewrite list_to_map_to_list.
  - apply NoDup_fst_map_to_list.
  - intros s' k' v' Hin%elem_of_map_to_list. eauto.
Qed.

(** ** Comparing results up to a relation on what they return *)

Definition res_equiv {E A B} (R : A -> B -> Prop) (r1 : Result E A) (r2 : Result E B) : Prop :=
  match r1, r2 with
  | Ok a, Ok b => R a b
  | Err e, Err e' => e = e'
  | Panic, Panic => True
  | _, _ => False
  end.

Lemma res_equiv_bind {E A B C D} (R : A -> B -> Prop) (Q : C -> D -> Prop)
    (r1 : Result E A) (r2 : Result E B) k1 k2 :
  res_equiv R r1 r2 -> (forall a b, R a b -> res_equiv Q (k1 a) (k2 b)) ->
  res_equiv Q (res_bind r1 k1) (res_bind r2 k2).
Proof. destruct r1, r2; simpl; try done; auto. Qed.

Lemma res_equiv_foldl {E S T A} (R : S -> T -> Prop) (f : S -> A -> Result E S)
    (g : T -> A -> Result E T) l s t :
  R s t -> (forall s t a, R s t -> res_equiv R (f s a) (g t a)) ->
  res_equiv R (res_foldl f s l) (res_foldl g t l).
Proof.
  intros Hst Hstep. revert s t Hst. induction l as [|a l IH]; intros s t Hst; simpl; [done|].
  eapply res_equiv_bind; [by apply Hstep|]. auto.
Qed.
