(* ===== verification/Bytes.v ===== *)
(** * Bytes: byte strings, big-endian integers, UTF-8 and the cursor monads

    What the codecs share: a byte is a [Z] in [0, 255], [to_be_bytes] and
    [from_be_bytes] at their widths, two's complement, [core::str::from_utf8]'s
    check, and the writer and reader shapes with the lemmas that compose a
    round trip out of the round trips of its fields. *)

From stdpp Require Import base tactics list numbers strings.
From Stdlib Require Import ZArith Lia Ascii.
From S2P Require Import Prelude.

Open Scope Z_scope.

Notation bytes := (list Z).

Definition is_byte (b : Z) : Prop := 0 <= b <= u8_max.

(** ** Big-endian integers *)

Fixpoint be_bytes (n : nat) (v : Z) : bytes :=
  match n with
  | O => []
  | S n => (v / 256 ^ Z.of_nat n) mod 256 :: be_bytes n v
  end.

Definition from_be (bs : bytes) : Z := foldl (fun acc b => acc * 256 + b) 0 bs.

(** Two's complement at a width in bytes. *)
Definition to_unsigned (n : nat) (v : Z) : Z := v mod 256 ^ Z.of_nat n.
Definition to_signed (n : nat) (u : Z) : Z :=
  if u <? 256 ^ Z.of_nat n / 2 then u else u - 256 ^ Z.of_nat n.

(** [iN::to_be_bytes] and [iN::from_be_bytes]. *)
Definition be_signed (n : nat) (v : Z) : bytes := be_bytes n (to_unsigned n v).
Definition from_be_signed (n : nat) (bs : bytes) : Z := to_signed n (from_be bs).

Lemma be_bytes_length n v : length (be_bytes n v) = n.
Proof. induction n; simpl; auto. Qed.

Lemma be_bytes_is_byte n v : Forall is_byte (be_bytes n v).
Proof.
  induction n as [|n IH]; simpl; constructor; [|done].
  pose proof (Z.mod_pos_bound (v / 256 ^ Z.of_nat n) 256). unfold is_byte, u8_max. lia.
Qed.

Lemma from_be_app bs1 bs2 :
  from_be (bs1 ++ bs2) = from_be bs1 * 256 ^ Z.of_nat (length bs2) + from_be bs2.
Proof.
  assert (forall bs acc, foldl (fun acc b => acc * 256 + b) acc bs =
    acc * 256 ^ Z.of_nat (length bs) + from_be bs) as Hacc.
  { unfold from_be. induction bs as [|b bs IH]; intros acc; simpl foldl; [simpl; lia|].
    rewrite IH, (IH (0 * 256 + b)). simpl length.
    rewrite Nat2Z.inj_succ, Z.pow_succ_r by lia. ring. }
  unfold from_be at 1. rewrite foldl_app. apply Hacc.
Qed.

Lemma pow256_pos n : 0 < 256 ^ Z.of_nat n.
Proof. apply Z.pow_pos_nonneg; lia. Qed.

Lemma from_be_bytes n v : from_be (be_bytes n v) = v mod 256 ^ Z.of_nat n.
Proof.
  induction n as [|n IH]; [simpl; by rewrite Z.mod_1_r|].
  cbn [be_bytes]. change (?b :: be_bytes n v) with ([b] ++ be_bytes n v).
  rewrite from_be_app, be_bytes_length, IH. unfold from_be; simpl foldl.
  rewrite Nat2Z.inj_succ, Z.pow_succ_r by lia. pose proof (pow256_pos n).
  rewrite (Z.mul_comm 256), Z.rem_mul_r by lia. ring.
Qed.

Lemma from_be_be n v : 0 <= v < 256 ^ Z.of_nat n -> from_be (be_bytes n v) = v.
Proof. intros Hv. rewrite from_be_bytes. by apply Z.mod_small. Qed.

Lemma from_be_bound bs : Forall is_byte bs -> 0 <= from_be bs < 256 ^ Z.of_nat (length bs).
Proof.
  induction bs as [|b bs IH] using rev_ind; intros Hb; [simpl; unfold from_be; simpl; lia|].
  apply Forall_app in Hb as [Hbs [Hb _]%Forall_cons]. specialize (IH Hbs). rewrite from_be_app, length_app. simpl.
  rewrite Nat.add_1_r, (Nat2Z.inj_succ (length bs)), (Z.pow_succ_r _ (Z.of_nat (length bs))) by lia.
  change (256 ^ Z.of_nat 1) with 256. change (from_be [b]) with (0 * 256 + b).
  unfold is_byte, u8_max in Hb. lia.
Qed.

Definition fits_signed (n : nat) (v : Z) : Prop :=
  - (256 ^ Z.of_nat n / 2) <= v < 256 ^ Z.of_nat n / 2.

Lemma from_be_signed_fits n bs :
  (0 < n)%nat -> Forall is_byte bs -> (length bs <= n)%nat -> fits_signed n (from_be_signed n bs).
Proof.
  intros Hn Hb Hl. pose proof (from_be_bound bs Hb) as H.
  assert (256 ^ Z.of_nat (length bs) <= 256 ^ Z.of_nat n) as Hp by (apply Z.pow_le_mono_r; lia).
  assert (256 ^ Z.of_nat n = 2 * (256 ^ Z.of_nat n / 2)) as He.
  { replace n with (S (pred n)) by lia. rewrite Nat2Z.inj_succ, Z.pow_succ_r by lia.
    replace (256 * 256 ^ Z.of_nat (pred n)) with (128 * 256 ^ Z.of_nat (pred n) * 2) by lia. rewrite Z.div_mul; lia. }
  unfold fits_signed, from_be_signed, to_signed. destruct (Z.ltb_spec (from_be bs) (256 ^ Z.of_nat n / 2)); lia.
Qed.

Lemma from_be_be_signed n v :
  (0 < n)%nat -> fits_signed n v -> from_be_signed n (be_signed n v) = v.
Proof.
  intros Hn Hv. unfold from_be_signed, be_signed, to_unsigned, to_signed, fits_signed in *.
  rewrite from_be_bytes, Z.mod_mod by (pose proof (pow256_pos n); lia).
  assert (256 ^ Z.of_nat n = 2 * (256 ^ Z.of_nat n / 2)) as Heven.
  { destruct n as [|n]; [lia|]. rewrite Nat2Z.inj_succ, Z.pow_succ_r by lia.
    replace (256 * 256 ^ Z.of_nat n) with (128 * 256 ^ Z.of_nat n * 2) by lia.
    rewrite Z.div_mul by lia. lia. }
  set (m := 256 ^ Z.of_nat n) in *. set (h := m / 2) in *.
  destruct (Z_lt_dec v 0).
  - replace (v mod m) with (v + m) by (apply (Z.mod_unique v m (-1)); lia).
    rewrite (proj2 (Z.ltb_ge _ _)) by lia. lia.
  - rewrite Z.mod_small by lia. by rewrite (proj2 (Z.ltb_lt _ _)) by lia.
Qed.

#[global] Arguments be_bytes : simpl never.

(** ** Strings and UTF-8 *)

Definition byte_of_ascii (a : Ascii.ascii) : Z := Z.of_N (Ascii.N_of_ascii a).
Definition ascii_of_byte (b : Z) : Ascii.ascii := Ascii.ascii_of_N (Z.to_N b).

(** [str::as_bytes], and the string those bytes spell. *)
Definition as_bytes (s : string) : bytes := map byte_of_ascii (String.list_ascii_of_string s).
Definition of_bytes (bs : bytes) : string := String.string_of_list_ascii (map ascii_of_byte bs).

Lemma of_as_bytes s : of_bytes (as_bytes s) = s.
Proof.
  unfold of_bytes, as_bytes. rewrite map_map.
  rewrite (map_ext _ (fun a => a)), map_id.
  - apply String.string_of_list_ascii_of_string.
  - intros a. unfold ascii_of_byte, byte_of_ascii. rewrite N2Z.id. apply Ascii.ascii_N_embedding.
Qed.

Lemma as_of_bytes bs : Forall is_byte bs -> as_bytes (of_bytes bs) = bs.
Proof.
  intros Hb. unfold of_bytes, as_bytes. rewrite String.list_ascii_of_string_of_list_ascii, map_map.
  induction Hb as [|b bs H1 _ IH]; [done|]. simpl. rewrite IH. f_equal.
  unfold byte_of_ascii, ascii_of_byte, is_byte, u8_max in *. rewrite Ascii.N_ascii_embedding; lia.
Qed.

Definition in_range (lo hi b : Z) : bool := (lo <=? b) && (b <=? hi).

(** A continuation byte. *)
Definition cont (b : Z) : bool := in_range 128 191 b.

(** The well-formed byte sequences of UTF-8, as [core::str::from_utf8] checks
    them: no overlong form, no surrogate, nothing above U+10FFFF. *)
Fixpoint utf8_valid (bs : bytes) : bool :=
  match bs with
  | [] => true
  | b0 :: r0 =>
      if in_range 0 127 b0 then utf8_valid r0
      else match r0 with
      | [] => false
      | b1 :: r1 =>
          if in_range 194 223 b0 then cont b1 && utf8_valid r1
          else match r1 with
          | [] => false
          | b2 :: r2 =>
              if in_range 224 239 b0 then
                (if b0 =? 224 then in_range 160 191 b1
                 else if b0 =? 237 then in_range 128 159 b1 else cont b1)
                && cont b2 && utf8_valid r2
              else match r2 with
              | [] => false
              | b3 :: r3 =>
                  if in_range 240 244 b0 then
                    (if b0 =? 240 then in_range 144 191 b1
                     else if b0 =? 244 then in_range 128 143 b1 else cont b1)
                    && cont b2 && cont b3 && utf8_valid r3
                  else false
              end
          end
      end
  end.

(** A Rust [str]: its bytes are valid UTF-8. *)
Definition is_str (s : string) : Prop := utf8_valid (as_bytes s) = true.

(** ** Reading with a cursor *)

Section readers.
Context {E : Type}.

(** A reader over a fixed buffer, at a position. *)
Definition Reader (A : Type) : Type := bytes -> nat -> Result E (A * nat).

Definition rd_ret {A} (a : A) : Reader A := fun _ at_ => Ok (a, at_).
Definition rd_bind {A B} (m : Reader A) (k : A -> Reader B) : Reader B := fun buf at_ =>
  let? (a, at_) := m buf at_ in k a buf at_.

(** The reader reads exactly [bs] and returns [a], wherever [bs] stands. *)
Definition reads {A} (m : Reader A) (bs : bytes) (a : A) : Prop :=
  forall pre post, m (pre ++ bs ++ post) (length pre) = Ok (a, (length pre + length bs)%nat).

(** The reader looks at nothing beyond what it consumes. *)
Definition prefix_safe {A} (m : Reader A) : Prop :=
  forall buf ext at_ a at', m buf at_ = Ok (a, at') -> m (buf ++ ext) at_ = Ok (a, at').

Lemma reads_ret {A} (a : A) : reads (rd_ret a) [] a.
Proof. intros pre post. unfold rd_ret. simpl. by rewrite Nat.add_0_r. Qed.

Lemma reads_bind {A B} (m : Reader A) (k : A -> Reader B) bs1 bs2 a b :
  reads m bs1 a -> reads (k a) bs2 b -> reads (rd_bind m k) (bs1 ++ bs2) b.
Proof.
  intros Hm Hk pre post. unfold rd_bind. rewrite <-app_assoc, Hm. simpl.
  specialize (Hk (pre ++ bs1) post). rewrite <-app_assoc, length_app in Hk.
  rewrite Hk, length_app. do 2 f_equal. lia.
Qed.

Lemma prefix_safe_ret {A} (a : A) : prefix_safe (rd_ret a).
Proof. intros buf ext at_ ? ? [= <- <-]. done. Qed.

Lemma prefix_safe_bind {A B} (m : Reader A) (k : A -> Reader B) :
  prefix_safe m -> (forall a, prefix_safe (k a)) -> prefix_safe (rd_bind m k).
Proof.
  intros Hm Hk buf ext at_ b at'. unfold rd_bind. intros ([a at1] & H1 & H2)%res_bind_Ok.
  rewrite (Hm _ _ _ _ _ H1). simpl. by apply Hk.
Qed.

(** [for _ in 0..count]. *)
Fixpoint rd_times {A} (n : nat) (m : Reader A) : Reader (list A) :=
  match n with
  | O => rd_ret []
  | S n => rd_bind m (fun a => rd_bind (rd_times n m) (fun l => rd_ret (a :: l)))
  end.

Lemma reads_times {A} (m : Reader A) (enc : A -> bytes) l :
  Forall (fun a => reads m (enc a) a) l ->
  reads (rd_times (length l) m) (concat (map enc l)) l.
Proof.
  induction 1 as [|a l Ha _ IH]; simpl; [apply reads_ret|].
  apply (reads_bind _ _ (enc a) _ a); [done|]. rewrite <-(app_nil_r (concat _)).
  apply (reads_bind _ _ _ [] l); [done|apply reads_ret].
Qed.

Lemma prefix_safe_times {A} (m : Reader A) n : prefix_safe m -> prefix_safe (rd_times n m).
Proof.
  intros Hm. induction n as [|n IH]; simpl; [apply prefix_safe_ret|].
  apply prefix_safe_bind; [done|]. intros a. apply prefix_safe_bind; [done|].
  intros l. apply prefix_safe_ret.
Qed.

(** ** Writing to a buffer *)

Definition Writer : Type := bytes -> Result E bytes.

Definition wr_bytes (bs : bytes) : Writer := fun out => Ok (out ++ bs).
Definition wr_seq (w1 w2 : Writer) : Writer := fun out => let? out := w1 out in w2 out.
Definition wr_nil : Writer := fun out => Ok out.

(** The writer appends exactly [bs]. *)
Definition emits (w : Writer) (bs : bytes) : Prop := forall out, w out = Ok (out ++ bs).

Lemma emits_bytes bs : emits (wr_bytes bs) bs.
Proof. done. Qed.

Lemma emits_nil : emits wr_nil [].
Proof. intros out. unfold wr_nil. by rewrite app_nil_r. Qed.

Lemma emits_seq w1 w2 bs1 bs2 : emits w1 bs1 -> emits w2 bs2 -> emits (wr_seq w1 w2) (bs1 ++ bs2).
Proof. intros H1 H2 out. unfold wr_seq. rewrite H1. simpl. by rewrite H2, app_assoc. Qed.

(** [for x in xs { write(x)? }]. *)
Definition wr_each {A} (f : A -> Writer) (l : list A) : Writer :=
  fun out => res_foldl (fun out a => f a out) out l.

Lemma emits_each {A} (f : A -> Writer) (enc : A -> bytes) l :
  Forall (fun a => emits (f a) (enc a)) l -> emits (wr_each f l) (concat (map enc l)).
Proof.
  induction 1 as [|a l Ha _ IH]; intros out; unfold wr_each; simpl; [by rewrite app_nil_r|].
  rewrite Ha. simpl. unfold wr_each in IH. by rewrite IH, app_assoc.
Qed.

(** ** Round trips

    The reader [m] inverts the writer [w] at [a]: whatever [w] appends, when it
    does not refuse, [m] reads back as [a], consuming exactly that. *)
Definition inverts {A} (w : Writer) (m : Reader A) (a : A) : Prop :=
  forall out out', w out = Ok out' -> exists bs, out' = out ++ bs /\ reads m bs a.

Lemma inverts_bytes {A} (m : Reader A) bs a : reads m bs a -> inverts (wr_bytes bs) m a.
Proof. intros Hr out out' [= <-]. eauto. Qed.

Lemma inverts_nil {A} (a : A) : inverts wr_nil (rd_ret a) a.
Proof. intros out out' [= <-]. exists []. rewrite app_nil_r. auto using reads_ret. Qed.

Lemma inverts_seq {A B} w1 w2 (m : Reader A) (k : A -> Reader B) a b :
  inverts w1 m a -> inverts w2 (k a) b -> inverts (wr_seq w1 w2) (rd_bind m k) b.
Proof.
  intros H1 H2 out out' (out1 & Hw1 & Hw2)%res_bind_Ok.
  destruct (H1 _ _ Hw1) as (bs1 & -> & Hr1). destruct (H2 _ _ Hw2) as (bs2 & -> & Hr2).
  exists (bs1 ++ bs2). split; [by rewrite app_assoc|]. by eapply reads_bind.
Qed.

(** The last field of a record. *)
Lemma inverts_last {A B} w (m : Reader A) (f : A -> B) a :
  inverts w m a -> inverts w (rd_bind m (fun x => rd_ret (f x))) (f a).
Proof.
  intros Hw out out' H1. destruct (Hw _ _ H1) as (bs & -> & Hr). exists bs. split; [done|].
  rewrite <-(app_nil_r bs). eapply reads_bind; [done|apply reads_ret].
Qed.

Lemma inverts_each {A} (f : A -> Writer) (m : Reader A) l :
  Forall (fun a => inverts (f a) m a) l -> inverts (wr_each f l) (rd_times (length l) m) l.
Proof.
  induction 1 as [|a l Ha _ IH]; intros out out'; unfold wr_each; simpl.
  - intros [= <-]. exists []. rewrite app_nil_r. auto using reads_ret.
  - intros (out1 & H1 & H2)%res_bind_Ok. destruct (Ha _ _ H1) as (bs1 & -> & Hr1).
    destruct (IH _ _ H2) as (bs2 & -> & Hr2). exists (bs1 ++ bs2). split; [by rewrite app_assoc|].
    eapply reads_bind; [done|]. rewrite <-(app_nil_r bs2). eapply reads_bind; [done|apply reads_ret].
Qed.

(** A reader that checks what it read, and passes. *)
Lemma reads_check {A B} (m : Reader A) (k : A -> Reader B) bs a b :
  reads m bs a -> (forall buf at_, k a buf at_ = Ok (b, at_)) -> reads (rd_bind m k) bs b.
Proof.
  intros Hm Hk. rewrite <-(app_nil_r bs). eapply reads_bind; [done|].
  intros pre post. rewrite Hk. simpl. by rewrite Nat.add_0_r.
Qed.
End readers.
Arguments Reader E A : clear implicits.
Arguments Writer E : clear implicits.

Notation "'rd!' x ':=' m 'in' k" := (rd_bind m (fun x => k))
  (at level 10, x pattern, m at level 200, k at level 200) : oq_scope.
Notation "w1 +> w2" := (wr_seq w1 w2) (at level 60, right associativity) : oq_scope.

Create HintDb codec discriminated.
#[export] Hint Resolve reads_ret emits_bytes emits_nil : codec.
#[export] Hint Resolve prefix_safe_ret prefix_safe_bind prefix_safe_times : codec.
