(* ===== verification/Types.v ===== *)
(** * Types: the identifiers, positions and log records of [oqueue-core]

    Models [error.rs], [topic.rs], [partition.rs], [object_key.rs], [offset.rs],
    [commit_version.rs], [byte_range.rs], [time_span.rs], [producer_identity.rs],
    [object_ref.rs], [metadata_record.rs] and the entry type of [metadata_log.rs].
    A newtype over a string or a machine integer is that string or a [Z]; the
    constructors that refuse a value keep the refusal. *)

From stdpp Require Import base tactics list numbers strings gmap.
From Stdlib Require Import ZArith Lia.
From S2P Require Import Prelude Bytes.

Open Scope Z_scope.

(** ** The error enum, with the source's variants *)

Inductive Error : Type :=
| EmptyTopicId
| TopicNameReserved
| NegativePartitionId (got : Z)
| NegativeOffset (got : Z)
| NegativeProducerId (got : Z)
| EmptyPrincipal
| NegativeProducerEpoch (got : Z)
| NegativeOffsetDelta (got : Z)
| NonMonotonicCommitVersion (expected_above : Z) (got : Z)
| CommitVersionOverflow (base : Z) (delta : Z)
| OffsetOverflow (base : Z) (delta : Z)
| EmptySpanInLog (topic : string) (partition : Z) (object : string)
| SwapRefused (topic : string) (partition : Z) (because : string)
| TrimPastEnd (topic : string) (partition : Z) (start : Z) (end_ : Z)
| BelowLogStart (requested : Z) (log_start : Z)
| GcInequalityViolated (delay_ms : Z) (bound_ms : Z)
| IndexQuotaExceeded (topic : string) (partition : Z) (would_be : Z) (ceiling : Z)
| InvalidIndexQuota (ceiling : Z) (alarm_at : Z)
| NegativeTimestamp (got : Z)
| NegativeClockAdvance (got : Z)
| TimestampOverflow (base : Z) (delta : Z)
| SecretRejected (context : string) (key_id : string)
| EmptyKeyId
| InvalidKeyId (reason : string)
| KeyRevoked (key_id : string)
| DekLength (got : Z)
| EncryptionDisabled
| ObjectNotFound (key : string)
| EmptyObjectKey
| EmptyByteRange
| UnknownRegionAlg (code : Z)
| RegionNotEncrypted
| RegionEnvelopeMismatch (sealed : bool)
| RegionKeyDomainMismatch (expected_sealed : bool)
| RegionEnvelopeLength (field : string) (got : Z)
| SealedRegionNotRepresentable (context : string)
| RegionOpenFailed
| EntropyUnavailable
| RegionSealFailed
| MalformedCompositeManifest (at_ : Z)
| NotACompositeManifest
| UnknownCompositeVersion (version : Z)
| ManifestDoesNotMeetHistory (topic : string) (partition : Z) (upto : Z) (expected : Z)
| MalformedMetadataSegment (at_ : Z)
| MalformedPartitionManifest (at_ : Z)
| NotAPartitionManifest
| UnknownPartitionManifestVersion (version : Z)
| UnknownBundleFormat (version : Z)
| MalformedBundleFooter (at_ : Z)
| BundleTailTooShort (got : Z) (needed : Z)
| EmptyRegion
| UnboundedRegion
| BundleTooLarge
| NonceWriterEpochOutOfRange (got : Z)
| NonceObjectSequenceOutOfRange (got : Z)
| NonceRegionOutOfRange (got : Z)
| NonceRegionOutOfOrder (expected : Z) (got : Z)
| MalformedWriterId
| BundleSequenceExhausted
| EmptyBundle
| IndexObjectMismatch
| ByteRangeOutOfBounds (key : string) (offset : Z) (length : Z) (object_size : Z)
| ChunkLengthTooLarge (length : Z) (chunk_size : Z)
| SlowDown
| Throttled
| Transient
| PreconditionFailed (key : string)
| PartTooSmall (bytes : Z) (min : Z)
| PartTooLarge (bytes : Z) (max : Z)
| TooManyParts (max : Z)
| ObjectTooLarge (max : Z)
| EmptyGroupId
| EmptyMemberId
| IllegalGroupTransition (state : string) (event : string)
| Permanent
| OverlappingCompactionPlans
| CompactionRoundTooLarge (records : Z) (budget : Z).

Notation Res := (Result Error).

(** ** Identifiers

    [TopicId] and [ObjectKey] are non-empty strings, [PartitionId] a
    non-negative [i32], [Timestamp] a non-negative [i64]. *)

Notation TopicId := string (only parsing).
Notation ObjectKey := string (only parsing).
Notation PartitionId := Z (only parsing).
Notation Timestamp := Z (only parsing).

Definition TopicId_new (name : string) : Res TopicId :=
  if decide (name = EmptyString) then Err EmptyTopicId else Ok name.

Definition PartitionId_new (index : Z) : Res PartitionId :=
  if index <? 0 then Err (NegativePartitionId index) else Ok index.

Definition ObjectKey_new (key : string) : Res ObjectKey :=
  if decide (key = EmptyString) then Err EmptyObjectKey else Ok key.

Definition Timestamp_from_millis (millis : Z) : Res Timestamp :=
  if millis <? 0 then Err (NegativeTimestamp millis) else Ok millis.

(** ** Offsets *)

Notation Offset := Z (only parsing).

Definition Offset_ZERO : Offset := 0.

Definition Offset_new (value : Z) : Res Offset :=
  if value <? 0 then Err (NegativeOffset value) else Ok value.

Definition Offset_add (self : Offset) (delta : Z) : Res Offset :=
  if delta <? 0 then Err (NegativeOffsetDelta delta)
  else match i64_checked_add self delta with
       | Some sum => Ok sum
       | None => Err (OffsetOverflow self delta)
       end.

(** The type invariant of [Offset]: a non-negative [i64]. *)
Definition offset_wf (o : Offset) : Prop := 0 <= o <= i64_max.

(** ** Commit versions *)

Notation CommitVersion := Z (only parsing).

Definition CommitVersion_ZERO : CommitVersion := 0.

Definition CommitVersion_advance (self : CommitVersion) (delta : Z) : Res CommitVersion :=
  match u64_checked_add self delta with
  | Some sum => Ok sum
  | None => Err (CommitVersionOverflow self delta)
  end.

Notation CoordinatorEpoch := Z (only parsing).

(** ** Byte ranges *)

Inductive ByteRange : Type :=
| Full
| Bounded (offset : Z) (length : Z).

Definition ByteRange_bounded (offset length : Z) : Res ByteRange :=
  if length =? 0 then Err EmptyByteRange else Ok (Bounded offset length).

(** ** Commit-time extents *)

Record TimeSpan : Type := mkTimeSpan { ts_min : Timestamp; ts_max : Timestamp }.

Definition TimeSpan_at (when : Timestamp) : TimeSpan := mkTimeSpan when when.

Definition TimeSpan_widened (self other : TimeSpan) : TimeSpan :=
  mkTimeSpan (Z.min (ts_min self) (ts_min other)) (Z.max (ts_max self) (ts_max other)).

(** ** Producers *)

Notation ProducerId := Z (only parsing).
Notation ProducerEpoch := Z (only parsing).

Definition ProducerId_new (value : Z) : Res ProducerId :=
  if value <? 0 then Err (NegativeProducerId value) else Ok value.

Definition ProducerEpoch_new (value : Z) : Res ProducerEpoch :=
  if value <? 0 then Err (NegativeProducerEpoch value) else Ok value.

Record ProducerIdentity : Type := mkProducerIdentity {
  pi_id : ProducerId;
  pi_epoch : ProducerEpoch;
  pi_sequence : Z;
}.

(** ** Object references: the index's storage layout *)

Record ObjectRef : Type := mkObjectRef {
  or_object : ObjectKey;
  or_base_offset : Offset;
  or_record_count : Z;
}.

Definition ObjectRef_end_offset (self : ObjectRef) : Res Offset :=
  Offset_add (or_base_offset self) (or_record_count self).

Definition ObjectRef_contains (self : ObjectRef) (offset : Offset) : Res bool :=
  if or_base_offset self <=? offset
  then let? e := ObjectRef_end_offset self in Ok (offset <? e)
  else Ok false.

Record TailEntry : Type := mkTailEntry { te_reference : ObjectRef; te_bytes : ByteRange }.

Definition TailEntry_demote (self : TailEntry) : ObjectRef := te_reference self.

Inductive IndexedBatch : Type :=
| Inline (entry : TailEntry)
| Footer (reference : ObjectRef).

Definition IndexedBatch_reference (self : IndexedBatch) : ObjectRef :=
  match self with
  | Inline entry => te_reference entry
  | Footer reference => reference
  end.

Definition IndexedBatch_bytes (self : IndexedBatch) : option ByteRange :=
  match self with
  | Inline entry => Some (te_bytes entry)
  | Footer _ => None
  end.

Definition IndexedBatch_known_len (self : IndexedBatch) : option Z :=
  match IndexedBatch_bytes self with
  | Some (Bounded _ length) => Some length
  | Some Full | None => None
  end.

(** ** The metadata log's records *)

Record CommittedSpan : Type := mkCommittedSpan {
  cs_topic : TopicId;
  cs_partition : PartitionId;
  cs_record_count : Z;
  cs_bytes : ByteRange;
  cs_producer : option ProducerIdentity;
}.

Inductive MetadataRecord : Type :=
| BatchCommitted (object : ObjectKey) (spans : list CommittedSpan) (written_at : Timestamp)
| ManifestPublished (topic : TopicId) (partition : PartitionId) (manifest : ObjectKey)
    (upto : Offset)
| RangeCompacted (topic : TopicId) (partition : PartitionId)
    (retiring installing : list ObjectRef)
| Trimmed (topic : TopicId) (partition : PartitionId) (start : Offset)
| EpochChanged (epoch : CoordinatorEpoch)
| TopicRetentionChanged (topic : TopicId) (retention_ms : option Z).

Record MetadataEntry : Type := mkMetadataEntry {
  me_version : CommitVersion;
  me_record : MetadataRecord;
}.

(** ** Decidable equality *)

#[export] Instance ByteRange_eq_dec : EqDecision ByteRange.
Proof. solve_decision. Defined.
#[export] Instance TimeSpan_eq_dec : EqDecision TimeSpan.
Proof. solve_decision. Defined.
#[export] Instance ObjectRef_eq_dec : EqDecision ObjectRef.
Proof. solve_decision. Defined.
#[export] Instance TailEntry_eq_dec : EqDecision TailEntry.
Proof. solve_decision. Defined.
#[export] Instance ProducerIdentity_eq_dec : EqDecision ProducerIdentity.
Proof. solve_decision. Defined.
#[export] Instance CommittedSpan_eq_dec : EqDecision CommittedSpan.
Proof. solve_decision. Defined.
#[export] Instance MetadataRecord_eq_dec : EqDecision MetadataRecord.
Proof. solve_decision. Defined.
#[export] Instance MetadataEntry_eq_dec : EqDecision MetadataEntry.
Proof. solve_decision. Defined.

(** ** The range of the machine types inside a reference

    [or_record_count] is a [u32] and the base an [Offset]; [ref_live] is a
    reference whose end offset is representable and which covers at least one
    offset. *)

Definition or_end (r : ObjectRef) : Z := or_base_offset r + or_record_count r.

Definition ref_live (r : ObjectRef) : Prop :=
  0 <= or_base_offset r /\ 0 < or_record_count r /\ or_end r <= i64_max.

(** What the Rust types guarantee of a record's fields: names are non-empty
    UTF-8, integers are within their width, a bounded range is not empty. *)

Definition name_wf (s : string) : Prop := is_str s /\ s <> EmptyString.
Definition partition_wf (p : Z) : Prop := 0 <= p <= i32_max.
Definition timestamp_wf (t : Timestamp) : Prop := 0 <= t <= i64_max.
Definition i64_wf (v : Z) : Prop := i64_min <= v <= i64_max.

Definition range_wf (r : ByteRange) : Prop :=
  match r with
  | Full => True
  | Bounded offset length => in_u64 offset /\ 0 < length <= u64_max
  end.

Definition producer_wf (p : option ProducerIdentity) : Prop :=
  match p with
  | None => True
  | Some p => 0 <= pi_id p <= i64_max /\ 0 <= pi_epoch p <= i16_max /\
              i32_min <= pi_sequence p <= i32_max
  end.

Definition ref_wf (r : ObjectRef) : Prop :=
  name_wf (or_object r) /\ offset_wf (or_base_offset r) /\ in_u32 (or_record_count r).

Definition span_wf (s : CommittedSpan) : Prop :=
  name_wf (cs_topic s) /\ partition_wf (cs_partition s) /\ in_u32 (cs_record_count s) /\
  range_wf (cs_bytes s) /\ producer_wf (cs_producer s).

Definition record_wf (r : MetadataRecord) : Prop :=
  match r with
  | BatchCommitted object spans written_at =>
      name_wf object /\ timestamp_wf written_at /\ Forall span_wf spans
  | ManifestPublished topic partition manifest upto =>
      name_wf topic /\ partition_wf partition /\ name_wf manifest /\ offset_wf upto
  | RangeCompacted topic partition retiring installing =>
      name_wf topic /\ partition_wf partition /\ Forall ref_wf retiring /\
      Forall ref_wf installing
  | Trimmed topic partition start => name_wf topic /\ partition_wf partition /\ offset_wf start
  | EpochChanged epoch => in_u64 epoch
  | TopicRetentionChanged topic retention_ms =>
      name_wf topic /\ match retention_ms with Some v => i64_wf v | None => True end
  end.

Definition entry_wf (e : MetadataEntry) : Prop :=
  in_u64 (me_version e) /\ record_wf (me_record e).

#[export] Instance name_wf_dec s : Decision (name_wf s).
Proof. unfold name_wf, is_str. apply _. Defined.
#[export] Instance range_wf_dec r : Decision (range_wf r).
Proof. destruct r; simpl; unfold in_u64; apply _. Defined.
#[export] Instance producer_wf_dec p : Decision (producer_wf p).
Proof. destruct p; simpl; apply _. Defined.
#[export] Instance ref_wf_dec r : Decision (ref_wf r).
Proof. unfold ref_wf, offset_wf, in_u32. apply _. Defined.
#[export] Instance span_wf_dec s : Decision (span_wf s).
Proof. unfold span_wf, partition_wf, in_u32. apply _. Defined.
#[export] Instance record_wf_dec r : Decision (record_wf r).
Proof.
  destruct r as [| | | | |t [v|]]; simpl; unfold partition_wf, timestamp_wf, offset_wf, in_u64, i64_wf; apply _.
Defined.
#[export] Instance entry_wf_dec e : Decision (entry_wf e).
Proof. unfold entry_wf, in_u64. apply _. Defined.

(** ** Lemmas *)

Lemma Offset_add_Ok o d o' :
  Offset_add o d = Ok o' <-> 0 <= d /\ i64_min <= o + d <= i64_max /\ o' = o + d.
Proof.
  unfold Offset_add, i64_checked_add. destruct (d <? 0) eqn:Hd; zbool.
  - split; [done|lia].
  - destruct ((i64_min <=? o + d) && (o + d <=? i64_max))%bool eqn:Hr; zbool.
    + split; [intros [= <-]; lia|intros (_ & _ & ->); done].
    + split; [done|]. intros (_ & [? ?] & _). apply andb_false_iff in Hr as []; zbool; lia.
Qed.

Lemma Offset_add_no_panic o d : Offset_add o d <> Panic.
Proof. unfold Offset_add. destruct (d <? 0), (i64_checked_add o d); done. Qed.

Lemma CommitVersion_advance_Ok v d v' :
  CommitVersion_advance v d = Ok v' <-> v + d <= u64_max /\ v' = v + d.
Proof.
  unfold CommitVersion_advance, u64_checked_add.
  destruct (v + d <=? u64_max) eqn:H; zbool.
  - split; [intros [= <-]; lia|intros (_ & ->); done].
  - split; [done|lia].
Qed.

Lemma ref_live_end r : ref_live r -> ObjectRef_end_offset r = Ok (or_end r).
Proof.
  intros (H0 & H1 & H2). unfold ObjectRef_end_offset. apply Offset_add_Ok.
  unfold or_end in *. mlia.
Qed.

Lemma ref_end_Ok r e : ObjectRef_end_offset r = Ok e -> e = or_end r /\ 0 <= or_record_count r /\ e <= i64_max.
Proof. intros (? & ? & ->)%Offset_add_Ok. unfold or_end. mlia. Qed.

Lemma TimeSpan_widened_assoc a b c :
  TimeSpan_widened (TimeSpan_widened a b) c = TimeSpan_widened a (TimeSpan_widened b c).
Proof. unfold TimeSpan_widened; simpl. f_equal; lia. Qed.

Lemma TimeSpan_widened_comm a b : TimeSpan_widened a b = TimeSpan_widened b a.
Proof. unfold TimeSpan_widened; simpl. f_equal; lia. Qed.

Lemma TimeSpan_widened_idem a : TimeSpan_widened a a = a.
Proof. destruct a. unfold TimeSpan_widened; simpl. f_equal; lia. Qed.
