(* ===== verification/Retry.v ===== *)
(** * Retry: which failures are retried, how long apart, and how fast

    Models [oqueue-core]'s [retry.rs] (the class of every error and the policy
    that decides on it), [rate_governor.rs] (the token buckets in front of the
    object store) and [staleness.rs] with [read_mode.rs] (when a cache may
    answer a read). *)

From stdpp Require Import base tactics list numbers.
From Stdlib Require Import ZArith Lia.
From S2P Require Import Prelude Types.

Open Scope Z_scope.

(** ** Retries ([retry.rs]) *)

Inductive RetryClass : Type := RetryForever | RetryBounded | RetryNever.

Definition retry_class (self : Error) : RetryClass :=
  match self with
  | SlowDown | Throttled | IndexQuotaExceeded _ _ _ _ => RetryForever
  | Transient => RetryBounded
  | ObjectNotFound _ | EmptyTopicId | EmptyPrincipal | EmptyGroupId | EmptyMemberId
  | IllegalGroupTransition _ _ | NegativePartitionId _ | NegativeOffset _ | NegativeOffsetDelta _
  | NegativeProducerId _ | NegativeProducerEpoch _ | OffsetOverflow _ _ | CommitVersionOverflow _ _
  | NonMonotonicCommitVersion _ _ | NegativeTimestamp _ | NegativeClockAdvance _ | TimestampOverflow _ _
  | SecretRejected _ _ | EmptyKeyId | InvalidKeyId _ | KeyRevoked _ | EncryptionDisabled
  | EmptyObjectKey | EmptyByteRange | OverlappingCompactionPlans | CompactionRoundTooLarge _ _
  | UnknownRegionAlg _ | RegionNotEncrypted | RegionOpenFailed | RegionSealFailed
  | UnknownBundleFormat _ | MalformedBundleFooter _ | MalformedCompositeManifest _ | NotACompositeManifest
  | UnknownCompositeVersion _ | ManifestDoesNotMeetHistory _ _ _ _ | MalformedPartitionManifest _
  | MalformedMetadataSegment _ | NotAPartitionManifest | UnknownPartitionManifestVersion _
  | BundleTailTooShort _ _ | EmptyBundle | IndexObjectMismatch | EmptyRegion | EmptySpanInLog _ _ _
  | SwapRefused _ _ _ | TrimPastEnd _ _ _ _ | BelowLogStart _ _ | GcInequalityViolated _ _
  | InvalidIndexQuota _ _ | UnboundedRegion | RegionEnvelopeMismatch _ | RegionKeyDomainMismatch _
  | RegionEnvelopeLength _ _ | SealedRegionNotRepresentable _ | BundleTooLarge | MalformedWriterId
  | NonceWriterEpochOutOfRange _ | NonceObjectSequenceOutOfRange _ | NonceRegionOutOfRange _
  | NonceRegionOutOfOrder _ _ | BundleSequenceExhausted | ByteRangeOutOfBounds _ _ _ _
  | ChunkLengthTooLarge _ _ | PartTooSmall _ _ | PartTooLarge _ _ | TooManyParts _ | ObjectTooLarge _
  | PreconditionFailed _ | DekLength _ | EntropyUnavailable | Permanent | TopicNameReserved => RetryNever
  end.

(** A [Duration] is a count of nanoseconds below 2^64 seconds. *)
Definition NANOS_PER_SEC : Z := 1000000000.
Definition DURATION_LIMIT : Z := 2 ^ 64 * NANOS_PER_SEC.
Definition duration_wf (d : Z) : Prop := 0 <= d < DURATION_LIMIT.
Definition Duration_MAX : Z := DURATION_LIMIT - 1.
Definition Duration_from_millis (ms : Z) : Z := ms * 1000000.
Definition Duration_as_millis (d : Z) : Z := d / 1000000.
Definition Duration_checked_mul (d by_ : Z) : option Z :=
  if d * by_ <? DURATION_LIMIT then Some (d * by_) else None.

Inductive RetryDecision : Type := Retry (delay : Z) | GiveUp.

Record RetryPolicy : Type := mkRetryPolicy {
  max_bounded_attempts : Z;
  base_delay : Z;
  max_delay : Z;
}.

Definition RetryPolicy_DEFAULT : RetryPolicy :=
  mkRetryPolicy 3 (Duration_from_millis 100) (5 * NANOS_PER_SEC).

Definition backoff (self : RetryPolicy) (attempts_so_far : Z) : Z :=
  let exponent := Z.max (attempts_so_far - 1) 0 in
  let multiplier := if 2 ^ exponent <=? u32_max then 2 ^ exponent else u32_max in
  match Duration_checked_mul (base_delay self) multiplier with
  | Some delay => Z.min delay (max_delay self)
  | None => max_delay self
  end.

Definition decide_retry (self : RetryPolicy) (error : Error) (attempts_so_far : Z) : RetryDecision :=
  match retry_class error with
  | RetryNever => GiveUp
  | RetryForever => Retry (backoff self attempts_so_far)
  | RetryBounded =>
      if max_bounded_attempts self <=? attempts_so_far then GiveUp
      else Retry (backoff self attempts_so_far)
  end.

(** ** The rate governor ([rate_governor.rs]) *)

Inductive OpClass : Type := Write | Read.
Definition same_class (a b : OpClass) : bool :=
  match a, b with Write, Write | Read, Read => true | _, _ => false end.

Inductive RateLimitPolicy : Type :=
| FixedCeiling (writes_per_sec reads_per_sec : Z)
| Ramping (initial_writes_per_sec initial_reads_per_sec doubling_period : Z).

Definition ceiling (self : RateLimitPolicy) (op_class : OpClass) (elapsed : Z) : Z :=
  match self with
  | FixedCeiling writes reads => match op_class with Write => writes | Read => reads end
  | Ramping writes reads doubling_period =>
      let initial := match op_class with Write => writes | Read => reads end in
      if doubling_period =? 0 then u32_max
      else
        let elapsed_ms := Z.min (Duration_as_millis elapsed) u64_max in
        let period_ms :=
          if Duration_as_millis doubling_period <=? u64_max then Duration_as_millis doubling_period else 1 in
        let doublings := Z.min (Z.min (elapsed_ms / Z.max period_ms 1) u32_max) 32 in
        Z.min (Z.min (initial * Z.shiftl 1 doublings) u64_max) u32_max
  end.

Inductive RateDecision : Type := Admit | Delay (wait : Z).

Record Bucket : Type := mkBucket {
  bk_tokens : Z;
  bk_last_refill : Timestamp;
  bk_carry_millitokens : Z;
  bk_carry_ceiling : Z;
}.

Definition u64_saturating_mul (a b : Z) : Z := Z.min (a * b) u64_max.

Definition Bucket_admit (self : Bucket) (now : Timestamp) (ceiling : Z) : Bucket * RateDecision :=
  if ceiling =? 0 then (self, Delay Duration_MAX)
  else
    let elapsed_ms := Z.max (i64_saturating_sub now (bk_last_refill self)) 0 in
    let carried := if bk_carry_ceiling self =? ceiling then bk_carry_millitokens self else 0 in
    let millitokens := u64_saturating_add carried (u64_saturating_mul elapsed_ms ceiling) in
    let earned := Z.min (millitokens / 1000) u32_max in
    let tokens := Z.min (Z.min (bk_tokens self + earned) u32_max) ceiling in
    if 1 <=? tokens then (mkBucket (tokens - 1) now (millitokens mod 1000) ceiling, Admit)
    else (mkBucket tokens now (millitokens mod 1000) ceiling,
          Delay (Duration_from_millis ((1000 + ceiling - 1) / ceiling))).

Record RateGovernor : Type := mkRateGovernor {
  rg_policy : RateLimitPolicy;
  rg_created_at : Timestamp;
  rg_write_bucket : Bucket;
  rg_read_bucket : Bucket;
}.

Definition RateGovernor_new (policy : RateLimitPolicy) (now : Timestamp) : RateGovernor :=
  let write := ceiling policy Write 0 in
  let read := ceiling policy Read 0 in
  mkRateGovernor policy now (mkBucket write now 0 write) (mkBucket read now 0 read).

Definition RateGovernor_admit (self : RateGovernor) (op_class : OpClass) (now : Timestamp)
    : RateGovernor * RateDecision :=
  let elapsed := Duration_from_millis (Z.max (i64_saturating_sub now (rg_created_at self)) 0) in
  let limit := ceiling (rg_policy self) op_class elapsed in
  match op_class with
  | Write =>
      let (bucket, d) := Bucket_admit (rg_write_bucket self) now limit in
      (mkRateGovernor (rg_policy self) (rg_created_at self) bucket (rg_read_bucket self), d)
  | Read =>
      let (bucket, d) := Bucket_admit (rg_read_bucket self) now limit in
      (mkRateGovernor (rg_policy self) (rg_created_at self) (rg_write_bucket self) bucket, d)
  end.

(** ** Stale caches ([staleness.rs], [read_mode.rs]) *)

Definition MAX_METADATA_STALENESS_MS : Z := 5000.

Record SessionWatermark : Type := mkWatermark {
  wm_epoch : CoordinatorEpoch;
  wm_version : CommitVersion;
}.

Inductive ReadMode : Type :=
| Stale
| AtLeast (watermark : SessionWatermark)
| Linearizable.

Inductive RefreshReason : Type :=
| Authoritative
| NotYetVisible (wanted : Z) (applied : option Z)
| PushStreamSilent (silent_for_ms limit_ms : Z)
| CacheFromAnotherEpoch (cache current : Z)
| CacheFromAnOlderEpoch (watermark cache : Z)
| WatermarkFromAnotherEpoch (watermark cache : Z).

Record CacheState : Type := mkCacheState {
  cs_epoch : CoordinatorEpoch;
  cs_applied : option CommitVersion;
  cs_silent_for_ms : Z;
}.

Definition admits (self : CacheState) (mode : ReadMode) (current_epoch : CoordinatorEpoch)
    : Result RefreshReason unit :=
  if negb (cs_epoch self =? current_epoch) then Err (CacheFromAnotherEpoch (cs_epoch self) current_epoch)
  else if match mode with Linearizable => true | _ => false end then Err Authoritative
  else if match mode with AtLeast want => cs_epoch self <? wm_epoch want | _ => false end
  then Err (CacheFromAnOlderEpoch (match mode with AtLeast want => wm_epoch want | _ => 0 end) (cs_epoch self))
  else if MAX_METADATA_STALENESS_MS <? cs_silent_for_ms self
  then Err (PushStreamSilent (cs_silent_for_ms self) MAX_METADATA_STALENESS_MS)
  else match mode with
  | Linearizable => Err Authoritative
  | Stale => Ok tt
  | AtLeast want =>
      if negb (wm_epoch want =? cs_epoch self)
      then Err (WatermarkFromAnotherEpoch (wm_epoch want) (cs_epoch self))
      else if match cs_applied self with Some applied => wm_version want <=? applied | None => false end
      then Ok tt
      else Err (NotYetVisible (wm_version want) (cs_applied self))
  end.

(** * What the retry policy, the rate governor and the staleness check ensure *)

(** ** Backoff *)

Definition policy_wf (p : RetryPolicy) : Prop := 0 <= base_delay p /\ duration_wf (max_delay p).

(** The delay before attempt [n + 1]. *)
Lemma backoff_closed p n :
  policy_wf p -> 1 <= n ->
  backoff p n = Z.min (base_delay p * Z.min (2 ^ (n - 1)) u32_max) (max_delay p).
Proof.
  intros [Hb [Hm0 Hm]] Hn. unfold backoff, Duration_checked_mul. rewrite (Z.max_l (n - 1)) by lia.
  assert ((if 2 ^ (n - 1) <=? u32_max then 2 ^ (n - 1) else u32_max) = Z.min (2 ^ (n - 1)) u32_max) as ->.
  { destruct (2 ^ (n - 1) <=? u32_max) eqn:He; zbool; lia. }
  destruct (_ <? DURATION_LIMIT) eqn:Hl; zbool; lia.
Qed.

(** Waits double from the base delay up to the cap, never shrink, and only a
    transient failure's retries are counted: once they are used up the policy
    gives up, a throttled call never does, and any other error gives up at once. *)
Theorem retry_delays_double p e n :
  policy_wf p -> 1 <= n ->
  match retry_class e with
  | RetryNever => decide_retry p e n = GiveUp
  | RetryBounded => (max_bounded_attempts p <= n -> decide_retry p e n = GiveUp) /\
      (n < max_bounded_attempts p -> decide_retry p e n = Retry (backoff p n))
  | RetryForever => decide_retry p e n = Retry (backoff p n)
  end /\
  backoff p n <= max_delay p /\ backoff p n <= backoff p (n + 1) /\
  (n <= 32 -> backoff p n = Z.min (base_delay p * 2 ^ (n - 1)) (max_delay p)).
Proof.
  intros Hp Hn. split; [|split_and!].
  - unfold decide_retry. destruct (retry_class e); [done| |done].
    split; intros Hc; destruct (_ <=? _) eqn:Hle; zbool; try done; lia.
  - rewrite backoff_closed by done. lia.
  - rewrite !backoff_closed by (done || lia). replace (n + 1 - 1) with (Z.succ (n - 1)) by lia.
    rewrite Z.pow_succ_r by lia. destruct Hp as [Hb _]. assert (0 < 2 ^ (n - 1)) by (apply Z.pow_pos_nonneg; lia).
    apply Z.min_le_compat_r, Z.mul_le_mono_nonneg_l; lia.
  - intros H32. rewrite backoff_closed by done. rewrite (Z.min_l (2 ^ (n - 1))); [done|].
    assert (2 ^ (n - 1) <= 2 ^ 31) by (apply Z.pow_le_mono_r; lia). mlia.
Qed.

Lemma retry_delays_double_witness :
  decide_retry RetryPolicy_DEFAULT Transient 2 = Retry (backoff RetryPolicy_DEFAULT 2) /\
  backoff RetryPolicy_DEFAULT 2 = 200000000.
Proof.
  destruct (retry_delays_double RetryPolicy_DEFAULT Transient 2) as ([_ Hd] & _ & _ & Hb);
    [vm_compute; intuition congruence|lia|]. split; [apply Hd; vm_compute; reflexivity|]. rewrite Hb by lia. reflexivity.
Defined.

(** ** Buckets *)

Definition bucket_wf (c : Z) (b : Bucket) : Prop :=
  0 <= bk_tokens b <= c /\ 0 <= bk_carry_millitokens b < 1000 /\ 0 <= bk_last_refill b <= i64_max.

(** What is in a bucket, in thousandths of a token. *)
Definition millis (b : Bucket) : Z := 1000 * bk_tokens b + bk_carry_millitokens b.

Definition admitted (d : RateDecision) : Z := match d with Admit => 1 | Delay _ => 0 end.

(** One call takes in no more than the time that passed earns. *)
Lemma Bucket_admit_spend b now c :
  1 <= c <= u32_max -> bucket_wf c b -> bk_last_refill b <= now <= i64_max ->
  let (b', d) := Bucket_admit b now c in
  bucket_wf c b' /\ bk_last_refill b' = now /\
  millis b' + 1000 * admitted d <= millis b + c * (now - bk_last_refill b).
Proof.
  intros Hc (Ht & Hcar & Hl) Hnow. unfold Bucket_admit.
  destruct (c =? 0) eqn:H0; zbool; [mlia|]. set (elapsed := Z.max _ 0).
  assert (elapsed = now - bk_last_refill b) as -> by (unfold elapsed; mlia).
  set (carried := if _ =? _ then _ else _).
  assert (0 <= carried <= bk_carry_millitokens b) as Hcarried by (unfold carried; destruct (_ =? _); lia).
  set (m := u64_saturating_add _ _).
  assert (0 <= m <= carried + (now - bk_last_refill b) * c) as Hm.
  { unfold m, u64_saturating_add, u64_saturating_mul. assert (0 <= (now - bk_last_refill b) * c) by nia. mlia. }
  set (tokens := Z.min _ c). assert (0 <= m / 1000) by (apply Z.div_pos; lia).
  assert (0 <= tokens <= c /\ tokens <= bk_tokens b + m / 1000) as [Htok Htok'] by (unfold tokens; mlia).
  pose proof (Z.div_mod m 1000 ltac:(lia)) as Hdm. pose proof (Z.mod_pos_bound m 1000 ltac:(lia)) as Hmod.
  destruct (1 <=? tokens) eqn:H1; zbool; unfold bucket_wf, millis; cbn [bk_tokens bk_carry_millitokens bk_last_refill admitted];
    split_and!; try lia; nia.
Qed.

(** What a bucket keeps to under any ceilings, not only a fixed one. *)
Definition bucket_at (now : Timestamp) (b : Bucket) : Prop :=
  0 <= bk_tokens b /\ 0 <= bk_carry_millitokens b /\ 0 <= bk_last_refill b <= now.

Lemma Bucket_admit_at b now c : 0 <= c -> bucket_at now b -> bucket_at now (Bucket_admit b now c).1.
Proof.
  intros Hc (Ht & Hcar & Hl). unfold Bucket_admit. destruct (c =? 0) eqn:H0; zbool; [done|].
  set (m := u64_saturating_add _ _). pose proof (Z.mod_pos_bound m 1000 ltac:(lia)) as Hmod.
  assert (0 <= m) by (unfold m, u64_saturating_add, u64_saturating_mul; destruct (_ =? _); mlia).
  assert (0 <= m / 1000) by (apply Z.div_pos; lia). set (tokens := Z.min _ c). assert (0 <= tokens) by (unfold tokens; mlia).
  clearbody m tokens. destruct (1 <=? tokens) eqn:Hge; zbool; unfold bucket_at; simpl; split_and!; lia.
Qed.

(** A call that is delayed is told to wait for one token at the ceiling of the
    moment. *)
Lemma Bucket_admit_delayed b now c wait :
  0 < c -> (Bucket_admit b now c).2 = Delay wait ->
  bk_last_refill (Bucket_admit b now c).1 = now /\ wait = Duration_from_millis ((1000 + c - 1) / c).
Proof.
  intros Hc. unfold Bucket_admit. destruct (c =? 0) eqn:H0; zbool; [lia|]. destruct (1 <=? _); [done|]. simpl. by intros [= <-].
Qed.

Lemma wait_earns c : 0 < c -> 1000 <= c * ((1000 + c - 1) / c) /\ 0 < (1000 + c - 1) / c <= 1000.
Proof.
  intros Hc. pose proof (Z.div_mod (1000 + c - 1) c ltac:(lia)). pose proof (Z.mod_pos_bound (1000 + c - 1) c ltac:(lia)).
  assert (1000 <= c * ((1000 + c - 1) / c)) by lia. split_and!; [done|nia|]. apply Z.div_le_upper_bound; nia.
Qed.

(** A call that waits as long as it was told to is admitted, at any ceiling no
    lower. *)
Lemma Bucket_admit_waited b now c wait now' c' :
  0 < c -> c <= c' <= u32_max -> bucket_at now b -> now <= i64_max ->
  (Bucket_admit b now c).2 = Delay wait -> now + wait / 1000000 <= now' <= i64_max ->
  (Bucket_admit (Bucket_admit b now c).1 now' c').2 = Admit.
Proof.
  intros Hc Hc' Hat Hnow Hd Hnow'. destruct (Bucket_admit_at b now c ltac:(lia) Hat) as (Ht & Hcar & Hl).
  destruct (Bucket_admit_delayed b now c wait Hc Hd) as [Hlast ->]. destruct (Bucket_admit b now c) as [b' d]. simpl in *.
  unfold Duration_from_millis in Hnow'. rewrite Z.div_mul in Hnow' by lia. destruct (wait_earns c Hc) as [Hdiv Hpos].
  unfold Bucket_admit. destruct (c' =? 0) eqn:H0; zbool; [lia|]. rewrite Hlast.
  set (elapsed := Z.max _ 0). assert (elapsed = now' - now) as -> by (unfold elapsed; mlia).
  set (m := u64_saturating_add _ _).
  assert (1000 <= m) as Hm.
  { unfold m, u64_saturating_add, u64_saturating_mul. assert (1000 <= (now' - now) * c') by nia. destruct (_ =? _); mlia. }
  assert (1 <= m / 1000) by (apply Z.div_le_lower_bound; lia).
  set (tokens := Z.min _ c'). assert (1 <= tokens) by (unfold tokens; mlia).
  destruct (1 <=? tokens) eqn:Hge; zbool; [done|lia].
Qed.

(** ** The governor *)

(** The class's bucket. *)
Definition bucket_of (k : OpClass) (g : RateGovernor) : Bucket :=
  match k with Write => rg_write_bucket g | Read => rg_read_bucket g end.

Fixpoint governed (g : RateGovernor) (calls : list (OpClass * Timestamp)) : RateGovernor * list RateDecision :=
  match calls with
  | [] => (g, [])
  | (k, now) :: calls =>
      let (g, d) := RateGovernor_admit g k now in
      let (g, ds) := governed g calls in (g, d :: ds)
  end.

(** How many calls of a class were admitted. *)
Fixpoint admitted_of (k : OpClass) (calls : list (OpClass * Timestamp)) (ds : list RateDecision) : Z :=
  match calls, ds with
  | (k', _) :: calls, d :: ds => (if same_class k k' then admitted d else 0) + admitted_of k calls ds
  | _, _ => 0
  end.

(** Calls at times that do not go back. *)
Fixpoint monotone (from : Timestamp) (calls : list (OpClass * Timestamp)) (until : Timestamp) : Prop :=
  match calls with
  | [] => from <= until
  | (_, now) :: calls => from <= now /\ monotone now calls until
  end.

Definition governor_wf (g : RateGovernor) (writes reads now : Z) : Prop :=
  rg_policy g = FixedCeiling writes reads /\ 0 <= now <= i64_max /\
  bucket_wf writes (rg_write_bucket g) /\ bucket_wf reads (rg_read_bucket g) /\
  bk_last_refill (rg_write_bucket g) <= now /\ bk_last_refill (rg_read_bucket g) <= now.

Definition limit_of (k : OpClass) (writes reads : Z) : Z := match k with Write => writes | Read => reads end.

Lemma monotone_le from calls until : monotone from calls until -> from <= until.
Proof.
  revert from. induction calls as [|[k now] calls IH]; intros from; simpl; [done|]. intros [H1 H2%IH]. lia.
Qed.

Lemma RateGovernor_admit_spend g writes reads k k' from now :
  1 <= writes <= u32_max -> 1 <= reads <= u32_max -> governor_wf g writes reads from -> from <= now <= i64_max ->
  let (g', d) := RateGovernor_admit g k' now in
  governor_wf g' writes reads now /\
  millis (bucket_of k g') - limit_of k writes reads * bk_last_refill (bucket_of k g') +
    1000 * (if same_class k k' then admitted d else 0) <=
  millis (bucket_of k g) - limit_of k writes reads * bk_last_refill (bucket_of k g).
Proof.
  intros Hw Hr (Hp & Hnow & Bw & Br & Lw & Lr) Hn. unfold RateGovernor_admit. rewrite Hp. cbn [ceiling].
  destruct k'.
  - pose proof (Bucket_admit_spend (rg_write_bucket g) now writes Hw Bw ltac:(lia)) as Hs.
    destruct (Bucket_admit _ now writes) as [b d]. destruct Hs as (Hb & Hlast & Hspend). split.
    + unfold governor_wf; simpl. rewrite Hlast. split_and!; try done; lia.
    + destruct k; simpl; [|lia]. rewrite Hlast. lia.
  - pose proof (Bucket_admit_spend (rg_read_bucket g) now reads Hr Br ltac:(lia)) as Hs.
    destruct (Bucket_admit _ now reads) as [b d]. destruct Hs as (Hb & Hlast & Hspend). split.
    + unfold governor_wf; simpl. rewrite Hlast. split_and!; try done; lia.
    + destruct k; simpl; [lia|]. rewrite Hlast. lia.
Qed.

Lemma governed_spend calls g writes reads k from until :
  1 <= writes <= u32_max -> 1 <= reads <= u32_max -> governor_wf g writes reads from ->
  monotone from calls until -> until <= i64_max ->
  let (g', ds) := governed g calls in
  governor_wf g' writes reads until /\
  millis (bucket_of k g') - limit_of k writes reads * bk_last_refill (bucket_of k g') + 1000 * admitted_of k calls ds <=
  millis (bucket_of k g) - limit_of k writes reads * bk_last_refill (bucket_of k g).
Proof.
  intros Hw Hr. revert g from. induction calls as [|[k' now] calls IH]; intros g from Hg Hmono Hun; cbn [governed].
  - simpl in *. destruct Hg as (A1 & A2 & A3 & A4 & A5 & A6). split; [|lia]. split_and!; try done; lia.
  - destruct Hmono as [H1 H2]. pose proof (monotone_le _ _ _ H2).
    pose proof (RateGovernor_admit_spend g writes reads k k' from now Hw Hr Hg ltac:(lia)) as Hs.
    destruct (RateGovernor_admit g k' now) as [g1 d]. destruct Hs as [Hg1 Hs].
    specialize (IH g1 now Hg1 H2 Hun). destruct (governed g1 calls) as [g2 ds]. destruct IH as [Hg2 IH].
    split; [done|]. cbn [admitted_of]. lia.
Qed.

(** Over any run of calls at times that do not go back, a fixed ceiling of [c]
    operations a second admits at most the initial burst of [c] and [c] for
    each second since. *)
Theorem governor_bounds_rate writes reads t0 calls until k :
  1 <= writes <= u32_max -> 1 <= reads <= u32_max -> 0 <= t0 -> monotone t0 calls until -> until <= i64_max ->
  let c := limit_of k writes reads in
  let ds := (governed (RateGovernor_new (FixedCeiling writes reads) t0) calls).2 in
  1000 * admitted_of k calls ds <= 1000 * c + c * (until - t0).
Proof.
  intros Hw Hr H0 Hmono Hun c. pose proof (monotone_le _ _ _ Hmono) as Hle.
  assert (governor_wf (RateGovernor_new (FixedCeiling writes reads) t0) writes reads t0) as Hg.
  { unfold governor_wf, bucket_wf; simpl. split_and!; try done; mlia. }
  pose proof (governed_spend calls _ writes reads k t0 until Hw Hr Hg Hmono Hun) as Hs.
  destruct (governed _ calls) as [g' ds]. destruct Hs as [(_ & _ & (A1 & A2 & A3) & (B1 & B2 & B3) & Lw & Lr) Hs].
  cbn zeta. cbn [snd]. subst c. destruct k; simpl in *; unfold millis in Hs; simpl in Hs; nia.
Qed.

Lemma governor_bounds_rate_witness :
  1000 * admitted_of Write [(Write, 0); (Write, 1)]
    (governed (RateGovernor_new (FixedCeiling 1 5) 0) [(Write, 0); (Write, 1)]).2 <= 1000 * 1 + 1 * (1 - 0).
Proof.
  apply (governor_bounds_rate 1 5 0 [(Write, 0); (Write, 1)] 1 Write); simpl; mlia.
Defined.

(** The limits a policy is made of are non-zero [u32]s. *)
Definition limits_wf (policy : RateLimitPolicy) : Prop :=
  match policy with
  | FixedCeiling writes reads => 1 <= writes <= u32_max /\ 1 <= reads <= u32_max
  | Ramping writes reads period => (1 <= writes <= u32_max /\ 1 <= reads <= u32_max) /\ 0 <= period
  end.

(** A ceiling never comes down. *)
Lemma ceiling_grows policy k e e' :
  limits_wf policy -> 0 <= e <= e' ->
  1 <= ceiling policy k e <= ceiling policy k e' /\ ceiling policy k e' <= u32_max.
Proof.
  destruct policy as [writes reads|writes reads period]; simpl.
  { intros [? ?] _. destruct k; split_and!; lia. }
  intros [Hlim Hp] He. set (initial := match k with Write => writes | Read => reads end).
  assert (1 <= initial <= u32_max) as Hi by (unfold initial; destruct k; lia).
  destruct (period =? 0); [split_and!; mlia|]. unfold Duration_as_millis.
  set (per := Z.max (if _ <=? _ then _ else 1) 1). assert (1 <= per) as Hper by (unfold per; lia).
  assert (0 <= e / 1000000 <= e' / 1000000) as [Hd0 Hd] by (split; [apply Z.div_pos; lia|apply Z.div_le_mono; lia]).
  set (d := Z.min _ 32). set (d' := Z.min _ 32).
  assert (0 <= d <= d') as Hdd.
  { assert (0 <= Z.min (e / 1000000) u64_max / per) by (apply Z.div_pos; mlia).
    assert (Z.min (e / 1000000) u64_max / per <= Z.min (e' / 1000000) u64_max / per) by (apply Z.div_le_mono; lia).
    unfold d, d'. mlia. }
  rewrite !Z.shiftl_1_l. assert (1 <= 2 ^ d) by (pose proof (Z.pow_pos_nonneg 2 d); lia).
  assert (2 ^ d <= 2 ^ d') by (apply Z.pow_le_mono_r; lia).
  assert (1 <= initial * 2 ^ d <= initial * 2 ^ d') by nia. split_and!; mlia.
Qed.

Definition governor_at (policy : RateLimitPolicy) (t0 now : Timestamp) (g : RateGovernor) : Prop :=
  rg_policy g = policy /\ rg_created_at g = t0 /\ bucket_at now (rg_write_bucket g) /\ bucket_at now (rg_read_bucket g).

(** How long a governor has run, as [admit] measures it. *)
Definition age (t0 now : Timestamp) : Z := Duration_from_millis (Z.max (i64_saturating_sub now t0) 0).

Lemma age_grows t0 now now' : 0 <= t0 -> 0 <= now <= now' -> now' <= i64_max -> 0 <= age t0 now <= age t0 now'.
Proof. intros. unfold age, Duration_from_millis. mlia. Qed.

(** One call: it is the one bucket's, and it leaves the other as it was. *)
Lemma RateGovernor_admit_at policy t0 k now g :
  limits_wf policy -> 0 <= t0 -> 0 <= now <= i64_max -> governor_at policy t0 now g ->
  let answer := Bucket_admit (bucket_of k g) now (ceiling policy k (age t0 now)) in
  let after_ := RateGovernor_admit g k now in
  governor_at policy t0 now after_.1 /\ after_.2 = answer.2 /\ bucket_of k after_.1 = answer.1 /\
  forall k', k' <> k -> bucket_of k' after_.1 = bucket_of k' g.
Proof.
  intros Hp H0 Hn (Hpol & Ht0 & Hw & Hr). cbv zeta. unfold RateGovernor_admit. rewrite Hpol, Ht0. fold (age t0 now).
  destruct (ceiling_grows policy k (age t0 now) (age t0 now) Hp) as ([Hc _] & _); [unfold age, Duration_from_millis; mlia|].
  destruct k; simpl.
  - pose proof (Bucket_admit_at _ now _ (Z.le_trans _ _ _ Z.le_0_1 Hc) Hw). destruct (Bucket_admit _ _ _) as [b d]. split_and!; try done. by intros [].
  - pose proof (Bucket_admit_at _ now _ (Z.le_trans _ _ _ Z.le_0_1 Hc) Hr). destruct (Bucket_admit _ _ _) as [b d]. split_and!; try done. by intros [].
Qed.

Lemma bucket_at_later now now' b : now <= now' -> bucket_at now b -> bucket_at now' b.
Proof. intros ? (? & ? & ?). split_and!; lia. Qed.

Lemma governed_at policy t0 k calls g from until :
  limits_wf policy -> 0 <= t0 -> 0 <= from -> governor_at policy t0 from g -> monotone from calls until -> until <= i64_max ->
  governor_at policy t0 until (governed g calls).1 /\
  (Forall (fun call => call.1 <> k) calls -> bucket_of k (governed g calls).1 = bucket_of k g).
Proof.
  intros Hp H0. revert g from. induction calls as [|[k' now] calls IH]; intros g from Hf Hg Hmono Hun; cbn [governed].
  { destruct Hg as (? & ? & ? & ?). split; [|done]. split_and!; try done; by eapply bucket_at_later. }
  destruct Hmono as [H1 H2]. pose proof (monotone_le _ _ _ H2).
  assert (governor_at policy t0 now g) as Hg' by (destruct Hg as (? & ? & ? & ?); split_and!; try done; by eapply bucket_at_later).
  destruct (RateGovernor_admit_at policy t0 k' now g Hp H0 ltac:(lia) Hg') as (Hat & _ & _ & Hother).
  destruct (RateGovernor_admit g k' now) as [g1 d]. simpl in *.
  destruct (IH g1 now ltac:(lia) Hat H2 Hun) as [HA HB]. destruct (governed g1 calls) as [g2 ds]. simpl in *.
  split; [done|]. intros Hall. inversion Hall as [|? ? Hne Hall_]; subst. rewrite (HB Hall_). apply Hother. simpl in Hne. congruence.
Qed.

Lemma RateGovernor_new_at policy t0 : limits_wf policy -> 0 <= t0 -> governor_at policy t0 t0 (RateGovernor_new policy t0).
Proof.
  intros Hp H0. unfold governor_at, RateGovernor_new, bucket_at. simpl.
  destruct (ceiling_grows policy Write 0 0 Hp ltac:(lia)) as ([? _] & _). destruct (ceiling_grows policy Read 0 0 Hp ltac:(lia)) as ([? _] & _).
  split_and!; try done; lia.
Qed.

(** C40. A caller the governor delays is told a wait that is enough.  Under a fixed
    ceiling or a ramping one, after any calls: the wait is at most a second, and a
    caller that waits that long is let through on its next call, whatever calls of
    the other class came in between, provided no other call of its own class did.
    Calls are at times that do not go back. *)
Theorem governor_wait_suffices policy t0 calls k now wait :
  limits_wf policy -> 0 <= t0 -> monotone t0 calls now -> now <= i64_max ->
  let g := (governed (RateGovernor_new policy t0) calls).1 in
  (RateGovernor_admit g k now).2 = Delay wait ->
  0 < wait <= Duration_from_millis 1000 /\
  forall between now', Forall (fun call => call.1 <> k) between -> monotone now between now' ->
    now + wait / 1000000 <= now' <= i64_max ->
    (RateGovernor_admit (governed (RateGovernor_admit g k now).1 between).1 k now').2 = Admit.
Proof.
  intros Hp H0 Hmono Hnow g Hd. pose proof (monotone_le _ _ _ Hmono) as Hle.
  destruct (governed_at policy t0 k calls _ t0 now Hp H0 H0 (RateGovernor_new_at _ _ Hp H0) Hmono Hnow) as [Hg _]. fold g in Hg.
  assert (bucket_at now (bucket_of k g)) as Hb by (destruct Hg as (_ & _ & ? & ?); by destruct k).
  destruct (RateGovernor_admit_at policy t0 k now g Hp H0 ltac:(lia) Hg) as (Hat & Hans & Hbk & _). rewrite Hd in Hans.
  destruct (ceiling_grows policy k (age t0 now) (age t0 now) Hp) as ([Hc _] & _); [unfold age, Duration_from_millis; mlia|].
  split.
  - destruct (Bucket_admit_delayed _ _ (ceiling policy k (age t0 now)) _ ltac:(lia) (eq_sym Hans)) as [_ ->].
    destruct (wait_earns (ceiling policy k (age t0 now)) ltac:(lia)) as [_ ?]. unfold Duration_from_millis. lia.
  - intros between now' Hall Hm' Hn'. pose proof (monotone_le _ _ _ Hm').
    destruct (governed_at policy t0 k between _ now now' Hp H0 ltac:(lia) Hat Hm' ltac:(lia)) as [Hg' Hsame].
    destruct (RateGovernor_admit_at policy t0 k now' _ Hp H0 ltac:(lia) Hg') as (_ & -> & _ & _). rewrite (Hsame Hall), Hbk.
    destruct (ceiling_grows policy k (age t0 now) (age t0 now') Hp (age_grows t0 now now' H0 ltac:(lia) ltac:(lia))) as [Hcc Hm].
    eapply Bucket_admit_waited; eauto; lia.
Qed.

Lemma governor_wait_suffices_witness :
  let g := (governed (RateGovernor_new (Ramping 1 5 1000000000) 0) [(Write, 0)]).1 in
  (RateGovernor_admit (governed (RateGovernor_admit g Write 10).1 [(Read, 20); (Read, 900)]).1 Write 1010).2 = Admit.
Proof.
  destruct (governor_wait_suffices (Ramping 1 5 1000000000) 0 [(Write, 0)] Write 10 1000000000) as [_ Hw];
    [simpl; mlia|lia|simpl; lia|mlia|vm_compute; reflexivity|].
  apply Hw; [repeat constructor; discriminate|simpl; lia|vm_compute; intuition congruence].
Defined.

(** ** Staleness *)

(** A cache answers a read exactly when it is of the current epoch, heard from
    within the limit, the read does not demand the authority, and the caller's
    own writes, if it names them, are of that epoch and folded. *)
Theorem admits_iff cache mode current :
  admits cache mode current = Ok tt <->
  cs_epoch cache = current /\ cs_silent_for_ms cache <= MAX_METADATA_STALENESS_MS /\
  match mode with
  | Stale => True
  | Linearizable => False
  | AtLeast want => wm_epoch want = current /\ exists applied, cs_applied cache = Some applied /\ wm_version want <= applied
  end.
Proof.
  unfold admits. destruct (cs_epoch cache =? current) eqn:He; simpl; zbool; [|split; [done|by intros [? _]]].
  destruct mode as [|want|]; simpl; [| |split; [done|by intros (_ & _ & [])]].
  - destruct (_ <? _) eqn:Hs; zbool; (split; [|intros (_ & ? & _)]); try done; lia.
  - destruct (cs_epoch cache <? wm_epoch want) eqn:Ho; zbool; [split; [done|intros (_ & _ & ? & _); lia]|].
    destruct (MAX_METADATA_STALENESS_MS <? _) eqn:Hs; zbool; [split; [done|intros (_ & ? & _); lia]|].
    destruct (wm_epoch want =? cs_epoch cache) eqn:Hw; simpl; zbool; [|split; [done|intros (? & _ & ? & _); congruence]].
    destruct (cs_applied cache) as [applied|]; [|split; [done|by intros (_ & _ & _ & ? & ? & _)]].
    destruct (wm_version want <=? applied) eqn:Hv; zbool.
    + split; [|done]. intros _. split_and!; [done|done|congruence|]. by exists applied.
    + split; [done|]. intros (_ & _ & _ & ? & [= <-] & ?). lia.
Qed.

(** The multiplier saturates, not the delay: with a base of one nanosecond and a
    cap of ten seconds, the fortieth retry still waits less than half the cap. *)
Theorem backoff_saturates_below_cap :
  exists p n, policy_wf p /\ backoff p n = u32_max /\
    Z.min (base_delay p * 2 ^ (n - 1)) (max_delay p) = 10 * NANOS_PER_SEC.
Proof.
  exists (mkRetryPolicy 3 1 (10 * NANOS_PER_SEC)), 40. split; [|vm_compute; split; reflexivity].
  vm_compute. intuition congruence.
Qed.
