(* ===== verification/Store.v ===== *)
(** * Store: the object store and its contract

    Models [oqueue-core/src/store.rs] (the [ObjectStore] trait as a class, its
    documented guarantees as laws) and the in-memory store of [store/fake.rs]
    with the faults of [fault.rs].  A call takes the store to its next state
    and an answer; a call is atomic, and what another process does happens
    between two calls.  Latency is not modelled: it changes no answer. *)

From stdpp Require Import base tactics list numbers strings gmap pretty sorting.
From Stdlib Require Import ZArith Lia.
From S2P Require Import Prelude Bytes Types.

Open Scope Z_scope.

(** ** The trait *)

Definition PreconditionToken : Type := string.

Inductive Precondition : Type :=
| IfAbsent
| IfMatches (token : PreconditionToken).

Record ObjectMeta : Type := mkObjectMeta { om_size : Z; om_token : PreconditionToken }.

Class ObjectStore (S : Type) : Type := {
  os_get : ObjectKey -> ByteRange -> S -> S * Res bytes;
  os_put : ObjectKey -> bytes -> option Precondition -> S -> S * Res ObjectMeta;
  os_delete : list ObjectKey -> S -> S * Res unit;
  (** [MaintenanceStore::list], a trait of its own that fewer components are
      handed. *)
  os_list : string -> option ObjectKey -> nat -> S -> S * Res (list ObjectKey);
  (** No method of the trait: how many objects there can be at most, which
      bounds a walk over them. *)
  os_count : S -> nat;
}.

(** ** What the trait documents

    Said of the objects of a store: what each key holds, and the token a
    conditional write of it has to present. *)

Notation Objects := (gmap string (bytes * PreconditionToken)).

(** The slice of a payload a range asks for. *)
Definition slice_range (key : ObjectKey) (payload : bytes) (range : ByteRange) : Res bytes :=
  match range with
  | Full => Ok payload
  | Bounded offset len =>
      if offset + len <=? Z.of_nat (length payload)
      then Ok (take (Z.to_nat len) (drop (Z.to_nat offset) payload))
      else Err (ByteRangeOutOfBounds key offset len (Z.of_nat (length payload)))
  end.

(** Whether a precondition holds of what is stored under the key. *)
Definition pc_holds (held : option (bytes * PreconditionToken)) (pc : option Precondition) : Prop :=
  match pc with
  | None => True
  | Some IfAbsent => held = None
  | Some (IfMatches token) => exists b, held = Some (b, token)
  end.

(** The answers a [get] may give: [fault] is what the store may answer beside
    the errors the trait names. *)
Definition get_spec (fault : Error -> Prop) (m : Objects) (k : ObjectKey) (range : ByteRange)
    (r : Res bytes) : Prop :=
  match r with
  | Ok b => exists payload token, m !! k = Some (payload, token) /\ slice_range k payload range = Ok b
  | Err e =>
      fault e \/
      match m !! k with
      | Some (payload, _) => slice_range k payload range = Err e
      | None => e = ObjectNotFound k
      end
  | Panic => False
  end.

(** The answers a [put] may give, and the objects it leaves: one that answers
    an error may have landed, unless the error is that its precondition did
    not hold. *)
Definition put_spec (fault : Error -> Prop) (m : Objects) (k : ObjectKey) (b : bytes)
    (pc : option Precondition) (r : Res ObjectMeta) (m' : Objects) : Prop :=
  match r with
  | Ok meta => pc_holds (m !! k) pc /\ m' = <[k := (b, om_token meta)]> m
  | Err e =>
      (e = PreconditionFailed k /\ ~ pc_holds (m !! k) pc /\ m' = m) \/
      (fault e /\ (m' = m \/ exists token, pc_holds (m !! k) pc /\ m' = <[k := (b, token)]> m))
  | Panic => False
  end.

(** A [delete] that fails may have deleted some of the keys. *)
Definition delete_spec (fault : Error -> Prop) (m : Objects) (ks : list ObjectKey) (r : Res unit)
    (m' : Objects) : Prop :=
  r <> Panic /\ (forall e, r = Err e -> fault e) /\
  exists gone, gone ⊆ ks /\ (r = Ok tt -> gone = ks) /\
    forall k, m' !! k = if decide (k ∈ gone) then None else m !! k.

(** Byte order. *)
Definition key_le (x y : ObjectKey) : Prop := String.compare x y <> Gt.

Definition listed (prefix : string) (after : option ObjectKey) (key : ObjectKey) : bool :=
  String.prefix prefix key && match after with Some after => String.ltb after key | None => true end.

(** The keys under [prefix] strictly after [after], in byte order, at most
    [limit]. *)
Definition list_page (keys : list ObjectKey) (prefix : string) (after : option ObjectKey) (limit : nat) : list ObjectKey :=
  take limit (merge_sort key_le (List.filter (listed prefix after) keys)).

Definition list_spec (fault : Error -> Prop) (m : Objects) (prefix : string) (after : option ObjectKey) (limit : nat)
    (r : Res (list ObjectKey)) : Prop :=
  match r with
  | Ok keys => keys = list_page (map fst (map_to_list m)) prefix after limit
  | Err e => fault e
  | Panic => False
  end.

(** A fault is neither of the two answers a caller reads meaning into. *)
Definition opaque_fault (e : Error) : Prop :=
  match e with ObjectNotFound _ | PreconditionFailed _ => False | _ => True end.

Class ObjectStoreLaws (S : Type) `{ObjectStore S} : Type := {
  objects : S -> Objects;
  os_fault : Error -> Prop;
  fault_law : forall e, os_fault e -> opaque_fault e;
  count_law : forall s, (size (objects s) <= os_count s)%nat;
  get_law : forall s k range s' r,
    os_get k range s = (s', r) -> objects s' = objects s /\ get_spec os_fault (objects s) k range r;
  put_law : forall s k b pc s' r,
    os_put k b pc s = (s', r) -> put_spec os_fault (objects s) k b pc r (objects s');
  delete_law : forall s ks s' r,
    os_delete ks s = (s', r) -> delete_spec os_fault (objects s) ks r (objects s');
  list_law : forall s prefix after limit s' r,
    os_list prefix after limit s = (s', r) -> objects s' = objects s /\ list_spec os_fault (objects s) prefix after limit r;
}.

(** ** The in-memory store ([store/fake.rs], [fault.rs]) *)

Inductive StormKind : Type := StormSlowDown | StormThrottled | StormTransient.

Definition into_error (self : StormKind) : Error :=
  match self with
  | StormSlowDown => SlowDown
  | StormThrottled => Throttled
  | StormTransient => Transient
  end.

Record FaultConfig : Type := mkFaultConfig {
  fc_storm : option (StormKind * nat);
  fc_crash_after_put_before_ack : nat;
}.

Definition FaultConfig_default : FaultConfig := mkFaultConfig None 0.

Record KeySlot : Type := mkKeySlot { ks_payload : option bytes; ks_generation : Z }.

Record FakeObjectStore : Type := mkFakeStore {
  fs_slots : gmap string KeySlot;
  fs_faults : FaultConfig;
}.

Definition FakeObjectStore_new : FakeObjectStore := mkFakeStore ∅ FaultConfig_default.

Definition take_storm_error (self : FakeObjectStore) : FakeObjectStore * option Error :=
  match fc_storm (fs_faults self) with
  | None => (self, None)
  | Some (kind, O) =>
      (mkFakeStore (fs_slots self)
         (mkFaultConfig None (fc_crash_after_put_before_ack (fs_faults self))), None)
  | Some (kind, S remaining) =>
      (mkFakeStore (fs_slots self)
         (mkFaultConfig (Some (kind, remaining)) (fc_crash_after_put_before_ack (fs_faults self))),
       Some (into_error kind))
  end.

Definition take_crash_after_put (self : FakeObjectStore) : FakeObjectStore * bool :=
  match fc_crash_after_put_before_ack (fs_faults self) with
  | O => (self, false)
  | S n => (mkFakeStore (fs_slots self) (mkFaultConfig (fc_storm (fs_faults self)) n), true)
  end.

Definition token_for_generation (generation : Z) : PreconditionToken := "gen-" +:+ pretty generation.

Definition slot_payload (self : FakeObjectStore) (key : ObjectKey) : option bytes :=
  slot ← fs_slots self !! key; ks_payload slot.

Definition fake_get (key : ObjectKey) (range : ByteRange) : FakeObjectStore -> FakeObjectStore * Res bytes :=
  fun self =>
  let '(self, storm) := take_storm_error self in
  match storm with
  | Some err => (self, Err err)
  | None =>
      match slot_payload self key with
      | None => (self, Err (ObjectNotFound key))
      | Some payload => (self, slice_range key payload range)
      end
  end.

(** The precondition, checked under the lock. *)
Definition precondition_holds (slot : option KeySlot) (precondition : option Precondition) : bool :=
  match precondition with
  | None => true
  | Some IfAbsent =>
      match slot with Some s => bool_decide (ks_payload s = None) | None => true end
  | Some (IfMatches token) =>
      match slot with
      | Some s => bool_decide (is_Some (ks_payload s)) &&
                  bool_decide (token_for_generation (ks_generation s) = token)
      | None => false
      end
  end.

Definition fake_put (key : ObjectKey) (payload : bytes) (precondition : option Precondition)
    : FakeObjectStore -> FakeObjectStore * Res ObjectMeta := fun self =>
  let '(self, storm) := take_storm_error self in
  match storm with
  | Some err => (self, Err err)
  | None =>
      if negb (precondition_holds (fs_slots self !! key) precondition)
      then (self, Err (PreconditionFailed key))
      else
        let generation := match fs_slots self !! key with Some s => ks_generation s | None => 0 end + 1 in
        let self :=
          mkFakeStore (<[key := mkKeySlot (Some payload) generation]> (fs_slots self)) (fs_faults self) in
        let '(self, crash) := take_crash_after_put self in
        if crash then (self, Err Transient)
        else (self, Ok (mkObjectMeta (Z.of_nat (length payload)) (token_for_generation generation)))
  end.

Definition clear_payload (slots : gmap string KeySlot) (key : ObjectKey) : gmap string KeySlot :=
  match slots !! key with
  | Some slot => <[key := mkKeySlot None (ks_generation slot)]> slots
  | None => slots
  end.

Definition fake_delete (keys : list ObjectKey) : FakeObjectStore -> FakeObjectStore * Res unit := fun self =>
  let '(self, storm) := take_storm_error self in
  match storm with
  | Some err => (self, Err err)
  | None => (mkFakeStore (foldl clear_payload (fs_slots self) keys) (fs_faults self), Ok tt)
  end.

(** What a [get] would find. *)
Definition slot_object (slot : KeySlot) : option (bytes * PreconditionToken) :=
  payload ← ks_payload slot; Some (payload, token_for_generation (ks_generation slot)).

Definition fake_objects (self : FakeObjectStore) : Objects := omap slot_object (fs_slots self).

Definition fake_list_keys (prefix : string) (after : option ObjectKey) (limit : nat)
    : FakeObjectStore -> FakeObjectStore * Res (list ObjectKey) := fun self =>
  let '(self, storm) := take_storm_error self in
  match storm with
  | Some err => (self, Err err)
  | None => (self, Ok (list_page (map fst (map_to_list (fake_objects self))) prefix after limit))
  end.

#[export] Instance FakeObjectStore_store : ObjectStore FakeObjectStore := {
  os_get := fake_get;
  os_put := fake_put;
  os_delete := fake_delete;
  os_list := fake_list_keys;
  os_count self := size (fs_slots self);
}.

(** ** The in-memory store keeps the contract *)

Lemma fake_objects_lookup self k : fake_objects self !! k = fs_slots self !! k ≫= slot_object.
Proof. apply lookup_omap. Qed.

Definition storm_fault (e : Error) : Prop := e = SlowDown \/ e = Throttled \/ e = Transient.

Lemma take_storm_error_slots self self' r :
  take_storm_error self = (self', r) ->
  fake_objects self' = fake_objects self /\ fs_slots self' = fs_slots self /\
  forall e, r = Some e -> storm_fault e.
Proof.
  unfold take_storm_error, storm_fault. destruct (fc_storm _) as [[kind [|n]]|]; intros [= <- <-];
    (split; [done|]); (split; [done|]); [done| |done]. intros e [= <-]. destruct kind; auto.
Qed.

Lemma take_crash_after_put_slots self self' b :
  take_crash_after_put self = (self', b) -> fake_objects self' = fake_objects self.
Proof. unfold take_crash_after_put. by destruct (fc_crash_after_put_before_ack _); intros [= <- <-]. Qed.

Lemma fake_get_law s k range s' r :
  fake_get k range s = (s', r) ->
  fake_objects s' = fake_objects s /\ get_spec storm_fault (fake_objects s) k range r.
Proof.
  unfold fake_get. destruct (take_storm_error s) as [s1 [e|]] eqn:Hst;
    destruct (take_storm_error_slots _ _ _ Hst) as (Ho & Hs & He).
  { intros [= <- <-]. split; [done|]. left. auto. }
  unfold slot_payload. intros Hr. assert (s' = s1) as -> by (by repeat case_match; simplify_eq).
  split; [done|]. rewrite <-Ho. unfold get_spec. rewrite fake_objects_lookup.
  destruct (fs_slots s1 !! k) as [[[payload|] gen]|] eqn:Hk; simpl in Hr; injection Hr as <-; simpl; auto.
  destruct range as [|offset len]; simpl; [by eauto|].
  destruct (_ <=? _) eqn:Hle; simpl; [|auto]. eexists payload, _. split; [done|]. by rewrite Hle.
Qed.

Lemma precondition_holds_spec self k pc :
  precondition_holds (fs_slots self !! k) pc = true <-> pc_holds (fake_objects self !! k) pc.
Proof.
  rewrite fake_objects_lookup. destruct pc as [[|token]|]; simpl; [| |done];
    destruct (fs_slots self !! k) as [[[payload|] gen]|]; simpl; rewrite ?andb_true_iff, ?bool_decide_eq_true;
    (split; [|try done]); try naive_solver.
  by intros (b & Hb); unfold slot_object in Hb; simplify_eq/=.
Qed.

Lemma fake_put_law s k b pc s' r :
  fake_put k b pc s = (s', r) -> put_spec storm_fault (fake_objects s) k b pc r (fake_objects s').
Proof.
  unfold fake_put. destruct (take_storm_error s) as [s1 [e|]] eqn:Hst;
    destruct (take_storm_error_slots _ _ _ Hst) as (Ho & Hs & He).
  { intros [= <- <-]. rewrite Ho. simpl. auto 6. }
  rewrite <-Ho. destruct (precondition_holds _ _) eqn:Hpc; simpl.
  - apply precondition_holds_spec in Hpc. set (gen := _ + 1).
    destruct (take_crash_after_put _) as [s2 crash] eqn:Hc. apply take_crash_after_put_slots in Hc.
    assert (fake_objects s2 = <[k := (b, token_for_generation gen)]> (fake_objects s1)) as Hins.
    { rewrite Hc. unfold fake_objects at 1. simpl. by erewrite omap_insert_Some by done. }
    destruct crash; intros [= <- <-]; simpl; [right; unfold storm_fault|]; eauto 8.
  - intros [= <- <-]. left. split; [done|]. split; [|done]. by rewrite <-precondition_holds_spec, Hpc.
Qed.

Lemma clear_payload_objects slots faults k k' :
  fake_objects (mkFakeStore (clear_payload slots k) faults) !! k' =
    if decide (k' = k) then None else fake_objects (mkFakeStore slots faults) !! k'.
Proof.
  rewrite !fake_objects_lookup. unfold clear_payload. simpl. case_decide as Hk.
  - subst k'. destruct (slots !! k) as [slot|] eqn:Hs; simpl.
    + by rewrite lookup_insert_eq.
    + by rewrite Hs.
  - destruct (slots !! k); [by rewrite lookup_insert_ne|done].
Qed.

Lemma clear_payloads_objects ks slots faults k :
  fake_objects (mkFakeStore (foldl clear_payload slots ks) faults) !! k =
    if decide (k ∈ ks) then None else fake_objects (mkFakeStore slots faults) !! k.
Proof.
  revert slots. induction ks as [|k0 ks IH]; intros slots; [by rewrite decide_False by set_solver|].
  cbn [foldl]. rewrite IH, (clear_payload_objects slots faults k0 k).
  repeat case_decide; set_solver.
Qed.

Lemma fake_delete_law s ks s' r :
  fake_delete ks s = (s', r) -> delete_spec storm_fault (fake_objects s) ks r (fake_objects s').
Proof.
  unfold fake_delete. destruct (take_storm_error s) as [s1 [e|]] eqn:Hst;
    destruct (take_storm_error_slots _ _ _ Hst) as (Ho & Hs & He); intros [= <- <-]; rewrite <-Ho;
    (split; [done|]).
  - split; [intros ? [= <-]; auto|]. exists []. split; [set_solver|]. split; [done|].
    intros k. by rewrite decide_False by set_solver.
  - split; [done|]. exists ks. split; [done|]. split; [done|]. intros k.
    rewrite clear_payloads_objects. by destruct s1.
Qed.

Lemma fake_list_law s prefix after limit s' r :
  fake_list_keys prefix after limit s = (s', r) ->
  fake_objects s' = fake_objects s /\ list_spec storm_fault (fake_objects s) prefix after limit r.
Proof.
  unfold fake_list_keys. destruct (take_storm_error s) as [s1 [e|]] eqn:Hst;
    destruct (take_storm_error_slots _ _ _ Hst) as (Ho & Hs & He); intros [= <- <-]; (split; [done|]); [by apply He|by rewrite <-Ho].
Qed.

Lemma storm_fault_opaque e : storm_fault e -> opaque_fault e.
Proof. by intros [-> | [-> | ->]]. Qed.

Lemma fake_count_law self : (size (fake_objects self) <= size (fs_slots self))%nat.
Proof.
  rewrite <-!size_dom. apply subseteq_size. intros k.
  rewrite !elem_of_dom, fake_objects_lookup. by intros (x & (slot & Hs & _)%bind_Some); eauto.
Qed.

#[export] Instance FakeObjectStore_laws : ObjectStoreLaws FakeObjectStore := {
  objects := fake_objects;
  os_fault := storm_fault;
  fault_law := storm_fault_opaque;
  count_law := fake_count_law;
  get_law := fake_get_law;
  put_law := fake_put_law;
  delete_law := fake_delete_law;
  list_law := fake_list_law;
}.

(** ** Pages of keys

    [list_page] is cut from the sorted keys, and what follows a page is what
    follows its last key. *)

Definition key_lt (x y : string) : Prop := String.compare x y = Lt.

Lemma ascii_compare_byte a b : Ascii.compare a b = Z.compare (byte_of_ascii a) (byte_of_ascii b).
Proof. unfold Ascii.compare, byte_of_ascii. by rewrite N2Z.inj_compare. Qed.

Lemma key_lt_cons a x b y :
  key_lt (String a x) (String b y) <-> byte_of_ascii a < byte_of_ascii b \/ a = b /\ key_lt x y.
Proof.
  unfold key_lt. simpl. rewrite ascii_compare_byte. destruct (Z.compare_spec (byte_of_ascii a) (byte_of_ascii b)) as [Heq|Hlt|Hgt].
  - assert (a = b) as <-; [|split; [by right|]; intros [|[_ ?]]; [lia|done]].
    unfold byte_of_ascii in Heq. by rewrite <-(Ascii.ascii_N_embedding a), <-(Ascii.ascii_N_embedding b), (N2Z.inj _ _ Heq).
  - split; [by left|done].
  - split; [done|]. intros [|[-> _]]; lia.
Qed.

Lemma key_lt_irrefl x : ~ key_lt x x.
Proof. induction x as [|a x IH]; [done|]. rewrite key_lt_cons. intros [|[_ ?]]; [lia|done]. Qed.

Lemma key_lt_trans x y z : key_lt x y -> key_lt y z -> key_lt x z.
Proof.
  revert y z. induction x as [|a x IH]; intros [|b y] [|c z]; try done. rewrite !key_lt_cons.
  intros [|[-> ?]] [|[-> ?]]; [left; lia|by left..|]. right. split; [done|]. by eapply IH.
Qed.

Lemma key_lt_total x y : key_lt x y \/ x = y \/ key_lt y x.
Proof.
  unfold key_lt. rewrite (String.compare_antisym y x). destruct (String.compare x y) eqn:Hc; simpl; auto.
  right; left. by apply String.compare_eq_iff.
Qed.

Lemma key_le_lt x y : key_le x y <-> key_lt x y \/ x = y.
Proof.
  unfold key_le. destruct (key_lt_total x y) as [Hlt|[->|Hgt]].
  - unfold key_lt in Hlt. rewrite Hlt. by split; auto.
  - split; [auto|]. intros _ Hc. assert (key_lt y y) as []%key_lt_irrefl. unfold key_lt. rewrite String.compare_antisym. by rewrite Hc.
  - assert (String.compare x y = Gt) as Hc by (rewrite String.compare_antisym; unfold key_lt in Hgt; by rewrite Hgt).
    rewrite Hc. split; [done|]. intros [Hlt| ->]; [|by destruct (key_lt_irrefl y)]. unfold key_lt in Hlt. congruence.
Qed.

#[export] Instance key_le_trans : Transitive key_le.
Proof. intros x y z. rewrite !key_le_lt. intros [Hxy| ->] [Hyz| ->]; auto. left. by eapply key_lt_trans. Qed.
#[export] Instance key_le_total : Total key_le.
Proof. intros x y. rewrite !key_le_lt. destruct (key_lt_total x y) as [|[|]]; auto. Qed.
#[export] Instance key_le_antisymm : AntiSymm (=) key_le.
Proof.
  intros x y. rewrite !key_le_lt. intros [Hxy|] [Hyx|]; auto. destruct (key_lt_irrefl x). by eapply key_lt_trans.
Qed.

Lemma sorted_same (l1 l2 : list string) : StronglySorted key_le l1 -> StronglySorted key_le l2 -> NoDup l1 -> NoDup l2 ->
  (forall x, x ∈ l1 <-> x ∈ l2) -> l1 = l2.
Proof. intros H1 H2 N1 N2 He. apply (StronglySorted_unique key_le); [done..|]. by apply NoDup_Permutation. Qed.

Definition keys_after (m : Objects) (under : string) (cursor : option ObjectKey) : list ObjectKey :=
  merge_sort key_le (List.filter (listed under cursor) (map fst (map_to_list m))).

Lemma keys_after_sorted m under cursor : StronglySorted key_le (keys_after m under cursor).
Proof. apply StronglySorted_merge_sort; apply _. Qed.

Lemma keys_after_NoDup m under cursor : NoDup (keys_after m under cursor).
Proof.
  unfold keys_after. rewrite merge_sort_Permutation. apply NoDup_ListNoDup, List.NoDup_filter, NoDup_ListNoDup, NoDup_fst_map_to_list.
Qed.

Lemma elem_of_keys_after m under cursor x :
  x ∈ keys_after m under cursor <-> is_Some (m !! x) /\ listed under cursor x = true.
Proof.
  unfold keys_after. rewrite merge_sort_Permutation, list_elem_of_In, List.filter_In, <-list_elem_of_In.
  split; intros [Hx Hl]; (split; [|done]).
  - apply list_elem_of_fmap in Hx as ([k v] & -> & Hin%elem_of_map_to_list). by exists v.
  - destruct Hx as [v Hv]. apply list_elem_of_fmap. exists (x, v). split; [done|]. by apply elem_of_map_to_list.
Qed.

Lemma ltb_key_lt x y : String.ltb x y = true <-> key_lt x y.
Proof. unfold String.ltb, key_lt. by destruct (String.compare x y). Qed.

Lemma sorted_split (l1 l2 : list string) x y : StronglySorted key_le (l1 ++ l2) -> NoDup (l1 ++ l2) -> x ∈ l1 -> y ∈ l2 -> key_lt x y.
Proof.
  intros Hs Hn Hx Hy. assert (key_le x y) as [|Heq]%key_le_lt; [|done|].
  - induction l1 as [|a l1 IH]; [by apply elem_of_nil in Hx|]. simpl in Hs. apply StronglySorted_inv in Hs as [Hs Ha].
    apply elem_of_cons in Hx as [-> |Hx]; [|apply IH; [done|by apply NoDup_cons in Hn as [_ ?]|done]]. rewrite Forall_forall in Ha. apply Ha. set_solver.
  - subst y. apply NoDup_app in Hn as (_ & Hn & _). by destruct (Hn x).
Qed.

(** What follows a page is what is after its last key. *)
Lemma sorted_next (l l' : list string) r key :
  StronglySorted key_le l -> NoDup l -> StronglySorted key_le l' -> NoDup l' -> last (take r l) = Some key ->
  (forall x, x ∈ l' <-> x ∈ l /\ key_lt key x) -> l' = drop r l.
Proof.
  intros Hs Hn Hs' Hn' Hlast He. rewrite <-(take_drop r l) in Hs, Hn.
  assert (key ∈ take r l) as Hin by (by apply last_Some_elem_of).
  apply sorted_same; [done| |done|by apply NoDup_app in Hn as (_ & _ & ?)|].
  { clear -Hs. induction (take r l) as [|a l0 IH]; [done|]. apply IH. by apply StronglySorted_inv in Hs as [? _]. }
  intros x. rewrite He. split.
  - intros [Hx Hlt]. rewrite <-(take_drop r l), elem_of_app in Hx. destruct Hx as [Hx|Hx]; [|done].
    exfalso. apply last_Some in Hlast as [l0 Hl0]. rewrite Hl0 in Hx, Hs, Hn. apply elem_of_app in Hx as [Hx| ->%list_elem_of_singleton];
      [|by destruct (key_lt_irrefl key)].
    rewrite <-app_assoc in Hs, Hn. assert (key_lt x key) as Hlt' by (eapply sorted_split; [exact Hs|exact Hn|done|set_solver]).
    destruct (key_lt_irrefl key). by eapply key_lt_trans.
  - intros Hx. split; [rewrite <-(take_drop r l); set_solver|by eapply sorted_split].
Qed.

Lemma keys_after_next m under cursor r key : last (take r (keys_after m under cursor)) = Some key ->
  keys_after m under (Some key) = drop r (keys_after m under cursor).
Proof.
  intros Hlast. apply (sorted_next _ _ _ key); try done; try apply keys_after_sorted; try apply keys_after_NoDup.
  assert (key ∈ keys_after m under cursor) as HinK.
  { rewrite <-(take_drop r (keys_after m under cursor)). apply elem_of_app. left. by apply last_Some_elem_of. }
  apply elem_of_keys_after in HinK as [_ Hk]. unfold listed in Hk. apply andb_true_iff in Hk as [_ Hk].
  intros x. rewrite !elem_of_keys_after. unfold listed. rewrite !andb_true_iff, ltb_key_lt. split; [|naive_solver].
  intros (Hm & Hp & Hlt). split_and!; try done. destruct cursor as [c|]; [|done].
  apply ltb_key_lt in Hk. apply ltb_key_lt. by eapply key_lt_trans.
Qed.
