(* ===== verification/Ranges.v ===== *)
(** * Ranges: many byte ranges of one object in few requests

    Models [oqueue-core/src/merge.rs]: ranges that are near each other are
    fetched as one, and each is cut out of what was fetched.  The source sorts
    with an unstable sort; ranges with the same start join the same group in any
    order, so the answers do not depend on it. *)

From stdpp Require Import base tactics list numbers strings gmap sorting.
From Stdlib Require Import ZArith Lia.
From S2P Require Import Prelude Bytes Types Store.

Open Scope Z_scope.

Record MergedGroup : Type := mkMergedGroup {
  mg_start : Z;
  mg_end : Z;
  mg_members : list (nat * Z * Z);
}.

(** One span in the greedy loop; the last group is at the head of [groups]. *)
Definition merge_span (sparsity_threshold : Z) (groups : list MergedGroup) (span : nat * Z * Z) : list MergedGroup :=
  let '(idx, start, end_) := span in
  match groups with
  | last :: rest =>
      if start <=? u64_saturating_add (mg_end last) sparsity_threshold
      then mkMergedGroup (mg_start last) (Z.max (mg_end last) end_) (mg_members last ++ [span]) :: rest
      else mkMergedGroup start end_ [span] :: groups
  | [] => [mkMergedGroup start end_ [span]]
  end.

(** The members' slices local to the group. *)
Definition localize (group : MergedGroup) : MergedGroup :=
  mkMergedGroup (mg_start group) (mg_end group)
    (map (fun '(idx, start, end_) => (idx, start - mg_start group, end_ - mg_start group)) (mg_members group)).

Definition plan_merge (spans : list (nat * Z * Z)) (sparsity_threshold : Z) : list MergedGroup :=
  map localize (reverse (foldl (merge_span sparsity_threshold) [] (sort_by_key (fun span => span.1.2) spans))).

Section get_many.
Context {S : Type} `{ObjectStore S}.

(** What the first loop has so far: the store, the answers, the spans. *)
Record Batched : Type := mkBatched {
  bd_store : S;
  bd_results : list (option (Res bytes));
  bd_spans : list (nat * Z * Z);
}.

Definition batch_one (key : ObjectKey) (st : Batched) (range : nat * ByteRange) : Batched :=
  let '(index, range) := range in
  match range with
  | Full =>
      let '(store, r) := os_get key Full (bd_store st) in
      mkBatched store (<[index := Some r]> (bd_results st)) (bd_spans st)
  | Bounded offset length =>
      match u64_checked_add offset length with
      | Some end_ => mkBatched (bd_store st) (bd_results st) (bd_spans st ++ [(index, offset, end_)])
      | None =>
          mkBatched (bd_store st)
            (<[index := Some (Err (ByteRangeOutOfBounds key offset length u64_max))]> (bd_results st)) (bd_spans st)
      end
  end.

(** [bytes[start..end]] panics out of range. *)
Definition cut (fetched : bytes) (start end_ : Z) : Res bytes :=
  if (start <=? end_) && (end_ <=? Z.of_nat (length fetched))
  then Ok (take (Z.to_nat (end_ - start)) (drop (Z.to_nat start) fetched)) else Panic.

Definition fill (fetch : Res bytes) (results : list (option (Res bytes))) (m : nat * Z * Z) : list (option (Res bytes)) :=
  let '(index, local_start, local_end) := m in
  <[index := Some (match fetch with Ok fetched => cut fetched local_start local_end | Err e => Err e | Panic => Panic end)]> results.

(** A group of no bytes is [unreachable!]. *)
Definition fetch_group (key : ObjectKey) (st : S * list (option (Res bytes))) (group : MergedGroup)
    : S * list (option (Res bytes)) :=
  let '(store, results) := st in
  match ByteRange_bounded (mg_start group) (mg_end group - mg_start group) with
  | Ok range => let '(store, fetch) := os_get key range store in (store, foldl (fill fetch) results (mg_members group))
  | _ => (store, foldl (fill Panic) results (mg_members group))
  end.

Definition get_many (sparsity_threshold : Z) (key : ObjectKey) (ranges : list ByteRange) (store : S) : S * list (Res bytes) :=
  let st := foldl (batch_one key) (mkBatched store (map (fun _ => None) ranges) []) (imap pair ranges) in
  let '(store, results) :=
    foldl (fetch_group key) (bd_store st, bd_results st) (plan_merge (bd_spans st) sparsity_threshold) in
  (store, map (default (Err Permanent)) results).
End get_many.

(** ** Groups *)

(** A group covers its members, from spans of the batch, and no more than them. *)
Record group_ok (spans : list (nat * Z * Z)) (g : MergedGroup) : Prop := {
  go_members : forall i s e, (i, s, e) ∈ mg_members g -> (i, s, e) ∈ spans /\ mg_start g <= s /\ e <= mg_end g;
  go_start : exists i e, (i, mg_start g, e) ∈ mg_members g;
  go_end : exists i s, (i, s, mg_end g) ∈ mg_members g;
}.

Definition span_ok (span : nat * Z * Z) : Prop := 0 <= span.1.2 < span.2.

Definition new_group (span : nat * Z * Z) : MergedGroup := mkMergedGroup span.1.2 span.2 [span].
Definition join_group (g : MergedGroup) (span : nat * Z * Z) : MergedGroup :=
  mkMergedGroup (mg_start g) (Z.max (mg_end g) span.2) (mg_members g ++ [span]).

Lemma merge_span_cases threshold groups span :
  merge_span threshold groups span = new_group span :: groups \/
  exists last rest, groups = last :: rest /\ merge_span threshold groups span = join_group last span :: rest.
Proof.
  destruct span as [[i s] e], groups as [|last rest]; simpl; [by left|]. case_match; [right; eauto|by left].
Qed.

Record groups_inv (spans done_ todo : list (nat * Z * Z)) (groups : list MergedGroup) : Prop := {
  gi_low : forall g span, g ∈ groups -> span ∈ todo -> mg_start g <= span.1.2;
  gi_ok : forall g, g ∈ groups -> group_ok spans g;
  gi_all : forall span, span ∈ done_ -> exists g, g ∈ groups /\ span ∈ mg_members g;
}.

Lemma merge_span_inv threshold spans done_ span todo groups :
  span ∈ spans -> (forall t, t ∈ todo -> span.1.2 <= t.1.2) ->
  groups_inv spans done_ (span :: todo) groups ->
  groups_inv spans (done_ ++ [span]) todo (merge_span threshold groups span).
Proof.
  intros Hin Hle [Hlo Hok Hall]. destruct (merge_span_cases threshold groups span) as [->|(last & rest & -> & ->)].
  - split.
    + intros g t [->|Hg]%elem_of_cons Ht; [by apply Hle|]. apply Hlo; [done|by right].
    + intros g [->|Hg]%elem_of_cons; [|by apply Hok]. destruct span as [[i s] e]. split; simpl.
      * intros i' s' e' [= -> -> ->]%list_elem_of_singleton. split; [done|]. simpl. lia.
      * exists i, e. by apply list_elem_of_singleton.
      * exists i, s. by apply list_elem_of_singleton.
    + intros t [Ht| ->%list_elem_of_singleton]%elem_of_app.
      * destruct (Hall t Ht) as (g & Hg & Hm). exists g. split; [by right|done].
      * exists (new_group span). split; [by left|]. by apply list_elem_of_singleton.
  - assert (mg_start last <= span.1.2) as Hs by (apply Hlo; by left). split.
    + intros g t [->|Hg]%elem_of_cons Ht; simpl; (apply Hlo; [|by right]); [by left|by right].
    + intros g [->|Hg]%elem_of_cons; [|apply Hok; by right]. destruct (Hok last ltac:(by left)) as [Hm (i1 & e1 & Hst) (i0 & s0 & He)].
      destruct span as [[i s] e]. split; simpl in *.
      * intros i' s' e' [Hx|[= -> -> ->]%list_elem_of_singleton]%elem_of_app; [destruct (Hm _ _ _ Hx); split; [done|lia]|].
        split; [done|lia].
      * exists i1, e1. apply elem_of_app. by left.
      * destruct (Z.max_spec (mg_end last) e) as [[_ ->]|[_ ->]]; [exists i, s|exists i0, s0]; apply elem_of_app; [right|by left].
        by apply list_elem_of_singleton.
    + intros t [Ht| ->%list_elem_of_singleton]%elem_of_app.
      * destruct (Hall t Ht) as (g & [->|Hg]%elem_of_cons & Hm); [|exists g; split; [by right|done]].
        exists (join_group last span). split; [by left|]. apply elem_of_app. by left.
      * exists (join_group last span). split; [by left|]. apply elem_of_app. right. by apply list_elem_of_singleton.
Qed.

Lemma merge_span_fold threshold spans done_ todo groups :
  todo ⊆ spans -> StronglySorted (fun a b => a.1.2 <= b.1.2) todo -> groups_inv spans done_ todo groups ->
  groups_inv spans (done_ ++ todo) [] (foldl (merge_span threshold) groups todo).
Proof.
  revert done_ groups. induction todo as [|span todo IH]; simpl; intros done_ groups Hsub Hs Hi; [by rewrite app_nil_r|].
  apply StronglySorted_inv in Hs as [Hs Hall]. rewrite Forall_forall in Hall.
  rewrite cons_middle, app_assoc. apply IH; [set_solver|done|]. apply merge_span_inv; [set_solver|done|done].
Qed.

(** The groups of a plan, before their members are made local. *)
Lemma plan_merge_spec spans threshold :
  exists groups, plan_merge spans threshold = map localize groups /\
    (forall g, g ∈ groups -> group_ok spans g) /\
    (forall span, span ∈ spans -> exists g, g ∈ groups /\ span ∈ mg_members g).
Proof.
  set (sorted := sort_by_key (fun span : nat * Z * Z => span.1.2) spans).
  assert (sorted ≡ₚ spans) as Hperm by apply sort_by_key_Permutation.
  destruct (merge_span_fold threshold spans [] sorted []) as [_ Hok Hall].
  - intros x Hx. by rewrite <-Hperm.
  - apply sort_by_key_sorted.
  - split; set_solver.
  - eexists. split; [reflexivity|]. split.
    + intros g Hg. apply Hok. by rewrite elem_of_reverse in Hg.
    + intros span Hsp. rewrite <-Hperm in Hsp. destruct (Hall span Hsp) as (g & Hg & Hm). exists g.
      by rewrite elem_of_reverse.
Qed.

(** ** Answers *)

Section answers.
Context {S : Type} `{ObjectStoreLaws S}.
Context (m : Objects) (key : ObjectKey) (ranges : list ByteRange).

(** A range of the batch that no object, or not this one, is long enough for. *)
Definition past_the_end : Prop :=
  exists off len, Bounded off len ∈ ranges /\
    (u64_max < off + len \/ exists payload token, m !! key = Some (payload, token) /\ Z.of_nat (length payload) < off + len).

Definition answers (range : ByteRange) (r : Res bytes) : Prop :=
  match r with
  | Ok b => exists payload token, m !! key = Some (payload, token) /\ slice_range key payload range = Ok b
  | Err e => os_fault e \/ (m !! key = None /\ e = ObjectNotFound key) \/ past_the_end
  | Panic => False
  end.

Definition results_ok (results : list (option (Res bytes))) : Prop :=
  length results = length ranges /\
  forall i r, results !! i = Some (Some r) -> exists range, ranges !! i = Some range /\ answers range r.

Definition range_ok (range : ByteRange) : Prop := match range with Bounded off len => 0 <= off /\ 0 < len | Full => True end.

(** A span stands for its range. *)
Definition span_of_range (span : nat * Z * Z) : Prop :=
  ranges !! span.1.1 = Some (Bounded span.1.2 (span.2 - span.1.2)) /\ 0 <= span.1.2 < span.2.

Lemma results_ok_insert results i r range :
  results_ok results -> ranges !! i = Some range -> answers range r -> results_ok (<[i := Some r]> results).
Proof.
  intros [Hlen Hok] Hi Ha. split; [by rewrite length_insert|]. intros j r'. destruct (decide (i = j)) as [<-|Hne].
  - rewrite list_lookup_insert_eq; [intros [= <-]; eauto|]. rewrite Hlen. by eapply lookup_lt_Some.
  - rewrite list_lookup_insert_ne by done. apply Hok.
Qed.

Lemma get_full s s' r range :
  objects s = m -> os_get key Full s = (s', r) -> objects s' = m /\ (range = Full -> answers range r).
Proof.
  intros Hm Hg. destruct (get_law _ _ _ _ _ Hg) as [Ho Hspec]. rewrite Hm in *. split; [done|]. intros ->.
  destruct r as [b|e|]; simpl in *; [done| |done]. destruct Hspec as [Hf|Hx]; [by left|].
  destruct (m !! key) as [[payload token]|]; [done|]. right; left. done.
Qed.

Lemma cut_group payload g s e fetched :
  0 <= mg_start g <= s -> s < e <= mg_end g ->
  slice_range key payload (Bounded (mg_start g) (mg_end g - mg_start g)) = Ok fetched ->
  cut fetched (s - mg_start g) (e - mg_start g) = slice_range key payload (Bounded s (e - s)).
Proof.
  intros Hs He. unfold slice_range, cut. destruct (_ <=? _) eqn:Hin; [|done]. intros [= <-]. zbool.
  rewrite length_take, length_drop. rewrite (proj2 (Z.leb_le (s - _) _)), (proj2 (Z.leb_le (e - _) _)) by lia.
  rewrite (proj2 (Z.leb_le _ _)) by lia. simpl. f_equal. rewrite take_drop_commute, take_take.
  rewrite Nat.min_l by lia. rewrite <-take_drop_commute, drop_drop. do 2 f_equal; lia.
Qed.

(** Filling in answers. *)
Lemma fill_ok fetch results members :
  results_ok results ->
  (forall i s e, (i, s, e) ∈ members -> exists range, ranges !! i = Some range /\
    answers range (match fetch with Ok fetched => cut fetched s e | Err e => Err e | Panic => Panic end)) ->
  let results' := foldl (fill fetch) results members in
  results_ok results' /\
  (forall i, (exists r, results !! i = Some (Some r)) \/ i ∈ map (fun span => span.1.1) members ->
    exists r, results' !! i = Some (Some r)).
Proof.
  revert results. induction members as [|[[i s] e] members IH]; simpl; intros results Hres Hall.
  { split; [done|]. intros i [Hr|Hi]; [done|set_solver]. }
  destruct (Hall i s e ltac:(by left)) as (range & Hi & Ha).
  destruct (IH (<[i := Some (match fetch with Ok fetched => cut fetched s e | Err e => Err e | Panic => Panic end)]> results))
    as [Hok Hset]; [by eapply results_ok_insert|intros ? ? ? ?; apply Hall; by right|]. split; [done|].
  intros j Hj. apply Hset. destruct (decide (i = j)) as [<-|Hne].
  - left. eexists. apply list_lookup_insert_eq. rewrite (proj1 Hres). by eapply lookup_lt_Some.
  - rewrite list_lookup_insert_ne by done. destruct Hj as [Hj|[Hj|Hj]%elem_of_cons]; [by left|done|by right].
Qed.

(** One group: the store is as it was, and every member has an answer. *)
Lemma fetch_group_ok s results g s' results' spans :
  objects s = m -> results_ok results -> Forall span_of_range spans -> group_ok spans g ->
  fetch_group key (s, results) (localize g) = (s', results') ->
  objects s' = m /\ results_ok results' /\
  (forall i, (exists r, results !! i = Some (Some r)) \/ i ∈ map (fun span => span.1.1) (mg_members g) ->
    exists r, results' !! i = Some (Some r)).
Proof.
  intros Hm Hres Hsp [Hmem (i1 & e1 & Hst) (i0 & s0 & Hend)]. rewrite Forall_forall in Hsp.
  destruct (Hmem _ _ _ Hst) as (Hin1 & _ & He1). destruct (Hsp _ Hin1) as [_ Hb1].
  destruct (Hmem _ _ _ Hend) as (Hin0 & Hs0 & _). destruct (Hsp _ Hin0) as [Hr0 Hb0]. simpl in *.
  unfold fetch_group, ByteRange_bounded. simpl. rewrite (proj2 (Z.eqb_neq _ _)) by lia.
  destruct (os_get key _ s) as [s1 fetch] eqn:Hg. intros [= <- <-].
  destruct (get_law _ _ _ _ _ Hg) as [Ho Hspec]. rewrite Hm in *. split; [done|].
  destruct (fill_ok fetch results (map (fun '(idx, start, end_) => (idx, start - mg_start g, end_ - mg_start g)) (mg_members g)))
    as [Hok Hset]; [done| |split; [done|]].
  - intros i ls le Hl. apply list_elem_of_fmap_1 in Hl as ([[i' s2] e2] & [= -> -> ->] & Hin).
    destruct (Hmem _ _ _ Hin) as (Hspan & Hlo & Hhi). destruct (Hsp _ Hspan) as [Hri Hbi]. simpl in *.
    exists (Bounded s2 (e2 - s2)). split; [done|]. destruct fetch as [fetched|err|]; [| |done].
    + destruct Hspec as (payload & token & Hk & Hsl). rewrite (cut_group payload) by (done || lia).
      unfold slice_range. simpl. destruct (_ <=? _) eqn:Hle; simpl.
      * exists payload, token. split; [done|]. unfold slice_range. by rewrite Hle.
      * zbool. right; right. unfold slice_range in Hsl. destruct (_ <=? _) eqn:Hle2 in Hsl; [|done]. zbool. lia.
    + destruct Hspec as [Hf|Hx]; [by left|]. destruct (m !! key) as [[payload token]|] eqn:Hk; [|right; left; done].
      right; right. unfold slice_range in Hx. destruct (_ <=? _) eqn:Hle in Hx; [done|]. zbool.
      exists s0, (mg_end g - s0). split; [by eapply list_elem_of_lookup_2|]. right. exists payload, token. split; [done|]. lia.
  - intros i Hi. apply Hset. destruct Hi as [Hi|Hi]; [by left|]. right. rewrite map_map.
    erewrite map_ext; [exact Hi|]. by intros [[? ?] ?].
Qed.

Lemma fetch_groups_ok groups s results s' results' spans :
  objects s = m -> results_ok results -> Forall span_of_range spans -> (forall g, g ∈ groups -> group_ok spans g) ->
  foldl (fetch_group key) (s, results) (map localize groups) = (s', results') ->
  objects s' = m /\ results_ok results' /\
  (forall i, (exists r, results !! i = Some (Some r)) \/
     (exists g, g ∈ groups /\ i ∈ map (fun span => span.1.1) (mg_members g)) ->
    exists r, results' !! i = Some (Some r)).
Proof.
  revert s results. induction groups as [|g groups IH]; cbn [map foldl]; intros s results Hm Hres Hsp Hg.
  - intros [= <- <-]. split; [done|]. split; [done|]. intros i [Hi|(g & Hx & _)]; [done|set_solver].
  - destruct (fetch_group key (s, results) (localize g)) as [s1 results1] eqn:Hf.
    destruct (fetch_group_ok _ _ _ _ _ _ Hm Hres Hsp (Hg g ltac:(by left)) Hf) as (Hm1 & Hres1 & Hset1).
    intros Hrest. destruct (IH s1 results1 Hm1 Hres1 Hsp ltac:(intros ? ?; apply Hg; by right) Hrest) as (Hm2 & Hres2 & Hset2).
    split; [done|]. split; [done|]. intros i Hi. apply Hset2.
    destruct Hi as [Hi|(g' & [->|Hg']%elem_of_cons & Hin)]; [left; apply Hset1; by left|left; apply Hset1; by right|].
    right. by exists g'.
Qed.

(** The first loop: a range has its answer, or a span. *)
Record batched (n : nat) (st : Batched (S := S)) : Prop := {
  bi_objects : objects (bd_store st) = m;
  bi_results : results_ok (bd_results st);
  bi_spans : Forall span_of_range (bd_spans st);
  bi_done : forall i, (i < n)%nat -> (exists r, bd_results st !! i = Some (Some r)) \/ i ∈ map (fun span => span.1.1) (bd_spans st);
}.

Lemma batch_one_ok n st range :
  batched n st -> ranges !! n = Some range -> range_ok range -> batched (Datatypes.S n) (batch_one key st (n, range)).
Proof.
  intros [B1 B2 B3 B4] Hn Hr. unfold batch_one.
  assert (n < length (bd_results st))%nat as Hlt by (rewrite (proj1 B2); by eapply lookup_lt_Some).
  assert (forall r, results_ok (<[n := Some r]> (bd_results st)) -> forall i, (i < Datatypes.S n)%nat ->
    (exists r', <[n := Some r]> (bd_results st) !! i = Some (Some r')) \/ i ∈ map (fun span => span.1.1) (bd_spans st)) as Hset.
  { intros r _ i Hi. destruct (decide (n = i)) as [<-|Hne].
    - left. exists r. by apply list_lookup_insert_eq.
    - rewrite list_lookup_insert_ne by done. apply B4. lia. }
  destruct range as [|off len].
  - destruct (os_get key Full (bd_store st)) as [s1 r] eqn:Hg. destruct (get_full _ _ _ Full B1 Hg) as [Ho Ha].
    assert (results_ok (<[n := Some r]> (bd_results st))) as Hok by (eapply results_ok_insert; eauto).
    split; simpl; auto.
  - unfold u64_checked_add. destruct (off + len <=? u64_max) eqn:Hle; zbool.
    + split; simpl; [done|done| |].
      * apply Forall_app. split; [done|]. constructor; [|constructor]. unfold span_of_range; simpl in *.
        replace (off + len - off) with len by lia. split; [done|lia].
      * intros i Hi. rewrite map_app, elem_of_app. destruct (decide (i = n)) as [->|Hne].
        -- right. right. simpl. by left.
        -- destruct (B4 i ltac:(lia)) as [Hx|Hx]; [by left|right; by left].
    + assert (results_ok (<[n := Some (Err (ByteRangeOutOfBounds key off len u64_max))]> (bd_results st))) as Hok.
      { eapply results_ok_insert; [done|done|]. simpl. right; right. exists off, len.
        split; [by eapply list_elem_of_lookup_2|]. left. lia. }
      split; simpl; auto.
Qed.

Lemma batch_fold_ok n todo st :
  (n + length todo)%nat = length ranges -> drop n ranges = todo -> Forall range_ok ranges -> batched n st ->
  batched (length ranges) (foldl (batch_one key) st (imap (fun i r => ((n + i)%nat, r)) todo)).
Proof.
  revert n st. induction todo as [|range todo IH]; simpl; intros n st Hlen Hd Hok Hb.
  - by replace (length ranges) with n by lia.
  - assert (ranges !! n = Some range) as Hn.
    { replace n with (n + 0)%nat at 1 by lia. by rewrite <-lookup_drop, Hd. }
    rewrite Nat.add_0_r. specialize (IH (Datatypes.S n) (batch_one key st (n, range))).
    erewrite imap_ext; [apply IH|].
    + lia.
    + change (Datatypes.S n) with (1 + n)%nat. rewrite Nat.add_comm, <-drop_drop, Hd. done.
    + done.
    + apply batch_one_ok; [done|done|]. rewrite Forall_forall in Hok. apply Hok. by eapply list_elem_of_lookup_2.
    + intros i x _. simpl. f_equal. lia.
Qed.
End answers.

(** A batch of ranges is answered as the ranges would be one by one.  The
    store is not changed, each range has one answer, the code's own slicing never
    panics, and an answer that is not an error is exactly the slice of the object
    the range asks for, whatever it was merged with; an error is one the store
    gave, or the object is not there, or some range of the batch runs past the
    end of the object. *)
Theorem get_many_exact {S} `{ObjectStoreLaws S} threshold key ranges (s s' : S) rs :
  Forall range_ok ranges -> get_many threshold key ranges s = (s', rs) ->
  objects s' = objects s /\ length rs = length ranges /\
  forall i range, ranges !! i = Some range -> exists r, rs !! i = Some r /\ answers (objects s) key ranges range r.
Proof.
  intros Hok. unfold get_many.
  assert (batched (objects s) key ranges 0 (mkBatched s (map (fun _ => None) ranges) [])) as Hb0.
  { split; simpl; [done| |constructor|lia]. split; [by rewrite length_map|]. intros i r Hi.
    apply list_lookup_fmap_Some in Hi as (x & ? & _). done. }
  pose proof (batch_fold_ok (objects s) key ranges 0 ranges _ ltac:(done) ltac:(done) Hok Hb0) as [B1 B2 B3 B4].
  assert (imap pair ranges = imap (fun i r => ((0 + i)%nat, r)) ranges) as -> by done.
  set (st := foldl (batch_one key) _ _) in *. clearbody st.
  destruct (plan_merge_spec (bd_spans st) threshold) as (groups & -> & Hg & Hall).
  destruct (foldl (fetch_group key) _ (map localize groups)) as [s1 results] eqn:Hf. intros [= <- <-].
  destruct (fetch_groups_ok (objects s) key ranges _ _ _ _ _ _ B1 B2 B3 Hg Hf) as (Ho & [Hlen Hres] & Hset).
  split; [done|]. split; [by rewrite length_map|]. intros i range Hi.
  destruct (Hset i) as (r & Hr).
  { destruct (B4 i) as [Hx|Hx]; [by eapply lookup_lt_Some|by left|]. right.
    apply list_elem_of_fmap_1 in Hx as (span & -> & Hspan). destruct (Hall span Hspan) as (g & Hg' & Hm).
    exists g. split; [done|]. by apply (list_elem_of_fmap_2 (fun span : nat * Z * Z => span.1.1)). }
  exists r. split; [by rewrite list_lookup_fmap, Hr|]. destruct (Hres i r Hr) as (range' & Hi' & Ha). by simplify_eq.
Qed.

Definition demo_ranged_store : FakeObjectStore := (fake_put "o" [10; 11; 12; 13; 14; 15; 16; 17] None FakeObjectStore_new).1.

Lemma get_many_exact_witness :
  (get_many 2 "o" [Bounded 5 2; Full; Bounded 0 3; Bounded 1 1] demo_ranged_store).2 =
    [Ok [15; 16]; Ok [10; 11; 12; 13; 14; 15; 16; 17]; Ok [10; 11; 12]; Ok [11]] /\
  exists r, (get_many 2 "o" [Bounded 5 2; Full; Bounded 0 3; Bounded 1 1] demo_ranged_store).2 !! 0%nat = Some r /\
    answers (objects demo_ranged_store) "o" [Bounded 5 2; Full; Bounded 0 3; Bounded 1 1] (Bounded 5 2) r.
Proof.
  split; [vm_compute; reflexivity|].
  destruct (get_many_exact 2 "o" [Bounded 5 2; Full; Bounded 0 3; Bounded 1 1] demo_ranged_store _ _
    ltac:(repeat constructor; simpl; lia) (surjective_pairing _)) as (_ & _ & H).
  apply (H 0%nat). reflexivity.
Defined.
