(* ===== verification/Machine.v ===== *)
(** * Machine: programs that talk to the object store, one call at a time

    The async code above the store (the segment log, the lease) interleaves at
    its [await] points: between two store calls, two looks at the clock or two
    sections under its own lock, anything may happen that another task, another
    process or the clock does.  Such code is a [Prog], a sequence of those
    steps; [run] executes one alone, and [wstep] any number of them
    interleaved, with processes that die and restart, clocks that advance and
    objects that others write.

    [safe] is the logic both are reasoned with: a rely-guarantee judgement in
    which every assertion is, by construction, stable under what the others
    may do.  [reachable_safe] carries it to every interleaving and [run_safe]
    to the execution of one program. *)

From stdpp Require Import base tactics list numbers strings gmap functions relations.
From Stdlib Require Import ZArith Lia.
From Stdlib Require Import Ascii.
From S2P Require Import Prelude Bytes Types Store.

Open Scope Z_scope.

(** ** Programs *)

(** [T] is the state behind the handle's own lock. *)
Inductive Prog (T A : Type) : Type :=
| PDone (r : Res A)
| PLock (f : T -> T) (k : T -> Prog T A)
| PNow (k : Z -> Prog T A)
| PGet (key : ObjectKey) (range : ByteRange) (k : Res bytes -> Prog T A)
| PList (prefix : string) (after : option ObjectKey) (limit : nat) (k : Res (list ObjectKey) -> Prog T A)
| PPut (key : ObjectKey) (payload : bytes) (pc : option Precondition) (k : Res ObjectMeta -> Prog T A)
| PDelete (keys : list ObjectKey) (k : Res unit -> Prog T A).
Arguments PDone {T A} r.
Arguments PLock {T A} f k.
Arguments PNow {T A} k.
Arguments PGet {T A} key range k.
Arguments PPut {T A} key payload pc k.
Arguments PDelete {T A} keys k.
Arguments PList {T A} prefix after limit k.

Fixpoint pbind {T A B} (m : Prog T A) (k : A -> Prog T B) : Prog T B :=
  match m with
  | PDone (Ok a) => k a
  | PDone (Err e) => PDone (Err e)
  | PDone Panic => PDone Panic
  | PLock f c => PLock f (fun t => pbind (c t) k)
  | PNow c => PNow (fun z => pbind (c z) k)
  | PGet key range c => PGet key range (fun r => pbind (c r) k)
  | PPut key b pc c => PPut key b pc (fun r => pbind (c r) k)
  | PDelete keys c => PDelete keys (fun r => pbind (c r) k)
  | PList prefix after limit c => PList prefix after limit (fun r => pbind (c r) k)
  end.

Notation "'let*' x ':=' m 'in' k" := (pbind m (fun x => k))
  (at level 10, x pattern, m at level 200, k at level 200) : oq_scope.

Section vocabulary.
Context {T : Type}.

Definition preturn {A} (a : A) : Prog T A := PDone (Ok a).
Definition pfail {A} (e : Error) : Prog T A := PDone (Err e).
(** [self.lock()]: the state as it is, and what the section leaves. *)
Definition locked (f : T -> T) : Prog T T := PLock f preturn.
Definition reading : Prog T T := locked id.
Definition clock_now : Prog T Z := PNow preturn.
(** The answer of a call, to be matched on; [ask] is the call followed by [?]. *)
Definition st_get (key : ObjectKey) (range : ByteRange) : Prog T (Res bytes) := PGet key range preturn.
Definition st_put (key : ObjectKey) (b : bytes) (pc : option Precondition) : Prog T (Res ObjectMeta) :=
  PPut key b pc preturn.
Definition st_delete (keys : list ObjectKey) : Prog T (Res unit) := PDelete keys preturn.
Definition st_list (prefix : string) (after : option ObjectKey) (limit : nat) : Prog T (Res (list ObjectKey)) :=
  PList prefix after limit preturn.
Definition ask {A} (m : Prog T (Res A)) : Prog T A := let* r := m in PDone r.

(** The answer of a whole program, to be matched on. *)
Fixpoint pcatch {A} (p : Prog T A) : Prog T (Res A) :=
  match p with
  | PDone Panic => PDone Panic
  | PDone r => PDone (Ok r)
  | PLock f k => PLock f (fun t => pcatch (k t))
  | PNow k => PNow (fun z => pcatch (k z))
  | PGet key range k => PGet key range (fun r => pcatch (k r))
  | PPut key b pc k => PPut key b pc (fun r => pcatch (k r))
  | PDelete keys k => PDelete keys (fun r => pcatch (k r))
  | PList prefix after limit k => PList prefix after limit (fun r => pcatch (k r))
  end.

(** A program that has no part in the state of its process. *)
Fixpoint lockless {A} (p : Prog T A) : Prop :=
  match p with
  | PDone _ => True
  | PLock _ _ => False
  | PNow k => forall z, lockless (k z)
  | PGet _ _ k => forall r, lockless (k r)
  | PPut _ _ _ k => forall r, lockless (k r)
  | PDelete _ k => forall r, lockless (k r)
  | PList _ _ _ k => forall r, lockless (k r)
  end.

Lemma lockless_bind {A B} (p : Prog T A) (k : A -> Prog T B) :
  lockless p -> (forall a, lockless (k a)) -> lockless (pbind p k).
Proof.
  intros Hp Hk. induction p as [r| |c IH|key range c IH|prefix after limit c IH|key b pc c IH|keys c IH]; simpl in *; [by destruct r|done|auto..].
Qed.
End vocabulary.

(** ** One program alone *)

Section execution.
Context {S T : Type} `{ObjectStore S}.

(** One step of a task of process [n], at a clock that reads [z]. *)
Definition pstep {A} (n : nat) (z : Z) (p : Prog T A) (s : S) (l : nat -> T)
    : option (S * (nat -> T) * Prog T A) :=
  match p with
  | PDone _ => None
  | PLock f k => Some (s, <[n := f (l n)]> l, k (l n))
  | PNow k => Some (s, l, k z)
  | PGet key range k => let '(s', r) := os_get key range s in Some (s', l, k r)
  | PPut key b pc k => let '(s', r) := os_put key b pc s in Some (s', l, k r)
  | PDelete keys k => let '(s', r) := os_delete keys s in Some (s', l, k r)
  | PList prefix after limit k => let '(s', r) := os_list prefix after limit s in Some (s', l, k r)
  end.

(** All its steps, with nothing in between. *)
Fixpoint run {A} (z : Z) (p : Prog T A) (s : S) (t : T) : S * T * Res A :=
  match p with
  | PDone r => (s, t, r)
  | PLock f k => run z (k t) s (f t)
  | PNow k => run z (k z) s t
  | PGet key range k => let '(s', r) := os_get key range s in run z (k r) s' t
  | PPut key b pc k => let '(s', r) := os_put key b pc s in run z (k r) s' t
  | PDelete keys k => let '(s', r) := os_delete keys s in run z (k r) s' t
  | PList prefix after limit k => let '(s', r) := os_list prefix after limit s in run z (k r) s' t
  end.
End execution.

(** ** Many programs, interleaved

    [node i] is the process task [i] runs in; the tasks of a process share its
    state.  [O] names the operations and [code] is what they run; what has
    been answered is kept in [w_answers]. *)

Record World (S T A O : Type) : Type := mkWorld {
  w_store : S;
  w_local : nat -> T;
  w_clock : nat -> Z;
  w_task : nat -> option (O * Prog T A);
  w_answers : list (O * Res A);
}.
Arguments mkWorld {S T A O}.
Arguments w_store {S T A O}.
Arguments w_local {S T A O}.
Arguments w_clock {S T A O}.
Arguments w_task {S T A O}.
Arguments w_answers {S T A O}.

Section interleaving.
Context {S T A O : Type} `{ObjectStoreLaws S}.
Context (node : nat -> nat) (code : nat -> O -> Prog T A) (init : T).
(** The operations a task may start. *)
Context (may_start : nat -> O -> Prop).
(** Readings the clocks of the processes may show at one moment. *)
Context (clocks_ok : (nat -> Z) -> Prop).
(** What everything that is not one of these programs does to the objects. *)
Context (others : Objects -> Objects -> Prop).

Inductive wstep : World S T A O -> World S T A O -> Prop :=
| ws_start i o w :
    w_task w i = None -> may_start i o ->
    wstep w (mkWorld (w_store w) (w_local w) (w_clock w) (<[i := Some (o, code i o)]> (w_task w)) (w_answers w))
| ws_run i o p w s' l' p' :
    w_task w i = Some (o, p) ->
    pstep (node i) (w_clock w (node i)) p (w_store w) (w_local w) = Some (s', l', p') ->
    wstep w (mkWorld s' l' (w_clock w) (<[i := Some (o, p')]> (w_task w)) (w_answers w))
| ws_answer i o r w :
    w_task w i = Some (o, PDone r) ->
    wstep w (mkWorld (w_store w) (w_local w) (w_clock w) (<[i := None]> (w_task w)) (w_answers w ++ [(o, r)]))
| ws_tick w clock' :
    (forall n, w_clock w n <= clock' n) -> clocks_ok clock' ->
    wstep w (mkWorld (w_store w) (w_local w) clock' (w_task w) (w_answers w))
| ws_others w s' :
    others (objects (w_store w)) (objects s') ->
    wstep w (mkWorld s' (w_local w) (w_clock w) (w_task w) (w_answers w))
| ws_restart n w :
    wstep w (mkWorld (w_store w) (<[n := init]> (w_local w)) (w_clock w)
      (fun i => if decide (node i = n) then None else w_task w i) (w_answers w)).

Definition reachable : World S T A O -> World S T A O -> Prop := rtc wstep.

(** A schedule: which task moves next, and what it starts if it is idle. *)
Definition move (i : nat) (o : O) (w : World S T A O) : World S T A O :=
  match w_task w i with
  | None =>
      mkWorld (w_store w) (w_local w) (w_clock w) (<[i := Some (o, code i o)]> (w_task w)) (w_answers w)
  | Some (o', p) =>
      match p with
      | PDone r =>
          mkWorld (w_store w) (w_local w) (w_clock w) (<[i := None]> (w_task w)) (w_answers w ++ [(o', r)])
      | _ =>
          match pstep (node i) (w_clock w (node i)) p (w_store w) (w_local w) with
          | Some (s', l', p') =>
              mkWorld s' l' (w_clock w) (<[i := Some (o', p')]> (w_task w)) (w_answers w)
          | None => w
          end
      end
  end.

Definition drive (schedule : list (nat * O)) (w : World S T A O) : World S T A O :=
  foldl (fun w io => move io.1 io.2 w) w schedule.

(** What was answered before does not matter to what follows. *)
Definition forget (w : World S T A O) : World S T A O :=
  mkWorld (w_store w) (w_local w) (w_clock w) (w_task w) [].

Lemma wstep_forget w w' :
  wstep w w' -> exists new, w_answers w' = w_answers w ++ new /\
    forall old, wstep (mkWorld (w_store w) (w_local w) (w_clock w) (w_task w) old)
      (mkWorld (w_store w') (w_local w') (w_clock w') (w_task w') (old ++ new)).
Proof.
  intros Hstep. destruct Hstep as [i o w Hn Hok|i o p w s' l' p' Hp Hstep|i o r w Hp|w clock' Hle Hok|w s' Hoth|n w]; cbn [w_answers].
  all: try (exists []; split; [by rewrite app_nil_r|]; intros old; rewrite app_nil_r; set (w0 := mkWorld _ _ _ _ old)).
  - by apply (ws_start i o w0).
  - by apply (ws_run i o p w0).
  - exists [(o, r)]. split; [done|]. intros old. by apply (ws_answer i o r (mkWorld (w_store w) (w_local w) (w_clock w) (w_task w) old)).
  - by apply (ws_tick w0).
  - by apply (ws_others w0).
  - apply (ws_restart n w0).
Qed.

Lemma reachable_forget w w' :
  reachable w w' -> exists new, w_answers w' = w_answers w ++ new /\
    reachable (forget w) (mkWorld (w_store w') (w_local w') (w_clock w') (w_task w') new).
Proof.
  intros Hreach. enough (exists new, w_answers w' = w_answers w ++ new /\
    forall old, reachable (mkWorld (w_store w) (w_local w) (w_clock w) (w_task w) old)
      (mkWorld (w_store w') (w_local w') (w_clock w') (w_task w') (old ++ new))) as (new & Ha & Hr) by (exists new; split; [done|apply (Hr [])]).
  induction Hreach as [w|w1 w2 w3 Hstep _ (new & Ha & Hr)].
  - exists []. split; [by rewrite app_nil_r|]. intros old. rewrite app_nil_r. apply rtc_refl.
  - destruct (wstep_forget _ _ Hstep) as (new1 & Ha1 & Hs). exists (new1 ++ new). split; [by rewrite Ha, Ha1, app_assoc|].
    intros old. eapply rtc_l; [apply Hs|]. rewrite app_assoc. apply Hr.
Qed.

Lemma move_clock i o w : w_clock (move i o w) = w_clock w.
Proof. unfold move. by repeat case_match. Qed.

Lemma drive_clock schedule w : w_clock (drive schedule w) = w_clock w.
Proof.
  revert w. induction schedule as [|[i o] schedule IH]; intros w; [done|].
  change (drive ((i, o) :: schedule) w) with (drive schedule (move i o w)). by rewrite IH, move_clock.
Qed.

Lemma move_reachable i o w : may_start i o -> reachable w (move i o w).
Proof.
  intros Hok.
  unfold move. destruct (w_task w i) as [[o' p]|] eqn:Ht; [|by apply rtc_once, ws_start].
  destruct p as [r| | | | | |]; [by apply rtc_once, (ws_answer i o' r)|..];
    (destruct (pstep _ _ _ _ _) as [[[s' l'] p']|] eqn:Hp; [|done]);
    by apply rtc_once, (ws_run i o' _ _ _ _ _ Ht Hp).
Qed.

Lemma drive_reachable schedule w :
  Forall (fun io => may_start io.1 io.2) schedule -> reachable w (drive schedule w).
Proof.
  intros Hok. revert w. induction Hok as [|[i o] schedule Hio _ IH]; intros w; simpl; [done|].
  etrans; [by apply (move_reachable i o)|apply IH].
Qed.
End interleaving.

(** ** The logic *)

(** What assertions are about: the world without its tasks, and ghost state. *)
Record View (T G : Type) : Type := mkView {
  v_objects : Objects;
  v_local : nat -> T;
  v_clock : nat -> Z;
  v_ghost : G;
}.
Arguments mkView {T G}.
Arguments v_objects {T G}.
Arguments v_local {T G}.
Arguments v_clock {T G}.
Arguments v_ghost {T G}.

Section logic.
Context {T G : Type} (fault : Error -> Prop) (node : nat -> nat).
(** [Inv] holds after every step; [rely i] is what the others may do to task
    [i] between its steps, and [grows] what any step does. *)
Context (Inv : View T G -> Prop) (rely : nat -> View T G -> View T G -> Prop).
Context (grows : View T G -> View T G -> Prop).

Definition guar (i : nat) (v v' : View T G) : Prop :=
  grows v v' /\ forall j, j <> i -> rely j v v'.

(** Some ghost state completes [v'] to the next view. *)
Definition goes (i : nat) (v : View T G) (m' : Objects) (l' : nat -> T) (Q : View T G -> Prop) : Prop :=
  exists g', let v' := mkView m' l' (v_clock v) g' in Inv v' /\ guar i v v' /\ Q v'.

Fixpoint safe {A} (i : nat) (p : Prog T A) (Q : Res A -> View T G -> Prop) (v : View T G) : Prop :=
  match p with
  | PDone r => Q r v
  | PLock f k => forall v1, rely i v v1 -> Inv v1 ->
      goes i v1 (v_objects v1) (<[node i := f (v_local v1 (node i))]> (v_local v1))
        (safe i (k (v_local v1 (node i))) Q)
  | PNow k => forall v1, rely i v v1 -> Inv v1 ->
      goes i v1 (v_objects v1) (v_local v1) (safe i (k (v_clock v1 (node i))) Q)
  | PGet key range k => forall v1, rely i v v1 -> Inv v1 ->
      forall r, get_spec fault (v_objects v1) key range r ->
      goes i v1 (v_objects v1) (v_local v1) (safe i (k r) Q)
  | PList prefix after limit k => forall v1, rely i v v1 -> Inv v1 ->
      forall r, list_spec fault (v_objects v1) prefix after limit r ->
      goes i v1 (v_objects v1) (v_local v1) (safe i (k r) Q)
  | PPut key b pc k => forall v1, rely i v v1 -> Inv v1 ->
      forall r m', put_spec fault (v_objects v1) key b pc r m' ->
      goes i v1 m' (v_local v1) (safe i (k r) Q)
  | PDelete keys k => forall v1, rely i v v1 -> Inv v1 ->
      forall r m', delete_spec fault (v_objects v1) keys r m' ->
      goes i v1 m' (v_local v1) (safe i (k r) Q)
  end.

Lemma goes_mono i v m' l' (Q Q' : View T G -> Prop) :
  (forall v', Q v' -> Q' v') -> goes i v m' l' Q -> goes i v m' l' Q'.
Proof. intros HQ (g' & Hi & Hg & Hq). exists g'. auto. Qed.

(** What may follow an answer: the rest of the program, or nothing. *)
Definition then_safe {A B} (i : nat) (k : A -> Prog T B) (Q : Res B -> View T G -> Prop)
    (r : Res A) (v : View T G) : Prop :=
  match r with
  | Ok a => safe i (k a) Q v
  | Err e => Q (Err e) v
  | Panic => Q Panic v
  end.

Lemma safe_bind {A B} i (p : Prog T A) (k : A -> Prog T B) Q v :
  safe i p (then_safe i k Q) v -> safe i (pbind p k) Q v.
Proof.
  revert v. induction p as [r|f c IH|c IH|key range c IH|prefix after limit c IH|key b pc c IH|keys c IH]; intros v; simpl.
  1: by destruct r.
  all: intros Hs v1 Hr Hi; specialize (Hs v1 Hr Hi).
  1,2: eapply goes_mono; [|exact Hs]; intros v'; apply IH.
  1,2: intros r Hg; specialize (Hs r Hg); eapply goes_mono; [|exact Hs]; intros v'; apply IH.
  all: intros r m' Hp; specialize (Hs r m' Hp); eapply goes_mono; [|exact Hs]; intros v'; apply IH.
Qed.

Lemma safe_mono {A} i (p : Prog T A) (Q Q' : Res A -> View T G -> Prop) v :
  safe i p Q v -> (forall r v', Q r v' -> Q' r v') -> safe i p Q' v.
Proof.
  intros Hs HQ. revert v Hs. induction p as [r|f c IH|c IH|key range c IH|prefix after limit c IH|key b pc c IH|keys c IH];
    intros v; simpl; [auto|..].
  all: intros Hs v1 Hr Hi; specialize (Hs v1 Hr Hi).
  1,2: eapply goes_mono; [|exact Hs]; intros v'; apply IH.
  1,2: intros r Hg; specialize (Hs r Hg); eapply goes_mono; [|exact Hs]; intros v'; apply IH.
  all: intros r m' Hp; specialize (Hs r m' Hp); eapply goes_mono; [|exact Hs]; intros v'; apply IH.
Qed.

Lemma safe_catch {A} i (p : Prog T A) (Q : Res (Res A) -> View T G -> Prop) v :
  safe i p (fun r v' => Q (match r with Panic => Panic | _ => Ok r end) v') v -> safe i (pcatch p) Q v.
Proof.
  revert v. induction p as [r|f c IH|c IH|key range c IH|prefix after limit c IH|key b pc c IH|keys c IH]; intros v; simpl.
  1: by destruct r.
  all: intros Hs v1 Hr Hi; specialize (Hs v1 Hr Hi).
  1,2: eapply goes_mono; [|exact Hs]; intros v'; apply IH.
  1,2: intros r Hg; specialize (Hs r Hg); eapply goes_mono; [|exact Hs]; intros v'; apply IH.
  all: intros r m' Hp; specialize (Hs r m' Hp); eapply goes_mono; [|exact Hs]; intros v'; apply IH.
Qed.

Lemma safe_inv {A} i (p : Prog T A) Q v :
  safe i p Q v -> Inv v -> safe i p (fun r v' => Q r v' /\ Inv v') v.
Proof.
  revert v. induction p as [r|f c IH|c IH|key range c IH|prefix after limit c IH|key b pc c IH|keys c IH]; intros v; simpl; [auto|..].
  all: intros Hs _ v1 Hr Hi; specialize (Hs v1 Hr Hi).
  1,2: destruct Hs as (g' & Hi' & Hg & Hs); exists g'; auto.
  1,2: intros r Hspec; destruct (Hs r Hspec) as (g' & Hi' & Hg & Hs'); exists g'; auto.
  all: intros r m' Hspec; destruct (Hs r m' Hspec) as (g' & Hi' & Hg & Hs'); exists g'; auto.
Qed.

(** One program after another, the invariant in between. *)
Lemma safe_seq {A B} i (p : Prog T A) (k : A -> Prog T B) (Q' : Res A -> View T G -> Prop) Q v :
  safe i p Q' v -> Inv v -> (forall r v', Q' r v' -> Inv v' -> then_safe i k Q r v') ->
  safe i (pbind p k) Q v.
Proof.
  intros Hp Hi Hk. apply safe_bind. eapply safe_mono; [by apply safe_inv|]. intros r v' [HQ Hi']. auto.
Qed.

(** The steps, one rule each. *)
Lemma safe_return {A} i (a : A) Q v : Q (Ok a) v -> safe i (preturn a) Q v.
Proof. done. Qed.

Lemma safe_now i (Q : Res Z -> View T G -> Prop) v :
  (forall v1, rely i v v1 -> Inv v1 ->
   goes i v1 (v_objects v1) (v_local v1) (Q (Ok (v_clock v1 (node i))))) ->
  safe i clock_now Q v.
Proof. auto. Qed.

Lemma safe_locked i f (Q : Res T -> View T G -> Prop) v :
  (forall v1, rely i v v1 -> Inv v1 ->
   goes i v1 (v_objects v1) (<[node i := f (v_local v1 (node i))]> (v_local v1))
     (Q (Ok (v_local v1 (node i))))) ->
  safe i (locked f) Q v.
Proof. auto. Qed.

Lemma safe_get i key range (Q : Res (Res bytes) -> View T G -> Prop) v :
  (forall v1 r, rely i v v1 -> Inv v1 -> get_spec fault (v_objects v1) key range r ->
   goes i v1 (v_objects v1) (v_local v1) (Q (Ok r))) ->
  safe i (st_get key range) Q v.
Proof. intros HQ v1 Hr Hi r Hg. eapply goes_mono; [|by apply HQ]. done. Qed.

Lemma safe_put i key b pc (Q : Res (Res ObjectMeta) -> View T G -> Prop) v :
  (forall v1 r m', rely i v v1 -> Inv v1 -> put_spec fault (v_objects v1) key b pc r m' ->
   goes i v1 m' (v_local v1) (Q (Ok r))) ->
  safe i (st_put key b pc) Q v.
Proof. intros HQ v1 Hr Hi r m' Hp. eapply goes_mono; [|by apply HQ]. done. Qed.

Lemma safe_delete i keys (Q : Res (Res unit) -> View T G -> Prop) v :
  (forall v1 r m', rely i v v1 -> Inv v1 -> delete_spec fault (v_objects v1) keys r m' ->
   goes i v1 m' (v_local v1) (Q (Ok r))) ->
  safe i (st_delete keys) Q v.
Proof. intros HQ v1 Hr Hi r m' Hp. eapply goes_mono; [|by apply HQ]. done. Qed.

Section laws.
Hypothesis rely_refl : forall i v, rely i v v.
Hypothesis rely_trans : forall i v1 v2 v3, rely i v1 v2 -> rely i v2 v3 -> rely i v1 v3.
Hypothesis grows_refl : forall v, grows v v.

(** A step that changes nothing. *)
Lemma goes_id i v Q : Inv v -> Q v -> goes i v (v_objects v) (v_local v) Q.
Proof. intros Hi HQ. exists (v_ghost v). destruct v; simpl in *. split; [done|]. by repeat split. Qed.

(** What the others do leaves a safe program safe. *)
Lemma safe_rely {A} i (p : Prog T A) Q v v' :
  (forall r v v', rely i v v' -> Q r v -> Q r v') -> rely i v v' -> safe i p Q v -> safe i p Q v'.
Proof.
  intros HQ Hr. destruct p; simpl; [by eauto|..]; intros Hs v1 Hr1; apply Hs; eauto.
Qed.

(** Running alone. *)
Lemma run_safe {S A} `{ObjectStoreLaws S} (i : nat) (p : Prog T A) Q v z s t s' t' r :
  (forall e, os_fault e -> fault e) ->
  safe i p Q v -> Inv v -> objects s = v_objects v -> v_local v (node i) = t -> v_clock v (node i) = z ->
  run z p s t = (s', t', r) ->
  exists v', Inv v' /\ Q r v' /\ objects s' = v_objects v' /\ v_local v' (node i) = t' /\
    v_clock v' = v_clock v /\ (forall n, n <> node i -> v_local v' n = v_local v n).
Proof.
  intros Hf. revert v s t. induction p as [ans|f c IH|c IH|key range c IH|prefix after limit c IH|key b pc c IH|keys c IH];
    intros v s t Hs Hi Ho Hl Hz Hrun; simpl in *.
  - injection Hrun as <- <- <-. eauto 8.
  - destruct (Hs v (rely_refl i v) Hi) as (g' & Hi' & _ & Hs'). rewrite Hl in *.
    destruct (IH _ _ _ _ Hs' Hi' Ho (fn_lookup_insert _ _ _) Hz Hrun) as (v' & H1 & H2 & H3 & H4 & H5 & H6).
    exists v'. split_and!; [done..|]. intros n Hn. rewrite H6 by done. simpl. by rewrite fn_lookup_insert_ne.
  - destruct (Hs v (rely_refl i v) Hi) as (g' & Hi' & _ & Hs'). rewrite Hz in *.
    eapply (IH _ _ _ _ Hs' Hi'); [..|exact Hrun]; [done..].
  - destruct (os_get key range s) as [s1 r1] eqn:Hg. apply get_law in Hg as [Ho1 Hspec].
    assert (get_spec fault (v_objects v) key range r1) as Hspec'.
    { rewrite <-Ho. destruct r1; simpl in *; [done| |done]. destruct Hspec; auto. }
    destruct (Hs v (rely_refl i v) Hi _ Hspec') as (g' & Hi' & _ & Hs').
    eapply (IH _ _ _ _ Hs' Hi'); [..|exact Hrun]; simpl; congruence.
  - destruct (os_list prefix after limit s) as [s1 r1] eqn:Hg. apply list_law in Hg as [Ho1 Hspec].
    assert (list_spec fault (v_objects v) prefix after limit r1) as Hspec' by (rewrite <-Ho; destruct r1; simpl in *; auto).
    destruct (Hs v (rely_refl i v) Hi _ Hspec') as (g' & Hi' & _ & Hs').
    eapply (IH _ _ _ _ Hs' Hi'); [..|exact Hrun]; simpl; congruence.
  - destruct (os_put key b pc s) as [s1 r1] eqn:Hg. apply put_law in Hg.
    assert (put_spec fault (v_objects v) key b pc r1 (objects s1)) as Hspec'.
    { rewrite <-Ho. destruct r1; simpl in *; [done| |done]. destruct Hg as [|[? ?]]; auto. }
    destruct (Hs v (rely_refl i v) Hi _ _ Hspec') as (g' & Hi' & _ & Hs').
    eapply (IH _ _ _ _ Hs' Hi'); [..|exact Hrun]; [done..].
  - destruct (os_delete keys s) as [s1 r1] eqn:Hg. apply delete_law in Hg.
    assert (delete_spec fault (v_objects v) keys r1 (objects s1)) as Hspec'.
    { rewrite <-Ho. destruct Hg as (? & ? & ?). split; [done|]. split; [by auto|done]. }
    destruct (Hs v (rely_refl i v) Hi _ _ Hspec') as (g' & Hi' & _ & Hs').
    eapply (IH _ _ _ _ Hs' Hi'); [..|exact Hrun]; [done..].
Qed.

(** ** Every interleaving *)

Section soundness.
Context {S A O : Type} `{ObjectStoreLaws S}.
Context (code : nat -> O -> Prog T A) (init : T) (may_start : nat -> O -> Prop).
Context (clocks_ok : (nat -> Z) -> Prop) (others : Objects -> Objects -> Prop).
(** What an answer claims. *)
Context (Ans : O -> Res A -> View T G -> Prop).

Definition view (w : World S T A O) (g : G) : View T G :=
  mkView (objects (w_store w)) (w_local w) (w_clock w) g.

Record Obligations : Prop := {
  ob_fault : forall e, os_fault e -> fault e;
  ob_rely_grows : forall i v v', rely i v v' -> grows v v';
  ob_start : forall i o v, may_start i o -> Inv v -> safe i (code i o) (Ans o) v;
  ob_answer : forall o r v v', grows v v' -> Ans o r v -> Ans o r v';
  ob_tick : forall v clock', Inv v -> (forall n, v_clock v n <= clock' n) -> clocks_ok clock' ->
    let v' := mkView (v_objects v) (v_local v) clock' (v_ghost v) in
    Inv v' /\ grows v v' /\ forall i, rely i v v';
  ob_others : forall v m', Inv v -> others (v_objects v) m' ->
    let v' := mkView m' (v_local v) (v_clock v) (v_ghost v) in
    Inv v' /\ grows v v' /\ forall i, rely i v v';
  ob_restart : forall v n, Inv v ->
    let v' := mkView (v_objects v) (<[n := init]> (v_local v)) (v_clock v) (v_ghost v) in
    Inv v' /\ grows v v' /\ forall i, node i <> n -> rely i v v';
}.

(** What holds in every reachable world. *)
Definition world_safe (w : World S T A O) (g : G) : Prop :=
  Inv (view w g) /\
    (forall i o p, w_task w i = Some (o, p) -> safe i p (Ans o) (view w g)) /\
    (forall o r, (o, r) ∈ w_answers w -> Ans o r (view w g)).

Hypothesis obligations : Obligations.

Lemma safe_step i o p n z s l s' l' p' v :
  node i = n -> safe i p (Ans o) v -> Inv v -> objects s = v_objects v -> l = v_local v ->
  v_clock v n = z -> pstep n z p s l = Some (s', l', p') ->
  goes i v (objects s') l' (safe i p' (Ans o)).
Proof.
  intros <- Hs Hi Ho -> <-. pose proof (rely_refl i v) as Hr.
  destruct p as [r|f c|c|key range c|prefix after limit c|key b pc c|keys c]; simpl in *; [done|..].
  - intros [= <- <- <-]. rewrite Ho. by apply Hs.
  - intros [= <- <- <-]. rewrite Ho. by apply Hs.
  - destruct (os_get key range s) as [s1 r1] eqn:Hg. intros [= <- <- <-].
    apply get_law in Hg as [-> Hspec]. rewrite Ho in *. apply Hs; [done..|].
    destruct r1; simpl in *; [done| |done]. destruct Hspec; [left; by apply obligations|auto].
  - destruct (os_list prefix after limit s) as [s1 r1] eqn:Hg. intros [= <- <- <-].
    apply list_law in Hg as [-> Hspec]. rewrite Ho in *. apply Hs; [done..|].
    destruct r1; simpl in *; [done|by apply obligations|done].
  - destruct (os_put key b pc s) as [s1 r1] eqn:Hg. intros [= <- <- <-].
    apply put_law in Hg. rewrite Ho in *. apply Hs; [done..|].
    destruct r1; simpl in *; [done| |done].
    destruct Hg as [|[? ?]]; [auto|right; split; [by apply obligations|done]].
  - destruct (os_delete keys s) as [s1 r1] eqn:Hg. intros [= <- <- <-].
    apply delete_law in Hg. rewrite Ho in *. apply Hs; [done..|].
    destruct Hg as (? & ? & ?). split; [done|]. split; [|done]. intros. apply obligations. auto.
Qed.

Lemma ans_rely i o r v v' : rely i v v' -> Ans o r v -> Ans o r v'.
Proof. intros Hr. eapply ob_answer; [done|]. by eapply ob_rely_grows. Qed.

(** A step everyone may rely on keeps the world safe. *)
Lemma world_safe_move (w w' : World S T A O) g v' :
  world_safe w g -> view w' (v_ghost v') = v' -> Inv v' -> grows (view w g) v' ->
  (forall o r, (o, r) ∈ w_answers w' -> (o, r) ∈ w_answers w \/ Ans o r v') ->
  (forall i o p, w_task w' i = Some (o, p) ->
     safe i p (Ans o) v' \/ (w_task w i = Some (o, p) /\ rely i (view w g) v')) ->
  exists g', world_safe w' g' /\ grows (view w g) (view w' g').
Proof.
  intros (Hi & Ht & Ha) Hv Hi' Hgr Ha' Ht'. exists (v_ghost v'). rewrite Hv. split; [|done].
  unfold world_safe. rewrite Hv. split; [done|]. split.
  - intros i o p [Hs|[Hw Hr]]%Ht'; [done|].
    eapply safe_rely; [intros ? ? ?; apply ans_rely|exact Hr|by apply Ht].
  - intros o r [Hin|Hin]%Ha'; [|done]. eapply ob_answer; [done|exact Hgr|by apply Ha].
Qed.

Lemma wstep_safe w w' g :
  wstep node code init may_start clocks_ok others w w' -> world_safe w g ->
  exists g', world_safe w' g' /\ grows (view w g) (view w' g').
Proof.
  intros Hstep Hsafe. pose proof Hsafe as (Hi & Ht & Ha). destruct Hstep as
    [i o w Hnone Hok|i o p w s' l' p' Hp Hstep|i o r w Hp|w clock' Hle Hok|w s' Hoth|n w].
  - apply (world_safe_move w _ g (view w g)); [done..|auto|]. simpl. intros j o' p'.
    destruct (decide (j = i)) as [->|Hj].
    + rewrite fn_lookup_insert. intros [= <- <-]. left. by apply obligations.
    + rewrite fn_lookup_insert_ne by done. auto.
  - destruct (safe_step i o p _ _ _ _ _ _ _ (view w g) eq_refl (Ht _ _ _ Hp) Hi eq_refl eq_refl eq_refl Hstep)
      as (g' & Hi' & [Hgr Hg] & Hs').
    apply (world_safe_move w _ g (mkView (objects s') l' (w_clock w) g')); [done..|auto|].
    simpl. intros j o' p1. destruct (decide (j = i)) as [->|Hj].
    + rewrite fn_lookup_insert. intros [= <- <-]. by left.
    + rewrite fn_lookup_insert_ne by done. right. split; [done|]. by apply Hg.
  - apply (world_safe_move w _ g (view w g)); [done..| |]; simpl.
    + intros o' r' [Hin|Hin]%elem_of_app; [auto|]. apply list_elem_of_singleton in Hin as [= -> ->].
      right. by apply Ht in Hp.
    + intros j o' p'. destruct (decide (j = i)) as [->|Hj]; [by rewrite fn_lookup_insert|].
      rewrite fn_lookup_insert_ne by done. auto.
  - destruct (ob_tick obligations _ clock' Hi Hle Hok) as (Hi' & Hgr & Hr).
    apply (world_safe_move w _ g (mkView (objects (w_store w)) (w_local w) clock' g)); [done..|auto|].
    simpl. auto.
  - destruct (ob_others obligations _ (objects s') Hi Hoth) as (Hi' & Hgr & Hr).
    apply (world_safe_move w _ g (mkView (objects s') (w_local w) (w_clock w) g)); [done..|auto|].
    simpl. auto.
  - destruct (ob_restart obligations _ n Hi) as (Hi' & Hgr & Hr).
    apply (world_safe_move w _ g (mkView (objects (w_store w)) (<[n := init]> (w_local w)) (w_clock w) g));
      [done..|auto|]. simpl.
    intros j o p. case_decide; [done|]. auto.
Qed.

Lemma reachable_safe w w' g :
  (forall v1 v2 v3, grows v1 v2 -> grows v2 v3 -> grows v1 v3) ->
  world_safe w g -> reachable node code init may_start clocks_ok others w w' ->
  exists g', world_safe w' g' /\ grows (view w g) (view w' g').
Proof.
  intros Htrans Hw Hreach. revert g Hw. induction Hreach as [|w1 w2 w3 Hstep _ IH]; intros g Hw; [by eauto|].
  destruct (wstep_safe _ _ _ Hstep Hw) as (g2 & Hw2 & Hg2). destruct (IH g2 Hw2) as (g3 & Hw3 & Hg3). eauto.
Qed.
End soundness.
End laws.
End logic.

(** What nothing undoes may be carried along. *)
Lemma safe_stable {T G A} fault node (Inv : View T G -> Prop) rely grows (P : View T G -> Prop) i (p : Prog T A) Q v :
  (forall v v', grows v v' -> P v -> P v') -> P v -> safe fault node Inv rely grows i p Q v ->
  safe fault node (fun v => Inv v /\ P v) rely grows i p (fun r v' => Q r v' /\ P v') v.
Proof.
  intros Hst. revert v. induction p as [r|f c IH|c IH|key range c IH|prefix after limit c IH|key b pc c IH|keys c IH]; intros v HP; simpl; [auto|..].
  all: intros Hs v1 Hr [Hi HP1]; specialize (Hs v1 Hr Hi).
  1,2: destruct Hs as (g' & Hi' & Hg & Hs); exists g'; pose proof (Hst _ _ (proj1 Hg) HP1); auto.
  1,2: intros r Hspec; destruct (Hs r Hspec) as (g' & Hi' & Hg & Hs'); exists g'; pose proof (Hst _ _ (proj1 Hg) HP1); auto.
  all: intros r m' Hspec; destruct (Hs r m' Hspec) as (g' & Hi' & Hg & Hs'); exists g'; pose proof (Hst _ _ (proj1 Hg) HP1); auto.
Qed.

(** A safe program under another invariant that its steps keep too. *)
Lemma safe_convert {T G A} fault node (Inv Inv' : View T G -> Prop) rely grows i (p : Prog T A) Q v :
  (forall v, Inv' v -> Inv v) ->
  (forall v m' l' g', let v' := mkView m' l' (v_clock v) g' in Inv' v -> Inv v' -> grows v v' -> Inv' v') ->
  safe fault node Inv rely grows i p Q v -> safe fault node Inv' rely grows i p Q v.
Proof.
  intros Hsub Hkeep. revert v. induction p as [r|f c IH|c IH|key range c IH|prefix after limit c IH|key b pc c IH|keys c IH]; intros v; simpl; [auto|..].
  all: intros Hs v1 Hr Hi; specialize (Hs v1 Hr (Hsub _ Hi)).
  1,2: destruct Hs as (g' & Hi' & Hg & Hs); exists g'; pose proof (Hkeep _ _ _ _ Hi Hi' (proj1 Hg)); auto.
  1,2: intros r Hspec; destruct (Hs r Hspec) as (g' & Hi' & Hg & Hs'); exists g'; pose proof (Hkeep _ _ _ _ Hi Hi' (proj1 Hg)); auto.
  all: intros r m' Hspec; destruct (Hs r m' Hspec) as (g' & Hi' & Hg & Hs'); exists g'; pose proof (Hkeep _ _ _ _ Hi Hi' (proj1 Hg)); auto.
Qed.

(** ** Operations that start later

    From some moment on: [mark] tells the operations in flight then, whose mark is
    [false], from those that start later, whose mark is [true]; [w_answers] are
    the answers given since. *)

Section marks.
Context {S T A O : Type} `{ObjectStoreLaws S}.
Context (node : nat -> nat) (code : nat -> O -> Prog T A) (init : T) (may_start : nat -> O -> Prop).
Context (clocks_ok : (nat -> Z) -> Prop) (others : Objects -> Objects -> Prop).

Definition mark (w : World S T A O) : World S T A (bool * O) :=
  mkWorld (w_store w) (w_local w) (w_clock w) (fun i => (fun op => ((false, op.1), op.2)) <$> w_task w i) [].

Definition unmark (w : World S T A (bool * O)) : World S T A O :=
  mkWorld (w_store w) (w_local w) (w_clock w) (fun i => (fun op => (op.1.2, op.2)) <$> w_task w i)
    ((fun a => (a.1.2, a.2)) <$> w_answers w).

Definition marked_code (i : nat) (o : bool * O) : Prog T A := code i o.2.
Definition marked_start (i : nat) (o : bool * O) : Prop := o.1 = true /\ may_start i o.2.

Notation MWorld := (World S T A (bool * O)).
Notation mstep := (wstep node marked_code init marked_start clocks_ok others).

Definition marked_reachable : MWorld -> MWorld -> Prop :=
  reachable node marked_code init marked_start clocks_ok others.

(** The marks say nothing of what happens: every run from [w] is, without them,
    a run from [mark w]. *)
Definition tells (old : list (O * Res A)) (w : World S T A O) (m : MWorld) : Prop :=
  w_store m = w_store w /\ w_local m = w_local w /\ w_clock m = w_clock w /\
  (forall i, w_task w i = (fun op => (op.1.2, op.2)) <$> w_task m i) /\
  w_answers w = old ++ ((fun a => (a.1.2, a.2)) <$> w_answers m).

Lemma tells_step old w w' m :
  wstep node code init may_start clocks_ok others w w' -> tells old w m -> exists m', mstep m m' /\ tells old w' m'.
Proof.
  intros Hstep (Hs & Hl & Hc & Ht & Ha). destruct Hstep as
    [i o w Hnone Hok|i o p w s' l' p' Hp Hstep|i o r w Hp|w clock' Hle Hok|w s' Hoth|n w].
  - rewrite Ht in Hnone. apply fmap_None in Hnone. eexists. split; [by apply (ws_start _ _ _ _ _ _ i (true, o) m)|].
    split_and!; [done..| |done]. intros j. simpl. destruct (decide (j = i)) as [->|?]; [by rewrite !fn_lookup_insert|].
    by rewrite !fn_lookup_insert_ne.
  - rewrite Ht in Hp. apply fmap_Some in Hp as ([[b o'] p0] & Hp & [= -> ->]). rewrite <- Hs, <- Hl, <- Hc in Hstep.
    eexists. split; [by apply (ws_run _ _ _ _ _ _ i (b, o') p0 m)|].
    split_and!; [done..| |done]. intros j. simpl. destruct (decide (j = i)) as [->|?]; [by rewrite !fn_lookup_insert|].
    by rewrite !fn_lookup_insert_ne.
  - rewrite Ht in Hp. apply fmap_Some in Hp as ([[b o'] p0] & Hp & [= -> <-]).
    eexists. split; [by apply (ws_answer _ _ _ _ _ _ i (b, o') r m)|].
    split_and!; [done..| |simpl; by rewrite Ha, fmap_app, app_assoc]. intros j. simpl.
    destruct (decide (j = i)) as [->|?]; [by rewrite !fn_lookup_insert|]. by rewrite !fn_lookup_insert_ne.
  - rewrite <- Hc in Hle. eexists. split; [by apply (ws_tick _ _ _ _ _ _ m clock')|]. by split_and!.
  - rewrite <- Hs in Hoth. eexists. split; [by apply (ws_others _ _ _ _ _ _ m s')|]. by split_and!.
  - eexists. split; [apply (ws_restart _ _ _ _ _ _ n m)|]. split_and!; simpl; [done|by rewrite Hl|done| |done].
    intros j. case_decide; [done|apply Ht].
Qed.

Lemma marked_run w w' :
  reachable node code init may_start clocks_ok others w w' -> exists m, marked_reachable (mark w) m /\ tells (w_answers w) w' m.
Proof.
  intros Hr. assert (tells (w_answers w) w (mark w)) as Ht.
  { split_and!; [done..| |by rewrite app_nil_r]. intros i. simpl. by destruct (w_task w i) as [[]|]. }
  revert Ht. generalize (w_answers w) (mark w). induction Hr as [w|w1 w2 w3 Hstep _ IH]; intros old m Ht; [exists m; by split|].
  destruct (tells_step _ _ _ _ Hstep Ht) as (m2 & Hs & Ht2). destruct (IH _ _ Ht2) as (m3 & Hr & Ht3). exists m3. split; [by eapply rtc_l|done].
Qed.

(** The clocks do not go back. *)
Lemma marked_clocks m m' : marked_reachable m m' -> forall k, w_clock m k <= w_clock m' k.
Proof.
  induction 1 as [|m1 m2 m3 Hstep _ IH]; intros k; [lia|]. etrans; [|apply IH]. by destruct Hstep; simpl.
Qed.

(** What is known of the operations that start later, while those in flight go
    on under the invariant and a bound on the clocks. *)
Context {G : Type} (fault : Error -> Prop) (Inv : View T G -> Prop) (rely : nat -> View T G -> View T G -> Prop).
Context (grows : View T G -> View T G -> Prop) (Ans : O -> Res A -> View T G -> Prop) (until : nat -> Z).
Hypothesis rely_refl : forall i v, rely i v v.
Hypothesis rely_trans : forall i v1 v2 v3, rely i v1 v2 -> rely i v2 v3 -> rely i v1 v3.
Hypothesis obligations : Obligations fault node Inv rely grows (S := S) code init may_start clocks_ok others Ans.

Definition bounded (v : View T G) : Prop := Inv v /\ forall k, v_clock v k <= until k.

Definition task_marked (i : nat) (o : bool * O) (p : Prog T A) (v : View T G) : Prop :=
  if o.1 then safe fault node Inv rely grows i p (Ans o.2) v
  else safe fault node bounded rely grows i p (fun _ _ => True) v.

Definition world_marked (m : MWorld) (g : G) : Prop :=
  Inv (view m g) /\
  (forall i o p, w_task m i = Some (o, p) -> task_marked i o p (view m g)) /\
  (forall o r, ((true, o), r) ∈ w_answers m -> Ans o r (view m g)).

Lemma task_marked_rely i o p v v' : rely i v v' -> task_marked i o p v -> task_marked i o p v'.
Proof.
  intros Hr. unfold task_marked. destruct o as [[] o]; simpl.
  - eapply safe_rely; [exact rely_trans| |exact Hr]. intros r u u' Hu. eapply ob_answer; [exact obligations|].
    by eapply ob_rely_grows.
  - by eapply safe_rely; [exact rely_trans| |exact Hr].
Qed.

Lemma marked_move m m' g v' :
  world_marked m g -> view m' (v_ghost v') = v' -> Inv v' -> grows (view m g) v' ->
  (forall o r, ((true, o), r) ∈ w_answers m' -> ((true, o), r) ∈ w_answers m \/ Ans o r v') ->
  (forall i o p, w_task m' i = Some (o, p) ->
     task_marked i o p v' \/ (w_task m i = Some (o, p) /\ rely i (view m g) v')) ->
  exists g', world_marked m' g'.
Proof.
  intros (Hi & Ht & Ha) Hv Hi' Hgr Ha' Ht'. exists (v_ghost v'). unfold world_marked. rewrite Hv. split; [done|]. split.
  - intros i o p [Hs|[Hw Hr]]%Ht'; [done|]. eapply task_marked_rely; [exact Hr|by apply Ht].
  - intros o r [Hin|Hin]%Ha'; [|done]. eapply ob_answer; [done|exact Hgr|by apply Ha].
Qed.

Lemma task_marked_step i o p v s s' l' p' :
  task_marked i o p v -> bounded v -> objects s = v_objects v -> pstep (node i) (v_clock v (node i)) p s (v_local v) = Some (s', l', p') ->
  goes Inv rely grows i v (objects s') l' (task_marked i o p').
Proof.
  intros Ht [Hi Hb] Ho Hstep. unfold task_marked in *. destruct o as [[] o]; cbn [fst snd] in *.
  - exact (safe_step _ _ _ _ _ rely_refl _ _ _ _ _ _ obligations i o _ _ _ _ _ _ _ _ v eq_refl Ht Hi Ho eq_refl eq_refl Hstep).
  - assert (Obligations fault node bounded rely grows (S := S) (fun _ _ => PDone Panic : Prog T A) init (fun _ (_ : O) => True) (fun _ => False)
      (fun _ _ => False) (fun _ _ _ => True)) as Hob.
    { split; try done; try apply obligations. intros v0 n [Hi0 Hb0]. destruct (ob_restart _ _ _ _ _ _ _ _ _ _ _ obligations v0 n Hi0) as (H1 & H2 & H3).
      by split_and!. }
    pose proof (safe_step _ _ _ _ _ rely_refl _ _ _ _ _ _ Hob i o _ _ _ _ _ _ _ _ v eq_refl Ht (conj Hi Hb) Ho eq_refl eq_refl Hstep)
      as (g' & [Hi' _] & Hg & Hs). by exists g'.
Qed.

Lemma marked_step_safe m m' g :
  mstep m m' -> (forall k, w_clock m k <= until k) -> world_marked m g -> exists g', world_marked m' g'.
Proof.
  intros Hstep Hb Hsafe. pose proof Hsafe as (Hi & Ht & Ha). destruct Hstep as
    [i o m Hnone Hok|i o p m s' l' p' Hp Hstep|i o r m Hp|m clock' Hle Hok|m s' Hoth|n m].
  - destruct o as [b o], Hok as [Hb' Hok]. simpl in Hb'. subst b.
    assert (grows (view m g) (view m g)) as Hrefl by (by eapply ob_rely_grows; [exact obligations|apply (rely_refl 0)]).
    apply (marked_move m _ g (view m g)); [done..|auto|]. simpl. intros j o' p'. destruct (decide (j = i)) as [->|Hj].
    + rewrite fn_lookup_insert. intros [= <- <-]. left. by apply obligations.
    + rewrite fn_lookup_insert_ne by done. auto.
  - destruct (task_marked_step i o p (view m g) _ _ _ _ (Ht _ _ _ Hp) (conj Hi Hb) eq_refl Hstep) as (g' & Hi' & [Hgr Hg] & Hs').
    apply (marked_move m _ g (mkView (objects s') l' (w_clock m) g')); [done..|auto|].
    simpl. intros j o' p1. destruct (decide (j = i)) as [->|Hj].
    + rewrite fn_lookup_insert. intros [= <- <-]. by left.
    + rewrite fn_lookup_insert_ne by done. right. split; [done|]. by apply Hg.
  - assert (grows (view m g) (view m g)) as Hrefl by (by eapply ob_rely_grows; [exact obligations|apply (rely_refl 0)]).
    apply (marked_move m _ g (view m g)); [done..| |]; simpl.
    + intros o' r' [Hin|Hin]%elem_of_app; [auto|]. apply list_elem_of_singleton in Hin as [= <- ->]. right. by apply Ht in Hp.
    + intros j o' p'. destruct (decide (j = i)) as [->|Hj]; [by rewrite fn_lookup_insert|].
      rewrite fn_lookup_insert_ne by done. auto.
  - destruct (ob_tick _ _ _ _ _ _ _ _ _ _ _ obligations _ clock' Hi Hle Hok) as (Hi' & Hgr & Hr).
    apply (marked_move m _ g (mkView (objects (w_store m)) (w_local m) clock' g)); [done..|auto|]. simpl. auto.
  - destruct (ob_others _ _ _ _ _ _ _ _ _ _ _ obligations _ (objects s') Hi Hoth) as (Hi' & Hgr & Hr).
    apply (marked_move m _ g (mkView (objects s') (w_local m) (w_clock m) g)); [done..|auto|]. simpl. auto.
  - destruct (ob_restart _ _ _ _ _ _ _ _ _ _ _ obligations _ n Hi) as (Hi' & Hgr & Hr).
    apply (marked_move m _ g (mkView (objects (w_store m)) (<[n := init]> (w_local m)) (w_clock m) g)); [done..|auto|]. simpl.
    intros j o p. case_decide; [done|]. auto.
Qed.

Lemma marked_safe m m' g :
  world_marked m g -> marked_reachable m m' -> (forall k, w_clock m' k <= until k) -> exists g', world_marked m' g'.
Proof.
  intros Hm Hr Hb. revert g Hm. induction Hr as [|m1 m2 m3 Hstep Hr IH]; intros g Hm; [by exists g|].
  assert (forall k, w_clock m1 k <= until k) as Hb1.
  { intros k. etrans; [|apply (Hb k)]. apply marked_clocks. by eapply rtc_l. }
  destruct (marked_step_safe _ _ _ Hstep Hb1 Hm) as (g2 & Hm2). by apply (IH Hb g2).
Qed.
End marks.

(** ** Programs within programs

    A component proved over its own ghost state is used by a client that keeps
    more: memory the component has no part in, and ghost state beside its. *)

Section frame.
Context {T G F : Type} (fault : Error -> Prop) (node : nat -> nat).
Context (Inv : View T G -> Prop) (rely : nat -> View T G -> View T G -> Prop) (grows : View T G -> View T G -> Prop).
Context (Inv' : View T (G * F) -> Prop) (rely' : nat -> View T (G * F) -> View T (G * F) -> Prop).
Context (grows' : View T (G * F) -> View T (G * F) -> Prop).

Definition base (v : View T (G * F)) : View T G := mkView (v_objects v) (v_local v) (v_clock v) (v_ghost v).1.

(** The objects and the component's ghost state change, and nothing else. *)
Definition with_base (v : View T (G * F)) (m' : Objects) (g' : G) : View T (G * F) :=
  mkView m' (v_local v) (v_clock v) (g', (v_ghost v).2).

Hypothesis inv_base : forall v, Inv' v -> Inv (base v).
Hypothesis rely_base : forall i v v', rely' i v v' -> rely i (base v) (base v').
Hypothesis step_frame : forall i v m' g', Inv' v -> Inv (base (with_base v m' g')) ->
  guar rely grows i (base v) (base (with_base v m' g')) ->
  Inv' (with_base v m' g') /\ guar rely' grows' i v (with_base v m' g').

Lemma safe_frame {A} i (p : Prog T A) Q (K : View T (G * F) -> Prop) v :
  lockless p -> (forall v v', rely' i v v' -> K v -> K v') ->
  (forall v m' g', grows (base v) (base (with_base v m' g')) -> K v -> K (with_base v m' g')) ->
  K v -> safe fault node Inv rely grows i p Q (base v) ->
  safe fault node Inv' rely' grows' i p (fun r v' => Q r (base v') /\ K v') v.
Proof.
  intros Hl HK HK' Hv Hs. revert v Hv Hs Hl.
  induction p as [r|f c IH|c IH|key range c IH|prefix after limit c IH|key b pc c IH|keys c IH]; intros v Hv; simpl; [auto|done|..].
  all: intros Hs Hl v1 Hr Hi; specialize (Hs _ (rely_base _ _ _ Hr) (inv_base _ Hi)).
  1: destruct Hs as (g' & Hi' & Hg & Hs); destruct (step_frame i v1 (v_objects v1) g' Hi Hi' Hg) as [Hi2 Hg2];
     exists (g', (v_ghost v1).2); split; [exact Hi2|]; split; [exact Hg2|];
     exact (IH _ (with_base v1 (v_objects v1) g') (HK' v1 _ g' (proj1 Hg) (HK _ _ Hr Hv)) Hs (Hl _)).
  1,2: intros r Hspec; destruct (Hs r Hspec) as (g' & Hi' & Hg & Hs'); destruct (step_frame i v1 (v_objects v1) g' Hi Hi' Hg) as [Hi2 Hg2];
     exists (g', (v_ghost v1).2); split; [exact Hi2|]; split; [exact Hg2|];
     exact (IH _ (with_base v1 (v_objects v1) g') (HK' v1 _ g' (proj1 Hg) (HK _ _ Hr Hv)) Hs' (Hl _)).
  all: intros r m' Hspec; destruct (Hs r m' Hspec) as (g' & Hi' & Hg & Hs'); destruct (step_frame i v1 m' g' Hi Hi' Hg) as [Hi2 Hg2];
     exists (g', (v_ghost v1).2); split; [exact Hi2|]; split; [exact Hg2|];
     exact (IH _ (with_base v1 m' g') (HK' v1 _ g' (proj1 Hg) (HK _ _ Hr Hv)) Hs' (Hl _)).
Qed.
End frame.

(** ** Programs on objects that nobody changes *)

Section quiet.
Context {T : Type} (fault : Error -> Prop) (m : Objects).

(** Run at any time, by any process, [p] answers as [Q] says. *)
Definition quiet {A} (p : Prog T A) (Q : Res A -> Prop) : Prop :=
  forall i v, safe fault (fun n => n) (fun v : View T unit => v_objects v = m) (fun _ _ _ => True) (fun _ _ => True) i p (fun r _ => Q r) v.

(** The answer [x], or a fault. *)
Definition answers {A} (x r : Res A) : Prop := r = x \/ exists e, fault e /\ r = Err e.

Lemma quiet_done {A} (r : Res A) : quiet (PDone r) (answers r).
Proof. intros i v. by left. Qed.

Lemma quiet_bind {A B} (p : Prog T A) (k : A -> Prog T B) a y :
  quiet p (answers (Ok a)) -> quiet (k a) (answers y) -> quiet (pbind p k) (answers y).
Proof.
  intros Hp Hk i v. apply safe_bind. eapply safe_mono; [apply Hp|]. intros r v' [-> |(e & He & ->)]; cbn [then_safe]; [apply Hk|].
  right. by exists e.
Qed.

(** An answer that leaves the objects alone. *)
Lemma quiet_answer {A} i v (r x : Res A) : answers x r -> v_objects v = m ->
  goes (fun v : View T unit => v_objects v = m) (fun _ _ _ => True) (fun _ _ => True) i v (v_objects v) (v_local v)
    (fun _ => answers x r).
Proof. intros Hr Hv. exists tt. done. Qed.

Lemma quiet_list under cursor limit :
  quiet (ask (st_list under cursor limit)) (answers (Ok (take limit (keys_after m under cursor)))).
Proof.
  intros i v v1 _ Hv r Hr. rewrite Hv in Hr. destruct r as [keys|e|]; simpl in Hr |- *; [| |done].
  - apply quiet_answer; [left; by rewrite Hr|done].
  - apply quiet_answer; [right; by exists e|done].
Qed.

End quiet.

Lemma quiet_run {S T A} `{ObjectStoreLaws S} (p : Prog T A) (x : Res A) z (s s' : S) t t' r :
  quiet os_fault (objects s) p (answers os_fault x) -> run z p s t = (s', t', r) ->
  answers os_fault x r /\ objects s' = objects s.
Proof.
  intros Hp Hrun. set (v := mkView (objects s) (fun _ => t) (fun _ => z) tt : View T unit).
  destruct (run_safe os_fault (fun n => n) (fun v : View T unit => v_objects v = objects s) (fun _ _ _ => True) (fun _ _ => True)
    (fun _ _ => I) 0%nat p _ v z s t s' t' r (fun _ He => He) (Hp 0%nat v) eq_refl eq_refl eq_refl eq_refl Hrun) as (v' & Hv' & Hr & Ho & _).
  split; [done|]. by rewrite Ho.
Qed.

(** * finding the newest of a contiguous run of keys without LIST

    What [base.rs] and [lease.rs] share: keys that end in a sequence number
    of twenty digits, and the search that finds the newest number present by
    doubling until one is absent and then bisecting. *)

(** ** Numbered keys: [format!("{prefix}/kind/{n:020}")] *)

Definition digit (d : Z) : Ascii.ascii := ascii_of_byte (48 + d).

(** The [width] last decimal digits of [n]. *)
Fixpoint digits (width : nat) (n : Z) : list Ascii.ascii :=
  match width with
  | O => []
  | S width => digits width (n / 10) ++ [digit (n mod 10)]
  end.

(** [{n:020}]: a [u64] has at most twenty digits. *)
Definition pad20 (n : Z) : string := String.string_of_list_ascii (digits 20 n).

Definition numbered (prefix kind : string) (n : Z) : string := prefix +:+ kind +:+ pad20 n.

Lemma byte_of_ascii_of_byte b : is_byte b -> byte_of_ascii (ascii_of_byte b) = b.
Proof.
  intros Hb. unfold byte_of_ascii, ascii_of_byte. unfold is_byte in Hb.
  rewrite Ascii.N_ascii_embedding by (apply N2Z.inj_lt; rewrite Z2N.id; mlia). apply Z2N.id. lia.
Qed.

Lemma digits_inj width n m :
  digits width n = digits width m -> n mod 10 ^ Z.of_nat width = m mod 10 ^ Z.of_nat width.
Proof.
  revert n m. induction width as [|w IH]; intros n m; simpl digits.
  - intros _. change (10 ^ Z.of_nat 0) with 1. by rewrite !Z.mod_1_r.
  - intros [Hd Hl]%app_inj_tail. apply IH in Hd.
    assert (n mod 10 = m mod 10) as Hm.
    { apply (f_equal byte_of_ascii) in Hl. unfold digit in Hl.
      pose proof (Z.mod_pos_bound n 10). pose proof (Z.mod_pos_bound m 10).
      rewrite !byte_of_ascii_of_byte in Hl by (unfold is_byte, u8_max; lia). lia. }
    rewrite Nat2Z.inj_succ, Z.pow_succ_r by lia.
    rewrite !(Z.rem_mul_r _ 10) by (try lia; apply Z.pow_pos_nonneg; lia). lia.
Qed.

(** What twenty digits can tell apart. *)
Definition in_pad (n : Z) : Prop := 0 <= n < 10 ^ 20.

Lemma in_u64_pad n : in_u64 n -> in_pad n.
Proof. unfold in_pad. mlia. Qed.

Lemma pad20_inj n m : in_pad n -> in_pad m -> pad20 n = pad20 m -> n = m.
Proof.
  unfold pad20, in_pad. intros Hn Hm Heq. apply (f_equal String.list_ascii_of_string) in Heq.
  rewrite !String.list_ascii_of_string_of_list_ascii in Heq. apply digits_inj in Heq.
  change (10 ^ Z.of_nat 20) with (10 ^ 20) in Heq. rewrite !Z.mod_small in Heq by done. done.
Qed.

Lemma numbered_pad_inj prefix kind n m :
  in_pad n -> in_pad m -> numbered prefix kind n = numbered prefix kind m -> n = m.
Proof. intros Hn Hm Heq. unfold numbered in Heq. by do 2 apply (inj _) in Heq; apply pad20_inj. Qed.

Lemma numbered_inj prefix kind n m :
  in_u64 n -> in_u64 m -> numbered prefix kind n = numbered prefix kind m -> n = m.
Proof. intros Hn Hm. apply numbered_pad_inj; by apply in_u64_pad. Qed.

Lemma numbered_new prefix kind n : kind <> EmptyString ->
  ObjectKey_new (numbered prefix kind n) = Ok (numbered prefix kind n).
Proof.
  intros Hk. unfold ObjectKey_new. rewrite decide_False; [done|]. unfold numbered.
  destruct prefix; [|done]. by destruct kind.
Qed.

(** ** The search *)

Definition u64_checked_mul (a b : Z) : option Z := if a * b <=? u64_max then Some (a * b) else None.

Lemma u64_checked_add_Some a b : a + b <= u64_max -> u64_checked_add a b = Some (a + b).
Proof. intros Hle. unfold u64_checked_add. by rewrite (proj2 (Z.leb_le _ _)). Qed.

Definition SEARCH_PROBES : nat := 128.

(** A doubling walk of a [u64] from one ends by its sixty-fourth probe. *)
Definition DOUBLINGS : nat := 64.

Section search.
Context {T X : Type} (probe : Z -> Prog T (option X)).

(** [while let Some(base) = probe(absent) { ... }]. *)
Fixpoint double (fuel : nat) (found : X) (present absent : Z) : Prog T (X * Z * Z) :=
  match fuel with
  | O => PDone Panic
  | S fuel =>
      let* answer := probe absent in
      match answer with
      | Some base =>
          match u64_checked_mul absent 2 with
          | Some absent' => double fuel base absent absent'
          | None => pfail (CommitVersionOverflow absent absent)
          end
      | None => preturn (found, present, absent)
      end
  end.

(** [for _ in 0..SEARCH_PROBES { ... }]. *)
Fixpoint bisect (probes : nat) (found : X) (present absent : Z) : Prog T (Z * X) :=
  match probes with
  | O => pfail (MalformedMetadataSegment 0)
  | S probes =>
      if absent - present <=? 1 then preturn (present, found)
      else
        let middle := present + (absent - present) / 2 in
        let* answer := probe middle in
        match answer with
        | Some base => bisect probes base middle absent
        | None => bisect probes found present middle
        end
  end.

Definition search : Prog T (option (Z * X)) :=
  let* answer := probe 0 in
  match answer with
  | None => preturn None
  | Some found =>
      let* (found, present, absent) := double DOUBLINGS found 0 1 in
      let* newest := bisect SEARCH_PROBES found present absent in
      preturn (Some newest)
  end.

(** ** What it finds

    [P n x] is what a probe of [n] that found [x] showed and [N n] what one
    that found nothing did; [J] is kept throughout, and [R] relates the view
    before a probe to the one after it. *)

Context {G : Type} (fault : Error -> Prop) (node : nat -> nat).
Context (Inv : View T G -> Prop) (rely : nat -> View T G -> View T G -> Prop).
Context (grows : View T G -> View T G -> Prop) (i : nat).
Context (J : View T G -> Prop) (R : View T G -> View T G -> Prop).
Context (P : Z -> X -> View T G -> Prop) (N : Z -> View T G -> Prop) (E : Error -> Prop).
Hypothesis R_refl : forall v, R v v.
Hypothesis R_trans : forall v1 v2 v3, R v1 v2 -> R v2 v3 -> R v1 v3.
Hypothesis P_stable : forall n x v v', R v v' -> P n x v -> P n x v'.
Hypothesis N_stable : forall n v v', R v v' -> N n v -> N n v'.

Definition probe_post (n : Z) (v : View T G) (r : Res (option X)) (v' : View T G) : Prop :=
  R v v' /\ J v' /\
  match r with
  | Ok (Some x) => P n x v'
  | Ok None => N n v'
  | Err e => E e
  | Panic => False
  end.

Hypothesis probe_safe : forall n v,
  in_u64 n -> J v -> safe fault node Inv rely grows i (probe n) (probe_post n v) v.

Notation Safe := (safe fault node Inv rely grows i).

Definition double_post (v : View T G) (r : Res (X * Z * Z)) (v' : View T G) : Prop :=
  R v v' /\ J v' /\
  match r with
  | Ok (found, present, absent) =>
      P present found v' /\ N absent v' /\ 0 <= present < absent /\ absent <= 2 ^ 63
  | Err e => E e \/ exists x, P (2 ^ 63) x v'
  | Panic => False
  end.

Lemma double_safe fuel found present k v :
  (k + fuel = 64)%nat -> (0 < fuel)%nat -> 0 <= present < 2 ^ Z.of_nat k ->
  J v -> P present found v ->
  Safe (double fuel found present (2 ^ Z.of_nat k)) (double_post v) v.
Proof.
  revert found present k v. induction fuel as [|fuel IH]; intros found present k v Hk Hf Hp HJ HP; [lia|].
  assert (2 ^ Z.of_nat k <= 2 ^ 63) as Hmax by (apply Z.pow_le_mono_r; lia).
  cbn [double]. apply safe_bind. eapply safe_mono; [apply probe_safe; [mlia|done]|].
  intros [[base|]|e|] v1 (HR & HJ1 & Hr); [|repeat split; eauto; lia|by repeat split; auto|done].
  unfold then_safe, u64_checked_mul. destruct (_ <=? _) eqn:Hle; zbool.
  - replace (2 ^ Z.of_nat k * 2) with (2 ^ Z.of_nat (S k)) in *
      by (rewrite Nat2Z.inj_succ, Z.pow_succ_r by lia; lia).
    destruct (decide (fuel = 0%nat)) as [->|]; [exfalso; replace (S k) with 64%nat in Hle by lia; mlia|].
    eapply safe_mono; [apply IH; [lia|lia|rewrite Nat2Z.inj_succ, Z.pow_succ_r; lia|done|done]|].
    intros r v2 (HR2 & HJ2 & Hr2). split; [by eapply R_trans|done].
  - split; [done|]. split; [done|]. right.
    destruct (decide (k = 63%nat)) as [->|]; [by exists base|].
    exfalso. assert (2 ^ Z.of_nat k <= 2 ^ 62) by (apply Z.pow_le_mono_r; lia). mlia.
Qed.

Definition bisect_post (v : View T G) (r : Res (Z * X)) (v' : View T G) : Prop :=
  R v v' /\ J v' /\
  match r with
  | Ok (n, x) => P n x v' /\ N (n + 1) v' /\ 0 <= n < 2 ^ 63
  | Err e => E e
  | Panic => False
  end.

Lemma bisect_safe probes found present absent v :
  0 <= present < absent -> absent <= 2 ^ 63 ->
  absent - present <= 2 ^ (Z.of_nat probes - 1) -> (0 < probes)%nat ->
  J v -> P present found v -> N absent v ->
  Safe (bisect probes found present absent) (bisect_post v) v.
Proof.
  revert found present absent v. induction probes as [|probes IH];
    intros found present absent v Hr Hmax Hd Hpos HJ HP HN; [lia|].
  cbn [bisect]. destruct (_ <=? 1) eqn:Hle; zbool.
  { assert (absent = present + 1) as -> by lia. repeat split; auto; lia. }
  assert (0 < Z.of_nat probes) as Hp.
  { destruct probes; [|lia]. change (2 ^ (Z.of_nat 1 - 1)) with 1 in Hd. lia. }
  replace (Z.of_nat (S probes) - 1) with (Z.succ (Z.of_nat probes - 1)) in Hd by lia.
  rewrite Z.pow_succ_r in Hd by lia. set (d := absent - present) in *.
  pose proof (Z.div_mod d 2). pose proof (Z.mod_pos_bound d 2).
  apply safe_bind. eapply safe_mono; [apply probe_safe; [mlia|done]|].
  intros [[base|]|e|] v1 (HR & HJ1 & Ha); [..|by split|by split]; simpl;
    (eapply safe_mono; [apply IH; try done; try lia; eauto|]);
    intros r v2 (HR2 & HJ2 & Hr2); (split; [by eapply R_trans|done]).
Qed.

Definition search_post (v : View T G) (r : Res (option (Z * X))) (v' : View T G) : Prop :=
  R v v' /\ J v' /\
  match r with
  | Ok None => N 0 v'
  | Ok (Some (n, x)) => P n x v' /\ N (n + 1) v' /\ 0 <= n < 2 ^ 63
  | Err e => E e \/ exists x, P (2 ^ 63) x v'
  | Panic => False
  end.

(** The search answers with a number that was present, whose successor was
    absent: it never runs out of probes. *)
Lemma search_safe v : J v -> Safe search (search_post v) v.
Proof.
  intros HJ. unfold search. apply safe_bind. eapply safe_mono; [apply probe_safe; [mlia|done]|].
  intros [[found|]|e|] v1 (HR & HJ1 & Ha); [|by repeat split|by repeat split; auto|done].
  unfold then_safe. apply safe_bind.
  eapply safe_mono; [apply (double_safe DOUBLINGS found 0 0); [done|unfold DOUBLINGS; lia|lia|done|done]|].
  intros [[[found' present] absent]|e|] v2 (HR2 & HJ2 & Hd); [|by repeat split; eauto|done].
  destruct Hd as (HP & HN & Hr & Hmax). unfold then_safe. apply safe_bind.
  assert (absent - present <= 2 ^ (Z.of_nat SEARCH_PROBES - 1)).
  { change (Z.of_nat SEARCH_PROBES - 1) with 127. lia. }
  eapply safe_mono; [apply bisect_safe; [done|done|done|unfold SEARCH_PROBES; lia|done|done|done]|].
  intros [[n x]|e|] v3 (HR3 & HJ3 & Hb); [by repeat split; eauto; apply Hb|by repeat split; eauto|done].
Qed.
End search.
