(* ===== verification/Lease.v ===== *)
(** * Lease: coordinator leadership as an object its holder polls

    Models [oqueue-core/src/lease.rs]: the lease's terms as create-only
    objects, the holder's own deadline, and the whole of [acquire] and
    [renew], each a sequence of store calls, looks at the clock and sections
    under the handle's lock. *)

From stdpp Require Import base tactics list numbers strings gmap.
From Stdlib Require Import ZArith Lia.
From stdpp Require Import functions relations pretty.
From S2P Require Import Prelude Bytes Types Store Machine.

Open Scope Z_scope.

Definition LEASE_TTL_MS : Z := 10000.
Definition LEASE_SKEW_MS : Z := 1000.

(** [*b"OQLS"]. *)
Definition LEASE_MAGIC : bytes := [79; 81; 76; 83].

(** The term a node holds, if any, and until when it may act on it. *)
Record Held : Type := mkHeld {
  h_term : option Z;
  h_write_handle : option PreconditionToken;
  h_valid_until : Z;
}.

Definition Held_default : Held := mkHeld None None 0.

(** [is_held], at what the node's clock reads. *)
Definition is_held (now : Z) (held : Held) : bool := now <? h_valid_until held.

(** The expiry a term's object records. *)
Definition read_expiry (raw : bytes) : Res Z :=
  if negb (bool_decide (take 4 raw = LEASE_MAGIC)) then Err (MalformedMetadataSegment 0)
  else if (12 <=? length raw)%nat then Ok (from_be_signed 8 (take 8 (drop 4 raw)))
  else Err (MalformedMetadataSegment 0).

Section lease.
Context (prefix holder : string).

Definition lease_key (term : Z) : Res ObjectKey := ObjectKey_new (numbered prefix "/lease/" term).

Definition lease_body (expires : Z) : bytes := LEASE_MAGIC ++ be_signed 8 expires ++ as_bytes holder.

Definition lease_read (term : Z) : Prog Held (option Z) :=
  let* key := PDone (lease_key term) in
  let* answer := st_get key Full in
  match answer with
  | Err (ObjectNotFound _) => preturn None
  | Err other => pfail other
  | Panic => PDone Panic
  | Ok raw => let* expires := PDone (read_expiry raw) in preturn (Some expires)
  end.

Definition newest : Prog Held (option (Z * Z)) := search lease_read.

Definition lose : Prog Held unit :=
  let* _ := locked (fun _ => mkHeld None None i64_min) in preturn tt.

(** The rest of [acquire], once the term to take is known. *)
Definition take_term (started next_term : Z) : Prog Held bool :=
  let body := lease_body (i64_saturating_add started LEASE_TTL_MS) in
  let* key := PDone (lease_key next_term) in
  let* answer := st_put key body (Some IfAbsent) in
  match answer with
  | Ok meta =>
      let* _ := locked (fun _ =>
        mkHeld (Some next_term) (Some (om_token meta)) (i64_saturating_add started LEASE_TTL_MS)) in
      preturn true
  | Err (PreconditionFailed _) => preturn false
  | Err other => pfail other
  | Panic => PDone Panic
  end.

Definition acquire : Prog Held bool :=
  let* started := clock_now in
  let* current := newest in
  match current with
  | None => take_term started 0
  | Some (term, expires) =>
      if started <? i64_saturating_add expires LEASE_SKEW_MS then preturn false
      else
        match u64_checked_add term 1 with
        | Some next_term => take_term started next_term
        | None => pfail (CommitVersionOverflow term 1)
        end
  end.

Definition renew : Prog Held bool :=
  let* started := clock_now in
  let* held := reading in
  match h_term held, h_write_handle held with
  | Some term, Some token =>
      let deadline := h_valid_until held in
      if deadline <=? started then let* _ := lose in preturn false
      else
        match u64_checked_add term 1 with
        | None => pfail (CommitVersionOverflow term 1)
        | Some successor =>
            let* found := lease_read successor in
            match found with
            | Some _ => let* _ := lose in preturn false
            | None =>
                let body := lease_body (i64_saturating_add started LEASE_TTL_MS) in
                let* key := PDone (lease_key term) in
                let* answer := st_put key body (Some (IfMatches token)) in
                match answer with
                | Ok meta =>
                    let* finished := clock_now in
                    let* _ := locked (fun held =>
                      mkHeld (h_term held) (Some (om_token meta))
                        (if finished <? i64_saturating_sub deadline LEASE_SKEW_MS
                         then i64_saturating_add started LEASE_TTL_MS
                         else h_valid_until held)) in
                    preturn true
                | Err (PreconditionFailed _) => let* _ := lose in preturn false
                | Err other => pfail other
                | Panic => PDone Panic
                end
            end
        end
  | _, _ => preturn false
  end.
End lease.

(** ** The nodes of a shard

    Each node has a handle of its own, and runs its operations one at a time
    (as [lease_renewal.rs] does, which awaits each before the next). *)

Inductive LeaseOp : Type := Acquire | Renew.

Definition lease_code (prefix : string) (holder : nat -> string) (i : nat) (op : LeaseOp)
    : Prog Held bool :=
  match op with
  | Acquire => acquire prefix (holder i)
  | Renew => renew prefix (holder i)
  end.

(** Clocks that disagree by at most the skew the lease assumes, and are far
    enough from the end of time for a deadline to be representable. *)
Definition CLOCK_MAX : Z := i64_max - LEASE_TTL_MS - LEASE_SKEW_MS.

Definition lease_clocks (clock : nat -> Z) : Prop :=
  (forall n, 0 <= clock n <= CLOCK_MAX) /\ (forall n m, clock n <= clock m + LEASE_SKEW_MS).

(** Nobody else writes under the lease's keys. *)
Definition lease_others (prefix : string) (m m' : Objects) : Prop :=
  forall t, in_u64 t -> m' !! numbered prefix "/lease/" t = m !! numbered prefix "/lease/" t.

(** * At most one node holds the lease

    The invariant of the lease under every interleaving of the nodes' store
    calls, with the store failing or losing answers, nodes restarting and
    clocks running apart by up to the skew. *)

Ltac llia := unfold CLOCK_MAX, LEASE_TTL_MS, LEASE_SKEW_MS in *; mlia.

Section lease.
Context (prefix : string) (holder : nat -> string).

Notation lk t := (numbered prefix "/lease/" t).

(** The expiry recorded for a term. *)
Definition expiry (m : Objects) (t : Z) : option Z :=
  held ← m !! lk t; match read_expiry held.1 with Ok e => Some e | _ => None end.

(** Ghost state: [doomed] are the terms a challenger has seen expired by more
    than the skew, [owner] is who created each term. *)
Record LeaseGhost : Type := mkGhost { doomed : gset Z; owner : gmap Z nat }.

Notation LView := (View Held LeaseGhost).

Record lease_inv (v : LView) : Prop := {
  li_body : forall t, in_u64 t -> is_Some (v_objects v !! lk t) ->
    exists e, expiry (v_objects v) t = Some e /\ 0 <= e <= i64_max - LEASE_SKEW_MS;
  li_contiguous : forall t, 0 <= t -> in_u64 (t + 1) -> is_Some (v_objects v !! lk (t + 1)) ->
    is_Some (v_objects v !! lk t) /\ t ∈ doomed (v_ghost v);
  li_doomed : forall t, t ∈ doomed (v_ghost v) -> in_u64 t /\ is_Some (v_objects v !! lk t);
  li_owner : forall t i, owner (v_ghost v) !! t = Some i -> in_u64 t /\ is_Some (v_objects v !! lk t);
  li_term : forall i t, h_term (v_local v i) = Some t ->
    owner (v_ghost v) !! t = Some i /\
    exists e, expiry (v_objects v) t = Some e /\ h_valid_until (v_local v i) <= e;
  li_fenced : forall i t, t ∈ doomed (v_ghost v) -> h_term (v_local v i) = Some t ->
    h_valid_until (v_local v i) <= v_clock v i;
  li_none : forall i, h_term (v_local v i) = None -> h_valid_until (v_local v i) <= 0;
  li_bound : forall i, h_valid_until (v_local v i) <= v_clock v i + LEASE_TTL_MS;
  li_clock : lease_clocks (v_clock v);
}.

(** What node [i] relies on: its own state and its own terms are its alone,
    and a term of its is doomed only once it has expired on its clock. *)
Record lease_rely (i : nat) (v v' : LView) : Prop := {
  lr_local : v_local v' i = v_local v i;
  lr_clock : forall n, v_clock v n <= v_clock v' n;
  lr_present : forall t, in_u64 t -> is_Some (v_objects v !! lk t) -> is_Some (v_objects v' !! lk t);
  lr_doomed : doomed (v_ghost v) ⊆ doomed (v_ghost v');
  lr_owner : forall t j, owner (v_ghost v) !! t = Some j -> owner (v_ghost v') !! t = Some j;
  lr_mine : forall t, owner (v_ghost v) !! t = Some i -> v_objects v' !! lk t = v_objects v !! lk t;
  lr_late : forall t e, owner (v_ghost v) !! t = Some i -> expiry (v_objects v) t = Some e ->
    t ∈ doomed (v_ghost v') -> t ∈ doomed (v_ghost v) \/ e <= v_clock v' i;
}.

Lemma expiry_ext m m' t : m' !! lk t = m !! lk t -> expiry m' t = expiry m t.
Proof. unfold expiry. by intros ->. Qed.

Lemma lease_rely_refl i v : lease_rely i v v.
Proof. split; eauto; lia. Qed.

Lemma lease_rely_trans i v1 v2 v3 : lease_rely i v1 v2 -> lease_rely i v2 v3 -> lease_rely i v1 v3.
Proof.
  intros H1 H2. split.
  - by rewrite (lr_local _ _ _ H2), (lr_local _ _ _ H1).
  - intros n. pose proof (lr_clock _ _ _ H1 n). pose proof (lr_clock _ _ _ H2 n). lia.
  - intros t Ht Hs. by apply (lr_present _ _ _ H2), (lr_present _ _ _ H1).
  - by rewrite (lr_doomed _ _ _ H1), (lr_doomed _ _ _ H2).
  - intros t j Ht. by apply (lr_owner _ _ _ H2), (lr_owner _ _ _ H1).
  - intros t Ht. pose proof (lr_owner _ _ _ H1 _ _ Ht).
    by rewrite (lr_mine _ _ _ H2), (lr_mine _ _ _ H1).
  - intros t e Ht He Hd. pose proof (lr_owner _ _ _ H1 _ _ Ht) as Ht2.
    pose proof (expiry_ext _ _ _ (lr_mine _ _ _ H1 _ Ht)) as He2. rewrite <-He2 in He.
    destruct (lr_late _ _ _ H2 t e Ht2 He Hd) as [Hd2|]; [|auto].
    rewrite He2 in He. destruct (lr_late _ _ _ H1 t e Ht He Hd2) as [|Hle]; [auto|].
    right. pose proof (lr_clock _ _ _ H2 i). lia.
Qed.

(** ** The kinds of change *)

Lemma lk_inj t t' : in_u64 t -> in_u64 t' -> lk t = lk t' -> t = t'.
Proof. apply numbered_inj. Qed.

Lemma expiry_insert m t t' b token : in_u64 t -> in_u64 t' ->
  expiry (<[lk t := (b, token)]> m) t' =
    if decide (t' = t) then match read_expiry b with Ok e => Some e | _ => None end else expiry m t'.
Proof.
  intros Ht Ht'. unfold expiry. case_decide as Heq.
  - subst t'. by rewrite lookup_insert_eq.
  - rewrite lookup_insert_ne; [done|]. intros Hk%lk_inj; congruence.
Qed.

Lemma present_insert m t t' b token : in_u64 t -> in_u64 t' ->
  is_Some ((<[lk t := (b, token)]> m : Objects) !! lk t') <-> t' = t \/ is_Some (m !! lk t').
Proof.
  intros Ht Ht'. rewrite lookup_insert. case_decide as Heq.
  - split; [|by eauto]. intros _. left. by apply lk_inj.
  - split; [by right|]. intros [-> |]; [done|done].
Qed.

Lemma read_body i e : in_i64 e -> read_expiry (lease_body (holder i) e) = Ok e.
Proof.
  intros He. unfold read_expiry, lease_body.
  change (take 4 (LEASE_MAGIC ++ ?x)) with LEASE_MAGIC. rewrite bool_decide_true by done. simpl negb.
  assert (length (be_signed 8 e) = 8%nat) as Hlen by apply be_bytes_length.
  rewrite (proj2 (Nat.leb_le _ _)) by (rewrite !length_app, Hlen; simpl; lia).
  change (drop 4 (LEASE_MAGIC ++ ?x)) with x. rewrite take_app_length' by done.
  rewrite from_be_be_signed; [done|lia|]. unfold fits_signed. change (256 ^ Z.of_nat 8 / 2) with (2 ^ 63). mlia.
Qed.

Definition with_ghost (v : LView) (g : LeaseGhost) : LView :=
  mkView (v_objects v) (v_local v) (v_clock v) g.

(** A term is seen expired by more than the skew. *)
Lemma doom_ok (v : LView) i t e :
  lease_inv v -> in_u64 t -> expiry (v_objects v) t = Some e -> e + LEASE_SKEW_MS <= v_clock v i ->
  let v' := with_ghost v (mkGhost ({[t]} ∪ doomed (v_ghost v)) (owner (v_ghost v))) in
  lease_inv v' /\ forall j, lease_rely j v v'.
Proof.
  intros Hi Ht He Hlate v'.
  assert (forall j, e <= v_clock v j) as Hall.
  { intros j. pose proof (proj2 (li_clock _ Hi) i j). llia. }
  assert (is_Some (v_objects v !! lk t)) as Hpres.
  { unfold expiry in He. by apply bind_Some in He as (x & -> & _). }
  split; [destruct Hi; split; simpl; try done|split; simpl; try done].
  - intros t' H1 H2 H3. destruct (li_contiguous0 t' H1 H2 H3). split; [done|set_solver].
  - intros t'. rewrite elem_of_union, elem_of_singleton. intros [-> |Hd]; auto.
  - intros j t'. rewrite elem_of_union, elem_of_singleton. intros [-> |Hd] Hterm; [|by eauto].
    destruct (li_term0 _ _ Hterm) as (_ & e' & He' & Hle). specialize (Hall j). simplify_eq. lia.
  - set_solver.
  - intros t' e' Hown He'. rewrite elem_of_union, elem_of_singleton. intros [-> |Hd]; [|auto].
    right. simplify_eq. auto.
Qed.

(** A term is created, by whoever found the one before it doomed. *)
Lemma create_ok (v : LView) i t e b token :
  lease_inv v -> in_u64 t -> v_objects v !! lk t = None ->
  (t = 0 \/ (is_Some (v_objects v !! lk (t - 1)) /\ t - 1 ∈ doomed (v_ghost v))) ->
  read_expiry b = Ok e -> 0 <= e <= i64_max - LEASE_SKEW_MS ->
  let v' := mkView (<[lk t := (b, token)]> (v_objects v)) (v_local v) (v_clock v)
    (mkGhost (doomed (v_ghost v)) (<[t := i]> (owner (v_ghost v)))) in
  lease_inv v' /\ forall j, lease_rely j v v'.
Proof.
  intros Hi Ht Hnone Hprev Hb He v'.
  assert (owner (v_ghost v) !! t = None) as Hown.
  { destruct (owner _ !! t) eqn:Hw; [|done]. apply (li_owner _ Hi) in Hw as [_ [? ?]]. congruence. }
  assert (forall t', in_u64 t' -> t' <> t -> v_objects v' !! lk t' = v_objects v !! lk t') as Hne.
  { intros t' Ht' Hn. simpl. rewrite lookup_insert_ne; [done|]. intros Hk%lk_inj; congruence. }
  assert (forall t' j, owner (v_ghost v) !! t' = Some j -> t' <> t /\ in_u64 t') as Howned.
  { intros t' j Hj. split; [congruence|]. by apply (li_owner _ Hi) in Hj as [? _]. }
  assert (forall t', in_u64 t' -> is_Some (v_objects v !! lk t') -> is_Some (v_objects v' !! lk t')) as Hup.
  { intros t' Ht' Hs. apply present_insert; auto. }
  split; [split|split]; simpl; try apply Hi; try done.
  - intros t' Ht' Hs. rewrite expiry_insert by done. case_decide; [rewrite Hb; by eauto|].
    apply present_insert in Hs as [|Hs]; [done| |done..]. by apply Hi.
  - intros t' H0 H1 Hs. apply present_insert in Hs as [Heq|Hs]; [| |done..].
    + destruct Hprev as [-> |[Hp Hd]]; [lia|]. replace (t - 1) with t' in * by lia.
      split; [|done]. apply Hup; [mlia|done].
    + destruct (li_contiguous _ Hi t' H0 H1 Hs). split; [|done]. apply Hup; [mlia|done].
  - intros t' Hd. destruct (li_doomed _ Hi t' Hd). auto.
  - intros t' j. rewrite lookup_insert. case_decide as Heq; [subst t'|].
    + intros _. split; [done|]. apply present_insert; auto.
    + intros Hj. destruct (li_owner _ Hi t' j Hj). auto.
  - intros j t' Hterm. destruct (li_term _ Hi j t' Hterm) as (Hj & e' & He' & Hle).
    destruct (Howned _ _ Hj) as [Hn Ht']. rewrite lookup_insert_ne by done. split; [done|].
    exists e'. split; [|done]. rewrite expiry_insert by done. by rewrite decide_False.

  - intros t' j' Hj. rewrite lookup_insert_ne; [done|]. destruct (Howned _ _ Hj). done.
  - intros t' Hj. destruct (Howned _ _ Hj). auto.
  - auto.
Qed.

(** A node rewrites a term of its own with a later expiry. *)
Lemma extend_ok (v : LView) i t e b token :
  lease_inv v -> h_term (v_local v i) = Some t -> h_valid_until (v_local v i) <= e ->
  read_expiry b = Ok e -> 0 <= e <= i64_max - LEASE_SKEW_MS ->
  let v' := mkView (<[lk t := (b, token)]> (v_objects v)) (v_local v) (v_clock v) (v_ghost v) in
  lease_inv v' /\ forall j, j <> i -> lease_rely j v v'.
Proof.
  intros Hi Hterm Hle Hb He v'. destruct (li_term _ Hi i t Hterm) as (Hown & _).
  destruct (li_owner _ Hi t i Hown) as (Ht & Hpres).
  assert (forall t', in_u64 t' -> is_Some (v_objects v' !! lk t') <-> is_Some (v_objects v !! lk t')) as Hup.
  { intros t' Ht'. simpl. rewrite present_insert by done. naive_solver. }
  assert (forall t' j, owner (v_ghost v) !! t' = Some j -> j <> i -> t' <> t /\ in_u64 t') as Howned.
  { intros t' j Hj Hne. split; [congruence|]. by apply (li_owner _ Hi) in Hj as [? _]. }
  split; [split|intros j Hne; split]; simpl; try apply Hi; try done.
  - intros t' Ht' Hs. rewrite expiry_insert by done. case_decide; [rewrite Hb; by eauto|].
    apply Hup in Hs; [|done]. by apply Hi.
  - intros t' H0 H1 Hs. apply (Hup (t' + 1)) in Hs; [|done].
    destruct (li_contiguous _ Hi t' H0 H1 Hs). split; [|done]. apply Hup; [mlia|done].
  - intros t' Hd. destruct (li_doomed _ Hi t' Hd). split; [done|]. by apply Hup.
  - intros t' j Hj. destruct (li_owner _ Hi t' j Hj). split; [done|]. by apply Hup.
  - intros j t' Hj. destruct (li_term _ Hi j t' Hj) as (Hj' & e' & He' & Hle').
    split; [done|]. destruct (li_owner _ Hi t' j Hj') as [Ht' _]. rewrite expiry_insert by done.
    case_decide as Heq; [|by eauto]. subst t'. assert (j = i) as -> by congruence. rewrite Hb. eauto.

  - intros t' Ht' Hs. by apply Hup.
  - intros t' Hj. destruct (Howned _ _ Hj Hne). rewrite lookup_insert_ne; [done|].
    intros Hk%lk_inj; congruence.
  - auto.
Qed.

(** A node changes what it remembers. *)
Lemma local_ok (v : LView) i h :
  lease_inv v ->
  match h_term h with
  | Some t =>
      owner (v_ghost v) !! t = Some i /\
      (exists e, expiry (v_objects v) t = Some e /\ h_valid_until h <= e) /\
      (t ∈ doomed (v_ghost v) -> h_valid_until h <= v_clock v i)
  | None => h_valid_until h <= 0
  end ->
  h_valid_until h <= v_clock v i + LEASE_TTL_MS ->
  let v' := mkView (v_objects v) (<[i := h]> (v_local v)) (v_clock v) (v_ghost v) in
  lease_inv v' /\ forall j, j <> i -> lease_rely j v v'.
Proof.
  intros Hi Hh Hb v'. split; [split|intros j Hne; split]; simpl; try apply Hi; try done; try lia; try auto.
  - intros j t. destruct (decide (j = i)) as [-> |]; [|rewrite fn_lookup_insert_ne by done; apply Hi].
    rewrite fn_lookup_insert. intros Hterm. rewrite Hterm in Hh. naive_solver.
  - intros j t Hd. destruct (decide (j = i)) as [-> |]; [|rewrite fn_lookup_insert_ne by done; by apply Hi].
    rewrite fn_lookup_insert. intros Hterm. rewrite Hterm in Hh. naive_solver.
  - intros j. destruct (decide (j = i)) as [-> |]; [|rewrite fn_lookup_insert_ne by done; by apply Hi].
    rewrite fn_lookup_insert. intros Hterm. by rewrite Hterm in Hh.
  - intros j. destruct (decide (j = i)) as [-> |]; [|rewrite fn_lookup_insert_ne by done; by apply Hi].
    by rewrite fn_lookup_insert.
  - by rewrite fn_lookup_insert_ne.
Qed.

(** ** The operations *)

Context (fault : Error -> Prop).

Notation Safe := (safe fault (fun n => n) lease_inv lease_rely (fun _ _ => True)).
Notation Goes := (goes lease_inv lease_rely (fun _ _ => True)).

(** What a term read at or after [started] shows of it. *)
Definition term_seen (started t e : Z) (v : LView) : Prop :=
  in_u64 t /\ is_Some (v_objects v !! lk t) /\ (e + LEASE_SKEW_MS <= started -> t ∈ doomed (v_ghost v)).

Definition read_post (i : nat) (started : Z) :=
  probe_post (fun v => started <= v_clock v i) (lease_rely i) (term_seen started)
    (fun _ _ => True) (fun _ => True).

Lemma goes_all i v g (Q : LView -> Prop) :
  lease_inv (with_ghost v g) /\ (forall j, lease_rely j v (with_ghost v g)) ->
  Q (with_ghost v g) -> Goes i v (v_objects v) (v_local v) Q.
Proof. intros [Hi Hr] HQ. exists g. split; [done|]. split; [split; auto|done]. Qed.

Lemma goes_same i v (Q : LView -> Prop) :
  lease_inv v -> Q v -> Goes i v (v_objects v) (v_local v) Q.
Proof. intros Hi HQ. apply goes_id; [apply lease_rely_refl|done..]. Qed.

Lemma lease_read_safe i started n v :
  in_u64 n -> started <= v_clock v i -> Safe i (lease_read prefix n) (read_post i started n v) v.
Proof.
  intros Hn Hst. unfold lease_read, lease_key. rewrite numbered_new by done. simpl.
  intros v1 Hr Hi r Hg. pose proof (lr_clock _ _ _ Hr i) as Hclk. destruct r as [raw|e|]; [| |done].
  - destruct Hg as (payload & token & Hk & [= ->]).
    destruct (li_body _ Hi n Hn) as (e & He & _); [by rewrite Hk|].
    assert (read_expiry raw = Ok e) as Hraw.
    { unfold expiry in He. rewrite Hk in He. simpl in He. by destruct (read_expiry raw); simplify_eq. }
    rewrite Hraw. simpl. destruct (decide (e + LEASE_SKEW_MS <= started)) as [Hle|Hgt].
    + destruct (doom_ok v1 i n e Hi Hn He) as [Hi' Hr']; [lia|].
      eapply goes_all; [by split|]. split; [by eapply lease_rely_trans|]. split; [simpl; lia|].
      split; [done|]. simpl. rewrite Hk. split; [done|]. set_solver.
    + apply goes_same; [done|]. split; [done|]. split; [lia|]. split; [done|]. by rewrite Hk.
  - apply goes_same; [done|]. destruct e; simpl; (split; [done|]; split; [lia|done]).
Qed.

Lemma lock_safe {A} i f (k : Held -> Prog Held A) Q v :
  (forall v1, lease_rely i v v1 -> lease_inv v1 ->
   let h := f (v_local v1 i) in
   match h_term h with
   | Some t =>
       owner (v_ghost v1) !! t = Some i /\
       (exists e, expiry (v_objects v1) t = Some e /\ h_valid_until h <= e) /\
       (t ∈ doomed (v_ghost v1) -> h_valid_until h <= v_clock v1 i)
   | None => h_valid_until h <= 0
   end /\ h_valid_until h <= v_clock v1 i + LEASE_TTL_MS /\
   Safe i (k (v_local v1 i)) Q (mkView (v_objects v1) (<[i := h]> (v_local v1)) (v_clock v1) (v_ghost v1))) ->
  Safe i (PLock f k) Q v.
Proof.
  intros Hk v1 Hr Hi. destruct (Hk v1 Hr Hi) as (Hh & Hb & Hs).
  destruct (local_ok v1 i _ Hi Hh Hb) as [Hi' Hr']. exists (v_ghost v1).
  split; [exact Hi'|]. split; [split; auto|exact Hs].
Qed.

Lemma lose_safe i v : Safe i (let* _ := lose in preturn false) (fun _ _ => True) v.
Proof.
  apply lock_safe. intros v1 Hr Hi. simpl. pose proof (proj1 (li_clock _ Hi) i). split; [mlia|].
  split; [llia|done].
Qed.

Lemma take_term_safe i started t v :
  in_u64 t -> 0 <= started <= CLOCK_MAX -> started <= v_clock v i ->
  (t = 0 \/ (is_Some (v_objects v !! lk (t - 1)) /\ t - 1 ∈ doomed (v_ghost v))) ->
  Safe i (take_term prefix (holder i) started t) (fun _ _ => True) v.
Proof.
  intros Ht Hst Hclk Hprev. unfold take_term, lease_key. rewrite numbered_new by done. simpl.
  set (e := i64_saturating_add started LEASE_TTL_MS).
  assert (e = started + LEASE_TTL_MS) as He by (unfold e; llia). clearbody e.
  assert (read_expiry (lease_body (holder i) e) = Ok e) as Hbody by (apply read_body; llia).
  intros v1 Hr Hi r m' Hput. pose proof (lr_clock _ _ _ Hr i).
  assert (t = 0 \/ (is_Some (v_objects v1 !! lk (t - 1)) /\ t - 1 ∈ doomed (v_ghost v1))) as Hprev1.
  { destruct Hprev as [|[Hp Hd]]; [auto|right]. apply (lr_doomed _ _ _ Hr) in Hd.
    split; [|done]. by apply (li_doomed _ Hi). }
  destruct r as [meta|err|]; [| |done].
  - destruct Hput as [Hnone ->]. simpl in Hnone.
    destruct (create_ok v1 i t e _ (om_token meta) Hi Ht Hnone Hprev1 Hbody) as [Hi2 Hr2]; [llia|].
    eexists (mkGhost _ _). split; [exact Hi2|]. split; [split; auto|].
    apply lock_safe. intros v3 Hr3 Hi3. simpl.
    assert (owner (v_ghost v3) !! t = Some i) as Hown
      by (apply (lr_owner _ _ _ Hr3); apply lookup_insert_eq).
    assert (expiry (v_objects v3) t = Some e) as Hexp.
    { rewrite (expiry_ext _ _ _ (lr_mine _ _ _ Hr3 t (lookup_insert_eq _ _ _))). simpl.
      rewrite expiry_insert by done. by rewrite decide_True, Hbody. }
    pose proof (lr_clock _ _ _ Hr3 i) as Hc3. simpl in Hc3. split; [|split; [lia|done]].
    split; [done|]. split; [exists e; split; [done|lia]|]. intros Hd.
    destruct (lr_late _ _ _ Hr3 t e (lookup_insert_eq _ _ _)) as [Hd1|]; [|done| |done].
    + simpl. rewrite expiry_insert by done. by rewrite decide_True, Hbody.
    + simpl in Hd1. apply (li_doomed _ Hi) in Hd1 as [_ [? ?]]. congruence.
  - destruct Hput as [(-> & _ & ->)|(_ & [-> |(token & Hnone & ->)])].
    + by apply goes_same.
    + apply goes_same; [done|]. by destruct err.
    + simpl in Hnone. destruct (create_ok v1 i t e _ token Hi Ht Hnone Hprev1 Hbody) as [Hi2 Hr2]; [llia|].
      eexists (mkGhost _ _). split; [exact Hi2|]. split; [split; auto|]. by destruct err.
Qed.

Lemma acquire_safe i v : Safe i (acquire prefix (holder i)) (fun _ _ => True) v.
Proof.
  unfold acquire. intros v1 Hr Hi. apply goes_same; [done|]. set (started := v_clock v1 i).
  pose proof (proj1 (li_clock _ Hi) i) as Hst. fold started in Hst. simpl. apply safe_bind.
  eapply safe_mono; [eapply (search_safe (lease_read prefix) _ _ _ _ _ i
    (fun v => started <= v_clock v i) (lease_rely i) (term_seen started) (fun _ _ => True) (fun _ => True))|].
  - apply lease_rely_refl.
  - apply lease_rely_trans.
  - intros n x v2 v3 Hr2 (Hn & Hp & Hd). split; [done|]. split; [by apply (lr_present _ _ _ Hr2)|].
    intros Hle. by apply (lr_doomed _ _ _ Hr2), Hd.
  - done.
  - intros n v2 Hn HJ. by apply lease_read_safe.
  - simpl. lia.
  - intros [[[t e]|]|err|] v2 (Hr2 & HJ & Ha); simpl; [| |done..].
    + destruct (_ <? _) eqn:Hlt; [done|]. zbool. destruct Ha as ((Ht & Hp & Hd) & _ & Hmax).
      rewrite (u64_checked_add_Some t 1) by mlia.
      apply take_term_safe; [mlia|done|done|]. right. replace (t + 1 - 1) with t by lia.
      split; [done|]. apply Hd. llia.
    + apply take_term_safe; [mlia|done|done|auto].
Qed.
(** What [renew] knows once it has read its own state: the deadline it read
    is within a lifetime of the renewal's start. *)
Definition renewing (i : nat) (started : Z) (held : Held) (v : LView) : Prop :=
  v_local v i = held /\ started <= v_clock v i /\ 0 <= started <= CLOCK_MAX /\
  h_valid_until held <= started + LEASE_TTL_MS.

Lemma renewing_rely i started held v v' :
  lease_rely i v v' -> renewing i started held v -> renewing i started held v'.
Proof.
  intros Hr (Hl & Hc & Hb). split; [by rewrite (lr_local _ _ _ Hr)|]. split; [|done].
  pose proof (lr_clock _ _ _ Hr i). lia.
Qed.

(** The end of a renewal whose write landed: the deadline moves only if no
    challenger can have seen the term expired before the write. *)
Lemma renew_end_safe i started held t handle v :
  renewing i started held v -> h_term held = Some t ->
  owner (v_ghost v) !! t = Some i -> expiry (v_objects v) t = Some (started + LEASE_TTL_MS) ->
  Safe i
    (let* finished := clock_now in
     let* _ := locked (fun held0 =>
       mkHeld (h_term held0) handle
         (if finished <? i64_saturating_sub (h_valid_until held) LEASE_SKEW_MS
          then i64_saturating_add started LEASE_TTL_MS else h_valid_until held0)) in
     preturn true) (fun _ _ => True) v.
Proof.
  intros Hren Hterm Hown Hexp v1 Hr1 Hi1. apply goes_same; [done|].
  pose proof (renewing_rely _ _ _ _ _ Hr1 Hren) as (Hl1 & Hc1 & Hst & Hb).
  pose proof (lr_owner _ _ _ Hr1 _ _ Hown) as Hown1.
  rewrite <-(expiry_ext _ _ _ (lr_mine _ _ _ Hr1 _ Hown)) in Hexp.
  pose proof (proj1 (li_clock _ Hi1) i) as Hclk1.
  apply lock_safe. intros v2 Hr2 Hi2. simpl. rewrite (lr_local _ _ _ Hr2), Hl1, Hterm.
  assert (h_term (v_local v2 i) = Some t) as Hterm2 by (by rewrite (lr_local _ _ _ Hr2), Hl1).
  pose proof (lr_clock _ _ _ Hr2 i) as Hc2. destruct (li_term _ Hi2 i t Hterm2) as (Hown2 & e2 & He2 & Hle2).
  rewrite (lr_local _ _ _ Hr2), Hl1 in Hle2. destruct (_ <? _) eqn:Hlt; zbool.
  - assert (i64_saturating_add started LEASE_TTL_MS = started + LEASE_TTL_MS) as -> by llia.
    split; [|split; [lia|done]]. split; [done|]. split.
    + rewrite (expiry_ext _ _ _ (lr_mine _ _ _ Hr2 _ Hown1)), Hexp. eexists; split; [done|lia].
    + intros Hd. destruct (lr_late _ _ _ Hr2 t _ Hown1 Hexp Hd) as [Hd1|]; [|done].
      pose proof (li_fenced _ Hi1 i t Hd1) as Hf. rewrite Hl1 in Hf. specialize (Hf Hterm). llia.
  - split; [|split; [lia|done]]. split; [done|]. split; [by eauto|]. intros Hd.
    pose proof (li_fenced _ Hi2 i t Hd Hterm2) as Hf. by rewrite (lr_local _ _ _ Hr2), Hl1 in Hf.
Qed.

(** The write of a renewal, and what follows each of its answers. *)
Lemma renew_write_safe i started held t token v :
  renewing i started held v -> h_term held = Some t ->
  Safe i
    (let* key := PDone (lease_key prefix t) in
     let* answer := st_put key (lease_body (holder i) (i64_saturating_add started LEASE_TTL_MS))
       (Some (IfMatches token)) in
     match answer with
     | Ok meta =>
         let* finished := clock_now in
         let* _ := locked (fun held0 =>
           mkHeld (h_term held0) (Some (om_token meta))
             (if finished <? i64_saturating_sub (h_valid_until held) LEASE_SKEW_MS
              then i64_saturating_add started LEASE_TTL_MS else h_valid_until held0)) in
         preturn true
     | Err (PreconditionFailed _) => let* _ := lose in preturn false
     | Err other => pfail other
     | Panic => PDone Panic
     end) (fun _ _ => True) v.
Proof.
  intros Hren Hterm. unfold lease_key. rewrite numbered_new by done.
  intros v1 Hr1 Hi1 r m' Hput. pose proof (renewing_rely _ _ _ _ _ Hr1 Hren) as Hren1.
  pose proof Hren1 as (Hl1 & Hc1 & Hst & Hb).
  assert (i64_saturating_add started LEASE_TTL_MS = started + LEASE_TTL_MS) as He by llia.
  assert (h_term (v_local v1 i) = Some t) as Hterm1 by (by rewrite Hl1).
  destruct (li_term _ Hi1 i t Hterm1) as (Hown & _).
  destruct (li_owner _ Hi1 _ _ Hown) as [Ht _].
  assert (forall token', Goes i v1 (<[lk t := (lease_body (holder i) (started + LEASE_TTL_MS), token')]> (v_objects v1))
    (v_local v1) (fun v2 => renewing i started held v2 /\ owner (v_ghost v2) !! t = Some i /\
      expiry (v_objects v2) t = Some (started + LEASE_TTL_MS))) as Hext.
  { intros token'. destruct (extend_ok v1 i t (started + LEASE_TTL_MS)
      (lease_body (holder i) (started + LEASE_TTL_MS)) token' Hi1 Hterm1) as [Hi2 Hr2].
    - by rewrite Hl1.
    - apply read_body. llia.
    - llia.
    - exists (v_ghost v1). split; [done|]. split; [split; auto|]. split; [done|]. split; [done|].
      simpl. rewrite expiry_insert by done. rewrite decide_True by done. rewrite read_body; [done|llia]. }
  destruct r as [meta|err|]; [| |done].
  - destruct Hput as [_ ->]. rewrite He. eapply goes_mono; [|apply Hext].
    intros v2 (Hren2 & Hown2 & Hexp2). rewrite <-He. by eapply renew_end_safe.
  - destruct Hput as [(-> & _ & ->)|(_ & Hm)].
    + apply goes_same; [done|]. apply lose_safe.
    + assert (forall v2, Safe i (match err with
        | PreconditionFailed _ => let* _ := lose in preturn false
        | other => pfail other end) (fun _ _ => True) v2) as Htail
        by (intros v2; destruct err; solve [done | apply lose_safe]).
      destruct Hm as [-> |(token' & _ & ->)]; [by apply goes_same|].
      rewrite He. eapply goes_mono; [|apply Hext]. intros v2 _. apply Htail.
Qed.

Lemma renew_safe i v : Safe i (renew prefix (holder i)) (fun _ _ => True) v.
Proof.
  intros v1 Hr1 Hi1. apply goes_same; [done|]. set (started := v_clock v1 i).
  pose proof (proj1 (li_clock _ Hi1) i) as Hst. pose proof (li_bound _ Hi1 i) as Hb.
  apply lock_safe. intros v2 Hr2 Hi2. simpl. pose proof (lr_clock _ _ _ Hr2 i) as Hc2.
  pose proof (lr_local _ _ _ Hr2) as Hl2. set (held := v_local v1 i) in *. rewrite Hl2.
  assert (forall t, h_term held = Some t -> owner (v_ghost v2) !! t = Some i /\ in_u64 t /\
    (exists e, expiry (v_objects v2) t = Some e /\ h_valid_until held <= e) /\
    (t ∈ doomed (v_ghost v2) -> h_valid_until held <= v_clock v2 i)) as Hheld.
  { intros t Hterm. rewrite <-Hl2 in *. destruct (li_term _ Hi2 i t Hterm) as (Hown & He).
    destruct (li_owner _ Hi2 _ _ Hown). pose proof (li_fenced _ Hi2 i t). auto. }
  split; [|split; [lia|]].
  { destruct (h_term held) as [t|] eqn:Hterm; [destruct (Hheld t) as (? & _ & ? & ?); auto|].
    by apply (li_none _ Hi1 i). }
  set (v3 := mkView _ _ _ _).
  assert (renewing i started held v3) as Hren by (by split; [apply fn_lookup_insert|]).
  clearbody v3. destruct (h_term held) as [t|] eqn:Hterm; [|done].
  destruct (Hheld t eq_refl) as (_ & Ht & _). destruct (h_write_handle held) as [token|]; [|done].
  destruct (_ <=? started) eqn:Hlate; [apply lose_safe|].
  destruct (u64_checked_add t 1) as [successor|] eqn:Hsucc; [|done].
  unfold u64_checked_add in Hsucc. destruct (_ <=? u64_max) eqn:Hle; simplify_eq. zbool.
  apply safe_bind. eapply safe_mono; [apply (lease_read_safe i started); [mlia|apply Hren]|].
  intros [[e|]|err|] v4 (Hr4 & _); [apply lose_safe| |done..].
  eapply renew_write_safe; [|done]. by eapply renewing_rely.
Qed.
End lease.

Arguments li_body {prefix} v _.
Arguments li_contiguous {prefix} v _.
Arguments li_doomed {prefix} v _.
Arguments li_owner {prefix} v _.
Arguments li_term {prefix} v _.
Arguments li_fenced {prefix} v _.
Arguments li_none {prefix} v _.
Arguments li_bound {prefix} v _.
Arguments li_clock {prefix} v _.

(** ** Every interleaving *)

Section interleaving.
Context (prefix : string) (holder : nat -> string) {S : Type} `{ObjectStoreLaws S}.

Notation lk t := (numbered prefix "/lease/" t).
Notation lease_inv := (lease_inv prefix).
Notation lease_rely := (lease_rely prefix).

Notation LWorld := (World S Held bool LeaseOp).

(** A shard no node has led yet. *)
Record lease_start (w : LWorld) : Prop := {
  ls_empty : forall t, in_u64 t -> objects (w_store w) !! lk t = None;
  ls_local : forall i, w_local w i = Held_default;
  ls_idle : forall i, w_task w i = None;
  ls_answers : w_answers w = [];
  ls_clock : lease_clocks (w_clock w);
}.

Definition lease_reachable : LWorld -> LWorld -> Prop :=
  reachable (fun n => n) (lease_code prefix holder) Held_default (fun _ _ => True) lease_clocks (lease_others prefix).

Lemma lease_obligations :
  Obligations os_fault (fun n => n) lease_inv lease_rely (fun _ _ => True) (S := S)
    (lease_code prefix holder) Held_default (fun _ _ => True) lease_clocks (lease_others prefix) (fun _ _ _ => True).
Proof.
  split; try done.
  - intros i [|] v _ _; [apply acquire_safe|apply renew_safe].
  - intros v clock' Hi Hle Hok v'. split; [|split; [done|intros i; split; simpl; eauto]].
    split; simpl; try apply Hi; try done.
    + intros i t Hd Hterm. pose proof (li_fenced _ Hi i t Hd Hterm). specialize (Hle i). lia.
    + intros i. pose proof (li_bound _ Hi i). specialize (Hle i). lia.
  - intros v m' Hi Hoth v'.
    assert (forall t, in_u64 t -> expiry prefix m' t = expiry prefix (v_objects v) t) as Hexp
      by (intros; apply expiry_ext; auto).
    split; [|split; [done|intros i; split; simpl; try done]].
    + split; simpl; try apply Hi.
      * intros t Ht. rewrite Hoth, Hexp by done. by apply Hi.
      * intros t H1 H2. rewrite !Hoth by mlia. by apply Hi.
      * intros t Hd. destruct (li_doomed _ Hi t Hd). by rewrite Hoth.
      * intros t i Hd. destruct (li_owner _ Hi t i Hd). by rewrite Hoth.
      * intros i t Hterm. destruct (li_term _ Hi i t Hterm) as (Hown & He).
        destruct (li_owner _ Hi t i Hown). by rewrite Hexp.
    + intros t Ht. by rewrite Hoth.
    + intros t Hown. apply Hoth. by apply (li_owner _ Hi t i Hown).
    + auto.
  - intros v n Hi v'. pose proof (proj1 (li_clock _ Hi) n).
    destruct (local_ok prefix holder v n Held_default Hi) as [Hi' Hr']; [simpl; lia|simpl; llia|]. auto.
Qed.

Lemma lease_start_safe w :
  lease_start w -> world_safe os_fault (fun n => n) lease_inv lease_rely (fun _ _ => True) (fun _ _ _ => True) w (mkGhost ∅ ∅).
Proof.
  intros Hw. split; [|split; [|intros o r; by rewrite (ls_answers _ Hw)]].
  - assert (forall t, in_u64 t -> ~ is_Some (objects (w_store w) !! lk t)) as Hnone.
    { intros t Ht. rewrite (ls_empty _ Hw) by done. by intros [? ?]. }
    split; simpl.
    + intros t Ht []%Hnone. done.
    + intros t H1 H2 []%Hnone. done.
    + set_solver.
    + by intros t i Hi%lookup_empty_Some.
    + intros i t. by rewrite (ls_local _ Hw).
    + set_solver.
    + intros i. by rewrite (ls_local _ Hw).
    + intros i. rewrite (ls_local _ Hw). pose proof (proj1 (ls_clock _ Hw) i). simpl. llia.
    + apply Hw.
  - intros i o p. by rewrite (ls_idle _ Hw).
Qed.

(** Every term below a present one is doomed. *)
Lemma earlier_doomed v t t' :
  lease_inv v -> in_u64 t' -> is_Some (v_objects v !! lk t') -> 0 <= t < t' -> t ∈ doomed (v_ghost v).
Proof.
  intros Hi Ht' Hp Ht. remember (Z.to_nat (t' - t)) as n eqn:Hn. revert t' Ht' Hp Ht Hn.
  induction n as [|n IH]; intros t' Ht' Hp Ht Hn; [lia|].
  replace t' with (t' - 1 + 1) in Hp by lia.
  destruct (li_contiguous _ Hi (t' - 1)) as [Hp1 Hd1]; [lia|by replace (t' - 1 + 1) with t' by lia|done|].
  destruct (decide (t = t' - 1)) as [-> |]; [done|]. apply (IH (t' - 1)); [mlia|done|lia|lia].
Qed.

Lemma lease_inv_exclusive v i j :
  lease_inv v -> is_held (v_clock v i) (v_local v i) = true -> is_held (v_clock v j) (v_local v j) = true ->
  i = j.
Proof.
  intros Hi. assert (forall n, is_held (v_clock v n) (v_local v n) = true ->
    exists t, h_term (v_local v n) = Some t /\ owner (v_ghost v) !! t = Some n /\ in_u64 t /\
      is_Some (v_objects v !! lk t) /\ t ∉ doomed (v_ghost v)) as Hheld.
  { intros n Hh. unfold is_held in Hh. zbool. pose proof (proj1 (li_clock _ Hi) n).
    destruct (h_term (v_local v n)) as [t|] eqn:Hterm; [|pose proof (li_none _ Hi n Hterm); lia].
    destruct (li_term _ Hi n t Hterm) as [Hown _]. destruct (li_owner _ Hi t n Hown) as [Ht Hp].
    exists t. split_and!; try done. intros Hd. pose proof (li_fenced _ Hi n t Hd Hterm). lia. }
  intros (t & Ht & Hoi & Hti & Hpi & Hdi)%Hheld (t' & Ht' & Hoj & Htj & Hpj & Hdj)%Hheld.
  destruct (decide (t = t')) as [-> |Hne]; [congruence|]. exfalso.
  destruct (decide (t < t')).
  - apply Hdi, (earlier_doomed v t t'); [done..|mlia].
  - apply Hdj, (earlier_doomed v t' t); [done..|mlia].
Qed.

(** C1. At most one node holds the lease: whatever the interleaving of the
    nodes' store calls, and although calls fail or land with their answers
    lost, nodes die and come back, and clocks run apart by up to the skew,
    while one node may act as leader no other may. *)
Theorem lease_mutual_exclusion w w' i j :
  lease_start w -> lease_reachable w w' -> i <> j ->
  is_held (w_clock w' i) (w_local w' i) = true -> is_held (w_clock w' j) (w_local w' j) = false.
Proof.
  intros Hw Hreach Hne Hi. apply not_true_is_false. intros Hj. apply Hne.
  destruct (reachable_safe _ _ _ _ _ (lease_rely_refl prefix) (lease_rely_trans prefix) (fun _ => I) _ _ _ _ _ _
    lease_obligations _ _ _ (fun _ _ _ _ _ => I) (lease_start_safe w Hw) Hreach) as (g & [Hinv _] & _).
  by apply (lease_inv_exclusive _ i j Hinv).
Qed.
End interleaving.

(** One node moves, time passes on every clock, another node moves. *)
Definition later (c : Z) (w : World FakeObjectStore Held bool LeaseOp) : World FakeObjectStore Held bool LeaseOp :=
  mkWorld (w_store w) (w_local w) (fun _ => c) (w_task w) (w_answers w).

Definition demo_holder (i : nat) : string := "node-" +:+ pretty i.

Definition demo_drive : list (nat * LeaseOp) -> World FakeObjectStore Held bool LeaseOp ->
    World FakeObjectStore Held bool LeaseOp :=
  drive (fun n => n) (lease_code "shard-0" demo_holder).

Lemma demo_clocks c : 0 <= c <= 100000 -> lease_clocks (fun _ => c).
Proof. intros Hc. split; intros; llia. Qed.

Lemma handover_reachable w first second c :
  (forall n, w_clock w n <= c) -> 0 <= c <= 100000 ->
  lease_reachable "shard-0" demo_holder w (demo_drive second (later c (demo_drive first w))).
Proof.
  intros Hle Hc. assert (forall l : list (nat * LeaseOp), Forall (fun io => True) l) as Hall by (intros l; by apply Forall_true).
  etrans; [apply (drive_reachable _ _ _ _ _ _ first), Hall|].
  eapply rtc_l; [|apply drive_reachable, Hall]. apply ws_tick; [|by apply demo_clocks].
  intros n. unfold demo_drive. by rewrite drive_clock.
Qed.

(** Node 0 leads and then falls silent; eleven seconds later node 1 takes
    over. *)
Definition demo_shard : World FakeObjectStore Held bool LeaseOp :=
  mkWorld FakeObjectStore_new (fun _ => Held_default) (fun _ => 5000) (fun _ => None) [].

Definition demo_led : World FakeObjectStore Held bool LeaseOp :=
  demo_drive (replicate 6 (0%nat, Acquire)) demo_shard.

Definition demo_taken : World FakeObjectStore Held bool LeaseOp :=
  demo_drive (replicate 7 (1%nat, Acquire)) (later 16000 (demo_drive (replicate 6 (0%nat, Acquire)) demo_shard)).

Lemma demo_handover : lease_reachable "shard-0" demo_holder demo_shard demo_taken.
Proof. apply handover_reachable; simpl; lia. Qed.

Lemma demo_start : lease_start "shard-0" demo_shard.
Proof. split; [done..|apply (demo_clocks 5000); lia]. Qed.

Lemma lease_mutual_exclusion_witness :
  w_answers demo_taken = [(Acquire, Ok true); (Acquire, Ok true)] /\
  is_held (w_clock demo_led 0%nat) (w_local demo_led 0%nat) = true /\
  is_held (w_clock demo_taken 1%nat) (w_local demo_taken 1%nat) = true /\
  is_held (w_clock demo_taken 0%nat) (w_local demo_taken 0%nat) = false.
Proof.
  split; [vm_compute; reflexivity|]. split; [vm_compute; reflexivity|]. split; [vm_compute; reflexivity|].
  apply (lease_mutual_exclusion "shard-0" demo_holder demo_shard demo_taken 1 0).
  - exact demo_start.
  - exact demo_handover.
  - lia.
  - vm_compute. reflexivity.
Defined.
