(* ===== verification/Coverage.v ===== *)
(** * Coverage: runs of references, and the swap's coverage check

    Models [oqueue-core/src/coverage.rs].  [chain lo rs hi] is the
    specification the check is held to: the references of [rs], in order, are
    each live and together cover exactly the offsets of [lo, hi). *)

From stdpp Require Import base tactics list numbers strings gmap.
From Stdlib Require Import ZArith Lia.
From S2P Require Import Prelude Types.

Open Scope Z_scope.

(** ** The code *)

(** The loop body of [contiguous_span]: [span] is what the references so far
    cover. *)
Definition span_step (span : option (Offset * Offset)) (reference : ObjectRef)
    : Res (option (Offset * Offset)) :=
  let base := or_base_offset reference in
  let? e := ObjectRef_end_offset reference in
  if e =? base then Err IndexObjectMismatch
  else match span with
       | None => Ok (Some (base, e))
       | Some (low, high) =>
           if negb (base =? high) then Err IndexObjectMismatch else Ok (Some (low, e))
       end.

Definition contiguous_span (refs : list ObjectRef) : Res (option (Offset * Offset)) :=
  let ordered := sort_by_key or_base_offset refs in
  res_foldl span_step None ordered.

Definition covers (retiring installing : list ObjectRef) : Res unit :=
  let? retired := contiguous_span retiring in
  let? installed := contiguous_span installing in
  match retired, installed with
  | Some from, Some to => if decide (from = to) then Ok tt else Err IndexObjectMismatch
  | _, _ => Err IndexObjectMismatch
  end.

(** ** Runs of references *)

Fixpoint chain (lo : Z) (rs : list ObjectRef) (hi : Z) : Prop :=
  match rs with
  | [] => lo = hi
  | r :: rs => or_base_offset r = lo /\ ref_live r /\ chain (or_end r) rs hi
  end.

Lemma ref_live_lt r : ref_live r -> or_base_offset r < or_end r.
Proof. unfold ref_live, or_end. lia. Qed.

Lemma chain_app lo rs1 rs2 hi :
  chain lo (rs1 ++ rs2) hi <-> exists mid, chain lo rs1 mid /\ chain mid rs2 hi.
Proof.
  revert lo; induction rs1 as [|r rs1 IH]; intros lo; simpl.
  - naive_solver.
  - rewrite IH. naive_solver.
Qed.

Lemma chain_le lo rs hi : chain lo rs hi -> lo <= hi.
Proof.
  revert lo; induction rs as [|r rs IH]; intros lo; simpl; [lia|].
  intros (<- & Hl & Hc). apply IH in Hc. pose proof (ref_live_lt r Hl). lia.
Qed.

Lemma chain_lt lo rs hi : chain lo rs hi -> rs <> [] -> lo < hi.
Proof.
  destruct rs as [|r rs]; [done|]. intros (<- & Hl & Hc) _.
  apply chain_le in Hc. pose proof (ref_live_lt r Hl). lia.
Qed.

Lemma chain_elem lo rs hi r :
  chain lo rs hi -> r ∈ rs ->
  ref_live r /\ lo <= or_base_offset r /\ or_base_offset r < or_end r /\ or_end r <= hi.
Proof.
  revert lo; induction rs as [|x rs IH]; intros lo; simpl; [set_solver|].
  intros (<- & Hl & Hc) [->|Hr]%elem_of_cons.
  - pose proof (chain_le _ _ _ Hc). pose proof (ref_live_lt x Hl). auto with lia.
  - destruct (IH _ Hc Hr) as (? & ? & ? & ?). pose proof (ref_live_lt x Hl). auto with lia.
Qed.

Lemma chain_live lo rs hi : chain lo rs hi -> Forall ref_live rs.
Proof. intros Hc. apply Forall_forall. intros r Hr. by eapply chain_elem. Qed.

(** The start of a chain is determined by its first element, its end by its last. *)
Lemma chain_hi_unique lo rs hi hi' : chain lo rs hi -> chain lo rs hi' -> hi = hi'.
Proof.
  revert lo; induction rs as [|r rs IH]; intros lo; simpl; [congruence|].
  intros (_ & _ & H1) (_ & _ & H2). eauto.
Qed.

Lemma chain_base_split lo rs hi r :
  chain lo rs hi -> r ∈ rs ->
  exists rs1 rs2, rs = rs1 ++ r :: rs2 /\ chain lo rs1 (or_base_offset r) /\
    chain (or_base_offset r) (r :: rs2) hi.
Proof.
  intros Hc (rs1 & rs2 & ->)%list_elem_of_split.
  apply chain_app in Hc as (mid & H1 & H2).
  assert (or_base_offset r = mid) as <- by (by destruct H2). eauto.
Qed.

(** A chain that starts where another does and only uses its elements is a
    prefix of it. *)
Lemma chain_prefix a s b h hi :
  chain a s b -> chain a h hi -> (forall r, r ∈ s -> r ∈ h) ->
  exists h2, h = s ++ h2 /\ chain b h2 hi.
Proof.
  revert a h; induction s as [|r s IH]; intros a h Hs Hh Hin; simpl in Hs.
  - subst b. exists h. auto.
  - destruct Hs as (<- & Hl & Hs). pose proof (ref_live_lt r Hl).
    destruct h as [|x h]; [set_solver|]. destruct Hh as (Hx & Hlx & Hh).
    pose proof (ref_live_lt x Hlx).
    assert (r = x) as <-.
    { assert (r ∈ x :: h) as [->|Hr]%elem_of_cons by set_solver; [done|].
      apply (chain_elem _ _ _ _ Hh) in Hr. lia. }
    destruct (IH (or_end r) h Hs Hh) as (h2 & -> & ?); [|by exists h2].
    intros y Hy. assert (y ∈ r :: h) as [->|]%elem_of_cons by set_solver; [|done].
    apply (chain_elem _ _ _ _ Hs) in Hy. lia.
Qed.

(** Strictly ascending base offsets. *)
Lemma chain_ascending lo rs hi : chain lo rs hi -> ascending or_base_offset rs.
Proof.
  revert lo; induction rs as [|x [|y rs] IH]; intros lo; [done|done|].
  intros (<- & Hl & Hc). split; [|eauto].
  destruct Hc as (-> & _). pose proof (ref_live_lt x Hl). lia.
Qed.

(** Sorting a permutation of a chain gives the chain back: its base offsets
    are pairwise distinct, so there is only one ascending arrangement. *)
Lemma chain_insert_comm lo rs hi r :
  chain lo rs hi -> or_base_offset r < lo -> insert_by_key or_base_offset r rs = r :: rs.
Proof.
  destruct rs as [|x rs]; simpl; [done|]. intros (<- & _) Hlt.
  by rewrite (proj2 (Z.leb_le _ _)) by lia.
Qed.

Lemma insert_by_key_comm r1 r2 l :
  or_base_offset r1 <> or_base_offset r2 ->
  insert_by_key or_base_offset r1 (insert_by_key or_base_offset r2 l) =
  insert_by_key or_base_offset r2 (insert_by_key or_base_offset r1 l).
Proof.
  intros Hne. induction l as [|x l IH]; simpl.
  - destruct (_ <=? _) eqn:H1, (or_base_offset r2 <=? _) eqn:H2; zbool; done || lia.
  - destruct (or_base_offset r2 <=? or_base_offset x) eqn:H2x,
      (or_base_offset r1 <=? or_base_offset x) eqn:H1x; simpl;
      rewrite ?H1x, ?H2x; zbool.
    + destruct (or_base_offset r1 <=? or_base_offset r2) eqn:H12,
        (or_base_offset r2 <=? or_base_offset r1) eqn:H21; zbool; done || lia.
    + destruct (or_base_offset r1 <=? or_base_offset r2) eqn:H12; zbool; [lia|].
      by rewrite ?H1x.
    + destruct (or_base_offset r2 <=? or_base_offset r1) eqn:H21; zbool; [lia|].
      by rewrite ?H2x.
    + by rewrite IH.
Qed.

Lemma sort_by_key_perm l1 l2 :
  l1 ≡ₚ l2 -> NoDup (or_base_offset <$> l1) ->
  sort_by_key or_base_offset l1 = sort_by_key or_base_offset l2.
Proof.
  intros HP. induction HP as [|x l1 l2 HP IH|x y l|l1 l2 l3 HP1 IH1 HP2 IH2];
    rewrite ?fmap_cons, ?NoDup_cons; intros Hnd; simpl; [done|..].
  - rewrite IH; naive_solver.
  - apply insert_by_key_comm. set_solver.
  - rewrite IH1 by done. apply IH2. by rewrite <-HP1.
Qed.

Lemma chain_NoDup lo rs hi : chain lo rs hi -> NoDup (or_base_offset <$> rs).
Proof.
  revert lo; induction rs as [|r rs IH]; intros lo; [constructor|].
  intros (<- & Hl & Hc). rewrite fmap_cons, NoDup_cons. split; [|eauto].
  intros (x & Hx & Hin)%list_elem_of_fmap. apply (chain_elem _ _ _ _ Hc) in Hin.
  pose proof (ref_live_lt r Hl). lia.
Qed.

Lemma chain_sort lo rs hi l :
  chain lo rs hi -> l ≡ₚ rs -> sort_by_key or_base_offset l = rs.
Proof.
  intros Hc HP. rewrite (sort_by_key_perm l rs); [|done|].
  - apply sort_by_key_ascending. by eapply chain_ascending.
  - rewrite HP. by eapply chain_NoDup.
Qed.

(** ** What the check decides *)

Lemma span_step_loop lo mid rs hi' hi :
  Forall ref_wf rs -> lo < mid ->
  res_foldl span_step (Some (lo, mid)) rs = Ok (Some (hi', hi)) <-> hi' = lo /\ chain mid rs hi.
Proof.
  revert mid; induction rs as [|r rs IH]; intros mid Hwf Hlt; simpl.
  - naive_solver.
  - apply Forall_cons in Hwf as [Hr Hwf]. unfold span_step at 1; simpl. split.
    + intros (s & Hs & Hl)%res_bind_Ok. simplify_res.
      apply ref_end_Ok in H as (-> & ? & ?).
      destruct (or_end r =? or_base_offset r) eqn:He; [done|].
      destruct (or_base_offset r =? mid) eqn:Hb; [|done]. zbool. simplify_res.
      apply IH in Hl as [-> Hc]; [|done|unfold or_end in *; lia].
      unfold ref_live, or_end in *. destruct Hr as (_ & [? ?] & [? ?]). auto 10 with lia.
    + intros (-> & Hb & Hl & Hc). rewrite (ref_live_end r Hl). simpl.
      pose proof (ref_live_lt r Hl).
      rewrite (proj2 (Z.eqb_neq _ _)) by lia. rewrite (proj2 (Z.eqb_eq _ _)) by lia. simpl.
      apply IH; [done|lia|done].
Qed.

(** [contiguous_span] returns a range exactly when the references, put in
    order, are a chain over it. *)
Lemma contiguous_span_spec refs lo hi :
  Forall ref_wf refs ->
  contiguous_span refs = Ok (Some (lo, hi)) <->
  refs <> [] /\ chain lo (sort_by_key or_base_offset refs) hi.
Proof.
  intros Hwf. unfold contiguous_span.
  assert (Forall ref_wf (sort_by_key or_base_offset refs)) as Hwf'
    by (by rewrite sort_by_key_Permutation).
  assert (refs <> [] <-> sort_by_key or_base_offset refs <> []) as ->.
  { pose proof (sort_by_key_Permutation or_base_offset refs) as HP.
    split; intros Hn Hs; apply Hn; [by rewrite Hs in HP; apply Permutation_nil|].
    by subst. }
  destruct (sort_by_key or_base_offset refs) as [|r rs]; simpl; [naive_solver|].
  apply Forall_cons in Hwf' as [Hr Hrs]. split.
  - intros (s & Hs & Hl)%res_bind_Ok. unfold span_step in Hs. simplify_res.
    apply ref_end_Ok in H as (-> & ? & ?).
    destruct (or_end r =? or_base_offset r) eqn:He; [done|]. simplify_res. zbool.
    apply span_step_loop in Hl as [<- Hc]; [|done|unfold or_end in *; lia].
    unfold ref_live, or_end in *. destruct Hr as (_ & [? ?] & [? ?]). auto 10 with lia.
  - intros (_ & <- & Hl & Hc). unfold span_step at 1. rewrite (ref_live_end r Hl). simpl.
    pose proof (ref_live_lt r Hl). rewrite (proj2 (Z.eqb_neq _ _)) by lia. simpl.
    by apply span_step_loop.
Qed.

Lemma span_step_no_panic s r : span_step s r <> Panic.
Proof.
  unfold span_step. intros [H|(e & _ & H)]%res_bind_Panic.
  - by apply Offset_add_no_panic in H.
  - destruct (e =? _), s as [[]|]; try done. by destruct (_ =? _).
Qed.

Lemma covers_no_panic retiring installing : covers retiring installing <> Panic.
Proof.
  assert (forall l, contiguous_span l <> Panic) as Hs.
  { intros l. apply (res_foldl_no_panic (fun _ => True)); auto using span_step_no_panic. }
  unfold covers. intros [H|(a & _ & [H|(b & _ & H)]%res_bind_Panic)]%res_bind_Panic;
    [by apply Hs in H|by apply Hs in H|].
  destruct a, b; try done. by case_decide.
Qed.

(** [covers] accepts exactly the swaps whose two sides are non-empty runs over
    the same range. *)
Lemma covers_spec retiring installing :
  Forall ref_wf retiring -> Forall ref_wf installing ->
  covers retiring installing = Ok tt <->
  retiring <> [] /\ installing <> [] /\
  exists lo hi, chain lo (sort_by_key or_base_offset retiring) hi /\
                chain lo (sort_by_key or_base_offset installing) hi.
Proof.
  intros Hr Hi. unfold covers. split.
  - intros (a & Ha & (b & Hb & H)%res_bind_Ok)%res_bind_Ok.
    destruct a as [[lo hi]|], b as [[lo' hi']|]; try done.
    case_decide as Heq; [|done]. simplify_eq.
    apply contiguous_span_spec in Ha as [? ?], Hb as [? ?]; eauto 10.
  - intros (Hr0 & Hi0 & lo & hi & Hcr & Hci).
    rewrite (proj2 (contiguous_span_spec retiring lo hi Hr)) by done. simpl.
    rewrite (proj2 (contiguous_span_spec installing lo hi Hi)) by done. simpl.
    by rewrite decide_True.
Qed.
