(* ===== verification/Partition.v ===== *)
(** * Partition: one partition's tiers

    Models [oqueue-core/src/index_state/partition.rs] and the counts of
    [index_state/tiers.rs]: what one partition of the materialized index holds
    (tail window, history, manifest, commit-time extent, log start) and what a
    push, a publication, a trim and a compaction swap do to it.  [part_wf] is
    the invariant every one of them preserves. *)

From stdpp Require Import base tactics list numbers strings gmap.
From Stdlib Require Import ZArith Lia.
From S2P Require Import Prelude Types Coverage.

Open Scope Z_scope.

(** ** Tier counts *)

Record Tiers : Type := mkTiers { t_tail : Z; t_history : Z; t_manifests : Z }.

Definition Tiers_default : Tiers := mkTiers 0 0 0.

Definition Tiers_total (self : Tiers) : Z := t_tail self + t_history self + t_manifests self.

Definition Tiers_add (self other : Tiers) : Tiers :=
  mkTiers (u64_saturating_add (t_tail self) (t_tail other))
          (u64_saturating_add (t_history self) (t_history other))
          (u64_saturating_add (t_manifests self) (t_manifests other)).

Definition Tiers_sub (self other : Tiers) : Tiers :=
  mkTiers (u64_saturating_sub (t_tail self) (t_tail other))
          (u64_saturating_sub (t_history self) (t_history other))
          (u64_saturating_sub (t_manifests self) (t_manifests other)).

(** ** The partition *)

Definition TAIL_WINDOW_ENTRIES : nat := 128.
#[global] Opaque TAIL_WINDOW_ENTRIES.

Record PartitionIndex : Type := mkPartitionIndex {
  p_end_offset : Offset;
  p_tail : list TailEntry;
  p_history : list ObjectRef;
  p_manifest : option (ObjectKey * Offset);
  p_when : option TimeSpan;
  p_log_start : Offset;
}.

Definition PartitionIndex_default : PartitionIndex :=
  mkPartitionIndex Offset_ZERO [] [] None None Offset_ZERO.

Definition set_end_offset (e : Offset) (self : PartitionIndex) : PartitionIndex :=
  mkPartitionIndex e (p_tail self) (p_history self) (p_manifest self) (p_when self)
    (p_log_start self).

(** The [for] loop of [boundary] over the history's base offsets. *)
Fixpoint boundary_scan (upto : Offset) (bases : list Offset) (next : option Offset)
    (limit : Offset) : option Offset :=
  match bases with
  | [] => Some (default limit next)
  | base :: bases =>
      match Z.compare base upto with
      | Eq => None
      | Gt =>
          boundary_scan upto bases
            (Some (match next with None => base | Some held => Z.min held base end)) limit
      | Lt => boundary_scan upto bases next limit
      end
  end.

Definition boundary (self : PartitionIndex) (upto : Offset) : option Offset :=
  let bases := map or_base_offset (p_history self) ++
               map (fun entry => or_base_offset (te_reference entry)) (p_tail self) in
  let first_tail := (length bases - TAIL_WINDOW_ENTRIES)%nat in
  let limit := default (p_end_offset self) (bases !! first_tail) in
  if upto =? limit then None
  else boundary_scan upto (take first_tail bases) None limit.

Definition absorb (self : PartitionIndex) (manifest : ObjectKey) (upto : Offset)
    : PartitionIndex * (nat * bool) :=
  let history :=
    List.filter (fun entry => is_ok_and (ObjectRef_end_offset entry) (fun e => upto <? e))
      (p_history self) in
  let superseded := match p_manifest self with Some _ => true | None => false end in
  (mkPartitionIndex (p_end_offset self) (p_tail self) history (Some (manifest, upto))
     (p_when self) (p_log_start self),
   (length (p_history self) - length history, superseded)%nat).

Definition push (self : PartitionIndex) (entry : TailEntry) : PartitionIndex :=
  let tail := p_tail self ++ [entry] in
  match (TAIL_WINDOW_ENTRIES <? length tail)%nat, tail with
  | true, evicted :: tail' =>
      mkPartitionIndex (p_end_offset self) tail' (p_history self ++ [TailEntry_demote evicted])
        (p_manifest self) (p_when self) (p_log_start self)
  | _, _ =>
      mkPartitionIndex (p_end_offset self) tail (p_history self) (p_manifest self) (p_when self)
        (p_log_start self)
  end.

(** The [dead] closure of [trim]. *)
Definition dead (start : Offset) (r : ObjectRef) : bool :=
  is_ok_and (ObjectRef_end_offset r) (fun e => e <=? start).

Definition trim (self : PartitionIndex) (start : Offset) : PartitionIndex * list ObjectKey :=
  if start <=? p_log_start self then (self, [])
  else
    let dropped :=
      map or_object (List.filter (dead start) (p_history self)) ++
      map (fun entry => or_object (te_reference entry))
        (List.filter (fun entry => dead start (te_reference entry)) (p_tail self)) in
    let history := List.filter (fun entry => negb (dead start entry)) (p_history self) in
    let tail := List.filter (fun entry => negb (dead start (te_reference entry))) (p_tail self) in
    let manifest :=
      match p_manifest self with
      | Some (_, upto) => if upto <=? start then None else p_manifest self
      | None => None
      end in
    (mkPartitionIndex (p_end_offset self) tail history manifest (p_when self) start, dropped).

Definition observe (when : TimeSpan) (self : PartitionIndex) : PartitionIndex :=
  mkPartitionIndex (p_end_offset self) (p_tail self) (p_history self) (p_manifest self)
    (Some (match p_when self with None => when | Some held => TimeSpan_widened held when end))
    (p_log_start self).

Definition holds_in_history (self : PartitionIndex) (reference : ObjectRef) : bool :=
  existsb (fun held => bool_decide (held = reference)) (p_history self).

Definition replace_history (self : PartitionIndex) (retiring installing : list ObjectRef)
    : PartitionIndex :=
  let kept :=
    List.filter (fun held => negb (existsb (fun going => bool_decide (going = held)) retiring))
      (p_history self) in
  mkPartitionIndex (p_end_offset self) (p_tail self)
    (sort_by_key or_base_offset (kept ++ installing))
    (p_manifest self) (p_when self) (p_log_start self).

Definition PartitionIndex_tiers (self : PartitionIndex) : Tiers :=
  mkTiers (Z.of_nat (length (p_tail self))) (Z.of_nat (length (p_history self)))
    (match p_manifest self with Some _ => 1 | None => 0 end).

(** ** The invariant *)

(** Every entry, oldest first: history, then the tail. *)
Definition entries_of (p : PartitionIndex) : list ObjectRef :=
  p_history p ++ map te_reference (p_tail p).

(** Where the entries begin: at the manifest's boundary when there is one, and
    otherwise at or below the log start, so nothing readable is uncovered. *)
Definition lo_ok (p : PartitionIndex) (lo : Z) : Prop :=
  match p_manifest p with
  | Some (_, upto) => lo = upto
  | None => lo <= p_log_start p
  end.

Record part_wf (p : PartitionIndex) : Prop := {
  pw_chain : exists lo, 0 <= lo /\ lo_ok p lo /\ chain lo (entries_of p) (p_end_offset p);
  pw_window : (length (p_tail p) <= TAIL_WINDOW_ENTRIES)%nat;
  pw_full : p_history p <> [] -> length (p_tail p) = TAIL_WINDOW_ENTRIES;
  pw_start : 0 <= p_log_start p <= p_end_offset p;
  pw_end : p_end_offset p <= i64_max;
}.

Lemma part_wf_default : part_wf PartitionIndex_default.
Proof.
  split; simpl; [|lia|done|unfold Offset_ZERO; lia|unfold Offset_ZERO; mlia].
  exists 0. unfold lo_ok, Offset_ZERO; simpl. split_and!; done || lia.
Qed.

Lemma part_wf_observe w p : part_wf p -> part_wf (observe w p).
Proof. intros []. by split. Qed.

(** ** Push *)

(** A push adds the entry and moves at most one across the window; it removes
    nothing. *)
Lemma push_entries p e : entries_of (push p e) = entries_of p ++ [te_reference e].
Proof.
  unfold push, entries_of. destruct (_ <? _)%nat.
  - destruct (p_tail p) as [|x t]; simpl.
    + by rewrite app_nil_r, <-app_assoc.
    + rewrite map_app; simpl. by rewrite <-!app_assoc.
  - simpl. by rewrite map_app, app_assoc.
Qed.

Lemma push_fields p e :
  p_end_offset (push p e) = p_end_offset p /\ p_manifest (push p e) = p_manifest p /\
  p_when (push p e) = p_when p /\ p_log_start (push p e) = p_log_start p.
Proof. unfold push. destruct (_ <? _)%nat, (p_tail p ++ [e]); auto. Qed.

Lemma push_window p e :
  (length (p_tail p) <= TAIL_WINDOW_ENTRIES)%nat ->
  (p_history p <> [] -> length (p_tail p) = TAIL_WINDOW_ENTRIES) ->
  (length (p_tail (push p e)) <= TAIL_WINDOW_ENTRIES)%nat /\
  (p_history (push p e) <> [] -> length (p_tail (push p e)) = TAIL_WINDOW_ENTRIES).
Proof.
  intros Hw Hf. unfold push. destruct (_ <? _)%nat eqn:Hlt.
  - apply Nat.ltb_lt in Hlt. rewrite length_app in Hlt; simpl in Hlt.
    destruct (p_tail p) as [|x t]; simpl in *; rewrite ?length_app in *; simpl in *; lia.
  - apply Nat.ltb_ge in Hlt. simpl. rewrite length_app in *; simpl in *.
    split; [lia|]. intros Hh. specialize (Hf Hh). lia.
Qed.

(** Pushing the next committed object keeps the partition well formed. *)
Lemma part_wf_push p e n :
  part_wf p -> or_base_offset (te_reference e) = p_end_offset p ->
  ref_live (te_reference e) -> n = or_end (te_reference e) ->
  part_wf (set_end_offset n (push p e)).
Proof.
  intros [ (lo & H0 & Hlo & Hc) Hw Hf Hs He ] Hb Hl ->.
  destruct (push_fields p e) as (H1 & H2 & H3 & H4).
  destruct (push_window p e Hw Hf) as [Hw' Hf'].
  pose proof (ref_live_lt _ Hl). pose proof Hl as (_ & _ & Hmax).
  split; simpl; rewrite ?H4; [|done|done|lia|done].
  exists lo. split; [done|]. unfold lo_ok in *; simpl. rewrite H2, H4. split; [done|].
  change (entries_of (set_end_offset (or_end (te_reference e)) (push p e)))
    with (entries_of (push p e)).
  rewrite push_entries. apply chain_app. exists (p_end_offset p). simpl. auto.
Qed.

(** ** Publication *)

(** Under the invariant the history/tail split the code computes from the
    window size is the real one. *)
Lemma first_tail_history p :
  part_wf p ->
  (length (map or_base_offset (p_history p) ++
     map (fun entry => or_base_offset (te_reference entry)) (p_tail p))
   - TAIL_WINDOW_ENTRIES)%nat = length (p_history p).
Proof.
  intros [_ Hw Hf _ _]. rewrite length_app, !length_map.
  destruct (p_history p) as [|r h]; simpl in *; [lia|]. rewrite Hf by done. lia.
Qed.

Lemma boundary_scan_None upto bases next limit :
  boundary_scan upto bases next limit = None <-> upto ∈ bases.
Proof.
  revert next; induction bases as [|b bases IH]; intros next; simpl.
  - split; [done|]. by intros ?%elem_of_nil.
  - rewrite elem_of_cons. destruct (Z.compare_spec b upto); [naive_solver|..];
      rewrite IH; naive_solver lia.
Qed.

(** Where the tail begins: what a publication may reach up to. *)
Definition tail_base (p : PartitionIndex) : Offset :=
  match p_tail p with
  | [] => p_end_offset p
  | entry :: _ => or_base_offset (te_reference entry)
  end.

(** [boundary] accepts exactly the base offsets of history and the start of
    the tail: a manifest may cover history and never the tail. *)
Lemma boundary_None p upto :
  part_wf p ->
  boundary p upto = None <->
  upto = tail_base p \/ exists r, r ∈ p_history p /\ or_base_offset r = upto.
Proof.
  intros Hwf. unfold boundary. rewrite (first_tail_history p Hwf).
  rewrite lookup_app_r by (rewrite length_map; lia).
  rewrite length_map, Nat.sub_diag.
  rewrite take_app_le by (rewrite length_map; lia).
  rewrite take_ge by (rewrite length_map; lia).
  assert (default (p_end_offset p)
    (map (fun entry => or_base_offset (te_reference entry)) (p_tail p) !! 0%nat) = tail_base p)
    as -> by (unfold tail_base; by destruct (p_tail p)).
  destruct (upto =? tail_base p) eqn:He; zbool; [naive_solver|].
  rewrite boundary_scan_None.
  rewrite list_elem_of_fmap. naive_solver.
Qed.

Lemma keep_live upto r :
  ref_live r -> is_ok_and (ObjectRef_end_offset r) (fun e => upto <? e) = (upto <? or_end r).
Proof. intros Hl. by rewrite (ref_live_end r Hl). Qed.

Lemma dead_live start r : ref_live r -> dead start r = (or_end r <=? start).
Proof. intros Hl. unfold dead. by rewrite (ref_live_end r Hl). Qed.

(** Keeping the entries of a chain that end above a point keeps a suffix. *)
Lemma chain_keep_above lo rs hi x :
  chain lo rs hi ->
  exists dropped mid, rs = dropped ++ List.filter (fun r => x <? or_end r) rs /\
    chain lo dropped mid /\ chain mid (List.filter (fun r => x <? or_end r) rs) hi /\
    (dropped <> [] -> mid <= x) /\ (mid <= x \/ mid = lo) /\
    Forall (fun r => or_end r <= x) dropped.
Proof.
  revert lo; induction rs as [|r rs IH]; intros lo Hc.
  - exists [], lo. simpl in *. split_and!; auto; done.
  - pose proof Hc as (Hb & Hl & Hc'). simpl. destruct (x <? or_end r) eqn:Hx; zbool.
    + assert (List.filter (fun r => x <? or_end r) rs = rs) as Hall.
      { apply forallb_filter_id, forallb_forall. intros y Hy%list_elem_of_In.
        apply (chain_elem _ _ _ _ Hc') in Hy. apply Z.ltb_lt. lia. }
      exists [], lo. rewrite Hall. split_and!; auto; done.
    + destruct (IH _ Hc') as (d & mid & Hd & H1 & H2 & H3 & H4 & H5).
      assert (mid <= x) by (destruct H4 as [| ->]; [done|lia]).
      exists (r :: d), mid. simpl. rewrite <-Hd. split_and!; auto.
Qed.

Lemma filter_ext_live (f g : ObjectRef -> bool) rs :
  Forall ref_live rs -> (forall r, ref_live r -> f r = g r) -> List.filter f rs = List.filter g rs.
Proof.
  intros Hl Heq. induction Hl as [|r rs Hr Hl IH]; simpl; [done|]. by rewrite Heq, IH.
Qed.

Lemma chain_filter_all lo rs hi x :
  chain lo rs hi -> hi <= x -> List.filter (fun r => x <? or_end r) rs = [].
Proof.
  intros Hc Hx. destruct (List.filter _ rs) as [|r l] eqn:Hf; [done|].
  assert (List.In r (List.filter (fun r => x <? or_end r) rs)) as Hin by (rewrite Hf; by left).
  apply filter_In in Hin as [Hin%list_elem_of_In Hx']. zbool.
  apply (chain_elem _ _ _ _ Hc) in Hin. lia.
Qed.

(** At a boundary of the chain the suffix kept starts exactly there. *)
Lemma chain_keep_boundary lo rs1 rs2 mid hi :
  chain lo rs1 mid -> chain mid rs2 hi ->
  List.filter (fun r => mid <? or_end r) (rs1 ++ rs2) = rs2.
Proof.
  intros H1 H2. rewrite List.filter_app, (chain_filter_all _ _ _ _ H1) by lia. simpl.
  apply forallb_filter_id, forallb_forall. intros y Hy%list_elem_of_In.
  apply (chain_elem _ _ _ _ H2) in Hy. apply Z.ltb_lt. lia.
Qed.

Lemma entries_chain_split p lo :
  chain lo (entries_of p) (p_end_offset p) ->
  chain lo (p_history p) (tail_base p) /\
  chain (tail_base p) (map te_reference (p_tail p)) (p_end_offset p).
Proof.
  unfold entries_of, tail_base. intros (mid & H1 & H2)%chain_app.
  destruct (p_tail p) as [|e t]; simpl in *; [by subst|].
  destruct H2 as (<- & ?). auto.
Qed.

(** A publication [boundary] accepts replaces exactly the history below its
    boundary; what is left starts there. *)
Lemma absorb_history p upto m :
  part_wf p -> boundary p upto = None ->
  exists dropped, p_history p = dropped ++ p_history (absorb p m upto).1 /\
    chain upto (entries_of (absorb p m upto).1) (p_end_offset p) /\
    0 <= upto <= p_end_offset p.
Proof.
  intros Hwf Hb. pose proof Hwf as [ (lo & H0 & Hlo & Hc) _ _ _ _ ].
  destruct (entries_chain_split p lo Hc) as [Hh Ht].
  pose proof (chain_le _ _ _ Hh). pose proof (chain_le _ _ _ Ht).
  unfold entries_of; simpl.
  rewrite (filter_ext_live _ (fun r => upto <? or_end r)); eauto using chain_live, keep_live.
  apply boundary_None in Hb as [->|(r & Hr & <-)]; [|..|done].
  - exists (p_history p). rewrite (chain_filter_all _ _ _ _ Hh) by lia.
    rewrite app_nil_r. simpl. auto with lia.
  - destruct (chain_base_split _ _ _ _ Hh Hr) as (h1 & h2 & Heq & Hc1 & Hc2).
    pose proof (chain_le _ _ _ Hc1). pose proof (chain_le _ _ _ Hc2).
    rewrite Heq, (chain_keep_boundary _ _ _ _ _ Hc1 Hc2).
    exists h1. split; [done|]. split; [|lia]. apply chain_app. eauto.
Qed.

Lemma part_wf_absorb p upto m :
  part_wf p -> boundary p upto = None -> part_wf (absorb p m upto).1.
Proof.
  intros Hwf Hb. destruct (absorb_history p upto m Hwf Hb) as (d & Hd & Hc & Hu).
  destruct Hwf as [_ Hw Hf Hs He]. split; simpl in *; auto.
  - exists upto. unfold lo_ok; simpl. auto with lia.
  - intros Hne. apply Hf. intros Hp. apply Hne. by rewrite Hp.
Qed.

(** ** Trim *)

Lemma trim_tail_map start (t : list TailEntry) :
  map te_reference (List.filter (fun e => negb (dead start (te_reference e))) t) =
  List.filter (fun r => negb (dead start r)) (map te_reference t).
Proof.
  induction t as [|e t IH]; simpl; [done|].
  destruct (dead start (te_reference e)); simpl; by rewrite IH.
Qed.

Lemma not_dead_live start r : ref_live r -> negb (dead start r) = (start <? or_end r).
Proof. intros Hl. rewrite (dead_live _ _ Hl). by rewrite Z.leb_antisym, negb_involutive. Qed.

Lemma trim_entries p start lo :
  chain lo (entries_of p) (p_end_offset p) -> p_log_start p < start ->
  entries_of (trim p start).1 = List.filter (fun r => start <? or_end r) (entries_of p).
Proof.
  intros Hc Hs. unfold trim. rewrite (proj2 (Z.leb_gt _ _)) by done. unfold entries_of; simpl.
  rewrite trim_tail_map, <-List.filter_app.
  apply filter_ext_live; [by eapply chain_live|]. apply not_dead_live.
Qed.

Lemma part_wf_trim p start :
  part_wf p -> start <= p_end_offset p -> part_wf (trim p start).1.
Proof.
  intros Hwf Hse. destruct (start <=? p_log_start p) eqn:Hle; zbool.
  { unfold trim. by rewrite (proj2 (Z.leb_le _ _)) by done. }
  pose proof Hwf as [ (lo & H0 & Hlo & Hc) Hw Hf Hs He ].
  pose proof (trim_entries p start lo Hc Hle) as Htr.
  destruct (chain_keep_above _ _ _ start Hc) as (d & mid & Hd & Hc1 & Hc2 & Hmid & Hor & Hdead).
  rewrite <-Htr in Hd, Hc2. unfold trim in Hd, Hc2 |- *.
  rewrite (proj2 (Z.leb_gt _ _)) in * by done. simpl in *.
  pose proof (chain_le _ _ _ Hc1). split; simpl; [..|lia|done].
  - exists mid. split; [lia|]. split; [|done]. unfold lo_ok in *; simpl.
    destruct (p_manifest p) as [[m upto]|]; [|lia].
    destruct (upto <=? start) eqn:Hu; zbool; lia.
  - etrans; [apply filter_length_le|done].
  - intros Hne. rewrite <-Hf.
    + apply (f_equal length). apply forallb_filter_id, forallb_forall. intros e He'.
      destruct (entries_chain_split p lo Hc) as [Hh Ht].
      destruct (List.filter _ (p_history p)) as [|r l] eqn:Hfl; [done|].
      assert (List.In r (List.filter (fun e => negb (dead start e)) (p_history p))) as Hin
        by (rewrite Hfl; by left).
      apply filter_In in Hin as [Hin%list_elem_of_In Hr].
      apply (chain_elem _ _ _ _ Hh) in Hin as (Hl & _ & _ & Hre).
      rewrite (not_dead_live _ _ Hl) in Hr. zbool.
      assert (te_reference e ∈ map te_reference (p_tail p)) as Hte
        by (apply list_elem_of_In; by apply in_map).
      apply (chain_elem _ _ _ _ Ht) in Hte as (Hl' & ? & ? & ?).
      rewrite (not_dead_live _ _ Hl'). apply Z.ltb_lt. lia.
    + intros Hp. by rewrite Hp in Hne.
Qed.

(** ** The swap *)

Lemma holds_in_history_spec p r : holds_in_history p r = true <-> r ∈ p_history p.
Proof.
  unfold holds_in_history. rewrite existsb_exists. setoid_rewrite bool_decide_eq_true.
  setoid_rewrite <-list_elem_of_In. naive_solver.
Qed.

Lemma retiring_mem (l : list ObjectRef) x :
  existsb (fun going => bool_decide (going = x)) l = true <-> x ∈ l.
Proof.
  rewrite existsb_exists. setoid_rewrite bool_decide_eq_true.
  setoid_rewrite <-list_elem_of_In. naive_solver.
Qed.

(** A swap whose sides cover the same range and whose inputs history holds
    replaces one run of history by another in place. *)
Lemma replace_history_run p lo hi h retiring installing :
  chain lo (p_history p) h ->
  (exists a, chain a (sort_by_key or_base_offset retiring) hi /\
             chain a (sort_by_key or_base_offset installing) hi) ->
  retiring <> [] ->
  (forall r, r ∈ retiring -> r ∈ p_history p) ->
  exists h1 h2, p_history p = h1 ++ sort_by_key or_base_offset retiring ++ h2 /\
    p_history (replace_history p retiring installing) =
      h1 ++ sort_by_key or_base_offset installing ++ h2 /\
    chain lo (h1 ++ sort_by_key or_base_offset installing ++ h2) h.
Proof.
  intros Hh (a & Hr & Hi) Hne Hin.
  set (sr := sort_by_key or_base_offset retiring) in *.
  set (si := sort_by_key or_base_offset installing) in *.
  assert (sr ≡ₚ retiring) as HPr by apply sort_by_key_Permutation.
  assert (si ≡ₚ installing) as HPi by apply sort_by_key_Permutation.
  assert (exists r0 sr', sr = r0 :: sr') as (r0 & sr' & Hsr).
  { destruct sr as [|r0 sr']; [|eauto]. by apply Permutation_nil in HPr. }
  assert (or_base_offset r0 = a) as Ha by (rewrite Hsr in Hr; by destruct Hr).
  assert (r0 ∈ p_history p) as Hr0 by (apply Hin; rewrite <-HPr, Hsr; set_solver).
  destruct (chain_base_split _ _ _ _ Hh Hr0) as (h1 & h2' & Heq & Hc1 & Hc2).
  rewrite Ha in Hc1, Hc2.
  destruct (chain_prefix a sr hi (r0 :: h2') h Hr Hc2) as (h2 & Heq2 & Hch2).
  { intros r Hrs. assert (r ∈ p_history p) as Hrp by (apply Hin; by rewrite <-HPr).
    rewrite Heq in Hrp. apply elem_of_app in Hrp as [Hrp|]; [|done].
    apply (chain_elem _ _ _ _ Hc1) in Hrp. apply (chain_elem _ _ _ _ Hr) in Hrs. lia. }
  assert (p_history p = h1 ++ sr ++ h2) as Hpart by (by rewrite Heq, Heq2).
  assert (chain lo (h1 ++ si ++ h2) h) as Hnew.
  { apply chain_app. exists a. split; [done|]. apply chain_app. eauto. }
  exists h1, h2. split; [done|]. split; [|done]. simpl.
  apply (chain_sort lo _ h); [done|].
  assert (List.filter (fun held => negb (existsb (fun going => bool_decide (going = held)) retiring))
    (p_history p) = h1 ++ h2) as ->; [|by rewrite HPi, <-app_assoc, (Permutation_app_comm h2)].
  assert (forall x, x ∈ h1 \/ x ∈ h2 -> x ∉ retiring) as Hout.
  { intros x Hx Hxr. rewrite <-HPr in Hxr. apply (chain_elem _ _ _ _ Hr) in Hxr.
    destruct Hx as [Hx|Hx]; [apply (chain_elem _ _ _ _ Hc1) in Hx|
      apply (chain_elem _ _ _ _ Hch2) in Hx]; lia. }
  assert (forall l, (forall x, x ∈ l -> x ∉ retiring) -> List.filter (fun held =>
    negb (existsb (fun going => bool_decide (going = held)) retiring)) l = l) as Hkeep.
  { intros l Hl. apply forallb_filter_id, forallb_forall. intros x Hx%list_elem_of_In.
    apply negb_true_iff, not_true_iff_false. rewrite retiring_mem. eauto. }
  rewrite Hpart, !List.filter_app, (Hkeep h1), (Hkeep h2) by naive_solver.
  assert (List.filter (fun held => negb (existsb (fun going => bool_decide (going = held))
    retiring)) sr = []) as ->; [|done].
  destruct (List.filter _ sr) as [|x l] eqn:Hfl; [done|].
  assert (List.In x (x :: l)) as Hx by (by left). rewrite <-Hfl in Hx.
  apply filter_In in Hx as [Hx%list_elem_of_In Hneg]. rewrite HPr in Hx.
  apply retiring_mem in Hx. by rewrite Hx in Hneg.
Qed.

Lemma part_wf_replace p retiring installing :
  part_wf p -> Forall ref_wf retiring -> Forall ref_wf installing ->
  covers retiring installing = Ok tt ->
  (forall r, r ∈ retiring -> r ∈ p_history p) ->
  part_wf (replace_history p retiring installing).
Proof.
  intros [ (lo & H0 & Hlo & Hc) Hw Hf Hs He ] Hwr Hwi Hcov Hin.
  apply covers_spec in Hcov as (Hr0 & Hi0 & a & b & Hr & Hi); [|done|done].
  destruct (entries_chain_split p lo Hc) as [Hh Ht].
  destruct (replace_history_run p lo b _ retiring installing Hh) as (h1 & h2 & Hold & Hnew & Hch);
    eauto.
  split; simpl; auto.
  - exists lo. split; [done|]. split; [done|]. unfold entries_of. rewrite Hnew.
    apply chain_app. eauto.
  - intros _. apply Hf. intros Hp. destruct retiring as [|r l]; [done|].
    assert (r ∈ p_history p) as Hrp by (apply Hin; set_solver). rewrite Hp in Hrp. set_solver.
Qed.
