(* ===== verification/IndexFold.v ===== *)
(** * IndexFold: the materialized index and the fold of the metadata log

    Models [oqueue-core/src/index_state.rs] and its submodules [projection.rs],
    [liveness.rs], [quota.rs], [page.rs], [tiers.rs] and [retention.rs].  A
    batch of log entries is read into a scratch [Batch], its effects are
    applied to copies of the partitions they touch, and only then is the state
    changed.  A [HashMap] is a [gmap]; a loop over one is a fold over
    [map_to_list], whose order the lemmas never depend on. *)

From stdpp Require Import base tactics list numbers strings gmap pretty.
From Stdlib Require Import ZArith Lia.
From S2P Require Import Prelude Types Coverage Partition.

Open Scope Z_scope.

(** ** Reference counts ([liveness.rs]) *)

Inductive RefChange : Type :=
| Added (object : ObjectKey)
| Dropped (object : ObjectKey).

Notation References := (gmap string nat).

Definition is_added (change : RefChange) : bool :=
  match change with Added _ => true | Dropped _ => false end.

Definition References_change (refs : References) (change : RefChange) : References :=
  match change with
  | Added key => <[key := S (default O (refs !! key))]> refs
  | Dropped key =>
      match refs !! key with
      | Some count =>
          let count' := (count - 1)%nat in
          if (count' =? 0)%nat then delete key refs else <[key := count']> refs
      | None => refs
      end
  end.

Definition References_apply (refs : References) (changes : list RefChange) : References :=
  let added := List.filter is_added changes in
  let dropped := List.filter (fun c => negb (is_added c)) changes in
  foldl References_change refs (added ++ dropped).

Definition References_get (refs : References) (object : ObjectKey) : nat :=
  default O (refs !! object).

(** ** The quota ([quota.rs]) *)

Record IndexQuota : Type := mkIndexQuota { q_ceiling : Z; q_alarm_at : Z }.

Definition IndexQuota_new (ceiling alarm_at : Z) : Res IndexQuota :=
  if (ceiling =? 0) || (ceiling <=? alarm_at) then Err (InvalidIndexQuota ceiling alarm_at)
  else Ok (mkIndexQuota ceiling alarm_at).

Definition alarmed (self : IndexQuota) (entries : Z) : bool := q_alarm_at self <=? entries.

Definition would_cross (self : IndexQuota) (entries : Z) : bool := q_ceiling self <? entries.

Inductive Pressure : Type := Nominal | Alarmed.

(** ** The state *)

Record IndexState : Type := mkIndexState {
  applied_upto : option CommitVersion;
  partitions : map2 PartitionIndex;
  tiers : Tiers;
  quota : option IndexQuota;
  references : References;
}.

Definition IndexState_new : IndexState := mkIndexState None ∅ Tiers_default None ∅.

Definition with_quota (q : IndexQuota) : IndexState :=
  mkIndexState None ∅ Tiers_default (Some q) ∅.

Definition IndexState_clear (self : IndexState) : IndexState :=
  mkIndexState None ∅ Tiers_default (quota self) ∅.

Definition IndexState_partition (self : IndexState) (topic : TopicId) (partition : PartitionId)
    : option PartitionIndex := lookup2 (partitions self) topic partition.

Definition IndexState_end_offset (self : IndexState) (topic : TopicId) (partition : PartitionId)
    : Offset :=
  match IndexState_partition self topic partition with
  | None => Offset_ZERO
  | Some p => p_end_offset p
  end.

Definition IndexState_log_start (self : IndexState) (topic : TopicId) (partition : PartitionId)
    : Offset :=
  match IndexState_partition self topic partition with
  | None => Offset_ZERO
  | Some p => p_log_start p
  end.

Definition IndexState_time_span (self : IndexState) (topic : TopicId) (partition : PartitionId)
    : option TimeSpan :=
  IndexState_partition self topic partition ≫= p_when.

Definition IndexState_manifest (self : IndexState) (topic : TopicId) (partition : PartitionId)
    : option (ObjectKey * Offset) :=
  IndexState_partition self topic partition ≫= p_manifest.

Definition IndexState_references (self : IndexState) (object : ObjectKey) : nat :=
  References_get (references self) object.

Definition IndexState_entries (self : IndexState) : Z := Tiers_total (tiers self).

Definition pressure (self : IndexState) : Pressure :=
  match quota self with
  | Some q => if alarmed q (Tiers_total (tiers self)) then Alarmed else Nominal
  | None => Nominal
  end.

(** ** Staging a batch ([projection.rs]) *)

Inductive Effect : Type :=
| Published (manifest : ObjectKey) (upto : Offset)
| Swapped (retiring installing : list ObjectRef)
| TrimmedTo (start : Offset).

Record Staged : Type := mkStaged {
  sg_topic : TopicId;
  sg_partition : PartitionId;
  sg_effect : Effect;
  sg_precedes : nat;
}.

Notation StagedSpan := (Z * list TailEntry * TimeSpan)%type.
Notation StagedSpans := (gmap (string * Z) StagedSpan).
Notation Projected := (gmap (string * Z) PartitionIndex).

Record Batch : Type := mkBatch { b_effects : list Staged; b_staged : StagedSpans }.

Definition Batch_default : Batch := mkBatch [] ∅.

(** How many of this partition's entries the batch has staged so far. *)
Definition precedes (staged : StagedSpans) (topic : TopicId) (partition : PartitionId) : nat :=
  match staged !! (topic, partition) with
  | None => O
  | Some (_, entries, _) => length entries
  end.

Definition stage_effect (batch : Batch) (topic : TopicId) (partition : PartitionId)
    (effect : Effect) : Batch :=
  mkBatch (b_effects batch ++
             [mkStaged topic partition effect (precedes (b_staged batch) topic partition)])
          (b_staged batch).

Definition stage_span (self : IndexState) (staged : StagedSpans) (object : ObjectKey)
    (span : CommittedSpan) (when : TimeSpan) : Res StagedSpans :=
  if cs_record_count span =? 0
  then Err (EmptySpanInLog (cs_topic span) (cs_partition span) object)
  else
    let key := (cs_topic span, cs_partition span) in
    let base :=
      match staged !! key with
      | Some (e, _, _) => e
      | None =>
          match lookup2 (partitions self) (cs_topic span) (cs_partition span) with
          | Some p => p_end_offset p
          | None => Offset_ZERO
          end
      end in
    let? next := Offset_add base (cs_record_count span) in
    let entry := mkTailEntry (mkObjectRef object base (cs_record_count span)) (cs_bytes span) in
    let '(_, entries, held) := default (base, [], when) (staged !! key) in
    Ok (<[key := (next, entries ++ [entry], TimeSpan_widened held when)]> staged).

Definition read_record (self : IndexState) (record : MetadataRecord) (batch : Batch) : Res Batch :=
  match record with
  | BatchCommitted object spans written_at =>
      let when := TimeSpan_at written_at in
      let? staged :=
        res_foldl (fun staged span => stage_span self staged object span when)
          (b_staged batch) spans in
      Ok (mkBatch (b_effects batch) staged)
  | ManifestPublished topic partition manifest upto =>
      Ok (stage_effect batch topic partition (Published manifest upto))
  | RangeCompacted topic partition retiring installing =>
      Ok (stage_effect batch topic partition (Swapped retiring installing))
  | Trimmed topic partition start =>
      Ok (stage_effect batch topic partition (TrimmedTo start))
  | EpochChanged _ | TopicRetentionChanged _ _ => Ok batch
  end.

(** The reading loop of [apply]: version check, then the record. *)
Definition read_entry (self : IndexState) (acc : option CommitVersion * Batch)
    (entry : MetadataEntry) : Res (option CommitVersion * Batch) :=
  let '(previous, batch) := acc in
  match previous with
  | Some prev =>
      if me_version entry <=? prev
      then Err (NonMonotonicCommitVersion prev (me_version entry))
      else let? batch' := read_record self (me_record entry) batch in
           Ok (Some (me_version entry), batch')
  | None =>
      let? batch' := read_record self (me_record entry) batch in
      Ok (Some (me_version entry), batch')
  end.

(** ** Projecting the effects *)

(** [while *already < upto]: [fuel] is [upto - already] on entry, the number of
    iterations the loop makes. *)
Fixpoint catch_up_loop (fuel : nat) (slot : PartitionIndex) (entries : list TailEntry)
    (already : nat) : Res (PartitionIndex * nat) :=
  match fuel with
  | O => Ok (slot, already)
  | S fuel =>
      match entries !! already with
      | None => Panic
      | Some entry =>
          let? e := ObjectRef_end_offset (te_reference entry) in
          catch_up_loop fuel (set_end_offset e (push slot entry)) entries (S already)
      end
  end.

Definition catch_up (slot : PartitionIndex) (staged : option StagedSpan) (already upto : nat)
    : Res (PartitionIndex * nat) :=
  match staged with
  | None => Ok (slot, already)
  | Some (_, entries, _) => catch_up_loop (upto - already) slot entries already
  end.

Definition show_len (n : nat) : string := pretty n.

Open Scope string_scope.

(** Why a swap's two runs did not cover each other, in a sentence. *)
Definition why_it_does_not_cover (retiring installing : list ObjectRef) : string :=
  match retiring with
  | [] => "it retires nothing and installs " +:+ show_len (length installing) +:+
          ", and neither side of a swap may be empty"
  | first :: _ =>
      match installing with
      | [] => "it retires " +:+ show_len (length retiring) +:+ " reference(s) starting at " +:+
              or_object first +:+
              " and installs nothing, and neither side of a swap may be empty"
      | _ =>
          match List.find (fun r => (or_record_count r =? 0)%Z) (retiring ++ installing)%list with
          | Some empty =>
              "it names " +:+ or_object empty +:+
              ", which covers no offsets — such a reference can never be retired, and sorts ahead of the real object at its base offset"
          | None =>
              "the " +:+ show_len (length installing) +:+
              " reference(s) it installs do not cover exactly the " +:+
              show_len (length retiring) +:+ " it retires, starting at " +:+ or_object first
          end
      end
  end.

(** The loop of [apply_swap] that looks for an input history does not hold. *)
Definition first_unheld (slot : PartitionIndex) (retiring : list ObjectRef) : option ObjectRef :=
  List.find (fun reference => negb (holds_in_history slot reference)) retiring.

Definition apply_swap (slot : PartitionIndex) (topic : TopicId) (partition : PartitionId)
    (retiring installing : list ObjectRef) : Res PartitionIndex :=
  let? _ :=
    res_map_err (fun error =>
      match error with
      | IndexObjectMismatch =>
          SwapRefused topic partition (why_it_does_not_cover retiring installing)
      | other => other
      end) (covers retiring installing) in
  match first_unheld slot retiring with
  | Some reference =>
      Err (SwapRefused topic partition
             ("it retires " +:+ or_object reference +:+
              ", which this partition's history does not hold"))
  | None => Ok (replace_history slot retiring installing)
  end.

Close Scope string_scope.

Definition apply_effect (slot : PartitionIndex) (topic : TopicId) (partition : PartitionId)
    (effect : Effect) : Res (PartitionIndex * list RefChange) :=
  match effect with
  | Published manifest upto =>
      match boundary slot upto with
      | Some expected => Err (ManifestDoesNotMeetHistory topic partition upto expected)
      | None => Ok ((absorb slot manifest upto).1, [])
      end
  | Swapped retiring installing =>
      let? slot' := apply_swap slot topic partition retiring installing in
      Ok (slot', map (fun r => Dropped (or_object r)) retiring ++
                 map (fun r => Added (or_object r)) installing)
  | TrimmedTo start =>
      if p_end_offset slot <? start
      then Err (TrimPastEnd topic partition start (p_end_offset slot))
      else let '(slot', dropped) := trim slot start in Ok (slot', map Dropped dropped)
  end.

(** The projection's working state: the copies, how many staged entries each
    has taken, and the reference changes so far. *)
Definition Proj : Type := Projected * gmap (string * Z) nat * list RefChange.

Definition project_effect (self : IndexState) (staged : StagedSpans) (acc : Proj) (effect : Staged)
    : Res Proj :=
  let '(projected, taken, changes) := acc in
  let key := (sg_topic effect, sg_partition effect) in
  let slot :=
    match projected !! key with
    | Some slot => slot
    | None => default PartitionIndex_default
                (IndexState_partition self (sg_topic effect) (sg_partition effect))
    end in
  let already := default O (taken !! key) in
  let? (slot, already) := catch_up slot (staged !! key) already (sg_precedes effect) in
  let? (slot, more) := apply_effect slot (sg_topic effect) (sg_partition effect)
                         (sg_effect effect) in
  Ok (<[key := slot]> projected, <[key := already]> taken, changes ++ more).

(** The commits after the last effect, for one projected partition. *)
Definition project_rest (staged : StagedSpans) (taken : gmap (string * Z) nat)
    (projected : Projected) (kv : (string * Z) * PartitionIndex) : Res Projected :=
  let '(key, slot) := kv in
  let already := default O (taken !! key) in
  let all := match staged !! key with Some (_, entries, _) => length entries | None => O end in
  let? (slot, _) := catch_up slot (staged !! key) already all in
  let slot :=
    match staged !! key with
    | Some (e, _, when) => observe when (set_end_offset e slot)
    | None => slot
    end in
  Ok (<[key := slot]> projected).

Definition project (self : IndexState) (effects : list Staged) (staged : StagedSpans)
    : Res (Projected * list RefChange) :=
  let? (projected, taken, changes) := res_foldl (project_effect self staged) (∅, ∅, []) effects in
  let? projected := res_foldl (project_rest staged taken) projected (map_to_list projected) in
  Ok (projected, changes).

(** ** The quota check *)

(** One partition's net contribution to the entry count. *)
Notation Contribution := (string * Z * Z)%type.

Definition contributions (self : IndexState) (staged : StagedSpans) (projected : Projected)
    : list Contribution :=
  omap (fun '((topic, partition), (_, entries, _)) =>
    match projected !! (topic, partition) with
    | Some _ => None
    | None => Some (topic, partition, i64_of_usize (Z.of_nat (length entries)))
    end) (map_to_list staged) ++
  map (fun '((topic, partition), slot) =>
    let before := match IndexState_partition self topic partition with
                  | None => 0
                  | Some held => Tiers_total (PartitionIndex_tiers held)
                  end in
    (topic, partition,
     i64_of_usize (Tiers_total (PartitionIndex_tiers slot)) - i64_of_usize before))
    (map_to_list projected).

(** The comparison [max_by] is given: the larger delta wins, and a tie goes to
    the lesser name, then to the lesser partition. *)
Definition contribution_cmp (left right : Contribution) : comparison :=
  let '(t1, p1, d1) := left in
  let '(t2, p2, d2) := right in
  match Z.compare d1 d2 with
  | Eq => match String.compare t2 t1 with
          | Eq => Z.compare p2 p1
          | c => c
          end
  | c => c
  end.

(** [Iterator::max_by]: the last of the greatest elements. *)
Definition largest (l : list Contribution) : option Contribution :=
  foldl (fun best c =>
    match best with
    | None => Some c
    | Some b => match contribution_cmp b c with Gt => Some b | _ => Some c end
    end) None l.

Definition check_quota (self : IndexState) (staged : StagedSpans) (projected : Projected)
    : Res unit :=
  match quota self with
  | None => Ok tt
  | Some q =>
      let contribs := contributions self staged projected in
      let net := sumZ (map (fun '(_, _, delta) => delta) contribs) in
      let held := i64_of_usize (Tiers_total (tiers self)) in
      let would_be := Z.max (i64_saturating_add held net) 0 in
      if negb (would_cross q would_be) then Ok tt
      else
        let '(topic, partition) :=
          match largest contribs with
          | None => (EmptyString, 0)
          | Some (topic, partition, _) => (topic, partition)
          end in
        Err (IndexQuotaExceeded topic partition would_be (q_ceiling q))
  end.

(** ** Applying a batch *)

(** [liveness::stage]: every staged entry names its object once. *)
Definition liveness_stage (staged : StagedSpans) (changes : list RefChange) : list RefChange :=
  foldl (fun changes '(_, (_, entries, _)) =>
    changes ++ map (fun entry => Added (or_object (te_reference entry))) entries)
    changes (map_to_list staged).

(** The mutating part of the state: the partition map and the tier counts. *)
Definition Parts : Type := map2 PartitionIndex * Tiers.

Definition install_staged (projected : Projected) (acc : Parts)
    (kv : (string * Z) * StagedSpan) : Parts :=
  let '(parts, total) := acc in
  let '((topic, partition), (e, entries, when)) := kv in
  match projected !! (topic, partition) with
  | Some _ => acc
  | None =>
      let slot := default PartitionIndex_default (lookup2 parts topic partition) in
      let slot := observe when (set_end_offset e slot) in
      let before := PartitionIndex_tiers slot in
      let slot := foldl push slot entries in
      let after := PartitionIndex_tiers slot in
      (insert2 parts topic partition slot, Tiers_sub (Tiers_add total after) before)
  end.

Definition install_projected (acc : Parts) (kv : (string * Z) * PartitionIndex) : Parts :=
  let '(parts, total) := acc in
  let '((topic, partition), slot) := kv in
  let before := match lookup2 parts topic partition with
                | None => Tiers_default
                | Some held => PartitionIndex_tiers held
                end in
  (insert2 parts topic partition slot,
   Tiers_sub (Tiers_add total (PartitionIndex_tiers slot)) before).

Definition IndexState_apply (self : IndexState) (entries : list MetadataEntry) : Res IndexState :=
  let? (previous, batch) := res_foldl (read_entry self) (applied_upto self, Batch_default) entries in
  let effects := b_effects batch in
  let staged := b_staged batch in
  let? (projected, changes) := project self effects staged in
  let? _ := check_quota self staged projected in
  let changes := liveness_stage staged changes in
  let '(parts, total) :=
    foldl (install_staged projected) (partitions self, tiers self) (map_to_list staged) in
  let '(parts, total) := foldl install_projected (parts, total) (map_to_list projected) in
  Ok (mkIndexState previous parts total (quota self) (References_apply (references self) changes)).

(** ** Reading a page ([page.rs], [find_batches]) *)

Definition MAX_BATCHES_PER_PAGE : nat := 64.

Record Page : Type := mkPage { pg_batches : list IndexedBatch; pg_spent : Z; pg_max_bytes : Z }.

Definition Page_new (max_bytes : Z) : Page := mkPage [] 0 max_bytes.

(** Whether both bounds allow the batch. *)
Definition page_admits (self : Page) (batch : IndexedBatch) : bool :=
  match pg_batches self with
  | [] => true
  | _ =>
      if (MAX_BATCHES_PER_PAGE <=? length (pg_batches self))%nat then false
      else match IndexedBatch_known_len batch with
           | Some len => negb (pg_max_bytes self <? u64_saturating_add (pg_spent self) len)
           | None => true
           end
  end.

Definition Page_push (self : Page) (batch : IndexedBatch) : Page * bool :=
  if page_admits self batch then
    let spent := match IndexedBatch_known_len batch with
                 | Some len => u64_saturating_add (pg_spent self) len
                 | None => pg_spent self
                 end in
    (mkPage (pg_batches self ++ [batch]) spent (pg_max_bytes self), true)
  else (self, false).

(** [slice::partition_point]: the first element of the second partition. *)
Fixpoint partition_point {A} (pred : A -> bool) (l : list A) : nat :=
  match l with
  | [] => O
  | x :: l => if pred x then S (partition_point pred l) else O
  end.

Definition first_candidate (history : list ObjectRef) (start : Offset) : nat :=
  (partition_point (fun r => (or_base_offset r <=? start)%Z) history - 1)%nat.

(** One of the two paging loops: [Ok (page, true)] falls through to what
    follows, [Ok (page, false)] is the early return of a closed page. *)
Fixpoint page_loop (start : Offset) (page : Page) (batches : list IndexedBatch)
    : Res (Page * bool) :=
  match batches with
  | [] => Ok (page, true)
  | batch :: batches =>
      let? e := ObjectRef_end_offset (IndexedBatch_reference batch) in
      if start <? e then
        let '(page, added) := Page_push page batch in
        if added then page_loop start page batches else Ok (page, false)
      else page_loop start page batches
  end.

Definition find_batches (self : IndexState) (topic : TopicId) (partition : PartitionId)
    (start : Offset) (max_bytes : Z) : Res (list IndexedBatch) :=
  match IndexState_partition self topic partition with
  | None => Ok []
  | Some slot =>
      if start <? p_log_start slot then Err (BelowLogStart start (p_log_start slot))
      else
        let page := Page_new max_bytes in
        let? (page, more) :=
          page_loop start page
            (map Footer (drop (first_candidate (p_history slot) start) (p_history slot))) in
        if more then
          let? (page, _) := page_loop start page (map Inline (p_tail slot)) in
          Ok (pg_batches page)
        else Ok (pg_batches page)
  end.

#[global] Opaque MAX_BATCHES_PER_PAGE.
