(* ===== verification/Lifecycle.v ===== *)
(** * Lifecycle: deleting objects the index no longer names

    Models [oqueue-compact]'s [gc.rs] (the terms of the deletion delay) and
    [lifecycle.rs] (released, logically deleted, queued, gone).  The gauge of
    the backlog is not kept; the map of logically deleted keys is iterated in
    any order, which only the sorted result shows. *)

From stdpp Require Import base tactics list numbers strings gmap sorting.
From Stdlib Require Import ZArith Lia.
From S2P Require Import Prelude Types Retry Store Partition IndexFold.

Open Scope Z_scope.

(** ** The terms ([gc.rs]) *)

Definition MAX_IN_FLIGHT_FETCH_MS : Z := 240000.
Definition MAX_CLOCK_SKEW_MS : Z := 10000.
Definition DELETION_DELAY_MS : Z := 600000.

Record GcTerms : Type := mkGcTerms {
  metadata_staleness_ms : Z;
  fetch_duration_ms : Z;
  clock_skew_ms : Z;
}.

Definition GcTerms_CONFIGURED : GcTerms :=
  mkGcTerms MAX_METADATA_STALENESS_MS MAX_IN_FLIGHT_FETCH_MS MAX_CLOCK_SKEW_MS.

Definition GcTerms_bound (self : GcTerms) : Z :=
  i64_saturating_add (i64_saturating_add (metadata_staleness_ms self) (fetch_duration_ms self)) (clock_skew_ms self).

Definition GcTerms_check (self : GcTerms) (delay_ms : Z) : Res unit :=
  let bound_ms := GcTerms_bound self in
  if bound_ms <? delay_ms then Ok tt else Err (GcInequalityViolated delay_ms bound_ms).

(** ** The lifecycle ([lifecycle.rs]) *)

Definition DELETE_BATCH_KEYS : nat := 1000.
Definition DELETION_BACKLOG_KEYS : nat := 100000.
Definition QUARANTINE_AFTER_REFUSALS : Z := 5.

Record SweepReport : Type := mkSweepReport {
  sr_deleted : nat;
  sr_refused : nat;
  sr_quarantined : list ObjectKey;
}.

Record Lifecycle : Type := mkLifecycle {
  lc_delay_ms : Z;
  lc_logical : gmap string (option Z);
  lc_queue : list ObjectKey;
  lc_leaving : gset string;
  lc_refusals : gmap string Z;
  lc_quarantined : list ObjectKey;
}.

Definition Lifecycle_new (delay_ms : Z) (terms : GcTerms) : Res Lifecycle :=
  let? _ := GcTerms_check terms delay_ms in
  Ok (mkLifecycle delay_ms ∅ [] ∅ ∅ []).

Definition lc_release (self : Lifecycle) (object : ObjectKey) : Lifecycle :=
  if decide (object ∈ lc_leaving self) then self
  else
    let logical := match lc_logical self !! object with
                   | Some _ => lc_logical self
                   | None => <[object := None]> (lc_logical self)
                   end in
    mkLifecycle (lc_delay_ms self) logical (lc_queue self) (lc_leaving self) (lc_refusals self) (lc_quarantined self).

Definition lc_backlog (self : Lifecycle) : nat := size (lc_logical self) + length (lc_queue self).
Definition lc_admits (self : Lifecycle) : bool := (lc_backlog self <? DELETION_BACKLOG_KEYS)%nat.

(** One key in the loop of [promote]: its clock, and whether it is due. *)
Definition zero_since (delay now : Z) (references : nat) (since : option Z) : option Z * bool :=
  if (0 <? references)%nat then (None, false)
  else match since with
  | None => (Some now, false)
  | Some since => (Some since, delay <=? i64_saturating_sub now since)
  end.

Definition promote_key (self : Lifecycle) (key : ObjectKey) : Lifecycle :=
  mkLifecycle (lc_delay_ms self) (delete key (lc_logical self)) (lc_queue self ++ [key])
    ({[key]} ∪ lc_leaving self) (lc_refusals self) (lc_quarantined self).

Definition lc_promote (self : Lifecycle) (index : IndexState) (now : Z) : Lifecycle :=
  let step key since := zero_since (lc_delay_ms self) now (IndexState_references index key) since in
  let due := merge_sort String.le
    (map fst (List.filter (fun kv => (step kv.1 kv.2).2) (map_to_list (lc_logical self)))) in
  let self := mkLifecycle (lc_delay_ms self) (map_imap (fun key since => Some (step key since).1) (lc_logical self))
    (lc_queue self) (lc_leaving self) (lc_refusals self) (lc_quarantined self) in
  foldl promote_key self due.

Section sweep.
Context {S : Type} `{ObjectStore S}.

(** A key that is gone. *)
Definition forget (self : Lifecycle) (key : ObjectKey) : Lifecycle :=
  mkLifecycle (lc_delay_ms self) (lc_logical self) (lc_queue self) (lc_leaving self ∖ {[key]})
    (delete key (lc_refusals self)) (lc_quarantined self).

(** A key the store would not delete. *)
Definition refuse (self : Lifecycle) (report : SweepReport) (key : ObjectKey) : Lifecycle * SweepReport :=
  let refused := default 0 (lc_refusals self !! key) + 1 in
  if QUARANTINE_AFTER_REFUSALS <=? refused
  then (mkLifecycle (lc_delay_ms self) (lc_logical self) (lc_queue self) (lc_leaving self)
          (delete key (lc_refusals self)) (lc_quarantined self ++ [key]),
        mkSweepReport (sr_deleted report) (sr_refused report + 1) (sr_quarantined report ++ [key]))
  else (mkLifecycle (lc_delay_ms self) (lc_logical self) (lc_queue self ++ [key]) (lc_leaving self)
          (<[key := refused]> (lc_refusals self)) (lc_quarantined self),
        mkSweepReport (sr_deleted report) (sr_refused report + 1) (sr_quarantined report)).

(** After a batch was refused: key by key. *)
Fixpoint one_by_one (self : Lifecycle) (store : S) (report : SweepReport) (batch : list ObjectKey)
    : Lifecycle * S * SweepReport :=
  match batch with
  | [] => (self, store, report)
  | key :: batch =>
      let (store, r) := os_delete [key] store in
      if is_ok r
      then one_by_one (forget self key) store
        (mkSweepReport (sr_deleted report + 1) (sr_refused report) (sr_quarantined report)) batch
      else let (self, report) := refuse self report key in one_by_one self store report batch
  end.

Definition lc_sweep (self : Lifecycle) (index : IndexState) (store : S) (now : Timestamp)
    : Lifecycle * S * SweepReport :=
  let self := lc_promote self index now in
  let batch := take DELETE_BATCH_KEYS (lc_queue self) in
  let self := mkLifecycle (lc_delay_ms self) (lc_logical self) (drop DELETE_BATCH_KEYS (lc_queue self))
    (lc_leaving self) (lc_refusals self) (lc_quarantined self) in
  let report := mkSweepReport 0 0 [] in
  if bool_decide (batch = []) then (self, store, report)
  else
    let (store, r) := os_delete batch store in
    if is_ok r then (foldl forget self batch, store, mkSweepReport (length batch) 0 [])
    else one_by_one self store report batch.
End sweep.

(** * An object is deleted only when no reader can still reach it *)

(** ** Runs *)

Section runs.
Context {S : Type} `{ObjectStore S}.
(** The index at each moment of real time. *)
Context (at_time : Z -> IndexState).

(** A release or a sweep, at a real time; a sweep with what the deleter's clock
    shows. *)
Inductive LcEvent : Type :=
| LcRelease (time : Z) (object : ObjectKey)
| LcSweep (time now : Z).

Definition event_time (e : LcEvent) : Z := match e with LcRelease time _ | LcSweep time _ => time end.
Definition sooner (e e' : LcEvent) : Prop := event_time e <= event_time e'.

Definition lc_event (st : Lifecycle * S) (e : LcEvent) : Lifecycle * S :=
  match e with
  | LcRelease _ object => (lc_release st.1 object, st.2)
  | LcSweep time now => (lc_sweep st.1 (at_time time) st.2 now).1
  end.

Definition lc_run (st : Lifecycle * S) (es : list LcEvent) : Lifecycle * S := foldl lc_event st es.

Definition unreferenced (time : Z) (key : ObjectKey) : Prop := IndexState_references (at_time time) key = 0%nat.

(** ** What the lifecycle knows of a key *)

(** Released, and then seen at zero when the clock showed [since]. *)
Definition seen_zero (hist : list LcEvent) (time since : Z) (key : ObjectKey) : Prop :=
  LcSweep time since ∈ hist /\ unreferenced time key /\ exists released, LcRelease released key ∈ hist /\ released <= time.

(** Seen at zero a whole delay before a later sweep. *)
Definition waited (delay : Z) (hist : list LcEvent) (key : ObjectKey) : Prop :=
  exists time since later now, seen_zero hist time since key /\ LcSweep later now ∈ hist /\ delay <= now - since.

Record lc_inv (hist : list LcEvent) (lc : Lifecycle) : Prop := {
  li_released : forall key since, lc_logical lc !! key = Some since -> exists released, LcRelease released key ∈ hist;
  li_logical : forall key since, lc_logical lc !! key = Some (Some since) -> exists time, seen_zero hist time since key;
  li_queue : forall key, key ∈ lc_queue lc -> waited (lc_delay_ms lc) hist key;
}.

Lemma seen_zero_mono e hist time since key : seen_zero hist time since key -> seen_zero (e :: hist) time since key.
Proof. intros (Hin & Hz & released & Hr & Hle). split_and!; [set_solver|done|]. exists released. split; [set_solver|done]. Qed.

Lemma waited_mono e delay hist key : waited delay hist key -> waited delay (e :: hist) key.
Proof.
  intros (time & since & later & now & Hz & Hl & Hd). exists time, since, later, now.
  split_and!; [by apply seen_zero_mono|set_solver|done].
Qed.

Definition clocks_ok (hist : list LcEvent) : Prop := forall time now, LcSweep time now ∈ hist -> 0 <= now <= i64_max.

(** What is assumed of the times of a run, newest event first. *)
Definition in_order (e : LcEvent) (hist : list LcEvent) : Prop := Forall (fun e' => event_time e' <= event_time e) hist.

(** Only the queue grows, and by the keys that are due. *)
Lemma foldl_promote due lc :
  let lc' := foldl promote_key lc due in
  lc_delay_ms lc' = lc_delay_ms lc /\ lc_queue lc' = lc_queue lc ++ due /\
  forall key since, lc_logical lc' !! key = Some since -> lc_logical lc !! key = Some since.
Proof.
  revert lc. induction due as [|key due IH]; intros lc; simpl; [by rewrite app_nil_r|].
  destruct (IH (promote_key lc key)) as (H1 & H2 & H3). split_and!; [done|by rewrite H2; simpl; rewrite <-app_assoc|].
  intros key' since Hk. apply H3 in Hk. simpl in Hk. by apply lookup_delete_Some in Hk as [_ ?].
Qed.

Lemma promote_inv hist lc time now :
  clocks_ok (LcSweep time now :: hist) -> in_order (LcSweep time now) hist -> lc_inv hist lc ->
  lc_inv (LcSweep time now :: hist) (lc_promote lc (at_time time) now) /\
  lc_delay_ms (lc_promote lc (at_time time) now) = lc_delay_ms lc.
Proof.
  intros Hclk Hord [Hr Hl Hq]. unfold lc_promote. set (due := merge_sort _ _). set (lc1 := mkLifecycle _ (map_imap _ _) _ _ _ _).
  destruct (foldl_promote due lc1) as (Hd & Hqueue & Hlog).
  assert (forall key, is_Some (lc_logical lc !! key) -> exists released, LcRelease released key ∈ LcSweep time now :: hist /\ released <= time) as Hrel.
  { intros key [since Hk]. apply Hr in Hk as [released Hin]. exists released. split; [set_solver|].
    unfold in_order in Hord. rewrite Forall_forall in Hord. by apply Hord in Hin. }
  split; [|done]. split.
  - intros key since Hk. apply Hlog in Hk. simpl in Hk. rewrite map_lookup_imap in Hk.
    destruct (lc_logical lc !! key) as [old|] eqn:Hold; [|done]. apply Hr in Hold as [released ?]. exists released. set_solver.
  - intros key since Hk. apply Hlog in Hk. simpl in Hk. rewrite map_lookup_imap in Hk.
    destruct (lc_logical lc !! key) as [old|] eqn:Hold; [|done]. simpl in Hk. injection Hk as Hk.
    unfold zero_since in Hk. destruct (0 <? _)%nat eqn:Href; [done|]. apply Nat.ltb_ge in Href.
    destruct old as [old|]; simplify_eq/=.
    + destruct (Hl _ _ Hold) as [t0 Hz]. exists t0. by apply seen_zero_mono.
    + exists time. split_and!; [set_solver|unfold unreferenced; lia|by apply Hrel].
  - intros key Hin. rewrite Hd. rewrite Hqueue in Hin. apply elem_of_app in Hin as [Hin|Hin]; [by apply waited_mono, Hq|].
    unfold due in Hin. rewrite merge_sort_Permutation in Hin. apply list_elem_of_In, in_map_iff in Hin as ([k s] & <- & Hin).
    apply filter_In in Hin as [Hin Hdue]. apply list_elem_of_In, elem_of_map_to_list in Hin. simpl in *.
    unfold zero_since in Hdue. destruct (0 <? _)%nat eqn:Href; [done|]. apply Nat.ltb_ge in Href.
    destruct s as [since|]; [|done]. simpl in Hdue. zbool. destruct (Hl _ _ Hin) as (t0 & Hz).
    assert (0 <= since <= i64_max) by (apply (Hclk t0); destruct Hz; set_solver).
    assert (0 <= now <= i64_max) by (apply (Hclk time); set_solver).
    exists t0, since, time, now. split_and!; [by apply seen_zero_mono|set_solver|mlia].
Qed.

Lemma forget_inv hist lc key : lc_inv hist lc -> lc_inv hist (forget lc key).
Proof. intros [Hr Hl Hq]. by split. Qed.

Lemma foldl_forget_inv hist ks lc : lc_inv hist lc -> lc_inv hist (foldl forget lc ks).
Proof. revert lc. induction ks as [|k ks IH]; intros lc Hi; simpl; [done|]. by apply IH, forget_inv. Qed.

Lemma foldl_forget_delay ks lc : lc_delay_ms (foldl forget lc ks) = lc_delay_ms lc.
Proof. revert lc. induction ks as [|k ks IH]; intros lc; simpl; [done|]. by rewrite IH. Qed.

Lemma one_by_one_inv hist batch lc store report :
  lc_inv hist lc -> Forall (waited (lc_delay_ms lc) hist) batch ->
  lc_inv hist (one_by_one lc store report batch).1.1 /\
  lc_delay_ms (one_by_one lc store report batch).1.1 = lc_delay_ms lc.
Proof.
  revert lc store report. induction batch as [|key batch IH]; intros lc store report Hi Hb; simpl; [done|].
  apply Forall_cons in Hb as [Hk Hb]. destruct (os_delete [key] store) as [store' r]. destruct (is_ok r).
  - apply (IH (forget lc key)); [by apply forget_inv|done].
  - unfold refuse. destruct (QUARANTINE_AFTER_REFUSALS <=? _).
    + match goal with |- context [one_by_one ?l _ _ batch] => apply (IH l) end; [by destruct Hi; split|done].
    + match goal with |- context [one_by_one ?l _ _ batch] => apply (IH l) end; [|done].
      destruct Hi as [Hr Hl Hq]. split; [done|done|]. simpl. intros k [Hin| ->%list_elem_of_singleton]%elem_of_app; [by apply Hq|done].
Qed.

(** What a sweep takes off the queue. *)
Definition sweep_batch (lc : Lifecycle) (time now : Z) : list ObjectKey :=
  take DELETE_BATCH_KEYS (lc_queue (lc_promote lc (at_time time) now)).

Lemma sweep_inv hist lc time now store :
  clocks_ok (LcSweep time now :: hist) -> in_order (LcSweep time now) hist -> lc_inv hist lc ->
  lc_inv (LcSweep time now :: hist) (lc_sweep lc (at_time time) store now).1.1 /\
  lc_delay_ms (lc_sweep lc (at_time time) store now).1.1 = lc_delay_ms lc /\
  Forall (waited (lc_delay_ms lc) (LcSweep time now :: hist)) (sweep_batch lc time now).
Proof.
  intros Hclk Hord Hi. destruct (promote_inv hist lc time now Hclk Hord Hi) as [[Hr Hl Hq] Hd].
  assert (Forall (waited (lc_delay_ms lc) (LcSweep time now :: hist)) (sweep_batch lc time now)) as Hbatch.
  { apply Forall_forall. intros k Hk. rewrite <-Hd. apply Hq. by apply elem_of_take in Hk as (i & Hi' & _); apply list_elem_of_lookup; eauto. }
  unfold lc_sweep. fold (sweep_batch lc time now). set (lc1 := mkLifecycle _ _ _ _ _ _).
  assert (lc_inv (LcSweep time now :: hist) lc1) as Hi1.
  { split; [done|done|]. simpl. intros k Hk. apply Hq. apply list_elem_of_lookup in Hk as [i Hk]. rewrite lookup_drop in Hk.
    apply list_elem_of_lookup. eauto. }
  split_and!; [| |done].
  - destruct (bool_decide _); [done|]. destruct (os_delete _ store) as [store' r]. destruct (is_ok r).
    + by apply foldl_forget_inv.
    + apply one_by_one_inv; [done|]. simpl. by rewrite Hd.
  - destruct (bool_decide _); [done|]. destruct (os_delete _ store) as [store' r]. destruct (is_ok r).
    + simpl. by rewrite foldl_forget_delay.
    + destruct (one_by_one_inv (LcSweep time now :: hist) (sweep_batch lc time now) lc1 store' (mkSweepReport 0 0 [])) as [_ ->];
        [done|simpl; by rewrite Hd|done].
Qed.

Lemma release_inv hist lc time object :
  lc_inv hist lc -> lc_inv (LcRelease time object :: hist) (lc_release lc object).
Proof.
  intros [Hr Hl Hq]. assert (lc_inv (LcRelease time object :: hist) lc) as Hi.
  { split; [intros key since Hk; destruct (Hr _ _ Hk) as [rel ?]; exists rel; set_solver| |intros key Hk; by apply waited_mono, Hq].
    intros key since Hk. destruct (Hl _ _ Hk) as [t0 ?]. exists t0. by apply seen_zero_mono. }
  unfold lc_release. case_decide; [done|]. destruct Hi as [Hr' Hl' Hq']. split; simpl; [..|done];
    intros key since Hk; (destruct (lc_logical lc !! object); [by eauto|]);
    apply lookup_insert_Some in Hk as [[<- ?]|[_ Hk]]; try done; [exists time; set_solver|by eauto|by eauto].
Qed.

Lemma run_inv es hist st :
  clocks_ok (reverse es ++ hist) -> StronglySorted sooner (reverse hist ++ es) ->
  lc_inv hist st.1 ->
  lc_inv (reverse es ++ hist) (lc_run st es).1 /\ lc_delay_ms (lc_run st es).1 = lc_delay_ms st.1.
Proof.
  revert hist st. induction es as [|e es IH]; intros hist [lc store] Hclk Hs Hi; simpl in *; [done|].
  rewrite reverse_cons, <-app_assoc in *. simpl in *.
  assert (StronglySorted sooner (reverse (e :: hist) ++ es)) as Hs1
    by (by rewrite reverse_cons, <-app_assoc).
  assert (clocks_ok (e :: hist)) as Hclk1.
  { intros t n Hin. apply (Hclk t n). set_solver. }
  assert (in_order e hist) as Hord.
  { apply Forall_forall. intros e' He'. apply (StronglySorted_app_1_elem_of sooner _ _ e' e Hs); [by apply elem_of_reverse|set_solver]. }
  destruct e as [time object|time now]; simpl in *.
  - destruct (IH (LcRelease time object :: hist) (lc_release lc object, store) Hclk Hs1) as [H1 H2]; [by apply release_inv|].
    split; [done|]. rewrite H2. simpl. unfold lc_release. by case_decide.
  - destruct (sweep_inv hist lc time now store Hclk1 Hord Hi) as (H1 & H2 & _).
    destruct (lc_sweep lc (at_time time) store now) as [[lc' store'] report]. simpl in *.
    destruct (IH (LcSweep time now :: hist) (lc', store') Hclk Hs1 H1) as [H3 H4]. simpl in *. split; [done|congruence].
Qed.
End runs.

(** What a delete leaves alone. *)
Lemma delete_keeps {S} `{ObjectStoreLaws S} ks s s' r k :
  os_delete ks s = (s', r) -> k ∉ ks -> objects s' !! k = objects s !! k.
Proof.
  intros Hd Hk. destruct (delete_law _ _ _ _ Hd) as (_ & _ & gone & Hg & _ & Hm). rewrite Hm.
  rewrite decide_False; [done|]. intros Hin. by apply Hk, Hg.
Qed.

Lemma one_by_one_keeps {S} `{ObjectStoreLaws S} batch lc store report k :
  k ∉ batch -> objects (one_by_one lc store report batch).1.2 !! k = objects store !! k.
Proof.
  revert lc store report. induction batch as [|key batch IH]; intros lc store report Hk; simpl; [done|].
  apply not_elem_of_cons in Hk as [Hne Hk]. destruct (os_delete [key] store) as [store' r] eqn:Hd.
  assert (objects store' !! k = objects store !! k) as Hsame by (eapply delete_keeps; [done|set_solver]).
  destruct (is_ok r); [by rewrite IH|]. destruct (refuse lc report key). by rewrite IH.
Qed.

Lemma sweep_keeps {S} `{ObjectStoreLaws S} at_time lc time now store k :
  k ∉ sweep_batch at_time lc time now ->
  objects (lc_sweep lc (at_time time) store now).1.2 !! k = objects store !! k.
Proof.
  intros Hk. unfold lc_sweep. fold (sweep_batch at_time lc time now). destruct (bool_decide _); [done|].
  destruct (os_delete _ store) as [store' r] eqn:Hd. assert (objects store' !! k = objects store !! k) as Hsame
    by (by eapply delete_keeps).
  destruct (is_ok r); [done|]. by rewrite one_by_one_keeps.
Qed.

Lemma check_Ok terms delay :
  0 <= metadata_staleness_ms terms -> 0 <= fetch_duration_ms terms -> 0 <= clock_skew_ms terms -> delay <= i64_max ->
  GcTerms_check terms delay = Ok tt ->
  metadata_staleness_ms terms + fetch_duration_ms terms + clock_skew_ms terms < delay.
Proof.
  intros H1 H2 H3 Hd. unfold GcTerms_check, GcTerms_bound. destruct (_ <? delay) eqn:Hlt; [|done]. zbool. intros _. mlia.
Qed.

(** What is assumed of the clocks: events come in the order of real time, and
    between two sweeps the deleter's clock moves no further than real time does,
    but for the skew. *)
Record gc_world (skew : Z) (es : list LcEvent) : Prop := {
  gw_clocks : clocks_ok es;
  gw_order : StronglySorted sooner es;
  gw_skew : forall t n t' n', LcSweep t n ∈ es -> LcSweep t' n' ∈ es -> n' - n <= t' - t + skew;
}.

(** C20. Garbage collection takes nothing a reader can still reach.  In any run of
    releases and sweeps by a lifecycle whose delay passed its startup check,
    over any store: if a sweep removes or changes an object, then every read
    that found the object in an index view at most the staleness bound old when
    it started, and that lasts at most the fetch bound, is over before the
    sweep.  Assumed: events come in the order of real time, the deleter's clock
    gains at most the skew bound on real time between two sweeps, and an object
    that has been released (the index had named it, and dropped a reference) is
    not referenced again once it is found unreferenced. *)
Theorem gc_spares_readers {S} `{ObjectStoreLaws S} at_time terms delay lc0 store0 es time now lc store key object
    view start finish :
  Lifecycle_new delay terms = Ok lc0 -> delay <= i64_max ->
  0 <= metadata_staleness_ms terms -> 0 <= fetch_duration_ms terms -> 0 <= clock_skew_ms terms ->
  lc_run at_time (lc0, store0) es = (lc, store) ->
  gc_world (clock_skew_ms terms) (es ++ [LcSweep time now]) ->
  (forall released t t', LcRelease released key ∈ es -> released <= t <= t' ->
     unreferenced at_time t key -> unreferenced at_time t' key) ->
  objects store !! key = Some object ->
  objects (lc_sweep lc (at_time time) store now).1.2 !! key <> Some object ->
  start <= view + metadata_staleness_ms terms -> finish <= start + fetch_duration_ms terms ->
  ~ unreferenced at_time view key -> finish < time.
Proof.
  intros Hnew Hmax H1 H2 H3 Hrun [Hclk Hord Hskew] Hstays Hobj Hgone Hview Hfin Href.
  unfold Lifecycle_new in Hnew. destruct (GcTerms_check terms delay) as [[]|e|] eqn:Hcheck; [|done|done].
  simpl in Hnew. injection Hnew as <-. apply check_Ok in Hcheck; [|done..].
  assert (forall e, e ∈ LcSweep time now :: reverse es -> e ∈ es ++ [LcSweep time now]) as Hsub.
  { intros e. rewrite elem_of_cons, elem_of_reverse, elem_of_app, list_elem_of_singleton. tauto. }
  assert (forall e, e ∈ es -> event_time e <= time) as Hlast.
  { intros e He. apply (StronglySorted_app_1_elem_of sooner _ _ e (LcSweep time now) Hord); [done|by apply list_elem_of_singleton]. }
  destruct (run_inv at_time es [] (mkLifecycle delay ∅ [] ∅ ∅ [], store0)) as [Hinv Hd].
  { intros t n Hin. apply (Hclk t n), Hsub. rewrite app_nil_r in Hin. set_solver. }
  { simpl. by apply StronglySorted_app_1_l in Hord. }
  { split; simpl; [by intros..|set_solver]. }
  rewrite app_nil_r in Hinv. rewrite Hrun in Hinv, Hd. simpl in Hinv, Hd.
  destruct (sweep_inv at_time (reverse es) lc time now store) as (_ & _ & Hbatch); [|  |done|].
  { intros t n Hin. by apply (Hclk t n), Hsub. }
  { apply Forall_forall. intros e He. rewrite elem_of_reverse in He. exact (Hlast e He). }
  rewrite Hd in Hbatch. assert (key ∈ sweep_batch at_time lc time now) as Hin.
  { destruct (decide (key ∈ sweep_batch at_time lc time now)) as [|Hout]; [done|]. by rewrite sweep_keeps in Hgone. }
  rewrite Forall_forall in Hbatch.
  destruct (Hbatch _ Hin) as (t0 & since & later & n & (Hi & Hz & released & Hrel & Hrt) & Hj & Hdelay).
  assert (view < t0) as Hv.
  { destruct (Z.lt_ge_cases view t0) as [|Hge]; [done|]. exfalso. apply Href, (Hstays released t0); [|lia|done].
    apply elem_of_cons in Hrel as [|Hrel]; [done|by rewrite elem_of_reverse in Hrel]. }
  pose proof (Hskew _ _ _ _ (Hsub _ Hi) (Hsub _ Hj)). assert (later <= time); [|lia].
  apply elem_of_cons in Hj as [[= -> _]|Hj]; [lia|]. rewrite elem_of_reverse in Hj. exact (Hlast _ Hj).
Qed.

(** ** A run *)

Definition demo_named : IndexState :=
  match IndexState_apply IndexState_new
    [mkMetadataEntry 1 (BatchCommitted "o" [mkCommittedSpan "t" 0 2 (Bounded 0 10) None] 7)] with
  | Ok s => s
  | _ => IndexState_new
  end.
(** The object is committed at 50, and the index drops it at 90. *)
Definition demo_index (time : Z) : IndexState := if (50 <=? time) && (time <? 90) then demo_named else IndexState_new.
Definition demo_store : FakeObjectStore := (os_put "o" [1] None FakeObjectStore_new).1.
Definition demo_events : list LcEvent := [LcSweep 10 10; LcRelease 90 "o"; LcSweep 100 100].
Definition demo_lc : Lifecycle := mkLifecycle DELETION_DELAY_MS ∅ [] ∅ ∅ [].

Lemma demo_stays released t t' :
  LcRelease released "o" ∈ demo_events -> released <= t <= t' -> unreferenced demo_index t "o" -> unreferenced demo_index t' "o".
Proof.
  intros [|[[= ->]|[|[]%elem_of_nil]%elem_of_cons]%elem_of_cons]%elem_of_cons; try done. intros Hle _.
  unfold unreferenced, demo_index. by rewrite (proj2 (Z.ltb_ge t' 90)), andb_false_r by lia.
Qed.

Lemma demo_gc_world : gc_world MAX_CLOCK_SKEW_MS (demo_events ++ [LcSweep 700200 700200]).
Proof.
  assert (forall t n, LcSweep t n ∈ demo_events ++ [LcSweep 700200 700200] -> n = t /\ 0 <= t <= 700200) as Hs.
  { intros t n. unfold demo_events. rewrite elem_of_app, !elem_of_cons, !elem_of_nil.
    intros [[[= -> ->]|[?|[[= -> ->]|[]]]]|[[= -> ->]|[]]]; [lia|done|lia|lia]. }
  split.
  - intros t n [-> ?]%Hs. mlia.
  - repeat constructor; vm_compute; congruence.
  - unfold MAX_CLOCK_SKEW_MS. intros t n t' n' [-> _]%Hs [-> _]%Hs. lia.
Qed.

Lemma gc_spares_readers_witness : 245089 < 700200.
Proof.
  apply (gc_spares_readers (S := FakeObjectStore) demo_index GcTerms_CONFIGURED DELETION_DELAY_MS demo_lc demo_store demo_events
    700200 700200 (lc_run demo_index (demo_lc, demo_store) demo_events).1
    (lc_run demo_index (demo_lc, demo_store) demo_events).2 "o" ([1], token_for_generation 1) 89 5089 245089).
  - vm_compute; reflexivity.
  - vm_compute; congruence.
  - vm_compute; congruence.
  - vm_compute; congruence.
  - vm_compute; congruence.
  - by destruct (lc_run _ _ _).
  - exact demo_gc_world.
  - exact demo_stays.
  - vm_compute; reflexivity.
  - vm_compute; congruence.
  - vm_compute; congruence.
  - vm_compute; congruence.
  - vm_compute; congruence.
Defined.
