(* ===== verification/Retention.v ===== *)
(** * Retention: which partitions have expired

    Models [oqueue-compact]'s [retention.rs]: the heap of deadlines a retention
    round pops from.  The [BTreeSet]s are finite sets whose least element, or
    whose elements in order, the code takes; a hash map's keys are visited in
    any order. *)

From stdpp Require Import base tactics list numbers strings gmap sorting.
From Stdlib Require Import ZArith Lia.
From S2P Require Import Prelude Types Partition IndexFold.

Open Scope Z_scope.

Definition DEFAULT_RETENTION_MS : Z := 604800000.

Notation DueKey := (Z * string * Z)%type (only parsing).

Record ExpiryHeap : Type := mkExpiryHeap {
  eh_due : gset (Z * string * Z);
  eh_armed : gmap (string * Z) Z;
  eh_topics : gset string;
  eh_retention_ms : Z;
  eh_topic_retention_ms : gmap string Z;
  eh_popped : nat;
}.

Definition ExpiryHeap_new (retention_ms : Z) : ExpiryHeap := mkExpiryHeap ∅ ∅ ∅ retention_ms ∅ 0.

Definition eh_deadline (self : ExpiryHeap) (index : IndexState) (topic : TopicId) (partition : PartitionId) : option Z :=
  match IndexState_time_span index topic partition with
  | None => None
  | Some span =>
      if ts_max span =? 0 then None
      else i64_checked_add (ts_max span) (default (eh_retention_ms self) (eh_topic_retention_ms self !! topic))
  end.

Definition eh_track (self : ExpiryHeap) (index : IndexState) (topic : TopicId) (partition : PartitionId) : ExpiryHeap :=
  match eh_armed self !! (topic, partition) with
  | Some _ => self
  | None =>
      match eh_deadline self index topic partition with
      | Some deadline =>
          mkExpiryHeap ({[(deadline, topic, partition)]} ∪ eh_due self)
            (<[(topic, partition) := deadline]> (eh_armed self)) ({[topic]} ∪ eh_topics self)
            (eh_retention_ms self) (eh_topic_retention_ms self) (eh_popped self)
      | None => self
      end
  end.

Definition eh_rebuilt (index : IndexState) (partitions : list (TopicId * PartitionId)) (retention_ms : Z) : ExpiryHeap :=
  foldl (fun heap tp => eh_track heap index tp.1 tp.2) (ExpiryHeap_new retention_ms) partitions.

(** Takes a partition out of both structures. *)
Definition eh_disarm (self : ExpiryHeap) (topic : TopicId) (partition : PartitionId) : ExpiryHeap :=
  match eh_armed self !! (topic, partition) with
  | Some deadline =>
      mkExpiryHeap (eh_due self ∖ {[(deadline, topic, partition)]}) (delete (topic, partition) (eh_armed self))
        (eh_topics self) (eh_retention_ms self) (eh_topic_retention_ms self) (eh_popped self)
  | None => self
  end.

(** The partitions of a topic that are armed. *)
Definition armed_of (self : ExpiryHeap) (topic : TopicId) : list PartitionId :=
  map snd (List.filter (fun k => bool_decide (k.1 = topic)) (map fst (map_to_list (eh_armed self)))).

Definition eh_set_topic_retention (self : ExpiryHeap) (index : IndexState) (topic : TopicId) (retention_ms : option Z)
    : ExpiryHeap :=
  let changed := match retention_ms with
                 | Some value => negb (bool_decide (eh_topic_retention_ms self !! topic = Some value))
                 | None => bool_decide (is_Some (eh_topic_retention_ms self !! topic))
                 end in
  if negb changed then self
  else
    let overrides := match retention_ms with
                     | Some value => <[topic := value]> (eh_topic_retention_ms self)
                     | None => delete topic (eh_topic_retention_ms self)
                     end in
    let self := mkExpiryHeap (eh_due self) (eh_armed self) (eh_topics self) (eh_retention_ms self) overrides
      (eh_popped self) in
    foldl (fun heap partition => eh_track (eh_disarm heap topic partition) index topic partition) self
      (armed_of self topic).

Definition eh_len (self : ExpiryHeap) : nat := size (eh_due self).

(** [BTreeSet]'s order. *)
Definition due_cmp (a b : Z * string * Z) : comparison :=
  let '(d1, t1, p1) := a in
  let '(d2, t2, p2) := b in
  match Z.compare d1 d2 with
  | Eq => match String.compare t1 t2 with Eq => Z.compare p1 p2 | c => c end
  | c => c
  end.

Definition least (l : list (Z * string * Z)) : option (Z * string * Z) :=
  foldr (fun e best =>
    match best with
    | None => Some e
    | Some b => match due_cmp e b with Gt => Some b | _ => Some e end
    end) None l.

Definition first_due (self : ExpiryHeap) : option (Z * string * Z) := least (elements (eh_due self)).

Definition eh_topics_sorted (self : ExpiryHeap) : list TopicId := merge_sort String.le (elements (eh_topics self)).

Definition eh_topics_upto (self : ExpiryHeap) (limit : nat) : list TopicId := take limit (eh_topics_sorted self).

Definition topics_after (self : ExpiryHeap) (after : option TopicId) (limit : nat) : list TopicId :=
  let topics := match after with
                | Some topic => take limit (List.filter (fun t => negb (String.leb t topic)) (eh_topics_sorted self))
                | None => take limit (eh_topics_sorted self)
                end in
  if (length topics <? limit)%nat && bool_decide (is_Some after)
  then topics ++ take (limit - length topics) (eh_topics_sorted self)
  else topics.

(** ** A round *)

(** The heap, the trims so far and the partitions to arm again. *)
Record DueLoop : Type := mkDueLoop {
  dl_heap : ExpiryHeap;
  dl_trims : list MetadataRecord;
  dl_rearm : list (TopicId * PartitionId);
}.

(** [self.due.remove(..)] and the count. *)
Definition pop (self : ExpiryHeap) (e : Z * string * Z) : ExpiryHeap :=
  mkExpiryHeap (eh_due self ∖ {[e]}) (eh_armed self) (eh_topics self) (eh_retention_ms self)
    (eh_topic_retention_ms self) (S (eh_popped self)).

(** [self.armed.remove(..)], and the topic with its last partition. *)
Definition unarm (self : ExpiryHeap) (topic : TopicId) (partition : PartitionId) : ExpiryHeap :=
  let armed := delete (topic, partition) (eh_armed self) in
  let last := negb (existsb (fun k => bool_decide (k.1 = topic)) (map fst (map_to_list armed))) in
  mkExpiryHeap (eh_due self) armed (if last then eh_topics self ∖ {[topic]} else eh_topics self) (eh_retention_ms self)
    (eh_topic_retention_ms self) (eh_popped self).

Definition due_one (index : IndexState) (st : DueLoop) (e : Z * string * Z) : DueLoop :=
  let '(pushed, topic, partition) := e in
  let heap := pop (dl_heap st) e in
  if negb (bool_decide (eh_armed heap !! (topic, partition) = Some pushed))
  then mkDueLoop heap (dl_trims st) (dl_rearm st)
  else if bool_decide (eh_deadline heap index topic partition = Some pushed) then
    let end_ := IndexState_end_offset index topic partition in
    mkDueLoop (unarm heap topic partition)
      (if IndexState_log_start index topic partition <? end_ then dl_trims st ++ [Trimmed topic partition end_]
       else dl_trims st) (dl_rearm st)
  else mkDueLoop (unarm heap topic partition) (dl_trims st) (dl_rearm st ++ [(topic, partition)]).

Fixpoint due_loop (fuel : nat) (index : IndexState) (now : Timestamp) (st : DueLoop) : DueLoop :=
  match fuel with
  | 0%nat => st
  | S fuel =>
      match first_due (dl_heap st) with
      | None => st
      | Some e => if now <? e.1.1 then st else due_loop fuel index now (due_one index st e)
      end
  end.

(** Every turn of the loop takes an entry out, so as many turns as there are
    entries are enough. *)
Definition eh_due_at (self : ExpiryHeap) (index : IndexState) (now : Timestamp) : ExpiryHeap * list MetadataRecord :=
  let heap := mkExpiryHeap (eh_due self) (eh_armed self) (eh_topics self) (eh_retention_ms self)
    (eh_topic_retention_ms self) 0 in
  let st := due_loop (size (eh_due self)) index now (mkDueLoop heap [] []) in
  (foldl (fun heap tp => eh_track heap index tp.1 tp.2) (dl_heap st) (dl_rearm st), dl_trims st).

(** * Retention trims what has expired, and forgets nothing else *)

(** ** The invariant *)

(** One entry per armed partition, at its deadline. *)
Record heap_inv (h : ExpiryHeap) : Prop := {
  hi_due : forall d t p, (d, t, p) ∈ eh_due h <-> eh_armed h !! (t, p) = Some d;
  hi_topics : forall t p, is_Some (eh_armed h !! (t, p)) -> t ∈ eh_topics h;
}.

(** The settings a round does not change. *)
Definition same_settings (h h' : ExpiryHeap) : Prop :=
  eh_retention_ms h' = eh_retention_ms h /\ eh_topic_retention_ms h' = eh_topic_retention_ms h.

Lemma deadline_settings h h' index t p : same_settings h h' -> eh_deadline h' index t p = eh_deadline h index t p.
Proof. intros [H1 H2]. unfold eh_deadline. by rewrite H1, H2. Qed.

Lemma new_inv retention_ms : heap_inv (ExpiryHeap_new retention_ms).
Proof. split; simpl; [set_solver|]. by intros t p [? ?]. Qed.

Lemma track_inv h index t p : heap_inv h -> heap_inv (eh_track h index t p).
Proof.
  intros [Hd Ht]. unfold eh_track. destruct (eh_armed h !! (t, p)) eqn:Ha; [done|].
  destruct (eh_deadline h index t p) as [deadline|]; [|done]. split; simpl.
  - intros d t' p'. rewrite elem_of_union, elem_of_singleton, lookup_insert_Some, Hd. split.
    + intros [[= -> -> ->]|Hin]; [by left|]. right. split; [|done]. intros [= <- <-]. congruence.
    + intros [[[= -> ->] ->]|[_ Hin]]; [by left|by right].
  - intros t' p' [x [[[= -> ->] _]|[_ Hx]]%lookup_insert_Some]; [set_solver|].
    apply elem_of_union_r, (Ht t' p'). by eexists.
Qed.

Lemma track_settings h index t p : same_settings h (eh_track h index t p).
Proof. unfold eh_track. repeat case_match; done. Qed.

Lemma disarm_inv h t p : heap_inv h -> heap_inv (eh_disarm h t p).
Proof.
  intros [Hd Ht]. unfold eh_disarm. destruct (eh_armed h !! (t, p)) as [deadline|] eqn:Ha; [|done]. split; simpl.
  - intros d t' p'. rewrite elem_of_difference, elem_of_singleton, lookup_delete_Some, Hd. split.
    + intros [Hin Hne]. split; [|done]. intros [= <- <-]. apply Hne. congruence.
    + intros [Hne Hin]. split; [done|]. by intros [= -> -> ->].
  - intros t' p' [x Hx%lookup_delete_Some]. apply (Ht t' p'). exists x. apply Hx.
Qed.

(** Changing a topic's retention keeps the heap consistent. *)
Lemma set_topic_retention_inv h index t r : heap_inv h -> heap_inv (eh_set_topic_retention h index t r).
Proof.
  intros Hi. unfold eh_set_topic_retention. destruct (negb _); [done|].
  set (h1 := mkExpiryHeap _ _ _ _ _ _). assert (heap_inv h1) as Hi1 by (by destruct Hi).
  generalize (armed_of h1 t). intros ps. clearbody h1. revert h1 Hi1. induction ps as [|p ps IH]; intros h1 Hi1; simpl; [done|].
  apply IH. by apply track_inv, disarm_inv.
Qed.

(** ** The least entry *)

Lemma least_spec l :
  match least l with
  | None => l = []
  | Some e => e ∈ l /\ forall e', e' ∈ l -> e.1.1 <= e'.1.1
  end.
Proof.
  induction l as [|e l IH]; simpl; [done|]. destruct (least l) as [b|].
  - destruct IH as [Hb Hle]. destruct e as [[d1 t1] p1], b as [[d2 t2] p2]. simpl in *.
    destruct (Z.compare_spec d1 d2) as [->|Hlt|Hgt].
    + assert (forall c, match c with Gt => Some (d2, t2, p2) | _ => Some (d2, t1, p1) end = Some (d2, t2, p2) \/
        match c with Gt => Some (d2, t2, p2) | _ => Some (d2, t1, p1) end = Some (d2, t1, p1)) as Hc
        by (intros []; auto).
      match goal with |- context [match ?c with Eq => _ | Lt => _ | Gt => _ end] => destruct (Hc c) as [->| ->] end;
        (split; [set_solver|]); intros e' [->|He']%elem_of_cons; simpl; try lia; by apply (Hle e').
    + split; [set_solver|]. intros e' [->|He']%elem_of_cons; simpl; [lia|]. specialize (Hle _ He'). lia.
    + split; [set_solver|]. intros e' [->|He']%elem_of_cons; simpl; [lia|]. by apply Hle.
  - subst l. split; [set_solver|]. intros e' ->%list_elem_of_singleton. lia.
Qed.

Lemma first_due_None h : first_due h = None -> eh_due h = ∅.
Proof.
  unfold first_due. pose proof (least_spec (elements (eh_due h))) as Hl. intros Hn. rewrite Hn in Hl.
  by apply elements_empty_inv in Hl; apply leibniz_equiv.
Qed.

Lemma first_due_Some h e : first_due h = Some e -> e ∈ eh_due h /\ forall e', e' ∈ eh_due h -> e.1.1 <= e'.1.1.
Proof.
  unfold first_due. pose proof (least_spec (elements (eh_due h))) as Hl. intros He. rewrite He in Hl.
  destruct Hl as [Hin Hle]. split; [by apply elem_of_elements|]. intros e' He'. by apply Hle, elem_of_elements.
Qed.

(** ** A round *)

Section round.
Context (index : IndexState) (now : Z) (h0 : ExpiryHeap).
Hypothesis inv0 : heap_inv h0.

Notation deadline t p := (eh_deadline h0 index t p).

(** A partition the round acted on: expired, and to be trimmed or armed anew. *)
Definition expired (t : TopicId) (p : PartitionId) (d : Z) : Prop := eh_armed h0 !! (t, p) = Some d /\ d <= now.
Definition unread (t : TopicId) (p : PartitionId) : bool :=
  IndexState_log_start index t p <? IndexState_end_offset index t p.
Definition trim_of (t : TopicId) (p : PartitionId) : MetadataRecord := Trimmed t p (IndexState_end_offset index t p).

Record loop_inv (st : DueLoop) : Prop := {
  lo_heap : heap_inv (dl_heap st);
  lo_settings : same_settings h0 (dl_heap st);
  lo_armed : eh_armed (dl_heap st) ⊆ eh_armed h0;
  lo_left : forall t p d, eh_armed h0 !! (t, p) = Some d -> eh_armed (dl_heap st) !! (t, p) = None ->
    d <= now /\
    (deadline t p = Some d -> (trim_of t p ∈ dl_trims st <-> unread t p = true)) /\
    (deadline t p <> Some d -> (t, p) ∈ dl_rearm st);
  lo_trims : forall r, r ∈ dl_trims st -> exists t p d, r = trim_of t p /\ expired t p d /\ deadline t p = Some d /\
    unread t p = true /\ eh_armed (dl_heap st) !! (t, p) = None;
  lo_rearm : forall t p, (t, p) ∈ dl_rearm st -> exists d, expired t p d /\ deadline t p <> Some d /\
    eh_armed (dl_heap st) !! (t, p) = None;
  lo_trims_once : NoDup (dl_trims st);
  lo_rearm_once : NoDup (dl_rearm st);
}.

(** A popped entry's partition leaves the heap. *)
Lemma unarm_inv h t p d :
  heap_inv h -> eh_armed h !! (t, p) = Some d -> heap_inv (unarm (pop h (d, t, p)) t p).
Proof.
  intros [Hd Ht] Ha. split; simpl.
  - intros d' t' p'. rewrite elem_of_difference, elem_of_singleton, lookup_delete_Some, Hd. split.
    + intros [Hin Hne]. split; [|done]. intros [= <- <-]. apply Hne. congruence.
    + intros [Hne Hin]. split; [done|]. by intros [= -> -> ->].
  - intros t' p' [x Hx]. pose proof Hx as Hx'. apply lookup_delete_Some in Hx' as [Hne Hx'].
    assert (t' ∈ eh_topics h) as Hin by (apply (Ht t' p'); by eexists).
    destruct (negb _) eqn:Hlast; [|done]. apply elem_of_difference. split; [done|]. intros ->%elem_of_singleton.
    apply negb_true_iff, not_true_iff_false in Hlast. apply Hlast, existsb_exists. exists (t, p').
    split; [|by apply bool_decide_eq_true]. apply in_map_iff. exists ((t, p'), x). split; [done|].
    by apply list_elem_of_In, elem_of_map_to_list.
Qed.

Lemma due_one_inv st e :
  loop_inv st -> e ∈ eh_due (dl_heap st) -> e.1.1 <= now ->
  loop_inv (due_one index st e) /\ eh_due (dl_heap (due_one index st e)) = eh_due (dl_heap st) ∖ {[e]}.
Proof.
  intros [Ih Is Ia Il It Ir Nt Nr] Hin Hle. destruct e as [[d t] p]. simpl in Hle.
  pose proof (proj1 (hi_due _ Ih d t p) Hin) as Hd.
  assert (eh_armed h0 !! (t, p) = Some d) as Hd0 by (by eapply lookup_weaken).
  unfold due_one. cbn [eh_armed pop]. rewrite bool_decide_eq_true_2 by done. cbn [negb].
  assert (eh_deadline (pop (dl_heap st) (d, t, p)) index t p = deadline t p) as Hdl by (by apply deadline_settings).
  rewrite Hdl.
  assert (forall t' p' d', eh_armed h0 !! (t', p') = Some d' -> delete (t, p) (eh_armed (dl_heap st)) !! (t', p') = None ->
    (t', p') = (t, p) \/ eh_armed (dl_heap st) !! (t', p') = None) as Hcases.
  { intros t' p' d' H0 [Heq|Hn]%lookup_delete_None; [by left|by right]. }
  pose proof (unarm_inv _ _ _ _ Ih Hd) as Ih'.
  assert (delete (t, p) (eh_armed (dl_heap st)) ⊆ eh_armed h0) as Ia' by (etrans; [apply delete_subseteq|done]).
  assert (forall t' p', eh_armed (dl_heap st) !! (t', p') = None -> delete (t, p) (eh_armed (dl_heap st)) !! (t', p') = None)
    as Hnone by (intros t' p' Hn; apply lookup_delete_None; by right).
  assert (forall r, r ∈ dl_trims st -> r <> trim_of t p) as Hfresh_t.
  { intros r Hr ->. destruct (It _ Hr) as (t' & p' & d' & Heq & _ & _ & _ & Hn). unfold trim_of in Heq.
    injection Heq as <- <- _. congruence. }
  assert ((t, p) ∉ dl_rearm st) as Hfresh_r.
  { intros Hr. destruct (Ir _ _ Hr) as (d' & _ & _ & Hn). congruence. }
  case_bool_decide as Hdue.
  - destruct (IndexState_log_start index t p <? IndexState_end_offset index t p) eqn:Hun; (split; [split; simpl|done]); try done.
    + intros t' p' d' H0 Hn. destruct (Hcases _ _ _ H0 Hn) as [[= -> ->]|Hn'].
      * assert (d' = d) as -> by congruence. split; [done|]. split; [|done]. intros _. split; [done|]. intros _. set_solver.
      * destruct (Il _ _ _ H0 Hn') as (A & B & C). split; [done|]. split; [|done]. intros Hs. rewrite <-(B Hs).
        rewrite elem_of_app, list_elem_of_singleton. split; [|by left]. intros [?|Heq]; [done|].
        unfold trim_of in Heq. injection Heq as <- <- _. congruence.
    + intros r [Hr| ->%list_elem_of_singleton]%elem_of_app.
      * destruct (It _ Hr) as (t' & p' & d' & A & B & C & D & E). exists t', p', d'. split_and!; try done. by apply Hnone.
      * exists t, p, d. split_and!; try done. apply lookup_delete_eq.
    + intros t' p' Hr. destruct (Ir _ _ Hr) as (d' & A & B & C). exists d'. split_and!; try done. by apply Hnone.
    + apply NoDup_app. split; [done|]. split; [|apply NoDup_singleton]. intros r Hr ->%list_elem_of_singleton. by apply (Hfresh_t _ Hr).
    + intros t' p' d' H0 Hn. destruct (Hcases _ _ _ H0 Hn) as [[= -> ->]|Hn']; [|by apply Il].
      assert (d' = d) as -> by congruence. split; [done|]. split; [|done]. intros _. unfold unread. rewrite Hun.
      split; [|done]. intros Hr. by destruct (Hfresh_t _ Hr).
    + intros r Hr. destruct (It _ Hr) as (t' & p' & d' & A & B & C & D & E). exists t', p', d'. split_and!; try done. by apply Hnone.
    + intros t' p' Hr. destruct (Ir _ _ Hr) as (d' & A & B & C). exists d'. split_and!; try done. by apply Hnone.
  - split; [split; simpl|done]; try done.
    + intros t' p' d' H0 Hn. destruct (Hcases _ _ _ H0 Hn) as [[= -> ->]|Hn'].
      * assert (d' = d) as -> by congruence. split; [done|]. split; [done|]. intros _. set_solver.
      * destruct (Il _ _ _ H0 Hn') as (A & B & C). split_and!; [done..|]. intros Hs. apply elem_of_app. left. auto.
    + intros r Hr. destruct (It _ Hr) as (t' & p' & d' & A & B & C & D & E). exists t', p', d'. split_and!; try done. by apply Hnone.
    + intros t' p' [Hr|[= -> ->]%list_elem_of_singleton]%elem_of_app.
      * destruct (Ir _ _ Hr) as (d' & A & B & C). exists d'. split_and!; try done. by apply Hnone.
      * exists d. split_and!; [done|done|apply lookup_delete_eq].
    + apply NoDup_app. split; [done|]. split; [|apply NoDup_singleton]. intros k Hk ->%list_elem_of_singleton. done.
Qed.

(** The loop ends with nothing due left in the heap. *)
Lemma due_loop_inv fuel st :
  loop_inv st -> (size (eh_due (dl_heap st)) <= fuel)%nat ->
  loop_inv (due_loop fuel index now st) /\
  forall e, e ∈ eh_due (dl_heap (due_loop fuel index now st)) -> now < e.1.1.
Proof.
  revert st. induction fuel as [|fuel IH]; intros st Hi Hsz; cbn [due_loop].
  { split; [done|]. intros e He. assert (eh_due (dl_heap st) = ∅) as Hem; [|set_solver].
    apply leibniz_equiv, size_empty_inv. lia. }
  destruct (first_due (dl_heap st)) as [e|] eqn:He.
  - apply first_due_Some in He as [Hin Hmin]. destruct (now <? e.1.1) eqn:Hlt; zbool.
    + split; [done|]. intros e' He'. specialize (Hmin _ He'). lia.
    + destruct (due_one_inv st e Hi Hin Hlt) as [Hi' Hdue]. apply IH; [done|]. rewrite Hdue, size_difference by set_solver.
      rewrite size_singleton. lia.
  - split; [done|]. intros e' He'. apply first_due_None in He. set_solver.
Qed.
End round.

(** Arming again, each partition once. *)
Lemma foldl_track index h0 ks h :
  heap_inv h -> same_settings h0 h -> NoDup ks -> (forall t p, (t, p) ∈ ks -> eh_armed h !! (t, p) = None) ->
  let h' := foldl (fun heap tp => eh_track heap index tp.1 tp.2) h ks in
  heap_inv h' /\ same_settings h0 h' /\
  forall t p, eh_armed h' !! (t, p) = if decide ((t, p) ∈ ks) then eh_deadline h0 index t p else eh_armed h !! (t, p).
Proof.
  revert h. induction ks as [|[t p] ks IH]; intros h Hi Hs Hnd Hnone; simpl; [done|].
  apply NoDup_cons in Hnd as [Hnew Hnd].
  assert (eh_armed (eh_track h index t p) !! (t, p) = eh_deadline h0 index t p /\
    forall t' p', (t', p') <> (t, p) -> eh_armed (eh_track h index t p) !! (t', p') = eh_armed h !! (t', p')) as [Ht Hold].
  { unfold eh_track. rewrite Hnone by set_solver. rewrite (deadline_settings h0 h) by done.
    destruct (eh_deadline h0 index t p) as [d|]; simpl; [|split; [apply Hnone; set_solver|done]].
    split; [apply lookup_insert_eq|]. intros t' p' Hne. by apply lookup_insert_ne. }
  destruct (IH (eh_track h index t p)) as (A & B & C); [by apply track_inv| |done| |].
  { destruct Hs as [E1 E2], (track_settings h index t p) as [F1 F2]. split; congruence. }
  { intros t' p' Hin. rewrite Hold; [apply Hnone; set_solver|]. intros [= -> ->]. done. }
  split_and!; [done..|]. intros t' p'. rewrite C. destruct (decide ((t', p') = (t, p))) as [[= -> ->]|Hne].
  - rewrite (decide_False (P := (t, p) ∈ ks)) by done. rewrite decide_True by set_solver. done.
  - destruct (decide ((t', p') ∈ ks)); [by rewrite decide_True by set_solver|].
    rewrite decide_False by set_solver. by apply Hold.
Qed.

(** ** Heaps in use *)

Inductive heap_reachable : ExpiryHeap -> Prop :=
| hr_new retention_ms : heap_reachable (ExpiryHeap_new retention_ms)
| hr_track h index t p : heap_reachable h -> heap_reachable (eh_track h index t p)
| hr_set h index t r : heap_reachable h -> heap_reachable (eh_set_topic_retention h index t r)
| hr_due h index now : heap_reachable h -> heap_reachable (eh_due_at h index now).1.

Lemma start_inv index now h :
  heap_inv h -> loop_inv index now h (mkDueLoop (mkExpiryHeap (eh_due h) (eh_armed h) (eh_topics h) (eh_retention_ms h)
    (eh_topic_retention_ms h) 0) [] []).
Proof. intros [Hd Ht]. split; simpl; try done; try set_solver; try constructor. Qed.

(** What a round does to each partition. *)
Lemma due_round h index now :
  heap_inv h ->
  let h' := (eh_due_at h index now).1 in let trims := (eh_due_at h index now).2 in
  heap_inv h' /\ NoDup trims /\
  (forall r, r ∈ trims <-> exists t p d, r = trim_of index t p /\ eh_armed h !! (t, p) = Some d /\ d <= now /\
     eh_deadline h index t p = Some d /\ unread index t p = true) /\
  (forall t p, eh_armed h' !! (t, p) =
     match eh_armed h !! (t, p) with
     | Some d => if now <? d then Some d
                 else if bool_decide (eh_deadline h index t p = Some d) then None else eh_deadline h index t p
     | None => None
     end).
Proof.
  intros Hi. unfold eh_due_at. set (st0 := mkDueLoop _ [] []).
  destruct (due_loop_inv index now h Hi (size (eh_due h)) st0 (start_inv index now h Hi)) as [[Ih Is Ia Il It Ir Nt Nr] Hleft];
    [done|]. set (st := due_loop _ index now st0) in *. cbn [fst snd].
  destruct (foldl_track index h (dl_rearm st) (dl_heap st) Ih Is Nr) as (A & B & C).
  { intros t p Hin. by destruct (Ir _ _ Hin) as (d & _ & _ & ?). }
  split_and!; [done|done| |].
  - intros r. split.
    + intros Hr. destruct (It _ Hr) as (t & p & d & -> & [Hd Hle] & Hdl & Hun & _). by exists t, p, d.
    + intros (t & p & d & -> & Hd & Hle & Hdl & Hun). destruct (eh_armed (dl_heap st) !! (t, p)) as [d'|] eqn:Ha.
      * assert (d' = d) as -> by (apply (lookup_weaken _ _ _ _ Ha) in Ia; congruence).
        apply (hi_due _ Ih) in Ha. specialize (Hleft _ Ha). simpl in Hleft. lia.
      * destruct (Il _ _ _ Hd Ha) as (_ & Ht & _). by apply Ht.
  - intros t p. rewrite C. destruct (eh_armed h !! (t, p)) as [d|] eqn:Hd.
    + destruct (eh_armed (dl_heap st) !! (t, p)) as [d'|] eqn:Ha.
      * assert (d' = d) as -> by (pose proof (lookup_weaken _ _ _ _ Ha Ia); congruence).
        pose proof Ha as Hin. apply (hi_due _ Ih) in Hin. specialize (Hleft _ Hin). simpl in Hleft.
        rewrite decide_False; [by rewrite (proj2 (Z.ltb_lt now d))|].
        intros Hr. destruct (Ir _ _ Hr) as (? & _ & _ & ?). congruence.
      * destruct (Il _ _ _ Hd Ha) as (Hle & _ & Hr). rewrite (proj2 (Z.ltb_ge now d)) by done. case_bool_decide as Hdl.
        -- rewrite decide_False; [done|]. intros Hin. destruct (Ir _ _ Hin) as (d' & [Hd' _] & Hne & _). congruence.
        -- rewrite decide_True; [done|]. by apply Hr.
    + rewrite decide_False.
      * destruct (eh_armed (dl_heap st) !! (t, p)) as [d'|] eqn:Ha; [|done]. pose proof (lookup_weaken _ _ _ _ Ha Ia). congruence.
      * intros Hin. destruct (Ir _ _ Hin) as (d' & [Hd' _] & _). congruence.
Qed.

Lemma reachable_heap_inv h : heap_reachable h -> heap_inv h.
Proof.
  induction 1; [apply new_inv|by apply track_inv|by apply set_topic_retention_inv|by apply due_round].
Qed.

(** Retention trims exactly what has expired.  A round over any heap in use
    trims each armed partition at most once, and precisely those whose newest
    record is older than the topic's retention by the index as it is now and
    that have something to trim, each up to its end; a partition written to
    since it was armed is kept and armed at its later deadline, one that is not
    due is left armed as it was, and none else is touched. *)
Theorem retention_trims_expired h index now :
  heap_reachable h ->
  let h' := (eh_due_at h index now).1 in let trims := (eh_due_at h index now).2 in
  NoDup trims /\
  (forall r, r ∈ trims <-> exists t p span d,
     r = Trimmed t p (IndexState_end_offset index t p) /\ eh_armed h !! (t, p) = Some d /\
     IndexState_time_span index t p = Some span /\ ts_max span <> 0 /\
     d = ts_max span + default (eh_retention_ms h) (eh_topic_retention_ms h !! t) /\ in_i64 d /\ d <= now /\
     IndexState_log_start index t p < IndexState_end_offset index t p) /\
  (forall t p, eh_armed h' !! (t, p) =
     match eh_armed h !! (t, p) with
     | Some d => if now <? d then Some d
                 else if bool_decide (eh_deadline h index t p = Some d) then None else eh_deadline h index t p
     | None => None
     end).
Proof.
  intros Hr. destruct (due_round h index now (reachable_heap_inv _ Hr)) as (_ & Hnd & Htrims & Harmed).
  split; [done|]. split; [|done]. intros r. rewrite Htrims. split.
  - intros (t & p & d & -> & Ha & Hle & Hdl & Hun). unfold unread in Hun. zbool. unfold eh_deadline in Hdl.
    destruct (IndexState_time_span index t p) as [span|] eqn:Hspan; [|done].
    destruct (ts_max span =? 0) eqn:Hz; zbool; [done|]. unfold i64_checked_add in Hdl.
    destruct (_ && _) eqn:Hrange; [|done]. injection Hdl as <-. apply andb_true_iff in Hrange as [? ?]. zbool.
    exists t, p, span, (ts_max span + default (eh_retention_ms h) (eh_topic_retention_ms h !! t)).
    split_and!; try done.
  - intros (t & p & span & d & -> & Ha & Hspan & Hz & -> & [Hlo Hhi] & Hle & Hun).
    eexists t, p, _. split_and!; [done|exact Ha|done| |unfold unread; by apply Z.ltb_lt].
    unfold eh_deadline. rewrite Hspan. rewrite (proj2 (Z.eqb_neq _ _)) by done. unfold i64_checked_add.
    rewrite (proj2 (Z.leb_le _ _)), (proj2 (Z.leb_le _ _)) by done. done.
Qed.

(** ** A partition that expires *)

Definition demo_retained : IndexState :=
  match IndexState_apply IndexState_new
    [mkMetadataEntry 1 (BatchCommitted "o" [mkCommittedSpan "t" 0 2 (Bounded 0 10) None] 1000)] with
  | Ok s => s
  | _ => IndexState_new
  end.
Definition demo_heap : ExpiryHeap := eh_track (ExpiryHeap_new 500) demo_retained "t" 0.

Lemma retention_trims_expired_witness :
  let trims := (eh_due_at demo_heap demo_retained 1500).2 in
  NoDup trims /\ Trimmed "t" 0 2 ∈ trims /\ eh_armed (eh_due_at demo_heap demo_retained 1500).1 !! ("t", 0) = None.
Proof.
  destruct (retention_trims_expired demo_heap demo_retained 1500) as (H1 & H2 & H3);
    [unfold demo_heap; apply hr_track, hr_new|].
  split; [exact H1|]. split; [|rewrite H3; vm_compute; reflexivity]. apply H2.
  exists "t", 0, (mkTimeSpan 1000 1000), 1500. vm_compute. repeat split; congruence.
Defined.

(** A retention that overflows the clock takes a partition out of the heap for
    good: setting a finite one again does not arm it, although it then has a
    deadline. *)
Theorem infinite_retention_is_sticky :
  exists h index t p d, heap_reachable h /\ is_Some (eh_armed h !! (t, p)) /\
    let h1 := eh_set_topic_retention h index t (Some i64_max) in
    let h2 := eh_set_topic_retention h1 index t None in
    eh_deadline h2 index t p = Some d /\ eh_armed h2 !! (t, p) = None /\
    forall now, (eh_due_at h2 index now).2 = [].
Proof.
  exists demo_heap, demo_retained, "t", 0, 1500. split; [unfold demo_heap; apply hr_track, hr_new|].
  split; [vm_compute; eauto|]. cbv zeta. split; [vm_compute; reflexivity|]. split; [vm_compute; reflexivity|].
  intros now. vm_compute. reflexivity.
Qed.
