(* ===== verification/Compact.v ===== *)
(** * Compact: which ranges are worth compacting, and what a round takes

    Models [oqueue-compact]'s [read_amp.rs] with [walk.rs] and [survey.rs] (what
    a read of a range touches), [cost.rs], [plan.rs], [sweep.rs], [layout.rs]
    (the inputs of a plan and the checks of a round), the tiling of [merge.rs]
    and [namer.rs].  The sums of records are exact: the references a walk meets
    are disjoint, so they stay below [i64::MAX].

    A loop over pages is bounded by the offsets of its range: a turn that does
    not advance ends it.  The amplification is compared exactly, which is what
    the [f64] division does for every count below 2^49. *)

From stdpp Require Import base tactics list numbers strings gmap sorting.
From Stdlib Require Import ZArith Lia.
From S2P Require Import Prelude Types Machine Coverage Partition IndexFold.

Open Scope Z_scope.

(** ** Read amplification ([read_amp.rs], [walk.rs], [survey.rs]) *)

Definition COMPACTED_OBJECT_RECORDS : Z := 524288.

Definition objects_needed (records : Z) : Z :=
  let needed := records / COMPACTED_OBJECT_RECORDS +
    (if records mod COMPACTED_OBJECT_RECORDS =? 0 then 0 else 1) in
  if 0 <=? needed then needed else usize_max.

Record ReadAmp : Type := mkReadAmp {
  ra_objects_touched : Z;
  ra_objects_needed : Z;
  ra_records : Z;
  ra_tail_objects : Z;
  ra_first_tail_base : option Offset;
  ra_history_objects : Z;
  ra_history_records : Z;
  ra_covered : option (Offset * Offset);
}.

Definition before_tail (self : ReadAmp) : ReadAmp :=
  mkReadAmp (ra_history_objects self) (objects_needed (ra_history_records self)) (ra_history_records self) 0 None
    (ra_history_objects self) (ra_history_records self)
    (match ra_covered self, ra_first_tail_base self with
     | Some (lo, _), Some boundary => if lo <? boundary then Some (lo, boundary) else None
     | _, _ => None
     end).

(** [ratio() > f64::from(threshold)]. *)
Definition ratio_exceeds (self : ReadAmp) (threshold : Z) : bool :=
  if ra_objects_needed self =? 0 then false else threshold * ra_objects_needed self <? ra_objects_touched self.

Record Extent : Type := mkExtent {
  ex_first_base : Offset;
  ex_last_end : Offset;
  ex_records : Z;
  ex_tail : bool;
  ex_whole : bool;
}.

(** [seen] in first-seen order; [at] is the position of a key in it. *)
Record Walk : Type := mkWalk {
  wk_start : Offset;
  wk_end : Offset;
  wk_seen : list (ObjectKey * Extent);
  wk_barred : gset string;
}.

Definition Walk_over (start end_ : Offset) : Walk := mkWalk start end_ [] ∅.
Definition Walk_bar (self : Walk) (key : ObjectKey) : Walk :=
  mkWalk (wk_start self) (wk_end self) (wk_seen self) ({[key]} ∪ wk_barred self).

Definition is_tail (batch : IndexedBatch) : bool := bool_decide (is_Some (IndexedBatch_bytes batch)).

Definition widen (extent : Extent) (base object_end : Offset) (tail whole : bool) : Extent :=
  mkExtent (Z.min (ex_first_base extent) base) (Z.max (ex_last_end extent) object_end)
    (ex_records extent + (object_end - base)) (ex_tail extent || tail) (ex_whole extent && whole).

Fixpoint see (key : ObjectKey) (base object_end : Offset) (tail whole : bool) (seen : list (ObjectKey * Extent))
    : list (ObjectKey * Extent) :=
  match seen with
  | [] => [(key, mkExtent base object_end (object_end - base) tail whole)]
  | (k, extent) :: seen =>
      if String.eqb k key then (k, widen extent base object_end tail whole) :: seen
      else (k, extent) :: see key base object_end tail whole seen
  end.

Definition Walk_visit (self : Walk) (batch : IndexedBatch) : Res (Walk * option Offset) :=
  let reference := IndexedBatch_reference batch in
  let base := or_base_offset reference in
  let? object_end := ObjectRef_end_offset reference in
  let past := wk_end self <=? base in
  let whole := negb past && (wk_start self <=? base) && (object_end <=? wk_end self) in
  Ok (mkWalk (wk_start self) (wk_end self)
        (see (or_object reference) base object_end (is_tail batch) whole (wk_seen self)) (wk_barred self),
      if past then None else Some object_end).

(** One object in the loop of [finish]: the totals, or the end of the run. *)
Definition finish_one (amp : ReadAmp) (extent : Extent) : option ReadAmp :=
  let covered :=
    match ra_covered amp with
    | None => Some (ex_first_base extent, ex_last_end extent)
    | Some (low, high) => if negb (ex_first_base extent =? high) then None else Some (low, ex_last_end extent)
    end in
  match covered with
  | None => None
  | Some covered =>
      let counts_as_history := negb (ex_tail extent) && bool_decide (ra_first_tail_base amp = None) in
      Some (mkReadAmp (ra_objects_touched amp + 1) 0 (ra_records amp + ex_records extent)
        (ra_tail_objects amp + (if ex_tail extent then 1 else 0))
        (if ex_tail extent
         then Some (match ra_first_tail_base amp with
                    | Some base => Z.min base (ex_first_base extent)
                    | None => ex_first_base extent
                    end)
         else ra_first_tail_base amp)
        (ra_history_objects amp + (if counts_as_history then 1 else 0))
        (ra_history_records amp + (if counts_as_history then ex_records extent else 0))
        (Some covered))
  end.

Fixpoint finish_loop (barred : gset string) (seen : list (ObjectKey * Extent)) (amp : ReadAmp) : ReadAmp :=
  match seen with
  | [] => amp
  | (key, extent) :: seen =>
      if negb (ex_whole extent) || bool_decide (key ∈ barred) then finish_loop barred seen amp
      else match finish_one amp extent with
           | None => amp
           | Some amp => finish_loop barred seen amp
           end
  end.

Definition ReadAmp_zero : ReadAmp := mkReadAmp 0 0 0 0 None 0 0 None.

Definition Walk_finish (self : Walk) : ReadAmp :=
  let amp := finish_loop (wk_barred self) (wk_seen self) ReadAmp_zero in
  mkReadAmp (ra_objects_touched amp) (objects_needed (ra_records amp)) (ra_records amp) (ra_tail_objects amp)
    (ra_first_tail_base amp) (ra_history_objects amp) (ra_history_records amp) (ra_covered amp).

(** [for batch in &page { match walk.visit(batch)? { .. } }]. *)
Fixpoint visit_page (walk : Walk) (furthest : Offset) (page : list IndexedBatch) : Res (Walk * Offset) :=
  match page with
  | [] => Ok (walk, furthest)
  | batch :: page =>
      let? (walk, seen) := Walk_visit walk batch in
      match seen with
      | None => Ok (walk, furthest)
      | Some object_end => visit_page walk (Z.max furthest object_end) page
      end
  end.

Section index.
Context (index : IndexState) (topic : TopicId) (partition : PartitionId).

Definition bar_below (start : Offset) (walk : Walk) (probe : list IndexedBatch) : Walk :=
  foldl (fun walk batch =>
    let reference := IndexedBatch_reference batch in
    if or_base_offset reference <? start then Walk_bar walk (or_object reference) else walk) walk probe.

Fixpoint survey_loop (fuel : nat) (walk : Walk) (cursor end_ : Offset) : Res Walk :=
  match fuel with
  | 0%nat => Ok walk
  | S fuel =>
      if negb (cursor <? end_) then Ok walk
      else
        let? page := find_batches index topic partition cursor u64_max in
        if bool_decide (page = []) then Ok walk
        else
          let? (walk, furthest) := visit_page walk cursor page in
          if furthest <=? cursor then Ok walk else survey_loop fuel walk furthest end_
  end.

Definition survey (start end_ : Offset) : Res ReadAmp :=
  let walk := Walk_over start end_ in
  let? walk :=
    if start <? end_ then
      match Offset_new (start - 1) with
      | Ok before =>
          let? probe := (match find_batches index topic partition before u64_max with
                         | Err (BelowLogStart _ _) => find_batches index topic partition start u64_max
                         | other => other
                         end) in
          Ok (bar_below start walk probe)
      | _ => Ok walk
      end
    else Ok walk in
  let? walk := survey_loop (S (Z.to_nat (end_ - start))) walk start end_ in
  Ok (Walk_finish walk).

Definition read_amp (start end_ : Offset) : Res ReadAmp :=
  match survey start end_ with
  | Err (BelowLogStart requested log_start) =>
      if start <? log_start then let? log_start := Offset_new log_start in survey log_start end_
      else Err (BelowLogStart requested log_start)
  | other => other
  end.
End index.

(** ** Cost and plan ([cost.rs], [plan.rs]) *)

Definition COMPACTION_PLAN_RECORDS_BUDGET : Z := 524288.
Definition COMPACTION_READ_AMP_THRESHOLD : Z := 12.

Record CostEstimate : Type := mkCostEstimate {
  ce_gets : Z;
  ce_puts : Z;
  ce_records_rewritten : Z;
}.

Definition CostEstimate_of (amplification : ReadAmp) : CostEstimate :=
  mkCostEstimate (ra_objects_touched amplification) (ra_objects_needed amplification) (ra_records amplification).
Definition within_budget (self : CostEstimate) : bool := ce_records_rewritten self <=? COMPACTION_PLAN_RECORDS_BUDGET.

Record CompactionPlan : Type := mkCompactionPlan {
  cp_topic : TopicId;
  cp_partition : PartitionId;
  cp_start : Offset;
  cp_end : Offset;
  cp_amplification : ReadAmp;
}.
Definition cp_cost (self : CompactionPlan) : CostEstimate := CostEstimate_of (cp_amplification self).

Inductive Planning : Type :=
| NotWorthIt
| Deferred (cost : CostEstimate)
| Planned (plan : CompactionPlan).

Definition plan (index : IndexState) (topic : TopicId) (partition : PartitionId) (start end_ : Offset) : Res Planning :=
  let? surveyed := read_amp index topic partition start end_ in
  let amplification := match ra_first_tail_base surveyed with Some _ => before_tail surveyed | None => surveyed end in
  match ra_covered amplification with
  | None => Ok NotWorthIt
  | Some (start, end_) =>
      if negb (ratio_exceeds amplification COMPACTION_READ_AMP_THRESHOLD) then Ok NotWorthIt
      else
        let cost := CostEstimate_of amplification in
        if negb (within_budget cost) then Ok (Deferred cost)
        else Ok (Planned (mkCompactionPlan topic partition start end_ amplification))
  end.

(** ** Inputs ([layout.rs]) *)

Record PlannedInputs : Type := mkPlannedInputs { pi_plan : CompactionPlan; pi_inputs : list ObjectRef }.

(** [held.record_count().saturating_add(..)] on [u32]s. *)
Fixpoint absorb_ref (inputs : list ObjectRef) (reference : ObjectRef) : list ObjectRef :=
  match inputs with
  | [] => [reference]
  | held :: inputs =>
      if String.eqb (or_object held) (or_object reference)
      then mkObjectRef (or_object reference) (Z.min (or_base_offset held) (or_base_offset reference))
             (Z.min (or_record_count held + or_record_count reference) u32_max) :: inputs
      else held :: absorb_ref inputs reference
  end.

Fixpoint derive_page (end_ : Offset) (inputs : list ObjectRef) (furthest : Offset) (page : list IndexedBatch)
    : Res (list ObjectRef * Offset) :=
  match page with
  | [] => Ok (inputs, furthest)
  | batch :: page =>
      let reference := IndexedBatch_reference batch in
      let? object_end := ObjectRef_end_offset reference in
      if end_ <=? or_base_offset reference then Ok (inputs, furthest)
      else derive_page end_ (absorb_ref inputs reference) (Z.max furthest object_end) page
  end.

Fixpoint derive_loop (fuel : nat) (index : IndexState) (plan : CompactionPlan) (inputs : list ObjectRef) (cursor : Offset)
    : Res (list ObjectRef) :=
  match fuel with
  | 0%nat => Ok inputs
  | S fuel =>
      if negb (cursor <? cp_end plan) then Ok inputs
      else match find_batches index (cp_topic plan) (cp_partition plan) cursor u64_max with
      | Err (BelowLogStart requested log_start) =>
          if cursor <? log_start
          then let? cursor := Offset_new log_start in derive_loop fuel index plan inputs cursor
          else Err (BelowLogStart requested log_start)
      | Err e => Err e
      | Panic => Panic
      | Ok page =>
          if bool_decide (page = []) then Ok inputs
          else
            let? (inputs, furthest) := derive_page (cp_end plan) inputs cursor page in
            if furthest <=? cursor then Ok inputs else derive_loop fuel index plan inputs furthest
      end
  end.

Definition derive (index : IndexState) (plan : CompactionPlan) : Res PlannedInputs :=
  let? inputs := derive_loop (S (S (Z.to_nat (cp_end plan - cp_start plan)))) index plan [] (cp_start plan) in
  Ok (mkPlannedInputs plan inputs).

(** The order of a round. *)
Definition plan_le (left right : PlannedInputs) : Prop :=
  let l := pi_plan left in let r := pi_plan right in
  match String.compare (cp_topic l) (cp_topic r) with
  | Lt => True
  | Gt => False
  | Eq => cp_partition l < cp_partition r \/ (cp_partition l = cp_partition r /\ cp_start l <= cp_start r)
  end.
#[export] Instance plan_le_dec : RelDecision plan_le.
Proof. intros l r. unfold plan_le. destruct (String.compare _ _); apply _. Defined.

Fixpoint admissible_loop (previous : option CompactionPlan) (records : Z) (ordered : list PlannedInputs) : Res Z :=
  match ordered with
  | [] => Ok records
  | planned :: ordered =>
      let plan := pi_plan planned in
      if match previous with
         | Some last => bool_decide (cp_topic last = cp_topic plan) && (cp_partition last =? cp_partition plan) &&
                        (cp_start plan <? cp_end last)
         | None => false
         end
      then Err OverlappingCompactionPlans
      else admissible_loop (Some plan) (i64_saturating_add records (ce_records_rewritten (cp_cost plan))) ordered
  end.

Definition admissible (ordered : list PlannedInputs) : Res unit :=
  let? records := admissible_loop None 0 ordered in
  if COMPACTION_PLAN_RECORDS_BUDGET <? records
  then Err (CompactionRoundTooLarge records COMPACTION_PLAN_RECORDS_BUDGET)
  else Ok tt.

(** The check at the head of [merge_round]. *)
Definition order_round (round : list PlannedInputs) : Res (list PlannedInputs) :=
  let ordered := merge_sort plan_le round in
  let? _ := admissible ordered in Ok ordered.

(** ** Tiling ([merge.rs]) *)

Fixpoint covering_refs (plan : CompactionPlan) (ordered : list ObjectRef) : Res (list ObjectRef) :=
  match ordered with
  | [] => Ok []
  | reference :: ordered =>
      let? object_end := ObjectRef_end_offset reference in
      let? rest := covering_refs plan ordered in
      if (object_end <=? cp_start plan) || (cp_end plan <=? or_base_offset reference) then Ok rest
      else Ok (reference :: rest)
  end.

Definition tiling (plan : CompactionPlan) (inputs : list ObjectRef) : Res (list ObjectRef) :=
  let? covering := covering_refs plan (sort_by_key or_base_offset inputs) in
  let? span := contiguous_span covering in
  let covered := default (cp_start plan, cp_start plan) span in
  if negb (bool_decide (covered = (cp_start plan, cp_end plan))) then Err IndexObjectMismatch
  else Ok covering.

(** ** Sweep ([sweep.rs]) *)

Record SweepCandidate : Type := mkSweepCandidate { sc_topic : TopicId; sc_partition : PartitionId; sc_from : Offset }.

Record Sweep : Type := mkSweep {
  sw_round : list PlannedInputs;
  sw_held_over : list (TopicId * PartitionId);
}.

Record SweepState : Type := mkSweepState {
  ss_swept : Sweep;
  ss_budget : Z;
  ss_seen : gset (string * Z);
}.

Definition hold_over (st : Sweep) (key : TopicId * PartitionId) : Sweep := mkSweep (sw_round st) (sw_held_over st ++ [key]).

Definition sweep_one (index : IndexState) (st : SweepState) (candidate : SweepCandidate) : Res SweepState :=
  let topic := sc_topic candidate in
  let partition := sc_partition candidate in
  if decide ((topic, partition) ∈ ss_seen st) then Ok st
  else
    let seen := {[(topic, partition)]} ∪ ss_seen st in
    let end_ := IndexState_end_offset index topic partition in
    let window_end := match Offset_add (sc_from candidate) COMPACTION_PLAN_RECORDS_BUDGET with
                      | Ok limit => Z.min limit end_
                      | _ => end_
                      end in
    let? planning := plan index topic partition (sc_from candidate) window_end in
    match planning with
    | NotWorthIt => Ok (mkSweepState (ss_swept st) (ss_budget st) seen)
    | Deferred _ => Ok (mkSweepState (hold_over (ss_swept st) (topic, partition)) (ss_budget st) seen)
    | Planned planned =>
        let cost := ce_records_rewritten (cp_cost planned) in
        if ss_budget st <? cost
        then Ok (mkSweepState (hold_over (ss_swept st) (topic, partition)) (ss_budget st) seen)
        else
          let? derived := derive index planned in
          Ok (mkSweepState (mkSweep (sw_round (ss_swept st) ++ [derived]) (sw_held_over (ss_swept st)))
                (ss_budget st - cost) seen)
    end.

Definition compaction_sweep (index : IndexState) (candidates : list SweepCandidate) : Res Sweep :=
  let? st := res_foldl (sweep_one index) (mkSweepState (mkSweep [] []) COMPACTION_PLAN_RECORDS_BUDGET ∅) candidates in
  Ok (ss_swept st).

(** ** Names of outputs ([namer.rs]) *)

Definition COMPACTED_PREFIX : string := "compacted".

Record CompactionNamer : Type := mkCompactionNamer { cn_writer : string; cn_next : Z }.

Definition CompactionNamer_new (writer : string) : Res CompactionNamer :=
  if String.eqb writer EmptyString then Err EmptyObjectKey
  else if existsb (Ascii.eqb (Ascii.ascii_of_nat 47)) (String.list_ascii_of_string writer) then Err MalformedWriterId
  else Ok (mkCompactionNamer writer 0).

Definition next_key (self : CompactionNamer) : Res (CompactionNamer * ObjectKey) :=
  let sequence := cn_next self in
  if u64_max <? cn_next self + 1 then Err BundleSequenceExhausted
  else
    let? key := ObjectKey_new (COMPACTED_PREFIX +:+ "/" +:+ cn_writer self +:+ "/" +:+ pad20 sequence) in
    Ok (mkCompactionNamer (cn_writer self) (cn_next self + 1), key).
