(* ===== verification/IndexSpec.v ===== *)
(** * IndexSpec: what the index promises

    The contract of the fold, one record at a time and with no staging: each
    record acts on the partition it names, in log order, and a reference count
    moves by one per entry added or dropped.  [spec_fold] is the specification
    the batch fold of [IndexFold] is proved to implement (file [IndexRefine]).
    The invariants of the index are stated and proved here, where a step
    touches one partition. *)

From stdpp Require Import base tactics list numbers strings gmap.
From Stdlib Require Import ZArith Lia.
From S2P Require Import Prelude Types Coverage Partition IndexFold.

Open Scope Z_scope.

Record AbsIndex : Type := mkAbs {
  ai_upto : option CommitVersion;
  ai_parts : gmap (string * Z) PartitionIndex;
  ai_refs : string -> Z;
}.

Definition abs_empty : AbsIndex := mkAbs None ∅ (fun _ => 0).

Definition abs_slot (a : AbsIndex) (key : string * Z) : PartitionIndex :=
  default PartitionIndex_default (ai_parts a !! key).

(** How one change moves the count of [o]. *)
Definition change_of (o : string) (c : RefChange) : Z :=
  match c with
  | Added k => if decide (k = o) then 1 else 0
  | Dropped k => if decide (k = o) then -1 else 0
  end.

Definition changes_of (o : string) (cs : list RefChange) : Z := sumZ (map (change_of o) cs).

Definition bump (refs : string -> Z) (cs : list RefChange) : string -> Z :=
  fun o => refs o + changes_of o cs.

(** The entry a span becomes at offset [base]. *)
Definition span_entry (object : ObjectKey) (base : Offset) (span : CommittedSpan) : TailEntry :=
  mkTailEntry (mkObjectRef object base (cs_record_count span)) (cs_bytes span).

Definition spec_span (object : ObjectKey) (when : TimeSpan) (a : AbsIndex) (span : CommittedSpan)
    : Res AbsIndex :=
  if cs_record_count span =? 0
  then Err (EmptySpanInLog (cs_topic span) (cs_partition span) object)
  else
    let key := (cs_topic span, cs_partition span) in
    let p := abs_slot a key in
    let? next := Offset_add (p_end_offset p) (cs_record_count span) in
    let entry := span_entry object (p_end_offset p) span in
    Ok (mkAbs (ai_upto a)
          (<[key := observe when (set_end_offset next (push p entry))]> (ai_parts a))
          (bump (ai_refs a) [Added object])).

Definition spec_effect (a : AbsIndex) (topic : TopicId) (partition : PartitionId) (effect : Effect)
    : Res AbsIndex :=
  let key := (topic, partition) in
  let? (p, changes) := apply_effect (abs_slot a key) topic partition effect in
  Ok (mkAbs (ai_upto a) (<[key := p]> (ai_parts a)) (bump (ai_refs a) changes)).

Definition spec_record (a : AbsIndex) (record : MetadataRecord) : Res AbsIndex :=
  match record with
  | BatchCommitted object spans written_at =>
      res_foldl (spec_span object (TimeSpan_at written_at)) a spans
  | ManifestPublished topic partition manifest upto =>
      spec_effect a topic partition (Published manifest upto)
  | RangeCompacted topic partition retiring installing =>
      spec_effect a topic partition (Swapped retiring installing)
  | Trimmed topic partition start => spec_effect a topic partition (TrimmedTo start)
  | EpochChanged _ | TopicRetentionChanged _ _ => Ok a
  end.

Definition set_upto (v : CommitVersion) (a : AbsIndex) : AbsIndex :=
  mkAbs (Some v) (ai_parts a) (ai_refs a).

Definition spec_entry (a : AbsIndex) (entry : MetadataEntry) : Res AbsIndex :=
  match ai_upto a with
  | Some prev =>
      if me_version entry <=? prev
      then Err (NonMonotonicCommitVersion prev (me_version entry))
      else let? a' := spec_record a (me_record entry) in Ok (set_upto (me_version entry) a')
  | None =>
      let? a' := spec_record a (me_record entry) in Ok (set_upto (me_version entry) a')
  end.

Definition spec_fold (a : AbsIndex) (entries : list MetadataEntry) : Res AbsIndex :=
  res_foldl spec_entry a entries.

(** ** The invariant *)

(** How many entries of a partition, and of the whole index, name an object. *)
Definition names (o : string) (r : ObjectRef) : bool := bool_decide (or_object r = o).

Definition naming (o : string) (p : PartitionIndex) : Z :=
  Z.of_nat (countb (names o) (entries_of p)).

Record abs_wf (a : AbsIndex) : Prop := {
  aw_parts : forall key p, ai_parts a !! key = Some p -> part_wf p;
  aw_refs : forall o, total_of (naming o) (ai_parts a) <= ai_refs a o;
}.

Definition effect_wf (e : Effect) : Prop :=
  match e with
  | Published _ upto => offset_wf upto
  | Swapped retiring installing => Forall ref_wf retiring /\ Forall ref_wf installing
  | TrimmedTo start => offset_wf start
  end.

Lemma abs_slot_wf a key : abs_wf a -> part_wf (abs_slot a key).
Proof.
  intros Hwf. unfold abs_slot. destruct (ai_parts a !! key) as [p|] eqn:Hk; simpl.
  - by eapply aw_parts.
  - apply part_wf_default.
Qed.

Lemma abs_wf_empty : abs_wf abs_empty.
Proof.
  split; simpl.
  - intros key p. by rewrite lookup_empty.
  - intros o. by rewrite total_of_empty.
Qed.

Lemma naming_nonneg o p : 0 <= naming o p.
Proof. unfold naming. lia. Qed.

Lemma naming_slot a key o :
  from_option (naming o) 0 (ai_parts a !! key) = naming o (abs_slot a key).
Proof. unfold abs_slot. by destruct (ai_parts a !! key). Qed.

(** ** What each operation does to the entry counts *)

Lemma changes_of_app o cs1 cs2 : changes_of o (cs1 ++ cs2) = changes_of o cs1 + changes_of o cs2.
Proof. unfold changes_of. by rewrite map_app, sumZ_app. Qed.

Lemma changes_of_added o rs :
  changes_of o (map (fun r => Added (or_object r)) rs) = Z.of_nat (countb (names o) rs).
Proof.
  induction rs as [|r rs IH]; [done|]. simpl. rewrite countb_cons.
  change (changes_of o (?c :: ?l)) with (change_of o c + changes_of o l).
  rewrite IH. simpl. unfold names. case_decide; [rewrite bool_decide_true by done|rewrite bool_decide_false by done]; lia.
Qed.

Lemma changes_of_dropped o rs :
  changes_of o (map (fun r => Dropped (or_object r)) rs) = - Z.of_nat (countb (names o) rs).
Proof.
  induction rs as [|r rs IH]; [done|]. simpl. rewrite countb_cons.
  change (changes_of o (?c :: ?l)) with (change_of o c + changes_of o l).
  rewrite IH. simpl. unfold names. case_decide; [rewrite bool_decide_true by done|rewrite bool_decide_false by done]; lia.
Qed.

Lemma naming_push o p e n w :
  naming o (observe w (set_end_offset n (push p e))) =
  naming o p + changes_of o [Added (or_object (te_reference e))].
Proof.
  unfold naming. change (entries_of (observe w (set_end_offset n (push p e))))
    with (entries_of (push p e)).
  rewrite push_entries, countb_app.
  change [Added (or_object (te_reference e))]
    with (map (fun r => Added (or_object r)) [te_reference e]).
  rewrite changes_of_added. lia.
Qed.

Lemma naming_absorb o p m upto :
  part_wf p -> boundary p upto = None -> naming o (absorb p m upto).1 <= naming o p.
Proof.
  intros Hwf Hb. destruct (absorb_history p upto m Hwf Hb) as (d & Hd & _).
  unfold naming, entries_of. rewrite Hd, !countb_app. simpl. lia.
Qed.

Lemma naming_trim o p start :
  naming o (trim p start).1 = naming o p + changes_of o (map Dropped (trim p start).2).
Proof.
  unfold trim. destruct (start <=? p_log_start p); simpl; [unfold changes_of; simpl; lia|].
  unfold naming, entries_of; simpl. rewrite trim_tail_map.
  rewrite map_app, changes_of_app, !map_map.
  rewrite (changes_of_dropped o (List.filter (dead start) (p_history p))).
  rewrite <-(map_map te_reference (fun r => Dropped (or_object r))), changes_of_dropped.
  assert (map te_reference (List.filter (fun e => dead start (te_reference e)) (p_tail p)) =
          List.filter (dead start) (map te_reference (p_tail p))) as ->.
  { induction (p_tail p) as [|e t IH]; simpl; [done|].
    destruct (dead start (te_reference e)); simpl; by rewrite IH. }
  rewrite !countb_app.
  rewrite (countb_filter_split (names o) (dead start) (p_history p)).
  rewrite (countb_filter_split (names o) (dead start) (map te_reference (p_tail p))). lia.
Qed.

Lemma apply_swap_Ok slot t p retiring installing slot' :
  apply_swap slot t p retiring installing = Ok slot' <->
  covers retiring installing = Ok tt /\ (forall r, r ∈ retiring -> r ∈ p_history slot) /\
  slot' = replace_history slot retiring installing.
Proof.
  unfold apply_swap, first_unheld. destruct (covers retiring installing) as [[]|e|] eqn:Hc; simpl;
    [|naive_solver..].
  destruct (List.find _ retiring) as [r|] eqn:Hf.
  - apply find_some in Hf as [Hin%list_elem_of_In Hn]. zbool.
    split; [done|]. intros (_ & Hall & _). apply Hall, holds_in_history_spec in Hin. congruence.
  - split; [|naive_solver]. intros [= <-]. split; [done|]. split; [|done].
    intros r Hr%list_elem_of_In. eapply find_none in Hf; [|done]. zbool.
    by apply holds_in_history_spec.
Qed.

Lemma naming_swap o p retiring installing :
  part_wf p -> Forall ref_wf retiring -> Forall ref_wf installing ->
  covers retiring installing = Ok tt -> (forall r, r ∈ retiring -> r ∈ p_history p) ->
  naming o (replace_history p retiring installing) =
  naming o p + changes_of o (map (fun r => Dropped (or_object r)) retiring ++
                             map (fun r => Added (or_object r)) installing).
Proof.
  intros [ (lo & _ & _ & Hc) _ _ _ _ ] Hr Hi Hcov Hin.
  apply covers_spec in Hcov as (Hr0 & Hi0 & a & b & Hcr & Hci); [|done|done].
  destruct (entries_chain_split p lo Hc) as [Hh _].
  destruct (replace_history_run p lo b _ retiring installing Hh) as (h1 & h2 & Hold & Hnew & _);
    eauto.
  rewrite changes_of_app, changes_of_added, changes_of_dropped.
  unfold naming, entries_of. rewrite Hnew, Hold.
  change (p_tail (replace_history p retiring installing)) with (p_tail p).
  rewrite !countb_app.
  rewrite (countb_Permutation _ _ _ (sort_by_key_Permutation or_base_offset retiring)).
  rewrite (countb_Permutation _ _ _ (sort_by_key_Permutation or_base_offset installing)). lia.
Qed.

(** ** Every step preserves the invariant *)

(** An effect keeps the partition well formed, keeps its end, and never lets
    the entries naming an object outgrow the count. *)
Lemma apply_effect_wf p t k e p' cs :
  part_wf p -> effect_wf e -> apply_effect p t k e = Ok (p', cs) ->
  part_wf p' /\ p_end_offset p' = p_end_offset p /\ p_when p' = p_when p /\
  (forall o, naming o p' <= naming o p + changes_of o cs).
Proof.
  intros Hwf He. destruct e as [m upto|retiring installing|start]; simpl.
  - destruct (boundary p upto) eqn:Hb; [done|]. intros [= <- <-].
    split; [by apply part_wf_absorb|]. split_and!; [done..|].
    intros o. pose proof (naming_absorb o p m upto Hwf Hb). unfold changes_of; simpl in *. lia.
  - intros (q & (Hcov & Hin & ->)%apply_swap_Ok & [= <- <-])%res_bind_Ok.
    destruct He as [Hr Hi]. split; [by apply part_wf_replace|]. split_and!; [done..|].
    intros o. rewrite naming_swap by done. lia.
  - destruct (_ <? _) eqn:Hlt; [done|]. zbool.
    pose proof (part_wf_trim p start Hwf Hlt) as Hwf'.
    pose proof (fun o => naming_trim o p start) as Hn.
    destruct (trim p start) as [q dropped] eqn:Ht. intros [= <- <-]. simpl in *.
    split; [done|]. split_and!.
    + unfold trim in Ht. destruct (_ <=? _); by simplify_eq/=.
    + unfold trim in Ht. destruct (_ <=? _); by simplify_eq/=.
    + intros o. rewrite Hn. lia.
Qed.

Lemma abs_wf_insert a u key p cs :
  abs_wf a -> part_wf p ->
  (forall o, naming o p <= naming o (abs_slot a key) + changes_of o cs) ->
  abs_wf (mkAbs u (<[key := p]> (ai_parts a)) (bump (ai_refs a) cs)).
Proof.
  intros Hwf Hp Hn. split; simpl.
  - intros k q [[<- <-]|[_ Hq]]%lookup_insert_Some; [done|]. by eapply aw_parts.
  - intros o. rewrite total_of_insert, naming_slot. unfold bump.
    pose proof (aw_refs a Hwf o). specialize (Hn o). lia.
Qed.

Lemma span_entry_live object p span next :
  part_wf p -> span_wf span -> (cs_record_count span =? 0) = false ->
  Offset_add (p_end_offset p) (cs_record_count span) = Ok next ->
  ref_live (te_reference (span_entry object (p_end_offset p) span)) /\
  next = or_end (te_reference (span_entry object (p_end_offset p) span)).
Proof.
  intros Hwf Hs H0 (? & ? & ->)%Offset_add_Ok. destruct (pw_start p Hwf). zbool.
  unfold ref_live, or_end; simpl. lia.
Qed.

Lemma spec_span_wf object when a span a' :
  abs_wf a -> span_wf span -> spec_span object when a span = Ok a' -> abs_wf a'.
Proof.
  intros Hwf Hs. unfold spec_span. destruct (cs_record_count span =? 0) eqn:H0; [done|].
  intros (next & Hnext & [= <-])%res_bind_Ok.
  set (key := (cs_topic span, cs_partition span)) in *.
  pose proof (abs_slot_wf a key Hwf) as Hp.
  destruct (span_entry_live object _ span next Hp Hs H0 Hnext) as [Hl ->].
  apply abs_wf_insert; [done|by apply part_wf_observe, part_wf_push|].
  intros o. rewrite naming_push. simpl. lia.
Qed.

Lemma spec_effect_wf a t k e a' :
  abs_wf a -> effect_wf e -> spec_effect a t k e = Ok a' -> abs_wf a'.
Proof.
  intros Hwf He. unfold spec_effect. intros ([p cs] & Hp & [= <-])%res_bind_Ok.
  apply apply_effect_wf in Hp as (? & _ & _ & ?); auto using abs_slot_wf, abs_wf_insert.
Qed.

Lemma spec_record_wf a r a' : abs_wf a -> record_wf r -> spec_record a r = Ok a' -> abs_wf a'.
Proof.
  intros Hwf Hr. destruct r as [object spans at_|t k m u|t k ri ii|t k s|e|t rms]; simpl in *.
  - apply (res_foldl_inv abs_wf); [done|]. intros a1 s a2 Hs Ha1.
    apply spec_span_wf; [done|]. destruct Hr as (_ & _ & Hr). rewrite Forall_forall in Hr. auto.
  - apply spec_effect_wf; simpl; tauto.
  - apply spec_effect_wf; simpl; tauto.
  - apply spec_effect_wf; simpl; tauto.
  - by intros [= <-].
  - by intros [= <-].
Qed.

Lemma spec_entry_wf a e a' : abs_wf a -> entry_wf e -> spec_entry a e = Ok a' -> abs_wf a'.
Proof.
  intros Hwf [_ Hr]. unfold spec_entry.
  assert (forall a1, spec_record a (me_record e) = Ok a1 -> abs_wf (set_upto (me_version e) a1))
    as Hstep.
  { intros a1 H1. destruct (spec_record_wf _ _ _ Hwf Hr H1). by split. }
  destruct (ai_upto a) as [prev|]; [destruct (_ <=? _); [done|]|];
    intros (a1 & H1 & [= <-])%res_bind_Ok; auto.
Qed.

Lemma spec_fold_wf a es a' :
  abs_wf a -> Forall entry_wf es -> spec_fold a es = Ok a' -> abs_wf a'.
Proof.
  intros Hwf Hes. apply (res_foldl_inv abs_wf); [done|].
  intros a1 e a2 He Ha1. rewrite Forall_forall in Hes. apply spec_entry_wf; auto.
Qed.
