(* ===== verification/IndexRefine.v ===== *)
(** * IndexRefine: the batch fold implements the one-record-at-a-time fold

    The code reads a whole page of the log, stages its commits, projects its
    effects onto copies and installs the result; the specification takes the
    records one by one.  The simulation follows the reading loop: [sim] relates
    the scratch built so far, with the projection it would give, to the state
    the specification has reached. *)

From stdpp Require Import base tactics list numbers strings gmap.
From Stdlib Require Import ZArith Lia.
From S2P Require Import Prelude Types Coverage Partition IndexFold IndexSpec.

Open Scope Z_scope.

(** What an [IndexState] says, without its derived counts. *)
Definition abs (s : IndexState) : AbsIndex :=
  mkAbs (applied_upto s) (flat (partitions s))
    (fun o => Z.of_nat (References_get (references s) o)).

(** Two abstract states that answer every question alike. *)
#[export] Instance abs_equiv : Equiv AbsIndex := fun a b =>
  ai_upto a = ai_upto b /\ ai_parts a = ai_parts b /\ forall o, ai_refs a o = ai_refs b o.

#[export] Instance abs_equivalence : Equivalence (≡@{AbsIndex}).
Proof.
  split.
  - intros a. by split_and!.
  - intros a b (? & ? & H). split_and!; auto.
  - intros a b c (? & ? & H) (? & ? & H'). split_and!; [congruence..|].
    intros o. by rewrite H.
Qed.

(** ** The specification respects the equivalence *)

Lemma abs_slot_equiv a b key : a ≡ b -> abs_slot a key = abs_slot b key.
Proof. intros (_ & H & _). unfold abs_slot. by rewrite H. Qed.

Lemma insert_equiv a b key p cs :
  a ≡ b ->
  mkAbs (ai_upto a) (<[key := p]> (ai_parts a)) (bump (ai_refs a) cs) ≡
  mkAbs (ai_upto b) (<[key := p]> (ai_parts b)) (bump (ai_refs b) cs).
Proof.
  intros (H1 & H2 & H3). split_and!; simpl; [done|by rewrite H2|].
  intros o. unfold bump. by rewrite H3.
Qed.

Lemma spec_span_equiv object when span a b :
  a ≡ b -> res_equiv (≡) (spec_span object when a span) (spec_span object when b span).
Proof.
  intros Hab. unfold spec_span. destruct (_ =? 0); [done|].
  rewrite (abs_slot_equiv a b) by done. destruct (Offset_add _ _); simpl; try done.
  by apply insert_equiv.
Qed.

Lemma spec_effect_equiv a b t k e :
  a ≡ b -> res_equiv (≡) (spec_effect a t k e) (spec_effect b t k e).
Proof.
  intros Hab. unfold spec_effect. rewrite (abs_slot_equiv a b) by done.
  destruct (apply_effect _ _ _ _) as [[p cs]| |]; simpl; try done. by apply insert_equiv.
Qed.

Lemma spec_record_equiv a b r : a ≡ b -> res_equiv (≡) (spec_record a r) (spec_record b r).
Proof.
  intros Hab. destruct r; simpl; auto using spec_effect_equiv.
  apply res_equiv_foldl; auto using spec_span_equiv.
Qed.

Lemma spec_entry_equiv a b e : a ≡ b -> res_equiv (≡) (spec_entry a e) (spec_entry b e).
Proof.
  intros Hab. unfold spec_entry. pose proof Hab as (Hu & _ & _). rewrite Hu.
  destruct (ai_upto b) as [prev|]; [destruct (_ <=? _); [done|]|];
    (eapply res_equiv_bind; [by apply spec_record_equiv|]);
    intros a' b' (? & ? & ?); simpl; by split_and!.
Qed.

#[export] Instance spec_fold_proper : Proper ((≡) ==> (=) ==> res_equiv (≡)) spec_fold.
Proof. intros a b Hab es ? <-. apply res_equiv_foldl; auto using spec_entry_equiv. Qed.

(** ** Pushing a run of staged entries *)

Definition push_all (slot : PartitionIndex) (entries : list TailEntry) : PartitionIndex :=
  foldl (fun s e => set_end_offset (or_end (te_reference e)) (push s e)) slot entries.

Lemma push_all_app slot es1 es2 : push_all slot (es1 ++ es2) = push_all (push_all slot es1) es2.
Proof. apply foldl_app. Qed.

Definition with_when (w : option TimeSpan) (p : PartitionIndex) : PartitionIndex :=
  mkPartitionIndex (p_end_offset p) (p_tail p) (p_history p) (p_manifest p) w (p_log_start p).

Lemma push_with_when w p e : push (with_when w p) e = with_when w (push p e).
Proof. unfold push; simpl. by destruct (_ <? _)%nat, (p_tail p ++ [e]). Qed.

Lemma push_set_end n p e : push (set_end_offset n p) e = set_end_offset n (push p e).
Proof. unfold push; simpl. by destruct (_ <? _)%nat, (p_tail p ++ [e]). Qed.

Lemma push_observe w p e : push (observe w p) e = observe w (push p e).
Proof. unfold push; simpl. by destruct (_ <? _)%nat, (p_tail p ++ [e]). Qed.

Lemma observe_observe w1 w2 p : observe w2 (observe w1 p) = observe (TimeSpan_widened w1 w2) p.
Proof.
  unfold observe; simpl. do 2 f_equal.
  destruct (p_when p); simpl; [by rewrite TimeSpan_widened_assoc|done].
Qed.

Lemma observe_set_end n w p : observe w (set_end_offset n p) = set_end_offset n (observe w p).
Proof. done. Qed.

Lemma push_all_when p es : p_when (push_all p es) = p_when p.
Proof.
  revert p; induction es as [|e es IH]; intros p; simpl; [done|].
  unfold push_all in IH. rewrite IH. simpl. by destruct (push_fields p e) as (_ & _ & -> & _).
Qed.

(** The end offset after a run is where its chain ends. *)
Lemma push_all_end p es lo hi :
  chain lo (map te_reference es) hi -> es <> [] -> p_end_offset (push_all p es) = hi.
Proof.
  induction es as [|e es IH] using rev_ind; [done|]. intros Hc _.
  rewrite map_app in Hc. apply chain_app in Hc as (mid & _ & _ & _ & Hc). simpl in Hc.
  rewrite push_all_app. simpl. done.
Qed.

(** The non-projected path of [apply] sets the end and the extent first and
    then pushes; the order does not matter. *)
Lemma foldl_push_observe p w n es :
  foldl push (observe w (set_end_offset n p)) es =
  observe w (set_end_offset n (push_all p es)).
Proof.
  revert p; induction es as [|e es IH]; intros p; simpl; [done|].
  rewrite push_observe, push_set_end.
  rewrite <-(IH (set_end_offset (or_end (te_reference e)) (push p e))). done.
Qed.

Lemma catch_up_loop_spec fuel slot entries already :
  Forall (fun e => ref_live (te_reference e)) entries ->
  (already + fuel <= length entries)%nat ->
  catch_up_loop fuel slot entries already =
  Ok (push_all slot (take fuel (drop already entries)), (already + fuel)%nat).
Proof.
  intros Hl. revert slot already. induction fuel as [|fuel IH]; intros slot already Hlen; simpl.
  - by rewrite Nat.add_0_r.
  - destruct (lookup_lt_is_Some_2 entries already) as [e He]; [lia|]. rewrite He.
    rewrite Forall_lookup in Hl. rewrite (ref_live_end _ (Hl _ _ He)). simpl.
    rewrite <-Forall_lookup in Hl. rewrite IH by lia.
    rewrite (drop_S entries e already He). simpl. do 2 f_equal. lia.
Qed.

(** Entries staged later are invisible to an effect already read. *)
Lemma catch_up_loop_app fuel slot entries more already :
  (already + fuel <= length entries)%nat \/ fuel = 0%nat ->
  catch_up_loop fuel slot (entries ++ more) already = catch_up_loop fuel slot entries already.
Proof.
  revert slot already; induction fuel as [|fuel IH]; intros slot already Hlen; simpl; [done|].
  destruct Hlen as [Hlen|]; [|done].
  rewrite lookup_app_l by lia. destruct (entries !! already) as [e|]; [|done].
  destruct (ObjectRef_end_offset _); simpl; [|done..]. apply IH. left. lia.
Qed.

(** Effects neither read nor write the commit-time extent. *)
Lemma apply_effect_with_when w p t k e :
  apply_effect (with_when w p) t k e =
  let? (q, cs) := apply_effect p t k e in Ok (with_when w q, cs).
Proof.
  destruct e as [m upto|retiring installing|start]; simpl.
  - change (boundary (with_when w p) upto) with (boundary p upto).
    by destruct (boundary p upto).
  - unfold apply_swap. destruct (covers retiring installing); simpl; [|done..].
    change (first_unheld (with_when w p) retiring) with (first_unheld p retiring).
    by destruct (first_unheld p retiring).
  - destruct (_ <? _); [done|]. unfold trim; simpl. by destruct (_ <=? _).
Qed.

Lemma apply_effect_fields p t k e q cs :
  apply_effect p t k e = Ok (q, cs) -> p_when q = p_when p /\ p_end_offset q = p_end_offset p.
Proof.
  destruct e as [m upto|retiring installing|start]; simpl.
  - destruct (boundary p upto); [done|]. by intros [= <- <-].
  - intros (s & (_ & _ & ->)%apply_swap_Ok & [= <- <-])%res_bind_Ok. done.
  - destruct (_ <? _); [done|]. unfold trim. destruct (_ <=? _); by intros [= <- <-].
Qed.

Lemma apply_effect_no_panic p t k e : apply_effect p t k e <> Panic.
Proof.
  destruct e as [m upto|retiring installing|start]; simpl.
  - by destruct (boundary p upto).
  - intros [H|(? & _ & ?)]%res_bind_Panic; [|done]. unfold apply_swap in H.
    pose proof (covers_no_panic retiring installing). destruct (covers retiring installing);
      simpl in H; try done. by destruct (first_unheld _ _).
  - destruct (_ <? _); [done|]. by destruct (trim p start).
Qed.

(** ** The simulation *)

Section simulation.
Context (s : IndexState).
Hypothesis Hwf0 : abs_wf (abs s).

Definition slot0 (k : string * Z) : PartitionIndex := abs_slot (abs s) k.

Definition entries_st (st : option StagedSpan) : list TailEntry :=
  match st with Some (_, es, _) => es | None => [] end.

Definition end_st (k : string * Z) (st : option StagedSpan) : Offset :=
  match st with Some (e, _, _) => e | None => p_end_offset (slot0 k) end.

Definition fin (st : option StagedSpan) (p : PartitionIndex) : PartitionIndex :=
  match st with Some (e, _, w) => observe w (set_end_offset e p) | None => p end.

Definition staged_ok (staged : StagedSpans) : Prop :=
  forall k e es w, staged !! k = Some (e, es, w) ->
    es <> [] /\ chain (p_end_offset (slot0 k)) (map te_reference es) e.

Definition effects_ok (b : Batch) : Prop :=
  Forall (fun eff => (sg_precedes eff <=
    length (entries_st (b_staged b !! (sg_topic eff, sg_partition eff))))%nat) (b_effects b).

Definition base_of (pr : Projected) (k : string * Z) : PartitionIndex :=
  default (slot0 k) (pr !! k).

Definition took (tk : gmap (string * Z) nat) (k : string * Z) : nat := default O (tk !! k).

(** The partition as the projection would leave it if the batch ended here,
    before the extent is folded in. *)
Definition pending (staged : StagedSpans) (pr : Projected) (tk : gmap (string * Z) nat)
    (k : string * Z) : PartitionIndex :=
  push_all (base_of pr k) (drop (took tk k) (entries_st (staged !! k))).

Record rel_key (staged : StagedSpans) (pr : Projected) (tk : gmap (string * Z) nat)
    (a : AbsIndex) (k : string * Z) : Prop := {
  rk_taken : (took tk k <= length (entries_st (staged !! k)))%nat;
  rk_fresh : pr !! k = None -> tk !! k = None;
  rk_when : p_when (base_of pr k) = p_when (slot0 k);
  rk_end : p_end_offset (pending staged pr tk k) = end_st k (staged !! k);
  rk_slot : abs_slot a k = fin (staged !! k) (pending staged pr tk k);
  rk_dom : ai_parts a !! k = None <->
    ai_parts (abs s) !! k = None /\ pr !! k = None /\ staged !! k = None;
}.

Definition staged_adds (o : string) (st : StagedSpan) : Z :=
  changes_of o (map (fun e => Added (or_object (te_reference e))) (entries_st (Some st))).

Definition rel (b : Batch) (p : Proj) (a : AbsIndex) : Prop :=
  (forall k, rel_key (b_staged b) p.1.1 p.1.2 a k) /\
  (forall o, ai_refs a o =
     ai_refs (abs s) o + changes_of o p.2 + total_of (staged_adds o) (b_staged b)).

Definition loop1 (b : Batch) : Res Proj :=
  res_foldl (project_effect s (b_staged b)) (∅, ∅, []) (b_effects b).

Definition sim (b : Batch) (r : Res AbsIndex) : Prop :=
  staged_ok (b_staged b) /\ effects_ok b /\
  match loop1 b with
  | Ok p => exists a, r = Ok a /\ rel b p a
  | Err _ => exists e, r = Err e
  | Panic => False
  end.

Lemma slot0_partition t k :
  default PartitionIndex_default (IndexState_partition s t k) = slot0 (t, k).
Proof. unfold slot0, abs_slot; simpl. by rewrite lookup_flat. Qed.

Lemma slot0_wf k : part_wf (slot0 k).
Proof. by apply abs_slot_wf. Qed.

Lemma staged_live staged k :
  staged_ok staged -> Forall (fun e => ref_live (te_reference e)) (entries_st (staged !! k)).
Proof.
  intros Hst. destruct (staged !! k) as [[[e es] w]|] eqn:Hk; simpl; [|constructor].
  destruct (Hst _ _ _ _ Hk) as [_ Hc]. apply chain_live in Hc.
  by rewrite List.Forall_map in Hc.
Qed.

Lemma sim_init : sim Batch_default (Ok (abs s)).
Proof.
  split; [|split; [constructor|]].
  - intros k e es w. simpl. by rewrite lookup_empty.
  - unfold loop1; simpl. exists (abs s). split; [done|]. split; simpl.
    + intros k. split; unfold took, pending, base_of, fin, end_st; simpl;
        rewrite ?lookup_empty; simpl; try done; naive_solver.
    + intros o. rewrite total_of_empty. unfold changes_of; simpl. lia.
Qed.

(** *** Reading a commit *)

Lemma catch_up_extend st e' es' w' more slot already upto :
  (upto <= length (entries_st st))%nat -> es' = entries_st st ++ more ->
  catch_up slot (Some (e', es', w')) already upto = catch_up slot st already upto.
Proof.
  intros Hle ->. unfold catch_up. destruct st as [[[e es] w]|]; simpl in *.
  - apply catch_up_loop_app. lia.
  - by replace (upto - already)%nat with O by lia.
Qed.

(** The projection of the effects read so far does not see a later commit. *)
Lemma loop1_extend b k e' more w' :
  effects_ok b ->
  loop1 (mkBatch (b_effects b)
           (<[k := (e', entries_st (b_staged b !! k) ++ more, w')]> (b_staged b))) = loop1 b.
Proof.
  intros Heff. unfold loop1; simpl. apply res_foldl_ext. intros acc eff Hin.
  unfold effects_ok in Heff. rewrite Forall_forall in Heff. specialize (Heff _ Hin).
  unfold project_effect. destruct acc as [[pr tk] cs].
  destruct (decide ((sg_topic eff, sg_partition eff) = k)) as [<-|Hne].
  - rewrite lookup_insert_eq. by erewrite catch_up_extend by done.
  - by rewrite lookup_insert_ne by done.
Qed.

Lemma effects_ok_extend b k e' more w' :
  effects_ok b ->
  effects_ok (mkBatch (b_effects b)
    (<[k := (e', entries_st (b_staged b !! k) ++ more, w')]> (b_staged b))).
Proof.
  intros Heff. unfold effects_ok in *; simpl. eapply Forall_impl; [exact Heff|].
  intros eff Hle; simpl in *. destruct (decide ((sg_topic eff, sg_partition eff) = k)) as [<-|Hne].
  - rewrite lookup_insert_eq; simpl. rewrite length_app. lia.
  - by rewrite lookup_insert_ne by done.
Qed.

(** Where the code takes a span's base offset from. *)
Lemma stage_base (staged : StagedSpans) t k :
  match staged !! (t, k) with
  | Some (e, _, _) => e
  | None => match lookup2 (partitions s) t k with Some p => p_end_offset p | None => Offset_ZERO end
  end = end_st (t, k) (staged !! (t, k)).
Proof.
  unfold end_st. destruct (staged !! (t, k)) as [[[e es] w]|]; [done|].
  rewrite <-slot0_partition. unfold IndexState_partition.
  by destruct (lookup2 (partitions s) t k).
Qed.

Lemma rel_key_other staged pr tk a k k' st p u refs :
  k <> k' -> rel_key staged pr tk a k' ->
  rel_key (<[k := st]> staged) pr tk (mkAbs u (<[k := p]> (ai_parts a)) refs) k'.
Proof.
  intros Hne []. split; unfold pending, abs_slot in *; simpl;
    rewrite ?lookup_insert_ne by done; auto.
Qed.

Lemma staged_chain_extend staged k o base n by_ :
  staged_ok staged -> base = end_st k (staged !! k) ->
  ref_live (mkObjectRef o base n) ->
  chain (p_end_offset (slot0 k))
    (map te_reference (entries_st (staged !! k) ++ [mkTailEntry (mkObjectRef o base n) by_]))
    (base + n).
Proof.
  intros Hst -> Hl. rewrite map_app. apply chain_app.
  exists (end_st k (staged !! k)). simpl. split; [|done].
  unfold end_st. destruct (staged !! k) as [[[e es] w]|] eqn:Hk; simpl; [|done].
  by eapply Hst.
Qed.

Lemma fin_extend (st : option StagedSpan) base when next p entry e0 es0 w0 :
  default (base, [], when) st = (e0, es0, w0) ->
  fin (Some (next, es0 ++ [entry], TimeSpan_widened w0 when))
      (set_end_offset next (push p entry)) =
  observe when (set_end_offset next (push (fin st p) entry)).
Proof.
  intros Hd. destruct st as [[[e es] w]|]; simplify_eq/=.
  - rewrite push_observe, push_set_end.
    rewrite <-(observe_observe w0 when). done.
  - by rewrite TimeSpan_widened_idem.
Qed.

(** One span: the code stages it, the specification pushes it. *)
Lemma span_step b r object span when staged' :
  sim b r -> span_wf span ->
  stage_span s (b_staged b) object span when = Ok staged' ->
  sim (mkBatch (b_effects b) staged') (let? a := r in spec_span object when a span).
Proof.
  intros (Hst & Heff & Hloop) Hsw. unfold stage_span. rewrite stage_base.
  set (key := (cs_topic span, cs_partition span)).
  destruct (cs_record_count span =? 0) eqn:H0; [done|].
  intros (next & Hnext & Hs)%res_bind_Ok.
  destruct (default _ (b_staged b !! key)) as [[e0 es0] w0] eqn:Hd. simplify_res.
  assert (es0 = entries_st (b_staged b !! key)) as ->
    by (destruct (b_staged b !! key) as [[[? ?] ?]|]; by simplify_eq/=).
  set (base := end_st key (b_staged b !! key)) in *.
  change (mkTailEntry (mkObjectRef object base (cs_record_count span)) (cs_bytes span))
    with (span_entry object base span).
  assert (0 <= base) as Hbase.
  { unfold base, end_st. destruct (pw_start _ (slot0_wf key)).
    destruct (b_staged b !! key) as [[[e es] w]|] eqn:Hk; [|lia].
    destruct (Hst _ _ _ _ Hk) as [_ Hc]. apply chain_le in Hc. lia. }
  apply Offset_add_Ok in Hnext as (Hn0 & Hn1 & ->). zbool.
  assert (ref_live (mkObjectRef object base (cs_record_count span))) as Hl
    by (unfold ref_live, or_end; simpl; lia).
  pose proof (staged_chain_extend _ _ object base _ (cs_bytes span) Hst eq_refl Hl) as Hchain.
  split; [|split; [by apply effects_ok_extend|]].
  { intros k e es w; simpl.
    intros [[<- [= <- <- <-]]|[_ Hk]]%lookup_insert_Some; [|by eapply Hst].
    split; [by destruct (entries_st _)|done]. }
  rewrite loop1_extend by done. destruct (loop1 b) as [p|e|]; [|naive_solver|done].
  destruct Hloop as (a & -> & Hrel & Hrefs). simpl.
  destruct (Hrel key) as [Htk Hfr Hwh Hend Hslot Hdom].
  unfold spec_span. rewrite (proj2 (Z.eqb_neq _ _)) by done. fold key.
  assert (p_end_offset (abs_slot a key) = base) as Heq.
  { rewrite Hslot. unfold base, fin. destruct (b_staged b !! key) as [[[? ?] ?]|] eqn:Hk; simpl;
      [done|]. by rewrite Hend, ?Hk. }
  rewrite Heq. rewrite (proj2 (Offset_add_Ok _ _ _)) by eauto. simpl.
  eexists. split; [done|]. split; simpl.
  - intros k. destruct (decide (key = k)) as [<-|Hne]; [|by apply rel_key_other].
    assert (pending (<[key := (base + cs_record_count span,
        entries_st (b_staged b !! key) ++ [span_entry object base span],
        TimeSpan_widened w0 when)]> (b_staged b)) p.1.1 p.1.2 key =
      set_end_offset (base + cs_record_count span)
        (push (pending (b_staged b) p.1.1 p.1.2 key) (span_entry object base span))) as Hpend.
    { unfold pending. rewrite lookup_insert_eq; simpl. rewrite drop_app_le by done.
      by rewrite push_all_app. }
    split; rewrite ?lookup_insert_eq; [|done|done|..].
    + simpl. rewrite length_app. lia.
    + by rewrite Hpend.
    + rewrite Hpend. erewrite fin_extend by done. rewrite <-Hslot.
      unfold abs_slot at 1; simpl. by rewrite lookup_insert_eq.
    + simpl. rewrite lookup_insert_eq. naive_solver.
  - intros o. unfold bump. rewrite Hrefs, total_of_insert.
    assert (from_option (staged_adds o) 0 (b_staged b !! key) =
      changes_of o (map (fun e => Added (or_object (te_reference e)))
                        (entries_st (b_staged b !! key)))) as ->
      by (by destruct (b_staged b !! key) as [[[? ?] ?]|]).
    unfold staged_adds; simpl. rewrite map_app, changes_of_app; simpl. lia.
Qed.

Lemma span_step_err b r object span when :
  sim b r -> (forall staged', stage_span s (b_staged b) object span when <> Ok staged') ->
  exists e, (let? a := r in spec_span object when a span) = Err e.
Proof.
  intros (Hst & Heff & Hloop) Hno. unfold stage_span in Hno. rewrite stage_base in Hno.
  set (key := (cs_topic span, cs_partition span)) in *.
  destruct (loop1 b) as [p|e|]; [|naive_solver|done].
  destruct Hloop as (a & -> & Hrel & _). simpl. unfold spec_span. fold key.
  destruct (cs_record_count span =? 0) eqn:H0; [eauto|].
  destruct (Hrel key) as [_ _ _ Hend Hslot _].
  assert (p_end_offset (abs_slot a key) = end_st key (b_staged b !! key)) as ->.
  { rewrite Hslot. unfold fin. destruct (b_staged b !! key) as [[[? ?] ?]|] eqn:Hk; simpl;
      [done|]. by rewrite Hend, ?Hk. }
  destruct (Offset_add _ _) as [next|e|] eqn:Hadd; simpl in *; [|eauto|].
  - destruct (default _ (b_staged b !! key)) as [[? ?] ?]. by destruct (Hno _ eq_refl).
  - by apply Offset_add_no_panic in Hadd.
Qed.

(** *** Reading an effect *)

(** Catching a partition up to everything staged so far. *)
Lemma catch_up_pending staged pr tk k :
  staged_ok staged -> (took tk k <= length (entries_st (staged !! k)))%nat ->
  catch_up (base_of pr k) (staged !! k) (took tk k) (length (entries_st (staged !! k))) =
  Ok (pending staged pr tk k, length (entries_st (staged !! k))).
Proof.
  intros Hst Hle. unfold catch_up, pending. pose proof (staged_live staged k Hst) as Hl.
  destruct (staged !! k) as [[[e es] w]|]; simpl in *.
  - rewrite catch_up_loop_spec by (done || lia).
    rewrite take_ge by (rewrite length_drop; lia). do 2 f_equal. lia.
  - replace (took tk k) with O by lia. done.
Qed.

(** Folding the extent in is a change of the extent only. *)
Lemma fin_with_when staged pr tk k :
  p_end_offset (pending staged pr tk k) = end_st k (staged !! k) ->
  fin (staged !! k) (pending staged pr tk k) =
  with_when (p_when (fin (staged !! k) (pending staged pr tk k))) (pending staged pr tk k).
Proof.
  intros Hend. destruct (staged !! k) as [[[e es] w]|]; simpl in *.
  - unfold observe, with_when; simpl. by rewrite Hend.
  - by destruct (pending staged pr tk k).
Qed.

Lemma fin_after_effect st k p q :
  p_end_offset p = end_st k st -> p_end_offset q = p_end_offset p -> p_when q = p_when p ->
  fin st q = with_when (p_when (fin st p)) q.
Proof.
  intros He Hq Hw. destruct st as [[[e es] w]|]; simpl in *.
  - unfold observe, with_when; simpl. by rewrite Hw, Hq, He.
  - rewrite <-Hw. by destruct q.
Qed.

Lemma loop1_effect b t k e :
  loop1 (stage_effect b t k e) =
  let? p := loop1 b in
  project_effect s (b_staged b) p (mkStaged t k e (precedes (b_staged b) t k)).
Proof.
  unfold loop1, stage_effect; simpl. rewrite res_foldl_app.
  apply res_bind_ext. intros p _. simpl. by destruct (project_effect _ _ _ _).
Qed.

Lemma precedes_entries staged t k :
  precedes staged t k = length (entries_st (staged !! (t, k))).
Proof. unfold precedes. by destruct (staged !! (t, k)) as [[[? ?] ?]|]. Qed.

(** What one effect does to the projection, given that the simulation holds. *)
Lemma project_effect_spec staged pr tk cs a t k e :
  staged_ok staged -> rel_key staged pr tk a (t, k) ->
  project_effect s staged (pr, tk, cs) (mkStaged t k e (precedes staged t k)) =
  let? (q, more) := apply_effect (pending staged pr tk (t, k)) t k e in
  Ok (<[(t, k) := q]> pr,
      <[(t, k) := length (entries_st (staged !! (t, k)))]> tk, cs ++ more).
Proof.
  intros Hst [Htk _ _ _ _ _]. unfold project_effect; simpl.
  rewrite slot0_partition, precedes_entries.
  change (match pr !! (t, k) with Some slot => slot | None => slot0 (t, k) end)
    with (base_of pr (t, k)).
  change (default O (tk !! (t, k))) with (took tk (t, k)).
  rewrite catch_up_pending by done. done.
Qed.

Lemma effect_step b r t k e :
  sim b r -> sim (stage_effect b t k e) (let? a := r in spec_effect a t k e).
Proof.
  intros (Hst & Heff & Hloop). split; [done|]. split.
  { unfold effects_ok; simpl. apply Forall_app; split; [done|].
    constructor; [|constructor]. simpl. by rewrite precedes_entries. }
  rewrite loop1_effect.
  destruct (loop1 b) as [[[pr tk] cs]|e'|]; cbn [res_bind]; [|naive_solver|done].
  destruct Hloop as (a & -> & Hrel & Hrefs). simpl in Hrel, Hrefs. cbn [res_bind].
  pose proof (Hrel (t, k)) as Hk. rewrite (project_effect_spec _ _ _ _ a) by done.
  destruct Hk as [Htk Hfr Hwh Hend Hslot Hdom].
  unfold spec_effect. rewrite Hslot, fin_with_when, apply_effect_with_when by done.
  pose proof (apply_effect_no_panic (pending (b_staged b) pr tk (t, k)) t k e).
  destruct (apply_effect (pending _ _ _ _) t k e) as [[q more]|err|] eqn:Hq; simpl; [|eauto|done].
  apply apply_effect_fields in Hq as [Hqw Hqe].
  eexists. split; [done|]. split; simpl.
  - intros k'. destruct (decide ((t, k) = k')) as [<-|Hne].
    + assert (pending (b_staged b) (<[(t, k) := q]> pr)
        (<[(t, k) := length (entries_st (b_staged b !! (t, k)))]> tk) (t, k) = q) as Hpend.
      { unfold pending, base_of, took. rewrite !lookup_insert_eq; simpl. by rewrite drop_all. }
      split; unfold base_of, took; rewrite ?lookup_insert_eq; simpl; rewrite ?Hpend; auto.
      * done.
      * rewrite Hqw. unfold pending. by rewrite push_all_when.
      * by rewrite Hqe.
      * unfold abs_slot; simpl. rewrite lookup_insert_eq; simpl. symmetry.
        by apply (fin_after_effect _ (t, k)).
      * rewrite ?lookup_insert_eq. naive_solver.
    + destruct (Hrel k') as [H1 H2 H3 H4 H5 H6].
      split; unfold pending, base_of, took, abs_slot in *; simpl;
        rewrite ?lookup_insert_ne by done; auto.
  - intros o. unfold bump. rewrite Hrefs, changes_of_app. lia.
Qed.

(** *** Reading records and entries *)

Lemma spans_step b r object spans when :
  sim b r -> Forall span_wf spans ->
  match res_foldl (fun st span => stage_span s st object span when) (b_staged b) spans with
  | Ok staged' => sim (mkBatch (b_effects b) staged')
                    (let? a := r in res_foldl (spec_span object when) a spans)
  | _ => exists e, (let? a := r in res_foldl (spec_span object when) a spans) = Err e
  end.
Proof.
  revert b r; induction spans as [|span spans IH]; intros b r Hsim Hwf; simpl.
  - destruct b as [ef st]. by destruct r.
  - apply Forall_cons in Hwf as [Hspan Hwf].
    assert ((let? a := r in let? a' := spec_span object when a span in
             res_foldl (spec_span object when) a' spans) =
            (let? a' := (let? a := r in spec_span object when a span) in
             res_foldl (spec_span object when) a' spans)) as -> by by destruct r.
    destruct (stage_span s (b_staged b) object span when) as [st'|e|] eqn:Hs; simpl.
    + apply (IH (mkBatch (b_effects b) st')); [|done]. by apply span_step.
    + destruct (span_step_err b r object span when Hsim) as [e' ->]; [by rewrite Hs|]. eauto.
    + destruct (span_step_err b r object span when Hsim) as [e' ->]; [by rewrite Hs|]. eauto.
Qed.

Lemma record_step b r record :
  sim b r -> record_wf record ->
  match read_record s record b with
  | Ok b' => sim b' (let? a := r in spec_record a record)
  | _ => exists e, (let? a := r in spec_record a record) = Err e
  end.
Proof.
  intros Hsim Hwf.
  destruct record as [object spans at_|t k m u|t k ri ii|t k st|e|t rms]; simpl in *;
    try (apply effect_step; simpl; tauto); try (by destruct r).
  destruct Hwf as (_ & _ & Hwf). pose proof (spans_step b r object spans (TimeSpan_at at_) Hsim Hwf) as H.
  by destruct (res_foldl _ (b_staged b) spans).
Qed.

Lemma spec_effect_upto a t k e a' : spec_effect a t k e = Ok a' -> ai_upto a' = ai_upto a.
Proof. intros ([? ?] & _ & [= <-])%res_bind_Ok. done. Qed.

Lemma spec_record_upto a record a' : spec_record a record = Ok a' -> ai_upto a' = ai_upto a.
Proof.
  destruct record as [object spans at_|t k m u|t k ri ii|t k st|e|t rms]; simpl;
    eauto using spec_effect_upto; [|by intros [= <-]..].
  apply (res_foldl_inv (fun a' => ai_upto a' = ai_upto a)); [done|].
  intros a1 span a2 _ <-. unfold spec_span. destruct (_ =? 0); [done|].
  by intros (? & _ & [= <-])%res_bind_Ok.
Qed.

Lemma sim_set_upto b r v : sim b r -> sim b (let? a := r in Ok (set_upto v a)).
Proof.
  intros (H1 & H2 & H3). split; [done|]. split; [done|].
  destruct (loop1 b); [|destruct H3 as [? ->]; simpl; eauto|done].
  destruct H3 as (a' & -> & Hrel & Hrefs). simpl. eexists; split; [done|]. split; [|done].
  intros k. by destruct (Hrel k).
Qed.

Lemma sim_no_panic b : ~ sim b Panic.
Proof.
  intros (_ & _ & H). destruct (loop1 b); [by destruct H as (? & ? & _)|by destruct H|done].
Qed.

(** The state the reading loop has reached agrees with the specification's. *)
Definition read_sim (prev : option CommitVersion) (b : Batch) (r : Res AbsIndex) : Prop :=
  sim b r /\ forall a, r = Ok a -> ai_upto a = prev.

Lemma entry_step prev b r entry :
  read_sim prev b r -> entry_wf entry ->
  match read_entry s (prev, b) entry with
  | Ok (prev', b') => read_sim prev' b' (let? a := r in spec_entry a entry)
  | _ => exists e, (let? a := r in spec_entry a entry) = Err e
  end.
Proof.
  intros [Hsim Hprev] [_ Hrw].
  pose proof (record_step b r (me_record entry) Hsim Hrw) as Hrec.
  destruct r as [a|e|]; [|..|by apply sim_no_panic in Hsim].
  - rewrite <-(Hprev a) by done. simpl in *. unfold spec_entry.
    assert (match read_record s (me_record entry) b with
      | Ok b' => read_sim (Some (me_version entry)) b'
          (let? a' := spec_record a (me_record entry) in Ok (set_upto (me_version entry) a'))
      | _ => exists e,
          (let? a' := spec_record a (me_record entry) in Ok (set_upto (me_version entry) a')) = Err e
      end) as Hgo.
    { destruct (read_record s (me_record entry) b) as [b'|e|].
      - split; [by apply (sim_set_upto b' (spec_record a (me_record entry)))|].
        intros a' (? & _ & [= <-])%res_bind_Ok. done.
      - destruct Hrec as [e' ->]. simpl. eauto.
      - destruct Hrec as [e' ->]. simpl. eauto. }
    destruct (ai_upto a) as [p|]; [destruct (_ <=? p); [eauto|]|];
      by destruct (read_record s (me_record entry) b).
  - simpl in *. assert (forall v b', read_record s (me_record entry) b = Ok b' ->
      read_sim v b' (Err e)) as Hgo by (intros v b' Hb'; rewrite Hb' in Hrec; by split).
    destruct prev as [p|]; [destruct (_ <=? p); [eauto|]|];
      destruct (read_record s (me_record entry) b) as [b'|e'|] eqn:Hb'; simpl; eauto.
Qed.

Lemma entries_step prev b r es :
  read_sim prev b r -> Forall entry_wf es ->
  match res_foldl (read_entry s) (prev, b) es with
  | Ok (prev', b') => read_sim prev' b' (let? a := r in spec_fold a es)
  | _ => exists e, (let? a := r in spec_fold a es) = Err e
  end.
Proof.
  revert prev b r; induction es as [|entry es IH]; intros prev b r Hsim Hwf.
  - simpl. by destruct r.
  - apply Forall_cons in Hwf as [He Hwf]. unfold spec_fold. cbn [res_foldl].
    assert ((let? a := r in let? a' := spec_entry a entry in res_foldl spec_entry a' es) =
            (let? a' := (let? a := r in spec_entry a entry) in spec_fold a' es)) as ->
      by by destruct r.
    pose proof (entry_step prev b r entry Hsim He) as Hstep.
    destruct (read_entry s (prev, b) entry) as [[prev' b']|e|]; cbn [res_bind]; [by apply IH|..];
      destruct Hstep as [e' ->]; simpl; eauto.
Qed.

(** *** Installing the batch *)

Lemma ai_parts_slot a k : ai_parts a !! k <> None -> ai_parts a !! k = Some (abs_slot a k).
Proof. unfold abs_slot. by destruct (ai_parts a !! k). Qed.

(** The second loop of [project] brings every copy to the specification's
    partition, and cannot fail. *)
Lemma project_rest_spec staged pr tk a acc k slot :
  staged_ok staged -> rel_key staged pr tk a k -> pr !! k = Some slot ->
  project_rest staged tk acc (k, slot) = Ok (<[k := abs_slot a k]> acc).
Proof.
  intros Hst [Htk Hfr Hwh Hend Hslot Hdom] Hk. unfold project_rest.
  assert (match staged !! k with Some (_, entries, _) => length entries | None => O end =
          length (entries_st (staged !! k))) as ->
    by (by destruct (staged !! k) as [[[? ?] ?]|]).
  change (default O (tk !! k)) with (took tk k).
  assert (slot = base_of pr k) as -> by (unfold base_of; by rewrite Hk).
  rewrite catch_up_pending by done. cbn [res_bind].
  rewrite Hslot. by destruct (staged !! k) as [[[? ?] ?]|].
Qed.

Lemma project_spec b pr tk cs a :
  staged_ok (b_staged b) -> loop1 b = Ok (pr, tk, cs) -> rel b (pr, tk, cs) a ->
  exists pr', project s (b_effects b) (b_staged b) = Ok (pr', cs) /\
    forall k, pr' !! k = (fun _ => abs_slot a k) <$> pr !! k.
Proof.
  intros Hst Hloop [Hrel _]. unfold project. unfold loop1 in Hloop. rewrite Hloop.
  cbn [res_bind].
  rewrite (res_foldl_all_ok _ (fun acc kv => <[kv.1 := abs_slot a kv.1]> acc)).
  - eexists; split; [done|]. intros k.
    rewrite (foldl_upd_map (fun m => m) _ (fun k _ _ => Some (abs_slot a k))); [|done].
    by destruct (pr !! k) eqn:Hk.
  - intros acc [k slot] Hin%elem_of_map_to_list. simpl. eapply project_rest_spec; eauto.
Qed.

Lemma install_spec b pr tk cs a pr' total :
  rel b (pr, tk, cs) a -> (forall k, pr' !! k = (fun _ => abs_slot a k) <$> pr !! k) ->
  flat (foldl install_projected
          (foldl (install_staged pr') (partitions s, total) (map_to_list (b_staged b)))
          (map_to_list pr')).1 = ai_parts a.
Proof.
  intros [Hrel _] Hpr'. apply map_eq. intros k.
  rewrite (foldl_upd_map (fun acc : Parts => flat acc.1) _ (fun _ slot _ => Some slot)).
  2: { intros [m T] [t p] slot _; simpl. by rewrite flat_insert2. }
  rewrite (foldl_upd_map (fun acc : Parts => flat acc.1) _ (fun k st o =>
    match pr' !! k, st with
    | Some _, _ => o
    | None, (e, es, w) =>
        Some (foldl push (observe w (set_end_offset e (default PartitionIndex_default o))) es)
    end)).
  2: { intros [m T] [t p] [[e es] w] _; simpl.
       destruct (pr' !! (t, p)) eqn:Hp; simpl.
       - symmetry. by apply partial_alter_id.
       - rewrite flat_insert2. unfold insert, map_insert. apply partial_alter_ext.
         intros o <-. by rewrite lookup_flat. }
  simpl. rewrite Hpr'. destruct (Hrel k) as [Htk Hfr Hwh Hend Hslot Hdom]; simpl in *.
  destruct (pr !! k) as [slot|] eqn:Hk; simpl.
  { symmetry. apply ai_parts_slot. rewrite Hdom. naive_solver. }
  unfold pending, base_of, took in Hslot. rewrite (Hfr eq_refl), Hk in Hslot. simpl in Hslot.
  destruct (b_staged b !! k) as [[[e es] w]|] eqn:Hst; simpl in *.
  - rewrite ai_parts_slot by (rewrite Hdom; naive_solver).
    rewrite Hslot, drop_0, foldl_push_observe. do 4 f_equal.
  - unfold slot0, abs_slot in Hslot; simpl in Hslot.
    destruct (ai_parts a !! k) as [p|] eqn:Hap, (flat (partitions s) !! k) as [p0|] eqn:Hp0;
      simpl in *; naive_solver.
Qed.

(** *** Reference counts *)

Definition adds (o : string) (cs : list RefChange) : nat :=
  countb (fun c => match c with Added k => bool_decide (k = o) | Dropped _ => false end) cs.
Definition drops (o : string) (cs : list RefChange) : nat :=
  countb (fun c => match c with Added _ => false | Dropped k => bool_decide (k = o) end) cs.

Lemma changes_of_counts o cs : changes_of o cs = Z.of_nat (adds o cs) - Z.of_nat (drops o cs).
Proof.
  induction cs as [|c cs IH]; [done|]. unfold adds, drops in *. rewrite !countb_cons.
  change (changes_of o (c :: cs)) with (change_of o c + changes_of o cs). rewrite IH.
  destruct c; simpl; case_decide; (rewrite bool_decide_true by done) ||
    (rewrite bool_decide_false by done); lia.
Qed.

Lemma References_get_change refs c o :
  References_get (References_change refs c) o =
  match c with
  | Added k => (References_get refs o + (if bool_decide (k = o) then 1 else 0))%nat
  | Dropped k => (References_get refs o - (if bool_decide (k = o) then 1 else 0))%nat
  end.
Proof.
  unfold References_get, References_change. destruct c as [k|k].
  - rewrite lookup_insert. case_decide; [rewrite bool_decide_true by done|
      rewrite bool_decide_false by done]; simplify_eq/=; lia.
  - destruct (refs !! k) as [n|] eqn:Hk.
    + destruct (n - 1 =? 0)%nat eqn:Hn.
      * apply Nat.eqb_eq in Hn. rewrite lookup_delete.
        case_decide; [rewrite bool_decide_true by done|rewrite bool_decide_false by done];
          simplify_eq/=; rewrite ?Hk; simpl; lia.
      * rewrite lookup_insert.
        case_decide; [rewrite bool_decide_true by done|rewrite bool_decide_false by done];
          simplify_eq/=; rewrite ?Hk; simpl; lia.
    + case_bool_decide; simplify_eq/=; rewrite ?Hk; simpl; lia.
Qed.

Lemma References_get_added refs cs o :
  Forall (fun c => is_added c = true) cs ->
  References_get (foldl References_change refs cs) o = (References_get refs o + adds o cs)%nat.
Proof.
  intros Hcs. revert refs; induction Hcs as [|c cs Hc Hcs IH]; intros refs; simpl.
  - unfold adds, countb; simpl. lia.
  - rewrite IH, References_get_change. unfold adds. rewrite countb_cons. by destruct c; [lia|].
Qed.

Lemma References_get_dropped refs cs o :
  Forall (fun c => is_added c = false) cs ->
  References_get (foldl References_change refs cs) o = (References_get refs o - drops o cs)%nat.
Proof.
  intros Hcs. revert refs; induction Hcs as [|c cs Hc Hcs IH]; intros refs; simpl.
  - unfold drops, countb; simpl. lia.
  - rewrite IH, References_get_change. unfold drops. rewrite countb_cons.
    destruct c; [done|]. case_bool_decide; lia.
Qed.

(** Additions first: the count after a batch is one truncated subtraction. *)
Lemma References_get_apply refs cs o :
  References_get (References_apply refs cs) o =
  (References_get refs o + adds o cs - drops o cs)%nat.
Proof.
  unfold References_apply. rewrite foldl_app, References_get_dropped, References_get_added.
  - f_equal; [f_equal|].
    + unfold adds. rewrite (countb_filter_split _ is_added cs).
      rewrite <-(Nat.add_0_r (countb _ (List.filter is_added cs))) at 1. f_equal.
      induction cs as [|[k|k] cs IH]; simpl; rewrite ?countb_cons; simpl; auto.
    + unfold drops. rewrite (countb_filter_split _ is_added cs).
      rewrite <-(Nat.add_0_l (countb _ (List.filter (fun c => negb (is_added c)) cs))) at 1. f_equal.
      induction cs as [|[k|k] cs IH]; simpl; rewrite ?countb_cons; simpl; auto.
  - apply Forall_forall. intros c [_ Hc]%list_elem_of_In%filter_In. done.
  - apply Forall_forall. intros c [_ Hc]%list_elem_of_In%filter_In. by zbool.
Qed.

Lemma liveness_stage_changes o staged cs :
  changes_of o (liveness_stage staged cs) = changes_of o cs + total_of (staged_adds o) staged.
Proof.
  unfold liveness_stage. rewrite total_of_list. generalize (map_to_list staged) as l.
  intros l; revert cs; induction l as [|[k [[e es] w]] l IH]; intros cs; simpl; [lia|].
  rewrite IH, changes_of_app. unfold staged_adds; simpl. lia.
Qed.
End simulation.

(** ** The refinement *)

Lemma check_quota_no_panic s staged pr : check_quota s staged pr <> Panic.
Proof.
  unfold check_quota. destruct (quota s); [|done]. destruct (negb _); [done|].
  by destruct (largest _) as [[[? ?] ?]|].
Qed.

Lemma read_no_panic s acc es : res_foldl (read_entry s) acc es <> Panic.
Proof.
  assert (forall st o sp w, stage_span s st o sp w <> Panic) as Hspan.
  { intros st o sp w. unfold stage_span. destruct (_ =? 0); [done|].
    intros [H|(? & _ & H)]%res_bind_Panic; [by apply Offset_add_no_panic in H|].
    by destruct (default _ _) as [[? ?] ?]. }
  assert (forall r b, read_record s r b <> Panic) as Hrec.
  { intros [] b; simpl; try done. intros [H|(? & _ & H)]%res_bind_Panic; [|done].
    revert H. by apply (res_foldl_no_panic (fun _ => True)). }
  apply (res_foldl_no_panic (fun _ => True)); [done| |done].
  intros [prev b] e _ _. unfold read_entry.
  destruct prev as [p|]; [destruct (_ <=? p); [done|]|];
    (intros [H|(? & _ & H)]%res_bind_Panic; [by apply Hrec in H|done]).
Qed.

Lemma spec_fold_no_panic a es : spec_fold a es <> Panic.
Proof.
  assert (forall a t k e, spec_effect a t k e <> Panic) as Heff.
  { intros a0 t k e. unfold spec_effect.
    intros [H|([? ?] & _ & H)]%res_bind_Panic; [by apply apply_effect_no_panic in H|done]. }
  assert (forall a r, spec_record a r <> Panic) as Hrec.
  { intros a0 []; simpl; auto. apply (res_foldl_no_panic (fun _ => True)); [done| |done].
    intros a1 sp _ _. unfold spec_span. destruct (_ =? 0); [done|].
    intros [H|(? & _ & H)]%res_bind_Panic; [by apply Offset_add_no_panic in H|done]. }
  apply (res_foldl_no_panic (fun _ => True)); [done| |done].
  intros a0 e _ _. unfold spec_entry.
  destruct (ai_upto a0) as [p|]; [destruct (_ <=? p); [done|]|];
    (intros [H|(? & _ & H)]%res_bind_Panic; [by apply Hrec in H|done]).
Qed.

(** What [apply] comes to once the page has been read and projected. *)
Definition finish (s : IndexState) (previous : option CommitVersion) (staged : StagedSpans)
    (projected : Projected) (changes : list RefChange) : IndexState :=
  let '(parts, total) :=
    foldl install_projected
      (foldl (install_staged projected) (partitions s, tiers s) (map_to_list staged))
      (map_to_list projected) in
  mkIndexState previous parts total (quota s)
    (References_apply (references s) (liveness_stage staged changes)).

Lemma finish_abs s b pr tk cs a pr' prev :
  abs_wf (abs s) -> abs_wf a -> rel s b (pr, tk, cs) a ->
  (forall k, pr' !! k = (fun _ => abs_slot a k) <$> pr !! k) -> ai_upto a = prev ->
  abs (finish s prev (b_staged b) pr' cs) ≡ a.
Proof.
  intros Hwf Hwfa Hrel Hpr' Hprev.
  pose proof (install_spec s b pr tk cs a pr' (tiers s) Hrel Hpr') as Hinst.
  unfold finish. destruct (foldl install_projected _ _) as [parts total]. simpl in Hinst.
  destruct Hrel as [_ Hrefs]. split_and!; simpl; [done|done|]. intros o.
  rewrite References_get_apply.
  assert (0 <= ai_refs a o) as Hge.
  { etrans; [|apply (aw_refs a Hwfa o)]. apply total_of_nonneg. intros; apply naming_nonneg. }
  pose proof (changes_of_counts o (liveness_stage (b_staged b) cs)) as Hc.
  rewrite liveness_stage_changes in Hc. rewrite Hrefs in Hge |- *. simpl in Hge |- *. lia.
Qed.

(** [apply] on a page the specification accepts: the quota check is the only
    thing left that may refuse it. *)
Lemma apply_accepts s es a :
  abs_wf (abs s) -> Forall entry_wf es -> spec_fold (abs s) es = Ok a ->
  exists b prev pr tk cs pr',
    res_foldl (read_entry s) (applied_upto s, Batch_default) es = Ok (prev, b) /\
    staged_ok s (b_staged b) /\ rel s b (pr, tk, cs) a /\
    project s (b_effects b) (b_staged b) = Ok (pr', cs) /\
    (forall k, pr' !! k = (fun _ => abs_slot a k) <$> pr !! k) /\
    IndexState_apply s es =
      (let? _ := check_quota s (b_staged b) pr' in Ok (finish s prev (b_staged b) pr' cs)) /\
    abs (finish s prev (b_staged b) pr' cs) ≡ a.
Proof.
  intros Hwf Hes Hspec.
  assert (read_sim s (applied_upto s) Batch_default (Ok (abs s))) as Hinit.
  { split; [by apply sim_init|]. by intros ? [= <-]. }
  pose proof (entries_step s Hwf _ _ _ es Hinit Hes) as Hread. simpl in Hread.
  rewrite Hspec in Hread.
  destruct (res_foldl _ _ es) as [[prev b]|e|] eqn:Hr; [|by destruct Hread..].
  destruct Hread as [(Hst & Heff & Hloop) Hprev].
  destruct (loop1 s b) as [[[pr tk] cs]|e|] eqn:Hl; [|by destruct Hloop|done].
  destruct Hloop as (a' & [= <-] & Hrel).
  destruct (project_spec s b pr tk cs a Hst Hl Hrel) as (pr' & Hproj & Hpr').
  exists b, prev, pr, tk, cs, pr'. split_and!; try done.
  - unfold IndexState_apply. rewrite Hr. cbn [res_bind]. rewrite Hproj. cbn [res_bind].
    apply res_bind_ext. intros _ _. unfold finish.
    destruct (foldl (install_staged pr') _ _) as [parts total].
    by destruct (foldl install_projected _ _).
  - eapply finish_abs; eauto. by eapply spec_fold_wf.
Qed.

(** A page the specification refuses is refused. *)
Lemma apply_refuses s es e :
  abs_wf (abs s) -> Forall entry_wf es -> spec_fold (abs s) es = Err e ->
  exists e', IndexState_apply s es = Err e'.
Proof.
  intros Hwf Hes Hspec.
  assert (read_sim s (applied_upto s) Batch_default (Ok (abs s))) as Hinit.
  { split; [by apply sim_init|]. by intros ? [= <-]. }
  pose proof (entries_step s Hwf _ _ _ es Hinit Hes) as Hread. simpl in Hread.
  rewrite Hspec in Hread. unfold IndexState_apply.
  destruct (res_foldl _ _ es) as [[prev b]|e'|] eqn:Hr; cbn [res_bind].
  - destruct Hread as [(Hst & Heff & Hloop) _]. unfold project. unfold loop1 in Hloop.
    destruct (res_foldl _ _ (b_effects b)) as [p|e'|]; cbn [res_bind];
      [by destruct Hloop as (? & ? & _)|eauto|done].
  - eauto.
  - exfalso. by apply read_no_panic in Hr.
Qed.

(** The fold, page by page: what it accepts is what the specification accepts,
    with the same result. *)
Lemma apply_Ok s es s' :
  abs_wf (abs s) -> Forall entry_wf es -> IndexState_apply s es = Ok s' ->
  exists a, spec_fold (abs s) es = Ok a /\ abs s' ≡ a /\ quota s' = quota s.
Proof.
  intros Hwf Hes Happ. destruct (spec_fold (abs s) es) as [a|e|] eqn:Hspec.
  - destruct (apply_accepts s es a Hwf Hes Hspec)
      as (b & prev & pr & tk & cs & pr' & _ & _ & _ & _ & _ & Heq & Habs).
    rewrite Heq in Happ. simplify_res. exists a. split_and!; try done.
    unfold finish. by destruct (foldl install_projected _ _).
  - destruct (apply_refuses s es e Hwf Hes Hspec) as [e' He']. congruence.
  - by apply spec_fold_no_panic in Hspec.
Qed.

Lemma apply_no_panic s es :
  abs_wf (abs s) -> Forall entry_wf es -> IndexState_apply s es <> Panic.
Proof.
  intros Hwf Hes. destruct (spec_fold (abs s) es) as [a|e|] eqn:Hspec.
  - destruct (apply_accepts s es a Hwf Hes Hspec)
      as (b & prev & pr & tk & cs & pr' & _ & _ & _ & _ & _ & -> & _).
    intros [H|(? & _ & ?)]%res_bind_Panic; [|done]. by apply check_quota_no_panic in H.
  - by destruct (apply_refuses s es e Hwf Hes Hspec) as [e' ->].
  - by apply spec_fold_no_panic in Hspec.
Qed.

(** Without a quota the two folds accept and refuse together. *)
Definition agrees (r : Res IndexState) (sp : Res AbsIndex) : Prop :=
  match r, sp with
  | Ok s', Ok a => abs s' ≡ a
  | Err _, Err _ => True
  | _, _ => False
  end.

Lemma apply_agrees s es :
  abs_wf (abs s) -> quota s = None -> Forall entry_wf es ->
  agrees (IndexState_apply s es) (spec_fold (abs s) es).
Proof.
  intros Hwf Hq Hes. unfold agrees. destruct (spec_fold (abs s) es) as [a|e|] eqn:Hspec.
  - destruct (apply_accepts s es a Hwf Hes Hspec)
      as (b & prev & pr & tk & cs & pr' & _ & _ & _ & _ & _ & Heq & Habs).
    rewrite Heq. unfold check_quota. by rewrite Hq.
  - by destruct (apply_refuses s es e Hwf Hes Hspec) as [e' ->].
  - by apply spec_fold_no_panic in Hspec.
Qed.
