(* ===== verification/IndexProps.v ===== *)
(** * IndexProps: what holds of the materialized index

    The properties of the fold over every state the index can reach: it agrees
    with the one-record-at-a-time specification however the log is paged, it
    never panics, every readable offset is named exactly once, an object with
    a zero count is named nowhere, offsets are the running sum of the log's
    counts, and the quota's ceiling holds. *)

From stdpp Require Import base tactics list numbers strings gmap.
From Stdlib Require Import ZArith Lia.
From S2P Require Import Prelude Types Coverage Partition IndexFold IndexSpec IndexRefine.

Open Scope Z_scope.

(** The states the index's own operations produce. *)
Inductive reachable : IndexState -> Prop :=
| reach_new : reachable IndexState_new
| reach_quota q : reachable (with_quota q)
| reach_clear s : reachable s -> reachable (IndexState_clear s)
| reach_apply s es s' :
    reachable s -> Forall entry_wf es -> IndexState_apply s es = Ok s' -> reachable s'.

Lemma abs_wf_equiv a b : a ≡ b -> abs_wf a -> abs_wf b.
Proof.
  intros (_ & Hp & Hr) [H1 H2]. split.
  - by rewrite <-Hp.
  - intros o. by rewrite <-Hp, <-Hr.
Qed.

Lemma abs_wf_blank u q : abs_wf (abs (mkIndexState u ∅ Tiers_default q ∅)).
Proof.
  split; simpl.
  - intros key p. by rewrite flat_empty, lookup_empty.
  - intros o. rewrite flat_empty, total_of_empty. unfold References_get. lia.
Qed.

Lemma reachable_wf s : reachable s -> abs_wf (abs s).
Proof.
  induction 1 as [|q|s _ IH|s es s' _ IH Hes Happ]; [apply abs_wf_blank..|].
  destruct (apply_Ok s es s' IH Hes Happ) as (a & Hspec & Habs & _).
  eapply abs_wf_equiv; [by symmetry|]. by eapply spec_fold_wf.
Qed.

Lemma reachable_part s t p part :
  reachable s -> IndexState_partition s t p = Some part -> part_wf part.
Proof.
  intros Hr Hp. apply (aw_parts _ (reachable_wf s Hr) (t, p)). simpl. by rewrite lookup_flat.
Qed.

(** ** Queries *)

(** Two states that answer every query of the read surface alike. *)
Definition same_answers (s1 s2 : IndexState) : Prop :=
  applied_upto s1 = applied_upto s2 /\
  forall t p,
    IndexState_end_offset s1 t p = IndexState_end_offset s2 t p /\
    IndexState_log_start s1 t p = IndexState_log_start s2 t p /\
    IndexState_time_span s1 t p = IndexState_time_span s2 t p /\
    IndexState_manifest s1 t p = IndexState_manifest s2 t p /\
    (forall start max, find_batches s1 t p start max = find_batches s2 t p start max) /\
    (forall o, IndexState_references s1 o = IndexState_references s2 o).

Lemma abs_same_answers s1 s2 : abs s1 ≡ abs s2 -> same_answers s1 s2.
Proof.
  intros (Hu & Hp & Hr). split; [done|]. intros t p.
  assert (IndexState_partition s1 t p = IndexState_partition s2 t p) as Heq.
  { unfold IndexState_partition. rewrite <-!lookup_flat. simpl in Hp. by rewrite Hp. }
  unfold IndexState_end_offset, IndexState_log_start, IndexState_time_span, IndexState_manifest,
    find_batches. rewrite Heq. split_and!; try done.
  intros o. specialize (Hr o). unfold IndexState_references. simpl in Hr. lia.
Qed.

(** ** A concrete log, long enough to have a history

    One hundred and thirty-four commits of two records each, a publication up
    to offset 4, a swap of the two oldest objects left, and a trim. *)

Definition demo_object (i : nat) : string :=
  String.String (Ascii.ascii_of_nat (48 + i / 64)) (String.String (Ascii.ascii_of_nat (48 + i mod 64)) EmptyString).

Definition demo_commits : list MetadataEntry :=
  map (fun i => mkMetadataEntry (Z.of_nat i + 1)
         (BatchCommitted (demo_object i)
            [mkCommittedSpan "t" 0 2 (Bounded (Z.of_nat i) 10) None] (1000 + Z.of_nat i)))
    (seq 0 134).

Definition demo_tail : list MetadataEntry :=
  [ mkMetadataEntry 135 (ManifestPublished "t" 0 "m" 4);
    mkMetadataEntry 136 (RangeCompacted "t" 0
      [mkObjectRef (demo_object 2) 4 2; mkObjectRef (demo_object 3) 6 2] [mkObjectRef "c" 4 4]);
    mkMetadataEntry 137 (Trimmed "t" 0 5) ].

(** The state after a page, for a page that is accepted. *)
Definition after (s : IndexState) (es : list MetadataEntry) : IndexState :=
  match IndexState_apply s es with Ok s' => s' | _ => s end.

Definition demo_state : IndexState := after (after IndexState_new demo_commits) demo_tail.

Definition demo_part : PartitionIndex :=
  default PartitionIndex_default (IndexState_partition demo_state "t" 0).

Lemma demo_commits_wf : Forall entry_wf demo_commits.
Proof. vm_decide. Qed.

Lemma demo_tail_wf : Forall entry_wf demo_tail.
Proof. vm_decide. Qed.

Lemma reachable_after s es : reachable s -> Forall entry_wf es -> reachable (after s es).
Proof.
  intros Hr Hes. unfold after. destruct (IndexState_apply s es) as [s'|e|] eqn:Ha; [|done..].
  by eapply reach_apply.
Qed.

Lemma after_Ok s es :
  is_ok (IndexState_apply s es) = true -> IndexState_apply s es = Ok (after s es).
Proof. unfold after. by destruct (IndexState_apply s es). Qed.

Lemma demo_reachable : reachable demo_state.
Proof. apply reachable_after, demo_tail_wf. apply reachable_after, demo_commits_wf. constructor. Qed.

(** ** Refinement and paging *)

(** C17. The batch fold implements the specification: on every reachable state
    without a quota, [apply] accepts exactly the pages the one-record-at-a-time
    fold accepts, ends in a state with the same answers, and never panics. *)
Theorem apply_refines (s : IndexState) (es : list MetadataEntry) :
  reachable s -> quota s = None -> Forall entry_wf es ->
  match IndexState_apply s es, spec_fold (abs s) es with
  | Ok s', Ok a => abs s' ≡ a
  | Err _, Err _ => True
  | _, _ => False
  end.
Proof. intros Hr Hq Hes. by apply apply_agrees; [apply reachable_wf|..]. Qed.

Lemma apply_refines_witness :
  is_ok (IndexState_apply demo_state (demo_tail ++ demo_tail)) = false /\
  match IndexState_apply (after IndexState_new demo_commits) demo_tail,
        spec_fold (abs (after IndexState_new demo_commits)) demo_tail with
  | Ok s', Ok a => abs s' ≡ a
  | Err _, Err _ => True
  | _, _ => False
  end.
Proof.
  split; [vm_compute; reflexivity|]. apply apply_refines.
  - apply reachable_after; [constructor|apply demo_commits_wf].
  - vm_compute; reflexivity.
  - apply demo_tail_wf.
Defined.

(** Paging invariance: folding a log in one page, or in two, accepts the
    same logs and answers every query alike. *)
Theorem apply_paging (s : IndexState) (es1 es2 : list MetadataEntry) :
  reachable s -> quota s = None -> Forall entry_wf (es1 ++ es2) ->
  match IndexState_apply s (es1 ++ es2),
        (let? s1 := IndexState_apply s es1 in IndexState_apply s1 es2) with
  | Ok s', Ok s'' => same_answers s' s''
  | Err _, Err _ => True
  | _, _ => False
  end.
Proof.
  intros Hr Hq Hes. pose proof (reachable_wf s Hr) as Hwf.
  pose proof Hes as [Hes1 Hes2]%Forall_app.
  pose proof (apply_agrees s (es1 ++ es2) Hwf Hq Hes) as Hall.
  pose proof (apply_agrees s es1 Hwf Hq Hes1) as Hfst.
  unfold spec_fold in Hall, Hfst. rewrite res_foldl_app in Hall.
  destruct (IndexState_apply s es1) as [s1|e1|] eqn:H1,
    (res_foldl spec_entry (abs s) es1) as [a1|e1'|]; simpl in *; try done.
  - destruct (apply_Ok s es1 s1 Hwf Hes1 H1) as (_ & _ & _ & Hq1). rewrite Hq in Hq1.
    assert (reachable s1) as Hr1 by (apply (reach_apply s es1); done).
    pose proof (apply_agrees s1 es2 (reachable_wf _ Hr1) Hq1 Hes2) as Hsnd.
    pose proof (spec_fold_proper _ _ Hfst es2 es2 eq_refl) as Hprop. unfold spec_fold in *.
    destruct (IndexState_apply s (es1 ++ es2)), (IndexState_apply s1 es2),
      (res_foldl spec_entry a1 es2), (res_foldl spec_entry (abs s1) es2); simpl in *; try done.
    apply abs_same_answers. by rewrite Hall, Hsnd, Hprop.
Qed.

Lemma apply_paging_witness :
  match IndexState_apply IndexState_new (demo_commits ++ demo_tail),
        (let? s1 := IndexState_apply IndexState_new demo_commits in IndexState_apply s1 demo_tail) with
  | Ok s', Ok s'' => same_answers s' s''
  | Err _, Err _ => True
  | _, _ => False
  end.
Proof.
  apply (apply_paging IndexState_new demo_commits demo_tail); [constructor|done|].
  apply Forall_app_2; [apply demo_commits_wf|apply demo_tail_wf].
Defined.

(** ** Panic freedom *)

(** The fold never panics: the slice indexing of [catch_up] and every
    checked addition end in a value or an error, whatever the page holds. *)
Theorem apply_never_panics (s : IndexState) (es : list MetadataEntry) :
  reachable s -> Forall entry_wf es -> IndexState_apply s es <> Panic.
Proof. intros Hr Hes. by apply apply_no_panic; [apply reachable_wf|]. Qed.

Lemma apply_never_panics_witness : IndexState_apply demo_state demo_tail <> Panic.
Proof. apply apply_never_panics; [apply demo_reachable|apply demo_tail_wf]. Defined.

(** ** Where a readable offset is *)

Definition contains_b (x : Offset) (r : ObjectRef) : bool :=
  is_ok_and (ObjectRef_contains r x) (fun b => b).

Lemma contains_b_live x r :
  ref_live r -> contains_b x r = (or_base_offset r <=? x) && (x <? or_end r).
Proof.
  intros Hl. unfold contains_b, ObjectRef_contains. rewrite (ref_live_end r Hl).
  by destruct (_ <=? x).
Qed.

(** A chain covers each of its offsets once, and nothing outside it. *)
Lemma chain_covers_once lo rs hi x :
  chain lo rs hi ->
  countb (contains_b x) rs = if (lo <=? x) && (x <? hi) then 1%nat else 0%nat.
Proof.
  revert lo. induction rs as [|r rs IH]; intros lo; simpl.
  - intros ->. destruct (_ && _) eqn:Hx; [|done]. zbool. lia.
  - intros (Hb & Hl & Hc). rewrite countb_cons, (contains_b_live x r Hl), (IH _ Hc).
    pose proof (chain_le _ _ _ Hc). pose proof (ref_live_lt r Hl).
    repeat case_match; zbool; repeat match goal with
      | H : (_ && _)%bool = false |- _ => apply andb_false_iff in H as [?|?] end; zbool; lia.
Qed.

(** C18. Every readable offset is found exactly once: an offset at or above the
    log start and below the end is either under the published manifest, and
    then in no entry of the history or the tail, or in exactly one of them. *)
Theorem readable_offset_located (s : IndexState) t p part x :
  reachable s -> IndexState_partition s t p = Some part ->
  IndexState_log_start s t p <= x < IndexState_end_offset s t p ->
  countb (contains_b x) (entries_of part) =
    match IndexState_manifest s t p with
    | Some (_, upto) => if x <? upto then 0%nat else 1%nat
    | None => 1%nat
    end.
Proof.
  unfold IndexState_log_start, IndexState_end_offset, IndexState_manifest.
  intros Hr Hp Hx. rewrite Hp in *. simpl.
  destruct (reachable_part s t p part Hr Hp) as [ (lo & H0 & Hlo & Hc) _ _ Hs He ].
  rewrite (chain_covers_once _ _ _ x Hc). unfold lo_ok in Hlo.
  rewrite (proj2 (Z.ltb_lt _ _)), andb_true_r by lia.
  destruct (p_manifest part) as [[m u]|]; [subst lo|].
  - by rewrite Z.ltb_antisym; destruct (u <=? x).
  - by rewrite (proj2 (Z.leb_le _ _)) by lia.
Qed.

Lemma readable_offset_located_witness : countb (contains_b 7) (entries_of demo_part) = 1%nat.
Proof.
  rewrite (readable_offset_located demo_state "t" 0 demo_part 7); [vm_compute; reflexivity|..].
  - apply demo_reachable.
  - vm_compute; reflexivity.
  - vm_decide.
Defined.

(** ** Liveness of objects *)

(** A state that folded a log from nothing, in pages of any length. *)
Inductive folded : IndexState -> list MetadataEntry -> Prop :=
| folded_new : folded IndexState_new []
| folded_quota q : folded (with_quota q) []
| folded_clear s es : folded s es -> folded (IndexState_clear s) []
| folded_apply s es page s' :
    folded s es -> Forall entry_wf page -> IndexState_apply s page = Ok s' -> folded s' (es ++ page).

(** The references to an object that one record takes into a manifest, which
    names them from then on: those of its partition's history that end at or
    below the offset it publishes. *)
Definition absorbs (o : ObjectKey) (slot : string * Z -> PartitionIndex) (e : MetadataEntry) : Z :=
  match me_record e with
  | ManifestPublished topic partition _ upto =>
      Z.of_nat (countb (fun r => names o r && (or_end r <=? upto)) (p_history (slot (topic, partition))))
  | _ => 0
  end.

Definition slot_of (s : IndexState) (k : string * Z) : PartitionIndex :=
  default PartitionIndex_default (IndexState_partition s k.1 k.2).

(** Those of a whole log, each record seen by the index that folded what is before it. *)
Fixpoint absorbed (o : ObjectKey) (s : IndexState) (es : list MetadataEntry) : Z :=
  match es with
  | [] => 0
  | e :: es => absorbs o (slot_of s) e + absorbed o (after s [e]) es
  end.

Lemma absorbs_nonneg o slot e : 0 <= absorbs o slot e.
Proof. unfold absorbs. destruct (me_record e); lia. Qed.

Lemma absorbed_nonneg o s es : 0 <= absorbed o s es.
Proof. revert s. induction es as [|e es IH]; intros s; simpl; [done|]. pose proof (absorbs_nonneg o (slot_of s) e). specialize (IH (after s [e])). lia. Qed.

(** ** What each record does to the entries and the count of an object *)

Definition excess (a : AbsIndex) (o : ObjectKey) : Z := ai_refs a o - total_of (naming o) (ai_parts a).

Lemma naming_absorb_exact o p m upto :
  part_wf p -> naming o (absorb p m upto).1 + Z.of_nat (countb (fun r => names o r && (or_end r <=? upto)) (p_history p)) = naming o p.
Proof.
  intros [ (lo & _ & _ & Hc) _ _ _ _ ]. unfold naming, entries_of. simpl. rewrite !countb_app.
  assert (Forall ref_live (p_history p)) as Hl.
  { apply Forall_forall. intros r Hr. apply chain_live in Hc. rewrite Forall_forall in Hc. apply Hc. unfold entries_of. set_solver. }
  clear Hc. induction Hl as [|r rs Hr _ IH]; simpl; [unfold countb; simpl; lia|]. rewrite (ref_live_end r Hr). simpl.
  rewrite !countb_cons, Z.leb_antisym. destruct (upto <? or_end r); simpl; rewrite ?countb_cons; destruct (names o r); simpl; lia.
Qed.

Lemma excess_insert a u key p cs o :
  excess (mkAbs u (<[key := p]> (ai_parts a)) (bump (ai_refs a) cs)) o =
  excess a o + changes_of o cs - naming o p + naming o (abs_slot a key).
Proof. unfold excess, bump. simpl. rewrite total_of_insert, naming_slot. lia. Qed.

Lemma spec_span_excess object when a span a' o : spec_span object when a span = Ok a' -> excess a' o = excess a o.
Proof.
  unfold spec_span. destruct (_ =? 0); [done|]. intros (next & _ & [= <-])%res_bind_Ok.
  rewrite excess_insert, naming_push. simpl. lia.
Qed.

Lemma spec_entry_excess a e a' o :
  abs_wf a -> entry_wf e -> spec_entry a e = Ok a' -> excess a' o = excess a o + absorbs o (abs_slot a) e.
Proof.
  intros Hwf [_ Hr]. unfold spec_entry, absorbs.
  assert (forall a1, spec_record a (me_record e) = Ok a1 -> excess a1 o = excess a o + absorbs o (abs_slot a) e) as Hrec; cycle 1.
  { destruct (ai_upto a); [destruct (_ <=? _); [done|]|]; intros (a1 & H1%Hrec & [= <-])%res_bind_Ok; exact H1. }
  unfold absorbs. intros a1. destruct (me_record e) as [object spans at_|t k m u|t k ri ii|t k s|ep|t rms]; simpl in *.
  - intros H1. rewrite Z.add_0_r. revert H1. apply (res_foldl_inv (fun b => excess b o = excess a o)); [done|].
    intros a2 sp a3 _ <-. apply spec_span_excess.
  - unfold spec_effect. intros ([p cs] & Hp & [= <-])%res_bind_Ok. simpl in Hp. destruct (boundary _ _); [done|]. injection Hp as <- <-.
    rewrite excess_insert. pose proof (naming_absorb_exact o (abs_slot a (t, k)) m u (abs_slot_wf _ _ Hwf)). unfold changes_of; simpl in *. lia.
  - unfold spec_effect. intros ([p cs] & (q & (Hcov & Hin & ->)%apply_swap_Ok & [= <- <-])%res_bind_Ok & [= <-])%res_bind_Ok.
    rewrite excess_insert, naming_swap; [lia|by apply abs_slot_wf|apply Hr..|done|done].
  - unfold spec_effect. intros ([p cs] & Hp & [= <-])%res_bind_Ok. simpl in Hp. destruct (_ <? _); [done|].
    pose proof (naming_trim o (abs_slot a (t, k)) s) as Hn. destruct (trim _ s) as [q dropped]. injection Hp as <- <-.
    rewrite excess_insert. simpl in Hn. lia.
  - intros [= <-]. lia.
  - intros [= <-]. lia.
Qed.

Lemma spec_fold_excess s a es a' o :
  abs_wf (abs s) -> quota s = None -> abs s ≡ a -> Forall entry_wf es -> spec_fold a es = Ok a' ->
  excess a' o = excess a o + absorbed o s es.
Proof.
  intros Hwf Hq Heq Hes. revert s a Hwf Hq Heq. induction Hes as [|e es He _ IH]; intros s a Hwf Hq Heq; simpl.
  { intros [= <-]. lia. }
  intros (a1 & H1 & H2)%res_bind_Ok. pose proof (abs_wf_equiv _ _ Heq Hwf) as Hwfa.
  assert (Forall entry_wf [e]) as Hone by (by apply Forall_singleton).
  pose proof (apply_agrees s [e] Hwf Hq Hone) as Hag. unfold agrees, spec_fold in Hag. simpl in Hag.
  pose proof (spec_fold_proper _ _ Heq [e] [e] eq_refl) as Hp. unfold spec_fold in Hp. simpl in Hp. rewrite H1 in Hp. simpl in Hp.
  destruct (let? _ := spec_entry (abs s) e in _) as [b|err|] eqn:Hb; [|done..].
  destruct (IndexState_apply s [e]) as [s1|err|] eqn:Ha; [|done..].
  assert (after s [e] = s1) as -> by (unfold after; by rewrite Ha).
  assert (abs s1 ≡ a1) as Heq1 by (simpl in Hp; by rewrite Hag).
  assert (quota s1 = None) as Hq1.
  { destruct (apply_Ok s [e] s1 Hwf Hone Ha) as (_ & _ & _ & ->). done. }
  rewrite (IH s1 a1) by (done || (eapply abs_wf_equiv; [by symmetry|]; by eapply spec_entry_wf)).
  rewrite (spec_entry_excess _ _ _ _ Hwfa He H1). unfold absorbs. destruct (me_record e); try lia.
  rewrite <-(abs_slot_equiv _ _ _ Heq). unfold abs_slot, slot_of, abs. simpl. rewrite lookup_flat. unfold IndexState_partition. simpl. lia.
Qed.

Lemma folded_spec s es : folded s es -> Forall entry_wf es /\ exists a, spec_fold abs_empty es = Ok a /\ abs s ≡ a.
Proof.
  assert (forall u, abs (mkIndexState None ∅ Tiers_default u ∅) ≡ abs_empty) as Hblank.
  { intros u. split_and!; simpl; [done|by rewrite flat_empty|done]. }
  induction 1 as [|q|s es _ _|s es page s' Hf [Hwf (a & Ha & Heq)] Hpage Happ]; [split; [done|]; exists abs_empty; split; [done|apply Hblank]..|].
  split; [by apply Forall_app|]. assert (abs_wf (abs s)) as Hwfs.
  { eapply abs_wf_equiv; [by symmetry|]. by eapply spec_fold_wf, Ha; [apply abs_wf_empty|]. }
  destruct (apply_Ok s page s' Hwfs Hpage Happ) as (b & Hb & Heqb & _).
  pose proof (spec_fold_proper _ _ Heq page page eq_refl) as Hp. rewrite Hb in Hp. unfold spec_fold in *.
  rewrite res_foldl_app, Ha. simpl. destruct (res_foldl spec_entry a page) as [c|err|]; [|done..].
  exists c. split; [done|]. simpl in Hp. by rewrite Heqb.
Qed.

(** The entries of the index that name an object. *)
Definition entries_naming (s : IndexState) (o : ObjectKey) : Z := total_of (naming o) (flat (partitions s)).

Lemma references_exact s es o :
  folded s es -> Z.of_nat (IndexState_references s o) = entries_naming s o + absorbed o IndexState_new es.
Proof.
  intros [Hwf (a & Ha & (_ & Hparts & Hrefs))]%folded_spec.
  pose proof (spec_fold_excess IndexState_new abs_empty es a o (reachable_wf _ reach_new) eq_refl) as Hex.
  specialize (Hex ltac:(split_and!; simpl; [done|by rewrite flat_empty|done]) Hwf Ha). unfold excess in Hex. simpl in Hex.
  rewrite total_of_empty in Hex. specialize (Hrefs o). simpl in Hparts, Hrefs. unfold IndexState_references, entries_naming.
  rewrite Hparts. lia.
Qed.

Lemma named_pos s t p part r :
  IndexState_partition s t p = Some part -> r ∈ entries_of part -> 0 < entries_naming s (or_object r).
Proof.
  intros Hp Hin. pose proof (total_of_ge (naming (or_object r)) (flat (partitions s)) (t, p) part) as Hge.
  assert (names (or_object r) r = true) as Hn by (unfold names; by apply bool_decide_eq_true).
  pose proof (countb_pos (names (or_object r)) r (entries_of part) Hin Hn).
  unfold entries_naming. eapply Z.lt_le_trans; [|apply Hge; [intros; apply naming_nonneg|by rewrite lookup_flat]]. unfold naming. lia.
Qed.

Lemma absorbed_app o s es1 es2 : absorbed o s (es1 ++ es2) = absorbed o s es1 + absorbed o (foldl (fun s e => after s [e]) s es1) es2.
Proof. revert s. induction es1 as [|e es1 IH]; intros s; simpl; [done|]. rewrite IH. lia. Qed.

(** C19. The reference count of an object is exact: it is the number of entries
    of the index that name the object, and of references to it that publications
    have taken into manifests.  So an object whose count is zero is named by no
    entry of any partition, and no publication of the log took a reference to it
    from a history: deleting it takes nothing a read can reach, through an entry
    or through a manifest. *)
Theorem unreferenced_is_unnamed (s : IndexState) es o :
  folded s es ->
  Z.of_nat (IndexState_references s o) = entries_naming s o + absorbed o IndexState_new es /\
  (IndexState_references s o = 0%nat ->
   (forall t p part r, IndexState_partition s t p = Some part -> r ∈ entries_of part -> or_object r <> o) /\
   (forall es1 version t p manifest upto es2 r,
      es = es1 ++ mkMetadataEntry version (ManifestPublished t p manifest upto) :: es2 ->
      r ∈ p_history (slot_of (foldl (fun s e => after s [e]) IndexState_new es1) (t, p)) ->
      or_end r <= upto -> or_object r <> o)).
Proof.
  intros Hf. pose proof (references_exact s es o Hf) as Hex. split; [done|]. intros Hz. rewrite Hz in Hex.
  pose proof (absorbed_nonneg o IndexState_new es) as Ha.
  assert (0 <= entries_naming s o) as Hn by (apply total_of_nonneg; intros; apply naming_nonneg). split.
  - intros t p part r Hp Hin <-. pose proof (named_pos s t p part r Hp Hin). lia.
  - intros es1 version t p manifest upto es2 r -> Hin Hle <-. rewrite absorbed_app in Hex, Ha. simpl in Hex, Ha.
    pose proof (absorbed_nonneg (or_object r) IndexState_new es1) as H1.
    match type of Hex with context [absorbed ?o ?st es2] => pose proof (absorbed_nonneg o st es2) as H2 end.
    unfold absorbs in Hex at 1. cbn [me_record] in Hex.
    pose proof (countb_pos (fun x => names (or_object r) x && (or_end x <=? upto)) r _ Hin) as Hpos.
    unfold names in Hpos at 1. rewrite bool_decide_true, (proj2 (Z.leb_le _ _)) in Hpos by done. specialize (Hpos eq_refl). lia.
Qed.

Lemma demo_folded_log : folded demo_state (demo_commits ++ demo_tail).
Proof.
  assert (is_ok (IndexState_apply IndexState_new demo_commits) = true) as H1%after_Ok by (vm_compute; reflexivity).
  assert (is_ok (IndexState_apply (after IndexState_new demo_commits) demo_tail) = true) as H2%after_Ok by (vm_compute; reflexivity).
  eapply folded_apply; [|apply demo_tail_wf|exact H2]. apply (folded_apply IndexState_new [] demo_commits);
    [constructor|apply demo_commits_wf|exact H1].
Qed.

(** The object of the first commit is absorbed and keeps its count; that of the
    third is retired by the swap and loses it. *)
Lemma unreferenced_is_unnamed_witness :
  IndexState_references demo_state (demo_object 0) = 1%nat /\
  Z.of_nat (IndexState_references demo_state (demo_object 0)) =
    entries_naming demo_state (demo_object 0) + absorbed (demo_object 0) IndexState_new (demo_commits ++ demo_tail) /\
  (entries_of demo_part !! 0%nat) = Some (mkObjectRef "c" 4 4) /\
  or_object (mkObjectRef "c" 4 4) <> demo_object 2.
Proof.
  split; [vm_compute; reflexivity|]. split; [apply unreferenced_is_unnamed, demo_folded_log|].
  split; [vm_compute; reflexivity|].
  destruct (unreferenced_is_unnamed demo_state (demo_commits ++ demo_tail) (demo_object 2) demo_folded_log) as [_ Hz].
  destruct Hz as [Hun _]; [vm_compute; reflexivity|].
  apply (Hun "t" 0 demo_part); [vm_compute; reflexivity|]. apply (list_elem_of_lookup_2 _ 0). vm_compute. reflexivity.
Defined.

(** ** Offsets *)

(** The records an entry appends to a partition. *)
Definition span_count (t : string) (p : Z) (span : CommittedSpan) : Z :=
  if decide ((cs_topic span, cs_partition span) = (t, p)) then cs_record_count span else 0.

Definition appended (t : string) (p : Z) (entry : MetadataEntry) : Z :=
  match me_record entry with
  | BatchCommitted _ spans _ => sumZ (map (span_count t p) spans)
  | _ => 0
  end.

Definition abs_end (a : AbsIndex) (k : string * Z) : Z := p_end_offset (abs_slot a k).
Definition abs_start (a : AbsIndex) (k : string * Z) : Z := p_log_start (abs_slot a k).

Lemma abs_end_state s t p : abs_end (abs s) (t, p) = IndexState_end_offset s t p.
Proof.
  unfold abs_end, abs_slot, IndexState_end_offset, IndexState_partition. simpl.
  rewrite lookup_flat. by destruct (lookup2 _ _ _).
Qed.

Lemma abs_start_state s t p : abs_start (abs s) (t, p) = IndexState_log_start s t p.
Proof.
  unfold abs_start, abs_slot, IndexState_log_start, IndexState_partition. simpl.
  rewrite lookup_flat. by destruct (lookup2 _ _ _).
Qed.

Lemma abs_slot_insert u parts refs k q k' :
  abs_slot (mkAbs u (<[k := q]> parts) refs) k' =
  if decide (k = k') then q else default PartitionIndex_default (parts !! k').
Proof. unfold abs_slot; simpl. rewrite lookup_insert. by case_decide. Qed.

(** What one step of the specification does to a partition's two ends: commits
    extend the end by their counts and leave the start; nothing else moves the
    end, and the start never goes back. *)
Definition moves (k : string * Z) (n : Z) (a a' : AbsIndex) : Prop :=
  abs_end a' k = abs_end a k + n /\ abs_start a k <= abs_start a' k.

Lemma spec_span_moves object when a span a' t p :
  spec_span object when a span = Ok a' -> moves (t, p) (span_count t p span) a a'.
Proof.
  unfold spec_span, moves, span_count, abs_end, abs_start. destruct (_ =? 0); [done|].
  intros (next & (_ & _ & ->)%Offset_add_Ok & [= <-])%res_bind_Ok.
  rewrite abs_slot_insert. case_decide as Hk; [rewrite <-Hk|fold (abs_slot a (t, p)); lia].
  pose proof (push_fields (abs_slot a (cs_topic span, cs_partition span))
    (span_entry object (p_end_offset (abs_slot a (cs_topic span, cs_partition span))) span)).
  simpl. naive_solver lia.
Qed.

Lemma apply_effect_start slot t p e slot' cs :
  apply_effect slot t p e = Ok (slot', cs) -> p_log_start slot <= p_log_start slot'.
Proof.
  destruct e as [m u|ri ii|x]; simpl.
  - destruct (boundary slot u); [done|]. intros [= <- _]. simpl. lia.
  - intros (q & (_ & _ & ->)%apply_swap_Ok & [= <- _])%res_bind_Ok. simpl. lia.
  - destruct (_ <? _); [done|]. unfold trim. destruct (_ <=? _) eqn:Hx; zbool;
      intros [= <- _]; simpl; lia.
Qed.

Lemma spec_effect_moves a t p e a' k :
  abs_wf a -> effect_wf e -> spec_effect a t p e = Ok a' -> moves k 0 a a'.
Proof.
  intros Hwf He. unfold spec_effect. intros ([q cs] & Hq & [= <-])%res_bind_Ok.
  unfold moves, abs_end, abs_start. rewrite abs_slot_insert. case_decide as Hk; [subst k|].
  - apply apply_effect_start in Hq as Hst.
    apply apply_effect_wf in Hq as (_ & Hend & _); auto using abs_slot_wf. lia.
  - fold (abs_slot a k). lia.
Qed.

Lemma moves_refl k a : moves k 0 a a.
Proof. unfold moves. lia. Qed.

Lemma moves_trans k n m a b c : moves k n a b -> moves k m b c -> moves k (n + m) a c.
Proof. unfold moves. lia. Qed.

Lemma spec_record_moves a r a' t p :
  abs_wf a -> record_wf r -> spec_record a r = Ok a' ->
  moves (t, p) (appended t p (mkMetadataEntry 0 r)) a a'.
Proof.
  intros Hwf Hr. destruct r as [object spans at_|t' k m u|t' k ri ii|t' k s|e|t' rms]; simpl in *;
    try (apply (spec_effect_moves a t' k); simpl; tauto); [|intros [= <-]; apply moves_refl..].
  unfold appended; simpl. clear Hwf Hr. revert a. induction spans as [|sp spans IH]; intros a; simpl.
  - intros [= <-]. apply moves_refl.
  - intros (a1 & H1%(spec_span_moves _ _ _ _ _ t p) & H2)%res_bind_Ok.
    eapply moves_trans; [done|by apply IH].
Qed.

Lemma spec_entry_moves a e a' t p :
  abs_wf a -> entry_wf e -> spec_entry a e = Ok a' -> moves (t, p) (appended t p e) a a'.
Proof.
  intros Hwf [_ Hr] Hs.
  assert (exists a1, spec_record a (me_record e) = Ok a1 /\ a' = set_upto (me_version e) a1)
    as (a1 & H1 & ->).
  { unfold spec_entry in Hs. destruct (ai_upto a) as [prev|]; [destruct (_ <=? _); [done|]|];
      simplify_res; eauto. }
  by apply (spec_record_moves a _ a1 t p Hwf Hr) in H1.
Qed.

Lemma spec_fold_moves a es a' t p :
  abs_wf a -> Forall entry_wf es -> spec_fold a es = Ok a' ->
  moves (t, p) (sumZ (map (appended t p) es)) a a'.
Proof.
  intros Hwf Hes. revert a Hwf. induction Hes as [|e es He Hes IH]; intros a Hwf; simpl.
  - intros [= <-]. apply moves_refl.
  - intros (a1 & H1 & H2)%res_bind_Ok. eapply moves_trans; [by eapply spec_entry_moves|].
    apply IH; [|done]. by eapply spec_entry_wf.
Qed.

(** A page moves each partition's ends by what it appends. *)
Lemma apply_moves s es s' t p :
  reachable s -> Forall entry_wf es -> IndexState_apply s es = Ok s' ->
  moves (t, p) (sumZ (map (appended t p) es)) (abs s) (abs s').
Proof.
  intros Hr Hes Happ. pose proof (reachable_wf s Hr) as Hwf.
  destruct (apply_Ok s es s' Hwf Hes Happ) as (a & Hspec & Heq & _).
  apply (spec_fold_moves _ _ _ t p) in Hspec; [|done..]. unfold moves, abs_end, abs_start in *.
  by rewrite (abs_slot_equiv _ _ (t, p) Heq).
Qed.

(** Offsets are gap-free: a partition's end offset after a page is the end
    before it plus the record counts the page commits to that partition;
    publications, swaps and trims never move it. *)
Theorem end_offset_is_running_sum (s : IndexState) es s' t p :
  reachable s -> Forall entry_wf es -> IndexState_apply s es = Ok s' ->
  IndexState_end_offset s' t p =
    IndexState_end_offset s t p + sumZ (map (appended t p) es).
Proof.
  intros Hr Hes Happ. destruct (apply_moves s es s' t p Hr Hes Happ) as [He _].
  by rewrite <-!abs_end_state.
Qed.

Lemma end_offset_is_running_sum_witness :
  IndexState_end_offset (after IndexState_new demo_commits) "t" 0 = 268.
Proof.
  rewrite (end_offset_is_running_sum IndexState_new demo_commits _ "t" 0); [vm_compute; reflexivity|..].
  - constructor.
  - apply demo_commits_wf.
  - apply after_Ok. vm_compute; reflexivity.
Defined.

(** The log start never moves back and never passes the end. *)
Theorem log_start_advances (s : IndexState) es s' t p :
  reachable s -> Forall entry_wf es -> IndexState_apply s es = Ok s' ->
  IndexState_log_start s t p <= IndexState_log_start s' t p <= IndexState_end_offset s' t p.
Proof.
  intros Hr Hes Happ. destruct (apply_moves s es s' t p Hr Hes Happ) as [_ Hs].
  rewrite !abs_start_state in Hs. split; [done|].
  rewrite <-abs_start_state, <-abs_end_state. apply pw_start, abs_slot_wf, reachable_wf.
  by eapply reach_apply.
Qed.

Lemma log_start_advances_witness : 0 <= IndexState_log_start demo_state "t" 0 <= 268.
Proof.
  apply (log_start_advances (after IndexState_new demo_commits) demo_tail demo_state "t" 0).
  - apply reachable_after; [constructor|apply demo_commits_wf].
  - apply demo_tail_wf.
  - apply after_Ok. vm_compute; reflexivity.
Defined.

(** ** Reading a page *)

(** The batches a read at [start] may be served from: every entry, oldest
    first, that ends above it. *)
Definition candidates (part : PartitionIndex) (start : Offset) : list IndexedBatch :=
  List.filter (fun b => start <? or_end (IndexedBatch_reference b))
    (map Footer (p_history part) ++ map Inline (p_tail part)).

(** The page that is cut from a list of candidates: the longest prefix the two
    bounds admit. *)
Fixpoint page_cut (page : Page) (l : list IndexedBatch) : Page * bool :=
  match l with
  | [] => (page, true)
  | b :: l => let '(page', added) := Page_push page b in
              if added then page_cut page' l else (page', false)
  end.

Lemma page_loop_cut start page l :
  Forall (fun b => ref_live (IndexedBatch_reference b)) l ->
  page_loop start page l =
  Ok (page_cut page (List.filter (fun b => start <? or_end (IndexedBatch_reference b)) l)).
Proof.
  intros Hl. revert page. induction Hl as [|b l Hb Hl IH]; intros page; simpl; [done|].
  rewrite (ref_live_end _ Hb); simpl. destruct (start <? _); [|done]. simpl.
  destruct (Page_push page b) as [page' []]; [done|done].
Qed.

Lemma page_cut_app page l1 l2 :
  page_cut page (l1 ++ l2) =
  (let '(page', more) := page_cut page l1 in if more then page_cut page' l2 else (page', false)).
Proof.
  revert page. induction l1 as [|b l1 IH]; intros page; simpl; [done|].
  destruct (Page_push page b) as [page' []]; [done|done].
Qed.

Lemma partition_point_take {A} (f : A -> bool) l n :
  (n < partition_point f l)%nat -> exists x, l !! n = Some x /\ f x = true.
Proof.
  revert n; induction l as [|x l IH]; intros n; simpl; [lia|].
  destruct (f x) eqn:Hf; [|lia]. destruct n as [|n]; [eauto|]. intros. apply IH. lia.
Qed.

(** The binary search skips only entries that end at or below [start]. *)
Lemma first_candidate_skips lo h hi start :
  chain lo h hi ->
  List.filter (fun r => start <? or_end r) (drop (first_candidate h start) h) =
  List.filter (fun r => start <? or_end r) h.
Proof.
  intros Hc. rewrite <-(take_drop (first_candidate h start) h) at 3. rewrite List.filter_app.
  destruct (first_candidate h start) as [|n] eqn:Hn; [done|].
  unfold first_candidate in Hn.
  destruct (partition_point_take (fun r => or_base_offset r <=? start) h (S n)) as (r & Hr & Hle);
    [lia|]. zbool.
  rewrite <-(take_drop (S n) h) in Hc. rewrite (drop_S _ _ _ Hr) in Hc.
  apply chain_app in Hc as (mid & Hc1 & Hb & _).
  by rewrite (chain_filter_all _ _ _ start Hc1) by lia.
Qed.

Lemma find_batches_cut s t p part start max_bytes :
  IndexState_partition s t p = Some part -> part_wf part -> p_log_start part <= start ->
  find_batches s t p start max_bytes =
  Ok (pg_batches (page_cut (Page_new max_bytes) (candidates part start)).1).
Proof.
  intros Hp Hwf Hs. unfold find_batches. rewrite Hp, (proj2 (Z.ltb_ge _ _)) by done.
  pose proof (pw_chain _ Hwf) as (lo & _ & _ & Hc).
  pose proof (entries_chain_split part lo Hc) as [Hh Ht].
  apply chain_live in Hc. apply Forall_app in Hc as [Hl1 Hl2].
  assert (Forall (fun b => ref_live (IndexedBatch_reference b)) (map Inline (p_tail part))) as Htl
    by (by rewrite List.Forall_map in Hl2 |- *).
  assert (Forall (fun b => ref_live (IndexedBatch_reference b))
    (map Footer (drop (first_candidate (p_history part) start) (p_history part)))) as Hhl
    by (rewrite List.Forall_map; by apply Forall_drop).
  unfold candidates. rewrite (page_loop_cut start _ _ Hhl), List.filter_app, page_cut_app.
  rewrite !filter_map_swap. simpl. rewrite (first_candidate_skips _ _ _ start Hh).
  destruct (page_cut _ _) as [page []]; simpl; [|done].
  rewrite (page_loop_cut start _ _ Htl), filter_map_swap. simpl. by destruct (page_cut _ _).
Qed.

Definition known_bytes (l : list IndexedBatch) : Z :=
  sumZ (map (fun b => default 0 (IndexedBatch_known_len b)) l).

Definition batch_sized (b : IndexedBatch) : Prop := 0 <= default 0 (IndexedBatch_known_len b).

#[export] Instance batch_sized_dec b : Decision (batch_sized b).
Proof. unfold batch_sized. apply _. Defined.

(** What a page under construction keeps: the batch cap, and a byte total that
    passes the budget only when the first batch alone does. *)
Record page_ok (page : Page) : Prop := {
  po_count : (length (pg_batches page) <= MAX_BATCHES_PER_PAGE)%nat;
  po_spent : pg_spent page = Z.min (known_bytes (pg_batches page)) u64_max;
  po_sized : 0 <= known_bytes (pg_batches page);
  po_bytes : known_bytes (pg_batches page) <= pg_max_bytes page \/
    known_bytes (pg_batches page) = known_bytes (take 1 (pg_batches page));
}.

Lemma known_bytes_app l1 l2 : known_bytes (l1 ++ l2) = known_bytes l1 + known_bytes l2.
Proof. unfold known_bytes. by rewrite map_app, sumZ_app. Qed.

Lemma known_bytes_one b : known_bytes [b] = default 0 (IndexedBatch_known_len b).
Proof. unfold known_bytes; simpl. lia. Qed.

Lemma MAX_BATCHES_pos : (1 <= MAX_BATCHES_PER_PAGE)%nat.
Proof. Transparent MAX_BATCHES_PER_PAGE. unfold MAX_BATCHES_PER_PAGE. lia. Qed.
#[global] Opaque MAX_BATCHES_PER_PAGE.

Lemma page_ok_push page b :
  page_ok page -> batch_sized b -> pg_max_bytes page < u64_max ->
  page_admits page b = true -> page_ok (Page_push page b).1.
Proof.
  intros [Hc Hs Hn Hb] Hbs Hm Hadm. unfold Page_push. rewrite Hadm. simpl.
  unfold page_admits in Hadm. unfold batch_sized in Hbs. pose proof MAX_BATCHES_pos.
  split; simpl; rewrite ?length_app, ?known_bytes_app, ?known_bytes_one; simpl.
  - destruct (pg_batches page) as [|x l]; simpl in *; [lia|].
    destruct (_ <=? _)%nat eqn:Hle; [done|]. apply Nat.leb_gt in Hle. lia.
  - rewrite Hs. destruct (IndexedBatch_known_len b); simpl in *; mlia.
  - lia.
  - destruct (pg_batches page) as [|x l] eqn:Hl; [right; simpl; rewrite known_bytes_one; unfold known_bytes; simpl; lia|].
    simpl in *. destruct (_ <=? _)%nat; [done|].
    destruct (IndexedBatch_known_len b) as [len|]; simpl in *; [zbool; left; mlia|].
    rewrite take_0 in *. destruct Hb; [left|right]; lia.
Qed.

(** The cut takes a prefix: as much as the bounds admit, and no less. *)
Lemma page_cut_spec page l :
  page_ok page -> Forall batch_sized l -> pg_max_bytes page < u64_max ->
  exists n, let taken := pg_batches page ++ take n l in
    pg_batches (page_cut page l).1 = taken /\ page_ok (page_cut page l).1 /\
    (forall b, l !! n = Some b -> page_admits (page_cut page l).1 b = false).
Proof.
  revert page. induction l as [|b l IH]; intros page Hok Hl Hm; simpl.
  - exists O. by rewrite app_nil_r.
  - apply Forall_cons in Hl as [Hb Hl].
    destruct (page_admits page b) eqn:Hadm.
    + pose proof (page_ok_push page b Hok Hb Hm Hadm) as Hok'.
      unfold Page_push in *. rewrite Hadm in *. simpl in Hok'.
      edestruct IH as (n & H1 & H2 & H3); [exact Hok'|done|done|].
      exists (S n). simpl in *. by rewrite H1, <-app_assoc.
    + unfold Page_push. rewrite Hadm. exists O. simpl. rewrite app_nil_r.
      split_and!; [done|done|]. by intros ? [= <-].
Qed.

Lemma page_cut_max page l : pg_max_bytes (page_cut page l).1 = pg_max_bytes page.
Proof.
  revert page. induction l as [|b l IH]; intros page; simpl; [done|].
  unfold Page_push. destruct (page_admits page b); [by rewrite IH|done].
Qed.

Lemma page_ok_new max_bytes : page_ok (Page_new max_bytes).
Proof. split; unfold known_bytes; simpl; [lia|mlia|lia|by right]. Qed.

Lemma candidates_sized part start :
  Forall (fun e => batch_sized (Inline e)) (p_tail part) -> Forall batch_sized (candidates part start).
Proof.
  intros Ht. unfold candidates. rewrite List.Forall_forall in *. intros b [Hb _]%filter_In.
  apply in_app_or in Hb as [(r & <- & _)%in_map_iff|(e & <- & He)%in_map_iff];
    [unfold batch_sized; simpl; lia|auto].
Qed.

(** A read serves a prefix of what a linear scan of every entry would: the
    binary search into the history skips nothing, an answer is non-empty when
    there is anything to read, holds at most [MAX_BATCHES_PER_PAGE] batches,
    passes the byte budget only when its first batch alone does, and stops
    short only at a batch one of the two bounds refuses. *)
Theorem find_batches_prefix (s : IndexState) t p part start max_bytes :
  reachable s -> IndexState_partition s t p = Some part ->
  p_log_start part <= start -> max_bytes < u64_max ->
  Forall (fun e => batch_sized (Inline e)) (p_tail part) ->
  exists n page, find_batches s t p start max_bytes = Ok page /\
    page = take n (candidates part start) /\
    (candidates part start <> [] -> page <> []) /\
    (length page <= MAX_BATCHES_PER_PAGE)%nat /\
    (known_bytes page <= max_bytes \/ known_bytes page = known_bytes (take 1 page)) /\
    (forall b, candidates part start !! n = Some b ->
      length page = MAX_BATCHES_PER_PAGE \/
      exists len, IndexedBatch_known_len b = Some len /\ max_bytes < known_bytes page + len).
Proof.
  intros Hr Hp Hs Hm Hsz. pose proof (reachable_part s t p part Hr Hp) as Hwf.
  pose proof (candidates_sized part start Hsz) as Hcs.
  rewrite (find_batches_cut s t p part start max_bytes Hp Hwf Hs).
  destruct (page_cut_spec (Page_new max_bytes) (candidates part start)) as (n & Heq & Hok & Hstop);
    [apply page_ok_new|done|done|].
  pose proof (page_cut_max (Page_new max_bytes) (candidates part start)) as Hmx.
  destruct (page_cut _ _) as [pg more]; simpl in *. destruct Hok as [H1 H2 H3 H4].
  rewrite Hmx in H4. exists n, (pg_batches pg). split_and!; [done|done| |done|done|].
  - intros Hne Hnil. destruct (candidates part start) as [|b l]; [done|].
    destruct n as [|n]; [|by rewrite Hnil in Heq].
    specialize (Hstop b eq_refl). unfold page_admits in Hstop. by rewrite Hnil in Hstop.
  - intros b Hb. pose proof (Hstop b Hb) as Hno. unfold page_admits in Hno.
    destruct (pg_batches pg) as [|x l] eqn:Hpg; [done|]. rewrite <-Hpg in *.
    destruct (_ <=? _)%nat eqn:Hle; [apply Nat.leb_le in Hle; left; lia|].
    destruct (IndexedBatch_known_len b) as [len|]; [|done]. right. exists len.
    split; [done|]. zbool. rewrite H2, Hmx in Hno. mlia.
Qed.

Lemma demo_sized : Forall (fun e => batch_sized (Inline e)) (p_tail demo_part).
Proof. vm_decide. Qed.

Lemma find_batches_prefix_witness :
  exists n page, find_batches demo_state "t" 0 9 100 = Ok page /\
    page = take n (candidates demo_part 9) /\
    (candidates demo_part 9 <> [] -> page <> []) /\
    (length page <= MAX_BATCHES_PER_PAGE)%nat /\
    (known_bytes page <= 100 \/ known_bytes page = known_bytes (take 1 page)) /\
    (forall b, candidates demo_part 9 !! n = Some b ->
      length page = MAX_BATCHES_PER_PAGE \/
      exists len, IndexedBatch_known_len b = Some len /\ 100 < known_bytes page + len).
Proof.
  apply find_batches_prefix.
  - apply demo_reachable.
  - vm_compute; reflexivity.
  - vm_decide.
  - vm_decide.
  - apply demo_sized.
Defined.

Lemma candidates_refs part start :
  map IndexedBatch_reference (candidates part start) =
  List.filter (fun r => start <? or_end r) (entries_of part).
Proof.
  unfold candidates, entries_of. rewrite !List.filter_app, map_app, !filter_map_swap, !map_map.
  simpl. by rewrite map_id.
Qed.

(** A consumer at a readable offset above the manifest makes progress with
    no gap: the answer is a run of the partition's entries, its first batch
    contains the offset asked for, and each batch begins where the one before it
    ends. *)
Theorem read_is_contiguous (s : IndexState) t p part start max_bytes :
  reachable s -> IndexState_partition s t p = Some part ->
  max_bytes < u64_max -> Forall (fun e => batch_sized (Inline e)) (p_tail part) ->
  IndexState_log_start s t p <= start < IndexState_end_offset s t p ->
  (forall m upto, IndexState_manifest s t p = Some (m, upto) -> upto <= start) ->
  exists first rest hi,
    find_batches s t p start max_bytes = Ok (first :: rest) /\ first :: rest `prefix_of` candidates part start /\
    ObjectRef_contains (IndexedBatch_reference first) start = Ok true /\
    chain (or_base_offset (IndexedBatch_reference first))
      (map IndexedBatch_reference (first :: rest)) hi.
Proof.
  unfold IndexState_log_start, IndexState_end_offset, IndexState_manifest.
  intros Hr Hp Hm Hsz Hs Hman. rewrite Hp in *. simpl in Hman.
  pose proof (reachable_part s t p part Hr Hp) as Hwf.
  rewrite (find_batches_cut s t p part start max_bytes Hp Hwf) by lia.
  destruct (page_cut_spec (Page_new max_bytes) (candidates part start)) as (n & Heq & Hok & Hstop);
    [apply page_ok_new|by apply candidates_sized|done|]. rewrite Heq. simpl.
  destruct (pw_chain _ Hwf) as (lo & H0 & Hlo & Hc).
  destruct (chain_keep_above _ _ _ start Hc) as (d & mid & _ & Hd & Hk & _ & Hor & _).
  rewrite <-candidates_refs in Hk.
  destruct (candidates part start) as [|b l] eqn:Hcand; [simpl in Hk; unfold lo_ok in Hlo;
    destruct (p_manifest part) as [[m u]|]; [specialize (Hman m u eq_refl)|]; lia|].
  destruct n as [|n].
  { specialize (Hstop b eq_refl). unfold page_admits in Hstop. by rewrite Heq in Hstop. }
  assert (mid <= start).
  { destruct Hor as [| ->]; [done|]. unfold lo_ok in Hlo.
    destruct (p_manifest part) as [[m u]|]; [specialize (Hman m u eq_refl)|]; lia. }
  assert (start < or_end (IndexedBatch_reference b)).
  { assert (List.In b (candidates part start)) as Hin by (rewrite Hcand; by left).
    apply filter_In in Hin as [_ ?]. by zbool. }
  pose proof Hk as (Hb & Hl & _).
  change (chain mid (map IndexedBatch_reference (b :: l)) (p_end_offset part)) in Hk.
  rewrite <-(take_drop (S n) (b :: l)), map_app in Hk. apply chain_app in Hk as (hi & Hk & _).
  destruct Hk as (_ & _ & Hk). exists b, (take n l), hi. split_and!; try done.
  { exists (drop n l). by rewrite <-app_comm_cons, take_drop. }
  unfold ObjectRef_contains. rewrite (ref_live_end _ Hl), (proj2 (Z.leb_le _ _)) by lia. simpl.
  by rewrite (proj2 (Z.ltb_lt _ _)).
Qed.

Lemma read_is_contiguous_witness :
  exists first rest hi,
    find_batches demo_state "t" 0 9 100 = Ok (first :: rest) /\ first :: rest `prefix_of` candidates demo_part 9 /\
    ObjectRef_contains (IndexedBatch_reference first) 9 = Ok true /\
    chain (or_base_offset (IndexedBatch_reference first))
      (map IndexedBatch_reference (first :: rest)) hi.
Proof.
  apply (read_is_contiguous demo_state "t" 0 demo_part).
  - apply demo_reachable.
  - vm_compute; reflexivity.
  - vm_decide.
  - apply demo_sized.
  - vm_decide.
  - vm_compute. intros m upto Hm. by simplify_eq.
Defined.
