(* ===== verification/CompactProps.v ===== *)
(** * CompactProps: what a compaction round may hold *)

From stdpp Require Import base tactics list numbers strings gmap sorting.
From Stdlib Require Import ZArith Lia.
From S2P Require Import Prelude Types Machine Coverage Partition IndexFold Compact IndexProps.

Open Scope Z_scope.

(** ** A walk counts records, never fewer than none *)

Definition seen_ok (seen : list (ObjectKey * Extent)) : Prop := Forall (fun e => 0 <= ex_records e.2) seen.
Definition walk_ok (walk : Walk) : Prop := seen_ok (wk_seen walk).

Lemma see_ok key base object_end tail whole seen :
  base <= object_end -> seen_ok seen -> seen_ok (see key base object_end tail whole seen).
Proof.
  intros Hle. induction 1 as [|[k e] seen He Hs IH]; simpl.
  - repeat constructor; simpl; lia.
  - case_match; constructor; simpl in *; try done; lia.
Qed.

Lemma visit_ok walk batch walk' seen :
  walk_ok walk -> Walk_visit walk batch = Ok (walk', seen) -> walk_ok walk'.
Proof.
  unfold Walk_visit. intros Hw. destruct (ObjectRef_end_offset _) as [e|?|] eqn:He; simpl; [|done..].
  intros [= <- _]. apply ref_end_Ok in He as (-> & ? & _).
  apply see_ok; [unfold or_end; lia|done].
Qed.

Lemma visit_page_ok page walk furthest walk' furthest' :
  walk_ok walk -> visit_page walk furthest page = Ok (walk', furthest') -> walk_ok walk'.
Proof.
  revert walk furthest. induction page as [|b page IH]; simpl; intros walk furthest Hw; [by intros [= <- _]|].
  destruct (Walk_visit walk b) as [[w [e|]]|?|] eqn:Hv; simpl; [|intros [= <- _]|done..];
    pose proof (visit_ok _ _ _ _ Hw Hv); [|done]. by apply IH.
Qed.

Lemma survey_loop_ok index t p fuel walk cursor end_ walk' :
  walk_ok walk -> survey_loop index t p fuel walk cursor end_ = Ok walk' -> walk_ok walk'.
Proof.
  revert walk cursor. induction fuel as [|fuel IH]; simpl; intros walk cursor Hw; [by intros [= <-]|].
  case_match; [by intros [= <-]|].
  destruct (find_batches _ _ _ _ _) as [page|?|]; simpl; [|done..].
  case_bool_decide; [by intros [= <-]|].
  destruct (visit_page walk cursor page) as [[w f]|?|] eqn:Hv; simpl; [|done..].
  pose proof (visit_page_ok _ _ _ _ _ Hw Hv). case_match; [by intros [= <-]|by apply IH].
Qed.

Lemma bar_below_seen start walk probe : wk_seen (bar_below start walk probe) = wk_seen walk.
Proof.
  unfold bar_below. revert walk. induction probe as [|b probe IH]; intros walk; simpl; [done|].
  rewrite IH. by case_match.
Qed.

(** The totals of a walk: not negative, and the history is a part of them. *)
Record amp_ok (amp : ReadAmp) : Prop := {
  ao_records : 0 <= ra_records amp;
  ao_history : 0 <= ra_history_records amp <= ra_records amp;
  ao_objects : 0 <= ra_history_objects amp <= ra_objects_touched amp;
}.

Lemma finish_one_ok amp extent amp' :
  amp_ok amp -> 0 <= ex_records extent -> finish_one amp extent = Some amp' -> amp_ok amp'.
Proof.
  intros [H1 H2 H3] He. unfold finish_one. case_match; [|done]. intros [= <-].
  split; simpl; repeat case_match; lia.
Qed.

Lemma finish_loop_ok barred seen amp :
  amp_ok amp -> seen_ok seen -> amp_ok (finish_loop barred seen amp).
Proof.
  intros Ha Hs. revert amp Ha. induction Hs as [|[k e] seen He Hs IH]; intros amp Ha; simpl; [done|].
  case_match; [by apply IH|]. destruct (finish_one amp e) as [amp'|] eqn:Hf; [|done].
  eauto using finish_one_ok.
Qed.

Lemma Walk_finish_ok walk : walk_ok walk -> amp_ok (Walk_finish walk).
Proof.
  intros Hw. destruct (finish_loop_ok (wk_barred walk) (wk_seen walk) ReadAmp_zero) as [H1 H2 H3];
    [split; simpl; lia|done|]. by split.
Qed.

Lemma survey_ok index t p start end_ amp : survey index t p start end_ = Ok amp -> amp_ok amp.
Proof.
  unfold survey. intros Hs. apply res_bind_Ok in Hs as (w & Hw & Hs).
  apply res_bind_Ok in Hs as (w' & Hl & [= <-]). apply Walk_finish_ok.
  eapply survey_loop_ok, Hl. assert (wk_seen w = []) as Hnil; [|by unfold walk_ok; rewrite Hnil; constructor].
  case_match; [|by simplify_eq]. destruct (Offset_new _); simpl in Hw; try by simplify_eq.
  apply res_bind_Ok in Hw as (probe & _ & [= <-]). by rewrite bar_below_seen.
Qed.

Lemma read_amp_ok index t p start end_ amp : read_amp index t p start end_ = Ok amp -> amp_ok amp.
Proof.
  unfold read_amp. destruct (survey _ _ _ _ _) as [a|e|] eqn:Hs; [intros [= <-]; by eapply survey_ok| |done].
  destruct e; try done. case_match; [|done]. intros (ls & _ & Hs')%res_bind_Ok. by eapply survey_ok.
Qed.

(** ** A plan *)

(** What a plan promises: its costs fit the budget, it is worth the rewrite. *)
Record plan_ok (topic : TopicId) (partition : PartitionId) (plan : CompactionPlan) : Prop := {
  po_topic : cp_topic plan = topic;
  po_partition : cp_partition plan = partition;
  po_cost : 0 <= ce_records_rewritten (cp_cost plan) <= COMPACTION_PLAN_RECORDS_BUDGET;
  po_worth : COMPACTION_READ_AMP_THRESHOLD * ce_puts (cp_cost plan) < ce_gets (cp_cost plan);
}.

Lemma plan_promises index t p start end_ planned :
  plan index t p start end_ = Ok (Planned planned) -> plan_ok t p planned.
Proof.
  unfold plan. intros (amp & Ha%read_amp_ok & Hp)%res_bind_Ok.
  set (amp' := match ra_first_tail_base amp with Some _ => before_tail amp | None => amp end) in Hp.
  assert (0 <= ra_records amp') as Hr.
  { unfold amp'. destruct Ha as [H1 H2 H3]. destruct (ra_first_tail_base amp); simpl; [apply H2|apply H1]. }
  destruct (ra_covered amp') as [[lo hi]|]; [|done].
  destruct (ratio_exceeds amp' _) eqn:Hx; simpl in Hp; [|done].
  destruct (within_budget (CostEstimate_of amp')) eqn:Hw; simpl in Hp; [|done].
  injection Hp as <-. unfold ratio_exceeds, within_budget in *. simpl in *.
  split; unfold cp_cost; simpl; try done; [zbool; lia|]. case_match; [done|]. zbool. lia.
Qed.

Lemma derive_plan index plan planned : derive index plan = Ok planned -> pi_plan planned = plan.
Proof. unfold derive. by intros (inputs & _ & [= <-])%res_bind_Ok. Qed.

(** ** A sweep *)

Definition plan_key (planned : PlannedInputs) : TopicId * PartitionId :=
  (cp_topic (pi_plan planned), cp_partition (pi_plan planned)).
Definition candidate_key (c : SweepCandidate) : TopicId * PartitionId := (sc_topic c, sc_partition c).
Definition round_cost (round : list PlannedInputs) : Z :=
  foldr (fun planned total => ce_records_rewritten (cp_cost (pi_plan planned)) + total) 0 round.

Lemma round_cost_app r1 r2 : round_cost (r1 ++ r2) = round_cost r1 + round_cost r2.
Proof. induction r1 as [|x r1 IH]; simpl; [done|]. rewrite IH. lia. Qed.

(** [plan]'s window for a candidate. *)
Definition window_end (index : IndexState) (c : SweepCandidate) : Offset :=
  let end_ := IndexState_end_offset index (sc_topic c) (sc_partition c) in
  match Offset_add (sc_from c) COMPACTION_PLAN_RECORDS_BUDGET with Ok limit => Z.min limit end_ | _ => end_ end.

Section sweep.
Context (index : IndexState).

(** A partition whose candidate was not worth a rewrite. *)
Definition passed_over (k : TopicId * PartitionId) : Prop :=
  exists c, candidate_key c = k /\ plan index (sc_topic c) (sc_partition c) (sc_from c) (window_end index c) = Ok NotWorthIt.

Definition planned_ok (planned : PlannedInputs) : Prop := exists t p, plan_ok t p (pi_plan planned).

Record sweep_inv (st : SweepState) : Prop := {
  si_nodup : NoDup (map plan_key (sw_round (ss_swept st)) ++ sw_held_over (ss_swept st));
  si_seen : forall k, k ∈ map plan_key (sw_round (ss_swept st)) ++ sw_held_over (ss_swept st) -> k ∈ ss_seen st;
  si_all : forall k, k ∈ ss_seen st ->
    k ∈ map plan_key (sw_round (ss_swept st)) \/ k ∈ sw_held_over (ss_swept st) \/ passed_over k;
  si_ok : Forall planned_ok (sw_round (ss_swept st));
  si_cost : round_cost (sw_round (ss_swept st)) + ss_budget st = COMPACTION_PLAN_RECORDS_BUDGET;
  si_budget : 0 <= ss_budget st;
}.

Lemma sweep_inv_held st k :
  sweep_inv st -> k ∉ ss_seen st ->
  sweep_inv (mkSweepState (hold_over (ss_swept st) k) (ss_budget st) ({[k]} ∪ ss_seen st)).
Proof.
  intros [H1 H2 H3 H4 H5 H6] Hk. split; simpl; try done.
  - rewrite app_assoc. apply NoDup_app. split_and!; [done| |apply NoDup_singleton]. set_solver.
  - set_solver.
  - set_solver.
Qed.

Lemma sweep_inv_planned st planned :
  sweep_inv st -> plan_key planned ∉ ss_seen st -> planned_ok planned ->
  ce_records_rewritten (cp_cost (pi_plan planned)) <= ss_budget st ->
  sweep_inv (mkSweepState (mkSweep (sw_round (ss_swept st) ++ [planned]) (sw_held_over (ss_swept st)))
    (ss_budget st - ce_records_rewritten (cp_cost (pi_plan planned))) ({[plan_key planned]} ∪ ss_seen st)).
Proof.
  intros [H1 H2 H3 H4 H5 H6] Hk Hok Hle. split; simpl; rewrite ?map_app.
  - rewrite <-app_assoc. simpl. rewrite <-Permutation_middle. constructor; [|done]. intros Hin. by apply Hk, H2.
  - set_solver.
  - set_solver.
  - by apply Forall_app; split; [|constructor].
  - rewrite round_cost_app. simpl. lia.
  - by apply Z.le_0_sub.
Qed.

Lemma sweep_one_inv st c st' :
  sweep_inv st -> sweep_one index st c = Ok st' ->
  sweep_inv st' /\ ss_seen st' = {[candidate_key c]} ∪ ss_seen st.
Proof.
  intros Hi. unfold sweep_one. case_decide as Hin; [intros [= <-]; split; [done|]; unfold candidate_key; set_solver|].
  intros (planning & Hp & Hs)%res_bind_Ok. destruct planning as [|cost|planned].
  - injection Hs as <-. split; [|done]. destruct Hi as [H1 H2 H3 H4 H5 H6]. split; simpl; try done; [set_solver|].
    intros k [->%elem_of_singleton|Hk]%elem_of_union; [|by apply H3]. right; right. by exists c.
  - injection Hs as <-. split; [by apply sweep_inv_held|done].
  - destruct (plan_promises _ _ _ _ _ _ Hp) as [Ht Hpt Hc Hw]. case_match eqn:Hb.
    + injection Hs as <-. split; [by apply sweep_inv_held|done].
    + apply res_bind_Ok in Hs as (derived & Hd%derive_plan & [= <-]). subst planned.
      assert (plan_key derived = (sc_topic c, sc_partition c)) as Hkey by (unfold plan_key; by rewrite Ht, Hpt).
      split; [|done]. rewrite <-Hkey. apply sweep_inv_planned; [done|by rewrite Hkey| |by zbool; lia].
      by exists (sc_topic c), (sc_partition c).
Qed.

Lemma sweep_inv_start : sweep_inv (mkSweepState (mkSweep [] []) COMPACTION_PLAN_RECORDS_BUDGET ∅).
Proof. split; simpl; try done; try set_solver; apply NoDup_nil_2. Qed.

Lemma sweep_fold_inv candidates st st' :
  sweep_inv st -> res_foldl (sweep_one index) st candidates = Ok st' ->
  sweep_inv st' /\ ss_seen st' = list_to_set (map candidate_key candidates) ∪ ss_seen st.
Proof.
  revert st. induction candidates as [|c cs IH]; simpl; intros st Hi; [intros [= <-]; split; [done|set_solver]|].
  intros (st1 & H1 & H2)%res_bind_Ok. destruct (sweep_one_inv _ _ _ Hi H1) as [Hi1 Hs1].
  destruct (IH _ Hi1 H2) as [Hi2 Hs2]. split; [done|]. rewrite Hs2, Hs1. set_solver.
Qed.
End sweep.

(** ** A round *)

Lemma admissible_loop_sum previous records ordered :
  NoDup (map plan_key ordered) ->
  (forall last planned, previous = Some last -> planned ∈ ordered ->
    plan_key planned <> (cp_topic last, cp_partition last)) ->
  Forall planned_ok ordered -> 0 <= records -> records + round_cost ordered <= COMPACTION_PLAN_RECORDS_BUDGET ->
  admissible_loop previous records ordered = Ok (records + round_cost ordered).
Proof.
  revert previous records. induction ordered as [|x ordered IH]; simpl; intros previous records Hnd Hpr Hok H0 Hle.
  { by rewrite Z.add_0_r. }
  apply NoDup_cons in Hnd as [Hx Hnd]. apply Forall_cons in Hok as [(t & p & [_ _ Hc _]) Hok].
  assert (0 <= round_cost ordered) as Hpos.
  { clear -Hok. induction Hok as [|y l (t & p & [_ _ Hy _]) Hl IHl]; simpl in *; lia. }
  replace (match previous with Some _ => _ | None => _ end) with false.
  - replace (i64_saturating_add records _) with (records + ce_records_rewritten (cp_cost (pi_plan x))).
    + rewrite IH; [by rewrite Z.add_assoc|done| |done|simpl in *; lia|simpl in *; lia].
      intros last planned [= <-] Hin Heq. apply Hx. change (plan_key x) with (cp_topic (pi_plan x), cp_partition (pi_plan x)). rewrite <-Heq. by apply list_elem_of_fmap_2.
    + unfold i64_saturating_add, COMPACTION_PLAN_RECORDS_BUDGET in *. simpl in *. mlia.
  - destruct previous as [last|]; [|done]. symmetry. specialize (Hpr last x eq_refl (list_elem_of_here _ _)).
    unfold plan_key in Hpr. case_bool_decide; simpl; [|done].
    destruct (_ =? _) eqn:Hp; simpl; [|done]. zbool. destruct Hpr. congruence.
Qed.

Lemma round_cost_perm r1 r2 : r1 ≡ₚ r2 -> round_cost r1 = round_cost r2.
Proof. induction 1; simpl; lia. Qed.

Lemma order_round_Ok round :
  NoDup (map plan_key round) -> Forall planned_ok round -> round_cost round <= COMPACTION_PLAN_RECORDS_BUDGET ->
  exists ordered, order_round round = Ok ordered /\ ordered ≡ₚ round.
Proof.
  intros Hnd Hok Hle. pose proof (merge_sort_Permutation plan_le round) as Hperm.
  exists (merge_sort plan_le round). split; [|done]. unfold order_round, admissible.
  rewrite admissible_loop_sum; simpl; [|by rewrite Hperm|done|by rewrite Hperm|done|by rewrite (round_cost_perm _ _ Hperm)].
  rewrite (round_cost_perm _ _ Hperm). by rewrite (proj2 (Z.ltb_ge _ _)).
Qed.

(** The sweep and the merge agree on what a round may hold.  A partition is
    in at most one of the round and the held-over list, and only once; each
    candidate's partition is in one of them or was judged not worth a rewrite;
    the round's records fit the budget, every plan in it cuts its objects more
    than the threshold, and [merge_round]'s check accepts the round in its own
    order, so a sweep never starts a merge that is refused as overlapping or too
    large. *)
Theorem sweep_round_admissible (index : IndexState) (candidates : list SweepCandidate) (s : Sweep) :
  compaction_sweep index candidates = Ok s ->
  NoDup (map plan_key (sw_round s) ++ sw_held_over s) /\
  (forall c, c ∈ candidates ->
    candidate_key c ∈ map plan_key (sw_round s) \/ candidate_key c ∈ sw_held_over s \/
    passed_over index (candidate_key c)) /\
  Forall planned_ok (sw_round s) /\
  round_cost (sw_round s) <= COMPACTION_PLAN_RECORDS_BUDGET /\
  exists ordered, order_round (sw_round s) = Ok ordered /\ ordered ≡ₚ sw_round s.
Proof.
  unfold compaction_sweep. intros (st & Hf & [= <-])%res_bind_Ok.
  destruct (sweep_fold_inv index _ _ _ (sweep_inv_start index) Hf) as [[H1 H2 H3 H4 H5 H6] Hseen].
  assert (round_cost (sw_round (ss_swept st)) <= COMPACTION_PLAN_RECORDS_BUDGET) by lia.
  split_and!; [done| |done|done|].
  - intros c Hc. apply H3. rewrite Hseen. apply elem_of_union_l, elem_of_list_to_set. by apply list_elem_of_fmap_2.
  - apply order_round_Ok; [|done|done]. by apply NoDup_app in H1 as [? _].
Qed.

(** Two partitions: "t" has seventeen objects that left the tail window. *)
Definition demo_fragments : IndexState :=
  after IndexState_new
    (map (fun i => mkMetadataEntry (Z.of_nat i + 1)
       (BatchCommitted (demo_object i)
          [mkCommittedSpan "t" 0 2 (Bounded (Z.of_nat i) 10) None] (1000 + Z.of_nat i))) (seq 0 145)).

Definition demo_candidates : list SweepCandidate :=
  [mkSweepCandidate "t" 0 0; mkSweepCandidate "t" 0 4; mkSweepCandidate "u" 0 0].

Definition demo_sweep : Sweep :=
  match compaction_sweep demo_fragments demo_candidates with Ok s => s | _ => mkSweep [] [] end.

Lemma sweep_round_admissible_witness :
  map plan_key (sw_round demo_sweep) = [("t", 0)] /\ round_cost (sw_round demo_sweep) = 34 /\
  exists ordered, order_round (sw_round demo_sweep) = Ok ordered /\ ordered ≡ₚ sw_round demo_sweep.
Proof.
  split_and!; [vm_compute; reflexivity..|].
  destruct (sweep_round_admissible demo_fragments demo_candidates demo_sweep) as (_ & _ & _ & _ & H);
    [vm_compute; reflexivity|exact H].
Defined.
