(* ===== verification/QuotaProps.v ===== *)
(** * QuotaProps: the tier counts and the entry quota

    The state keeps running tier counts so that a size is read without a scan,
    and a quota refuses the page that would take the index past its ceiling.
    Both are proved against the counts a full scan would give.  The counts are
    machine integers: the theorems hold while the entries held before and
    after a page fit an [i64], which is what an address space can hold. *)

From stdpp Require Import base tactics list numbers strings gmap.
From Stdlib Require Import ZArith Lia.
From S2P Require Import Prelude Types Coverage Partition IndexFold IndexSpec IndexRefine.
From S2P Require Import IndexProps.

Open Scope Z_scope.

(** What a scan of the partitions counts. *)
Definition part_count (p : PartitionIndex) : Z := Tiers_total (PartitionIndex_tiers p).

Definition scan (parts : gmap (string * Z) PartitionIndex) : Tiers :=
  mkTiers (total_of (fun p => t_tail (PartitionIndex_tiers p)) parts)
          (total_of (fun p => t_history (PartitionIndex_tiers p)) parts)
          (total_of (fun p => t_manifests (PartitionIndex_tiers p)) parts).

Definition held (parts : gmap (string * Z) PartitionIndex) : Z := total_of part_count parts.

(** The running counts are what a scan would find. *)
Definition counted (s : IndexState) : Prop := tiers s = scan (flat (partitions s)).

Lemma held_scan parts : held parts = Tiers_total (scan parts).
Proof.
  unfold held, scan, Tiers_total; simpl.
  induction parts as [|k p parts Hk IH] using map_ind; [done|].
  rewrite !total_of_insert, Hk, IH. unfold part_count, Tiers_total. simpl. lia.
Qed.

Lemma part_count_entries p :
  part_count p = Z.of_nat (length (entries_of p)) + t_manifests (PartitionIndex_tiers p).
Proof. unfold part_count, Tiers_total, entries_of; simpl. rewrite length_app, length_map. lia. Qed.

Lemma tiers_nonneg p :
  0 <= t_tail (PartitionIndex_tiers p) /\ 0 <= t_history (PartitionIndex_tiers p) /\
  0 <= t_manifests (PartitionIndex_tiers p).
Proof. simpl. destruct (p_manifest p); lia. Qed.

Lemma part_count_nonneg p : 0 <= part_count p.
Proof. pose proof (tiers_nonneg p). unfold part_count, Tiers_total. lia. Qed.

Lemma held_nonneg parts : 0 <= held parts.
Proof. apply total_of_nonneg. intros. apply part_count_nonneg. Qed.

Lemma scan_nonneg parts :
  0 <= t_tail (scan parts) /\ 0 <= t_history (scan parts) /\ 0 <= t_manifests (scan parts).
Proof. simpl. split_and!; apply total_of_nonneg; intros k p _; apply tiers_nonneg. Qed.

(** ** Installing partitions

    Both installing loops of [apply] put one slot per key into the map and move
    the counts by the slot's difference. *)

Definition inst (acc : Parts) (kv : (string * Z) * PartitionIndex) : Parts :=
  install_projected acc kv.

Definition slot_in (parts : map2 PartitionIndex) (k : string * Z) : PartitionIndex :=
  default PartitionIndex_default (lookup2 parts k.1 k.2).

Lemma held_insert parts k slot :
  held (<[k := slot]> (flat parts)) = held (flat parts) + part_count slot - part_count (slot_in parts k).
Proof.
  unfold held, slot_in. rewrite total_of_insert. destruct k as [t p]. rewrite lookup_flat. simpl.
  destruct (lookup2 parts t p); simpl; [done|]. unfold part_count, Tiers_total. simpl. lia.
Qed.

Lemma inst_flat acc kv : flat (inst acc kv).1 = <[kv.1 := kv.2]> (flat acc.1).
Proof. destruct acc as [parts total], kv as [[t p] slot]. simpl. apply flat_insert2. Qed.

(** One installation keeps the counts exact while they fit. *)
Lemma inst_counted acc kv :
  acc.2 = scan (flat acc.1) -> held (flat acc.1) + part_count kv.2 <= u64_max ->
  (inst acc kv).2 = scan (flat (inst acc kv).1).
Proof.
  intros Hex Hroom. rewrite inst_flat. rewrite held_scan in Hroom.
  destruct acc as [parts total], kv as [[t p] slot]; simpl in *. subst total.
  pose proof (scan_nonneg (flat parts)) as Hsc. pose proof (tiers_nonneg slot) as Hsl.
  unfold part_count, Tiers_total in Hroom.
  unfold scan, Tiers_add, Tiers_sub; simpl t_tail; simpl t_history; simpl t_manifests.
  rewrite !total_of_insert, lookup_flat. simpl in Hroom, Hsc, Hsl.
  f_equal; destruct (lookup2 parts t p) as [old|] eqn:Hold; simpl; try mlia;
    match goal with |- context [total_of ?f _] =>
      pose proof (total_of_ge f (flat parts) (t, p) old (fun _ q _ => ltac:(apply tiers_nonneg))) as Hge
    end; rewrite lookup_flat in Hge; specialize (Hge Hold); simpl in Hge; mlia.
Qed.

Definition counts_sum (l : list ((string * Z) * PartitionIndex)) : Z :=
  sumZ (map (fun kv => part_count kv.2) l).

Lemma insts_counted l acc :
  acc.2 = scan (flat acc.1) -> held (flat acc.1) + counts_sum l <= u64_max ->
  (foldl inst acc l).2 = scan (flat (foldl inst acc l).1).
Proof.
  revert acc. induction l as [|kv l IH]; intros acc Hex Hroom; simpl; [done|].
  unfold counts_sum in *. simpl in Hroom.
  assert (0 <= sumZ (map (fun kv => part_count kv.2) l)).
  { clear. induction l as [|kv l IH]; simpl; [lia|]. pose proof (part_count_nonneg kv.2). lia. }
  apply IH; [apply inst_counted; [done|lia]|]. rewrite inst_flat. destruct kv as [k slot]; simpl in *.
  rewrite held_insert. pose proof (part_count_nonneg (slot_in acc.1 k)). lia.
Qed.

Lemma insts_lookup l acc k :
  k ∉ l.*1 -> flat (foldl inst acc l).1 !! k = flat acc.1 !! k.
Proof.
  revert acc. induction l as [|kv l IH]; intros acc Hk; simpl; [done|].
  rewrite fmap_cons, not_elem_of_cons in Hk. destruct Hk as [Hk Hl].
  rewrite IH by done. by rewrite inst_flat, lookup_insert_ne by congruence.
Qed.

Lemma slot_in_flat parts k : slot_in parts k = default PartitionIndex_default (flat parts !! k).
Proof. unfold slot_in. destruct k as [t p]. by rewrite lookup_flat. Qed.

(** What a run of installations adds, key by key against the map before it. *)
Lemma insts_held l acc :
  NoDup (l.*1) ->
  held (flat (foldl inst acc l).1) =
  held (flat acc.1) + sumZ (map (fun kv => part_count kv.2 - part_count (slot_in acc.1 kv.1)) l).
Proof.
  revert acc. induction l as [|[k slot] l IH]; intros acc Hnd; [simpl; lia|].
  rewrite fmap_cons, NoDup_cons in Hnd. destruct Hnd as [Hk Hnd]. cbn [foldl map fst snd sumZ foldr].
  rewrite IH, inst_flat, held_insert by done. simpl.
  assert (map (fun kv => part_count kv.2 - part_count (slot_in (inst acc (k, slot)).1 kv.1)) l =
          map (fun kv => part_count kv.2 - part_count (slot_in acc.1 kv.1)) l) as ->.
  { apply map_ext_in. intros [k' s'] Hin%list_elem_of_In. simpl.
    rewrite !slot_in_flat, inst_flat; simpl. rewrite lookup_insert_ne; [done|].
    intros ->. apply Hk. apply list_elem_of_fmap. by exists (k', s'). }
  unfold sumZ in *. lia.
Qed.

Lemma insts_installed l acc k slot :
  NoDup (l.*1) -> (k, slot) ∈ l -> flat (foldl inst acc l).1 !! k = Some slot.
Proof.
  revert acc. induction l as [|kv l IH]; intros acc Hnd Hin; [by apply elem_of_nil in Hin|].
  rewrite fmap_cons, NoDup_cons in Hnd. destruct Hnd as [Hk Hnd]. simpl.
  apply elem_of_cons in Hin as [<-|Hin]; [|by apply IH].
  rewrite insts_lookup by done. by rewrite inst_flat, lookup_insert_eq.
Qed.

(** The installed slots are all in the map afterwards. *)
Lemma counts_sum_le l acc : NoDup (l.*1) -> counts_sum l <= held (flat (foldl inst acc l).1).
Proof.
  intros Hnd. apply total_of_ge_list; [intros; apply part_count_nonneg|done|].
  intros k v Hin. by apply insts_installed.
Qed.

(** ** The two loops of [apply] as one run of installations *)

(** What the first loop installs at a key with staged entries. *)
Definition grown (slot : PartitionIndex) (st : StagedSpan) : PartitionIndex :=
  let '(e, entries, when) := st in foldl push (observe when (set_end_offset e slot)) entries.

Definition fresh_slots (parts : map2 PartitionIndex) (projected : Projected)
    (l : list ((string * Z) * StagedSpan)) : list ((string * Z) * PartitionIndex) :=
  omap (fun kv => match projected !! kv.1 with
                  | Some _ => None
                  | None => Some (kv.1, grown (slot_in parts kv.1) kv.2)
                  end) l.

Lemma fresh_slots_keys parts projected l k :
  k ∈ (fresh_slots parts projected l).*1 -> k ∈ l.*1 /\ projected !! k = None.
Proof.
  intros ([k' slot] & -> & Hin)%list_elem_of_fmap. simpl.
  apply list_elem_of_omap in Hin as ([k2 st] & Hin & Heq). simpl in Heq.
  destruct (projected !! k2) eqn:Hp; [done|]. injection Heq as <- <-.
  split; [|done]. apply list_elem_of_fmap. by exists (k2, st).
Qed.

Lemma fresh_slots_NoDup parts projected l :
  NoDup (l.*1) -> NoDup ((fresh_slots parts projected l).*1).
Proof.
  induction l as [|[k st] l IH]; intros Hnd; [constructor|].
  rewrite fmap_cons, NoDup_cons in Hnd. destruct Hnd as [Hk Hnd]. simpl.
  destruct (projected !! k); [by apply IH|]. rewrite fmap_cons, NoDup_cons. split; [|by apply IH].
  by intros [? _]%fresh_slots_keys.
Qed.

Lemma install_staged_inst projected parts total k st :
  projected !! k = None ->
  install_staged projected (parts, total) (k, st) = inst (parts, total) (k, grown (slot_in parts k) st).
Proof.
  intros Hk. destruct k as [t p], st as [[e entries] when]. unfold install_staged, inst. simpl.
  rewrite Hk. unfold slot_in; simpl. f_equal. f_equal. by destruct (lookup2 parts t p).
Qed.

Lemma fresh_slots_ext parts parts' projected l :
  (forall k, k ∈ l.*1 -> slot_in parts k = slot_in parts' k) ->
  fresh_slots parts projected l = fresh_slots parts' projected l.
Proof.
  induction l as [|[k st] l IH]; intros Hk; [done|]. simpl.
  rewrite (Hk k) by (rewrite fmap_cons; set_solver).
  rewrite IH; [done|]. intros k' Hk'. apply Hk. rewrite fmap_cons. set_solver.
Qed.

Lemma install_staged_run projected parts total l :
  NoDup (l.*1) ->
  foldl (install_staged projected) (parts, total) l =
  foldl inst (parts, total) (fresh_slots parts projected l).
Proof.
  revert parts total. induction l as [|[k st] l IH]; intros parts total Hnd; [done|].
  rewrite fmap_cons, NoDup_cons in Hnd. destruct Hnd as [Hk Hnd]. cbn [foldl].
  unfold fresh_slots. cbn [omap list_omap]. cbn [fst snd]. fold (fresh_slots parts projected l).
  destruct (projected !! k) as [q|] eqn:Hp.
  - rewrite <-IH by done. destruct k as [t p], st as [[e entries] when]. simpl. by rewrite Hp.
  - rewrite (install_staged_inst _ _ _ _ _ Hp). cbn [foldl].
    destruct (inst (parts, total) (k, grown (slot_in parts k) st)) as [parts1 total1] eqn:Hi.
    rewrite IH by done. f_equal. apply fresh_slots_ext. intros k' Hk'.
    rewrite !slot_in_flat. change parts1 with (parts1, total1).1. rewrite <-Hi, inst_flat. simpl.
    rewrite lookup_insert_ne; [done|]. by intros ->.
Qed.

Definition installed (s : IndexState) (staged : StagedSpans) (projected : Projected)
    : list ((string * Z) * PartitionIndex) :=
  fresh_slots (partitions s) projected (map_to_list staged) ++ map_to_list projected.

Lemma installed_NoDup s staged projected : NoDup ((installed s staged projected).*1).
Proof.
  unfold installed. rewrite fmap_app. apply NoDup_app. split_and!.
  - apply fresh_slots_NoDup, NoDup_fst_map_to_list.
  - intros k [_ Hk]%fresh_slots_keys ([k' slot] & -> & Hin%elem_of_map_to_list)%list_elem_of_fmap.
    simpl in Hk. congruence.
  - apply NoDup_fst_map_to_list.
Qed.

Lemma finish_installs s prev staged projected cs :
  let r := foldl inst (partitions s, tiers s) (installed s staged projected) in
  partitions (finish s prev staged projected cs) = r.1 /\
  tiers (finish s prev staged projected cs) = r.2.
Proof.
  unfold finish, installed. rewrite install_staged_run by apply NoDup_fst_map_to_list.
  rewrite <-foldl_app. change inst with install_projected.
  by destruct (foldl install_projected _ _).
Qed.

(** ** The contributions add up to the difference *)

Lemma push_count p e : part_count (push p e) = part_count p + 1.
Proof.
  rewrite !part_count_entries, push_entries, length_app.
  destruct (push_fields p e) as (_ & Hm & _). simpl. rewrite Hm. lia.
Qed.

Lemma grown_count slot st :
  part_count (grown slot st) = part_count slot + Z.of_nat (length st.1.2).
Proof.
  destruct st as [[e entries] when]. simpl.
  change (part_count slot) with (part_count (observe when (set_end_offset e slot))).
  generalize (observe when (set_end_offset e slot)). clear slot.
  induction entries as [|x entries IH]; intros slot; simpl; [lia|].
  rewrite IH, push_count. lia.
Qed.

Lemma i64_of_usize_id n : n <= i64_max -> i64_of_usize n = n.
Proof. mlia. Qed.

(** The quota's own sum, with every count in range. *)
Lemma contributions_sum s staged projected :
  (forall k slot, (k, slot) ∈ installed s staged projected -> part_count slot <= i64_max) ->
  (forall k, part_count (slot_in (partitions s) k) <= i64_max) ->
  sumZ (map (fun '(_, _, delta) => delta) (contributions s staged projected)) =
  sumZ (map (fun kv => part_count kv.2 - part_count (slot_in (partitions s) kv.1))
         (installed s staged projected)).
Proof.
  intros Hin Hold. unfold contributions, installed in *. rewrite !map_app, !sumZ_app. f_equal.
  - assert (forall k slot, (k, slot) ∈ fresh_slots (partitions s) projected (map_to_list staged) ->
      part_count slot <= i64_max) as Hin'
      by (intros k slot Hk; apply (Hin k), elem_of_app; by left). clear Hin.
    induction (map_to_list staged) as [|[[t p] [[e entries] when]] l IH]; [done|].
    unfold fresh_slots in *. simpl in *. destruct (projected !! (t, p)); [by apply IH|]. simpl.
    apply (f_equal2 Z.add);
      [|apply IH; intros k slot Hk; apply (Hin' k), elem_of_cons; by right].
    specialize (Hin' (t, p) _ ltac:(apply elem_of_cons; by left)).
    pose proof (grown_count (slot_in (partitions s) (t, p)) (e, entries, when)) as Hg.
    simpl in Hg, Hin'. pose proof (part_count_nonneg (slot_in (partitions s) (t, p))).
    rewrite Hg in Hin' |- *. rewrite i64_of_usize_id by lia. lia.
  - f_equal. rewrite map_map. apply map_ext_in. intros [[t p] slot] Hk%list_elem_of_In.
    fold (part_count slot). rewrite (i64_of_usize_id (part_count slot)) 
      by (apply (Hin (t, p)), elem_of_app; by right).
    f_equal. specialize (Hold (t, p)). unfold slot_in in *. simpl in *.
    unfold IndexState_partition. destruct (lookup2 (partitions s) t p); simpl in *; [|done].
    by rewrite i64_of_usize_id.
Qed.

(** Room: the entries held before and after the page together fit an [i64]. *)
Definition room (s : IndexState) (parts' : gmap (string * Z) PartitionIndex) : Prop :=
  held (flat (partitions s)) + held parts' <= i64_max.

#[export] Instance room_dec s parts' : Decision (room s parts').
Proof. unfold room. apply _. Defined.

Lemma finish_counted s prev staged projected cs :
  counted s -> room s (flat (partitions (finish s prev staged projected cs))) ->
  counted (finish s prev staged projected cs).
Proof.
  unfold counted, room. destruct (finish_installs s prev staged projected cs) as [-> ->].
  intros Hc Hroom. apply insts_counted; [done|]. simpl.
  pose proof (counts_sum_le _ (partitions s, tiers s) (installed_NoDup s staged projected)). mlia.
Qed.

Lemma held_part s k : part_count (slot_in (partitions s) k) <= held (flat (partitions s)).
Proof.
  rewrite slot_in_flat. destruct (flat (partitions s) !! k) as [p|] eqn:Hk; simpl.
  - apply (total_of_ge part_count _ k p); [intros; apply part_count_nonneg|done].
  - pose proof (held_nonneg (flat (partitions s))). unfold part_count, Tiers_total; simpl. lia.
Qed.

(** The quota check decides by the exact count the page would leave. *)
Lemma check_quota_exact s q prev staged projected cs n :
  counted s -> quota s = Some q ->
  n = held (flat (partitions (finish s prev staged projected cs))) ->
  held (flat (partitions s)) + n <= i64_max ->
  check_quota s staged projected = Ok tt /\ n <= q_ceiling q \/
  exists t p, check_quota s staged projected = Err (IndexQuotaExceeded t p n (q_ceiling q)) /\
    q_ceiling q < n.
Proof.
  intros Hc Hq Hn Hroom. unfold check_quota. rewrite Hq.
  pose proof (held_nonneg (flat (partitions s))) as H0.
  assert (0 <= n) as H1 by (subst n; apply held_nonneg).
  destruct (finish_installs s prev staged projected cs) as [Hp _]. rewrite Hp in Hn.
  pose proof (installed_NoDup s staged projected) as Hnd.
  rewrite contributions_sum.
  - pose proof (insts_held _ (partitions s, tiers s) Hnd) as Hh. simpl in Hh. rewrite <-Hn in Hh.
    set (net := sumZ _) in *. rewrite Hc, <-held_scan, i64_of_usize_id by lia.
    replace (Z.max (i64_saturating_add (held (flat (partitions s))) net) 0) with n by mlia.
    unfold would_cross. destruct (q_ceiling q <? n) eqn:Hlt; simpl; zbool; [right|by left].
    destruct (largest _) as [[[t p] d]|]; eauto.
  - intros k slot Hin. pose proof (insts_installed _ (partitions s, tiers s) k slot Hnd Hin) as Hk.
    apply (total_of_ge part_count) in Hk; [|intros; apply part_count_nonneg].
    fold (held (flat (foldl inst (partitions s, tiers s) (installed s staged projected)).1)) in Hk.
    lia.
  - intros k. pose proof (held_part s k). lia.
Qed.

(** The running tier counts stay exactly what a scan of every partition
    would count, page after page. *)
Theorem tier_counts_exact (s : IndexState) es s' :
  reachable s -> counted s -> Forall entry_wf es -> IndexState_apply s es = Ok s' ->
  room s (flat (partitions s')) -> counted s'.
Proof.
  intros Hr Hc Hes Happ Hroom. pose proof (reachable_wf s Hr) as Hwf.
  destruct (apply_Ok s es s' Hwf Hes Happ) as (a & Hspec & _ & _).
  destruct (apply_accepts s es a Hwf Hes Hspec)
    as (b & prev & pr & tk & cs & pr' & _ & _ & _ & _ & _ & Heq & _).
  rewrite Heq in Happ. simplify_res. by apply finish_counted.
Qed.

Lemma tier_counts_exact_witness : counted (after IndexState_new demo_commits).
Proof.
  apply (tier_counts_exact IndexState_new demo_commits).
  - constructor.
  - vm_compute; reflexivity.
  - apply demo_commits_wf.
  - apply after_Ok. vm_compute; reflexivity.
  - vm_decide.
Defined.

(** The quota refuses exactly the pages that would pass it: a page the
    specification accepts is applied when the entries it leaves are within the
    ceiling, and otherwise refused with the count it would have left. *)
Theorem quota_decides_by_exact_count (s : IndexState) q es a :
  reachable s -> counted s -> quota s = Some q -> Forall entry_wf es ->
  spec_fold (abs s) es = Ok a -> room s (ai_parts a) ->
  if held (ai_parts a) <=? q_ceiling q
  then exists s', IndexState_apply s es = Ok s' /\ abs s' ≡ a /\
         IndexState_entries s' = held (ai_parts a)
  else exists t p,
         IndexState_apply s es =
         Err (IndexQuotaExceeded t p (held (ai_parts a)) (q_ceiling q)).
Proof.
  intros Hr Hc Hq Hes Hspec Hroom. pose proof (reachable_wf s Hr) as Hwf.
  destruct (apply_accepts s es a Hwf Hes Hspec)
    as (b & prev & pr & tk & cs & pr' & _ & _ & _ & _ & _ & Heq & Habs).
  assert (flat (partitions (finish s prev (b_staged b) pr' cs)) = ai_parts a) as Hparts
    by (destruct Habs as (_ & Hp & _); by rewrite <-Hp).
  pose proof Hroom as Hroom'. unfold room in Hroom'. rewrite <-Hparts in Hroom'.
  destruct (check_quota_exact s q prev (b_staged b) pr' cs _ Hc Hq eq_refl Hroom')
    as [[Hck Hle]|(t & p & Hck & Hgt)]; rewrite Hparts in *.
  - rewrite (proj2 (Z.leb_le _ _)) by done. rewrite Hck in Heq. eexists. split; [exact Heq|].
    split; [done|]. unfold IndexState_entries.
    rewrite (finish_counted s prev (b_staged b) pr' cs Hc) by (by rewrite Hparts).
    by rewrite Hparts, <-held_scan.
  - rewrite (proj2 (Z.leb_gt _ _)) by done. rewrite Hck in Heq. eauto.
Qed.

(** The specification's own result on a page, for one it accepts. *)
Definition spec_after (s : IndexState) (es : list MetadataEntry) : AbsIndex :=
  match spec_fold (abs s) es with Ok a => a | _ => abs s end.

Lemma quota_decides_by_exact_count_witness :
  let q := mkIndexQuota 133 100 in
  exists t p, IndexState_apply (with_quota q) demo_commits = Err (IndexQuotaExceeded t p 134 133).
Proof.
  assert (is_ok (spec_fold (abs (with_quota (mkIndexQuota 133 100))) demo_commits) = true) as Hok
    by (vm_compute; reflexivity).
  apply (quota_decides_by_exact_count (with_quota (mkIndexQuota 133 100)) (mkIndexQuota 133 100)
    demo_commits (spec_after (with_quota (mkIndexQuota 133 100)) demo_commits)).
  - constructor.
  - vm_compute; reflexivity.
  - reflexivity.
  - apply demo_commits_wf.
  - unfold spec_after. by destruct (spec_fold _ _).
  - vm_decide.
Defined.
