(* ===== verification/Allocator.v ===== *)
(** * Allocator: positions, producer lines and their expiry

    Models [oqueue-coordinator/src/allocator.rs], [allocator/admission.rs],
    [allocator/expiry.rs] and the answer types of [commit.rs]: how a commit is
    admitted span by span against the producers' sequences, staged at the next
    position of every partition it names, and applied once it is journaled. *)

From stdpp Require Import base tactics list numbers strings gmap.
From Stdlib Require Import ZArith Lia.
From S2P Require Import Prelude Types.

Open Scope Z_scope.

(** ** Answers ([commit.rs]) *)

Definition UNASSIGNED_OFFSET : Z := -1.

Record Assignment : Type := mkAssignment {
  as_topic : TopicId;
  as_partition : PartitionId;
  as_base_offset : Offset;
  as_record_count : Z;
}.

Inductive RejectReason : Type := OutOfOrder | Duplicate | StaleEpoch.

Inductive SpanOutcome : Type :=
| Assigned (assignment : Assignment)
| Rejected (reason : RejectReason).

Record CommitAck : Type := mkCommitAck {
  ca_version : CommitVersion;
  ca_epoch : CoordinatorEpoch;
  ca_assignments : list Assignment;
  ca_outcomes : list SpanOutcome;
}.

Definition CommitAck_base_offset (self : CommitAck) (topic : TopicId) (partition : PartitionId)
    : Z :=
  match List.find (fun a => (as_partition a =? partition) && bool_decide (as_topic a = topic))
          (ca_assignments self) with
  | None => UNASSIGNED_OFFSET
  | Some a => as_base_offset a
  end.

(** ** Producer recency ([expiry.rs])

    [order] is a [BTreeMap] from stamp to key, read only at its least stamp;
    [last_touch] maps a key back to its stamp.  The stamp counter is a [u64]
    that counts touches one by one. *)

Definition MAX_TRACKED_PRODUCERS : nat := Z.to_nat 100000.

Section recency.
Context {K : Type} `{Countable K}.

Record Recency : Type := mkRecency {
  rc_next : Z;
  rc_order : gmap Z K;
  rc_last_touch : gmap K Z;
}.

Definition Recency_default : Recency := mkRecency 0 ∅ ∅.

Definition touch (self : Recency) (key : K) : Recency :=
  let order := match rc_last_touch self !! key with
               | Some old => delete old (rc_order self)
               | None => rc_order self
               end in
  let stamp := rc_next self in
  mkRecency (stamp + 1) (<[stamp := key]> order) (<[key := stamp]> (rc_last_touch self)).

(** [order.iter().next()]: the entry with the least stamp. *)
Definition first_entry (order : gmap Z K) : option (Z * K) :=
  map_fold (fun stamp key best =>
    match best with
    | Some (s, k) => if s <=? stamp then Some (s, k) else Some (stamp, key)
    | None => Some (stamp, key)
    end) None order.

Definition evict_oldest (self : Recency) : option (Recency * K) :=
  match first_entry (rc_order self) with
  | None => None
  | Some (stamp, key) =>
      Some (mkRecency (rc_next self) (delete stamp (rc_order self))
              (delete key (rc_last_touch self)), key)
  end.

(** [while producer_state.len() > cap]: each iteration evicts one key, so the
    size of the map bounds the iterations. *)
Fixpoint evict_loop {V} (fuel : nat) (state : gmap K V) (recency : Recency) (cap : nat)
    : gmap K V * Recency :=
  match fuel with
  | O => (state, recency)
  | S fuel =>
      if (cap <? size state)%nat then
        match evict_oldest recency with
        | None => (state, recency)
        | Some (recency, oldest) => evict_loop fuel (delete oldest state) recency cap
        end
      else (state, recency)
  end.

Definition evict_over_cap {V} (state : gmap K V) (recency : Recency) (cap : nat)
    : gmap K V * Recency := evict_loop (size state) state recency cap.

End recency.
Arguments Recency K {_ _}.

(** ** The allocator ([allocator.rs]) *)

Record ProducerState : Type := mkProducerState {
  ps_epoch : ProducerEpoch;
  ps_sequence : Z;
  ps_base_offset : Offset;
  ps_record_count : Z;
}.

Definition provisional (epoch : ProducerEpoch) (sequence record_count : Z) : ProducerState :=
  mkProducerState epoch sequence Offset_ZERO record_count.

Notation ProducerKey := (Z * string * Z)%type.

Record StagedCommit : Type := mkStagedCommit {
  sc_entry : MetadataEntry;
  sc_assignments : list Assignment;
  sc_ends : list (TopicId * PartitionId * Offset);
  sc_producer_ends : list (ProducerKey * ProducerState);
  sc_next_version : CommitVersion;
}.

Record Allocator : Type := mkAllocator {
  al_next_version : CommitVersion;
  al_end_offsets : map2 Offset;
  al_producer_state : gmap ProducerKey ProducerState;
  al_producer_recency : Recency ProducerKey;
}.

Definition Allocator_new : Allocator := mkAllocator CommitVersion_ZERO ∅ ∅ Recency_default.

Definition al_end_offset (self : Allocator) (topic : TopicId) (partition : PartitionId)
    : option Offset := lookup2 (al_end_offsets self) topic partition.

(** The state of the loop of [stage]. *)
Record Staging : Type := mkStaging {
  sn_running : gmap (string * Z) Offset;
  sn_assignments : list Assignment;
  sn_producer_ends : list (ProducerKey * ProducerState);
}.

Definition stage_one (self : Allocator) (acc : Staging) (span : CommittedSpan) : Res Staging :=
  let key := (cs_topic span, cs_partition span) in
  let base :=
    match sn_running acc !! key with
    | Some running => running
    | None => default Offset_ZERO (al_end_offset self (cs_topic span) (cs_partition span))
    end in
  let? next := Offset_add base (cs_record_count span) in
  let assignments :=
    sn_assignments acc ++
      [mkAssignment (cs_topic span) (cs_partition span) base (cs_record_count span)] in
  let producer_ends :=
    match cs_producer span with
    | Some identity =>
        sn_producer_ends acc ++
          [((pi_id identity, cs_topic span, cs_partition span),
            mkProducerState (pi_epoch identity) (pi_sequence identity) base
              (cs_record_count span))]
    | None => sn_producer_ends acc
    end in
  Ok (mkStaging (<[key := next]> (sn_running acc)) assignments producer_ends).

Definition stage (self : Allocator) (object : ObjectKey) (spans : list CommittedSpan)
    (written_at : Timestamp) : Res StagedCommit :=
  let? acc := res_foldl (stage_one self) (mkStaging ∅ [] []) spans in
  let ends := map (fun '((topic, partition), e) => (topic, partition, e))
                (map_to_list (sn_running acc)) in
  let? next := CommitVersion_advance (al_next_version self) 1 in
  Ok (mkStagedCommit
        (mkMetadataEntry (al_next_version self) (BatchCommitted object spans written_at))
        (sn_assignments acc) ends (sn_producer_ends acc) next).

Definition stage_trim (self : Allocator) (topic : TopicId) (partition : PartitionId)
    (start : Offset) : Res StagedCommit :=
  let e := default Offset_ZERO (al_end_offset self topic partition) in
  if e <? start then Err (TrimPastEnd topic partition start e)
  else
    let? next := CommitVersion_advance (al_next_version self) 1 in
    Ok (mkStagedCommit
          (mkMetadataEntry (al_next_version self) (Trimmed topic partition start)) [] [] [] next).

Definition stage_retention (self : Allocator) (topic : TopicId) (retention_ms : option Z)
    : Res StagedCommit :=
  let? next := CommitVersion_advance (al_next_version self) 1 in
  Ok (mkStagedCommit
        (mkMetadataEntry (al_next_version self) (TopicRetentionChanged topic retention_ms))
        [] [] [] next).

(** The two loops of [apply], over the offsets and over the producers. *)
Definition apply_ends (offsets : map2 Offset) (ends : list (TopicId * PartitionId * Offset))
    : map2 Offset :=
  foldl (fun m '(topic, partition, e) => insert2 m topic partition e) offsets ends.

Definition apply_producers (acc : gmap ProducerKey ProducerState * Recency ProducerKey)
    (ends : list (ProducerKey * ProducerState))
    : gmap ProducerKey ProducerState * Recency ProducerKey :=
  foldl (fun '(state, recency) '(key, s) => (<[key := s]> state, touch recency key)) acc ends.

Definition al_apply (self : Allocator) (staged : StagedCommit)
    : Allocator * (CommitVersion * list Assignment) :=
  let offsets := apply_ends (al_end_offsets self) (sc_ends staged) in
  let '(state, recency) :=
    apply_producers (al_producer_state self, al_producer_recency self)
      (sc_producer_ends staged) in
  let '(state, recency) := evict_over_cap state recency MAX_TRACKED_PRODUCERS in
  (mkAllocator (sc_next_version staged) offsets state recency,
   (me_version (sc_entry staged), sc_assignments staged)).

Definition set_next_version (v : CommitVersion) (self : Allocator) : Allocator :=
  mkAllocator v (al_end_offsets self) (al_producer_state self) (al_producer_recency self).

(** [replay] moves the version line to the entry before anything that may fail,
    so the state it leaves is returned with the result. *)
Definition al_replay (self : Allocator) (entry : MetadataEntry) : Allocator * Res unit :=
  if me_version entry <? al_next_version self
  then (self, Err (NonMonotonicCommitVersion (u64_saturating_sub (al_next_version self) 1)
                     (me_version entry)))
  else
    let self := set_next_version (me_version entry) self in
    match me_record entry with
    | BatchCommitted object spans written_at =>
        match stage self object spans written_at with
        | Ok staged => ((al_apply self staged).1, Ok tt)
        | Err e => (self, Err e)
        | Panic => (self, Panic)
        end
    | _ =>
        match CommitVersion_advance (al_next_version self) 1 with
        | Ok next => (set_next_version next self, Ok tt)
        | Err e => (self, Err e)
        | Panic => (self, Panic)
        end
    end.

(** ** Admission ([admission.rs]) *)

Definition next_sequence (last : Z) : Z := if last =? i32_max then 0 else last + 1.

Record Admission : Type := mkAdmission {
  ad_admitted : list (nat * CommittedSpan);
  ad_replayed : list (nat * TopicId * PartitionId * Assignment);
  ad_rejected : list (nat * TopicId * PartitionId * RejectReason);
}.

Inductive AdmitDecision : Type :=
| Admit
| Replay (state : ProducerState)
| Reject (reason : RejectReason).

Definition classify (current : option ProducerState) (is_provisional : bool)
    (sequence epoch record_count : Z) : AdmitDecision :=
  match current with
  | None => if sequence =? 0 then Admit else Reject OutOfOrder
  | Some state =>
      if epoch <? ps_epoch state then Reject StaleEpoch
      else if ps_epoch state <? epoch then
        if sequence =? 0 then Admit else Reject OutOfOrder
      else if sequence =? next_sequence (ps_sequence state) then Admit
      else if negb is_provisional && (sequence =? ps_sequence state) then
        if record_count =? ps_record_count state then Replay state else Reject Duplicate
      else Reject OutOfOrder
  end.

Notation RunningProducers := (gmap ProducerKey ProducerState).

Definition record_decision (acc : Admission * RunningProducers) (key : ProducerKey)
    (index : nat) (span : CommittedSpan) (decision : AdmitDecision)
    : Admission * RunningProducers :=
  let '(admission, running) := acc in
  match decision with
  | Admit =>
      let running :=
        match cs_producer span with
        | Some identity =>
            <[key := provisional (pi_epoch identity) (pi_sequence identity)
                       (cs_record_count span)]> running
        | None => running
        end in
      (mkAdmission (ad_admitted admission ++ [(index, span)]) (ad_replayed admission)
         (ad_rejected admission), running)
  | Replay state =>
      (mkAdmission (ad_admitted admission)
         (ad_replayed admission ++
            [(index, cs_topic span, cs_partition span,
              mkAssignment (cs_topic span) (cs_partition span) (ps_base_offset state)
                (ps_record_count state))])
         (ad_rejected admission), running)
  | Reject reason =>
      (mkAdmission (ad_admitted admission) (ad_replayed admission)
         (ad_rejected admission ++ [(index, cs_topic span, cs_partition span, reason)]), running)
  end.

Definition admit_one (self : Allocator) (acc : Admission * RunningProducers)
    (ispan : nat * CommittedSpan) : Admission * RunningProducers :=
  let '(index, span) := ispan in
  match cs_producer span with
  | None =>
      (mkAdmission (ad_admitted acc.1 ++ [(index, span)]) (ad_replayed acc.1) (ad_rejected acc.1),
       acc.2)
  | Some identity =>
      let key := (pi_id identity, cs_topic span, cs_partition span) in
      let '(current, is_provisional) :=
        match acc.2 !! key with
        | Some state => (Some state, true)
        | None => (al_producer_state self !! key, false)
        end in
      record_decision acc key index span
        (classify current is_provisional (pi_sequence identity) (pi_epoch identity)
           (cs_record_count span))
  end.

Definition al_admit (self : Allocator) (spans : list CommittedSpan) : Admission :=
  (foldl (admit_one self) (mkAdmission [] [] [], ∅) (imap pair spans)).1.
