(* ===== verification/AllocatorProps.v ===== *)
(** * AllocatorProps: what holds of positions, admission and expiry

    Producer recency is an exact least-recently-touched order, so the map of
    producer lines stays under its cap and loses only its oldest keys; staged
    positions are the running sums of the counts; the allocator and the index
    that fold the same log agree on every end offset; admission partitions the
    spans it is given, and a commit sent again is answered with the offsets of
    the first. *)

From stdpp Require Import base tactics list numbers strings gmap.
From Stdlib Require Import ZArith Lia.
From S2P Require Import Prelude Types Coverage Partition IndexFold IndexSpec IndexRefine.
From S2P Require Import IndexProps Allocator.

Open Scope Z_scope.

(** ** Recency *)

Section recency_props.
Context {K : Type} `{Countable K}.
Implicit Types r : Recency K.

(** The two maps are inverse to each other, below the counter. *)
Record rec_wf (r : Recency K) : Prop := {
  rw_inverse : forall s k, rc_order r !! s = Some k <-> rc_last_touch r !! k = Some s;
  rw_below : forall s k, rc_order r !! s = Some k -> s < rc_next r;
}.

Lemma rec_wf_default : rec_wf Recency_default.
Proof. split; simpl; intros s k; by rewrite ?lookup_empty. Qed.

Lemma touch_wf r k : rec_wf r -> rec_wf (touch r k).
Proof.
  intros [Hinv Hlt]. unfold touch. split; simpl.
  - intros s k'. rewrite !lookup_insert.
    destruct (decide (rc_next r = s)) as [<-|Hs], (decide (k = k')) as [<-|Hk]; try done.
    + split; [by intros [= ?]|]. intros Hl%Hinv%Hlt. lia.
    + split; [|by intros [= ?]]. intros Hl. destruct (rc_last_touch r !! k) as [old|] eqn:Ho.
      * apply lookup_delete_Some in Hl as [Hne Hl%Hinv]. congruence.
      * apply Hinv in Hl. congruence.
    + destruct (rc_last_touch r !! k) as [old|] eqn:Ho; [|apply Hinv].
      rewrite lookup_delete_Some. rewrite Hinv. split; [by intros [_ ?]|].
      intros Hl. split; [|done]. intros ->. apply Hinv in Ho, Hl. congruence.
  - intros s k' [[<- _]|[_ Hl]]%lookup_insert_Some; [lia|].
    assert (rc_order r !! s = Some k') as ?%Hlt; [|lia].
    destruct (rc_last_touch r !! k); [by apply lookup_delete_Some in Hl as [_ ?]|done].
Qed.

Lemma first_entry_spec (order : gmap Z K) :
  match first_entry order with
  | None => order = ∅
  | Some (s, k) => order !! s = Some k /\ forall s' k', order !! s' = Some k' -> s <= s'
  end.
Proof.
  unfold first_entry.
  apply (map_fold_weak_ind (fun best m => match best with
    | None => m = ∅
    | Some (s, k) => m !! s = Some k /\ forall s' k', m !! s' = Some k' -> s <= s'
    end)); [done|].
  intros s k m [[s0 k0]|] Hm Hbest.
  - destruct Hbest as [Hl Hmin]. destruct (s0 <=? s) eqn:Hle; zbool; split.
    + rewrite lookup_insert_ne; [done|]. intros ->. congruence.
    + intros s' k' [[<- _]|[_ Hs']]%lookup_insert_Some; [done|eauto].
    + by rewrite lookup_insert_eq.
    + intros s' k' [[<- _]|[_ Hs']]%lookup_insert_Some; [lia|]. apply Hmin in Hs'. lia.
  - subst m. split; [by rewrite lookup_insert_eq|].
    intros s' k' [[<- _]|[_ ?]]%lookup_insert_Some; [lia|]. by rewrite lookup_empty in *.
Qed.

(** Eviction takes the least recently touched key. *)
Lemma evict_oldest_spec r r' k :
  rec_wf r -> evict_oldest r = Some (r', k) ->
  rec_wf r' /\ rc_last_touch r' = delete k (rc_last_touch r) /\ rc_next r' = rc_next r /\
  exists s, rc_last_touch r !! k = Some s /\
    forall k' s', rc_last_touch r !! k' = Some s' -> s <= s'.
Proof.
  intros [Hinv Hlt] He. unfold evict_oldest in He. pose proof (first_entry_spec (rc_order r)) as Hf.
  destruct (first_entry (rc_order r)) as [[s k0]|]; [|done]. injection He as <- <-.
  destruct Hf as [Hs Hmin]. split_and!; [|done|done|].
  - split; simpl.
    + intros s' k'. rewrite !lookup_delete_Some, Hinv. apply Hinv in Hs. split.
      * intros [Hne Hl]. split; [|done]. intros ->. congruence.
      * intros [Hne Hl]. split; [|done]. intros ->. apply Hinv in Hl, Hs. congruence.
    + intros s' k' [_ ?]%lookup_delete_Some. eauto.
  - exists s. split; [by apply Hinv|]. intros k' s' Hl. eapply Hmin. by apply Hinv.
Qed.

Lemma evict_oldest_None r : rec_wf r -> evict_oldest r = None -> rc_last_touch r = ∅.
Proof.
  intros [Hinv _] He. unfold evict_oldest in He. pose proof (first_entry_spec (rc_order r)) as Hf.
  destruct (first_entry (rc_order r)) as [[s k]|]; [done|].
  apply map_empty. intros k. destruct (rc_last_touch r !! k) as [s|] eqn:Hl; [|done].
  apply Hinv in Hl. by rewrite Hf, lookup_empty in Hl.
Qed.

Context {V : Type}.
Implicit Types st : gmap K V.

(** The recency names exactly the keys of the map it ages. *)
Definition tracks st r : Prop := rec_wf r /\ dom st = dom (rc_last_touch r).

Lemma tracks_touch st r k v : tracks st r -> tracks (<[k := v]> st) (touch r k).
Proof.
  intros [Hwf Hd]. split; [by apply touch_wf|]. simpl. rewrite !dom_insert_L. by rewrite Hd.
Qed.

(** What an eviction run leaves: the cap holds, the maps still agree, and
    whatever was lost was touched before whatever is left. *)
Lemma evict_loop_spec fuel st r cap :
  tracks st r -> (size st <= fuel)%nat ->
  let '(st', r') := evict_loop fuel st r cap in
  tracks st' r' /\ st' ⊆ st /\ rc_last_touch r' ⊆ rc_last_touch r /\
  size st' = Nat.min (size st) cap /\
  (forall k s k' s', rc_last_touch r !! k = Some s -> st' !! k = None ->
     rc_last_touch r' !! k' = Some s' -> s < s').
Proof.
  revert st r. induction fuel as [|fuel IH]; intros st r [Hwf Hd] Hsz; simpl.
  - split_and!; try done; [lia|]. intros k s k' s' Hk Hst.
    apply not_elem_of_dom in Hst. rewrite Hd in Hst. apply not_elem_of_dom in Hst. congruence.
  - destruct (cap <? size st)%nat eqn:Hlt.
    + apply Nat.ltb_lt in Hlt. destruct (evict_oldest r) as [[r1 old]|] eqn:He.
      * destruct (evict_oldest_spec r r1 old Hwf He) as (Hwf1 & Hlt1 & _ & s0 & Hold & Hmin).
        assert (is_Some (st !! old)) as [v Hv].
        { apply elem_of_dom. rewrite Hd. apply elem_of_dom. eauto. }
        assert (size (delete old st) = size st - 1)%nat as Hsz1
          by (rewrite map_size_delete_Some by eauto; lia).
        specialize (IH (delete old st) r1).
        destruct (evict_loop fuel (delete old st) r1 cap) as [st' r'].
        destruct IH as (Ht & Hsub & Hsubr & Hsz' & Hord).
        { split; [done|]. by rewrite Hlt1, !dom_delete_L, Hd. }
        { lia. }
        split_and!; [done| | |lia|].
        { etrans; [done|apply delete_subseteq]. }
        { etrans; [done|]. rewrite Hlt1. apply delete_subseteq. }
        intros k s k' s' Hk Hst' Hk'. destruct (decide (k = old)) as [->|Hne].
        { assert (s = s0) as -> by congruence.
          assert (rc_last_touch r1 !! k' = Some s') as Hr1 by (by eapply lookup_weaken).
          rewrite Hlt1, lookup_delete_Some in Hr1. destruct Hr1 as [Hne' Hr1].
          pose proof (Hmin _ _ Hr1). assert (s0 <> s'); [|lia]. intros ->.
          destruct Hwf as [Hinv _]. apply Hinv in Hold, Hr1. congruence. }
        eapply Hord; [|done|done]. rewrite Hlt1. by rewrite lookup_delete_ne.
      * apply evict_oldest_None in He; [|done]. rewrite He, dom_empty_L in Hd.
        apply dom_empty_inv_L in Hd. subst st. rewrite map_size_empty in Hlt. lia.
    + apply Nat.ltb_ge in Hlt. split_and!; try done; [lia|]. intros k s k' s' Hk Hst.
      apply not_elem_of_dom in Hst. rewrite Hd in Hst. apply not_elem_of_dom in Hst. congruence.
Qed.
End recency_props.

(** ** Positions *)

(** Where the next record of a partition goes. *)
Definition al_end (al : Allocator) (k : string * Z) : Z :=
  default Offset_ZERO (al_end_offset al k.1 k.2).

Definition span_key (span : CommittedSpan) : string * Z := (cs_topic span, cs_partition span).

Definition bump_end (ends : string * Z -> Z) (span : CommittedSpan) : string * Z -> Z :=
  fun k => if decide (k = span_key span) then ends k + cs_record_count span else ends k.

(** The positions a reference allocator gives: each span at the end its
    partition has reached, counting the spans before it. *)
Fixpoint assigned_at (ends : string * Z -> Z) (spans : list CommittedSpan) : list Assignment :=
  match spans with
  | [] => []
  | span :: spans =>
      mkAssignment (cs_topic span) (cs_partition span) (ends (span_key span))
        (cs_record_count span) :: assigned_at (bump_end ends span) spans
  end.

Definition bump_ends (ends : string * Z -> Z) (spans : list CommittedSpan) : string * Z -> Z :=
  foldl bump_end ends spans.

(** The producer lines the spans leave, in order. *)
Fixpoint lines_at (ends : string * Z -> Z) (spans : list CommittedSpan)
    : list (ProducerKey * ProducerState) :=
  match spans with
  | [] => []
  | span :: spans =>
      match cs_producer span with
      | Some i => [((pi_id i, cs_topic span, cs_partition span),
                    mkProducerState (pi_epoch i) (pi_sequence i) (ends (span_key span))
                      (cs_record_count span))]
      | None => []
      end ++ lines_at (bump_end ends span) spans
  end.

Definition staging_end (al : Allocator) (acc : Staging) (k : string * Z) : Z :=
  match sn_running acc !! k with Some e => e | None => al_end al k end.

Lemma bump_end_ext f g span k : (forall k, f k = g k) -> bump_end f span k = bump_end g span k.
Proof. intros Hfg. unfold bump_end. by rewrite Hfg. Qed.

Lemma assigned_at_ext spans f g :
  (forall k, f k = g k) -> assigned_at f spans = assigned_at g spans.
Proof.
  revert f g. induction spans as [|s spans IH]; intros f g Hfg; simpl; [done|].
  rewrite Hfg. f_equal. apply IH. intros k. by apply bump_end_ext.
Qed.

Lemma lines_at_ext spans f g : (forall k, f k = g k) -> lines_at f spans = lines_at g spans.
Proof.
  revert f g. induction spans as [|s spans IH]; intros f g Hfg; simpl; [done|].
  rewrite Hfg. f_equal. apply IH. intros k. by apply bump_end_ext.
Qed.

Lemma bump_ends_ext spans f g k :
  (forall k, f k = g k) -> bump_ends f spans k = bump_ends g spans k.
Proof.
  revert f g. induction spans as [|s spans IH]; intros f g Hfg; simpl; [done|].
  apply IH. intros k'. by apply bump_end_ext.
Qed.

Lemma bump_ends_sum spans f t p :
  bump_ends f spans (t, p) = f (t, p) + sumZ (map (span_count t p) spans).
Proof.
  revert f. induction spans as [|s spans IH]; intros f; simpl; [lia|].
  unfold bump_ends in IH. rewrite IH. unfold bump_end, span_count, span_key.
  repeat case_decide; try congruence; unfold sumZ; lia.
Qed.

Lemma stage_loop al spans acc acc' :
  res_foldl (stage_one al) acc spans = Ok acc' ->
  sn_assignments acc' = sn_assignments acc ++ assigned_at (staging_end al acc) spans /\
  sn_producer_ends acc' = sn_producer_ends acc ++ lines_at (staging_end al acc) spans /\
  (forall k, staging_end al acc' k = bump_ends (staging_end al acc) spans k).
Proof.
  revert acc. induction spans as [|span spans IH]; intros acc; simpl.
  - intros [= <-]. by rewrite !app_nil_r.
  - intros (acc1 & (next & Hadd & [= <-])%res_bind_Ok & Hrest)%res_bind_Ok.
    apply Offset_add_Ok in Hadd as (_ & _ & ->). apply IH in Hrest as (H1 & H2 & H3). clear IH.
    fold (al_end al (cs_topic span, cs_partition span)) in H1, H2, H3.
    change (match sn_running acc !! (cs_topic span, cs_partition span) with
      | Some running => running
      | None => al_end al (cs_topic span, cs_partition span)
      end) with (staging_end al acc (span_key span)) in H1, H2, H3.
    set (acc1 := mkStaging _ _ _) in *.
    assert (forall k, staging_end al acc1 k = bump_end (staging_end al acc) span k) as Hend.
    { intros k. unfold staging_end at 1, bump_end, acc1. simpl. rewrite lookup_insert.
      unfold span_key. repeat case_decide; subst; done. }
    rewrite (assigned_at_ext _ _ _ Hend) in H1. rewrite (lines_at_ext _ _ _ Hend) in H2.
    split_and!.
    + rewrite H1. simpl. by rewrite <-app_assoc.
    + rewrite H2. simpl. by destruct (cs_producer span); simpl; rewrite <-?app_assoc.
    + intros k. rewrite H3. by apply bump_ends_ext.
Qed.

Lemma stage_Ok al object spans now st :
  stage al object spans now = Ok st ->
  exists acc, sc_entry st = mkMetadataEntry (al_next_version al) (BatchCommitted object spans now) /\
    sc_assignments st = assigned_at (al_end al) spans /\
    sc_producer_ends st = lines_at (al_end al) spans /\
    sc_ends st = map (fun '((topic, partition), e) => (topic, partition, e))
                   (map_to_list (sn_running acc)) /\
    (forall k, staging_end al acc k = bump_ends (al_end al) spans k) /\
    sc_next_version st = al_next_version al + 1.
Proof.
  unfold stage. intros (acc & Hacc & (v & (_ & ->)%CommitVersion_advance_Ok & [= <-])%res_bind_Ok)%res_bind_Ok.
  apply stage_loop in Hacc as (H1 & H2 & H3). exists acc. simpl in *.
  assert (forall k, staging_end al (mkStaging ∅ [] []) k = al_end al k) as He
    by (intros k; unfold staging_end; simpl; by rewrite lookup_empty).
  rewrite (assigned_at_ext _ _ _ He) in H1. rewrite (lines_at_ext _ _ _ He) in H2.
  split_and!; done.
Qed.

Lemma apply_ends_lookup (m : map2 Offset) (running : gmap (string * Z) Offset) k :
  flat (apply_ends m (map (fun '((t, p), e) => (t, p, e)) (map_to_list running))) !! k =
  match running !! k with Some e => Some e | None => flat m !! k end.
Proof.
  rewrite <-(foldl_upd_map (fun m : map2 Offset => flat m)
    (fun m kv => insert2 m kv.1.1 kv.1.2 kv.2) (fun _ e _ => Some e) running m k).
  - f_equal. unfold apply_ends. f_equal. revert m. induction (map_to_list running) as [|[[t p] e] l IH]; intros m; simpl; [done|].
    apply IH.
  - intros m' [t p] e _. simpl. by rewrite flat_insert2.
Qed.

Lemma al_apply_ends al st :
  al_end_offsets (al_apply al st).1 = apply_ends (al_end_offsets al) (sc_ends st) /\
  al_next_version (al_apply al st).1 = sc_next_version st.
Proof.
  unfold al_apply. destruct (apply_producers _ _) as [a b]. by destruct (evict_over_cap a b _).
Qed.

Lemma al_end_flat al k : al_end al k = default 0 (flat (al_end_offsets al) !! k).
Proof. unfold al_end, al_end_offset. destruct k as [t p]. by rewrite lookup_flat. Qed.

(** Once applied, a commit has moved each partition's end by its counts. *)
Lemma apply_stage_ends al object spans now st k :
  stage al object spans now = Ok st ->
  al_end (al_apply al st).1 k = bump_ends (al_end al) spans k.
Proof.
  intros (acc & _ & _ & _ & Hends & Hend & _)%stage_Ok. rewrite <-Hend.
  rewrite al_end_flat. destruct (al_apply_ends al st) as [-> _]. rewrite Hends, apply_ends_lookup.
  unfold staging_end. rewrite al_end_flat. by destruct (sn_running acc !! k).
Qed.

Lemma assigned_at_lookup ends spans i span :
  spans !! i = Some span ->
  assigned_at ends spans !! i = Some (mkAssignment (cs_topic span) (cs_partition span)
    (ends (span_key span) +
     sumZ (map (span_count (cs_topic span) (cs_partition span)) (take i spans)))
    (cs_record_count span)).
Proof.
  revert ends i. induction spans as [|s spans IH]; intros f i; [done|].
  destruct i as [|i]; simpl.
  - intros [= ->]. do 2 f_equal. lia.
  - intros Hi. rewrite (IH _ i Hi). do 2 f_equal. unfold bump_end, span_count, span_key.
    repeat case_decide; simplify_eq; unfold sumZ; try lia; congruence.
Qed.

Lemma assigned_at_length ends spans : length (assigned_at ends spans) = length spans.
Proof. revert ends. induction spans; intros; simpl; auto. Qed.

(** Assignments are contiguous and complete: a staged commit gives span
    [i] exactly its partition's end plus the counts of the earlier spans of
    that partition, and applying it leaves every partition's end at the old
    end plus all of its counts. *)
Theorem stage_positions (al : Allocator) object spans now st :
  stage al object spans now = Ok st ->
  (forall i span, spans !! i = Some span ->
     sc_assignments st !! i = Some (mkAssignment (cs_topic span) (cs_partition span)
       (al_end al (span_key span) +
        sumZ (map (span_count (cs_topic span) (cs_partition span)) (take i spans)))
       (cs_record_count span))) /\
  length (sc_assignments st) = length spans /\
  (forall t p, al_end (al_apply al st).1 (t, p) =
     al_end al (t, p) + sumZ (map (span_count t p) spans)).
Proof.
  intros Hst. pose proof Hst as (acc & _ & -> & _)%stage_Ok. split_and!.
  - intros i span. apply assigned_at_lookup.
  - apply assigned_at_length.
  - intros t p. rewrite (apply_stage_ends _ _ _ _ _ _ Hst). apply bump_ends_sum.
Qed.

(** ** The allocator and the index fold the same log alike *)

Definition version_above (u : option CommitVersion) : Z :=
  match u with None => 0 | Some v => v + 1 end.

(** An allocator and an index at the same point of the log. *)
Definition aligned (al : Allocator) (a : AbsIndex) : Prop :=
  (forall k, al_end al k = abs_end a k) /\ al_next_version al = version_above (ai_upto a).

Lemma aligned_equiv al a b : a ≡ b -> aligned al a -> aligned al b.
Proof.
  intros Heq [H1 H2]. split.
  - intros k. rewrite H1. unfold abs_end. by rewrite (abs_slot_equiv a b k Heq).
  - destruct Heq as (<- & _). done.
Qed.

Lemma spec_span_end object when a span a' k :
  spec_span object when a span = Ok a' -> abs_end a' k = bump_end (abs_end a) span k.
Proof.
  destruct k as [t p]. intros [He _]%(spec_span_moves _ _ _ _ _ t p). rewrite He.
  unfold bump_end, span_count, span_key. repeat case_decide; simplify_eq; try lia; congruence.
Qed.

(** A commit the index folds is one the allocator can stage. *)
Lemma stage_from_spec al object when spans a a' acc :
  (forall k, staging_end al acc k = abs_end a k) ->
  res_foldl (spec_span object when) a spans = Ok a' ->
  exists acc', res_foldl (stage_one al) acc spans = Ok acc' /\
    forall k, staging_end al acc' k = abs_end a' k.
Proof.
  revert a acc. induction spans as [|span spans IH]; intros a acc Heq; simpl.
  - intros [= <-]. eauto.
  - intros (a1 & H1 & Hrest)%res_bind_Ok. pose proof (fun k => spec_span_end _ _ _ _ _ k H1) as Hend.
    unfold spec_span in H1. destruct (_ =? 0); [done|].
    apply res_bind_Ok in H1 as (next & Hnext & _).
    change (p_end_offset (abs_slot a (cs_topic span, cs_partition span)))
      with (abs_end a (span_key span)) in Hnext.
    rewrite <-Heq in Hnext. unfold stage_one at 1.
    change (match sn_running acc !! (cs_topic span, cs_partition span) with
      | Some running => running
      | None => default Offset_ZERO (al_end_offset al (cs_topic span) (cs_partition span))
      end) with (staging_end al acc (span_key span)). cbn [res_bind].
    rewrite Hnext. cbn [res_bind]. eapply IH; [|exact Hrest]. intros k. rewrite Hend.
    apply Offset_add_Ok in Hnext as (_ & _ & ->). unfold staging_end at 1. simpl.
    rewrite lookup_insert. unfold bump_end. fold (span_key span).
    repeat case_decide; subst; try done; [by rewrite Heq|]. by rewrite <-Heq.
Qed.

Lemma spec_other_end a r a' k :
  abs_wf a -> record_wf r -> spec_record a r = Ok a' ->
  (match r with BatchCommitted _ _ _ => False | _ => True end) -> abs_end a' k = abs_end a k.
Proof.
  intros Hwf Hr Hs Hn. destruct k as [t p].
  destruct (spec_record_moves a r a' t p Hwf Hr Hs) as [He _]. rewrite He.
  unfold appended; simpl. destruct r; done || lia.
Qed.

Lemma set_next_version_end v al k : al_end (set_next_version v al) k = al_end al k.
Proof. done. Qed.

(** One entry: what the index accepts the allocator replays, to the same ends. *)
Lemma replay_aligned al a e a' :
  abs_wf a -> entry_wf e -> me_version e < u64_max -> aligned al a -> spec_entry a e = Ok a' ->
  exists al', al_replay al e = (al', Ok tt) /\ aligned al' a'.
Proof.
  intros Hwf [[Hv0 _] Hr] Hv [Hend Hver] Hs.
  assert (al_next_version al <= me_version e /\
    exists a1, spec_record a (me_record e) = Ok a1 /\ a' = set_upto (me_version e) a1)
    as (Hle & a1 & H1 & ->).
  { rewrite Hver. unfold spec_entry in Hs. destruct (ai_upto a) as [prev|]; simpl.
    - destruct (_ <=? _) eqn:Hp; [done|]. zbool. simplify_res. split; [lia|eauto].
    - simplify_res. eauto. }
  unfold al_replay. rewrite (proj2 (Z.ltb_ge _ _)) by done.
  assert (CommitVersion_advance (al_next_version (set_next_version (me_version e) al)) 1 =
          Ok (me_version e + 1)) as Hadv by (apply CommitVersion_advance_Ok; simpl; lia).
  destruct (me_record e) as [object spans at_|t k m u|t k ri ii|t k s|ep|t rms] eqn:Hrec;
    try (rewrite Hadv; eexists; split; [done|]; split; [|done]; intros k';
         rewrite set_next_version_end, set_next_version_end, Hend; symmetry;
         eapply (spec_other_end a _ a1 k' Hwf Hr H1); done).
  assert (forall k, staging_end (set_next_version (me_version e) al) (mkStaging ∅ [] []) k =
    abs_end a k) as He0 by done.
  destruct (stage_from_spec _ _ _ spans a a1 _ He0 H1) as (acc & Hacc & Hends).
  assert (exists st, stage (set_next_version (me_version e) al) object spans at_ = Ok st) as [st Hst]
    by (unfold stage; rewrite Hacc; cbn [res_bind]; rewrite Hadv; cbn [res_bind]; eauto).
  rewrite Hst. eexists. split; [done|]. split.
  - intros k. rewrite (apply_stage_ends _ _ _ _ _ k Hst).
    apply stage_loop in Hacc as (_ & _ & Hb).
    change (abs_end (set_upto (me_version e) a1) k) with (abs_end a1 k).
    rewrite <-Hends, Hb. apply bump_ends_ext.
    intros k'. rewrite He0. by rewrite set_next_version_end.
  - destruct (al_apply_ends (set_next_version (me_version e) al) st) as [_ ->].
    by apply stage_Ok in Hst as (? & _ & _ & _ & _ & _ & ->).
Qed.

(** The replay loop: [for entry in &page { allocator.replay(entry)? }]. *)
Fixpoint replay_page (al : Allocator) (es : list MetadataEntry) : Allocator * Res unit :=
  match es with
  | [] => (al, Ok tt)
  | e :: es =>
      match al_replay al e with
      | (al', Ok _) => replay_page al' es
      | (al', Err err) => (al', Err err)
      | (al', Panic) => (al', Panic)
      end
  end.

Definition version_room (e : MetadataEntry) : Prop := me_version e < u64_max.

#[export] Instance version_room_dec e : Decision (version_room e).
Proof. unfold version_room. apply _. Defined.

Lemma replay_page_aligned al a es a' :
  abs_wf a -> Forall entry_wf es -> Forall version_room es -> aligned al a ->
  spec_fold a es = Ok a' -> exists al', replay_page al es = (al', Ok tt) /\ aligned al' a'.
Proof.
  intros Hwf Hes. revert al a Hwf. induction Hes as [|e es He Hes IH]; intros al a Hwf Hroom Hal.
  - intros [= <-]. eauto.
  - apply Forall_cons in Hroom as [Hv Hroom]. unfold spec_fold; simpl.
    intros (a1 & H1 & H2)%res_bind_Ok.
    destruct (replay_aligned al a e a1 Hwf He Hv Hal H1) as (al1 & -> & Hal1).
    simpl. apply (IH al1 a1); [by eapply spec_entry_wf|done..].
Qed.

Lemma aligned_new q : aligned Allocator_new (abs (mkIndexState None ∅ Tiers_default q ∅)).
Proof.
  split; [|done]. intros [t p]. unfold al_end, abs_end, abs_slot, al_end_offset; simpl.
  by rewrite lookup2_empty, flat_empty, lookup_empty.
Qed.

(** C21. The allocator and the index agree: whatever log the index accepts the
    allocator replays without error, ending with the same end offset for every
    partition and with the version after the last entry's as its next. *)
Theorem allocator_agrees_with_index (es : list MetadataEntry) (s : IndexState) :
  Forall entry_wf es -> Forall version_room es -> IndexState_apply IndexState_new es = Ok s ->
  exists al, replay_page Allocator_new es = (al, Ok tt) /\
    al_next_version al = version_above (applied_upto s) /\
    forall t p, default 0 (al_end_offset al t p) = IndexState_end_offset s t p.
Proof.
  intros Hes Hroom Happ. pose proof (reachable_wf _ reach_new) as Hwf.
  destruct (apply_Ok _ es s Hwf Hes Happ) as (a & Hspec & Heq & _).
  destruct (replay_page_aligned _ _ es a Hwf Hes Hroom (aligned_new None) Hspec) as (al & Hal & Hend).
  apply (aligned_equiv _ _ (abs s)) in Hend as [He Hv]; [|by symmetry].
  exists al. split_and!; [done|done|]. intros t p. rewrite <-abs_end_state. apply (He (t, p)).
Qed.

Lemma allocator_agrees_witness :
  exists al, replay_page Allocator_new demo_commits = (al, Ok tt) /\
    al_next_version al = version_above (applied_upto (after IndexState_new demo_commits)) /\
    forall t p, default 0 (al_end_offset al t p) =
                IndexState_end_offset (after IndexState_new demo_commits) t p.
Proof.
  apply (allocator_agrees_with_index demo_commits).
  - apply demo_commits_wf.
  - vm_decide.
  - apply after_Ok. vm_compute; reflexivity.
Defined.

(** ** What is acknowledged is what is indexed *)

Lemma spec_span_entries object when a span a' :
  spec_span object when a span = Ok a' ->
  (forall k r, r ∈ entries_of (abs_slot a k) -> r ∈ entries_of (abs_slot a' k)) /\
  mkObjectRef object (abs_end a (span_key span)) (cs_record_count span)
    ∈ entries_of (abs_slot a' (span_key span)).
Proof.
  unfold spec_span. destruct (_ =? 0); [done|]. intros (next & _ & [= <-])%res_bind_Ok.
  fold (span_key span). set (p := abs_slot a (span_key span)).
  set (entry := span_entry object (p_end_offset p) span).
  assert (entries_of (observe when (set_end_offset next (push p entry))) =
          entries_of p ++ [te_reference entry]) as Hent by apply push_entries.
  split.
  - intros k r Hr. rewrite abs_slot_insert. case_decide; [subst k|done].
    rewrite Hent. apply elem_of_app. by left.
  - rewrite abs_slot_insert, decide_True by done. rewrite Hent. apply elem_of_app. right.
    by apply list_elem_of_singleton.
Qed.

Lemma spec_spans_entries object when spans a a' :
  res_foldl (spec_span object when) a spans = Ok a' ->
  (forall k r, r ∈ entries_of (abs_slot a k) -> r ∈ entries_of (abs_slot a' k)) /\
  (forall x, x ∈ assigned_at (abs_end a) spans ->
     mkObjectRef object (as_base_offset x) (as_record_count x)
       ∈ entries_of (abs_slot a' (as_topic x, as_partition x))).
Proof.
  revert a. induction spans as [|span spans IH]; intros a; simpl.
  - intros [= <-]. split; [done|]. by intros x ?%elem_of_nil.
  - intros (a1 & H1 & H2)%res_bind_Ok. destruct (spec_span_entries _ _ _ _ _ H1) as [Hk Hnew].
    apply IH in H2 as [Hk2 Hin]. split; [auto|].
    intros x [->|Hx]%elem_of_cons; [simpl; by apply Hk2|].
    apply Hin. rewrite (assigned_at_ext _ _ (bump_end (abs_end a) span)); [done|].
    intros k. by apply (spec_span_end object when).
Qed.

(** An acknowledged position is where the record is: when the index folds
    the entry a staged commit journals, every assignment of the commit names
    an entry of its partition, with the committed object, that base offset and
    that count. *)
Theorem acknowledged_is_indexed (al : Allocator) (s s' : IndexState) object spans now st x :
  reachable s -> aligned al (abs s) -> record_wf (BatchCommitted object spans now) ->
  stage al object spans now = Ok st -> in_u64 (al_next_version al) ->
  IndexState_apply s [sc_entry st] = Ok s' -> x ∈ sc_assignments st ->
  exists part, IndexState_partition s' (as_topic x) (as_partition x) = Some part /\
    mkObjectRef object (as_base_offset x) (as_record_count x) ∈ entries_of part.
Proof.
  intros Hr [Hend _] Hsp Hst Hv Happ Hx.
  apply stage_Ok in Hst as (_ & Hent & Has & _). rewrite Hent in Happ. rewrite Has in Hx.
  rewrite (assigned_at_ext _ _ _ Hend) in Hx. pose proof (reachable_wf s Hr) as Hwf.
  assert (Forall entry_wf [mkMetadataEntry (al_next_version al) (BatchCommitted object spans now)])
    as Hes by (apply Forall_singleton; by split).
  destruct (apply_Ok s _ s' Hwf Hes Happ) as (a & Hspec & Heq & _).
  assert (exists a1, res_foldl (spec_span object (TimeSpan_at now)) (abs s) spans = Ok a1 /\
    a = set_upto (al_next_version al) a1) as (a1 & H1 & ->).
  { unfold spec_fold in Hspec. simpl in Hspec. apply res_bind_Ok in Hspec as (b & Hb & [= <-]).
    unfold spec_entry in Hb. destruct (ai_upto (abs s)); [case_match; [done|]|];
      simplify_res; eauto. }
  apply spec_spans_entries in H1 as [_ Hin]. specialize (Hin x Hx).
  change (abs_slot a1 (as_topic x, as_partition x))
    with (abs_slot (set_upto (al_next_version al) a1) (as_topic x, as_partition x)) in Hin.
  rewrite <-(abs_slot_equiv _ _ _ Heq) in Hin. unfold abs_slot in Hin. simpl in Hin.
  rewrite lookup_flat in Hin. unfold IndexState_partition.
  destruct (lookup2 _ _ _) as [part|]; [eauto|]. simpl in Hin. by apply elem_of_nil in Hin.
Qed.

Definition demo_spans : list CommittedSpan :=
  [ mkCommittedSpan "t" 0 3 (Bounded 0 10) (Some (mkProducerIdentity 7 0 0));
    mkCommittedSpan "u" 1 2 (Bounded 10 5) None;
    mkCommittedSpan "t" 0 4 (Bounded 15 9) (Some (mkProducerIdentity 7 0 1)) ].

Definition staged_or_none (al : Allocator) (object : string) (spans : list CommittedSpan) (now : Z)
    : StagedCommit :=
  match stage al object spans now with
  | Ok st => st
  | _ => mkStagedCommit (mkMetadataEntry 0 (EpochChanged 0)) [] [] [] 0
  end.

Definition demo_staged : StagedCommit := staged_or_none Allocator_new "o" demo_spans 5.

Lemma demo_staged_Ok : stage Allocator_new "o" demo_spans 5 = Ok demo_staged.
Proof. vm_compute; reflexivity. Qed.

Lemma stage_positions_witness :
  sc_assignments demo_staged !! 2%nat = Some (mkAssignment "t" 0 3 4).
Proof.
  destruct (stage_positions Allocator_new "o" demo_spans 5 demo_staged demo_staged_Ok) as (H & _).
  rewrite (H 2%nat (mkCommittedSpan "t" 0 4 (Bounded 15 9) (Some (mkProducerIdentity 7 0 1)))
             eq_refl).
  vm_compute; reflexivity.
Defined.

Lemma acknowledged_is_indexed_witness :
  exists part, IndexState_partition (after IndexState_new [sc_entry demo_staged]) "t" 0 = Some part /\
    mkObjectRef "o" 3 4 ∈ entries_of part.
Proof.
  apply (acknowledged_is_indexed Allocator_new IndexState_new _ "o" demo_spans 5 demo_staged
           (mkAssignment "t" 0 3 4)).
  - constructor.
  - apply aligned_new.
  - vm_decide.
  - apply demo_staged_Ok.
  - vm_compute. split; discriminate.
  - apply after_Ok. vm_compute; reflexivity.
  - apply (list_elem_of_lookup_2 _ 2). vm_compute; reflexivity.
Defined.

(** ** Admission *)

Definition indices (ad : Admission) : list nat :=
  map fst (ad_admitted ad) ++ map (fun x => x.1.1.1) (ad_replayed ad) ++
  map (fun x => x.1.1.1) (ad_rejected ad).

Lemma record_decision_indices acc key i span d :
  indices (record_decision acc key i span d).1 ≡ₚ i :: indices acc.1.
Proof.
  destruct acc as [ad running]. destruct d; simpl; unfold indices; simpl; rewrite map_app; simpl;
    solve_Permutation.
Qed.

(** What an admission says of a span at its index. *)
Definition speaks_of (al : Allocator) (spans : list CommittedSpan) (ad : Admission) : Prop :=
  (forall i span, (i, span) ∈ ad_admitted ad -> spans !! i = Some span) /\
  (forall i t p x, (i, t, p, x) ∈ ad_replayed ad -> exists span identity state, spans !! i = Some span /\
     t = cs_topic span /\ p = cs_partition span /\ cs_producer span = Some identity /\
     al_producer_state al !! (pi_id identity, t, p) = Some state /\ ps_epoch state = pi_epoch identity /\
     ps_sequence state = pi_sequence identity /\ ps_record_count state = cs_record_count span /\
     x = mkAssignment t p (ps_base_offset state) (ps_record_count state)) /\
  (forall i t p e, (i, t, p, e) ∈ ad_rejected ad -> exists span, spans !! i = Some span /\
     t = cs_topic span /\ p = cs_partition span).

Lemma classify_Replay current prov seq ep n state :
  classify current prov seq ep n = Replay state ->
  current = Some state /\ prov = false /\ ps_epoch state = ep /\ ps_sequence state = seq /\
  ps_record_count state = n.
Proof.
  unfold classify. destruct current as [c|]; [|by case_match].
  repeat case_match; try done. intros [= <-]. zbool. split_and!; try done; lia.
Qed.

Lemma admit_one_speaks al spans acc i span :
  spans !! i = Some span -> speaks_of al spans acc.1 -> speaks_of al spans (admit_one al acc (i, span)).1.
Proof.
  intros Hi (H1 & H2 & H3). unfold admit_one. destruct acc as [ad running]. simpl in *.
  assert (speaks_of al spans (mkAdmission (ad_admitted ad ++ [(i, span)]) (ad_replayed ad)
    (ad_rejected ad))) as Hadm.
  { split_and!; [|done|done]. simpl. intros j sp [|[= -> ->]%list_elem_of_singleton]%elem_of_app;
      auto. }
  destruct (cs_producer span) as [id|] eqn:Hp; [|done].
  destruct (match running !! _ with Some _ => _ | None => _ end) as [current prov] eqn:Hcur.
  destruct (classify current prov _ _ _) as [|state|reason] eqn:Hc; simpl.
  - done.
  - split_and!; [done| |done]. simpl.
    intros j t p x [|[= -> -> -> ->]%list_elem_of_singleton]%elem_of_app; [by eapply H2|].
    apply classify_Replay in Hc as (-> & -> & He & Hs & Hn). exists span, id, state. split_and!; try done.
    destruct (running !! _); by injection Hcur.
  - split_and!; [done|done|]. simpl.
    intros j t p x [|[= -> -> -> ->]%list_elem_of_singleton]%elem_of_app; [by eapply H3|eauto].
Qed.

Lemma admit_one_indices al acc i span :
  indices (admit_one al acc (i, span)).1 ≡ₚ i :: indices acc.1.
Proof.
  unfold admit_one. destruct (cs_producer span) as [id|].
  - destruct (match acc.2 !! _ with Some _ => _ | None => _ end) as [current prov].
    apply record_decision_indices.
  - unfold indices; simpl. rewrite map_app. simpl. solve_Permutation.
Qed.

Lemma admit_speaks al spans :
  indices (al_admit al spans) ≡ₚ seq 0 (length spans) /\ speaks_of al spans (al_admit al spans).
Proof.
  unfold al_admit.
  assert (forall l acc n, (forall j span, l !! j = Some span -> spans !! (n + j)%nat = Some span) ->
    speaks_of al spans acc.1 ->
    indices (foldl (admit_one al) acc (imap (fun j s => (n + j, s)%nat) l)).1 ≡ₚ
      indices acc.1 ++ seq n (length l) /\
    speaks_of al spans (foldl (admit_one al) acc (imap (fun j s => (n + j, s)%nat) l)).1) as Hgen.
  { induction l as [|span l IH]; intros acc n Hl Hsp; simpl; [by rewrite app_nil_r|].
    rewrite Nat.add_0_r.
    assert (imap ((fun j s => (n + j, s)%nat) ∘ S) l = imap (fun j s => (S n + j, s)%nat) l) as Him
      by (apply imap_ext; intros j x _; simpl; f_equal; lia). rewrite Him.
    destruct (IH (admit_one al acc (n, span)) (S n)) as [Hp Hs].
    - intros j sp Hj. replace (S n + j)%nat with (n + S j)%nat by lia. by apply Hl.
    - apply admit_one_speaks; [|done]. rewrite <-(Nat.add_0_r n). by apply Hl.
    - split; [|done]. rewrite Hp, admit_one_indices. simpl. solve_Permutation. }
  apply (Hgen spans (mkAdmission [] [] [], ∅) 0%nat); [done|].
  split_and!; simpl; intros; by apply elem_of_nil in H.
Qed.

(** A span that no producer numbers is admitted. *)
Lemma admit_one_keeps al acc ispan x : x ∈ ad_admitted acc.1 -> x ∈ ad_admitted (admit_one al acc ispan).1.
Proof.
  intros Hx. unfold admit_one. destruct ispan as [index span]. destruct (cs_producer span); simpl; [|set_solver].
  repeat case_match; simpl; unfold record_decision; repeat case_match; simpl; set_solver.
Qed.

Lemma admit_unnumbered al spans i span :
  spans !! i = Some span -> cs_producer span = None -> (i, span) ∈ ad_admitted (al_admit al spans).
Proof.
  intros Hi Hp. unfold al_admit.
  assert (forall l acc n, (forall j, l !! j = Some span -> (n + j, span)%nat ∈
      ad_admitted (foldl (admit_one al) acc (imap (fun j s => (n + j, s)%nat) l)).1) /\
    forall x, x ∈ ad_admitted acc.1 -> x ∈ ad_admitted (foldl (admit_one al) acc (imap (fun j s => (n + j, s)%nat) l)).1) as Hgen.
  { induction l as [|sp l IH]; intros acc n; simpl; [done|]. rewrite Nat.add_0_r.
    assert (imap ((fun j s => (n + j, s)%nat) ∘ S) l = imap (fun j s => (S n + j, s)%nat) l) as ->
      by (apply imap_ext; intros j x _; simpl; f_equal; lia).
    destruct (IH (admit_one al acc (n, sp)) (S n)) as [Hin Hkeep]. split.
    - intros [|j] Hj; simpl in Hj; [|replace (n + S j)%nat with (S n + j)%nat by lia; auto].
      injection Hj as ->. apply Hkeep. unfold admit_one. rewrite Hp. simpl. rewrite Nat.add_0_r. set_solver.
    - intros x Hx. by apply Hkeep, admit_one_keeps. }
  exact (proj1 (Hgen spans (mkAdmission [] [] [], ∅) 0%nat) i Hi).
Qed.

(** Admission answers every span exactly once: the admitted, replayed and
    rejected indices together are each index of the request once, and each
    answer is about the span at its index; a replay is of the line its producer has,
    with its offset and count. *)
Theorem admission_is_a_partition (al : Allocator) (spans : list CommittedSpan) :
  indices (al_admit al spans) ≡ₚ seq 0 (length spans) /\ speaks_of al spans (al_admit al spans).
Proof. apply admit_speaks. Qed.

(** ** Producer lines through a commit *)

(** The allocator's invariant: the recency ages exactly the lines it holds. *)
Definition al_wf (al : Allocator) : Prop := tracks (al_producer_state al) (al_producer_recency al).

Lemma apply_producers_tracks lines st r :
  tracks st r -> tracks (apply_producers (st, r) lines).1 (apply_producers (st, r) lines).2.
Proof.
  revert st r. induction lines as [|[k s] lines IH]; intros st r Ht; [done|].
  simpl. by apply IH, tracks_touch.
Qed.

Lemma al_apply_producers al st :
  (al_producer_state (al_apply al st).1, al_producer_recency (al_apply al st).1) =
  (let '(s, r) := apply_producers (al_producer_state al, al_producer_recency al)
                    (sc_producer_ends st) in evict_over_cap s r MAX_TRACKED_PRODUCERS).
Proof.
  unfold al_apply. destruct (apply_producers _ _) as [a b]. by destruct (evict_over_cap a b _).
Qed.

Lemma al_apply_bounded al st :
  al_wf al ->
  al_wf (al_apply al st).1 /\ (size (al_producer_state (al_apply al st).1) <= MAX_TRACKED_PRODUCERS)%nat.
Proof.
  intros Hwf. pose proof (al_apply_producers al st) as Heq. unfold al_wf in *.
  pose proof (apply_producers_tracks (sc_producer_ends st) _ _ Hwf) as Ht.
  destruct (apply_producers _ _) as [s r]; simpl in Ht.
  pose proof (evict_loop_spec (size s) s r MAX_TRACKED_PRODUCERS Ht (le_n _)) as Hev.
  unfold evict_over_cap in Heq. destruct (evict_loop _ _ _ _) as [s' r']. injection Heq as -> ->.
  destruct Hev as (Ht' & _ & _ & Hsz & _). split; [done|]. lia.
Qed.

Lemma al_apply_wf al st : al_wf al -> al_wf (al_apply al st).1.
Proof. intros Hwf. by apply al_apply_bounded. Qed.

(** The producer map is bounded: applying any staged commit leaves at most
    [MAX_TRACKED_PRODUCERS] lines, with the recency order still naming exactly
    them. *)
Theorem producer_lines_bounded (al : Allocator) (st : StagedCommit) :
  al_wf al ->
  al_wf (al_apply al st).1 /\
  (size (al_producer_state (al_apply al st).1) <= MAX_TRACKED_PRODUCERS)%nat.
Proof. apply al_apply_bounded. Qed.

Lemma al_wf_new : al_wf Allocator_new.
Proof. by split; [apply rec_wf_default|]. Qed.

Lemma producer_lines_bounded_witness :
  (size (al_producer_state (al_apply Allocator_new demo_staged).1) <= MAX_TRACKED_PRODUCERS)%nat.
Proof. apply producer_lines_bounded, al_wf_new. Defined.

(** The keys stamped since a point are among those there were and those touched,
    and a key stamped since then stays so. *)
Lemma apply_producers_stamps lines n0 done st r :
  n0 <= rc_next r ->
  (forall k s, rc_last_touch r !! k = Some s -> n0 <= s -> k ∈ done) ->
  let r' := (apply_producers (st, r) lines).2 in
  (forall k s, rc_last_touch r' !! k = Some s -> n0 <= s -> k ∈ done ++ lines.*1) /\
  (forall k, k ∈ lines.*1 \/ (exists s, rc_last_touch r !! k = Some s /\ n0 <= s) ->
     exists s, rc_last_touch r' !! k = Some s /\ n0 <= s).
Proof.
  revert done st r. induction lines as [|[k0 s0] lines IH]; intros done st r Hn H1; simpl.
  - rewrite app_nil_r. split; [done|]. by intros k [?%elem_of_nil|?].
  - destruct (IH (done ++ [k0]) (<[k0 := s0]> st) (touch r k0)) as [Hin Hst]; simpl; [lia|..].
    + intros k s [[<- _]|[_ Hl]]%lookup_insert_Some Hle; apply elem_of_app; [right|left; eauto].
      by apply list_elem_of_singleton.
    + rewrite <-app_assoc in Hin. split; [done|]. intros k Hk. apply Hst. rewrite elem_of_cons in Hk.
      destruct (decide (k = k0)) as [->|Hne].
      * right. simpl. rewrite lookup_insert_eq. eauto.
      * simpl. rewrite lookup_insert_ne by done. naive_solver.
Qed.

Lemma apply_producers_lookup lines st r k :
  k ∉ lines.*1 -> (apply_producers (st, r) lines).1 !! k = st !! k.
Proof.
  revert st r. induction lines as [|[k0 s0] lines IH]; intros st r Hk; simpl in *; [done|].
  rewrite not_elem_of_cons in Hk. destruct Hk as [Hne Hk]. rewrite IH by done.
  by rewrite lookup_insert_ne.
Qed.

(** Every line was there before or is one of those applied; eviction adds none. *)
Lemma apply_producers_from lines st r k ps :
  (apply_producers (st, r) lines).1 !! k = Some ps -> st !! k = Some ps \/ (k, ps) ∈ lines.
Proof.
  revert st r. induction lines as [|[k0 s0] lines IH]; intros st r; simpl; [by left|].
  intros [[[<- <-]|[_ Hk]]%lookup_insert_Some|Hin]%IH; [right; by left|by left|right; by right].
Qed.

Lemma evict_loop_from {K V} `{Countable K} fuel (st : gmap K V) (r : Recency K) cap :
  (evict_loop fuel st r cap).1 ⊆ st.
Proof.
  revert st r. induction fuel as [|fuel IH]; intros st r; simpl; [done|]. destruct (_ <? _)%nat; [|done].
  destruct (evict_oldest r) as [[r' oldest]|]; [|done]. etrans; [apply IH|apply delete_subseteq].
Qed.

Lemma al_apply_lines al st k ps :
  al_producer_state (al_apply al st).1 !! k = Some ps ->
  al_producer_state al !! k = Some ps \/ (k, ps) ∈ sc_producer_ends st.
Proof.
  intros Hk. apply (apply_producers_from _ _ (al_producer_recency al)). pose proof (al_apply_producers al st) as Heq.
  destruct (apply_producers _ _) as [s r]. pose proof (evict_loop_from (size s) s r MAX_TRACKED_PRODUCERS) as Hsub.
  unfold evict_over_cap in Heq. rewrite <-Heq in Hsub. simpl in Hsub. by eapply lookup_weaken.
Qed.

Lemma lines_at_from ends spans k ps :
  (k, ps) ∈ lines_at ends spans -> exists j span identity, spans !! j = Some span /\ cs_producer span = Some identity /\
    k = (pi_id identity, cs_topic span, cs_partition span) /\
    ps = mkProducerState (pi_epoch identity) (pi_sequence identity)
      (ends (span_key span) + sumZ (map (span_count (cs_topic span) (cs_partition span)) (take j spans)))
      (cs_record_count span).
Proof.
  revert ends. induction spans as [|s spans IH]; intros ends; simpl; [by intros ?%elem_of_nil|].
  intros [Hin|(j & span & identity & Hj & Hp & -> & ->)%IH]%elem_of_app.
  - destruct (cs_producer s) as [i|] eqn:Hp; [|by apply elem_of_nil in Hin]. apply list_elem_of_singleton in Hin.
    injection Hin as -> ->. exists 0%nat, s, i. split_and!; try done. simpl. by rewrite Z.add_0_r.
  - exists (S j), span, identity. split_and!; try done. f_equal. simpl. unfold bump_end, span_count, span_key.
    repeat case_decide; simplify_eq; unfold sumZ; try lia; congruence.
Qed.

(** The lines stamped since a point are all among some keys, and [k] is one. *)
Definition recent (al : Allocator) (n0 : Z) (ks : list ProducerKey) (k : ProducerKey) : Prop :=
  (forall k' s, rc_last_touch (al_producer_recency al) !! k' = Some s -> n0 <= s -> k' ∈ ks) /\
  exists s, rc_last_touch (al_producer_recency al) !! k = Some s /\ n0 <= s.

(** Eviction leaves a recent line alone while there are no more than the cap. *)
Lemma evict_keeps_recent (st : gmap ProducerKey ProducerState) r n0 ks k sk :
  tracks st r -> (forall k' s, rc_last_touch r !! k' = Some s -> n0 <= s -> k' ∈ ks) ->
  rc_last_touch r !! k = Some sk -> n0 <= sk -> (length ks <= MAX_TRACKED_PRODUCERS)%nat ->
  let '(st', r') := evict_over_cap st r MAX_TRACKED_PRODUCERS in
  st' !! k = st !! k /\ rc_last_touch r' ⊆ rc_last_touch r /\ rc_last_touch r' !! k = Some sk.
Proof.
  intros Ht Hin Hsk Hle Hlen. pose proof (evict_loop_spec (size st) st r MAX_TRACKED_PRODUCERS Ht (le_n _)) as Hev.
  unfold evict_over_cap. destruct (evict_loop _ _ _ _) as [st' r']. destruct Hev as ([_ Hd'] & Hsub & Hsubr & Hsz & Hord).
  assert (is_Some (st' !! k)) as [v Hv]; cycle 1.
  { split_and!; [by rewrite Hv, (lookup_weaken _ _ _ _ Hv Hsub)|done|].
    assert (k ∈ dom (rc_last_touch r')) as [s' Hs']%elem_of_dom by (rewrite <-Hd'; by apply elem_of_dom_2 in Hv).
    rewrite Hs'. by rewrite (lookup_weaken _ _ _ _ Hs' Hsubr) in Hsk. }
  destruct (st' !! k) as [v|] eqn:Hv; [done|]. exfalso.
  assert (exists v, st !! k = Some v) as [v Hsv].
  { destruct Ht as [_ Hd]. apply elem_of_dom. rewrite Hd. by apply elem_of_dom_2 in Hsk. }
  assert (size st' < size st)%nat.
  { apply map_subset_size. split; [done|]. intros Hss. by rewrite (lookup_weaken _ _ _ _ Hsv Hss) in Hv. }
  assert ({[k]} ∪ dom st' ⊆ (list_to_set ks : gset ProducerKey)) as Hall.
  { apply union_subseteq. split; [apply singleton_subseteq_l, elem_of_list_to_set; by eapply Hin|].
    intros k' Hk'. apply elem_of_list_to_set. rewrite Hd' in Hk'. apply elem_of_dom in Hk' as [s0 Hs0].
    pose proof (Hord k sk k' s0 Hsk Hv Hs0). apply (Hin k' s0); [by eapply lookup_weaken|lia]. }
  apply subseteq_size in Hall. rewrite size_union, size_singleton, size_dom in Hall
    by (apply disjoint_singleton_l; by apply not_elem_of_dom).
  pose proof (size_list_to_set_le ks). lia.
Qed.

(** A commit leaves the line of a key it touches, or that was recent, as its own
    lines leave it, while there are no more recent lines than the cap. *)
Lemma apply_keeps_recent al st n0 ks k :
  al_wf al -> n0 <= rc_next (al_producer_recency al) ->
  (forall k' s, rc_last_touch (al_producer_recency al) !! k' = Some s -> n0 <= s -> k' ∈ ks) ->
  k ∈ (sc_producer_ends st).*1 \/ (exists s, rc_last_touch (al_producer_recency al) !! k = Some s /\ n0 <= s) ->
  (length (ks ++ (sc_producer_ends st).*1) <= MAX_TRACKED_PRODUCERS)%nat ->
  recent (al_apply al st).1 n0 (ks ++ (sc_producer_ends st).*1) k /\
  al_producer_state (al_apply al st).1 !! k =
    (apply_producers (al_producer_state al, al_producer_recency al) (sc_producer_ends st)).1 !! k.
Proof.
  intros Hwf Hn Hks Hk Hlen. pose proof (al_apply_producers al st) as Heq.
  pose proof (apply_producers_tracks (sc_producer_ends st) _ _ Hwf) as Ht.
  destruct (apply_producers_stamps (sc_producer_ends st) n0 ks (al_producer_state al) (al_producer_recency al) Hn Hks) as [Hin Hst].
  destruct (Hst k Hk) as (sk & Hsk & Hle). destruct (apply_producers _ _) as [s r]; simpl in *.
  pose proof (evict_keeps_recent s r n0 _ k sk Ht Hin Hsk Hle Hlen) as Hev.
  destruct (evict_over_cap s r _) as [s' r']. injection Heq as -> Hr'. destruct Hev as (Hs' & Hsub & Hk'). split; [|done].
  unfold recent. rewrite Hr'. split; [|by exists sk]. intros k' s0 Hl. apply Hin. by eapply lookup_weaken.
Qed.

(** Commits one after another. *)
Definition al_after (al : Allocator) (later : list StagedCommit) : Allocator :=
  foldl (fun al st => (al_apply al st).1) al later.

Lemma after_keeps_recent later al n0 ks k :
  al_wf al -> recent al n0 ks k -> Forall (fun st => k ∉ (sc_producer_ends st).*1) later ->
  (length ks + length (concat (map sc_producer_ends later)) <= MAX_TRACKED_PRODUCERS)%nat ->
  al_producer_state (al_after al later) !! k = al_producer_state al !! k.
Proof.
  intros Hwf Hr Hl. revert al ks Hwf Hr. induction Hl as [|st later Hk _ IH]; intros al ks Hwf [Hin (s & Hs & Hle)] Hlen; simpl; [done|].
  simpl in Hlen. rewrite length_app in Hlen.
  destruct (apply_keeps_recent al st n0 ks k Hwf) as [Hr' Hsame]; [|done|eauto|rewrite length_app, length_fmap; lia|].
  { destruct Hwf as [[Hinv Hlt] _]. apply Hinv, Hlt in Hs. lia. }
  rewrite (IH _ (ks ++ (sc_producer_ends st).*1)); [|by apply al_apply_wf|done|rewrite length_app, length_fmap; lia].
  rewrite Hsame. by apply apply_producers_lookup.
Qed.

(** ** Sending a commit again *)

Definition producer_key (span : CommittedSpan) : option ProducerKey :=
  (fun i => (pi_id i, cs_topic span, cs_partition span)) <$> cs_producer span.

Lemma lines_at_app ends l1 l2 :
  lines_at ends (l1 ++ l2) = lines_at ends l1 ++ lines_at (bump_ends ends l1) l2.
Proof.
  revert ends. induction l1 as [|s l1 IH]; intros ends; simpl; [done|]. by rewrite IH, app_assoc.
Qed.

Lemma lines_at_keys ends spans k :
  k ∈ (lines_at ends spans).*1 <-> exists span, span ∈ spans /\ producer_key span = Some k.
Proof.
  revert ends. induction spans as [|s spans IH]; intros ends; simpl.
  - split; [by intros ?%elem_of_nil|]. by intros (? & ?%elem_of_nil & _).
  - rewrite fmap_app, elem_of_app, IH. setoid_rewrite elem_of_cons. unfold producer_key at 2.
    destruct (cs_producer s) as [i|] eqn:Hp; simpl.
    + rewrite list_elem_of_singleton. split.
      * intros [->|(sp & ? & ?)]; [|eauto]. exists s. unfold producer_key. rewrite Hp. auto.
      * intros (sp & [->|] & Hk); [|eauto]. left. rewrite Hp in Hk. by injection Hk.
    + split; [intros [?%elem_of_nil|]; [done|naive_solver]|].
      intros (sp & [->|] & Hk); [by rewrite Hp in Hk|eauto].
Qed.

Lemma lines_at_length ends spans : (length (lines_at ends spans) <= length spans)%nat.
Proof.
  revert ends. induction spans as [|s spans IH]; intros ends; simpl; [lia|].
  rewrite length_app. specialize (IH (bump_end ends s)). destruct (cs_producer s); simpl; lia.
Qed.

Lemma assigned_at_app ends l1 l2 :
  assigned_at ends (l1 ++ l2) = assigned_at ends l1 ++ assigned_at (bump_ends ends l1) l2.
Proof. revert ends. induction l1 as [|s l1 IH]; intros ends; simpl; [done|]. by rewrite IH. Qed.

Lemma next_sequence_ne n : next_sequence n <> n.
Proof. unfold next_sequence. destruct (n =? i32_max) eqn:Hn; zbool; mlia. Qed.

(** C22. Idempotence: a span of a committed request that is sent again, on its
    own, however many commits later, is admitted no second time; it is answered
    with the assignment its commit got.  The span is its producer's latest for
    that partition, in its request and in the commits since; and the request and
    those commits together touch no more producer lines than the allocator
    tracks, so that the line was not evicted. *)
Theorem resend_answers_the_first (al : Allocator) object pre span post now st later k x :
  al_wf al -> stage al object (pre ++ span :: post) now = Ok st ->
  (length (pre ++ span :: post) + length (concat (map sc_producer_ends later)) <= MAX_TRACKED_PRODUCERS)%nat ->
  producer_key span = Some k ->
  Forall (fun sp => producer_key sp <> producer_key span) post ->
  Forall (fun st' => k ∉ (sc_producer_ends st').*1) later ->
  sc_assignments st !! length pre = Some x ->
  al_admit (al_after (al_apply al st).1 later) [span] =
  mkAdmission [] [(0%nat, cs_topic span, cs_partition span, x)] [].
Proof.
  intros Hwf Hst Hlen Hk Hpost Hlater Hx. pose proof Hk as Hk'. unfold producer_key in Hk'.
  destruct (cs_producer span) as [id|] eqn:Hp; [|done]. injection Hk' as <-.
  set (k := (pi_id id, cs_topic span, cs_partition span)) in *. apply stage_Ok in Hst as (_ & _ & Has & Hlines & _).
  set (base := bump_ends (al_end al) pre (span_key span)) in *.
  assert (x = mkAssignment (cs_topic span) (cs_partition span) base (cs_record_count span)) as ->.
  { rewrite Has, assigned_at_app, lookup_app_r in Hx by (rewrite assigned_at_length; lia).
    rewrite assigned_at_length, Nat.sub_diag in Hx. by injection Hx. }
  destruct (apply_keeps_recent al st (rc_next (al_producer_recency al)) [] k Hwf) as [Hrecent Hline]; [lia|..].
  { intros k' s' Hl Hle. destruct Hwf as [[Hinv Hlt] _]. apply Hinv, Hlt in Hl. lia. }
  { left. rewrite Hlines. apply lines_at_keys. exists span. split; [|done]. apply elem_of_app. right. by left. }
  { simpl. rewrite length_fmap, Hlines. pose proof (lines_at_length (al_end al) (pre ++ span :: post)). lia. }
  unfold al_admit, imap. simpl. rewrite Hp. simpl. rewrite lookup_empty. fold k.
  rewrite (after_keeps_recent later _ _ _ k (al_apply_wf al st Hwf) Hrecent Hlater); cycle 1.
  { simpl. rewrite length_fmap, Hlines. pose proof (lines_at_length (al_end al) (pre ++ span :: post)). lia. }
  rewrite Hline, Hlines, lines_at_app. simpl. rewrite Hp. unfold apply_producers. rewrite foldl_app.
  destruct (foldl _ _ (lines_at (al_end al) pre)) as [s r]. simpl.
  fold (apply_producers (<[k := mkProducerState (pi_epoch id) (pi_sequence id) base
    (cs_record_count span)]> s, touch r k) (lines_at (bump_end (bump_ends (al_end al) pre) span) post)).
  rewrite apply_producers_lookup.
  - rewrite lookup_insert_eq. unfold classify. simpl. rewrite !Z.ltb_irrefl.
    pose proof (next_sequence_ne (pi_sequence id)).
    rewrite (proj2 (Z.eqb_neq _ _)) by congruence. by rewrite !Z.eqb_refl.
  - rewrite lines_at_keys. intros (sp & Hsp & Hspk). rewrite Forall_forall in Hpost.
    apply (Hpost sp Hsp). congruence.
Qed.

(** After it, another producer commits to the same partition, and a commit that
    nobody numbers. *)
Definition demo_later : list StagedCommit :=
  let al := (al_apply Allocator_new demo_staged).1 in
  let st := staged_or_none al "p" [mkCommittedSpan "t" 0 2 (Bounded 0 9) (Some (mkProducerIdentity 8 0 0))] 6 in
  [st; staged_or_none (al_apply al st).1 "q" [mkCommittedSpan "t" 0 1 (Bounded 0 9) None] 7].

Lemma resend_answers_the_first_witness :
  al_admit (al_after (al_apply Allocator_new demo_staged).1 demo_later)
    [mkCommittedSpan "t" 0 4 (Bounded 15 9) (Some (mkProducerIdentity 7 0 1))] =
  mkAdmission [] [(0%nat, "t"%string, 0, mkAssignment "t" 0 3 4)] [].
Proof.
  apply (resend_answers_the_first Allocator_new "o" (take 2 demo_spans)
    (mkCommittedSpan "t" 0 4 (Bounded 15 9) (Some (mkProducerIdentity 7 0 1))) [] 5 demo_staged demo_later
    (7, "t"%string, 0)).
  - apply al_wf_new.
  - apply demo_staged_Ok.
  - unfold MAX_TRACKED_PRODUCERS. replace (length (concat (map sc_producer_ends demo_later))) with 1%nat by (vm_compute; reflexivity).
    simpl. lia.
  - reflexivity.
  - constructor.
  - apply Forall_forall. intros st' Hin. apply list_elem_of_In in Hin. vm_compute in Hin.
    destruct Hin as [<-|[<-|[]]]; intros Hk; apply list_elem_of_In in Hk; vm_compute in Hk; intuition congruence.
  - vm_compute; reflexivity.
Defined.

(** ** What the sequence rule refuses *)

(** A producer's line advances by one per batch: after a batch of two
    records or more at [sequence], the batch whose sequence counts the records,
    which is how a Kafka producer numbers its [base_sequence], is refused as
    out of order, and the one at [sequence + 1] is the only one admitted. *)
Theorem sequence_counts_batches st provisional_ epoch sequence n :
  ps_epoch st = epoch -> 0 <= ps_sequence st -> 2 <= ps_record_count st ->
  ps_sequence st + ps_record_count st <= i32_max ->
  classify (Some st) provisional_ (ps_sequence st + ps_record_count st) epoch n = Reject OutOfOrder /\
  (classify (Some st) provisional_ sequence epoch n = Admit <-> sequence = ps_sequence st + 1).
Proof.
  intros <- Hseq Hcount Hmax. unfold classify, next_sequence. rewrite Z.ltb_irrefl.
  rewrite (proj2 (Z.eqb_neq (ps_sequence st) i32_max)) by lia. split.
  - rewrite !(proj2 (Z.eqb_neq _ _)) by lia. by rewrite andb_false_r.
  - destruct (Z.eqb_spec sequence (ps_sequence st + 1)); [done|].
    split; [|done]. destruct (_ && _); [by destruct (_ =? _)|done].
Qed.

Lemma sequence_counts_batches_witness :
  classify (Some (mkProducerState 0 0 9 5)) false 5 0 1 = Reject OutOfOrder /\
  (classify (Some (mkProducerState 0 0 9 5)) false 1 0 1 = Admit <-> 1 = 0 + 1).
Proof. apply (sequence_counts_batches (mkProducerState 0 0 9 5)); vm_decide. Defined.
