(* ===== verification/Log.v ===== *)
(** * Log: the durable metadata log and its contract

    Models [oqueue-core/src/metadata_log.rs] (the [MetadataLog] trait, its five
    documented guarantees and the in-memory log).  The trait is a class, its
    guarantees a class of laws over the log's durable contents; what sits above
    the log is proved against the laws, and the in-memory log discharges them.

    [H] is a handle, an [Arc<dyn MetadataLog>]; [L] is what is behind it: the
    durable log, with whatever its handles remember of it.  Other writers may
    append to the same log at any moment, so a call returns the [L] it leaves
    and a law only says that the contents grew. *)

From stdpp Require Import base tactics list numbers strings gmap.
From Stdlib Require Import ZArith Lia.
From S2P Require Import Prelude Types Coverage Partition IndexFold IndexSpec IndexRefine.
From S2P Require Import IndexProps Allocator AllocatorProps.

Open Scope Z_scope.

(** ** The trait *)

Class MetadataLog (H L : Type) : Type := {
  log_append : H -> L -> list MetadataEntry -> L * Res unit;
  log_read_from : H -> L -> CommitVersion -> nat -> L * Res (list MetadataEntry);
}.

(** Strictly increasing versions, above [prev]. *)
Fixpoint increasing (prev : option CommitVersion) (es : list MetadataEntry) : Prop :=
  match es with
  | [] => True
  | e :: es =>
      match prev with Some v => v < me_version e | None => True end /\
      increasing (Some (me_version e)) es
  end.

Definition last_of (prev : option CommitVersion) (es : list MetadataEntry)
    : option CommitVersion :=
  match last es with Some e => Some (me_version e) | None => prev end.

(** The documented guarantees.  [contents] is what is durable; [seen] is what a
    handle knows of it, which is all of it for a handle that shares memory with
    every writer and less for one that another process has appended past: a
    short page means that the handle has no more. *)
Class MetadataLogLaws (H L : Type) `{MetadataLog H L} : Type := {
  log_ok : L -> Prop;
  contents : L -> list MetadataEntry;
  seen : H -> L -> list MetadataEntry;
  seen_prefix : forall h l, log_ok l -> seen h l `prefix_of` contents l;
  log_ordered : forall l, log_ok l -> increasing None (contents l) /\ Forall entry_wf (contents l);
  append_law : forall h l es l' r,
    log_ok l -> Forall entry_wf es -> log_append h l es = (l', r) ->
    log_ok l' /\ r <> Panic /\
    exists more, contents l' = contents l ++ more /\
      (r = Ok tt -> exists others, more = others ++ es);
  read_law : forall h l start n l' r,
    log_ok l -> log_read_from h l start n = (l', r) ->
    log_ok l' /\ r <> Panic /\ (exists more, contents l' = contents l ++ more) /\
    forall page, r = Ok page ->
      page = take n (List.filter (fun e => start <=? me_version e) (seen h l'));
}.

(** ** The in-memory log *)

Record FakeMetadataLog : Type := mkFakeLog { fl_entries : list MetadataEntry }.

Definition FakeMetadataLog_new : FakeMetadataLog := mkFakeLog [].

Fixpoint fake_validate (entries : list MetadataEntry) (previous : option CommitVersion) : Res unit :=
  match entries with
  | [] => Ok tt
  | entry :: entries =>
      match previous with
      | Some prev =>
          if me_version entry <=? prev
          then Err (NonMonotonicCommitVersion prev (me_version entry))
          else fake_validate entries (Some (me_version entry))
      | None => fake_validate entries (Some (me_version entry))
      end
  end.

Definition fake_append (self : FakeMetadataLog) (entries : list MetadataEntry)
    : FakeMetadataLog * Res unit :=
  match fake_validate entries (me_version <$> last (fl_entries self)) with
  | Ok _ => (mkFakeLog (fl_entries self ++ entries), Ok tt)
  | Err e => (self, Err e)
  | Panic => (self, Panic)
  end.

Definition fake_read_from (self : FakeMetadataLog) (start : CommitVersion) (max_entries : nat)
    : FakeMetadataLog * Res (list MetadataEntry) :=
  (self, Ok (take max_entries (List.filter (fun e => start <=? me_version e) (fl_entries self)))).

#[export] Instance FakeMetadataLog_log : MetadataLog unit FakeMetadataLog := {
  log_append _ := fake_append;
  log_read_from _ := fake_read_from;
}.

Lemma last_of_app prev es1 es2 : last_of prev (es1 ++ es2) = last_of (last_of prev es1) es2.
Proof.
  unfold last_of. rewrite last_app. by destruct (last es2).
Qed.

Lemma last_of_cons prev e es : last_of prev (e :: es) = last_of (Some (me_version e)) es.
Proof. unfold last_of. rewrite last_cons. by destruct (last es). Qed.

Lemma increasing_app prev es1 es2 :
  increasing prev (es1 ++ es2) <-> increasing prev es1 /\ increasing (last_of prev es1) es2.
Proof.
  revert prev. induction es1 as [|e es1 IH]; intros prev; simpl; [tauto|].
  rewrite IH, last_of_cons. tauto.
Qed.

Lemma fake_validate_Ok entries prev :
  fake_validate entries prev = Ok tt <-> increasing prev entries.
Proof.
  revert prev. induction entries as [|e es IH]; intros [v|]; simpl; try done; [|rewrite IH; tauto].
  destruct (me_version e <=? v) eqn:Hle; zbool; 
    [split; [done|intros [? _]; lia]|rewrite IH; split; [by split|tauto]].
Qed.

Lemma fake_validate_no_panic entries prev : fake_validate entries prev <> Panic.
Proof.
  revert prev. induction entries as [|e es IH]; intros [v|]; simpl; try done.
  by destruct (_ <=? _).
Qed.

Definition fake_ok (l : FakeMetadataLog) : Prop :=
  increasing None (fl_entries l) /\ Forall entry_wf (fl_entries l).

Lemma fake_append_law (h : unit) l es l' r :
  fake_ok l -> Forall entry_wf es -> log_append h l es = (l', r) ->
  fake_ok l' /\ r <> Panic /\
  exists more, fl_entries l' = fl_entries l ++ more /\
    (r = Ok tt -> exists others, more = others ++ es).
Proof.
  intros [Hinc Hwf] Hes. simpl. unfold fake_append.
  destruct (fake_validate es _) as [[]|e|] eqn:Hv; intros [= <- <-]; simpl.
  - apply fake_validate_Ok in Hv. split.
    + split; [apply increasing_app|by apply Forall_app]. split; [done|].
      unfold last_of. by destruct (last (fl_entries l)).
    + split; [done|]. exists es. split; [done|]. intros _. by exists [].
  - split; [done|]. split; [done|]. exists []. by rewrite app_nil_r.
  - by apply fake_validate_no_panic in Hv.
Qed.

Lemma fake_read_law (h : unit) l start n l' r :
  fake_ok l -> log_read_from h l start n = (l', r) ->
  fake_ok l' /\ r <> Panic /\ (exists more, fl_entries l' = fl_entries l ++ more) /\
  forall page, r = Ok page ->
    page = take n (List.filter (fun e => start <=? me_version e) (fl_entries l')).
Proof.
  intros Hok [= <- <-]. split_and!; [done..|exists []; by rewrite app_nil_r|].
  by intros page [= <-].
Qed.

#[export] Instance FakeMetadataLog_laws : MetadataLogLaws unit FakeMetadataLog := {
  log_ok := fake_ok;
  contents := fl_entries;
  seen _ := fl_entries;
  seen_prefix _ l _ := reflexivity (fl_entries l);
  log_ordered _ Hok := Hok;
  append_law := fake_append_law;
  read_law := fake_read_law;
}.

(** ** Reading on from a prefix *)

Lemma version_above_ge prev es :
  increasing prev es -> Forall entry_wf es -> (forall v, prev = Some v -> 0 <= v) ->
  Forall (fun e => version_above prev <= me_version e) es.
Proof.
  revert prev. induction es as [|e es IH]; intros prev Hinc Hwf Hv; [constructor|].
  apply Forall_cons in Hwf as [[[He _] _] Hwf]. destruct Hinc as [Hlt Hinc].
  constructor; [destruct prev; simpl; lia|].
  eapply Forall_impl; [apply IH; [done|done|by intros ? [= <-]]|].
  intros x Hx. simpl in *. destruct prev; simpl; lia.
Qed.

Lemma increasing_below prev es e :
  increasing prev (es ++ [e]) -> Forall (fun x => me_version x < me_version e) es.
Proof.
  revert prev. induction es as [|x es IH]; intros prev Hinc; [constructor|].
  destruct Hinc as [_ Hinc]. pose proof (IH _ Hinc) as Hall. constructor; [|done].
  destruct es as [|y es]; simpl in Hinc; [lia|].
  apply Forall_cons in Hall as [Hy _]. lia.
Qed.

Lemma last_of_nonneg es v :
  Forall entry_wf es -> last_of None es = Some v -> 0 <= v.
Proof.
  unfold last_of. intros Hwf. destruct (last es) as [e|] eqn:Hl; [|done]. intros [= <-].
  apply last_Some in Hl as [es' ->]. apply Forall_app in Hwf as [_ Hwf].
  apply Forall_singleton in Hwf as [[? _] _]. done.
Qed.

(** A prefix of the contents lies below the version after its last entry, and
    the rest at or above it. *)
Lemma split_at_version pre rest :
  increasing None (pre ++ rest) -> Forall entry_wf (pre ++ rest) ->
  Forall (fun e => (version_above (last_of None pre) <=? me_version e) = false) pre /\
  Forall (fun e => (version_above (last_of None pre) <=? me_version e) = true) rest.
Proof.
  intros [Hp Hr]%increasing_app [Hwp Hwr]%Forall_app. split.
  - destruct (last pre) as [e|] eqn:Hl; [|apply last_None in Hl as ->; constructor].
    unfold last_of. rewrite Hl. simpl. apply last_Some in Hl as [pre' ->].
    pose proof (increasing_below None pre' e Hp) as Hb. apply Forall_app. split.
    + eapply Forall_impl; [exact Hb|]. intros x Hx. simpl in Hx. apply Z.leb_gt. lia.
    + apply Forall_singleton, Z.leb_gt. lia.
  - pose proof (version_above_ge _ _ Hr Hwr (fun v => last_of_nonneg pre v Hwp)) as Hall.
    eapply Forall_impl; [exact Hall|]. intros x Hx. by apply Z.leb_le.
Qed.

Lemma filter_all_false {A} (f : A -> bool) l : Forall (fun x => f x = false) l -> List.filter f l = [].
Proof. induction 1 as [|x l Hx _ IH]; simpl; [done|]. by rewrite Hx. Qed.

Lemma filter_all_true {A} (f : A -> bool) l : Forall (fun x => f x = true) l -> List.filter f l = l.
Proof. induction 1 as [|x l Hx _ IH]; simpl; [done|]. by rewrite Hx, IH. Qed.

(** What is read from just past a prefix of the contents is the rest. *)
Lemma read_rest pre rest :
  increasing None (pre ++ rest) -> Forall entry_wf (pre ++ rest) ->
  List.filter (fun e => version_above (last_of None pre) <=? me_version e) (pre ++ rest) = rest.
Proof.
  intros Hinc Hwf. destruct (split_at_version pre rest Hinc Hwf) as [H1 H2].
  by rewrite List.filter_app, (filter_all_false _ pre H1), (filter_all_true _ rest H2).
Qed.

(** The entries below the version after a prefix are the ones of the prefix. *)
Lemma read_none pre rest more :
  increasing None ((pre ++ rest) ++ more) -> Forall entry_wf ((pre ++ rest) ++ more) ->
  List.filter (fun e => version_above (last_of None (pre ++ rest)) <=? me_version e) pre = [].
Proof.
  intros Hinc Hwf. destruct (split_at_version _ _ Hinc Hwf) as [Hlo _].
  apply Forall_app in Hlo as [Hlo _]. by apply filter_all_false.
Qed.

(** Two prefixes of one log are comparable. *)
Lemma prefix_total {A} (l1 l2 r1 r2 : list A) :
  l1 ++ r1 = l2 ++ r2 -> l1 `prefix_of` l2 \/ l2 `prefix_of` l1.
Proof.
  intros [(k & -> & _)|(k & -> & _)]%app_eq_inv; [right|left]; by exists k.
Qed.

Lemma prefix_antisym {A} (l1 l2 : list A) : l1 `prefix_of` l2 -> l2 `prefix_of` l1 -> l1 = l2.
Proof.
  intros [k1 ->] [k2 Hk]. rewrite <-app_assoc in Hk. apply (f_equal length) in Hk as Hlen.
  rewrite !length_app in Hlen. destruct k1; [by rewrite app_nil_r|simpl in Hlen; lia].
Qed.

Section reading.
Context {H L : Type} `{MetadataLogLaws H L}.

(** A page read from just past a prefix of the contents continues it, and a
    short page reaches the end of what the handle has seen. *)
Lemma read_page h l n l' r pre rest start :
  log_ok l -> contents l = pre ++ rest -> start = version_above (last_of None pre) ->
  log_read_from h l start n = (l', r) ->
  log_ok l' /\ r <> Panic /\ (exists more, contents l' = contents l ++ more) /\
  (exists rest1, contents l' = pre ++ rest1) /\
  forall page, r = Ok page -> exists rest', contents l' = pre ++ page ++ rest' /\
    ((length page < n)%nat -> seen h l' `prefix_of` pre ++ page).
Proof.
  intros Hok Hd -> Hread.
  destruct (read_law _ _ _ _ _ _ Hok Hread) as (Hok' & Hnp & (more & Hm) & Hpage).
  assert (contents l' = pre ++ rest ++ more) as Hd' by (by rewrite Hm, Hd, app_assoc).
  split; [done|]. split; [done|]. split; [by exists more|]. split; [by eexists|].
  intros page Hr. specialize (Hpage page Hr). destruct (log_ordered l' Hok') as [Hinc Hwf].
  destruct (seen_prefix h l' Hok') as [unseen Hs]. revert Hpage Hs. generalize (seen h l'). intros S Hpage Hs.
  assert (S ++ unseen = pre ++ rest ++ more) as Heq by congruence.
  destruct (prefix_total _ _ _ _ Heq) as [[k ->]|[k ->]].
  - rewrite (read_none S k (rest ++ more)), take_nil in Hpage by (by rewrite <-Hd').
    subst page. exists (rest ++ more). split; [done|]. intros _. rewrite app_nil_r. by exists k.
  - rewrite Hs in Hinc, Hwf. apply increasing_app in Hinc as [Hinc _]. apply Forall_app in Hwf as [Hwf _].
    rewrite read_rest in Hpage by done. subst page. exists (drop n k ++ unseen). split.
    + by rewrite Hs, (app_assoc (take n k)), take_drop, app_assoc.
    + rewrite length_take. intros Hlt. rewrite take_ge by lia. done.
Qed.
End reading.

(** ** The allocator and the index at a point of the log *)

(** The end offset a log gives a partition: the counts it commits there. *)
Definition log_end (es : list MetadataEntry) (k : string * Z) : Z :=
  sumZ (map (appended k.1 k.2) es).

(** A log has a span of an object under a version, and gives it an offset: the
    counts committed to its partition before it, in earlier records and in its own. *)
Definition span_at (es : list MetadataEntry) (version : CommitVersion) (object : ObjectKey) (span : CommittedSpan)
    (a : Assignment) : Prop :=
  exists pre now more spans j,
    es = pre ++ mkMetadataEntry version (BatchCommitted object spans now) :: more /\ spans !! j = Some span /\
    a = mkAssignment (cs_topic span) (cs_partition span)
          (log_end pre (span_key span) + sumZ (map (span_count (cs_topic span) (cs_partition span)) (take j spans)))
          (cs_record_count span).

(** Every producer line is that of a span the log has. *)
Definition lines_of (al : Allocator) (es : list MetadataEntry) : Prop :=
  forall k ps, al_producer_state al !! k = Some ps -> exists version object span identity,
    cs_producer span = Some identity /\ k = (pi_id identity, cs_topic span, cs_partition span) /\
    ps_epoch ps = pi_epoch identity /\ ps_sequence ps = pi_sequence identity /\
    span_at es version object span
      (mkAssignment (cs_topic span) (cs_partition span) (ps_base_offset ps) (ps_record_count ps)).

Definition al_at (al : Allocator) (es : list MetadataEntry) : Prop :=
  (forall k, al_end al k = log_end es k) /\ al_next_version al = version_above (last_of None es) /\ lines_of al es.

Definition index_at (i : IndexState) (es : list MetadataEntry) : Prop :=
  exists a, spec_fold abs_empty es = Ok a /\ abs i ≡ a.

Lemma log_end_app es1 es2 k : log_end (es1 ++ es2) k = log_end es1 k + log_end es2 k.
Proof. unfold log_end. by rewrite map_app, sumZ_app. Qed.

Lemma log_end_one e k : log_end [e] k = appended k.1 k.2 e.
Proof. unfold log_end; simpl. lia. Qed.

Lemma span_at_app es more version object span a :
  span_at es version object span a -> span_at (es ++ more) version object span a.
Proof.
  intros (pre & now & rest & spans & j & -> & Hj & Ha). exists pre, now, (rest ++ more), spans, j.
  split_and!; [by rewrite <-app_assoc|done|done].
Qed.

Lemma lines_of_app al es more : lines_of al es -> lines_of al (es ++ more).
Proof. intros Hl k ps (v & o & sp & i & ? & ? & ? & ? & ?)%Hl. exists v, o, sp, i. split_and!; try done. by apply span_at_app. Qed.

(** A staged commit's lines are those of its own spans. *)
Lemma lines_of_stage al al0 es object spans now st v :
  lines_of al es -> (forall k, al_end al0 k = log_end es k) -> al_producer_state al0 = al_producer_state al ->
  stage al0 object spans now = Ok st ->
  lines_of (al_apply al0 st).1 (es ++ [mkMetadataEntry v (BatchCommitted object spans now)]).
Proof.
  intros Hl Hend Eal (acc & _ & _ & Hlines & _)%stage_Ok k ps [Hk|Hin]%al_apply_lines.
  - rewrite Eal in Hk. by apply (lines_of_app al es).
  - rewrite Hlines in Hin. apply lines_at_from in Hin as (j & span & identity & Hj & Hp & -> & ->).
    exists v, object, span, identity. split_and!; try done. exists es, now, [], spans, j. split_and!; try done.
    simpl. by rewrite Hend.
Qed.

Lemma al_at_new : al_at Allocator_new [].
Proof. split; [|by split; [done|intros k ps Hk; exfalso; exact (lookup_empty_Some k ps Hk)]]. intros [t p]. unfold al_end, al_end_offset. simpl. by rewrite lookup2_empty. Qed.

Lemma index_at_clear i : index_at (IndexState_clear i) [].
Proof.
  exists abs_empty. split; [done|]. split_and!; simpl; [done|by rewrite flat_empty|done].
Qed.

Lemma al_at_stage al es object spans now st :
  al_at al es -> stage al object spans now = Ok st ->
  al_at (al_apply al st).1 (es ++ [sc_entry st]).
Proof.
  intros (Hend & Hv & Hl) Hst. pose proof Hst as (acc & Hent & _ & _ & _ & _ & Hnext)%stage_Ok.
  split_and!.
  - intros [t p]. rewrite (apply_stage_ends _ _ _ _ _ (t, p) Hst), bump_ends_sum, Hend.
    by rewrite log_end_app, log_end_one, Hent.
  - destruct (al_apply_ends al st) as [_ ->]. rewrite Hnext, last_of_app, Hent. done.
  - rewrite Hent. by apply (lines_of_stage al).
Qed.

Lemma al_at_other al es v e :
  al_at al es -> v = me_version e + 1 ->
  (match me_record e with BatchCommitted _ _ _ => False | _ => True end) ->
  al_at (set_next_version v al) (es ++ [e]).
Proof.
  intros (Hend & _ & Hl) -> He. split_and!.
  - intros k. rewrite log_end_app, log_end_one, set_next_version_end, Hend. unfold appended.
    destruct (me_record e); done || lia.
  - by rewrite last_of_app.
  - by apply (lines_of_app al).
Qed.

Lemma al_at_replay al es e al' :
  al_at al es -> al_replay al e = (al', Ok tt) -> al_at al' (es ++ [e]).
Proof.
  intros Hat. unfold al_replay. destruct (_ <? _); [done|].
  destruct (me_record e) as [object spans at_|t k m u|t k ri ii|t k s|ep|t rms] eqn:Hrec;
    try (destruct (CommitVersion_advance _ 1) as [v|?|] eqn:Hv; intros [= <-];
         apply CommitVersion_advance_Ok in Hv as [_ ->];
         apply (al_at_other al); [done|done|by rewrite Hrec]).
  destruct (stage _ _ _ _) as [st|?|] eqn:Hst; intros [= <-].
  pose proof Hst as (acc & Hent & _ & _ & _ & _ & Hnext)%stage_Ok. destruct Hat as (Hend & _ & Hl). split_and!.
  - intros [t p]. rewrite (apply_stage_ends _ _ _ _ _ (t, p) Hst), bump_ends_sum.
    rewrite set_next_version_end, Hend, log_end_app, log_end_one. unfold appended. by rewrite Hrec.
  - destruct (al_apply_ends (set_next_version (me_version e) al) st) as [_ ->].
    by rewrite Hnext, last_of_app.
  - destruct e as [v record]; simpl in *; subst record. eapply (lines_of_stage al); [done| |done|exact Hst].
    intros k. by rewrite set_next_version_end.
Qed.

Lemma spec_fold_upto a es a' : spec_fold a es = Ok a' -> ai_upto a' = last_of (ai_upto a) es.
Proof.
  revert a. induction es as [|e es IH]; intros a; [by intros [= <-]|].
  unfold spec_fold; simpl. intros (a1 & H1 & H2)%res_bind_Ok. apply IH in H2. rewrite H2, last_of_cons.
  assert (ai_upto a1 = Some (me_version e)) as ->; [|done].
  unfold spec_entry in H1. destruct (ai_upto a); [case_match; [done|]|]; by simplify_res.
Qed.

Lemma index_at_upto i es : index_at i es -> applied_upto i = last_of None es.
Proof. intros (a & Ha & Heq & _). apply spec_fold_upto in Ha. simpl in *. congruence. Qed.

Lemma index_at_wf i es : index_at i es -> Forall entry_wf es -> abs_wf (abs i).
Proof.
  intros (a & Ha & Heq) Hes. apply (abs_wf_equiv a); [by symmetry|].
  eapply spec_fold_wf; [apply abs_wf_empty|done|done].
Qed.

Lemma index_at_apply i es1 es2 i' :
  index_at i es1 -> Forall entry_wf (es1 ++ es2) -> IndexState_apply i es2 = Ok i' ->
  index_at i' (es1 ++ es2).
Proof.
  intros Hat [Hes1 Hes2]%Forall_app Happ. pose proof (index_at_wf i es1 Hat Hes1) as Hwf.
  destruct Hat as (a & Ha & Heq). destruct (apply_Ok i es2 i' Hwf Hes2 Happ) as (a2 & H2 & Heq2 & _).
  pose proof (spec_fold_proper _ _ Heq es2 es2 eq_refl) as Hp. rewrite H2 in Hp.
  unfold index_at, spec_fold in *. rewrite res_foldl_app, Ha. simpl.
  destruct (res_foldl spec_entry a es2) as [a3|?|]; [|done..]. exists a3. split; [done|].
  simpl in Hp. by rewrite Heq2.
Qed.
