(* ===== verification/Coordinator.v ===== *)
(** * Coordinator: assign, journal, publish

    Models [oqueue-coordinator/src/serve.rs], [serve/leadership.rs],
    [coordinator.rs] and [error.rs]: the loop that owns one
    metadata shard.  A commit is admitted, staged by the allocator, appended to
    the metadata log, and only then applied, indexed and acknowledged.

    The loop is sequential, so an operation is a function from the loop's state
    to its next state and an answer.  What the loop cannot decide is read from
    the environment: the log's answers (class [MetadataLog], which may report
    entries of other writers), the clock and the lease, which are functions of
    how often they have been consulted.  A loop that reads the log page by page
    takes fuel; running out of it is [Panic], which stands for no answer. *)

From stdpp Require Import base tactics list numbers strings gmap.
From Stdlib Require Import ZArith Lia.
From S2P Require Import Prelude Types Coverage Partition IndexFold Allocator AllocatorProps.
From S2P Require Import Log.

Open Scope Z_scope.

Inductive CoordinatorError : Type :=
| Unavailable
| Unassignable (source : Error)
| Journal (source : Error)
| Unreplayable (version : Z) (source : Error)
| Fenced.

Notation CRes := (Result CoordinatorError).

Definition REBUILD_PAGE_ENTRIES : nat := 1024.

Lemma REBUILD_PAGE_pos : (0 < REBUILD_PAGE_ENTRIES)%nat.
Proof. unfold REBUILD_PAGE_ENTRIES. lia. Qed.
#[global] Opaque REBUILD_PAGE_ENTRIES.

(** The lease the loop is fenced by: whether it is held and in which term, at
    each consultation. *)
Record Lease : Type := mkLease { ls_held : nat -> bool; ls_term : nat -> option Z }.

Inductive Request : Type :=
| Commit (object : ObjectKey) (spans : list CommittedSpan)
| DropCache
| Trim (topic : TopicId) (partition : PartitionId) (start : Offset)
| Retention (topic : TopicId) (retention_ms : option Z).

Inductive Reply : Type :=
| CommitReply (answer : CRes CommitAck)
| DroppedReply
| TrimReply (answer : CRes CommitVersion)
| RetentionReply (answer : CRes CommitVersion).

Section coordinator.
Context {H L : Type} `{MetadataLog H L}.

Record CoordinatorLoop : Type := mkLoop {
  cl_log : H;
  cl_store : L;
  cl_index : IndexState;
  cl_epoch : CoordinatorEpoch;
  cl_allocator : Allocator;
  cl_deltas : list MetadataEntry;
  cl_published : option CommitVersion;
  cl_last_committed : option CommitVersion;
  cl_clock : nat -> Timestamp;
  cl_lease : option Lease;
  cl_pending_replay : bool;
  cl_reopen : option (L -> L * Res H);
  cl_replayed_term : option Z;
  cl_tick : nat;
}.

(** ** The loop's state and error monad *)

Definition M (A : Type) : Type := CoordinatorLoop -> CoordinatorLoop * CRes A.

Definition mret {A} (a : A) : M A := fun s => (s, Ok a).
Definition mfail {A} (e : CoordinatorError) : M A := fun s => (s, Err e).
Definition mbind {A B} (m : M A) (k : A -> M B) : M B := fun s =>
  match m s with
  | (s', Ok a) => k a s'
  | (s', Err e) => (s', Err e)
  | (s', Panic) => (s', Panic)
  end.
Definition mget {A} (f : CoordinatorLoop -> A) : M A := fun s => (s, Ok (f s)).
Definition mlift {A} (f : Error -> CoordinatorError) (r : Res A) : M A :=
  fun s => (s, res_map_err f r).

Definition set_log (h : H) : M unit := fun s =>
  (mkLoop h (cl_store s) (cl_index s) (cl_epoch s) (cl_allocator s) (cl_deltas s) (cl_published s)
     (cl_last_committed s) (cl_clock s) (cl_lease s) (cl_pending_replay s) (cl_reopen s)
     (cl_replayed_term s) (cl_tick s), Ok tt).
Definition set_store (l : L) : M unit := fun s =>
  (mkLoop (cl_log s) l (cl_index s) (cl_epoch s) (cl_allocator s) (cl_deltas s) (cl_published s)
     (cl_last_committed s) (cl_clock s) (cl_lease s) (cl_pending_replay s) (cl_reopen s)
     (cl_replayed_term s) (cl_tick s), Ok tt).
Definition set_index (i : IndexState) : M unit := fun s =>
  (mkLoop (cl_log s) (cl_store s) i (cl_epoch s) (cl_allocator s) (cl_deltas s) (cl_published s)
     (cl_last_committed s) (cl_clock s) (cl_lease s) (cl_pending_replay s) (cl_reopen s)
     (cl_replayed_term s) (cl_tick s), Ok tt).
Definition set_allocator (a : Allocator) (last : option CommitVersion) : M unit := fun s =>
  (mkLoop (cl_log s) (cl_store s) (cl_index s) (cl_epoch s) a (cl_deltas s) (cl_published s) last
     (cl_clock s) (cl_lease s) (cl_pending_replay s) (cl_reopen s) (cl_replayed_term s)
     (cl_tick s), Ok tt).
Definition set_replayed_term (t : option Z) : M unit := fun s =>
  (mkLoop (cl_log s) (cl_store s) (cl_index s) (cl_epoch s) (cl_allocator s) (cl_deltas s) (cl_published s)
     (cl_last_committed s) (cl_clock s) (cl_lease s) (cl_pending_replay s) (cl_reopen s) t
     (cl_tick s), Ok tt).
Definition set_pending_replay (b : bool) : M unit := fun s =>
  (mkLoop (cl_log s) (cl_store s) (cl_index s) (cl_epoch s) (cl_allocator s) (cl_deltas s) (cl_published s)
     (cl_last_committed s) (cl_clock s) (cl_lease s) b (cl_reopen s) (cl_replayed_term s)
     (cl_tick s), Ok tt).
Definition send_delta (e : MetadataEntry) : M unit := fun s =>
  (mkLoop (cl_log s) (cl_store s) (cl_index s) (cl_epoch s) (cl_allocator s) (cl_deltas s ++ [e])
     (cl_published s) (cl_last_committed s) (cl_clock s) (cl_lease s) (cl_pending_replay s)
     (cl_reopen s) (cl_replayed_term s) (cl_tick s), Ok tt).
(** One consultation of the environment. *)
Definition tick {A} (f : CoordinatorLoop -> nat -> A) : M A := fun s =>
  (mkLoop (cl_log s) (cl_store s) (cl_index s) (cl_epoch s) (cl_allocator s) (cl_deltas s) (cl_published s)
     (cl_last_committed s) (cl_clock s) (cl_lease s) (cl_pending_replay s) (cl_reopen s)
     (cl_replayed_term s) (S (cl_tick s)), Ok (f s (cl_tick s))).

(** [self.published.send_replace(self.index.applied_upto())]. *)
Definition publish_applied : M unit := fun s =>
  (mkLoop (cl_log s) (cl_store s) (cl_index s) (cl_epoch s) (cl_allocator s) (cl_deltas s)
     (applied_upto (cl_index s)) (cl_last_committed s) (cl_clock s) (cl_lease s)
     (cl_pending_replay s) (cl_reopen s) (cl_replayed_term s) (cl_tick s), Ok tt).

End coordinator.
Arguments CoordinatorLoop H L : clear implicits.
Arguments M H L A : clear implicits.

Notation "'let!' x ':=' m 'in' k" := (mbind m (fun x => k))
  (at level 10, x pattern, m at level 200, k at level 200) : oq_scope.
Notation "m ;;; k" := (mbind m (fun _ => k)) (at level 199, right associativity) : oq_scope.

Section operations.
Context {H L : Type} `{MetadataLog H L}.
Notation M := (M H L).

(** A call of the log through a handle. *)
Definition read_through (log : H) (start : CommitVersion) : M (Res (list MetadataEntry)) := fun s =>
  let '(l, r) := log_read_from log (cl_store s) start REBUILD_PAGE_ENTRIES in
  (set_store l ;;; mret r) s.

Definition read_log (start : CommitVersion) : M (Res (list MetadataEntry)) :=
  let! log := mget cl_log in read_through log start.

Definition append_log (entry : MetadataEntry) : M (Res unit) := fun s =>
  let '(l, r) := log_append (cl_log s) (cl_store s) [entry] in (set_store l ;;; mret r) s.

(** [self.index.apply(entries)]: the index is unchanged by a refusal. *)
Definition apply_index (entries : list MetadataEntry) : M (Res unit) := fun s =>
  match IndexState_apply (cl_index s) entries with
  | Ok i => (set_index i ;;; mret (Ok tt)) s
  | Err e => mret (Err e) s
  | Panic => (s, Panic)
  end.

Definition clear_index : M unit := fun s => set_index (IndexState_clear (cl_index s)) s.

(** ** Leadership ([leadership.rs]) *)

Definition leads : M bool :=
  tick (fun s n => match cl_lease s with None => true | Some lease => ls_held lease n end).

(** The error arm of [journal]: losing the log to another writer means the
    term has to be replayed. *)
Definition journal_refused (error : Error) : M unit :=
  match error with
  | PreconditionFailed _ => set_replayed_term None ;;; mfail (Journal error)
  | _ => mfail (Journal error)
  end.

Definition journal (entry : MetadataEntry) : M unit :=
  let! r := append_log entry in
  match r with
  | Ok _ => mret tt
  | Err error => journal_refused error
  | Panic => fun s => (s, Panic)
  end.

Definition still_leads_after_append : M unit :=
  let! held := leads in
  if held then mret tt else (set_replayed_term None ;;; mfail Fenced).

(** The replay loop over a page, each failure tagged with its version. *)
Fixpoint replay_entries (tag : MetadataEntry -> Error -> CoordinatorError) (al : Allocator)
    (es : list MetadataEntry) : CRes Allocator :=
  match es with
  | [] => Ok al
  | e :: es =>
      match al_replay al e with
      | (al', Ok _) => replay_entries tag al' es
      | (_, Err error) => Err (tag e error)
      | (_, Panic) => Panic
      end
  end.

Definition unreplayable (e : MetadataEntry) (source : Error) : CoordinatorError :=
  Unreplayable (me_version e) source.

(** ** Replay ([coordinator.rs]) *)

(** [while let Some(tail) = page.last()]. *)
Fixpoint fold_pages (fuel : nat) (page : list MetadataEntry) (allocator : Allocator)
    (last_seen : option CommitVersion) : M (Allocator * option CommitVersion) :=
  match fuel with
  | O => fun s => (s, Panic)
  | S fuel =>
      match last page with
      | None => mret (allocator, last_seen)
      | Some tail =>
          let! allocator := (fun s => (s, replay_entries unreplayable allocator page)) in
          let! applied := apply_index page in
          let! _ := mlift (unreplayable tail) applied in
          let! from := mlift (unreplayable tail) (CommitVersion_advance (me_version tail) 1) in
          let! read := read_log from in
          let! page := mlift Journal read in
          fold_pages fuel page allocator (Some (me_version tail))
      end
  end.

Definition replay (fuel : nat) : M (Allocator * option CommitVersion) :=
  let! read := read_log CommitVersion_ZERO in
  let! first := mlift Journal read in
  clear_index ;;;
  (fun s =>
     match fold_pages fuel first Allocator_new None s with
     | (s, Err e) => (clear_index ;;; mfail e) s
     | r => r
     end).

(** ** Publication ([serve.rs]) *)

Definition index_precedes (i : IndexState) (version : CommitVersion) : bool :=
  match applied_upto i with
  | None => version =? CommitVersion_ZERO
  | Some applied => is_ok_and (CommitVersion_advance applied 1) (fun next => next =? version)
  end.

Fixpoint rebuild_loop (fuel : nat) (start : CommitVersion) : M unit :=
  match fuel with
  | O => fun s => (s, Panic)
  | S fuel =>
      let! read := read_log start in
      match read with
      | Ok page =>
          match last page with
          | None => mret tt
          | Some tail =>
              let! applied := apply_index page in
              match applied with
              | Ok _ =>
                  match CommitVersion_advance (me_version tail) 1 with
                  | Ok next => rebuild_loop fuel next
                  | _ => mret tt
                  end
              | _ => clear_index
              end
          end
      | _ => clear_index
      end
  end.

Definition rebuild (fuel : nat) : M unit := clear_index ;;; rebuild_loop fuel CommitVersion_ZERO.

Definition publish (fuel : nat) (entry : MetadataEntry) : M unit :=
  let! precedes := mget (fun s => index_precedes (cl_index s) (me_version entry)) in
  (if precedes then
     let! applied := apply_index [entry] in
     match applied with Ok _ => mret tt | _ => clear_index end
   else rebuild fuel) ;;;
  publish_applied ;;;
  send_delta entry.

(** ** Serving *)

(** Once the record is durable: the allocator takes the position, and the
    index and the subscribers are told. *)
Definition take_position (fuel : nat) (staged : StagedCommit) : M (CommitVersion * list Assignment) :=
  let! al := mget cl_allocator in
  let '(al', (version, assignments)) := al_apply al staged in
  set_allocator al' (Some version) ;;;
  publish fuel (sc_entry staged) ;;;
  mret (version, assignments).

(** What follows the staging of any record: the lease is checked, the record
    journaled, the lease checked again, and then the loop moves on. *)
Definition commit_staged (fuel : nat) (staged : StagedCommit) : M (CommitVersion * list Assignment) :=
  let! held := leads in
  if negb held then mfail Fenced
  else
    journal (sc_entry staged) ;;;
    still_leads_after_append ;;;
    take_position fuel staged.

Definition assigned_only (o : SpanOutcome) : option Assignment :=
  match o with Assigned a => Some a | Rejected _ => None end.

Definition serve (fuel : nat) (object : ObjectKey) (spans : list CommittedSpan) : M CommitAck :=
  let! al := mget cl_allocator in
  let admission := al_admit al spans in
  let outcomes :=
    map (fun '(index, _, _, a) => (index, Assigned a)) (ad_replayed admission) ++
    map (fun '(index, _, _, reason) => (index, Rejected reason)) (ad_rejected admission) in
  let admitted_indices := map fst (ad_admitted admission) in
  let admitted_spans := map snd (ad_admitted admission) in
  let! (version, epoch, outcomes) :=
    match admitted_spans with
    | [] =>
        mget (fun s => (default CommitVersion_ZERO (cl_last_committed s), cl_epoch s, outcomes))
    | _ =>
        let! now := tick (fun s n => cl_clock s n) in
        let! staged := mlift Unassignable (stage al object admitted_spans now) in
        let! (version, assignments) := commit_staged fuel staged in
        let! epoch := mget cl_epoch in
        mret (version, epoch,
              outcomes ++ zip admitted_indices (map Assigned assignments))
    end in
  let outcomes := map snd (sort_by_key (fun o => Z.of_nat o.1) outcomes) in
  mret (mkCommitAck version epoch (omap assigned_only outcomes) outcomes).

Definition serve_trim (fuel : nat) (topic : TopicId) (partition : PartitionId) (start : Offset)
    : M CommitVersion :=
  let! al := mget cl_allocator in
  let! staged := mlift Unassignable (stage_trim al topic partition start) in
  let! (version, _) := commit_staged fuel staged in
  mret version.

Definition serve_retention (fuel : nat) (topic : TopicId) (retention_ms : option Z)
    : M CommitVersion :=
  let! al := mget cl_allocator in
  let! staged := mlift Unassignable (stage_retention al topic retention_ms) in
  let! (version, _) := commit_staged fuel staged in
  mret version.

(** ** Taking leadership *)

(** The loop of [refold], on a log handle that is not yet the loop's. *)
Fixpoint refold (fuel : nat) (log : H) (allocator : Allocator) (last_seen : option CommitVersion)
    (from : CommitVersion) : M (option (Allocator * option CommitVersion)) :=
  match fuel with
  | O => fun s => (s, Panic)
  | S fuel =>
      let! read := read_through log from in
      match read with
      | Ok page =>
          match last page with
          | None => mret (Some (allocator, last_seen))
          | Some tail =>
              match replay_entries unreplayable allocator page with
              | Ok allocator =>
                  let! upto := mget (fun s => applied_upto (cl_index s)) in
                  let missing :=
                    List.filter (fun e => match upto with
                                          | None => true
                                          | Some upto => upto <? me_version e
                                          end) page in
                  let! applied := apply_index missing in
                  match applied with
                  | Ok _ =>
                      match CommitVersion_advance (me_version tail) 1 with
                      | Ok from => refold fuel log allocator (Some (me_version tail)) from
                      | _ => mret None
                      end
                  | _ => mret None
                  end
              | Err _ => mret None
              | Panic => fun s => (s, Panic)
              end
          end
      | _ => mret None
      end
  end.

Definition current_for_term (fuel : nat) : M bool :=
  let! lease := mget cl_lease in
  let! reopen := mget cl_reopen in
  match lease, reopen with
  | Some lease, Some reopen =>
      let! term := tick (fun _ n => ls_term lease n) in
      let! replayed := mget cl_replayed_term in
      if bool_decide (is_Some term) && bool_decide (term = replayed) then mret true
      else
        let! reopened := (fun s => let '(l, r) := reopen (cl_store s) in (set_store l ;;; mret r) s) in
        match reopened with
        | Ok log =>
            let! folded := refold fuel log Allocator_new None CommitVersion_ZERO in
            match folded with
            | Some (allocator, last_seen) =>
                set_log log ;;;
                set_allocator allocator last_seen ;;;
                set_replayed_term term ;;;
                publish_applied ;;;
                mret true
            | None => mret false
            end
        | _ => mret false
        end
  | _, _ => mret true
  end.

Definition try_replay (fuel : nat) : M bool :=
  let! pending := mget cl_pending_replay in
  if negb pending then mret true
  else fun s =>
    match replay fuel s with
    | (s, Ok (allocator, last_seen)) =>
        (set_allocator allocator last_seen ;;;
         set_pending_replay false ;;;
         publish_applied ;;;
         mret true) s
    | (s, Err _) => mret false s
    | (s, Panic) => (s, Panic)
    end.

Definition may_write (fuel : nat) : M unit :=
  let! replayed := try_replay fuel in
  if negb replayed then mfail Unavailable
  else
    let! held := leads in
    if negb held then mfail Fenced
    else
      let! current := current_for_term fuel in
      if negb current then mfail Unavailable else mret tt.

(** ** One request of [run] *)

Definition handle (fuel : nat) (request : Request) (s : CoordinatorLoop H L)
    : CoordinatorLoop H L * Reply :=
  match request with
  | Commit object spans =>
      let '(s, r) := (may_write fuel ;;; serve fuel object spans) s in (s, CommitReply r)
  | Trim topic partition start =>
      let '(s, r) := (may_write fuel ;;; serve_trim fuel topic partition start) s in
      (s, TrimReply r)
  | Retention topic retention_ms =>
      let '(s, r) := (may_write fuel ;;; serve_retention fuel topic retention_ms) s in
      (s, RetentionReply r)
  | DropCache =>
      let '(s, _) := (clear_index ;;; publish_applied) s in (s, DroppedReply)
  end.

(** [Coordinator::commit]: the request is queued, and its reply awaited. *)
Definition coordinator_commit (fuel : nat) (object : ObjectKey) (spans : list CommittedSpan) (s : CoordinatorLoop H L)
    : CoordinatorLoop H L * CRes CommitAck :=
  let '(s, reply) := handle fuel (Commit object spans) s in
  (s, match reply with CommitReply answer => answer | _ => Err Unavailable end).

Definition run (fuel : nat) (requests : list Request) (s : CoordinatorLoop H L)
    : CoordinatorLoop H L * list Reply :=
  foldl (fun '(s, replies) request =>
    let '(s, reply) := handle fuel request s in (s, replies ++ [reply])) (s, []) requests.

(** [Coordinator::assemble], the loop's half; [open] and [open_deferred]. *)
Definition assemble (log : H) (store : L) (index : IndexState) (epoch : CoordinatorEpoch)
    (clock : nat -> Timestamp) (allocator : Allocator) (last_seen : option CommitVersion)
    (pending_replay : bool) : CoordinatorLoop H L :=
  mkLoop log store index epoch allocator [] last_seen last_seen clock None pending_replay None None O.

Definition open_deferred (log : H) (store : L) (index : IndexState) (epoch : CoordinatorEpoch)
    (clock : nat -> Timestamp) : CoordinatorLoop H L :=
  assemble log store index epoch clock Allocator_new None true.

Definition open (fuel : nat) (log : H) (store : L) (index : IndexState) (epoch : CoordinatorEpoch)
    (clock : nat -> Timestamp) : CRes (CoordinatorLoop H L) :=
  match replay fuel (assemble log store index epoch clock Allocator_new None false) with
  | (s, Ok (allocator, last_seen)) =>
      Ok (assemble (cl_log s) (cl_store s) (cl_index s) epoch clock allocator last_seen false)
  | (_, Err e) => Err e
  | (_, Panic) => Panic
  end.

Definition fenced_by (self : CoordinatorLoop H L) (lease : Lease) : CoordinatorLoop H L :=
  mkLoop (cl_log self) (cl_store self) (cl_index self) (cl_epoch self) (cl_allocator self) (cl_deltas self)
    (cl_published self) (cl_last_committed self) (cl_clock self) (Some lease)
    (cl_pending_replay self) (cl_reopen self) (cl_replayed_term self) (cl_tick self).

Definition reopening_with (self : CoordinatorLoop H L) (reopen : L -> L * Res H) : CoordinatorLoop H L :=
  mkLoop (cl_log self) (cl_store self) (cl_index self) (cl_epoch self) (cl_allocator self) (cl_deltas self)
    (cl_published self) (cl_last_committed self) (cl_clock self) (cl_lease self)
    (cl_pending_replay self) (Some reopen) (cl_replayed_term self) (cl_tick self).

End operations.
