(* ===== verification/CoordinatorProps.v ===== *)
(** * CoordinatorProps: what the commit loop guarantees

    Against any log that satisfies its contract, with other writers appending
    at any moment and any answers of the lease and the clock: the allocator and
    the index are always the fold of a prefix of the durable log, an
    acknowledged position is the position that log gives the records, a refused
    append leaves the loop where it was, and a replay folds the whole log. *)

From stdpp Require Import base tactics list numbers strings gmap.
From Stdlib Require Import ZArith Lia.
From S2P Require Import Prelude Types Coverage Partition IndexFold IndexSpec IndexRefine.
From S2P Require Import IndexProps Allocator AllocatorProps Log Coordinator.

Open Scope Z_scope.

Section invariant.
Context {H L : Type} {log_ops : MetadataLog H L} {log_laws : MetadataLogLaws H L}.
Implicit Types s : CoordinatorLoop H L.

Notation durable s := (contents (cl_store s)).

(** A [Reopen] opens the same durable log. *)
Definition reopen_ok (f : L -> L * Res H) : Prop :=
  forall l l' r, log_ok l -> f l = (l', r) ->
    log_ok l' /\ r <> Panic /\ exists more, contents l' = contents l ++ more.

(** What the loop was given and never changes: the clock returns timestamps. *)
Definition env_ok (env : option (L -> L * Res H) * (nat -> Timestamp)) : Prop :=
  (forall f, env.1 = Some f -> reopen_ok f) /\ forall n, timestamp_wf (env.2 n).

Definition fixed s s' : Prop := (cl_reopen s', cl_clock s') = (cl_reopen s, cl_clock s).

(** The loop's invariant. *)
Record inv (s : CoordinatorLoop H L) : Prop := {
  ci_log : log_ok (cl_store s);
  ci_allocator : exists pre rest, durable s = pre ++ rest /\ al_at (cl_allocator s) pre;
  ci_index : exists pre rest, durable s = pre ++ rest /\ index_at (cl_index s) pre;
  ci_reopen : env_ok (cl_reopen s, cl_clock s);
}.

(** The durable log of the later state extends that of the earlier. *)
Definition grew s s' : Prop :=
  log_ok (cl_store s') /\ exists more, durable s' = durable s ++ more.

(** Everything but the log, the index and what the loop remembers of its term;
    and everything but the log and that. *)
Definition same_rest s s' : Prop :=
  cl_allocator s' = cl_allocator s /\ fixed s s' /\
  cl_epoch s' = cl_epoch s /\ cl_lease s' = cl_lease s /\ cl_log s' = cl_log s /\
  cl_last_committed s' = cl_last_committed s /\ cl_pending_replay s' = cl_pending_replay s /\
  cl_deltas s' = cl_deltas s /\ cl_published s' = cl_published s.

Definition same_core s s' : Prop := same_rest s s' /\ cl_index s' = cl_index s.

Lemma same_rest_trans s1 s2 s3 : same_rest s1 s2 -> same_rest s2 s3 -> same_rest s1 s3.
Proof. unfold same_rest. intuition congruence. Qed.

Lemma same_core_trans s1 s2 s3 : same_core s1 s2 -> same_core s2 s3 -> same_core s1 s3.
Proof. intros [? ?] [? ?]. split; [by eapply same_rest_trans|congruence]. Qed.

Lemma grew_same s s' : log_ok (cl_store s) -> cl_store s' = cl_store s -> grew s s'.
Proof. intros Hok Hs. unfold grew. rewrite Hs. split; [done|]. exists []. by rewrite app_nil_r. Qed.

Lemma grew_trans s1 s2 s3 : grew s1 s2 -> grew s2 s3 -> grew s1 s3.
Proof.
  intros [_ (m1 & H1)] [Hok (m2 & H2)]. split; [done|]. exists (m1 ++ m2).
  by rewrite H2, H1, app_assoc.
Qed.

Lemma inv_grew s s' : inv s -> same_core s s' -> grew s s' -> inv s'.
Proof.
  intros [Hl (p1 & r1 & Hd1 & Ha) (p2 & r2 & Hd2 & Hi) Hr] [(Eal & Er & _) Ei] [Hok (m & Hm)].
  split; [done| | |by rewrite Er].
  - exists p1, (r1 ++ m). by rewrite Hm, Hd1, Eal, app_assoc.
  - exists p2, (r2 ++ m). by rewrite Hm, Hd2, Ei, app_assoc.
Qed.

Lemma durable_ordered s : log_ok (cl_store s) -> increasing None (durable s) /\ Forall entry_wf (durable s).
Proof. apply log_ordered. Qed.

(** ** Calls of the log *)

Lemma read_through_spec h s from s' r :
  log_ok (cl_store s) -> read_through h from s = (s', r) ->
  same_core s s' /\ grew s s' /\
  exists r', r = Ok r' /\ r' <> Panic /\
  forall page pre rest, r' = Ok page -> durable s = pre ++ rest ->
    from = version_above (last_of None pre) ->
    exists rest', durable s' = pre ++ page ++ rest' /\
      (page = [] -> seen h (cl_store s') `prefix_of` pre).
Proof.
  intros Hok. unfold read_through.
  destruct (log_read_from h (cl_store s) from _) as [l r'] eqn:Hread. intros [= <- <-].
  destruct (read_law _ _ _ _ _ _ Hok Hread) as (Hok' & Hnp & (more & Hm) & _).
  split; [by split_and!|]. split; [by split; [|exists more]|].
  exists r'. split_and!; [done|done|]. simpl. intros page pre rest -> Hd Hfrom.
  destruct (read_page _ _ _ _ _ _ _ _ Hok Hd Hfrom Hread) as (_ & _ & _ & _ & Hpage).
  destruct (Hpage page eq_refl) as (rest' & Hd' & Hshort). exists rest'. split; [done|].
  intros ->. rewrite app_nil_r in Hshort. apply Hshort. simpl. apply REBUILD_PAGE_pos.
Qed.

Lemma append_log_spec e s s' r :
  log_ok (cl_store s) -> entry_wf e -> append_log e s = (s', r) ->
  same_core s s' /\ grew s s' /\ cl_tick s' = cl_tick s /\
  exists r', r = Ok r' /\ r' <> Panic /\
    (r' = Ok tt -> exists others, durable s' = durable s ++ others ++ [e]).
Proof.
  intros Hok He. unfold append_log.
  destruct (log_append (cl_log s) (cl_store s) [e]) as [l r'] eqn:Happ. intros [= <- <-].
  destruct (append_law _ _ _ _ _ Hok (proj2 (Forall_singleton _ _) He) Happ)
    as (Hok' & Hnp & more & Hm & Hsuf).
  split; [by split_and!|]. split; [by split; [|exists more]|]. split; [done|].
  exists r'. split_and!; [done|done|]. intros Hr. destruct (Hsuf Hr) as [others ->]. eauto.
Qed.

Lemma journal_spec e s s' r :
  log_ok (cl_store s) -> entry_wf e -> journal e s = (s', r) ->
  same_core s s' /\ grew s s' /\ cl_tick s' = cl_tick s /\ r <> Panic /\
  (forall err, r = Err err -> exists x, err = Journal x) /\
  (r = Ok tt -> exists others, durable s' = durable s ++ others ++ [e]).
Proof.
  intros Hok He. unfold journal, mbind. destruct (append_log e s) as [s1 r1] eqn:Happ.
  destruct (append_log_spec e s s1 r1 Hok He Happ) as (Hc & Hg & Ht & r' & -> & Hnp & Hd).
  destruct r' as [[]|err|]; [| |done].
  { intros [= <- <-]. split_and!; try done; apply Hg || auto. }
  assert (exists s2, same_core s1 s2 /\ cl_store s2 = cl_store s1 /\ cl_tick s2 = cl_tick s1 /\
    journal_refused err s1 = (s2, Err (Journal err))) as (s2 & Hc2 & Hst & Ht2 & ->).
  { destruct err; (eexists; split_and!; [..|reflexivity]); done. }
  intros [= <- <-]. split_and!; try done; [by eapply same_core_trans| |congruence|].
  2: { intros ? [= <-]. eauto. }
  unfold grew. rewrite Hst. apply Hg.
Qed.

(** An append that is accepted at the allocator's next version finds the log
    exactly where the allocator left it. *)
Lemma append_at_head s al pre rest others e :
  durable s = (pre ++ rest) ++ others ++ [e] -> log_ok (cl_store s) ->
  al_at al pre -> me_version e = al_next_version al -> rest ++ others = [].
Proof.
  intros Hd Hok [_ Hv] He. destruct (durable_ordered s Hok) as [Hinc Hwf].
  replace ((pre ++ rest) ++ others ++ [e]) with (pre ++ (rest ++ others) ++ [e]) in Hd
    by (by rewrite !app_assoc). rewrite Hd in Hinc, Hwf.
  apply increasing_app in Hinc as [_ Hinc]. apply Forall_app in Hwf as [Hwp Hwf].
  pose proof (version_above_ge _ _ Hinc Hwf (fun v => last_of_nonneg pre v Hwp)) as Hge.
  pose proof (increasing_below _ _ _ Hinc) as Hlt.
  destruct (rest ++ others) as [|x l]; [done|].
  apply Forall_cons in Hlt as [Hx _]. apply Forall_app in Hge as [Hge _].
  apply Forall_cons in Hge as [Hx' _]. lia.
Qed.

(** ** The index *)

(** The index is the fold of some prefix of the durable log. *)
Definition index_behind s : Prop :=
  exists pre rest, durable s = pre ++ rest /\ index_at (cl_index s) pre.

Lemma index_behind_grew s s' :
  index_behind s -> cl_index s' = cl_index s -> grew s s' -> index_behind s'.
Proof.
  intros (pre & rest & Hd & Hi) Ei [_ (m & Hm)]. exists pre, (rest ++ m).
  by rewrite Hm, Hd, Ei, app_assoc.
Qed.

Lemma inv_step s s' :
  inv s -> cl_allocator s' = cl_allocator s -> fixed s s' -> grew s s' ->
  index_behind s' -> inv s'.
Proof.
  intros [Hl (p1 & r1 & Hd1 & Ha) _ Hr] Eal Er [Hok (m & Hm)] Hi.
  split; [done| |done|by rewrite Er]. exists p1, (r1 ++ m). by rewrite Hm, Hd1, Eal, app_assoc.
Qed.

Lemma apply_index_spec es s s' r pre :
  index_at (cl_index s) pre -> Forall entry_wf (pre ++ es) -> apply_index es s = (s', r) ->
  same_rest s s' /\ cl_store s' = cl_store s /\
  exists r', r = Ok r' /\ r' <> Panic /\
    (r' = Ok tt -> index_at (cl_index s') (pre ++ es)) /\
    (r' <> Ok tt -> cl_index s' = cl_index s).
Proof.
  intros Hat Hwf. unfold apply_index. pose proof Hwf as [Hwp Hwe]%Forall_app.
  destruct (IndexState_apply (cl_index s) es) as [i|e|] eqn:Happ; intros [= <- <-].
  - split_and!; [done|done|]. exists (Ok tt). split_and!; [done|done| |done].
    intros _. by apply (index_at_apply (cl_index s)).
  - split_and!; [done|done|]. exists (Err e). split_and!; done.
  - apply apply_no_panic in Happ; [done|by eapply index_at_wf|done].
Qed.

Lemma clear_index_spec s s' r :
  log_ok (cl_store s) -> clear_index s = (s', r) ->
  same_rest s s' /\ grew s s' /\ r = Ok tt /\ index_at (cl_index s') [].
Proof.
  intros Hok [= <- <-]. split_and!; [done|by apply grew_same|done|apply index_at_clear].
Qed.

Lemma page_tail (page : list MetadataEntry) tail pre :
  last page = Some tail -> last_of None (pre ++ page) = Some (me_version tail).
Proof. intros Hl. rewrite last_of_app. unfold last_of. by rewrite Hl. Qed.

Lemma advance_tail (page : list MetadataEntry) tail pre from :
  last page = Some tail -> CommitVersion_advance (me_version tail) 1 = Ok from ->
  from = version_above (last_of None (pre ++ page)).
Proof. intros Hl [_ ->]%CommitVersion_advance_Ok. by rewrite (page_tail _ tail). Qed.

Lemma rebuild_loop_spec fuel start s s' r pre rest :
  log_ok (cl_store s) -> durable s = pre ++ rest -> index_at (cl_index s) pre ->
  start = version_above (last_of None pre) -> rebuild_loop fuel start s = (s', r) ->
  same_rest s s' /\ grew s s' /\ index_behind s' /\ (forall e, r <> Err e).
Proof.
  revert start s pre rest. induction fuel as [|fuel IH]; intros start s pre rest Hok Hd Hat Hst.
  { intros [= <- <-]. split_and!; [done|by apply grew_same| |done]. by exists pre, rest. }
  cbn [rebuild_loop]. unfold mbind at 1, read_log, mbind at 1, mget.
  destruct (read_through (cl_log s) start s) as [s1 r1] eqn:Hread.
  destruct (read_through_spec _ _ _ _ _ Hok Hread) as ([Hs1 Hi1] & Hg1 & r' & -> & Hnp & Hpage).
  pose proof (proj1 Hg1) as Hok1.
  assert (forall s2 s' r, same_rest s s2 -> grew s s2 -> clear_index s2 = (s', r) ->
    same_rest s s' /\ grew s s' /\ index_behind s' /\ (forall e, r <> Err e)) as Hclear.
  { intros s2 s3 r3 Hs2 Hg2 Hcl.
    destruct (clear_index_spec _ _ _ (proj1 Hg2) Hcl) as (Hs3 & Hg3 & -> & Hi3).
    split_and!; [by eapply same_rest_trans|by eapply grew_trans| |done].
    by exists [], (durable s3). }
  destruct r' as [page|e|]; [|by apply Hclear|done].
  destruct (Hpage page pre rest eq_refl Hd Hst) as (rest' & Hd1 & _).
  destruct (last page) as [tail|] eqn:Hlast.
  2: { intros [= <- <-]. split_and!; [done|done| |done].
       exists pre, (page ++ rest'). by rewrite Hi1. }
  unfold mbind at 1. destruct (apply_index page s1) as [s2 r2] eqn:Happ.
  pose proof (proj2 (durable_ordered s1 Hok1)) as Hwf. rewrite Hd1, app_assoc in Hwf.
  apply Forall_app in Hwf as [Hwf _]. rewrite <-Hi1 in Hat.
  destruct (apply_index_spec page s1 s2 r2 pre Hat Hwf Happ) as (Hs2 & Hst2 & r3 & -> & _ & Hok3 & Herr).
  assert (grew s s2) as Hg2 by (unfold grew; rewrite Hst2; apply Hg1).
  assert (same_rest s s2) as Hs02 by (by eapply same_rest_trans).
  destruct r3 as [[]|e|]; [|by apply Hclear|by apply Hclear].
  specialize (Hok3 eq_refl). rewrite <-Hst2, app_assoc in Hd1.
  destruct (CommitVersion_advance (me_version tail) 1) as [next|e|] eqn:Hadv;
    [|intros [= <- <-]; split_and!; [done..| |done]; by exists (pre ++ page), rest'..].
  intros Hrec. destruct (IH next s2 (pre ++ page) rest') as (Hs' & Hg' & Hb & Hne);
    [by rewrite Hst2|done|done|by eapply advance_tail|done|].
  split_and!; [by eapply same_rest_trans|by eapply grew_trans|done|done].
Qed.

Lemma rebuild_spec fuel s s' r :
  log_ok (cl_store s) -> rebuild fuel s = (s', r) ->
  same_rest s s' /\ grew s s' /\ index_behind s' /\ (forall e, r <> Err e).
Proof.
  intros Hok. unfold rebuild, mbind. destruct (clear_index s) as [s1 r1] eqn:Hcl.
  destruct (clear_index_spec _ _ _ Hok Hcl) as (Hs1 & Hg1 & -> & Hi1). intros Hreb.
  destruct (rebuild_loop_spec fuel CommitVersion_ZERO s1 s' r [] (durable s1)) as (Hs & Hg & Hb & Hne);
    [apply Hg1|done|done|done|done|].
  split_and!; [by eapply same_rest_trans|by eapply grew_trans|done|done].
Qed.

(** The entry that follows what the index holds is the first one it lacks. *)
Lemma precedes_prefix s pre rest others e :
  log_ok (cl_store s) -> index_at (cl_index s) pre -> durable s = pre ++ rest ->
  durable s = others ++ [e] -> index_precedes (cl_index s) (me_version e) = true -> rest = [e].
Proof.
  intros Hok Hat Hd He Hp. destruct (durable_ordered s Hok) as [Hinc Hwf].
  assert (version_above (last_of None pre) = me_version e) as Hv.
  { unfold index_precedes in Hp. rewrite (index_at_upto _ _ Hat) in Hp.
    destruct (last_of None pre) as [v|]; simpl.
    - destruct (CommitVersion_advance v 1) as [n|?|] eqn:Hadv; [|done..].
      apply CommitVersion_advance_Ok in Hadv as [_ ->]. simpl in Hp. by zbool.
    - unfold CommitVersion_ZERO in Hp. by zbool. }
  destruct rest as [|x rest _] using rev_ind.
  - rewrite app_nil_r in Hd. rewrite Hd in He. rewrite He, last_of_app in Hv. simpl in Hv. lia.
  - rewrite app_assoc in Hd. rewrite Hd in He. apply app_inj_tail in He as [_ ->].
    rewrite Hd, <-app_assoc in Hinc, Hwf. apply increasing_app in Hinc as [_ Hinc].
    apply Forall_app in Hwf as [Hwp Hwf].
    pose proof (version_above_ge _ _ Hinc Hwf (fun v => last_of_nonneg pre v Hwp)) as Hge.
    pose proof (increasing_below _ _ _ Hinc) as Hlt. destruct rest as [|y rest]; [done|].
    apply Forall_cons in Hlt as [? _]. apply Forall_cons in Hge as [? _]. lia.
Qed.

Lemma publish_spec fuel e s s' r others :
  log_ok (cl_store s) -> index_behind s -> durable s = others ++ [e] ->
  publish fuel e s = (s', r) ->
  cl_allocator s' = cl_allocator s /\ fixed s s' /\ cl_epoch s' = cl_epoch s /\
  cl_last_committed s' = cl_last_committed s /\
  grew s s' /\ index_behind s' /\ (forall err, r <> Err err).
Proof.
  intros Hok (pre & rest & Hd & Hat) He. unfold publish, mbind at 1, mget.
  set (body := if index_precedes _ _ then _ else _).
  assert (forall s1 r1, body s = (s1, r1) ->
    same_rest s s1 /\ grew s s1 /\ index_behind s1 /\ (forall err, r1 <> Err err)) as Hbody.
  { intros s1 r1. subst body. destruct (index_precedes (cl_index s) (me_version e)) eqn:Hp;
      [|by apply rebuild_spec].
    pose proof (precedes_prefix s pre rest others e Hok Hat Hd He Hp) as ->.
    unfold mbind. destruct (apply_index [e] s) as [s2 r2] eqn:Happ.
    destruct (apply_index_spec [e] s s2 r2 pre Hat) as (Hs2 & Hst2 & r' & -> & Hnp & Hok' & _);
      [rewrite <-Hd; by apply durable_ordered|done|].
    destruct r' as [[]|err|]; [|intros Hcl|done].
    - intros [= <- <-]. split_and!; [done|by apply grew_same| |done].
      exists (pre ++ [e]), []. rewrite app_nil_r, Hst2. auto.
    - rewrite <-Hst2 in Hok. destruct (clear_index_spec _ _ _ Hok Hcl) as (Hs3 & Hg3 & -> & Hi3).
      split_and!; [by eapply same_rest_trans| |by exists [], (durable s1)|done].
      unfold grew in *. by rewrite Hst2 in Hg3. }
  unfold mbind at 1. destruct (body s) as [s1 r1]. destruct (Hbody s1 r1 eq_refl) as (Hs1 & Hg1 & Hi1 & Hne).
  destruct Hs1 as (? & ? & ? & ? & ? & ? & _).
  destruct r1 as [[]|err|]; [|by specialize (Hne err)|]; intros [= <- <-]; split_and!; done.
Qed.

(** ** Committing a staged record *)

(** A staged record fits the allocator it was staged by. *)
Definition staged_for (al : Allocator) (st : StagedCommit) : Prop :=
  me_version (sc_entry st) = al_next_version al /\ record_wf (me_record (sc_entry st)) /\
  al_next_version al + 1 <= u64_max /\
  forall es, al_at al es -> al_at (al_apply al st).1 (es ++ [sc_entry st]).

Lemma al_at_next al es : al_at al es -> Forall entry_wf es -> 0 <= al_next_version al.
Proof.
  intros (_ & -> & _) Hwf. destruct (last_of None es) as [v|] eqn:Hl; simpl; [|lia].
  pose proof (last_of_nonneg es v Hwf Hl). lia.
Qed.

(** What [commit_staged] does, on every path.  An error leaves the allocator,
    the index and what was published as they were; a success means the lease
    was held before and after the append, and that the record is in the durable
    log right after the prefix the allocator had folded. *)
Record committed (s s' : CoordinatorLoop H L) (st : StagedCommit)
    (r : CRes (CommitVersion * list Assignment)) : Prop := {
  cm_inv : inv s';
  cm_grew : grew s s';
  cm_epoch : cl_epoch s' = cl_epoch s;
  cm_err : forall e, r = Err e -> same_core s s' /\ (exists x, e = Journal x) \/
                                  same_core s s' /\ e = Fenced;
  cm_ok : forall v xs, r = Ok (v, xs) ->
    v = me_version (sc_entry st) /\ xs = sc_assignments st /\
    cl_last_committed s' = Some v /\ cl_allocator s' = (al_apply (cl_allocator s) st).1 /\
    (forall lease, cl_lease s = Some lease ->
       ls_held lease (cl_tick s) = true /\ ls_held lease (S (cl_tick s)) = true) /\
    exists pre more, al_at (cl_allocator s) pre /\ durable s' = pre ++ sc_entry st :: more;
  cm_unheld : forall lease, cl_lease s = Some lease -> ls_held lease (cl_tick s) = false ->
    r = Err Fenced /\ cl_store s' = cl_store s;
  cm_fenced : forall lease, cl_lease s = Some lease -> ls_held lease (cl_tick s) = true -> r = Err Fenced ->
    ls_held lease (S (cl_tick s)) = false /\ durable s' = durable s ++ [sc_entry st];
}.

Lemma take_position_spec fuel st s s' r pre :
  inv s -> al_at (cl_allocator s) pre -> durable s = pre ++ [sc_entry st] ->
  staged_for (cl_allocator s) st -> take_position fuel st s = (s', r) ->
  inv s' /\ grew s s' /\ cl_epoch s' = cl_epoch s /\ (forall e, r <> Err e) /\
  (forall v xs, r = Ok (v, xs) ->
     v = me_version (sc_entry st) /\ xs = sc_assignments st /\ cl_last_committed s' = Some v /\
     cl_allocator s' = (al_apply (cl_allocator s) st).1).
Proof.
  intros Hinv Hat Hd (_ & _ & _ & Hal). unfold take_position, mbind at 1, mget.
  assert ((al_apply (cl_allocator s) st).2 = (me_version (sc_entry st), sc_assignments st)) as Has.
  { unfold al_apply. destruct (apply_producers _ _) as [a b]. by destruct (evict_over_cap a b _). }
  specialize (Hal pre Hat). destruct (al_apply (cl_allocator s) st) as [al' [v xs]] eqn:Hap.
  simpl in Has, Hal |- *. injection Has as -> ->. unfold mbind at 1. cbn [set_allocator].
  set (s1 := mkLoop _ _ _ _ _ _ _ _ _ _ _ _ _ _).
  assert (inv s1) as Hinv1.
  { destruct Hinv as [H1 _ H3 H4]. split; [done| |done|done].
    exists (pre ++ [sc_entry st]), []. by rewrite app_nil_r. }
  unfold mbind at 1. destruct (publish fuel (sc_entry st) s1) as [s2 r2] eqn:Hpub.
  destruct (publish_spec _ _ _ _ _ pre (ci_log _ Hinv1) (ci_index _ Hinv1) Hd Hpub)
    as (E1 & E2 & E3 & E4 & Hg2 & Hi2 & Hne).
  pose proof (inv_step s1 s2 Hinv1 E1 E2 Hg2 Hi2) as Hinv2.
  destruct r2 as [[]|err|]; [|by specialize (Hne err)|]; intros [= <- <-]; split_and!; try done.
  intros v xs [= <- <-]. by rewrite E4, E1.
Qed.

Lemma still_leads_spec s s' r :
  still_leads_after_append s = (s', r) ->
  same_core s s' /\ cl_store s' = cl_store s /\ r <> Panic /\
  (forall e, r = Err e -> e = Fenced) /\
  (r = Ok tt -> forall lease, cl_lease s = Some lease -> ls_held lease (cl_tick s) = true) /\
  (forall e lease, r = Err e -> cl_lease s = Some lease -> ls_held lease (cl_tick s) = false).
Proof.
  unfold still_leads_after_append, mbind, leads, tick.
  destruct (cl_lease s) as [lease|] eqn:Hl; [destruct (ls_held lease (cl_tick s)) eqn:Hh|];
    intros [= <- <-]; split_and!; try done;
    [by intros _ ? [= <-]|by intros ? [= <-]|by intros ? ? _ [= <-]].
Qed.

Lemma commit_staged_spec fuel st s s' r :
  inv s -> staged_for (cl_allocator s) st -> commit_staged fuel st s = (s', r) ->
  committed s s' st r.
Proof.
  intros Hinv Hst. pose proof Hst as (Hv & Hrec & Hmax & _). pose proof (ci_log s Hinv) as Hok.
  destruct (ci_allocator s Hinv) as (pre & rest & Hd & Hat).
  assert (entry_wf (sc_entry st)) as Hewf.
  { split; [|done]. rewrite Hv. pose proof (proj2 (durable_ordered s Hok)) as Hwf.
    rewrite Hd in Hwf. apply Forall_app in Hwf as [Hwf _]. pose proof (al_at_next _ _ Hat Hwf).
    unfold in_u64. lia. }
  unfold commit_staged, mbind at 1. destruct (leads s) as [s0 r0] eqn:Hleads.
  assert (same_core s s0 /\ cl_store s0 = cl_store s /\ cl_tick s0 = S (cl_tick s) /\
    exists b, r0 = Ok b /\ (forall lease, cl_lease s = Some lease ->
      ls_held lease (cl_tick s) = b)) as (Hc0 & Hst0 & Ht0 & b & -> & Hb).
  { injection Hleads as <- <-. split_and!; [done|done|done|]. eexists. split; [done|].
    intros lease Hl. by rewrite Hl. }
  pose proof (grew_same s s0 Hok Hst0) as Hg0. pose proof (inv_grew _ _ Hinv Hc0 Hg0) as Hinv0.
  destruct b; cbn [negb]; cycle 1.
  { intros [= <- <-]. split; [done|done|apply Hc0|intros ? [= <-]; auto|done|done|].
    intros lease Hl Hh. by rewrite (Hb lease Hl) in Hh. }
  assert (forall P : Prop, forall lease, cl_lease s = Some lease -> ls_held lease (cl_tick s) = false -> P) as Hheld.
  { intros P lease Hl Hh. by rewrite (Hb lease Hl) in Hh. }
  unfold mbind at 1. destruct (journal (sc_entry st) s0) as [s1 r1] eqn:Hj.
  destruct (journal_spec _ _ _ _ (ci_log _ Hinv0) Hewf Hj) as (Hc1 & Hg1 & Ht1 & Hnp1 & Hje & Hd1).
  pose proof (same_core_trans _ _ _ Hc0 Hc1) as Hc01. pose proof (inv_grew _ _ Hinv0 Hc1 Hg1) as Hinv1.
  pose proof (grew_trans _ _ _ Hg0 Hg1) as Hg01.
  destruct r1 as [[]|e|]; [| |done]; cycle 1.
  { intros [= <- <-]. split; [done|done|apply Hc01|intros ? [= <-]; eauto|done|by intros; eapply Hheld|].
    intros lease _ _ [= ->]. by destruct (Hje Fenced eq_refl) as [x [= ]]. }
  destruct (Hd1 eq_refl) as [others Hd1']. rewrite Hst0, Hd in Hd1'.
  pose proof (append_at_head s1 _ pre rest others _ Hd1' (ci_log _ Hinv1) Hat Hv) as Hnil.
  assert (durable s1 = pre ++ [sc_entry st]) as Hds1
    by (rewrite Hd1', <-app_assoc, (app_assoc rest), Hnil; done).
  unfold mbind at 1. destruct (still_leads_after_append s1) as [s2 r2] eqn:Hsl.
  destruct (still_leads_spec _ _ _ Hsl) as (Hc2 & Hst2 & Hnp2 & Hf2 & Hh2 & Hn2).
  pose proof (grew_same s1 s2 (ci_log _ Hinv1) Hst2) as Hg2.
  pose proof (inv_grew _ _ Hinv1 Hc2 Hg2) as Hinv2.
  pose proof (same_core_trans _ _ _ Hc01 Hc2) as Hc02. pose proof (grew_trans _ _ _ Hg01 Hg2) as Hg02.
  destruct r2 as [[]|e|]; [| |done]; cycle 1.
  { intros [= <- <-]. split; [done|done|apply Hc02|intros ? [= <-]; right; auto|done|by intros; eapply Hheld|].
    intros lease Hl _ _. split; [|rewrite Hst2, Hds1, Hd; destruct rest; [by rewrite app_nil_r|done]]. rewrite <-Ht0, <-Ht1. eapply Hn2; [done|].
    destruct Hc01 as [(_ & _ & _ & El & _) _]. congruence. }
  intros Htp. destruct Hc02 as [Hr02 Hi02]. pose proof (proj1 Hr02) as Eal.
  rewrite <-Eal in Hat, Hst. rewrite <-Hst2 in Hds1.
  destruct (take_position_spec fuel st s2 s' r pre Hinv2 Hat Hds1 Hst Htp)
    as (Hinv' & Hg' & Ee & Hne & Hres).
  split; [done|by eapply grew_trans|rewrite Ee; apply Hr02|intros e ->; by specialize (Hne e)| |by intros; eapply Hheld|intros lease _ _ ->; by specialize (Hne Fenced)].
  intros v xs Hr. destruct (Hres v xs Hr) as (-> & -> & Hlc & Hal'). rewrite Eal in Hal', Hat.
  split_and!; try done.
  - intros lease Hl. split; [by apply Hb|]. rewrite <-Ht0, <-Ht1. apply Hh2; [done|].
    destruct Hc01 as [(_ & _ & _ & El & _) _]. congruence.
  - destruct Hg' as [_ (more & Hm)]. exists pre, more. split; [done|].
    by rewrite Hm, Hds1, <-app_assoc.
Qed.

Lemma staged_for_stage al object spans now st :
  record_wf (BatchCommitted object spans now) -> stage al object spans now = Ok st -> staged_for al st.
Proof.
  intros Hsp Hst. pose proof Hst as (acc & Hent & _)%stage_Ok. unfold staged_for. rewrite Hent.
  split_and!; [done|done| |].
  - unfold stage in Hst. apply res_bind_Ok in Hst as (? & _ & (v & Hv & _)%res_bind_Ok).
    by apply CommitVersion_advance_Ok in Hv as [? _].
  - intros es Hat. rewrite <-Hent. by eapply al_at_stage.
Qed.

(** The other two records stage nothing but the version. *)
Lemma staged_for_plain al record :
  record_wf record -> (match record with BatchCommitted _ _ _ => False | _ => True end) ->
  al_next_version al + 1 <= u64_max ->
  staged_for al (mkStagedCommit (mkMetadataEntry (al_next_version al) record) [] [] []
                   (al_next_version al + 1)).
Proof.
  intros Hr Hn Hmax. split_and!; [done|done|done|]. intros es (Hend & Hv & Hl).
  assert (al_at (set_next_version (al_next_version al + 1) al)
    (es ++ [mkMetadataEntry (al_next_version al) record])) as (H1 & H2 & _) by (by apply al_at_other).
  destruct (al_apply_ends al (mkStagedCommit (mkMetadataEntry (al_next_version al) record)
    [] [] [] (al_next_version al + 1))) as [E1 E2].
  split_and!; [|by rewrite E2|].
  - intros k. rewrite <-H1, !al_end_flat, E1. done.
  - apply lines_of_app. intros k ps [Hk|Hk%elem_of_nil]%al_apply_lines; [by apply Hl|done].
Qed.

Lemma staged_for_trim al t p start st :
  record_wf (Trimmed t p start) -> stage_trim al t p start = Ok st -> staged_for al st.
Proof.
  intros Hs. unfold stage_trim. destruct (_ <? _); [done|].
  intros (v & (Hmax & ->)%CommitVersion_advance_Ok & [= <-])%res_bind_Ok. by apply staged_for_plain.
Qed.

Lemma staged_for_retention al t rms st :
  record_wf (TopicRetentionChanged t rms) -> stage_retention al t rms = Ok st -> staged_for al st.
Proof.
  intros Hr. unfold stage_retention. intros (v & (Hmax & ->)%CommitVersion_advance_Ok & [= <-])%res_bind_Ok.
  by apply staged_for_plain.
Qed.

(** ** Replaying the log *)

Lemma replay_entries_at tag al es al' pre :
  al_at al pre -> replay_entries tag al es = Ok al' -> al_at al' (pre ++ es).
Proof.
  revert al pre. induction es as [|e es IH]; intros al pre Hat; simpl.
  - intros [= <-]. by rewrite app_nil_r.
  - destruct (al_replay al e) as [al1 [[]|err|]] eqn:Hr; [|done..]. intros Hrest.
    change (e :: es) with ([e] ++ es). rewrite app_assoc. eapply IH, Hrest. by eapply al_at_replay.
Qed.

(** What a completed replay has, in the allocator and the index: a prefix of
    the log that reaches at least as far as the loop's handle has seen. *)
Definition caught_up s (al : Allocator) (last_seen : option CommitVersion) : Prop :=
  exists pre rest, durable s = pre ++ rest /\ seen (cl_log s) (cl_store s) `prefix_of` pre /\
    al_at al pre /\ index_at (cl_index s) pre /\ last_seen = last_of None pre.

Lemma fold_pages_spec fuel page al last_seen s s' r pre rest :
  log_ok (cl_store s) -> durable s = pre ++ page ++ rest ->
  (page = [] -> seen (cl_log s) (cl_store s) `prefix_of` pre) ->
  al_at al pre -> index_at (cl_index s) pre -> last_seen = last_of None pre ->
  fold_pages fuel page al last_seen s = (s', r) ->
  same_rest s s' /\ grew s s' /\ index_behind s' /\
  (forall al' l, r = Ok (al', l) -> caught_up s' al' l).
Proof.
  revert page al last_seen s pre rest.
  induction fuel as [|fuel IH]; intros page al last_seen s pre rest Hok Hd Htake Hal Hi Hl.
  { intros [= <- <-]. split_and!; [done|by apply grew_same| |done]. by exists pre, (page ++ rest). }
  cbn [fold_pages]. destruct (last page) as [tail|] eqn:Hlast; cycle 1.
  { apply last_None in Hlast as ->. specialize (Htake eq_refl). intros [= <- <-].
    split_and!; [done|by apply grew_same|by exists pre, rest|]. intros ? ? [= <- <-]. by exists pre, rest. }
  assert (index_behind s) as Hbs by (by exists pre, (page ++ rest)).
  unfold mbind at 1. destruct (replay_entries _ al page) as [al1|e|] eqn:Hrep;
    [|intros [= <- <-]; split_and!; [done|by apply grew_same|done|done]..].
  apply (replay_entries_at _ _ _ _ pre Hal) in Hrep as Hal1.
  unfold mbind at 1. destruct (apply_index page s) as [s1 r1] eqn:Happ.
  pose proof (proj2 (durable_ordered s Hok)) as Hwf. rewrite Hd, app_assoc in Hwf.
  apply Forall_app in Hwf as [Hwf _].
  destruct (apply_index_spec page s s1 r1 pre Hi Hwf Happ) as (Hs1 & Hst1 & r' & -> & Hnp & Hok1 & Herr).
  pose proof (grew_same s s1 Hok Hst1) as Hg1.
  unfold mbind at 1, mlift. destruct r' as [[]|e|]; cbn [res_map_err]; [| |done]; cycle 1.
  { intros [= <- <-]. split_and!; [done|done| |done].
    eapply index_behind_grew; [done|by apply Herr|done]. }
  specialize (Hok1 eq_refl). assert (index_behind s1) as Hb1
    by (exists (pre ++ page), rest; by rewrite Hst1, Hd, app_assoc).
  unfold mbind at 1. destruct (CommitVersion_advance _ 1) as [from|e|] eqn:Hadv; cbn [res_map_err];
    [|intros [= <- <-]; split_and!; done..].
  unfold mbind at 1, read_log, mbind at 1, mget.
  destruct (read_through (cl_log s1) from s1) as [s2 r2] eqn:Hread.
  destruct (read_through_spec _ _ _ _ _ (proj1 Hg1) Hread) as ([Hs2 Hi2] & Hg2 & r' & -> & _ & Hpage).
  pose proof (grew_trans _ _ _ Hg1 Hg2) as Hg02. pose proof (same_rest_trans _ _ _ Hs1 Hs2) as Hs02.
  unfold mbind at 1. destruct r' as [page2|e|]; cbn [res_map_err];
    [|intros [= <- <-]; split_and!; [done|done|by eapply index_behind_grew|done]..].
  destruct (Hpage page2 (pre ++ page) rest) as (rest2 & Hd2 & Htake2);
    [done|by rewrite Hst1, Hd, app_assoc|by eapply advance_tail|].
  assert (cl_log s2 = cl_log s1) as Hl2 by apply Hs2.
  intros Hrec. eapply IH in Hrec as (Hs3 & Hg3 & Hb3 & Hres); [|apply Hg2|exact Hd2|by rewrite Hl2|done|
    by rewrite Hi2|by rewrite (page_tail _ tail)].
  split_and!; [by eapply same_rest_trans|by eapply grew_trans|done|done].
Qed.

Lemma replay_spec fuel s s' r :
  log_ok (cl_store s) -> replay fuel s = (s', r) ->
  same_rest s s' /\ grew s s' /\ (index_behind s -> index_behind s') /\
  (forall al' l, r = Ok (al', l) -> caught_up s' al' l).
Proof.
  intros Hok. unfold replay, mbind at 1, read_log, mbind at 1, mget.
  destruct (read_through (cl_log s) CommitVersion_ZERO s) as [s1 r1] eqn:Hread.
  destruct (read_through_spec _ _ _ _ _ Hok Hread) as ([Hs1 Hi1] & Hg1 & r' & -> & _ & Hpage).
  unfold mbind at 1, mlift. destruct r' as [page|e|]; cbn [res_map_err];
    [|intros [= <- <-]; split_and!; [done|done|intros; by eapply index_behind_grew|done]..].
  destruct (Hpage page [] (durable s)) as (rest & Hd & Htake); [done..|].
  unfold mbind at 1. destruct (clear_index s1) as [s2 r2] eqn:Hcl.
  destruct (clear_index_spec _ _ _ (proj1 Hg1) Hcl) as (Hs2 & Hg2 & -> & Hi2).
  assert (durable s2 = [] ++ page ++ rest) as Hd2 by (by injection Hcl as <-).
  assert (page = [] -> seen (cl_log s2) (cl_store s2) `prefix_of` []) as Htake2.
  { injection Hcl as <-. simpl. replace (cl_log s1) with (cl_log s) by (symmetry; apply Hs1). done. }
  destruct (fold_pages fuel page Allocator_new None s2) as [s3 r3] eqn:Hfold.
  destruct (fold_pages_spec _ _ _ _ _ _ _ [] rest (proj1 Hg2) Hd2 Htake2 al_at_new Hi2 eq_refl Hfold)
    as (Hs3 & Hg3 & Hb3 & Hres).
  pose proof (same_rest_trans _ _ _ (same_rest_trans _ _ _ Hs1 Hs2) Hs3) as Hs03.
  pose proof (grew_trans _ _ _ (grew_trans _ _ _ Hg1 Hg2) Hg3) as Hg03.
  destruct r3 as [[al' l]|e|]; [intros [= <- <-]; by split_and!| |intros [= <- <-]; by split_and!].
  unfold mbind. destruct (clear_index s3) as [s4 r4] eqn:Hcl4.
  destruct (clear_index_spec _ _ _ (proj1 Hg3) Hcl4) as (Hs4 & Hg4 & -> & Hi4).
  intros [= <- <-].
  split_and!; [by eapply same_rest_trans|by eapply grew_trans| |done].
  intros _. by exists [], (durable s4).
Qed.

(** ** Taking leadership *)

(** What a page holds beyond the index. *)
Definition beyond (upto : option CommitVersion) (page : list MetadataEntry) : list MetadataEntry :=
  List.filter (fun e => match upto with None => true | Some upto => upto <? me_version e end) page.

Lemma beyond_version upto page :
  Forall entry_wf page ->
  beyond upto page = List.filter (fun e => version_above upto <=? me_version e) page.
Proof.
  unfold beyond. induction 1 as [|e page [[He _] _] _ IH]; simpl; [done|]. rewrite IH.
  destruct upto as [u|]; simpl.
  - by replace (u <? me_version e) with (u + 1 <=? me_version e) by (apply eq_true_iff_eq; lia).
  - by rewrite (proj2 (Z.leb_le _ _)) by lia.
Qed.

(** An index ahead of the replayed prefix takes exactly what it lacks, and
    stays ahead of the longer prefix. *)
Lemma beyond_page pre mid page rest resti :
  increasing None (pre ++ page ++ rest) -> Forall entry_wf (pre ++ page ++ rest) ->
  pre ++ page ++ rest = (pre ++ mid) ++ resti ->
  exists mid' resti', (pre ++ mid) ++ beyond (last_of None (pre ++ mid)) page = (pre ++ page) ++ mid' /\
    pre ++ page ++ rest = ((pre ++ page) ++ mid') ++ resti'.
Proof.
  intros Hinc Hwf Heq. pose proof Hwf as [_ [Hwp _]%Forall_app]%Forall_app.
  rewrite (beyond_version _ _ Hwp). rewrite Heq in Hinc, Hwf.
  destruct (split_at_version _ _ Hinc Hwf) as [Hlo Hhi]. apply Forall_app in Hlo as [_ Hlo].
  rewrite <-app_assoc in Heq. apply app_inv_head in Heq. clear Hinc Hwf Hwp.
  apply app_eq_inv in Heq as [(k & -> & ->)|(k & -> & ->)].
  - rewrite List.filter_app, (filter_all_false _ mid Hlo).
    apply Forall_app in Hhi as [Hk _]. rewrite (filter_all_true _ k Hk). simpl.
    exists [], rest. by rewrite !app_nil_r, <-!app_assoc.
  - apply Forall_app in Hlo as [Hpg _]. rewrite (filter_all_false _ page Hpg).
    exists k, resti. by rewrite app_nil_r, <-!app_assoc.
Qed.

Lemma refold_spec fuel h al last_seen from s s' r pre mid resti :
  log_ok (cl_store s) -> durable s = (pre ++ mid) ++ resti -> al_at al pre ->
  index_at (cl_index s) (pre ++ mid) -> from = version_above (last_of None pre) ->
  refold fuel h al last_seen from s = (s', r) ->
  same_rest s s' /\ grew s s' /\ index_behind s' /\ (forall e, r <> Err e) /\
  (forall al' l, r = Ok (Some (al', l)) -> exists pre' rest', durable s' = pre' ++ rest' /\
     seen h (cl_store s') `prefix_of` pre' /\ al_at al' pre').
Proof.
  revert al last_seen from s pre mid resti.
  induction fuel as [|fuel IH]; intros al last_seen from s pre mid resti Hok Hd Hal Hi Hfrom.
  { intros [= <- <-]. split_and!; [done|by apply grew_same| |done|done]. by exists (pre ++ mid), resti. }
  assert (index_behind s) as Hb by (by exists (pre ++ mid), resti).
  cbn [refold]. unfold mbind at 1. destruct (read_through h from s) as [s1 r1] eqn:Hread.
  destruct (read_through_spec _ _ _ _ _ Hok Hread) as ([Hs1 Hi1] & Hg1 & r' & -> & _ & Hpage).
  pose proof (index_behind_grew s s1 Hb Hi1 Hg1) as Hb1.
  destruct r' as [page|e|]; [|intros [= <- <-]; split_and!; done..].
  destruct (Hpage page pre (mid ++ resti)) as (rest & Hd1 & Htake);
    [done|by rewrite Hd, <-app_assoc|done|].
  assert (exists resti1, durable s1 = (pre ++ mid) ++ resti1) as [resti1 Hdi].
  { destruct Hg1 as [_ (m & Hm)]. exists (resti ++ m). by rewrite Hm, Hd, <-app_assoc. }
  destruct (last page) as [tail|] eqn:Hlast; cycle 1.
  { apply last_None in Hlast as ->. intros [= <- <-]. split_and!; [done..|].
    intros ? ? [= <- <-]. exists pre, rest. split_and!; [done|by apply Htake|done]. }
  destruct (replay_entries _ al page) as [al1|e|] eqn:Hrep;
    [|intros [= <- <-]; split_and!; done..].
  apply (replay_entries_at _ _ _ _ pre Hal) in Hrep as Hal1.
  unfold mbind at 1, mget. fold (beyond (applied_upto (cl_index s1)) page). rewrite <-Hi1 in Hi.
  rewrite (index_at_upto _ _ Hi). destruct (durable_ordered s1 (proj1 Hg1)) as [Hinc Hwf].
  destruct (beyond_page pre mid page rest resti1) as (mid' & resti' & Hmid & Hd1');
    [by rewrite <-Hd1..|by rewrite <-Hd1, <-Hdi|].
  unfold mbind at 1. destruct (apply_index _ s1) as [s2 r2] eqn:Happ.
  assert (Forall entry_wf ((pre ++ mid) ++ beyond (last_of None (pre ++ mid)) page)) as Hwm.
  { rewrite Hmid. rewrite Hd1, Hd1' in Hwf. by apply Forall_app in Hwf as [? _]. }
  destruct (apply_index_spec _ s1 s2 r2 _ Hi Hwm Happ) as (Hs2 & Hst2 & r' & -> & Hnp & Hok2 & Herr).
  pose proof (grew_same s1 s2 (proj1 Hg1) Hst2) as Hg2. pose proof (grew_trans _ _ _ Hg1 Hg2) as Hg02.
  pose proof (same_rest_trans _ _ _ Hs1 Hs2) as Hs02. rewrite Hmid in Hok2.
  destruct r' as [[]|e|]; [| |done]; cycle 1.
  { intros [= <- <-]. split_and!; [done|done| |done|done].
    eapply index_behind_grew; [done|by apply Herr|done]. }
  specialize (Hok2 eq_refl). rewrite <-Hd1, <-Hst2 in Hd1'.
  destruct (CommitVersion_advance _ 1) as [from'|e|] eqn:Hadv;
    [|intros [= <- <-]; split_and!; [done|done| |done|done]; by exists ((pre ++ page) ++ mid'), resti'..].
  intros Hrec. eapply IH in Hrec as (Hs3 & Hg3 & Hb3 & Hne & Hres); [|by rewrite Hst2; apply Hg1|
    exact Hd1'|done|done|by eapply advance_tail].
  split_and!; [by eapply same_rest_trans|by eapply grew_trans|done|done|done].
Qed.

Definition same_env s s' : Prop := cl_epoch s' = cl_epoch s /\ cl_lease s' = cl_lease s.

Lemma same_rest_env s s' : same_rest s s' -> same_env s s'.
Proof. intros (_ & _ & ? & ? & _). by split. Qed.

(** The allocator is replaced by one that has folded a prefix of the log. *)
Lemma inv_installed s s' pre rest :
  inv s -> grew s s' -> index_behind s' -> fixed s s' ->
  durable s' = pre ++ rest -> al_at (cl_allocator s') pre -> inv s'.
Proof.
  intros [_ _ _ Hr] [Hok _] Hb Er Hd Hal. split; [done| |done|by rewrite Er]. by exists pre, rest.
Qed.

Lemma try_replay_spec fuel s s' r :
  inv s -> try_replay fuel s = (s', r) ->
  inv s' /\ same_env s s' /\ (forall e, r <> Err e) /\ grew s s'.
Proof.
  intros Hinv. unfold try_replay, mbind at 1, mget. destruct (cl_pending_replay s); cbn [negb];
    [|intros [= <- <-]; split_and!; [done|by split|done|by apply grew_same; [apply Hinv|]]].
  destruct (replay fuel s) as [s1 r1] eqn:Hrep.
  destruct (replay_spec _ _ _ _ (ci_log _ Hinv) Hrep) as (Hs1 & Hg1 & Hb1 & Hres).
  specialize (Hb1 (ci_index _ Hinv)).
  pose proof (same_rest_env _ _ Hs1) as He1. destruct Hs1 as (Eal & Er & _).
  pose proof (inv_step s s1 Hinv Eal Er Hg1 Hb1) as Hinv1.
  destruct r1 as [[al l]|e|]; intros [= <- <-]; split_and!; try done.
  destruct (Hres al l eq_refl) as (pre & rest & Hd & _ & Hal & _ & _).
  by apply (inv_installed s _ pre rest).
Qed.

Lemma current_for_term_spec fuel s s' r :
  inv s -> current_for_term fuel s = (s', r) ->
  inv s' /\ same_env s s' /\ (forall e, r <> Err e) /\ grew s s'.
Proof.
  intros Hinv. assert (same_env s s) as Henv by done.
  assert (grew s s) as Hg by (by apply grew_same; [apply Hinv|]).
  unfold current_for_term. unfold mbind at 1 2, mget at 1 2. cbn beta iota.
  destruct (cl_lease s) as [lease|]; [|by intros [= <- <-]].
  destruct (cl_reopen s) as [reopen|] eqn:Hre; [|by intros [= <- <-]].
  unfold mbind at 1. cbn [tick]. unfold mbind at 1, mget at 1. cbn beta iota.
  set (s0 := mkLoop _ _ _ _ _ _ _ _ _ _ _ _ _ _).
  assert (inv s0) as Hinv0 by (destruct Hinv; by split).
  destruct (_ && _); [by intros [= <- <-]|].
  unfold mbind at 1. destruct (reopen (cl_store s0)) as [l ro] eqn:Hop. cbn [set_store mbind mret].
  unfold mbind at 1, set_store, mret at 1. cbn beta iota.
  destruct (proj1 (ci_reopen _ Hinv) reopen Hre _ _ _ (ci_log _ Hinv) Hop) as (Hok1 & Hnp & more & Hm).
  set (s1 := mkLoop _ l _ _ _ _ _ _ _ _ _ _ _ _).
  assert (grew s0 s1) as Hg1 by (split; [done|by exists more]).
  assert (inv s1) as Hinv1 by (by eapply inv_grew).
  assert (same_env s s1) as He1 by done. assert (grew s s1) as Hg1' by done. clearbody s1.
  destruct ro as [h|e|]; [|by intros [= <- <-]..].
  unfold mbind at 1. destruct (refold fuel h Allocator_new None CommitVersion_ZERO s1) as [s2 r2] eqn:Hrf.
  destruct (ci_index _ Hinv1) as (prei & resti & Hdi & Hi).
  destruct (refold_spec fuel h Allocator_new None CommitVersion_ZERO s1 s2 r2 [] prei resti
    (ci_log _ Hinv1) Hdi al_at_new Hi eq_refl Hrf) as (Hs2 & Hg2 & Hb2 & Hne & Hres).
  pose proof (same_rest_env _ _ Hs2) as He2. destruct Hs2 as (Eal & Er & _).
  assert (inv s2) as Hinv2 by (by eapply inv_step).
  pose proof (grew_trans _ _ _ Hg1' Hg2) as Hg02.
  assert (same_env s s2) as He02 by (destruct He1, He2; split; congruence).
  destruct r2 as [[[al last_seen]|]|e|]; [|by intros [= <- <-]|by specialize (Hne e)|by intros [= <- <-]].
  intros [= <- <-]. split_and!; [|done|done|done].
  destruct (Hres al last_seen eq_refl) as (pre & rest & Hd & _ & Hal).
  by apply (inv_installed s1 _ pre rest).
Qed.

Lemma may_write_spec fuel s s' r :
  inv s -> may_write fuel s = (s', r) -> inv s' /\ same_env s s' /\ grew s s'.
Proof.
  intros Hinv. unfold may_write, mbind at 1. destruct (try_replay fuel s) as [s1 r1] eqn:Ht.
  destruct (try_replay_spec _ _ _ _ Hinv Ht) as (Hinv1 & He1 & Hne1 & Hg1).
  destruct r1 as [[]|e|]; cbn [negb]; [|by intros [= <- <-]..].
  unfold mbind at 1. destruct (leads s1) as [s2 r2] eqn:Hl.
  assert (inv s2 /\ same_env s1 s2 /\ grew s s2) as (Hinv2 & He2 & Hg2).
  { injection Hl as <- _. split_and!; [|done|done]. destruct Hinv1. by split. }
  assert (same_env s s2) as He02 by (destruct He1, He2; split; congruence).
  destruct r2 as [[]|e|]; cbn [negb]; [|by intros [= <- <-]..].
  unfold mbind at 1. destruct (current_for_term fuel s2) as [s3 r3] eqn:Hc.
  destruct (current_for_term_spec _ _ _ _ Hinv2 Hc) as (Hinv3 & He3 & _ & Hg3).
  pose proof (grew_trans _ _ _ Hg2 Hg3) as Hg03.
  assert (same_env s s3) as He03 by (destruct He02, He3; split; congruence).
  destruct r3 as [[]|e|]; cbn [negb]; by intros [= <- <-].
Qed.

(** ** Serving *)

(** The outcomes before they are put in order: replays, rejections, and the
    admitted spans with the assignments they were given. *)
Definition answered (ad : Admission) (xs : list Assignment) : list (nat * SpanOutcome) :=
  (map (fun '(index, _, _, a) => (index, Assigned a)) (ad_replayed ad) ++
   map (fun '(index, _, _, reason) => (index, Rejected reason)) (ad_rejected ad)) ++
  zip (map fst (ad_admitted ad)) (map Assigned xs).

Definition in_order (outcomes : list (nat * SpanOutcome)) : list SpanOutcome :=
  map snd (sort_by_key (fun o => Z.of_nat o.1) outcomes).

(** What [serve] does: nothing when nothing is admitted, and otherwise it
    commits the admitted spans as one record. *)
Record served s s' (object : ObjectKey) (spans : list CommittedSpan) (r : CRes CommitAck) : Prop := {
  sv_inv : inv s';
  sv_err : forall e, r = Err e -> same_core s s';
  sv_ok : forall ack, r = Ok ack -> exists xs,
    ca_outcomes ack = in_order (answered (al_admit (cl_allocator s) spans) xs) /\
    length xs = length (ad_admitted (al_admit (cl_allocator s) spans)) /\
    (ad_admitted (al_admit (cl_allocator s) spans) <> [] -> exists pre now more,
       durable s' = pre ++ mkMetadataEntry (ca_version ack) (BatchCommitted object
         (map snd (ad_admitted (al_admit (cl_allocator s) spans))) now) :: more /\
       xs = assigned_at (log_end pre) (map snd (ad_admitted (al_admit (cl_allocator s) spans))) /\
       (forall lease, cl_lease s = Some lease ->
          ls_held lease (S (cl_tick s)) = true /\ ls_held lease (S (S (cl_tick s))) = true));
  sv_grew : grew s s';
  sv_lease : forall lease, cl_lease s = Some lease -> ad_admitted (al_admit (cl_allocator s) spans) <> [] ->
    (ls_held lease (S (cl_tick s)) = false -> (forall ack, r <> Ok ack) /\ cl_store s' = cl_store s) /\
    (ls_held lease (S (cl_tick s)) = true -> r = Err Fenced -> ls_held lease (S (S (cl_tick s))) = false /\
       exists now, durable s' = durable s ++ [mkMetadataEntry (al_next_version (cl_allocator s))
         (BatchCommitted object (map snd (ad_admitted (al_admit (cl_allocator s) spans))) now)]);
}.

Lemma admitted_wf al spans :
  Forall span_wf spans -> Forall span_wf (map snd (ad_admitted (al_admit al spans))).
Proof.
  intros Hsp. destruct (admit_speaks al spans) as (_ & Hadm & _).
  apply List.Forall_map, Forall_forall. intros [i span] Hin%Hadm. simpl.
  rewrite Forall_forall in Hsp. eapply Hsp, list_elem_of_lookup_2, Hin.
Qed.

(** A commit request whose fields are what their types allow. *)
Definition commit_wf (object : ObjectKey) (spans : list CommittedSpan) : Prop :=
  name_wf object /\ Forall span_wf spans.

Lemma serve_spec fuel object spans s s' r :
  inv s -> commit_wf object spans -> serve fuel object spans s = (s', r) ->
  served s s' object spans r.
Proof.
  intros Hinv [Hobj Hsp]. pose proof (admitted_wf (cl_allocator s) spans Hsp) as Hwf.
  unfold serve, mbind at 1, mget at 1. cbn beta iota.
  set (ad := al_admit (cl_allocator s) spans) in *.
  destruct (map snd (ad_admitted ad)) as [|sp sps] eqn:Hadm.
  { unfold mbind, mget, mret. intros [= <- <-]. split; [done|done| |by apply grew_same; [apply Hinv|]|].
    2: { intros lease _ Hne. apply map_eq_nil in Hadm. done. }
    intros ack [= <-].
    apply map_eq_nil in Hadm. exists []. unfold answered. simpl. fold ad. rewrite Hadm. simpl.
    split_and!; [by rewrite app_nil_r|done|done]. }
  rewrite <-Hadm in *. unfold mbind at 1 2. cbn [tick].
  set (s0 := mkLoop _ _ _ _ _ _ _ _ _ _ _ _ _ _).
  assert (inv s0) as Hinv0 by (destruct Hinv; by split).
  assert (same_core s s0 /\ cl_tick s0 = S (cl_tick s)) as [Hc0 Ht0] by done.
  assert (grew s s0) as Hg0 by (by apply grew_same; [apply Hinv|]).
  assert (cl_store s0 = cl_store s) as Est by done.
  assert (cl_allocator s0 = cl_allocator s) as Eal by done. set (now := cl_clock s (cl_tick s)).
  assert (timestamp_wf now) as Hnow by apply (ci_reopen _ Hinv).
  clearbody s0 now. unfold mbind at 1, mlift.
  destruct (stage (cl_allocator s) object (map snd (ad_admitted ad)) now) as [st|e|] eqn:Hst;
    cbn [res_map_err]; [|intros [= <- <-]; by split..].
  assert (sc_entry st = mkMetadataEntry (al_next_version (cl_allocator s)) (BatchCommitted object (map snd (ad_admitted ad)) now)) as Hent'
    by (by apply stage_Ok in Hst as (_ & -> & _)).
  pose proof (staged_for_stage _ _ _ _ _ (conj Hobj (conj Hnow Hwf)) Hst) as Hfor. rewrite <-Eal in Hfor.
  unfold mbind at 1. destruct (commit_staged fuel st s0) as [s1 r1] eqn:Hcs.
  destruct (commit_staged_spec _ _ _ _ _ Hinv0 Hfor Hcs) as [Hinv1 Hg1 Hep Herr Hok Hun Hfe].
  assert (forall lease, cl_lease s = Some lease ->
    (ls_held lease (S (cl_tick s)) = false -> r1 = Err Fenced /\ cl_store s1 = cl_store s) /\
    (ls_held lease (S (cl_tick s)) = true -> r1 = Err Fenced -> ls_held lease (S (S (cl_tick s))) = false /\
       durable s1 = durable s ++ [sc_entry st])) as Hlease.
  { intros lease Hl. rewrite <-Ht0, <-Est. split; [apply Hun|apply Hfe]; destruct Hc0 as [(_ & _ & _ & El & _) _]; congruence. }
  clear Hun Hfe.
  pose proof (grew_trans _ _ _ Hg0 Hg1) as Hg01. destruct r1 as [[v xs]|e|]; cycle 1.
  { intros [= <- <-]. split; [done| |done|done|].
    - intros e' [= <-]. destruct (Herr e eq_refl) as [[Hc _]|[Hc _]]; by eapply same_core_trans.
    - intros lease Hl _. destruct (Hlease lease Hl) as [Hun Hfe]. split; [intros Hh; split; [done|by apply Hun]|].
      intros Hh [= ->]. destruct (Hfe Hh eq_refl) as [Ha Hd]. split; [done|]. exists now. by rewrite Hd, Hent'. }
  { intros [= <- <-]. split; try done. intros lease Hl _. destruct (Hlease lease Hl) as [Hun _]. split; [|done].
    intros Hh. split; [done|by apply Hun]. }
  unfold mbind, mget, mret. intros [= <- <-]. split; [done|done| |done|].
  2: { intros lease Hl _. destruct (Hlease lease Hl) as [Hun _]. split; [|done]. intros Hh. by destruct (Hun Hh). }
  intros ack [= <-]. simpl.
  destruct (Hok v xs eq_refl) as (-> & -> & _ & _ & Hleases & pre & more & Hat & Hd).
  apply stage_Ok in Hst as (_ & Hent & Has & _). rewrite Has in *. exists (assigned_at (al_end (cl_allocator s)) (map snd (ad_admitted ad))).
  split_and!; [done|by rewrite assigned_at_length, length_map|]. intros _.
  exists pre, now, more. rewrite Eal in Hat. split_and!.
  - rewrite Hd, Hent. done.
  - apply assigned_at_ext. apply Hat.
  - rewrite <-Ht0. destruct Hc0 as [(_ & _ & _ & <- & _) _]. done.
Qed.

Definition request_wf (request : Request) : Prop :=
  match request with
  | Commit object spans => commit_wf object spans
  | Trim topic partition start => record_wf (Trimmed topic partition start)
  | DropCache => True
  | Retention topic retention_ms => record_wf (TopicRetentionChanged topic retention_ms)
  end.

Lemma serve_plain_inv fuel s s' (r : CRes CommitVersion) (staging : Allocator -> Res StagedCommit) :
  (forall al st, staging al = Ok st -> staged_for al st) -> inv s ->
  (let! al := mget cl_allocator in
   let! staged := mlift Unassignable (staging al) in
   let! (version, _) := commit_staged fuel staged in mret version) s = (s', r) -> inv s'.
Proof.
  intros Hst Hinv. unfold mbind at 1, mget. cbn beta iota. unfold mbind at 1, mlift.
  destruct (staging (cl_allocator s)) as [st|e|] eqn:Hs; cbn [res_map_err];
    [|by intros [= <- <-]..].
  unfold mbind at 1. destruct (commit_staged fuel st s) as [s1 r1] eqn:Hcs.
  destruct (commit_staged_spec _ _ _ _ _ Hinv (Hst _ _ Hs) Hcs) as [Hinv1 _ _ _ _].
  destruct r1 as [[v xs]|e|]; by intros [= <- <-].
Qed.

Lemma guarded_inv {A} fuel s s' (r : CRes A) (m : M H L A) :
  (forall s1 s2 r', inv s1 -> m s1 = (s2, r') -> inv s2) ->
  inv s -> (may_write fuel ;;; m) s = (s', r) -> inv s'.
Proof.
  intros Hm Hinv. unfold mbind. destruct (may_write fuel s) as [s1 r1] eqn:Hw.
  destruct (may_write_spec _ _ _ _ Hinv Hw) as [Hinv1 _].
  destruct r1 as [[]|e|]; [|by intros [= <- <-]..]. by apply Hm.
Qed.

Lemma handle_inv fuel request s s' reply :
  inv s -> request_wf request -> handle fuel request s = (s', reply) -> inv s'.
Proof.
  intros Hinv Hwf. destruct request as [object spans| |t p start|t rms]; cbn [handle].
  - destruct ((may_write fuel ;;; serve fuel object spans) s) as [s1 r1] eqn:Hm. intros [= <- _].
    revert Hm. apply guarded_inv; [|done]. intros ? ? ? ? Hs.
    by destruct (serve_spec _ _ _ _ _ _ H0 Hwf Hs).
  - intros [= <- _]. destruct Hinv as [Hok Hal _ Hr]. split; try done.
    exists [], (durable s). split; [done|]. apply index_at_clear.
  - destruct ((may_write fuel ;;; _) s) as [s1 r1] eqn:Hm. intros [= <- _].
    revert Hm. apply guarded_inv; [|done]. intros ? ? ? ?.
    apply (serve_plain_inv _ _ _ _ (fun al => stage_trim al t p start)); [|done].
    intros al st. by apply staged_for_trim.
  - destruct ((may_write fuel ;;; _) s) as [s1 r1] eqn:Hm. intros [= <- _].
    revert Hm. apply guarded_inv; [|done]. intros ? ? ? ?.
    apply (serve_plain_inv _ _ _ _ (fun al => stage_retention al t rms)); [|done].
    intros al st. by apply staged_for_retention.
Qed.

(** The loop's invariant holds over any sequence of requests: whatever the
    log, the lease and the clock answer and whoever else writes, the allocator
    and the index are each the fold of a prefix of the durable log. *)
Theorem run_keeps_invariant fuel requests s s' replies :
  inv s -> Forall request_wf requests -> run fuel requests s = (s', replies) -> inv s'.
Proof.
  intros Hinv Hwf. unfold run.
  assert (forall acc, foldl (fun '(s, replies) request =>
    let '(s, reply) := handle fuel request s in (s, replies ++ [reply])) (s, acc) requests =
    (s', replies) -> inv s') as Hgen; [|apply Hgen].
  revert s Hinv. induction Hwf as [|request requests Hq Hwf IH]; intros s Hinv acc; cbn [foldl].
  - by intros [= <- _].
  - destruct (handle fuel request s) as [s1 reply] eqn:Hh. apply IH. by eapply handle_inv.
Qed.

Lemma answered_indices al spans xs :
  length xs = length (ad_admitted (al_admit al spans)) ->
  map fst (answered (al_admit al spans) xs) ≡ₚ seq 0 (length spans).
Proof.
  intros Hlen. destruct (admit_speaks al spans) as [Hperm _]. rewrite <-Hperm.
  unfold answered, indices. rewrite !map_app, !map_map.
  replace (map fst (zip (map fst (ad_admitted (al_admit al spans))) (map Assigned xs)))
    with (map fst (ad_admitted (al_admit al spans))).
  - rewrite (Permutation_app_comm _ (map fst (ad_admitted (al_admit al spans)))).
    apply Permutation_app_head.
    match goal with |- ?a ≡ₚ ?b => replace a with b; [done|] end.
    f_equal; apply map_ext; by intros [[[] ?] ?].
  - symmetry. apply fst_zip. rewrite !length_map. lia.
Qed.

Lemma serve_durable fuel object spans s s' ack :
  inv s -> commit_wf object spans -> serve fuel object spans s = (s', Ok ack) ->
  ad_admitted (al_admit (cl_allocator s) spans) <> [] ->
  exists pre now more,
    durable s' = pre ++ mkMetadataEntry (ca_version ack) (BatchCommitted object
      (map snd (ad_admitted (al_admit (cl_allocator s) spans))) now) :: more /\
    forall j i span, ad_admitted (al_admit (cl_allocator s) spans) !! j = Some (i, span) ->
      spans !! i = Some span /\
      ca_outcomes ack !! i = Some (Assigned (mkAssignment (cs_topic span) (cs_partition span)
        (log_end pre (span_key span) +
         sumZ (map (span_count (cs_topic span) (cs_partition span))
           (take j (map snd (ad_admitted (al_admit (cl_allocator s) spans))))))
        (cs_record_count span))).
Proof.
  intros Hinv Hsp Hs Hne. destruct (serve_spec _ _ _ _ _ _ Hinv Hsp Hs) as [_ _ Hok _ _].
  destruct (Hok ack eq_refl) as (xs & Hout & Hlen & Hdur).
  destruct (Hdur Hne) as (pre & now & more & Hd & -> & _). exists pre, now, more.
  split; [done|]. intros j i span Hj. destruct (admit_speaks (cl_allocator s) spans) as (_ & Hadm & _).
  split; [apply Hadm; by eapply list_elem_of_lookup_2|].
  rewrite Hout. apply (sort_by_index_lookup _ (length spans)); [by apply answered_indices|].
  apply elem_of_app. right. apply (list_elem_of_lookup_2 _ j). apply lookup_zip_with_Some.
  change (map fst ?l) with (fst <$> l). rewrite list_lookup_fmap, Hj.
  change (map Assigned ?l) with (Assigned <$> l). rewrite list_lookup_fmap, (assigned_at_lookup _ _ j span).
  - simpl. eauto.
  - change (map snd ?l) with (snd <$> l). by rewrite list_lookup_fmap, Hj.
Qed.

(** C7. An acknowledged position is durable and final: when any span of a
    request was admitted, the answer's version is that of a record in the
    durable log holding exactly the admitted spans, and each admitted span is
    answered with the offset that log gives it, the counts committed to its
    partition by everything before that record, and then by the earlier spans
    of it. *)
Theorem ack_is_durable fuel object spans s s' ack :
  inv s -> commit_wf object spans -> serve fuel object spans s = (s', Ok ack) ->
  ad_admitted (al_admit (cl_allocator s) spans) <> [] ->
  exists pre now more,
    durable s' = pre ++ mkMetadataEntry (ca_version ack) (BatchCommitted object
      (map snd (ad_admitted (al_admit (cl_allocator s) spans))) now) :: more /\
    forall j i span, ad_admitted (al_admit (cl_allocator s) spans) !! j = Some (i, span) ->
      spans !! i = Some span /\
      ca_outcomes ack !! i = Some (Assigned (mkAssignment (cs_topic span) (cs_partition span)
        (log_end pre (span_key span) +
         sumZ (map (span_count (cs_topic span) (cs_partition span))
           (take j (map snd (ad_admitted (al_admit (cl_allocator s) spans))))))
        (cs_record_count span))).
Proof. apply serve_durable. Qed.

(** The durable log has a span of an object under a version, at an offset. *)
Definition span_durable s (version : CommitVersion) (object : ObjectKey) (span : CommittedSpan) (a : Assignment) : Prop :=
  span_at (durable s) version object span a.

Lemma span_durable_grew s s' version object span a :
  grew s s' -> span_durable s version object span a -> span_durable s' version object span a.
Proof. intros [_ (rest & Hm)]. unfold span_durable. rewrite Hm. apply span_at_app. Qed.

(** What an assignment promises of a span: the log has that span of that object
    at the offset; or, when a producer numbers it, the span that producer sent
    under the same epoch and sequence to the same partition with as many records. *)
Definition same_batch (first span : CommittedSpan) : Prop :=
  cs_topic first = cs_topic span /\ cs_partition first = cs_partition span /\
  cs_producer first = cs_producer span /\ cs_record_count first = cs_record_count span.

Definition span_answered s (object : ObjectKey) (span : CommittedSpan) (a : Assignment) : Prop :=
  exists version object' first,
    span_durable s version object' first a /\ same_batch first span /\
    ((object', first) = (object, span) \/ cs_producer span <> None).

Lemma span_answered_grew s s' object span a : grew s s' -> span_answered s object span a -> span_answered s' object span a.
Proof. intros Hg (v & o & f & Hd & Hs). exists v, o, f. split; [by eapply span_durable_grew|done]. Qed.

(** A replayed span is answered from its producer's line, which the log has. *)
Lemma replay_answered s spans i t p x object :
  inv s -> (i, t, p, x) ∈ ad_replayed (al_admit (cl_allocator s) spans) ->
  exists span, spans !! i = Some span /\ span_answered s object span x.
Proof.
  intros Hinv Hin. destruct (admit_speaks (cl_allocator s) spans) as (_ & _ & Hrep & _).
  apply Hrep in Hin as (span & [id ep sq] & state & Hi & -> & -> & Hp & Hst & He & Hs & Hn & ->). exists span. split; [done|].
  destruct (ci_allocator s Hinv) as (pre & rest & Hd & _ & _ & Hlines).
  apply Hlines in Hst as (v & o & first & [id' ep' sq'] & Hpf & [= -> Ht Hpt] & He' & Hs' & Hat). simpl in *.
  exists v, o, first. split; [|split; [|right; by rewrite Hp]].
  - unfold span_durable. rewrite Hd, Ht, Hpt. by apply span_at_app.
  - split_and!; [done|done|rewrite Hpf, Hp; congruence|]. destruct Hat as (? & ? & ? & ? & ? & _ & _ & Heq). injection Heq as _ Hc. congruence.
Qed.

Lemma commit_durable fuel object spans s s' r :
  inv s -> commit_wf object spans -> (may_write fuel ;;; serve fuel object spans) s = (s', r) ->
  inv s' /\ grew s s' /\
  forall ack i span a, r = Ok ack -> spans !! i = Some span ->
    ca_outcomes ack !! i = Some (Assigned a) -> span_answered s' object span a.
Proof.
  intros Hinv Hwf. unfold mbind. destruct (may_write fuel s) as [s1 r1] eqn:Hw.
  destruct (may_write_spec _ _ _ _ Hinv Hw) as (Hinv1 & _ & Hg1).
  destruct r1 as [[]|e|]; [|by intros [= <- <-]..]. intros Hs.
  destruct (serve_spec _ _ _ _ _ _ Hinv1 Hwf Hs) as [Hinv2 _ Hok Hg2 _].
  split_and!; [done|exact (grew_trans _ _ _ Hg1 Hg2)|]. intros ack i span a -> Hi Ha.
  destruct (Hok ack eq_refl) as (xs & Hout & Hlen & _).
  pose proof (answered_indices (cl_allocator s1) spans xs Hlen) as Hidx. pose proof Ha as Ha'.
  rewrite Hout in Ha'. apply (sort_by_index_lookup _ _ _ _ Hidx) in Ha'.
  apply elem_of_app in Ha' as [[Ha'|Ha']%elem_of_app|Ha'].
  - apply list_elem_of_fmap in Ha' as ([[[i' t] p] x] & [= <- <-] & Hin).
    apply (replay_answered s1 spans i t p a object Hinv1) in Hin as (sp & Hsp & Hans). simplify_eq.
    by eapply span_answered_grew.
  - by apply list_elem_of_fmap in Ha' as ([[[i' t] p] x] & [= <- <-] & _).
  - apply list_elem_of_lookup in Ha' as (j & Hj).
    apply lookup_zip_with_Some in Hj as (i' & o & [= <- <-] & Hji & _).
    apply list_lookup_fmap_Some in Hji as ([i' sp] & -> & Hj). simpl in *.
    destruct (serve_durable _ _ _ _ _ _ Hinv1 Hwf Hs) as (pre & now & more & Hd & Hall); [by intros He; rewrite He in Hj|].
    destruct (Hall j i' sp Hj) as [Hsp Hout']. simplify_eq. exists (ca_version ack), object, span.
    split; [|by split; [|left]]. eexists pre, now, more, _, j. split; [exact Hd|]. split; [|congruence].
    change (map snd ?l) with (snd <$> l). by rewrite list_lookup_fmap, Hj.
Qed.

(** Every span is answered, in order: the outcomes are as many as the
    spans, and an assignment answered at an index is for that span's topic,
    partition and count. *)
Theorem ack_answers_every_span fuel object spans s s' ack :
  inv s -> commit_wf object spans -> serve fuel object spans s = (s', Ok ack) ->
  length (ca_outcomes ack) = length spans /\
  forall i span a, spans !! i = Some span -> ca_outcomes ack !! i = Some (Assigned a) ->
    as_topic a = cs_topic span /\ as_partition a = cs_partition span /\
    as_record_count a = cs_record_count span.
Proof.
  intros Hinv Hsp Hs. destruct (serve_spec _ _ _ _ _ _ Hinv Hsp Hs) as [_ _ Hok _ _].
  destruct (Hok ack eq_refl) as (xs & Hout & Hlen & Hdur). rewrite Hout.
  pose proof (answered_indices (cl_allocator s) spans xs Hlen) as Hidx. split.
  - unfold in_order. rewrite length_map, <-(length_map fst), (sort_by_index _ _ Hidx). apply length_seq.
  - intros i span a Hi Ha. apply (sort_by_index_lookup _ _ _ _ Hidx) in Ha.
    destruct (admit_speaks (cl_allocator s) spans) as (_ & Hadm & Hrep & _).
    apply elem_of_app in Ha as [[Ha|Ha]%elem_of_app|Ha].
    + apply list_elem_of_fmap in Ha as ([[[i' t] p] x] & [= <- <-] & Hin).
      apply Hrep in Hin as (sp & id & state & Hsp' & -> & -> & _ & _ & _ & _ & Hn & ->). by simplify_eq.
    + by apply list_elem_of_fmap in Ha as ([[[i' t] p] x] & [= <- <-] & _).
    + apply list_elem_of_lookup in Ha as (j & Hj).
      apply lookup_zip_with_Some in Hj as (i' & o & [= <- <-] & Hji & Hjo).
      apply list_lookup_fmap_Some in Hji as ([i' sp] & -> & Hji). simpl in *.
      apply list_lookup_fmap_Some in Hjo as (x & [= <-] & Hjx).
      assert (spans !! i' = Some sp) as Hsp' by (apply Hadm; by eapply list_elem_of_lookup_2).
      destruct Hdur as (pre & now & more & _ & -> & _); [by intros Hnil; rewrite Hnil in Hji|].
      rewrite (assigned_at_lookup _ _ j sp) in Hjx; [by simplify_eq|].
      change (map snd ?l) with (snd <$> l). by rewrite list_lookup_fmap, Hji.
Qed.

(** C37. A refused commit takes no position: whenever serving a commit ends in
    an error, unassignable, fenced or not journaled, the allocator, the index,
    the last committed version and what subscribers were told are unchanged. *)
Theorem refused_commit_rolls_back fuel object spans s s' e :
  inv s -> commit_wf object spans -> serve fuel object spans s = (s', Err e) -> same_core s s'.
Proof.
  intros Hinv Hsp Hs. destruct (serve_spec _ _ _ _ _ _ Hinv Hsp Hs) as [_ Herr _ _ _]. eauto.
Qed.

(** C36. No acknowledgement without the lease, which is checked on both sides
    of the append.  When a fenced loop serves a commit that has something to
    admit: it acknowledges only if the lease was held at both checks; if it was
    not held at the first, nothing is acknowledged and the log is as it was; and
    if it was held then and the commit is still answered as fenced, the lease was
    lost at the second check, made when the record of the admitted spans was
    already appended. *)
Theorem ack_needs_the_lease fuel object spans s s' r lease :
  inv s -> commit_wf object spans -> serve fuel object spans s = (s', r) ->
  ad_admitted (al_admit (cl_allocator s) spans) <> [] -> cl_lease s = Some lease ->
  let before := ls_held lease (S (cl_tick s)) in let after := ls_held lease (S (S (cl_tick s))) in
  (forall ack, r = Ok ack -> before = true /\ after = true) /\
  (before = false -> (forall ack, r <> Ok ack) /\ cl_store s' = cl_store s) /\
  (before = true -> r = Err Fenced -> after = false /\
     exists now, durable s' = durable s ++ [mkMetadataEntry (al_next_version (cl_allocator s))
       (BatchCommitted object (map snd (ad_admitted (al_admit (cl_allocator s) spans))) now)]).
Proof.
  intros Hinv Hsp Hs Hne Hl. cbv zeta. destruct (serve_spec _ _ _ _ _ _ Hinv Hsp Hs) as [_ _ Hok _ Hlease].
  split; [|by apply Hlease]. intros ack ->. destruct (Hok ack eq_refl) as (xs & _ & _ & Hdur).
  destruct (Hdur Hne) as (_ & _ & _ & _ & _ & Hheld). by apply Hheld.
Qed.

(** A replay folds everything the loop's handle of the log holds: when it
    returns there is a prefix of the durable log, reaching at least as far as
    the handle has seen, such that the allocator's ends are the sums over it,
    its next version follows its last one, and the index is the fold of the
    same entries. *)
Theorem replay_folds_everything fuel s s' al last_seen :
  inv s -> replay fuel s = (s', Ok (al, last_seen)) ->
  exists pre rest, durable s' = pre ++ rest /\ seen (cl_log s') (cl_store s') `prefix_of` pre /\
    (forall k, al_end al k = log_end pre k) /\
    al_next_version al = version_above (last_of None pre) /\
    last_seen = last_of None pre /\ applied_upto (cl_index s') = last_seen /\
    index_at (cl_index s') pre.
Proof.
  intros Hinv Hr.
  destruct (replay_spec _ _ _ _ (ci_log _ Hinv) Hr) as (_ & _ & _ & Hres).
  destruct (Hres al last_seen eq_refl) as (pre & rest & Hd & Hs & (Hend & Hv & _) & Hi & ->).
  exists pre, rest. split_and!; try done. by apply index_at_upto.
Qed.

(** A loop that opened has the invariant, whatever the index held before. *)
Lemma open_inv fuel h store index epoch clock s :
  log_ok store -> (forall n, timestamp_wf (clock n)) ->
  open fuel h store index epoch clock = Ok s -> inv s.
Proof.
  intros Hok Hclock. unfold open. destruct (replay fuel _) as [s1 r1] eqn:Hrep.
  destruct (replay_spec fuel (assemble h store index epoch clock Allocator_new None false) _ _ Hok Hrep)
    as (_ & Hg & _ & Hres).
  destruct r1 as [[al l]|e|]; [|done..]. intros [= <-].
  destruct (Hres al l eq_refl) as (pre & rest & Hd & _ & Hal & Hi & _).
  split; simpl; [apply Hg|..|by split]; by exists pre, rest.
Qed.
End invariant.

(** ** Termination on a quiet log *)

Lemma log_end_spec es a k :
  Forall entry_wf es -> spec_fold abs_empty es = Ok a -> abs_end a k = log_end es k.
Proof.
  intros Hwf Ha. destruct k as [t p].
  destruct (spec_fold_moves _ _ _ t p abs_wf_empty Hwf Ha) as [He _]. rewrite He.
  unfold abs_end, abs_slot; simpl. by rewrite lookup_empty.
Qed.

Lemma al_at_aligned al es a :
  Forall entry_wf es -> al_at al es -> spec_fold abs_empty es = Ok a -> aligned al a.
Proof.
  intros Hwf (Hend & Hv & _) Ha. split.
  - intros k. by rewrite Hend, (log_end_spec es).
  - by rewrite Hv, (spec_fold_upto _ _ _ Ha).
Qed.

Lemma replay_entries_page tag al es al' :
  replay_page al es = (al', Ok tt) -> replay_entries tag al es = Ok al'.
Proof.
  revert al. induction es as [|e es IH]; intros al; simpl; [by intros [= <-]|].
  destruct (al_replay al e) as [al1 [[]|err|]]; [apply IH|done..].
Qed.

(** A log the index's specification accepts, with room for one more version. *)
Definition foldable (es : list MetadataEntry) : Prop :=
  Forall entry_wf es /\ Forall version_room es /\ is_ok (spec_fold abs_empty es) = true.

(** The fold of a page that follows a prefix of such a log. *)
Lemma foldable_split pre page rest :
  foldable (pre ++ page ++ rest) ->
  exists a a2, spec_fold abs_empty pre = Ok a /\ spec_fold a page = Ok a2 /\ abs_wf a /\
    Forall entry_wf pre /\ Forall entry_wf page /\ Forall version_room page.
Proof.
  intros (Hwf & Hroom & Hok). unfold spec_fold in Hok. rewrite res_foldl_app in Hok.
  destruct (res_foldl spec_entry abs_empty pre) as [a|?|] eqn:Ha; [|done..]. simpl in Hok.
  rewrite res_foldl_app in Hok.
  destruct (res_foldl spec_entry a page) as [a2|?|] eqn:Ha2; [|done..].
  pose proof Hwf as [Hwp [Hwpg _]%Forall_app]%Forall_app.
  pose proof Hroom as [_ [Hrpg _]%Forall_app]%Forall_app.
  exists a, a2. split_and!; try done. by apply (spec_fold_wf abs_empty pre); [apply abs_wf_empty|..].
Qed.

Lemma index_page pre page rest i :
  foldable (pre ++ page ++ rest) -> index_at i pre -> quota i = None ->
  exists i', IndexState_apply i page = Ok i' /\ quota i' = None.
Proof.
  intros (a & a2 & Ha & Ha2 & _ & Hwp & Hwpg & _)%foldable_split Hi Hq.
  pose proof (index_at_wf i pre Hi Hwp) as Hwfi. pose proof (apply_agrees i page Hwfi Hq Hwpg) as Hag.
  destruct Hi as (a' & Ha' & Heq). rewrite Ha in Ha'. injection Ha' as <-.
  pose proof (spec_fold_proper _ _ Heq page page eq_refl) as Hp. rewrite Ha2 in Hp. unfold agrees in Hag.
  destruct (spec_fold (abs i) page) as [a3|?|]; [|done..].
  destruct (IndexState_apply i page) as [i'|?|] eqn:Happ; [|done..].
  exists i'. split; [done|].
  by destruct (apply_Ok i page i' Hwfi Hwpg Happ) as (_ & _ & _ & ->).
Qed.

Lemma foldable_page pre page rest al :
  foldable (pre ++ page ++ rest) -> al_at al pre ->
  exists al', replay_entries unreplayable al page = Ok al' /\
    forall i, index_at i pre -> quota i = None ->
      exists i', IndexState_apply i page = Ok i' /\ quota i' = None.
Proof.
  intros Hf Hal. pose proof Hf as (a & a2 & Ha & Ha2 & Hwfa & Hwp & Hwpg & Hrpg)%foldable_split.
  destruct (replay_page_aligned al a page a2 Hwfa Hwpg Hrpg) as (al' & Hrep & _);
    [by apply (al_at_aligned al pre a)|done|].
  exists al'. split; [by apply replay_entries_page|]. intros i. by apply (index_page pre page rest).
Qed.

Lemma fold_pages_returns fuel page al last_seen (s : CoordinatorLoop unit FakeMetadataLog) pre rest :
  foldable (fl_entries (cl_store s)) -> increasing None (fl_entries (cl_store s)) ->
  fl_entries (cl_store s) = pre ++ page ++ rest ->
  page = take REBUILD_PAGE_ENTRIES (page ++ rest) ->
  al_at al pre -> index_at (cl_index s) pre -> quota (cl_index s) = None ->
  (length (page ++ rest) < fuel)%nat ->
  exists s' al' l, fold_pages fuel page al last_seen s = (s', Ok (al', l)) /\ cl_store s' = cl_store s.
Proof.
  revert page al last_seen s pre rest.
  induction fuel as [|fuel IH]; intros page al last_seen s pre rest Hf Hinc Hd Htake Hal Hi Hq Hlen; [lia|].
  cbn [fold_pages]. destruct (last page) as [tail|] eqn:Hlast; [|by repeat eexists].
  pose proof Hf as (Hwf & Hroom & _). rewrite Hd in Hf, Hroom, Hwf.
  destruct (foldable_page pre page rest al Hf Hal) as (al1 & Hrep & Happ).
  destruct (Happ _ Hi Hq) as (i1 & Hi1 & Hq1). unfold mbind at 1. rewrite Hrep.
  unfold mbind at 1, apply_index at 1. rewrite Hi1. unfold mbind at 1, set_index, mret at 1.
  cbn beta iota. unfold mbind at 1, mlift at 1. cbn [res_map_err].
  assert (exists page', page = page' ++ [tail]) as [page' Hpt] by (by apply last_Some).
  assert (CommitVersion_advance (me_version tail) 1 = Ok (me_version tail + 1)) as Hadv.
  { apply CommitVersion_advance_Ok. split; [|done].
    apply Forall_app in Hroom as [_ [Hr _]%Forall_app]. rewrite Hpt in Hr.
    apply Forall_app in Hr as [_ Hr]. rewrite Forall_singleton in Hr. unfold version_room in Hr. lia. }
  unfold mbind at 1, mlift at 1. rewrite Hadv. cbn [res_map_err].
  unfold mbind at 1, read_log, mbind at 1, mget, read_through. cbn [log_read_from FakeMetadataLog_log].
  unfold fake_read_from. cbn beta iota zeta. unfold mbind at 1, set_store, mret. cbn beta iota.
  unfold mbind at 1, mlift. cbn [res_map_err].
  set (s2 := mkLoop _ _ _ _ _ _ _ _ _ _ _ _ _ _).
  assert (List.filter (fun e => me_version tail + 1 <=? me_version e) (fl_entries (cl_store s)) = rest)
    as Hrest.
  { pose proof (page_tail page tail pre Hlast) as Hpl. rewrite Hd, app_assoc in *.
    pose proof (read_rest (pre ++ page) rest Hinc Hwf) as Hrr. by rewrite Hpl in Hrr. }
  change (cl_store s2) with (cl_store s). rewrite Hrest.
  edestruct (IH (take REBUILD_PAGE_ENTRIES rest) al1 (Some (me_version tail)) s2 (pre ++ page)
    (drop REBUILD_PAGE_ENTRIES rest)) as (s3 & al3 & l3 & Hfold & Hst); simpl; cycle -1.
  { by exists s3, al3, l3. }
  - by rewrite Hd.
  - done.
  - by rewrite take_drop, Hd, app_assoc.
  - by rewrite take_drop.
  - by eapply replay_entries_at.
  - eapply index_at_apply; [done| |done]. rewrite app_assoc in Hwf. by apply Forall_app in Hwf as [? _].
  - done.
  - rewrite take_drop. rewrite Hpt, !length_app in Hlen. simpl in Hlen. lia.
Qed.

(** C38. Opening terminates and takes everything: on a quiet log that folds,
    with one unit of fuel per durable entry and one more, [open] returns a loop
    whose allocator and index are the fold of the whole log. *)
Theorem open_terminates fuel (store : FakeMetadataLog) index epoch clock :
  fake_ok store -> foldable (fl_entries store) -> quota index = None ->
  (length (fl_entries store) < fuel)%nat ->
  exists s, open fuel tt store index epoch clock = Ok s /\ cl_store s = store /\
    al_at (cl_allocator s) (fl_entries store) /\ index_at (cl_index s) (fl_entries store).
Proof.
  intros [Hinc Hwf] Hf Hq Hlen. unfold open. destruct (replay fuel _) as [s1 r1] eqn:Hrep.
  pose proof Hrep as Hrep'. unfold replay in Hrep'.
  unfold mbind at 1, read_log, mbind at 1, mget, read_through in Hrep'.
  cbn [log_read_from FakeMetadataLog_log] in Hrep'.
  unfold fake_read_from in Hrep'. cbn beta iota zeta in Hrep'.
  unfold mbind at 1, set_store, mret at 1 in Hrep'. cbn beta iota in Hrep'.
  unfold mbind at 1, mlift at 1 in Hrep'. cbn [res_map_err] in Hrep'.
  unfold mbind at 1, clear_index at 1, set_index at 1 in Hrep'.
  set (s2 := mkLoop _ _ _ _ _ _ _ _ _ _ _ _ _ _) in Hrep'.
  pose proof (read_rest [] (fl_entries store) Hinc Hwf) as Hall. simpl in Hall.
  destruct (fold_pages_returns fuel (take REBUILD_PAGE_ENTRIES (fl_entries store)) Allocator_new None s2
    [] (drop REBUILD_PAGE_ENTRIES (fl_entries store))) as (s3 & al & l & Hfold & Hst); simpl;
    [done|done|by rewrite take_drop|by rewrite take_drop|apply al_at_new|apply index_at_clear|done|
     by rewrite take_drop|].
  change CommitVersion_ZERO with 0 in Hrep'.
  change (cl_store (assemble tt store index epoch clock Allocator_new None false)) with store in Hrep'.
  rewrite Hall, Hfold in Hrep'. injection Hrep' as <- <-.
  assert (log_ok (cl_store (assemble tt store index epoch clock Allocator_new None false))) as Hlok
    by (by split).
  destruct (replay_spec _ _ _ _ Hlok Hrep) as (_ & _ & _ & Hres).
  destruct (Hres al l eq_refl) as (pre & rest & Hd & Hsn & Hal & Hi & _). simpl in Hd, Hsn, Hal, Hi.
  rewrite Hst in *. pose proof (prefix_antisym _ _ Hsn (ex_intro _ rest Hd)) as <-.
  eexists. split; [done|]. by split_and!.
Qed.

Definition demo_clock (_ : nat) : Timestamp := 1700000000000.

Lemma demo_clock_wf n : timestamp_wf (demo_clock n).
Proof. vm_compute. by split. Qed.

Lemma open_terminates_witness :
  exists s, open 135 tt (mkFakeLog demo_commits) IndexState_new 1 demo_clock = Ok s /\
    cl_store s = mkFakeLog demo_commits /\
    al_at (cl_allocator s) demo_commits /\ index_at (cl_index s) demo_commits.
Proof.
  apply (open_terminates 135 (mkFakeLog demo_commits)).
  - split; [vm_compute; repeat split|apply demo_commits_wf].
  - split; [apply demo_commits_wf|]. split; [vm_decide|vm_compute; reflexivity].
  - reflexivity.
  - vm_decide.
Defined.

(** ** A concrete loop *)

Definition demo_lease : Lease := mkLease (fun _ => true) (fun _ => Some 1).

Definition demo_loop : CoordinatorLoop unit FakeMetadataLog :=
  fenced_by (open_deferred tt FakeMetadataLog_new IndexState_new 1 demo_clock) demo_lease.

(** A loop whose lease lapses after the second consultation. *)
Definition lapsing_lease : Lease := mkLease (fun n => (n <? 2)%nat) (fun _ => Some 1).

Definition lapsing_loop : CoordinatorLoop unit FakeMetadataLog :=
  fenced_by (open_deferred tt FakeMetadataLog_new IndexState_new 1 demo_clock) lapsing_lease.

Lemma open_deferred_inv lease :
  inv (fenced_by (open_deferred tt FakeMetadataLog_new IndexState_new 1 demo_clock) lease).
Proof.
  split; simpl; [by split|exists [], []..|by split; [|apply demo_clock_wf]]; (split; [done|]).
  - apply al_at_new.
  - apply (index_at_clear IndexState_new).
Qed.

Definition demo_after : CoordinatorLoop unit FakeMetadataLog := (serve 10 "o" demo_spans demo_loop).1.

Definition demo_ack : CommitAck :=
  match (serve 10 "o" demo_spans demo_loop).2 with Ok ack => ack | _ => mkCommitAck 0 0 [] [] end.

Lemma demo_serve : serve 10 "o" demo_spans demo_loop = (demo_after, Ok demo_ack).
Proof. vm_compute. reflexivity. Qed.

Lemma run_keeps_invariant_witness :
  inv (run 10 [Commit "o" demo_spans; Trim "t" 0 2; DropCache; Retention "u" (Some 5)] demo_loop).1.
Proof.
  apply (run_keeps_invariant 10 [Commit "o" demo_spans; Trim "t" 0 2; DropCache; Retention "u" (Some 5)]
    demo_loop _ (run 10 [Commit "o" demo_spans; Trim "t" 0 2; DropCache; Retention "u" (Some 5)]
    demo_loop).2).
  - apply open_deferred_inv.
  - repeat constructor; vm_decide.
  - by destruct (run _ _ _).
Defined.

Lemma ack_is_durable_witness :
  exists pre now more,
    contents (cl_store demo_after) = pre ++ mkMetadataEntry (ca_version demo_ack)
      (BatchCommitted "o" (map snd (ad_admitted (al_admit (cl_allocator demo_loop) demo_spans))) now)
      :: more /\
    forall j i span, ad_admitted (al_admit (cl_allocator demo_loop) demo_spans) !! j = Some (i, span) ->
      demo_spans !! i = Some span /\
      ca_outcomes demo_ack !! i = Some (Assigned (mkAssignment (cs_topic span) (cs_partition span)
        (log_end pre (span_key span) +
         sumZ (map (span_count (cs_topic span) (cs_partition span))
           (take j (map snd (ad_admitted (al_admit (cl_allocator demo_loop) demo_spans))))))
        (cs_record_count span))).
Proof.
  apply (ack_is_durable 10 "o" demo_spans demo_loop demo_after demo_ack).
  - apply open_deferred_inv.
  - vm_decide.
  - apply demo_serve.
  - vm_compute. discriminate.
Defined.

Lemma ack_answers_every_span_witness : length (ca_outcomes demo_ack) = 3%nat.
Proof.
  apply (ack_answers_every_span 10 "o" demo_spans demo_loop demo_after demo_ack).
  - apply open_deferred_inv.
  - vm_decide.
  - apply demo_serve.
Defined.

Lemma refused_commit_rolls_back_witness :
  (serve 10 "o" demo_spans lapsing_loop).2 = Err Fenced /\
  same_core lapsing_loop (serve 10 "o" demo_spans lapsing_loop).1.
Proof.
  split; [vm_compute; reflexivity|].
  apply (refused_commit_rolls_back 10 "o" demo_spans lapsing_loop _ Fenced).
  - apply open_deferred_inv.
  - vm_decide.
  - vm_compute. reflexivity.
Defined.

Definition lapsing_after : CoordinatorLoop unit FakeMetadataLog := (serve 10 "o" demo_spans lapsing_loop).1.

Lemma lapsing_serve : serve 10 "o" demo_spans lapsing_loop = (lapsing_after, Err Fenced).
Proof. vm_compute. reflexivity. Qed.

Lemma ack_needs_the_lease_witness :
  (ls_held demo_lease 1 = true /\ ls_held demo_lease 2 = true) /\
  ls_held lapsing_lease 2 = false /\
  exists now, contents (cl_store lapsing_after) =
    [] ++ [mkMetadataEntry 0 (BatchCommitted "o" (map snd (ad_admitted (al_admit Allocator_new demo_spans))) now)].
Proof.
  assert (commit_wf "o" demo_spans) as Hwf by vm_decide.
  assert (ad_admitted (al_admit Allocator_new demo_spans) <> []) as Hne by (vm_compute; discriminate).
  split.
  - exact (proj1 (ack_needs_the_lease 10 "o" demo_spans demo_loop demo_after (Ok demo_ack) demo_lease
      (open_deferred_inv demo_lease) Hwf demo_serve Hne eq_refl) demo_ack eq_refl).
  - exact (proj2 (proj2 (ack_needs_the_lease 10 "o" demo_spans lapsing_loop lapsing_after (Err Fenced) lapsing_lease
      (open_deferred_inv lapsing_lease) Hwf lapsing_serve Hne eq_refl)) eq_refl eq_refl).
Defined.

Lemma demo_after_inv : inv demo_after.
Proof.
  assert (commit_wf "o" demo_spans) as Hsp by vm_decide.
  exact (sv_inv _ _ _ _ _ (serve_spec 10 "o" demo_spans demo_loop demo_after (Ok demo_ack)
    (open_deferred_inv demo_lease) Hsp demo_serve)).
Qed.

Definition demo_replayed : CoordinatorLoop unit FakeMetadataLog := (replay 10 demo_after).1.

Definition demo_replayed_al : Allocator :=
  match (replay 10 demo_after).2 with Ok (al, _) => al | _ => Allocator_new end.

Lemma demo_replay : replay 10 demo_after = (demo_replayed, Ok (demo_replayed_al, Some 0)).
Proof. vm_compute. reflexivity. Qed.

Lemma replay_folds_everything_witness :
  al_end demo_replayed_al ("t"%string, 0) = 7 /\
  exists pre rest, contents (cl_store demo_replayed) = pre ++ rest /\
    seen (cl_log demo_replayed) (cl_store demo_replayed) `prefix_of` pre /\
    (forall k, al_end demo_replayed_al k = log_end pre k) /\
    al_next_version demo_replayed_al = version_above (last_of None pre) /\
    Some 0 = last_of None pre /\ applied_upto (cl_index demo_replayed) = Some 0 /\
    index_at (cl_index demo_replayed) pre.
Proof.
  split; [vm_compute; reflexivity|].
  apply (replay_folds_everything 10 demo_after demo_replayed demo_replayed_al (Some 0)).
  - apply demo_after_inv.
  - apply demo_replay.
Defined.
