(* ===== verification/Replicas.v ===== *)
(** * Replicas: what follows the log without owning it

    Models [oqueue-coordinator/src/standby.rs] (a standby that keeps an
    allocator and an index warm and is promoted to coordinator) and
    [oqueue-index/src/applier.rs] (the applier that keeps a materialized index
    caught up), both over the contract of the metadata log. *)

From stdpp Require Import base tactics list numbers strings gmap.
From Stdlib Require Import ZArith Lia.
From S2P Require Import Prelude Types Coverage Partition IndexFold IndexSpec IndexRefine.
From S2P Require Import IndexProps Allocator AllocatorProps Log Coordinator CoordinatorProps.

Open Scope Z_scope.

(** ** The standby ([standby.rs]) *)

Record Standby : Type := mkStandby {
  sb_allocator : Allocator;
  sb_index : IndexState;
  sb_last : option CommitVersion;
}.

Definition Standby_new (index : IndexState) : Standby :=
  mkStandby Allocator_new (IndexState_clear index) None.

Definition folded_upto (self : Standby) : option CommitVersion := sb_last self.

(** [for entry in &page { self.allocator.replay(entry)?; }]: what was replayed
    before a refusal stays in the allocator. *)
Fixpoint sb_replay (al : Allocator) (page : list MetadataEntry) : Allocator * CRes unit :=
  match page with
  | [] => (al, Ok tt)
  | e :: page =>
      match al_replay al e with
      | (al, Ok _) => sb_replay al page
      | (al, Err error) => (al, Err (unreplayable e error))
      | (al, Panic) => (al, Panic)
      end
  end.

Section replicas.
Context {H L : Type} {log_ops : MetadataLog H L}.

(** The loop of [Standby::catch_up]; each turn reads one page. *)
Fixpoint sb_catch_up (fuel : nat) (log : H) (folded : nat) (self : Standby) (l : L)
    : (Standby * L) * CRes nat :=
  match fuel with
  | O => ((self, l), Panic)
  | S fuel =>
      let from :=
        match sb_last self with
        | None => Ok CommitVersion_ZERO
        | Some last => res_map_err (fun source => Unreplayable last source) (CommitVersion_advance last 1)
        end in
      match from with
      | Err e => ((self, l), Err e)
      | Panic => ((self, l), Panic)
      | Ok from =>
          match log_read_from log l from REBUILD_PAGE_ENTRIES with
          | (l, Err e) => ((self, l), Err (Journal e))
          | (l, Panic) => ((self, l), Panic)
          | (l, Ok page) =>
              match last page with
              | None => ((self, l), Ok folded)
              | Some tail =>
                  let '(al, replayed) := sb_replay (sb_allocator self) page in
                  let self := mkStandby al (sb_index self) (sb_last self) in
                  match replayed with
                  | Err e => ((self, l), Err e)
                  | Panic => ((self, l), Panic)
                  | Ok _ =>
                      match IndexState_apply (sb_index self) page with
                      | Err e => ((self, l), Err (unreplayable tail e))
                      | Panic => ((self, l), Panic)
                      | Ok index =>
                          sb_catch_up fuel log (folded + length page)
                            (mkStandby al index (Some (me_version tail))) l
                      end
                  end
              end
          end
      end
  end.

Definition standby_catch_up (fuel : nat) (log : H) (self : Standby) (l : L) : (Standby * L) * CRes nat :=
  sb_catch_up fuel log 0 self l.

Definition promote (fuel : nat) (self : Standby) (log : H) (l : L) (epoch : CoordinatorEpoch)
    (clock : nat -> Timestamp) : CRes (CoordinatorLoop H L) :=
  match standby_catch_up fuel log self l with
  | ((self, l), Ok _) =>
      Ok (assemble log l (sb_index self) epoch clock (sb_allocator self) (sb_last self) false)
  | (_, Err e) => Err e
  | (_, Panic) => Panic
  end.

(** ** The applier ([applier.rs]) *)

Definition APPLY_BATCH_ENTRIES : nat := 1000.

Lemma APPLY_BATCH_pos : (0 < APPLY_BATCH_ENTRIES)%nat.
Proof. unfold APPLY_BATCH_ENTRIES. lia. Qed.
#[global] Opaque APPLY_BATCH_ENTRIES.

Record CatchUp : Type := mkCatchUp { cu_entries : nat; cu_batches : nat; cu_reads : nat }.

Definition CatchUp_default : CatchUp := mkCatchUp 0 0 0.

Definition drop_cache (index : IndexState) : IndexState := IndexState_clear index.

Definition resume_from (index : IndexState) : Res CommitVersion :=
  match applied_upto index with
  | None => Ok CommitVersion_ZERO
  | Some applied => CommitVersion_advance applied 1
  end.

Definition apply_next_batch (log : H) (index : IndexState) (l : L) : (IndexState * L) * Res nat :=
  match resume_from index with
  | Err e => ((index, l), Err e)
  | Panic => ((index, l), Panic)
  | Ok start =>
      match log_read_from log l start APPLY_BATCH_ENTRIES with
      | (l, Err e) => ((index, l), Err e)
      | (l, Panic) => ((index, l), Panic)
      | (l, Ok []) => ((index, l), Ok 0%nat)
      | (l, Ok page) =>
          match IndexState_apply index page with
          | Err e => ((index, l), Err e)
          | Panic => ((index, l), Panic)
          | Ok index => ((index, l), Ok (length page))
          end
      end
  end.

(** The loop of [LogApplier::catch_up]. *)
Fixpoint applier_loop (fuel : nat) (log : H) (cost : CatchUp) (index : IndexState) (l : L)
    : (IndexState * L) * Res CatchUp :=
  match fuel with
  | O => ((index, l), Panic)
  | S fuel =>
      match apply_next_batch log index l with
      | ((index, l), Err e) => ((index, l), Err e)
      | ((index, l), Panic) => ((index, l), Panic)
      | ((index, l), Ok batch) =>
          let cost := mkCatchUp (cu_entries cost) (cu_batches cost) (S (cu_reads cost)) in
          if (batch =? 0)%nat then ((index, l), Ok cost)
          else
            let cost := mkCatchUp (cu_entries cost + batch) (S (cu_batches cost)) (cu_reads cost) in
            if (batch <? APPLY_BATCH_ENTRIES)%nat then ((index, l), Ok cost)
            else applier_loop fuel log cost index l
      end
  end.

Definition applier_catch_up (fuel : nat) (log : H) (index : IndexState) (l : L)
    : (IndexState * L) * Res CatchUp :=
  applier_loop fuel log CatchUp_default index l.

Context {log_laws : MetadataLogLaws H L}.

(** The standby is the fold of a prefix of the log. *)
Definition standby_at (self : Standby) (es : list MetadataEntry) : Prop :=
  al_at (sb_allocator self) es /\ index_at (sb_index self) es /\ sb_last self = last_of None es.

Lemma sb_replay_at al page al' pre :
  al_at al pre -> sb_replay al page = (al', Ok tt) -> al_at al' (pre ++ page).
Proof.
  revert al pre. induction page as [|e page IH]; intros al pre Hat; simpl.
  - intros [= <-]. by rewrite app_nil_r.
  - destruct (al_replay al e) as [al1 [[]|?|]] eqn:Hr; [|done..]. intros Hrest.
    rewrite cons_middle, app_assoc. eapply IH; [|done]. by eapply al_at_replay.
Qed.

(** Only a read fails as [Journal]. *)
Lemma sb_replay_error al page al' e : sb_replay al page <> (al', Err (Journal e)).
Proof.
  revert al. induction page as [|x page IH]; intros al; simpl; [done|].
  destruct (al_replay al x) as [al1 [[]|?|]]; [apply IH|done..].
Qed.

(** The entries of a log, a page into it. *)
Lemma page_wf l pre page rest :
  log_ok l -> contents l = pre ++ page ++ rest -> Forall entry_wf (pre ++ page).
Proof.
  intros Hok Hd. destruct (log_ordered l Hok) as [_ Hwf]. rewrite Hd, app_assoc in Hwf.
  by apply Forall_app in Hwf as [? _].
Qed.

(** The entries [es] are a prefix of the log that reaches at least as far as
    the handle has seen. *)
Definition up_to_date (h : H) (l : L) (es : list MetadataEntry) : Prop :=
  es `prefix_of` contents l /\ seen h l `prefix_of` es.

(** What a catch-up may have done.  A failed read leaves the standby at a
    prefix, to be retried; a success leaves it up to date. *)
Record followed (h : H) (l : L) (pre : list MetadataEntry) (folded : nat) (self' : Standby) (l' : L)
    (r : CRes nat) : Prop := {
  fo_ok : log_ok l';
  fo_grew : exists more, contents l' = contents l ++ more;
  fo_done : forall n, r = Ok n -> exists es, up_to_date h l' es /\ standby_at self' es /\
    (n + length pre = folded + length es)%nat;
  fo_retry : forall e, r = Err (Journal e) -> exists pre' rest',
    contents l' = pre' ++ rest' /\ standby_at self' pre';
}.

Lemma followed_refused h l pre folded self' l' r :
  log_ok l' -> (exists more, contents l' = contents l ++ more) ->
  (forall n, r <> Ok n) -> (forall e, r <> Err (Journal e)) -> followed h l pre folded self' l' r.
Proof. intros ? ? H1 H2. split; [done..| |]; intros ? ?; exfalso; [by eapply H1|by eapply H2]. Qed.

Lemma from_last last es :
  last = last_of None es ->
  match last with
  | None => Ok CommitVersion_ZERO
  | Some last => res_map_err (fun source => Unreplayable last source) (CommitVersion_advance last 1)
  end = Ok (version_above (last_of None es)) \/
  exists e, match last with
  | None => Ok CommitVersion_ZERO
  | Some last => res_map_err (fun source => Unreplayable last source) (CommitVersion_advance last 1)
  end = Err (Unreplayable (default 0 last) e).
Proof.
  intros <-. destruct last as [v|]; [|by left]. simpl.
  destruct (CommitVersion_advance v 1) as [x|e|] eqn:Hadv.
  - left. apply CommitVersion_advance_Ok in Hadv as [_ ->]. done.
  - right. by exists e.
  - unfold CommitVersion_advance in Hadv. repeat case_match; done.
Qed.

Lemma sb_catch_up_spec fuel h folded self l pre rest self' l' r :
  log_ok l -> contents l = pre ++ rest -> standby_at self pre ->
  sb_catch_up fuel h folded self l = ((self', l'), r) ->
  followed h l pre folded self' l' r.
Proof.
  revert folded self l pre rest. induction fuel as [|fuel IH]; intros folded self l pre rest Hok Hd Hat.
  { intros [= <- <- <-]. apply followed_refused; [done|exists []; by rewrite app_nil_r|done..]. }
  pose proof Hat as (Hal & Hi & Hlast). cbn [sb_catch_up].
  destruct (from_last _ _ Hlast) as [->|[e ->]]; cycle 1.
  { intros [= <- <- <-]. apply followed_refused; [done|exists []; by rewrite app_nil_r|done..]. }
  destruct (log_read_from h l _ _) as [l1 read] eqn:Hread.
  destruct (read_page _ _ _ _ _ pre rest _ Hok Hd eq_refl Hread) as (Hok1 & Hnp & Hgrew & [rest0 Hd0] & Hpage).
  destruct read as [page|e|]; [|intros [= <- <- <-]; by split; eauto|done].
  destruct (Hpage page eq_refl) as (rest1 & Hd1 & Hshort).
  destruct (last page) as [tail|] eqn:Htail; cycle 1.
  { apply last_None in Htail as ->. intros [= <- <- <-]. split; [done..| |done]. intros n [= <-].
    exists pre. rewrite app_nil_r in Hshort. split; [|by split].
    split; [by exists rest1|by apply Hshort, REBUILD_PAGE_pos]. }
  pose proof (page_wf l1 pre page rest1 Hok1 Hd1) as Hwf.
  destruct (sb_replay (sb_allocator self) page) as [al [[]|e|]] eqn:Hrep;
    [|intros [= <- <- <-]; apply followed_refused; try done..].
  2: { intros e' [= ->]. by apply sb_replay_error in Hrep. }
  cbn [sb_index]. destruct (IndexState_apply (sb_index self) page) as [index|e|] eqn:Happ;
    [|intros [= <- <- <-]; by apply followed_refused..].
  intros Hrec. destruct Hgrew as [more Hmore].
  destruct (IH (folded + length page)%nat (mkStandby al index (Some (me_version tail))) l1 (pre ++ page)
    rest1) as [Hok' [more' Hm'] Hdone Hretry]; [done| | |done|].
  - by rewrite Hd1, <-app_assoc.
  - split_and!; simpl; [by eapply sb_replay_at|by eapply index_at_apply|by rewrite (page_tail _ tail)].
  - split; [done| | |done].
    + exists (more ++ more'). by rewrite Hm', Hmore, app_assoc.
    + intros n Hn. destruct (Hdone n Hn) as (es & Hup & Hat' & Hlen). exists es.
      rewrite length_app in Hlen. split; [done|]. split; [done|lia].
Qed.

(** A standby that catches up is the log: whatever other writers append
    meanwhile, a catch-up that returns leaves the allocator, the index and the
    last version those of a prefix of the durable log that reaches at least as
    far as the handle has seen, and returns how many entries it folded; one
    that fails to read the log is still at a prefix of it, so that it can be
    tried again. *)
Theorem standby_follows_the_log fuel h self l pre rest self' l' r :
  log_ok l -> contents l = pre ++ rest -> standby_at self pre ->
  standby_catch_up fuel h self l = ((self', l'), r) ->
  (forall n, r = Ok n -> exists es, up_to_date h l' es /\ standby_at self' es /\
     n = (length es - length pre)%nat) /\
  (forall e, r = Err (Journal e) -> exists pre' rest',
     contents l' = pre' ++ rest' /\ standby_at self' pre').
Proof.
  intros Hok Hd Hat Hcu. destruct (sb_catch_up_spec _ _ _ _ _ _ _ _ _ _ Hok Hd Hat Hcu) as [_ _ Hdone Hretry].
  split; [|done]. intros n Hn. destruct (Hdone n Hn) as (es & Hup & Hat' & Hlen).
  exists es. split; [done|]. split; [done|lia].
Qed.

Lemma standby_at_new index : standby_at (Standby_new index) [].
Proof. split_and!; [apply al_at_new|apply index_at_clear|done]. Qed.

(** Promotion is as good as opening: a standby at any prefix of the log
    becomes a loop that satisfies the coordinator's invariant, whose allocator
    and index are the fold of one prefix of the log, at least as long as the
    handle has seen, and which publishes, and answers re-sent commits with,
    that prefix's last version. *)
Theorem promoted_standby_leads fuel self h l pre rest epoch clock s :
  log_ok l -> contents l = pre ++ rest -> standby_at self pre ->
  (forall n, timestamp_wf (clock n)) -> promote fuel self h l epoch clock = Ok s ->
  inv s /\ exists es, up_to_date h (cl_store s) es /\
    al_at (cl_allocator s) es /\ index_at (cl_index s) es /\
    cl_last_committed s = last_of None es /\ cl_published s = last_of None es.
Proof.
  intros Hok Hd Hat Hclock. unfold promote, standby_catch_up.
  destruct (sb_catch_up fuel h 0 self l) as [[self' l'] r] eqn:Hcu.
  destruct (sb_catch_up_spec _ _ _ _ _ _ _ _ _ _ Hok Hd Hat Hcu) as [Hok' _ Hdone _].
  destruct r as [n|e|]; [|done..]. intros [= <-].
  destruct (Hdone n eq_refl) as (es & Hup & (Hal & Hi & Hl) & _). split; [|exists es; split; [done|by split_and!]].
  destruct Hup as [[more Hm] _]. split; simpl; [done| | |by split]; by exists es, more.
Qed.

(** ** The applier *)

Lemma applier_batch h index l pre rest index' l' r :
  log_ok l -> contents l = pre ++ rest -> index_at index pre ->
  apply_next_batch h index l = ((index', l'), r) ->
  log_ok l' /\ match r with
  | Ok n => exists page rest1, contents l' = pre ++ page ++ rest1 /\ n = length page /\
      (n <= APPLY_BATCH_ENTRIES)%nat /\ index_at index' (pre ++ page) /\
      ((n < APPLY_BATCH_ENTRIES)%nat -> seen h l' `prefix_of` pre ++ page)
  | _ => index' = index /\ exists rest1, contents l' = pre ++ rest1
  end.
Proof.
  intros Hok Hd Hat. unfold apply_next_batch, resume_from. rewrite (index_at_upto _ _ Hat).
  set (start := match last_of None pre with None => _ | Some _ => _ end).
  assert (forall st, start = Ok st -> st = version_above (last_of None pre)) as Hst.
  { intros st. subst start. destruct (last_of None pre); [by intros [_ ->]%CommitVersion_advance_Ok|].
    by intros [= <-]. }
  destruct start as [st|e|]; [|intros [= <- <- <-]; eauto..]. rewrite (Hst st eq_refl).
  destruct (log_read_from h l _ _) as [l1 read] eqn:Hread.
  destruct (read_page _ _ _ _ _ pre rest _ Hok Hd eq_refl Hread) as (Hok1 & Hnp & _ & Hr0 & Hpage).
  destruct (read_law _ _ _ _ _ _ Hok Hread) as (_ & _ & _ & Htake).
  destruct read as [page|e|]; [|intros [= <- <- <-]; eauto|done].
  destruct (Hpage page eq_refl) as (rest1 & Hd1 & Hshort).
  assert (length page <= APPLY_BATCH_ENTRIES)%nat as Hle
    by (rewrite (Htake page eq_refl), length_take; lia).
  pose proof (page_wf l1 pre page rest1 Hok1 Hd1) as Hwf.
  destruct page as [|x page].
  - intros [= <- <- <-]. split; [done|]. exists [], rest1. rewrite app_nil_r in *. by split_and!.
  - destruct (IndexState_apply index _) as [i|e|] eqn:Happ; intros [= <- <- <-]; (split; [done|]);
      [|by eauto..].
    exists (x :: page), rest1. split_and!; try done. by eapply index_at_apply.
Qed.

Lemma applier_loop_spec fuel h cost index l pre rest index' l' r :
  log_ok l -> contents l = pre ++ rest -> index_at index pre ->
  applier_loop fuel h cost index l = ((index', l'), r) ->
  (exists pre' rest', contents l' = pre' ++ rest' /\ index_at index' pre') /\
  forall c, r = Ok c -> exists es, up_to_date h l' es /\ index_at index' es /\
    (cu_entries c + length pre = cu_entries cost + length es)%nat /\
    (cu_reads cost + cu_batches c <= cu_reads c + cu_batches cost
       <= S (cu_reads cost + cu_batches c))%nat /\
    (cu_entries c + APPLY_BATCH_ENTRIES * cu_batches cost
       <= cu_entries cost + APPLY_BATCH_ENTRIES * cu_batches c)%nat.
Proof.
  revert cost index l pre rest. induction fuel as [|fuel IH]; intros cost index l pre rest Hok Hd Hat.
  { intros [= <- <- <-]. split; [by exists pre, rest|done]. }
  cbn [applier_loop]. destruct (apply_next_batch h index l) as [[index1 l1] r1] eqn:Hb.
  destruct (applier_batch _ _ _ _ _ _ _ _ Hok Hd Hat Hb) as (Hok1 & Hr1).
  destruct r1 as [batch|e|]; [|intros [= <- <- <-]; destruct Hr1 as [-> [rest1 Hd1]];
    (split; [by exists pre, rest1|done])..].
  destruct Hr1 as (page & rest1 & Hd1 & Hbatch & Hle & Hat1 & Hshort).
  assert (Hstop : (batch < APPLY_BATCH_ENTRIES)%nat -> up_to_date h l1 (pre ++ page)).
  { intros Hlt. split; [exists rest1; by rewrite <-app_assoc|by apply Hshort]. }
  assert (Hpre : exists pre' rest', contents l1 = pre' ++ rest' /\ index_at index1 pre').
  { exists (pre ++ page), rest1. by rewrite <-app_assoc. }
  pose proof APPLY_BATCH_pos as Hpos.
  destruct (Nat.eqb_spec batch 0) as [->|Hnz].
  { intros [= <- <- <-]. split; [done|]. intros c [= <-]. exists (pre ++ page).
    rewrite length_app. cbn [cu_entries cu_batches cu_reads]. split; [by apply Hstop|]. split; [done|lia]. }
  destruct (Nat.ltb_spec batch APPLY_BATCH_ENTRIES) as [Hlt|Hge].
  { intros [= <- <- <-]. split; [done|]. intros c [= <-]. exists (pre ++ page).
    rewrite length_app. cbn [cu_entries cu_batches cu_reads]. split; [by apply Hstop|]. split; [done|lia]. }
  intros Hrec. destruct (IH _ index1 l1 _ rest1 Hok1
    ltac:(by rewrite Hd1, <-app_assoc) Hat1 Hrec) as [Hp Hc].
  split; [done|]. intros c Hr. destruct (Hc c Hr) as (es & Hup & Hi & He & Hrd & Hbt). exists es.
  rewrite length_app in He. cbn [cu_entries cu_batches cu_reads] in *. split; [done|]. split; [done|lia].
Qed.

(** The applier catches the index up: from an index that is the fold of a
    prefix of the log, a catch-up that returns leaves the fold of a prefix that
    reaches at least as far as the handle has seen, and its cost is exact: the
    entries that were missing, in pages of at most [APPLY_BATCH_ENTRIES], with
    at most one read more than there were pages.  One that fails leaves a
    prefix. *)
Theorem applier_catches_up fuel h index l pre rest index' l' r :
  log_ok l -> contents l = pre ++ rest -> index_at index pre ->
  applier_catch_up fuel h index l = ((index', l'), r) ->
  (exists pre' rest', contents l' = pre' ++ rest' /\ index_at index' pre') /\
  forall c, r = Ok c -> exists es, up_to_date h l' es /\ index_at index' es /\
    cu_entries c = (length es - length pre)%nat /\
    (cu_batches c <= cu_reads c <= S (cu_batches c))%nat /\
    (cu_entries c <= APPLY_BATCH_ENTRIES * cu_batches c)%nat.
Proof.
  intros Hok Hd Hat Hcu. destruct (applier_loop_spec _ _ _ _ _ _ _ _ _ _ Hok Hd Hat Hcu) as [Hp Hc].
  split; [done|]. intros c Hr. destruct (Hc c Hr) as (es & Hup & Hi & He & Hrd & Hbt). exists es.
  cbn [cu_entries cu_batches cu_reads CatchUp_default] in *. split; [done|]. split; [done|lia].
Qed.

End replicas.

(** ** Termination on a quiet log *)

Lemma sb_replay_entries al es al' :
  replay_entries unreplayable al es = Ok al' -> sb_replay al es = (al', Ok tt).
Proof.
  revert al. induction es as [|e es IH]; intros al; simpl; [by intros [= <-]|].
  destruct (al_replay al e) as [al1 [[]|err|]]; [apply IH|done..].
Qed.

(** Reading on from a prefix of a quiet log. *)
Lemma fake_read_rest (store : FakeMetadataLog) pre rest n :
  fake_ok store -> fl_entries store = pre ++ rest ->
  log_read_from tt store (version_above (last_of None pre)) n = (store, Ok (take n rest)).
Proof.
  intros [Hinc Hwf] Hd. cbn. unfold fake_read_from. rewrite Hd in *. by rewrite read_rest.
Qed.

(** There is a version after the last of a log with room. *)
Lemma advance_room pre rest v :
  foldable (pre ++ rest) -> last_of None pre = Some v -> CommitVersion_advance v 1 = Ok (v + 1).
Proof.
  intros (_ & Hroom & _) Hl. unfold last_of in Hl. destruct (last pre) as [e|] eqn:Hlast; [|done].
  injection Hl as <-. apply last_Some in Hlast as [pre' ->].
  apply Forall_app in Hroom as [[_ Hr]%Forall_app _]. rewrite Forall_singleton in Hr.
  apply CommitVersion_advance_Ok. unfold version_room in Hr. split; [lia|done].
Qed.

Lemma take_rest_length {A} n (rest : list A) :
  (0 < n)%nat -> take n rest <> [] -> (length (drop n rest) < length rest)%nat.
Proof. intros Hn Hne. rewrite length_drop. destruct rest; [by destruct n|]. simpl. lia. Qed.

Lemma sb_catch_up_returns fuel folded self (store : FakeMetadataLog) pre rest :
  fake_ok store -> foldable (fl_entries store) -> fl_entries store = pre ++ rest ->
  standby_at self pre -> quota (sb_index self) = None -> (length rest < fuel)%nat ->
  exists self' n, sb_catch_up fuel tt folded self store = ((self', store), Ok n).
Proof.
  revert folded self pre rest. induction fuel as [|fuel IH];
    intros folded self pre rest Hok Hf Hd Hat Hq Hlen; [lia|].
  destruct Hat as (Hal & Hi & Hlast). cbn [sb_catch_up]. rewrite Hlast.
  assert (match last_of None pre with
    | None => Ok CommitVersion_ZERO
    | Some last => res_map_err (fun source => Unreplayable last source) (CommitVersion_advance last 1)
    end = Ok (version_above (last_of None pre))) as ->.
  { destruct (last_of None pre) as [v|] eqn:Hv; [|done]. rewrite Hd in Hf.
    by rewrite (advance_room pre rest v). }
  rewrite (fake_read_rest store pre rest) by done.
  destruct (last (take REBUILD_PAGE_ENTRIES rest)) as [tail|] eqn:Htail; [|by eauto].
  set (page := take REBUILD_PAGE_ENTRIES rest) in *.
  assert (fl_entries store = pre ++ page ++ drop REBUILD_PAGE_ENTRIES rest) as Hd1
    by (by rewrite Hd; subst page; rewrite take_drop).
  pose proof Hf as Hf1. rewrite Hd1 in Hf1.
  destruct (foldable_page pre page _ (sb_allocator self) Hf1 Hal) as (al1 & Hrep & Happ).
  destruct (Happ _ Hi Hq) as (i1 & Hi1 & Hq1). apply sb_replay_entries in Hrep as Hsb.
  rewrite Hsb. cbn [sb_index]. rewrite Hi1.
  eapply (IH _ _ (pre ++ page)); [done|done|by rewrite <-app_assoc| |done|].
  - split_and!; simpl; [by eapply sb_replay_at| |by rewrite (page_tail _ tail)].
    eapply index_at_apply; [done| |done]. eapply (page_wf store); [exact Hok|exact Hd1].
  - pose proof (take_rest_length REBUILD_PAGE_ENTRIES rest REBUILD_PAGE_pos) as Hdl.
    fold page in Hdl. specialize (Hdl ltac:(by intros E; rewrite E in Htail)). lia.
Qed.

Lemma applier_loop_returns fuel cost index (store : FakeMetadataLog) pre rest :
  fake_ok store -> foldable (fl_entries store) -> fl_entries store = pre ++ rest ->
  index_at index pre -> quota index = None -> (length rest < fuel)%nat ->
  exists index' c, applier_loop fuel tt cost index store = ((index', store), Ok c).
Proof.
  revert cost index pre rest. induction fuel as [|fuel IH];
    intros cost index pre rest Hok Hf Hd Hi Hq Hlen; [lia|].
  cbn [applier_loop]. unfold apply_next_batch, resume_from. rewrite (index_at_upto _ _ Hi).
  assert (match last_of None pre with
    | None => Ok CommitVersion_ZERO
    | Some applied => CommitVersion_advance applied 1
    end = Ok (version_above (last_of None pre))) as ->.
  { destruct (last_of None pre) as [v|] eqn:Hv; [|done]. rewrite Hd in Hf.
    by apply (advance_room pre rest v). }
  rewrite (fake_read_rest store pre rest) by done.
  destruct (take APPLY_BATCH_ENTRIES rest) as [|x page'] eqn:Htake; [by repeat eexists|].
  rewrite <-Htake. set (page := take APPLY_BATCH_ENTRIES rest) in *.
  assert (fl_entries store = pre ++ page ++ drop APPLY_BATCH_ENTRIES rest) as Hd1
    by (by rewrite Hd; subst page; rewrite take_drop).
  pose proof Hf as Hf1. rewrite Hd1 in Hf1.
  destruct (index_page pre page _ index Hf1 Hi Hq) as (i1 & Hi1 & Hq1).
  rewrite Hi1. destruct (_ =? 0)%nat; [by repeat eexists|]. destruct (_ <? _)%nat; [by repeat eexists|].
  eapply (IH _ _ (pre ++ page)); [done|done|by rewrite <-app_assoc| |done|].
  - eapply index_at_apply; [done| |done]. eapply (page_wf store); [exact Hok|exact Hd1].
  - pose proof (take_rest_length APPLY_BATCH_ENTRIES rest APPLY_BATCH_pos) as Hdl.
    fold page in Hdl. rewrite Htake in Hdl. specialize (Hdl ltac:(done)). lia.
Qed.

(** Followers return: on a quiet log that folds, with one unit of fuel per
    durable entry and one more, a fresh standby's catch-up and an applier over
    a cleared index both return, holding the whole log. *)
Theorem followers_terminate fuel (store : FakeMetadataLog) index :
  fake_ok store -> foldable (fl_entries store) -> quota index = None ->
  (length (fl_entries store) < fuel)%nat ->
  (exists self, standby_catch_up fuel tt (Standby_new index) store =
     ((self, store), Ok (length (fl_entries store))) /\ standby_at self (fl_entries store)) /\
  (exists index' c, applier_catch_up fuel tt (drop_cache index) store = ((index', store), Ok c) /\
     index_at index' (fl_entries store) /\ cu_entries c = length (fl_entries store)).
Proof.
  intros Hok Hf Hq Hlen. split.
  - destruct (sb_catch_up_returns fuel 0 (Standby_new index) store [] (fl_entries store))
      as (self & n & Hcu); [done|done|done|apply standby_at_new|done|done|].
    destruct (sb_catch_up_spec fuel tt 0 (Standby_new index) store [] (fl_entries store) self store (Ok n))
      as [_ _ Hdone _]; [done|done|apply standby_at_new|done|].
    destruct (Hdone n eq_refl) as (es & [Hpre Hseen] & Hat & Hn).
    pose proof (prefix_antisym _ _ Hpre Hseen) as ->. simpl in Hn. rewrite Nat.add_0_r in Hn. subst n.
    exists self. by split.
  - destruct (applier_loop_returns fuel CatchUp_default (drop_cache index) store [] (fl_entries store))
      as (index' & c & Hcu); [done|done|done|apply index_at_clear|done|done|].
    destruct (applier_loop_spec fuel tt CatchUp_default (drop_cache index) store [] (fl_entries store)
      index' store (Ok c)) as [_ Hc]; [done|done|apply index_at_clear|done|].
    destruct (Hc c eq_refl) as (es & [Hpre Hseen] & Hi & He & _).
    pose proof (prefix_antisym _ _ Hpre Hseen) as ->. simpl in He. exists index', c.
    rewrite Nat.add_0_r in He. by split_and!.
Qed.

(** ** Over the in-memory log *)

Definition demo_entries3 : list MetadataEntry := take 3 demo_commits.
Definition demo_log : FakeMetadataLog := mkFakeLog demo_entries3.

Lemma demo_log_ok : log_ok demo_log.
Proof. split; [vm_compute; repeat split|apply Forall_take, demo_commits_wf]. Qed.

Definition demo_follow : (Standby * FakeMetadataLog) * CRes nat :=
  standby_catch_up 3 tt (Standby_new IndexState_new) demo_log.
Definition demo_followed : Standby := demo_follow.1.1.

Lemma demo_follow_eq :
  standby_catch_up 3 tt (Standby_new IndexState_new) demo_log = ((demo_followed, demo_log), Ok 3%nat).
Proof. vm_compute. reflexivity. Qed.

Lemma standby_follows_the_log_witness :
  exists es, up_to_date tt demo_log es /\ standby_at demo_followed es /\ 3%nat = (length es - 0)%nat.
Proof.
  destruct (standby_follows_the_log 3 tt (Standby_new IndexState_new) demo_log [] demo_entries3
    demo_followed demo_log (Ok 3%nat) demo_log_ok eq_refl (standby_at_new _) demo_follow_eq) as [Hdone _].
  apply (Hdone 3%nat eq_refl).
Defined.

Definition demo_promoted : CoordinatorLoop unit FakeMetadataLog :=
  assemble tt demo_log (sb_index demo_followed) 2 demo_clock
    (sb_allocator demo_followed) (sb_last demo_followed) false.

Lemma demo_promote_eq :
  promote 3 (Standby_new IndexState_new) tt demo_log 2 demo_clock = Ok demo_promoted.
Proof. unfold promote. by rewrite demo_follow_eq. Qed.

Lemma promoted_standby_leads_witness : inv demo_promoted.
Proof.
  destruct (promoted_standby_leads 3 (Standby_new IndexState_new) tt demo_log [] demo_entries3 2
    demo_clock demo_promoted demo_log_ok eq_refl (standby_at_new _) demo_clock_wf demo_promote_eq)
    as [Hinv _].
  exact Hinv.
Defined.

Definition demo_applied : IndexState := (applier_catch_up 3 tt IndexState_new demo_log).1.1.

Lemma demo_apply_eq :
  applier_catch_up 3 tt IndexState_new demo_log = ((demo_applied, demo_log), Ok (mkCatchUp 3 1 1)).
Proof. vm_compute. reflexivity. Qed.

Lemma applier_catches_up_witness :
  exists es, up_to_date tt demo_log es /\ index_at demo_applied es /\ 3%nat = (length es - 0)%nat /\
    (1 <= 1 <= 2)%nat /\ (3 <= APPLY_BATCH_ENTRIES * 1)%nat.
Proof.
  destruct (applier_catches_up 3 tt IndexState_new demo_log [] demo_entries3 demo_applied demo_log
    (Ok (mkCatchUp 3 1 1)) demo_log_ok eq_refl (index_at_clear IndexState_new) demo_apply_eq) as [_ Hc].
  apply (Hc (mkCatchUp 3 1 1) eq_refl).
Defined.

Lemma followers_terminate_witness :
  exists self, standby_catch_up 4 tt (Standby_new IndexState_new) demo_log = ((self, demo_log), Ok 3%nat) /\
    standby_at self demo_entries3.
Proof.
  apply (followers_terminate 4 demo_log IndexState_new).
  - exact demo_log_ok.
  - split; [apply Forall_take, demo_commits_wf|]. split; [vm_decide|vm_compute; reflexivity].
  - reflexivity.
  - vm_decide.
Defined.
