(* ===== verification/Segment.v ===== *)
(** * Segment: the metadata log's durable format

    Models [oqueue-core/src/metadata_segment.rs]: the encoder and decoder of a
    segment of log entries, with every field check of the decoder and every
    length check of the encoder. *)

From stdpp Require Import base tactics list numbers strings.
From Stdlib Require Import ZArith Lia.
From S2P Require Import Prelude Types Bytes.

Open Scope Z_scope.

Notation SegReader := (Reader Error).
Notation SegWriter := (Writer Error).

(** [*b"OQML"]. *)
Definition SEGMENT_MAGIC : bytes := [79; 81; 77; 76].
Definition SEGMENT_FORMAT : Z := 1.
Definition TAG_BATCH : Z := 1.
Definition TAG_MANIFEST : Z := 2.
Definition TAG_COMPACTED : Z := 3.
Definition TAG_TRIMMED : Z := 4.
Definition TAG_EPOCH : Z := 5.
Definition TAG_RETENTION : Z := 6.

(** ** The writers *)

Definition u16_max : Z := 2 ^ 16 - 1.

Definition put_len32 (len : nat) : SegWriter := fun out =>
  if Z.of_nat len <=? u32_max then Ok (out ++ be_bytes 4 (Z.of_nat len))
  else Err (MalformedMetadataSegment (Z.of_nat (length out))).

Definition put_str (value : string) : SegWriter := fun out =>
  let raw := as_bytes value in
  if Z.of_nat (length raw) <=? u16_max
  then Ok (out ++ be_bytes 2 (Z.of_nat (length raw)) ++ raw)
  else Err (MalformedMetadataSegment (Z.of_nat (length out))).

Definition put_partition (topic : TopicId) (partition : PartitionId) : SegWriter :=
  put_str topic +> wr_bytes (be_signed 4 partition).

Definition put_ref (reference : ObjectRef) : SegWriter :=
  put_str (or_object reference) +>
  wr_bytes (be_signed 8 (or_base_offset reference)) +>
  wr_bytes (be_bytes 4 (or_record_count reference)).

Definition put_refs (refs : list ObjectRef) : SegWriter :=
  put_len32 (length refs) +> wr_each put_ref refs.

Definition put_byte_range (range : ByteRange) : SegWriter :=
  match range with
  | Full => wr_bytes [0]
  | Bounded offset length =>
      wr_bytes [1] +> wr_bytes (be_bytes 8 offset) +> wr_bytes (be_bytes 8 length)
  end.

Definition put_producer (producer : option ProducerIdentity) : SegWriter :=
  match producer with
  | None => wr_bytes [0]
  | Some p =>
      wr_bytes [1] +> wr_bytes (be_signed 8 (pi_id p)) +> wr_bytes (be_signed 2 (pi_epoch p)) +>
      wr_bytes (be_signed 4 (pi_sequence p))
  end.

Definition encode_span (span : CommittedSpan) : SegWriter :=
  put_partition (cs_topic span) (cs_partition span) +>
  wr_bytes (be_bytes 4 (cs_record_count span)) +>
  put_byte_range (cs_bytes span) +>
  put_producer (cs_producer span).

Definition encode_batch (object : ObjectKey) (spans : list CommittedSpan) (written_at : Timestamp)
    : SegWriter :=
  wr_bytes [TAG_BATCH] +> put_str object +> wr_bytes (be_signed 8 written_at) +>
  put_len32 (length spans) +> wr_each encode_span spans.

(** The encoders that are handed the whole record, and panic on another one. *)
Definition encode_manifest (record : MetadataRecord) : SegWriter :=
  match record with
  | ManifestPublished topic partition manifest upto =>
      wr_bytes [TAG_MANIFEST] +> put_partition topic partition +> put_str manifest +>
      wr_bytes (be_signed 8 upto)
  | _ => fun _ => Panic
  end.

Definition encode_compacted (record : MetadataRecord) : SegWriter :=
  match record with
  | RangeCompacted topic partition retiring installing =>
      wr_bytes [TAG_COMPACTED] +> put_partition topic partition +> put_refs retiring +>
      put_refs installing
  | _ => fun _ => Panic
  end.

Definition encode_trimmed (record : MetadataRecord) : SegWriter :=
  match record with
  | Trimmed topic partition start =>
      wr_bytes [TAG_TRIMMED] +> put_partition topic partition +> wr_bytes (be_signed 8 start)
  | _ => fun _ => Panic
  end.

Definition encode_epoch (record : MetadataRecord) : SegWriter :=
  match record with
  | EpochChanged epoch => wr_bytes [TAG_EPOCH] +> wr_bytes (be_bytes 8 epoch)
  | _ => fun _ => Panic
  end.

Definition encode_retention (record : MetadataRecord) : SegWriter :=
  match record with
  | TopicRetentionChanged topic retention_ms =>
      wr_bytes [TAG_RETENTION] +> put_str topic +>
      match retention_ms with
      | Some value => wr_bytes [1] +> wr_bytes (be_signed 8 value)
      | None => wr_bytes [0]
      end
  | _ => fun _ => Panic
  end.

Definition encode_record (record : MetadataRecord) : SegWriter :=
  match record with
  | BatchCommitted object spans written_at => encode_batch object spans written_at
  | ManifestPublished _ _ _ _ => encode_manifest record
  | RangeCompacted _ _ _ _ => encode_compacted record
  | Trimmed _ _ _ => encode_trimmed record
  | EpochChanged _ => encode_epoch record
  | TopicRetentionChanged _ _ => encode_retention record
  end.

Definition encode_entry (entry : MetadataEntry) : SegWriter :=
  wr_bytes (be_bytes 8 (me_version entry)) +> encode_record (me_record entry).

Definition encode_segment (entries : list MetadataEntry) : Res bytes :=
  (wr_bytes SEGMENT_MAGIC +> wr_bytes [SEGMENT_FORMAT] +> put_len32 (length entries) +>
   wr_each encode_entry entries) [].

(** ** The cursor *)

Definition seg_malformed {A} : SegReader A := fun _ at_ =>
  Err (MalformedMetadataSegment (Z.of_nat at_)).

(** [checked]: a field no constructor accepts is malformed. *)
Definition seg_checked {A} (value : Res A) : SegReader A :=
  match value with
  | Ok a => rd_ret a
  | Err _ => seg_malformed
  | Panic => fun _ _ => Panic
  end.

Definition seg_take (len : nat) : SegReader bytes := fun buf at_ =>
  if (at_ + len <=? length buf)%nat
  then Ok (take len (drop at_ buf), (at_ + len)%nat)
  else Err (MalformedMetadataSegment (Z.of_nat at_)).

Definition seg_u8 : SegReader Z := rd! b := seg_take 1 in rd_ret (from_be b).
Definition seg_u16 : SegReader Z := rd! b := seg_take 2 in rd_ret (from_be b).
Definition seg_u32 : SegReader Z := rd! b := seg_take 4 in rd_ret (from_be b).
Definition seg_u64 : SegReader Z := rd! b := seg_take 8 in rd_ret (from_be b).
Definition seg_i16 : SegReader Z := rd! b := seg_take 2 in rd_ret (from_be_signed 2 b).
Definition seg_i32 : SegReader Z := rd! b := seg_take 4 in rd_ret (from_be_signed 4 b).
Definition cur_i64 : SegReader Z := rd! b := seg_take 8 in rd_ret (from_be_signed 8 b).

Definition seg_string : SegReader string :=
  rd! len := seg_u16 in
  rd! raw := seg_take (Z.to_nat len) in
  if utf8_valid raw then rd_ret (of_bytes raw) else seg_malformed.

Definition seg_key : SegReader ObjectKey :=
  rd! raw := seg_string in seg_checked (ObjectKey_new raw).

Definition seg_topic : SegReader TopicId :=
  rd! raw := seg_string in seg_checked (TopicId_new raw).

Definition seg_offset : SegReader Offset :=
  rd! raw := cur_i64 in seg_checked (Offset_new raw).

Definition seg_partition : SegReader (TopicId * PartitionId) :=
  rd! topic := seg_topic in
  rd! index := seg_i32 in
  rd! partition := seg_checked (PartitionId_new index) in
  rd_ret (topic, partition).

Definition seg_ref : SegReader ObjectRef :=
  rd! object := seg_key in
  rd! base := seg_offset in
  rd! records := seg_u32 in
  rd_ret (mkObjectRef object base records).

Definition seg_refs : SegReader (list ObjectRef) :=
  rd! count := seg_u32 in rd_times (Z.to_nat count) seg_ref.

(** ** The decoders *)

Definition decode_byte_range : SegReader ByteRange :=
  rd! tag := seg_u8 in
  if tag =? 0 then rd_ret Full
  else if tag =? 1 then
    rd! offset := seg_u64 in
    rd! length := seg_u64 in
    seg_checked (ByteRange_bounded offset length)
  else seg_malformed.

Definition decode_producer : SegReader (option ProducerIdentity) :=
  rd! tag := seg_u8 in
  if tag =? 0 then rd_ret None
  else if tag =? 1 then
    rd! raw_id := cur_i64 in
    rd! id := seg_checked (ProducerId_new raw_id) in
    rd! raw_epoch := seg_i16 in
    rd! epoch := seg_checked (ProducerEpoch_new raw_epoch) in
    rd! sequence := seg_i32 in
    rd_ret (Some (mkProducerIdentity id epoch sequence))
  else seg_malformed.

Definition decode_span : SegReader CommittedSpan :=
  rd! (topic, partition) := seg_partition in
  rd! records := seg_u32 in
  rd! range := decode_byte_range in
  rd! producer := decode_producer in
  rd_ret (mkCommittedSpan topic partition records range producer).

Definition decode_batch : SegReader MetadataRecord :=
  rd! object := seg_key in
  rd! millis := cur_i64 in
  rd! written_at := seg_checked (Timestamp_from_millis millis) in
  rd! count := seg_u32 in
  rd! spans := rd_times (Z.to_nat count) decode_span in
  rd_ret (BatchCommitted object spans written_at).

Definition decode_manifest : SegReader MetadataRecord :=
  rd! (topic, partition) := seg_partition in
  rd! manifest := seg_key in
  rd! upto := seg_offset in
  rd_ret (ManifestPublished topic partition manifest upto).

Definition decode_compacted : SegReader MetadataRecord :=
  rd! (topic, partition) := seg_partition in
  rd! retiring := seg_refs in
  rd! installing := seg_refs in
  rd_ret (RangeCompacted topic partition retiring installing).

Definition decode_trimmed : SegReader MetadataRecord :=
  rd! (topic, partition) := seg_partition in
  rd! start := seg_offset in
  rd_ret (Trimmed topic partition start).

Definition decode_epoch : SegReader MetadataRecord :=
  rd! epoch := seg_u64 in rd_ret (EpochChanged epoch).

Definition decode_retention : SegReader MetadataRecord :=
  rd! topic := seg_topic in
  rd! tag := seg_u8 in
  rd! retention_ms :=
    (if tag =? 0 then rd_ret None
     else if tag =? 1 then rd! v := cur_i64 in rd_ret (Some v)
     else seg_malformed) in
  rd_ret (TopicRetentionChanged topic retention_ms).

(** The decoder a tag read at [at_] selects. *)
Definition record_decoder (at_ : nat) (tag : Z) : SegReader MetadataRecord :=
  if tag =? TAG_BATCH then decode_batch
  else if tag =? TAG_MANIFEST then decode_manifest
  else if tag =? TAG_COMPACTED then decode_compacted
  else if tag =? TAG_TRIMMED then decode_trimmed
  else if tag =? TAG_EPOCH then decode_epoch
  else if tag =? TAG_RETENTION then decode_retention
  else fun _ _ => Err (MalformedMetadataSegment (Z.of_nat at_)).

Definition decode_record : SegReader MetadataRecord := fun buf at_ =>
  (rd! tag := seg_u8 in record_decoder at_ tag) buf at_.

Definition decode_entry : SegReader MetadataEntry :=
  rd! version := seg_u64 in
  rd! record := decode_record in
  rd_ret (mkMetadataEntry version record).

(** Everything of [decode_segment] before the check that nothing is left. *)
Definition decode_entries : SegReader (list MetadataEntry) :=
  rd! magic := seg_take 4 in
  if bool_decide (magic = SEGMENT_MAGIC) then
    rd! format := seg_u8 in
    if format =? SEGMENT_FORMAT then
      rd! count := seg_u32 in
      rd_times (Z.to_nat count) decode_entry
    else seg_malformed
  else seg_malformed.

Definition decode_segment (buf : bytes) : Res (list MetadataEntry) :=
  let? (entries, at_) := decode_entries buf 0%nat in
  if (at_ =? length buf)%nat then Ok entries
  else Err (MalformedMetadataSegment (Z.of_nat at_)).
