(* ===== verification/SegmentProps.v ===== *)
(** * SegmentProps: the segment format round-trips and is unambiguous

    Whatever the encoder accepts the decoder reads back; no proper prefix of a
    segment decodes, and none with bytes after it does. *)

From stdpp Require Import base tactics list numbers strings.
From Stdlib Require Import ZArith Lia.
From S2P Require Import Prelude Types Bytes Segment.

Open Scope Z_scope.

(** ** The primitives *)

Lemma reads_take bs : reads (seg_take (length bs)) bs bs.
Proof.
  intros pre post. unfold seg_take. rewrite (proj2 (Nat.leb_le _ _)) by (rewrite !length_app; lia).
  by rewrite drop_app_length, take_app_length.
Qed.

Lemma reads_unsigned n v :
  0 <= v < 256 ^ Z.of_nat n -> reads (rd! b := seg_take n in rd_ret (from_be b)) (be_bytes n v) v.
Proof.
  intros Hv. rewrite <-(app_nil_r (be_bytes n v)). eapply reads_bind.
  - rewrite <-(be_bytes_length n v) at 1. apply reads_take.
  - rewrite (from_be_be n v Hv). apply reads_ret.
Qed.

Lemma reads_signed n v :
  (0 < n)%nat -> fits_signed n v ->
  reads (rd! b := seg_take n in rd_ret (from_be_signed n b)) (be_signed n v) v.
Proof.
  intros Hn Hv. rewrite <-(app_nil_r (be_signed n v)).
  apply (reads_bind _ _ (be_signed n v) [] (be_signed n v) v).
  - unfold be_signed. rewrite <-(be_bytes_length n (to_unsigned n v)) at 1. apply reads_take.
  - rewrite (from_be_be_signed n v Hn Hv). apply reads_ret.
Qed.

Lemma reads_byte b : is_byte b -> reads seg_u8 [b] b.
Proof.
  intros Hb pre post. unfold seg_u8, rd_bind. by rewrite (reads_take [b]).
Qed.

Ltac width :=
  unfold fits_signed, partition_wf, offset_wf, i64_wf, u16_max in *;
  change (256 ^ Z.of_nat 2) with 65536 in *; change (256 ^ Z.of_nat 4) with 4294967296 in *;
  change (256 ^ Z.of_nat 8) with 18446744073709551616 in *;
  change (65536 / 2) with 32768 in *; change (4294967296 / 2) with 2147483648 in *;
  change (18446744073709551616 / 2) with 9223372036854775808 in *; mlia.

Lemma inverts_u32 v : in_u32 v -> inverts (wr_bytes (be_bytes 4 v)) seg_u32 v.
Proof. intros. apply inverts_bytes, reads_unsigned. width. Qed.

Lemma inverts_u64 v : in_u64 v -> inverts (wr_bytes (be_bytes 8 v)) seg_u64 v.
Proof. intros. apply inverts_bytes, reads_unsigned. width. Qed.

Lemma inverts_i64 v : i64_wf v -> inverts (wr_bytes (be_signed 8 v)) cur_i64 v.
Proof. intros. apply inverts_bytes, reads_signed; [lia|]. width. Qed.

Lemma inverts_tag b : is_byte b -> inverts (wr_bytes [b]) seg_u8 b.
Proof. intros. by apply inverts_bytes, reads_byte. Qed.

Lemma inverts_len32 n : inverts (put_len32 n) seg_u32 (Z.of_nat n).
Proof.
  intros out out'. unfold put_len32. destruct (_ <=? _) eqn:Hle; [|done]. zbool.
  intros Heq. exists (be_bytes 4 (Z.of_nat n)). split; [by injection Heq|].
  apply reads_unsigned. width.
Qed.

Lemma inverts_str s : is_str s -> inverts (put_str s) seg_string s.
Proof.
  intros Hs out out'. unfold put_str. destruct (_ <=? _) eqn:Hle; [|done]. zbool.
  intros Heq. exists (be_bytes 2 (Z.of_nat (length (as_bytes s))) ++ as_bytes s).
  split; [by injection Heq|]. unfold seg_string. eapply reads_bind; [apply reads_unsigned; width|]. rewrite Nat2Z.id.
  eapply reads_check; [apply reads_take|]. intros buf at_. rewrite Hs, of_as_bytes. done.
Qed.

(** A field followed by a check its value passes. *)
Lemma inverts_checked {A B} w (m : SegReader A) (f : A -> Res B) a b :
  inverts w m a -> f a = Ok b -> inverts w (rd! x := m in seg_checked (f x)) b.
Proof.
  intros Hw Hf out out' H1. destruct (Hw _ _ H1) as (bs & -> & Hr). exists bs. split; [done|].
  eapply reads_check; [done|]. intros buf at_. by rewrite Hf.
Qed.

Lemma inverts_key s : name_wf s -> inverts (put_str s) seg_key s.
Proof.
  intros [Hs Hne]. eapply inverts_checked; [by apply inverts_str|].
  unfold ObjectKey_new. by rewrite decide_False.
Qed.

Lemma inverts_topic s : name_wf s -> inverts (put_str s) seg_topic s.
Proof.
  intros [Hs Hne]. eapply inverts_checked; [by apply inverts_str|].
  unfold TopicId_new. by rewrite decide_False.
Qed.

Lemma inverts_offset o : offset_wf o -> inverts (wr_bytes (be_signed 8 o)) seg_offset o.
Proof.
  intros Ho. eapply inverts_checked; [apply inverts_i64; width|].
  unfold Offset_new. by rewrite (proj2 (Z.ltb_ge _ _)) by apply Ho.
Qed.

(** A check that passes changes nothing. *)
Lemma seg_checked_ok {A B} (f : Res A) a (k : A -> SegReader B) :
  f = Ok a -> forall buf at_, (rd! x := seg_checked f in k x) buf at_ = k a buf at_.
Proof. by intros ->. Qed.

Lemma inverts_ext {A} w (m m' : SegReader A) a :
  (forall buf at_, m buf at_ = m' buf at_) -> inverts w m a -> inverts w m' a.
Proof.
  intros Heq Hw out out' H1. destruct (Hw _ _ H1) as (bs & -> & Hr). exists bs. split; [done|].
  intros pre post. by rewrite <-Heq.
Qed.

(** A field, its check, and what follows. *)
Lemma inverts_checked_seq {A B C} w1 w2 (m : SegReader A) (f : A -> Res B) (k : B -> SegReader C) a b c :
  inverts w1 m a -> f a = Ok b -> inverts w2 (k b) c ->
  inverts (w1 +> w2) (rd! x := m in rd! y := seg_checked (f x) in k y) c.
Proof.
  intros H1 Hf H2. eapply inverts_seq; [done|]. eapply inverts_ext; [|done].
  intros buf at_. by rewrite (seg_checked_ok _ _ _ Hf).
Qed.

Lemma inverts_checked_last {A B C} w (m : SegReader A) (f : A -> Res B) (g : B -> C) a b :
  inverts w m a -> f a = Ok b ->
  inverts w (rd! x := m in rd! y := seg_checked (f x) in rd_ret (g y)) (g b).
Proof.
  intros Hw Hf out out' H1. destruct (Hw _ _ H1) as (bs & -> & Hr). exists bs. split; [done|].
  eapply reads_check; [done|]. intros buf at_. by rewrite (seg_checked_ok _ _ _ Hf).
Qed.

(** ** The records *)

Lemma inverts_partition t p :
  name_wf t -> partition_wf p -> inverts (put_partition t p) seg_partition (t, p).
Proof.
  intros Ht Hp. eapply inverts_seq; [by apply inverts_topic|].
  apply (inverts_checked_last _ seg_i32 PartitionId_new (pair t) p p).
  - apply inverts_bytes, reads_signed; [lia|width].
  - unfold PartitionId_new. by rewrite (proj2 (Z.ltb_ge _ _)) by apply Hp.
Qed.

Lemma inverts_ref r : ref_wf r -> inverts (put_ref r) seg_ref r.
Proof.
  intros (Hn & Ho & Hc). destruct r as [object base count]; simpl in *.
  eapply inverts_seq; [by apply inverts_key|]. eapply inverts_seq; [by apply inverts_offset|].
  apply inverts_last, inverts_u32, Hc.
Qed.

(** A counted list. *)
Lemma inverts_counted {A} (f : A -> SegWriter) (m : SegReader A) l :
  Forall (fun a => inverts (f a) m a) l ->
  inverts (put_len32 (length l) +> wr_each f l) (rd! n := seg_u32 in rd_times (Z.to_nat n) m) l.
Proof.
  intros Hl. eapply inverts_seq; [apply inverts_len32|]. rewrite Nat2Z.id. by apply inverts_each.
Qed.

Lemma inverts_refs refs : Forall ref_wf refs -> inverts (put_refs refs) seg_refs refs.
Proof. intros Hr. apply inverts_counted. eapply Forall_impl; [exact Hr|]. apply inverts_ref. Qed.

Lemma byte_0 : is_byte 0. Proof. unfold is_byte. mlia. Qed.
Lemma byte_1 : is_byte 1. Proof. unfold is_byte. mlia. Qed.

Lemma inverts_range r : range_wf r -> inverts (put_byte_range r) decode_byte_range r.
Proof.
  destruct r as [|offset length]; simpl.
  - intros _. apply inverts_bytes. eapply reads_check; [apply reads_byte, byte_0|done].
  - intros [Ho Hl]. eapply inverts_seq; [apply inverts_tag, byte_1|]. simpl.
    eapply inverts_seq; [by apply inverts_u64|].
    eapply inverts_checked; [apply inverts_u64; mlia|].
    unfold ByteRange_bounded. by rewrite (proj2 (Z.eqb_neq _ _)) by lia.
Qed.

Lemma inverts_producer p : producer_wf p -> inverts (put_producer p) decode_producer p.
Proof.
  destruct p as [[id epoch sequence]|]; simpl.
  - intros (Hi & He & Hs). eapply inverts_seq; [apply inverts_tag, byte_1|]. simpl.
    eapply (inverts_checked_seq _ _ _ ProducerId_new _ id id).
    { apply inverts_i64. width. }
    { unfold ProducerId_new. by rewrite (proj2 (Z.ltb_ge _ _)) by lia. }
    eapply (inverts_checked_seq _ _ _ ProducerEpoch_new _ epoch epoch).
    { apply inverts_bytes, reads_signed; [lia|width]. }
    { unfold ProducerEpoch_new. by rewrite (proj2 (Z.ltb_ge _ _)) by lia. }
    apply (inverts_last _ seg_i32 (fun x => Some (mkProducerIdentity id epoch x))).
    apply inverts_bytes, reads_signed; [lia|width].
  - intros _. apply inverts_bytes. eapply reads_check; [apply reads_byte, byte_0|done].
Qed.

Lemma inverts_span s : span_wf s -> inverts (encode_span s) decode_span s.
Proof.
  intros (Ht & Hp & Hc & Hb & Hpr). destruct s as [t p c b pr]; simpl in *.
  eapply inverts_seq; [by apply inverts_partition|]. eapply inverts_seq; [by apply inverts_u32|].
  eapply inverts_seq; [by apply inverts_range|].
  by apply (inverts_last _ decode_producer (mkCommittedSpan t p c b)), inverts_producer.
Qed.

(** The tag a record is written under selects its decoder. *)
Lemma inverts_selected {R} (sel : nat -> Z -> SegReader R) tag w (m : SegReader R) r :
  is_byte tag -> (forall at_, sel at_ tag = m) -> inverts w m r ->
  inverts (wr_bytes [tag] +> w) (fun buf at_ => (rd! t := seg_u8 in sel at_ t) buf at_) r.
Proof.
  intros Ht Hsel Hw out out' H1.
  assert (inverts (wr_bytes [tag] +> w) (rd! _ := seg_u8 in m) r) as Hm
    by (eapply inverts_seq; [by apply inverts_tag|done]).
  destruct (inverts_seq _ _ seg_u8 (fun t => sel 0%nat t) tag r
    (inverts_tag tag Ht) ltac:(by rewrite Hsel) _ _ H1) as (bs & -> & Hr).
  exists bs. split; [done|]. intros pre post. specialize (Hr pre post).
  rewrite <-Hr. unfold rd_bind.
  destruct (Hm _ _ H1) as (bs' & Heq & Hr'). apply app_inv_head in Heq. subst bs'.
  specialize (Hr' pre post). unfold rd_bind in Hr'.
  destruct (seg_u8 (pre ++ bs ++ post) (length pre)) as [[t at1]|e|] eqn:Hu; [|done..]. simpl in *.
  assert (t = tag) as ->; [|by rewrite !Hsel].
  unfold wr_seq, wr_bytes in H1. simpl in H1.
  destruct (Hw _ _ H1) as (bs2 & Hb2 & _). rewrite <-app_assoc in Hb2. apply app_inv_head in Hb2. subst bs.
  rewrite <-app_assoc in Hu. rewrite (reads_byte tag Ht) in Hu. by injection Hu.
Qed.

Lemma inverts_tagged tag w (m : SegReader MetadataRecord) r :
  is_byte tag -> (forall at_, record_decoder at_ tag = m) -> inverts w m r ->
  inverts (wr_bytes [tag] +> w) decode_record r.
Proof. apply (inverts_selected record_decoder). Qed.

Lemma byte_tag t : 0 <= t <= 6 -> is_byte t.
Proof. unfold is_byte. mlia. Qed.

Lemma inverts_record r : record_wf r -> inverts (encode_record r) decode_record r.
Proof.
  destruct r as [object spans at_|t k m u|t k ri ii|t k s|e|t [v|]]; simpl.
  - intros (Ho & Ha & Hs). unfold timestamp_wf in Ha. apply (inverts_tagged _ _ decode_batch); [by apply byte_tag|done|].
    eapply inverts_seq; [by apply inverts_key|].
    eapply (inverts_checked_seq _ _ _ Timestamp_from_millis _ at_ at_).
    { apply inverts_i64. width. }
    { unfold Timestamp_from_millis. by rewrite (proj2 (Z.ltb_ge _ _)) by lia. }
    eapply inverts_seq; [apply inverts_len32|]. rewrite Nat2Z.id.
    apply (inverts_last _ _ (fun l => BatchCommitted object l at_)), inverts_each.
    eapply Forall_impl; [exact Hs|]. apply inverts_span.
  - intros (Ht & Hk & Hm & Hu). apply (inverts_tagged _ _ decode_manifest); [by apply byte_tag|done|].
    eapply inverts_seq; [by apply inverts_partition|]. eapply inverts_seq; [by apply inverts_key|].
    by apply inverts_last, inverts_offset.
  - intros (Ht & Hk & Hr & Hi). apply (inverts_tagged _ _ decode_compacted); [by apply byte_tag|done|].
    eapply inverts_seq; [by apply inverts_partition|]. eapply inverts_seq; [by apply inverts_refs|].
    by apply inverts_last, inverts_refs.
  - intros (Ht & Hk & Hs). apply (inverts_tagged _ _ decode_trimmed); [by apply byte_tag|done|].
    eapply inverts_seq; [by apply inverts_partition|]. by apply inverts_last, inverts_offset.
  - intros He. apply (inverts_tagged _ _ decode_epoch); [by apply byte_tag|done|]. by apply inverts_last, inverts_u64.
  - intros (Ht & Hv). apply (inverts_tagged _ _ decode_retention); [by apply byte_tag|done|].
    eapply inverts_seq; [by apply inverts_topic|]. eapply inverts_seq; [apply inverts_tag, byte_1|].
    apply (inverts_last _ _ (TopicRetentionChanged t)), (inverts_last _ _ Some). by apply inverts_i64.
  - intros (Ht & _). apply (inverts_tagged _ _ decode_retention); [by apply byte_tag|done|].
    eapply inverts_seq; [by apply inverts_topic|]. apply inverts_bytes.
    eapply reads_check; [apply reads_byte, byte_0|done].
Qed.

Lemma inverts_entry e : entry_wf e -> inverts (encode_entry e) decode_entry e.
Proof.
  intros [Hv Hr]. destruct e as [v r]; simpl in *. eapply inverts_seq; [by apply inverts_u64|].
  by apply (inverts_last _ _ (mkMetadataEntry v)), inverts_record.
Qed.

Lemma decode_encode_segment entries buf :
  Forall entry_wf entries -> encode_segment entries = Ok buf -> decode_segment buf = Ok entries.
Proof.
  intros Hes Henc. unfold encode_segment in Henc.
  assert (inverts (wr_bytes SEGMENT_MAGIC +> wr_bytes [SEGMENT_FORMAT] +>
    put_len32 (length entries) +> wr_each encode_entry entries) decode_entries entries) as Hinv.
  { eapply inverts_seq; [apply inverts_bytes, (reads_take SEGMENT_MAGIC)|]. simpl.
    eapply inverts_seq; [by apply inverts_tag, byte_1|]. simpl.
    apply inverts_counted. eapply Forall_impl; [exact Hes|]. apply inverts_entry. }
  destruct (Hinv _ _ Henc) as (bs & -> & Hr). specialize (Hr [] []).
  rewrite !app_nil_l, app_nil_r in *. change (length (@nil Z)) with 0%nat in Hr.
  unfold decode_segment. rewrite Hr. simpl.
  by rewrite Nat.eqb_refl.
Qed.

(** The encoders never reach their [unreachable!] arms. *)
Lemma wr_each_no_panic {A} (f : A -> SegWriter) l out :
  (forall a out, f a out <> Panic) -> wr_each f l out <> Panic.
Proof.
  intros Hf. revert out. induction l as [|a l IH]; intros out; unfold wr_each; simpl; [done|].
  specialize (Hf a out). destruct (f a out); simpl; [apply IH|done|done].
Qed.

Lemma wr_seq_no_panic (w1 w2 : SegWriter) out :
  w1 out <> Panic -> (forall out, w2 out <> Panic) -> (w1 +> w2) out <> Panic.
Proof. unfold wr_seq. intros H1 H2. destruct (w1 out); simpl; [apply H2|done|done]. Qed.

Ltac no_panic :=
  repeat (intros; first
    [ done | apply wr_seq_no_panic | apply wr_each_no_panic
    | progress unfold put_str, put_len32, put_partition, put_ref, put_refs, encode_span
    | case_match ]).

Lemma encode_record_no_panic r out : encode_record r out <> Panic.
Proof.
  destruct r as [object spans at_|t k m u|t k ri ii|t k s|e|t [v|]]; simpl; unfold encode_batch;
    no_panic; unfold put_byte_range, put_producer; no_panic.
Qed.

Lemma encode_segment_no_panic entries : encode_segment entries <> Panic.
Proof.
  unfold encode_segment, encode_entry. no_panic. apply encode_record_no_panic.
Qed.

(** The segment format round-trips: whatever the encoder accepts, of
    entries whose fields are what the types allow, decodes to those entries. *)
Theorem segment_round_trip entries buf :
  Forall entry_wf entries -> encode_segment entries = Ok buf -> decode_segment buf = Ok entries.
Proof. apply decode_encode_segment. Qed.

(** ** No two segments begin alike *)

Lemma prefix_safe_take len : prefix_safe (seg_take len).
Proof.
  intros buf ext at_ a at'. unfold seg_take. destruct (_ <=? _)%nat eqn:Hle; [|done].
  apply Nat.leb_le in Hle. intros [= <- <-].
  rewrite (proj2 (Nat.leb_le _ _)) by (rewrite length_app; lia).
  rewrite drop_app_le by lia. rewrite take_app_le by (rewrite length_drop; lia). done.
Qed.

Lemma prefix_safe_malformed {A} : prefix_safe (@seg_malformed A).
Proof. by intros ? ? ? ? ?. Qed.

Lemma prefix_safe_checked {A} (v : Res A) : prefix_safe (seg_checked v).
Proof. destruct v; [apply prefix_safe_ret|by intros ? ? ? ? ?..]. Qed.

Lemma prefix_safe_if {A} (b : bool) (m1 m2 : SegReader A) :
  prefix_safe m1 -> prefix_safe m2 -> prefix_safe (if b then m1 else m2).
Proof. by destruct b. Qed.

#[export] Hint Resolve prefix_safe_take prefix_safe_malformed prefix_safe_checked : codec.

(** Walk a reader built of the primitives. *)
Ltac safe :=
  repeat (intros; first
    [ solve [auto with codec] | apply prefix_safe_bind | apply prefix_safe_if
    | apply prefix_safe_times | match goal with |- context [let '_ := ?p in _] => destruct p end ]).

Lemma prefix_safe_string : prefix_safe seg_string.
Proof. unfold seg_string, seg_u16. safe. Qed.

Lemma prefix_safe_partition : prefix_safe seg_partition.
Proof.
  unfold seg_partition, seg_topic, seg_i32. pose proof prefix_safe_string. safe.
Qed.

Lemma prefix_safe_refs : prefix_safe seg_refs.
Proof.
  unfold seg_refs, seg_ref, seg_key, seg_offset, cur_i64, seg_u32.
  pose proof prefix_safe_string. safe.
Qed.

Lemma prefix_safe_span : prefix_safe decode_span.
Proof.
  unfold decode_span, decode_byte_range, decode_producer, seg_u8, seg_u32, seg_u64, cur_i64,
    seg_i16, seg_i32.
  pose proof prefix_safe_partition. safe.
Qed.

Lemma prefix_safe_record : prefix_safe decode_record.
Proof.
  assert (forall n tag, prefix_safe (record_decoder n tag)) as Hdec.
  { intros n tag. unfold record_decoder, decode_batch, decode_manifest, decode_compacted,
      decode_trimmed, decode_epoch, decode_retention, seg_key, seg_topic, seg_offset, cur_i64, seg_u8,
      seg_u32, seg_u64.
    pose proof prefix_safe_string. pose proof prefix_safe_partition. pose proof prefix_safe_refs.
    pose proof prefix_safe_span. safe. by intros ? ? ? ? ?. }
  intros buf ext at_ a at'. apply prefix_safe_bind; [unfold seg_u8; safe|done].
Qed.

Lemma prefix_safe_entries : prefix_safe decode_entries.
Proof.
  unfold decode_entries, decode_entry, seg_u8, seg_u32, seg_u64.
  pose proof prefix_safe_record. safe.
Qed.

(** A reader that starts inside the buffer ends inside it. *)
Lemma decode_segment_consumes buf entries :
  decode_segment buf = Ok entries -> decode_entries buf 0%nat = Ok (entries, length buf).
Proof.
  unfold decode_segment. intros ([es at_] & Hd & Hat)%res_bind_Ok.
  destruct (_ =? _)%nat eqn:He; [|done]. apply Nat.eqb_eq in He. injection Hat as <-. by subst at_.
Qed.

(** A segment is unambiguous: when a buffer decodes, no proper prefix of
    it decodes, so a truncated segment is refused, and so is one with bytes
    after its end. *)
Theorem segment_truncation_refused buf ext entries :
  decode_segment (buf ++ ext) = Ok entries -> ext <> [] ->
  forall entries', decode_segment buf <> Ok entries'.
Proof.
  intros Hfull Hext entries' Hpre. apply decode_segment_consumes in Hfull, Hpre.
  apply (prefix_safe_entries _ ext) in Hpre. rewrite Hpre in Hfull. injection Hfull as _ Hlen.
  rewrite length_app in Hlen. destruct ext; [done|]. simpl in Hlen. lia.
Qed.

(** ** A segment with every record *)

Definition demo_entries : list MetadataEntry :=
  [ mkMetadataEntry 10 (BatchCommitted "obj-1"
      [ mkCommittedSpan "orders" 3 5 Full None;
        mkCommittedSpan "orders" 3 2 (Bounded 10 20) (Some (mkProducerIdentity 42 7 (-1))) ]
      1700000000000);
    mkMetadataEntry 11 (ManifestPublished "orders" 3 "manifest-1" 7);
    mkMetadataEntry 12 (RangeCompacted "orders" 3
      [mkObjectRef "a" 0 3; mkObjectRef "b" 3 4] [mkObjectRef "merged" 0 7]);
    mkMetadataEntry 13 (Trimmed "orders" 3 4);
    mkMetadataEntry 14 (EpochChanged 9);
    mkMetadataEntry 15 (TopicRetentionChanged "orders" (Some 900000)) ].

Definition demo_segment : bytes :=
  match encode_segment demo_entries with Ok b => b | _ => [] end.

Lemma segment_round_trip_witness : decode_segment demo_segment = Ok demo_entries.
Proof.
  apply (segment_round_trip demo_entries demo_segment).
  - vm_decide.
  - vm_compute; reflexivity.
Defined.

Lemma segment_truncation_refused_witness :
  decode_segment (take 100 demo_segment) <> Ok (take 2 demo_entries).
Proof.
  apply (segment_truncation_refused (take 100 demo_segment) (drop 100 demo_segment) demo_entries).
  - rewrite take_drop. vm_compute; reflexivity.
  - vm_compute. discriminate.
Defined.
