(* ===== verification/Nonce.v ===== *)
(** * Nonce: an encryption nonce is never used twice

    Models [oqueue-core/src/nonce.rs]: a writer's minter hands out one source
    per object, a source one nonce per region, and a nonce is the writer's
    epoch, the object's sequence and the region's index in twelve bytes. *)

From stdpp Require Import base tactics list numbers gmap.
From Stdlib Require Import ZArith Lia.
From S2P Require Import Prelude Bytes Types Segment.

Open Scope Z_scope.

Definition MAX_WRITER_EPOCH : Z := 2 ^ 40 - 1.
Definition MAX_OBJECT_SEQUENCE : Z := 2 ^ 40 - 1.
Definition MAX_REGION_INDEX : Z := 2 ^ 16 - 1.

Record NonceMinter : Type := mkNonceMinter { nm_writer_epoch : Z; nm_next_object : Z }.

Definition NonceMinter_new (writer_epoch : Z) : Res NonceMinter :=
  if MAX_WRITER_EPOCH <? writer_epoch then Err (NonceWriterEpochOutOfRange writer_epoch)
  else Ok (mkNonceMinter writer_epoch 0).

Record NonceSource : Type := mkNonceSource { ns_writer_epoch : Z; ns_object_sequence : Z; ns_next_region : Z }.

Definition NonceSource_new (writer_epoch object_sequence : Z) : NonceSource := mkNonceSource writer_epoch object_sequence 0.

Definition next_object (self : NonceMinter) : Res (NonceMinter * NonceSource) :=
  let object_sequence := nm_next_object self in
  if MAX_OBJECT_SEQUENCE <? object_sequence then Err (NonceObjectSequenceOutOfRange object_sequence)
  else Ok (mkNonceMinter (nm_writer_epoch self) (object_sequence + 1),
           NonceSource_new (nm_writer_epoch self) object_sequence).

(** The low five bytes of the epoch, the low five of the sequence, the low two
    of the index. *)
Definition nonce_bytes (epoch sequence region : Z) : bytes :=
  drop 3 (be_bytes 8 epoch) ++ drop 3 (be_bytes 8 sequence) ++ drop 2 (be_bytes 4 region).

Definition for_region (self : NonceSource) (region_index : Z) : Res (NonceSource * bytes) :=
  if MAX_REGION_INDEX <? region_index then Err (NonceRegionOutOfRange region_index)
  else if negb (region_index =? ns_next_region self) then Err (NonceRegionOutOfOrder (ns_next_region self) region_index)
  else Ok (mkNonceSource (ns_writer_epoch self) (ns_object_sequence self) (region_index + 1),
           nonce_bytes (ns_writer_epoch self) (ns_object_sequence self) region_index).

(** ** Runs

    Any number of minters, each with its own epoch, and any number of sources
    taken from them, used in any order. *)

Inductive NonceOp : Type :=
| OpNewMinter (epoch : Z)
| OpNextObject (minter : nat)
| OpForRegion (source : nat) (region_index : Z).

Record NonceWorld : Type := mkNonceWorld {
  nw_minters : list NonceMinter;
  nw_sources : list NonceSource;
  nw_minted : list bytes;
}.

(** An operation that is refused changes nothing. *)
Definition nonce_step (w : NonceWorld) (op : NonceOp) : NonceWorld :=
  match op with
  | OpNewMinter epoch =>
      match NonceMinter_new epoch with
      | Ok m => mkNonceWorld (nw_minters w ++ [m]) (nw_sources w) (nw_minted w)
      | _ => w
      end
  | OpNextObject i =>
      match nw_minters w !! i with
      | Some m =>
          match next_object m with
          | Ok (m, s) => mkNonceWorld (<[i := m]> (nw_minters w)) (nw_sources w ++ [s]) (nw_minted w)
          | _ => w
          end
      | None => w
      end
  | OpForRegion i region_index =>
      match nw_sources w !! i with
      | Some s =>
          match for_region s region_index with
          | Ok (s, n) => mkNonceWorld (nw_minters w) (<[i := s]> (nw_sources w)) (nw_minted w ++ [n])
          | _ => w
          end
      | None => w
      end
  end.

Definition nonce_run (ops : list NonceOp) : NonceWorld := foldl nonce_step (mkNonceWorld [] [] []) ops.

(** The epochs the run opens minters with. *)
Definition epochs_of (ops : list NonceOp) : list Z :=
  omap (fun op => match op with OpNewMinter epoch => Some epoch | _ => None end) ops.

(** ** The twelve bytes determine the three numbers *)

Lemma drop_be_bytes n k v : (k <= n)%nat -> drop k (be_bytes n v) = be_bytes (n - k) v.
Proof.
  revert n. induction k as [|k IH]; intros n Hle; [by rewrite Nat.sub_0_r|].
  destruct n as [|n]; [lia|]. change (be_bytes (S n) v) with ((v / 256 ^ Z.of_nat n) mod 256 :: be_bytes n v).
  simpl. apply IH. lia.
Qed.

Lemma be_bytes_inj n v w : 0 <= v < 256 ^ Z.of_nat n -> 0 <= w < 256 ^ Z.of_nat n -> be_bytes n v = be_bytes n w -> v = w.
Proof. intros Hv Hw Heq. rewrite <-(from_be_be n v), <-(from_be_be n w) by done. by rewrite Heq. Qed.

Lemma nonce_bytes_inj e1 s1 r1 e2 s2 r2 :
  0 <= e1 <= MAX_WRITER_EPOCH -> 0 <= e2 <= MAX_WRITER_EPOCH ->
  0 <= s1 <= MAX_OBJECT_SEQUENCE -> 0 <= s2 <= MAX_OBJECT_SEQUENCE ->
  0 <= r1 <= MAX_REGION_INDEX -> 0 <= r2 <= MAX_REGION_INDEX ->
  nonce_bytes e1 s1 r1 = nonce_bytes e2 s2 r2 -> e1 = e2 /\ s1 = s2 /\ r1 = r2.
Proof.
  unfold MAX_WRITER_EPOCH, MAX_OBJECT_SEQUENCE, MAX_REGION_INDEX, nonce_bytes. rewrite !drop_be_bytes by lia. simpl Nat.sub.
  intros He1 He2 Hs1 Hs2 Hr1 Hr2 Heq.
  apply app_inj_1 in Heq as [Ha Heq]; [|by rewrite !be_bytes_length].
  apply app_inj_1 in Heq as [Hb Hc]; [|by rewrite !be_bytes_length].
  change (256 ^ Z.of_nat 5) with (2 ^ 40). split_and!; eapply be_bytes_inj; eauto;
    change (256 ^ Z.of_nat 5) with (2 ^ 40); change (256 ^ Z.of_nat 2) with (2 ^ 16); lia.
Qed.

(** ** The invariant of a run *)

(** The minted nonces are those of the sources, each up to its next region. *)
Definition minted_by (s : NonceSource) (n : bytes) : Prop :=
  exists r, 0 <= r < ns_next_region s /\ n = nonce_bytes (ns_writer_epoch s) (ns_object_sequence s) r.

Record nonce_inv (epochs : list Z) (w : NonceWorld) : Prop := {
  ni_epochs : forall e, e ∈ map nm_writer_epoch (nw_minters w) -> e ∈ epochs;
  ni_distinct : NoDup (map nm_writer_epoch (nw_minters w));
  ni_minters : Forall (fun m => 0 <= nm_writer_epoch m <= MAX_WRITER_EPOCH /\ 0 <= nm_next_object m <= MAX_OBJECT_SEQUENCE + 1)
    (nw_minters w);
  ni_sources : Forall (fun s => 0 <= ns_object_sequence s <= MAX_OBJECT_SEQUENCE /\ 0 <= ns_next_region s <= MAX_REGION_INDEX + 1 /\
    exists i m, nw_minters w !! i = Some m /\ nm_writer_epoch m = ns_writer_epoch s /\ ns_object_sequence s < nm_next_object m)
    (nw_sources w);
  ni_objects : NoDup (map (fun s => (ns_writer_epoch s, ns_object_sequence s)) (nw_sources w));
  ni_minted : forall n, n ∈ nw_minted w -> exists s, s ∈ nw_sources w /\ minted_by s n;
  ni_unique : NoDup (nw_minted w);
}.

Lemma map_insert_same {A B} (f : A -> B) (l : list A) i x y :
  l !! i = Some x -> f y = f x -> map f (<[i := y]> l) = map f l.
Proof.
  intros Hi Hf. change (f <$> <[i := y]> l = f <$> l). rewrite list_fmap_insert, Hf. apply list_insert_id.
  by rewrite list_lookup_fmap, Hi.
Qed.

Lemma NoDup_map_inj {A B} (f : A -> B) (l : list A) i j x y :
  NoDup (map f l) -> l !! i = Some x -> l !! j = Some y -> f x = f y -> i = j.
Proof.
  intros Hnd Hi Hj Hf. eapply (NoDup_lookup (f <$> l)); [done|by rewrite list_lookup_fmap, Hi|].
  by rewrite list_lookup_fmap, Hj, Hf.
Qed.

Lemma inv_new_minter epochs w epoch :
  nonce_inv epochs w -> epoch ∉ epochs -> 0 <= epoch ->
  nonce_inv (epochs ++ [epoch]) (nonce_step w (OpNewMinter epoch)).
Proof.
  intros [H1 H2 H3 H4 H5 H6 H7] Hne H0. simpl. unfold NonceMinter_new.
  destruct (_ <? epoch) eqn:He; simpl.
  { split; try done. intros e ?. apply elem_of_app. left. by apply H1. }
  zbool. split; simpl; try done.
  - rewrite map_app. simpl. set_solver.
  - rewrite map_app. apply NoDup_app. split_and!; [done| |apply NoDup_singleton].
    intros e Hin ->%list_elem_of_singleton. by apply Hne, H1.
  - apply Forall_app. split; [done|]. constructor; [|constructor]. simpl. unfold MAX_OBJECT_SEQUENCE. lia.
  - eapply Forall_impl; [exact H4|]. simpl. intros s (Ha & Hb & i & m & Hi & Hm). split_and!; [lia|lia|lia|lia|].
    exists i, m. split; [|done]. by apply lookup_app_l_Some.
Qed.

Lemma inv_next_object epochs w i : nonce_inv epochs w -> nonce_inv epochs (nonce_step w (OpNextObject i)).
Proof.
  intros [H1 H2 H3 H4 H5 H6 H7]. simpl. destruct (nw_minters w !! i) as [m|] eqn:Hi; [|by split].
  unfold next_object. destruct (_ <? _) eqn:Ho; simpl; [by split|]. zbool.
  set (m' := mkNonceMinter (nm_writer_epoch m) (nm_next_object m + 1)).
  assert (map nm_writer_epoch (<[i := m']> (nw_minters w)) = map nm_writer_epoch (nw_minters w)) as Hmap
    by (by eapply map_insert_same).
  pose proof (proj1 (Forall_lookup _ _) H3 i m Hi) as [He Hn].
  assert (i < length (nw_minters w))%nat as Hlt by (by eapply lookup_lt_Some).
  split; simpl; rewrite ?Hmap; try done.
  - apply Forall_insert; [done|]. simpl. lia.
  - apply Forall_app. split.
    + eapply Forall_impl; [exact H4|]. simpl. intros s (Ha & Hb & j & mj & Hj & Hm & Hs). split_and!; [lia|lia|lia|lia|].
      destruct (decide (i = j)) as [<-|Hij].
      * exists i, m'. rewrite list_lookup_insert_eq by done. simplify_eq. split_and!; [done|done|simpl; lia].
      * exists j, mj. by rewrite list_lookup_insert_ne.
    + constructor; [|constructor]. simpl. unfold MAX_REGION_INDEX. split_and!; [lia|lia|lia|lia|].
      exists i, m'. rewrite list_lookup_insert_eq by done. split_and!; [done|done|simpl; lia].
  - rewrite map_app. apply NoDup_app. split_and!; [done| |apply NoDup_singleton].
    intros x Hx ->%list_elem_of_singleton. apply list_elem_of_fmap_1 in Hx as (s & Heq & (k & Hk)%list_elem_of_lookup_1).
    simpl in Heq. injection Heq as Hee Hss. pose proof (proj1 (Forall_lookup _ _) H4 k s Hk) as (_ & _ & j & mj & Hj & Hm & Hs).
    assert (i = j) as <- by (eapply (NoDup_map_inj nm_writer_epoch); eauto; congruence). simplify_eq. lia.
  - intros n Hn0. destruct (H6 n Hn0) as (s & Hs & Hmb). exists s. split; [set_solver|done].
Qed.

Lemma inv_for_region epochs w i r : 0 <= r -> nonce_inv epochs w -> nonce_inv epochs (nonce_step w (OpForRegion i r)).
Proof.
  intros H0 [H1 H2 H3 H4 H5 H6 H7]. simpl. destruct (nw_sources w !! i) as [s|] eqn:Hi; [|by split].
  unfold for_region. destruct (_ <? r) eqn:Hr; simpl; [by split|].
  destruct (r =? _) eqn:Hn; simpl; [|by split]. zbool. subst r.
  set (s' := mkNonceSource (ns_writer_epoch s) (ns_object_sequence s) (ns_next_region s + 1)).
  set (key := fun s => (ns_writer_epoch s, ns_object_sequence s)).
  assert (map key (<[i := s']> (nw_sources w)) = map key (nw_sources w)) as Hmap by (by eapply map_insert_same).
  pose proof (proj1 (Forall_lookup _ _) H4 i s Hi) as (Hs & Hnr & Hex).
  assert (i < length (nw_sources w))%nat as Hlt by (by eapply lookup_lt_Some).
  assert (s' ∈ <[i := s']> (nw_sources w)) as Hin' by (eapply list_elem_of_lookup_2; by apply list_lookup_insert_eq).
  assert (forall t, t ∈ nw_sources w -> 0 <= ns_writer_epoch t <= MAX_WRITER_EPOCH /\ 0 <= ns_object_sequence t <= MAX_OBJECT_SEQUENCE
    /\ ns_next_region t <= MAX_REGION_INDEX + 1) as Hbd.
  { intros t (k & Hk)%list_elem_of_lookup_1.
    pose proof (proj1 (Forall_lookup _ _) H4 k t Hk) as (Ha & Hb & j & mj & Hj & Hm & _).
    pose proof (proj1 (Forall_lookup _ _) H3 j mj Hj) as [Hme _]. rewrite Hm in Hme. auto with lia. }
  split; simpl; rewrite ?Hmap; try done.
  - apply Forall_insert; [done|]. simpl. split_and!; [lia|lia|lia|lia|done].
  - change (NoDup (map key (<[i := s']> (nw_sources w)))). by rewrite Hmap.
  - intros n [Hn0| ->%list_elem_of_singleton]%elem_of_app.
    + destruct (H6 n Hn0) as (t & (k & Hk)%list_elem_of_lookup_1 & (r & Hr0 & ->)). destruct (decide (i = k)) as [<-|Hik].
      * exists s'. split; [done|]. simplify_eq. exists r. simpl. split; [lia|done].
      * exists t. split; [|by exists r]. eapply list_elem_of_lookup_2. by rewrite list_lookup_insert_ne.
    + exists s'. split; [done|]. exists (ns_next_region s). simpl. split; [lia|done].
  - apply NoDup_app. split_and!; [done| |apply NoDup_singleton]. intros n Hn0 ->%list_elem_of_singleton.
    destruct (H6 _ Hn0) as (t & Ht & (r & Hr0 & Heq)). pose proof (Hbd t Ht) as (B1 & B2 & B3).
    pose proof (Hbd s ltac:(by eapply list_elem_of_lookup_2)) as (C1 & C2 & C3).
    apply nonce_bytes_inj in Heq as (E1 & E2 & E3); [|lia..].
    apply list_elem_of_lookup_1 in Ht as (k & Hk).
    assert (i = k) as <- by (eapply (NoDup_map_inj key); eauto; unfold key; by rewrite E1, E2). simplify_eq. lia.
Qed.

(** Region indices are [u32]s, epochs [u64]s. *)
Definition op_wf (op : NonceOp) : Prop :=
  match op with OpNewMinter epoch => 0 <= epoch | OpForRegion _ r => 0 <= r | _ => True end.

(** C29. A nonce is never minted twice: whatever minters are opened, with
    distinct epochs, and in whatever order their objects are taken and the
    regions of those objects asked for, repeated and out-of-order requests
    included, all nonces handed out are different. *)
Theorem nonces_never_repeat (ops : list NonceOp) :
  Forall op_wf ops -> NoDup (epochs_of ops) -> NoDup (nw_minted (nonce_run ops)).
Proof.
  intros Hwf Hnd. enough (nonce_inv (epochs_of ops) (nonce_run ops)) as Hi by apply Hi.
  induction ops as [|op ops IH] using rev_ind.
  - split; simpl; try constructor; try set_solver.
  - apply Forall_app in Hwf as [Hwf [Hop _]%Forall_cons]. unfold epochs_of in *. rewrite omap_app in *.
    apply NoDup_app in Hnd as (Hnd & Hdis & _). specialize (IH Hwf Hnd).
    unfold nonce_run in *. rewrite foldl_app. simpl in *. destruct op as [epoch|i|i r]; simpl in Hdis.
    + apply inv_new_minter; [done|set_solver|done].
    + rewrite app_nil_r. by apply inv_next_object.
    + rewrite app_nil_r. by apply inv_for_region.
Qed.

Definition demo_ops : list NonceOp :=
  [OpNewMinter 3; OpNextObject 0; OpForRegion 0 0; OpForRegion 0 0; OpNewMinter 4; OpNextObject 1; OpForRegion 1 0;
   OpNextObject 0; OpForRegion 2 0; OpForRegion 0 1].

Lemma nonces_never_repeat_witness : length (nw_minted (nonce_run demo_ops)) = 4%nat /\ NoDup (nw_minted (nonce_run demo_ops)).
Proof.
  split; [vm_compute; reflexivity|]. apply nonces_never_repeat; [|vm_decide].
  unfold demo_ops. repeat constructor; simpl; lia.
Defined.
