(* ===== verification/Bundle.v ===== *)
(** * Bundle: the objects that hold records

    Models [oqueue-core]'s [bundle.rs] with [bundle/alg.rs] and
    [bundle/encode.rs] (building a bundle), [bundle_footer.rs] (reading its
    footer back), [bundle_stream.rs] (the same object written in parts),
    [bundle_name.rs], [key.rs]'s key ids, [region_envelope.rs], [key_domain.rs]
    and [region_resealer.rs].

    A redacted value is its bytes.  [usize] and [u64] are both 64 bits wide, so
    [as u64] changes nothing. *)


From stdpp Require Import base tactics list numbers strings.
From Stdlib Require Import ZArith Lia.
From stdpp Require Import gmap.
From S2P Require Import Prelude Types Bytes Segment SegmentProps.
From S2P Require Import Store Machine.

Open Scope Z_scope.

(** ** The cursor

    Models [oqueue-core/src/cursor.rs], which the composite and the partition
    manifest are read with, and the cursor [bundle_footer.rs] keeps of its own:
    the two read alike and differ in the error a short buffer gives, which is
    the parameter [malformed]. *)

Section cursor.
Context (malformed : Z -> Error).

Definition cu_malformed {A} : Reader Error A := fun _ at_ => Err (malformed (Z.of_nat at_)).

(** [at.checked_add(n)], then [bytes.get(at..end)]: a length that overflows is
    refused as one past the end is. *)
Definition cu_take (n : Z) : Reader Error bytes := fun buf at_ =>
  if Z.of_nat at_ + n <=? Z.of_nat (length buf)
  then Ok (take (Z.to_nat n) (drop at_ buf), (at_ + Z.to_nat n)%nat)
  else Err (malformed (Z.of_nat at_)).

Definition cu_u16 : Reader Error Z := rd! b := cu_take 2 in rd_ret (from_be b).
Definition cu_u32 : Reader Error Z := rd! b := cu_take 4 in rd_ret (from_be b).
Definition cu_u64 : Reader Error Z := rd! b := cu_take 8 in rd_ret (from_be b).
Definition cu_i64 : Reader Error Z := rd! b := cu_take 8 in rd_ret (from_be_signed 8 b).
Definition cu_byte : Reader Error Z := rd! b := cu_take 1 in rd_ret (from_be b).

(** The error names where the string begins. *)
Definition cu_string (len : Z) : Reader Error string := fun buf at_ =>
  (rd! raw := cu_take len in
   if utf8_valid raw then rd_ret (of_bytes raw) else fun _ _ => Err (malformed (Z.of_nat at_))) buf at_.

(** A constructor's own refusal, passed on by [?]. *)
Definition cu_lift {A} (value : Res A) : Reader Error A := fun _ at_ => let? a := value in Ok (a, at_).

(** ** What the writers emit is read back *)

Lemma reads_cu_take n bs : n = Z.of_nat (length bs) -> reads (cu_take n) bs bs.
Proof.
  intros -> pre post. unfold cu_take.
  rewrite (proj2 (Z.leb_le _ _)) by (rewrite !length_app; lia).
  by rewrite Nat2Z.id, drop_app_length, take_app_length.
Qed.

Lemma reads_cu_unsigned n v :
  0 <= v < 256 ^ Z.of_nat n ->
  reads (rd! b := cu_take (Z.of_nat n) in rd_ret (from_be b)) (be_bytes n v) v.
Proof.
  intros Hv. eapply reads_check; [apply reads_cu_take; by rewrite be_bytes_length|].
  intros buf at_. by rewrite from_be_be.
Qed.

Lemma inverts_cu_u16 v : 0 <= v <= u16_max -> inverts (wr_bytes (be_bytes 2 v)) cu_u16 v.
Proof. intros. apply inverts_bytes, (reads_cu_unsigned 2). width. Qed.
Lemma inverts_cu_u32 v : in_u32 v -> inverts (wr_bytes (be_bytes 4 v)) cu_u32 v.
Proof. intros. apply inverts_bytes, (reads_cu_unsigned 4). width. Qed.
Lemma inverts_cu_u64 v : in_u64 v -> inverts (wr_bytes (be_bytes 8 v)) cu_u64 v.
Proof. intros. apply inverts_bytes, (reads_cu_unsigned 8). width. Qed.

Lemma inverts_cu_i64 v : i64_wf v -> inverts (wr_bytes (be_signed 8 v)) cu_i64 v.
Proof.
  intros Hv. apply inverts_bytes. eapply reads_check.
  - apply reads_cu_take. unfold be_signed. by rewrite be_bytes_length.
  - intros buf at_. rewrite from_be_be_signed; [done|lia|width].
Qed.

Lemma inverts_cu_byte b : is_byte b -> inverts (wr_bytes [b]) cu_byte b.
Proof. intros. apply inverts_bytes. by eapply reads_check; [apply reads_cu_take|]. Qed.

Lemma reads_cu_string s :
  is_str s -> reads (cu_string (Z.of_nat (length (as_bytes s)))) (as_bytes s) s.
Proof.
  intros Hs pre post. unfold cu_string, rd_bind.
  rewrite reads_cu_take by done. simpl. by rewrite Hs, of_as_bytes.
Qed.

Lemma inverts_cu_lift {A B} w (m : Reader Error A) (f : A -> Res B) a b :
  inverts w m a -> f a = Ok b -> inverts w (rd! x := m in cu_lift (f x)) b.
Proof.
  intros Hw Hf out out' H1. destruct (Hw _ _ H1) as (bs & -> & Hr). exists bs. split; [done|].
  eapply reads_check; [done|]. intros buf at_. unfold cu_lift. by rewrite Hf.
Qed.
End cursor.

(** ** Algorithms, keys and envelopes *)

Inductive RegionAlg : Type := AlgNone | Aes256Gcm.
#[export] Instance RegionAlg_eq_dec : EqDecision RegionAlg.
Proof. solve_decision. Defined.

Definition RegionAlg_code (self : RegionAlg) : Z := match self with AlgNone => 0 | Aes256Gcm => 1 end.
Definition RegionAlg_from_code (code : Z) : Res RegionAlg :=
  if code =? 0 then Ok AlgNone else if code =? 1 then Ok Aes256Gcm else Err (UnknownRegionAlg code).

Definition MAX_KEY_ID_LEN : Z := u16_max.

Definition is_ascii_graphic (b : Z) : bool := (33 <=? b) && (b <=? 126).

Definition KeyId_new (id : string) : Res string :=
  if decide (id = EmptyString) then Err EmptyKeyId
  else if MAX_KEY_ID_LEN <? Z.of_nat (length (as_bytes id))
  then Err (InvalidKeyId "exceeds the maximum encoded length")
  else if negb (forallb is_ascii_graphic (as_bytes id))
  then Err (InvalidKeyId "contains a non-printable ASCII character")
  else Ok id.

Definition MAX_WRAPPED_DEK_LEN : Z := 8192.
Definition NONCE_BYTES : nat := 12.

Record RegionEnvelope : Type := mkRegionEnvelope {
  re_key_id : string;
  re_wrapped_dek : bytes;
  re_nonce : bytes;
}.
#[export] Instance RegionEnvelope_eq_dec : EqDecision RegionEnvelope.
Proof. solve_decision. Defined.

Definition RegionEnvelope_new (key_id : string) (wrapped_dek nonce : bytes) : Res RegionEnvelope :=
  let id_len := Z.of_nat (length (as_bytes key_id)) in
  let wrapped_len := Z.of_nat (length wrapped_dek) in
  if MAX_KEY_ID_LEN <? id_len then Err (RegionEnvelopeLength "key id" id_len)
  else if (wrapped_len =? 0) || (MAX_WRAPPED_DEK_LEN <? wrapped_len)
  then Err (RegionEnvelopeLength "wrapped data encryption key" wrapped_len)
  else Ok (mkRegionEnvelope key_id wrapped_dek nonce).

Record SealedRegion : Type := mkSealedRegion {
  sr_bytes : bytes;
  sr_alg : RegionAlg;
  sr_envelope : RegionEnvelope;
}.

(** ** Regions and the builder *)

Definition BUNDLE_FORMAT_VERSION : Z := 1.
Definition TRAILER_LEN : Z := 9.
Definition MAX_TOPIC_NAME_LEN : Z := u16_max.

Record Region : Type := mkRegion {
  rg_topic : TopicId;
  rg_partition : PartitionId;
  rg_bytes : ByteRange;
  rg_record_count : Z;
  rg_alg : RegionAlg;
  rg_envelope : option RegionEnvelope;
}.

Record PushedRecords : Type := mkPushedRecords { pr_count : Z; pr_producer : option ProducerIdentity }.

Record BundleBuilder : Type := mkBundleBuilder {
  bb_payload : bytes;
  bb_regions : list Region;
  bb_producers : list (option ProducerIdentity);
}.

Definition BundleBuilder_new : BundleBuilder := mkBundleBuilder [] [] [].

Definition bundle_admissible (topic : TopicId) (record_count : Z) : Res unit :=
  if MAX_TOPIC_NAME_LEN <? Z.of_nat (length (as_bytes topic)) then Err BundleTooLarge
  else if record_count =? 0 then Err EmptyRegion
  else Ok tt.

Definition bb_push (self : BundleBuilder) (topic : TopicId) (partition : PartitionId) (pushed : PushedRecords)
    (records : bytes) : Res BundleBuilder :=
  let? _ := bundle_admissible topic (pr_count pushed) in
  let? range := ByteRange_bounded (Z.of_nat (length (bb_payload self))) (Z.of_nat (length records)) in
  Ok (mkBundleBuilder (bb_payload self ++ records)
    (bb_regions self ++ [mkRegion topic partition range (pr_count pushed) AlgNone None])
    (bb_producers self ++ [pr_producer pushed])).

Definition bb_push_sealed (self : BundleBuilder) (topic : TopicId) (partition : PartitionId) (pushed : PushedRecords)
    (sealed : SealedRegion) : Res BundleBuilder :=
  let? _ := bundle_admissible topic (pr_count pushed) in
  if decide (sr_alg sealed = AlgNone) then Err RegionNotEncrypted
  else
    let? range := ByteRange_bounded (Z.of_nat (length (bb_payload self))) (Z.of_nat (length (sr_bytes sealed))) in
    Ok (mkBundleBuilder (bb_payload self ++ sr_bytes sealed)
      (bb_regions self ++ [mkRegion topic partition range (pr_count pushed) (sr_alg sealed) (Some (sr_envelope sealed))])
      (bb_producers self ++ [pr_producer pushed])).

(** The position is the stream's; the payload is not kept. *)
Definition bb_push_streamed (self : BundleBuilder) (topic : TopicId) (partition : PartitionId) (pushed : PushedRecords)
    (offset length : Z) : Res BundleBuilder :=
  let? _ := bundle_admissible topic (pr_count pushed) in
  let? range := ByteRange_bounded offset length in
  Ok (mkBundleBuilder (bb_payload self)
    (bb_regions self ++ [mkRegion topic partition range (pr_count pushed) AlgNone None])
    (bb_producers self ++ [pr_producer pushed])).

(** ** The footer ([bundle/encode.rs]) *)

(** A name behind a [u16] length. *)
Definition put_name (name : string) : Writer Error := fun out =>
  let raw := as_bytes name in
  if Z.of_nat (length raw) <=? u16_max then Ok (out ++ be_bytes 2 (Z.of_nat (length raw)) ++ raw)
  else Err BundleTooLarge.

Definition encode_envelope (region : Region) : Writer Error :=
  match rg_alg region, rg_envelope region with
  | AlgNone, None => wr_nil
  | AlgNone, Some _ => fun _ => Err (RegionEnvelopeMismatch false)
  | Aes256Gcm, None => fun _ => Err (RegionEnvelopeMismatch true)
  | Aes256Gcm, Some envelope =>
      put_name (re_key_id envelope) +>
      (fun out =>
         let wrapped := re_wrapped_dek envelope in
         if Z.of_nat (length wrapped) <=? u32_max
         then Ok (out ++ be_bytes 4 (Z.of_nat (length wrapped)) ++ wrapped)
         else Err BundleTooLarge) +>
      wr_bytes (re_nonce envelope)
  end.

Definition encode_region (region : Region) : Writer Error :=
  put_name (rg_topic region) +>
  wr_bytes (be_bytes 4 (Z.abs (rg_partition region))) +>
  wr_bytes (be_bytes 4 (rg_record_count region)) +>
  match rg_bytes region with
  | Bounded offset length => wr_bytes (be_bytes 8 offset) +> wr_bytes (be_bytes 8 length)
  | Full => fun _ => Err UnboundedRegion
  end +>
  wr_bytes [RegionAlg_code (rg_alg region)] +>
  encode_envelope region.

Definition encode_footer (regions : list Region) : Writer Error := fun out =>
  let start := length out in
  let? out := wr_each encode_region regions out in
  let footer_len := Z.of_nat (length out - start) in
  if negb (footer_len <=? u32_max) then Err BundleTooLarge
  else
    let count := Z.of_nat (length regions) in
    if negb (count <=? u32_max) then Err BundleTooLarge
    else Ok (out ++ be_bytes 4 count ++ [BUNDLE_FORMAT_VERSION] ++ be_bytes 4 footer_len).

Definition bb_spans (self : BundleBuilder) : list CommittedSpan :=
  zip_with (fun region producer =>
    mkCommittedSpan (rg_topic region) (rg_partition region) (rg_record_count region) (rg_bytes region) producer)
    (bb_regions self) (bb_producers self).

Definition bb_into_footer (self : BundleBuilder) : Res (bytes * list CommittedSpan) :=
  if bool_decide (bb_regions self = []) then Err EmptyBundle
  else let? footer := encode_footer (bb_regions self) [] in Ok (footer, bb_spans self).

Record Sealed : Type := mkSealed {
  sd_payload : bytes;
  sd_regions : list Region;
  sd_spans : list CommittedSpan;
}.

Definition bb_seal (self : BundleBuilder) : Res Sealed :=
  if bool_decide (bb_regions self = []) then Err EmptyBundle
  else
    let? payload := encode_footer (bb_regions self) (bb_payload self) in
    Ok (mkSealed payload (bb_regions self) (bb_spans self)).

(** ** Reading a footer ([bundle_footer.rs]) *)

Definition bf_malformed {A} (at_ : nat) : Reader Error A := fun _ _ => Err (MalformedBundleFooter (Z.of_nat at_)).

(** The envelope behind its key's length, which ends at [at_]. *)
Definition bf_envelope_from (key_len : Z) (at_ : nat) : Reader Error RegionEnvelope :=
  rd! raw := cu_take MalformedBundleFooter key_len in
  match (if utf8_valid raw then KeyId_new (of_bytes raw) else Err EmptyKeyId) with
  | Ok key_id =>
      rd! wrapped_len := cu_u32 MalformedBundleFooter in
      if (wrapped_len =? 0) || (MAX_WRAPPED_DEK_LEN <? wrapped_len) then cu_malformed MalformedBundleFooter
      else
        rd! wrapped := cu_take MalformedBundleFooter wrapped_len in
        rd! nonce := cu_take MalformedBundleFooter (Z.of_nat NONCE_BYTES) in
        match RegionEnvelope_new key_id wrapped nonce with
        | Ok envelope => rd_ret envelope
        | _ => cu_malformed MalformedBundleFooter
        end
  | _ => bf_malformed at_
  end.

Definition bf_envelope : Reader Error RegionEnvelope :=
  rd! key_len := cu_u16 MalformedBundleFooter in
  fun buf at_ => bf_envelope_from key_len at_ buf at_.

Definition bf_region : Reader Error Region :=
  let u32 := cu_u32 MalformedBundleFooter in
  rd! name_len := cu_u16 MalformedBundleFooter in
  rd! name := cu_string MalformedBundleFooter name_len in
  rd! topic := cu_lift (TopicId_new name) in
  rd! raw_partition := u32 in
  if negb (raw_partition <=? i32_max) then cu_malformed MalformedBundleFooter
  else
    rd! partition := cu_lift (PartitionId_new raw_partition) in
    rd! record_count := u32 in
    rd! offset := cu_u64 MalformedBundleFooter in
    rd! length := cu_u64 MalformedBundleFooter in
    rd! range := cu_lift (ByteRange_bounded offset length) in
    rd! code := cu_byte MalformedBundleFooter in
    rd! alg := cu_lift (RegionAlg_from_code code) in
    rd! envelope :=
      match alg with
      | AlgNone => rd_ret None
      | Aes256Gcm => rd! envelope := bf_envelope in rd_ret (Some envelope)
      end in
    rd_ret (mkRegion topic partition range record_count alg envelope).

Definition short_tail_or_corrupt (got needed object_size : Z) : Error :=
  if object_size <? needed then MalformedBundleFooter 0 else BundleTailTooShort got needed.

(** The loop of [check_regions], at index [index]. *)
Fixpoint check_regions_loop (index : nat) (next_free payload_end : Z) (regions : list Region) : Res Z :=
  match regions with
  | [] => Ok next_free
  | region :: regions =>
      let malformed := Err (MalformedBundleFooter (Z.of_nat index)) in
      match rg_bytes region with
      | Full => malformed
      | Bounded offset length =>
          if rg_record_count region =? 0 then malformed
          else match u64_checked_add offset length with
          | None => malformed
          | Some end_ =>
              if negb (offset =? next_free) || (payload_end <? end_) then malformed
              else check_regions_loop (S index) end_ payload_end regions
          end
      end
  end.

Definition check_regions (regions : list Region) (payload_end : Z) : Res unit :=
  let? next_free := check_regions_loop 0 0 payload_end regions in
  if negb (next_free =? payload_end) then Err (MalformedBundleFooter (Z.of_nat (length regions))) else Ok tt.

Definition parse_footer (tail : bytes) (object_size : Z) : Res (list Region) :=
  let got := Z.of_nat (length tail) in
  if got <? TRAILER_LEN then Err (short_tail_or_corrupt got TRAILER_LEN object_size)
  else
    let trailer_at := got - TRAILER_LEN in
    let trailer := drop (Z.to_nat trailer_at) tail in
    let count := from_be (take 4 trailer) in
    let version := nth 4 trailer 0 in
    if negb (version =? BUNDLE_FORMAT_VERSION) then Err (UnknownBundleFormat version)
    else if count =? 0 then Err EmptyBundle
    else
      let footer_len := from_be (drop 5 trailer) in
      if trailer_at <? footer_len
      then Err (short_tail_or_corrupt got (u64_saturating_add footer_len TRAILER_LEN) object_size)
      else
        let footer := take (Z.to_nat footer_len) (drop (Z.to_nat (trailer_at - footer_len)) tail) in
        let? (regions, at_) := rd_times (Z.to_nat count) bf_region footer 0%nat in
        if negb (at_ =? length footer)%nat then Err (MalformedBundleFooter (Z.of_nat at_))
        else if object_size <? footer_len + TRAILER_LEN then Err (MalformedBundleFooter 0)
        else
          let? _ := check_regions regions (object_size - (footer_len + TRAILER_LEN)) in
          Ok regions.
