(* ===== verification/BundleProps.v ===== *)
(** * BundleProps: a bundle reads back as it was built *)

From stdpp Require Import base tactics list numbers strings gmap.
From Stdlib Require Import ZArith Lia.
From S2P Require Import Prelude Bytes Types Store Segment SegmentProps Bundle.

Open Scope Z_scope.

(** ** Regions that tile a payload *)

(** The regions, in order, cover the bytes of [lo, hi) without gap or overlap,
    and each has records. *)
Fixpoint regions_tile (lo : Z) (regions : list Region) (hi : Z) : Prop :=
  match regions with
  | [] => lo = hi
  | region :: regions =>
      exists len, rg_bytes region = Bounded lo len /\ rg_record_count region <> 0 /\ regions_tile (lo + len) regions hi
  end.

Lemma regions_tile_app lo r1 r2 hi :
  regions_tile lo (r1 ++ r2) hi <-> exists mid, regions_tile lo r1 mid /\ regions_tile mid r2 hi.
Proof.
  revert lo. induction r1 as [|r r1 IH]; intros lo; simpl; [naive_solver|].
  split.
  - intros (len & Hb & Hc & (mid & H1 & H2)%IH). exists mid. eauto.
  - intros (mid & (len & Hb & Hc & H1) & H2). exists len. rewrite IH. eauto.
Qed.

(** Lengths are not negative. *)
Definition region_len_ok (region : Region) : Prop :=
  match rg_bytes region with Bounded _ len => 0 < len | Full => True end.

Lemma regions_tile_le lo regions hi : Forall region_len_ok regions -> regions_tile lo regions hi -> lo <= hi.
Proof.
  intros Hf. revert lo. induction Hf as [|r rs Hr _ IH]; simpl; intros lo; [lia|].
  intros (len & Hb & _ & H%IH). unfold region_len_ok in Hr. rewrite Hb in Hr. lia.
Qed.

Lemma check_regions_loop_tile index lo hi regions next :
  check_regions_loop index lo hi regions = Ok next -> regions_tile lo regions next.
Proof.
  revert index lo. induction regions as [|r rs IH]; simpl; intros index lo; [by intros [= <-]|].
  destruct (rg_bytes r) as [|off len] eqn:Hb; [done|]. destruct (rg_record_count r =? 0) eqn:Hc; [done|].
  unfold u64_checked_add. destruct (_ <=? u64_max); [|done].
  destruct (negb (off =? lo) || _) eqn:Hx; [done|]. intros Hrec%IH. zbool. subst. by exists len.
Qed.

Lemma check_regions_tile regions payload_end :
  check_regions regions payload_end = Ok tt -> regions_tile 0 regions payload_end.
Proof.
  unfold check_regions. intros (next & Hl%check_regions_loop_tile & H)%res_bind_Ok.
  case_match; [done|]. zbool. by subst.
Qed.

Lemma tile_check_regions_loop index lo hi end_ regions :
  Forall region_len_ok regions -> regions_tile lo regions hi -> hi <= end_ -> end_ <= u64_max ->
  check_regions_loop index lo end_ regions = Ok hi.
Proof.
  intros Hf. revert index lo. induction Hf as [|r rs Hr Hrs IH]; simpl; intros index lo; [by intros ->|].
  intros (len & Hb & Hc & Ht) He Hu. unfold region_len_ok in Hr. rewrite Hb in *.
  pose proof (regions_tile_le _ _ _ Hrs Ht). rewrite (proj2 (Z.eqb_neq _ _)) by done.
  unfold u64_checked_add. rewrite (proj2 (Z.leb_le _ _)) by lia.
  rewrite Z.eqb_refl, (proj2 (Z.ltb_ge _ _)) by lia. simpl. by apply IH.
Qed.

Lemma tile_check_regions hi regions :
  Forall region_len_ok regions -> regions_tile 0 regions hi -> hi <= u64_max -> check_regions regions hi = Ok tt.
Proof.
  intros Hf Ht Hu. unfold check_regions. rewrite (tile_check_regions_loop 0 0 hi hi) by (done || lia).
  simpl. by rewrite Z.eqb_refl.
Qed.

(** ** A region's fields *)

(** What the types of the fields guarantee. *)
Definition envelope_wf (e : RegionEnvelope) : Prop :=
  is_str (re_key_id e) /\ KeyId_new (re_key_id e) = Ok (re_key_id e) /\
  0 < Z.of_nat (length (re_wrapped_dek e)) <= MAX_WRAPPED_DEK_LEN /\ length (re_nonce e) = NONCE_BYTES.

Record region_wf (r : Region) : Prop := {
  rw_topic : name_wf (rg_topic r);
  rw_partition : partition_wf (rg_partition r);
  rw_count : in_u32 (rg_record_count r);
  rw_range : forall off len, rg_bytes r = Bounded off len -> in_u64 off /\ 0 < len <= u64_max;
  rw_envelope : match rg_envelope r with Some e => envelope_wf e | None => True end;
}.

Lemma reads_at {A} (f : nat -> Reader Error A) bs a :
  (forall at_, reads (f at_) bs a) -> reads (fun buf at_ => f at_ buf at_) bs a.
Proof. intros Hf pre post. apply Hf. Qed.

Lemma inverts_name {A} s (k : string -> Reader Error A) w a :
  is_str s -> inverts w (k s) a ->
  inverts (put_name s +> w)
    (rd! len := cu_u16 MalformedBundleFooter in rd! name := cu_string MalformedBundleFooter len in k name) a.
Proof.
  intros Hs Hw out out' (out1 & H1 & H2)%res_bind_Ok. unfold put_name in H1.
  destruct (_ <=? _) eqn:Hle; [|done]. zbool. apply Ok_inj in H1 as <-.
  destruct (Hw _ _ H2) as (bs & -> & Hr). exists ((be_bytes 2 (Z.of_nat (length (as_bytes s))) ++ as_bytes s) ++ bs).
  split; [by rewrite !app_assoc|]. rewrite <-app_assoc. eapply reads_bind.
  - apply (reads_cu_unsigned _ 2). width.
  - eapply reads_bind; [by apply reads_cu_string|done].
Qed.

Lemma inverts_envelope e :
  envelope_wf e -> 
  inverts (put_name (re_key_id e) +>
      (fun out => if Z.of_nat (length (re_wrapped_dek e)) <=? u32_max
         then Ok (out ++ be_bytes 4 (Z.of_nat (length (re_wrapped_dek e))) ++ re_wrapped_dek e)
         else Err BundleTooLarge) +> wr_bytes (re_nonce e)) bf_envelope e.
Proof.
  intros (Hs & Hk & Hw & Hn) out out' (out1 & H1 & (out2 & H2 & [= <-])%res_bind_Ok)%res_bind_Ok.
  unfold put_name in H1. destruct (_ <=? u16_max) eqn:Hle; [|done]. apply Ok_inj in H1 as <-.
  destruct (_ <=? u32_max); [|done]. apply Ok_inj in H2 as <-. zbool.
  exists (be_bytes 2 (Z.of_nat (length (as_bytes (re_key_id e)))) ++ as_bytes (re_key_id e) ++
    be_bytes 4 (Z.of_nat (length (re_wrapped_dek e))) ++ re_wrapped_dek e ++ re_nonce e).
  split; [by rewrite <-!app_assoc|]. unfold bf_envelope.
  eapply reads_bind; [apply (reads_cu_unsigned _ 2); width|]. apply (reads_at (bf_envelope_from _)). intros at_. unfold bf_envelope_from.
  eapply reads_bind; [by apply reads_cu_take|]. rewrite Hs, of_as_bytes, Hk.
  eapply reads_bind; [apply (reads_cu_unsigned _ 4); unfold MAX_WRAPPED_DEK_LEN in *; width|].
  rewrite (proj2 (Z.eqb_neq _ _)), (proj2 (Z.ltb_ge _ _)) by lia. simpl.
  eapply reads_bind; [by apply reads_cu_take|].
  rewrite <-(app_nil_r (re_nonce e)). eapply reads_bind; [apply reads_cu_take; by rewrite Hn|].
  unfold RegionEnvelope_new. rewrite (proj2 (Z.ltb_ge _ _)) by (unfold MAX_KEY_ID_LEN; lia).
  rewrite (proj2 (Z.eqb_neq _ _)), (proj2 (Z.ltb_ge _ _)) by lia. simpl. destruct e. apply reads_ret.
Qed.

(** A constructor that accepts what was read. *)
Lemma inverts_lift {A B} w (f : Res A) (k : A -> Reader Error B) a b :
  f = Ok a -> inverts w (k a) b -> inverts w (rd! y := cu_lift f in k y) b.
Proof. intros -> Hw. eapply inverts_ext; [|done]. done. Qed.

Lemma inverts_assoc {A} w1 w2 w3 (m : Reader Error A) a :
  inverts (w1 +> w2 +> w3) m a -> inverts ((w1 +> w2) +> w3) m a.
Proof.
  intros Hw out out' H. apply (Hw out out'). revert H. unfold wr_seq. by destruct (w1 out).
Qed.

Lemma encode_envelope_inverts (k : option RegionEnvelope -> Region) r :
  (match rg_envelope r with Some e => envelope_wf e | None => True end) -> k (rg_envelope r) = r ->
  inverts (encode_envelope r)
    (rd! envelope := match rg_alg r with
                     | AlgNone => rd_ret None
                     | Aes256Gcm => rd! envelope := bf_envelope in rd_ret (Some envelope)
                     end in rd_ret (k envelope)) r.
Proof.
  unfold encode_envelope. intros He Hk. destruct (rg_alg r), (rg_envelope r) as [e|]; try done.
  - intros out out' [= <-]. exists []. rewrite app_nil_r. split; [done|]. rewrite <-Hk. apply reads_ret.
  - rewrite <-Hk. apply (inverts_last _ _ (fun x => k x)), (inverts_last _ _ Some). by apply inverts_envelope.
Qed.

Lemma encode_region_inverts r : region_wf r -> inverts (encode_region r) bf_region r.
Proof.
  intros [[Hts Htn] [Hp0 Hp1] Hc Hr He]. unfold encode_region, bf_region.
  apply inverts_name; [done|]. eapply inverts_lift; [unfold TopicId_new; by rewrite decide_False|].
  rewrite Z.abs_eq by done. eapply inverts_seq; [apply inverts_cu_u32; width|].
  rewrite (proj2 (Z.leb_le _ _)) by done. simpl.
  eapply inverts_lift; [unfold PartitionId_new; by rewrite (proj2 (Z.ltb_ge _ _))|].
  eapply inverts_seq; [by apply inverts_cu_u32|].
  destruct (rg_bytes r) as [|off len] eqn:Hb.
  { intros out out' H. discriminate H. }
  destruct (Hr off len eq_refl) as [Ho Hl]. apply inverts_assoc.
  eapply inverts_seq; [by apply inverts_cu_u64|]. eapply inverts_seq; [apply inverts_cu_u64; mlia|].
  eapply inverts_lift; [unfold ByteRange_bounded; by rewrite (proj2 (Z.eqb_neq _ _)) by lia|].
  eapply inverts_seq; [apply (inverts_cu_byte _ (RegionAlg_code (rg_alg r))); destruct (rg_alg r); done|].
  eapply inverts_lift; [by instantiate (1 := rg_alg r); destruct (rg_alg r)|].
  apply encode_envelope_inverts; [done|]. rewrite <-Hb. by destruct r.
Qed.

(** ** A built bundle *)

(** One call of [push] or of [push_sealed], with the records it is given. *)
Inductive Push : Type :=
| PushPlain (topic : TopicId) (partition : PartitionId) (pushed : PushedRecords) (records : bytes)
| PushSealed (topic : TopicId) (partition : PartitionId) (pushed : PushedRecords) (sealed : SealedRegion).

Definition push_one (b : BundleBuilder) (p : Push) : Res BundleBuilder :=
  match p with
  | PushPlain topic partition pushed records => bb_push b topic partition pushed records
  | PushSealed topic partition pushed sealed => bb_push_sealed b topic partition pushed sealed
  end.
Definition build (ps : list Push) : Res BundleBuilder := res_foldl push_one BundleBuilder_new ps.

Definition push_topic (p : Push) : TopicId := match p with PushPlain t _ _ _ | PushSealed t _ _ _ => t end.
Definition push_partition (p : Push) : PartitionId := match p with PushPlain _ p _ _ | PushSealed _ p _ _ => p end.
Definition push_records (p : Push) : PushedRecords := match p with PushPlain _ _ r _ | PushSealed _ _ r _ => r end.
Definition push_bytes (p : Push) : bytes := match p with PushPlain _ _ _ b => b | PushSealed _ _ _ s => sr_bytes s end.
Definition push_alg (p : Push) : RegionAlg := match p with PushPlain _ _ _ _ => AlgNone | PushSealed _ _ _ s => sr_alg s end.
Definition push_envelope (p : Push) : option RegionEnvelope :=
  match p with PushPlain _ _ _ _ => None | PushSealed _ _ _ s => Some (sr_envelope s) end.

(** What the types of the arguments guarantee. *)
Definition push_wf (p : Push) : Prop :=
  name_wf (push_topic p) /\ partition_wf (push_partition p) /\ in_u32 (pr_count (push_records p)) /\
  match push_envelope p with Some e => envelope_wf e | None => True end.

(** The region of a push whose records begin at [at_]. *)
Definition region_of (at_ : Z) (p : Push) : Region :=
  mkRegion (push_topic p) (push_partition p) (Bounded at_ (Z.of_nat (length (push_bytes p))))
    (pr_count (push_records p)) (push_alg p) (push_envelope p).

Fixpoint regions_of (at_ : Z) (ps : list Push) : list Region :=
  match ps with
  | [] => []
  | p :: ps => region_of at_ p :: regions_of (at_ + Z.of_nat (length (push_bytes p))) ps
  end.

Lemma regions_of_app at_ ps qs :
  regions_of at_ (ps ++ qs) =
  regions_of at_ ps ++ regions_of (at_ + Z.of_nat (length (concat (map push_bytes ps)))) qs.
Proof.
  revert at_. induction ps as [|p ps IH]; intros at_; simpl; [by rewrite Z.add_0_r|].
  rewrite IH, length_app. do 3 f_equal. lia.
Qed.

(** A push the builder accepts: it has records and bytes. *)
Definition push_accepted (p : Push) : Prop := pr_count (push_records p) <> 0 /\ push_bytes p <> [].

Record built (ps : list Push) (b : BundleBuilder) : Prop := {
  bt_payload : bb_payload b = concat (map push_bytes ps);
  bt_regions : bb_regions b = regions_of 0 ps;
  bt_producers : bb_producers b = map (fun p => pr_producer (push_records p)) ps;
  bt_accepted : Forall push_accepted ps;
}.

Lemma push_one_Ok b p b' :
  push_one b p = Ok b' ->
  push_accepted p /\
  b' = mkBundleBuilder (bb_payload b ++ push_bytes p)
         (bb_regions b ++ [region_of (Z.of_nat (length (bb_payload b))) p])
         (bb_producers b ++ [pr_producer (push_records p)]).
Proof.
  assert (forall t n, bundle_admissible t n = Ok tt -> n <> 0) as Ha.
  { unfold bundle_admissible. intros t n. case_match; [done|]. case_match eqn:Hn; [done|]. by zbool. }
  assert (forall off (bs : bytes) r, ByteRange_bounded off (Z.of_nat (length bs)) = Ok r ->
    bs <> [] /\ r = Bounded off (Z.of_nat (length bs))) as Hr.
  { unfold ByteRange_bounded. intros off bs r. case_match eqn:Hl; [done|]. intros [= <-]. zbool.
    split; [|done]. by intros ->. }
  destruct p as [t p pushed records|t p pushed sealed]; simpl; unfold bb_push, bb_push_sealed;
    intros ([] & Hadm%Ha & H)%res_bind_Ok.
  - apply res_bind_Ok in H as (r & [? ->]%Hr & [= <-]). done.
  - case_decide; [done|]. apply res_bind_Ok in H as (r & [? ->]%Hr & [= <-]). done.
Qed.

Lemma built_push ps b p b' : built ps b -> push_one b p = Ok b' -> built (ps ++ [p]) b'.
Proof.
  intros [H1 H2 H3 H4] [Hacc ->]%push_one_Ok. split; simpl.
  - by rewrite map_app, concat_app, H1; simpl; rewrite app_nil_r.
  - by rewrite regions_of_app, H1, H2.
  - by rewrite map_app, H3.
  - apply Forall_app. by split; [|constructor].
Qed.

Lemma build_built ps b : build ps = Ok b -> built ps b.
Proof.
  revert b. induction ps as [|p ps IH] using rev_ind; intros b.
  - intros [= <-]. by split.
  - unfold build. rewrite res_foldl_app. intros (b1 & H1 & (b2 & H2 & [= <-])%res_bind_Ok)%res_bind_Ok.
    eapply built_push; eauto.
Qed.

(** Every region is where its records are. *)
Lemma regions_of_tile at_ ps :
  Forall push_accepted ps ->
  regions_tile at_ (regions_of at_ ps) (at_ + Z.of_nat (length (concat (map push_bytes ps)))).
Proof.
  intros Hf. revert at_. induction Hf as [|p ps [Hc _] _ IH]; intros at_; simpl; [lia|].
  eexists. split_and!; [done|done|]. rewrite length_app, Nat2Z.inj_add, Z.add_assoc. apply IH.
Qed.

Lemma regions_of_len_ok at_ ps : Forall push_accepted ps -> Forall region_len_ok (regions_of at_ ps).
Proof.
  intros Hf. revert at_. induction Hf as [|p ps [_ Hb] _ IH]; intros at_; simpl; constructor; [|done].
  unfold region_len_ok; simpl. destruct (push_bytes p); simpl; [done|lia].
Qed.

Lemma regions_of_wf at_ ps :
  Forall push_wf ps -> Forall push_accepted ps -> 0 <= at_ ->
  at_ + Z.of_nat (length (concat (map push_bytes ps))) <= u64_max -> Forall region_wf (regions_of at_ ps).
Proof.
  intros Hw Ha. revert at_. induction Hw as [|p ps (Ht & Hp & Hc & He) _ IH]; intros at_ H0 Hle; simpl; constructor.
  - simpl in Hle. rewrite length_app in Hle. split; simpl; try done.
    intros off len [= <- <-]. apply Forall_cons in Ha as [[_ Hb] _].
    destruct (push_bytes p); [done|]. simpl in *. mlia.
  - simpl in Hle. rewrite length_app in Hle. apply Forall_cons in Ha as [_ Ha]. apply IH; [done|lia|lia].
Qed.

(** Slicing the payload at a region gives the records pushed. *)
Lemma slice_of_region key pre ps post :
  Forall2 (fun p r => slice_range key (pre ++ concat (map push_bytes ps) ++ post) (rg_bytes r) = Ok (push_bytes p))
    ps (regions_of (Z.of_nat (length pre)) ps).
Proof.
  revert pre. induction ps as [|p ps IH]; intros pre; simpl; constructor.
  - unfold slice_range; simpl. rewrite (proj2 (Z.leb_le _ _)) by (rewrite !length_app; lia).
    by rewrite !Nat2Z.id, drop_app_length, <-app_assoc, take_app_length.
  - specialize (IH (pre ++ push_bytes p)). rewrite length_app, Nat2Z.inj_add in IH.
    by rewrite <-!app_assoc in IH |- *.
Qed.

(** ** Reading a footer back *)

Lemma encode_footer_Ok regions out out' :
  Forall region_wf regions -> encode_footer regions out = Ok out' ->
  exists body, out' = out ++ body ++ be_bytes 4 (Z.of_nat (length regions)) ++ [BUNDLE_FORMAT_VERSION] ++
      be_bytes 4 (Z.of_nat (length body)) /\
    reads (rd_times (length regions) bf_region) body regions /\
    Z.of_nat (length regions) <= u32_max /\ Z.of_nat (length body) <= u32_max.
Proof.
  intros Hwf. unfold encode_footer. intros (out1 & H1 & H2)%res_bind_Ok.
  destruct (inverts_each encode_region bf_region regions) with (out := out) (out' := out1) as (body & -> & Hr);
    [|done|].
  { eapply Forall_impl; [done|]. apply encode_region_inverts. }
  exists body. rewrite length_app in H2.
  replace (length out + length body - length out)%nat with (length body) in H2 by lia.
  case_match eqn:Hl1; [done|]. case_match eqn:Hl2; [done|]. apply Ok_inj in H2 as <-. zbool.
  split_and!; try done. by rewrite <-!app_assoc.
Qed.

(** The trailer's fields. *)
Lemma trailer_fields count len :
  0 <= count <= u32_max -> 0 <= len <= u32_max ->
  let trailer := be_bytes 4 count ++ [BUNDLE_FORMAT_VERSION] ++ be_bytes 4 len in
  from_be (take 4 trailer) = count /\ nth 4 trailer 0 = BUNDLE_FORMAT_VERSION /\ from_be (drop 5 trailer) = len /\
  Z.of_nat (length trailer) = TRAILER_LEN.
Proof.
  intros Hc Hl trailer. unfold trailer. pose proof (be_bytes_length 4 count) as H4.
  split_and!.
  - rewrite <-H4 at 1. rewrite take_app_length, from_be_be; [done|width].
  - rewrite app_nth2, H4 by lia. done.
  - rewrite drop_app_ge, H4 by lia. change (drop (5 - 4) ([BUNDLE_FORMAT_VERSION] ++ be_bytes 4 len)) with (be_bytes 4 len). rewrite from_be_be; [done|width].
  - rewrite !length_app, !be_bytes_length. done.
Qed.

Lemma parse_footer_tail regions pre body size :
  regions <> [] -> Z.of_nat (length regions) <= u32_max -> Z.of_nat (length body) <= u32_max ->
  reads (rd_times (length regions) bf_region) body regions ->
  Z.of_nat (length body) + TRAILER_LEN <= size ->
  parse_footer (pre ++ body ++ be_bytes 4 (Z.of_nat (length regions)) ++ [BUNDLE_FORMAT_VERSION] ++
    be_bytes 4 (Z.of_nat (length body))) size =
  let? _ := check_regions regions (size - (Z.of_nat (length body) + TRAILER_LEN)) in Ok regions.
Proof.
  intros Hne Hc Hl Hr Hsz.
  set (trailer := be_bytes 4 (Z.of_nat (length regions)) ++ [BUNDLE_FORMAT_VERSION] ++ be_bytes 4 (Z.of_nat (length body))).
  destruct (trailer_fields (Z.of_nat (length regions)) (Z.of_nat (length body))) as (F1 & F2 & F3 & F4); [lia|lia|].
  fold trailer in F1, F2, F3, F4. clearbody trailer. unfold parse_footer.
  assert (Z.of_nat (length (pre ++ body ++ trailer)) - TRAILER_LEN = Z.of_nat (length (pre ++ body))) as Hat.
  { rewrite !length_app. lia. }
  rewrite Hat, (proj2 (Z.ltb_ge _ _)) by (rewrite !length_app; lia).
  rewrite app_assoc, Nat2Z.id, drop_app_length, F1, F2, F3. rewrite Z.eqb_refl. simpl.
  rewrite (proj2 (Z.eqb_neq _ _)) by (destruct regions; simpl; [done|lia]).
  rewrite (proj2 (Z.ltb_ge _ _)) by (rewrite length_app; lia).
  replace (Z.of_nat (length (pre ++ body)) - Z.of_nat (length body)) with (Z.of_nat (length pre)) by (rewrite length_app; lia).
  rewrite !Nat2Z.id, <-app_assoc, drop_app_length, take_app_length.
  specialize (Hr [] []). rewrite app_nil_r in Hr. simpl in Hr. rewrite Hr. simpl.
  rewrite Nat.eqb_refl. simpl. by rewrite (proj2 (Z.ltb_ge _ _)).
Qed.

(** C28. A bundle reads back as it was built.  Whatever sequence of plain and
    sealed pushes the builder accepts and seals, the footer parses to the regions
    pushed, in order, from the whole object as from any tail of it that holds the
    footer; each region's range cuts out of the object exactly the bytes that
    were pushed, with their topic, partition, count, algorithm and envelope; and
    the spans reported for the commit name the same ranges. *)
Theorem bundle_round_trip (ps : list Push) (b : BundleBuilder) (sealed : Sealed) (key : ObjectKey) :
  Forall push_wf ps -> build ps = Ok b -> bb_seal b = Ok sealed -> Z.of_nat (length (bb_payload b)) <= u64_max ->
  sd_regions sealed = regions_of 0 ps /\
  (forall k, (k <= length (bb_payload b))%nat ->
    parse_footer (drop k (sd_payload sealed)) (Z.of_nat (length (sd_payload sealed))) = Ok (sd_regions sealed)) /\
  Forall2 (fun p r => slice_range key (sd_payload sealed) (rg_bytes r) = Ok (push_bytes p)) ps (sd_regions sealed) /\
  map cs_bytes (sd_spans sealed) = map rg_bytes (sd_regions sealed).
Proof.
  intros Hwf Hb Hs Hu. destruct (build_built _ _ Hb) as [H1 H2 H3 H4]. unfold bb_seal in Hs.
  case_bool_decide as Hne; [done|]. apply res_bind_Ok in Hs as (payload & Hp & [= <-]). simpl.
  rewrite H1 in Hu. assert (Forall region_wf (bb_regions b)) as Hrw by (rewrite H2; by apply regions_of_wf).
  destruct (encode_footer_Ok _ _ _ Hrw Hp) as (body & -> & Hr & Hc & Hl). split_and!; [done| | |].
  - intros k Hk. rewrite drop_app_le by done.
    destruct (trailer_fields (Z.of_nat (length (bb_regions b))) (Z.of_nat (length body))) as (_ & _ & _ & F4); [lia|lia|].
    set (size := Z.of_nat (length (bb_payload b ++ _))).
    assert (size - (Z.of_nat (length body) + TRAILER_LEN) = Z.of_nat (length (bb_payload b))) as Hsz.
    { unfold size. rewrite length_app, length_app. lia. }
    rewrite parse_footer_tail by (done || lia). rewrite Hsz, tile_check_regions; [done| | |by rewrite H1].
    + rewrite H2. by apply regions_of_len_ok.
    + rewrite H1, H2. by apply (regions_of_tile 0).
  - rewrite H1, H2. apply (slice_of_region key []).
  - unfold bb_spans. rewrite H2, H3. clear. generalize 0. induction ps as [|p ps IH]; intros z; simpl; [done|].
    by rewrite IH.
Qed.

Definition demo_pushes : list Push :=
  [PushPlain "t" 0 (mkPushedRecords 2 None) [1; 2; 3];
   PushSealed "u" 7 (mkPushedRecords 1 None)
     (mkSealedRegion [9; 9] Aes256Gcm (mkRegionEnvelope "k" [5] (replicate 12 0)))].
Definition demo_builder : BundleBuilder :=
  match build demo_pushes with Ok b => b | _ => BundleBuilder_new end.
Definition demo_bundle : Sealed := match bb_seal demo_builder with Ok s => s | _ => mkSealed [] [] [] end.

Lemma bundle_round_trip_witness :
  parse_footer (drop 5 (sd_payload demo_bundle)) (Z.of_nat (length (sd_payload demo_bundle))) = Ok (sd_regions demo_bundle).
Proof.
  destruct (bundle_round_trip demo_pushes demo_builder demo_bundle "o") as (_ & H & _).
  - unfold demo_pushes. repeat constructor; vm_compute; congruence.
  - vm_compute. reflexivity.
  - vm_compute. reflexivity.
  - vm_decide.
  - apply H. vm_compute. lia.
Defined.
