(* ===== verification/Manifest.v ===== *)
(** * Manifest: objects that name other objects

    Models [oqueue-core]'s [partition_manifest.rs] with its [parse.rs] (a
    partition's history, oldest entries spilled to an object) and
    [composite.rs] with its [manifest.rs] (many bundles read as one). *)

From stdpp Require Import base tactics list numbers strings gmap.
From Stdlib Require Import ZArith Lia.
From S2P Require Import Prelude Bytes Types Partition IndexFold Segment Bundle.

Open Scope Z_scope.

(** A trailer of both formats: count, version, length of the body, magic. *)
Definition put_trailer (version : Z) (magic : bytes) (count body_len : nat) : Writer Error := fun out =>
  if negb (Z.of_nat body_len <=? u32_max) then Err BundleTooLarge
  else if negb (Z.of_nat count <=? u32_max) then Err BundleTooLarge
  else Ok (out ++ be_bytes 4 (Z.of_nat count) ++ [version] ++ be_bytes 4 (Z.of_nat body_len) ++ magic).

(** ** Partition manifests *)

Definition PARTITION_MANIFEST_VERSION : Z := 1.
(** [*b"OQPM"]. *)
Definition PARTITION_MANIFEST_MAGIC : bytes := [79; 81; 80; 77].
Definition PARTITION_MANIFEST_TRAILER_LEN : Z := 13.
Definition PARTITION_MANIFEST_BYTES : Z := 131072.

Record ManifestEntry : Type := mkManifestEntry {
  mf_object : ObjectKey;
  mf_base_offset : Offset;
  mf_record_count : Z;
  mf_bytes : ByteRange;
}.

Definition ManifestEntry_new (object : ObjectKey) (base_offset : Offset) (record_count : Z) (range : ByteRange) : Res ManifestEntry :=
  if record_count =? 0 then Err EmptyBundle
  else match range with
  | Full => Err UnboundedRegion
  | Bounded _ _ => Ok (mkManifestEntry object base_offset record_count range)
  end.

Definition mf_end_offset (self : ManifestEntry) : Res Offset := Offset_add (mf_base_offset self) (mf_record_count self).

Record PartitionManifestBuilder : Type := mkManifestBuilder { mb_entries : list ManifestEntry; mb_previous : option ObjectKey }.

Definition PartitionManifestBuilder_new : PartitionManifestBuilder := mkManifestBuilder [] None.
Definition spilling_from (self : PartitionManifestBuilder) (previous : ObjectKey) : PartitionManifestBuilder :=
  mkManifestBuilder (mb_entries self) (Some previous).

(** [self.entries.last()], whose end the next base must be. *)
Definition meets (entries : list ManifestEntry) (entry : ManifestEntry) : Res bool :=
  match last entries with
  | Some last => let? end_ := mf_end_offset last in Ok (end_ =? mf_base_offset entry)
  | None => Ok true
  end.

Definition mb_push (self : PartitionManifestBuilder) (entry : ManifestEntry) : Res PartitionManifestBuilder :=
  if existsb (fun held => String.eqb (mf_object held) (mf_object entry)) (mb_entries self) then Err IndexObjectMismatch
  else
    let? met := meets (mb_entries self) entry in
    if negb met then Err IndexObjectMismatch
    else Ok (mkManifestBuilder (mb_entries self ++ [entry]) (mb_previous self)).

Definition encode_key (key : option ObjectKey) : Writer Error := put_name (default EmptyString key).

Definition encode_manifest_entry (entry : ManifestEntry) : Writer Error :=
  encode_key (Some (mf_object entry)) +>
  wr_bytes (be_signed 8 (mf_base_offset entry)) +>
  wr_bytes (be_bytes 4 (mf_record_count entry)) +>
  match mf_bytes entry with
  | Bounded offset length => wr_bytes (be_bytes 8 offset) +> wr_bytes (be_bytes 8 length)
  | Full => fun _ => Err UnboundedRegion
  end.

Definition mb_seal (self : PartitionManifestBuilder) : Res bytes :=
  if bool_decide (mb_entries self = []) then Err EmptyBundle
  else
    let? out := (encode_key (mb_previous self) +> wr_each encode_manifest_entry (mb_entries self)) [] in
    put_trailer PARTITION_MANIFEST_VERSION PARTITION_MANIFEST_MAGIC (length (mb_entries self)) (length out) out.

Record PartitionManifest : Type := mkPartitionManifest { pm_entries : list ManifestEntry; pm_previous : option ObjectKey }.

Definition pm_position (self : PartitionManifest) (offset : Offset) : option nat :=
  match partition_point (fun entry => mf_base_offset entry <=? offset) (pm_entries self) with
  | O => None
  | S at_ =>
      entry ← pm_entries self !! at_;
      match mf_end_offset entry with
      | Ok end_ => if offset <? end_ then Some at_ else None
      | _ => None
      end
  end.

Definition pm_find (self : PartitionManifest) (offset : Offset) : option ManifestEntry :=
  at_ ← pm_position self offset; pm_entries self !! at_.

Local Notation pm_u16 := (cu_u16 MalformedPartitionManifest).
Local Notation pm_u32 := (cu_u32 MalformedPartitionManifest).
Local Notation pm_u64 := (cu_u64 MalformedPartitionManifest).

Definition decode_optional_key : Reader Error (option ObjectKey) :=
  rd! len := pm_u16 in
  if len =? 0 then rd_ret None
  else
    rd! raw := cu_string MalformedPartitionManifest len in
    rd! key := cu_lift (ObjectKey_new raw) in
    rd_ret (Some key).

(** An entry, whose bytes begin at [at_]. *)
Definition decode_manifest_entry_from (at_ : nat) : Reader Error ManifestEntry :=
  rd! key_len := pm_u16 in
  if key_len =? 0 then fun _ _ => Err (MalformedPartitionManifest (Z.of_nat at_))
  else
    rd! raw := cu_string MalformedPartitionManifest key_len in
    rd! object := cu_lift (ObjectKey_new raw) in
    rd! base := cu_i64 MalformedPartitionManifest in
    rd! base_offset := cu_lift (Offset_new base) in
    rd! record_count := pm_u32 in
    rd! offset := pm_u64 in
    rd! length := pm_u64 in
    rd! range := cu_lift (ByteRange_bounded offset length) in
    cu_lift (ManifestEntry_new object base_offset record_count range).

Definition decode_manifest_entry : Reader Error ManifestEntry := fun buf at_ => decode_manifest_entry_from at_ buf at_.

(** [for _ in 0..count]: a key seen before, or a gap, is malformed. *)
Fixpoint decode_entries_loop (count : nat) (seen : list ManifestEntry) : Reader Error (list ManifestEntry) :=
  match count with
  | O => rd_ret seen
  | S count =>
      rd! entry := decode_manifest_entry in
      if existsb (fun held => String.eqb (mf_object held) (mf_object entry)) seen then cu_malformed MalformedPartitionManifest
      else
        rd! met := cu_lift (meets seen entry) in
        if negb met then cu_malformed MalformedPartitionManifest
        else decode_entries_loop count (seen ++ [entry])
  end.

Definition parse_partition_manifest (buf : bytes) : Res PartitionManifest :=
  let total := Z.of_nat (length buf) in
  if total <? PARTITION_MANIFEST_TRAILER_LEN then Err (MalformedPartitionManifest 0)
  else
    let trailer_at := total - PARTITION_MANIFEST_TRAILER_LEN in
    if negb (bool_decide (drop (length buf - length PARTITION_MANIFEST_MAGIC) buf = PARTITION_MANIFEST_MAGIC))
    then Err NotAPartitionManifest
    else
      let trailer := drop (Z.to_nat trailer_at) buf in
      let? (count, at_) := pm_u32 trailer 0%nat in
      let? (version, at_) := cu_byte MalformedPartitionManifest trailer at_ in
      if negb (version =? PARTITION_MANIFEST_VERSION) then Err (UnknownPartitionManifestVersion version)
      else
        let? (body_len, _) := pm_u32 trailer at_ in
        if count =? 0 then Err EmptyBundle
        else if negb (body_len =? trailer_at) then Err (MalformedPartitionManifest trailer_at)
        else
          let body := take (Z.to_nat trailer_at) buf in
          let? (previous, at_) := decode_optional_key body 0%nat in
          let? (entries, at_) := decode_entries_loop (Z.to_nat count) [] body at_ in
          if negb (Z.of_nat at_ =? trailer_at) then Err (MalformedPartitionManifest (Z.of_nat at_))
          else Ok (mkPartitionManifest entries previous).

(** ** Composites *)

Definition COMPOSITE_FORMAT_VERSION : Z := 1.
(** [*b"OQCM"]. *)
Definition COMPOSITE_MAGIC : bytes := [79; 81; 67; 77].
Definition COMPOSITE_TRAILER_LEN : Z := 13.

Record Component : Type := mkComponent { co_object : ObjectKey; co_regions : list Region }.

(** [seen] is the set of the components' objects. *)
Record CompositeBuilder : Type := mkCompositeBuilder { cb_components : list Component; cb_seen : gset string }.

Definition CompositeBuilder_new : CompositeBuilder := mkCompositeBuilder [] ∅.

Definition cb_push (self : CompositeBuilder) (object : ObjectKey) (regions : list Region) : Res CompositeBuilder :=
  if bool_decide (regions = []) then Err EmptyBundle
  else if decide (object ∈ cb_seen self) then Err IndexObjectMismatch
  else if existsb (fun region => match rg_bytes region with Full => true | _ => false end) regions then Err UnboundedRegion
  else Ok (mkCompositeBuilder (cb_components self ++ [mkComponent object regions]) ({[object]} ∪ cb_seen self)).

Definition encode_component_region (region : Region) : Writer Error :=
  put_name (rg_topic region) +>
  wr_bytes (be_bytes 4 (Z.abs (rg_partition region))) +>
  wr_bytes (be_bytes 4 (rg_record_count region)) +>
  match rg_bytes region with
  | Bounded offset length => wr_bytes (be_bytes 8 offset) +> wr_bytes (be_bytes 8 length)
  | Full => fun _ => Err UnboundedRegion
  end +>
  (if decide (rg_alg region = AlgNone) then wr_bytes [RegionAlg_code (rg_alg region)]
   else fun _ => Err (SealedRegionNotRepresentable "a composite manifest")).

Definition encode_component (component : Component) : Writer Error :=
  put_name (co_object component) +>
  (fun out =>
     if Z.of_nat (length (co_regions component)) <=? u32_max
     then Ok (out ++ be_bytes 4 (Z.of_nat (length (co_regions component)))) else Err BundleTooLarge) +>
  wr_each encode_component_region (co_regions component).

Definition cb_seal (self : CompositeBuilder) : Res bytes :=
  if bool_decide (cb_components self = []) then Err EmptyBundle
  else
    let? out := wr_each encode_component (cb_components self) [] in
    put_trailer COMPOSITE_FORMAT_VERSION COMPOSITE_MAGIC (length (cb_components self)) (length out) out.

Local Notation cm_u32 := (cu_u32 MalformedCompositeManifest).
Local Notation cm_u64 := (cu_u64 MalformedCompositeManifest).

(** The rest of a region, from its record count, at [at_count], on. *)
Definition decode_region_from (topic : TopicId) (partition : PartitionId) (at_count : nat) : Reader Error Region :=
  rd! record_count := cm_u32 in
  if record_count =? 0 then fun _ _ => Err (MalformedCompositeManifest (Z.of_nat at_count))
  else
    rd! offset := cm_u64 in
    rd! length := cm_u64 in
    rd! code := cu_byte MalformedCompositeManifest in
    rd! alg := cu_lift (RegionAlg_from_code code) in
    if decide (alg = AlgNone) then
      rd! range := cu_lift (ByteRange_bounded offset length) in
      rd_ret (mkRegion topic partition range record_count alg None)
    else fun _ _ => Err (MalformedCompositeManifest (Z.of_nat at_count)).

Definition decode_region : Reader Error Region :=
  rd! name_len := cu_u16 MalformedCompositeManifest in
  rd! name := cu_string MalformedCompositeManifest name_len in
  rd! topic := cu_lift (TopicId_new name) in
  rd! raw_partition := cm_u32 in
  if negb (raw_partition <=? i32_max) then cu_malformed MalformedCompositeManifest
  else
    rd! partition := cu_lift (PartitionId_new raw_partition) in
    fun buf at_ => decode_region_from topic partition at_ buf at_.

Definition decode_component : Reader Error Component :=
  rd! key_len := cu_u16 MalformedCompositeManifest in
  rd! raw := cu_string MalformedCompositeManifest key_len in
  rd! key := cu_lift (ObjectKey_new raw) in
  rd! region_count := cm_u32 in
  if region_count =? 0 then fun _ _ => Err EmptyBundle
  else
    rd! regions := rd_times (Z.to_nat region_count) decode_region in
    rd_ret (mkComponent key regions).

Fixpoint decode_components_loop (count : nat) (components : list Component) : Reader Error (list Component) :=
  match count with
  | O => rd_ret components
  | S count =>
      rd! component := decode_component in
      if existsb (fun held => String.eqb (co_object held) (co_object component)) components
      then cu_malformed MalformedCompositeManifest
      else decode_components_loop count (components ++ [component])
  end.

Definition parse_composite (buf : bytes) : Res (list Component) :=
  let total := Z.of_nat (length buf) in
  if total <? COMPOSITE_TRAILER_LEN then Err (MalformedCompositeManifest 0)
  else
    let trailer_at := total - COMPOSITE_TRAILER_LEN in
    if negb (bool_decide (drop (length buf - length COMPOSITE_MAGIC) buf = COMPOSITE_MAGIC)) then Err NotACompositeManifest
    else
      let trailer := drop (Z.to_nat trailer_at) buf in
      let? (count, at_) := cm_u32 trailer 0%nat in
      let? (version, at_) := cu_byte MalformedCompositeManifest trailer at_ in
      if negb (version =? COMPOSITE_FORMAT_VERSION) then Err (UnknownCompositeVersion version)
      else
        let? (manifest_len, _) := cm_u32 trailer at_ in
        if count =? 0 then Err EmptyBundle
        else if negb (manifest_len =? trailer_at) then Err (MalformedCompositeManifest trailer_at)
        else
          let? (components, at_) := decode_components_loop (Z.to_nat count) [] (take (Z.to_nat trailer_at) buf) 0%nat in
          if negb (Z.of_nat at_ =? trailer_at) then Err (MalformedCompositeManifest (Z.of_nat at_))
          else Ok components.

Record Located : Type := mkLocated { lo_object : ObjectKey; lo_bytes : ByteRange; lo_record_count : Z }.

Definition locate (components : list Component) (topic : TopicId) (partition : PartitionId) : list Located :=
  concat (map (fun component =>
    map (fun region => mkLocated (co_object component) (rg_bytes region) (rg_record_count region))
      (List.filter (fun region => bool_decide (rg_topic region = topic) && (rg_partition region =? partition))
        (co_regions component))) components).
