(* ===== verification/ManifestProps.v ===== *)
(** * ManifestProps: manifests read back, and find what they cover *)

From stdpp Require Import base tactics list numbers strings gmap.
From Stdlib Require Import ZArith Lia.
From S2P Require Import Prelude Bytes Types Partition IndexFold IndexProps Segment SegmentProps Bundle BundleProps Manifest.

Open Scope Z_scope.

(** ** The trailer *)

Lemma trailer_reads malformed version magic count len :
  is_byte version -> 0 <= count <= u32_max -> 0 <= len <= u32_max -> length magic = 4%nat ->
  let trailer := be_bytes 4 count ++ [version] ++ be_bytes 4 len ++ magic in
  cu_u32 malformed trailer 0%nat = Ok (count, 4%nat) /\
  cu_byte malformed trailer 4%nat = Ok (version, 5%nat) /\
  cu_u32 malformed trailer 5%nat = Ok (len, 9%nat) /\
  length trailer = 13%nat.
Proof.
  intros Hv Hc Hl Hm trailer. unfold trailer. pose proof (be_bytes_length 4 count) as H4. split_and!.
  - apply (reads_cu_unsigned malformed 4 count ltac:(width) [] ([version] ++ be_bytes 4 len ++ magic)).
  - pose proof (inverts_cu_byte malformed version Hv [] _ eq_refl) as (bs & Heq & Hr). simpl in Heq. subst bs.
    specialize (Hr (be_bytes 4 count) (be_bytes 4 len ++ magic)). rewrite H4 in Hr. exact Hr.
  - pose proof (reads_cu_unsigned malformed 4 len ltac:(width) (be_bytes 4 count ++ [version]) magic) as Hr.
    rewrite length_app, H4, <-app_assoc in Hr. simpl in Hr. exact Hr.
  - rewrite !length_app, !be_bytes_length, Hm. done.
Qed.

Lemma put_trailer_Ok version magic count len out out' :
  put_trailer version magic count len out = Ok out' ->
  out' = out ++ be_bytes 4 (Z.of_nat count) ++ [version] ++ be_bytes 4 (Z.of_nat len) ++ magic /\
  Z.of_nat count <= u32_max /\ Z.of_nat len <= u32_max.
Proof.
  unfold put_trailer. case_match eqn:H1; [done|]. case_match eqn:H2; [done|]. intros Heq%Ok_inj. zbool. done.
Qed.

(** ** Entries of a manifest *)

Record manifest_entry_wf (e : ManifestEntry) : Prop := {
  mw_object : name_wf (mf_object e);
  mw_base : offset_wf (mf_base_offset e);
  mw_count : 0 < mf_record_count e <= u32_max;
  mw_range : exists off len, mf_bytes e = Bounded off len /\ in_u64 off /\ 0 < len <= u64_max;
}.

Lemma name_len_pos s : name_wf s -> Z.of_nat (length (as_bytes s)) <> 0.
Proof. intros [_ Hne]. destruct s; [done|]. simpl. lia. Qed.

Lemma name_key s : name_wf s -> ObjectKey_new s = Ok s.
Proof. intros [_ Hne]. unfold ObjectKey_new. by rewrite decide_False. Qed.

(** A name behind its length, which the reader may test first. *)
Lemma inverts_name_then {A} malformed s (k : Z -> Reader Error A) (k' : string -> Reader Error A) w a :
  is_str s -> k (Z.of_nat (length (as_bytes s))) = (rd! name := cu_string malformed (Z.of_nat (length (as_bytes s))) in k' name) ->
  inverts w (k' s) a -> inverts (put_name s +> w) (rd! len := cu_u16 malformed in k len) a.
Proof.
  intros Hs Hk Hw out out' (out1 & H1 & H2)%res_bind_Ok. unfold put_name in H1.
  destruct (_ <=? _) eqn:Hle; [|done]. zbool. apply Ok_inj in H1 as <-.
  destruct (Hw _ _ H2) as (bs & -> & Hr). exists ((be_bytes 2 (Z.of_nat (length (as_bytes s))) ++ as_bytes s) ++ bs).
  split; [by rewrite !app_assoc|]. rewrite <-app_assoc. eapply reads_bind.
  - apply (reads_cu_unsigned _ 2). width.
  - rewrite Hk. eapply reads_bind; [by apply reads_cu_string|done].
Qed.

(** A reader that looks at where it stands. *)
Lemma inverts_at {A} (f : nat -> Reader Error A) w a :
  (forall at_, inverts w (f at_) a) -> inverts w (fun buf at_ => f at_ buf at_) a.
Proof.
  intros Hf out out' Hout. destruct (Hf 0%nat _ _ Hout) as (bs & -> & _). exists bs. split; [done|].
  apply (reads_at f). intros at_. destruct (Hf at_ _ _ Hout) as (bs' & Heq & Hr). by apply app_inv_head in Heq as ->.
Qed.

(** The last fields of both formats. *)
Lemma inverts_manifest_range {A} malformed off len (k : Z -> Z -> Reader Error A) w a :
  in_u64 off -> in_u64 len -> inverts w (k off len) a ->
  inverts ((wr_bytes (be_bytes 8 off) +> wr_bytes (be_bytes 8 len)) +> w)
    (rd! offset := cu_u64 malformed in rd! length := cu_u64 malformed in k offset length) a.
Proof.
  intros Ho Hl Hw. apply inverts_assoc. eapply inverts_seq; [by apply inverts_cu_u64|].
  eapply inverts_seq; [by apply inverts_cu_u64|done].
Qed.

Lemma inverts_end {A} w (m : Reader Error A) a : inverts (w +> wr_nil) m a -> inverts w m a.
Proof. intros Hw out out' H. apply Hw. unfold wr_seq. rewrite H. done. Qed.

Lemma encode_manifest_entry_inverts e : manifest_entry_wf e -> inverts (encode_manifest_entry e) decode_manifest_entry e.
Proof.
  intros [Ho Hb Hc (off & len & Hr & Hoff & Hlen)]. unfold encode_manifest_entry, encode_key. rewrite Hr. simpl.
  apply (inverts_at decode_manifest_entry_from). intros at_. unfold decode_manifest_entry_from.
  eapply inverts_name_then; [apply Ho|rewrite (proj2 (Z.eqb_neq _ _)) by (by apply name_len_pos); done|].
  eapply inverts_lift; [by apply name_key|]. eapply inverts_seq; [apply inverts_cu_i64; unfold offset_wf, i64_wf in *; mlia|].
  eapply inverts_lift; [unfold Offset_new; by rewrite (proj2 (Z.ltb_ge _ _)) by apply Hb|].
  eapply inverts_seq; [apply inverts_cu_u32; mlia|]. apply inverts_end.
  apply inverts_manifest_range; [done|mlia|].
  eapply inverts_lift; [unfold ByteRange_bounded; by rewrite (proj2 (Z.eqb_neq _ _)) by lia|].
  unfold ManifestEntry_new. rewrite (proj2 (Z.eqb_neq _ _)) by lia. destruct e; simpl in *; subst. apply inverts_nil.
Qed.

(** ** Building and reading a manifest *)

Definition build_manifest (previous : option ObjectKey) (es : list ManifestEntry) : Res PartitionManifestBuilder :=
  res_foldl mb_push (mkManifestBuilder [] previous) es.

Lemma mb_push_Ok b e b' :
  mb_push b e = Ok b' ->
  existsb (fun held => String.eqb (mf_object held) (mf_object e)) (mb_entries b) = false /\
  meets (mb_entries b) e = Ok true /\ b' = mkManifestBuilder (mb_entries b ++ [e]) (mb_previous b).
Proof.
  unfold mb_push. case_match eqn:Hx; [done|]. intros (met & Hm & H)%res_bind_Ok. destruct met; [|done].
  by injection H as <-.
Qed.

Lemma built_manifest_inverts seen previous es b :
  Forall manifest_entry_wf es -> res_foldl mb_push (mkManifestBuilder seen previous) es = Ok b ->
  b = mkManifestBuilder (seen ++ es) previous /\
  inverts (wr_each encode_manifest_entry es) (decode_entries_loop (length es) seen) (seen ++ es).
Proof.
  intros Hwf. revert seen. induction Hwf as [|e es He _ IH]; simpl; intros seen.
  - intros [= <-]. rewrite app_nil_r. split; [done|]. apply inverts_nil.
  - intros (b1 & (Hd & Hm & ->)%mb_push_Ok & H2)%res_bind_Ok. simpl in *.
    destruct (IH _ H2) as [-> Hinv]. rewrite <-app_assoc in *. split; [done|].
    change (wr_each encode_manifest_entry (e :: es)) with (encode_manifest_entry e +> wr_each encode_manifest_entry es).
    eapply inverts_seq; [by apply encode_manifest_entry_inverts|]. rewrite Hd.
    eapply inverts_lift; [exact Hm|]. exact Hinv.
Qed.

Lemma encode_key_inverts previous :
  (forall key, previous = Some key -> name_wf key) -> inverts (encode_key previous) decode_optional_key previous.
Proof.
  intros Hp. apply inverts_end. unfold encode_key, decode_optional_key. destruct previous as [key|]; simpl.
  - specialize (Hp key eq_refl).
    eapply (inverts_name_then _ _ _ (fun name => rd! key := cu_lift (ObjectKey_new name) in rd_ret (Some key)));
      [apply Hp|by rewrite (proj2 (Z.eqb_neq _ _)) by (by apply name_len_pos)|].
    eapply inverts_lift; [by apply name_key|]. apply inverts_nil.
  - intros out out' Hout. unfold wr_seq, put_name in Hout. simpl in Hout. injection Hout as <-.
    exists (be_bytes 2 0). split; [done|]. eapply reads_check; [by apply (reads_cu_unsigned _ 2)|done].
Qed.

(** The entries of a builder follow one another. *)
Fixpoint entries_chain (prev : option ManifestEntry) (es : list ManifestEntry) : Prop :=
  match es with
  | [] => True
  | e :: es => (forall p, prev = Some p -> mf_end_offset p = Ok (mf_base_offset e)) /\ entries_chain (Some e) es
  end.

Lemma built_chain seen previous es b :
  res_foldl mb_push (mkManifestBuilder seen previous) es = Ok b -> entries_chain (last seen) es.
Proof.
  revert seen. induction es as [|e es IH]; simpl; intros seen; [done|].
  intros (b1 & (_ & Hm & ->)%mb_push_Ok & H2)%res_bind_Ok. simpl in *. apply IH in H2. rewrite last_snoc in H2.
  split; [|done]. intros p Hp. unfold meets in Hm. rewrite Hp in Hm. apply res_bind_Ok in Hm as (end_ & He & [= Hb]).
  zbool. by rewrite <-Hb.
Qed.

Definition entry_holds (e : ManifestEntry) (x : Offset) : Prop :=
  mf_base_offset e <= x /\ exists end_, mf_end_offset e = Ok end_ /\ x < end_.

Lemma mf_end_ge e end_ : mf_end_offset e = Ok end_ -> mf_base_offset e <= end_.
Proof.
  unfold mf_end_offset, Offset_add, i64_checked_add. case_match; [done|]. repeat case_match; simplify_eq; intros [= <-]; zbool; lia.
Qed.

(** Bases only grow along a chain. *)
Lemma chain_bases prev es e p :
  entries_chain prev es -> prev = Some p -> e ∈ es -> exists end_, mf_end_offset p = Ok end_ /\ end_ <= mf_base_offset e.
Proof.
  revert prev p. induction es as [|f es IH]; simpl; intros prev p Hall Heq; [set_solver|].
  destruct Hall as [Hp Hc]. specialize (Hp p Heq). intros [->|Hin]%elem_of_cons.
  - eexists. split; [done|]. lia.
  - destruct (IH _ _ Hc eq_refl Hin) as (end_ & He & Hle). apply mf_end_ge in He. eexists. split; [done|]. lia.
Qed.

Lemma chain_partition_point prev es i e x :
  entries_chain prev es -> es !! i = Some e -> entry_holds e x ->
  partition_point (fun e => mf_base_offset e <=? x) es = S i.
Proof.
  revert prev i. induction es as [|f es IH]; simpl; intros prev i; [done|]. intros [_ Hc] Hi [Hb (end_ & He & Hx)].
  destruct i as [|i]; simpl in Hi.
  - injection Hi as ->. rewrite (proj2 (Z.leb_le _ _)) by done. f_equal. destruct es as [|g es]; [done|]. simpl.
    destruct (chain_bases _ _ g _ Hc eq_refl ltac:(set_solver)) as (end2 & He2 & Hle).
    rewrite He in He2. injection He2 as ->. by rewrite (proj2 (Z.leb_gt _ _)) by lia.
  - assert (e ∈ es) as Hin by (by eapply list_elem_of_lookup_2).
    destruct (chain_bases _ _ e _ Hc eq_refl Hin) as (end2 & He2%mf_end_ge & Hle).
    rewrite (proj2 (Z.leb_le _ _)) by lia. f_equal. eapply IH; [done|done|]. split; eauto.
Qed.

Lemma partition_point_last {A} (p : A -> bool) l n : partition_point p l = S n -> exists a, l !! n = Some a /\ p a = true.
Proof.
  revert n. induction l as [|a l IH]; simpl; [done|]. intros n. destruct (p a) eqn:Hp; [|done]. intros [= Hn].
  destruct n as [|n]; [by exists a|]. by apply IH.
Qed.

Lemma pm_find_spec es previous x e :
  entries_chain None es ->
  pm_find (mkPartitionManifest es previous) x = Some e <-> e ∈ es /\ entry_holds e x.
Proof.
  intros Hc. unfold pm_find, pm_position; simpl. split.
  - destruct (partition_point _ es) as [|n] eqn:Hpp; [done|].
    destruct (partition_point_last _ _ _ Hpp) as (e' & He' & Hb). rewrite He'. simpl.
    destruct (mf_end_offset e') as [end_|er|] eqn:Hend; simpl; [|done..].
    destruct (x <? end_) eqn:Hx; simpl; [|done]. rewrite He'. intros [= <-]. zbool.
    split; [by eapply list_elem_of_lookup_2|]. split; [done|]. eauto.
  - intros [(i & Hi)%list_elem_of_lookup_1 Hh]. rewrite (chain_partition_point _ _ _ _ _ Hc Hi Hh), Hi. simpl.
    destruct Hh as [_ (end_ & -> & Hx)]. by rewrite (proj2 (Z.ltb_lt _ _)) by done.
Qed.

(** C39. A partition manifest reads back as it was sealed, and finds what it
    covers: for whatever entries the builder accepts, parsing the sealed bytes
    gives those entries and the previous manifest, and looking an offset up by
    binary search gives the one entry whose range holds it, or nothing when none
    does. *)
Theorem manifest_round_trip (previous : option ObjectKey) (es : list ManifestEntry) b bytes_ :
  Forall manifest_entry_wf es -> (forall key, previous = Some key -> name_wf key) ->
  build_manifest previous es = Ok b -> mb_seal b = Ok bytes_ ->
  exists m, parse_partition_manifest bytes_ = Ok m /\ pm_entries m = es /\ pm_previous m = previous /\
    forall x e, pm_find m x = Some e <-> e ∈ es /\ entry_holds e x.
Proof.
  intros Hwf Hprev Hb Hs. exists (mkPartitionManifest es previous).
  pose proof (built_chain _ _ _ _ Hb) as Hchain. destruct (built_manifest_inverts _ _ _ _ Hwf Hb) as [-> Hinv].
  split_and!; [|done|done|]. 2:{ intros x e. by apply pm_find_spec. }
  unfold mb_seal in Hs; simpl in Hs. case_bool_decide as Hne; [done|].
  apply res_bind_Ok in Hs as (out & Hout & Htr). apply put_trailer_Ok in Htr as (-> & Hc & Hl).
  destruct (inverts_seq _ _ decode_optional_key (fun p => rd! es := decode_entries_loop (length es) [] in
    rd_ret (mkPartitionManifest es p)) previous (mkPartitionManifest es previous)
    (encode_key_inverts _ Hprev) (inverts_last _ _ (fun es => mkPartitionManifest es previous) es Hinv) _ _ Hout)
    as (body & -> & Hr). rewrite app_nil_l in *. clear Hout.
  unfold parse_partition_manifest.
  destruct (trailer_reads MalformedPartitionManifest PARTITION_MANIFEST_VERSION PARTITION_MANIFEST_MAGIC
    (Z.of_nat (length es)) (Z.of_nat (length body))) as (T1 & T2 & T3 & T4); [done|lia|simpl in Hl; lia|done|].
  set (trailer := be_bytes 4 _ ++ _) in *.
  assert (drop 9 trailer = PARTITION_MANIFEST_MAGIC) as T5.
  { unfold trailer. rewrite drop_app_ge by (rewrite be_bytes_length; lia). by rewrite be_bytes_length. }
  clearbody trailer. rewrite length_app, T4.
  rewrite (proj2 (Z.ltb_ge _ _)) by (unfold PARTITION_MANIFEST_TRAILER_LEN; lia).
  replace (length body + 13 - length PARTITION_MANIFEST_MAGIC)%nat with (length body + 9)%nat by (simpl; lia).
  rewrite drop_app_add, T5, bool_decide_true by done. simpl.
  replace (Z.of_nat (length body + 13) - PARTITION_MANIFEST_TRAILER_LEN) with (Z.of_nat (length body))
    by (unfold PARTITION_MANIFEST_TRAILER_LEN; lia).
  rewrite Nat2Z.id, drop_app_length, take_app_length, T1. simpl. rewrite T2. simpl. rewrite T3. simpl.
  rewrite (proj2 (Z.eqb_neq _ _)) by (destruct es; simpl; [done|lia]). rewrite Z.eqb_refl. simpl.
  specialize (Hr [] []). rewrite app_nil_r in Hr. simpl in Hr. unfold rd_bind in Hr.
  apply res_bind_Ok in Hr as ([p at1] & -> & Hr). simpl. apply res_bind_Ok in Hr as ([l at2] & Hl2 & [= -> <- ->]).
  rewrite Nat2Z.id, Hl2. simpl. by rewrite Z.eqb_refl.
Qed.

Definition demo_manifest_entries : list ManifestEntry :=
  [mkManifestEntry "a" 3 2 (Bounded 0 10); mkManifestEntry "b" 5 4 (Bounded 7 1)].
Definition demo_manifest_builder : PartitionManifestBuilder :=
  match build_manifest (Some "p") demo_manifest_entries with Ok b => b | _ => PartitionManifestBuilder_new end.
Definition demo_manifest_bytes : bytes := match mb_seal demo_manifest_builder with Ok b => b | _ => [] end.

Lemma manifest_round_trip_witness :
  exists m, parse_partition_manifest demo_manifest_bytes = Ok m /\ pm_find m 6 = Some (mkManifestEntry "b" 5 4 (Bounded 7 1)).
Proof.
  destruct (manifest_round_trip (Some "p") demo_manifest_entries demo_manifest_builder demo_manifest_bytes) as (m & Hm & _ & _ & Hf).
  - constructor; [|constructor; [|constructor]]; (split; [split; [reflexivity|discriminate]|vm_decide|vm_decide|]);
      eexists _, _; (split; [reflexivity|vm_decide]).
  - intros key [= <-]. split; [reflexivity|discriminate].
  - vm_compute. reflexivity.
  - vm_compute. reflexivity.
  - exists m. split; [exact Hm|]. apply Hf. split; [apply list_elem_of_further, list_elem_of_here|]. split; [simpl; lia|].
    exists 9. vm_compute. split; reflexivity.
Defined.

(** ** Composites *)

(** A composite holds regions whose bytes are known and not sealed. *)
Definition component_wf (c : Component) : Prop :=
  name_wf (co_object c) /\
  Forall (fun r => region_wf r /\ rg_record_count r <> 0 /\ (rg_alg r = AlgNone -> rg_envelope r = None)) (co_regions c).

Definition build_composite (cs : list Component) : Res CompositeBuilder :=
  res_foldl (fun b c => cb_push b (co_object c) (co_regions c)) CompositeBuilder_new cs.

Lemma encode_component_region_inverts r :
  region_wf r -> rg_record_count r <> 0 -> (rg_alg r = AlgNone -> rg_envelope r = None) ->
  inverts (encode_component_region r) decode_region r.
Proof.
  intros [[Hts Htn] [Hp0 Hp1] Hc Hr _] Hne Henv out out' Hout.
  assert (rg_alg r = AlgNone /\ exists off len, rg_bytes r = Bounded off len) as (Halg & off & len & Hb).
  { unfold encode_component_region, wr_seq in Hout. do 4 apply res_bind_Ok in Hout as (? & ? & Hout).
    split; [by case_decide|]. destruct (rg_bytes r) as [|off len]; [done|eauto]. }
  destruct (Hr off len Hb) as [Ho Hl]. revert out out' Hout. change (inverts (encode_component_region r) decode_region r).
  unfold encode_component_region, decode_region. rewrite Hb, decide_True by done.
  eapply inverts_name_then; [done|done|]. eapply inverts_lift; [unfold TopicId_new; by rewrite decide_False|].
  rewrite Z.abs_eq by done. eapply inverts_seq; [apply inverts_cu_u32; width|].
  rewrite (proj2 (Z.leb_le _ _)) by done. simpl.
  eapply inverts_lift; [unfold PartitionId_new; by rewrite (proj2 (Z.ltb_ge _ _))|].
  apply inverts_at. intros at_. unfold decode_region_from. eapply inverts_seq; [by apply inverts_cu_u32|].
  rewrite (proj2 (Z.eqb_neq _ _)) by done. apply inverts_manifest_range; [done|mlia|]. apply inverts_end.
  eapply inverts_seq; [apply (inverts_cu_byte _ (RegionAlg_code (rg_alg r))); by rewrite Halg|].
  rewrite Halg. eapply inverts_lift; [done|]. simpl.
  eapply inverts_lift; [unfold ByteRange_bounded; by rewrite (proj2 (Z.eqb_neq _ _)) by lia|].
  rewrite <-Hb, <-Halg, <-(Henv Halg) at 1. destruct r. apply inverts_nil.
Qed.

Lemma encode_component_inverts c :
  component_wf c -> co_regions c <> [] -> inverts (encode_component c) decode_component c.
Proof.
  intros [Hn Hr] Hne. unfold encode_component, decode_component. eapply inverts_name_then; [apply Hn|done|].
  eapply inverts_lift; [by apply name_key|]. intros out out' (out1 & H1 & H2)%res_bind_Ok.
  destruct (_ <=? u32_max) eqn:Hle; [|done]. apply Ok_inj in H1 as <-. zbool.
  destruct (inverts_each encode_component_region decode_region (co_regions c)) with
    (2 := H2) as (bs & -> & Hreads).
  { eapply Forall_impl; [exact Hr|]. intros r (? & ? & ?). by apply encode_component_region_inverts. }
  eexists. split; [by rewrite <-app_assoc|]. eapply reads_bind; [apply (reads_cu_unsigned _ 4); width|].
  rewrite (proj2 (Z.eqb_neq _ _)) by (destruct (co_regions c); simpl; [done|lia]). rewrite Nat2Z.id.
  eapply reads_check; [exact Hreads|]. intros buf at_. by destruct c.
Qed.

Record composed (cs : list Component) (b : CompositeBuilder) : Prop := {
  cd_components : cb_components b = cs;
  cd_seen : forall k, k ∈ cb_seen b <-> k ∈ map co_object cs;
  cd_regions : Forall (fun c => co_regions c <> []) cs;
}.

Lemma built_composite_inverts seen es b b' :
  Forall component_wf es -> composed seen b ->
  res_foldl (fun b c => cb_push b (co_object c) (co_regions c)) b es = Ok b' ->
  composed (seen ++ es) b' /\
  inverts (wr_each encode_component es) (decode_components_loop (length es) seen) (seen ++ es).
Proof.
  intros Hwf. revert seen b. induction Hwf as [|e es He _ IH]; simpl; intros seen b Hc.
  - intros [= <-]. rewrite app_nil_r. split; [done|]. apply inverts_nil.
  - destruct Hc as [H1 H2 H3]. intros (b1 & Hp & Hrest)%res_bind_Ok. unfold cb_push in Hp.
    case_bool_decide as Hne; [done|]. case_decide as Hin; [done|]. destruct (existsb _ _); [done|]. injection Hp as <-.
    apply (IH (seen ++ [e])) in Hrest as [Hc Hinv].
    2:{ split; simpl; [rewrite H1; by destruct e| |apply Forall_app; by split; [|constructor]].
        intros k. rewrite map_app. simpl. specialize (H2 k). set_solver. }
    rewrite <-app_assoc in *. split; [done|].
    change (wr_each encode_component (e :: es)) with (encode_component e +> wr_each encode_component es).
    eapply inverts_seq; [by apply encode_component_inverts|].
    replace (existsb _ seen) with false; [exact Hinv|]. symmetry. apply not_true_is_false. intros Hex.
    apply existsb_exists in Hex as (held & Hh%list_elem_of_In & Heq%String.eqb_eq). apply Hin, H2.
    rewrite <-Heq. by apply list_elem_of_fmap_2.
Qed.

(** A composite reads back as it was sealed: for whatever components the
    builder accepts and seals, parsing gives the same components in the same
    order. *)
Theorem composite_round_trip (cs : list Component) b bytes_ :
  Forall component_wf cs -> build_composite cs = Ok b -> cb_seal b = Ok bytes_ -> parse_composite bytes_ = Ok cs.
Proof.
  intros Hwf Hb Hs. destruct (built_composite_inverts [] cs CompositeBuilder_new b) as [[H1 _ _] Hinv]; [done| |done|].
  { split; simpl; [done|set_solver|constructor]. }
  simpl in *. unfold cb_seal in Hs. rewrite H1 in Hs. case_bool_decide as Hne; [done|].
  apply res_bind_Ok in Hs as (out & Hout & Htr). apply put_trailer_Ok in Htr as (-> & Hc & Hl).
  destruct (Hinv _ _ Hout) as (body & -> & Hr). rewrite app_nil_l in *. clear Hout. unfold parse_composite.
  destruct (trailer_reads MalformedCompositeManifest COMPOSITE_FORMAT_VERSION COMPOSITE_MAGIC
    (Z.of_nat (length cs)) (Z.of_nat (length body))) as (T1 & T2 & T3 & T4); [done|lia|lia|done|].
  set (trailer := be_bytes 4 _ ++ _) in *.
  assert (drop 9 trailer = COMPOSITE_MAGIC) as T5.
  { unfold trailer. rewrite drop_app_ge by (rewrite be_bytes_length; lia). by rewrite be_bytes_length. }
  clearbody trailer. rewrite length_app, T4.
  rewrite (proj2 (Z.ltb_ge _ _)) by (unfold COMPOSITE_TRAILER_LEN; lia).
  replace (length body + 13 - length COMPOSITE_MAGIC)%nat with (length body + 9)%nat by (simpl; lia).
  rewrite drop_app_add, T5, bool_decide_true by done. simpl.
  replace (Z.of_nat (length body + 13) - COMPOSITE_TRAILER_LEN) with (Z.of_nat (length body))
    by (unfold COMPOSITE_TRAILER_LEN; lia).
  rewrite Nat2Z.id, drop_app_length, take_app_length, T1. simpl. rewrite T2. simpl. rewrite T3. simpl.
  rewrite (proj2 (Z.eqb_neq _ _)) by (destruct cs; simpl; [done|lia]). rewrite Z.eqb_refl. simpl.
  specialize (Hr [] []). rewrite app_nil_r in Hr. simpl in Hr. rewrite Nat2Z.id, Hr. simpl. by rewrite Z.eqb_refl.
Qed.
