(* ===== verification/Stream.v ===== *)
(** * Stream: a bundle written in parts

    Models [oqueue-core]'s [MultipartWriter] trait ([store.rs]) as a class with
    its documented guarantees as laws, the in-memory store's writer
    ([store/fake.rs]), the limits of [multipart.rs], [bundle_stream.rs] and
    [bundle_name.rs]. *)

From stdpp Require Import base tactics list numbers strings gmap.
From Stdlib Require Import ZArith Lia.
From S2P Require Import Prelude Bytes Types Store Machine Segment Bundle.

Open Scope Z_scope.

(** ** The trait *)

Class MultipartStore (S : Type) : Type := {
  mw_writer : Type;
  mw_open : ObjectKey -> S -> S * Res mw_writer;
  mw_write_part : mw_writer -> bytes -> S -> S * mw_writer * Res unit;
  mw_finish : mw_writer -> S -> S * Res ObjectMeta;
}.

(** What the trait documents: the parts appear as one object, whole, when
    [finish] answers, and not before; a writer that failed is not usable.
    [mw_state] is the key and, while the writer is usable, what it holds. *)
Class MultipartLaws (S : Type) `{ObjectStoreLaws S, !MultipartStore S} : Type := {
  mw_state : mw_writer -> ObjectKey * option bytes;
  open_law : forall key s s' r, mw_open key s = (s', r) ->
    objects s' = objects s /\ match r with Ok w => mw_state w = (key, Some []) | Err e => os_fault e | Panic => False end;
  write_law : forall w part s s' w' r, mw_write_part w part s = (s', w', r) ->
    objects s' = objects s /\
    match r with
    | Ok _ => exists held, (mw_state w).2 = Some held /\ mw_state w' = ((mw_state w).1, Some (held ++ part))
    | Err e => mw_state w' = ((mw_state w).1, None)
    | Panic => False
    end;
  finish_law : forall w s s' r, mw_finish w s = (s', r) ->
    match r with
    | Ok meta => exists held, (mw_state w).2 = Some held /\
        objects s' = <[(mw_state w).1 := (held, om_token meta)]> (objects s)
    | Err e => objects s' = objects s \/
        exists held token, (mw_state w).2 = Some held /\ objects s' = <[(mw_state w).1 := (held, token)]> (objects s)
    | Panic => False
    end;
}.

(** ** The in-memory store's writer *)

Record FakeMultipartWriter : Type := mkFakeMultipartWriter {
  fm_key : ObjectKey;
  fm_parts : bytes;
  fm_bytes : Z;
  fm_poisoned : bool;
}.

Definition fake_open_multipart (key : ObjectKey) (self : FakeObjectStore) : FakeObjectStore * Res FakeMultipartWriter :=
  let '(self, storm) := take_storm_error self in
  match storm with
  | Some err => (self, Err err)
  | None => (self, Ok (mkFakeMultipartWriter key [] 0 false))
  end.

Definition fake_write_part (w : FakeMultipartWriter) (part : bytes) (self : FakeObjectStore)
    : FakeObjectStore * FakeMultipartWriter * Res unit :=
  if fm_poisoned w then (self, w, Err Permanent)
  else
    let '(self, storm) := take_storm_error self in
    match storm with
    | Some err => (self, mkFakeMultipartWriter (fm_key w) (fm_parts w) (fm_bytes w) true, Err err)
    | None =>
        (self, mkFakeMultipartWriter (fm_key w) (fm_parts w ++ part)
           (u64_saturating_add (fm_bytes w) (Z.of_nat (length part))) false, Ok tt)
    end.

Definition fake_finish (w : FakeMultipartWriter) (self : FakeObjectStore) : FakeObjectStore * Res ObjectMeta :=
  if fm_poisoned w then (self, Err Permanent)
  else if fm_bytes w =? 0 then (self, Err EmptyBundle)
  else fake_put (fm_key w) (fm_parts w) None self.

#[export] Instance FakeMultipart : MultipartStore FakeObjectStore := {
  mw_writer := FakeMultipartWriter;
  mw_open := fake_open_multipart;
  mw_write_part := fake_write_part;
  mw_finish := fake_finish;
}.

#[export] Instance FakeMultipartLaws : MultipartLaws FakeObjectStore.
Proof.
  refine {| mw_state (w : mw_writer) := (fm_key w, if fm_poisoned w then None else Some (fm_parts w)) |}.
  - intros key s s' r. simpl. unfold fake_open_multipart. destruct (take_storm_error s) as [s1 [e|]] eqn:Hst;
      destruct (take_storm_error_slots _ _ _ Hst) as (Ho & _ & He); intros [= <- <-]; (split; [done|]); [by apply He|done].
  - intros w part s s' w' r. simpl. unfold fake_write_part. destruct (fm_poisoned w) eqn:Hp.
    { intros [= <- <- <-]. split; [done|]. by rewrite Hp. }
    destruct (take_storm_error s) as [s1 [e|]] eqn:Hst;
      destruct (take_storm_error_slots _ _ _ Hst) as (Ho & _ & He); intros [= <- <- <-]; (split; [done|]); [done|eauto].
  - intros w s s' r. simpl. unfold fake_finish. destruct (fm_poisoned w) eqn:Hp; [intros [= <- <-]; by left|].
    destruct (_ =? 0); [intros [= <- <-]; by left|]. intros Hput%fake_put_law. unfold put_spec in Hput.
    destruct r as [meta|e|]; [|destruct Hput as [(_ & Hn & _)|(_ & [->|(token & _ & ->)])]; [done|by left|by right; eauto]|done].
    destruct Hput as [_ ->]. eauto.
Qed.

(** ** Limits ([multipart.rs]) *)

Record MultipartLimits : Type := mkMultipartLimits {
  ml_min_part_size : Z;
  ml_max_part_size : Z;
  ml_max_parts : Z;
  ml_max_single_put : Z;
  ml_max_object_size : Z;
}.

Record MultipartSession : Type := mkMultipartSession { ms_limits : MultipartLimits; ms_parts : list Z }.

Definition MultipartSession_new (limits : MultipartLimits) : MultipartSession := mkMultipartSession limits [].

(** [try_fold(bytes, u64::checked_add)]. *)
Definition checked_sum (acc : option Z) (part : Z) : option Z := total ← acc; u64_checked_add total part.

Definition ms_add_part (self : MultipartSession) (bytes : Z) : Res (MultipartSession * Z) :=
  let limits := ms_limits self in
  if ml_max_part_size limits <? bytes then Err (PartTooLarge bytes (ml_max_part_size limits))
  else
    let part_number := Z.of_nat (length (ms_parts self)) + 1 in
    if negb ((part_number <=? u32_max) && (part_number <=? ml_max_parts limits))
    then Err (TooManyParts (ml_max_parts limits))
    else match foldl checked_sum (Some bytes) (ms_parts self) with
    | Some total =>
        if total <=? ml_max_object_size limits
        then Ok (mkMultipartSession limits (ms_parts self ++ [bytes]), part_number)
        else Err (ObjectTooLarge (ml_max_object_size limits))
    | None => Err (ObjectTooLarge (ml_max_object_size limits))
    end.

(** Every part but the last. *)
Fixpoint small_part (min : Z) (parts : list Z) : option Z :=
  match parts with
  | [] | [_] => None
  | part :: parts => if part <? min then Some part else small_part min parts
  end.

Definition ms_finish (self : MultipartSession) : Res (list Z) :=
  match small_part (ml_min_part_size (ms_limits self)) (ms_parts self) with
  | Some part => Err (PartTooSmall part (ml_min_part_size (ms_limits self)))
  | None => Ok (ms_parts self)
  end.

(** ** Names ([bundle_name.rs]) *)

Record BundleNamer : Type := mkBundleNamer { bn_writer : string; bn_next : Z }.

Definition BundleNamer_new (writer : string) : Res BundleNamer :=
  if String.eqb writer EmptyString then Err EmptyObjectKey
  else if existsb (Ascii.eqb (Ascii.ascii_of_nat 47)) (String.list_ascii_of_string writer) then Err MalformedWriterId
  else Ok (mkBundleNamer writer 0).

Definition bn_next_key (self : BundleNamer) : Res (BundleNamer * ObjectKey) :=
  let sequence := bn_next self in
  match u64_checked_add (bn_next self) 1 with
  | None => Err BundleSequenceExhausted
  | Some next =>
      let? key := ObjectKey_new ("bundles/" +:+ bn_writer self +:+ "/" +:+ pad20 sequence) in
      Ok (mkBundleNamer (bn_writer self) next, key)
  end.

(** ** The stream ([bundle_stream.rs]) *)

Definition BUNDLE_PART_BYTES : Z := 8388608.

Record Written : Type := mkWritten { wt_bytes : Z; wt_parts : Z }.

Section stream.
Context {S : Type} `{MultipartStore S}.

Record BundleStream : Type := mkBundleStream {
  bs_writer : mw_writer;
  bs_regions : BundleBuilder;
  bs_buffer : bytes;
  bs_written : Z;
  bs_parts : Z;
}.

Definition BundleStream_open (key : ObjectKey) (store : S) : S * Res BundleStream :=
  let '(store, r) := mw_open key store in
  (store, let? w := r in Ok (mkBundleStream w BundleBuilder_new [] 0 0)).

(** [while self.buffer.len() >= BUNDLE_PART_BYTES]: each turn takes that many
    bytes off the buffer, so the buffer's length bounds the turns. *)
Fixpoint flush_parts (fuel : nat) (part_bytes : Z) (self : BundleStream) (store : S) : S * BundleStream * Res unit :=
  match fuel with
  | O => (store, self, Ok tt)
  | Datatypes.S fuel =>
      if part_bytes <=? Z.of_nat (length (bs_buffer self)) then
        let part := take (Z.to_nat part_bytes) (bs_buffer self) in
        let rest := drop (Z.to_nat part_bytes) (bs_buffer self) in
        let '(store, w, r) := mw_write_part (bs_writer self) part store in
        match r with
        | Ok _ => flush_parts fuel part_bytes (mkBundleStream w (bs_regions self) rest (bs_written self) (bs_parts self + 1)) store
        | Err e => (store, mkBundleStream w (bs_regions self) rest (bs_written self) (bs_parts self), Err e)
        | Panic => (store, mkBundleStream w (bs_regions self) rest (bs_written self) (bs_parts self), Panic)
        end
      else (store, self, Ok tt)
  end.

(** The bytes of an accepted push, behind the ones before. *)
Definition bs_append (self : BundleStream) (regions : BundleBuilder) (records : bytes) (store : S)
    : S * BundleStream * Res unit :=
  let buffer := bs_buffer self ++ records in
  flush_parts (length buffer) BUNDLE_PART_BYTES
    (mkBundleStream (bs_writer self) regions buffer
       (u64_saturating_add (bs_written self) (Z.of_nat (length records))) (bs_parts self)) store.

Definition bs_push (self : BundleStream) (topic : TopicId) (partition : PartitionId) (pushed : PushedRecords)
    (records : bytes) (store : S) : S * BundleStream * Res unit :=
  match bb_push_streamed (bs_regions self) topic partition pushed (bs_written self) (Z.of_nat (length records)) with
  | Ok regions => bs_append self regions records store
  | Err e => (store, self, Err e)
  | Panic => (store, self, Panic)
  end.

Definition bs_push_sealed (self : BundleStream) (topic : TopicId) (partition : PartitionId) (pushed : PushedRecords)
    (sealed : SealedRegion) (store : S) : S * BundleStream * Res unit :=
  match bb_push_sealed (bs_regions self) topic partition pushed sealed with
  | Ok regions => bs_append self regions (sr_bytes sealed) store
  | Err e => (store, self, Err e)
  | Panic => (store, self, Panic)
  end.

Definition bs_finish (self : BundleStream) (store : S) : S * Res (list CommittedSpan * Written) :=
  match bb_into_footer (bs_regions self) with
  | Ok (footer, spans) =>
      let '(store, w, r) := mw_write_part (bs_writer self) (bs_buffer self ++ footer) store in
      match r with
      | Ok _ =>
          let '(store, r) := mw_finish w store in
          (store, let? _ := r in Ok (spans, mkWritten (bs_written self) (bs_parts self + 1)))
      | Err e => (store, Err e)
      | Panic => (store, Panic)
      end
  | Err e => (store, Err e)
  | Panic => (store, Panic)
  end.
End stream.
Arguments BundleStream S {_}.
