(* ===== verification/Merge.v ===== *)
(** * Merge: rewriting the objects of a plan into one

    Models [oqueue-compact]'s [merge.rs] with [merge/outcome.rs] and
    [merge_round] of [layout.rs], [compose.rs] and
    [oqueue-core]'s [key_domain.rs] and [region_resealer.rs].  The re-sealer is
    the [RegionReSealer] trait object, a parameter.  The store is passed from
    call to call; the objects a merge reads are never rewritten, so what other
    processes do to a store meanwhile does not concern it. *)

From stdpp Require Import base tactics list numbers strings gmap.
From Stdlib Require Import ZArith Lia.
From S2P Require Import Prelude Bytes Types Store Machine Coverage Partition IndexFold Compact Segment Bundle Manifest Stream.

Open Scope Z_scope.

(** ** Key domains ([key_domain.rs], [region_resealer.rs]) *)

Inductive KeyDomain : Type := DefaultDomain | Customer (key_id : string).

Definition requires_sealing (self : KeyDomain) : bool := match self with Customer _ => true | DefaultDomain => false end.
Definition kd_key_id (self : KeyDomain) : option string := match self with Customer key_id => Some key_id | DefaultDomain => None end.

Definition validate_region (self : KeyDomain) (region : Region) : Res unit :=
  let expected_sealed := requires_sealing self in
  if negb (Bool.eqb (bool_decide (rg_alg region <> AlgNone)) expected_sealed)
  then Err (RegionKeyDomainMismatch expected_sealed)
  else match kd_key_id self with
  | Some expected_key =>
      if match rg_envelope region with Some e => bool_decide (re_key_id e <> expected_key) | None => true end
      then Err (RegionKeyDomainMismatch expected_sealed) else Ok tt
  | None => Ok tt
  end.

Record ResealRequest : Type := mkResealRequest {
  rq_domain : KeyDomain;
  rq_topic : TopicId;
  rq_partition : PartitionId;
  rq_output_region_index : Z;
  rq_region : Region;
  rq_bytes : bytes;
}.

(** [ResealedRegion] holds what [as_sealed_region] hands on. *)
Definition validate_domain (self : SealedRegion) (domain : KeyDomain) : Res unit :=
  let expected_sealed := requires_sealing domain in
  if negb (Bool.eqb (bool_decide (sr_alg self <> AlgNone)) expected_sealed) ||
     match kd_key_id domain with Some expected => bool_decide (re_key_id (sr_envelope self) <> expected) | None => false end
  then Err (RegionKeyDomainMismatch expected_sealed) else Ok tt.

(** ** A store call and what follows it *)

Section merging.
Context {S : Type} `{ObjectStore S, !MultipartStore S}.

Definition SM (A : Type) : Type := S -> S * Res A.
Definition sm_ret {A} (r : Res A) : SM A := fun s => (s, r).
Definition sm_bind {A B} (m : SM A) (k : A -> SM B) : SM B := fun s =>
  let '(s, r) := m s in
  match r with Ok a => k a s | Err e => (s, Err e) | Panic => (s, Panic) end.
Local Notation "'do!' x ':=' m 'in' k" := (sm_bind m (fun x => k)) (at level 10, x pattern, m at level 200, k at level 200).

(** A stream operation; [?] drops the stream on an error. *)
Definition streaming (op : S -> S * BundleStream S * Res unit) : SM (BundleStream S) := fun s =>
  let '(s, stream, r) := op s in (s, let? _ := r in Ok stream).

(** ** One input ([merge.rs]) *)

Record CompactionDomain : Type := mkCompactionDomain {
  cd_domain : KeyDomain;
  cd_resealer : option (ResealRequest -> Res SealedRegion);
}.

Definition append_region (plan : CompactionPlan) (security : CompactionDomain) (stream : BundleStream S)
    (pushed : PushedRecords) (region : Region) (slice : bytes) (output_region_index : Z) : SM (BundleStream S) :=
  if negb (requires_sealing (cd_domain security))
  then streaming (bs_push stream (cp_topic plan) (cp_partition plan) pushed slice)
  else match cd_resealer security with
  | None => sm_ret (Err (RegionKeyDomainMismatch true))
  | Some reseal =>
      do! output := sm_ret (reseal (mkResealRequest (cd_domain security) (cp_topic plan) (cp_partition plan)
                                      output_region_index region slice)) in
      do! _ := sm_ret (validate_domain output (cd_domain security)) in
      streaming (bs_push_sealed stream (cp_topic plan) (cp_partition plan) pushed output)
  end.

(** The state of the loop of [take_regions]: the stream, [taken] and the next
    output region. *)
Record Taking : Type := mkTaking { tk_stream : BundleStream S; tk_taken : Z; tk_next : Z }.

Definition u32_saturating_add (a b : Z) : Z := Z.min (a + b) u32_max.

Definition take_region (object : bytes) (plan : CompactionPlan) (security : CompactionDomain) (st : Taking) (region : Region)
    : SM Taking :=
  if negb (bool_decide (rg_topic region = cp_topic plan) && (rg_partition region =? cp_partition plan)) then sm_ret (Ok st)
  else
    do! _ := sm_ret (validate_region (cd_domain security) region) in
    match rg_bytes region with
    | Full => sm_ret (Err UnboundedRegion)
    | Bounded offset len =>
        if Z.of_nat (length object) <? u64_saturating_add offset len
        then sm_ret (Err (MalformedBundleFooter offset))
        else
          let slice := take (Z.to_nat len) (drop (Z.to_nat offset) object) in
          do! stream := append_region plan security (tk_stream st) (mkPushedRecords (rg_record_count region) None)
                          region slice (tk_next st) in
          sm_ret (Ok (mkTaking stream (u32_saturating_add (tk_taken st) (rg_record_count region))
                        (u32_saturating_add (tk_next st) 1)))
    end.

Fixpoint take_regions_loop (object : bytes) (plan : CompactionPlan) (security : CompactionDomain) (st : Taking)
    (regions : list Region) : SM Taking :=
  match regions with
  | [] => sm_ret (Ok st)
  | region :: regions => do! st := take_region object plan security st region in take_regions_loop object plan security st regions
  end.

Definition take_regions (object : bytes) (plan : CompactionPlan) (security : CompactionDomain) (reference : ObjectRef)
    (stream : BundleStream S) (next_output_region : Z) : SM (BundleStream S * Z * Z) :=
  do! regions := sm_ret (parse_footer object (Z.of_nat (length object))) in
  do! st := take_regions_loop object plan security (mkTaking stream 0 next_output_region) regions in
  if negb (tk_taken st =? or_record_count reference) then sm_ret (Err IndexObjectMismatch)
  else sm_ret (Ok (tk_stream st, tk_next st, tk_taken st)).

(** ** All inputs of a plan *)

Fixpoint gather_loop (plan : CompactionPlan) (security : CompactionDomain) (covering : list ObjectRef)
    (stream : BundleStream S) (next gets records : Z) : SM (BundleStream S * Z * Z) :=
  match covering with
  | [] => sm_ret (Ok (stream, gets, records))
  | reference :: covering =>
      do! object := os_get (or_object reference) Full in
      do! (stream, next, taken) := take_regions object plan security reference stream next in
      gather_loop plan security covering stream next (gets + 1) (records + taken)
  end.

Definition gather (plan : CompactionPlan) (inputs : list ObjectRef) (security : CompactionDomain) (stream : BundleStream S)
    : SM (BundleStream S * Z * Z) :=
  do! covering := sm_ret (tiling plan inputs) in gather_loop plan security covering stream 0 0 0.

(** ** Merging a plan, and a round of plans *)

Record MergeOutcome : Type := mkMergeOutcome {
  mo_gets : Z;
  mo_puts : Z;
  mo_records : Z;
  mo_spans : list CommittedSpan;
  mo_written : Written;
  mo_object : option ObjectKey;
}.

Definition MergeOutcome_empty : MergeOutcome := mkMergeOutcome 0 0 0 [] (mkWritten 0 0) None.

(** The name is spent whatever becomes of the merge. *)
Definition named (namer : CompactionNamer) (write : ObjectKey -> SM MergeOutcome) (store : S)
    : S * CompactionNamer * Res MergeOutcome :=
  match next_key namer with
  | Ok (namer, output) => let '(store, r) := write output store in (store, namer, r)
  | Err e => (store, namer, Err e)
  | Panic => (store, namer, Panic)
  end.

Definition merge_in_domain (plan : CompactionPlan) (inputs : list ObjectRef) (namer : CompactionNamer)
    (security : CompactionDomain) : S -> S * CompactionNamer * Res MergeOutcome :=
  named namer (fun output =>
    do! stream := BundleStream_open output in
    do! (stream, gets, records) := gather plan inputs security stream in
    do! (spans, written) := bs_finish stream in
    sm_ret (Ok (mkMergeOutcome gets 1 records spans written (Some output)))).

Definition plain : CompactionDomain := mkCompactionDomain DefaultDomain None.

Definition merge (plan : CompactionPlan) (inputs : list ObjectRef) (namer : CompactionNamer)
    : S -> S * CompactionNamer * Res MergeOutcome := merge_in_domain plan inputs namer plain.

Fixpoint round_loop (ordered : list PlannedInputs) (stream : BundleStream S) (gets records : Z)
    : SM (BundleStream S * Z * Z) :=
  match ordered with
  | [] => sm_ret (Ok (stream, gets, records))
  | planned :: ordered =>
      do! (stream, read, moved) := gather (pi_plan planned) (pi_inputs planned) plain stream in
      round_loop ordered stream (gets + read) (records + moved)
  end.

Definition merge_round (round : list PlannedInputs) (namer : CompactionNamer) (store : S)
    : S * CompactionNamer * Res MergeOutcome :=
  if bool_decide (round = []) then (store, namer, Ok MergeOutcome_empty)
  else match order_round round with
  | Ok ordered =>
      named namer (fun output =>
        do! stream := BundleStream_open output in
        do! (stream, gets, records) := round_loop ordered stream 0 0 in
        do! (spans, written) := bs_finish stream in
        sm_ret (Ok (mkMergeOutcome gets 1 records spans written (Some output)))) store
  | Err e => (store, namer, Err e)
  | Panic => (store, namer, Panic)
  end.

(** ** Composing ([compose.rs]) *)

Record ComposeOutcome : Type := mkComposeOutcome { cp_gets : Z; cp_components : nat; cp_manifest_bytes : nat }.

Fixpoint compose_loop (ordered : list ObjectRef) (builder : CompositeBuilder) (gets : Z) : SM (CompositeBuilder * Z) :=
  match ordered with
  | [] => sm_ret (Ok (builder, gets))
  | reference :: ordered =>
      do! object := os_get (or_object reference) Full in
      do! regions := sm_ret (parse_footer object (Z.of_nat (length object))) in
      do! builder := sm_ret (cb_push builder (or_object reference) regions) in
      compose_loop ordered builder (gets + 1)
  end.

Definition compose (components : list ObjectRef) (output : ObjectKey) : SM ComposeOutcome :=
  do! (builder, gets) := compose_loop (sort_by_key or_base_offset components) CompositeBuilder_new 0 in
  do! manifest := sm_ret (cb_seal builder) in
  do! _ := os_put output manifest None in
  sm_ret (Ok (mkComposeOutcome gets (length (cb_components builder)) (length manifest))).

Definition read_composite (key : ObjectKey) : SM (list Component) :=
  do! object := os_get key Full in sm_ret (parse_composite object).
End merging.
