(* ===== verification/MergeProps.v ===== *)
(** * MergeProps: a merge loses no record and duplicates none *)

From stdpp Require Import base tactics list numbers strings gmap sorting.
From Stdlib Require Import ZArith Lia.
From S2P Require Import Prelude Bytes Types Store Machine Coverage Partition IndexFold Compact Segment SegmentProps.
From S2P Require Import Bundle BundleProps Stream Merge.

Open Scope Z_scope.

(** ** What a stream holds *)

(** The regions of a stream's pushes: positions are counted in [u64]s, and
    saturate. *)
Fixpoint stream_regions (at_ : Z) (ps : list Push) : list Region :=
  match ps with
  | [] => []
  | p :: ps => region_of at_ p :: stream_regions (u64_saturating_add at_ (Z.of_nat (length (push_bytes p)))) ps
  end.

Definition pushed_bytes (ps : list Push) : bytes := concat (map push_bytes ps).
Definition pushed_len (ps : list Push) : Z := Z.of_nat (length (pushed_bytes ps)).

Lemma pushed_bytes_app ps qs : pushed_bytes (ps ++ qs) = pushed_bytes ps ++ pushed_bytes qs.
Proof. unfold pushed_bytes. by rewrite map_app, concat_app. Qed.

Lemma pushed_len_app ps qs : pushed_len (ps ++ qs) = pushed_len ps + pushed_len qs.
Proof. unfold pushed_len. rewrite pushed_bytes_app, length_app. lia. Qed.

Lemma pushed_len_cons p ps : pushed_len (p :: ps) = Z.of_nat (length (push_bytes p)) + pushed_len ps.
Proof. unfold pushed_len, pushed_bytes. simpl. rewrite length_app. lia. Qed.

Lemma pushed_len_nonneg ps : 0 <= pushed_len ps.
Proof. unfold pushed_len. lia. Qed.

Lemma stream_regions_app at_ ps qs :
  0 <= at_ <= u64_max ->
  stream_regions at_ (ps ++ qs) = stream_regions at_ ps ++ stream_regions (Z.min (at_ + pushed_len ps) u64_max) qs.
Proof.
  revert at_. induction ps as [|p ps IH]; intros at_ Hat; simpl.
  - f_equal. unfold pushed_len; simpl. lia.
  - rewrite IH by (unfold u64_saturating_add; lia). do 3 f_equal. rewrite pushed_len_cons.
    unfold u64_saturating_add. pose proof (pushed_len_nonneg ps). lia.
Qed.

Lemma stream_regions_exact at_ ps : 0 <= at_ -> at_ + pushed_len ps <= u64_max -> stream_regions at_ ps = regions_of at_ ps.
Proof.
  revert at_. induction ps as [|p ps IH]; intros at_ H0 Hle; simpl; [done|].
  rewrite pushed_len_cons in Hle. pose proof (pushed_len_nonneg ps).
  replace (u64_saturating_add at_ _) with (at_ + Z.of_nat (length (push_bytes p))) by (unfold u64_saturating_add; lia).
  rewrite IH; [done|lia|lia].
Qed.

Section streams.
Context {S : Type} `{MultipartLaws S}.

Record streamed (key : ObjectKey) (ps : list Push) (st : BundleStream S) : Prop := {
  sm_state : exists sent, mw_state (bs_writer st) = (key, Some sent) /\ sent ++ bs_buffer st = pushed_bytes ps;
  sm_regions : bb_regions (bs_regions st) = stream_regions 0 ps;
  sm_producers : bb_producers (bs_regions st) = map (fun p => pr_producer (push_records p)) ps;
  sm_accepted : Forall push_accepted ps;
  sm_written : bs_written st = Z.min (pushed_len ps) u64_max;
}.

Lemma open_streamed key s s' r :
  BundleStream_open key s = (s', r) ->
  objects s' = objects s /\ forall st, r = Ok st -> streamed key [] st.
Proof.
  unfold BundleStream_open. destruct (mw_open key s) as [s1 r1] eqn:Ho. intros [= <- <-].
  destruct (open_law _ _ _ _ Ho) as [Hobj Hr]. split; [done|].
  intros st (w & -> & [= <-])%res_bind_Ok. split; simpl; try done. exists []. by rewrite Hr.
Qed.

(** Flushing whole parts moves bytes from the buffer to the writer. *)
Lemma flush_parts_streamed fuel n key ps st s s' st' r :
  streamed key ps st -> flush_parts fuel n st s = (s', st', r) ->
  objects s' = objects s /\ (r = Ok tt -> streamed key ps st').
Proof.
  revert st s. induction fuel as [|fuel IH]; simpl; intros st s Hst; [by intros [= <- <- <-]|].
  destruct (n <=? _); [|by intros [= <- <- <-]].
  destruct (mw_write_part _ _ s) as [[s1 w] r1] eqn:Hw. destruct (write_law _ _ _ _ _ _ Hw) as [Ho Hr].
  destruct r1 as [[]|e|]; [|intros [= <- <- <-]; done..].
  intros Hf. rewrite <-Ho. apply (IH _ _) in Hf; [done|].
  destruct Hst as [(sent & E1 & E2) E3 E4 E5 E6]. rewrite E1 in Hr. destruct Hr as (held & [= <-] & Hw').
  split; simpl; try done. eexists. split; [done|]. by rewrite <-app_assoc, take_drop.
Qed.

Lemma bs_append_streamed key ps p st regions s s' st' r :
  streamed key ps st -> push_accepted p ->
  bb_regions regions = bb_regions (bs_regions st) ++ [region_of (bs_written st) p] ->
  bb_producers regions = bb_producers (bs_regions st) ++ [pr_producer (push_records p)] ->
  bs_append st regions (push_bytes p) s = (s', st', r) ->
  objects s' = objects s /\ (r = Ok tt -> streamed key (ps ++ [p]) st').
Proof.
  intros [(sent & E1 & E2) E3 E4 E5 E6] Hp Hr Hpr Ha. unfold bs_append in Ha.
  eapply flush_parts_streamed; [|exact Ha]. split; simpl.
  - exists sent. split; [done|]. rewrite app_assoc, E2, pushed_bytes_app. unfold pushed_bytes. simpl. by rewrite app_nil_r.
  - rewrite stream_regions_app by (unfold u64_max; lia). by rewrite Hr, E3, E6.
  - by rewrite map_app, Hpr, E4.
  - apply Forall_app. by split; [|constructor].
  - rewrite E6, pushed_len_app, pushed_len_cons. unfold u64_saturating_add, pushed_len, pushed_bytes. simpl. lia.
Qed.

Lemma bs_push_streamed key ps topic partition pushed records st s s' st' r :
  streamed key ps st -> bs_push st topic partition pushed records s = (s', st', r) ->
  objects s' = objects s /\ (r = Ok tt -> streamed key (ps ++ [PushPlain topic partition pushed records]) st').
Proof.
  intros Hst. unfold bs_push.
  destruct (bb_push_streamed _ _ _ _ _ _) as [regions|e|] eqn:Hb; [|intros [= <- <- <-]; done..].
  unfold bb_push_streamed, bundle_admissible, ByteRange_bounded in Hb.
  destruct (_ <? _); [done|]. destruct (_ =? 0) eqn:Hc; [done|]. simpl in Hb.
  destruct (_ =? 0) eqn:Hl in Hb; [done|]. injection Hb as <-. zbool.
  intros Ha. refine (bs_append_streamed key ps (PushPlain topic partition pushed records) st _ s s' st' r _ _ _ _ Ha);
    [done| |done|done]. split; [done|]. simpl. by intros ->.
Qed.

(** What [finish] leaves in the store. *)
Lemma bs_finish_object key ps st s s' spans written :
  streamed key ps st -> Forall push_wf ps -> wt_bytes written < u64_max ->
  bs_finish st s = (s', Ok (spans, written)) ->
  exists payload token rest, objects s' = <[key := (payload, token)]> (objects s) /\
    payload = pushed_bytes ps ++ rest /\ wt_bytes written = pushed_len ps /\
    parse_footer payload (Z.of_nat (length payload)) = Ok (regions_of 0 ps).
Proof.
  intros [(sent & E1 & E2) E3 E4 E5 E6] Hwf Hlt. unfold bs_finish.
  destruct (bb_into_footer _) as [[footer sp]|e|] eqn:Hf; [|done..].
  destruct (mw_write_part _ _ s) as [[s1 w] r1] eqn:Hw. destruct (write_law _ _ _ _ _ _ Hw) as [Ho Hr].
  destruct r1 as [[]|e|]; [|done..]. destruct (mw_finish w s1) as [s2 r2] eqn:Hfin.
  intros [= <- (meta & -> & [= -> <-])%res_bind_Ok]. simpl in Hlt |- *.
  rewrite E1 in Hr. destruct Hr as (held & [= <-] & Hw'). pose proof (finish_law _ _ _ _ Hfin) as (held & Hh & Hobj).
  rewrite Hw' in Hh, Hobj. simpl in Hh, Hobj. injection Hh as <-. rewrite app_assoc, E2, Ho in Hobj.
  assert (bs_written st = pushed_len ps) as Hlen by lia. assert (pushed_len ps <= u64_max) as Hle by lia.
  rewrite (stream_regions_exact 0) in E3 by lia.
  unfold bb_into_footer in Hf. case_bool_decide as Hne; [done|].
  apply res_bind_Ok in Hf as (footer' & Hf & [= -> <-]).
  assert (Forall region_wf (bb_regions (bs_regions st))) as Hrw by (rewrite E3; by apply regions_of_wf).
  destruct (encode_footer_Ok _ _ _ Hrw Hf) as (body & -> & Hrd & Hc & Hb). rewrite app_nil_l in Hobj.
  eexists _, _, _. split; [exact Hobj|]. split; [done|]. split; [done|].
  destruct (trailer_fields (Z.of_nat (length (bb_regions (bs_regions st)))) (Z.of_nat (length body))) as (_ & _ & _ & F4); [lia|lia|].
  set (size := Z.of_nat (length (pushed_bytes ps ++ _))).
  assert (size - (Z.of_nat (length body) + TRAILER_LEN) = pushed_len ps) as Hsz.
  { unfold size, pushed_len. rewrite length_app, length_app. lia. }
  pose proof (pushed_len_nonneg ps).
  rewrite parse_footer_tail by (done || lia). rewrite Hsz, tile_check_regions; [by rewrite E3| | |done]; rewrite E3.
  - by apply regions_of_len_ok.
  - by apply (regions_of_tile 0).
Qed.
End streams.

(** ** What an object holds *)

(** The records of a region: whose they are, how many, and their bytes. *)
Definition Entry : Type := TopicId * PartitionId * Z * bytes.

Definition region_slice (object : bytes) (r : Region) : bytes :=
  match rg_bytes r with Bounded off len => take (Z.to_nat len) (drop (Z.to_nat off) object) | Full => [] end.
Definition entry_at (object : bytes) (r : Region) : Entry :=
  (rg_topic r, rg_partition r, rg_record_count r, region_slice object r).
Definition entries (object : bytes) : list Entry :=
  match parse_footer object (Z.of_nat (length object)) with Ok rs => map (entry_at object) rs | _ => [] end.

Definition entry_in (t : TopicId) (p : PartitionId) (e : Entry) : bool := bool_decide (e.1.1.1 = t) && (e.1.1.2 =? p).
Definition entries_for (t : TopicId) (p : PartitionId) (es : list Entry) : list Entry := List.filter (entry_in t p) es.
Definition count_of (e : Entry) : Z := e.1.2.
Definition records_in (es : list Entry) : Z := foldr (fun e n => count_of e + n) 0 es.

Definition push_of (e : Entry) : Push := PushPlain e.1.1.1 e.1.1.2 (mkPushedRecords (count_of e) None) e.2.

Lemma records_in_app es fs : records_in (es ++ fs) = records_in es + records_in fs.
Proof. induction es as [|e es IH]; simpl; [done|]. rewrite IH. lia. Qed.

Lemma entries_for_app t p es fs : entries_for t p (es ++ fs) = entries_for t p es ++ entries_for t p fs.
Proof. apply List.filter_app. Qed.

(** A bundle of these entries holds these entries. *)
Lemma entries_pushed es rest :
  let payload := pushed_bytes (map push_of es) ++ rest in
  parse_footer payload (Z.of_nat (length payload)) = Ok (regions_of 0 (map push_of es)) -> entries payload = es.
Proof.
  intros payload Hp. unfold entries. rewrite Hp.
  assert (forall pre rest', map (entry_at (pre ++ pushed_bytes (map push_of es) ++ rest'))
    (regions_of (Z.of_nat (length pre)) (map push_of es)) = es) as Hall; [|by apply (Hall [])].
  clear. induction es as [|[[[t p] n] b] es IH]; intros pre rest'; [done|].
  unfold pushed_bytes in *. simpl. f_equal.
  - unfold entry_at, region_slice; simpl. rewrite !Nat2Z.id, drop_app_length, <-app_assoc, take_app_length. done.
  - specialize (IH (pre ++ b) rest'). rewrite length_app, Nat2Z.inj_add in IH. by rewrite <-!app_assoc in IH |- *.
Qed.

(** ** The counts of a footer are [u32]s *)

Lemma cu_u32_in malformed buf at_ v at' : Forall is_byte buf -> cu_u32 malformed buf at_ = Ok (v, at') -> in_u32 v.
Proof.
  unfold cu_u32, rd_bind, cu_take. intros Hb. destruct (_ <=? _); [|done]. simpl. intros [= <- <-].
  assert (Forall is_byte (take (Z.to_nat 4) (drop at_ buf))) as Hf by (by apply Forall_take, Forall_drop).
  pose proof (from_be_bound _ Hf) as Hbd. rewrite length_take in Hbd.
  assert (256 ^ Z.of_nat (Z.to_nat 4 `min` length (drop at_ buf)) <= 256 ^ 4) by (apply Z.pow_le_mono_r; lia).
  change (Z.to_nat 4) with 4%nat in *. mlia.
Qed.

Lemma bf_region_count buf at_ r at' : Forall is_byte buf -> bf_region buf at_ = Ok (r, at') -> in_u32 (rg_record_count r).
Proof.
  intros Hb. unfold bf_region. unfold rd_bind at 1. intros ([v1 a1] & _ & H)%res_bind_Ok. revert H.
  unfold rd_bind at 1. intros ([v2 a2] & _ & H)%res_bind_Ok. revert H.
  unfold rd_bind at 1. intros ([v3 a3] & _ & H)%res_bind_Ok. revert H.
  unfold rd_bind at 1. intros ([v4 a4] & _ & H)%res_bind_Ok. revert H. case_match; [done|].
  unfold rd_bind at 1. intros ([v5 a5] & _ & H5)%res_bind_Ok. revert H5.
  unfold rd_bind at 1. intros ([v6 a6] & Hc%cu_u32_in & H6)%res_bind_Ok; [|done]. revert H6.
  unfold rd_bind. intros H6. repeat (apply res_bind_Ok in H6 as ([? ?] & _ & H6)).
  injection H6 as <- _. done.
Qed.

Lemma rd_times_forall {A} (P : A -> Prop) (m : Reader Error A) buf n at_ l at' :
  (forall at_ a at', m buf at_ = Ok (a, at') -> P a) -> rd_times n m buf at_ = Ok (l, at') -> Forall P l.
Proof.
  intros Hm. revert at_ l at'. induction n as [|n IH]; simpl; intros at_ l at'; [intros [= <- _]; constructor|].
  unfold rd_bind. intros ([a a1] & H1 & ([l' a2] & H2 & [= <- _])%res_bind_Ok)%res_bind_Ok. eauto.
Qed.

Lemma parse_footer_counts object size rs :
  Forall is_byte object -> parse_footer object size = Ok rs ->
  Forall (fun r => in_u32 (rg_record_count r)) rs /\ exists hi, regions_tile 0 rs hi.
Proof.
  intros Hb. unfold parse_footer. repeat (case_match; [done|]).
  intros ([l at'] & Hl & H')%res_bind_Ok. case_match; [done|]. case_match; [done|].
  apply res_bind_Ok in H' as ([] & Hc & [= <-]). split; [|eexists; by apply check_regions_tile].
  eapply rd_times_forall; [|exact Hl]. intros ? ? ?. apply bf_region_count. by apply Forall_take, Forall_drop.
Qed.

(** ** Gathering *)

Definition object_at (m : Objects) (k : ObjectKey) : bytes := match m !! k with Some (b, _) => b | None => [] end.
Definition all_bytes (m : Objects) : Prop := forall k b token, m !! k = Some (b, token) -> Forall is_byte b.

(** What a plan's inputs hold of its partition, in the order of their offsets. *)
Definition taken_from (m : Objects) (plan : CompactionPlan) (r : ObjectRef) : list Entry :=
  entries_for (cp_topic plan) (cp_partition plan) (entries (object_at m (or_object r))).
Definition held_by (m : Objects) (planned : PlannedInputs) (refs : list ObjectRef) : list Entry :=
  concat (map (taken_from m (pi_plan planned)) refs).
Definition moved (m : Objects) (planned : PlannedInputs) : list Entry :=
  match tiling (pi_plan planned) (pi_inputs planned) with
  | Ok covering => concat (map (taken_from m (pi_plan planned)) covering)
  | _ => []
  end.
Definition tiled (planned : PlannedInputs) : list ObjectRef :=
  match tiling (pi_plan planned) (pi_inputs planned) with Ok covering => covering | _ => [] end.

Lemma moved_held m planned : moved m planned = held_by m planned (tiled planned).
Proof. unfold moved, held_by, tiled. by destruct (tiling _ _). Qed.

Section gathering.
Context {S : Type} `{MultipartLaws S}.

Lemma append_region_plain plan key ps st pushed region slice index s s' r :
  streamed key ps st -> append_region plan plain st pushed region slice index s = (s', r) ->
  objects s' = objects s /\
  forall st', r = Ok st' -> streamed key (ps ++ [PushPlain (cp_topic plan) (cp_partition plan) pushed slice]) st'.
Proof.
  intros Hst. unfold append_region, streaming. simpl.
  destruct (bs_push _ _ _ _ _ s) as [[s1 st1] r1] eqn:Hp. intros [= <- <-].
  destruct (bs_push_streamed _ _ _ _ _ _ _ _ _ _ _ Hst Hp) as [Ho Hs]. split; [done|].
  intros st' ([] & -> & [= <-])%res_bind_Ok. by apply Hs.
Qed.

Lemma take_region_plain object plan key ps tk region s s' r :
  streamed key ps (tk_stream tk) -> 0 <= tk_taken tk <= u32_max -> in_u32 (rg_record_count region) ->
  take_region object plan plain tk region s = (s', r) ->
  objects s' = objects s /\
  forall tk', r = Ok tk' ->
    let es := entries_for (cp_topic plan) (cp_partition plan) [entry_at object region] in
    streamed key (ps ++ map push_of es) (tk_stream tk') /\
    tk_taken tk' = Z.min (tk_taken tk + records_in es) u32_max.
Proof.
  intros Hst Htk Hc. unfold take_region, entries_for, entry_in. simpl.
  destruct (bool_decide _ && _) eqn:Hm; simpl.
  2:{ intros [= <- <-]. split; [done|]. intros tk' [= <-]. rewrite app_nil_r. split; [done|]. simpl. lia. }
  unfold sm_bind, sm_ret. destruct (validate_region _ _) as [[]|e|]; [|intros [= <- <-]; done..].
  destruct (rg_bytes region) as [|off len] eqn:Hb; [intros [= <- <-]; done|].
  case_match; [intros [= <- <-]; done|].
  destruct (append_region _ _ _ _ _ _ _ s) as [s1 r1] eqn:Ha.
  destruct (append_region_plain _ _ _ _ _ _ _ _ _ _ _ Hst Ha) as [Ho Hs].
  destruct r1 as [st1|e|]; intros [= <- <-]; (split; [done|]); [|done..].
  intros tk' [= <-]. apply andb_true_iff in Hm as [Ht%bool_decide_eq_true Hp%Z.eqb_eq]. split.
  - specialize (Hs st1 eq_refl). unfold push_of, entry_at, region_slice, count_of; simpl. by rewrite Hb, Ht, Hp.
  - simpl. unfold u32_saturating_add, count_of; simpl. f_equal. lia.
Qed.

Lemma take_regions_loop_plain object plan key ps tk regions s s' r :
  streamed key ps (tk_stream tk) -> 0 <= tk_taken tk <= u32_max ->
  Forall (fun r => in_u32 (rg_record_count r)) regions ->
  take_regions_loop object plan plain tk regions s = (s', r) ->
  objects s' = objects s /\
  forall tk', r = Ok tk' ->
    let es := entries_for (cp_topic plan) (cp_partition plan) (map (entry_at object) regions) in
    streamed key (ps ++ map push_of es) (tk_stream tk') /\
    tk_taken tk' = Z.min (tk_taken tk + records_in es) u32_max.
Proof.
  intros Hst Htk Hc. revert ps tk s Hst Htk. induction Hc as [|region regions Hr Hc IH];
    cbn [take_regions_loop]; intros ps tk s Hst Htk.
  - intros [= <- <-]. split; [done|]. intros tk' [= <-]. simpl. rewrite app_nil_r. split; [done|]. lia.
  - unfold sm_bind. destruct (take_region _ _ _ _ _ s) as [s1 r1] eqn:Hf1.
    destruct (take_region_plain _ _ _ _ _ _ _ _ _ Hst Htk Hr Hf1) as [Ho1 Hs1].
    destruct r1 as [tk1|e|]; [|intros [= <- <-]; done..].
    destruct (Hs1 tk1 eq_refl) as [Hst1 Htk1].
    assert (0 <= records_in (entries_for (cp_topic plan) (cp_partition plan) [entry_at object region])).
    { unfold entries_for. simpl. destruct (entry_in _ _ _); simpl; [|lia]. unfold count_of; simpl. mlia. }
    intros Hf2. destruct (IH _ _ _ Hst1 ltac:(lia) Hf2) as [Ho2 Hs2]. split; [by rewrite Ho2|].
    intros tk' ->. destruct (Hs2 tk' eq_refl) as [Hst2 Htk2].
    cbv zeta. change (map (entry_at object) (region :: regions))
      with ([entry_at object region] ++ map (entry_at object) regions).
    rewrite entries_for_app, map_app, app_assoc, records_in_app. split; [done|].
    assert (0 <= records_in (entries_for (cp_topic plan) (cp_partition plan) (map (entry_at object) regions))); [|lia].
    clear -Hc. induction Hc as [|x l Hx _ IH]; simpl; [lia|]. destruct (entry_in _ _ _); simpl; [|done].
    unfold count_of; simpl. mlia.
Qed.

Lemma take_regions_plain object plan reference key ps st next s s' r :
  streamed key ps st -> Forall is_byte object ->
  take_regions object plan plain reference st next s = (s', r) ->
  objects s' = objects s /\
  forall st' next' taken, r = Ok (st', next', taken) ->
    let es := entries_for (cp_topic plan) (cp_partition plan) (entries object) in
    streamed key (ps ++ map push_of es) st' /\ taken = or_record_count reference /\
    taken = Z.min (records_in es) u32_max.
Proof.
  intros Hst Hb. unfold take_regions, entries. unfold sm_bind at 1, sm_ret at 1.
  destruct (parse_footer object _) as [rs|e|] eqn:Hp; [|intros [= <- <-]; done..].
  destruct (parse_footer_counts _ _ _ Hb Hp) as [Hc _]. unfold sm_bind.
  destruct (take_regions_loop _ _ _ _ _ s) as [s1 r1] eqn:Hl.
  eapply take_regions_loop_plain in Hl as [Ho Hs]; [|done|simpl; mlia|done].
  destruct r1 as [tk|e|]; [|intros [= <- <-]; done..]. destruct (Hs tk eq_refl) as [Hst' Htk]. simpl in Htk.
  case_match eqn:He; intros [= <- <-]; (split; [done|]); [done|]. intros st' next' taken [= <- <- <-]. zbool.
  by rewrite He in *.
Qed.

Lemma gather_loop_plain m plan covering key ps st next gets records s s' r :
  streamed key ps st -> objects s = m -> all_bytes m ->
  gather_loop plan plain covering st next gets records s = (s', r) ->
  objects s' = m /\
  forall st' gets' records', r = Ok (st', gets', records') ->
    streamed key (ps ++ map push_of (concat (map (taken_from m plan) covering))) st' /\
    records' = records + foldr (fun r n => or_record_count r + n) 0 covering /\
    Forall (fun r => or_record_count r = Z.min (records_in (taken_from m plan r)) u32_max) covering.
Proof.
  intros Hst Hm Hb. revert ps st next gets records s Hst Hm.
  induction covering as [|ref covering IH]; simpl; intros ps st next gets records s Hst Hm.
  - intros [= <- <-]. split; [done|]. intros st' gets' records' [= <- <- <-]. rewrite app_nil_r. split; [done|]. split; [lia|done].
  - unfold sm_bind at 1. destruct (os_get _ _ s) as [s1 r1] eqn:Hg. destruct (get_law _ _ _ _ _ Hg) as [Ho Hget].
    destruct r1 as [object|e|]; [|intros [= <- <-]; by rewrite Ho..].
    destruct Hget as (payload & token & Hk & [= ->]).
    assert (object_at m (or_object ref) = object) as Hobj by (unfold object_at; by rewrite <-Hm, Hk).
    unfold sm_bind. destruct (take_regions _ _ _ _ _ _ s1) as [s2 r2] eqn:Ht.
    eapply take_regions_plain in Ht as [Ho2 Hs2]; [|done|eapply Hb; by rewrite <-Hm].
    destruct r2 as [[[st2 next2] taken2]|e|]; [|intros [= <- <-]; by rewrite Ho2, Ho..].
    destruct (Hs2 _ _ _ eq_refl) as (Hst2 & Htk & Hmin). intros Hl.
    destruct (IH _ _ _ _ _ _ Hst2 ltac:(by rewrite Ho2, Ho) Hl) as [Ho3 Hs3]. split; [done|].
    intros st' gets' records' ->. destruct (Hs3 _ _ _ eq_refl) as (Hst3 & Hr3 & Hf3).
    assert (taken_from m plan ref = entries_for (cp_topic plan) (cp_partition plan) (entries object)) as Htf
      by (unfold taken_from; by rewrite Hobj).
    rewrite Htf, map_app, app_assoc. split; [done|]. split; [lia|]. constructor; [|done]. rewrite Htf. lia.
Qed.
End gathering.

(** ** Tiling *)

Definition counts (refs : list ObjectRef) : Z := foldr (fun r n => or_record_count r + n) 0 refs.

Lemma counts_perm l1 l2 : l1 ≡ₚ l2 -> counts l1 = counts l2.
Proof. unfold counts. induction 1; simpl; lia. Qed.

Lemma span_fold_counts lo hi rs span :
  res_foldl span_step (Some (lo, hi)) rs = Ok span -> exists hi', span = Some (lo, hi') /\ hi' - hi = counts rs.
Proof.
  revert hi. induction rs as [|r rs IH]; simpl; intros hi.
  - intros [= <-]. exists hi. split; [done|]. lia.
  - intros (sp & Hs & Hf)%res_bind_Ok. unfold span_step in Hs. apply res_bind_Ok in Hs as (e & (-> & _ & _)%ref_end_Ok & Hs).
    destruct (_ =? _); [done|]. destruct (or_base_offset r =? hi) eqn:Hb; [|done]. simpl in Hs. injection Hs as <-. zbool.
    destruct (IH _ Hf) as (hi' & -> & Hd). exists hi'. split; [done|]. unfold or_end in Hd. lia.
Qed.

Lemma contiguous_span_counts refs lo hi : contiguous_span refs = Ok (Some (lo, hi)) -> hi - lo = counts refs.
Proof.
  unfold contiguous_span. rewrite <-(counts_perm _ _ (sort_by_key_Permutation or_base_offset refs)).
  destruct (sort_by_key or_base_offset refs) as [|r rs]; simpl; [done|].
  intros (sp & Hs & Hf)%res_bind_Ok. unfold span_step in Hs. apply res_bind_Ok in Hs as (e & (-> & _ & _)%ref_end_Ok & Hs).
  destruct (_ =? _); [done|]. injection Hs as <-.
  destruct (span_fold_counts _ _ _ _ Hf) as (hi' & [= -> ->] & Hd). unfold or_end in Hd. lia.
Qed.

(** Inputs that tile a plan hold as many records as its range, and a reference
    to one object over that range may take their place in the index. *)
Lemma tiling_counts plan inputs covering :
  tiling plan inputs = Ok covering ->
  counts covering = cp_end plan - cp_start plan /\
  forall output, 0 <= cp_start plan < cp_end plan -> cp_end plan <= i64_max ->
    covers covering [mkObjectRef output (cp_start plan) (cp_end plan - cp_start plan)] = Ok tt.
Proof.
  unfold tiling. intros (cov & _ & (span & Hs & Hc)%res_bind_Ok)%res_bind_Ok.
  case_bool_decide as Heq; [|done]. simpl in Hc. injection Hc as <-. split.
  - destruct span as [[lo hi]|]; simpl in Heq.
    + injection Heq as -> ->. by rewrite <-(contiguous_span_counts _ _ _ Hs).
    + injection Heq as Heq. unfold contiguous_span in Hs.
      rewrite <-(counts_perm _ _ (sort_by_key_Permutation or_base_offset cov)).
      destruct (sort_by_key or_base_offset cov) as [|r rs]; simpl in *; [lia|].
      apply res_bind_Ok in Hs as (sp & Hsp & Hf). unfold span_step in Hsp.
      apply res_bind_Ok in Hsp as (e & _ & Hsp). destruct (_ =? _); [done|]. injection Hsp as <-. by destruct (span_fold_counts _ _ _ _ Hf) as (? & ? & _).
  - intros output Hlt Hmax. unfold covers. rewrite Hs. simpl.
    destruct span as [[lo hi]|]; simpl in Heq; [|injection Heq; lia]. injection Heq as -> ->.
    replace (contiguous_span [_]) with (Ok (E := Error) (Some (cp_start plan, cp_end plan))).
    + simpl. by rewrite decide_True.
    + unfold contiguous_span. simpl. unfold span_step. rewrite ref_live_end.
      * simpl. unfold or_end. simpl. rewrite (proj2 (Z.eqb_neq _ _)) by lia. simpl. do 3 f_equal. lia.
      * unfold ref_live, or_end. simpl. lia.
Qed.

(** The inputs that reach into a plan's range. *)
Definition in_range (plan : CompactionPlan) (r : ObjectRef) : bool :=
  (cp_start plan <? or_end r) && (or_base_offset r <? cp_end plan).

(** References end to end over a range, none of them empty. *)
Fixpoint tiles (lo : Z) (rs : list ObjectRef) (hi : Z) : Prop :=
  match rs with
  | [] => lo = hi
  | r :: rs => or_base_offset r = lo /\ 0 < or_record_count r /\ tiles (or_end r) rs hi
  end.

Lemma filter_b_Permutation {A} (f : A -> bool) l1 l2 : l1 ≡ₚ l2 -> List.filter f l1 ≡ₚ List.filter f l2.
Proof.
  induction 1 as [|x l1 l2 _ IH|x y l|l1 l2 l3 _ IH1 _ IH2]; simpl; [done|by destruct (f x); rewrite IH| |by rewrite IH1].
  destruct (f x), (f y); by rewrite 1?Permutation_swap.
Qed.

Lemma covering_refs_filter plan ordered cov : covering_refs plan ordered = Ok cov -> cov = List.filter (in_range plan) ordered.
Proof.
  revert cov. induction ordered as [|r rs IH]; simpl; intros cov; [by intros [= <-]|].
  intros (e & (-> & _ & _)%ref_end_Ok & (rest & Hrest & Hcov)%res_bind_Ok)%res_bind_Ok. apply IH in Hrest as <-.
  unfold in_range. rewrite !Z.ltb_antisym, <-negb_orb. destruct ((or_end r <=? cp_start plan) || _); by injection Hcov.
Qed.

Lemma span_fold_tiles lo hi rs span :
  res_foldl span_step (Some (lo, hi)) rs = Ok span -> exists hi', span = Some (lo, hi') /\ tiles hi rs hi'.
Proof.
  revert hi. induction rs as [|r rs IH]; simpl; intros hi; [intros [= <-]; by exists hi|].
  intros (sp & Hs & Hf)%res_bind_Ok. unfold span_step in Hs. apply res_bind_Ok in Hs as (e & (-> & Hc & _)%ref_end_Ok & Hs).
  destruct (_ =? _) eqn:Hz; [done|]. destruct (or_base_offset r =? hi) eqn:Hb; [|done]. simpl in Hs. injection Hs as <-. zbool.
  destruct (IH _ Hf) as (hi' & -> & Ht). exists hi'. split_and!; try done. unfold or_end in Hz. lia.
Qed.

(** What [tiling] accepts: the inputs in the range, in the order of their
    offsets, end to end over it. *)
Lemma tiling_tiles plan inputs covering :
  tiling plan inputs = Ok covering ->
  covering ≡ₚ List.filter (in_range plan) inputs /\ tiles (cp_start plan) covering (cp_end plan).
Proof.
  unfold tiling. intros (cov & ->%covering_refs_filter & (span & Hs & Hc)%res_bind_Ok)%res_bind_Ok.
  case_bool_decide as Heq; [|done]. simpl in Hc. injection Hc as <-.
  set (cov := List.filter _ _) in *. assert (sort_by_key or_base_offset cov = cov) as Hsort.
  { apply sort_by_key_ascending, sorted_ascending, StronglySorted_filter_b, sort_by_key_sorted. }
  split; [apply filter_b_Permutation, sort_by_key_Permutation|].
  unfold contiguous_span in Hs. rewrite Hsort in Hs. destruct cov as [|r rs]; simpl in Hs.
  - injection Hs as <-. by injection Heq.
  - apply res_bind_Ok in Hs as (sp & Hsp & Hf). unfold span_step in Hsp.
    apply res_bind_Ok in Hsp as (e & (-> & Hc & _)%ref_end_Ok & Hsp). destruct (_ =? _) eqn:Hz; [done|]. injection Hsp as <-.
    destruct (span_fold_tiles _ _ _ _ Hf) as (hi & -> & Ht). injection Heq as Hlo Hhi. subst hi. zbool.
    split_and!; [done|unfold or_end in Hz; lia|done].
Qed.

(** ** The order of a round *)

(** One plan is before another: by topic, by partition, and then with its range
    wholly before the other's. *)
Definition precedes (left right : PlannedInputs) : Prop :=
  let l := pi_plan left in let r := pi_plan right in
  key_lt (cp_topic l) (cp_topic r) \/
  cp_topic l = cp_topic r /\
    (cp_partition l < cp_partition r \/ cp_partition l = cp_partition r /\ cp_end l <= cp_start r).

Lemma plan_le_iff l r :
  plan_le l r <-> key_lt (cp_topic (pi_plan l)) (cp_topic (pi_plan r)) \/
    cp_topic (pi_plan l) = cp_topic (pi_plan r) /\
    (cp_partition (pi_plan l) < cp_partition (pi_plan r) \/
     cp_partition (pi_plan l) = cp_partition (pi_plan r) /\ cp_start (pi_plan l) <= cp_start (pi_plan r)).
Proof.
  unfold plan_le, key_lt. destruct (String.compare _ _) eqn:Hc.
  - apply String.compare_eq_iff in Hc. rewrite Hc. naive_solver.
  - naive_solver.
  - split; [done|]. intros [?|[Heq _]]; [done|]. rewrite Heq in Hc. assert (key_lt (cp_topic (pi_plan r)) (cp_topic (pi_plan r))) as []%key_lt_irrefl. unfold key_lt. by rewrite String.compare_antisym, Hc.
Qed.

#[local] Instance plan_le_trans : Transitive plan_le.
Proof.
  intros x y z. rewrite !plan_le_iff. intros [H1|[E1 H1]] [H2|[E2 H2]]; [left; by eapply key_lt_trans|left; by rewrite <-E2|left; by rewrite E1|].
  right. rewrite E1, E2. split; [done|]. lia.
Qed.

#[local] Instance plan_le_total : Total plan_le.
Proof.
  intros x y. rewrite !plan_le_iff. destruct (key_lt_total (cp_topic (pi_plan x)) (cp_topic (pi_plan y))) as [|[Heq|]]; [auto| |auto].
  rewrite Heq. destruct (Z.lt_trichotomy (cp_partition (pi_plan x)) (cp_partition (pi_plan y))) as [?|[Hp|?]]; [auto| |auto].
  rewrite Hp. destruct (Z.le_ge_cases (cp_start (pi_plan x)) (cp_start (pi_plan y))); auto 10.
Qed.

(** In order and with no overlap between neighbours, no two plans overlap. *)
Lemma admissible_precedes previous records ordered n :
  StronglySorted plan_le ordered -> admissible_loop previous records ordered = Ok n ->
  StronglySorted precedes ordered.
Proof.
  intros Hs. revert previous records. induction Hs as [|x ordered Hs IH Hx]; intros previous records; simpl; [constructor|].
  destruct (match previous with Some _ => _ | None => _ end) eqn:Hp; [done|]. intros Hl. constructor; [by eapply IH|].
  destruct ordered as [|y ordered]; [constructor|].
  apply Forall_cons in Hx as [Hxy Hx]. assert (precedes x y) as Hpxy.
  { apply plan_le_iff in Hxy as [?|[Ht [?|[Hpt _]]]]; [by left|right; auto|]. right. split; [done|]. right. split; [done|].
    simpl in Hl. rewrite Ht, Hpt, bool_decide_true, Z.eqb_refl in Hl by done. simpl in Hl.
    destruct (_ <? _) eqn:Hlt; [done|]. by zbool. }
  constructor; [done|]. apply StronglySorted_inv in Hs as [_ Hy]. rewrite Forall_forall in Hy |- *. intros z Hz.
  apply Hy, plan_le_iff in Hz. unfold precedes in *. cbv zeta in *.
  destruct Hpxy as [H1|[E1 H1]], Hz as [H2|[E2 H2]]; [left; by eapply key_lt_trans|left; by rewrite <-E2|left; by rewrite E1|].
  right. rewrite E1, E2. split; [done|]. lia.
Qed.

(** The records a round's plans say they rewrite. *)
Definition rewritten (planned : PlannedInputs) : Z := ce_records_rewritten (cp_cost (pi_plan planned)).

Lemma admissible_sum previous records ordered n :
  Forall (fun planned => 0 <= rewritten planned) ordered -> 0 <= records -> admissible_loop previous records ordered = Ok n ->
  Z.min records i64_max <= n /\ (n < i64_max -> n = records + sumZ (map rewritten ordered)).
Proof.
  intros Hf. revert previous records. induction Hf as [|x ordered Hx _ IH]; intros previous records H0; simpl.
  { intros [= <-]. unfold sumZ. lia. }
  destruct (match previous with Some _ => _ | None => _ end); [done|].
  change (ra_records (cp_amplification (pi_plan x))) with (rewritten x). unfold i64_saturating_add. intros [Hle Hn]%IH; [|mlia].
  unfold sumZ in *. simpl. split; [mlia|]. intros Hlt. specialize (Hn Hlt). mlia.
Qed.

Lemma order_round_spec round ordered :
  order_round round = Ok ordered ->
  ordered ≡ₚ round /\ StronglySorted precedes ordered /\
  (Forall (fun planned => 0 <= rewritten planned) round -> sumZ (map rewritten ordered) <= COMPACTION_PLAN_RECORDS_BUDGET).
Proof.
  unfold order_round, admissible. intros ([] & (n & Hl & Hb)%res_bind_Ok & [= <-])%res_bind_Ok.
  pose proof (merge_sort_Permutation plan_le round) as Hperm. split_and!; [done| |].
  - eapply admissible_precedes; [|done]. apply StronglySorted_merge_sort; apply _.
  - intros Hf. rewrite <-Hperm in Hf. destruct (_ <? n) eqn:Hlt; [done|]. zbool.
    destruct (admissible_sum _ _ _ _ Hf (Z.le_refl 0) Hl) as [_ Hn].
    assert (n < i64_max) as Hm%Hn by (unfold COMPACTION_PLAN_RECORDS_BUDGET, i64_max in *; lia). lia.
Qed.

(** ** A round *)

Definition span_of (planned : PlannedInputs) : Z := cp_end (pi_plan planned) - cp_start (pi_plan planned).
Definition total_span (round : list PlannedInputs) : Z := foldr (fun planned n => span_of planned + n) 0 round.

(** A plan's inputs tile its range, and each is counted as the index has it. *)
Definition gathered (m : Objects) (planned : PlannedInputs) : Prop :=
  exists covering, tiling (pi_plan planned) (pi_inputs planned) = Ok covering /\
    Forall (fun r => or_record_count r = Z.min (records_in (taken_from m (pi_plan planned) r)) u32_max) covering.

Section rounds.
Context {S : Type} `{MultipartLaws S}.

Lemma gather_plain m planned key ps st s s' r :
  streamed key ps st -> objects s = m -> all_bytes m ->
  gather (pi_plan planned) (pi_inputs planned) plain st s = (s', r) ->
  objects s' = m /\
  forall st' gets records, r = Ok (st', gets, records) ->
    streamed key (ps ++ map push_of (moved m planned)) st' /\ records = span_of planned /\ gathered m planned.
Proof.
  intros Hst Hm Hb. unfold gather, moved, gathered. unfold sm_bind, sm_ret.
  destruct (tiling _ _) as [covering|e|] eqn:Ht; [|intros [= <- <-]; done..].
  intros Hg. eapply gather_loop_plain in Hg as [Ho Hs]; [|done|done|done]. split; [done|].
  intros st' gets records ->. destruct (Hs _ _ _ eq_refl) as (Hst' & Hr & Hf). split; [done|].
  destruct (tiling_counts _ _ _ Ht) as [Hc _]. split; [|by exists covering]. unfold counts, span_of in *. lia.
Qed.

Lemma round_loop_plain m ordered key ps st gets records s s' r :
  streamed key ps st -> objects s = m -> all_bytes m ->
  round_loop ordered st gets records s = (s', r) ->
  objects s' = m /\
  forall st' gets' records', r = Ok (st', gets', records') ->
    streamed key (ps ++ map push_of (concat (map (moved m) ordered))) st' /\
    records' = records + total_span ordered /\ Forall (gathered m) ordered.
Proof.
  intros Hst Hm Hb. revert ps st gets records s Hst Hm.
  induction ordered as [|planned ordered IH]; simpl; intros ps st gets records s Hst Hm.
  - intros [= <- <-]. split; [done|]. intros st' gets' records' [= <- <- <-]. rewrite app_nil_r. split_and!; [done|lia|done].
  - unfold sm_bind. destruct (gather _ _ _ _ s) as [s1 r1] eqn:Hg.
    destruct (gather_plain _ _ _ _ _ _ _ _ Hst Hm Hb Hg) as [Ho1 Hs1].
    destruct r1 as [[[st1 read] mv]|e|]; [|intros [= <- <-]; done..].
    destruct (Hs1 _ _ _ eq_refl) as (Hst1 & Hmv & Hgd). intros Hl.
    destruct (IH _ _ _ _ _ Hst1 Ho1 Hl) as [Ho2 Hs2]. split; [done|].
    intros st' gets' records' ->. destruct (Hs2 _ _ _ eq_refl) as (Hst2 & Hr2 & Hf2).
    rewrite map_app, app_assoc. split_and!; [done|lia|by constructor].
Qed.
End rounds.

(** What the types of a plan's fields promise. *)
Definition plan_wf (planned : PlannedInputs) : Prop :=
  (name_wf (cp_topic (pi_plan planned)) /\ partition_wf (cp_partition (pi_plan planned))) /\
  0 <= cp_start (pi_plan planned) /\ cp_end (pi_plan planned) <= i64_max /\ 0 <= rewritten planned.

Lemma moved_wf m planned : all_bytes m -> plan_wf planned -> Forall push_wf (map push_of (moved m planned)).
Proof.
  intros Hb [[Ht Hp] _]. unfold moved. destruct (tiling _ _) as [covering|e|]; [|constructor..].
  apply Forall_map, Forall_concat, Forall_map. apply Forall_forall. intros r _.
  unfold taken_from, entries. destruct (parse_footer _ _) as [rs|e|] eqn:Hpf; simpl; [|constructor..].
  assert (Forall is_byte (object_at m (or_object r))) as Hob.
  { unfold object_at. destruct (m !! or_object r) as [[b token]|] eqn:Hk; [by eapply Hb|constructor]. }
  destruct (parse_footer_counts _ _ _ Hob Hpf) as [Hc _]. apply Forall_forall. intros e He.
  unfold entries_for in He. apply list_elem_of_In, filter_In in He as [Hin Hm].
  apply andb_true_iff in Hm as [Hm1%bool_decide_eq_true Hm2%Z.eqb_eq].
  apply in_map_iff in Hin as (region & <- & Hr%list_elem_of_In). simpl in Hm1, Hm2. rewrite Forall_forall in Hc.
  unfold push_wf; simpl. rewrite Hm1, Hm2. split_and!; try done. by apply Hc.
Qed.

Lemma moved_records m planned :
  gathered m planned -> Forall (fun r => or_record_count r < u32_max) (pi_inputs planned) ->
  records_in (moved m planned) = span_of planned.
Proof.
  intros (covering & Ht & Hf) Hlt. unfold moved. rewrite Ht. destruct (tiling_counts _ _ _ Ht) as [Hc _].
  unfold span_of. rewrite <-Hc. assert (Forall (fun r => or_record_count r < u32_max) covering) as Hlt'.
  { clear Hf Hc. unfold tiling in Ht. apply res_bind_Ok in Ht as (cov & Hcov & (span & _ & Ht)%res_bind_Ok).
    case_bool_decide; [|done]. injection Ht as <-.
    assert (Forall (fun r => or_record_count r < u32_max) (sort_by_key or_base_offset (pi_inputs planned))) as Hs
      by (by rewrite sort_by_key_Permutation).
    clear H. revert cov Hcov. induction Hs as [|r rs Hr Hs IH]; simpl; intros cov; [intros [= <-]; constructor|].
    intros (e & _ & (rest & Hrest & Hcov)%res_bind_Ok)%res_bind_Ok. specialize (IH _ Hrest).
    case_match; injection Hcov as <-; [done|by constructor]. }
  clear -Hf Hlt'. induction Hf as [|r rs Hr _ IH]; simpl; [done|].
  apply Forall_cons in Hlt' as [Hl Hlt']. rewrite records_in_app, IH by done. unfold counts. simpl. lia.
Qed.

Section claims.
Context {S : Type} `{MultipartLaws S}.

(** C16. Compaction loses no record and writes none twice.  When a round's merge
    answers, it has added one object to the store and changed no other: that
    object's footer parses, and its regions hold, plan by plan, the records the
    plan's inputs held of its partition, byte for byte and in offset order.  The
    plans are those of the round, by topic and partition and then by offset, and
    no two of a partition overlap; together they rewrite no more than the budget.
    The inputs used for a plan are those that reach into its range, and they lie
    end to end over it; the records reported are the sum of the ranges, and are
    the counts of the regions (unless an input's count is the largest a [u32]
    holds), and the index takes the new object in the place of the inputs of every
    plan whose range is not empty. *)
Theorem merge_round_preserves_records (round : list PlannedInputs) namer (s s' : S) namer' outcome output :
  Forall plan_wf round -> all_bytes (objects s) -> wt_bytes (mo_written outcome) < u64_max ->
  merge_round round namer s = (s', namer', Ok outcome) -> mo_object outcome = Some output ->
  exists ordered (covering : PlannedInputs -> list ObjectRef) payload token,
    ordered ≡ₚ round /\ StronglySorted precedes ordered /\
    sumZ (map rewritten ordered) <= COMPACTION_PLAN_RECORDS_BUDGET /\
    objects s' = <[output := (payload, token)]> (objects s) /\
    entries payload = concat (map (fun planned => held_by (objects s) planned (covering planned)) ordered) /\
    mo_records outcome = total_span ordered /\
    Forall (fun planned =>
      let plan := pi_plan planned in
      covering planned ≡ₚ List.filter (in_range plan) (pi_inputs planned) /\
      tiles (cp_start plan) (covering planned) (cp_end plan) /\
      (cp_start plan < cp_end plan ->
       covers (covering planned) [mkObjectRef output (cp_start plan) (span_of planned)] = Ok tt) /\
      (Forall (fun r => or_record_count r < u32_max) (pi_inputs planned) ->
       records_in (held_by (objects s) planned (covering planned)) = span_of planned)) ordered.
Proof.
  intros Hwf Hb Hlt. unfold merge_round. case_bool_decide; [by intros [= <- <- <-]|].
  destruct (order_round round) as [ordered|e|] eqn:Ho; [|done..]. unfold named.
  destruct (next_key namer) as [[namer1 key]|e|]; [|done..]. unfold sm_bind, sm_ret.
  destruct (BundleStream_open key s) as [s1 r1] eqn:Hop. destruct (open_streamed _ _ _ _ Hop) as [Ho1 Hst1].
  destruct r1 as [st1|e|]; [|done..]. specialize (Hst1 st1 eq_refl).
  destruct (round_loop ordered st1 0 0 s1) as [s2 r2] eqn:Hl.
  destruct (round_loop_plain (objects s) _ _ _ _ _ _ _ _ _ Hst1 Ho1 Hb Hl) as [Ho2 Hs2].
  destruct r2 as [[[st2 gets] records]|e|]; [|done..]. destruct (Hs2 _ _ _ eq_refl) as (Hst2 & Hrec & Hgd).
  destruct (bs_finish st2 s2) as [s3 r3] eqn:Hf. destruct r3 as [[spans written]|e|]; [|done..].
  intros [= <- <- <-] [= <-]. simpl in *. destruct (order_round_spec _ _ Ho) as (Hperm & Hsorted & Hbudget).
  assert (Forall push_wf (map push_of (concat (map (moved (objects s)) ordered)))) as Hpw.
  { rewrite concat_map. apply Forall_concat, Forall_map, Forall_map, Forall_forall. intros planned Hin.
    apply moved_wf; [done|]. rewrite <-Hperm in Hwf. rewrite Forall_forall in Hwf. by apply Hwf. }
  destruct (bs_finish_object _ _ _ _ _ _ _ Hst2 Hpw Hlt Hf) as (payload & token & rest & Hobj & Hpay & _ & Hparse).
  exists ordered, tiled, payload, token.
  split_and!; [done|done|apply Hbudget; by eapply Forall_impl; [exact Hwf|intros ? (_ & _ & _ & ?)]|by rewrite Hobj, Ho2| |by rewrite Hrec|].
  - rewrite (map_ext _ (moved (objects s)) (fun planned => eq_sym (moved_held _ planned))).
    rewrite Hpay. apply entries_pushed. by rewrite <-Hpay.
  - rewrite <-Hperm in Hwf. rewrite Forall_forall in Hgd, Hwf. apply Forall_forall. intros planned Hin.
    destruct (Hwf planned Hin) as (_ & Hlo & Hhi & _). specialize (Hgd planned Hin) as Hg. cbv zeta. rewrite <-moved_held.
    pose proof Hg as (covering & Ht & _). unfold tiled at 1 2 3. rewrite Ht.
    destruct (tiling_tiles _ _ _ Ht) as [Hcov Htl]. destruct (tiling_counts _ _ _ Ht) as [_ Hcv].
    split_and!; [done|done|intros Hlt'; by apply Hcv|by apply moved_records].
Qed.
End claims.

(** Two objects, of two records and of one, with a record of another partition
    between. *)
Definition demo_object_of (ps : list Push) : bytes :=
  match (let? b := build ps in bb_seal b) with Ok s => sd_payload s | _ => [] end.
Definition demo_merge_store : FakeObjectStore :=
  (fake_put "b" (demo_object_of [PushPlain "t" 0 (mkPushedRecords 1 None) [7]]) None
    (fake_put "a" (demo_object_of [PushPlain "t" 0 (mkPushedRecords 1 None) [1; 2];
                                   PushPlain "u" 0 (mkPushedRecords 4 None) [9];
                                   PushPlain "t" 0 (mkPushedRecords 1 None) [3]]) None FakeObjectStore_new).1).1.
Definition demo_round : list PlannedInputs :=
  [mkPlannedInputs (mkCompactionPlan "u" 0 0 4 ReadAmp_zero) [mkObjectRef "a" 0 4];
   mkPlannedInputs (mkCompactionPlan "t" 0 0 3 ReadAmp_zero) [mkObjectRef "b" 2 1; mkObjectRef "a" 0 2]].
Definition demo_namer : CompactionNamer := mkCompactionNamer "w" 5.
Definition demo_merged : FakeObjectStore * CompactionNamer * Res MergeOutcome := merge_round demo_round demo_namer demo_merge_store.
Definition demo_outcome : MergeOutcome := match demo_merged.2 with Ok o => o | _ => MergeOutcome_empty end.

Lemma demo_merge_bytes : all_bytes (objects demo_merge_store).
Proof.
  assert (map_Forall (fun _ (v : bytes * PreconditionToken) => Forall is_byte v.1) (objects demo_merge_store)) as Hf
    by vm_decide.
  intros k b token Hk. by apply Hf in Hk.
Qed.

Lemma merge_round_preserves_records_witness :
  exists ordered covering payload token, ordered ≡ₚ demo_round /\ StronglySorted precedes ordered /\
    objects demo_merged.1.1 = <["compacted/w/00000000000000000005" := (payload, token)]> (objects demo_merge_store) /\
    entries payload = concat (map (fun planned => held_by (objects demo_merge_store) planned (covering planned)) ordered) /\
    entries payload = [("t", 0, 1, [1; 2]); ("t", 0, 1, [3]); ("t", 0, 1, [7]); ("u", 0, 4, [9])].
Proof.
  destruct (merge_round_preserves_records demo_round demo_namer demo_merge_store demo_merged.1.1 demo_merged.1.2 demo_outcome
    "compacted/w/00000000000000000005") as (ordered & covering & payload & token & Hperm & Hsort & _ & Hobj & Hent & _).
  - repeat constructor; vm_compute; congruence.
  - apply demo_merge_bytes.
  - vm_decide.
  - vm_compute. reflexivity.
  - vm_compute. reflexivity.
  - exists ordered, covering, payload, token. split_and!; [exact Hperm|exact Hsort|exact Hobj|exact Hent|].
    assert (object_at (objects demo_merged.1.1) "compacted/w/00000000000000000005" = payload) as <-
      by (rewrite Hobj; unfold object_at; by rewrite lookup_insert_eq).
    vm_compute. reflexivity.
Defined.
