(* ===== verification/StoreLog.v ===== *)
(** * StoreLog: the metadata log kept in object storage

    Models [oqueue-core/src/object_store_log.rs] and [object_store_log/base.rs]:
    one create-only segment object per append, base generations found without
    LIST, a walk that reads the log back, and the checkpoint that folds it into
    a snapshot and prunes what the snapshot replaces.  [walk_from] and
    [open_log] are loops whose fuel the callers choose; out of fuel is [Panic],
    no answer at all. *)

From stdpp Require Import base tactics list numbers strings gmap.
From Stdlib Require Import ZArith Lia.
From Stdlib Require Import Ascii.
From S2P Require Import Prelude Bytes Types Store Machine Log Segment.
From S2P Require Import SegmentProps.

Open Scope Z_scope.

(** How one log's entries become a segment's bytes and back. *)
Class SegmentFormat (E : Type) : Type := {
  sf_encode : list E -> Res bytes;
  sf_decode : bytes -> Res (list E);
  sf_version : E -> CommitVersion;
}.

#[export] Instance Metadata : SegmentFormat MetadataEntry := {
  sf_encode := encode_segment;
  sf_decode := decode_segment;
  sf_version := me_version;
}.

(** ** Where a log begins ([base.rs]) *)

(** [*b"OQMB"]. *)
Definition BASE_MAGIC : bytes := [79; 81; 77; 66].

Record Base : Type := mkBase { base_seq : Z; base_snapshot : option ObjectKey }.

Definition Base_encode (self : Base) : Res bytes :=
  let key := default EmptyString (base_snapshot self) in
  let raw := as_bytes key in
  if Z.of_nat (length raw) <=? u16_max
  then Ok (BASE_MAGIC ++ be_bytes 8 (base_seq self) ++ be_bytes 2 (Z.of_nat (length raw)) ++ raw)
  else Err (MalformedMetadataSegment 12).

(** [bytes.get(from..to)]. *)
Definition byte_slice (from to : nat) (raw : bytes) : option bytes :=
  if (to <=? length raw)%nat then Some (take (to - from) (drop from raw)) else None.

Definition Base_decode (raw : bytes) : Res Base :=
  if negb (bool_decide (byte_slice 0 4 raw = Some BASE_MAGIC)) then Err (MalformedMetadataSegment 0)
  else
    match byte_slice 4 12 raw with
    | None => Err (MalformedMetadataSegment 4)
    | Some seq =>
        match byte_slice 12 14 raw with
        | None => Err (MalformedMetadataSegment 12)
        | Some len =>
            let key := drop 14 raw in
            if negb (Z.of_nat (length key) =? from_be len) then Err (MalformedMetadataSegment 14)
            else if negb (utf8_valid key) then Err (MalformedMetadataSegment 14)
            else
              let? snapshot :=
                (if bool_decide (key = []) then Ok None
                 else match ObjectKey_new (of_bytes key) with
                      | Ok key => Ok (Some key)
                      | _ => Err (MalformedMetadataSegment 14)
                      end) in
              Ok (mkBase (from_be seq) snapshot)
        end
    end.

Section log.
Context {E : Type} `{SegmentFormat E}.
Context (prefix : string).

(** What has been read or appended, and where the next segment goes. *)
Record LogState : Type := mkLogState {
  ls_next_seq : Z;
  ls_entries : list E;
  ls_generation : option Z;
  ls_base_seq : Z;
  ls_snapshot : option ObjectKey;
  ls_unsnapshotted_bytes : Z;
}.

(** A handle's memory: nothing until its first use has opened the log
    ([Lazy]). *)
Notation LogProg := (Prog (option LogState)).

Definition segment_key (seq : Z) : Res ObjectKey := ObjectKey_new (numbered prefix "/log/" seq).
Definition base_key (generation : Z) : Res ObjectKey := ObjectKey_new (numbered prefix "/base/" generation).
Definition snapshot_key (version : CommitVersion) : Res ObjectKey :=
  ObjectKey_new (numbered prefix "/snap/" version).

Definition next (seq : Z) : Res Z :=
  match u64_checked_add seq 1 with
  | Some seq' => Ok seq'
  | None => Err (CommitVersionOverflow seq 1)
  end.

(** ** Reading *)

Definition probe (generation : Z) : LogProg (option Base) :=
  let* key := PDone (base_key generation) in
  let* answer := st_get key Full in
  match answer with
  | Ok raw => let* base := PDone (Base_decode raw) in preturn (Some base)
  | Err (ObjectNotFound _) => preturn None
  | Err other => pfail other
  | Panic => PDone Panic
  end.

Definition read_base : LogProg (option Z * Base) :=
  let* newest := search probe in
  match newest with
  | None => preturn (None, mkBase 0 None)
  | Some (generation, found) => preturn (Some generation, found)
  end.

(** Refuses versions that do not strictly increase from [last]. *)
Fixpoint validate (entries : list E) (previous : option CommitVersion) : Res unit :=
  match entries with
  | [] => Ok tt
  | entry :: entries =>
      let version := sf_version entry in
      match previous with
      | Some prev =>
          if version <=? prev then Err (NonMonotonicCommitVersion prev version)
          else validate entries (Some version)
      | None => validate entries (Some version)
      end
  end.

Fixpoint walk_from (fuel : nat) (entries : list E) (seq : Z) : LogProg (list E * Z) :=
  match fuel with
  | O => PDone Panic
  | S fuel =>
      let* key := PDone (segment_key seq) in
      let* answer := st_get key Full in
      match answer with
      | Ok raw =>
          let* segment := PDone (sf_decode raw) in
          let* _ := PDone (validate segment (sf_version <$> last entries)) in
          let* seq' := PDone (next seq) in
          walk_from fuel (entries ++ segment) seq'
      | Err (ObjectNotFound _) => preturn (entries, seq)
      | Err other => pfail other
      | Panic => PDone Panic
      end
  end.

Definition walk (fuel : nat) (base : Base) : LogProg (list E * Z) :=
  let* entries :=
    match base_snapshot base with
    | None => preturn []
    | Some snapshot =>
        let* raw := ask (st_get snapshot Full) in
        let* entries := PDone (sf_decode raw) in
        let* _ := PDone (validate entries None) in
        preturn entries
    end in
  walk_from fuel entries (base_seq base).

(** A walk that raced a checkpoint is started over. *)
Fixpoint open_log (retries fuel : nat) : LogProg LogState :=
  match retries with
  | O => PDone Panic
  | S retries =>
      let* (generation, base) := read_base in
      let* (entries, seq) := walk fuel base in
      let* (generation', _) := read_base in
      if bool_decide (generation' = generation)
      then preturn (mkLogState seq entries generation (base_seq base) (base_snapshot base) 0)
      else open_log retries fuel
  end.

(** [Lazy::get]: the log is opened by the first use that manages to. *)
Definition lazy_get (retries fuel : nat) : LogProg LogState :=
  let* opened := reading in
  match opened with
  | Some state => preturn state
  | None =>
      let* state := open_log retries fuel in
      let* _ := locked (fun opened => Some (default state opened)) in
      let* opened := reading in
      match opened with
      | Some state => preturn state
      | None => pfail (MalformedMetadataSegment 0)
      end
  end.

(** A section under the opened log's lock: the state as it was. *)
Definition with_state (f : LogState -> LogState) : LogProg LogState :=
  let* opened := locked (fmap f) in
  match opened with Some state => preturn state | None => PDone Panic end.

Definition state_read_from (self : LogState) (start : CommitVersion) (max_entries : nat) : list E :=
  take max_entries (List.filter (fun entry => start <=? sf_version entry) (ls_entries self)).

Definition state_last_version (self : LogState) : option CommitVersion :=
  sf_version <$> last (ls_entries self).

(** ** Appending *)

Definition seg_append (entries : list E) : LogProg unit :=
  if bool_decide (entries = []) then preturn tt
  else
    let* state := with_state id in
    let seq := ls_next_seq state in
    let* _ := PDone (validate entries (sf_version <$> last (ls_entries state))) in
    let* payload := PDone (sf_encode entries) in
    let size := Z.min (Z.of_nat (length payload)) u64_max in
    let* key := PDone (segment_key seq) in
    let* _ := ask (st_put key payload (Some IfAbsent)) in
    let* seq' := PDone (next seq) in
    let* _ := with_state (fun state =>
      mkLogState seq' (ls_entries state ++ entries) (ls_generation state) (ls_base_seq state)
        (ls_snapshot state) (u64_saturating_add (ls_unsnapshotted_bytes state) size)) in
    preturn tt.

(** ** Checkpointing *)

Definition put_if_absent (key : ObjectKey) (payload : bytes) : LogProg unit :=
  let* answer := st_put key payload (Some IfAbsent) in
  match answer with
  | Ok _ | Err (PreconditionFailed _) => preturn tt
  | Err other => pfail other
  | Panic => PDone Panic
  end.

Definition still_the_tail (seq : Z) : LogProg unit :=
  let* tail := PDone (segment_key seq) in
  let* answer := st_get tail Full in
  match answer with
  | Err (ObjectNotFound _) => preturn tt
  | Ok _ => pfail (PreconditionFailed tail)
  | Err other => pfail other
  | Panic => PDone Panic
  end.

(** [(old_base..seq).map(segment_key).collect()]. *)
Definition retired_segments (old_base upto : Z) : Res (list ObjectKey) :=
  foldr (fun old acc => let? key := segment_key old in let? keys := acc in Ok (key :: keys)) (Ok [])
    (map (fun n => old_base + Z.of_nat n) (seq 0 (Z.to_nat (upto - old_base)))).

Definition checkpoint : LogProg bool :=
  let* state := with_state id in
  match last (ls_entries state) with
  | None => preturn false
  | Some newest =>
      if ls_next_seq state =? ls_base_seq state then preturn false
      else
        let seq := ls_next_seq state in
        let* generation := PDone (match ls_generation state with None => Ok 0 | Some g => next g end) in
        let old_base := ls_base_seq state in
        let old_snapshot := ls_snapshot state in
        let* payload := PDone (sf_encode (ls_entries state)) in
        let* snapshot := PDone (snapshot_key (sf_version newest)) in
        let* _ := put_if_absent snapshot payload in
        let* state := with_state id in
        let* _ := still_the_tail (ls_next_seq state) in
        let* key := PDone (base_key generation) in
        let* raw := PDone (Base_encode (mkBase seq (Some snapshot))) in
        let* _ := ask (st_put key raw (Some IfAbsent)) in
        let* _ := with_state (fun state =>
          mkLogState (ls_next_seq state) (ls_entries state) (Some generation) seq (Some snapshot) 0) in
        let* retired := PDone (retired_segments old_base seq) in
        let retired := retired ++
          match old_snapshot with
          | Some old => if bool_decide (old = snapshot) then [] else [old]
          | None => []
          end in
        let* _ := ask (st_delete retired) in
        preturn true
  end.
End log.
Arguments LogState : clear implicits.

(** * How the objects of a store spell a log

    The abstract side of the segment log: a layout is the base generations,
    the snapshot and the live segments a prefix holds, [laid_out] says that
    the objects spell it, and a lemma per kind of store call says what the
    call does to the layout.  [open] reads a layout back ([StoreLogProps]). *)

(** ** UTF-8 of a concatenation *)

Lemma utf8_valid_app bs1 bs2 : utf8_valid bs1 = true -> utf8_valid bs2 = true -> utf8_valid (bs1 ++ bs2) = true.
Proof.
  intros H1 H2. remember (length bs1) as n eqn:Hn. revert bs1 Hn H1.
  induction (lt_wf n) as [n _ IH]. intros bs1 -> H1.
  destruct bs1 as [|b0 bs1]; [done|]. simpl in *.
  destruct (in_range 0 127 b0); [apply (IH (length bs1)); [lia|done|done]|].
  destruct bs1 as [|b1 bs1]; [done|]. simpl in *.
  destruct (in_range 194 223 b0).
  { apply andb_true_iff in H1 as [-> H1]. simpl. apply (IH (length bs1)); [lia|done|done]. }
  destruct bs1 as [|b2 bs1]; [done|]. simpl in *. destruct (in_range 224 239 b0).
  { apply andb_true_iff in H1 as [-> H1]. simpl. apply (IH (length bs1)); [lia|done|done]. }
  destruct bs1 as [|b3 bs1]; [done|]. simpl in *. destruct (in_range 240 244 b0); [|done].
  apply andb_true_iff in H1 as [-> H1]. simpl. apply (IH (length bs1)); [lia|done|done].
Qed.

Lemma as_bytes_app s1 s2 : as_bytes (s1 +:+ s2) = as_bytes s1 ++ as_bytes s2.
Proof.
  unfold as_bytes. rewrite <-map_app. f_equal. induction s1 as [|a s1 IH]; simpl; [done|].
  f_equal. apply IH.
Qed.

Lemma is_str_app s1 s2 : is_str s1 -> is_str s2 -> is_str (s1 +:+ s2).
Proof. unfold is_str. rewrite as_bytes_app. apply utf8_valid_app. Qed.

Lemma is_str_digits w n : utf8_valid (map byte_of_ascii (digits w n)) = true.
Proof.
  revert n. induction w as [|w IH]; intros n; simpl digits; [done|].
  rewrite map_app. apply utf8_valid_app; [apply IH|]. simpl. unfold digit.
  pose proof (Z.mod_pos_bound n 10). rewrite byte_of_ascii_of_byte by (unfold is_byte, u8_max; lia).
  unfold in_range. rewrite !(proj2 (Z.leb_le _ _)) by lia. done.
Qed.

Lemma is_str_pad20 n : is_str (pad20 n).
Proof. unfold is_str, as_bytes, pad20. rewrite String.list_ascii_of_string_of_list_ascii. apply is_str_digits. Qed.

Lemma is_str_numbered prefix kind n : is_str prefix -> is_str kind -> is_str (numbered prefix kind n).
Proof.
  intros Hp Hk. apply is_str_app; [done|]. apply is_str_app; [done|]. apply is_str_pad20.
Qed.

(** ** The base object round-trips *)

Lemma byte_slice_app pre mid post :
  byte_slice (length pre) (length pre + length mid) (pre ++ mid ++ post) = Some mid.
Proof.
  unfold byte_slice. rewrite (proj2 (Nat.leb_le _ _)) by (rewrite !length_app; lia).
  rewrite drop_app_length. replace (_ + _ - _)%nat with (length mid) by lia. by rewrite take_app_length.
Qed.

Lemma base_decode_encode b raw :
  in_u64 (base_seq b) -> (forall k, base_snapshot b = Some k -> name_wf k) ->
  Base_encode b = Ok raw -> Base_decode raw = Ok b.
Proof.
  intros Hs Hk. unfold Base_encode. destruct (_ <=? _) eqn:Hlen; [|done]. zbool. intros Hraw.
  set (key := as_bytes (default "" (base_snapshot b))) in *.
  assert (raw = BASE_MAGIC ++ be_bytes 8 (base_seq b) ++ be_bytes 2 (Z.of_nat (length key)) ++ key) as ->
    by (by injection Hraw).
  clear Hraw. set (B8 := be_bytes 8 (base_seq b)). set (B2 := be_bytes 2 (Z.of_nat (length key))).
  assert (length B8 = 8%nat) as H8 by apply be_bytes_length.
  assert (length B2 = 2%nat) as H2 by apply be_bytes_length.
  unfold Base_decode.
  assert (byte_slice 0 4 (BASE_MAGIC ++ B8 ++ B2 ++ key) = Some BASE_MAGIC) as Hb4
    by apply (byte_slice_app [] BASE_MAGIC).
  rewrite Hb4, bool_decide_true by done.
  pose proof (byte_slice_app BASE_MAGIC B8 (B2 ++ key)) as Hb8. rewrite H8 in Hb8.
  change (length BASE_MAGIC) with 4%nat in Hb8. change (4 + 8)%nat with 12%nat in Hb8. rewrite Hb8.
  pose proof (byte_slice_app (BASE_MAGIC ++ B8) B2 key) as Hb2. rewrite length_app, H8, H2 in Hb2.
  change (length BASE_MAGIC + 8)%nat with 12%nat in Hb2. change (12 + 2)%nat with 14%nat in Hb2.
  rewrite <-app_assoc in Hb2. rewrite Hb2.
  assert (drop 14 (BASE_MAGIC ++ B8 ++ B2 ++ key) = key) as Hdrop.
  { rewrite !app_assoc, drop_app_length'; [done|]. by rewrite !length_app, H8, H2. }
  simpl negb. cbv iota. rewrite Hdrop. unfold B2, B8.
  rewrite (from_be_be 2) by (unfold u16_max in *; change (256 ^ Z.of_nat 2) with (2 ^ 16); lia).
  rewrite Z.eqb_refl. simpl negb.
  rewrite (from_be_be 8) by (change (256 ^ Z.of_nat 8) with (2 ^ 64); mlia).
  destruct b as [seq [k|]]; simpl in *.
  - destruct (Hk k eq_refl) as [Hstr Hne]. unfold is_str in Hstr. subst key. rewrite ?drop_0, Hstr. simpl.
    rewrite bool_decide_false; [|intros Heq; apply Hne; by rewrite <-(of_as_bytes k), Heq].
    rewrite of_as_bytes. unfold ObjectKey_new. by rewrite decide_False.
  - done.
Qed.

(** ** Layouts *)

Notation LogEntries := (list MetadataEntry).

Record Layout : Type := mkLayout {
  (** how many base generations there are *)
  ly_bases : Z;
  (** the lowest live segment, and the version its snapshot goes up to *)
  ly_seq : Z;
  ly_snap : option CommitVersion;
  ly_head : LogEntries;
  (** the live segments *)
  ly_chunks : list LogEntries;
}.

Definition ly_tail (y : Layout) : Z := ly_seq y + Z.of_nat (length (ly_chunks y)).
Definition ly_contents (y : Layout) : LogEntries := ly_head y ++ concat (ly_chunks y).

Definition ly_empty : Layout := mkLayout 0 0 None [] [].

(** The same base, with more segments perhaps. *)
Record extends (y y' : Layout) : Prop := {
  ex_bases : ly_bases y' = ly_bases y;
  ex_seq : ly_seq y' = ly_seq y;
  ex_snap : ly_snap y' = ly_snap y;
  ex_head : ly_head y' = ly_head y;
  ex_chunks : ly_chunks y `prefix_of` ly_chunks y';
}.

#[export] Instance extends_preorder : PreOrder extends.
Proof.
  split; [by split|]. intros y1 y2 y3 H1 H2. destruct H1, H2. split; try congruence. by etrans.
Qed.

Lemma concat_prefix {A} (l l' : list (list A)) : l `prefix_of` l' -> concat l `prefix_of` concat l'.
Proof. intros [k ->]. exists (concat k). apply concat_app. Qed.

Lemma extends_contents y y' : extends y y' -> ly_contents y `prefix_of` ly_contents y'.
Proof.
  intros [_ _ _ Hh Hc]. unfold ly_contents. rewrite Hh. by apply prefix_app, concat_prefix.
Qed.

(** The entries before segment [s]. *)
Definition upto (y : Layout) (s : Z) (es : LogEntries) : Prop :=
  ly_seq y <= s <= ly_tail y /\ es = ly_head y ++ concat (take (Z.to_nat (s - ly_seq y)) (ly_chunks y)).

Lemma upto_extends y y' s es : extends y y' -> upto y s es -> upto y' s es.
Proof.
  intros [_ Hs _ Hh Hc] [Hr ->]. unfold upto, ly_tail in *. rewrite Hs, Hh. destruct Hc as [k ->].
  rewrite length_app. split; [lia|]. f_equal. f_equal. rewrite take_app_le; [done|lia].
Qed.

Lemma upto_tail y s : s = ly_tail y -> upto y s (ly_contents y).
Proof.
  intros ->. unfold upto, ly_tail, ly_contents. split; [lia|]. rewrite take_ge by lia. done.
Qed.

Lemma upto_prefix y s es : upto y s es -> es `prefix_of` ly_contents y.
Proof.
  intros [_ ->]. apply prefix_app, concat_prefix. exists (drop (Z.to_nat (s - ly_seq y)) (ly_chunks y)).
  by rewrite take_drop.
Qed.

Lemma upto_next y s es c :
  upto y s es -> ly_chunks y !! Z.to_nat (s - ly_seq y) = Some c -> upto y (s + 1) (es ++ c).
Proof.
  intros [Hr ->] Hc. pose proof (lookup_lt_Some _ _ _ Hc). unfold upto, ly_tail in *. split; [lia|].
  replace (Z.to_nat (s + 1 - ly_seq y)) with (S (Z.to_nat (s - ly_seq y))) by lia.
  rewrite (take_S_r _ _ c Hc), concat_app. simpl. by rewrite app_nil_r, app_assoc.
Qed.

Section layout.
Context (prefix : string).

Notation sk s := (numbered prefix "/log/" s).
Notation bk g := (numbered prefix "/base/" g).
Notation nk v := (numbered prefix "/snap/" v).

Lemma sk_bk s g : sk s <> bk g.
Proof. unfold numbered. intros Heq. by apply (inj _) in Heq. Qed.
Lemma sk_nk s v : sk s <> nk v.
Proof. unfold numbered. intros Heq. by apply (inj _) in Heq. Qed.
Lemma bk_nk g v : bk g <> nk v.
Proof. unfold numbered. intros Heq. by apply (inj _) in Heq. Qed.

(** The objects spell the layout. *)
Record laid_out (m : Objects) (y : Layout) : Prop := {
  lo_range : 0 <= ly_bases y <= 2 ^ 64 /\ in_u64 (ly_seq y) /\ ly_tail y <= 2 ^ 64;
  lo_bases : forall g, in_pad g -> is_Some (m !! bk g) <-> g < ly_bases y;
  lo_base : forall g raw token, in_pad g -> m !! bk g = Some (raw, token) ->
    exists b, Base_decode raw = Ok b /\
      (g = ly_bases y - 1 -> b = mkBase (ly_seq y) ((fun v => nk v) <$> ly_snap y));
  lo_none : ly_bases y = 0 -> ly_seq y = 0 /\ ly_snap y = None;
  lo_head : match ly_snap y with
            | None => ly_head y = []
            | Some v => in_u64 v /\ is_Some (m !! nk v) /\ last_of None (ly_head y) = Some v
            end;
  lo_snaps : forall v raw token, in_u64 v -> m !! nk v = Some (raw, token) ->
    exists es, decode_segment raw = Ok es /\ es `prefix_of` ly_contents y /\ last_of None es = Some v;
  lo_segments : forall n c, ly_chunks y !! n = Some c ->
    exists raw token, m !! sk (ly_seq y + Z.of_nat n) = Some (raw, token) /\ decode_segment raw = Ok c;
  lo_tail : forall s, in_pad s -> ly_tail y <= s -> m !! sk s = None;
  lo_order : increasing None (ly_contents y) /\ Forall entry_wf (ly_contents y);
}.

(** ** The prefix of a log that ends at a version *)

Lemma last_of_In es v : last_of None es = Some v -> exists e, last es = Some e /\ me_version e = v.
Proof. unfold last_of. destruct (last es); [|done]. intros [= <-]. eauto. Qed.

Lemma increasing_last_unique es k v :
  increasing None (es ++ k) -> last_of None es = Some v -> last_of None (es ++ k) = Some v -> k = [].
Proof.
  intros Hinc H1 H2. rewrite last_of_app, H1 in H2. apply increasing_app in Hinc as [_ Hk].
  rewrite H1 in Hk. destruct k as [|e k] using rev_ind; [done|].
  unfold last_of in H2. rewrite last_snoc in H2. simplify_eq.
  exfalso. clear IHk. assert (forall p l, increasing (Some p) (l ++ [e]) -> p < me_version e) as Hgt.
  { intros p l. revert p. induction l as [|x l IH]; intros p; simpl; [tauto|]. intros [Hx Hl]. apply IH in Hl. lia. }
  apply Hgt in Hk. lia.
Qed.

Lemma prefix_at_version c es1 es2 v :
  increasing None c -> es1 `prefix_of` c -> es2 `prefix_of` c ->
  last_of None es1 = Some v -> last_of None es2 = Some v -> es1 = es2.
Proof.
  intros Hinc [k1 ->] [k2 Heq] H1 H2. destruct (prefix_total _ _ _ _ Heq) as [[k ->]|[k ->]].
  - rewrite Heq in Hinc. apply increasing_app in Hinc as [Hinc _].
    by rewrite (increasing_last_unique es1 k v Hinc H1 H2), app_nil_r.
  - apply increasing_app in Hinc as [Hinc _].
    by rewrite (increasing_last_unique es2 k v Hinc H2 H1), app_nil_r.
Qed.

(** A snapshot that ends where the entries do holds exactly them. *)
Lemma snapshot_holds m y s es v raw token :
  laid_out m y -> upto y s es -> last_of None es = Some v -> in_u64 v ->
  m !! nk v = Some (raw, token) -> decode_segment raw = Ok es.
Proof.
  intros Hl Hu Hlast Hv Hm. destruct (lo_snaps _ _ Hl v raw token Hv Hm) as (es' & Hd & Hp & Hlast').
  rewrite (prefix_at_version (ly_contents y) es es' v); [done|apply Hl|by eapply upto_prefix|done..].
Qed.

Lemma head_upto m y : laid_out m y -> upto y (ly_seq y) (ly_head y).
Proof.
  intros Hl. destruct (lo_range _ _ Hl) as (_ & ? & _). unfold upto, ly_tail. split; [lia|].
  replace (Z.to_nat (ly_seq y - ly_seq y)) with 0%nat by lia. simpl. by rewrite app_nil_r.
Qed.

Lemma laid_out_empty m :
  (forall k, in_pad k -> m !! sk k = None /\ m !! bk k = None /\ m !! nk k = None) -> laid_out m ly_empty.
Proof.
  intros Hm. split; simpl.
  - unfold ly_tail; simpl. mlia.
  - intros g Hg. destruct (Hm g Hg) as (_ & -> & _). unfold in_pad in Hg. split; [by intros [? ?]|lia].
  - intros g raw token Hg Hk. destruct (Hm g Hg) as (_ & ? & _). congruence.
  - done.
  - done.
  - intros v raw token Hv Hk. destruct (Hm v (in_u64_pad v Hv)) as (_ & _ & ?). congruence.
  - done.
  - intros s Hs _. by apply Hm.
  - done.
Qed.

(** ** What a call does to the layout *)

(** Keys of other kinds than the log's do not matter. *)
Definition same_log (m m' : Objects) : Prop :=
  forall n, in_pad n ->
    m' !! sk n = m !! sk n /\ m' !! bk n = m !! bk n /\ m' !! nk n = m !! nk n.

Lemma segment_pad m y n c : laid_out m y -> ly_chunks y !! n = Some c -> in_pad (ly_seq y + Z.of_nat n).
Proof.
  intros Hl Hn%lookup_lt_Some. destruct (lo_range _ _ Hl) as (_ & ? & Ht). unfold ly_tail, in_pad in *. mlia.
Qed.

Lemma laid_out_same m m' y : same_log m m' -> laid_out m y -> laid_out m' y.
Proof.
  intros Hs Hl. split; try apply Hl.
  - intros g Hg. destruct (Hs g Hg) as (_ & -> & _). by apply Hl.
  - intros g raw token Hg. destruct (Hs g Hg) as (_ & -> & _). by apply Hl.
  - pose proof (lo_head _ _ Hl) as Hh. destruct (ly_snap y) as [v|]; [|done].
    destruct Hh as (Hv & Hp & He). destruct (Hs v (in_u64_pad v Hv)) as (_ & _ & ->). done.
  - intros v raw token Hv. destruct (Hs v (in_u64_pad v Hv)) as (_ & _ & ->). by apply Hl.
  - intros n c Hn. destruct (Hs _ (segment_pad _ _ _ _ Hl Hn)) as (-> & _ & _). by apply Hl.
  - intros x Hx. destruct (Hs x Hx) as (-> & _ & _). by apply Hl.
Qed.

Definition add_chunk (es : LogEntries) (y : Layout) : Layout :=
  mkLayout (ly_bases y) (ly_seq y) (ly_snap y) (ly_head y) (ly_chunks y ++ [es]).

Lemma add_chunk_extends es y : extends y (add_chunk es y).
Proof. split; simpl; try done. by eexists. Qed.

Lemma add_chunk_contents es y : ly_contents (add_chunk es y) = ly_contents y ++ es.
Proof. unfold ly_contents; simpl. by rewrite concat_app, app_assoc; simpl; rewrite app_nil_r. Qed.

Lemma add_chunk_tail es y : ly_tail (add_chunk es y) = ly_tail y + 1.
Proof. unfold ly_tail; simpl. rewrite length_app. simpl. lia. Qed.

(** An append lands at the tail. *)
Lemma laid_out_append m y raw token es :
  laid_out m y -> ly_tail y <= u64_max -> decode_segment raw = Ok es ->
  increasing (last_of None (ly_contents y)) es -> Forall entry_wf es ->
  laid_out (<[sk (ly_tail y) := (raw, token)]> m) (add_chunk es y).
Proof.
  intros Hl Ht Hd Hinc Hwf. destruct (lo_range _ _ Hl) as (Hb & Hs & _).
  assert (in_pad (ly_tail y)) as Hpad by (unfold in_pad, ly_tail in *; mlia).
  assert (forall s, in_pad s -> s <> ly_tail y -> <[sk (ly_tail y) := (raw, token)]> m !! sk s = m !! sk s) as Hne.
  { intros s' Hs' Hn. rewrite lookup_insert_ne; [done|]. intros Hk%numbered_pad_inj; auto. }
  split.
  - rewrite add_chunk_tail. simpl. split; [done|]. split; [done|]. mlia.
  - intros g Hg. rewrite lookup_insert_ne by apply sk_bk. by apply Hl.
  - intros g b tok Hg. rewrite lookup_insert_ne by apply sk_bk. by apply Hl.
  - apply Hl.
  - pose proof (lo_head _ _ Hl) as Hh. simpl. destruct (ly_snap y) as [v|]; [|done].
    by rewrite lookup_insert_ne by apply sk_nk.
  - intros v b tok Hv. rewrite lookup_insert_ne by apply sk_nk. intros Hm.
    destruct (lo_snaps _ _ Hl v b tok Hv Hm) as (es' & ? & Hp & ?). exists es'. split; [done|]. split; [|done].
    rewrite add_chunk_contents. by apply prefix_app_r.
  - intros n c. simpl. rewrite lookup_app_Some. intros [Hn|[Hn Hc]].
    + rewrite Hne; [by apply Hl|by eapply segment_pad|]. apply lookup_lt_Some in Hn. unfold ly_tail. lia.
    + destruct (n - length (ly_chunks y))%nat as [|k] eqn:Hk; [|by destruct k]. injection Hc as <-.
      replace (ly_seq y + Z.of_nat n) with (ly_tail y) by (unfold ly_tail; lia).
      rewrite lookup_insert_eq. eauto.
  - intros s Hs'. rewrite add_chunk_tail. intros Hle. rewrite Hne by (done || lia). apply Hl; [done|lia].
  - rewrite add_chunk_contents. destruct (lo_order _ _ Hl). split.
    + by apply increasing_app.
    + by apply Forall_app.
Qed.

(** A snapshot of some prefix of the log is written. *)
Lemma laid_out_snapshot m y v raw token es :
  laid_out m y -> in_u64 v -> decode_segment raw = Ok es -> es `prefix_of` ly_contents y ->
  last_of None es = Some v -> laid_out (<[nk v := (raw, token)]> m) y.
Proof.
  intros Hl Hv Hd Hp Hlast.
  assert (forall v', in_u64 v' -> <[nk v := (raw, token)]> m !! nk v' =
    if decide (v' = v) then Some (raw, token) else m !! nk v') as Hlk.
  { intros v' Hv'. rewrite lookup_insert. repeat case_decide; try done; [|congruence].
    exfalso. eauto using numbered_inj. }
  split; try apply Hl.
  - intros g Hg. rewrite lookup_insert_ne by (symmetry; apply bk_nk). by apply Hl.
  - intros g b tok Hg. rewrite lookup_insert_ne by (symmetry; apply bk_nk). by apply Hl.
  - pose proof (lo_head _ _ Hl) as Hh. destruct (ly_snap y) as [v'|]; [|done].
    destruct Hh as (Hv' & Hm & He). split; [done|]. split; [|done]. rewrite Hlk by done. by case_decide.
  - intros v' b tok Hv'. rewrite Hlk by done. case_decide as Heq; [|by apply Hl].
    intros [= <- <-]. subst v'. eauto.
  - intros n c Hn. rewrite lookup_insert_ne by (symmetry; apply sk_nk). by apply Hl.
  - intros s Hs. rewrite lookup_insert_ne by (symmetry; apply sk_nk). by apply Hl.
Qed.

(** A base generation is committed: the segments before it are folded. *)
Definition rebase (s v : Z) (es : LogEntries) (y : Layout) : Layout :=
  mkLayout (ly_bases y + 1) s (Some v) es (drop (Z.to_nat (s - ly_seq y)) (ly_chunks y)).

Lemma rebase_tail s v es y : upto y s es -> ly_tail (rebase s v es y) = ly_tail y.
Proof. intros [Hr _]. unfold ly_tail in *; simpl. rewrite length_drop. lia. Qed.

Lemma rebase_contents s v es y : upto y s es -> ly_contents (rebase s v es y) = ly_contents y.
Proof.
  intros [_ ->]. unfold ly_contents; simpl. by rewrite <-app_assoc, <-concat_app, take_drop.
Qed.

Lemma rebase_upto s v es y s' es' : upto y s es -> s <= s' -> upto y s' es' -> upto (rebase s v es y) s' es'.
Proof.
  intros Hu Hle [Hr' ->]. unfold upto. rewrite (rebase_tail s v es y Hu). simpl. split; [lia|].
  destruct Hu as [Hr ->]. rewrite <-app_assoc, <-concat_app. f_equal. f_equal.
  rewrite <-(take_drop (Z.to_nat (s - ly_seq y)) (ly_chunks y)) at 1.
  unfold ly_tail in *. rewrite take_app_ge by (rewrite length_take; lia). f_equal.
  rewrite length_take. f_equal. lia.
Qed.

Lemma laid_out_rebase m y s v es raw token :
  laid_out m y -> ly_bases y <= u64_max -> in_u64 s -> upto y s es -> last_of None es = Some v -> in_u64 v ->
  is_Some (m !! nk v) -> Base_decode raw = Ok (mkBase s (Some (nk v))) ->
  laid_out (<[bk (ly_bases y) := (raw, token)]> m) (rebase s v es y).
Proof.
  intros Hl Hmax Hs64 Hu Hlast Hv Hsnap Hd. destruct (lo_range _ _ Hl) as (Hb & Hs & Ht).
  assert (in_pad (ly_bases y)) as Hpad by (unfold in_pad; mlia).
  assert (forall g, in_pad g -> <[bk (ly_bases y) := (raw, token)]> m !! bk g =
    if decide (g = ly_bases y) then Some (raw, token) else m !! bk g) as Hlk.
  { intros g Hg. rewrite lookup_insert. repeat case_decide; try done; [|congruence].
    exfalso. eauto using numbered_pad_inj. }
  split.
  - rewrite (rebase_tail _ _ _ _ Hu). simpl. destruct Hu as [Hr _]. mlia.
  - intros g Hg. rewrite Hlk by done. simpl. case_decide as Heq.
    + subst g. split; [lia|by eauto].
    + rewrite (lo_bases _ _ Hl g Hg). lia.
  - intros g b tok Hg. rewrite Hlk by done. simpl. case_decide as Heq.
    + intros [= <- <-]. eauto.
    + intros Hm. destruct (lo_base _ _ Hl g b tok Hg Hm) as (b' & ? & _). exists b'. split; [done|].
      intros ->. exfalso. assert (is_Some (m !! bk (ly_bases y + 1 - 1))) as Hx by eauto.
      apply (lo_bases _ _ Hl) in Hx; [lia|done].
  - simpl. lia.
  - simpl. split; [done|]. split; [|done]. by rewrite lookup_insert_ne by apply bk_nk.
  - intros v' b tok Hv'. rewrite lookup_insert_ne by apply bk_nk. rewrite (rebase_contents _ _ _ _ Hu). by apply Hl.
  - intros n c. simpl. rewrite lookup_drop. intros Hn. rewrite lookup_insert_ne by (symmetry; apply sk_bk).
    destruct Hu as [Hr _]. apply (lo_segments _ _ Hl) in Hn.
    by replace (s + Z.of_nat n) with (ly_seq y + Z.of_nat (Z.to_nat (s - ly_seq y) + n)) by lia.
  - intros x Hx. rewrite (rebase_tail _ _ _ _ Hu). intros Hle.
    rewrite lookup_insert_ne by (symmetry; apply sk_bk). by apply Hl.
  - rewrite (rebase_contents _ _ _ _ Hu). apply Hl.
Qed.

(** What a checkpoint retires: segments below the base, and a snapshot the
    base does not name. *)
Definition retired (y : Layout) (k : string) : Prop :=
  (exists n, in_pad n /\ n < ly_seq y /\ k = sk n) \/
  (exists v, in_u64 v /\ ly_snap y <> Some v /\ k = nk v).

Lemma laid_out_delete m m' y (gone : list string) :
  laid_out m y -> (forall k, k ∈ gone -> retired y k) ->
  (forall k, m' !! k = if decide (k ∈ gone) then None else m !! k) -> laid_out m' y.
Proof.
  intros Hl Hret Hm.
  assert (forall g, m' !! bk g = m !! bk g) as Hbk.
  { intros g. rewrite Hm. case_decide as Hin; [|done].
    destruct (Hret _ Hin) as [(n & _ & _ & Hk)|(v & _ & _ & Hk)];
      [by apply eq_sym, sk_bk in Hk|by apply bk_nk in Hk]. }
  assert (forall s, in_pad s -> ly_seq y <= s -> m' !! sk s = m !! sk s) as Hsk.
  { intros s Hs Hle. rewrite Hm. case_decide as Hin; [|done].
    destruct (Hret _ Hin) as [(n & Hn & Hlt & Hk)|(v & _ & _ & Hk)]; [|by apply sk_nk in Hk].
    apply numbered_pad_inj in Hk; [lia|done..]. }
  assert (forall v, m' !! nk v = m !! nk v \/ m' !! nk v = None) as Hnk.
  { intros v. rewrite Hm. case_decide; auto. }
  split; try apply Hl.
  - intros g Hg. rewrite Hbk. by apply Hl.
  - intros g b tok Hg. rewrite Hbk. by apply Hl.
  - pose proof (lo_head _ _ Hl) as Hh. destruct (ly_snap y) as [v|] eqn:Hsn; [|done].
    destruct Hh as (Hv & Hp & He). split; [done|]. split; [|done]. rewrite Hm. case_decide as Hin; [|done].
    destruct (Hret _ Hin) as [(n & _ & _ & Hk)|(v' & Hv' & Hne & Hk)]; [by apply eq_sym, sk_nk in Hk|].
    apply numbered_inj in Hk; [congruence|done..].
  - intros v b tok Hv Hk. destruct (Hnk v) as [Heq|Heq]; rewrite Heq in Hk; [by eapply Hl|done].
  - intros n c Hn. rewrite Hsk; [by apply Hl|by eapply segment_pad|lia].
  - intros s Hs Hle. rewrite Hsk; [by apply Hl|done|unfold ly_tail in Hle; lia].
Qed.
End layout.
