(* ===== verification/StoreLogInv.v ===== *)
(** * StoreLogInv: the invariant of the segment log under interleaving

    Two deployments are covered.  Alone ([solo]), one process appends and
    checkpoints, from a writer task and a checkpoint task that interleave at
    every store call; otherwise any number of processes append, and nobody
    checkpoints.  (A checkpoint by one process under the feet of another is
    what [StoreLogProps.stale_append_is_lost] is about.)  Each process opens
    the log on first use and may die and come back at any point. *)

From stdpp Require Import base tactics list numbers strings gmap functions relations.
From Stdlib Require Import ZArith Lia.
From S2P Require Import Prelude Bytes Types Store Machine Log Segment SegmentProps.
From S2P Require Import StoreLog.

Open Scope Z_scope.

Notation LState := (LogState MetadataEntry).
Notation LView := (View (option LState) Layout).

(** Task [2n] is process [n]'s writer, task [2n + 1] its checkpointer. *)
Definition process (i : nat) : nat := Nat.div2 i.
Definition writer (i : nat) : bool := Nat.even i.

Lemma process_mate i j : process i = process j -> i <> j -> writer j = negb (writer i).
Proof.
  unfold process, writer. intros Heq Hne.
  pose proof (Nat.div2_odd i) as Hi. pose proof (Nat.div2_odd j) as Hj.
  rewrite <-!Nat.negb_odd. rewrite Heq in Hi. destruct (Nat.odd i), (Nat.odd j); simpl in *; try done; lia.
Qed.

Section invariant.
Context (prefix : string) (solo : bool).

Notation sk s := (numbered prefix "/log/" s).
Notation bk g := (numbered prefix "/base/" g).
Notation nk v := (numbered prefix "/snap/" v).

(** What an opened handle remembers, against what the store holds. *)
Record state_ok (y : Layout) (st : LState) : Prop := {
  so_next : in_u64 (ls_next_seq st);
  so_upto : upto y (ls_next_seq st) (ls_entries st);
  so_base : 0 <= ls_base_seq st <= ls_next_seq st;
  so_generation : forall g, ls_generation st = Some g -> 0 <= g < ly_bases y;
  so_snapshot : forall k, ls_snapshot st = Some k -> exists v, in_u64 v /\ k = nk v;
}.

Record log_inv (v : LView) : Prop := {
  iv_laid_out : laid_out prefix (v_objects v) (v_ghost v);
  iv_state : forall n st, v_local v n = Some st -> state_ok (v_ghost v) st;
  iv_solo : solo = true -> forall n, n <> 0%nat -> v_local v n = None;
}.

Definition active (i : nat) : Prop := solo = true -> process i = 0%nat.

(** What the other tasks leave of a handle that is open. *)
Definition keeps (i : nat) (v v' : LView) (st st' : LState) : Prop :=
  if writer i then
    ls_next_seq st' = ls_next_seq st /\ ls_entries st' = ls_entries st /\
    forall s es, ls_next_seq st <= s -> upto (v_ghost v) s es -> upto (v_ghost v') s es
  else
    ls_next_seq st <= ls_next_seq st' /\ ls_generation st' = ls_generation st /\
    ls_base_seq st' = ls_base_seq st /\ ls_snapshot st' = ls_snapshot st /\
    extends (v_ghost v) (v_ghost v') /\
    forall w, in_u64 w -> v_objects v' !! nk w = v_objects v !! nk w.

Record log_rely (i : nat) (v v' : LView) : Prop := {
  rl_grows : ly_contents (v_ghost v) `prefix_of` ly_contents (v_ghost v');
  rl_closed : active i -> v_local v' (process i) = None ->
    v_local v (process i) = None /\ extends (v_ghost v) (v_ghost v');
  rl_open : active i -> forall st, v_local v (process i) = Some st ->
    exists st', v_local v' (process i) = Some st' /\ keeps i v v' st st';
}.

Lemma log_rely_refl i v : log_rely i v v.
Proof.
  split; [done|intros _ ?; by split|]. intros _ st Hst. exists st. split; [done|].
  unfold keeps. destruct (writer i); [done|]. split; [lia|]. by split_and!.
Qed.

Lemma keeps_trans i v1 v2 v3 st1 st2 st3 :
  keeps i v1 v2 st1 st2 -> keeps i v2 v3 st2 st3 -> keeps i v1 v3 st1 st3.
Proof.
  unfold keeps. destruct (writer i).
  - intros (-> & -> & H1) (Hn & -> & H2). split_and!; [done..|]. intros s es Hs Hu.
    apply H2, H1; [lia|done|done].
  - intros (H1 & Hg & Hb & Hs & He & Hk) (H1' & Hg' & Hb' & Hs' & He' & Hk').
    split; [lia|]. split; [congruence|]. split; [congruence|]. split; [congruence|].
    split; [by etrans|]. intros w Hw. by rewrite Hk', Hk.
Qed.

Lemma log_rely_trans i v1 v2 v3 : log_rely i v1 v2 -> log_rely i v2 v3 -> log_rely i v1 v3.
Proof.
  intros H1 H2. split.
  - etrans; [apply H1|apply H2].
  - intros Ha Hn. destruct (rl_closed _ _ _ H2 Ha Hn) as [Hn2 He2].
    destruct (rl_closed _ _ _ H1 Ha Hn2) as [Hn1 He1]. split; [done|]. by etrans.
  - intros Ha st Hst. destruct (rl_open _ _ _ H1 Ha st Hst) as (st2 & Hst2 & Hk1).
    destruct (rl_open _ _ _ H2 Ha st2 Hst2) as (st3 & Hst3 & Hk2). eauto using keeps_trans.
Qed.

(** ** The kinds of change, and what the others may rely on *)

(** A longer log with the same base, the handles as they were. *)
Lemma extend_rely (v : LView) m' c' y' :
  extends (v_ghost v) y' -> (forall w, in_u64 w -> m' !! nk w = v_objects v !! nk w) ->
  forall j, log_rely j v (mkView m' (v_local v) c' y').
Proof.
  intros He Hk j. split; simpl; [by apply extends_contents|by split|]. intros _ st Hst. exists st.
  split; [done|]. unfold keeps; simpl. destruct (writer j); [|by split_and!].
  split_and!; [done..|]. intros s es _. by apply upto_extends.
Qed.

Lemma state_extends y y' st : extends y y' -> state_ok y st -> state_ok y' st.
Proof.
  intros He [Hn Hu Hb Hg Hs]. split; try done; [by eapply upto_extends|].
  intros g Hgen. rewrite (ex_bases _ _ He). auto.
Qed.

(** A handle changes what it remembers. *)
Definition mate_keeps (i : nat) (st st' : LState) : Prop :=
  if writer i then
    ls_next_seq st <= ls_next_seq st' /\ ls_generation st' = ls_generation st /\
    ls_base_seq st' = ls_base_seq st /\ ls_snapshot st' = ls_snapshot st
  else ls_next_seq st' = ls_next_seq st /\ ls_entries st' = ls_entries st.

Lemma local_change (v : LView) i x' :
  active i -> log_inv v -> (forall st', x' = Some st' -> state_ok (v_ghost v) st') ->
  (forall st, v_local v (process i) = Some st -> exists st', x' = Some st' /\ mate_keeps i st st') ->
  let v' := mkView (v_objects v) (<[process i := x']> (v_local v)) (v_clock v) (v_ghost v) in
  log_inv v' /\ forall j, j <> i -> log_rely j v v'.
Proof.
  intros Ha Hi Hx Hk v'. split.
  - split; simpl; [apply Hi| |].
    + intros n st. destruct (decide (n = process i)) as [-> |];
        [rewrite fn_lookup_insert; auto|rewrite fn_lookup_insert_ne by done; apply Hi].
    + intros Hs n Hn. rewrite fn_lookup_insert_ne by (rewrite (Ha Hs); auto). by apply Hi.
  - intros j Hj. destruct (decide (process j = process i)) as [Heq|Hne].
    + split; simpl; rewrite ?Heq, ?fn_lookup_insert; [done| |].
      * intros _ ->. split; [|done]. destruct (v_local v (process i)) as [st|]; [|done].
        by destruct (Hk st eq_refl) as (? & ? & _).
      * intros _ st Hst. destruct (Hk st Hst) as (st' & -> & Hm). exists st'. split; [done|].
        unfold keeps, mate_keeps in *. rewrite (process_mate i j) by auto. destruct (writer i); simpl.
        -- destruct Hm as (? & ? & ? & ?). by split_and!.
        -- destruct Hm as (? & ?). by split_and!.
    + split; simpl; rewrite ?fn_lookup_insert_ne by done; [done|by split|]. intros _ st Hst.
      exists st. split; [done|]. unfold keeps. destruct (writer j); [done|]. split; [lia|]. by split_and!.
Qed.
End invariant.

(** * The operations of the segment log keep its invariant

    [read_base], [walk], [open_log] and [lazy_get] under interleaving: what an
    open that was not overtaken by another task of its process returns is what
    the store holds, up to where the others have got meanwhile; an open that
    runs alone ([quiet]) returns exactly the layout, and fails only when the
    store does or its sequence numbers are used up.  [seg_append] lands at the
    tail or not at all, and [checkpoint] leaves the contents as they are at
    every one of its calls. *)

(** The state an open makes of a layout. *)
Definition gen_of (y : Layout) : option Z := if ly_bases y =? 0 then None else Some (ly_bases y - 1).

Definition base_of (prefix : string) (y : Layout) : Base :=
  mkBase (ly_seq y) ((fun v => numbered prefix "/snap/" v) <$> ly_snap y).

Definition opened_state (prefix : string) (y : Layout) : LState :=
  mkLogState (ly_tail y) (ly_contents y) (gen_of y) (ly_seq y) (base_snapshot (base_of prefix y)) 0.

(** The numbers are used up: no new generation, or no new segment. *)
Definition exhausted (y : Layout) : Prop := 2 ^ 63 < ly_bases y \/ u64_max < ly_tail y.

Lemma validate_Ok (es : list MetadataEntry) prev : validate es prev = Ok tt <-> increasing prev es.
Proof.
  revert prev. induction es as [|e es IH]; intros [v|]; simpl; try done; [|rewrite IH; tauto].
  destruct (me_version e <=? v) eqn:Hle; zbool;
    [split; [done|intros [? _]; lia]|rewrite IH; split; [by split|tauto]].
Qed.

Lemma validate_no_panic (es : list MetadataEntry) prev : validate es prev <> Panic.
Proof. revert prev. induction es as [|e es IH]; intros [v|]; simpl; try done. by destruct (_ <=? _). Qed.

Lemma last_version (es : list MetadataEntry) : sf_version <$> last es = last_of None es.
Proof. unfold last_of. by destruct (last es). Qed.

Section reading.
Context (prefix : string) (solo : bool) (fault : Error -> Prop).
Context (fault_opaque : forall e, fault e -> opaque_fault e).

Notation sk s := (numbered prefix "/log/" s).
Notation bk g := (numbered prefix "/base/" g).
Notation nk v := (numbered prefix "/snap/" v).
Notation log_inv := (log_inv prefix solo).
Notation log_rely := (log_rely prefix solo).

(** One task [i], under whatever the others do ([rely]); [quiet] when they do
    nothing. *)
Context (i : nat) (i_active : active solo i).
Context (rely : nat -> LView -> LView -> Prop) (quiet : Prop).
Context (rely_log : forall v v', rely i v v' -> log_rely i v v').
Context (log_others : forall j v v', j <> i -> log_rely j v v' -> rely j v v').
Context (quiet_eq : quiet -> forall v v', rely i v v' -> v' = v).

Definition log_grows (v v' : LView) : Prop := ly_contents (v_ghost v) `prefix_of` ly_contents (v_ghost v').

Notation Safe := (safe fault process log_inv rely log_grows i).
Notation Goes := (goes log_inv rely log_grows i).
Notation mine v := (v_local v (process i)).

Lemma log_goes_same v (Q : LView -> Prop) : log_inv v -> Q v -> Goes v (v_objects v) (v_local v) Q.
Proof.
  intros Hi HQ. exists (v_ghost v). destruct v; simpl in *. split; [done|]. split; [|done].
  split; [by unfold log_grows|]. intros j Hj. apply log_others; [done|]. apply log_rely_refl.
Qed.

(** A step that only computes. *)
Lemma safe_pure {A B} (r : Res A) (k : A -> Prog (option LState) B) Q v :
  then_safe fault process log_inv rely log_grows i k Q r v -> Safe (let* x := PDone r in k x) Q v.
Proof. intros Hr. by apply safe_bind. Qed.

Lemma safe_key {A} kind n (k : string -> Prog (option LState) A) Q v :
  kind <> EmptyString -> Safe (k (numbered prefix kind n)) Q v ->
  Safe (let* key := PDone (ObjectKey_new (numbered prefix kind n)) in k key) Q v.
Proof. intros Hk Hs. apply safe_pure. by rewrite numbered_new. Qed.

(** A read of a key of the log. *)
Lemma log_get {A} key (k : Res bytes -> Prog (option LState) A) Q v :
  (forall v1 r, log_rely i v v1 -> (quiet -> v1 = v) -> log_inv v1 ->
     get_spec fault (v_objects v1) key Full r -> Safe (k r) Q v1) ->
  Safe (let* r := st_get key Full in k r) Q v.
Proof. intros Hk v1 Hr Hi r Hg. apply log_goes_same; [done|]. apply Hk; auto. Qed.

(** The answers to a read: the object, nothing, or a fault. *)
Lemma get_cases m key (r : Res bytes) :
  get_spec fault m key Full r ->
  (exists raw token, r = Ok raw /\ m !! key = Some (raw, token)) \/
  (r = Err (ObjectNotFound key) /\ m !! key = None) \/
  (exists e, r = Err e /\ fault e /\ opaque_fault e).
Proof.
  destruct r as [raw|e|]; simpl; [| |done].
  - intros (payload & token & Hk & [= ->]). eauto.
  - intros [Hf|Hk]; [by eauto 8|]. destruct (m !! key) as [[payload token]|]; [discriminate Hk|]. subst e. auto.
Qed.

(** ** The newest base *)

Definition base_seen (g : Z) (b : Base) (v : LView) : Prop :=
  mine v = None -> g < ly_bases (v_ghost v) /\ (g = ly_bases (v_ghost v) - 1 -> b = base_of prefix (v_ghost v)).

Definition base_absent (g : Z) (v : LView) : Prop :=
  mine v = None -> 0 <= ly_bases (v_ghost v) <= g /\
    (ly_bases (v_ghost v) = 0 -> base_of prefix (v_ghost v) = mkBase 0 None).

Lemma base_of_extends y y' : extends y y' -> base_of prefix y' = base_of prefix y.
Proof. intros [_ Hs Hn _ _]. unfold base_of. by rewrite Hs, Hn. Qed.

(** A quiet open finds the handle closed throughout. *)
Definition closed (v : LView) : Prop := quiet -> mine v = None.

Lemma closed_rely v v' : (quiet -> v' = v) -> closed v -> closed v'.
Proof. intros Hq Hc Hquiet. rewrite (Hq Hquiet). auto. Qed.

(** The view after a step of an open: the others have moved, or nobody has. *)
Definition moved (v v' : LView) : Prop := log_rely i v v' /\ (quiet -> v' = v).

Lemma moved_refl v : moved v v.
Proof. split; [apply log_rely_refl|done]. Qed.

Lemma moved_trans v1 v2 v3 : moved v1 v2 -> moved v2 v3 -> moved v1 v3.
Proof.
  intros [H1 Hq1] [H2 Hq2]. split; [by eapply log_rely_trans|]. intros Hq. rewrite Hq2, Hq1; done.
Qed.

Definition read_error (e : Error) (v : LView) : Prop := quiet -> fault e \/ exhausted (v_ghost v).

Lemma probe_safe_log g v :
  in_u64 g -> closed v ->
  Safe (probe prefix g) (probe_post closed moved base_seen base_absent (fun e => quiet -> fault e) g v) v.
Proof.
  intros Hg Hc. unfold probe, base_key. apply safe_key; [done|].
  apply log_get. intros v1 r Hr Hq Hi Hspec. pose proof (in_u64_pad g Hg) as Hp.
  pose proof (closed_rely v v1 Hq Hc) as Hc1. pose proof (iv_laid_out _ _ _ Hi) as Hl.
  destruct (get_cases _ _ _ Hspec) as [(raw & token & -> & Hk)|[[-> Hk]|(e & -> & He & Ho)]].
  - destruct (lo_base _ _ _ Hl g raw token Hp Hk) as (b & Hb & Hnew). simpl. rewrite Hb. simpl.
    split; [by split|]. split; [done|]. intros _.
    assert (is_Some (v_objects v1 !! bk g)) as Hs by eauto. apply (lo_bases _ _ _ Hl) in Hs; auto.
  - split; [by split|]. split; [done|]. intros _. destruct (lo_range _ _ _ Hl) as ([? _] & _ & _). split.
    + destruct (decide (g < ly_bases (v_ghost v1))) as [Hlt|]; [|lia].
      apply (lo_bases _ _ _ Hl g Hp) in Hlt as [? ?]. congruence.
    + intros Hz. destruct (lo_none _ _ _ Hl Hz) as [Hs Hn]. unfold base_of. by rewrite Hs, Hn.
  - destruct e; try done; (split; [by split|]; split; [done|]; intros _; exact He).
Qed.

Definition read_base_post (v : LView) (r : Res (option Z * Base)) (v' : LView) : Prop :=
  moved v v' /\ closed v' /\
  match r with
  | Ok (g, b) => mine v' = None -> g = gen_of (v_ghost v') /\ b = base_of prefix (v_ghost v')
  | Err e => read_error e v'
  | Panic => False
  end.

Lemma read_base_safe v : closed v -> log_inv v -> Safe (read_base prefix) (read_base_post v) v.
Proof.
  intros Hc Hi. unfold read_base. apply safe_bind.
  eapply safe_mono.
  { apply (search_safe (probe prefix) fault process log_inv rely log_grows i closed moved
      base_seen base_absent (fun e => quiet -> fault e)); [apply moved_refl|apply moved_trans|..|done].
    - intros g b v1 v2 [Hr _] Hs Hn. destruct (rl_closed _ _ _ _ _ Hr i_active Hn) as [Hn1 He].
      destruct (Hs Hn1) as [Hlt Hb]. rewrite (base_of_extends _ _ He), (ex_bases _ _ He). auto.
    - intros g v1 v2 [Hr _] Hs Hn. destruct (rl_closed _ _ _ _ _ Hr i_active Hn) as [Hn1 He].
      rewrite (base_of_extends _ _ He), (ex_bases _ _ He). auto.
    - intros g v1 Hg Hc1. by apply probe_safe_log. }
  intros [[[g b]|]|e|] v1 (Hm & Hc1 & Ha); simpl; [| | |done].
  - split; [done|]. split; [done|]. intros Hn. destruct Ha as (Hs & Hab & Hr).
    destruct (Hs Hn) as [Hlt Hb]. destruct (Hab Hn) as [Hle _]. unfold gen_of.
    rewrite (proj2 (Z.eqb_neq _ _)) by lia. split; [f_equal; lia|apply Hb; lia].
  - split; [done|]. split; [done|]. intros Hn. destruct (Ha Hn) as [Hle Hz]. unfold gen_of.
    assert (ly_bases (v_ghost v1) = 0) as Heq by lia. rewrite Heq. rewrite Hz by done. done.
  - split; [done|]. split; [done|]. intros Hq. destruct Ha as [Hf|[x Hx]]; [left; auto|right].
    left. apply (Hx (Hc1 Hq)).
Qed.

(** ** The walk *)

Definition walk_post (fuel : nat) (s0 : Z) (v : LView) (r : Res (list MetadataEntry * Z)) (v' : LView) : Prop :=
  moved v v' /\ closed v' /\
  match r with
  | Ok (es, s) => mine v' = None ->
      upto (v_ghost v') s es /\ in_u64 s /\ (quiet -> s = ly_tail (v_ghost v'))
  | Err e => read_error e v'
  | Panic => quiet -> Z.of_nat fuel <= ly_tail (v_ghost v') - s0
  end.

(** What is found at the end of the entries read so far. *)
Lemma walk_step m y s es raw token :
  laid_out prefix m y -> upto y s es -> in_u64 s -> m !! sk s = Some (raw, token) ->
  exists c, decode_segment raw = Ok c /\ validate c (last_of None es) = Ok tt /\ upto y (s + 1) (es ++ c).
Proof.
  intros Hl Hu Hs Hk. pose proof Hu as [Hr _].
  assert (s < ly_tail y) as Hlt.
  { destruct (decide (s < ly_tail y)); [done|].
    rewrite (lo_tail _ _ _ Hl s (in_u64_pad s Hs)) in Hk; [done|lia]. }
  destruct (lookup_lt_is_Some_2 (ly_chunks y) (Z.to_nat (s - ly_seq y))) as [c Hc].
  { unfold ly_tail in *. lia. }
  destruct (lo_segments _ _ _ Hl _ _ Hc) as (raw' & token' & Hk' & Hd).
  replace (ly_seq y + Z.of_nat (Z.to_nat (s - ly_seq y))) with s in Hk' by lia.
  rewrite Hk in Hk'. injection Hk' as <- <-. pose proof (upto_next _ _ _ _ Hu Hc) as Hnext.
  exists c. split; [done|]. split; [|done]. apply validate_Ok.
  destruct (upto_prefix _ _ _ Hnext) as [k Hcon]. destruct (lo_order _ _ _ Hl) as [Hinc _].
  rewrite Hcon in Hinc. apply increasing_app in Hinc as [Hinc _]. by apply increasing_app in Hinc as [_ Hinc].
Qed.

Lemma walk_from_safe fuel es s v :
  closed v -> (mine v = None -> upto (v_ghost v) s es /\ in_u64 s) ->
  Safe (walk_from prefix fuel es s) (walk_post fuel s v) v.
Proof.
  revert es s v. induction fuel as [|fuel IH]; intros es s v Hc Hpre; cbn [walk_from].
  { split; [apply moved_refl|]. split; [done|]. intros Hq. destruct (Hpre (Hc Hq)) as [[? _] _]. lia. }
  unfold segment_key. apply safe_key; [done|]. apply log_get. intros v1 r Hr Hq Hi Hspec.
  assert (moved v v1) as Hm by done. pose proof (closed_rely v v1 Hq Hc) as Hc1.
  assert (mine v1 = None -> upto (v_ghost v1) s es /\ in_u64 s) as Hpre1.
  { intros Hn. destruct (rl_closed _ _ _ _ _ Hr i_active Hn) as [Hn0 He].
    destruct (Hpre Hn0) as [Hu Hs]. split; [by eapply upto_extends|done]. }
  pose proof (iv_laid_out _ _ _ Hi) as Hl.
  destruct (get_cases _ _ _ Hspec) as [(raw & token & -> & Hk)|[[-> Hk]|(e & -> & He & Ho)]].
  - apply safe_pure. change (sf_decode raw) with (decode_segment raw). rewrite last_version.
    destruct (mine v1) as [st|] eqn:Hmine.
    + assert (forall P : Prop, quiet -> P) as Hno by (intros P HP; pose proof (Hc1 HP); congruence).
      assert (forall fuel' es' s', Safe (walk_from prefix fuel' es' s') (walk_post fuel' s' v1) v1 ->
        Safe (walk_from prefix fuel' es' s') (walk_post (S fuel) s v) v1) as Hweak.
      { intros fuel' es' s' Hsafe. eapply safe_mono; [exact Hsafe|]. intros r2 v2 (Hm2 & Hc2 & Hr2).
        split; [by eapply moved_trans|]. split; [done|]. destruct r2 as [[? ?]|?|]; [done|done|]. intros HQ; by apply (Hno _ HQ). }
      assert (forall e, walk_post (S fuel) s v (Err e) v1) as Hstop
        by (intros e; split; [done|split; [done|intros HQ; by apply (Hno _ HQ)]]).
      assert (walk_post (S fuel) s v Panic v1) as Hpanic
        by (split; [done|split; [done|intros HQ; by apply (Hno _ HQ)]]).
      destruct (decode_segment raw) as [c|e|]; cbn [then_safe];
        [|apply Hstop|apply Hpanic].
      apply safe_pure. destruct (validate c _) as [u|e|]; cbn [then_safe];
        [|apply Hstop|apply Hpanic].
      apply safe_pure. destruct (next s) as [s'|e|]; cbn [then_safe];
        [|apply Hstop|apply Hpanic].
      apply Hweak, IH; [done|]. by rewrite Hmine.
    + destruct (Hpre1 eq_refl) as [Hu Hs]. destruct (walk_step _ _ _ _ _ _ Hl Hu Hs Hk) as (c & -> & Hv & Hu').
      cbn [then_safe]. apply safe_pure. rewrite Hv. cbn [then_safe]. apply safe_pure. unfold next, u64_checked_add.
      destruct (_ <=? _) eqn:Hle; zbool; cbn [then_safe].
      * eapply safe_mono; [apply IH; [done|intros _; split; [done|mlia]]|].
        intros r2 v2 (Hm2 & Hc2 & Hr2). split; [by eapply moved_trans|]. split; [done|].
        destruct r2 as [[? ?]|?|]; [done|done|]. intros Hquiet. specialize (Hr2 Hquiet). lia.
      * split; [done|]. split; [done|]. intros _. right. right. destruct Hu' as [? _]. lia.
  - split; [done|]. split; [done|]. intros Hn. destruct (Hpre1 Hn) as [Hu Hs]. split; [done|]. split; [done|].
    intros _. destruct Hu as [Hrange _]. destruct (decide (s < ly_tail (v_ghost v1))) as [Hlt|]; [|lia].
    destruct (lookup_lt_is_Some_2 (ly_chunks (v_ghost v1)) (Z.to_nat (s - ly_seq (v_ghost v1)))) as [c Hc'].
    { unfold ly_tail in *. lia. }
    destruct (lo_segments _ _ _ Hl _ _ Hc') as (raw' & token' & Hk' & _).
    replace (ly_seq (v_ghost v1) + _) with s in Hk' by lia. congruence.
  - assert (walk_post (S fuel) s v (Err e) v1) as Hpost by (split; [done|split; [done|intros _; by left]]).
    by destruct e.
Qed.

(** A call followed by [?]. *)
Lemma log_ask_get {A} key (k : bytes -> Prog (option LState) A) Q v :
  (forall v1 r, log_rely i v v1 -> (quiet -> v1 = v) -> log_inv v1 ->
     get_spec fault (v_objects v1) key Full r ->
     then_safe fault process log_inv rely log_grows i k Q r v1) ->
  Safe (let* raw := ask (st_get key Full) in k raw) Q v.
Proof.
  intros Hk. apply safe_bind. unfold ask. apply log_get. intros v1 r H1 H2 H3 H4. by apply Hk.
Qed.

Lemma snapshot_decodes m y v raw token :
  laid_out prefix m y -> ly_snap y = Some v -> m !! nk v = Some (raw, token) ->
  decode_segment raw = Ok (ly_head y) /\ validate (ly_head y) None = Ok tt.
Proof.
  intros Hl Hs Hk. pose proof (lo_head _ _ _ Hl) as Hh. rewrite Hs in Hh. destruct Hh as (Hv & _ & Hlast).
  pose proof (head_upto _ _ _ Hl) as Hu. split; [by eapply snapshot_holds|]. apply validate_Ok.
  destruct (upto_prefix _ _ _ Hu) as [k Hcon]. destruct (lo_order _ _ _ Hl) as [Hinc _].
  rewrite Hcon in Hinc. by apply increasing_app in Hinc as [Hinc _].
Qed.

(** The snapshot the base names, and then the segments. *)
Lemma walk_safe fuel b v :
  closed v -> log_inv v -> (mine v = None -> b = base_of prefix (v_ghost v)) ->
  Safe (walk prefix fuel b) (fun r v' => moved v v' /\ walk_post fuel (base_seq b) v r v') v.
Proof.
  intros Hc Hi Hb.
  assert (forall es v1, moved v v1 -> closed v1 -> log_inv v1 ->
    (mine v1 = None -> es = ly_head (v_ghost v1)) ->
    Safe (walk_from prefix fuel es (base_seq b)) (fun r v' => moved v v' /\ walk_post fuel (base_seq b) v r v') v1)
    as Hsegments.
  { intros es v1 Hm Hc1 Hi1 Hes. eapply safe_mono; [apply walk_from_safe; [done|]|].
    - intros Hn. destruct (rl_closed _ _ _ _ _ (proj1 Hm) i_active Hn) as [Hn0 He].
      rewrite (Hb Hn0), (Hes Hn), <-(base_of_extends _ _ He). simpl.
      pose proof (iv_laid_out _ _ _ Hi1) as Hl. split; [by eapply head_upto|]. apply (lo_range _ _ _ Hl).
    - intros r v2 (Hm2 & Hr2). split; [by eapply moved_trans|]. split; [by eapply moved_trans|done]. }
  unfold walk. destruct (base_snapshot b) as [k|] eqn:Hk.
  - apply safe_bind, log_ask_get. intros v1 r Hr Hq Hi1 Hspec. assert (moved v v1) as Hm by done.
    pose proof (closed_rely v v1 Hq Hc) as Hc1. pose proof (iv_laid_out _ _ _ Hi1) as Hl.
    assert (mine v1 = None -> exists w, ly_snap (v_ghost v1) = Some w /\ k = nk w /\
      is_Some (v_objects v1 !! k)) as Hsnap.
    { intros Hn. destruct (rl_closed _ _ _ _ _ Hr i_active Hn) as [Hn0 He].
      rewrite (Hb Hn0), <-(base_of_extends _ _ He) in Hk. simpl in Hk.
      pose proof (lo_head _ _ _ Hl) as Hh. destruct (ly_snap (v_ghost v1)) as [w|]; [|done].
      injection Hk as <-. exists w. destruct Hh as (_ & ? & _). auto. }
    assert (forall r : Res (list MetadataEntry * Z), (exists e, r = Err e) \/ r = Panic ->
      (mine v1 = None -> exists e, r = Err e /\ fault e) ->
      moved v v1 /\ walk_post fuel (base_seq b) v r v1) as Hstop.
    { intros r0 Hr0 He. split; [done|]. split; [done|]. split; [done|].
      destruct Hr0 as [[e ->]| ->]; intros Hquiet; destruct (He (Hc1 Hquiet)) as (e' & ? & ?); [|done].
      simplify_eq. by left. }
    destruct (get_cases _ _ _ Hspec) as [(raw & token & -> & Hraw)|[[-> Hraw]|(e & -> & He & Ho)]]; cbn [then_safe].
    + change (sf_decode raw) with (decode_segment raw). apply safe_pure.
      destruct (decode_segment raw) as [es|e|] eqn:Hd; cbn [then_safe];
        [|apply Hstop; [by eauto|]; intros Hn; destruct (Hsnap Hn) as (w & Hw & -> & _);
          destruct (snapshot_decodes _ _ _ _ _ Hl Hw Hraw); congruence..].
      apply safe_pure. destruct (validate es None) as [u|e|] eqn:Hv; cbn [then_safe];
        [|apply Hstop; [by eauto|]; intros Hn; destruct (Hsnap Hn) as (w & Hw & -> & _);
          destruct (snapshot_decodes _ _ _ _ _ Hl Hw Hraw) as [Hd' Hv']; congruence..].
      apply Hsegments; [done..|]. intros Hn. destruct (Hsnap Hn) as (w & Hw & -> & _).
      destruct (snapshot_decodes _ _ _ _ _ Hl Hw Hraw). congruence.
    + apply Hstop; [by eauto|]. intros Hn. destruct (Hsnap Hn) as (w & _ & _ & [? ?]). congruence.
    + apply Hstop; [by eauto|]. by eauto.
  - apply safe_bind. apply Hsegments; [apply moved_refl|done|done|]. intros Hn. rewrite (Hb Hn) in Hk. simpl in Hk.
    pose proof (lo_head _ _ _ (iv_laid_out _ _ _ Hi)) as Hh. by destruct (ly_snap (v_ghost v)).
Qed.

(** ** Opening *)

Definition open_post (fuel : nat) (v : LView) (r : Res LState) (v' : LView) : Prop :=
  moved v v' /\ closed v' /\
  match r with
  | Ok st => mine v' = None ->
      state_ok prefix (v_ghost v') st /\ (quiet -> st = opened_state prefix (v_ghost v'))
  | Err e => read_error e v'
  | Panic => quiet -> (fuel <= length (ly_chunks (v_ghost v')))%nat
  end.

Lemma read_error_moved e v v' : moved v v' -> read_error e v -> read_error e v'.
Proof. intros [_ Hm] He Hq. rewrite (Hm Hq). auto. Qed.

Lemma opened_ok y m s es :
  laid_out prefix m y -> upto y s es -> in_u64 s ->
  state_ok prefix y (mkLogState s es (gen_of y) (ly_seq y) (base_snapshot (base_of prefix y)) 0).
Proof.
  intros Hl Hu Hs. destruct (lo_range _ _ _ Hl) as (Hb & Hq & _). split; simpl; [done|done| | |].
  - destruct Hu as [? _]. mlia.
  - unfold gen_of. intros g. destruct (_ =? 0) eqn:Hz; zbool; [done|]. intros [= <-]. lia.
  - intros k Hk. pose proof (lo_head _ _ _ Hl) as Hh. destruct (ly_snap y) as [w|]; [|done].
    injection Hk as <-. exists w. by destruct Hh.
Qed.

Lemma open_log_safe retries fuel v :
  (quiet -> (0 < retries)%nat) -> closed v -> log_inv v ->
  Safe (open_log prefix retries fuel) (open_post fuel v) v.
Proof.
  revert v. induction retries as [|retries IH]; intros v Hret Hc Hi; cbn [open_log].
  { split; [apply moved_refl|]. split; [done|]. intros Hq. specialize (Hret Hq). lia. }
  eapply safe_seq; [by apply read_base_safe|done|].
  intros [[g b]|e|] v1 (Hm1 & Hc1 & Hr1) Hi1; cbn [then_safe]; [|by split|by split].
  eapply safe_seq; [apply walk_safe; [done|done|]|done|]. { intros Hn. by apply Hr1. }
  intros [[es s]|e|] v2 [Hm2 (_ & Hc2 & Hr2)] Hi2; cbn [then_safe].
  2: { split; [by eapply moved_trans|done]. }
  2: { split; [by eapply moved_trans|]. split; [done|]. intros Hq. specialize (Hr2 Hq).
       destruct Hm2 as [_ He]. rewrite (He Hq) in *. destruct (Hr1 (Hc1 Hq)) as [_ ->].
       unfold ly_tail in Hr2. simpl in Hr2. lia. }
  eapply safe_seq; [by apply read_base_safe|done|].
  intros [[g' b']|e|] v3 (Hm3 & Hc3 & Hr3) Hi3; cbn [then_safe].
  2: { split; [by do 2 (eapply moved_trans; [done|])|done]. }
  2: { done. }
  assert (moved v v3) as Hm by (by do 2 (eapply moved_trans; [done|])).
  destruct (bool_decide (g' = g)) eqn:Hg.
  - split; [done|]. split; [done|]. intros Hn3. pose proof (iv_laid_out _ _ _ Hi3) as Hl3.
    destruct (rl_closed _ _ _ _ _ (proj1 Hm3) i_active Hn3) as [Hn2 He3].
    destruct (rl_closed _ _ _ _ _ (proj1 Hm2) i_active Hn2) as [Hn1 He2].
    destruct (Hr1 Hn1) as [_ ->]. destruct (Hr3 Hn3) as [-> _]. destruct (Hr2 Hn2) as (Hu & Hs & Htail).
    apply bool_decide_eq_true in Hg as <-.
    rewrite <-(base_of_extends _ _ He2), <-(base_of_extends _ _ He3).
    assert (upto (v_ghost v3) s es) as Hu3 by (by eapply upto_extends).
    split; [by eapply opened_ok|]. intros Hq. destruct Hm3 as [_ Heq]. specialize (Heq Hq). subst v3.
    specialize (Htail Hq). subst s. unfold opened_state. f_equal.
    destruct Hu as [_ ->]. unfold ly_contents, ly_tail. rewrite take_ge by lia. done.
  - apply bool_decide_eq_false in Hg.
    assert (quiet -> False) as Hnq.
    { intros Hq. apply Hg. destruct Hm2 as [_ H2], Hm3 as [_ H3]. rewrite (H3 Hq), (H2 Hq) in *.
      destruct (Hr1 (Hc1 Hq)) as [-> _]. by destruct (Hr3 (Hc1 Hq)) as [-> _]. }
    eapply safe_mono; [apply IH; [by intros ?%Hnq|done|done]|]. intros r v4 (Hm4 & Hc4 & Hr4).
    split; [by eapply moved_trans|done].
Qed.

(** ** Sections under the lock *)

Lemma log_lock {A} f (k : option LState -> Prog (option LState) A) Q v :
  (forall v1, log_rely i v v1 -> (quiet -> v1 = v) -> log_inv v1 ->
     (forall st', f (mine v1) = Some st' -> state_ok prefix (v_ghost v1) st') /\
     (forall st, mine v1 = Some st -> exists st', f (mine v1) = Some st' /\ mate_keeps i st st') /\
     Safe (k (mine v1)) Q
       (mkView (v_objects v1) (<[process i := f (mine v1)]> (v_local v1)) (v_clock v1) (v_ghost v1))) ->
  Safe (let* x := locked f in k x) Q v.
Proof.
  intros Hk v1 Hr Hi. destruct (Hk v1 (rely_log _ _ Hr) (fun Hq => quiet_eq Hq _ _ Hr) Hi) as (H1 & H2 & H3).
  destruct (local_change prefix solo v1 i (f (mine v1)) i_active Hi H1 H2) as [Hi' Hr'].
  exists (v_ghost v1). split; [done|]. split; [|done]. split; [by unfold log_grows|]. auto.
Qed.

Lemma mate_keeps_refl st : mate_keeps i st st.
Proof. unfold mate_keeps. destruct (writer i); [split_and!; [lia|done..]|done]. Qed.

(** A look at the state. *)
Lemma log_reading {A} (k : option LState -> Prog (option LState) A) Q v :
  (forall v1 v2, log_rely i v v1 -> (quiet -> v1 = v) -> log_inv v1 ->
     log_inv v2 -> v_objects v2 = v_objects v1 -> v_ghost v2 = v_ghost v1 -> mine v2 = mine v1 ->
     Safe (k (mine v1)) Q v2) ->
  Safe (let* x := reading in k x) Q v.
Proof.
  intros Hk. apply log_lock. intros v1 Hr Hq Hi.
  assert (forall st', mine v1 = Some st' -> state_ok prefix (v_ghost v1) st') as Hst by (intros st'; apply Hi).
  assert (forall st, mine v1 = Some st -> exists st', mine v1 = Some st' /\ mate_keeps i st st') as Hm
    by (intros st ->; eauto using mate_keeps_refl).
  split; [done|]. split; [done|]. apply (Hk v1); [done..| |done|done|simpl; apply fn_lookup_insert].
  by destruct (local_change prefix solo v1 i (mine v1) i_active Hi Hst Hm).
Qed.

(** The log as it was, to a task that has only looked. *)
Definition unchanged (v v' : LView) : Prop :=
  log_grows v v' /\ (quiet -> v_objects v' = v_objects v /\ v_ghost v' = v_ghost v).

Lemma unchanged_trans v1 v2 v3 : unchanged v1 v2 -> unchanged v2 v3 -> unchanged v1 v3.
Proof.
  intros [H1 Hq1] [H2 Hq2]. split; [unfold log_grows in *; by etrans|]. intros Hq.
  destruct (Hq1 Hq), (Hq2 Hq). split; congruence.
Qed.

Lemma moved_unchanged v v' : moved v v' -> unchanged v v'.
Proof. intros [Hr Hq]. split; [apply Hr|]. intros HQ. by rewrite (Hq HQ). Qed.

Lemma same_unchanged v v' : v_objects v' = v_objects v -> v_ghost v' = v_ghost v -> unchanged v v'.
Proof. intros Ho Hg. split; [unfold log_grows; by rewrite Hg|done]. Qed.

Definition lazy_post (fuel : nat) (v : LView) (r : Res LState) (v' : LView) : Prop :=
  unchanged v v' /\
  match r with
  | Ok _ => is_Some (mine v')
  | Err e => read_error e v'
  | Panic => quiet -> (fuel <= length (ly_chunks (v_ghost v')))%nat
  end.

Lemma lazy_get_safe retries fuel v :
  (quiet -> (0 < retries)%nat) -> Safe (lazy_get prefix retries fuel) (lazy_post fuel v) v.
Proof.
  intros Hret. unfold lazy_get. apply log_reading. intros v1 v2 Hr1 Hq1 Hi1 Hi2 Ho2 Hg2 Hl2.
  assert (unchanged v v2) as Hu2.
  { eapply unchanged_trans; [apply moved_unchanged; by split|by apply same_unchanged]. }
  destruct (mine v1) as [st|] eqn:Hl1; [split; [done|]; by rewrite Hl2|].
  assert (closed v2) as Hc2 by (intros _; done).
  eapply safe_seq; [apply open_log_safe; [done|done|done]|done|].
  intros [st|e|] v3 (Hm3 & Hc3 & Hr3) Hi3; cbn [then_safe].
  2,3: split; [by eapply unchanged_trans; [|apply moved_unchanged]|done].
  apply log_lock. intros v4 Hr4 Hq4 Hi4.
  assert (forall st', Some (default st (mine v4)) = Some st' -> state_ok prefix (v_ghost v4) st') as Hst.
  { intros st' [= <-]. destruct (mine v4) as [st4|] eqn:Hl4; [by eapply iv_state|]. simpl.
    destruct (rl_closed _ _ _ _ _ Hr4 i_active Hl4) as [Hl3 He]. destruct (Hr3 Hl3) as [Hok _].
    by eapply state_extends. }
  assert (unchanged v v4) as Hu4.
  { eapply unchanged_trans; [exact Hu2|]. eapply unchanged_trans; [by apply moved_unchanged|].
    apply moved_unchanged. by split. }
  split; [done|]. split; [intros st4 ->; eexists; split; [done|]; apply mate_keeps_refl|].
  apply log_reading. intros v5 v6 Hr5 Hq5 Hi5 Hi6 Ho6 Hg6 Hl6.
  destruct (rl_open _ _ _ _ _ Hr5 i_active (default st (mine v4))) as (st5 & Hl5 & _).
  { simpl. by rewrite fn_lookup_insert. }
  rewrite Hl5 in *. simpl. split; [|by rewrite Hl6].
  eapply unchanged_trans; [exact Hu4|]. eapply unchanged_trans; [|by apply same_unchanged].
  eapply unchanged_trans; [|apply moved_unchanged; split; [exact Hr5|exact Hq5]]. by apply same_unchanged.
Qed.

(** A section under the opened log's lock. *)
Lemma log_with_state {A} f (k : LState -> Prog (option LState) A) Q v st0 :
  mine v = Some st0 ->
  (forall v1 st, log_rely i v v1 -> (quiet -> v1 = v) -> log_inv v1 -> mine v1 = Some st ->
     keeps prefix i v v1 st0 st ->
     state_ok prefix (v_ghost v1) (f st) /\ mate_keeps i st (f st) /\
     forall v2, log_inv v2 -> v_objects v2 = v_objects v1 -> v_ghost v2 = v_ghost v1 -> mine v2 = Some (f st) ->
       Safe (k st) Q v2) ->
  Safe (let* x := with_state f in k x) Q v.
Proof.
  intros H0 Hk. unfold with_state. apply safe_bind, log_lock. intros v1 Hr Hq Hi.
  destruct (rl_open _ _ _ _ _ Hr i_active st0 H0) as (st & Hst & Hkeep). rewrite Hst. simpl.
  destruct (Hk v1 st Hr Hq Hi Hst Hkeep) as (H1 & H2 & H3).
  assert (forall st', Some (f st) = Some st' -> state_ok prefix (v_ghost v1) st') as Hok by (by intros ? [= <-]).
  assert (forall st', mine v1 = Some st' -> exists st'', Some (f st) = Some st'' /\ mate_keeps i st' st'') as Hm.
  { rewrite Hst. intros ? [= <-]. eauto. }
  split; [done|]. split; [by rewrite Hst in Hm|]. apply H3; [|done|done|simpl; apply fn_lookup_insert].
  by destruct (local_change prefix solo v1 i (Some (f st)) i_active Hi Hok Hm).
Qed.

(** ** Appending *)

Definition append_post (es : list MetadataEntry) (v : LView) (r : Res unit) (v' : LView) : Prop :=
  log_grows v v' /\
  match r with
  | Ok _ => exists c, ly_contents (v_ghost v) `prefix_of` c /\ c ++ es `prefix_of` ly_contents (v_ghost v') /\
      (quiet -> ly_contents (v_ghost v') = c ++ es)
  | Err _ => True
  | Panic => False
  end.

Lemma append_failed es v v' e : log_grows v v' -> append_post es v (Err e) v'.
Proof. by split. Qed.

(** The one key a create-only write of a segment can land at. *)
Lemma absent_is_tail m y s es :
  laid_out prefix m y -> upto y s es -> m !! sk s = None -> s = ly_tail y /\ es = ly_contents y.
Proof.
  intros Hl Hu Hk. pose proof Hu as [Hr _].
  assert (s = ly_tail y) as Hs.
  { destruct (decide (s = ly_tail y)); [done|].
    destruct (lookup_lt_is_Some_2 (ly_chunks y) (Z.to_nat (s - ly_seq y))) as [c Hc].
    { unfold ly_tail in *. lia. }
    destruct (lo_segments _ _ _ Hl _ _ Hc) as (raw & token & Hk' & _).
    replace (ly_seq y + _) with s in Hk' by lia. congruence. }
  split; [done|]. destruct Hu as [_ ->]. subst s. unfold ly_contents, ly_tail. by rewrite take_ge by lia.
Qed.

(** The log with the segment, as the others see it appear. *)
Lemma append_lands v s es payload token :
  log_inv v -> upto (v_ghost v) s (ly_contents (v_ghost v)) -> s = ly_tail (v_ghost v) -> in_u64 s ->
  decode_segment payload = Ok es -> increasing (last_of None (ly_contents (v_ghost v))) es -> Forall entry_wf es ->
  let v' := mkView (<[sk s := (payload, token)]> (v_objects v)) (v_local v) (v_clock v) (add_chunk es (v_ghost v)) in
  log_inv v' /\ guar rely log_grows i v v'.
Proof.
  intros Hi Hu -> Hs Hd Hinc Hwf v'. split.
  - split; simpl.
    + apply laid_out_append; [apply Hi|mlia|done..].
    + intros n st Hst. eapply state_extends; [apply add_chunk_extends|]. by apply Hi in Hst.
    + apply Hi.
  - split; [apply extends_contents, add_chunk_extends|]. intros j Hj. apply log_others; [done|].
    apply extend_rely; [apply add_chunk_extends|]. intros w _. rewrite lookup_insert_ne by apply sk_nk. done.
Qed.

Lemma seg_append_safe es v :
  writer i = true -> Forall entry_wf es -> is_Some (mine v) ->
  Safe (seg_append prefix es) (append_post es v) v.
Proof.
  intros Hw Hwf [st0 Hst0]. unfold seg_append. destruct (bool_decide (es = [])) eqn:He.
  { apply bool_decide_eq_true in He as ->. split; [by unfold log_grows|].
    exists (ly_contents (v_ghost v)). by rewrite app_nil_r. }
  apply (log_with_state _ _ _ _ st0 Hst0). intros v1 st Hr1 Hq1 Hi1 Hst1 _.
  pose proof (iv_state _ _ _ Hi1 _ _ Hst1) as Hok1.
  split; [done|]. split; [apply mate_keeps_refl|]. intros v2 Hi2 Ho2 Hg2 Hst2. simpl in Hst2.
  assert (log_grows v v2) as Hgr2. { unfold log_grows. rewrite Hg2. apply Hr1. }
  apply safe_pure. rewrite last_version.
  destruct (validate es _) as [u|e|] eqn:Hval; cbn [then_safe];
    [|by apply append_failed|by apply validate_no_panic in Hval].
  assert (increasing (last_of None (ls_entries st)) es) as Hinc by (apply validate_Ok; by destruct u).
  apply safe_pure. change (sf_encode es) with (encode_segment es).
  destruct (encode_segment es) as [payload|e|] eqn:Henc; cbn [then_safe];
    [|by apply append_failed|by apply encode_segment_no_panic in Henc].
  pose proof (decode_encode_segment es payload Hwf Henc) as Hdec.
  unfold segment_key. apply safe_key; [done|]. unfold ask. apply safe_bind, safe_bind, safe_put.
  intros v3 r m' Hr3 Hi3 Hput. pose proof (rely_log _ _ Hr3) as Hlog3.
  destruct (rl_open _ _ _ _ _ Hlog3 i_active st Hst2) as (st3 & Hst3 & Hk3).
  unfold keeps in Hk3. rewrite Hw in Hk3. destruct Hk3 as (Hn3 & He3 & Hup3).
  pose proof (iv_state _ _ _ Hi3 _ _ Hst3) as Hok3.
  pose proof (so_upto _ _ _ Hok3) as Hu3. rewrite Hn3, He3 in Hu3.
  assert (log_grows v v3) as Hgr3. { unfold log_grows in *. etrans; [exact Hgr2|apply Hlog3]. }
  set (s := ls_next_seq st) in *.
  assert (in_u64 s) as Hs by apply Hok1.
  assert (forall token, v_objects v3 !! sk s = None ->
    let v4 := mkView (<[sk s := (payload, token)]> (v_objects v3)) (v_local v3) (v_clock v3)
      (add_chunk es (v_ghost v3)) in
    log_inv v4 /\ guar rely log_grows i v3 v4 /\ log_grows v v4 /\
    ls_entries st = ly_contents (v_ghost v3) /\ upto (v_ghost v4) (s + 1) (ls_entries st ++ es)) as Hland.
  { intros token Hnone. destruct (absent_is_tail _ _ _ _ (iv_laid_out _ _ _ Hi3) Hu3 Hnone) as [Htail Hes].
    destruct (append_lands v3 s es payload token Hi3) as [Hi4 Hgu]; [by rewrite <-Hes|done|done|done|by rewrite <-Hes|done|].
    split; [done|]. split; [done|]. split; [unfold log_grows; etrans; [exact Hgr3|apply Hgu]|]. split; [done|].
    rewrite Hes, <-add_chunk_contents. apply upto_tail. by rewrite add_chunk_tail, Htail. }
  destruct r as [meta|e|]; [| |done].
  2: { destruct Hput as [(-> & _ & ->)|(_ & [-> |(token & Hnone & ->)])].
       1,2: apply log_goes_same; [done|]; by apply append_failed.
       destruct (Hland token Hnone) as (Hi4 & Hgu & Hgr4 & _). eexists. split; [exact Hi4|]. split; [done|].
       by apply append_failed. }
  destruct Hput as [Hnone ->]. simpl in Hnone.
  destruct (Hland (om_token meta) Hnone) as (Hi4 & Hgu & Hgr4 & Hes & Hu4).
  eexists. split; [exact Hi4|]. split; [done|]. cbn [then_safe].
  apply safe_pure. unfold next, u64_checked_add. destruct (_ <=? u64_max) eqn:Hmax; cbn [then_safe];
    [|by apply append_failed]. zbool.
  apply (log_with_state _ _ _ _ st3); [done|]. intros v5 st5 Hr5 Hq5 Hi5 Hst5 Hk5.
  unfold keeps in Hk5. rewrite Hw in Hk5. destruct Hk5 as (Hn5 & He5 & Hup5).
  pose proof (iv_state _ _ _ Hi5 _ _ Hst5) as Hok5.
  assert (upto (v_ghost v5) (s + 1) (ls_entries st5 ++ es)) as Hu5.
  { rewrite He5, He3. apply Hup5; [rewrite Hn3; unfold s; lia|done]. }
  split; [|split].
  - split; simpl; [mlia|done| |apply Hok5|apply Hok5].
    pose proof (so_base _ _ _ Hok5). rewrite Hn5, Hn3 in *. fold s in H. lia.
  - unfold mate_keeps. rewrite Hw. simpl. split; [rewrite Hn5, Hn3; fold s; lia|done].
  - intros v6 Hi6 Ho6 Hg6 Hst6. split.
    + unfold log_grows in *. rewrite Hg6. etrans; [exact Hgr4|]. apply Hr5.
    + exists (ly_contents (v_ghost v3)). split; [exact Hgr3|]. rewrite Hg6. split.
      * rewrite <-Hes, <-He3, <-He5. by eapply upto_prefix.
      * intros Hq. rewrite (Hq5 Hq). simpl. apply add_chunk_contents.
Qed.

(** ** Checkpointing *)

Definition checkpoint_post (v : LView) (r : Res bool) (v' : LView) : Prop := log_grows v v' /\ r <> Panic.

(** What a checkpoint knows of the entries it folds, from the moment it has
    captured the state [st]. *)
Definition folding (st : LState) (v : LView) : Prop :=
  upto (v_ghost v) (ls_next_seq st) (ls_entries st) /\
  (forall g, ls_generation st = Some g -> 0 <= g < ly_bases (v_ghost v)) /\
  exists st', mine v = Some st' /\ ls_next_seq st <= ls_next_seq st'.

Section checkpointing.
Context (solo_on : solo = true) (is_checkpointer : writer i = false).

Lemma folding_rely st v v' :
  log_rely i v v' -> folding st v ->
  folding st v' /\ extends (v_ghost v) (v_ghost v') /\
  (forall w, in_u64 w -> v_objects v' !! nk w = v_objects v !! nk w).
Proof.
  intros Hr (Hu & Hg & st1 & Hst1 & Hle). destruct (rl_open _ _ _ _ _ Hr i_active st1 Hst1) as (st2 & Hst2 & Hk).
  unfold keeps in Hk. rewrite is_checkpointer in Hk. destruct Hk as (Hle2 & _ & _ & _ & He & Hs).
  split; [|by split]. split; [by eapply upto_extends|]. split; [by rewrite (ex_bases _ _ He)|].
  exists st2. split; [done|lia].
Qed.

Lemma folding_same st v v' :
  v_ghost v' = v_ghost v -> mine v' = mine v -> folding st v -> folding st v'.
Proof. unfold folding. by intros -> ->. Qed.

(** A change of the objects only the checkpointer makes. *)
Lemma checkpoint_guar v m' y' :
  is_Some (mine v) -> ly_contents (v_ghost v) `prefix_of` ly_contents y' ->
  (forall st s es, mine v = Some st -> ls_next_seq st <= s -> upto (v_ghost v) s es -> upto y' s es) ->
  guar rely log_grows i v (mkView m' (v_local v) (v_clock v) y').
Proof.
  intros [st0 Hst0] Hc Hu. split; [done|]. intros j Hj. apply log_others; [done|].
  split; simpl; [done| |].
  - intros Ha Hn. exfalso. rewrite (Ha solo_on), <-(i_active solo_on) in Hn. congruence.
  - intros Ha st Hst. exists st. split; [done|].
    assert (process j = process i) as Hp by (by rewrite (Ha solo_on), (i_active solo_on)).
    unfold keeps; simpl. rewrite (process_mate i j), is_checkpointer by auto. simpl.
    split; [done|]. split; [done|]. intros s es. apply Hu. by rewrite <-Hp.
Qed.

Lemma solo_state (v : LView) m' y' :
  log_inv v -> laid_out prefix m' y' ->
  (forall st, mine v = Some st -> state_ok prefix y' st) ->
  log_inv (mkView m' (v_local v) (v_clock v) y').
Proof.
  intros Hi Hl Hs. split; simpl; [done| |apply Hi]. intros n st Hst.
  destruct (decide (n = 0%nat)) as [-> |Hn]; [apply Hs; by rewrite (i_active solo_on)|].
  by rewrite (iv_solo _ _ _ Hi solo_on n Hn) in Hst.
Qed.

(** The snapshot is there: written now, or by an attempt before. *)
Lemma put_snapshot_safe {A} st v w payload (k : Prog (option LState) A) Q :
  folding st v -> last_of None (ls_entries st) = Some w -> in_u64 w ->
  decode_segment payload = Ok (ls_entries st) ->
  (forall e v', log_grows v v' -> Q (Err e) v') ->
  (forall v', log_inv v' -> log_grows v v' -> folding st v' -> is_Some (v_objects v' !! nk w) -> Safe k Q v') ->
  Safe (let* _ := put_if_absent (nk w) payload in k) Q v.
Proof.
  intros Hf Hlast Hw Hd Herr Hk. unfold put_if_absent. apply safe_bind, safe_bind, safe_put.
  intros v1 r m' Hr1 Hi1 Hput. pose proof (rely_log _ _ Hr1) as Hlog1.
  destruct (folding_rely st v v1 Hlog1 Hf) as (Hf1 & _ & _). pose proof Hf1 as (Hu1 & _ & st1 & Hst1 & _).
  assert (log_grows v v1) as Hgr by apply Hlog1.
  assert (forall token, let v2 := mkView (<[nk w := (payload, token)]> (v_objects v1)) (v_local v1) (v_clock v1) (v_ghost v1) in
    log_inv v2 /\ guar rely log_grows i v1 v2 /\ log_grows v v2 /\ folding st v2 /\ is_Some (v_objects v2 !! nk w)) as Hwrite.
  { intros token. split; [apply solo_state; [done| |]|split; [apply checkpoint_guar|]].
    - eapply laid_out_snapshot; [apply Hi1|done..|by eapply upto_prefix|done].
    - intros st' Hst'. by apply (iv_state _ _ _ Hi1) in Hst'.
    - by eauto.
    - done.
    - done.
    - split; [done|]. split; [done|]. simpl. rewrite lookup_insert_eq. eauto. }
  destruct r as [meta|e|]; [| |done].
  - destruct Hput as [_ ->]. destruct (Hwrite (om_token meta)) as (Hi2 & Hg2 & Hgr2 & Hf2 & Hs2).
    eexists. split; [exact Hi2|]. split; [done|]. by apply Hk.
  - destruct Hput as [(-> & Hpc & ->)|(Hfault & [-> |(token & _ & ->)])].
    + apply log_goes_same; [done|]. apply Hk; [done..|]. simpl in Hpc. by apply not_eq_None_Some.
    + apply log_goes_same; [done|]. apply fault_opaque in Hfault. destruct e; by try apply Herr.
    + destruct (Hwrite token) as (Hi2 & Hg2 & Hgr2 & _). eexists. split; [exact Hi2|]. split; [done|].
      apply fault_opaque in Hfault. destruct e; by try apply Herr.
Qed.

Lemma still_the_tail_safe {A} st v w s (k : Prog (option LState) A) Q :
  folding st v -> in_u64 w -> is_Some (v_objects v !! nk w) ->
  (forall e v', log_grows v v' -> Q (Err e) v') ->
  (forall v', log_grows v v' -> folding st v' -> is_Some (v_objects v' !! nk w) -> Safe k Q v') ->
  Safe (let* _ := still_the_tail prefix s in k) Q v.
Proof.
  intros Hf Hw Hsnap Herr Hk. unfold still_the_tail, segment_key. apply safe_bind. apply safe_key; [done|].
  apply log_get. intros v1 r Hr1 Hq1 Hi1 Hspec. destruct (folding_rely st v v1 Hr1 Hf) as (Hf1 & _ & Hs1).
  assert (log_grows v v1) as Hgr by apply Hr1.
  destruct (get_cases _ _ _ Hspec) as [(raw & token & -> & _)|[[-> _]|(e & -> & _ & Ho)]].
  - by apply Herr.
  - apply Hk; [done..|]. by rewrite Hs1.
  - destruct e; by try apply Herr.
Qed.

(** The commit point: the base generation lands, and the log begins at the
    snapshot from then on. *)
Lemma put_base_safe {A} st v w generation raw (k : Prog (option LState) A) Q :
  folding st v -> in_u64 (ls_next_seq st) -> last_of None (ls_entries st) = Some w -> in_u64 w ->
  is_Some (v_objects v !! nk w) -> in_u64 generation ->
  match ls_generation st with None => generation = 0 | Some g => generation = g + 1 end ->
  Base_decode raw = Ok (mkBase (ls_next_seq st) (Some (nk w))) ->
  (forall e v', log_grows v v' -> Q (Err e) v') ->
  (forall v' st', log_inv v' -> log_grows v v' -> mine v' = Some st' -> ls_next_seq st <= ls_next_seq st' ->
     ly_seq (v_ghost v') = ls_next_seq st -> ly_snap (v_ghost v') = Some w ->
     ly_bases (v_ghost v') = generation + 1 -> Safe k Q v') ->
  Safe (let* _ := ask (st_put (bk generation) raw (Some IfAbsent)) in k) Q v.
Proof.
  intros Hf Hseq Hlast Hw Hsnap Hgen Hg Hd Herr Hk. unfold ask. apply safe_bind, safe_bind, safe_put.
  intros v1 r m' Hr1 Hi1 Hput. pose proof (rely_log _ _ Hr1) as Hlog1.
  destruct (folding_rely st v v1 Hlog1 Hf) as (Hf1 & _ & Hs1).
  pose proof Hf1 as (Hu1 & Hg1 & st1 & Hst1 & Hle1). assert (log_grows v v1) as Hgr by apply Hlog1.
  pose proof (iv_laid_out _ _ _ Hi1) as Hl1. destruct (lo_range _ _ _ Hl1) as ([Hb0 _] & _ & _).
  assert (forall token, v_objects v1 !! bk generation = None ->
    let v2 := mkView (<[bk generation := (raw, token)]> (v_objects v1)) (v_local v1) (v_clock v1)
      (rebase (ls_next_seq st) w (ls_entries st) (v_ghost v1)) in
    log_inv v2 /\ guar rely log_grows i v1 v2 /\ log_grows v v2 /\ ly_bases (v_ghost v1) = generation) as Hland.
  { intros token Hnone. assert (generation = ly_bases (v_ghost v1)) as ->.
    { assert (~ generation < ly_bases (v_ghost v1)).
      { intros [? ?]%(lo_bases _ _ _ Hl1 _ (in_u64_pad _ Hgen)). congruence. }
      destruct (ls_generation st) as [g|]; [destruct (Hg1 g eq_refl)|]; lia. }
    split; [apply solo_state; [done| |]|split; [apply checkpoint_guar|]].
    - apply laid_out_rebase; [done|mlia|done..| |done]. by rewrite Hs1.
    - intros st' Hst'. assert (st' = st1) as -> by congruence.
      destruct (iv_state _ _ _ Hi1 _ _ Hst1) as [H1 H2 H3 H4 H5].
      split; simpl; [done|by apply rebase_upto|done| |done]. intros g Hgs. destruct (H4 g Hgs). lia.
    - by eauto.
    - by rewrite rebase_contents.
    - intros st' s es Hst' Hle Hs. assert (st' = st1) as -> by congruence. apply rebase_upto; [done|lia|done].
    - split; [|done]. unfold log_grows in *; simpl. by rewrite rebase_contents. }
  destruct r as [meta|e|]; [| |done].
  - destruct Hput as [Hnone ->]. simpl in Hnone. destruct (Hland (om_token meta) Hnone) as (Hi2 & Hg2 & Hgr2 & Hb2).
    eexists. split; [exact Hi2|]. split; [done|]. apply (Hk _ st1); [done..|]. simpl. lia.
  - destruct Hput as [(-> & _ & ->)|(_ & [-> |(token & Hnone & ->)])].
    1,2: apply log_goes_same; [done|]; by apply Herr.
    simpl in Hnone. destruct (Hland token Hnone) as (Hi2 & Hg2 & Hgr2 & _).
    eexists. split; [exact Hi2|]. split; [done|]. by apply Herr.
Qed.

Lemma retired_segments_Ok old_base upto' :
  exists keys, retired_segments prefix old_base upto' = Ok keys /\
    forall k, k ∈ keys -> exists n, old_base <= n < upto' /\ k = sk n.
Proof.
  unfold retired_segments. set (ns := seq 0 (Z.to_nat (upto' - old_base))).
  assert (forall n, n ∈ ns -> old_base + Z.of_nat n < upto') as Hns.
  { intros n [_ Hn]%elem_of_seq. lia. }
  clearbody ns. induction ns as [|n ns IH]; cbn [map foldr]; [exists []; by split; [|intros k ?%not_elem_of_nil]|].
  destruct IH as (keys & -> & Hkeys); [intros n' Hn'; apply Hns; by right|].
  unfold segment_key at 1. rewrite numbered_new by done. simpl.
  eexists. split; [done|]. intros k [-> |Hk]%elem_of_cons; [|auto].
  exists (old_base + Z.of_nat n). split; [|done]. split; [lia|]. apply Hns. by left.
Qed.

(** The retired objects go, some or all of them. *)
Lemma delete_retired_safe v keys Q :
  is_Some (mine v) ->
  (forall v', log_rely i v v' -> forall k, k ∈ keys -> retired prefix (v_ghost v') k) ->
  (forall r v', log_grows v v' -> r <> Panic -> Q r v') ->
  Safe (let* _ := ask (st_delete keys) in preturn true) Q v.
Proof.
  intros [st0 Hst0] Hret HQ. unfold ask. apply safe_bind, safe_bind, safe_delete.
  intros v1 r m' Hr1 Hi1 (Hnp & _ & gone & Hsub & _ & Hm). pose proof (rely_log _ _ Hr1) as Hlog1.
  destruct (rl_open _ _ _ _ _ Hlog1 i_active st0 Hst0) as (st1 & Hst1 & _).
  assert (log_inv (mkView m' (v_local v1) (v_clock v1) (v_ghost v1))) as Hi2.
  { apply solo_state; [done| |].
    - eapply laid_out_delete; [apply Hi1| |done]. intros k Hk. apply (Hret v1 Hlog1). auto.
    - intros st Hst. by apply (iv_state _ _ _ Hi1) in Hst. }
  exists (v_ghost v1). split; [done|]. split; [apply checkpoint_guar; [by eauto|done|done]|].
  assert (log_grows v (mkView m' (v_local v1) (v_clock v1) (v_ghost v1))) as Hgr by apply Hlog1.
  destruct r as [[]|e|]; [by apply HQ|by apply HQ|done].
Qed.

(** The entries a handle holds are well formed, and so is their last version. *)
Lemma held_entries_wf v st :
  log_inv v -> mine v = Some st ->
  Forall entry_wf (ls_entries st) /\
  forall newest, last (ls_entries st) = Some newest -> in_u64 (me_version newest).
Proof.
  intros Hi Hst. assert (Forall entry_wf (ls_entries st)) as Hwf.
  { destruct (upto_prefix _ _ _ (so_upto _ _ _ (iv_state _ _ _ Hi _ _ Hst))) as [k Hk].
    destruct (lo_order _ _ _ (iv_laid_out _ _ _ Hi)) as [_ Hall]. rewrite Hk in Hall.
    by apply Forall_app in Hall as [? _]. }
  split; [done|]. intros newest [l' Hl']%last_Some. rewrite Hl' in Hwf.
  by apply Forall_app in Hwf as [_ [[? _] _]%Forall_cons].
Qed.

(** The generation a checkpoint commits is the one after the newest it knows. *)
Lemma next_generation y st (r : Res Z) :
  state_ok prefix y st -> r = match ls_generation st with None => Ok 0 | Some g => next g end ->
  r <> Panic /\
  forall generation, r = Ok generation -> in_u64 generation /\
    match ls_generation st with None => generation = 0 | Some g => generation = g + 1 end.
Proof.
  intros Hok ->. pose proof (so_generation _ _ _ Hok) as Hso.
  destruct (ls_generation st) as [g|]; [|split; [done|]; by intros ? [= <-]].
  specialize (Hso g eq_refl). unfold next, u64_checked_add. destruct (_ <=? _) eqn:Hle; (split; [done|]); [|done].
  zbool. intros ? [= <-]. split; [mlia|done].
Qed.

(** What the keys a checkpoint deletes hold: nothing the new base reads. *)
Lemma retired_keys y0 st w keys y k :
  state_ok prefix y0 st -> ly_seq y = ls_next_seq st -> ly_snap y = Some w ->
  (forall k, k ∈ keys -> exists n, ls_base_seq st <= n < ls_next_seq st /\ k = sk n) ->
  k ∈ keys ++ match ls_snapshot st with
              | Some old => if bool_decide (old = nk w) then [] else [old]
              | None => []
              end ->
  retired prefix y k.
Proof.
  intros Hok Hseq Hsnap Hkeys [Hk|Hk]%elem_of_app.
  - destruct (Hkeys k Hk) as (n & Hn & ->). left. exists n. rewrite Hseq.
    pose proof (so_base _ _ _ Hok). pose proof (so_next _ _ _ Hok).
    split; [apply in_u64_pad; mlia|]. split; [lia|done].
  - right. pose proof (so_snapshot _ _ _ Hok) as Hso.
    destruct (ls_snapshot st) as [old|]; [|by apply not_elem_of_nil in Hk].
    destruct (bool_decide (old = nk w)) eqn:Hb; [by apply not_elem_of_nil in Hk|].
    apply bool_decide_eq_false in Hb. apply list_elem_of_singleton in Hk as ->.
    destruct (Hso old eq_refl) as (v' & Hv' & ->). exists v'. split; [done|]. split; [|done].
    rewrite Hsnap. congruence.
Qed.

(** After the commit point: the handle takes note, and the retired objects go. *)
Lemma prune_safe y0 st v w generation st' Q :
  state_ok prefix y0 st -> log_inv v -> in_u64 w -> in_u64 generation ->
  mine v = Some st' -> ls_next_seq st <= ls_next_seq st' -> ly_seq (v_ghost v) = ls_next_seq st ->
  ly_snap (v_ghost v) = Some w -> ly_bases (v_ghost v) = generation + 1 ->
  (forall r v', log_grows v v' -> r <> Panic -> Q r v') ->
  Safe
    (let* _ := with_state (fun state =>
       mkLogState (ls_next_seq state) (ls_entries state) (Some generation) (ls_next_seq st) (Some (nk w)) 0) in
     let* retired := PDone (retired_segments prefix (ls_base_seq st) (ls_next_seq st)) in
     let retired := retired ++
       match ls_snapshot st with
       | Some old => if bool_decide (old = nk w) then [] else [old]
       | None => []
       end in
     let* _ := ask (st_delete retired) in
     preturn true) Q v.
Proof.
  intros Hok Hi Hw Hgen Hst' Hle Hseq Hsnap Hbases HQ.
  apply (log_with_state _ _ _ _ st' Hst'). intros v1 st1 Hr1 Hq1 Hi1 Hst1 Hk1.
  unfold keeps in Hk1. rewrite is_checkpointer in Hk1. destruct Hk1 as (Hle1 & _ & _ & _ & He1 & _).
  pose proof (iv_state _ _ _ Hi1 _ _ Hst1) as Hok1. split; [|split].
  - split; simpl; [apply Hok1|apply Hok1| | |].
    + pose proof (so_base _ _ _ Hok). lia.
    + intros g [= <-]. rewrite (ex_bases _ _ He1), Hbases. mlia.
    + intros k [= <-]. eauto.
  - unfold mate_keeps. by rewrite is_checkpointer.
  - intros v2 Hi2 Ho2 Hg2 Hst2. apply safe_pure.
    destruct (retired_segments_Ok (ls_base_seq st) (ls_next_seq st)) as (keys & -> & Hkeys). cbn [then_safe].
    apply delete_retired_safe; [by eauto| |].
    + intros v3 Hr3 k. destruct (rl_open _ _ _ _ _ Hr3 i_active _ Hst2) as (st3 & _ & Hk3).
      unfold keeps in Hk3. rewrite is_checkpointer in Hk3. destruct Hk3 as (_ & _ & _ & _ & He3 & _).
      eapply retired_keys; [done| | |done].
      * by rewrite (ex_seq _ _ He3), Hg2, (ex_seq _ _ He1).
      * by rewrite (ex_snap _ _ He3), Hg2, (ex_snap _ _ He1).
    + intros r v' Hgr Hr. apply HQ; [|done]. unfold log_grows in *. rewrite Hg2 in Hgr. etrans; [apply Hr1|done].
Qed.

Lemma log_grows_trans v1 v2 v3 : log_grows v1 v2 -> log_grows v2 v3 -> log_grows v1 v3.
Proof. unfold log_grows. apply transitivity. Qed.

Lemma checkpoint_safe v :
  is_str prefix -> is_Some (mine v) -> Safe (checkpoint prefix) (checkpoint_post v) v.
Proof.
  intros Hstr [st0 Hst0]. unfold checkpoint. apply (log_with_state _ _ _ _ st0 Hst0).
  intros v1 st Hr1 Hq1 Hi1 Hst1 _. pose proof (iv_state _ _ _ Hi1 _ _ Hst1) as Hok1.
  split; [done|]. split; [apply mate_keeps_refl|]. intros v2 Hi2 Ho2 Hg2 Hst2. simpl in Hst2.
  assert (log_grows v v2) as Hgr2. { unfold log_grows. rewrite Hg2. apply Hr1. }
  assert (forall r v', log_grows v2 v' -> r <> Panic -> checkpoint_post v r v') as Hend.
  { intros r v' Hgr Hr. split; [by eapply log_grows_trans|done]. }
  assert (log_grows v2 v2) as Hgr22 by (by unfold log_grows).
  assert (folding st v2) as Hf2.
  { split; [rewrite Hg2; apply Hok1|]. split; [rewrite Hg2; apply Hok1|]. exists st. by split. }
  destruct (held_entries_wf v2 st Hi2 Hst2) as [Hwf Hnewest].
  destruct (last (ls_entries st)) as [newest|] eqn:Hlast; [|by apply Hend].
  assert (last_of None (ls_entries st) = Some (me_version newest)) as Hlast' by (unfold last_of; by rewrite Hlast).
  pose proof (Hnewest newest eq_refl) as Hw.
  destruct (_ =? _); [by apply Hend|]. set (w := me_version newest) in *. apply safe_pure.
  destruct (next_generation _ st _ Hok1 eq_refl) as [Hnp Hgen].
  destruct (match ls_generation st with None => Ok 0 | Some g => next g end) as [generation|e|];
    cbn [then_safe]; [|by apply Hend|done].
  destruct (Hgen generation eq_refl) as [Hg64 Hgen'].
  apply safe_pure. change (sf_encode (ls_entries st)) with (encode_segment (ls_entries st)).
  destruct (encode_segment (ls_entries st)) as [payload|e|] eqn:Henc; cbn [then_safe];
    [|by apply Hend|by apply encode_segment_no_panic in Henc].
  unfold snapshot_key. apply safe_key; [done|]. change (sf_version newest) with w.
  eapply put_snapshot_safe; [done..|by apply decode_encode_segment|by intros; apply Hend|].
  intros v3 Hi3 Hgr3 Hf3 Hs3. pose proof Hf3 as (_ & _ & st3 & Hst3 & Hle3).
  apply (log_with_state _ _ _ _ st3 Hst3). intros v4 st4 Hr4 Hq4 Hi4 Hst4 _.
  split; [by apply (iv_state _ _ _ Hi4) in Hst4|]. split; [apply mate_keeps_refl|].
  intros v5 Hi5 Ho5 Hg5 Hst5. destruct (folding_rely st v3 v4 Hr4 Hf3) as (Hf4 & _ & Hk4).
  assert (folding st v5) as Hf5 by (eapply folding_same; [done| |exact Hf4]; by rewrite Hst4, Hst5).
  assert (log_grows v2 v5) as Hgr5.
  { eapply log_grows_trans; [exact Hgr3|]. unfold log_grows. rewrite Hg5. apply Hr4. }
  eapply (still_the_tail_safe st v5 w); [done..|by rewrite Ho5, Hk4| |].
  { intros e v' Hgr. apply Hend; [by eapply log_grows_trans|done]. }
  intros v6 Hgr6 Hf6 Hs6. assert (log_grows v2 v6) as Hgr26 by (by eapply log_grows_trans).
  unfold base_key. apply safe_key; [done|]. apply safe_pure.
  destruct (Base_encode _) as [raw|e|] eqn:Hraw; cbn [then_safe];
    [|by apply Hend|unfold Base_encode in Hraw; by destruct (_ <=? _)].
  assert (Base_decode raw = Ok (mkBase (ls_next_seq st) (Some (nk w)))) as Hbase.
  { apply base_decode_encode; [apply Hok1| |done]. intros k [= <-]. split; [by apply is_str_numbered|].
    unfold numbered. by destruct prefix. }
  eapply (put_base_safe st v6 w); [done|apply Hok1|done..| |].
  { intros e v' Hgr. apply Hend; [by eapply log_grows_trans|done]. }
  intros v7 st7 Hi7 Hgr7 Hst7 Hle7 Hseq7 Hsnap7 Hbases7.
  eapply prune_safe; [done..|]. intros r v' Hgr Hr. apply Hend; [|done].
  eapply log_grows_trans; [exact Hgr26|]. by eapply log_grows_trans.
Qed.
End checkpointing.
End reading.
