(* ===== verification/StoreLogProps.v ===== *)
(** * StoreLogProps: what the segment log promises

    The log under every interleaving of its tasks and processes, what a later
    open makes of the objects they leave, the [MetadataLog] contract the
    coordinator is proved against, and the deployment in which a create-only
    write is no fence. *)

From stdpp Require Import base tactics list numbers strings gmap functions relations.
From Stdlib Require Import ZArith Lia.
From S2P Require Import Prelude Bytes Types Store Machine Log Segment SegmentProps.
From S2P Require Import StoreLog StoreLogInv.

Open Scope Z_scope.

(** ** The operations of a process *)

Inductive LogOp : Type :=
| OpAppend (entries : list MetadataEntry)
| OpRead (start : CommitVersion) (max_entries : nat)
| OpCheckpoint.

Inductive LogAnswer : Type :=
| Appended
| ReadPage (page : list MetadataEntry)
| Checkpointed (folded : bool).

Section operations.
Context (prefix : string) (retries fuel : nat).

(** [ObjectStoreMetadataLog::append]. *)
Definition store_append (entries : list MetadataEntry) : Prog (option LState) unit :=
  let* _ := lazy_get prefix retries fuel in seg_append prefix entries.

(** [ObjectStoreMetadataLog::read_from]. *)
Definition store_read_from (start : CommitVersion) (max_entries : nat)
    : Prog (option LState) (list MetadataEntry) :=
  let* _ := lazy_get prefix retries fuel in
  let* state := with_state id in
  preturn (state_read_from state start max_entries).

(** [ObjectStoreMetadataLog::checkpoint]. *)
Definition store_checkpoint : Prog (option LState) bool :=
  let* _ := lazy_get prefix retries fuel in checkpoint prefix.

Definition log_code (i : nat) (op : LogOp) : Prog (option LState) LogAnswer :=
  match op with
  | OpAppend entries => let* _ := store_append entries in preturn Appended
  | OpRead start n => let* page := store_read_from start n in preturn (ReadPage page)
  | OpCheckpoint => let* folded := store_checkpoint in preturn (Checkpointed folded)
  end.
End operations.

(** A process appends from one task, one append after another; where it has
    the log to itself it checkpoints from another. *)
Definition log_may_start (solo : bool) (i : nat) (op : LogOp) : Prop :=
  active solo i /\
  match op with
  | OpAppend entries => writer i = true /\ Forall entry_wf entries
  | OpRead _ _ => True
  | OpCheckpoint => solo = true /\ writer i = false
  end.

(** What an answer claims of the log. *)
Definition log_claim (op : LogOp) (r : Res LogAnswer) (contents : list MetadataEntry) : Prop :=
  match op, r with
  | OpAppend entries, Ok _ => exists before after, contents = before ++ entries ++ after
  | OpRead start n, Ok (ReadPage page) => exists seen, seen `prefix_of` contents /\
      page = take n (List.filter (fun e => start <=? me_version e) seen)
  | _, _ => True
  end.

Lemma log_claim_grows op r c c' : c `prefix_of` c' -> log_claim op r c -> log_claim op r c'.
Proof.
  intros [k ->]. destruct op as [es|start n|], r as [[|page|b]|e|]; simpl; try done.
  1-3: intros (a & b' & ->); exists a, (b' ++ k); by rewrite <-!app_assoc.
  intros (seen & Hp & ->). exists seen. split; [by apply prefix_app_r|done].
Qed.

Section tasks.
Context (prefix : string) (solo : bool) (retries fuel : nat) (fault : Error -> Prop).
Context (prefix_str : is_str prefix) (fault_opaque : forall e, fault e -> opaque_fault e).

(** One task under the invariant; [quiet] when nothing else moves. *)
Context (i : nat) (i_active : active solo i).
Context (rely : nat -> LView -> LView -> Prop) (quiet : Prop).
Context (rely_log : forall v v', rely i v v' -> log_rely prefix solo i v v').
Context (log_others : forall j v v', j <> i -> log_rely prefix solo j v v' -> rely j v v').
Context (quiet_eq : quiet -> forall v v', rely i v v' -> v' = v).
Context (retries_pos : quiet -> (0 < retries)%nat).

Notation Safe := (safe fault process (log_inv prefix solo) rely log_grows i).

(** An answer that is no answer: the fuel ran out. *)
Definition out_of_fuel (v : LView) : Prop := quiet -> (fuel <= length (ly_chunks (v_ghost v)))%nat.

Lemma store_append_safe es v :
  writer i = true -> Forall entry_wf es -> log_inv prefix solo v ->
  Safe (store_append prefix retries fuel es)
    (fun r v' => append_post quiet es v r v' \/ (r = Panic /\ out_of_fuel v' /\ unchanged quiet v v')) v.
Proof.
  intros Hw Hwf Hi. unfold store_append.
  eapply safe_seq; [by eapply (lazy_get_safe _ _ _ fault_opaque i i_active rely quiet)|done|].
  intros [st|e|] v1 [[Hgr Hq] Hr] Hi1; cbn [then_safe]; [|left; by split|right; by split_and!].
  eapply safe_mono; [by eapply (seg_append_safe _ _ _ i i_active rely quiet)|].
  intros r v2 [Hgr2 Hr2]. left. split; [by eapply log_grows_trans|].
  destruct r as [u|e|]; [|done|done]. destruct Hr2 as (c & Hc & Hp & Hx). exists c.
  split; [|by split]. unfold log_grows in Hgr. by etrans.
Qed.

Lemma store_read_from_safe start n v :
  log_inv prefix solo v ->
  Safe (store_read_from prefix retries fuel start n)
    (fun r v' => unchanged quiet v v' /\
       match r with
       | Ok page => exists st, v_local v' (process i) = Some st /\ page = state_read_from st start n
       | Err _ => True
       | Panic => out_of_fuel v'
       end) v.
Proof.
  intros Hi. unfold store_read_from.
  eapply safe_seq; [by eapply (lazy_get_safe _ _ _ fault_opaque i i_active rely quiet)|done|].
  intros [st|e|] v1 [Hu Hr] Hi1; cbn [then_safe]; [|by split|by split].
  destruct Hr as [st0 Hst0].
  eapply (log_with_state _ _ _ i i_active rely quiet); [done..|]. intros v2 st2 Hr2 Hq2 Hi2 Hst2 _.
  split; [by apply (iv_state _ _ _ Hi2) in Hst2|]. split; [apply mate_keeps_refl|].
  intros v3 Hi3 Ho3 Hg3 Hst3. split; [|by exists st2].
  eapply unchanged_trans; [exact Hu|]. eapply unchanged_trans; [|by apply same_unchanged].
  apply (moved_unchanged prefix solo i). by split.
Qed.

Lemma store_checkpoint_safe v :
  solo = true -> writer i = false -> log_inv prefix solo v ->
  Safe (store_checkpoint prefix retries fuel)
    (fun r v' => log_grows v v' /\ (r = Panic -> out_of_fuel v')) v.
Proof.
  intros Hs Hw Hi. unfold store_checkpoint.
  eapply safe_seq; [by eapply (lazy_get_safe _ _ _ fault_opaque i i_active rely quiet)|done|].
  intros [st|e|] v1 [[Hgr Hq] Hr] Hi1; cbn [then_safe]; [|by split|by split].
  eapply safe_mono; [by eapply (checkpoint_safe _ _ _ fault_opaque i i_active rely quiet)|].
  intros r v2 [Hgr2 Hr2]. split; [by eapply log_grows_trans|done].
Qed.
End tasks.

(** ** Every interleaving *)

Section interleaving.
Context (prefix : string) (solo : bool) (retries fuel : nat) {S : Type} `{ObjectStoreLaws S}.
Context (prefix_str : is_str prefix).

Notation LWorld := (World S (option LState) LogAnswer LogOp).

(** Processes that have just started, over a store that holds a log. *)
Record log_start (w : LWorld) : Prop := {
  lw_laid_out : exists y, laid_out prefix (objects (w_store w)) y;
  lw_closed : forall n, w_local w n = None;
  lw_idle : forall i, w_task w i = None;
  lw_answers : w_answers w = [];
}.

Definition log_reachable : LWorld -> LWorld -> Prop :=
  reachable process (log_code prefix retries fuel) None (log_may_start solo) (fun _ => True) (same_log prefix).

Definition log_ans (op : LogOp) (r : Res LogAnswer) (v : LView) : Prop := log_claim op r (ly_contents (v_ghost v)).

Lemma log_code_safe i op v :
  log_may_start solo i op -> log_inv prefix solo v ->
  safe os_fault process (log_inv prefix solo) (log_rely prefix solo) log_grows i
    (log_code prefix retries fuel i op) (log_ans op) v.
Proof.
  intros [Ha Hop] Hi. pose proof fault_law as Hf.
  assert (forall j v v', j <> i -> log_rely prefix solo j v v' -> log_rely prefix solo j v v') as Hoth by auto.
  assert (forall v v', log_rely prefix solo i v v' -> log_rely prefix solo i v v') as Hself by auto.
  assert (False -> forall v v', log_rely prefix solo i v v' -> v' = v) as Hq by done.
  assert (False -> (0 < retries)%nat) as Hret by done.
  destruct op as [es|start n|]; cbn [log_code].
  - destruct Hop as [Hw Hwf]. apply safe_bind. eapply safe_mono.
    { by apply (store_append_safe prefix solo retries fuel os_fault Hf i Ha _ False Hself Hoth Hq Hret). }
    intros [u|e|] v' [[Hgr Hr]|(Hp & _)]; try done. cbn [then_safe]. destruct Hr as (c & _ & [k Hk] & _).
    exists c, k. by rewrite Hk, <-app_assoc.
  - apply safe_bind. eapply safe_mono.
    { apply safe_inv; [|done].
      by apply (store_read_from_safe prefix solo retries fuel os_fault Hf i Ha _ False Hself Hoth Hq Hret). }
    intros [page|e|] v' [[_ Hr] Hi']; try done. destruct Hr as (st & Hst & ->). cbn [then_safe].
    exists (ls_entries st). split; [|done].
    eapply upto_prefix, so_upto, iv_state; [exact Hi'|exact Hst].
  - destruct Hop as [Hs Hw]. apply safe_bind. eapply safe_mono.
    { by apply (store_checkpoint_safe prefix solo retries fuel os_fault prefix_str Hf i Ha _ False Hself Hoth Hq Hret). }
    by intros [b|e|] v' _.
Qed.

Lemma log_obligations :
  Obligations os_fault process (log_inv prefix solo) (log_rely prefix solo) log_grows (S := S)
    (log_code prefix retries fuel) None (log_may_start solo) (fun _ => True) (same_log prefix) log_ans.
Proof.
  split; try done.
  - intros i v v' Hr. apply Hr.
  - intros i op v Hop Hi. by apply log_code_safe.
  - intros op r v v' Hgr. by apply log_claim_grows.
  - intros v clock' [Hl Hs Ho] Hle _ v'. split; [by split|]. split; [by unfold log_grows|]. intros i.
    apply (extend_rely prefix solo v (v_objects v) clock' (v_ghost v)); [done|done].
  - intros v m' [Hl Hs Ho] Hsame v'. split; [split; [by eapply laid_out_same|done..]|].
    split; [by unfold log_grows|]. intros i. apply (extend_rely prefix solo v m' (v_clock v) (v_ghost v)); [done|].
    intros w Hw. by apply Hsame, in_u64_pad.
  - intros v n [Hl Hs Ho] v'. split; [split; simpl; [done| |]|split; [by unfold log_grows|]].
    + intros k st. destruct (decide (k = n)) as [-> |]; [by rewrite fn_lookup_insert|].
      rewrite fn_lookup_insert_ne by done. apply Hs.
    + intros Hsolo k Hk. destruct (decide (k = n)) as [-> |]; [by rewrite fn_lookup_insert|].
      rewrite fn_lookup_insert_ne by done. by apply Ho.
    + intros i Hi. split; simpl; rewrite ?fn_lookup_insert_ne by done; [done|by split|].
      intros _ st Hst. exists st. split; [done|]. unfold keeps. destruct (writer i); [done|]. split; [lia|by split_and!].
Qed.

Lemma log_start_safe w :
  log_start w -> exists y, world_safe os_fault process (log_inv prefix solo) (log_rely prefix solo) log_grows log_ans w y.
Proof.
  intros Hw. destruct (lw_laid_out _ Hw) as [y Hy]. exists y. split; [split; simpl; [done| |]|split].
  - intros n st. by rewrite (lw_closed _ Hw).
  - intros _ n _. apply (lw_closed _ Hw).
  - intros i o p. by rewrite (lw_idle _ Hw).
  - intros o r. rewrite (lw_answers _ Hw). by intros ?%not_elem_of_nil.
Qed.

(** What one more process that opens the log, alone, is answered. *)
Definition reopens (s : S) (es : list MetadataEntry) : Prop :=
  forall s' t' r, run 0 (open_log prefix 1 (Datatypes.S (os_count s))) s None = (s', t', r) ->
  match r with
  | Ok state => ls_entries state = es
  | Err e => os_fault e
  | Panic => False
  end.

Lemma numbered_le_size infix (m : Objects) n k :
  0 <= n -> n + Z.of_nat k <= 2 ^ 64 ->
  (forall j, (j < k)%nat -> is_Some (m !! numbered prefix infix (n + Z.of_nat j))) -> (k <= size m)%nat.
Proof.
  intros Hn Hk Hm. set (key := fun j => numbered prefix infix (n + Z.of_nat j)).
  assert (NoDup (map key (seq 0 k))) as Hnd.
  { apply NoDup_fmap_2_strong; [|apply NoDup_seq]. intros a b Ha%elem_of_seq Hb%elem_of_seq Heq.
    apply numbered_pad_inj in Heq; [lia|unfold in_pad; lia..]. }
  assert (size (list_to_set (map key (seq 0 k)) : gset string) <= size (dom m))%nat as Hle.
  { apply subseteq_size. intros x. rewrite elem_of_list_to_set, list_elem_of_fmap.
    intros (j & -> & Hj%elem_of_seq). apply elem_of_dom, Hm. lia. }
  rewrite size_list_to_set, size_dom in Hle by done. by rewrite length_fmap, length_seq in Hle.
Qed.

Lemma chunks_le_size m y : laid_out prefix m y -> (length (ly_chunks y) <= size m)%nat.
Proof.
  intros Hl. destruct (lo_range _ _ _ Hl) as (_ & Hs & Ht). unfold ly_tail in Ht.
  apply (numbered_le_size "/log/" m (ly_seq y)); [mlia|done|]. intros j [c Hc]%lookup_lt_is_Some_2.
  destruct (lo_segments _ _ _ Hl j c Hc) as (raw & token & -> & _). eauto.
Qed.

(** The key space is not used up: no [2^63]rd generation and no last segment. *)
Definition room (m : Objects) : Prop :=
  m !! numbered prefix "/base/" (2 ^ 63) = None /\ m !! numbered prefix "/log/" u64_max = None.

Lemma room_not_exhausted m y : laid_out prefix m y -> room m -> ~ exhausted y.
Proof.
  intros Hl [Hb Hs] [Hx|Hx].
  - apply (lo_bases _ _ _ Hl) in Hx as [? ?]; [congruence|unfold in_pad; lia].
  - destruct (lo_range _ _ _ Hl) as (_ & Hseq & Ht).
    destruct (lookup_lt_is_Some_2 (ly_chunks y) (Z.to_nat (u64_max - ly_seq y))) as [c Hc].
    { unfold ly_tail in *. mlia. }
    destruct (lo_segments _ _ _ Hl _ c Hc) as (raw & token & Hk & _).
    replace (ly_seq y + _) with u64_max in Hk by mlia. congruence.
Qed.

(** A task whose only companion is itself. *)
Definition alone (i j : nat) (v v' : LView) : Prop :=
  if decide (j = i) then v' = v else log_rely prefix solo j v v'.

Lemma alone_refl i j v : alone i j v v.
Proof. unfold alone. case_decide; [done|apply log_rely_refl]. Qed.

Lemma alone_rely i v v' : alone i i v v' -> log_rely prefix solo i v v'.
Proof. unfold alone. rewrite decide_True by done. intros ->. apply log_rely_refl. Qed.

Lemma alone_others i j v v' : j <> i -> log_rely prefix solo j v v' -> alone i j v v'.
Proof. unfold alone. intros Hj. by rewrite decide_False. Qed.

Lemma alone_quiet i : True -> forall v v', alone i i v v' -> v' = v.
Proof. intros _ v v'. unfold alone. by rewrite decide_True. Qed.

Lemma reopens_layout s y : laid_out prefix (objects s) y -> room (objects s) -> reopens s (ly_contents y).
Proof.
  intros Hl Hroom s' t' r Hrun. pose proof fault_law as Hf.
  set (v := mkView (objects s) (fun _ : nat => None) (fun _ => 0) y : LView).
  assert (log_inv prefix solo v) as Hi by (by split).
  assert (active solo 0) as Ha by by intros _.
  assert (True -> (0 < 1)%nat) as Hret by (intros; lia).
  pose proof (open_log_safe prefix solo os_fault Hf 0 Ha (alone 0) True (alone_rely 0) (alone_others 0)
    (alone_quiet 0) 1 (Datatypes.S (os_count s)) v Hret (fun _ => eq_refl) Hi) as Hs.
  destruct (run_safe _ _ _ _ _ (alone_refl 0) 0 _ _ v 0 s None s' t' r (fun _ H => H) Hs Hi eq_refl eq_refl eq_refl Hrun)
    as (v' & Hi' & ([_ Hm] & Hc & Hr) & _).
  specialize (Hm I). subst v'. destruct r as [st|e|].
  - destruct (Hr eq_refl) as [_ ->]; done.
  - destruct (Hr I) as [|Hx]; [done|]. by apply (room_not_exhausted _ _ Hl Hroom) in Hx.
  - specialize (Hr I). pose proof (chunks_le_size _ _ Hl). pose proof (count_law s). simpl in Hr. lia.
Qed.

(** C2. Nothing acknowledged is lost: whatever the interleaving of the
    processes' store calls (or, where one process also checkpoints, of its own
    tasks), and although calls fail or land with their answers lost, processes
    die and come back and foreign objects come and go, a later open finds a
    log that begins with everything an earlier open would have found and holds
    every acknowledged append in one piece; and every page a read answered is
    a page of a prefix of that log. *)
Theorem store_log_durable w w' :
  log_start w -> log_reachable w w' -> room (objects (w_store w)) -> room (objects (w_store w')) ->
  exists es es', reopens (w_store w) es /\ reopens (w_store w') es' /\ es `prefix_of` es' /\
    forall op r, (op, r) ∈ w_answers w' -> log_claim op r es'.
Proof.
  intros Hw Hreach Hroom Hroom'. destruct (log_start_safe w Hw) as [y Hsafe].
  assert (forall v, log_grows v v) as Hrefl by (intros v; by unfold log_grows).
  destruct (reachable_safe _ _ _ _ _ (log_rely_refl prefix solo) (log_rely_trans prefix solo) Hrefl
    _ _ _ _ _ _ log_obligations _ _ _ log_grows_trans Hsafe Hreach) as (y' & Hsafe' & Hgr).
  destruct Hsafe as [Hinv _]. destruct Hsafe' as (Hinv' & _ & Hans').
  exists (ly_contents y), (ly_contents y'). split; [|split; [|split]].
  - apply reopens_layout; [apply (iv_laid_out _ _ _ Hinv)|done].
  - apply reopens_layout; [apply (iv_laid_out _ _ _ Hinv')|done].
  - apply Hgr.
  - intros op r Hin. by apply Hans'.
Qed.
End interleaving.

(** ** A log at work *)

Notation DemoWorld := (World FakeObjectStore (option LState) LogAnswer LogOp).

Definition demo_log : DemoWorld := mkWorld FakeObjectStore_new (fun _ => None) (fun _ => 0) (fun _ => None) [].

Definition log_drive : list (nat * LogOp) -> DemoWorld -> DemoWorld := drive process (log_code "meta/0" 2 4).

(** Process [n] dies and comes back. *)
Definition restart (n : nat) (w : DemoWorld) : DemoWorld :=
  mkWorld (w_store w) (<[n := None]> (w_local w)) (w_clock w)
    (fun i => if decide (process i = n) then None else w_task w i) (w_answers w).

(** Two entries are appended; a checkpoint and the append of four more run
    against each other, and the process dies when the second append has landed
    but not answered; it comes back and reads. *)
Definition demo_race : list (nat * LogOp) :=
  replicate 11 (0%nat, OpAppend (take 2 demo_entries)) ++ replicate 6 (1%nat, OpCheckpoint) ++
  replicate 4 (0%nat, OpAppend (drop 2 demo_entries)) ++ replicate 4 (1%nat, OpCheckpoint).

Definition demo_crashed : DemoWorld := log_drive demo_race demo_log.

Definition demo_recovered : DemoWorld := log_drive (replicate 13 (1%nat, OpRead 12 3)) (restart 0 demo_crashed).

(** Task 0 appends, task 1 does the rest. *)
Definition demo_may (io : nat * LogOp) : bool :=
  match io with
  | (0%nat, OpAppend es) => bool_decide (Forall entry_wf es)
  | (1%nat, OpRead _ _) | (1%nat, OpCheckpoint) => true
  | _ => false
  end.

Lemma demo_log_moves schedule w :
  forallb demo_may schedule = true -> log_reachable "meta/0" true 2 4 w (log_drive schedule w).
Proof.
  intros Hok. apply drive_reachable. apply Forall_forall. intros [i op] Hin%list_elem_of_In.
  pose proof (proj1 (forallb_forall _ _) Hok _ Hin) as Hmay.
  destruct i as [|[|i]], op as [es|start n|]; simpl in Hmay; try done;
    (split; [by intros _|]); try done. split; [done|]. by apply bool_decide_eq_true in Hmay.
Qed.

Lemma demo_log_reachable : log_reachable "meta/0" true 2 4 demo_log demo_recovered.
Proof.
  transitivity demo_crashed; [apply (demo_log_moves demo_race demo_log); vm_compute; reflexivity|].
  apply (rtc_l _ _ (restart 0 demo_crashed)); [apply (ws_restart _ _ _ _ _ _ 0)|].
  apply (demo_log_moves (replicate 13 (1%nat, OpRead 12 3)) (restart 0 demo_crashed)). reflexivity.
Qed.

Lemma demo_log_start : log_start "meta/0" demo_log.
Proof. split; [exists ly_empty; by apply laid_out_empty|done..]. Qed.

Lemma store_log_durable_witness :
  (w_answers demo_recovered).*2 =
    [Ok Appended; Ok (Checkpointed true); Ok (ReadPage (take 3 (drop 2 demo_entries)))] /\
  exists es es', reopens "meta/0" (w_store demo_log) es /\ reopens "meta/0" (w_store demo_recovered) es' /\
    es `prefix_of` es' /\ forall op r, (op, r) ∈ w_answers demo_recovered -> log_claim op r es'.
Proof.
  split; [vm_compute; reflexivity|].
  apply (store_log_durable "meta/0" true 2 4 ltac:(vm_decide) demo_log demo_recovered).
  - exact demo_log_start.
  - exact demo_log_reachable.
  - by split.
  - split; vm_compute; reflexivity.
Defined.

(** ** A create-only write is no fence once segments are pruned *)

Definition stale_entries : list MetadataEntry := [mkMetadataEntry 10 (Trimmed "orders" 3 1)].

(** Process 1 opens the log; process 0 appends and checkpoints, which deletes
    the segment it wrote; process 1 appends where that segment was. *)
Definition stale_world : DemoWorld :=
  log_drive (replicate 9 (2%nat, OpRead 0 1) ++ replicate 11 (0%nat, OpAppend (take 2 demo_entries)) ++
    replicate 10 (1%nat, OpCheckpoint) ++ replicate 6 (2%nat, OpAppend stale_entries)) demo_log.

(** The conditional write alone does not refuse a stale writer: with two
    processes on one log, one that opened before the other's checkpoint pruned
    a segment writes at that segment's key again, behind the new base, and is
    acknowledged; a later open finds the log without its entries. *)
Theorem stale_append_is_lost :
  (OpAppend stale_entries, Ok Appended) ∈ w_answers stale_world /\
  exists s' t' state, run 0 (open_log "meta/0" 1 2) (w_store stale_world) None = (s', t', Ok state) /\
    ls_entries state = take 2 demo_entries /\ Forall (fun e => e ∉ ls_entries state) stale_entries.
Proof.
  split; [vm_compute; repeat constructor|].
  eexists _, _, _. split; [vm_compute; reflexivity|]. split; [reflexivity|]. vm_decide.
Qed.
