(* ===== verification/StoreLogContract.v ===== *)
(** * StoreLogContract: the stored log as the coordinator's log

    The handles of one log prefix, each a process that opened it, as an
    instance of the [MetadataLog] contract of Log.v, and the coordinator of
    Coordinator.v on top of it.  A handle's calls run one at a time here; what
    they do when they interleave is StoreLogProps.v. *)

From stdpp Require Import base tactics list numbers strings gmap functions.
From Stdlib Require Import ZArith Lia.
From S2P Require Import Prelude Bytes Types Store Machine Log Allocator AllocatorProps IndexFold.
From S2P Require Import Coordinator CoordinatorProps Segment SegmentProps.
From S2P Require Import StoreLog StoreLogInv StoreLogProps.

Open Scope Z_scope.

(** ** The log a store holds *)

Section stored.
Context (prefix : string).

(** How many consecutive numbers from [n] the map answers. *)
Fixpoint run_length (fuel : nat) (held : Z -> bool) (n : Z) : nat :=
  match fuel with
  | O => 0
  | S fuel => if held n then S (run_length fuel held (n + 1)) else 0
  end.

Lemma run_length_exact fuel held n k :
  (k <= fuel)%nat -> (forall j, (j < k)%nat -> held (n + Z.of_nat j) = true) -> held (n + Z.of_nat k) = false ->
  run_length fuel held n = k.
Proof.
  revert n k. induction fuel as [|fuel IH]; intros n k Hk Ht Hf; simpl; [lia|].
  destruct k as [|k]; [by rewrite Z.add_0_r in Hf; rewrite Hf|].
  assert (held n = true) as -> by (rewrite <-(Z.add_0_r n); apply (Ht 0%nat); lia). f_equal. apply IH; [lia| |].
  - intros j Hj. rewrite <-(Ht (S j)) by lia. f_equal. lia.
  - rewrite <-Hf. f_equal. lia.
Qed.

Definition decoded_at (m : Objects) (key : string) : list MetadataEntry :=
  match m !! key with
  | Some (raw, _) => match decode_segment raw with Ok es => es | _ => [] end
  | None => []
  end.

(** The newest base of [m], and the entries from it on. *)
Definition stored_base (m : Objects) : Base :=
  match run_length (size m) (fun g => bool_decide (is_Some (m !! numbered prefix "/base/" g))) 0 with
  | O => mkBase 0 None
  | S newest =>
      match m !! numbered prefix "/base/" (Z.of_nat newest) with
      | Some (raw, _) => match Base_decode raw with Ok base => base | _ => mkBase 0 None end
      | None => mkBase 0 None
      end
  end.

Definition stored_entries (m : Objects) : list MetadataEntry :=
  let base := stored_base m in
  match base_snapshot base with Some key => decoded_at m key | None => [] end ++
  concat (map (fun n => decoded_at m (numbered prefix "/log/" (base_seq base + Z.of_nat n)))
    (seq 0 (run_length (size m)
      (fun s => bool_decide (is_Some (m !! numbered prefix "/log/" s))) (base_seq base)))).

Lemma stored_base_layout m y : laid_out prefix m y -> stored_base m = base_of prefix y.
Proof.
  intros Hl. destruct (lo_range _ _ _ Hl) as (Hb & Hs & _). unfold stored_base.
  rewrite (run_length_exact _ _ _ (Z.to_nat (ly_bases y))).
  - destruct (Z.to_nat (ly_bases y)) as [|g] eqn:Hg.
    + destruct (lo_none _ _ _ Hl) as [Hseq Hsn]; [lia|]. unfold base_of. by rewrite Hseq, Hsn.
    + assert (in_pad (Z.of_nat g)) as Hpad by (unfold in_pad; lia).
      destruct (proj2 (lo_bases _ _ _ Hl _ Hpad) ltac:(lia)) as [[raw token] Hm].
      rewrite Hm. destruct (lo_base _ _ _ Hl _ _ _ Hpad Hm) as (b & -> & Hbase). apply Hbase. lia.
  - apply (numbered_le_size prefix "/base/" m 0); [lia|lia|]. intros j Hj.
    apply (lo_bases _ _ _ Hl); [unfold in_pad; lia|lia].
  - intros j Hj. apply bool_decide_eq_true. apply (lo_bases _ _ _ Hl); [unfold in_pad; lia|lia].
  - apply bool_decide_eq_false. rewrite (lo_bases _ _ _ Hl) by (unfold in_pad; lia). lia.
Qed.

Lemma stored_entries_layout m y : laid_out prefix m y -> stored_entries m = ly_contents y.
Proof.
  intros Hl. pose proof (stored_base_layout m y Hl) as Hb. unfold stored_entries. rewrite Hb.
  destruct (lo_range _ _ _ Hl) as (_ & Hs & Ht). unfold ly_contents. f_equal.
  - pose proof (lo_head _ _ _ Hl) as Hh. unfold base_of. simpl. destruct (ly_snap y) as [v|]; [|done].
    destruct Hh as (Hv & [[raw token] Hm] & Hlast). simpl. unfold decoded_at. rewrite Hm.
    by rewrite (snapshot_holds prefix m y (ly_seq y) (ly_head y) v raw token Hl (head_upto _ _ _ Hl) Hlast Hv Hm).
  - unfold base_of. simpl. rewrite (run_length_exact _ _ _ (length (ly_chunks y))).
    + f_equal. apply list_eq. intros n.
      change (map ?f ?l) with (f <$> l). rewrite list_lookup_fmap.
      destruct (ly_chunks y !! n) as [c|] eqn:Hc.
      * rewrite lookup_seq_lt by (by apply lookup_lt_Some in Hc). simpl. unfold decoded_at.
        by destruct (lo_segments _ _ _ Hl n c Hc) as (raw & token & -> & ->).
      * rewrite lookup_seq_ge by (by apply lookup_ge_None in Hc). done.
    + by eapply chunks_le_size.
    + intros j [c Hc]%lookup_lt_is_Some_2. apply bool_decide_eq_true.
      destruct (lo_segments _ _ _ Hl j c Hc) as (raw & token & -> & _). eauto.
    + apply bool_decide_eq_false. unfold ly_tail in Ht.
      rewrite (lo_tail _ _ _ Hl); [by intros [? ?]| |unfold ly_tail; lia]. unfold in_pad. mlia.
Qed.
End stored.

(** ** The handles on it *)

Record StoredLog (prefix : string) (S : Type) : Type := mkStoredLog {
  sl_store : S;
  (** what each handle remembers, and the handles that were given out *)
  sl_local : nat -> option LState;
  sl_handles : nat;
}.
Arguments mkStoredLog {prefix S}.
Arguments sl_store {prefix S}.
Arguments sl_local {prefix S}.
Arguments sl_handles {prefix S}.

Section contract.
Context (prefix : string) {S : Type} `{ObjectStoreLaws S}.
Notation SLog := (StoredLog prefix S).

(** One call of handle [h], to its end. *)
Definition call {A} (h : nat) (l : SLog) (p : nat -> Prog (option LState) A) : SLog * Res A :=
  let '(s', t', r) := Machine.run 0 (p (Datatypes.S (os_count (sl_store l)))) (sl_store l) (sl_local l h) in
  (mkStoredLog s' (<[h := t']> (sl_local l)) (sl_handles l), r).

#[export] Instance store_log : MetadataLog nat SLog := {
  log_append h l es := call h l (fun fuel => store_append prefix 1 fuel es);
  log_read_from h l start n := call h l (fun fuel => store_read_from prefix 1 fuel start n);
}.

(** [ObjectStoreMetadataLog::open], the log's [Reopen]: a new handle. *)
Definition store_reopen (l : SLog) : SLog * Res nat :=
  let h := sl_handles l in
  let '(l', r) := call h (mkStoredLog (sl_store l) (<[h := None]> (sl_local l)) (Datatypes.S h)) (lazy_get prefix 1) in
  (l', let? _ := r in Ok h).

Definition sl_view (l : SLog) (y : Layout) : LView :=
  mkView (objects (sl_store l)) (sl_local l) (fun _ => 0) y.

Definition stored_ok (l : SLog) : Prop := exists y, log_inv prefix false (sl_view l y).

Definition sl_contents (l : SLog) : list MetadataEntry := stored_entries prefix (objects (sl_store l)).

Definition sl_seen (h : nat) (l : SLog) : list MetadataEntry :=
  match sl_local l h with Some state => ls_entries state | None => [] end.

Notation Alone h := (alone prefix false (2 * h)).

Lemma process_double h : process (2 * h) = h.
Proof. apply Nat.div2_double. Qed.

Lemma writer_double h : writer (2 * h) = true.
Proof. unfold writer. by rewrite Nat.even_mul. Qed.

(** What a call leaves, as the view it was proved in sees it. *)
Record leaves (l : SLog) (v : LView) : Prop := {
  lv_inv : log_inv prefix false v;
  lv_objects : objects (sl_store l) = v_objects v;
  lv_local : forall n, sl_local l n = v_local v n;
}.

Lemma leaves_ok l v : leaves l v -> stored_ok l /\ sl_contents l = ly_contents (v_ghost v).
Proof.
  intros [Hi Ho Hl]. split.
  - exists (v_ghost v). split; simpl; [rewrite Ho; apply Hi| |done].
    intros n st. rewrite Hl. apply Hi.
  - unfold sl_contents. rewrite Ho. by apply stored_entries_layout, Hi.
Qed.

Lemma call_safe {A} h l l' v r (p : nat -> Prog (option LState) A) Q :
  leaves l v -> v_clock v (process (2 * h)) = 0 ->
  safe os_fault process (log_inv prefix false) (Alone h) log_grows (2 * h)
    (p (Datatypes.S (os_count (sl_store l)))) Q v ->
  call h l p = (l', r) -> exists v', leaves l' v' /\ Q r v'.
Proof.
  intros [Hi Ho Hl] Hc Hs. unfold call. destruct (Machine.run _ _ _ _) as [[s' t'] r'] eqn:Hrun.
  intros [= <- <-].
  assert (v_local v (process (2 * h)) = sl_local l h) as Hh by by rewrite process_double.
  destruct (run_safe _ _ _ _ _ (alone_refl prefix false (2 * h)) _ _ _ _ _ _ _ _ _ _ (fun _ H => H) Hs Hi
    Ho Hh Hc Hrun) as (v' & Hi' & HQ & Ho' & Hl' & _ & Hoth).
  exists v'. split; [|done]. split; [done|done|]. simpl. intros n. rewrite process_double in *.
  destruct (decide (n = h)) as [-> |Hne]; [by rewrite fn_lookup_insert|].
  rewrite fn_lookup_insert_ne, Hl by done. by rewrite Hoth.
Qed.

Lemma ok_leaves l : stored_ok l -> exists v, leaves l v /\ forall n, v_clock v n = 0.
Proof. intros [y Hy]. by exists (sl_view l y). Qed.

(** The fuel a call is given is enough: every live segment is an object. *)
Lemma enough_fuel l v v' :
  leaves l v -> log_inv prefix false v' -> v_objects v' = v_objects v ->
  ~ (Datatypes.S (os_count (sl_store l)) <= length (ly_chunks (v_ghost v')))%nat.
Proof.
  intros [_ Ho _] Hi' Ho' Hle. pose proof (chunks_le_size _ _ _ (iv_laid_out _ _ _ Hi')).
  pose proof (count_law (sl_store l)). rewrite Ho', <-Ho in *. lia.
Qed.

Lemma active_any i : active false i.
Proof. done. Qed.

Definition one_try (_ : True) : (0 < 1)%nat := Nat.lt_0_1.

Lemma stored_append h l es l' r :
  stored_ok l -> Forall entry_wf es -> log_append h l es = (l', r) ->
  stored_ok l' /\ r <> Panic /\
  exists more, sl_contents l' = sl_contents l ++ more /\ (r = Ok tt -> exists others, more = others ++ es).
Proof.
  intros (v & Hv & Hc)%ok_leaves Hwf Hcall. pose proof fault_law as Hf.
  pose proof (store_append_safe prefix false 1 (Datatypes.S (os_count (sl_store l))) os_fault Hf (2 * h)
    (active_any _) (Alone h) True (alone_rely _ _ _) (alone_others _ _ _) (alone_quiet _ _ _) one_try es v
    (writer_double h) Hwf (lv_inv _ _ Hv)) as Hs.
  destruct (call_safe h l l' v r (fun fuel => store_append prefix 1 fuel es) _ Hv (Hc _) Hs Hcall)
    as (v' & Hv' & Hpost).
  destruct (leaves_ok _ _ Hv) as [_ ->]. destruct (leaves_ok _ _ Hv') as [Hok' ->]. split; [done|].
  destruct Hpost as [[[more Hgr] Hr]|(-> & Hfuel & Hgr & Hq)].
  - split; [by destruct r|]. exists more. split; [done|]. intros ->.
    destruct Hr as (c & [o Hco] & _ & Hx). specialize (Hx I). exists o. rewrite Hx, Hco, <-app_assoc in Hgr.
    by apply app_inv_head in Hgr.
  - exfalso. destruct (Hq I) as [Ho _].
    by apply (enough_fuel l v v' Hv (lv_inv _ _ Hv') Ho), (Hfuel I).
Qed.

Lemma stored_read h l start n l' r :
  stored_ok l -> log_read_from h l start n = (l', r) ->
  stored_ok l' /\ r <> Panic /\ sl_contents l' = sl_contents l /\
  forall page, r = Ok page -> page = take n (List.filter (fun e => start <=? me_version e) (sl_seen h l')).
Proof.
  intros (v & Hv & Hc)%ok_leaves Hcall. pose proof fault_law as Hf.
  pose proof (store_read_from_safe prefix false 1 (Datatypes.S (os_count (sl_store l))) os_fault Hf (2 * h)
    (active_any _) (Alone h) True (alone_rely _ _ _) (alone_others _ _ _) (alone_quiet _ _ _) one_try start n v
    (lv_inv _ _ Hv)) as Hs.
  destruct (call_safe h l l' v r (fun fuel => store_read_from prefix 1 fuel start n) _ Hv (Hc _) Hs Hcall)
    as (v' & Hv' & [_ Hq] & Hr). destruct (Hq I) as [Ho Hg].
  destruct (leaves_ok _ _ Hv) as [_ ->]. destruct (leaves_ok _ _ Hv') as [Hok' ->]. rewrite Hg.
  split; [done|]. split; [|split; [done|]].
  - intros ->. by apply (enough_fuel l v v' Hv (lv_inv _ _ Hv') Ho), (Hr I).
  - intros page ->. destruct Hr as (st & Hst & ->). unfold sl_seen.
    rewrite (lv_local _ _ Hv'). rewrite process_double in Hst. by rewrite Hst.
Qed.

#[export] Instance store_log_laws : MetadataLogLaws nat SLog.
Proof.
  refine {| log_ok := stored_ok; contents := sl_contents; seen := sl_seen |}.
  - intros h l (v & Hv & _)%ok_leaves. destruct (leaves_ok _ _ Hv) as [_ ->]. unfold sl_seen.
    rewrite (lv_local _ _ Hv). destruct (v_local v h) as [st|] eqn:Hst; [|apply prefix_nil].
    eapply upto_prefix, so_upto, iv_state; [apply (lv_inv _ _ Hv)|exact Hst].
  - intros l (v & Hv & _)%ok_leaves. destruct (leaves_ok _ _ Hv) as [_ ->]. apply (lv_inv _ _ Hv).
  - apply stored_append.
  - intros h l start n l' r Hl Hr. destruct (stored_read _ _ _ _ _ _ Hl Hr) as (? & ? & Heq & ?).
    split_and!; [done..| |done]. exists []. by rewrite app_nil_r.
Defined.

Lemma store_reopen_ok : reopen_ok store_reopen.
Proof.
  intros l l' r (v & Hv & Hc)%ok_leaves. unfold store_reopen.
  set (h := sl_handles l). set (l0 := mkStoredLog (sl_store l) (<[h := None]> (sl_local l)) _).
  destruct (call h l0 (lazy_get prefix 1)) as [l1 r1] eqn:Hcall. intros [= <- <-].
  set (v0 := mkView (v_objects v) (<[h := None]> (v_local v)) (v_clock v) (v_ghost v) : LView).
  assert (leaves l0 v0) as Hv0.
  { destruct Hv as [Hi Ho Hl]. split; [split; simpl; [apply Hi| |done]|done|].
    - intros n st. destruct (decide (n = h)) as [-> |]; [by rewrite fn_lookup_insert|].
      rewrite fn_lookup_insert_ne by done. apply Hi.
    - intros n. simpl. destruct (decide (n = h)) as [-> |]; [by rewrite !fn_lookup_insert|].
      by rewrite !fn_lookup_insert_ne. }
  pose proof fault_law as Hf.
  pose proof (lazy_get_safe prefix false os_fault Hf (2 * h) (active_any _) (Alone h) True (alone_rely _ _ _)
    (alone_others _ _ _) (alone_quiet _ _ _) 1 (Datatypes.S (os_count (sl_store l0))) v0 one_try) as Hs.
  destruct (call_safe h l0 l1 v0 r1 (lazy_get prefix 1) _ Hv0 (Hc _) Hs Hcall) as (v1 & Hv1 & [_ Hq] & Hr).
  destruct (Hq I) as [Ho Hg]. destruct (leaves_ok _ _ Hv1) as [Hok1 Hc1]. destruct (leaves_ok _ _ Hv) as [_ Hc0].
  split; [done|]. split; [|exists []; rewrite app_nil_r; simpl; rewrite Hc0, Hc1; by rewrite Hg].
  destruct r1 as [st|e|]; simpl; [done|done|]. intros _.
  by apply (enough_fuel l0 v0 v1 Hv0 (lv_inv _ _ Hv1) Ho), (Hr I).
Qed.

(** C6. What a coordinator acknowledges survives it: for the coordinator over
    the object-store log, when a commit is acknowledged with any span admitted,
    whoever next opens the log from the store alone finds in it the record with
    the acknowledged version and exactly the admitted spans. *)
Theorem acknowledged_survives_restart fuel object spans (s s' : CoordinatorLoop nat SLog) ack :
  inv s -> commit_wf object spans -> serve fuel object spans s = (s', Ok ack) ->
  ad_admitted (al_admit (cl_allocator s) spans) <> [] -> room prefix (objects (sl_store (cl_store s'))) ->
  exists pre now more, reopens prefix (sl_store (cl_store s'))
    (pre ++ mkMetadataEntry (ca_version ack) (BatchCommitted object
      (map snd (ad_admitted (al_admit (cl_allocator s) spans))) now) :: more).
Proof.
  intros Hinv Hsp Hs Hne Hroom. destruct (serve_spec _ _ _ _ _ _ Hinv Hsp Hs) as [Hinv' _ Hok _].
  destruct (Hok ack eq_refl) as (xs & _ & _ & Hdur). destruct (Hdur Hne) as (pre & now & more & Hd & _).
  exists pre, now, more. destruct (ci_log _ Hinv') as [y Hy]. pose proof (iv_laid_out _ _ _ Hy) as Hl. simpl in Hl.
  rewrite <-Hd. change (contents (cl_store s')) with (sl_contents (cl_store s')).
  unfold sl_contents. rewrite (stored_entries_layout _ _ _ Hl). by apply (reopens_layout prefix false).
Qed.
End contract.

(** ** A coordinator over a bucket *)

Definition bucket : StoredLog "meta/0" FakeObjectStore := mkStoredLog FakeObjectStore_new (fun _ => None) 1.

Definition stored_loop : CoordinatorLoop nat (StoredLog "meta/0" FakeObjectStore) :=
  reopening_with (fenced_by (open_deferred 0%nat bucket IndexState_new 1 demo_clock) demo_lease)
    (store_reopen "meta/0").

Definition stored_after : CoordinatorLoop nat (StoredLog "meta/0" FakeObjectStore) :=
  (serve 10 "o" demo_spans stored_loop).1.

Lemma stored_serve : serve 10 "o" demo_spans stored_loop = (stored_after, Ok demo_ack).
Proof. rewrite (surjective_pairing (serve _ _ _ _)). apply (f_equal (pair stored_after)). vm_compute. reflexivity. Qed.

Lemma stored_loop_inv : inv stored_loop.
Proof.
  assert (forall m : Objects, m = ∅ -> laid_out "meta/0" m ly_empty) as He.
  { intros m ->. apply laid_out_empty. intros. by rewrite !lookup_empty. }
  split; simpl.
  - exists ly_empty. split; [by apply He|done|done].
  - exists [], []. split; [vm_compute; reflexivity|apply al_at_new].
  - exists [], []. split; [vm_compute; reflexivity|apply (index_at_clear IndexState_new)].
  - split; [|apply demo_clock_wf]. intros f [= <-]. apply store_reopen_ok.
Qed.

Lemma acknowledged_survives_restart_witness :
  exists pre now more, reopens "meta/0" (sl_store (cl_store stored_after))
    (pre ++ mkMetadataEntry (ca_version demo_ack) (BatchCommitted "o"
      (map snd (ad_admitted (al_admit (cl_allocator stored_loop) demo_spans))) now) :: more).
Proof.
  apply (acknowledged_survives_restart "meta/0" 10 "o" demo_spans stored_loop stored_after demo_ack).
  - apply stored_loop_inv.
  - vm_decide.
  - apply stored_serve.
  - vm_compute. discriminate.
  - split; vm_compute; reflexivity.
Defined.
