(* ===== verification/ErrorCodes.v ===== *)
(** * ErrorCodes: the error codes of the protocol

    The constants of [oqueue-codec/src/error_codes.rs]; [NONE] is [NO_ERROR]
    here. *)

From Stdlib Require Import ZArith.

Open Scope Z_scope.

Definition NO_ERROR : Z := 0.
Definition OFFSET_OUT_OF_RANGE : Z := 1.
Definition CORRUPT_MESSAGE : Z := 2.
Definition UNKNOWN_TOPIC_OR_PARTITION : Z := 3.
Definition REQUEST_TIMED_OUT : Z := 7.
Definition INVALID_REQUIRED_ACKS : Z := 21.
Definition UNSUPPORTED_VERSION : Z := 35.
Definition UNSUPPORTED_FOR_MESSAGE_FORMAT : Z := 43.
Definition INVALID_RECORD : Z := 87.
Definition UNKNOWN_TOPIC_ID : Z := 100.
Definition NOT_ENOUGH_REPLICAS : Z := 19.
Definition LEADER_NOT_AVAILABLE : Z := 5.
Definition UNKNOWN_SERVER_ERROR : Z := -1.
Definition OFFSET_NOT_AVAILABLE : Z := 78.
Definition UNSUPPORTED_COMPRESSION_TYPE : Z := 76.
Definition INVALID_REQUEST : Z := 42.
Definition INVALID_CONFIG : Z := 40.
Definition OUT_OF_ORDER_SEQUENCE_NUMBER : Z := 45.
Definition DUPLICATE_SEQUENCE_NUMBER : Z := 46.
Definition INVALID_PRODUCER_EPOCH : Z := 47.
Definition UNSUPPORTED_SASL_MECHANISM : Z := 33.
Definition SASL_AUTHENTICATION_FAILED : Z := 58.
Definition INCONSISTENT_GROUP_PROTOCOL : Z := 23.
Definition REBALANCE_IN_PROGRESS : Z := 27.
Definition TOPIC_AUTHORIZATION_FAILED : Z := 29.
Definition CLUSTER_AUTHORIZATION_FAILED : Z := 31.
Definition TOPIC_ALREADY_EXISTS : Z := 36.
Definition INVALID_PARTITIONS : Z := 37.
Definition INVALID_REPLICATION_FACTOR : Z := 38.
Definition INVALID_TOPIC_EXCEPTION : Z := 17.
Definition GROUP_AUTHORIZATION_FAILED : Z := 30.
Definition GROUP_ID_NOT_FOUND : Z := 69.
Definition UNKNOWN_MEMBER_ID : Z := 25.
Definition ILLEGAL_GENERATION : Z := 22.
Definition NOT_COORDINATOR : Z := 16.
Definition COORDINATOR_NOT_AVAILABLE : Z := 15.
Definition COORDINATOR_LOAD_IN_PROGRESS : Z := 14.
