(* ===== verification/Wire.v ===== *)
(** * Wire: the Kafka wire primitives

    Models [oqueue-codec/src/wire.rs], [emit.rs], [decode_error.rs],
    [varint.rs] and [flex.rs]: the cursor over an untrusted frame, fixed-width
    integers, variable-length integers with their word-at-a-time fast path,
    and the legacy and compact forms of strings, byte strings, array lengths
    and tagged fields.  A [put] function appends to its buffer. *)

From stdpp Require Import base tactics list numbers strings.
From Stdlib Require Import ZArith Lia.
From S2P Require Import Prelude Bytes.

Open Scope Z_scope.

Inductive DecodeError : Type :=
| UnexpectedEof (needed remaining at_ : Z)
| LengthOutOfBounds (length max at_ : Z)
| RecordTooShort (length min at_ : Z)
| NegativeLength (length at_ : Z)
| VarintTooLong (max_bytes at_ : Z)
| InvalidUtf8 (at_ : Z)
| UnexpectedNull (at_ : Z).

Notation WireReader := (Reader DecodeError).

(** ** The cursor ([wire.rs]) *)

Definition position : WireReader Z := fun _ at_ => Ok (Z.of_nat at_, at_).

Definition remaining (buf : bytes) (at_ : nat) : nat := (length buf - at_)%nat.

Definition cur_remaining : WireReader nat := fun buf at_ => Ok (remaining buf at_, at_).

Definition cur_fail {A} (e : DecodeError) : WireReader A := fun _ _ => Err e.

(** [u64::from_le_bytes]. *)
Fixpoint from_le (bs : bytes) : Z :=
  match bs with [] => 0 | b :: bs => b + 256 * from_le bs end.

Definition peek_word (buf : bytes) (at_ : nat) : option Z :=
  let rest := drop at_ buf in
  if (8 <=? length rest)%nat then Some (from_le (take 8 rest)) else None.

Definition cur_take (n : nat) : WireReader bytes := fun buf at_ =>
  if (remaining buf at_ <? n)%nat
  then Err (UnexpectedEof (Z.of_nat n) (Z.of_nat (remaining buf at_)) (Z.of_nat at_))
  else Ok (take n (drop at_ buf), (at_ + n)%nat).

Definition read_i8 : WireReader Z := rd! b := cur_take 1 in rd_ret (from_be_signed 1 b).
Definition read_i16 : WireReader Z := rd! b := cur_take 2 in rd_ret (from_be_signed 2 b).
Definition read_i32 : WireReader Z := rd! b := cur_take 4 in rd_ret (from_be_signed 4 b).
Definition read_u32 : WireReader Z := rd! b := cur_take 4 in rd_ret (from_be b).
Definition read_i64 : WireReader Z := rd! b := cur_take 8 in rd_ret (from_be_signed 8 b).
Definition read_bool : WireReader bool := rd! b := read_i8 in rd_ret (negb (b =? 0)).

Definition read_length_prefixed (max : Z) : WireReader bytes :=
  rd! at_ := position in
  rd! length := read_i32 in
  if length <? 0 then cur_fail (NegativeLength length at_)
  else if max <? length then cur_fail (LengthOutOfBounds length max at_)
  else cur_take (Z.to_nat length).

Definition read_nullable_length_prefixed (max : Z) : WireReader (option bytes) := fun buf at_ =>
  let? (length, after) := read_i32 buf at_ in
  if length =? -1 then Ok (None, after)
  else (rd! b := read_length_prefixed max in rd_ret (Some b)) buf at_.

Definition read_legacy_array_len : WireReader (option nat) :=
  rd! at_ := position in
  rd! count := read_i32 in
  if count =? -1 then rd_ret None
  else if count <? 0 then cur_fail (NegativeLength count at_)
  else
    rd! room := cur_remaining in
    if (Z.of_nat room <? count) then cur_fail (LengthOutOfBounds count (Z.of_nat room) at_)
    else rd_ret (Some (Z.to_nat count)).

(** [core::str::from_utf8] over bytes that begin at [at_]. *)
Definition wire_str (at_ : Z) (raw : bytes) : WireReader (option string) :=
  if utf8_valid raw then rd_ret (Some (of_bytes raw)) else cur_fail (InvalidUtf8 at_).

Definition read_legacy_nullable_string : WireReader (option string) :=
  rd! at_ := position in
  rd! length := read_i16 in
  if length =? -1 then rd_ret None
  else if length <? 0 then cur_fail (NegativeLength length at_)
  else
    rd! at_ := position in
    rd! raw := cur_take (Z.to_nat length) in
    wire_str at_ raw.

(** ** Emission ([emit.rs]) *)

Definition put_i8 (buf : bytes) (v : Z) : bytes := buf ++ be_signed 1 v.
Definition put_i16 (buf : bytes) (v : Z) : bytes := buf ++ be_signed 2 v.
Definition put_i32 (buf : bytes) (v : Z) : bytes := buf ++ be_signed 4 v.
Definition put_u32 (buf : bytes) (v : Z) : bytes := buf ++ be_bytes 4 v.
Definition put_i64 (buf : bytes) (v : Z) : bytes := buf ++ be_signed 8 v.
Definition put_bool (buf : bytes) (v : bool) : bytes := buf ++ [if v then 1 else 0].

(** [i16::try_from(len).unwrap_or(i16::MAX)], and the same for [i32], [u32]. *)
Definition clamp (max : Z) (len : nat) : Z := Z.min (Z.of_nat len) max.

Definition put_legacy_nullable_string (buf : bytes) (value : option string) : bytes :=
  match value with
  | None => put_i16 buf (-1)
  | Some s => put_i16 buf (clamp i16_max (length (as_bytes s))) ++ as_bytes s
  end.

(** ** Variable-length integers ([varint.rs]) *)

Definition MAX_VARINT_BYTES : nat := 5.
Definition MAX_VARLONG_BYTES : nat := 10.

(** [u64::trailing_zeros]. *)
Fixpoint trailing_zeros_from (fuel : nat) (i : Z) (v : Z) : Z :=
  match fuel with
  | O => i
  | S fuel => if Z.testbit v i then i else trailing_zeros_from fuel (i + 1) v
  end.
Definition trailing_zeros (v : Z) : Z := trailing_zeros_from 64 0 v.

Definition STOP_BITS : Z := 9259542123273814144. (* 0x8080_8080_8080_8080 *)

Definition swar_len (word : Z) : nat :=
  let stops := Z.land (Z.lxor word u64_max) STOP_BITS in
  if stops =? 0 then 9%nat else (Z.to_nat (Z.shiftr (trailing_zeros stops) 3) + 1)%nat.

(** [value |= uN::from(b & 0x7F).wrapping_shl(i * 7)] at [bits] bits. *)
Definition varint_or (bits : Z) (value : Z) (i : nat) (b : Z) : Z :=
  Z.lor value (Z.land (Z.shiftl (Z.land b 127) (Z.of_nat i * 7)) (Z.ones bits)).

(** The loop over a slice of known length. *)
Fixpoint varint_bytes (bits : Z) (i : nat) (value : Z) (bs : bytes) : Z :=
  match bs with
  | [] => value
  | b :: bs => varint_bytes bits (S i) (varint_or bits value i b) bs
  end.

(** The loop that takes a byte at a time: [fuel] is the bytes it may still
    take, [i] the index of the next. *)
Fixpoint varint_loop (bits : Z) (max : nat) (at_ : Z) (fuel i : nat) (value : Z) : WireReader Z :=
  match fuel with
  | O => cur_fail (VarintTooLong (Z.of_nat max) at_)
  | S fuel =>
      rd! bs := cur_take 1 in
      match bs with
      | b :: _ =>
          let value := varint_or bits value i b in
          if Z.land b 128 =? 0 then rd_ret value
          else varint_loop bits max at_ fuel (S i) value
      | [] => fun _ _ => Panic
      end
  end.

Definition read_unsigned_varint_slow (at_ : Z) : WireReader Z :=
  varint_loop 32 MAX_VARINT_BYTES at_ MAX_VARINT_BYTES 0 0.

Definition read_unsigned_varlong_slow (at_ : Z) : WireReader Z :=
  varint_loop 64 MAX_VARLONG_BYTES at_ MAX_VARLONG_BYTES 0 0.

Definition read_unsigned_varint : WireReader Z := fun buf pos =>
  let at_ := Z.of_nat pos in
  match peek_word buf pos with
  | Some word =>
      let len := swar_len word in
      if (MAX_VARINT_BYTES <? len)%nat
      then Err (VarintTooLong (Z.of_nat MAX_VARINT_BYTES) at_)
      else (rd! bs := cur_take len in rd_ret (varint_bytes 32 0 0 bs)) buf pos
  | None => read_unsigned_varint_slow at_ buf pos
  end.

Definition read_unsigned_varlong : WireReader Z := fun buf pos =>
  let at_ := Z.of_nat pos in
  match peek_word buf pos with
  | Some word =>
      let len := swar_len word in
      if (len <=? 8)%nat
      then (rd! bs := cur_take len in rd_ret (varint_bytes 64 0 0 bs)) buf pos
      else read_unsigned_varlong_slow at_ buf pos
  | None => read_unsigned_varlong_slow at_ buf pos
  end.

(** [(raw >> 1).cast_signed() ^ -(raw & 1).cast_signed()]. *)
Definition unzigzag (raw : Z) : Z := Z.lxor (Z.shiftr raw 1) (- Z.land raw 1).

Definition read_varint : WireReader Z := rd! raw := read_unsigned_varint in rd_ret (unzigzag raw).
Definition read_varlong : WireReader Z := rd! raw := read_unsigned_varlong in rd_ret (unzigzag raw).

(** [loop { byte = v & 0x7F; v >>= 7; ... }]: a 64-bit value has at most ten
    groups, which is the fuel. *)
Fixpoint put_varint_loop (fuel : nat) (buf : bytes) (v : Z) : bytes :=
  match fuel with
  | O => buf
  | S fuel =>
      let byte := Z.land v 127 in
      let v := Z.shiftr v 7 in
      if v =? 0 then buf ++ [byte] else put_varint_loop fuel (buf ++ [Z.lor byte 128]) v
  end.

Definition put_unsigned_varint (buf : bytes) (v : Z) : bytes := put_varint_loop MAX_VARINT_BYTES buf v.
Definition put_unsigned_varlong (buf : bytes) (v : Z) : bytes := put_varint_loop MAX_VARLONG_BYTES buf v.

(** [v.wrapping_shl(1).cast_unsigned() ^ (v >> (N - 1)).cast_unsigned()]. *)
Definition zigzag (bits : Z) (v : Z) : Z :=
  Z.lxor (Z.land (Z.shiftl v 1) (Z.ones bits)) (Z.land (Z.shiftr v (bits - 1)) (Z.ones bits)).

Definition put_varint (buf : bytes) (v : Z) : bytes := put_unsigned_varint buf (zigzag 32 v).
Definition put_varlong (buf : bytes) (v : Z) : bytes := put_unsigned_varlong buf (zigzag 64 v).

(** ** Compact forms ([flex.rs]) *)

Definition read_compact_len : WireReader (option nat) :=
  rd! at_ := position in
  rd! raw := read_unsigned_varint in
  if raw =? 0 then rd_ret None
  else
    rd! room := cur_remaining in
    if Z.of_nat room <? raw - 1
    then cur_fail (LengthOutOfBounds (raw - 1) (Z.of_nat room) at_)
    else rd_ret (Some (Z.to_nat (raw - 1))).

Definition read_compact_nullable_string : WireReader (option string) :=
  rd! len := read_compact_len in
  match len with
  | None => rd_ret None
  | Some len =>
      rd! at_ := position in
      rd! raw := cur_take len in
      wire_str at_ raw
  end.

(** [.ok_or(DecodeError::UnexpectedNull { at })]. *)
Definition not_null {A} (at_ : Z) (v : option A) : WireReader A :=
  match v with Some a => rd_ret a | None => cur_fail (UnexpectedNull at_) end.

Definition read_compact_string : WireReader string :=
  rd! at_ := position in
  rd! s := read_compact_nullable_string in
  not_null at_ s.

Definition read_compact_nullable_bytes : WireReader (option bytes) :=
  rd! len := read_compact_len in
  match len with
  | None => rd_ret None
  | Some len => rd! raw := cur_take len in rd_ret (Some raw)
  end.

Definition read_compact_array_len : WireReader (option nat) := read_compact_len.

Definition read_nullable_string (flexible : bool) : WireReader (option string) :=
  if flexible then read_compact_nullable_string else read_legacy_nullable_string.

Definition read_string (flexible : bool) : WireReader string :=
  rd! at_ := position in
  rd! s := read_nullable_string flexible in
  not_null at_ s.

Definition read_bytes (flexible : bool) : WireReader bytes :=
  if flexible then
    rd! at_ := position in
    rd! b := read_compact_nullable_bytes in
    not_null at_ b
  else
    rd! max := cur_remaining in
    read_length_prefixed (Z.of_nat max).

Definition read_array_len (flexible : bool) : WireReader (option nat) :=
  if flexible then read_compact_array_len else read_legacy_array_len.

(** [put_compact_len]: the length plus one, at most [u32::MAX]. *)
Definition put_compact_len (buf : bytes) (len : option nat) : bytes :=
  match len with
  | None => put_unsigned_varint buf 0
  | Some len => put_unsigned_varint buf (Z.min (Z.of_nat len + 1) u32_max)
  end.

Definition put_compact_nullable_bytes (buf : bytes) (value : option bytes) : bytes :=
  match value with
  | None => put_compact_len buf None
  | Some b => put_compact_len buf (Some (length b)) ++ b
  end.

Definition put_compact_nullable_string (buf : bytes) (value : option string) : bytes :=
  match value with
  | None => put_compact_len buf None
  | Some s => put_compact_len buf (Some (length (as_bytes s))) ++ as_bytes s
  end.

Definition put_compact_string (buf : bytes) (value : string) : bytes :=
  put_compact_nullable_string buf (Some value).

Definition put_compact_array_len (buf : bytes) (count : option nat) : bytes :=
  put_compact_len buf count.

Definition put_bytes (buf : bytes) (flexible : bool) (value : bytes) : bytes :=
  if flexible then put_compact_nullable_bytes buf (Some value)
  else put_i32 buf (clamp i32_max (length value)) ++ value.

Definition put_nullable_string (buf : bytes) (flexible : bool) (value : option string) : bytes :=
  if flexible then put_compact_nullable_string buf value else put_legacy_nullable_string buf value.

Definition put_string (buf : bytes) (flexible : bool) (value : string) : bytes :=
  if flexible then put_compact_nullable_string buf (Some value)
  else put_legacy_nullable_string buf (Some value).

Definition put_array_len (buf : bytes) (flexible : bool) (count : option nat) : bytes :=
  if flexible then put_compact_array_len buf count
  else match count with
       | None => put_i32 buf (-1)
       | Some n => put_i32 buf (clamp i32_max n)
       end.

Record RawTaggedField : Type := mkRawTaggedField { tf_tag : Z; tf_data : bytes }.
Record TaggedFields : Type := mkTaggedFields { unknown : list RawTaggedField }.

Definition read_tagged_field : WireReader RawTaggedField :=
  rd! tag := read_unsigned_varint in
  rd! at_ := position in
  rd! size := read_unsigned_varint in
  rd! room := cur_remaining in
  if Z.of_nat room <? size then cur_fail (LengthOutOfBounds size (Z.of_nat room) at_)
  else rd! data := cur_take (Z.to_nat size) in rd_ret (mkRawTaggedField tag data).

Definition read_tagged_fields : WireReader TaggedFields :=
  rd! count := read_unsigned_varint in
  rd! room := cur_remaining in
  rd! at_ := position in
  if Z.of_nat room <? count then cur_fail (LengthOutOfBounds count (Z.of_nat room) at_)
  else rd! fields := rd_times (Z.to_nat count) read_tagged_field in rd_ret (mkTaggedFields fields).

Definition put_tagged_field (buf : bytes) (field : RawTaggedField) : bytes :=
  put_unsigned_varint (put_unsigned_varint buf (tf_tag field)) (clamp u32_max (length (tf_data field)))
  ++ tf_data field.

Definition put_tagged_fields (buf : bytes) (fields : TaggedFields) : bytes :=
  foldl put_tagged_field (put_unsigned_varint buf (clamp u32_max (length (unknown fields))))
    (unknown fields).
