(* ===== verification/WireProps.v ===== *)
(** * WireProps: the wire primitives are correct

    The word-at-a-time varint path is the byte loop; every primitive reads
    back what its writer emits; and no length off the wire exceeds the bytes
    that could hold it. *)

From stdpp Require Import base tactics list numbers strings.
From Stdlib Require Import ZArith Lia.
From S2P Require Import Prelude Bytes Wire.

Open Scope Z_scope.

(** ** Where a varint ends *)

(** The bytes up to and including the first with its top bit clear. *)
Fixpoint stop_len (bs : bytes) : option nat :=
  match bs with
  | [] => None
  | b :: bs => if Z.land b 128 =? 0 then Some 1%nat else S <$> stop_len bs
  end.

Lemma land_128 b : (Z.land b 128 =? 0) = negb (Z.testbit b 7).
Proof.
  assert (Z.testbit (Z.land b 128) 7 = Z.testbit b 7) as H7.
  { rewrite Z.land_spec. change (Z.testbit 128 7) with true. by rewrite andb_true_r. }
  destruct (Z.testbit b 7) eqn:Hb; simpl.
  - apply Z.eqb_neq. intros H0. rewrite H0 in H7. by rewrite Z.bits_0 in H7.
  - apply Z.eqb_eq, Z.bits_inj'. intros k Hk. rewrite Z.land_spec, Z.bits_0.
    change 128 with (2 ^ 7). rewrite Z.pow2_bits_eqb by lia.
    destruct (7 =? k) eqn:H; [|by rewrite andb_false_r].
    apply Z.eqb_eq in H as <-. by rewrite Hb.
Qed.

Lemma stop_len_bounds l n : stop_len l = Some n -> (1 <= n <= length l)%nat.
Proof.
  revert n. induction l as [|b l IH]; simpl; intros n; [done|].
  destruct (Z.land b 128 =? 0); [intros [= <-]; lia|].
  destruct (stop_len l); simpl; [|done]. intros [= <-]. specialize (IH _ eq_refl). lia.
Qed.

Lemma stop_len_app l l' n : stop_len l = Some n -> stop_len (l ++ l') = Some n.
Proof.
  revert n. induction l as [|b l IH]; simpl; intros n; [done|].
  destruct (Z.land b 128 =? 0); [done|]. destruct (stop_len l) as [m|]; [|done].
  intros [= <-]. by rewrite (IH _ eq_refl).
Qed.

Lemma stop_len_take l m n : stop_len l = Some n -> (n <= m)%nat -> stop_len (take m l) = Some n.
Proof.
  revert m n. induction l as [|b l IH]; intros [|m] n Hs Hm; simpl in *; try done.
  - pose proof (stop_len_bounds (b :: l) n Hs). lia.
  - destruct (Z.land b 128 =? 0); [done|]. destruct (stop_len l) as [k|]; [|done].
    simpl in Hs. injection Hs as <-. by rewrite (IH m k) by (done || lia).
Qed.

(** The byte before the stop are all continuations, the stop is not. *)
Lemma stop_len_bits l n :
  stop_len l = Some n ->
  (forall i b, l !! i = Some b -> (S i < n)%nat -> Z.testbit b 7 = true) /\
  (forall b, l !! Nat.pred n = Some b -> Z.testbit b 7 = false).
Proof.
  revert n. induction l as [|b l IH]; simpl; intros n; [done|]. rewrite land_128.
  destruct (Z.testbit b 7) eqn:Hb; simpl.
  - destruct (stop_len l) as [k|] eqn:Hk; [|done]. intros [= <-].
    pose proof (stop_len_bounds _ _ Hk). destruct (IH _ eq_refl) as [H1 H2]. split.
    + intros [|i] c; simpl; [by intros [= <-] _|]. intros Hc Hi. apply (H1 i); [done|lia].
    + destruct k; [lia|]. apply H2.
  - intros [= <-]. split; [intros; lia|]. simpl. by intros ? [= <-].
Qed.

Lemma stop_len_none_bits l i b : stop_len l = None -> l !! i = Some b -> Z.testbit b 7 = true.
Proof.
  revert i. induction l as [|c l IH]; simpl; intros i; [done|]. rewrite land_128.
  destruct (Z.testbit c 7) eqn:Hb; simpl; [|done].
  destruct (stop_len l); [done|]. intros _. destruct i; simpl; [by intros [= <-]|]. by apply IH.
Qed.

(** ** The byte loop *)

Lemma cur_take_reads n bs : length bs = n -> reads (cur_take n) bs bs.
Proof.
  intros <- pre post. unfold cur_take, remaining. rewrite !length_app.
  rewrite (proj2 (Nat.ltb_ge _ _)) by lia.
  by rewrite drop_app_length, take_app_length.
Qed.

Lemma cur_take_Ok n buf at_ :
  (n <= length buf - at_)%nat -> cur_take n buf at_ = Ok (take n (drop at_ buf), (at_ + n)%nat).
Proof. intros H. unfold cur_take, remaining. by rewrite (proj2 (Nat.ltb_ge _ _)). Qed.

Lemma drop_cons_S {A} (l : list A) n x t : drop n l = x :: t -> drop (S n) l = t.
Proof. intros H. replace (S n) with (n + 1)%nat by lia. rewrite <-drop_drop, H. done. Qed.

Lemma drop_cons_length {A} (l : list A) n x t : drop n l = x :: t -> (1 <= length l - n)%nat.
Proof. intros H. pose proof (f_equal length H) as H1. rewrite length_drop in H1. simpl in H1. lia. Qed.

Lemma varint_loop_byte bits max at_ fuel i value buf pos b t :
  drop pos buf = b :: t ->
  varint_loop bits max at_ (S fuel) i value buf pos =
  (if Z.land b 128 =? 0 then Ok (varint_or bits value i b, S pos)
   else varint_loop bits max at_ fuel (S i) (varint_or bits value i b) buf (S pos)).
Proof.
  intros H. cbn [varint_loop]. unfold rd_bind.
  rewrite cur_take_Ok by (eapply drop_cons_length; eauto). rewrite H.
  cbn [res_bind take]. replace (pos + 1)%nat with (S pos) by lia. by destruct (_ =? 0).
Qed.

Lemma varint_loop_stop bits max at_ fuel i value buf pos n :
  stop_len (drop pos buf) = Some n -> (n <= fuel)%nat ->
  varint_loop bits max at_ fuel i value buf pos =
  Ok (varint_bytes bits i value (take n (drop pos buf)), (pos + n)%nat).
Proof.
  revert i value pos n. induction fuel as [|fuel IH]; intros i value pos n Hs Hn.
  { apply stop_len_bounds in Hs. lia. }
  destruct (drop pos buf) as [|b t] eqn:Hd; [done|]. rewrite (varint_loop_byte _ _ _ _ _ _ _ _ b t) by done.
  simpl in Hs. destruct (Z.land b 128 =? 0).
  - injection Hs as <-. simpl. do 2 f_equal. lia.
  - destruct (stop_len t) as [k|] eqn:Hk; [|done]. injection Hs as <-.
    apply drop_cons_S in Hd as Ht. rewrite (IH _ _ _ k) by (rewrite ?Ht; done || lia).
    rewrite Ht. simpl. do 2 f_equal. lia.
Qed.

Lemma varint_loop_long bits max at_ fuel i value buf pos :
  (fuel <= length buf - pos)%nat -> stop_len (take fuel (drop pos buf)) = None ->
  varint_loop bits max at_ fuel i value buf pos = Err (VarintTooLong (Z.of_nat max) at_).
Proof.
  revert i value pos. induction fuel as [|fuel IH]; intros i value pos Hl Hs; [done|].
  destruct (drop pos buf) as [|b t] eqn:Hd.
  { pose proof (f_equal length Hd) as H. rewrite length_drop in H. simpl in H. lia. }
  rewrite (varint_loop_byte _ _ _ _ _ _ _ _ b t) by done. simpl in Hs.
  destruct (Z.land b 128 =? 0); [done|]. apply drop_cons_S in Hd as Ht.
  apply IH; [lia|]. rewrite Ht. by destruct (stop_len (take fuel t)).
Qed.

(** ** The word path *)

Lemma testbit_low8 b r k : is_byte b -> 0 <= k < 8 -> Z.testbit (b + 256 * r) k = Z.testbit b k.
Proof.
  intros Hb Hk. unfold is_byte, u8_max in Hb.
  rewrite <-(Z.mod_pow2_bits_low (b + 256 * r) 8) by lia. f_equal.
  change (2 ^ 8) with 256. rewrite Z.mul_comm, Z.mod_add, Z.mod_small by lia. done.
Qed.

Lemma testbit_high8 b r k :
  is_byte b -> 0 <= k -> Z.testbit (b + 256 * r) (8 + k) = Z.testbit r k.
Proof.
  intros Hb Hk. unfold is_byte, u8_max in Hb. rewrite (Z.add_comm 8), <-Z.div_pow2_bits by lia.
  f_equal. change (2 ^ 8) with 256. rewrite Z.mul_comm, Z.div_add, Z.div_small by lia. done.
Qed.

Lemma testbit_from_le l i b k :
  Forall is_byte (take (S i) l) -> l !! i = Some b -> 0 <= k < 8 ->
  Z.testbit (from_le l) (8 * Z.of_nat i + k) = Z.testbit b k.
Proof.
  revert i. induction l as [|c l IH]; intros i Hl Hb Hk; [done|].
  rewrite firstn_cons in Hl. apply Forall_cons in Hl as [Hc Hl].
  destruct i as [|i]; cbn [from_le].
  - injection Hb as ->. rewrite Z.mul_0_r. by apply testbit_low8.
  - replace (8 * Z.of_nat (S i) + k) with (8 + (8 * Z.of_nat i + k)) by lia.
    rewrite testbit_high8 by (done || lia). by apply IH.
Qed.

(** The stop word: bit seven of every byte, inverted, and nothing else. *)
Definition stops_of (word : Z) : Z := Z.land (Z.lxor word u64_max) STOP_BITS.

Lemma stops_testbit word k :
  0 <= k < 64 -> Z.testbit (stops_of word) k = (k mod 8 =? 7) && negb (Z.testbit word k).
Proof.
  intros Hk. unfold stops_of. rewrite Z.land_spec, Z.lxor_spec.
  assert (Z.testbit u64_max k = true) as ->.
  { change u64_max with (Z.ones 64). by apply Z.ones_spec_low. }
  assert (Z.testbit STOP_BITS k = (k mod 8 =? 7)) as ->.
  { assert (forallb (fun k => eqb (Z.testbit STOP_BITS k) (k mod 8 =? 7)) (seqZ 0 64) = true) as H
      by (vm_compute; reflexivity).
    rewrite forallb_forall in H. apply eqb_prop, H. apply list_elem_of_In, elem_of_seqZ. lia. }
  rewrite xorb_true_r. apply andb_comm.
Qed.

Lemma trailing_zeros_byte fuel i word :
  (i < 8)%nat ->
  trailing_zeros_from (8 + fuel) (8 * Z.of_nat i) (stops_of word) =
  (if Z.testbit word (8 * Z.of_nat i + 7)
   then trailing_zeros_from fuel (8 * Z.of_nat (S i)) (stops_of word)
   else 8 * Z.of_nat i + 7).
Proof.
  intros Hi.
  assert (forall j, 0 <= j < 8 ->
    Z.testbit (stops_of word) (8 * Z.of_nat i + j) =
    (j =? 7) && negb (Z.testbit word (8 * Z.of_nat i + j))) as Hb.
  { intros j Hj. rewrite stops_testbit by lia. f_equal. f_equal.
    rewrite Z.mul_comm, Z.add_comm, Z.mod_add, Z.mod_small by lia. done. }
  cbn [Nat.add trailing_zeros_from]. set (p := 8 * Z.of_nat i) in *.
  rewrite <-!Z.add_assoc. rewrite <-(Z.add_0_r p) at 1.
  rewrite !Hb by lia. simpl. replace (8 * Z.of_nat (S i)) with (p + 8) by lia.
  change (1 + (1 + (1 + (1 + (1 + (1 + 1)))))) with 7. by destruct (Z.testbit word (p + 7)).
Qed.

(** From byte [i] on, the search finds the first stop byte. *)
Lemma trailing_zeros_skip fuel i n word :
  (i + n <= 8)%nat ->
  (forall j, (i <= j < i + n)%nat -> Z.testbit word (8 * Z.of_nat j + 7) = true) ->
  trailing_zeros_from (8 * n + fuel) (8 * Z.of_nat i) (stops_of word) =
  trailing_zeros_from fuel (8 * Z.of_nat (i + n)) (stops_of word).
Proof.
  revert i. induction n as [|n IH]; intros i Hi Hc; [by rewrite Nat.add_0_r|].
  replace (8 * S n + fuel)%nat with (8 + (8 * n + fuel))%nat by lia.
  rewrite trailing_zeros_byte, Hc by lia. rewrite IH by (lia || (intros; apply Hc; lia)).
  do 2 f_equal. lia.
Qed.

Lemma swar_len_stop l n :
  length l = 8%nat -> stop_len l = Some n -> Forall is_byte (take n l) ->
  swar_len (from_le l) = n.
Proof.
  intros Hl Hn Hb. pose proof (stop_len_bounds _ _ Hn) as Hnb.
  destruct (stop_len_bits _ _ Hn) as [Hc Hs].
  assert (forall j b, (S j <= n)%nat -> l !! j = Some b ->
    Z.testbit (from_le l) (8 * Z.of_nat j + 7) = Z.testbit b 7) as Hbit.
  { intros j b Hj Hlk. apply testbit_from_le; [|done|lia].
    rewrite <-(Nat.min_l (S j) n), <-take_take by lia. by apply Forall_take. }
  assert (trailing_zeros (stops_of (from_le l)) = 8 * Z.of_nat (Nat.pred n) + 7) as Htz.
  { unfold trailing_zeros. change (trailing_zeros_from 64 0) with (trailing_zeros_from 64 (8 * Z.of_nat 0)).
    replace 64%nat with (8 * Nat.pred n + (8 + 8 * (8 - n)))%nat by lia.
    rewrite trailing_zeros_skip; [|lia|].
    - rewrite Nat.add_0_l, trailing_zeros_byte by lia.
      destruct (lookup_lt_is_Some_2 l (Nat.pred n)) as [b Hb']; [lia|].
      rewrite (Hbit _ b), (Hs b) by (done || lia). done.
    - intros j Hj. destruct (lookup_lt_is_Some_2 l j) as [b Hb']; [lia|].
      rewrite (Hbit _ b) by (done || lia). apply (Hc j); [done|lia]. }
  unfold swar_len. fold (stops_of (from_le l)). rewrite Htz.
  destruct (stops_of (from_le l) =? 0) eqn:H0.
  - apply Z.eqb_eq in H0. rewrite H0 in Htz. change (trailing_zeros 0) with 64 in Htz. lia.
  - rewrite Z.shiftr_div_pow2 by lia. change (2 ^ 3) with 8.
    rewrite Z.mul_comm, Z.add_comm, Z.div_add, Z.div_small by lia. lia.
Qed.

Lemma swar_len_none l :
  length l = 8%nat -> stop_len l = None -> Forall is_byte l -> swar_len (from_le l) = 9%nat.
Proof.
  intros Hl Hn Hb. unfold swar_len. fold (stops_of (from_le l)).
  rewrite (proj2 (Z.eqb_eq _ _)); [done|]. apply Z.bits_inj'. intros k Hk. rewrite Z.bits_0.
  destruct (Z_lt_dec k 64).
  - rewrite stops_testbit by lia. destruct (k mod 8 =? 7) eqn:H7; [|done].
    apply Z.eqb_eq in H7. pose proof (Z.div_mod k 8). pose proof (Z.div_pos k 8).
    assert (k / 8 < 8) by (apply Z.div_lt_upper_bound; lia).
    destruct (lookup_lt_is_Some_2 l (Z.to_nat (k / 8))) as [b Hlk]; [lia|].
    replace k with (8 * Z.of_nat (Z.to_nat (k / 8)) + 7) by lia.
    rewrite (testbit_from_le _ _ b) by (auto using Forall_take || lia).
    by rewrite (stop_len_none_bits _ _ _ Hn Hlk).
  - unfold stops_of. rewrite Z.land_spec. rewrite (Z.bits_above_log2 STOP_BITS k); [by rewrite andb_false_r|done|].
    change (Z.log2 STOP_BITS) with 63. lia.
Qed.

Lemma peek_word_Some buf pos word :
  peek_word buf pos = Some word ->
  word = from_le (take 8 (drop pos buf)) /\ length (take 8 (drop pos buf)) = 8%nat /\
  (8 <= length buf - pos)%nat.
Proof.
  unfold peek_word. destruct (Nat.leb_spec 8 (length (drop pos buf))) as [H|]; [|done].
  intros [= <-]. rewrite length_take. rewrite length_drop in *. split; [done|lia].
Qed.

(** A fast path that stops reads what the loop reads. *)
Lemma fast_stop bits max buf pos n :
  stop_len (drop pos buf) = Some n -> (n <= max)%nat ->
  (rd! bs := cur_take n in rd_ret (varint_bytes bits 0 0 bs)) buf pos =
  varint_loop bits max (Z.of_nat pos) max 0 0 buf pos.
Proof.
  intros Hs Hm. pose proof (stop_len_bounds _ _ Hs) as Hb. rewrite length_drop in Hb.
  rewrite (varint_loop_stop _ _ _ _ _ _ _ _ n) by done.
  unfold rd_bind. rewrite cur_take_Ok by lia. done.
Qed.

Lemma stop_len_take_None l m n : stop_len l = Some n -> (m < n)%nat -> stop_len (take m l) = None.
Proof.
  revert m n. induction l as [|b l IH]; intros [|m] n Hs Hm; simpl in *; try done.
  destruct (Z.land b 128 =? 0); [injection Hs; lia|]. destruct (stop_len l) as [k|]; [|done].
  simpl in Hs. injection Hs as <-. by rewrite (IH m k) by (done || lia).
Qed.

Lemma stop_len_take_inv l m n : stop_len (take m l) = Some n -> stop_len l = Some n /\ (n <= m)%nat.
Proof.
  intros H. split; [rewrite <-(take_drop m l); by apply stop_len_app|].
  apply stop_len_bounds in H. rewrite length_take in H. lia.
Qed.

(** Nothing in the first [m] bytes stops: then neither in fewer. *)
Lemma stop_len_take_None_le l m k :
  stop_len (take m l) = None -> (k <= m)%nat -> stop_len (take k l) = None.
Proof.
  intros H Hk. destruct (stop_len (take k l)) as [n|] eqn:E; [|done].
  apply stop_len_take_inv in E as [E ?]. by rewrite (stop_len_take l m n) in H by (done || lia).
Qed.

Lemma varint_fast_stop buf pos n :
  stop_len (drop pos buf) = Some n -> (n <= MAX_VARINT_BYTES)%nat ->
  Forall is_byte (take n (drop pos buf)) ->
  read_unsigned_varint buf pos = read_unsigned_varint_slow (Z.of_nat pos) buf pos.
Proof.
  intros Hs Hn Hb. unfold read_unsigned_varint, read_unsigned_varint_slow.
  destruct (peek_word buf pos) as [w|] eqn:Hw; [|done].
  apply peek_word_Some in Hw as (-> & Hl & _). unfold MAX_VARINT_BYTES in *.
  rewrite (swar_len_stop _ n); [|done|by apply stop_len_take; [|lia]|].
  - rewrite (proj2 (Nat.ltb_ge _ _)) by lia. by apply fast_stop.
  - by rewrite take_take, Nat.min_l by lia.
Qed.

Lemma varlong_fast_stop buf pos n :
  stop_len (drop pos buf) = Some n -> (n <= MAX_VARLONG_BYTES)%nat ->
  Forall is_byte (take n (drop pos buf)) ->
  read_unsigned_varlong buf pos = read_unsigned_varlong_slow (Z.of_nat pos) buf pos.
Proof.
  intros Hs Hn Hb. unfold read_unsigned_varlong, read_unsigned_varlong_slow.
  destruct (peek_word buf pos) as [w|] eqn:Hw; [|done].
  apply peek_word_Some in Hw as (-> & Hl & _).
  destruct (Nat.leb_spec n 8) as [Hn8|Hn8].
  - rewrite (swar_len_stop _ n); [|done|by apply stop_len_take|by rewrite take_take, Nat.min_l].
    rewrite (proj2 (Nat.leb_le _ _)) by lia. by apply fast_stop.
  - rewrite swar_len_none; [done..| |].
    + by apply stop_len_take_None with n.
    + rewrite <-(Nat.min_l 8 n), <-take_take by lia. by apply Forall_take.
Qed.

(** The word-at-a-time path is the byte loop: over any bytes and at any
    position, [read_unsigned_varint] and [read_unsigned_varlong] answer what
    their byte-at-a-time fallbacks answer, value, position and error alike. *)
Theorem varint_fast_path_equiv buf pos :
  Forall is_byte buf ->
  read_unsigned_varint buf pos = read_unsigned_varint_slow (Z.of_nat pos) buf pos /\
  read_unsigned_varlong buf pos = read_unsigned_varlong_slow (Z.of_nat pos) buf pos.
Proof.
  intros Hb. assert (forall n, Forall is_byte (take n (drop pos buf))) as Hd
    by (intros; by apply Forall_take, Forall_drop).
  split.
  - destruct (stop_len (take 5 (drop pos buf))) as [n|] eqn:Hs.
    + apply stop_len_take_inv in Hs as [Hs Hn]. by apply varint_fast_stop with n.
    + unfold read_unsigned_varint, read_unsigned_varint_slow.
      destruct (peek_word buf pos) as [w|] eqn:Hw; [|done].
      apply peek_word_Some in Hw as (-> & Hl & Hr).
      rewrite varint_loop_long by (done || (unfold MAX_VARINT_BYTES; lia)).
      destruct (stop_len (take 8 (drop pos buf))) as [n|] eqn:H8.
      * rewrite (swar_len_stop _ n) by auto using Forall_take.
        rewrite (proj2 (Nat.ltb_lt _ _)); [done|]. unfold MAX_VARINT_BYTES.
        destruct (Nat.leb_spec n 5); [|lia]. apply stop_len_take_inv in H8 as [H8 _].
        by rewrite (stop_len_take _ 5 n) in Hs by (done || lia).
      * by rewrite swar_len_none by auto.
  - destruct (stop_len (take 10 (drop pos buf))) as [n|] eqn:Hs.
    + apply stop_len_take_inv in Hs as [Hs Hn]. by apply varlong_fast_stop with n.
    + unfold read_unsigned_varlong. destruct (peek_word buf pos) as [w|] eqn:Hw; [|done].
      apply peek_word_Some in Hw as (-> & Hl & Hr).
      rewrite swar_len_none; auto. by apply stop_len_take_None_le with 10%nat; [|lia].
Qed.

Lemma varint_fast_path_equiv_witness :
  let buf := [172; 2; 255; 255; 255; 255; 255; 255; 255; 255] in
  read_unsigned_varint buf 0%nat = read_unsigned_varint_slow 0 buf 0%nat /\
  read_unsigned_varlong buf 0%nat = read_unsigned_varlong_slow 0 buf 0%nat.
Proof. apply (varint_fast_path_equiv _ 0%nat). repeat constructor; unfold is_byte, u8_max; lia. Defined.

(** ** Varint round trips *)

(** The bytes [put_varint_loop] appends. *)
Fixpoint varint_enc (fuel : nat) (v : Z) : bytes :=
  match fuel with
  | O => []
  | S fuel =>
      if Z.shiftr v 7 =? 0 then [Z.land v 127]
      else Z.lor (Z.land v 127) 128 :: varint_enc fuel (Z.shiftr v 7)
  end.

Lemma put_varint_loop_enc fuel buf v : put_varint_loop fuel buf v = buf ++ varint_enc fuel v.
Proof.
  revert buf v. induction fuel as [|fuel IH]; intros buf v; cbn [put_varint_loop varint_enc].
  - by rewrite app_nil_r.
  - destruct (_ =? 0); [done|]. by rewrite IH, <-app_assoc.
Qed.

Lemma land_127 v : 0 <= Z.land v 127 <= 127.
Proof.
  change 127 with (Z.ones 7) at 1 2. rewrite Z.land_ones by lia.
  pose proof (Z.mod_pos_bound v (2 ^ 7)). lia.
Qed.

Lemma cont_byte v :
  let b := Z.lor (Z.land v 127) 128 in
  is_byte b /\ Z.testbit b 7 = true /\ Z.land b 127 = Z.land v 127.
Proof.
  pose proof (land_127 v). assert (forall r, 0 <= r <= 127 ->
    is_byte (Z.lor r 128) /\ Z.testbit (Z.lor r 128) 7 = true /\ Z.land (Z.lor r 128) 127 = r) as Hr.
  { intros r Hr.
    assert (forallb (fun r => (Z.lor r 128 <=? 255) && (0 <=? Z.lor r 128) &&
      Z.testbit (Z.lor r 128) 7 && (Z.land (Z.lor r 128) 127 =? r)) (seqZ 0 128) = true) as Hall
      by (vm_compute; reflexivity).
    rewrite forallb_forall in Hall. specialize (Hall r). rewrite <-list_elem_of_In, elem_of_seqZ in Hall.
    specialize (Hall ltac:(lia)). unfold is_byte, u8_max. zbool. split; [lia|]. split; [done|lia]. }
  by apply Hr.
Qed.

Lemma shiftr7_range fuel v : 0 <= v < 2 ^ (7 * Z.of_nat (S fuel)) -> 0 <= Z.shiftr v 7 < 2 ^ (7 * Z.of_nat fuel).
Proof.
  intros Hv. rewrite Z.shiftr_div_pow2 by lia. split; [apply Z.div_pos; lia|].
  apply Z.div_lt_upper_bound; [lia|]. rewrite <-Z.pow_add_r by lia.
  replace (7 + 7 * Z.of_nat fuel) with (7 * Z.of_nat (S fuel)) by lia. lia.
Qed.

(** An encoding stops exactly at its last byte, and is all bytes. *)
Lemma varint_enc_stop fuel v :
  (0 < fuel)%nat -> 0 <= v < 2 ^ (7 * Z.of_nat fuel) ->
  stop_len (varint_enc fuel v) = Some (length (varint_enc fuel v)) /\
  Forall is_byte (varint_enc fuel v) /\ (length (varint_enc fuel v) <= fuel)%nat.
Proof.
  revert v. induction fuel as [|fuel IH]; intros v Hf Hv; [lia|]. cbn [varint_enc].
  pose proof (land_127 v). apply shiftr7_range in Hv.
  destruct (Z.shiftr v 7 =? 0) eqn:H0; cbn [stop_len length]; rewrite land_128.
  - rewrite Z.land_spec, andb_false_r. unfold is_byte, u8_max. split; [done|].
    split; [by apply Forall_singleton; lia|lia].
  - destruct (cont_byte v) as (Hb & -> & _). simpl negb.
    destruct fuel as [|fuel]; [cbn in *; lia|].
    destruct (IH (Z.shiftr v 7)) as (-> & Hall & Hlen); [lia|done|].
    split; [done|]. split; [by constructor|lia].
Qed.

(** What the loop accumulates over an encoding, bit by bit. *)
Lemma varint_or_group bits value i v w :
  0 <= bits -> Z.land w 127 = Z.land v 127 ->
  Z.lor (varint_or bits value i w)
    (Z.land (Z.shiftl (Z.shiftr v 7) (Z.of_nat (S i) * 7)) (Z.ones bits)) =
  Z.lor value (Z.land (Z.shiftl v (Z.of_nat i * 7)) (Z.ones bits)).
Proof.
  intros Hbits Hw. unfold varint_or. rewrite Hw, <-Z.lor_assoc, <-Z.land_lor_distr_l. do 2 f_equal.
  apply Z.bits_inj'. intros k Hk.
  rewrite Z.lor_spec, !Z.shiftl_spec, Z.land_spec by lia.
  change 127 with (Z.ones 7). destruct (Z_lt_dec (k - Z.of_nat i * 7) 0).
  { rewrite !(Z.testbit_neg_r _ (_ - _)) by lia. done. }
  destruct (Z_lt_dec (k - Z.of_nat i * 7) 7).
  - rewrite Z.ones_spec_low, andb_true_r, (Z.testbit_neg_r (Z.shiftr _ _)), orb_false_r by lia. done.
  - rewrite Z.ones_spec_high, andb_false_r, Z.shiftr_spec by lia. simpl. f_equal. lia.
Qed.

Lemma varint_bytes_enc bits fuel i value v :
  0 <= bits -> (0 < fuel)%nat -> 0 <= v < 2 ^ (7 * Z.of_nat fuel) ->
  varint_bytes bits i value (varint_enc fuel v) =
  Z.lor value (Z.land (Z.shiftl v (Z.of_nat i * 7)) (Z.ones bits)).
Proof.
  intros Hbits. revert i value v. induction fuel as [|fuel IH]; intros i value v Hf Hv; [lia|].
  cbn [varint_enc]. apply shiftr7_range in Hv.
  destruct (Z.shiftr v 7 =? 0) eqn:H0; cbn [varint_bytes].
  - rewrite <-(varint_or_group bits value i v (Z.land v 127)) by
      (done || by rewrite <-Z.land_assoc, Z.land_diag).
    apply Z.eqb_eq in H0. by rewrite H0, Z.shiftl_0_l, Z.land_0_l, Z.lor_0_r.
  - destruct fuel as [|fuel]; [cbn in *; zbool; lia|].
    rewrite IH by (done || lia). apply varint_or_group; [done|]. apply cont_byte.
Qed.

(** Reading an encoding in place. *)
Lemma reads_varint_loop bits max v :
  0 <= bits -> (0 < max)%nat -> 0 <= v < 2 ^ (7 * Z.of_nat max) -> v < 2 ^ bits ->
  forall pre post at_,
  varint_loop bits max at_ max 0 0 (pre ++ varint_enc max v ++ post) (length pre) =
  Ok (v, (length pre + length (varint_enc max v))%nat).
Proof.
  intros Hbits Hm Hv Hvb pre post at_. destruct (varint_enc_stop max v) as (Hs & _ & Hl); [done..|].
  rewrite (varint_loop_stop _ _ _ _ _ _ _ _ (length (varint_enc max v)));
    [|by rewrite drop_app_length; apply stop_len_app|done].
  rewrite drop_app_length, take_app_length, varint_bytes_enc by done.
  do 2 f_equal. rewrite Z.lor_0_l, Z.shiftl_0_r, Z.land_ones, Z.mod_small by lia. done.
Qed.

(** The bytes allowed hold the widest value. *)
Lemma varint_room :
  u32_max < 2 ^ (7 * Z.of_nat MAX_VARINT_BYTES) /\ u64_max < 2 ^ (7 * Z.of_nat MAX_VARLONG_BYTES) /\
  2 ^ 32 = u32_max + 1 /\ 2 ^ 64 = u64_max + 1.
Proof. vm_compute. done. Qed.

Lemma reads_unsigned_varint v :
  0 <= v <= u32_max -> reads read_unsigned_varint (varint_enc MAX_VARINT_BYTES v) v.
Proof.
  intros Hv pre post. destruct (varint_enc_stop MAX_VARINT_BYTES v) as (Hs & Hb & Hl);
    [apply Nat.lt_0_succ|pose proof varint_room; lia|].
  rewrite (varint_fast_stop _ _ (length (varint_enc MAX_VARINT_BYTES v)));
    [|by rewrite drop_app_length; apply stop_len_app|done|by rewrite drop_app_length, take_app_length].
  apply reads_varint_loop; [done|apply Nat.lt_0_succ|pose proof varint_room; lia..].
Qed.

Lemma reads_unsigned_varlong v :
  0 <= v <= u64_max -> reads read_unsigned_varlong (varint_enc MAX_VARLONG_BYTES v) v.
Proof.
  intros Hv pre post. destruct (varint_enc_stop MAX_VARLONG_BYTES v) as (Hs & Hb & Hl);
    [apply Nat.lt_0_succ|pose proof varint_room; lia|].
  rewrite (varlong_fast_stop _ _ (length (varint_enc MAX_VARLONG_BYTES v)));
    [|by rewrite drop_app_length; apply stop_len_app|done|by rewrite drop_app_length, take_app_length].
  apply reads_varint_loop; [done|apply Nat.lt_0_succ|pose proof varint_room; lia..].
Qed.

(** ** Zigzag *)

Lemma lxor_ones x n : 0 <= n -> 0 <= x < 2 ^ n -> Z.lxor x (Z.ones n) = 2 ^ n - 1 - x.
Proof.
  intros Hn Hx.
  assert (forall k, n <= k -> Z.testbit x k = false) as Hhi.
  { intros k Hk. rewrite <-(Z.mod_small x (2 ^ n)) by lia. apply Z.mod_pow2_bits_high. lia. }
  replace (2 ^ n - 1) with (Z.ones n) by (rewrite Z.ones_equiv; lia).
  rewrite Z.sub_nocarry_ldiff.
  - apply Z.bits_inj'. intros k Hk. rewrite Z.lxor_spec, Z.ldiff_spec.
    destruct (Z_lt_dec k n); [rewrite Z.ones_spec_low by lia; by destruct (Z.testbit x k)|].
    by rewrite Z.ones_spec_high, Hhi by lia.
  - apply Z.bits_inj'. intros k Hk. rewrite Z.ldiff_spec, Z.bits_0.
    destruct (Z_lt_dec k n); [rewrite Z.ones_spec_low by lia; by rewrite andb_false_r|].
    by rewrite Hhi by lia.
Qed.

Lemma zigzag_value bits v :
  0 < bits -> - 2 ^ (bits - 1) <= v < 2 ^ (bits - 1) ->
  zigzag bits v = if v <? 0 then -2 * v - 1 else 2 * v.
Proof.
  intros Hbits Hv. assert (2 ^ bits = 2 * 2 ^ (bits - 1)) as Hp
    by (rewrite <-Z.pow_succ_r by lia; f_equal; lia).
  unfold zigzag. rewrite !Z.land_ones, Z.shiftl_mul_pow2, Z.shiftr_div_pow2 by lia.
  change (2 ^ 1) with 2. destruct (Z.ltb_spec v 0) as [Hneg|Hpos].
  - replace (v / 2 ^ (bits - 1)) with (-1) by (apply (Z.div_unique _ _ _ (v + 2 ^ (bits - 1))); lia).
    replace ((v * 2) mod 2 ^ bits) with (v * 2 + 2 ^ bits) by (apply (Z.mod_unique _ _ (-1)); lia).
    replace (-1 mod 2 ^ bits) with (Z.ones bits)
      by (rewrite Z.ones_equiv; apply (Z.mod_unique _ _ (-1)); lia).
    rewrite lxor_ones by lia. lia.
  - rewrite (Z.div_small v), Z.mod_0_l, Z.lxor_0_r, Z.mod_small by lia. lia.
Qed.

Lemma unzigzag_value r : unzigzag (2 * r) = r /\ unzigzag (2 * r + 1) = - r - 1.
Proof.
  unfold unzigzag. rewrite !Z.shiftr_div_pow2 by lia. change (2 ^ 1) with 2. split.
  - rewrite Z.mul_comm, Z.div_mul by lia. replace (Z.land (r * 2) 1) with 0; [by rewrite Z.lxor_0_r|].
    change 1 with (Z.ones 1). rewrite Z.land_ones by lia. change (2 ^ 1) with 2. by rewrite Z.mod_mul.
  - rewrite (Z.mul_comm 2), Z.div_add_l by lia. change (1 / 2) with 0.
    replace (Z.land (r * 2 + 1) 1) with 1.
    + rewrite Z.add_0_r. change (-(1)) with (-1). rewrite Z.lxor_m1_r. unfold Z.lnot. lia.
    + change 1 with (Z.ones 1) at 3. rewrite Z.land_ones by lia. change (2 ^ 1) with 2.
      rewrite Z.add_comm, Z.mod_add by lia. done.
Qed.

Lemma zigzag_round_trip bits v :
  0 < bits -> - 2 ^ (bits - 1) <= v < 2 ^ (bits - 1) ->
  0 <= zigzag bits v < 2 ^ bits /\ unzigzag (zigzag bits v) = v.
Proof.
  intros Hbits Hv. rewrite zigzag_value by done.
  assert (2 ^ bits = 2 * 2 ^ (bits - 1)) as Hp by (rewrite <-Z.pow_succ_r by lia; f_equal; lia).
  destruct (Z.ltb_spec v 0) as [Hneg|Hpos]; (split; [lia|]).
  - replace (-2 * v - 1) with (2 * (- v - 1) + 1) by lia.
    rewrite (proj2 (unzigzag_value _)). lia.
  - apply unzigzag_value.
Qed.

(** What a signed reader returns. *)
Lemma reads_map {A B} (m : WireReader A) (f : A -> B) bs a :
  reads m bs a -> reads (rd! x := m in rd_ret (f x)) bs (f a).
Proof. intros H. eapply reads_check; [done|]. done. Qed.

(** A total writer: what it appends, and what a reader makes of it. *)
Definition puts {A} (put : bytes -> bytes) (m : WireReader A) (a : A) : Prop :=
  exists bs, (forall buf, put buf = buf ++ bs) /\ reads m bs a.

Lemma puts_unsigned_varint v :
  0 <= v <= u32_max -> puts (fun buf => put_unsigned_varint buf v) read_unsigned_varint v.
Proof.
  intros Hv. eexists. split; [intros; apply put_varint_loop_enc|by apply reads_unsigned_varint].
Qed.

Lemma puts_unsigned_varlong v :
  0 <= v <= u64_max -> puts (fun buf => put_unsigned_varlong buf v) read_unsigned_varlong v.
Proof.
  intros Hv. eexists. split; [intros; apply put_varint_loop_enc|by apply reads_unsigned_varlong].
Qed.

Lemma puts_varint v : fits_signed 4 v -> puts (fun buf => put_varint buf v) read_varint v.
Proof.
  intros Hv. destruct (zigzag_round_trip 32 v) as [Hr Hz]; [done|exact Hv|].
  destruct (puts_unsigned_varint (zigzag 32 v)) as (bs & Hp & Hbs);
    [pose proof varint_room; lia|].
  exists bs. split; [done|]. rewrite <-Hz. by apply (reads_map _ unzigzag).
Qed.

Lemma puts_varlong v : fits_signed 8 v -> puts (fun buf => put_varlong buf v) read_varlong v.
Proof.
  intros Hv. destruct (zigzag_round_trip 64 v) as [Hr Hz]; [done|exact Hv|].
  destruct (puts_unsigned_varlong (zigzag 64 v)) as (bs & Hp & Hbs);
    [pose proof varint_room; lia|].
  exists bs. split; [done|]. rewrite <-Hz. by apply (reads_map _ unzigzag).
Qed.

(** Every variable-length integer reads back: whatever stands before it
    and after it, a [u32], [u64], [i32] or [i64] that was put is what its
    reader returns, and the reader stops exactly past it. *)
Theorem varint_round_trip u32 u64 i32 i64 :
  0 <= u32 <= u32_max -> 0 <= u64 <= u64_max -> fits_signed 4 i32 -> fits_signed 8 i64 ->
  puts (fun buf => put_unsigned_varint buf u32) read_unsigned_varint u32 /\
  puts (fun buf => put_unsigned_varlong buf u64) read_unsigned_varlong u64 /\
  puts (fun buf => put_varint buf i32) read_varint i32 /\
  puts (fun buf => put_varlong buf i64) read_varlong i64.
Proof.
  auto using puts_unsigned_varint, puts_unsigned_varlong, puts_varint, puts_varlong.
Qed.

Lemma varint_round_trip_witness :
  put_varint [] (-300) = [215; 4] /\
  puts (fun buf => put_varint buf (-300)) read_varint (-300).
Proof.
  split; [vm_compute; reflexivity|].
  apply (varint_round_trip 0 0 (-300) 0); vm_compute; split; discriminate || reflexivity.
Defined.

(** ** Lengths, strings and byte strings

    A length is only read back where the bytes it counts follow it, so its
    round trip asks for [room] bytes after it. *)
Definition reads_room {A} (room : nat) (m : WireReader A) (bs : bytes) (a : A) : Prop :=
  forall pre post, (room <= length post)%nat ->
  m (pre ++ bs ++ post) (length pre) = Ok (a, (length pre + length bs)%nat).

Lemma reads_room_reads {A} (m : WireReader A) bs a room : reads m bs a -> reads_room room m bs a.
Proof. intros H pre post _. apply H. Qed.

Lemma reads_room_bind {A B} (m : WireReader A) (k : A -> WireReader B) bs1 bs2 a b :
  reads_room (length bs2) m bs1 a -> reads (k a) bs2 b -> reads (rd_bind m k) (bs1 ++ bs2) b.
Proof.
  intros Hm Hk pre post. unfold rd_bind. rewrite <-app_assoc, Hm by (rewrite length_app; lia).
  cbn [res_bind]. specialize (Hk (pre ++ bs1) post). rewrite <-app_assoc, length_app in Hk.
  rewrite Hk, length_app. do 2 f_equal. lia.
Qed.

Lemma reads_room_then {A B} room (m : WireReader A) (k : A -> WireReader B) bs a b :
  reads m bs a -> reads_room room (k a) [] b -> reads_room room (rd_bind m k) bs b.
Proof.
  intros Hm Hk pre post Hr. unfold rd_bind. rewrite Hm. cbn [res_bind].
  specialize (Hk (pre ++ bs) post Hr). rewrite <-app_assoc, length_app in Hk. simpl in Hk.
  by rewrite Hk, Nat.add_0_r.
Qed.

Lemma reads_room_remaining {A} room (k : nat -> WireReader A) bs a :
  (forall n, (room + length bs <= n)%nat -> reads_room room (k n) bs a) ->
  reads_room room (rd_bind cur_remaining k) bs a.
Proof.
  intros Hk pre post Hr. unfold rd_bind, cur_remaining, remaining. cbn [res_bind].
  apply Hk; [rewrite !length_app; lia|done].
Qed.

Lemma reads_room_position {A} room (k : Z -> WireReader A) bs a :
  (forall p, reads_room room (k p) bs a) -> reads_room room (rd_bind position k) bs a.
Proof. intros Hk pre post Hr. unfold rd_bind, position. cbn [res_bind]. by apply Hk. Qed.

Lemma reads_of_room {A} (m : WireReader A) bs a : reads_room 0 m bs a -> reads m bs a.
Proof. intros H pre post. apply H. lia. Qed.

Lemma reads_position {A} (k : Z -> WireReader A) bs a :
  (forall p, reads (k p) bs a) -> reads (rd_bind position k) bs a.
Proof. intros Hk pre post. unfold rd_bind, position. cbn [res_bind]. apply Hk. Qed.

Lemma reads_remaining {A} (k : nat -> WireReader A) bs a :
  (forall n, (length bs <= n)%nat -> reads (k n) bs a) -> reads (rd_bind cur_remaining k) bs a.
Proof.
  intros Hk. apply reads_of_room, reads_room_remaining. intros n Hn.
  apply reads_room_reads, Hk. lia.
Qed.

Lemma reads_be_signed n v (m := rd! b := cur_take n in rd_ret (from_be_signed n b)) :
  (0 < n)%nat -> fits_signed n v -> reads m (be_signed n v) v.
Proof.
  intros Hn Hv. rewrite <-(from_be_be_signed n v) at 2 by done. apply reads_map, cur_take_reads.
  apply be_bytes_length.
Qed.

Lemma wire_str_reads at_ s : is_str s -> reads (wire_str at_ (as_bytes s)) [] (Some s).
Proof. intros Hs. unfold wire_str. rewrite Hs, of_as_bytes. apply reads_ret. Qed.

Lemma reads_taken_str s :
  is_str s ->
  reads (rd! at_ := position in rd! raw := cur_take (length (as_bytes s)) in wire_str at_ raw)
    (as_bytes s) (Some s).
Proof.
  intros Hs. apply reads_position. intros p. rewrite <-(app_nil_r (as_bytes s)) at 2.
  eapply reads_bind; [by apply cur_take_reads|by apply wire_str_reads].
Qed.

Definition legacy_len_enc (bytes_ : nat) (len : nat) : bytes := be_signed bytes_ (Z.of_nat len).
Definition compact_len_enc (len : nat) : bytes := varint_enc MAX_VARINT_BYTES (Z.of_nat len + 1).

Lemma read_compact_len_None :
  reads read_compact_len (varint_enc MAX_VARINT_BYTES 0) None.
Proof.
  apply reads_position. intros p. eapply reads_check; [by apply reads_unsigned_varint|]. done.
Qed.

Lemma read_compact_len_Some len :
  Z.of_nat len < u32_max -> reads_room len read_compact_len (compact_len_enc len) (Some len).
Proof.
  intros Hl. apply reads_room_position. intros p.
  eapply reads_room_then; [apply reads_unsigned_varint; lia|].
  rewrite (proj2 (Z.eqb_neq _ _)) by lia. apply reads_room_remaining. intros n Hn. simpl in Hn.
  rewrite (proj2 (Z.ltb_ge _ _)) by lia. apply reads_room_reads.
  replace (Z.to_nat (Z.of_nat len + 1 - 1)) with len by lia. apply reads_ret.
Qed.

Lemma put_compact_len_Some buf len :
  Z.of_nat len < u32_max -> put_compact_len buf (Some len) = buf ++ compact_len_enc len.
Proof.
  intros Hl. unfold put_compact_len, put_unsigned_varint. rewrite Z.min_l by lia.
  apply put_varint_loop_enc.
Qed.

Lemma read_legacy_array_len_Some len :
  Z.of_nat len <= i32_max -> reads_room len read_legacy_array_len (legacy_len_enc 4 len) (Some len).
Proof.
  intros Hl. apply reads_room_position. intros p.
  eapply reads_room_then; [apply reads_be_signed; [lia|]|].
  { unfold fits_signed, i32_max in *. change (256 ^ Z.of_nat 4 / 2) with 2147483648. lia. }
  rewrite (proj2 (Z.eqb_neq _ _)), (proj2 (Z.ltb_ge _ _)) by lia.
  apply reads_room_remaining. intros n Hn. simpl in Hn.
  rewrite (proj2 (Z.ltb_ge _ _)) by lia. apply reads_room_reads. rewrite Nat2Z.id. apply reads_ret.
Qed.

(** The length a field may have in each encoding. *)
Definition len_fits (flexible : bool) (legacy_max : Z) (len : nat) : Prop :=
  if flexible then Z.of_nat len < u32_max else Z.of_nat len <= legacy_max.

Definition str_fits (flexible : bool) (s : string) : Prop :=
  is_str s /\ len_fits flexible i16_max (length (as_bytes s)).

Lemma puts_compact_string s :
  is_str s -> Z.of_nat (length (as_bytes s)) < u32_max ->
  puts (fun buf => put_compact_nullable_string buf (Some s)) read_compact_nullable_string (Some s).
Proof.
  intros Hs Hl. exists (compact_len_enc (length (as_bytes s)) ++ as_bytes s). split.
  - intros buf. unfold put_compact_nullable_string. by rewrite put_compact_len_Some, app_assoc.
  - eapply reads_room_bind; [by apply read_compact_len_Some|]. by apply reads_taken_str.
Qed.

Lemma puts_legacy_string s :
  is_str s -> Z.of_nat (length (as_bytes s)) <= i16_max ->
  puts (fun buf => put_legacy_nullable_string buf (Some s)) read_legacy_nullable_string (Some s).
Proof.
  intros Hs Hl. exists (legacy_len_enc 2 (length (as_bytes s)) ++ as_bytes s). split.
  - intros buf. unfold put_legacy_nullable_string, put_i16, clamp. by rewrite Z.min_l, app_assoc.
  - apply reads_position. intros p. eapply reads_bind; [apply reads_be_signed; [lia|]|].
    { unfold fits_signed, i16_max in *. change (256 ^ Z.of_nat 2 / 2) with 32768. lia. }
    rewrite (proj2 (Z.eqb_neq _ _)), (proj2 (Z.ltb_ge _ _)), Nat2Z.id by lia.
    by apply reads_taken_str.
Qed.

Lemma puts_null_string flexible :
  puts (fun buf => put_nullable_string buf flexible None) (read_nullable_string flexible) None.
Proof.
  destruct flexible; cbn [put_nullable_string read_nullable_string].
  - exists (varint_enc MAX_VARINT_BYTES 0). split; [intros; apply put_varint_loop_enc|].
    eapply reads_check; [apply read_compact_len_None|done].
  - exists (be_signed 2 (-1)). split; [done|]. apply reads_position. intros p.
    eapply reads_check; [apply reads_be_signed; [lia|by vm_compute]|]. done.
Qed.

Lemma puts_nullable_string flexible v :
  (forall s, v = Some s -> str_fits flexible s) ->
  puts (fun buf => put_nullable_string buf flexible v) (read_nullable_string flexible) v.
Proof.
  destruct v as [s|]; intros Hv; [|apply puts_null_string].
  destruct (Hv s eq_refl) as [Hs Hl]. destruct flexible.
  - by apply puts_compact_string.
  - by apply puts_legacy_string.
Qed.

Lemma reads_not_null {A} at_ (a : A) : reads (not_null at_ (Some a)) [] a.
Proof. apply reads_ret. Qed.

Lemma puts_string flexible s :
  str_fits flexible s -> puts (fun buf => put_string buf flexible s) (read_string flexible) s.
Proof.
  intros Hs. destruct (puts_nullable_string flexible (Some s)) as (bs & Hp & Hr).
  { by intros ? [= <-]. }
  exists bs. split; [by destruct flexible|]. apply reads_position. intros p.
  eapply reads_check; [done|]. done.
Qed.

Lemma reads_length_prefixed b max :
  Z.of_nat (length b) <= i32_max -> Z.of_nat (length b) <= max ->
  reads (read_length_prefixed max) (legacy_len_enc 4 (length b) ++ b) b.
Proof.
  intros Hl Hm. apply reads_position. intros p. eapply reads_bind; [apply reads_be_signed; [lia|]|].
  { unfold fits_signed, i32_max in *. change (256 ^ Z.of_nat 4 / 2) with 2147483648. lia. }
  rewrite !(proj2 (Z.ltb_ge _ _)), Nat2Z.id by lia. by apply cur_take_reads.
Qed.

Lemma puts_bytes flexible b :
  len_fits flexible i32_max (length b) -> puts (fun buf => put_bytes buf flexible b) (read_bytes flexible) b.
Proof.
  destruct flexible; cbn [len_fits put_bytes read_bytes]; intros Hl.
  - exists (compact_len_enc (length b) ++ b). split.
    + intros buf. cbn [put_compact_nullable_bytes]. by rewrite put_compact_len_Some, app_assoc.
    + apply reads_position. intros p. eapply (reads_check _ _ _ (Some b)); [|done].
      eapply reads_room_bind; [by apply read_compact_len_Some|]. by apply reads_map, cur_take_reads.
  - exists (legacy_len_enc 4 (length b) ++ b). split.
    + intros buf. unfold put_i32, clamp. by rewrite Z.min_l, app_assoc.
    + apply reads_remaining. intros n Hn. rewrite length_app in Hn.
      apply reads_length_prefixed; [done|lia].
Qed.

(** ** Tagged fields *)

Definition tag_wf (f : RawTaggedField) : Prop :=
  0 <= tf_tag f <= u32_max /\ Z.of_nat (length (tf_data f)) <= u32_max.

Definition tag_enc (f : RawTaggedField) : bytes :=
  varint_enc MAX_VARINT_BYTES (tf_tag f) ++
  varint_enc MAX_VARINT_BYTES (Z.of_nat (length (tf_data f))) ++ tf_data f.

Lemma put_tagged_field_enc buf f : tag_wf f -> put_tagged_field buf f = buf ++ tag_enc f.
Proof.
  intros [_ Hl]. unfold put_tagged_field, put_unsigned_varint, clamp, tag_enc.
  rewrite Z.min_l, !put_varint_loop_enc, <-!app_assoc by lia. done.
Qed.

Lemma reads_tagged_field f : tag_wf f -> reads read_tagged_field (tag_enc f) f.
Proof.
  intros [Ht Hl]. eapply reads_bind; [by apply reads_unsigned_varint|].
  apply reads_position. intros p.
  eapply reads_bind; [apply reads_unsigned_varint; lia|].
  apply reads_remaining. intros n Hn. rewrite (proj2 (Z.ltb_ge _ _)), Nat2Z.id by lia.
  rewrite <-(app_nil_r (tf_data f)) at 2. eapply reads_bind; [by apply cur_take_reads|].
  destruct f. apply reads_ret.
Qed.

Lemma varint_enc_nonempty fuel v : (1 <= length (varint_enc (S fuel) v))%nat.
Proof. cbn [varint_enc]. destruct (_ =? 0); cbn [length]; lia. Qed.

Lemma tag_enc_nonempty f : (1 <= length (tag_enc f))%nat.
Proof.
  unfold tag_enc. rewrite length_app. pose proof (varint_enc_nonempty 4 (tf_tag f)).
  unfold MAX_VARINT_BYTES. lia.
Qed.

Definition tags_enc (fs : list RawTaggedField) : bytes :=
  varint_enc MAX_VARINT_BYTES (Z.of_nat (length fs)) ++ concat (map tag_enc fs).

Lemma put_tagged_fields_enc buf fs :
  Forall tag_wf fs -> Z.of_nat (length fs) <= u32_max ->
  put_tagged_fields buf (mkTaggedFields fs) = buf ++ tags_enc fs.
Proof.
  intros Hw Hl. unfold put_tagged_fields, put_unsigned_varint, clamp, tags_enc. cbn [unknown].
  rewrite Z.min_l, put_varint_loop_enc, app_assoc by lia.
  generalize (buf ++ varint_enc MAX_VARINT_BYTES (Z.of_nat (length fs))). clear Hl.
  induction Hw as [|f fs Hf _ IH]; intros b; simpl; [by rewrite app_nil_r|].
  by rewrite put_tagged_field_enc, IH, app_assoc.
Qed.

Lemma reads_tagged_fields fs :
  Forall tag_wf fs -> Z.of_nat (length fs) <= u32_max ->
  reads read_tagged_fields (tags_enc fs) (mkTaggedFields fs).
Proof.
  intros Hw Hl. eapply reads_bind; [apply reads_unsigned_varint; lia|]. apply reads_remaining. intros n Hn.
  apply reads_position. intros p. assert (length fs <= n)%nat.
  { etrans; [|done]. clear. induction fs as [|f fs IH]; simpl; [lia|].
    rewrite length_app. pose proof (tag_enc_nonempty f). lia. }
  rewrite (proj2 (Z.ltb_ge _ _)), Nat2Z.id by lia. apply reads_map, reads_times.
  eapply Forall_impl; [done|]. apply reads_tagged_field.
Qed.

Lemma puts_tagged_fields fs :
  Forall tag_wf (unknown fs) -> Z.of_nat (length (unknown fs)) <= u32_max ->
  puts (fun buf => put_tagged_fields buf fs) read_tagged_fields fs.
Proof.
  intros Hw Hl. destruct fs as [fs]; cbn [unknown] in *. exists (tags_enc fs).
  split; [intros buf; by apply put_tagged_fields_enc|by apply reads_tagged_fields].
Qed.

(** The fields of every message read back in both encodings, the legacy
    fixed-width lengths and the compact ones: nullable strings, strings and
    byte strings within the encoding's length, and tagged fields, unknown tags
    included. *)
Theorem flex_round_trip flexible v s b fs :
  (forall s, v = Some s -> str_fits flexible s) -> str_fits flexible s ->
  len_fits flexible i32_max (length b) ->
  Forall tag_wf (unknown fs) -> Z.of_nat (length (unknown fs)) <= u32_max ->
  puts (fun buf => put_nullable_string buf flexible v) (read_nullable_string flexible) v /\
  puts (fun buf => put_string buf flexible s) (read_string flexible) s /\
  puts (fun buf => put_bytes buf flexible b) (read_bytes flexible) b /\
  puts (fun buf => put_tagged_fields buf fs) read_tagged_fields fs.
Proof. auto using puts_nullable_string, puts_string, puts_bytes, puts_tagged_fields. Qed.

Lemma flex_round_trip_witness :
  puts (fun buf => put_nullable_string buf true None) (read_nullable_string true) None /\
  puts (fun buf => put_string buf true "orders"%string) (read_string true) "orders"%string /\
  puts (fun buf => put_bytes buf true [1; 2; 3]) (read_bytes true) [1; 2; 3] /\
  puts (fun buf => put_tagged_fields buf (mkTaggedFields [mkRawTaggedField 7 [9; 9]]))
    read_tagged_fields (mkTaggedFields [mkRawTaggedField 7 [9; 9]]).
Proof.
  apply (flex_round_trip true None "orders"%string [1; 2; 3]); [done| | | |];
    try (repeat constructor; vm_compute; (reflexivity || (intros; discriminate))).
Defined.

(** ** Untrusted input *)

Create HintDb frame discriminated.

(** From a position inside the frame the reader moves forward inside the frame
    or refuses; it never panics. *)
Definition in_frame {A} (m : WireReader A) : Prop :=
  forall buf at_, (at_ <= length buf)%nat ->
  match m buf at_ with
  | Ok (_, at') => (at_ <= at' <= length buf)%nat
  | Err _ => True
  | Panic => False
  end.

Lemma in_frame_ret {A} (a : A) : in_frame (rd_ret a).
Proof. intros buf at_ H. cbn. lia. Qed.

Lemma in_frame_fail {A} e : in_frame (@cur_fail A e).
Proof. intros buf at_ H. done. Qed.

Lemma in_frame_position : in_frame position.
Proof. intros buf at_ H. cbn. lia. Qed.

Lemma in_frame_remaining : in_frame cur_remaining.
Proof. intros buf at_ H. cbn. lia. Qed.

Lemma in_frame_bind {A B} (m : WireReader A) (k : A -> WireReader B) :
  in_frame m -> (forall a, in_frame (k a)) -> in_frame (rd_bind m k).
Proof.
  intros Hm Hk buf at_ H. unfold rd_bind. specialize (Hm buf at_ H).
  destruct (m buf at_) as [[a at1]|e|]; cbn [res_bind]; [|done..].
  specialize (Hk a buf at1 ltac:(lia)). destruct (k a buf at1) as [[b at2]|e|]; [lia|done..].
Qed.

Lemma in_frame_if {A} (b : bool) (m1 m2 : WireReader A) :
  in_frame m1 -> in_frame m2 -> in_frame (if b then m1 else m2).
Proof. by destruct b. Qed.

Lemma in_frame_take n : in_frame (cur_take n).
Proof.
  intros buf at_ H. unfold cur_take, remaining.
  destruct (Nat.ltb_spec (length buf - at_) n); [done|]. lia.
Qed.

Lemma in_frame_times {A} n (m : WireReader A) : in_frame m -> in_frame (rd_times n m).
Proof.
  intros Hm. induction n; simpl; eauto using in_frame_ret, in_frame_bind.
Qed.

Ltac frame := repeat first
  [ progress intros | solve [auto 1 with frame] | apply in_frame_ret | apply in_frame_fail | apply in_frame_position
  | apply in_frame_remaining | apply in_frame_take | apply in_frame_bind | apply in_frame_if
  | apply in_frame_times | assumption
  | match goal with |- in_frame (match ?x with _ => _ end) => destruct x end ].

Lemma in_frame_varint_loop bits max at_ fuel i value : in_frame (varint_loop bits max at_ fuel i value).
Proof.
  revert i value. induction fuel as [|fuel IH]; intros i value buf pos H; [done|].
  destruct (drop pos buf) as [|b t] eqn:Hd.
  - cbn [varint_loop]. unfold rd_bind, cur_take, remaining.
    pose proof (f_equal length Hd) as Hl. rewrite length_drop in Hl. simpl in Hl.
    by rewrite (proj2 (Nat.ltb_lt _ _)) by lia.
  - rewrite (varint_loop_byte _ _ _ _ _ _ _ _ b t) by done. apply drop_cons_length in Hd.
    destruct (_ =? 0); [lia|].
    specialize (IH (S i) (varint_or bits value i b) buf (S pos) ltac:(lia)).
    destruct (varint_loop _ _ _ _ _ _ _ _) as [[? ?]| |]; [lia|done..].
Qed.

Lemma in_frame_fast bits n : in_frame (rd! bs := cur_take n in rd_ret (varint_bytes bits 0 0 bs)).
Proof. frame. Qed.

Lemma in_frame_varint : in_frame read_unsigned_varint.
Proof.
  intros buf pos H. unfold read_unsigned_varint.
  destruct (peek_word buf pos); [|by apply in_frame_varint_loop].
  destruct (_ <? _)%nat; [done|]. by apply in_frame_fast.
Qed.

Lemma in_frame_varlong : in_frame read_unsigned_varlong.
Proof.
  intros buf pos H. unfold read_unsigned_varlong.
  destruct (peek_word buf pos); [|by apply in_frame_varint_loop].
  destruct (_ <=? _)%nat; [by apply in_frame_fast|by apply in_frame_varint_loop].
Qed.
#[export] Hint Resolve in_frame_varlong in_frame_varint : frame.

Lemma in_frame_compact_len : in_frame read_compact_len.
Proof. unfold read_compact_len. frame. Qed.
#[export] Hint Resolve in_frame_compact_len : frame.

Lemma in_frame_wire_str at_ raw : in_frame (wire_str at_ raw).
Proof. unfold wire_str. frame. Qed.
#[export] Hint Resolve in_frame_wire_str : frame.

Lemma in_frame_nullable_string flexible : in_frame (read_nullable_string flexible).
Proof.
  unfold read_nullable_string, read_compact_nullable_string, read_legacy_nullable_string, read_i16.
  frame.
Qed.
#[export] Hint Resolve in_frame_nullable_string : frame.

Lemma in_frame_string flexible : in_frame (read_string flexible).
Proof. unfold read_string, not_null. frame. Qed.
#[export] Hint Resolve in_frame_string : frame.

Lemma in_frame_bytes flexible : in_frame (read_bytes flexible).
Proof.
  unfold read_bytes, read_compact_nullable_bytes, read_length_prefixed, read_i32, not_null.
  frame.
Qed.
#[export] Hint Resolve in_frame_bytes : frame.

Lemma in_frame_array_len flexible : in_frame (read_array_len flexible).
Proof.
  unfold read_array_len, read_compact_array_len, read_legacy_array_len, read_i32.
  frame.
Qed.
#[export] Hint Resolve in_frame_array_len : frame.

Lemma in_frame_tagged_fields : in_frame read_tagged_fields.
Proof. unfold read_tagged_fields, read_tagged_field. frame. Qed.
#[export] Hint Resolve in_frame_tagged_fields : frame.

(** A checked count leaves at least that many bytes. *)
Lemma compact_len_room buf at_ n at' :
  read_compact_len buf at_ = Ok (Some n, at') -> (n <= length buf - at')%nat.
Proof.
  unfold read_compact_len, rd_bind, position, cur_remaining, cur_fail, rd_ret. cbn [res_bind].
  intros ([raw p] & _ & H)%res_bind_Ok. destruct (raw =? 0) eqn:H0; [done|]. cbn [res_bind] in H.
  destruct (Z.ltb_spec (Z.of_nat (remaining buf p)) (raw - 1)); [done|].
  injection H as <- <-. unfold remaining in *. lia.
Qed.

Lemma legacy_array_len_room buf at_ n at' :
  read_legacy_array_len buf at_ = Ok (Some n, at') -> (n <= length buf - at')%nat.
Proof.
  unfold read_legacy_array_len, rd_bind, position, cur_remaining, cur_fail, rd_ret. cbn [res_bind].
  intros ([raw p] & _ & H)%res_bind_Ok. destruct (raw =? -1); [done|]. destruct (raw <? 0); [done|].
  cbn [res_bind] in H. destruct (Z.ltb_spec (Z.of_nat (remaining buf p)) raw); [done|].
  injection H as <- <-. unfold remaining in *. lia.
Qed.

(** A frame is untrusted, and no reader of it can be made to panic, to run
    past the frame or to move backwards; and an array count that is accepted
    never exceeds the bytes left to hold its elements, so a decoder may
    allocate for it. *)
Theorem wire_reads_in_frame flexible :
  in_frame read_varint /\ in_frame read_varlong /\
  in_frame (read_nullable_string flexible) /\ in_frame (read_string flexible) /\
  in_frame (read_bytes flexible) /\ in_frame (read_array_len flexible) /\
  in_frame read_tagged_fields /\
  (forall buf at_ n at', read_array_len flexible buf at_ = Ok (Some n, at') ->
     (n <= remaining buf at')%nat).
Proof.
  repeat match goal with |- _ /\ _ => split end; auto 1 with frame.
  - unfold read_varint. frame.
  - unfold read_varlong. frame.
  - intros buf at_ n at'. destruct flexible; cbn [read_array_len].
    + apply compact_len_room.
    + apply legacy_array_len_room.
Qed.
