(* ===== verification/Batch.v ===== *)
(** * Batch: record batches

    Models [oqueue-codec]'s [attributes.rs], [batch.rs], [records.rs] and
    [records/count.rs], the scalar checksum and its dispatch of
    [oqueue-checksum], and [oqueue-broker/src/ingest.rs]: what a produced batch
    is checked for before it is stored. *)

From stdpp Require Import base tactics list numbers strings.
From Stdlib Require Import ZArith Lia.
From S2P Require Import Prelude Bytes Types ErrorCodes Wire.

Open Scope Z_scope.

(** ** Attributes ([attributes.rs]) *)

Inductive Compression : Type := NoCompression | Gzip | Snappy | Lz4 | Zstd | UnknownCodec (code : Z).

#[export] Instance Compression_eq_dec : EqDecision Compression.
Proof. solve_decision. Defined.

(** [self.0 & 0b111]; no value of three bits fails [u8::try_from]. *)
Definition compression (attributes : Z) : Compression :=
  match Z.land attributes 7 with
  | 0 => NoCompression
  | 1 => Gzip
  | 2 => Snappy
  | 3 => Lz4
  | 4 => Zstd
  | other => UnknownCodec other
  end.

Definition is_log_append_time (attributes : Z) : bool := negb (Z.land attributes (Z.shiftl 1 3) =? 0).
Definition is_transactional (attributes : Z) : bool := negb (Z.land attributes (Z.shiftl 1 4) =? 0).
Definition is_control (attributes : Z) : bool := negb (Z.land attributes (Z.shiftl 1 5) =? 0).
Definition has_delete_horizon (attributes : Z) : bool := negb (Z.land attributes (Z.shiftl 1 6) =? 0).

Definition codec_bits (codec : Compression) : Z :=
  match codec with
  | NoCompression => 0 | Gzip => 1 | Snappy => 2 | Lz4 => 3 | Zstd => 4
  | UnknownCodec other => Z.land other 7
  end.

Definition with_compression (attributes : Z) (codec : Compression) : Z :=
  Z.lor (Z.land attributes (Z.lnot 7)) (codec_bits codec).

(** ** The batch header ([batch.rs]) *)

Definition BATCH_HEADER_LEN : nat := 61.
Definition CRC_COVERAGE_START : nat := 21.
Definition MAGIC_V2 : Z := 2.

Inductive BatchError : Type := BatchDecode (e : DecodeError) | WrongMagic (magic : Z).

Record BatchHeader : Type := mkBatchHeader {
  bh_base_offset : Z;
  bh_batch_length : Z;
  bh_partition_leader_epoch : Z;
  bh_crc : Z;
  bh_attributes : Z;
  bh_last_offset_delta : Z;
  bh_base_timestamp : Z;
  bh_max_timestamp : Z;
  bh_producer_id : Z;
  bh_producer_epoch : Z;
  bh_base_sequence : Z;
  bh_record_count : Z;
}.

(** [?] on a [DecodeError]. *)
Definition lift_batch {A} (m : WireReader A) : Reader BatchError A := fun buf at_ =>
  match m buf at_ with Ok r => Ok r | Err e => Err (BatchDecode e) | Panic => Panic end.

Definition batch_fail {A} (e : BatchError) : Reader BatchError A := fun _ _ => Err e.

Definition read_batch_header : Reader BatchError BatchHeader :=
  rd! base_offset := lift_batch read_i64 in
  rd! batch_length := lift_batch read_i32 in
  rd! partition_leader_epoch := lift_batch read_i32 in
  rd! magic := lift_batch read_i8 in
  if negb (magic =? MAGIC_V2) then batch_fail (WrongMagic magic)
  else
    rd! crc := lift_batch read_u32 in
    rd! attributes := lift_batch read_i16 in
    rd! last_offset_delta := lift_batch read_i32 in
    rd! base_timestamp := lift_batch read_i64 in
    rd! max_timestamp := lift_batch read_i64 in
    rd! producer_id := lift_batch read_i64 in
    rd! producer_epoch := lift_batch read_i16 in
    rd! base_sequence := lift_batch read_i32 in
    rd! record_count := lift_batch read_i32 in
    rd_ret (mkBatchHeader base_offset batch_length partition_leader_epoch crc attributes last_offset_delta
              base_timestamp max_timestamp producer_id producer_epoch base_sequence record_count).

Definition decode_batch_header (batch : bytes) : Result BatchError BatchHeader :=
  let? (header, _) := read_batch_header batch 0%nat in Ok header.

Definition encode_batch_header (out : bytes) (h : BatchHeader) : bytes :=
  let out := put_i64 out (bh_base_offset h) in
  let out := put_i32 out (bh_batch_length h) in
  let out := put_i32 out (bh_partition_leader_epoch h) in
  let out := put_i8 out MAGIC_V2 in
  let out := put_u32 out (bh_crc h) in
  let out := put_i16 out (bh_attributes h) in
  let out := put_i32 out (bh_last_offset_delta h) in
  let out := put_i64 out (bh_base_timestamp h) in
  let out := put_i64 out (bh_max_timestamp h) in
  let out := put_i64 out (bh_producer_id h) in
  let out := put_i16 out (bh_producer_epoch h) in
  let out := put_i32 out (bh_base_sequence h) in
  put_i32 out (bh_record_count h).

(** [usize::try_from(batch_length)] plus twelve; a [usize] holds any [i32] plus
    twelve. *)
Definition declared_end (batch_length : Z) : option nat :=
  if batch_length <? 0 then None else Some (Z.to_nat batch_length + 12)%nat.

Definition crc_coverage (batch : bytes) : Result BatchError bytes :=
  let? header := decode_batch_header batch in
  match declared_end (bh_batch_length header) with
  | None => Err (BatchDecode (LengthOutOfBounds (Z.abs (bh_batch_length header)) u64_max 8))
  | Some end_ =>
      if (length batch <? end_)%nat || (end_ <? BATCH_HEADER_LEN)%nat
      then Err (BatchDecode (UnexpectedEof (Z.of_nat end_) (Z.of_nat (length batch)) 8))
      else Ok (take (end_ - CRC_COVERAGE_START) (drop CRC_COVERAGE_START batch))
  end.

Definition stored_crc (batch : bytes) : Result BatchError Z :=
  let? header := decode_batch_header batch in Ok (bh_crc header).

(** The batch after the call: bytes 0 to 8 and 12 to 16 are replaced. *)
Definition rewrite_base_offset (batch : bytes) (base_offset partition_leader_epoch : Z) : Result BatchError bytes :=
  let? _ := decode_batch_header batch in
  Ok (be_signed 8 base_offset ++ take 4 (drop 8 batch) ++ be_signed 4 partition_leader_epoch ++ drop 16 batch).

(** ** Records ([records.rs]) *)

Inductive RecordsError : Type :=
| RecordsDecode (e : DecodeError)
| UnsupportedCodec (codec : Compression)
| Decompress (codec : Compression) (detail : string)
| DecompressedTooLarge (max : Z)
| RecordLengthMismatch (declared spanned : nat).

Record RecordView : Type := mkRecordView {
  rv_attributes : Z;
  rv_timestamp_delta : Z;
  rv_offset_delta : Z;
  rv_key : option bytes;
  rv_value : option bytes;
  rv_headers : list (bytes * option bytes);
}.

Definition lift_records {A} (m : WireReader A) : Reader RecordsError A := fun buf at_ =>
  match m buf at_ with Ok r => Ok r | Err e => Err (RecordsDecode e) | Panic => Panic end.

Definition records_fail {A} (e : RecordsError) : Reader RecordsError A := fun _ _ => Err e.

Definition read_sized : Reader RecordsError (option bytes) :=
  rd! at_ := lift_records position in
  rd! len := lift_records read_varint in
  if len =? -1 then rd_ret None
  else if len <? 0 then records_fail (RecordsDecode (NegativeLength len at_))
  else rd! b := lift_records (cur_take (Z.to_nat len)) in rd_ret (Some b).

Definition read_header : Reader RecordsError (bytes * option bytes) :=
  rd! hkey := read_sized in
  match hkey with
  | None => rd! at_ := lift_records position in records_fail (RecordsDecode (NegativeLength (-1) at_))
  | Some hkey => rd! hval := read_sized in rd_ret (hkey, hval)
  end.

(** The fields of a record; [declared] is the length of the body they fill. *)
Definition read_record_body (declared : nat) : Reader RecordsError RecordView :=
  rd! attributes := lift_records read_i8 in
  rd! timestamp_delta := lift_records read_varlong in
  rd! offset_delta := lift_records read_varint in
  rd! key := read_sized in
  rd! value := read_sized in
  rd! header_count := lift_records read_varint in
  if header_count <? 0
  then rd! at_ := lift_records position in records_fail (RecordsDecode (NegativeLength header_count at_))
  else
    rd! headers := rd_times (Z.to_nat header_count) read_header in
    rd! rest := lift_records cur_remaining in
    if negb (rest =? 0)%nat then records_fail (RecordLengthMismatch declared (declared - rest))
    else rd_ret (mkRecordView attributes timestamp_delta offset_delta key value headers).

Definition read_one_record : Reader RecordsError RecordView :=
  rd! declared := lift_records read_varint in
  if declared <? 0
  then rd! at_ := lift_records position in records_fail (RecordsDecode (NegativeLength declared at_))
  else
    rd! body := lift_records (cur_take (Z.to_nat declared)) in
    fun _ at_ => let? (record, _) := read_record_body (Z.to_nat declared) body 0%nat in Ok (record, at_).

(** An iterator over [blob]: where its cursor stands, and whether it failed.
    A failed iterator is never read again, so where its cursor stopped is not
    kept. *)
Record RecordIter : Type := mkRecordIter { ri_at : nat; ri_poisoned : bool }.

Definition iter_records : RecordIter := mkRecordIter 0 false.

Definition RecordIter_next (blob : bytes) (self : RecordIter) : option (Result RecordsError RecordView) * RecordIter :=
  if ri_poisoned self || (remaining blob (ri_at self) =? 0)%nat then (None, self)
  else match read_one_record blob (ri_at self) with
  | Ok (record, at_) => (Some (Ok record), mkRecordIter at_ false)
  | Err e => (Some (Err e), mkRecordIter (ri_at self) true)
  | Panic => (Some Panic, mkRecordIter (ri_at self) true)
  end.

(** What the iterator yields, at most [fuel] items. *)
Fixpoint collect_records (fuel : nat) (blob : bytes) (self : RecordIter) : list (Result RecordsError RecordView) :=
  match fuel with
  | O => []
  | S fuel =>
      match RecordIter_next blob self with
      | (None, _) => []
      | (Some item, self) => item :: collect_records fuel blob self
      end
  end.

(** ** Counting without reading ([records/count.rs]) *)

Definition MIN_RECORD_BODY_LEN : Z := 6.

Fixpoint count_loop (fuel : nat) (counted : Z) : Reader BatchError Z := fun records at_ =>
  if (remaining records at_ =? 0)%nat then Ok (counted, at_)
  else match fuel with
  | O => Panic
  | S fuel =>
      (rd! length_ := lift_batch read_varint in
       if length_ <? 0
       then batch_fail (BatchDecode (LengthOutOfBounds (Z.abs length_) (Z.of_nat (length records))
                                       (Z.of_nat (BATCH_HEADER_LEN + at_))))
       else if length_ <? MIN_RECORD_BODY_LEN
       then batch_fail (BatchDecode (RecordTooShort length_ MIN_RECORD_BODY_LEN (Z.of_nat (BATCH_HEADER_LEN + at_))))
       else
         rd! _ := lift_batch (cur_take (Z.to_nat length_)) in
         count_loop fuel (counted + 1)) records at_
  end.

(** The records of a batch, after its header. *)
Definition records_of (batch : bytes) : Result BatchError bytes :=
  let? coverage := crc_coverage batch in
  if (length coverage <? BATCH_HEADER_LEN - CRC_COVERAGE_START)%nat
  then Err (BatchDecode (UnexpectedEof (Z.of_nat BATCH_HEADER_LEN) (Z.of_nat (length batch)) (Z.of_nat BATCH_HEADER_LEN)))
  else Ok (drop (BATCH_HEADER_LEN - CRC_COVERAGE_START) coverage).

(** The loop takes at least a byte each time round, so a turn per byte is
    enough. *)
Definition count_records (batch : bytes) : Result BatchError Z :=
  let? records := records_of batch in
  let? (counted, _) := count_loop (length records) 0 records 0%nat in
  if u32_max <? counted
  then Err (BatchDecode (LengthOutOfBounds counted u32_max (Z.of_nat BATCH_HEADER_LEN)))
  else Ok counted.

(** ** The checksum ([oqueue-checksum/src/lib.rs]) *)

Definition CRC_POLY : Z := 2197175160. (* 0x82F6_3B78 *)

Definition crc_bit (crc : Z) : Z :=
  if Z.land crc 1 =? 1 then Z.lxor (Z.shiftr crc 1) CRC_POLY else Z.shiftr crc 1.

Definition crc_byte (crc byte : Z) : Z := Nat.iter 8 crc_bit (Z.lxor crc byte).

Definition scalar_crc32c (data : bytes) : Z := Z.lxor (foldl crc_byte u32_max data) u32_max.

(** The vectorised checksum is another crate's; which of the two a process runs
    is decided once, from its environment. *)
Class Checksum : Type := {
  force_scalar : bool;
  crc_fast_checksum : bytes -> Z;
}.

(** [Crc32Iscsi] is CRC-32C. *)
Class ChecksumLaws `{Checksum} : Prop :=
  crc_fast_spec : forall data, Forall is_byte data -> Z.land (crc_fast_checksum data) u32_max = scalar_crc32c data.

Definition crc32c `{Checksum} (data : bytes) : Z :=
  if force_scalar then scalar_crc32c data else Z.land (crc_fast_checksum data) u32_max.

(** ** What the broker checks of a batch ([ingest.rs]) *)

Record Verified : Type := mkVerified { vf_records : Z; vf_producer : option ProducerIdentity }.

Definition producer_identity (header : BatchHeader) : Result unit (option ProducerIdentity) :=
  if bh_producer_id header =? -1 then Ok None
  else match ProducerId_new (bh_producer_id header), ProducerEpoch_new (bh_producer_epoch header) with
  | Ok id, Ok epoch => Ok (Some (mkProducerIdentity id epoch (bh_base_sequence header)))
  | _, _ => Err tt
  end.

Definition checksum_holds `{Checksum} (batch : bytes) : bool :=
  match crc_coverage batch, stored_crc batch with
  | Ok coverage, Ok stored => crc32c coverage =? stored
  | _, _ => false
  end.

Definition verify `{Checksum} (batch : bytes) : Result Z Verified :=
  match decode_batch_header batch with
  | Err (WrongMagic _) => Err UNSUPPORTED_FOR_MESSAGE_FORMAT
  | Err _ => Err CORRUPT_MESSAGE
  | Panic => Panic
  | Ok header =>
      if bool_decide (declared_end (bh_batch_length header) <> Some (length batch)) then Err INVALID_RECORD
      else if negb (checksum_holds batch) then Err CORRUPT_MESSAGE
      else if bool_decide (compression (bh_attributes header) <> NoCompression) then Err UNSUPPORTED_COMPRESSION_TYPE
      else match count_records batch with
      | Err _ => Err INVALID_RECORD
      | Panic => Panic
      | Ok counted =>
          if counted =? 0 then Err INVALID_RECORD
          else if negb (bh_record_count header =? counted) || negb (bh_last_offset_delta header =? counted - 1)
          then Err INVALID_RECORD
          else match producer_identity header with
          | Err _ => Err INVALID_RECORD
          | Panic => Panic
          | Ok producer => Ok (mkVerified counted producer)
          end
      end
  end.
