(* ===== verification/BatchProps.v ===== *)
(** * BatchProps: record batches are checked, and stay checked

    Counting the records of a batch agrees with reading them; a batch the
    broker admits still verifies once its base offset is rewritten on the way
    out; a damaged byte is refused. *)

From stdpp Require Import base tactics list numbers strings.
From Stdlib Require Import ZArith Lia.
From S2P Require Import Prelude Bytes Types ErrorCodes Wire WireProps Batch.

Open Scope Z_scope.

(** ** Readers that take at least so many bytes *)

Definition takes {E A} (n : nat) (m : Reader E A) : Prop :=
  forall buf at_, (at_ <= length buf)%nat ->
  match m buf at_ with
  | Ok (_, at') => (at_ + n <= at' <= length buf)%nat
  | Err _ => True
  | Panic => False
  end.

Lemma takes_in_frame {A} (m : WireReader A) : in_frame m -> takes 0 m.
Proof. intros Hm buf at_ H. specialize (Hm buf at_ H). destruct (m buf at_) as [[? ?]| |]; [lia|done..]. Qed.

Lemma takes_le {E A} n n' (m : Reader E A) : takes n m -> (n' <= n)%nat -> takes n' m.
Proof. intros Hm Hle buf at_ H. specialize (Hm buf at_ H). destruct (m buf at_) as [[? ?]| |]; [lia|done..]. Qed.

Lemma takes_ret {E A} (a : A) : takes 0 (@rd_ret E A a).
Proof. intros buf at_ H. simpl. lia. Qed.

Lemma takes_bind {E A B} n1 n2 (m : Reader E A) (k : A -> Reader E B) :
  takes n1 m -> (forall a, takes n2 (k a)) -> takes (n1 + n2) (rd_bind m k).
Proof.
  intros Hm Hk buf at_ H. unfold rd_bind. specialize (Hm buf at_ H).
  destruct (m buf at_) as [[a at1]|e|]; simpl; [|done..]. specialize (Hk a buf at1 ltac:(lia)).
  destruct (k a buf at1) as [[b at2]|e|]; [lia|done..].
Qed.

Lemma takes_if {E A} n (b : bool) (m1 m2 : Reader E A) : takes n m1 -> takes n m2 -> takes n (if b then m1 else m2).
Proof. by destruct b. Qed.

Lemma takes_times {E A} n (m : Reader E A) : takes 0 m -> takes 0 (rd_times n m).
Proof.
  intros Hm. induction n as [|n IH]; simpl; [apply takes_ret|].
  apply (takes_bind 0 0); [done|]. intros a. apply (takes_bind 0 0); [done|]. intros l. apply takes_ret.
Qed.

Lemma takes_lift_batch {A} n (m : WireReader A) : takes n m -> takes n (lift_batch m).
Proof. intros Hm buf at_ H. specialize (Hm buf at_ H). unfold lift_batch. by destruct (m buf at_) as [[? ?]| |]. Qed.

Lemma takes_lift_records {A} n (m : WireReader A) : takes n m -> takes n (lift_records m).
Proof. intros Hm buf at_ H. specialize (Hm buf at_ H). unfold lift_records. by destruct (m buf at_) as [[? ?]| |]. Qed.

Lemma takes_take n : takes n (cur_take n).
Proof. intros buf at_ H. unfold cur_take, remaining. destruct (Nat.ltb_spec (length buf - at_) n); [done|]. lia. Qed.

Lemma takes_int {A} n (f : bytes -> A) : takes n (rd! b := cur_take n in @rd_ret DecodeError _ (f b)).
Proof. rewrite <-(Nat.add_0_r n) at 1. apply takes_bind; [apply takes_take|]. intros. apply takes_ret. Qed.

Lemma takes_varint_loop bits max at_ fuel i value : takes 1 (varint_loop bits max at_ fuel i value).
Proof.
  revert i value. induction fuel as [|fuel IH]; intros i value buf pos H; [done|].
  cbn [varint_loop]. unfold rd_bind, cur_take, remaining. destruct (Nat.ltb_spec (length buf - pos) 1); [done|].
  destruct (drop pos buf) as [|b t] eqn:Hd.
  { apply (f_equal length) in Hd. rewrite length_drop in Hd. simpl in Hd. lia. }
  simpl. destruct (_ =? 0); simpl; [lia|]. specialize (IH (S i) (varint_or bits value i b) buf (pos + 1)%nat ltac:(lia)).
  destruct (varint_loop _ _ _ _ _ _ _ _) as [[? ?]| |]; [lia|done..].
Qed.

Lemma swar_len_pos word : (1 <= swar_len word)%nat.
Proof. unfold swar_len. destruct (_ =? 0); lia. Qed.

Lemma takes_unsigned_varint : takes 1 read_unsigned_varint.
Proof.
  intros buf pos H. unfold read_unsigned_varint. destruct (peek_word buf pos) as [w|]; [|by apply takes_varint_loop].
  destruct (_ <? _)%nat; [done|].
  exact (takes_le _ 1 _ (takes_int (swar_len w) (varint_bytes 32 0 0)) (swar_len_pos w) buf pos H).
Qed.

Lemma takes_unsigned_varlong : takes 1 read_unsigned_varlong.
Proof.
  intros buf pos H. unfold read_unsigned_varlong. destruct (peek_word buf pos) as [w|]; [|by apply takes_varint_loop].
  destruct (_ <=? _)%nat; [|by apply takes_varint_loop].
  exact (takes_le _ 1 _ (takes_int (swar_len w) (varint_bytes 64 0 0)) (swar_len_pos w) buf pos H).
Qed.

Lemma takes_varint : takes 1 read_varint.
Proof. apply (takes_bind 1 0); [apply takes_unsigned_varint|]. intros. apply takes_ret. Qed.

Lemma takes_varlong : takes 1 read_varlong.
Proof. apply (takes_bind 1 0); [apply takes_unsigned_varlong|]. intros. apply takes_ret. Qed.

(** ** The shortest record *)

Lemma takes_records_fail {A} n e : takes n (@records_fail A e).
Proof. done. Qed.

Lemma takes_position {A} n (k : Z -> Reader RecordsError A) :
  (forall at_, takes n (k at_)) -> takes n (rd! at_ := lift_records position in k at_).
Proof. intros Hk. apply (takes_bind 0 n); [|done]. apply takes_lift_records, takes_in_frame, in_frame_position. Qed.

Lemma takes_sized : takes 1 read_sized.
Proof.
  apply takes_position. intros at_. apply (takes_bind 1 0); [apply takes_lift_records, takes_varint|]. intros len.
  apply takes_if; [apply takes_ret|]. apply takes_if; [apply takes_records_fail|].
  apply (takes_bind 0 0); [|intros; apply takes_ret]. apply takes_lift_records, (takes_le (Z.to_nat len)); [apply takes_take|lia].
Qed.

Lemma takes_header : takes 0 read_header.
Proof.
  apply (takes_bind 0 0); [apply (takes_le 1); [apply takes_sized|lia]|]. intros [hkey|].
  - apply (takes_bind 0 0); [apply (takes_le 1); [apply takes_sized|lia]|]. intros. apply takes_ret.
  - apply takes_position. intros. apply takes_records_fail.
Qed.

Lemma takes_body declared : takes 6 (read_record_body declared).
Proof.
  apply (takes_bind 1 5); [apply takes_lift_records, takes_int|]. intros attributes.
  apply (takes_bind 1 4); [apply takes_lift_records, takes_varlong|]. intros timestamp_delta.
  apply (takes_bind 1 3); [apply takes_lift_records, takes_varint|]. intros offset_delta.
  apply (takes_bind 1 2); [apply takes_sized|]. intros key. apply (takes_bind 1 1); [apply takes_sized|]. intros value.
  apply (takes_bind 1 0); [apply takes_lift_records, takes_varint|]. intros header_count.
  apply takes_if; [apply takes_position; intros; apply takes_records_fail|].
  apply (takes_bind 0 0); [apply takes_times, takes_header|]. intros headers.
  apply (takes_bind 0 0); [apply takes_lift_records, takes_in_frame, in_frame_remaining|]. intros rest.
  apply takes_if; [apply takes_records_fail|apply takes_ret].
Qed.

(** A record that reads is one the counter steps over, to the same place. *)
Lemma read_one_record_counted buf at_ record at' :
  (at_ <= length buf)%nat -> read_one_record buf at_ = Ok (record, at') ->
  (at_ < at' <= length buf)%nat /\
  exists declared at1, read_varint buf at_ = Ok (declared, at1) /\ MIN_RECORD_BODY_LEN <= declared /\
    exists body, cur_take (Z.to_nat declared) buf at1 = Ok (body, at').
Proof.
  intros Hat. unfold read_one_record, rd_bind at 1, lift_records at 1. pose proof (takes_varint buf at_ Hat) as Hv.
  destruct (read_varint buf at_) as [[declared at1]|e|]; simpl; [|done..].
  destruct (declared <? 0) eqn:Hneg; [done|]. unfold rd_bind, lift_records.
  pose proof (takes_take (Z.to_nat declared) buf at1 ltac:(lia)) as Ht.
  destruct (cur_take (Z.to_nat declared) buf at1) as [[body at2]|e|] eqn:Hc; simpl; [|done..].
  pose proof (takes_body (Z.to_nat declared) body 0%nat ltac:(lia)) as Hb.
  destruct (read_record_body _ body 0%nat) as [[r at3]|e|]; simpl; [|done..]. intros [= <- <-]. split; [lia|].
  exists declared, at1. split; [done|]. split; [|by exists body].
  unfold cur_take, remaining in Hc. destruct (_ <? _)%nat; [done|]. injection Hc as <- <-.
  rewrite length_take in Hb. unfold MIN_RECORD_BODY_LEN. apply Z.ltb_ge in Hneg. lia.
Qed.

Lemma read_one_record_no_panic buf at_ : (at_ <= length buf)%nat -> read_one_record buf at_ <> Panic.
Proof.
  intros Hat. unfold read_one_record, rd_bind at 1, lift_records at 1. pose proof (takes_varint buf at_ Hat) as Hv.
  destruct (read_varint buf at_) as [[declared at1]|e|]; simpl; [|done..].
  destruct (declared <? 0); [done|]. unfold rd_bind, lift_records.
  pose proof (takes_take (Z.to_nat declared) buf at1 ltac:(lia)) as Ht.
  destruct (cur_take (Z.to_nat declared) buf at1) as [[body at2]|e|]; simpl; [|done..].
  pose proof (takes_body (Z.to_nat declared) body 0%nat ltac:(lia)) as Hb.
  by destruct (read_record_body _ body 0%nat) as [[r at3]|e|].
Qed.

(** ** Counting agrees with reading *)

Definition is_ok {E A} (r : Result E A) : bool := match r with Ok _ => true | _ => false end.

Lemma count_loop_bounds fuel counted buf at_ :
  (at_ <= length buf)%nat -> (remaining buf at_ <= fuel)%nat ->
  match count_loop fuel counted buf at_ with
  | Ok (n, _) => counted <= n <= counted + Z.of_nat (remaining buf at_)
  | Err _ => True
  | Panic => False
  end.
Proof.
  revert counted at_. induction fuel as [|fuel IH]; intros counted at_ Hat Hf; simpl.
  - rewrite (proj2 (Nat.eqb_eq _ _)) by lia. lia.
  - destruct (Nat.eqb_spec (remaining buf at_) 0) as [|_]; [lia|]. unfold rd_bind, lift_batch.
    pose proof (takes_varint buf at_ Hat) as Hv. destruct (read_varint buf at_) as [[n at1]|e|]; simpl; [|done..].
    destruct (n <? 0); [done|]. destruct (n <? MIN_RECORD_BODY_LEN); [done|].
    pose proof (takes_take (Z.to_nat n) buf at1 ltac:(lia)) as Ht.
    destruct (cur_take (Z.to_nat n) buf at1) as [[body at2]|e|]; simpl; [|done..].
    specialize (IH (counted + 1) at2 ltac:(lia) ltac:(unfold remaining in *; lia)). unfold remaining in *.
    destruct (count_loop _ _ _ _) as [[? ?]| |]; [lia|done..].
Qed.

Lemma count_loop_collect fuel counted buf at_ :
  (at_ <= length buf)%nat -> (remaining buf at_ <= fuel)%nat ->
  let items := collect_records fuel buf (mkRecordIter at_ false) in
  (forallb is_ok items = true -> exists at', count_loop fuel counted buf at_ = Ok (counted + Z.of_nat (length items), at')) /\
  (forall n at', count_loop fuel counted buf at_ = Ok (n, at') -> counted + Z.of_nat (countb is_ok items) <= n).
Proof.
  revert counted at_. induction fuel as [|fuel IH]; intros counted at_ Hat Hf; simpl.
  { rewrite (proj2 (Nat.eqb_eq _ _)) by lia. split; [eexists; f_equal; f_equal; lia|]. intros n at' [= <- <-].
    unfold countb. simpl. lia. }
  unfold RecordIter_next. simpl. destruct (Nat.eqb_spec (remaining buf at_) 0) as [H0|H0]; simpl.
  { split; [eexists; f_equal; f_equal; lia|]. intros n at' [= <- <-]. unfold countb. simpl. lia. }
  destruct (read_one_record buf at_) as [[record at2]|e|] eqn:Hr; simpl.
  - destruct (read_one_record_counted _ _ _ _ Hat Hr) as (Hlt & declared & at1 & Hv & Hd & body & Ht).
    destruct (IH (counted + 1) at2 ltac:(lia) ltac:(unfold remaining in *; lia)) as [IH1 IH2].
    unfold rd_bind, lift_batch. rewrite Hv. simpl. unfold MIN_RECORD_BODY_LEN in *.
    rewrite !(proj2 (Z.ltb_ge _ _)) by lia. rewrite Ht. simpl. split.
    + intros Hall. destruct (IH1 Hall) as (at' & ->). exists at'. f_equal. f_equal. lia.
    + intros n at' Hn. specialize (IH2 _ _ Hn). rewrite countb_cons. simpl. lia.
  - split; [done|]. intros n at' Hn.
    pose proof (count_loop_bounds (S fuel) counted buf at_ Hat Hf) as Hb. simpl in Hb.
    destruct (Nat.eqb_spec (remaining buf at_) 0) as [|_]; [lia|]. rewrite Hn in Hb. rewrite countb_cons. simpl.
    enough (countb is_ok (collect_records fuel buf (mkRecordIter at_ true)) = 0%nat) by lia.
    by destruct fuel.
  - by apply read_one_record_no_panic in Hr.
Qed.

(** ** The header, field by field *)

Definition slice (k n : nat) (batch : bytes) : bytes := take n (drop k batch).

Definition header_of (batch : bytes) : BatchHeader :=
  mkBatchHeader (from_be_signed 8 (slice 0 8 batch)) (from_be_signed 4 (slice 8 4 batch))
    (from_be_signed 4 (slice 12 4 batch)) (from_be (slice 17 4 batch)) (from_be_signed 2 (slice 21 2 batch))
    (from_be_signed 4 (slice 23 4 batch)) (from_be_signed 8 (slice 27 8 batch)) (from_be_signed 8 (slice 35 8 batch))
    (from_be_signed 8 (slice 43 8 batch)) (from_be_signed 2 (slice 51 2 batch)) (from_be_signed 4 (slice 53 4 batch))
    (from_be_signed 4 (slice 57 4 batch)).

Definition magic_of (batch : bytes) : Z := from_be_signed 1 (slice 16 1 batch).

Lemma step_int {A B} n (f : bytes -> A) (k : A -> Reader BatchError B) buf at_ :
  (at_ + n <= length buf)%nat ->
  rd_bind (lift_batch (rd! b := cur_take n in rd_ret (f b))) k buf at_ = k (f (slice at_ n buf)) buf (at_ + n)%nat.
Proof.
  intros H. unfold rd_bind, lift_batch, cur_take, remaining. by rewrite (proj2 (Nat.ltb_ge _ _)) by lia.
Qed.

Lemma decode_header_closed batch :
  (BATCH_HEADER_LEN <= length batch)%nat ->
  decode_batch_header batch = if magic_of batch =? MAGIC_V2 then Ok (header_of batch) else Err (WrongMagic (magic_of batch)).
Proof.
  unfold BATCH_HEADER_LEN. intros H. unfold decode_batch_header, read_batch_header, read_i64, read_i32, read_i16, read_i8, read_u32.
  rewrite (step_int 8), (step_int 4), (step_int 4), (step_int 1) by lia. simpl Nat.add.
  change (from_be_signed 1 (slice (0 + 8 + 4 + 4) 1 batch)) with (magic_of batch). destruct (magic_of batch =? MAGIC_V2); cbn [negb]; [|done].
  rewrite (step_int 4), (step_int 2), (step_int 4), (step_int 8), (step_int 8), (step_int 8), (step_int 2), (step_int 4),
    (step_int 4) by lia.
  done.
Qed.

Lemma takes_header_field {A B} n m (f : bytes -> A) (k : A -> Reader BatchError B) :
  (forall a, takes m (k a)) -> takes (n + m) (rd_bind (lift_batch (rd! b := cur_take n in rd_ret (f b))) k).
Proof. intros. apply takes_bind; [|done]. apply takes_lift_batch, takes_int. Qed.

Lemma takes_batch_header : takes BATCH_HEADER_LEN read_batch_header.
Proof.
  apply (takes_header_field 8 53); intros. apply (takes_header_field 4 49); intros. apply (takes_header_field 4 45); intros.
  apply (takes_header_field 1 44); intros. apply takes_if; [done|]. apply (takes_header_field 4 40); intros.
  apply (takes_header_field 2 38); intros. apply (takes_header_field 4 34); intros. apply (takes_header_field 8 26); intros.
  apply (takes_header_field 8 18); intros. apply (takes_header_field 8 10); intros. apply (takes_header_field 2 8); intros.
  apply (takes_header_field 4 4); intros. apply (takes_header_field 4 0); intros. apply takes_ret.
Qed.

Lemma decode_header_Ok batch header :
  decode_batch_header batch = Ok header <->
  (BATCH_HEADER_LEN <= length batch)%nat /\ magic_of batch = MAGIC_V2 /\ header = header_of batch.
Proof.
  split.
  - intros H. assert (BATCH_HEADER_LEN <= length batch)%nat as Hlen.
    { unfold decode_batch_header in H. apply res_bind_Ok in H as ([h at_] & Hr & _).
      pose proof (takes_batch_header batch 0%nat ltac:(lia)) as Ht. rewrite Hr in Ht. lia. }
    rewrite decode_header_closed in H by done. destruct (magic_of batch =? MAGIC_V2) eqn:Hm; [|done].
    apply Z.eqb_eq in Hm. by injection H as <-.
  - intros (Hlen & Hm & ->). rewrite decode_header_closed by done. by rewrite Hm.
Qed.

Lemma decode_header_no_panic batch : decode_batch_header batch <> Panic.
Proof.
  unfold decode_batch_header. pose proof (takes_batch_header batch 0%nat ltac:(lia)) as Ht.
  by destruct (read_batch_header batch 0%nat) as [[? ?]| |].
Qed.

Lemma crc_coverage_closed batch end_ :
  (BATCH_HEADER_LEN <= length batch)%nat -> magic_of batch = MAGIC_V2 ->
  declared_end (bh_batch_length (header_of batch)) = Some end_ -> (BATCH_HEADER_LEN <= end_ <= length batch)%nat ->
  crc_coverage batch = Ok (slice CRC_COVERAGE_START (end_ - CRC_COVERAGE_START) batch).
Proof.
  intros Hlen Hm He Hb. unfold crc_coverage. rewrite (proj2 (decode_header_Ok _ _) (conj Hlen (conj Hm eq_refl))). simpl.
  simpl in He. rewrite He, (proj2 (Nat.ltb_ge _ _)), (proj2 (Nat.ltb_ge _ _)) by lia. done.
Qed.

(** ** What a check of a batch depends on *)

(** The batches differ at most in their base offset and leader epoch. *)
Definition same_body (b b' : bytes) : Prop :=
  length b = length b' /\ slice 8 4 b = slice 8 4 b' /\ drop 16 b = drop 16 b'.

Lemma same_slice k n b b' : (16 <= k)%nat -> same_body b b' -> slice k n b' = slice k n b.
Proof.
  intros Hk (_ & _ & Hd). unfold slice. replace k with (16 + (k - 16))%nat by lia. by rewrite <-!drop_drop, Hd.
Qed.

Lemma verify_Ok `{Checksum} batch v :
  verify batch = Ok v <->
  (BATCH_HEADER_LEN <= length batch)%nat /\ magic_of batch = MAGIC_V2 /\
  declared_end (bh_batch_length (header_of batch)) = Some (length batch) /\
  crc32c (drop CRC_COVERAGE_START batch) = bh_crc (header_of batch) /\
  compression (bh_attributes (header_of batch)) = NoCompression /\
  (exists at_, count_loop (length (drop BATCH_HEADER_LEN batch)) 0 (drop BATCH_HEADER_LEN batch) 0%nat = Ok (vf_records v, at_)) /\
  (vf_records v <> 0 /\ vf_records v <= u32_max) /\ bh_record_count (header_of batch) = vf_records v /\
  bh_last_offset_delta (header_of batch) = vf_records v - 1 /\ producer_identity (header_of batch) = Ok (vf_producer v).
Proof.
  unfold verify. destruct (decide ((BATCH_HEADER_LEN <= length batch)%nat /\ magic_of batch = MAGIC_V2)) as [[Hlen Hm]|Hn].
  2:{ split; [|by intros (? & ? & _); destruct Hn]. intros Hv. exfalso. apply Hn.
      destruct (decode_batch_header batch) as [h|e|] eqn:Hd; [|by destruct e|done]. by apply decode_header_Ok in Hd as (? & ? & _). }
  rewrite (proj2 (decode_header_Ok _ _) (conj Hlen (conj Hm eq_refl))).
  case_bool_decide as He; [split; [done|by intros (_ & _ & ? & _)]|].
  unfold checksum_holds, stored_crc, count_records, records_of.
  rewrite (crc_coverage_closed _ _ Hlen Hm He) by lia.
  rewrite (proj2 (decode_header_Ok _ _) (conj Hlen (conj Hm eq_refl))). cbn [res_bind].
  assert (slice CRC_COVERAGE_START (length batch - CRC_COVERAGE_START) batch = drop CRC_COVERAGE_START batch) as ->.
  { unfold slice. apply take_ge. by rewrite length_drop. }
  rewrite (proj2 (Nat.ltb_ge _ _)) by (rewrite length_drop; unfold BATCH_HEADER_LEN, CRC_COVERAGE_START in *; lia).
  rewrite drop_drop. change (CRC_COVERAGE_START + (BATCH_HEADER_LEN - CRC_COVERAGE_START))%nat with BATCH_HEADER_LEN.
  destruct (crc32c _ =? _) eqn:Hc; cbn [negb].
  2:{ split; [done|]. intros (_ & _ & _ & Hc' & _). by rewrite Hc', Z.eqb_refl in Hc. }
  apply Z.eqb_eq in Hc. case_bool_decide as Hz; [split; [done|by intros (_ & _ & _ & _ & ? & _)]|].
  cbn [res_bind]. destruct (count_loop _ 0 _ 0%nat) as [[n at_]|e|]; cbn [res_bind].
  2, 3: split; [done|]; by intros (_ & _ & _ & _ & _ & (? & ?) & _).
  destruct (u32_max <? n) eqn:Hu.
  { split; [done|]. intros (_ & _ & _ & _ & _ & (? & [= <- _]) & Hr & _). apply Z.ltb_lt in Hu. lia. }
  destruct (n =? 0) eqn:H0.
  { split; [done|]. intros (_ & _ & _ & _ & _ & (? & [= <- _]) & Hr & _). apply Z.eqb_eq in H0. lia. }
  destruct (negb (_ =? n) || _) eqn:Hd.
  { split; [done|]. intros (_ & _ & _ & _ & _ & (? & [= <- _]) & _ & E1 & E2 & _). by rewrite E1, E2, !Z.eqb_refl in Hd. }
  apply orb_false_iff in Hd as [Hd1 Hd2]. apply negb_false_iff, Z.eqb_eq in Hd1, Hd2. apply Z.eqb_neq in H0. apply Z.ltb_ge in Hu.
  destruct (producer_identity _) as [p|e|]; split; try done; try (by intros (_ & _ & _ & _ & _ & _ & _ & _ & _ & ?)).
  - intros [= <-]. cbn [vf_records vf_producer]. split_and!; try done. by exists at_.
  - intros (_ & _ & _ & _ & _ & (? & [= E1 _]) & _ & _ & _ & [= E2]). destruct v; simpl in *; by subst.
Qed.

Lemma verify_same_body `{Checksum} b b' v : same_body b b' -> verify b = Ok v -> verify b' = Ok v.
Proof.
  rewrite !verify_Ok. intros Hs (Hlen & Hm & He & Hc & Hz & Hn & Hr & H1 & H2 & Hp).
  pose proof Hs as (Hl & Hs8 & Hd). unfold header_of, magic_of, producer_identity in *. cbn [bh_batch_length bh_attributes
    bh_record_count bh_last_offset_delta bh_crc bh_producer_id bh_producer_epoch bh_base_sequence] in *.
  rewrite !(same_slice 16 _ b b'), !(same_slice 17 _ b b'), !(same_slice 21 _ b b'), !(same_slice 23 _ b b'),
    !(same_slice 43 _ b b'), !(same_slice 51 _ b b'), !(same_slice 53 _ b b'), !(same_slice 57 _ b b') by (done || lia).
  rewrite <-Hs8, <-Hl.
  assert (forall k, (16 <= k)%nat -> drop k b' = drop k b) as Hdrop.
  { intros k Hk. replace k with (16 + (k - 16))%nat by lia. by rewrite <-!drop_drop, Hd. }
  rewrite !Hdrop by (unfold CRC_COVERAGE_START, BATCH_HEADER_LEN; lia). split_and!; solve [done | apply Hr].
Qed.

Lemma rewrite_base_offset_Ok batch base epoch batch' :
  rewrite_base_offset batch base epoch = Ok batch' ->
  same_body batch batch' /\ slice 0 8 batch' = be_signed 8 base /\ slice 12 4 batch' = be_signed 4 epoch.
Proof.
  unfold rewrite_base_offset. intros H. apply res_bind_Ok in H as (h & (Hlen & _ & _)%decode_header_Ok & H).
  assert (be_signed 8 base ++ take 4 (drop 8 batch) ++ be_signed 4 epoch ++ drop 16 batch = batch') as <- by congruence.
  clear H. unfold BATCH_HEADER_LEN in Hlen. unfold be_signed.
  assert (length (take 4 (drop 8 batch)) = 4%nat) as H4 by (rewrite length_take, length_drop; lia).
  unfold same_body, slice. split_and!.
  - rewrite !length_app, !be_bytes_length, H4, length_drop. lia.
  - rewrite drop_app_length' by (by rewrite be_bytes_length). by rewrite take_app_length'.
  - rewrite !app_assoc. by rewrite drop_app_length' by (rewrite !length_app, !be_bytes_length, H4; done).
  - rewrite drop_0. by rewrite take_app_length' by (by rewrite be_bytes_length).
  - rewrite app_assoc. rewrite drop_app_length' by (rewrite length_app, be_bytes_length, H4; done).
    by rewrite take_app_length' by (by rewrite be_bytes_length).
Qed.

(** ** One damaged byte changes the checksum *)

Definition crc_state (c : Z) : Prop := 0 <= c < 2 ^ 32.

Lemma lxor_bound n a b : 0 <= n -> 0 <= a < 2 ^ n -> 0 <= b < 2 ^ n -> 0 <= Z.lxor a b < 2 ^ n.
Proof.
  intros Hn Ha Hb. assert (0 <= Z.lxor a b) as H0 by (apply Z.lxor_nonneg; lia). split; [done|].
  apply Z.bounded_iff_bits_nonneg; [done|done|]. intros l Hl. rewrite Z.lxor_spec.
  rewrite (proj1 (Z.bounded_iff_bits_nonneg n a Hn ltac:(lia))) by lia.
  by rewrite (proj1 (Z.bounded_iff_bits_nonneg n b Hn ltac:(lia))) by lia.
Qed.

Lemma lxor_cancel a b c : Z.lxor a c = Z.lxor b c -> a = b.
Proof.
  intros H. rewrite <-(Z.lxor_0_r a), <-(Z.lxor_0_r b), <-(Z.lxor_nilpotent c), <-!Z.lxor_assoc. by rewrite H.
Qed.

Lemma crc_bit_halves c : crc_bit c = Z.lxor (c / 2) (if c mod 2 =? 1 then CRC_POLY else 0).
Proof.
  unfold crc_bit. replace (Z.land c 1) with (c mod 2) by (symmetry; apply (Z.land_ones c 1); lia).
  rewrite Z.shiftr_div_pow2 by lia. change (2 ^ 1) with 2. destruct (c mod 2 =? 1); [done|]. by rewrite Z.lxor_0_r.
Qed.

Lemma crc_bit_state c : crc_state c -> crc_state (crc_bit c).
Proof.
  unfold crc_state. intros H. rewrite crc_bit_halves. apply lxor_bound; [done| |].
  - split; [apply Z.div_pos; lia|]. apply Z.div_lt_upper_bound; lia.
  - unfold CRC_POLY. destruct (_ =? 1); lia.
Qed.

Lemma crc_bit_inj a b : crc_state a -> crc_state b -> crc_bit a = crc_bit b -> a = b.
Proof.
  unfold crc_state. intros Ha Hb. rewrite !crc_bit_halves. intros H.
  assert (0 <= a / 2 < 2 ^ 31 /\ 0 <= b / 2 < 2 ^ 31) as [Ha2 Hb2].
  { split; (split; [apply Z.div_pos; lia|apply Z.div_lt_upper_bound; lia]). }
  pose proof (Z.mod_pos_bound a 2 ltac:(lia)) as Hma. pose proof (Z.mod_pos_bound b 2 ltac:(lia)) as Hmb.
  pose proof (Z.div_mod a 2 ltac:(lia)) as Hda. pose proof (Z.div_mod b 2 ltac:(lia)) as Hdb.
  pose proof (lxor_bound 31 (a / 2) (b / 2) ltac:(lia) Ha2 Hb2) as Hx.
  destruct (a mod 2 =? 1) eqn:Ea, (b mod 2 =? 1) eqn:Eb; rewrite ?Z.lxor_0_r in H; zbool.
  - apply lxor_cancel in H. lia.
  - rewrite <-H, (Z.lxor_comm (a / 2) CRC_POLY), Z.lxor_comm, Z.lxor_assoc, Z.lxor_nilpotent, Z.lxor_0_r in Hx.
    unfold CRC_POLY in Hx. lia.
  - rewrite H, (Z.lxor_comm (b / 2) CRC_POLY), (Z.lxor_assoc CRC_POLY), Z.lxor_nilpotent, Z.lxor_0_r in Hx.
    unfold CRC_POLY in Hx. lia.
  - lia.
Qed.

Lemma crc_bits_state n c : crc_state c -> crc_state (Nat.iter n crc_bit c).
Proof. intros H. induction n as [|n IH]; simpl; [done|]. by apply crc_bit_state. Qed.

Lemma crc_bits_inj n a b : crc_state a -> crc_state b -> Nat.iter n crc_bit a = Nat.iter n crc_bit b -> a = b.
Proof.
  intros Ha Hb. induction n as [|n IH]; simpl; [done|]. intros H. apply IH, crc_bit_inj; [| |done]; by apply crc_bits_state.
Qed.

Lemma crc_xor_state c byte : crc_state c -> is_byte byte -> crc_state (Z.lxor c byte).
Proof. unfold crc_state, is_byte, u8_max. intros. apply lxor_bound; lia. Qed.

Lemma crc_byte_state c byte : crc_state c -> is_byte byte -> crc_state (crc_byte c byte).
Proof. intros. by apply crc_bits_state, crc_xor_state. Qed.

Lemma crc_fold_state l c : Forall is_byte l -> crc_state c -> crc_state (foldl crc_byte c l).
Proof.
  revert c. induction l as [|b l IH]; intros c Hl Hc; simpl; [done|]. apply Forall_cons in Hl as [Hb Hl].
  apply IH; [done|]. by apply crc_byte_state.
Qed.

Lemma crc_fold_inj l a b :
  Forall is_byte l -> crc_state a -> crc_state b -> foldl crc_byte a l = foldl crc_byte b l -> a = b.
Proof.
  revert a b. induction l as [|x l IH]; intros a b Hl Ha Hb H; [done|]. apply Forall_cons in Hl as [Hx Hl]. simpl in H.
  apply IH in H; [|done|by apply crc_byte_state..].
  apply crc_bits_inj in H; [|by apply crc_xor_state..]. by apply lxor_cancel in H.
Qed.

Lemma scalar_crc_one_byte l i x y :
  Forall is_byte l -> is_byte y -> l !! i = Some x -> y <> x -> scalar_crc32c (<[i := y]> l) <> scalar_crc32c l.
Proof.
  intros Hl Hy Hi Hne H. unfold scalar_crc32c in H. apply lxor_cancel in H.
  pose proof (lookup_lt_Some _ _ _ Hi) as Hlt. rewrite insert_take_drop in H by done.
  rewrite <-(take_drop_middle l i x Hi) in H at 3. rewrite !foldl_app in H. simpl in H.
  assert (crc_state (foldl crc_byte u32_max (take i l))) as Hs.
  { apply crc_fold_state; [by apply Forall_take|]. unfold crc_state, u32_max. lia. }
  apply crc_fold_inj in H; [|by apply Forall_drop|apply crc_byte_state; [done|]..].
  2: done. 2: eapply Forall_lookup_1; eauto.
  apply crc_bits_inj in H; [|apply crc_xor_state; [done|]..]. 2: done. 2: eapply Forall_lookup_1; eauto.
  rewrite !(Z.lxor_comm (foldl _ _ _)) in H. by apply lxor_cancel in H.
Qed.

Lemma crc32c_scalar `{ChecksumLaws} data : Forall is_byte data -> crc32c data = scalar_crc32c data.
Proof. intros. unfold crc32c. destruct force_scalar; [done|]. by apply crc_fast_spec. Qed.

(** ** The claims *)

Lemma from_be_inj l l' : Forall is_byte l -> Forall is_byte l' -> length l = length l' -> from_be l = from_be l' -> l = l'.
Proof.
  revert l'. induction l as [|x l IH] using rev_ind; intros l' Hl Hl' Hlen Heq.
  { by destruct l'. }
  destruct l' as [|y l' _] using rev_ind; [rewrite length_app in Hlen; simpl in Hlen; lia|].
  rewrite !length_app in Hlen. simpl in Hlen. rewrite !from_be_app in Heq. simpl in Heq.
  apply Forall_app in Hl as [Hl [Hx _]%Forall_cons], Hl' as [Hl' [Hy _]%Forall_cons].
  unfold is_byte, u8_max, from_be in *. simpl in Heq.
  assert (x = y /\ foldl (fun acc b => acc * 256 + b) 0 l = foldl (fun acc b => acc * 256 + b) 0 l') as [-> Hf] by lia.
  by rewrite (IH l' Hl Hl' ltac:(lia) Hf).
Qed.

Lemma slice_insert_out k n i y l : (k + n <= i)%nat -> slice k n (<[i := y]> l) = slice k n l.
Proof.
  intros H. unfold slice. destruct (decide (i < length l)%nat); [|by rewrite list_insert_ge by lia].
  rewrite drop_insert_ge by lia. by rewrite take_insert_ge by lia.
Qed.

Lemma checksum_holds_closed `{Checksum} batch :
  (BATCH_HEADER_LEN <= length batch)%nat -> magic_of batch = MAGIC_V2 ->
  declared_end (bh_batch_length (header_of batch)) = Some (length batch) ->
  checksum_holds batch = (crc32c (drop CRC_COVERAGE_START batch) =? bh_crc (header_of batch)).
Proof.
  intros Hlen Hm He. unfold checksum_holds, stored_crc. rewrite (crc_coverage_closed _ _ Hlen Hm He) by lia.
  rewrite (proj2 (decode_header_Ok _ _) (conj Hlen (conj Hm eq_refl))). cbn [res_bind].
  unfold slice. by rewrite take_ge by (by rewrite length_drop).
Qed.

(** C32. A damaged batch is not stored.  Whichever one byte of an admissible
    batch is changed from the stored checksum on, its records included, the
    broker refuses the batch as corrupt. *)
Theorem damaged_batch_refused `{ChecksumLaws} (batch : bytes) (v : Verified) (i : nat) (x y : Z) :
  Forall is_byte batch -> verify batch = Ok v -> (17 <= i)%nat -> batch !! i = Some x -> is_byte y -> y <> x ->
  verify (<[i := y]> batch) = Err CORRUPT_MESSAGE.
Proof.
  intros Hb (Hlen & Hm & He & Hc & _)%verify_Ok Hi Hx Hy Hne. pose proof (lookup_lt_Some _ _ _ Hx) as Hlt.
  assert (magic_of (<[i := y]> batch) = MAGIC_V2) as Hm' by (unfold magic_of; by rewrite slice_insert_out by lia).
  assert (declared_end (bh_batch_length (header_of (<[i := y]> batch))) = Some (length (<[i := y]> batch))) as He'.
  { unfold header_of. cbn [bh_batch_length]. rewrite slice_insert_out, length_insert by lia. done. }
  assert (BATCH_HEADER_LEN <= length (<[i := y]> batch))%nat as Hlen' by (by rewrite length_insert).
  unfold verify. rewrite (proj2 (decode_header_Ok _ _) (conj Hlen' (conj Hm' eq_refl))), bool_decide_false by (rewrite He'; auto).
  rewrite checksum_holds_closed by done. enough ((crc32c (drop CRC_COVERAGE_START (<[i := y]> batch)) =?
    bh_crc (header_of (<[i := y]> batch))) = false) as -> by done.
  apply Z.eqb_neq. unfold header_of in *. cbn [bh_crc] in *. unfold CRC_COVERAGE_START in *.
  destruct (decide (i < 21)%nat) as [Hs|Hs].
  - rewrite drop_insert_lt by lia. rewrite Hc. intros Heq. apply from_be_inj in Heq.
    + unfold slice in Heq. rewrite drop_insert_ge in Heq by lia. rewrite take_insert_lt in Heq by lia.
      apply (f_equal (fun l => l !! (i - 17)%nat)) in Heq. rewrite list_lookup_insert_eq in Heq.
      2:{ rewrite length_take, length_drop. lia. }
      rewrite lookup_take_lt, lookup_drop in Heq by lia. replace (17 + (i - 17))%nat with i in Heq by lia. congruence.
    + by apply Forall_take, Forall_drop.
    + by apply Forall_take, Forall_drop, Forall_insert.
    + unfold slice. by rewrite !length_take, !length_drop, length_insert.
  - rewrite slice_insert_out, <-Hc by lia. rewrite drop_insert_ge by lia.
    rewrite !crc32c_scalar; [|by apply Forall_drop|by apply Forall_insert; [apply Forall_drop|]].
    apply (scalar_crc_one_byte _ _ x); [by apply Forall_drop|done| |done].
    rewrite lookup_drop. by replace (21 + (i - 21))%nat with i by lia.
Qed.

(** An admitted batch stays admissible on the way out.  Rewriting the base
    offset and leader epoch of a batch that verifies succeeds, changes those two
    fields alone and no length, and the result verifies with the same record
    count and producer. *)
Theorem rewritten_batch_verifies `{Checksum} (batch : bytes) (v : Verified) (base epoch : Z) :
  verify batch = Ok v -> fits_signed 8 base -> fits_signed 4 epoch ->
  exists batch', rewrite_base_offset batch base epoch = Ok batch' /\ verify batch' = Ok v /\ length batch' = length batch /\
    drop 16 batch' = drop 16 batch /\
    exists header, decode_batch_header batch' = Ok header /\ bh_base_offset header = base /\
      bh_partition_leader_epoch header = epoch /\ bh_record_count header = vf_records v.
Proof.
  intros Hv Hbase Hepoch. pose proof Hv as (Hlen & Hm & _)%verify_Ok.
  destruct (rewrite_base_offset batch base epoch) as [batch'|e|] eqn:Hr.
  2,3: unfold rewrite_base_offset in Hr; by rewrite (proj2 (decode_header_Ok _ _) (conj Hlen (conj Hm eq_refl))) in Hr.
  exists batch'. destruct (rewrite_base_offset_Ok _ _ _ _ Hr) as (Hs & H0 & H12). pose proof Hs as (Hl & _ & Hd).
  pose proof (verify_same_body _ _ _ Hs Hv) as Hv'. split_and!; [done|done|done|done|].
  pose proof Hv' as (Hlen' & Hm' & _ & _ & _ & _ & _ & Hn & _)%verify_Ok. exists (header_of batch').
  split_and!; [by apply decode_header_Ok| | |done]; unfold header_of; cbn [bh_base_offset bh_partition_leader_epoch].
  - rewrite H0. by apply from_be_be_signed; [lia|].
  - rewrite H12. by apply from_be_be_signed; [lia|].
Qed.

(** A batch's length is an [i32], so its records fit a [u32] count. *)
Lemma records_fit batch records :
  Forall is_byte batch -> records_of batch = Ok records -> Z.of_nat (length records) <= u32_max.
Proof.
  intros Hb Hr. unfold records_of, crc_coverage in Hr. apply res_bind_Ok in Hr as (coverage & Hc & Hr).
  apply res_bind_Ok in Hc as (header & (Hlen & _ & ->)%decode_header_Ok & Hc).
  destruct (declared_end _) as [end_|] eqn:He; [|done]. destruct (_ || _); [done|].
  assert (coverage = take (end_ - CRC_COVERAGE_START) (drop CRC_COVERAGE_START batch)) as -> by congruence. clear Hc.
  destruct (_ <? _)%nat; [done|]. assert (length records <= end_)%nat as Hle.
  { assert (records = drop (BATCH_HEADER_LEN - CRC_COVERAGE_START) (take (end_ - CRC_COVERAGE_START) (drop CRC_COVERAGE_START batch)))
      as -> by congruence. rewrite length_drop, length_take. lia. }
  unfold declared_end in He. destruct (_ <? 0) eqn:H0; [done|]. injection He as <-. zbool.
  unfold header_of in *. cbn [bh_batch_length] in *. unfold from_be_signed, to_signed in *.
  pose proof (from_be_bound (slice 8 4 batch) ltac:(by apply Forall_take, Forall_drop)) as Hr4.
  assert (length (slice 8 4 batch) = 4%nat) as H4 by (unfold slice; rewrite length_take, length_drop; unfold BATCH_HEADER_LEN in Hlen; lia).
  rewrite H4 in Hr4. change (256 ^ Z.of_nat 4) with 4294967296 in *. change (4294967296 / 2) with 2147483648 in *.
  unfold u32_max. destruct (_ <? _) eqn:Hs in Hle; zbool; lia.
Qed.

(** Counting the records of a batch by stepping over them agrees with
    reading them: when every record of the batch reads, the count is how many
    there are; the count never falls short of the records that read; and the
    walk ends without a panic on any bytes. *)
Theorem record_count_exact (batch records : bytes) :
  Forall is_byte batch -> records_of batch = Ok records ->
  let items := collect_records (length records) records iter_records in
  (forallb is_ok items = true -> count_records batch = Ok (Z.of_nat (length items))) /\
  (forall n, count_records batch = Ok n -> Z.of_nat (countb is_ok items) <= n) /\
  count_records batch <> Panic.
Proof.
  intros Hbytes Hr items. pose proof (records_fit _ _ Hbytes Hr) as Hu. unfold count_records. rewrite Hr. cbn [res_bind].
  destruct (count_loop_collect (length records) 0 records 0%nat ltac:(lia) ltac:(unfold remaining; lia)) as [H1 H2].
  pose proof (count_loop_bounds (length records) 0 records 0%nat ltac:(lia) ltac:(unfold remaining; lia)) as Hb.
  change (collect_records (length records) records (mkRecordIter 0 false)) with items in *. split_and!.
  - intros Hall. destruct (H1 Hall) as (at' & Hc). rewrite Hc in *. simpl. unfold remaining in Hb.
    rewrite (proj2 (Z.ltb_ge _ _)) by lia. done.
  - intros n Hn. apply res_bind_Ok in Hn as ([n' at'] & Hc & Hn). specialize (H2 _ _ Hc).
    destruct (u32_max <? n'); [done|]. injection Hn as <-. lia.
  - destruct (count_loop _ _ _ _) as [[n at']|e|]; simpl; [|done..]. by destruct (u32_max <? n).
Qed.

(** A batch of one record, of a producer with no identity. *)
#[local] Instance demo_checksum : Checksum := {| force_scalar := true; crc_fast_checksum := scalar_crc32c |}.

Lemma demo_checksum_laws : ChecksumLaws.
Proof.
  intros data Hd. cbn. apply Z.bits_inj'. intros k Hk. rewrite Z.land_spec. unfold u32_max.
  change (2 ^ 32 - 1) with (Z.ones 32). rewrite Z.testbit_ones_nonneg by lia.
  destruct (Z.ltb_spec k 32); [by rewrite andb_true_r|]. rewrite andb_false_r. symmetry.
  assert (crc_state (scalar_crc32c data)) as [H0 H1].
  { apply lxor_bound; [lia| |unfold u32_max; lia]. apply crc_fold_state; [done|]. unfold crc_state, u32_max. lia. }
  apply (proj1 (Z.bounded_iff_bits_nonneg 32 _ ltac:(lia) H0) H1). lia.
Qed.

Definition demo_record : bytes := [14; 0; 0; 0; 1; 2; 120; 0].
Definition demo_header (crc : Z) : BatchHeader := mkBatchHeader 0 57 0 crc 0 0 0 0 (-1) (-1) (-1) 1.
Definition demo_batch : bytes :=
  encode_batch_header [] (demo_header (scalar_crc32c (drop 21 (encode_batch_header [] (demo_header 0) ++ demo_record)))) ++ demo_record.

Lemma demo_bytes : Forall is_byte demo_batch.
Proof. apply Forall_forall. intros b Hb. unfold is_byte. revert b Hb. apply Forall_forall. vm_compute. repeat constructor; done. Qed.

Lemma damaged_batch_refused_witness : verify (<[66%nat := 121]> demo_batch) = Err CORRUPT_MESSAGE.
Proof.
  apply (@damaged_batch_refused _ demo_checksum_laws demo_batch (mkVerified 1 None) 66 2 121);
    [apply demo_bytes|vm_compute; reflexivity|lia|vm_compute; reflexivity|unfold is_byte, u8_max; lia|lia].
Defined.

Lemma rewritten_batch_verifies_witness :
  exists batch', rewrite_base_offset demo_batch 4242 7 = Ok batch' /\ verify batch' = Ok (mkVerified 1 None).
Proof.
  destruct (rewritten_batch_verifies demo_batch (mkVerified 1 None) 4242 7) as (b & H1 & H2 & _);
    [vm_compute; reflexivity|split; vm_compute; done|split; vm_compute; done|]. by exists b.
Defined.

Lemma record_count_exact_witness : records_of demo_batch = Ok demo_record /\ count_records demo_batch = Ok 1.
Proof.
  split; [vm_compute; reflexivity|].
  apply (proj1 (record_count_exact demo_batch demo_record demo_bytes ltac:(vm_compute; reflexivity))). vm_compute. reflexivity.
Defined.
