(* ===== verification/Read.v ===== *)
(** * Read: the records a fetch is answered with

    Models [oqueue-broker]'s [region.rs], [read.rs], [read/batch.rs] and
    [read/manifest.rs]: from an offset, through the index and the manifests it
    points at, to the bytes of the batches, stamped with the offsets they were
    assigned.  A request keeps what it fetched, and a bound on what may fail,
    across its partitions.  Metrics and traces are left out, and with them
    [read] and [read_or_refresh], which add nothing else to [read_inner].  The
    costs are sums of the sizes of byte vectors and their overflow is not
    modelled. *)

From stdpp Require Import base tactics list numbers strings gmap.
From Stdlib Require Import ZArith Lia.
From S2P Require Import Prelude Bytes Types Store Partition IndexFold Wire Batch Segment Bundle Manifest Stream Merge.

Open Scope Z_scope.

(** ** A partition's region of an object ([region.rs]) *)

Definition region_for (regions : list Region) (topic : TopicId) (partition : PartitionId) (domain : KeyDomain) : Res ByteRange :=
  match List.filter (fun region => bool_decide (rg_topic region = topic) && (rg_partition region =? partition)) regions with
  | [region] => let? _ := validate_region domain region in Ok (rg_bytes region)
  | _ => Err IndexObjectMismatch
  end.

Definition slice_region (whole : bytes) (topic : TopicId) (partition : PartitionId) (domain : KeyDomain) : Res bytes :=
  let? regions := parse_footer whole (Z.of_nat (length whole)) in
  let? range := region_for regions topic partition domain in
  match range with
  | Full => Err IndexObjectMismatch
  | Bounded from len =>
      if (u64_max <? from + len) || (Z.of_nat (length whole) <? from + len) then Err IndexObjectMismatch
      else Ok (take (Z.to_nat len) (drop (Z.to_nat from) whole))
  end.

(** ** What a request has fetched ([read.rs]) *)

Record Allowance : Type := mkAllowance { aw_bytes : Z; aw_may_overshoot : bool }.

Definition RangeKey : Type := option (Z * Z).
Definition RangeKey_from (range : ByteRange) : RangeKey :=
  match range with Full => None | Bounded offset length => Some (offset, length) end.

Record FetchedObjects : Type := mkFetchedObjects {
  fo_seen : gmap (ObjectKey * RangeKey) (Res bytes);
  fo_failed : Z;
}.
Definition FetchedObjects_default : FetchedObjects := mkFetchedObjects ∅ 0.

Definition MAX_FAILED_FETCHES_PER_REQUEST : Z := 2.

Definition note_failure (self : FetchedObjects) : FetchedObjects := mkFetchedObjects (fo_seen self) (fo_failed self + 1).

Record Fetched : Type := mkFetched { fd_blob : Res bytes; fd_cost : Z; fd_missed : bool }.

Record ReadFailure : Type := mkReadFailure { rf_error : Error; rf_fetched : Z }.
Record Read : Type := mkRead { rd_records : bytes; rd_fetched : Z }.

Section read.
Context {S : Type} `{ObjectStore S}.

(** What the topic catalog answers for a topic's key domain. *)
Context (topic_key_domain : TopicId -> option KeyDomain).

(** The request's objects, and the store they come from. *)
Record Reading : Type := mkReading { rg_objects : FetchedObjects; rg_store : S }.

(** The second result tells whether the store was asked. *)
Definition fo_get (key : ObjectKey) (range : ByteRange) (st : Reading) : Reading * (Res bytes * bool) :=
  let id := (key, RangeKey_from range) in
  let self := rg_objects st in
  match fo_seen self !! id with
  | Some seen => (st, (seen, false))
  | None =>
      if MAX_FAILED_FETCHES_PER_REQUEST <=? fo_failed self then (st, (Err SlowDown, false))
      else
        let '(store, fetched) := os_get key range (rg_store st) in
        let failed := match fetched with Ok _ => fo_failed self | _ => fo_failed self + 1 end in
        (mkReading (mkFetchedObjects (<[id := fetched]> (fo_seen self)) failed) store, (fetched, true))
  end.

Definition noting (st : Reading) : Reading := mkReading (note_failure (rg_objects st)) (rg_store st).

(** ** One batch ([read/batch.rs]) *)

Definition one_batch (batch : IndexedBatch) (topic : TopicId) (partition : PartitionId) (st : Reading) : Reading * Fetched :=
  match batch with
  | Inline entry =>
      let '(st, (blob, missed)) := fo_get (or_object (te_reference entry)) (te_bytes entry) st in
      let cost := if missed then match blob with Ok b => Z.of_nat (length b) | _ => 0 end else 0 in
      (st, mkFetched blob cost missed)
  | Footer object =>
      let '(st, (whole, missed)) := fo_get (or_object object) Full st in
      match whole with
      | Ok whole =>
          let cost := if missed then Z.of_nat (length whole) else 0 in
          let sliced :=
            match topic_key_domain topic with
            | None => Err IndexObjectMismatch
            | Some domain => slice_region whole topic partition domain
            end in
          let st := if missed && negb (match sliced with Ok _ => true | _ => false end) then noting st else st in
          (st, mkFetched sliced cost missed)
      | Err error => (st, mkFetched (Err error) 0 missed)
      | Panic => (st, mkFetched Panic 0 missed)
      end
  end.

(** ** The manifest tier ([read/manifest.rs]) *)

Definition MAX_MANIFEST_HOPS : nat := 16.

Record Resolved : Type := mkResolved { rs_batches : Res (list IndexedBatch); rs_cost : Z }.

Definition manifest_batch (entry : ManifestEntry) : IndexedBatch :=
  Inline (mkTailEntry (mkObjectRef (mf_object entry) (mf_base_offset entry) (mf_record_count entry)) (mf_bytes entry)).

Fixpoint take_while {A} (p : A -> bool) (l : list A) : list A :=
  match l with
  | [] => []
  | x :: l => if p x then x :: take_while p l else []
  end.

(** The batches of one manifest from [from] on. *)
Definition manifest_page (parsed : PartitionManifest) (from : nat) (upto : Offset) : list IndexedBatch :=
  map manifest_batch (take MAX_BATCHES_PER_PAGE
    (take_while (fun entry => mf_base_offset entry <? upto) (drop from (pm_entries parsed)))).

Definition is_older (parsed : PartitionManifest) (start : Offset) : bool :=
  match pm_entries parsed with first :: _ => start <? mf_base_offset first | [] => false end.

Fixpoint manifest_hops (hops : nat) (key : ObjectKey) (start upto : Offset) (cost : Z) (st : Reading) : Reading * Resolved :=
  match hops with
  | O => (st, mkResolved (Err IndexObjectMismatch) cost)
  | Datatypes.S hops =>
      let '(st, (got, missed)) := fo_get key Full st in
      match got with
      | Err error => (st, mkResolved (Err error) cost)
      | Panic => (st, mkResolved Panic cost)
      | Ok raw =>
          let cost := if missed then cost + Z.of_nat (length raw) else cost in
          match parse_partition_manifest raw with
          | Err error => (st, mkResolved (Err error) cost)
          | Panic => (st, mkResolved Panic cost)
          | Ok parsed =>
              match pm_position parsed start with
              | Some from => (st, mkResolved (Ok (manifest_page parsed from upto)) cost)
              | None =>
                  match pm_previous parsed with
                  | Some previous =>
                      if is_older parsed start then manifest_hops hops previous start upto cost st
                      else (st, mkResolved (Ok []) cost)
                  | None => (st, mkResolved (Ok []) cost)
                  end
              end
          end
      end
  end.

Definition manifest_batches (manifest : ObjectKey) (start upto : Offset) (st : Reading) : Reading * Resolved :=
  manifest_hops MAX_MANIFEST_HOPS manifest start upto 0 st.

(** ** A partition's read ([read.rs]) *)

(** What is left of the page, what has been fetched and read so far. *)
Fixpoint read_loop (page : list IndexedBatch) (topic : TopicId) (partition : PartitionId) (allowance : Allowance)
    (fetched : Z) (records : bytes) (st : Reading) : Reading * Result ReadFailure Read :=
  match page with
  | [] => (st, Ok (mkRead records fetched))
  | batch :: page =>
      let over := aw_bytes allowance <=? Z.max fetched (Z.of_nat (length records)) in
      if over && negb (bool_decide (records = []) && aw_may_overshoot allowance)
      then (st, Ok (mkRead records fetched))
      else
        let '(st, fetch) := one_batch batch topic partition st in
        let fetched := fetched + fd_cost fetch in
        match fd_blob fetch with
        | Panic => (st, Panic)
        | Err error => (st, if bool_decide (records <> []) then Ok (mkRead records fetched) else Err (mkReadFailure error fetched))
        | Ok blob =>
            match rewrite_base_offset blob (or_base_offset (IndexedBatch_reference batch)) 0 with
            | Panic => (st, Panic)
            | Err _ =>
                let st := if fd_missed fetch then noting st else st in
                (st, Err (mkReadFailure IndexObjectMismatch fetched))
            | Ok blob => read_loop page topic partition allowance fetched (records ++ blob) st
            end
        end
  end.

Definition read_inner (index : IndexState) (topic : TopicId) (partition : PartitionId) (start : Offset)
    (allowance : Allowance) (st : Reading) : Reading * Result ReadFailure Read :=
  let can_fetch := negb (aw_bytes allowance =? 0) || aw_may_overshoot allowance in
  let '(st, resolved) :=
    match IndexState_manifest index topic partition with
    | Some (key, upto) =>
        if (start <? upto) && can_fetch then manifest_batches key start upto st else (st, mkResolved (Ok []) 0)
    | None => (st, mkResolved (Ok []) 0)
    end in
  match rs_batches resolved with
  | Panic => (st, Panic)
  | Err error => (st, Err (mkReadFailure error (rs_cost resolved)))
  | Ok older =>
      match find_batches index topic partition start (aw_bytes allowance) with
      | Panic => (st, Panic)
      | Err error => (st, Err (mkReadFailure error (rs_cost resolved)))
      | Ok newer => read_loop (older ++ newer) topic partition allowance (rs_cost resolved) [] st
      end
  end.
End read.
Arguments Reading : clear implicits.
