(* ===== verification/ReadProps.v ===== *)
(** * ReadProps: a read serves what was stored, stamped and in order *)

From stdpp Require Import base tactics list numbers strings gmap.
From Stdlib Require Import ZArith Lia.
From S2P Require Import Prelude Bytes Types Store Coverage Partition IndexFold IndexSpec IndexRefine IndexProps.
From S2P Require Import Wire WireProps Batch BatchProps Segment Bundle BundleProps Manifest ManifestProps Compact Stream Merge MergeProps Read.

Open Scope Z_scope.

(** The bytes of a batch, as the objects of a store hold them. *)
Definition stored_batch (topic_key_domain : TopicId -> option KeyDomain) (objs : Objects) (topic : TopicId)
    (partition : PartitionId) (batch : IndexedBatch) (raw : bytes) : Prop :=
  match batch with
  | Inline entry => exists payload token, objs !! or_object (te_reference entry) = Some (payload, token) /\
      slice_range (or_object (te_reference entry)) payload (te_bytes entry) = Ok raw
  | Footer object => exists payload token domain, objs !! or_object object = Some (payload, token) /\
      topic_key_domain topic = Some domain /\ slice_region payload topic partition domain = Ok raw
  end.

(** What is served for a batch: its stored bytes under its own base offset. *)
Definition served topic_key_domain objs topic partition (batch : IndexedBatch) (blob : bytes) : Prop :=
  exists raw, stored_batch topic_key_domain objs topic partition batch raw /\
    rewrite_base_offset raw (or_base_offset (IndexedBatch_reference batch)) 0 = Ok blob.

Section read.
Context {S : Type} `{ObjectStoreLaws S}.
Context (topic_key_domain : TopicId -> option KeyDomain).

(** What the request remembers is what the store holds, and the failures are
    counted below their bound. *)
Record remembers (objs : Objects) (st : Reading S) : Prop := {
  rm_objects : objects (rg_store st) = objs;
  rm_seen : forall key range b, fo_seen (rg_objects st) !! (key, RangeKey_from range) = Some (Ok b) ->
    exists payload token, objs !! key = Some (payload, token) /\ slice_range key payload range = Ok b;
  rm_failed : 0 <= fo_failed (rg_objects st) <= MAX_FAILED_FETCHES_PER_REQUEST;
}.

Lemma RangeKey_from_inj a b : RangeKey_from a = RangeKey_from b -> a = b.
Proof. destruct a, b; simpl; congruence. Qed.

Lemma remembers_start s : remembers (objects s) (mkReading FetchedObjects_default s).
Proof. split; simpl; [done|by intros|unfold MAX_FAILED_FETCHES_PER_REQUEST; lia]. Qed.

(** A GET that was sent leaves room to count one more failure, unless it is one. *)
Lemma fo_get_spec objs key range st st' r missed :
  remembers objs st -> fo_get key range st = (st', (r, missed)) ->
  remembers objs st' /\
  (missed = true -> (exists b, r = Ok b) -> fo_failed (rg_objects st') < MAX_FAILED_FETCHES_PER_REQUEST) /\
  forall b, r = Ok b -> exists payload token, objs !! key = Some (payload, token) /\ slice_range key payload range = Ok b.
Proof.
  intros [H1 H2 H3]. unfold fo_get. destruct (fo_seen (rg_objects st) !! _) as [seen|] eqn:Hs.
  { intros [= <- <- <-]. split_and!; [by split|done|]. intros b ->. by apply H2. }
  destruct (_ <=? _) eqn:Hf; [intros [= <- <- <-]; split_and!; [by split|done|done]|]. zbool.
  destruct (os_get key range (rg_store st)) as [store fetched] eqn:Hg. intros [= <- <- <-].
  destruct (get_law _ _ _ _ _ Hg) as [Ho Hspec]. rewrite H1 in *.
  assert (forall b, fetched = Ok b -> exists payload token, objs !! key = Some (payload, token) /\ slice_range key payload range = Ok b)
    as Hok by (by intros b ->).
  split_and!; [|intros _ (b & ->); simpl; lia|done]. split; simpl; [done| |destruct fetched; lia].
  intros key' range' b. destruct (decide ((key, RangeKey_from range) = (key', RangeKey_from range'))) as [Heq|Hne].
  - rewrite Heq, lookup_insert_eq. injection Heq as <- Hr%RangeKey_from_inj. subst range'. intros [= ->]. by apply Hok.
  - rewrite lookup_insert_ne by done. apply H2.
Qed.

Lemma remembers_noting objs st :
  remembers objs st -> fo_failed (rg_objects st) < MAX_FAILED_FETCHES_PER_REQUEST -> remembers objs (noting st).
Proof. intros [H1 H2 H3] Hlt. split; simpl; [done|done|lia]. Qed.

Lemma one_batch_spec objs batch topic partition st st' fetch :
  remembers objs st -> one_batch topic_key_domain batch topic partition st = (st', fetch) ->
  remembers objs st' /\
  (fd_missed fetch = true -> (exists b, fd_blob fetch = Ok b) -> fo_failed (rg_objects st') < MAX_FAILED_FETCHES_PER_REQUEST) /\
  forall raw, fd_blob fetch = Ok raw -> stored_batch topic_key_domain objs topic partition batch raw.
Proof.
  intros Hr. unfold one_batch. destruct batch as [entry|object].
  - destruct (fo_get _ _ st) as [st1 [blob missed]] eqn:Hg. intros [= <- <-]. simpl. by eapply fo_get_spec.
  - destruct (fo_get _ _ st) as [st1 [whole missed]] eqn:Hg.
    destruct (fo_get_spec _ _ _ _ _ _ _ Hr Hg) as (Hr1 & Hf & Hok).
    destruct whole as [whole|e|]; [|by intros [= <- <-]..]. intros [= <- <-]. simpl.
    set (sliced := match topic_key_domain topic with None => _ | Some domain => _ end).
    split_and!.
    + destruct (missed && _) eqn:Hn; [|done]. apply andb_true_iff in Hn as [-> _]. apply remembers_noting; eauto.
    + intros -> (b & Hb). rewrite Hb. simpl. eauto.
    + intros raw Hraw. unfold sliced in Hraw. destruct (Hok whole eq_refl) as (payload & token & Hp & [= ->]).
      destruct (topic_key_domain topic) as [domain|] eqn:Hd; [|done]. by exists whole, token, domain.
Qed.

Lemma read_loop_spec objs page topic partition allowance fetched records st st' r :
  remembers objs st -> read_loop topic_key_domain page topic partition allowance fetched records st = (st', r) ->
  remembers objs st' /\
  forall read, r = Ok read -> exists n blobs,
    Forall2 (served topic_key_domain objs topic partition) (take n page) blobs /\
    rd_records read = records ++ concat blobs /\
    (Z.max fetched 0 < aw_bytes allowance \/ aw_may_overshoot allowance = true -> records = [] -> page <> [] -> (1 <= n)%nat).
Proof.
  revert fetched records st. induction page as [|batch page IH]; intros fetched records st Hr; simpl.
  { intros [= <- <-]. split; [done|]. intros read [= <-]. exists 0%nat, []. simpl. rewrite app_nil_r. done. }
  destruct (_ && _) eqn:Hstop.
  { intros [= <- <-]. split; [done|]. intros read [= <-]. exists 0%nat, []. rewrite app_nil_r. split_and!; [constructor|done|].
    intros Hcan -> _. exfalso. apply andb_true_iff in Hstop as [Hover Hno]. zbool. simpl in *.
    destruct Hcan as [|Hcan]; [lia|]. by rewrite Hcan in Hno. }
  destruct (one_batch _ batch topic partition st) as [st1 fetch] eqn:Hone.
  destruct (one_batch_spec _ _ _ _ _ _ _ Hr Hone) as (Hr1 & Hf & Hok).
  destruct (fd_blob fetch) as [raw|e|] eqn:Hb.
  - destruct (rewrite_base_offset raw _ 0) as [blob|e|] eqn:Hst.
    + intros Hloop. destruct (IH _ _ _ Hr1 Hloop) as [Hr' Hread]. split; [done|]. intros read Heq.
      destruct (Hread read Heq) as (n & blobs & HF & Hrec & _). exists (Datatypes.S n), (blob :: blobs). simpl. split_and!.
      * constructor; [|done]. exists raw. eauto.
      * by rewrite Hrec, <-app_assoc.
      * lia.
    + intros [= <- <-]. split; [|done]. destruct (fd_missed fetch) eqn:Hm; [|done]. apply remembers_noting; eauto.
    + by intros [= <- <-].
  - intros [= <- <-]. split; [done|]. clear Hstop IH. case_bool_decide as Hne; [|by intros]. intros read [= <-].
    exists 0%nat, []. simpl. rewrite app_nil_r. split_and!; [constructor|done|]. by intros _ ->.
  - by intros [= <- <-].
Qed.

Lemma manifest_hops_spec objs hops key start upto cost st st' r :
  remembers objs st -> manifest_hops hops key start upto cost st = (st', r) -> remembers objs st'.
Proof.
  revert key cost st. induction hops as [|hops IH]; intros key cost st Hr; simpl; [by intros [= <- <-]|].
  destruct (fo_get key Full st) as [st1 [got missed]] eqn:Hg.
  destruct (fo_get_spec _ _ _ _ _ _ _ Hr Hg) as (Hr1 & _ & _).
  destruct got as [raw|e|]; [|by intros [= <- <-]..].
  destruct (parse_partition_manifest raw) as [parsed|e|]; [|by intros [= <- <-]..].
  destruct (pm_position parsed start); [by intros [= <- <-]|].
  destruct (pm_previous parsed); [|by intros [= <- <-]]. destruct (is_older parsed start); [|by intros [= <- <-]].
  by apply IH.
Qed.

(** Costs are sizes. *)
Lemma one_batch_cost batch topic partition st : 0 <= fd_cost (one_batch topic_key_domain batch topic partition st).2.
Proof.
  unfold one_batch. destruct batch as [entry|object]; destruct (fo_get _ _ st) as [st1 [r missed]]; simpl.
  - destruct missed, r; lia.
  - destruct r; simpl; [destruct missed; lia|lia|lia].
Qed.

Lemma read_loop_cost page topic partition allowance fetched records st st' failure :
  0 <= fetched -> read_loop topic_key_domain page topic partition allowance fetched records st = (st', Err failure) ->
  0 <= rf_fetched failure.
Proof.
  revert fetched records st. induction page as [|batch page IH]; intros fetched records st H0'; simpl; [done|].
  destruct (_ && _); [done|]. pose proof (one_batch_cost batch topic partition st) as Hc.
  destruct (one_batch _ batch topic partition st) as [st1 fetch]. simpl in Hc.
  destruct (fd_blob fetch) as [raw|e|]; [|case_bool_decide; [done|]; intros [= <- <-]; simpl; lia|done].
  destruct (rewrite_base_offset raw _ 0) as [blob|e|]; [|intros [= <- <-]; simpl; lia|done]. apply IH. lia.
Qed.

Lemma manifest_hops_cost hops key start upto cost st :
  0 <= cost -> 0 <= rs_cost (manifest_hops hops key start upto cost st).2.
Proof.
  revert key cost st. induction hops as [|hops IH]; intros key cost st H0'; simpl; [done|].
  destruct (fo_get key Full st) as [st1 [got missed]]. destruct got as [raw|e|]; simpl; [|done..].
  assert (0 <= (if missed then cost + Z.of_nat (length raw) else cost)) as H1 by (destruct missed; lia).
  destruct (parse_partition_manifest raw) as [parsed|e|]; simpl; [|done..].
  destruct (pm_position parsed start); simpl; [done|]. destruct (pm_previous parsed); simpl; [|done].
  destruct (is_older parsed start); simpl; [by apply IH|done].
Qed.

Lemma read_inner_cost index topic partition start allowance st st' failure :
  read_inner topic_key_domain index topic partition start allowance st = (st', Err failure) -> 0 <= rf_fetched failure.
Proof.
  unfold read_inner. destruct (match IndexState_manifest index topic partition with Some _ => _ | None => _ end)
    as [st1 resolved] eqn:Hm.
  assert (0 <= rs_cost resolved) as Hc.
  { destruct (IndexState_manifest index topic partition) as [[key upto]|]; [|by injection Hm as <- <-].
    destruct (_ && _) in Hm; [|by injection Hm as <- <-].
    pose proof (manifest_hops_cost MAX_MANIFEST_HOPS key start upto 0 st ltac:(lia)) as Hx.
    change (manifest_batches key start upto st) with (manifest_hops MAX_MANIFEST_HOPS key start upto 0 st) in Hm.
    by rewrite Hm in Hx. }
  destruct (rs_batches resolved) as [older|e|]; [|by intros [= <- <-]|done].
  destruct (find_batches _ _ _ _ _) as [newer|e|]; [|by intros [= <- <-]|done]. by apply read_loop_cost.
Qed.

(** A read is a loop over some page, from a state that remembers as much. *)
Lemma read_inner_page objs index topic partition start allowance st st' r :
  remembers objs st -> read_inner topic_key_domain index topic partition start allowance st = (st', r) ->
  remembers objs st' /\
  forall read, r = Ok read -> exists page cost st2, remembers objs st2 /\
    read_loop topic_key_domain page topic partition allowance cost [] st2 = (st', Ok read).
Proof.
  intros Hr. unfold read_inner. destruct (match IndexState_manifest index topic partition with Some _ => _ | None => _ end)
    as [st1 resolved] eqn:Hm.
  assert (remembers objs st1) as Hr1.
  { destruct (IndexState_manifest index topic partition) as [[key upto]|]; [|by injection Hm as <- <-].
    destruct (_ && _) in Hm; [|by injection Hm as <- <-]. eapply manifest_hops_spec; [exact Hr|exact Hm]. }
  destruct (rs_batches resolved) as [older|e|]; [|by intros [= <- <-]..].
  destruct (find_batches _ _ _ _ _) as [newer|e|]; [|by intros [= <- <-]..].
  intros Hl. split; [by eapply read_loop_spec|]. intros read ->. eauto.
Qed.
End read.

Section claims.
Context {S : Type} `{ObjectStoreLaws S}.
Context (topic_key_domain : TopicId -> option KeyDomain).

(** C5. A fetch serves what was written, in order and with no gap.  A read from
    a readable offset that no manifest covers, when it may fetch at all and
    succeeds, leaves the store as it was and answers at least one batch.  The
    batches are the first of the partition's own entries that end above the offset,
    oldest first and none left out; the first holds the offset asked for, each begins
    where the one before it ends, and the bytes are those the store holds for
    each under the object and range of that entry, with the base offset the index
    has for it. *)
Theorem read_serves_contiguous (index : IndexState) topic partition part start allowance objs (st st' : Reading S) read :
  reachable index -> IndexState_partition index topic partition = Some part ->
  aw_bytes allowance < u64_max -> Forall (fun e => batch_sized (Inline e)) (p_tail part) ->
  IndexState_log_start index topic partition <= start < IndexState_end_offset index topic partition ->
  (forall m upto, IndexState_manifest index topic partition = Some (m, upto) -> upto <= start) ->
  0 < aw_bytes allowance \/ aw_may_overshoot allowance = true -> remembers objs st ->
  read_inner topic_key_domain index topic partition start allowance st = (st', Ok read) ->
  objects (rg_store st') = objs /\
  exists first rest blobs hi,
    first :: rest `prefix_of` List.filter (fun b => start <? or_end (IndexedBatch_reference b))
      (map Footer (p_history part) ++ map Inline (p_tail part)) /\
    Forall2 (served topic_key_domain objs topic partition) (first :: rest) blobs /\ rd_records read = concat blobs /\
    ObjectRef_contains (IndexedBatch_reference first) start = Ok true /\
    chain (or_base_offset (IndexedBatch_reference first)) (map IndexedBatch_reference (first :: rest)) hi.
Proof.
  intros Hr Hp Hm Hsz Hs Hman Hcan Hrem Hread. split; [apply (read_inner_page _ _ _ _ _ _ _ _ _ _ Hrem Hread)|].
  destruct (read_is_contiguous index topic partition part start (aw_bytes allowance) Hr Hp Hm Hsz Hs Hman)
    as (first & rest & hi & Hfind & Hpre & Hhas & Hchain).
  assert (read_loop topic_key_domain (first :: rest) topic partition allowance 0 [] st = (st', Ok read)) as Hloop.
  { unfold read_inner in Hread. destruct (IndexState_manifest index topic partition) as [[key upto]|].
    - rewrite (proj2 (Z.ltb_ge _ _)) in Hread by (by eapply Hman). simpl in Hread. by rewrite Hfind in Hread.
    - simpl in Hread. by rewrite Hfind in Hread. }
  destruct (read_loop_spec topic_key_domain _ _ _ _ _ _ _ _ _ _ Hrem Hloop) as [_ Hok].
  destruct (Hok read eq_refl) as (n & blobs & HF & Hrec & Hn).
  destruct n as [|n]; [exfalso; enough (1 <= 0)%nat by lia; apply Hn; [|done..]; destruct Hcan; [left; lia|by right]|].
  exists first, (take n rest), blobs.
  assert (first :: take n rest `prefix_of` candidates part start) as Hpre'.
  { etrans; [|exact Hpre]. exists (drop n rest). by rewrite <-app_comm_cons, take_drop. }
  rewrite <-(take_drop n rest), (app_comm_cons _ _ first), map_app in Hchain. apply chain_app in Hchain as (mid & Hchain & _).
  by exists mid.
Qed.
End claims.

(** ** Two reads *)

(** A partition of 131 one-record batches: the last 128 in the tail window, the
    first three behind a manifest. *)
Definition demo_key (i : nat) : string := String.append "o" (show_len i).
Definition demo_spans (i : nat) : list CommittedSpan := [mkCommittedSpan "t" 0 1 (Bounded 0 69) None].
Definition demo_writes : list MetadataEntry :=
  map (fun i => mkMetadataEntry (Z.of_nat i + 1) (BatchCommitted (demo_key i) (demo_spans i) 0)) (seq 0 131).
Definition demo_published : list MetadataEntry := [mkMetadataEntry 132 (ManifestPublished "t" 0 "m1" 3)].
Definition demo_index : IndexState := after (after IndexState_new demo_writes) demo_published.

Definition demo_entry (i : nat) : ManifestEntry := mkManifestEntry (demo_key i) (Z.of_nat i) 1 (Bounded 0 69).
Definition demo_manifest (previous : option ObjectKey) (es : list ManifestEntry) : bytes :=
  match (let? b := build_manifest previous es in mb_seal b) with Ok b => b | _ => [] end.

Definition demo_puts (kvs : list (ObjectKey * bytes)) : FakeObjectStore :=
  foldl (fun s kv => (fake_put kv.1 kv.2 None s).1) FakeObjectStore_new kvs.

(** The newer manifest names offsets 1 and 2, the older one offset 0. *)
Definition demo_read_store : FakeObjectStore :=
  demo_puts ([("m1", demo_manifest (Some "m0") [demo_entry 1; demo_entry 2]); ("m0", demo_manifest None [demo_entry 0])] ++
    map (fun i => (demo_key i, demo_batch)) (seq 0 6)).

Definition demo_stamped (i : Z) : bytes := match rewrite_base_offset demo_batch i 0 with Ok b => b | _ => [] end.

Definition demo_read (start : Offset) : Result ReadFailure Read :=
  (read_inner (fun _ => Some DefaultDomain) demo_index "t" 0 start (mkAllowance 1000 true)
    (mkReading FetchedObjects_default demo_read_store)).2.

(** A read that begins in an older manifest of the chain goes on in the index:
    offsets 1 and 2, which the newer manifest names and which a read from 1
    serves, are left out between 0 and 3. *)
Theorem chained_manifest_is_skipped :
  (exists cost, demo_read 0 = Ok (mkRead (demo_stamped 0 ++ demo_stamped 3 ++ demo_stamped 4 ++ demo_stamped 5) cost)) /\
  exists cost, demo_read 1 = Ok (mkRead (demo_stamped 1 ++ demo_stamped 2 ++ demo_stamped 3 ++ demo_stamped 4 ++ demo_stamped 5) cost).
Proof. split; eexists; vm_compute; reflexivity. Qed.

(** A manifest of 66 one-record entries, read from its first: the page takes 64
    of them and goes on in the index at offset 66, so 64 and 65 are left out. *)
Definition demo_many : IndexState :=
  after (after IndexState_new
    (map (fun i => mkMetadataEntry (Z.of_nat i + 1) (BatchCommitted (demo_key i) (demo_spans i) 0)) (seq 0 194)))
    [mkMetadataEntry 195 (ManifestPublished "t" 0 "m" 66)].
Definition demo_many_store : FakeObjectStore :=
  demo_puts (("m", demo_manifest None (map demo_entry (seq 0 66))) :: map (fun i => (demo_key i, demo_batch)) (seq 0 68)).

Definition base_offsets (fuel : nat) (records : bytes) : list Z :=
  (fix go fuel records :=
    match fuel, records with
    | Datatypes.S fuel, _ :: _ => from_be_signed 8 (take 8 records) :: go fuel (drop 69 records)
    | _, _ => []
    end) fuel records.

Theorem long_manifest_is_skipped :
  match (read_inner (fun _ => Some DefaultDomain) demo_many "t" 0 0 (mkAllowance 100000 true)
    (mkReading FetchedObjects_default demo_many_store)).2 with
  | Ok read => drop 62 (base_offsets 100 (rd_records read)) = [62; 63; 66; 67]
  | _ => False
  end.
Proof. vm_compute. reflexivity. Qed.

(** An object that holds more than one region of a partition, as a merge of
    several inputs writes, cannot be read through its footer. *)
Theorem merged_region_is_refused payload topic partition domain :
  (2 <= length (entries_for topic partition (entries payload)))%nat ->
  slice_region payload topic partition domain = Err IndexObjectMismatch.
Proof.
  unfold entries, slice_region. destruct (parse_footer _ _) as [regions|e|]; simpl; try lia.
  unfold entries_for. rewrite filter_map_swap, length_map. unfold region_for. intros Hlen.
  rewrite (filter_ext _ (fun region => entry_in topic partition (entry_at payload region))) by done.
  by destruct (List.filter _ regions) as [|r [|r' rs]]; simpl in *; try lia.
Qed.

(** Two objects of one batch each, merged. *)
Definition demo_pair_store : FakeObjectStore :=
  demo_puts [("a", demo_object_of [PushPlain "t" 0 (mkPushedRecords 1 None) demo_batch]);
             ("b", demo_object_of [PushPlain "t" 0 (mkPushedRecords 1 None) demo_batch])].
Definition demo_pair_merged : FakeObjectStore :=
  (merge_round [mkPlannedInputs (mkCompactionPlan "t" 0 0 2 ReadAmp_zero) [mkObjectRef "a" 0 1; mkObjectRef "b" 1 1]]
    (mkCompactionNamer "w" 0) demo_pair_store).1.1.

Lemma merged_region_is_refused_witness :
  let payload := match objects demo_pair_merged !! "compacted/w/00000000000000000000" with Some (b, _) => b | None => [] end in
  length (entries_for "t" 0 (entries payload)) = 2%nat /\ slice_region payload "t" 0 DefaultDomain = Err IndexObjectMismatch.
Proof. split; [vm_compute; reflexivity|]. apply merged_region_is_refused. apply Nat.leb_le. vm_compute. reflexivity. Defined.

Lemma demo_index_reachable : reachable demo_index.
Proof. apply reachable_after; [|vm_decide]. apply reachable_after; [constructor|vm_decide]. Qed.

Definition demo_slot : PartitionIndex := default PartitionIndex_default (IndexState_partition demo_index "t" 0).

Lemma read_serves_contiguous_witness :
  exists first rest blobs hi,
    Forall2 (served (fun _ => Some DefaultDomain) (objects demo_read_store) "t" 0) (first :: rest) blobs /\
    demo_stamped 3 ++ demo_stamped 4 ++ demo_stamped 5 = concat blobs /\
    chain (or_base_offset (IndexedBatch_reference first)) (map IndexedBatch_reference (first :: rest)) hi.
Proof.
  destruct (read_serves_contiguous (fun _ => Some DefaultDomain) demo_index "t" 0 demo_slot 3 (mkAllowance 1000 true)
    (objects demo_read_store) (mkReading FetchedObjects_default demo_read_store)
    (read_inner (fun _ => Some DefaultDomain) demo_index "t" 0 3 (mkAllowance 1000 true)
      (mkReading FetchedObjects_default demo_read_store)).1
    (mkRead (demo_stamped 3 ++ demo_stamped 4 ++ demo_stamped 5) 207)) as (_ & first & rest & blobs & hi & _ & H1 & H2 & _ & H4).
  - apply demo_index_reachable.
  - vm_compute. reflexivity.
  - vm_decide.
  - vm_decide.
  - vm_decide.
  - vm_compute. intros m upto [= <- <-]. discriminate.
  - by left.
  - apply remembers_start.
  - vm_compute. reflexivity.
  - by exists first, rest, blobs, hi.
Defined.
