(* ===== verification/Api.v ===== *)
(** * Api: API keys, advertised versions and the request frame

    Models [oqueue-codec/src/apikey.rs], [versions.rs], [advertised.rs] and
    [frame.rs]: which requests the broker serves at which versions, and the
    header that precedes every request and response body. *)

From stdpp Require Import base tactics list numbers strings.
From Stdlib Require Import ZArith Lia.
From S2P Require Import Prelude Bytes Wire.

Open Scope Z_scope.

Inductive ApiKey : Type :=
| Produce | Fetch | ListOffsets | MetadataApi | CreateTopics | DeleteTopics | DescribeConfigs | AlterConfigs
| IncrementalAlterConfigs | OffsetCommit | OffsetFetch | FindCoordinator | JoinGroup | Heartbeat | LeaveGroup
| SyncGroup | DescribeGroups | ListGroups | SaslHandshake | ApiVersions | InitProducerId | SaslAuthenticate
| DescribeClientQuotas | AlterClientQuotas.

#[export] Instance ApiKey_eq_dec : EqDecision ApiKey.
Proof. solve_decision. Defined.

Definition as_i16 (self : ApiKey) : Z :=
  match self with
  | Produce => 0 | Fetch => 1 | ListOffsets => 2 | MetadataApi => 3 | CreateTopics => 19 | DeleteTopics => 20
  | DescribeConfigs => 32 | AlterConfigs => 33 | IncrementalAlterConfigs => 44 | OffsetCommit => 8
  | OffsetFetch => 9 | FindCoordinator => 10 | JoinGroup => 11 | Heartbeat => 12 | LeaveGroup => 13
  | SyncGroup => 14 | DescribeGroups => 15 | ListGroups => 16 | SaslHandshake => 17 | ApiVersions => 18
  | InitProducerId => 22 | SaslAuthenticate => 36 | DescribeClientQuotas => 48 | AlterClientQuotas => 49
  end.

Definition from_i16 (key : Z) : option ApiKey :=
  match key with
  | 0 => Some Produce
  | 1 => Some Fetch
  | 2 => Some ListOffsets
  | 3 => Some MetadataApi
  | 19 => Some CreateTopics
  | 20 => Some DeleteTopics
  | 32 => Some DescribeConfigs
  | 33 => Some AlterConfigs
  | 44 => Some IncrementalAlterConfigs
  | 8 => Some OffsetCommit
  | 9 => Some OffsetFetch
  | 10 => Some FindCoordinator
  | 11 => Some JoinGroup
  | 12 => Some Heartbeat
  | 13 => Some LeaveGroup
  | 14 => Some SyncGroup
  | 15 => Some DescribeGroups
  | 16 => Some ListGroups
  | 17 => Some SaslHandshake
  | 18 => Some ApiVersions
  | 22 => Some InitProducerId
  | 36 => Some SaslAuthenticate
  | 48 => Some DescribeClientQuotas
  | 49 => Some AlterClientQuotas
  | _ => None
  end.

(** ** The version table ([versions.rs], [advertised.rs]) *)

Record Advertised : Type := mkAdvertised {
  ad_api_key : ApiKey;
  ad_min : Z;
  ad_max : Z;
  ad_flexible_from : option Z;
}.

Definition ADVERTISED : list Advertised :=
  [ mkAdvertised Produce 3 13 (Some 9);
    mkAdvertised Fetch 4 17 (Some 12);
    mkAdvertised ListOffsets 1 9 (Some 6);
    mkAdvertised MetadataApi 0 13 (Some 9);
    mkAdvertised OffsetCommit 2 9 (Some 8);
    mkAdvertised OffsetFetch 1 7 (Some 6);
    mkAdvertised FindCoordinator 0 6 (Some 3);
    mkAdvertised JoinGroup 0 9 (Some 6);
    mkAdvertised Heartbeat 0 4 (Some 4);
    mkAdvertised LeaveGroup 0 5 (Some 4);
    mkAdvertised SyncGroup 0 5 (Some 4);
    mkAdvertised DescribeGroups 0 5 (Some 5);
    mkAdvertised ListGroups 0 4 (Some 3);
    mkAdvertised SaslHandshake 0 1 None;
    mkAdvertised ApiVersions 0 3 (Some 3);
    mkAdvertised CreateTopics 2 7 (Some 5);
    mkAdvertised DeleteTopics 1 6 (Some 4);
    mkAdvertised DescribeConfigs 1 4 (Some 4);
    mkAdvertised AlterConfigs 0 2 (Some 2);
    mkAdvertised IncrementalAlterConfigs 0 1 (Some 1);
    mkAdvertised InitProducerId 0 4 (Some 2);
    mkAdvertised SaslAuthenticate 0 2 (Some 2);
    mkAdvertised DescribeClientQuotas 0 1 (Some 1);
    mkAdvertised AlterClientQuotas 0 1 (Some 1) ].

Definition advertised_for (api_key : ApiKey) : option Advertised :=
  List.find (fun a => bool_decide (ad_api_key a = api_key)) ADVERTISED.

Definition supports (api_key : ApiKey) (version : Z) : bool :=
  match advertised_for api_key with
  | Some a => (ad_min a <=? version) && (version <=? ad_max a)
  | None => false
  end.

Definition is_flexible (self : ApiKey) (version : Z) : bool :=
  match advertised_for self with
  | Some a => match ad_flexible_from a with Some from => from <=? version | None => false end
  | None => false
  end.

Definition request_header_version (self : ApiKey) (version : Z) : Z :=
  (if is_flexible self version then 1 else 0) + 1.

Definition response_header_version (self : ApiKey) (version : Z) : Z :=
  if bool_decide (self = ApiVersions) then 0 else if is_flexible self version then 1 else 0.

(** ** The frame ([frame.rs]) *)

Record RequestPrelude : Type := mkRequestPrelude {
  rp_api_key : Z;
  rp_api_version : Z;
  rp_correlation_id : Z;
}.

Record RequestHeader : Type := mkRequestHeader {
  rh_api_key : Z;
  rh_api_version : Z;
  rh_correlation_id : Z;
  rh_client_id : option string;
}.

Inductive FrameError : Type :=
| FrameDecode (e : DecodeError)
| UnknownApiKey (api_key : Z)
| BodyTooLarge (length : Z).

(** [?] over a decode in a frame function. *)
Definition framed {A} (r : Result DecodeError A) : Result FrameError A :=
  match r with Ok a => Ok a | Err e => Err (FrameDecode e) | Panic => Panic end.

(** A decoder runs a cursor from the start of its body. *)
Definition decode_body {A} (m : WireReader A) (body : bytes) : Result DecodeError A :=
  let? (a, _) := m body 0%nat in Ok a.

Definition prelude : WireReader RequestPrelude :=
  rd! api_key := read_i16 in
  rd! api_version := read_i16 in
  rd! correlation_id := read_i32 in
  rd_ret (mkRequestPrelude api_key api_version correlation_id).

Definition read_request_prelude (body : bytes) : Result DecodeError RequestPrelude := decode_body prelude body.

(** The cursor of [decode_request_header], once the header version is known. *)
Definition header_fields (header_version : Z) : WireReader (option string) :=
  rd! _ := read_i16 in
  rd! _ := read_i16 in
  rd! _ := read_i32 in
  rd! client_id := (if 1 <=? header_version then read_legacy_nullable_string else rd_ret None) in
  rd! _ := (if 2 <=? header_version then read_tagged_fields else rd_ret (mkTaggedFields [])) in
  rd_ret client_id.

Definition decode_request_header (body : bytes) : Result FrameError (RequestHeader * nat) :=
  let? p := framed (read_request_prelude body) in
  match from_i16 (rp_api_key p) with
  | None => Err (UnknownApiKey (rp_api_key p))
  | Some api_key =>
      let header_version := request_header_version api_key (rp_api_version p) in
      let? (client_id, at_) := framed (header_fields header_version body 0%nat) in
      Ok (mkRequestHeader (rp_api_key p) (rp_api_version p) (rp_correlation_id p) client_id, at_)
  end.

Definition encode_response_header (out : bytes) (api_key : ApiKey) (api_version correlation_id : Z) : bytes :=
  let out := put_i32 out correlation_id in
  if 1 <=? response_header_version api_key api_version
  then put_tagged_fields out (mkTaggedFields []) else out.

Definition write_frame (out body : bytes) : Result FrameError bytes :=
  if Z.of_nat (length body) <=? i32_max
  then Ok (put_i32 out (Z.of_nat (length body)) ++ body)
  else Err (BodyTooLarge (Z.of_nat (length body))).

Lemma from_as_i16 k : from_i16 (as_i16 k) = Some k.
Proof. by destruct k. Qed.

Lemma as_from_i16 z k : from_i16 z = Some k -> as_i16 k = z.
Proof. unfold from_i16. repeat case_match; intros [= <-]; done. Qed.
