(* ===== verification/Msg.v ===== *)
(** * Msg: what the message codecs share

    The steps every [decode_request] and [encode_response] of
    [oqueue-codec/src] is built from: counts, skipped tagged fields, topic ids
    and the check that nothing follows a body, and emission into a buffer as a
    sequence of steps. *)

From stdpp Require Import base tactics list numbers strings.
From Stdlib Require Import ZArith Lia.
From S2P Require Import Prelude Bytes Wire.

Open Scope Z_scope.

(** ** Reading *)

(** [read_array_len(&mut cur, flexible)?.unwrap_or(0)]. *)
Definition read_count (flexible : bool) : WireReader nat :=
  rd! count := read_array_len flexible in rd_ret (default 0%nat count).

(** [read_array_len(..)?.ok_or_else(|| UnexpectedNull { at: cur.position() })?]. *)
Definition required_count (flexible : bool) : WireReader nat :=
  rd! count := read_array_len flexible in
  rd! at_ := position in
  not_null at_ count.

(** [for _ in 0..count { items.push(item?) }]. *)
Definition read_items {A} (count : WireReader nat) (item : WireReader A) : WireReader (list A) :=
  rd! n := count in rd_times n item.

Definition skip_tags (flexible : bool) : WireReader unit :=
  if flexible then rd! _ := read_tagged_fields in rd_ret tt else rd_ret tt.

(** [metadata::TopicId], and [read_topic_id]. *)
Definition ZERO_TOPIC_ID : bytes := replicate 16 0.
Definition read_topic_id : WireReader bytes := cur_take 16.

(** A field some versions carry. *)
Definition read_if {A} (c : bool) (m : WireReader A) (absent : A) : WireReader A :=
  if c then m else rd_ret absent.

Definition skip_if {A} (c : bool) (m : WireReader A) : WireReader unit :=
  if c then rd! _ := m in rd_ret tt else rd_ret tt.

(** [if cur.remaining() != 0 { return Err(LengthOutOfBounds { .. }) }]. *)
Definition finish {A} (value : A) : WireReader A :=
  rd! n := cur_remaining in
  rd! at_ := position in
  if (n =? 0)%nat then rd_ret value else cur_fail (LengthOutOfBounds (Z.of_nat n) 0 at_).

(** An [f64] is carried by its bits. *)
Definition read_f64 : WireReader Z := rd! b := cur_take 8 in rd_ret (from_be b).

(** [produce::read_nullable_bytes]. *)
Definition read_nullable_bytes (flexible : bool) : WireReader (option bytes) :=
  if flexible then read_compact_nullable_bytes else read_nullable_length_prefixed u32_max.

(** ** Emission *)

Definition Put : Type := bytes -> bytes.

Definition put_nothing : Put := fun out => out.
Definition put_then (p q : Put) : Put := fun out => q (p out).
Definition put_when (c : bool) (p : Put) : Put := if c then p else put_nothing.
Definition put_each {A} (f : A -> Put) (l : list A) : Put := fun out => foldl (fun out a => f a out) out l.

Notation "p >+ q" := (put_then p q) (at level 60, right associativity) : oq_scope.

Definition e_i8 (v : Z) : Put := fun out => put_i8 out v.
Definition e_i16 (v : Z) : Put := fun out => put_i16 out v.
Definition e_i32 (v : Z) : Put := fun out => put_i32 out v.
Definition e_i64 (v : Z) : Put := fun out => put_i64 out v.
Definition e_bool (v : bool) : Put := fun out => put_bool out v.
Definition e_raw (bs : bytes) : Put := fun out => out ++ bs.

(** [put_f64], of an [f64]'s bits. *)
Definition put_f64 (buf : bytes) (v : Z) : bytes := buf ++ be_bytes 8 v.
Definition e_f64 (v : Z) : Put := fun out => put_f64 out v.
Definition e_str (flexible : bool) (s : string) : Put := fun out => put_string out flexible s.
Definition e_nstr (flexible : bool) (s : option string) : Put := fun out => put_nullable_string out flexible s.
Definition e_bytes (flexible : bool) (b : bytes) : Put := fun out => put_bytes out flexible b.
Definition e_len (flexible : bool) (n : nat) : Put := fun out => put_array_len out flexible (Some n).

(** [put_tagged_fields(out, &TaggedFields::default())]. *)
Definition e_tags : Put := fun out => put_tagged_fields out (mkTaggedFields []).

(** [fetch::put_nullable_bytes]. *)
Definition put_nullable_bytes (out : bytes) (flexible : bool) (value : option bytes) : bytes :=
  if flexible then put_compact_nullable_bytes out value
  else match value with
       | None => put_i32 out (-1)
       | Some b => put_i32 out (clamp i32_max (length b)) ++ b
       end.
Definition e_nbytes (flexible : bool) (b : option bytes) : Put := fun out => put_nullable_bytes out flexible b.

(** An array: its length, then its items. *)
Definition e_array {A} (flexible : bool) (f : A -> Put) (l : list A) : Put :=
  e_len flexible (length l) >+ put_each f l.
