(* ===== verification/MsgData.v ===== *)
(** * MsgData: the produce, fetch and connection messages

    Models the request decoders and response encoders of
    [oqueue-codec/src/produce.rs], [fetch.rs], [listoffsets.rs],
    [metadata.rs], [init_producer_id.rs], [apiversions.rs],
    [sasl_handshake.rs] and [sasl_authenticate.rs]. *)

From stdpp Require Import base tactics list numbers strings.
From Stdlib Require Import ZArith Lia.
From S2P Require Import Prelude Bytes Wire Api Msg.

Open Scope Z_scope.

(** How a response names a topic. *)
Inductive TopicIdentity : Type :=
| TopicName (name : string)
| TopicUuid (id : bytes).

Definition e_identity (flexible : bool) (identity : TopicIdentity) : Put :=
  match identity with
  | TopicName name => e_str flexible name
  | TopicUuid id => e_raw id
  end.

(** ** Produce *)

Record ProducePartition : Type := mkProducePartition { pp_index : Z; pp_records : option bytes }.
Record ProduceTopic : Type := mkProduceTopic {
  pt_name : option string;
  pt_topic_id : bytes;
  pt_partitions : list ProducePartition;
}.
Record ProduceRequest : Type := mkProduceRequest { pr_acks : Z; pr_topics : list ProduceTopic }.

Definition read_produce_partition (flexible : bool) : WireReader ProducePartition :=
  rd! index := read_i32 in
  rd! records := read_nullable_bytes flexible in
  rd! _ := skip_tags flexible in
  rd_ret (mkProducePartition index records).

Definition read_produce_topic (version : Z) (flexible : bool) : WireReader ProduceTopic :=
  rd! name := read_if (version <=? 12) (read_nullable_string flexible) None in
  rd! topic_id := read_if (13 <=? version) read_topic_id ZERO_TOPIC_ID in
  rd! partitions := read_items (read_count flexible) (read_produce_partition flexible) in
  rd! _ := skip_tags flexible in
  rd_ret (mkProduceTopic name topic_id partitions).

Definition produce_decode_request (version : Z) : WireReader ProduceRequest :=
  let flexible := 9 <=? version in
  rd! _ := read_nullable_string flexible in
  rd! acks := read_i16 in
  rd! _ := read_i32 in
  rd! topics := read_items (read_count flexible) (read_produce_topic version flexible) in
  rd_ret (mkProduceRequest acks topics).

Record ProduceResponsePartition : Type := mkProduceResponsePartition {
  prp_index : Z;
  prp_error_code : Z;
  prp_base_offset : Z;
}.
Record ProduceResponseTopic : Type := mkProduceResponseTopic {
  prt_identity : TopicIdentity;
  prt_partitions : list ProduceResponsePartition;
}.

Definition LOG_APPEND_TIME_UNSET : Z := -1.

Definition produce_encode_response (version : Z) (topics : list ProduceResponseTopic) : Put :=
  let flexible := 9 <=? version in
  e_array flexible (fun topic =>
    e_identity flexible (prt_identity topic) >+
    e_array flexible (fun p =>
      e_i32 (prp_index p) >+ e_i16 (prp_error_code p) >+ e_i64 (prp_base_offset p) >+
      e_i64 LOG_APPEND_TIME_UNSET >+
      put_when (5 <=? version) (e_i64 0) >+
      put_when (8 <=? version) (e_len flexible 0 >+ e_nstr flexible None) >+
      put_when flexible e_tags) (prt_partitions topic) >+
    put_when flexible e_tags) topics >+
  e_i32 0 >+
  put_when flexible e_tags.

(** ** Fetch *)

Record FetchPartition : Type := mkFetchPartition {
  fp_index : Z;
  fp_fetch_offset : Z;
  fp_partition_max_bytes : Z;
}.
Record FetchTopic : Type := mkFetchTopic {
  ft_name : option string;
  ft_topic_id : bytes;
  ft_partitions : list FetchPartition;
}.
Record FetchRequest : Type := mkFetchRequest {
  fr_max_wait_ms : Z;
  fr_min_bytes : Z;
  fr_max_bytes : Z;
  fr_isolation_level : Z;
  fr_topics : list FetchTopic;
}.

Definition read_fetch_partition (version : Z) (flexible : bool) : WireReader FetchPartition :=
  rd! index := read_i32 in
  rd! _ := skip_if (9 <=? version) read_i32 in
  rd! fetch_offset := read_i64 in
  rd! _ := skip_if (12 <=? version) read_i32 in
  rd! _ := skip_if (5 <=? version) read_i64 in
  rd! partition_max_bytes := read_i32 in
  rd! _ := skip_tags flexible in
  rd_ret (mkFetchPartition index fetch_offset partition_max_bytes).

Definition read_fetch_topic (version : Z) (flexible : bool) : WireReader FetchTopic :=
  rd! name := read_if (version <=? 12) (read_nullable_string flexible) None in
  rd! topic_id := read_if (13 <=? version) read_topic_id ZERO_TOPIC_ID in
  rd! partitions := read_items (read_count flexible) (read_fetch_partition version flexible) in
  rd! _ := skip_tags flexible in
  rd_ret (mkFetchTopic name topic_id partitions).

Definition skip_forgotten_topics (version : Z) (flexible : bool) : WireReader unit :=
  rd! _ := read_items (read_count flexible)
    (rd! _ := skip_if (version <=? 12) (read_nullable_string flexible) in
     rd! _ := skip_if (13 <=? version) read_topic_id in
     rd! _ := read_items (read_count flexible) read_i32 in
     skip_tags flexible) in
  rd_ret tt.

Definition fetch_decode_request (version : Z) : WireReader FetchRequest :=
  let flexible := 12 <=? version in
  rd! _ := skip_if (version <=? 14) read_i32 in
  rd! max_wait_ms := read_i32 in
  rd! min_bytes := read_i32 in
  rd! max_bytes := read_i32 in
  rd! isolation_level := read_i8 in
  rd! _ := skip_if (7 <=? version) (rd! _ := read_i32 in read_i32) in
  rd! topics := read_items (read_count flexible) (read_fetch_topic version flexible) in
  rd! _ := skip_if (7 <=? version) (skip_forgotten_topics version flexible) in
  rd! _ := skip_if (11 <=? version) (read_nullable_string flexible) in
  rd! _ := skip_tags flexible in
  rd_ret (mkFetchRequest max_wait_ms min_bytes max_bytes isolation_level topics).

Record FetchResponsePartition : Type := mkFetchResponsePartition {
  frp_index : Z;
  frp_error_code : Z;
  frp_high_watermark : Z;
  frp_last_stable_offset : Z;
  frp_log_start_offset : Z;
  frp_records : option bytes;
}.
Record FetchResponseTopic : Type := mkFetchResponseTopic {
  frt_identity : TopicIdentity;
  frt_partitions : list FetchResponsePartition;
}.

Definition fetch_encode_response (version : Z) (topics : list FetchResponseTopic) : Put :=
  let flexible := 12 <=? version in
  e_i32 0 >+
  put_when (7 <=? version) (e_i16 0 >+ e_i32 0) >+
  e_array flexible (fun topic =>
    e_identity flexible (frt_identity topic) >+
    e_array flexible (fun p =>
      e_i32 (frp_index p) >+ e_i16 (frp_error_code p) >+ e_i64 (frp_high_watermark p) >+
      e_i64 (frp_last_stable_offset p) >+
      put_when (5 <=? version) (e_i64 (frp_log_start_offset p)) >+
      e_len flexible 0 >+
      put_when (11 <=? version) (e_i32 (-1)) >+
      e_nbytes flexible (frp_records p) >+
      put_when flexible e_tags) (frt_partitions topic) >+
    put_when flexible e_tags) topics >+
  put_when flexible e_tags.

(** ** ListOffsets *)

Definition LATEST_TIMESTAMP : Z := -1.
Definition EARLIEST_TIMESTAMP : Z := -2.

Record ListOffsetsPartition : Type := mkListOffsetsPartition { lp_index : Z; lp_timestamp : Z }.
Record ListOffsetsTopic : Type := mkListOffsetsTopic {
  lt_name : option string;
  lt_partitions : list ListOffsetsPartition;
}.
Record ListOffsetsRequest : Type := mkListOffsetsRequest {
  lr_isolation_level : Z;
  lr_topics : list ListOffsetsTopic;
}.

Definition read_list_offsets_partition (version : Z) (flexible : bool) : WireReader ListOffsetsPartition :=
  rd! index := read_i32 in
  rd! _ := skip_if (4 <=? version) read_i32 in
  rd! timestamp := read_i64 in
  rd! _ := skip_if (version =? 0) read_i32 in
  rd! _ := skip_tags flexible in
  rd_ret (mkListOffsetsPartition index timestamp).

Definition list_offsets_decode_request (version : Z) : WireReader ListOffsetsRequest :=
  let flexible := 6 <=? version in
  rd! _ := read_i32 in
  rd! isolation_level := read_if (2 <=? version) read_i8 0 in
  rd! topics := read_items (read_count flexible)
    (rd! name := read_nullable_string flexible in
     rd! partitions := read_items (read_count flexible) (read_list_offsets_partition version flexible) in
     rd! _ := skip_tags flexible in
     rd_ret (mkListOffsetsTopic name partitions)) in
  rd! _ := skip_tags flexible in
  rd_ret (mkListOffsetsRequest isolation_level topics).

Record ListOffsetsResponsePartition : Type := mkListOffsetsResponsePartition {
  lrp_index : Z;
  lrp_error_code : Z;
  lrp_timestamp : Z;
  lrp_offset : Z;
}.
Record ListOffsetsResponseTopic : Type := mkListOffsetsResponseTopic {
  lrt_name : string;
  lrt_partitions : list ListOffsetsResponsePartition;
}.

Definition list_offsets_encode_response (version : Z) (topics : list ListOffsetsResponseTopic) : Put :=
  let flexible := 6 <=? version in
  put_when (2 <=? version) (e_i32 0) >+
  e_array flexible (fun topic =>
    e_str flexible (lrt_name topic) >+
    e_array flexible (fun p =>
      e_i32 (lrp_index p) >+ e_i16 (lrp_error_code p) >+ e_i64 (lrp_timestamp p) >+ e_i64 (lrp_offset p) >+
      put_when (4 <=? version) (e_i32 (-1)) >+
      put_when flexible e_tags) (lrt_partitions topic) >+
    put_when flexible e_tags) topics >+
  put_when flexible e_tags.

(** ** Metadata *)

Record MetadataRequestTopic : Type := mkMetadataRequestTopic {
  mt_topic_id : bytes;
  mt_name : option string;
}.
Record MetadataRequest : Type := mkMetadataRequest {
  mr_topics : option (list MetadataRequestTopic);
  mr_allow_auto_topic_creation : bool;
}.

(** A null array is [None]. *)
Definition read_optional_items {A} (flexible : bool) (item : WireReader A) : WireReader (option (list A)) :=
  rd! count := read_array_len flexible in
  match count with
  | None => rd_ret None
  | Some count => rd! items := rd_times count item in rd_ret (Some items)
  end.

Definition metadata_decode_request (version : Z) : WireReader MetadataRequest :=
  let flexible := 9 <=? version in
  rd! topics := read_optional_items flexible
    (rd! topic_id := read_if (10 <=? version) read_topic_id ZERO_TOPIC_ID in
     rd! name := read_nullable_string flexible in
     rd! _ := skip_tags flexible in
     rd_ret (mkMetadataRequestTopic topic_id name)) in
  rd! allow_auto_topic_creation := read_if (4 <=? version) read_bool true in
  rd_ret (mkMetadataRequest topics allow_auto_topic_creation).

Record MetadataResponseTopic : Type := mkMetadataResponseTopic {
  mrt_error_code : Z;
  mrt_name : option string;
  mrt_topic_id : bytes;
  mrt_partition_count : nat;
}.
Record MetadataResponse : Type := mkMetadataResponse {
  mrs_node_id : Z;
  mrs_host : string;
  mrs_port : Z;
  mrs_cluster_id : option string;
  mrs_controller_id : Z;
  mrs_topics : list MetadataResponseTopic;
}.

(** [i32::MIN]. *)
Definition AUTHORIZED_OPERATIONS_OMITTED : Z := - i32_max - 1.

Definition put_int32_array (flexible : bool) (values : list Z) : Put := e_array flexible e_i32 values.

Definition metadata_encode_response (version : Z) (resp : MetadataResponse) : Put :=
  let flexible := 9 <=? version in
  put_when (3 <=? version) (e_i32 0) >+
  e_len flexible 1 >+
  e_i32 (mrs_node_id resp) >+ e_nstr flexible (Some (mrs_host resp)) >+ e_i32 (mrs_port resp) >+
  put_when (1 <=? version) (e_nstr flexible None) >+
  put_when flexible e_tags >+
  put_when (2 <=? version) (e_nstr flexible (mrs_cluster_id resp)) >+
  put_when (1 <=? version) (e_i32 (mrs_controller_id resp)) >+
  e_array flexible (fun topic =>
    e_i16 (mrt_error_code topic) >+
    e_nstr flexible (mrt_name topic) >+
    put_when (10 <=? version) (e_raw (mrt_topic_id topic)) >+
    put_when (1 <=? version) (e_bool false) >+
    e_array flexible (fun index =>
      e_i16 0 >+ e_i32 (clamp i32_max index) >+ e_i32 (mrs_node_id resp) >+
      put_when (7 <=? version) (e_i32 0) >+
      put_int32_array flexible [mrs_node_id resp] >+
      put_int32_array flexible [mrs_node_id resp] >+
      put_when (5 <=? version) (put_int32_array flexible []) >+
      put_when flexible e_tags) (seq 0 (mrt_partition_count topic)) >+
    put_when (8 <=? version) (e_i32 AUTHORIZED_OPERATIONS_OMITTED) >+
    put_when flexible e_tags) (mrs_topics resp) >+
  put_when ((8 <=? version) && (version <=? 10)) (e_i32 AUTHORIZED_OPERATIONS_OMITTED) >+
  put_when (13 <=? version) (e_i16 0) >+
  put_when flexible e_tags.

(** ** InitProducerId *)

Record InitProducerIdRequest : Type := mkInitProducerIdRequest { ip_transactional_id : option string }.

Definition init_producer_id_decode_request (version : Z) : WireReader InitProducerIdRequest :=
  let flexible := 2 <=? version in
  rd! transactional_id := read_nullable_string flexible in
  rd! _ := read_i32 in
  rd! _ := skip_if (3 <=? version) (rd! _ := read_i64 in read_i16) in
  rd! _ := skip_tags flexible in
  rd_ret (mkInitProducerIdRequest transactional_id).

Record InitProducerIdResponse : Type := mkInitProducerIdResponse {
  ipr_error_code : Z;
  ipr_producer_id : Z;
  ipr_producer_epoch : Z;
}.

Definition init_producer_id_encode_response (version : Z) (resp : InitProducerIdResponse) : Put :=
  let flexible := 2 <=? version in
  e_i32 0 >+ e_i16 (ipr_error_code resp) >+ e_i64 (ipr_producer_id resp) >+ e_i16 (ipr_producer_epoch resp) >+
  put_when flexible e_tags.

(** ** ApiVersions: the request body is not read *)

Definition api_versions_encode_response_for (body_version error_code : Z) (advertised : list Advertised) : Put :=
  e_i16 error_code >+
  (if 3 <=? body_version then fun out => put_compact_array_len out (Some (length advertised))
   else e_i32 (clamp i32_max (length advertised))) >+
  put_each (fun row =>
    e_i16 (as_i16 (ad_api_key row)) >+ e_i16 (ad_min row) >+ e_i16 (ad_max row) >+
    put_when (3 <=? body_version) e_tags) advertised >+
  put_when (1 <=? body_version) (e_i32 0) >+
  put_when (3 <=? body_version) e_tags.

Definition api_versions_encode_response (body_version error_code : Z) : Put :=
  api_versions_encode_response_for body_version error_code ADVERTISED.

(** ** SASL *)

Record SaslHandshakeRequest : Type := mkSaslHandshakeRequest { sh_mechanism : string }.

Definition sasl_handshake_decode_request : WireReader SaslHandshakeRequest :=
  rd! mechanism := read_string false in rd_ret (mkSaslHandshakeRequest mechanism).

Record SaslHandshakeResponse : Type := mkSaslHandshakeResponse {
  shr_error_code : Z;
  shr_mechanisms : list string;
}.

Definition sasl_handshake_encode_response (resp : SaslHandshakeResponse) : Put :=
  e_i16 (shr_error_code resp) >+ e_array false (e_str false) (shr_mechanisms resp).

(** [Redacted] hides its value from formatting only. *)
Record SaslAuthenticateRequest : Type := mkSaslAuthenticateRequest { sa_auth_bytes : bytes }.

Definition sasl_authenticate_decode_request (version : Z) : WireReader SaslAuthenticateRequest :=
  let flexible := 2 <=? version in
  rd! auth_bytes := read_bytes flexible in
  rd! _ := skip_tags flexible in
  rd_ret (mkSaslAuthenticateRequest auth_bytes).

Record SaslAuthenticateResponse : Type := mkSaslAuthenticateResponse {
  sar_error_code : Z;
  sar_error_message : option string;
  sar_auth_bytes : bytes;
  sar_session_lifetime_ms : Z;
}.

Definition sasl_authenticate_encode_response (version : Z) (resp : SaslAuthenticateResponse) : Put :=
  let flexible := 2 <=? version in
  e_i16 (sar_error_code resp) >+ e_nstr flexible (sar_error_message resp) >+
  e_bytes flexible (sar_auth_bytes resp) >+
  put_when (1 <=? version) (e_i64 (sar_session_lifetime_ms resp)) >+
  put_when flexible e_tags.
