(* ===== verification/MsgGroup.v ===== *)
(** * MsgGroup: the consumer-group messages

    Models the request decoders and response encoders of
    [oqueue-codec/src/join_group.rs], [sync_group.rs], [heartbeat.rs],
    [leave_group.rs], [offset_commit.rs], [offset_fetch.rs],
    [find_coordinator.rs], [list_groups.rs] and [describe_groups.rs]. *)

From stdpp Require Import base tactics list numbers strings.
From Stdlib Require Import ZArith Lia.
From S2P Require Import Prelude Bytes ErrorCodes Wire Api Msg MsgData.

Open Scope Z_scope.

(** ** JoinGroup *)

Record JoinGroupRequestProtocol : Type := mkJoinGroupRequestProtocol { jp_name : string; jp_metadata : bytes }.
Record JoinGroupRequest : Type := mkJoinGroupRequest {
  jr_group_id : string;
  jr_session_timeout_ms : Z;
  jr_rebalance_timeout_ms : Z;
  jr_member_id : string;
  jr_group_instance_id : option string;
  jr_protocol_type : string;
  jr_protocols : list JoinGroupRequestProtocol;
  jr_reason : option string;
}.

Definition join_group_decode_request (version : Z) : WireReader JoinGroupRequest :=
  let flexible := 6 <=? version in
  rd! group_id := read_string flexible in
  rd! session_timeout_ms := read_i32 in
  rd! rebalance_timeout_ms := read_if (1 <=? version) read_i32 0 in
  rd! member_id := read_string flexible in
  rd! group_instance_id := read_if (5 <=? version) (read_nullable_string flexible) None in
  rd! protocol_type := read_string flexible in
  rd! protocols := read_items (read_count flexible)
    (rd! name := read_string flexible in
     rd! metadata := read_bytes flexible in
     rd! _ := skip_tags flexible in
     rd_ret (mkJoinGroupRequestProtocol name metadata)) in
  rd! reason := read_if (8 <=? version) (read_nullable_string flexible) None in
  rd! _ := skip_tags flexible in
  rd_ret (mkJoinGroupRequest group_id session_timeout_ms rebalance_timeout_ms member_id group_instance_id
    protocol_type protocols reason).

Record JoinGroupResponseMember : Type := mkJoinGroupResponseMember {
  jm_member_id : string;
  jm_group_instance_id : option string;
  jm_metadata : bytes;
}.
Record JoinGroupResponse : Type := mkJoinGroupResponse {
  js_error_code : Z;
  js_generation_id : Z;
  js_protocol_type : option string;
  js_protocol_name : option string;
  js_leader : string;
  js_skip_assignment : bool;
  js_member_id : string;
  js_members : list JoinGroupResponseMember;
}.

Definition join_group_encode_response (version : Z) (resp : JoinGroupResponse) : Put :=
  let flexible := 6 <=? version in
  put_when (2 <=? version) (e_i32 0) >+
  e_i16 (js_error_code resp) >+ e_i32 (js_generation_id resp) >+
  put_when (7 <=? version) (e_nstr flexible (js_protocol_type resp)) >+
  e_nstr flexible (js_protocol_name resp) >+
  e_str flexible (js_leader resp) >+
  put_when (9 <=? version) (e_bool (js_skip_assignment resp)) >+
  e_str flexible (js_member_id resp) >+
  e_array flexible (fun m =>
    e_str flexible (jm_member_id m) >+
    put_when (5 <=? version) (e_nstr flexible (jm_group_instance_id m)) >+
    e_bytes flexible (jm_metadata m) >+
    put_when flexible e_tags) (js_members resp) >+
  put_when flexible e_tags.

(** ** SyncGroup *)

Record SyncGroupRequestAssignment : Type := mkSyncGroupRequestAssignment {
  sg_member_id : string;
  sg_assignment : bytes;
}.
Record SyncGroupRequest : Type := mkSyncGroupRequest {
  sr_group_id : string;
  sr_generation_id : Z;
  sr_member_id : string;
  sr_protocol_type : option string;
  sr_protocol_name : option string;
  sr_assignments : list SyncGroupRequestAssignment;
}.

Definition sync_group_decode_request (version : Z) : WireReader SyncGroupRequest :=
  let flexible := 4 <=? version in
  rd! group_id := read_string flexible in
  rd! generation_id := read_i32 in
  rd! member_id := read_string flexible in
  rd! _ := skip_if (3 <=? version) (read_nullable_string flexible) in
  rd! protocol_type := read_if (5 <=? version) (read_nullable_string flexible) None in
  rd! protocol_name := read_if (5 <=? version) (read_nullable_string flexible) None in
  rd! assignments := read_items (read_count flexible)
    (rd! member_id := read_string flexible in
     rd! assignment := read_bytes flexible in
     rd! _ := skip_tags flexible in
     rd_ret (mkSyncGroupRequestAssignment member_id assignment)) in
  rd! _ := skip_tags flexible in
  rd_ret (mkSyncGroupRequest group_id generation_id member_id protocol_type protocol_name assignments).

Record SyncGroupResponse : Type := mkSyncGroupResponse {
  ss_error_code : Z;
  ss_protocol_type : option string;
  ss_protocol_name : option string;
  ss_assignment : bytes;
}.

Definition sync_group_encode_response (version : Z) (resp : SyncGroupResponse) : Put :=
  let flexible := 4 <=? version in
  put_when (1 <=? version) (e_i32 0) >+
  e_i16 (ss_error_code resp) >+
  put_when (5 <=? version) (e_nstr flexible (ss_protocol_type resp) >+ e_nstr flexible (ss_protocol_name resp)) >+
  e_bytes flexible (ss_assignment resp) >+
  put_when flexible e_tags.

(** ** Heartbeat *)

Record HeartbeatRequest : Type := mkHeartbeatRequest {
  hb_group_id : string;
  hb_generation_id : Z;
  hb_member_id : string;
}.

Definition heartbeat_decode_request (version : Z) : WireReader HeartbeatRequest :=
  let flexible := 4 <=? version in
  rd! group_id := read_string flexible in
  rd! generation_id := read_i32 in
  rd! member_id := read_string flexible in
  rd! _ := skip_if (3 <=? version) (read_nullable_string flexible) in
  rd! _ := skip_tags flexible in
  rd_ret (mkHeartbeatRequest group_id generation_id member_id).

Definition heartbeat_encode_response (version error_code : Z) : Put :=
  let flexible := 4 <=? version in
  put_when (1 <=? version) (e_i32 0) >+
  e_i16 error_code >+
  put_when flexible e_tags.

(** ** LeaveGroup *)

Record MemberIdentity : Type := mkMemberIdentity { mi_member_id : string }.
Record LeaveGroupRequest : Type := mkLeaveGroupRequest {
  lg_group_id : string;
  lg_members : list MemberIdentity;
}.

Definition leave_group_decode_request (version : Z) : WireReader LeaveGroupRequest :=
  let flexible := 4 <=? version in
  rd! group_id := read_string flexible in
  rd! members :=
    (if version <=? 2 then
       rd! member_id := read_string flexible in rd_ret [mkMemberIdentity member_id]
     else
       read_items (read_count flexible)
         (rd! member_id := read_string flexible in
          rd! _ := read_nullable_string flexible in
          rd! _ := skip_if (5 <=? version) (read_nullable_string flexible) in
          rd! _ := skip_tags flexible in
          rd_ret (mkMemberIdentity member_id))) in
  rd! _ := skip_tags flexible in
  rd_ret (mkLeaveGroupRequest group_id members).

Record MemberGone : Type := mkMemberGone { ml_member_id : string; ml_error_code : Z }.
Record LeaveGroupResponse : Type := mkLeaveGroupResponse {
  lgr_error_code : Z;
  lgr_members : list MemberGone;
}.

Definition leave_group_encode_response (version : Z) (resp : LeaveGroupResponse) : Put :=
  let flexible := 4 <=? version in
  put_when (1 <=? version) (e_i32 0) >+
  e_i16 (lgr_error_code resp) >+
  put_when (3 <=? version) (e_array flexible (fun m =>
    e_str flexible (ml_member_id m) >+ e_nstr flexible None >+ e_i16 (ml_error_code m) >+
    put_when flexible e_tags) (lgr_members resp)) >+
  put_when flexible e_tags.

(** ** OffsetCommit *)

Record OffsetCommitRequestPartition : Type := mkOffsetCommitRequestPartition {
  op_partition_index : Z;
  op_committed_offset : Z;
}.
Record OffsetCommitRequestTopic : Type := mkOffsetCommitRequestTopic {
  ot_name : string;
  ot_partitions : list OffsetCommitRequestPartition;
}.
Record OffsetCommitRequest : Type := mkOffsetCommitRequest {
  oc_group_id : string;
  oc_generation_id : Z;
  oc_member_id : string;
  oc_topics : list OffsetCommitRequestTopic;
}.

Definition offset_commit_decode_request (version : Z) : WireReader OffsetCommitRequest :=
  let flexible := 8 <=? version in
  rd! group_id := read_string flexible in
  rd! generation_id := read_i32 in
  rd! member_id := read_string flexible in
  rd! _ := skip_if (7 <=? version) (read_nullable_string flexible) in
  rd! _ := skip_if (version <=? 4) read_i64 in
  rd! topics := read_items (read_count flexible)
    (rd! name := read_string flexible in
     rd! partitions := read_items (read_count flexible)
       (rd! partition_index := read_i32 in
        rd! committed_offset := read_i64 in
        rd! _ := skip_if (6 <=? version) read_i32 in
        rd! _ := read_nullable_string flexible in
        rd! _ := skip_tags flexible in
        rd_ret (mkOffsetCommitRequestPartition partition_index committed_offset)) in
     rd! _ := skip_tags flexible in
     rd_ret (mkOffsetCommitRequestTopic name partitions)) in
  rd! _ := skip_tags flexible in
  rd_ret (mkOffsetCommitRequest group_id generation_id member_id topics).

Record OffsetCommitResponsePartition : Type := mkOffsetCommitResponsePartition {
  ocp_partition_index : Z;
  ocp_error_code : Z;
}.
Record OffsetCommitResponseTopic : Type := mkOffsetCommitResponseTopic {
  oct_name : string;
  oct_partitions : list OffsetCommitResponsePartition;
}.

Definition offset_commit_encode_response (version : Z) (topics : list OffsetCommitResponseTopic) : Put :=
  let flexible := 8 <=? version in
  put_when (3 <=? version) (e_i32 0) >+
  e_array flexible (fun topic =>
    e_str flexible (oct_name topic) >+
    e_array flexible (fun p =>
      e_i32 (ocp_partition_index p) >+ e_i16 (ocp_error_code p) >+
      put_when flexible e_tags) (oct_partitions topic) >+
    put_when flexible e_tags) topics >+
  put_when flexible e_tags.

(** ** OffsetFetch *)

Record OffsetFetchRequestTopic : Type := mkOffsetFetchRequestTopic {
  oft_name : string;
  oft_partition_indexes : list Z;
}.
Record OffsetFetchRequest : Type := mkOffsetFetchRequest {
  ofr_group_id : string;
  ofr_topics : option (list OffsetFetchRequestTopic);
}.

Definition offset_fetch_decode_request (version : Z) : WireReader OffsetFetchRequest :=
  let flexible := 6 <=? version in
  rd! group_id := read_string flexible in
  rd! topics := read_optional_items flexible
    (rd! name := read_string flexible in
     rd! partition_indexes := read_items (read_count flexible) read_i32 in
     rd! _ := skip_tags flexible in
     rd_ret (mkOffsetFetchRequestTopic name partition_indexes)) in
  rd! _ := skip_if (7 <=? version) read_bool in
  rd! _ := skip_tags flexible in
  rd_ret (mkOffsetFetchRequest group_id topics).

Record OffsetFetchResponsePartition : Type := mkOffsetFetchResponsePartition {
  ofp_partition_index : Z;
  ofp_committed_offset : Z;
  ofp_error_code : Z;
}.
Record OffsetFetchResponseTopic : Type := mkOffsetFetchResponseTopic {
  oftr_name : string;
  oftr_partitions : list OffsetFetchResponsePartition;
}.
Record OffsetFetchResponse : Type := mkOffsetFetchResponse {
  ofs_error_code : Z;
  ofs_topics : list OffsetFetchResponseTopic;
}.

Definition offset_fetch_encode_response (version : Z) (resp : OffsetFetchResponse) : Put :=
  let flexible := 6 <=? version in
  put_when (3 <=? version) (e_i32 0) >+
  e_array flexible (fun topic =>
    e_str flexible (oftr_name topic) >+
    e_array flexible (fun p =>
      e_i32 (ofp_partition_index p) >+ e_i64 (ofp_committed_offset p) >+
      put_when (5 <=? version) (e_i32 (-1)) >+
      e_nstr flexible None >+ e_i16 (ofp_error_code p) >+
      put_when flexible e_tags) (oftr_partitions topic) >+
    put_when flexible e_tags) (ofs_topics resp) >+
  put_when (2 <=? version) (e_i16 (ofs_error_code resp)) >+
  put_when flexible e_tags.

(** ** FindCoordinator *)

Record FindCoordinatorRequest : Type := mkFindCoordinatorRequest {
  fc_keys : list string;
  fc_key_type : Z;
}.

Definition find_coordinator_decode_request (version : Z) : WireReader FindCoordinatorRequest :=
  let flexible := 3 <=? version in
  rd! single_key :=
    (if version <=? 3 then rd! key := read_string flexible in rd_ret (Some key) else rd_ret None) in
  rd! key_type := read_if (1 <=? version) read_i8 0 in
  rd! keys :=
    (if 4 <=? version then read_items (read_count flexible) (read_string flexible)
     else rd_ret (match single_key with Some key => [key] | None => [] end)) in
  rd! _ := skip_tags flexible in
  rd_ret (mkFindCoordinatorRequest keys key_type).

Record CoordinatorAddr : Type := mkCoordinatorAddr {
  co_key : string;
  co_error_code : Z;
  co_error_message : option string;
  co_node_id : Z;
  co_host : string;
  co_port : Z;
}.


(** What a version without a list answers when there is nothing to answer. *)
Definition no_coordinator : CoordinatorAddr :=
  mkCoordinatorAddr EmptyString UNKNOWN_SERVER_ERROR None (-1) EmptyString (-1).

Definition find_coordinator_encode_response (version : Z) (coordinators : list CoordinatorAddr) : Put :=
  let flexible := 3 <=? version in
  put_when (1 <=? version) (e_i32 0) >+
  (if version <=? 3 then
     let c := default no_coordinator (head coordinators) in
     e_i16 (co_error_code c) >+
     put_when (1 <=? version) (e_nstr flexible (co_error_message c)) >+
     e_i32 (co_node_id c) >+ e_str flexible (co_host c) >+ e_i32 (co_port c)
   else
     e_array flexible (fun c =>
       e_str flexible (co_key c) >+ e_i32 (co_node_id c) >+ e_str flexible (co_host c) >+ e_i32 (co_port c) >+
       e_i16 (co_error_code c) >+ e_nstr flexible (co_error_message c) >+ e_tags) coordinators) >+
  put_when flexible e_tags.

(** ** ListGroups *)

Record ListGroupsRequest : Type := mkListGroupsRequest { lgq_states_filter : option (list string) }.

Definition list_groups_decode_request (version : Z) : WireReader ListGroupsRequest :=
  let flexible := 3 <=? version in
  rd! states_filter := read_if (4 <=? version) (read_optional_items true (read_string true)) None in
  rd! _ := skip_tags flexible in
  finish (mkListGroupsRequest states_filter).

Record ListedGroup : Type := mkListedGroup {
  lgd_group_id : string;
  lgd_protocol_type : string;
  lgd_group_state : string;
}.
Record ListGroupsResponse : Type := mkListGroupsResponse {
  lgs_throttle_time_ms : Z;
  lgs_error_code : Z;
  lgs_groups : list ListedGroup;
}.

Definition list_groups_encode_response (version : Z) (response : ListGroupsResponse) : Put :=
  let flexible := 3 <=? version in
  put_when (1 <=? version) (e_i32 (lgs_throttle_time_ms response)) >+
  e_i16 (lgs_error_code response) >+
  e_array flexible (fun group =>
    e_str flexible (lgd_group_id group) >+ e_str flexible (lgd_protocol_type group) >+
    put_when (4 <=? version) (e_str true (lgd_group_state group)) >+
    put_when flexible e_tags) (lgs_groups response) >+
  put_when flexible e_tags.

(** ** DescribeGroups *)

Record DescribeGroupsRequest : Type := mkDescribeGroupsRequest {
  dg_groups : list string;
  dg_include_authorized_operations : bool;
}.

Definition describe_groups_decode_request (version : Z) : WireReader DescribeGroupsRequest :=
  let flexible := 5 <=? version in
  rd! groups := read_items (required_count flexible) (read_string flexible) in
  rd! include_authorized_operations := read_if (3 <=? version) read_bool false in
  rd! _ := skip_tags flexible in
  finish (mkDescribeGroupsRequest groups include_authorized_operations).

Record DescribeGroupMember : Type := mkDescribeGroupMember {
  dm_member_id : string;
  dm_group_instance_id : option string;
  dm_client_id : string;
  dm_client_host : string;
  dm_member_metadata : bytes;
  dm_member_assignment : bytes;
}.
Record DescribeGroup : Type := mkDescribeGroup {
  dgr_error_code : Z;
  dgr_group_id : string;
  dgr_group_state : string;
  dgr_protocol_type : string;
  dgr_protocol_data : string;
  dgr_members : list DescribeGroupMember;
  dgr_authorized_operations : Z;
}.
Record DescribeGroupsResponse : Type := mkDescribeGroupsResponse {
  dgs_throttle_time_ms : Z;
  dgs_groups : list DescribeGroup;
}.

Definition describe_groups_encode_response (version : Z) (response : DescribeGroupsResponse) : Put :=
  let flexible := 5 <=? version in
  put_when (1 <=? version) (e_i32 (dgs_throttle_time_ms response)) >+
  e_array flexible (fun group =>
    e_i16 (dgr_error_code group) >+ e_str flexible (dgr_group_id group) >+
    e_str flexible (dgr_group_state group) >+ e_str flexible (dgr_protocol_type group) >+
    e_str flexible (dgr_protocol_data group) >+
    e_array flexible (fun member =>
      e_str flexible (dm_member_id member) >+
      put_when (4 <=? version) (e_nstr flexible (dm_group_instance_id member)) >+
      e_str flexible (dm_client_id member) >+ e_str flexible (dm_client_host member) >+
      e_bytes flexible (dm_member_metadata member) >+ e_bytes flexible (dm_member_assignment member) >+
      put_when flexible e_tags) (dgr_members group) >+
    put_when (3 <=? version) (e_i32 (dgr_authorized_operations group)) >+
    put_when flexible e_tags) (dgs_groups response) >+
  put_when flexible e_tags.
