(* ===== verification/MsgAdmin.v ===== *)
(** * MsgAdmin: the administrative messages

    Models the request decoders and response encoders of
    [oqueue-codec/src/create_topics.rs], [delete_topics.rs],
    [describe_configs.rs], [alter_configs.rs], [incremental_alter_configs.rs]
    and [quota_admin.rs].  Each of these refuses a body with bytes left over. *)

From stdpp Require Import base tactics list numbers strings.
From Stdlib Require Import ZArith Lia.
From S2P Require Import Prelude Bytes Wire Api Msg MsgData.

Open Scope Z_scope.

(** ** CreateTopics *)

Record CreatableReplicaAssignment : Type := mkCreatableReplicaAssignment {
  ca_partition_index : Z;
  ca_broker_ids : list Z;
}.
Record CreatableTopicConfig : Type := mkCreatableTopicConfig { cc_name : string; cc_value : option string }.
Record CreatableTopic : Type := mkCreatableTopic {
  ct_name : string;
  ct_num_partitions : Z;
  ct_replication_factor : Z;
  ct_assignments : list CreatableReplicaAssignment;
  ct_configs : list CreatableTopicConfig;
}.
Record CreateTopicsRequest : Type := mkCreateTopicsRequest {
  cr_topics : list CreatableTopic;
  cr_timeout_ms : Z;
  cr_validate_only : bool;
}.

Definition decode_assignments (flexible : bool) : WireReader (list CreatableReplicaAssignment) :=
  read_items (required_count flexible)
    (rd! partition_index := read_i32 in
     rd! broker_ids := read_items (required_count flexible) read_i32 in
     rd! _ := skip_tags flexible in
     rd_ret (mkCreatableReplicaAssignment partition_index broker_ids)).

Definition decode_configs (flexible : bool) : WireReader (list CreatableTopicConfig) :=
  read_items (required_count flexible)
    (rd! name := read_string flexible in
     rd! value := read_nullable_string flexible in
     rd! _ := skip_tags flexible in
     rd_ret (mkCreatableTopicConfig name value)).

Definition decode_topic (flexible : bool) : WireReader CreatableTopic :=
  rd! name := read_string flexible in
  rd! num_partitions := read_i32 in
  rd! replication_factor := read_i16 in
  rd! assignments := decode_assignments flexible in
  rd! configs := decode_configs flexible in
  rd! _ := skip_tags flexible in
  rd_ret (mkCreatableTopic name num_partitions replication_factor assignments configs).

Definition create_topics_decode_request (version : Z) : WireReader CreateTopicsRequest :=
  let flexible := 5 <=? version in
  rd! topics := read_items (required_count flexible) (decode_topic flexible) in
  rd! timeout_ms := read_i32 in
  rd! validate_only := read_bool in
  rd! _ := skip_tags flexible in
  finish (mkCreateTopicsRequest topics timeout_ms validate_only).

Record CreateTopicsResponseTopic : Type := mkCreateTopicsResponseTopic {
  crt_name : string;
  crt_topic_id : bytes;
  crt_error_code : Z;
  crt_error_message : option string;
  crt_num_partitions : Z;
  crt_replication_factor : Z;
}.
Record CreateTopicsResponse : Type := mkCreateTopicsResponse {
  crs_throttle_time_ms : Z;
  crs_topics : list CreateTopicsResponseTopic;
}.

Definition create_topics_encode_response (version : Z) (response : CreateTopicsResponse) : Put :=
  let flexible := 5 <=? version in
  e_i32 (crs_throttle_time_ms response) >+
  e_array flexible (fun topic =>
    e_str flexible (crt_name topic) >+
    put_when (7 <=? version) (e_raw (crt_topic_id topic)) >+
    e_i16 (crt_error_code topic) >+
    e_nstr flexible (crt_error_message topic) >+
    put_when (5 <=? version) (e_i32 (crt_num_partitions topic) >+ e_i16 (crt_replication_factor topic) >+
      e_len flexible 0 >+ e_tags)) (crs_topics response) >+
  put_when flexible e_tags.

(** ** DeleteTopics *)

Record DeletableTopic : Type := mkDeletableTopic { dt_name : option string; dt_topic_id : bytes }.
Record DeleteTopicsRequest : Type := mkDeleteTopicsRequest {
  dr_topics : list DeletableTopic;
  dr_timeout_ms : Z;
}.

Definition delete_topics_decode_request (version : Z) : WireReader DeleteTopicsRequest :=
  let flexible := 4 <=? version in
  rd! topics := read_items (required_count flexible)
    (if 6 <=? version then
       rd! name := read_nullable_string true in
       rd! topic_id := cur_take 16 in
       rd! _ := skip_tags true in
       rd_ret (mkDeletableTopic name topic_id)
     else
       rd! name := read_string flexible in
       rd_ret (mkDeletableTopic (Some name) ZERO_TOPIC_ID)) in
  rd! timeout_ms := read_i32 in
  rd! _ := skip_tags flexible in
  finish (mkDeleteTopicsRequest topics timeout_ms).

Record DeleteTopicsResponseTopic : Type := mkDeleteTopicsResponseTopic {
  drt_name : option string;
  drt_topic_id : bytes;
  drt_error_code : Z;
  drt_error_message : option string;
}.
Record DeleteTopicsResponse : Type := mkDeleteTopicsResponse {
  drs_throttle_time_ms : Z;
  drs_responses : list DeleteTopicsResponseTopic;
}.

Definition delete_topics_encode_response (version : Z) (response : DeleteTopicsResponse) : Put :=
  let flexible := 4 <=? version in
  put_when (1 <=? version) (e_i32 (drs_throttle_time_ms response)) >+
  e_array flexible (fun topic =>
    if 6 <=? version then
      e_nstr true (drt_name topic) >+ e_raw (drt_topic_id topic) >+ e_i16 (drt_error_code topic) >+
      e_nstr true (drt_error_message topic) >+ e_tags
    else
      e_str flexible (default EmptyString (drt_name topic)) >+ e_i16 (drt_error_code topic) >+
      put_when (5 <=? version) (e_nstr true (drt_error_message topic)) >+
      put_when (4 <=? version) e_tags) (drs_responses response) >+
  put_when flexible e_tags.

(** ** DescribeConfigs *)

Record ConfigResource : Type := mkConfigResource {
  cf_resource_type : Z;
  cf_resource_name : string;
  cf_config_names : option (list string);
}.
Record DescribeConfigsRequest : Type := mkDescribeConfigsRequest {
  dc_resources : list ConfigResource;
  dc_include_synonyms : bool;
  dc_include_documentation : bool;
}.

Definition decode_resource (flexible : bool) : WireReader ConfigResource :=
  rd! resource_type := read_i8 in
  rd! resource_name := read_string flexible in
  rd! config_names := read_optional_items flexible (read_string flexible) in
  rd! _ := skip_tags flexible in
  rd_ret (mkConfigResource resource_type resource_name config_names).

Definition describe_configs_decode_request (version : Z) : WireReader DescribeConfigsRequest :=
  let flexible := 4 <=? version in
  rd! resources := read_items (required_count flexible) (decode_resource flexible) in
  rd! include_synonyms := read_if (1 <=? version) read_bool false in
  rd! include_documentation := read_if (3 <=? version) read_bool false in
  rd! _ := skip_tags flexible in
  finish (mkDescribeConfigsRequest resources include_synonyms include_documentation).

Record ConfigEntry : Type := mkConfigEntry {
  ce_name : string;
  ce_value : option string;
  ce_read_only : bool;
  ce_config_source : Z;
  ce_is_sensitive : bool;
}.
Record DescribeConfigsResponseResource : Type := mkDescribeConfigsResponseResource {
  dcr_error_code : Z;
  dcr_error_message : option string;
  dcr_resource_type : Z;
  dcr_resource_name : string;
  dcr_configs : list ConfigEntry;
}.
Record DescribeConfigsResponse : Type := mkDescribeConfigsResponse {
  dcs_throttle_time_ms : Z;
  dcs_resources : list DescribeConfigsResponseResource;
}.

Definition describe_configs_encode_response (version : Z) (response : DescribeConfigsResponse) : Put :=
  let flexible := 4 <=? version in
  e_i32 (dcs_throttle_time_ms response) >+
  e_array flexible (fun resource =>
    e_i16 (dcr_error_code resource) >+ e_nstr flexible (dcr_error_message resource) >+
    e_i8 (dcr_resource_type resource) >+ e_str flexible (dcr_resource_name resource) >+
    e_array flexible (fun config =>
      e_str flexible (ce_name config) >+ e_nstr flexible (ce_value config) >+ e_bool (ce_read_only config) >+
      (if version =? 0 then
         e_bool (ce_config_source config =? 5) >+ e_bool (ce_is_sensitive config)
       else
         e_i8 (ce_config_source config) >+ e_bool (ce_is_sensitive config) >+ e_len flexible 0 >+
         put_when (3 <=? version) (e_i8 4 >+ e_nstr flexible None) >+
         put_when flexible e_tags)) (dcr_configs resource) >+
    put_when flexible e_tags) (dcs_resources response) >+
  put_when flexible e_tags.

(** ** AlterConfigs *)

Record AlterConfig : Type := mkAlterConfig { ac_name : string; ac_value : option string }.
Record AlterConfigsResource : Type := mkAlterConfigsResource {
  acr_resource_type : Z;
  acr_resource_name : string;
  acr_configs : list AlterConfig;
}.
Record AlterConfigsRequest : Type := mkAlterConfigsRequest {
  acq_resources : list AlterConfigsResource;
  acq_validate_only : bool;
}.

Definition read_alter_resource (flexible : bool) : WireReader AlterConfigsResource :=
  rd! resource_type := read_i8 in
  rd! resource_name := read_string flexible in
  rd! configs := read_items (required_count flexible)
    (rd! name := read_string flexible in
     rd! value := read_nullable_string flexible in
     rd! _ := skip_tags flexible in
     rd_ret (mkAlterConfig name value)) in
  rd! _ := skip_tags flexible in
  rd_ret (mkAlterConfigsResource resource_type resource_name configs).

Definition alter_configs_decode_request (version : Z) : WireReader AlterConfigsRequest :=
  let flexible := 2 <=? version in
  rd! resources := read_items (required_count flexible) (read_alter_resource flexible) in
  rd! validate_only := read_if (1 <=? version) read_bool false in
  rd! _ := skip_tags flexible in
  finish (mkAlterConfigsRequest resources validate_only).

Record AlterConfigsResponseResource : Type := mkAlterConfigsResponseResource {
  acs_error_code : Z;
  acs_error_message : option string;
  acs_resource_type : Z;
  acs_resource_name : string;
}.
Record AlterConfigsResponse : Type := mkAlterConfigsResponse {
  acp_throttle_time_ms : Z;
  acp_resources : list AlterConfigsResponseResource;
}.

(** The body the two responses share. *)
Definition alter_configs_body (flexible : bool) (response : AlterConfigsResponse) : Put :=
  e_i32 (acp_throttle_time_ms response) >+
  e_array flexible (fun resource =>
    e_i16 (acs_error_code resource) >+ e_nstr flexible (acs_error_message resource) >+
    e_i8 (acs_resource_type resource) >+ e_str flexible (acs_resource_name resource) >+
    put_when flexible e_tags) (acp_resources response) >+
  put_when flexible e_tags.

Definition alter_configs_encode_response (version : Z) (response : AlterConfigsResponse) : Put :=
  alter_configs_body (2 <=? version) response.

(** ** IncrementalAlterConfigs *)

Inductive ConfigOperation : Type := OpSet | OpDelete | OpAppendTo | OpSubtract.

(** [ConfigOperation::from_i8]; [other.cast_unsigned()] is modulo 256. *)
Definition ConfigOperation_from_i8 (value : Z) : WireReader ConfigOperation :=
  match value with
  | 0 => rd_ret OpSet
  | 1 => rd_ret OpDelete
  | 2 => rd_ret OpAppendTo
  | 3 => rd_ret OpSubtract
  | other => cur_fail (LengthOutOfBounds (other mod 256) 3 0)
  end.

(** [ConfigOperation::from_i8(cur.read_i8()?)?]. *)
Definition read_operation : WireReader ConfigOperation := rd! raw := read_i8 in ConfigOperation_from_i8 raw.

Record IncrementalConfig : Type := mkIncrementalConfig {
  ic_name : string;
  ic_operation : ConfigOperation;
  ic_value : option string;
}.
Record IncrementalConfigsResource : Type := mkIncrementalConfigsResource {
  icr_resource_type : Z;
  icr_resource_name : string;
  icr_configs : list IncrementalConfig;
}.
Record IncrementalAlterConfigsRequest : Type := mkIncrementalAlterConfigsRequest {
  iq_resources : list IncrementalConfigsResource;
  iq_validate_only : bool;
}.

Definition incremental_alter_configs_decode_request (version : Z) : WireReader IncrementalAlterConfigsRequest :=
  let flexible := 1 <=? version in
  rd! resources := read_items (required_count flexible)
    (rd! resource_type := read_i8 in
     rd! resource_name := read_string flexible in
     rd! configs := read_items (required_count flexible)
       (rd! name := read_string flexible in
        rd! operation := read_operation in
        rd! value := read_nullable_string flexible in
        rd! _ := skip_tags flexible in
        rd_ret (mkIncrementalConfig name operation value)) in
     rd! _ := skip_tags flexible in
     rd_ret (mkIncrementalConfigsResource resource_type resource_name configs)) in
  rd! validate_only := read_bool in
  rd! _ := skip_tags flexible in
  finish (mkIncrementalAlterConfigsRequest resources validate_only).

Definition incremental_alter_configs_encode_response (version : Z) (response : AlterConfigsResponse) : Put :=
  alter_configs_body (1 <=? version) response.

(** ** Client quotas: an [f64] is its bits *)

Record QuotaFilter : Type := mkQuotaFilter {
  qf_entity_type : string;
  qf_match_type : Z;
  qf_name : option string;
}.
Record DescribeClientQuotasRequest : Type := mkDescribeClientQuotasRequest {
  dq_components : list QuotaFilter;
  dq_strict : bool;
}.
Record QuotaEntity : Type := mkQuotaEntity { qe_entity_type : string; qe_name : option string }.
Record QuotaValue : Type := mkQuotaValue { qv_key : string; qv_value : Z }.
Record DescribeClientQuotasEntry : Type := mkDescribeClientQuotasEntry {
  qd_entity : list QuotaEntity;
  qd_values : list QuotaValue;
}.
Record DescribeClientQuotasResponse : Type := mkDescribeClientQuotasResponse {
  qr_throttle_time_ms : Z;
  qr_error_code : Z;
  qr_error_message : option string;
  qr_entries : list DescribeClientQuotasEntry;
}.
Record QuotaOperation : Type := mkQuotaOperation { qo_key : string; qo_value : Z; qo_remove : bool }.
Record AlterClientQuotasEntry : Type := mkAlterClientQuotasEntry {
  qa_entity : list QuotaEntity;
  qa_operations : list QuotaOperation;
}.
Record AlterClientQuotasRequest : Type := mkAlterClientQuotasRequest {
  aq_entries : list AlterClientQuotasEntry;
  aq_validate_only : bool;
}.
Record AlterClientQuotasResult : Type := mkAlterClientQuotasResult {
  ar_error_code : Z;
  ar_error_message : option string;
  ar_entity : list QuotaEntity;
}.
Record AlterClientQuotasResponse : Type := mkAlterClientQuotasResponse {
  as_throttle_time_ms : Z;
  as_entries : list AlterClientQuotasResult;
}.

Definition decode_entities (flexible : bool) : WireReader (list QuotaEntity) :=
  read_items (required_count flexible)
    (rd! entity_type := read_string flexible in
     rd! name := read_nullable_string flexible in
     rd! _ := skip_tags flexible in
     rd_ret (mkQuotaEntity entity_type name)).

Definition encode_entities (flexible : bool) (entities : list QuotaEntity) : Put :=
  e_array flexible (fun entity =>
    e_str flexible (qe_entity_type entity) >+ e_nstr flexible (qe_name entity) >+
    put_when flexible e_tags) entities.

Definition decode_describe_request (version : Z) : WireReader DescribeClientQuotasRequest :=
  let flexible := 1 <=? version in
  rd! components := read_items (required_count flexible)
    (rd! entity_type := read_string flexible in
     rd! match_type := read_i8 in
     rd! name := read_nullable_string flexible in
     rd! _ := skip_tags flexible in
     rd_ret (mkQuotaFilter entity_type match_type name)) in
  rd! strict := read_bool in
  rd! _ := skip_tags flexible in
  finish (mkDescribeClientQuotasRequest components strict).

Definition decode_alter_request (version : Z) : WireReader AlterClientQuotasRequest :=
  let flexible := 1 <=? version in
  rd! entries := read_items (required_count flexible)
    (rd! entity := decode_entities flexible in
     rd! operations := read_items (required_count flexible)
       (rd! key := read_string flexible in
        rd! value := read_f64 in
        rd! remove := read_bool in
        rd! _ := skip_tags flexible in
        rd_ret (mkQuotaOperation key value remove)) in
     rd! _ := skip_tags flexible in
     rd_ret (mkAlterClientQuotasEntry entity operations)) in
  rd! validate_only := read_bool in
  rd! _ := skip_tags flexible in
  finish (mkAlterClientQuotasRequest entries validate_only).

Definition encode_describe_response (version : Z) (response : DescribeClientQuotasResponse) : Put :=
  let flexible := 1 <=? version in
  e_i32 (qr_throttle_time_ms response) >+ e_i16 (qr_error_code response) >+
  e_nstr flexible (qr_error_message response) >+
  e_array flexible (fun entry =>
    encode_entities flexible (qd_entity entry) >+
    e_array flexible (fun value =>
      e_str flexible (qv_key value) >+ e_f64 (qv_value value) >+ put_when flexible e_tags) (qd_values entry) >+
    put_when flexible e_tags) (qr_entries response) >+
  put_when flexible e_tags.

Definition encode_alter_response (version : Z) (response : AlterClientQuotasResponse) : Put :=
  let flexible := 1 <=? version in
  e_i32 (as_throttle_time_ms response) >+
  e_array flexible (fun entry =>
    e_i16 (ar_error_code entry) >+ e_nstr flexible (ar_error_message entry) >+
    encode_entities flexible (ar_entity entry) >+ put_when flexible e_tags) (as_entries response) >+
  put_when flexible e_tags.
