(* ===== verification/Grammar.v ===== *)
(** * Grammar: what a message is on the wire

    The published message schemas, written as grammars: a [Wire] holds of the
    byte strings that carry a value.  A decoder [parses] a grammar when it
    reads every one of its strings, and an encoder [emits] it when its output
    is the only one.  One lemma per combinator makes a decoder or an encoder
    follow its grammar field by field. *)

From stdpp Require Import base tactics list numbers strings.
From Stdlib Require Import ZArith Lia.
From S2P Require Import Prelude Bytes Wire WireProps Api Msg MsgData.

Open Scope Z_scope.

Definition Wire : Type := bytes -> Prop.

(** ** Combinators *)

Definition g_end : Wire := fun b => b = [].
Definition g_seq (P Q : Wire) : Wire := fun b => exists b1 b2, b = b1 ++ b2 /\ P b1 /\ Q b2.
Notation "P ;;; Q" := (g_seq P Q) (at level 60, right associativity) : oq_scope.

(** A field of the versions where [c] holds; elsewhere the value is [absent]. *)
Definition g_field {A} (c : bool) (g : A -> Wire) (x absent : A) : Wire :=
  if c then g x else fun b => b = [] /\ x = absent.

(** A field a version carries whose value is not kept. *)
Definition g_any {A} (g : A -> Wire) : Wire := fun b => exists x, g x b.
Definition g_when (c : bool) (P : Wire) : Wire := if c then P else g_end.

(** ** Primitive types *)

Definition g_int (n : nat) (x : Z) : Wire := fun b => fits_signed n x /\ b = be_signed n x.
Definition g_i8 : Z -> Wire := g_int 1.
Definition g_i16 : Z -> Wire := g_int 2.
Definition g_i32 : Z -> Wire := g_int 4.
Definition g_i64 : Z -> Wire := g_int 8.
Definition g_f64 (x : Z) : Wire := fun b => 0 <= x <= u64_max /\ b = be_bytes 8 x.
Definition g_uuid (x : bytes) : Wire := fun b => length x = 16%nat /\ b = x.

(** Any non-zero byte is true. *)
Definition g_bool (x : bool) : Wire := fun b => exists z, g_i8 z b /\ x = negb (z =? 0).

(** A length: two or four bytes, or the varint of one more in a compact form;
    a null is [-1], or a varint zero. *)
Definition g_length (flexible : bool) (width : nat) (n : nat) : bytes :=
  if flexible then compact_len_enc n else legacy_len_enc width n.
Definition g_null (flexible : bool) (width : nat) : bytes := if flexible then [0] else be_signed width (-1).

Definition g_nstr (flexible : bool) (x : option string) : Wire := fun b =>
  match x with
  | None => b = g_null flexible 2
  | Some s => str_fits flexible s /\ b = g_length flexible 2 (length (as_bytes s)) ++ as_bytes s
  end.
Definition g_str (flexible : bool) (s : string) : Wire := g_nstr flexible (Some s).

Definition g_nbytes (flexible : bool) (x : option bytes) : Wire := fun b =>
  match x with
  | None => b = g_null flexible 4
  | Some d => len_fits flexible i32_max (length d) /\ b = g_length flexible 4 (length d) ++ d
  end.
Definition g_bytes (flexible : bool) (d : bytes) : Wire := g_nbytes flexible (Some d).

(** ** Arrays *)

Definition g_items {A} (g : A -> Wire) (l : list A) : Wire := fun b => exists bs, b = concat bs /\ Forall2 g l bs.

Definition g_array {A} (flexible : bool) (g : A -> Wire) (l : list A) : Wire := fun b =>
  len_fits flexible i32_max (length l) /\
  exists items, g_items g l items /\ b = g_length flexible 4 (length l) ++ items.

Definition g_narray {A} (flexible : bool) (g : A -> Wire) (x : option (list A)) : Wire :=
  match x with None => fun b => b = g_null flexible 4 | Some l => g_array flexible g l end.

(** An array whose null stands for the empty one. *)
Definition g_array0 {A} (flexible : bool) (g : A -> Wire) (l : list A) : Wire := fun b =>
  g_array flexible g l b \/ l = [] /\ b = g_null flexible 4.

(** ** Tagged fields: any, of a request; none, of a response *)

Definition g_tags (flexible : bool) : Wire :=
  g_when flexible (fun b => exists fs, Forall tag_wf fs /\ Z.of_nat (length fs) <= u32_max /\
    b = tags_enc fs).
Definition g_no_tags (flexible : bool) : Wire := g_when flexible (fun b => b = [0]).

(** ** Strings that take up room *)

Definition takes_room (P : Wire) : Prop := forall b, P b -> (1 <= length b)%nat.

Create HintDb room discriminated.

Lemma room_seq_l P Q : takes_room P -> takes_room (P ;;; Q).
Proof. intros HP b (b1 & b2 & -> & H1 & _). rewrite length_app. specialize (HP _ H1). lia. Qed.

Lemma room_seq_r P Q : takes_room Q -> takes_room (P ;;; Q).
Proof. intros HQ b (b1 & b2 & -> & _ & H2). rewrite length_app. specialize (HQ _ H2). lia. Qed.

Lemma room_int n x : (0 < n)%nat -> takes_room (g_int n x).
Proof. intros Hn b [_ ->]. unfold be_signed. rewrite be_bytes_length. lia. Qed.

Lemma room_length flexible width n : (0 < width)%nat -> (1 <= length (g_length flexible width n))%nat.
Proof.
  intros Hw. destruct flexible; simpl.
  - apply varint_enc_nonempty.
  - unfold legacy_len_enc, be_signed. rewrite be_bytes_length. lia.
Qed.

Lemma room_null flexible width : (0 < width)%nat -> (1 <= length (g_null flexible width))%nat.
Proof. intros Hw. destruct flexible; simpl; [lia|]. unfold be_signed. rewrite be_bytes_length. lia. Qed.

Lemma room_nstr flexible x : takes_room (g_nstr flexible x).
Proof.
  intros b. destruct x as [s|]; simpl; [intros [_ ->]|intros ->].
  - rewrite length_app. pose proof (room_length flexible 2 (length (as_bytes s)) ltac:(lia)). lia.
  - by apply room_null; lia.
Qed.

Lemma room_array {A} flexible (g : A -> Wire) l : takes_room (g_array flexible g l).
Proof.
  intros b (_ & items & _ & ->). rewrite length_app.
  pose proof (room_length flexible 4 (length l) ltac:(lia)). lia.
Qed.

Lemma room_array0 {A} flexible (g : A -> Wire) l : takes_room (g_array0 flexible g l).
Proof. intros b [Hb|[_ ->]]; [by eapply room_array|apply room_null; lia]. Qed.

Lemma room_any {A} (g : A -> Wire) : (forall x, takes_room (g x)) -> takes_room (g_any g).
Proof. intros Hg b [x Hx]. by apply (Hg x). Qed.

Lemma room_as {A B} (f : A -> B) (g : A -> Wire) y :
  (forall x, takes_room (g x)) -> takes_room (fun b => exists x, y = f x /\ g x b).
Proof. intros Hg b (x & _ & Hx). by apply (Hg x). Qed.

Lemma room_if (c : bool) P Q : takes_room P -> takes_room Q -> takes_room (if c then P else Q).
Proof. by destruct c. Qed.

#[export] Hint Resolve room_seq_l room_seq_r room_nstr room_array room_array0 room_if room_any room_as : room.
#[export] Hint Extern 1 (takes_room (g_int _ _)) => apply room_int; lia : room.
#[export] Hint Extern 1 (takes_room (g_str _ _)) => apply room_nstr : room.
#[export] Hint Extern 1 (takes_room (g_i8 _)) => apply room_int; lia : room.
#[export] Hint Extern 1 (takes_room (g_i16 _)) => apply room_int; lia : room.
#[export] Hint Extern 1 (takes_room (g_i32 _)) => apply room_int; lia : room.
#[export] Hint Extern 1 (takes_room (g_i64 _)) => apply room_int; lia : room.

(** ** Decoders *)

Definition parses {A} (m : WireReader A) (P : Wire) (a : A) : Prop := forall b, P b -> reads m b a.

Create HintDb parse discriminated.

Lemma parses_ret {A} (a : A) : parses (rd_ret a) g_end a.
Proof. intros b ->. apply reads_ret. Qed.

Lemma parses_bind {A B} (m : WireReader A) (k : A -> WireReader B) P Q a c :
  parses m P a -> parses (k a) Q c -> parses (rd_bind m k) (P ;;; Q) c.
Proof. intros Hm Hk b (b1 & b2 & -> & H1 & H2). by eapply reads_bind; [apply Hm|apply Hk]. Qed.

(** The last field of a message. *)
Lemma parses_last {A B} (m : WireReader A) (k : A -> WireReader B) P a c :
  parses m P a -> k a = rd_ret c -> parses (rd_bind m k) P c.
Proof.
  intros Hm Hk b Hb. rewrite <-(app_nil_r b). eapply reads_bind; [by apply Hm|]. rewrite Hk. apply reads_ret.
Qed.

Lemma parses_int n x (m := rd! b := cur_take n in rd_ret (from_be_signed n b)) :
  (0 < n)%nat -> parses m (g_int n x) x.
Proof. intros Hn b [Hx ->]. by apply reads_be_signed. Qed.

Lemma parses_i8 x : parses read_i8 (g_i8 x) x.
Proof. apply parses_int. lia. Qed.
Lemma parses_i16 x : parses read_i16 (g_i16 x) x.
Proof. apply parses_int. lia. Qed.
Lemma parses_i32 x : parses read_i32 (g_i32 x) x.
Proof. apply parses_int. lia. Qed.
Lemma parses_i64 x : parses read_i64 (g_i64 x) x.
Proof. apply parses_int. lia. Qed.

Lemma parses_bool x : parses read_bool (g_bool x) x.
Proof.
  intros b (z & Hz & ->). rewrite <-(app_nil_r b). eapply reads_bind; [by apply parses_i8|]. apply reads_ret.
Qed.

Lemma parses_f64 x : parses read_f64 (g_f64 x) x.
Proof.
  intros b [Hx ->]. rewrite <-(app_nil_r (be_bytes 8 x)).
  eapply reads_bind; [apply cur_take_reads, be_bytes_length|]. rewrite from_be_be; [apply reads_ret|].
  unfold u64_max in Hx. change (256 ^ Z.of_nat 8) with 18446744073709551616. lia.
Qed.

Lemma parses_uuid x : parses (cur_take 16) (g_uuid x) x.
Proof. intros b [Hx ->]. by apply cur_take_reads. Qed.

(** What a writer puts, its reader reads. *)
Lemma puts_reads {A} put (m : WireReader A) a enc :
  puts put m a -> put [] = enc -> reads m enc a.
Proof. intros (bs & Hp & Hr) <-. by rewrite (Hp []). Qed.

Ltac wire_cbn := cbn [g_nstr g_nbytes g_length g_null len_fits put_nullable_string put_string put_bytes
  put_nullable_bytes put_legacy_nullable_string put_compact_nullable_string put_compact_nullable_bytes
  put_array_len read_nullable_bytes] in *.

Lemma put_nstr_enc flexible x buf b :
  g_nstr flexible x b -> put_nullable_string buf flexible x = buf ++ b.
Proof.
  destruct x as [s|]; wire_cbn; [intros [[_ Hl] ->]|intros ->]; destruct flexible; wire_cbn; try done.
  - by rewrite put_compact_len_Some, app_assoc.
  - unfold put_i16, clamp. rewrite Z.min_l by lia. by rewrite app_assoc.
Qed.

Lemma parses_nstr flexible x : parses (read_nullable_string flexible) (g_nstr flexible x) x.
Proof.
  intros b Hb. apply (puts_reads (fun buf => put_nullable_string buf flexible x)).
  - apply puts_nullable_string. intros s ->. apply Hb.
  - by rewrite (put_nstr_enc _ _ [] b Hb).
Qed.

Lemma parses_str flexible s : parses (read_string flexible) (g_str flexible s) s.
Proof.
  intros b Hb. unfold read_string. apply reads_position. intros p. rewrite <-(app_nil_r b).
  eapply reads_bind; [apply (parses_nstr flexible (Some s) b Hb)|apply reads_not_null].
Qed.

Lemma parses_bytes flexible d : parses (read_bytes flexible) (g_bytes flexible d) d.
Proof.
  intros b [Hl ->]. apply (puts_reads (fun buf => put_bytes buf flexible d)); [by apply puts_bytes|].
  destruct flexible; wire_cbn.
  - by rewrite put_compact_len_Some.
  - unfold put_i32, clamp. by rewrite Z.min_l.
Qed.

Lemma minus_one_reads : reads read_i32 (be_signed 4 (-1)) (-1).
Proof. apply parses_i32. split; [by split|done]. Qed.

Lemma parses_nbytes flexible x : parses (read_nullable_bytes flexible) (g_nbytes flexible x) x.
Proof.
  intros b. destruct x as [d|]; wire_cbn; [intros [Hl ->]|intros ->]; destruct flexible; wire_cbn.
  - eapply reads_room_bind; [by apply read_compact_len_Some|]. by apply reads_map, cur_take_reads.
  - intros pre post. unfold read_nullable_length_prefixed. rewrite <-app_assoc.
    assert (reads read_i32 (legacy_len_enc 4 (length d)) (Z.of_nat (length d))) as H4.
    { apply parses_i32. split; [|done]. unfold fits_signed, i32_max in *.
      change (256 ^ Z.of_nat 4 / 2) with 2147483648. lia. }
    rewrite H4. cbn [res_bind]. rewrite (proj2 (Z.eqb_neq _ _)) by lia. rewrite app_assoc.
    rewrite <-app_assoc. pose proof (reads_map (read_length_prefixed u32_max) Some _ _
      (reads_length_prefixed d u32_max Hl ltac:(unfold u32_max, i32_max in *; lia)) pre post) as Hr.
    rewrite <-app_assoc in Hr. exact Hr.
  - change [0] with ([0] ++ []). eapply reads_bind; [apply read_compact_len_None|]. apply reads_ret.
  - intros pre post. unfold read_nullable_length_prefixed.
    by rewrite minus_one_reads.
Qed.

(** *** Arrays *)

Lemma items_room {A} (g : A -> Wire) l b :
  (forall a, takes_room (g a)) -> g_items g l b -> (length l <= length b)%nat.
Proof.
  intros Hg (bs & -> & Hbs). induction Hbs as [|a c l bs Ha _ IH]; simpl; [lia|].
  rewrite length_app. specialize (Hg a c Ha). lia.
Qed.

Lemma parses_items {A} (m : WireReader A) (g : A -> Wire) l :
  (forall a, parses m (g a) a) -> parses (rd_times (length l) m) (g_items g l) l.
Proof.
  intros Hm b (bs & -> & Hbs). induction Hbs as [|a c l bs Ha _ IH]; simpl; [apply reads_ret|].
  eapply reads_bind; [by apply Hm|]. rewrite <-(app_nil_r (concat bs)).
  eapply reads_bind; [exact IH|apply reads_ret].
Qed.

Lemma array_len_reads flexible n :
  len_fits flexible i32_max n -> reads_room n (read_array_len flexible) (g_length flexible 4 n) (Some n).
Proof.
  destruct flexible; simpl; intros Hl; [by apply read_compact_len_Some|by apply read_legacy_array_len_Some].
Qed.

Lemma array_null_reads flexible : reads (read_array_len flexible) (g_null flexible 4) None.
Proof.
  destruct flexible; wire_cbn; [apply read_compact_len_None|]. apply reads_position. intros p.
  rewrite <-(app_nil_r (be_signed 4 (-1))). eapply reads_bind; [apply minus_one_reads|]. apply reads_ret.
Qed.

(** A reader that begins with an array length, given the items that follow. *)
Lemma counted_reads {A B} (k : option nat -> WireReader B) flexible (g : A -> Wire) l b c :
  (forall a, takes_room (g a)) -> g_array flexible g l b ->
  (forall items, g_items g l items -> reads (k (Some (length l))) items c) ->
  reads (rd_bind (read_array_len flexible) k) b c.
Proof.
  intros Hg (Hl & items & Hi & ->) Hk. eapply reads_room_bind; [|by apply Hk].
  intros pre post Hroom. apply array_len_reads; [done|]. pose proof (items_room g l items Hg Hi). lia.
Qed.

Lemma reads_assoc {A B D} (m : WireReader A) (k : A -> WireReader B) (k' : B -> WireReader D) b d :
  reads (rd_bind m (fun a => rd_bind (k a) k')) b d -> reads (rd_bind (rd_bind m k) k') b d.
Proof.
  intros H pre post. rewrite <-(H pre post). unfold rd_bind.
  by destruct (m _ _) as [[? ?]| |].
Qed.

Lemma parses_array0 {A} flexible (m : WireReader A) (g : A -> Wire) l :
  (forall a, takes_room (g a)) -> (forall a, parses m (g a) a) ->
  parses (read_items (read_count flexible) m) (g_array0 flexible g l) l.
Proof.
  intros Hg Hm b [Hb|[-> ->]]; apply reads_assoc.
  - eapply counted_reads; [exact Hg|exact Hb|]. intros items Hi. apply (parses_items m g l Hm items Hi).
  - rewrite <-(app_nil_r (g_null _ _)). eapply reads_bind; [apply array_null_reads|apply reads_ret].
Qed.

Lemma parses_array {A} flexible (m : WireReader A) (g : A -> Wire) l :
  (forall a, takes_room (g a)) -> (forall a, parses m (g a) a) ->
  parses (read_items (required_count flexible) m) (g_array flexible g l) l.
Proof.
  intros Hg Hm b Hb. apply reads_assoc. eapply counted_reads; [exact Hg|exact Hb|]. intros items Hi.
  apply reads_assoc, reads_position. intros p. apply (parses_items m g l Hm items Hi).
Qed.

Lemma parses_narray {A} flexible (m : WireReader A) (g : A -> Wire) x :
  (forall a, takes_room (g a)) -> (forall a, parses m (g a) a) ->
  parses (read_optional_items flexible m) (g_narray flexible g x) x.
Proof.
  intros Hg Hm b. destruct x as [l|]; simpl; [intros Hb|intros ->].
  - eapply counted_reads; [exact Hg|exact Hb|]. intros items Hi. apply (reads_map _ Some), (parses_items m g l Hm items Hi).
  - rewrite <-(app_nil_r (g_null _ _)). eapply reads_bind; [apply array_null_reads|apply reads_ret].
Qed.

(** *** Fields some versions carry *)

Lemma parses_field {A} c (m : WireReader A) (g : A -> Wire) x absent :
  (c = true -> parses m (g x) x) -> parses (read_if c m absent) (g_field c g x absent) x.
Proof.
  intros Hm b. destruct c; simpl; [by apply Hm|]. intros [-> ->]. apply reads_ret.
Qed.

Lemma parses_skip {A} c (m : WireReader A) (g : A -> Wire) :
  (forall x, parses m (g x) x) -> parses (skip_if c m) (g_when c (g_any g)) tt.
Proof.
  intros Hm b. destruct c; simpl; [|intros ->; apply reads_ret]. intros [x Hx].
  rewrite <-(app_nil_r b). eapply reads_bind; [by eapply Hm|apply reads_ret].
Qed.

Lemma parses_tags flexible : parses (skip_tags flexible) (g_tags flexible) tt.
Proof.
  intros b. destruct flexible; simpl; [|intros ->; apply reads_ret]. intros (fs & Hw & Hl & ->).
  rewrite <-(app_nil_r (tags_enc fs)). eapply reads_bind; [by apply reads_tagged_fields|apply reads_ret].
Qed.

(** *** Bodies *)

(** A decoder that reads all it is given. *)
Lemma decode_parses {A} (m : WireReader A) P a b : parses m P a -> P b -> decode_body m b = Ok a.
Proof.
  intros Hm Hb. unfold decode_body. pose proof (Hm b Hb [] []) as Hr. rewrite app_nil_r in Hr. simpl in Hr.
  by rewrite Hr.
Qed.

(** A decoder that stops before the end. *)
Lemma decode_parses_prefix {A} (m : WireReader A) P Q a b :
  parses m P a -> (P ;;; Q) b -> decode_body m b = Ok a.
Proof.
  intros Hm (b1 & b2 & -> & H1 & _). unfold decode_body. pose proof (Hm b1 H1 [] b2) as Hr. simpl in Hr.
  by rewrite Hr.
Qed.

(** A decoder that refuses bytes left over: it reads its grammar at the end of
    a body. *)
Definition parses_end {A} (m : WireReader A) (P : Wire) (a : A) : Prop :=
  forall pre b, P b -> m (pre ++ b) (length pre) = Ok (a, length (pre ++ b)).

Lemma parses_end_bind {A B} (m : WireReader A) (k : A -> WireReader B) P Q a c :
  parses m P a -> parses_end (k a) Q c -> parses_end (rd_bind m k) (P ;;; Q) c.
Proof.
  intros Hm Hk pre b (b1 & b2 & -> & H1 & H2). unfold rd_bind. rewrite (Hm b1 H1). cbn [res_bind].
  rewrite app_assoc, <-length_app. by apply Hk.
Qed.

Lemma parses_end_finish {A B} (m : WireReader A) (k : A -> WireReader B) P a c :
  parses m P a -> k a = finish c -> parses_end (rd_bind m k) P c.
Proof.
  intros Hm Hk pre b Hb. unfold rd_bind. pose proof (Hm b Hb pre []) as Hr. rewrite app_nil_r in Hr. rewrite Hr.
  cbn [res_bind]. rewrite Hk. unfold finish, rd_bind, cur_remaining, position, remaining. cbn [res_bind].
  rewrite <-length_app, Nat.sub_diag. done.
Qed.

Lemma finish_refuses {A} (a : A) buf at_ :
  (at_ < length buf)%nat ->
  finish a buf at_ = Err (LengthOutOfBounds (Z.of_nat (length buf - at_)) 0 (Z.of_nat at_)).
Proof.
  intros Hlt. unfold finish, rd_bind, cur_remaining, position, remaining. cbn [res_bind].
  by rewrite (proj2 (Nat.eqb_neq _ _)) by lia.
Qed.

Lemma decode_parses_end {A} (m : WireReader A) P a b : parses_end m P a -> P b -> decode_body m b = Ok a.
Proof. intros Hm Hb. unfold decode_body. pose proof (Hm [] b Hb) as Hr. simpl in Hr. by rewrite Hr. Qed.

Lemma parses_any {A B} (m : WireReader A) (k : A -> WireReader B) (g : A -> Wire) Q c :
  (forall x, parses m (g x) x) -> (forall x, parses (k x) Q c) -> parses (rd_bind m k) (g_any g ;;; Q) c.
Proof.
  intros Hm Hk b (b1 & b2 & -> & [x H1] & H2). eapply reads_bind; [by apply (Hm x)|by apply Hk].
Qed.

Lemma parses_any_last {A B} (m : WireReader A) (k : A -> WireReader B) (g : A -> Wire) c :
  (forall x, parses m (g x) x) -> (forall x, k x = rd_ret c) -> parses (rd_bind m k) (g_any g) c.
Proof. intros Hm Hk b [x Hx]. by apply (parses_last m k (g x) x c (Hm x) (Hk x)). Qed.

(** A value of another shape than the one on the wire. *)
Lemma parses_as {A B} (m : WireReader A) (f : A -> B) (g : A -> Wire) y :
  (forall x, parses m (g x) x) ->
  parses (rd! x := m in rd_ret (f x)) (fun b => exists x, y = f x /\ g x b) y.
Proof. intros Hm b (x & -> & Hx). by apply (parses_last m _ (g x) x (f x) (Hm x)). Qed.

Lemma parses_when c (m : WireReader unit) P : parses m P tt -> parses (skip_if c m) (g_when c P) tt.
Proof.
  intros Hm b. destruct c; simpl; [|intros ->; apply reads_ret]. intros Hb.
  rewrite <-(app_nil_r b). eapply reads_bind; [by apply Hm|apply reads_ret].
Qed.

Lemma parses_if {A} (c : bool) (m n : WireReader A) P Q a :
  (c = true -> parses m P a) -> (c = false -> parses n Q a) ->
  parses (if c then m else n) (if c then P else Q) a.
Proof. destruct c; auto. Qed.

#[export] Hint Resolve parses_i8 parses_i16 parses_i32 parses_i64 parses_bool parses_f64 parses_uuid parses_nstr
  parses_str parses_bytes parses_nbytes parses_tags parses_ret : parse.

(** The value that was read is the value that was meant. *)
Ltac same_record := first [reflexivity | match goal with |- _ = _ ?c => destruct c; reflexivity end].

(** Follows a decoder and its grammar field by field. *)
Ltac parse_step := first
  [ solve [auto 1 with parse]
  | match goal with H : false = true |- _ => discriminate H end
  | match goal with |- parses _ _ ?a => is_var a; match type of a with unit => destruct a end end
  | apply parses_any; intros ?
  | eapply parses_bind
  | apply parses_field; intros ?
  | apply parses_skip; intros ?
  | apply parses_as; intros ?
  | apply parses_any_last; [|reflexivity]; intros ?
  | apply parses_when
  | apply parses_if; intros _
  | apply parses_array0; [intros ?; auto 8 with room|intros ?]
  | apply parses_array; [intros ?; auto 8 with room|intros ?]
  | apply parses_narray; [intros ?; auto 8 with room|intros ?]
  | eapply parses_last
  | match goal with |- _ = _ => same_record end ].
Ltac parse := repeat (parse_step; cbn beta).
Ltac parse_end := repeat first [eapply parses_end_bind; [parse|] | eapply parses_end_finish; [parse|parse]].

(** ** Encoders *)

Definition emits_wire (p : Put) (P : Wire) : Prop := forall b out, P b -> p out = out ++ b.

Lemma emits_wire_seq p q P Q : emits_wire p P -> emits_wire q Q -> emits_wire (p >+ q) (P ;;; Q).
Proof.
  intros Hp Hq b out (b1 & b2 & -> & H1 & H2). unfold put_then. by rewrite (Hp b1), (Hq b2), app_assoc.
Qed.

Lemma emits_wire_when c p P : (c = true -> emits_wire p P) -> emits_wire (put_when c p) (g_when c P).
Proof.
  intros Hp b out. destruct c; simpl; [by apply Hp|]. intros ->. unfold put_nothing. by rewrite app_nil_r.
Qed.

Lemma emits_wire_if (c : bool) p q P Q :
  (c = true -> emits_wire p P) -> (c = false -> emits_wire q Q) ->
  emits_wire (if c then p else q) (if c then P else Q).
Proof. destruct c; auto. Qed.

Lemma emits_wire_i8 x : emits_wire (e_i8 x) (g_i8 x).
Proof. by intros b out [_ ->]. Qed.
Lemma emits_wire_i16 x : emits_wire (e_i16 x) (g_i16 x).
Proof. by intros b out [_ ->]. Qed.
Lemma emits_wire_i32 x : emits_wire (e_i32 x) (g_i32 x).
Proof. by intros b out [_ ->]. Qed.
Lemma emits_wire_i64 x : emits_wire (e_i64 x) (g_i64 x).
Proof. by intros b out [_ ->]. Qed.
Lemma emits_wire_f64 x : emits_wire (e_f64 x) (g_f64 x).
Proof. by intros b out [_ ->]. Qed.
Lemma emits_wire_uuid x : emits_wire (e_raw x) (g_uuid x).
Proof. by intros b out [_ ->]. Qed.

(** A broker writes one for true. *)
Definition g_flag (x : bool) : Wire := g_i8 (if x then 1 else 0).

Lemma emits_wire_flag x : emits_wire (e_bool x) (g_flag x).
Proof. intros b out [_ ->]. by destruct x. Qed.

Lemma emits_wire_nstr flexible x : emits_wire (e_nstr flexible x) (g_nstr flexible x).
Proof. intros b out. apply put_nstr_enc. Qed.

Lemma emits_wire_str flexible s : emits_wire (e_str flexible s) (g_str flexible s).
Proof. intros b out Hb. apply (put_nstr_enc flexible (Some s)) with (buf := out) in Hb. by destruct flexible. Qed.

Lemma emits_wire_nbytes flexible x : emits_wire (e_nbytes flexible x) (g_nbytes flexible x).
Proof.
  intros b out. unfold e_nbytes. destruct x as [d|]; wire_cbn; [intros [Hl ->]|intros ->]; destruct flexible; wire_cbn;
    try done.
  - by rewrite put_compact_len_Some, app_assoc.
  - unfold put_i32, clamp. by rewrite Z.min_l, app_assoc.
Qed.

Lemma emits_wire_bytes flexible d : emits_wire (e_bytes flexible d) (g_bytes flexible d).
Proof.
  intros b out Hb. pose proof (emits_wire_nbytes flexible (Some d) b out Hb) as He. by destruct flexible.
Qed.

Lemma emits_wire_len flexible n out :
  len_fits flexible i32_max n -> e_len flexible n out = out ++ g_length flexible 4 n.
Proof.
  unfold e_len. destruct flexible; wire_cbn; intros Hl; [by apply put_compact_len_Some|].
  unfold put_i32, clamp. by rewrite Z.min_l.
Qed.

Lemma emits_wire_items {A} (f : A -> Put) (g : A -> Wire) l :
  (forall a, emits_wire (f a) (g a)) -> emits_wire (put_each f l) (g_items g l).
Proof.
  intros Hf b out (bs & -> & Hbs). revert out. induction Hbs as [|a c l bs Ha _ IH]; intros out; simpl.
  - by rewrite app_nil_r.
  - unfold put_each in *. simpl. rewrite IH, (Hf a c) by done. by rewrite app_assoc.
Qed.

Lemma emits_wire_array {A} flexible (f : A -> Put) (g : A -> Wire) l :
  (forall a, emits_wire (f a) (g a)) -> emits_wire (e_array flexible f l) (g_array flexible g l).
Proof.
  intros Hf b out (Hl & items & Hi & ->). unfold e_array, put_then.
  rewrite emits_wire_len, (emits_wire_items f g l Hf items), app_assoc by done. done.
Qed.

(** [put_array_len(out, flexible, Some(0))]: an array nothing fills. *)
Lemma emits_wire_no_items {A} flexible (g : A -> Wire) : emits_wire (e_len flexible 0) (g_array flexible g []).
Proof.
  intros b out (Hl & items & (bs & -> & Hbs) & ->). inversion Hbs; subst. simpl.
  by rewrite (emits_wire_len flexible 0 out Hl), app_nil_r.
Qed.

Lemma emits_wire_tags flexible : emits_wire (put_when flexible e_tags) (g_no_tags flexible).
Proof.
  apply emits_wire_when. intros _ b out ->. unfold e_tags.
  by rewrite (put_tagged_fields_enc out []).
Qed.

#[export] Hint Resolve emits_wire_i8 emits_wire_i16 emits_wire_i32 emits_wire_i64 emits_wire_f64 emits_wire_uuid
  emits_wire_flag emits_wire_nstr emits_wire_str emits_wire_nbytes emits_wire_bytes emits_wire_no_items
  emits_wire_tags : parse.

(** Follows an encoder and its grammar field by field. *)
Ltac emit_step := first
  [ solve [auto 1 with parse]
  | match goal with H : false = true |- _ => discriminate H end
  | apply emits_wire_seq
  | apply emits_wire_array; intros ?
  | apply emits_wire_when; intros ?
  | apply emits_wire_if; intros ? ].
Ltac emit := repeat (emit_step; cbn beta).

(** ** Exhibiting the bytes of a concrete message *)

Lemma seq_intro P Q b1 b2 b : P b1 -> Q b2 -> b1 ++ b2 = b -> (P ;;; Q) b.
Proof. intros HP HQ <-. by exists b1, b2. Qed.

Lemma array_intro {A} flexible (g : A -> Wire) l bs b :
  len_fits flexible i32_max (length l) -> Forall2 g l bs ->
  g_length flexible 4 (length l) ++ concat bs = b -> g_array flexible g l b.
Proof. intros Hl Hi <-. split; [done|]. exists (concat bs). split; [|done]. by exists bs. Qed.

Lemma tags_intro flexible fs :
  Forall tag_wf fs -> Z.of_nat (length fs) <= u32_max -> g_tags flexible (if flexible then tags_enc fs else []).
Proof. intros Hf Hl. destruct flexible; [|done]. by exists fs. Qed.

Lemma bool_intro x : g_bool x (be_signed 1 (if x then 1 else 0)).
Proof. destruct x; [exists 1|exists 0]; by repeat split. Qed.

Lemma field_intro {A} (c : bool) (g : A -> Wire) x absent b :
  (if c then g x b else b = [] /\ x = absent) -> g_field c g x absent b.
Proof. by destruct c. Qed.

Lemma when_intro (c : bool) P b : (if c then P b else b = []) -> g_when c P b.
Proof. by destruct c. Qed.

(** Finds the bytes of a message field by field, with no tagged fields. *)
Ltac on_wire :=
  lazymatch goal with
  | |- (_ ;;; _) _ => eapply seq_intro; [on_wire | on_wire | vm_compute; reflexivity]
  | |- g_array _ _ _ _ => eapply array_intro; [vm_compute; done | on_wire_each | vm_compute; reflexivity]
  | |- g_array0 _ _ _ _ => left; on_wire
  | |- g_any _ _ => eexists; on_wire
  | |- g_tags ?c _ => exact (tags_intro c [] (List.Forall_nil _) ltac:(vm_compute; discriminate))
  | |- g_field ?c _ _ _ _ => apply field_intro; on_wire_if c
  | |- g_when ?c _ _ => apply when_intro; on_wire_if c
  | |- g_no_tags _ _ => unfold g_no_tags; on_wire
  | |- g_nstr _ _ _ => first [reflexivity | split; [vm_compute; done | reflexivity]]
  | |- g_nbytes _ _ _ => first [reflexivity | split; [vm_compute; done | reflexivity]]
  | |- g_str _ _ _ => split; [vm_compute; done | reflexivity]
  | |- g_bytes _ _ _ => split; [vm_compute; done | reflexivity]
  | |- g_bool _ _ => apply bool_intro
  | |- _ /\ _ => split; on_wire
  | |- _ = _ => reflexivity
  | |- _ => split; [vm_compute; done | reflexivity]
  end
with on_wire_each :=
  first [apply List.Forall2_nil | eapply List.Forall2_cons; [cbv beta; on_wire | on_wire_each]]
with on_wire_if c :=
  let c' := eval vm_compute in c in change c with c'; cbv iota; on_wire.
