(* ===== verification/MsgSpec.v ===== *)
(** * MsgSpec: the message schemas

    The bodies of the requests the broker decodes and of the responses it
    encodes, as Kafka's published message schemas define them at the versions
    the broker advertises: the fields in order, the versions each is part of,
    and the flexible encoding from the version the advertised table names.  A
    field that is in every advertised version is not conditioned, and a field
    the broker does not keep may hold any value. *)

From stdpp Require Import base tactics list numbers strings.
From Stdlib Require Import ZArith Lia.
From S2P Require Import Prelude Bytes Wire WireProps Api Msg MsgData MsgGroup MsgAdmin Grammar.

Open Scope Z_scope.

(** The versions a field is part of. *)
Definition since (from version : Z) : bool := from <=? version.
Definition up_to (last version : Z) : bool := version <=? last.
Definition within (from last version : Z) : bool := since from version && up_to last version.

Section versions.
Context (version : Z).

Notation since from := (since from version).
Notation up_to last := (up_to last version).
Notation within from last := (within from last version).
Notation any_i32 := (g_any g_i32).
Notation any_i64 := (g_any g_i64).

(** ** Requests *)

Definition w_produce (r : ProduceRequest) : Wire :=
  let f := is_flexible Produce version in
  g_any (g_nstr f) ;;; g_i16 (pr_acks r) ;;; any_i32 ;;;
  g_array0 f (fun t =>
    g_field (up_to 12) (g_nstr f) (pt_name t) None ;;;
    g_field (since 13) g_uuid (pt_topic_id t) ZERO_TOPIC_ID ;;;
    g_array0 f (fun p => g_i32 (pp_index p) ;;; g_nbytes f (pp_records p) ;;; g_tags f) (pt_partitions t) ;;;
    g_tags f) (pr_topics r).

Definition w_fetch (r : FetchRequest) : Wire :=
  let f := is_flexible Fetch version in
  g_when (up_to 14) any_i32 ;;;
  g_i32 (fr_max_wait_ms r) ;;; g_i32 (fr_min_bytes r) ;;; g_i32 (fr_max_bytes r) ;;;
  g_i8 (fr_isolation_level r) ;;;
  g_when (since 7) (g_any (fun epoch => any_i32 ;;; g_i32 epoch)) ;;;
  g_array0 f (fun t =>
    g_field (up_to 12) (g_nstr f) (ft_name t) None ;;;
    g_field (since 13) g_uuid (ft_topic_id t) ZERO_TOPIC_ID ;;;
    g_array0 f (fun p =>
      g_i32 (fp_index p) ;;; g_when (since 9) any_i32 ;;; g_i64 (fp_fetch_offset p) ;;;
      g_when (since 12) any_i32 ;;; g_when (since 5) any_i64 ;;; g_i32 (fp_partition_max_bytes p) ;;;
      g_tags f) (ft_partitions t) ;;;
    g_tags f) (fr_topics r) ;;;
  g_when (since 7) (g_any (g_array0 f (fun _ : unit =>
    g_when (up_to 12) (g_any (g_nstr f)) ;;; g_when (since 13) (g_any g_uuid) ;;;
    g_any (g_array0 f g_i32) ;;; g_tags f))) ;;;
  g_when (since 11) (g_any (g_nstr f)) ;;;
  g_tags f.

Definition w_list_offsets (r : ListOffsetsRequest) : Wire :=
  let f := is_flexible ListOffsets version in
  any_i32 ;;; g_field (since 2) g_i8 (lr_isolation_level r) 0 ;;;
  g_array0 f (fun t =>
    g_nstr f (lt_name t) ;;;
    g_array0 f (fun p =>
      g_i32 (lp_index p) ;;; g_when (since 4) any_i32 ;;; g_i64 (lp_timestamp p) ;;;
      g_when (version =? 0) any_i32 ;;; g_tags f) (lt_partitions t) ;;;
    g_tags f) (lr_topics r) ;;;
  g_tags f.

Definition w_metadata (r : MetadataRequest) : Wire :=
  let f := is_flexible MetadataApi version in
  g_narray f (fun t =>
    g_field (since 10) g_uuid (mt_topic_id t) ZERO_TOPIC_ID ;;; g_nstr f (mt_name t) ;;; g_tags f) (mr_topics r) ;;;
  g_field (since 4) g_bool (mr_allow_auto_topic_creation r) true.

(** What follows what the decoder reads. *)
Definition w_produce_rest : Wire := g_tags (is_flexible Produce version).
Definition w_metadata_rest : Wire :=
  g_when (within 8 10) (g_any g_bool) ;;; g_when (since 8) (g_any g_bool) ;;;
  g_tags (is_flexible MetadataApi version).

Definition w_init_producer_id (r : InitProducerIdRequest) : Wire :=
  let f := is_flexible InitProducerId version in
  g_nstr f (ip_transactional_id r) ;;; any_i32 ;;;
  g_when (since 3) (g_any (fun epoch => any_i64 ;;; g_i16 epoch)) ;;;
  g_tags f.

Definition w_sasl_handshake (r : SaslHandshakeRequest) : Wire :=
  g_str (is_flexible SaslHandshake version) (sh_mechanism r).

Definition w_sasl_authenticate (r : SaslAuthenticateRequest) : Wire :=
  let f := is_flexible SaslAuthenticate version in
  g_bytes f (sa_auth_bytes r) ;;; g_tags f.

(** [no_rebalance_timeout] is what the request holds where its version has no
    rebalance timeout. *)
Definition w_join_group (no_rebalance_timeout : Z) (r : JoinGroupRequest) : Wire :=
  let f := is_flexible JoinGroup version in
  g_str f (jr_group_id r) ;;; g_i32 (jr_session_timeout_ms r) ;;;
  g_field (since 1) g_i32 (jr_rebalance_timeout_ms r) no_rebalance_timeout ;;;
  g_str f (jr_member_id r) ;;;
  g_field (since 5) (g_nstr f) (jr_group_instance_id r) None ;;;
  g_str f (jr_protocol_type r) ;;;
  g_array0 f (fun p => g_str f (jp_name p) ;;; g_bytes f (jp_metadata p) ;;; g_tags f) (jr_protocols r) ;;;
  g_field (since 8) (g_nstr f) (jr_reason r) None ;;;
  g_tags f.

Definition w_sync_group (r : SyncGroupRequest) : Wire :=
  let f := is_flexible SyncGroup version in
  g_str f (sr_group_id r) ;;; g_i32 (sr_generation_id r) ;;; g_str f (sr_member_id r) ;;;
  g_when (since 3) (g_any (g_nstr f)) ;;;
  g_field (since 5) (g_nstr f) (sr_protocol_type r) None ;;;
  g_field (since 5) (g_nstr f) (sr_protocol_name r) None ;;;
  g_array0 f (fun a => g_str f (sg_member_id a) ;;; g_bytes f (sg_assignment a) ;;; g_tags f) (sr_assignments r) ;;;
  g_tags f.

Definition w_heartbeat (r : HeartbeatRequest) : Wire :=
  let f := is_flexible Heartbeat version in
  g_str f (hb_group_id r) ;;; g_i32 (hb_generation_id r) ;;; g_str f (hb_member_id r) ;;;
  g_when (since 3) (g_any (g_nstr f)) ;;; g_tags f.

(** One member until version 2, an array of them since. *)
Definition w_leave_group (r : LeaveGroupRequest) : Wire :=
  let f := is_flexible LeaveGroup version in
  g_str f (lg_group_id r) ;;;
  (if up_to 2 then fun b => exists m, lg_members r = [mkMemberIdentity m] /\ g_str f m b
   else g_array0 f (fun m =>
     g_str f (mi_member_id m) ;;; g_any (g_nstr f) ;;; g_when (since 5) (g_any (g_nstr f)) ;;; g_tags f)
     (lg_members r)) ;;;
  g_tags f.

Definition w_offset_commit (r : OffsetCommitRequest) : Wire :=
  let f := is_flexible OffsetCommit version in
  g_str f (oc_group_id r) ;;; g_i32 (oc_generation_id r) ;;; g_str f (oc_member_id r) ;;;
  g_when (since 7) (g_any (g_nstr f)) ;;;
  g_when (up_to 4) any_i64 ;;;
  g_array0 f (fun t =>
    g_str f (ot_name t) ;;;
    g_array0 f (fun p =>
      g_i32 (op_partition_index p) ;;; g_i64 (op_committed_offset p) ;;; g_when (since 6) any_i32 ;;;
      g_any (g_nstr f) ;;; g_tags f) (ot_partitions t) ;;;
    g_tags f) (oc_topics r) ;;;
  g_tags f.

Definition w_offset_fetch (r : OffsetFetchRequest) : Wire :=
  let f := is_flexible OffsetFetch version in
  g_str f (ofr_group_id r) ;;;
  g_narray f (fun t => g_str f (oft_name t) ;;; g_array0 f g_i32 (oft_partition_indexes t) ;;; g_tags f)
    (ofr_topics r) ;;;
  g_when (since 7) (g_any g_bool) ;;; g_tags f.

(** One key until version 3, an array of them since version 4. *)
Definition w_find_coordinator (r : FindCoordinatorRequest) : Wire :=
  let f := is_flexible FindCoordinator version in
  (if up_to 3 then fun b => exists k, fc_keys r = [k] /\ g_str f k b else g_end) ;;;
  g_field (since 1) g_i8 (fc_key_type r) 0 ;;;
  (if since 4 then g_array0 f (g_str f) (fc_keys r) else g_end) ;;;
  g_tags f.

Definition w_list_groups (r : ListGroupsRequest) : Wire :=
  let f := is_flexible ListGroups version in
  g_field (since 4) (g_narray f (g_str f)) (lgq_states_filter r) None ;;; g_tags f.

Definition w_describe_groups (r : DescribeGroupsRequest) : Wire :=
  let f := is_flexible DescribeGroups version in
  g_array f (g_str f) (dg_groups r) ;;;
  g_field (since 3) g_bool (dg_include_authorized_operations r) false ;;; g_tags f.

Definition w_create_topics (r : CreateTopicsRequest) : Wire :=
  let f := is_flexible CreateTopics version in
  g_array f (fun t =>
    g_str f (ct_name t) ;;; g_i32 (ct_num_partitions t) ;;; g_i16 (ct_replication_factor t) ;;;
    g_array f (fun a => g_i32 (ca_partition_index a) ;;; g_array f g_i32 (ca_broker_ids a) ;;; g_tags f)
      (ct_assignments t) ;;;
    g_array f (fun c => g_str f (cc_name c) ;;; g_nstr f (cc_value c) ;;; g_tags f) (ct_configs t) ;;;
    g_tags f) (cr_topics r) ;;;
  g_i32 (cr_timeout_ms r) ;;; g_bool (cr_validate_only r) ;;; g_tags f.

(** Names until version 5; names or topic ids since version 6. *)
Definition w_delete_topics (r : DeleteTopicsRequest) : Wire :=
  let f := is_flexible DeleteTopics version in
  g_array f (fun t =>
    if since 6 then g_nstr f (dt_name t) ;;; g_uuid (dt_topic_id t) ;;; g_tags f
    else fun b => exists s, t = mkDeletableTopic (Some s) ZERO_TOPIC_ID /\ g_str f s b) (dr_topics r) ;;;
  g_i32 (dr_timeout_ms r) ;;; g_tags f.

Definition w_describe_configs (r : DescribeConfigsRequest) : Wire :=
  let f := is_flexible DescribeConfigs version in
  g_array f (fun c =>
    g_i8 (cf_resource_type c) ;;; g_str f (cf_resource_name c) ;;;
    g_narray f (g_str f) (cf_config_names c) ;;; g_tags f) (dc_resources r) ;;;
  g_bool (dc_include_synonyms r) ;;;
  g_field (since 3) g_bool (dc_include_documentation r) false ;;; g_tags f.

Definition w_alter_configs (r : AlterConfigsRequest) : Wire :=
  let f := is_flexible AlterConfigs version in
  g_array f (fun c =>
    g_i8 (acr_resource_type c) ;;; g_str f (acr_resource_name c) ;;;
    g_array f (fun a => g_str f (ac_name a) ;;; g_nstr f (ac_value a) ;;; g_tags f) (acr_configs c) ;;;
    g_tags f) (acq_resources r) ;;;
  g_bool (acq_validate_only r) ;;; g_tags f.

Definition operation_code (op : ConfigOperation) : Z :=
  match op with OpSet => 0 | OpDelete => 1 | OpAppendTo => 2 | OpSubtract => 3 end.

Definition w_incremental_alter_configs (r : IncrementalAlterConfigsRequest) : Wire :=
  let f := is_flexible IncrementalAlterConfigs version in
  g_array f (fun c =>
    g_i8 (icr_resource_type c) ;;; g_str f (icr_resource_name c) ;;;
    g_array f (fun a =>
      g_str f (ic_name a) ;;; g_i8 (operation_code (ic_operation a)) ;;; g_nstr f (ic_value a) ;;; g_tags f)
      (icr_configs c) ;;;
    g_tags f) (iq_resources r) ;;;
  g_bool (iq_validate_only r) ;;; g_tags f.

Definition w_describe_client_quotas (r : DescribeClientQuotasRequest) : Wire :=
  let f := is_flexible DescribeClientQuotas version in
  g_array f (fun c =>
    g_str f (qf_entity_type c) ;;; g_i8 (qf_match_type c) ;;; g_nstr f (qf_name c) ;;; g_tags f)
    (dq_components r) ;;;
  g_bool (dq_strict r) ;;; g_tags f.

Definition w_alter_client_quotas (r : AlterClientQuotasRequest) : Wire :=
  let f := is_flexible AlterClientQuotas version in
  g_array f (fun e =>
    g_array f (fun x => g_str f (qe_entity_type x) ;;; g_nstr f (qe_name x) ;;; g_tags f) (qa_entity e) ;;;
    g_array f (fun o => g_str f (qo_key o) ;;; g_f64 (qo_value o) ;;; g_bool (qo_remove o) ;;; g_tags f)
      (qa_operations e) ;;;
    g_tags f) (aq_entries r) ;;;
  g_bool (aq_validate_only r) ;;; g_tags f.
End versions.

(** ** Any request *)

(** A decoded request of each kind; an ApiVersions body is not read. *)
Inductive KafkaRequest : Type :=
| RqProduce (r : ProduceRequest)
| RqFetch (r : FetchRequest)
| RqListOffsets (r : ListOffsetsRequest)
| RqMetadataApi (r : MetadataRequest)
| RqCreateTopics (r : CreateTopicsRequest)
| RqDeleteTopics (r : DeleteTopicsRequest)
| RqDescribeConfigs (r : DescribeConfigsRequest)
| RqAlterConfigs (r : AlterConfigsRequest)
| RqIncrementalAlterConfigs (r : IncrementalAlterConfigsRequest)
| RqOffsetCommit (r : OffsetCommitRequest)
| RqOffsetFetch (r : OffsetFetchRequest)
| RqFindCoordinator (r : FindCoordinatorRequest)
| RqJoinGroup (r : JoinGroupRequest)
| RqHeartbeat (r : HeartbeatRequest)
| RqLeaveGroup (r : LeaveGroupRequest)
| RqSyncGroup (r : SyncGroupRequest)
| RqDescribeGroups (r : DescribeGroupsRequest)
| RqListGroups (r : ListGroupsRequest)
| RqSaslHandshake (r : SaslHandshakeRequest)
| RqInitProducerId (r : InitProducerIdRequest)
| RqSaslAuthenticate (r : SaslAuthenticateRequest)
| RqDescribeClientQuotas (r : DescribeClientQuotasRequest)
| RqAlterClientQuotas (r : AlterClientQuotasRequest)
| RqApiVersions.

(** The decoder each handler applies to its body. *)
Definition decode_request (key : ApiKey) (version : Z) (body : bytes) : Result DecodeError KafkaRequest :=
  match key with
  | Produce => let? r := decode_body (produce_decode_request version) body in Ok (RqProduce r)
  | Fetch => let? r := decode_body (fetch_decode_request version) body in Ok (RqFetch r)
  | ListOffsets => let? r := decode_body (list_offsets_decode_request version) body in Ok (RqListOffsets r)
  | MetadataApi => let? r := decode_body (metadata_decode_request version) body in Ok (RqMetadataApi r)
  | CreateTopics => let? r := decode_body (create_topics_decode_request version) body in Ok (RqCreateTopics r)
  | DeleteTopics => let? r := decode_body (delete_topics_decode_request version) body in Ok (RqDeleteTopics r)
  | DescribeConfigs => let? r := decode_body (describe_configs_decode_request version) body in Ok (RqDescribeConfigs r)
  | AlterConfigs => let? r := decode_body (alter_configs_decode_request version) body in Ok (RqAlterConfigs r)
  | IncrementalAlterConfigs => let? r := decode_body (incremental_alter_configs_decode_request version) body in Ok (RqIncrementalAlterConfigs r)
  | OffsetCommit => let? r := decode_body (offset_commit_decode_request version) body in Ok (RqOffsetCommit r)
  | OffsetFetch => let? r := decode_body (offset_fetch_decode_request version) body in Ok (RqOffsetFetch r)
  | FindCoordinator => let? r := decode_body (find_coordinator_decode_request version) body in Ok (RqFindCoordinator r)
  | JoinGroup => let? r := decode_body (join_group_decode_request version) body in Ok (RqJoinGroup r)
  | Heartbeat => let? r := decode_body (heartbeat_decode_request version) body in Ok (RqHeartbeat r)
  | LeaveGroup => let? r := decode_body (leave_group_decode_request version) body in Ok (RqLeaveGroup r)
  | SyncGroup => let? r := decode_body (sync_group_decode_request version) body in Ok (RqSyncGroup r)
  | DescribeGroups => let? r := decode_body (describe_groups_decode_request version) body in Ok (RqDescribeGroups r)
  | ListGroups => let? r := decode_body (list_groups_decode_request version) body in Ok (RqListGroups r)
  | SaslHandshake => let? r := decode_body (sasl_handshake_decode_request) body in Ok (RqSaslHandshake r)
  | InitProducerId => let? r := decode_body (init_producer_id_decode_request version) body in Ok (RqInitProducerId r)
  | SaslAuthenticate => let? r := decode_body (sasl_authenticate_decode_request version) body in Ok (RqSaslAuthenticate r)
  | DescribeClientQuotas => let? r := decode_body (decode_describe_request version) body in Ok (RqDescribeClientQuotas r)
  | AlterClientQuotas => let? r := decode_body (decode_alter_request version) body in Ok (RqAlterClientQuotas r)
  | ApiVersions => Ok RqApiVersions
  end.

(** The bodies that carry a request.  A field that a version does not have is at
    Kafka's default, but for the rebalance timeout of JoinGroup at version 0: the
    broker's request holds 0 there, where Kafka's default is -1. *)
Definition request_wire (version : Z) (request : KafkaRequest) : Wire :=
  match request with
  | RqProduce r => w_produce version r ;;; w_produce_rest version
  | RqFetch r => w_fetch version r
  | RqListOffsets r => w_list_offsets version r
  | RqMetadataApi r => w_metadata version r ;;; w_metadata_rest version
  | RqCreateTopics r => w_create_topics version r
  | RqDeleteTopics r => w_delete_topics version r
  | RqDescribeConfigs r => w_describe_configs version r
  | RqAlterConfigs r => w_alter_configs version r
  | RqIncrementalAlterConfigs r => w_incremental_alter_configs version r
  | RqOffsetCommit r => w_offset_commit version r
  | RqOffsetFetch r => w_offset_fetch version r
  | RqFindCoordinator r => w_find_coordinator version r
  | RqJoinGroup r => w_join_group version 0 r
  | RqHeartbeat r => w_heartbeat version r
  | RqLeaveGroup r => w_leave_group version r
  | RqSyncGroup r => w_sync_group version r
  | RqDescribeGroups r => w_describe_groups version r
  | RqListGroups r => w_list_groups version r
  | RqSaslHandshake r => w_sasl_handshake version r
  | RqInitProducerId r => w_init_producer_id version r
  | RqSaslAuthenticate r => w_sasl_authenticate version r
  | RqDescribeClientQuotas r => w_describe_client_quotas version r
  | RqAlterClientQuotas r => w_alter_client_quotas version r
  | RqApiVersions => fun _ => True
  end.

Definition request_key (request : KafkaRequest) : ApiKey :=
  match request with
  | RqProduce _ => Produce
  | RqFetch _ => Fetch
  | RqListOffsets _ => ListOffsets
  | RqMetadataApi _ => MetadataApi
  | RqCreateTopics _ => CreateTopics
  | RqDeleteTopics _ => DeleteTopics
  | RqDescribeConfigs _ => DescribeConfigs
  | RqAlterConfigs _ => AlterConfigs
  | RqIncrementalAlterConfigs _ => IncrementalAlterConfigs
  | RqOffsetCommit _ => OffsetCommit
  | RqOffsetFetch _ => OffsetFetch
  | RqFindCoordinator _ => FindCoordinator
  | RqJoinGroup _ => JoinGroup
  | RqHeartbeat _ => Heartbeat
  | RqLeaveGroup _ => LeaveGroup
  | RqSyncGroup _ => SyncGroup
  | RqDescribeGroups _ => DescribeGroups
  | RqListGroups _ => ListGroups
  | RqSaslHandshake _ => SaslHandshake
  | RqInitProducerId _ => InitProducerId
  | RqSaslAuthenticate _ => SaslAuthenticate
  | RqDescribeClientQuotas _ => DescribeClientQuotas
  | RqAlterClientQuotas _ => AlterClientQuotas
  | RqApiVersions => ApiVersions
  end.

(** The header before a body: the key, the version, the correlation id and the
    client's name, and tagged fields where the version is flexible. *)
Definition request_header_wire (key : ApiKey) (version correlation_id : Z) (client : option string) : Wire :=
  g_i16 (as_i16 key) ;;; g_i16 version ;;; g_i32 correlation_id ;;; g_nstr false client ;;;
  g_tags (is_flexible key version).
