(* ===== verification/MsgRespSpec.v ===== *)
(** * MsgRespSpec: the schemas of the responses

    The body each response has at the versions the broker advertises, in the
    terms of MsgSpec.v; the fields the broker does not fill hold the value the
    schema reserves for that: no throttling, no session, no rack, no tagged
    fields. *)

From stdpp Require Import base tactics list numbers strings.
From Stdlib Require Import ZArith Lia.
From S2P Require Import Prelude Bytes Wire WireProps Api Msg MsgData MsgGroup MsgAdmin Grammar MsgSpec.

Open Scope Z_scope.

Section versions.
Context (version : Z).

Notation since from := (since from version).
Notation up_to last := (up_to last version).
Notation within from last := (within from last version).
Notation no_throttle := (g_i32 0).

(** A topic goes by its name until version 12 and by its id since 13. *)
Definition g_identity (f : bool) (identity : TopicIdentity) : Wire :=
  match identity with
  | TopicName name => fun b => up_to 12 = true /\ g_str f name b
  | TopicUuid id => fun b => since 13 = true /\ g_uuid id b
  end.

Definition s_produce (topics : list ProduceResponseTopic) : Wire :=
  let f := is_flexible Produce version in
  g_array f (fun t =>
    g_identity f (prt_identity t) ;;;
    g_array f (fun p =>
      g_i32 (prp_index p) ;;; g_i16 (prp_error_code p) ;;; g_i64 (prp_base_offset p) ;;; g_i64 (-1) ;;;
      g_when (since 5) (g_i64 0) ;;;
      g_when (since 8) (g_array f g_i32 [] ;;; g_nstr f None) ;;;
      g_no_tags f) (prt_partitions t) ;;;
    g_no_tags f) topics ;;;
  no_throttle ;;; g_no_tags f.

Definition s_fetch (topics : list FetchResponseTopic) : Wire :=
  let f := is_flexible Fetch version in
  no_throttle ;;; g_when (since 7) (g_i16 0 ;;; g_i32 0) ;;;
  g_array f (fun t =>
    g_identity f (frt_identity t) ;;;
    g_array f (fun p =>
      g_i32 (frp_index p) ;;; g_i16 (frp_error_code p) ;;; g_i64 (frp_high_watermark p) ;;;
      g_i64 (frp_last_stable_offset p) ;;; g_when (since 5) (g_i64 (frp_log_start_offset p)) ;;;
      g_array f g_i64 [] ;;; g_when (since 11) (g_i32 (-1)) ;;; g_nbytes f (frp_records p) ;;;
      g_no_tags f) (frt_partitions t) ;;;
    g_no_tags f) topics ;;;
  g_no_tags f.

Definition s_list_offsets (topics : list ListOffsetsResponseTopic) : Wire :=
  let f := is_flexible ListOffsets version in
  g_when (since 2) no_throttle ;;;
  g_array f (fun t =>
    g_str f (lrt_name t) ;;;
    g_array f (fun p =>
      g_i32 (lrp_index p) ;;; g_i16 (lrp_error_code p) ;;; g_i64 (lrp_timestamp p) ;;; g_i64 (lrp_offset p) ;;;
      g_when (since 4) (g_i32 (-1)) ;;; g_no_tags f) (lrt_partitions t) ;;;
    g_no_tags f) topics ;;;
  g_no_tags f.

(** One broker, which leads and holds every partition. *)
Definition s_metadata (r : MetadataResponse) : Wire :=
  let f := is_flexible MetadataApi version in
  let node := mrs_node_id r in
  g_when (since 3) no_throttle ;;;
  g_array f (fun host =>
    g_i32 node ;;; g_str f host ;;; g_i32 (mrs_port r) ;;; g_when (since 1) (g_nstr f None) ;;;
    g_no_tags f) [mrs_host r] ;;;
  g_when (since 2) (g_nstr f (mrs_cluster_id r)) ;;;
  g_when (since 1) (g_i32 (mrs_controller_id r)) ;;;
  g_array f (fun t =>
    g_i16 (mrt_error_code t) ;;; g_nstr f (mrt_name t) ;;; g_when (since 10) (g_uuid (mrt_topic_id t)) ;;;
    g_when (since 1) (g_flag false) ;;;
    g_array f (fun index =>
      g_i16 0 ;;; g_i32 (Z.of_nat index) ;;; g_i32 node ;;; g_when (since 7) (g_i32 0) ;;;
      g_array f g_i32 [node] ;;; g_array f g_i32 [node] ;;; g_when (since 5) (g_array f g_i32 []) ;;;
      g_no_tags f) (seq 0 (mrt_partition_count t)) ;;;
    g_when (since 8) (g_i32 (-2147483648)) ;;; g_no_tags f) (mrs_topics r) ;;;
  g_when (within 8 10) (g_i32 (-2147483648)) ;;;
  g_when (since 13) (g_i16 0) ;;;
  g_no_tags f.

Definition s_init_producer_id (r : InitProducerIdResponse) : Wire :=
  no_throttle ;;; g_i16 (ipr_error_code r) ;;; g_i64 (ipr_producer_id r) ;;; g_i16 (ipr_producer_epoch r) ;;;
  g_no_tags (is_flexible InitProducerId version).

Definition s_api_versions (error_code : Z) (advertised : list Advertised) : Wire :=
  let f := is_flexible ApiVersions version in
  g_i16 error_code ;;;
  g_array f (fun row =>
    g_i16 (as_i16 (ad_api_key row)) ;;; g_i16 (ad_min row) ;;; g_i16 (ad_max row) ;;; g_no_tags f) advertised ;;;
  g_when (since 1) no_throttle ;;; g_no_tags f.

Definition s_sasl_handshake (r : SaslHandshakeResponse) : Wire :=
  let f := is_flexible SaslHandshake version in
  g_i16 (shr_error_code r) ;;; g_array f (g_str f) (shr_mechanisms r).

Definition s_sasl_authenticate (r : SaslAuthenticateResponse) : Wire :=
  let f := is_flexible SaslAuthenticate version in
  g_i16 (sar_error_code r) ;;; g_nstr f (sar_error_message r) ;;; g_bytes f (sar_auth_bytes r) ;;;
  g_when (since 1) (g_i64 (sar_session_lifetime_ms r)) ;;; g_no_tags f.

Definition s_join_group (r : JoinGroupResponse) : Wire :=
  let f := is_flexible JoinGroup version in
  g_when (since 2) no_throttle ;;; g_i16 (js_error_code r) ;;; g_i32 (js_generation_id r) ;;;
  g_when (since 7) (g_nstr f (js_protocol_type r)) ;;; g_nstr f (js_protocol_name r) ;;;
  g_str f (js_leader r) ;;; g_when (since 9) (g_flag (js_skip_assignment r)) ;;; g_str f (js_member_id r) ;;;
  g_array f (fun m =>
    g_str f (jm_member_id m) ;;; g_when (since 5) (g_nstr f (jm_group_instance_id m)) ;;;
    g_bytes f (jm_metadata m) ;;; g_no_tags f) (js_members r) ;;;
  g_no_tags f.

Definition s_sync_group (r : SyncGroupResponse) : Wire :=
  let f := is_flexible SyncGroup version in
  g_when (since 1) no_throttle ;;; g_i16 (ss_error_code r) ;;;
  g_when (since 5) (g_nstr f (ss_protocol_type r) ;;; g_nstr f (ss_protocol_name r)) ;;;
  g_bytes f (ss_assignment r) ;;; g_no_tags f.

Definition s_heartbeat (error_code : Z) : Wire :=
  g_when (since 1) no_throttle ;;; g_i16 error_code ;;; g_no_tags (is_flexible Heartbeat version).

Definition s_leave_group (r : LeaveGroupResponse) : Wire :=
  let f := is_flexible LeaveGroup version in
  g_when (since 1) no_throttle ;;; g_i16 (lgr_error_code r) ;;;
  g_when (since 3) (g_array f (fun m =>
    g_str f (ml_member_id m) ;;; g_nstr f None ;;; g_i16 (ml_error_code m) ;;; g_no_tags f) (lgr_members r)) ;;;
  g_no_tags f.

Definition s_offset_commit (topics : list OffsetCommitResponseTopic) : Wire :=
  let f := is_flexible OffsetCommit version in
  g_when (since 3) no_throttle ;;;
  g_array f (fun t =>
    g_str f (oct_name t) ;;;
    g_array f (fun p => g_i32 (ocp_partition_index p) ;;; g_i16 (ocp_error_code p) ;;; g_no_tags f)
      (oct_partitions t) ;;;
    g_no_tags f) topics ;;;
  g_no_tags f.

Definition s_offset_fetch (r : OffsetFetchResponse) : Wire :=
  let f := is_flexible OffsetFetch version in
  g_when (since 3) no_throttle ;;;
  g_array f (fun t =>
    g_str f (oftr_name t) ;;;
    g_array f (fun p =>
      g_i32 (ofp_partition_index p) ;;; g_i64 (ofp_committed_offset p) ;;; g_when (since 5) (g_i32 (-1)) ;;;
      g_nstr f None ;;; g_i16 (ofp_error_code p) ;;; g_no_tags f) (oftr_partitions t) ;;;
    g_no_tags f) (ofs_topics r) ;;;
  g_when (since 2) (g_i16 (ofs_error_code r)) ;;; g_no_tags f.

(** One answer until version 3, an array of them since version 4. *)
Definition s_find_coordinator (coordinators : list CoordinatorAddr) : Wire :=
  let f := is_flexible FindCoordinator version in
  let one := default no_coordinator (head coordinators) in
  g_when (since 1) no_throttle ;;;
  (if up_to 3 then
     g_i16 (co_error_code one) ;;; g_when (since 1) (g_nstr f (co_error_message one)) ;;;
     g_i32 (co_node_id one) ;;; g_str f (co_host one) ;;; g_i32 (co_port one)
   else g_array f (fun c =>
     g_str f (co_key c) ;;; g_i32 (co_node_id c) ;;; g_str f (co_host c) ;;; g_i32 (co_port c) ;;;
     g_i16 (co_error_code c) ;;; g_nstr f (co_error_message c) ;;; g_no_tags f) coordinators) ;;;
  g_no_tags f.

Definition s_list_groups (r : ListGroupsResponse) : Wire :=
  let f := is_flexible ListGroups version in
  g_when (since 1) (g_i32 (lgs_throttle_time_ms r)) ;;; g_i16 (lgs_error_code r) ;;;
  g_array f (fun g =>
    g_str f (lgd_group_id g) ;;; g_str f (lgd_protocol_type g) ;;; g_when (since 4) (g_str f (lgd_group_state g)) ;;;
    g_no_tags f) (lgs_groups r) ;;;
  g_no_tags f.

Definition s_describe_groups (r : DescribeGroupsResponse) : Wire :=
  let f := is_flexible DescribeGroups version in
  g_when (since 1) (g_i32 (dgs_throttle_time_ms r)) ;;;
  g_array f (fun g =>
    g_i16 (dgr_error_code g) ;;; g_str f (dgr_group_id g) ;;; g_str f (dgr_group_state g) ;;;
    g_str f (dgr_protocol_type g) ;;; g_str f (dgr_protocol_data g) ;;;
    g_array f (fun m =>
      g_str f (dm_member_id m) ;;; g_when (since 4) (g_nstr f (dm_group_instance_id m)) ;;;
      g_str f (dm_client_id m) ;;; g_str f (dm_client_host m) ;;;
      g_bytes f (dm_member_metadata m) ;;; g_bytes f (dm_member_assignment m) ;;; g_no_tags f) (dgr_members g) ;;;
    g_when (since 3) (g_i32 (dgr_authorized_operations g)) ;;; g_no_tags f) (dgs_groups r) ;;;
  g_no_tags f.

Definition s_create_topics (r : CreateTopicsResponse) : Wire :=
  let f := is_flexible CreateTopics version in
  g_i32 (crs_throttle_time_ms r) ;;;
  g_array f (fun t =>
    g_str f (crt_name t) ;;; g_when (since 7) (g_uuid (crt_topic_id t)) ;;; g_i16 (crt_error_code t) ;;;
    g_nstr f (crt_error_message t) ;;;
    g_when (since 5) (g_i32 (crt_num_partitions t) ;;; g_i16 (crt_replication_factor t) ;;;
      g_array f (g_str f) [] ;;; g_no_tags f)) (crs_topics r) ;;;
  g_no_tags f.

Definition s_delete_topics (r : DeleteTopicsResponse) : Wire :=
  let f := is_flexible DeleteTopics version in
  g_i32 (drs_throttle_time_ms r) ;;;
  g_array f (fun t =>
    if since 6 then
      g_nstr f (drt_name t) ;;; g_uuid (drt_topic_id t) ;;; g_i16 (drt_error_code t) ;;;
      g_nstr f (drt_error_message t) ;;; g_no_tags f
    else
      g_str f (default EmptyString (drt_name t)) ;;; g_i16 (drt_error_code t) ;;;
      g_when (since 5) (g_nstr f (drt_error_message t)) ;;; g_no_tags f) (drs_responses r) ;;;
  g_no_tags f.

(** Kafka's numbers of the types of settings.  The broker's answer has no type of
    its own: the schema takes the one its settings are given. *)
Definition CONFIG_TYPE_SHORT : Z := 4.
Definition CONFIG_TYPE_LONG : Z := 5.

Definition s_describe_configs (config_type : Z) (r : DescribeConfigsResponse) : Wire :=
  let f := is_flexible DescribeConfigs version in
  g_i32 (dcs_throttle_time_ms r) ;;;
  g_array f (fun c =>
    g_i16 (dcr_error_code c) ;;; g_nstr f (dcr_error_message c) ;;; g_i8 (dcr_resource_type c) ;;;
    g_str f (dcr_resource_name c) ;;;
    g_array f (fun e =>
      g_str f (ce_name e) ;;; g_nstr f (ce_value e) ;;; g_flag (ce_read_only e) ;;;
      g_i8 (ce_config_source e) ;;; g_flag (ce_is_sensitive e) ;;; g_array f (g_str f) [] ;;;
      g_when (since 3) (g_i8 config_type ;;; g_nstr f None) ;;; g_no_tags f) (dcr_configs c) ;;;
    g_no_tags f) (dcs_resources r) ;;;
  g_no_tags f.

Definition s_alter_configs (f : bool) (r : AlterConfigsResponse) : Wire :=
  g_i32 (acp_throttle_time_ms r) ;;;
  g_array f (fun c =>
    g_i16 (acs_error_code c) ;;; g_nstr f (acs_error_message c) ;;; g_i8 (acs_resource_type c) ;;;
    g_str f (acs_resource_name c) ;;; g_no_tags f) (acp_resources r) ;;;
  g_no_tags f.

Definition s_entities (f : bool) (l : list QuotaEntity) : Wire :=
  g_array f (fun e => g_str f (qe_entity_type e) ;;; g_nstr f (qe_name e) ;;; g_no_tags f) l.

Definition s_describe_client_quotas (r : DescribeClientQuotasResponse) : Wire :=
  let f := is_flexible DescribeClientQuotas version in
  g_i32 (qr_throttle_time_ms r) ;;; g_i16 (qr_error_code r) ;;; g_nstr f (qr_error_message r) ;;;
  g_array f (fun e =>
    s_entities f (qd_entity e) ;;;
    g_array f (fun x => g_str f (qv_key x) ;;; g_f64 (qv_value x) ;;; g_no_tags f) (qd_values e) ;;;
    g_no_tags f) (qr_entries r) ;;;
  g_no_tags f.

Definition s_alter_client_quotas (r : AlterClientQuotasResponse) : Wire :=
  let f := is_flexible AlterClientQuotas version in
  g_i32 (as_throttle_time_ms r) ;;;
  g_array f (fun e =>
    g_i16 (ar_error_code e) ;;; g_nstr f (ar_error_message e) ;;; s_entities f (ar_entity e) ;;;
    g_no_tags f) (as_entries r) ;;;
  g_no_tags f.
End versions.

(** ** Any response *)

Inductive KafkaResponse : Type :=
| RsProduce (r : list ProduceResponseTopic)
| RsFetch (r : list FetchResponseTopic)
| RsListOffsets (r : list ListOffsetsResponseTopic)
| RsMetadataApi (r : MetadataResponse)
| RsCreateTopics (r : CreateTopicsResponse)
| RsDeleteTopics (r : DeleteTopicsResponse)
| RsDescribeConfigs (r : DescribeConfigsResponse)
| RsAlterConfigs (r : AlterConfigsResponse)
| RsIncrementalAlterConfigs (r : AlterConfigsResponse)
| RsOffsetCommit (r : list OffsetCommitResponseTopic)
| RsOffsetFetch (r : OffsetFetchResponse)
| RsFindCoordinator (r : list CoordinatorAddr)
| RsJoinGroup (r : JoinGroupResponse)
| RsHeartbeat (r : Z)
| RsLeaveGroup (r : LeaveGroupResponse)
| RsSyncGroup (r : SyncGroupResponse)
| RsDescribeGroups (r : DescribeGroupsResponse)
| RsListGroups (r : ListGroupsResponse)
| RsSaslHandshake (r : SaslHandshakeResponse)
| RsApiVersions (r : Z)
| RsInitProducerId (r : InitProducerIdResponse)
| RsSaslAuthenticate (r : SaslAuthenticateResponse)
| RsDescribeClientQuotas (r : DescribeClientQuotasResponse)
| RsAlterClientQuotas (r : AlterClientQuotasResponse).

Definition response_key (response : KafkaResponse) : ApiKey :=
  match response with
  | RsProduce _ => Produce
  | RsFetch _ => Fetch
  | RsListOffsets _ => ListOffsets
  | RsMetadataApi _ => MetadataApi
  | RsCreateTopics _ => CreateTopics
  | RsDeleteTopics _ => DeleteTopics
  | RsDescribeConfigs _ => DescribeConfigs
  | RsAlterConfigs _ => AlterConfigs
  | RsIncrementalAlterConfigs _ => IncrementalAlterConfigs
  | RsOffsetCommit _ => OffsetCommit
  | RsOffsetFetch _ => OffsetFetch
  | RsFindCoordinator _ => FindCoordinator
  | RsJoinGroup _ => JoinGroup
  | RsHeartbeat _ => Heartbeat
  | RsLeaveGroup _ => LeaveGroup
  | RsSyncGroup _ => SyncGroup
  | RsDescribeGroups _ => DescribeGroups
  | RsListGroups _ => ListGroups
  | RsSaslHandshake _ => SaslHandshake
  | RsApiVersions _ => ApiVersions
  | RsInitProducerId _ => InitProducerId
  | RsSaslAuthenticate _ => SaslAuthenticate
  | RsDescribeClientQuotas _ => DescribeClientQuotas
  | RsAlterClientQuotas _ => AlterClientQuotas
  end.

(** The encoder each handler applies to its answer. *)
Definition encode_response (version : Z) (response : KafkaResponse) : Put :=
  match response with
  | RsProduce r => produce_encode_response version r
  | RsFetch r => fetch_encode_response version r
  | RsListOffsets r => list_offsets_encode_response version r
  | RsMetadataApi r => metadata_encode_response version r
  | RsCreateTopics r => create_topics_encode_response version r
  | RsDeleteTopics r => delete_topics_encode_response version r
  | RsDescribeConfigs r => describe_configs_encode_response version r
  | RsAlterConfigs r => alter_configs_encode_response version r
  | RsIncrementalAlterConfigs r => incremental_alter_configs_encode_response version r
  | RsOffsetCommit r => offset_commit_encode_response version r
  | RsOffsetFetch r => offset_fetch_encode_response version r
  | RsFindCoordinator r => find_coordinator_encode_response version r
  | RsJoinGroup r => join_group_encode_response version r
  | RsHeartbeat r => heartbeat_encode_response version r
  | RsLeaveGroup r => leave_group_encode_response version r
  | RsSyncGroup r => sync_group_encode_response version r
  | RsDescribeGroups r => describe_groups_encode_response version r
  | RsListGroups r => list_groups_encode_response version r
  | RsSaslHandshake r => sasl_handshake_encode_response r
  | RsApiVersions r => api_versions_encode_response version r
  | RsInitProducerId r => init_producer_id_encode_response version r
  | RsSaslAuthenticate r => sasl_authenticate_encode_response version r
  | RsDescribeClientQuotas r => encode_describe_response version r
  | RsAlterClientQuotas r => encode_alter_response version r
  end.

(** The body that carries a response.  Every setting the broker describes is given
    the type SHORT, the retention of a topic, which is a LONG, too. *)
Definition response_wire (version : Z) (response : KafkaResponse) : Wire :=
  match response with
  | RsProduce r => s_produce version r
  | RsFetch r => s_fetch version r
  | RsListOffsets r => s_list_offsets version r
  | RsMetadataApi r => s_metadata version r
  | RsCreateTopics r => s_create_topics version r
  | RsDeleteTopics r => s_delete_topics version r
  | RsDescribeConfigs r => s_describe_configs version CONFIG_TYPE_SHORT r
  | RsAlterConfigs r => s_alter_configs (is_flexible AlterConfigs version) r
  | RsIncrementalAlterConfigs r => s_alter_configs (is_flexible IncrementalAlterConfigs version) r
  | RsOffsetCommit r => s_offset_commit version r
  | RsOffsetFetch r => s_offset_fetch version r
  | RsFindCoordinator r => s_find_coordinator version r
  | RsJoinGroup r => s_join_group version r
  | RsHeartbeat r => s_heartbeat version r
  | RsLeaveGroup r => s_leave_group version r
  | RsSyncGroup r => s_sync_group version r
  | RsDescribeGroups r => s_describe_groups version r
  | RsListGroups r => s_list_groups version r
  | RsSaslHandshake r => s_sasl_handshake version r
  | RsApiVersions r => s_api_versions version r ADVERTISED
  | RsInitProducerId r => s_init_producer_id version r
  | RsSaslAuthenticate r => s_sasl_authenticate version r
  | RsDescribeClientQuotas r => s_describe_client_quotas version r
  | RsAlterClientQuotas r => s_alter_client_quotas version r
  end.

(** The header before it: the correlation id, and in flexible versions an empty
    set of tagged fields, except for ApiVersions, whose header never changes. *)
Definition response_header_wire (key : ApiKey) (version correlation_id : Z) : Wire :=
  g_i32 correlation_id ;;;
  g_no_tags (is_flexible key version && negb (bool_decide (key = ApiVersions))).
