(* ===== verification/MsgProps.v ===== *)
(** * MsgProps: the message codecs follow the schemas *)

From stdpp Require Import base tactics list numbers strings.
From Stdlib Require Import ZArith Lia.
From S2P Require Import Prelude Bytes Wire WireProps Api Msg MsgData MsgGroup MsgAdmin Grammar MsgSpec.
From S2P Require Import MsgRespSpec.

Open Scope Z_scope.

(** ** One decoder per key *)

Section requests.
Context (v : Z).

Lemma parses_produce r : parses (produce_decode_request v) (w_produce v r) r.
Proof. unfold w_produce. parse. Qed.

Lemma parses_fetch r : parses (fetch_decode_request v) (w_fetch v r) r.
Proof. unfold w_fetch. parse. Qed.

Lemma parses_list_offsets r : parses (list_offsets_decode_request v) (w_list_offsets v r) r.
Proof. unfold w_list_offsets. parse. Qed.

Lemma parses_metadata r : parses (metadata_decode_request v) (w_metadata v r) r.
Proof. unfold w_metadata. parse. Qed.

Lemma parses_init_producer_id r : parses (init_producer_id_decode_request v) (w_init_producer_id v r) r.
Proof. unfold w_init_producer_id. parse. Qed.

Lemma parses_sasl_authenticate r : parses (sasl_authenticate_decode_request v) (w_sasl_authenticate v r) r.
Proof. unfold w_sasl_authenticate. parse. Qed.

Lemma parses_join_group r : parses (join_group_decode_request v) (w_join_group v 0 r) r.
Proof. unfold w_join_group. parse. Qed.

Lemma parses_sync_group r : parses (sync_group_decode_request v) (w_sync_group v r) r.
Proof. unfold w_sync_group. parse. Qed.

Lemma parses_heartbeat r : parses (heartbeat_decode_request v) (w_heartbeat v r) r.
Proof. unfold w_heartbeat. parse. Qed.

Lemma parses_leave_group r : parses (leave_group_decode_request v) (w_leave_group v r) r.
Proof. unfold w_leave_group. parse. Qed.

Lemma parses_offset_commit r : parses (offset_commit_decode_request v) (w_offset_commit v r) r.
Proof. unfold w_offset_commit. parse. Qed.

Lemma parses_offset_fetch r : parses (offset_fetch_decode_request v) (w_offset_fetch v r) r.
Proof. unfold w_offset_fetch. parse. Qed.

Lemma parses_find_coordinator r : parses (find_coordinator_decode_request v) (w_find_coordinator v r) r.
Proof.
  destruct r as [keys kt]. unfold w_find_coordinator, find_coordinator_decode_request, since, up_to. simpl.
  destruct (Z.leb_spec v 3) as [Hv|Hv]; [rewrite (proj2 (Z.leb_gt 4 v)) by lia|rewrite (proj2 (Z.leb_le 4 v)) by lia].
  - intros b (b1 & b2 & -> & (k & -> & Hk) & Hb). revert Hb Hk. generalize b1 b2. clear b1 b2. intros b1 b2 Hb Hk.
    eapply (parses_bind _ _ (g_str _ k)); [eapply parses_last; [apply parses_str|done]| |by exists b1, b2].
    parse.
  - parse.
Qed.

Lemma parses_list_groups r : parses_end (list_groups_decode_request v) (w_list_groups v r) r.
Proof.
  unfold w_list_groups, list_groups_decode_request, since. change (is_flexible ListGroups v) with (3 <=? v).
  destruct (Z.leb_spec 4 v) as [Hv|Hv]; [rewrite (proj2 (Z.leb_le 3 v)) by lia|]; parse_end.
Qed.

Lemma parses_describe_groups r : parses_end (describe_groups_decode_request v) (w_describe_groups v r) r.
Proof. unfold w_describe_groups. parse_end. Qed.

Lemma parses_create_topics r : parses_end (create_topics_decode_request v) (w_create_topics v r) r.
Proof. unfold w_create_topics. parse_end. Qed.

Lemma parses_delete_topics r : parses_end (delete_topics_decode_request v) (w_delete_topics v r) r.
Proof.
  unfold w_delete_topics, delete_topics_decode_request. change (is_flexible DeleteTopics v) with (4 <=? v).
  unfold since. destruct (Z.leb_spec 6 v) as [Hv|Hv]; [rewrite (proj2 (Z.leb_le 4 v)) by lia|]; parse_end.
Qed.

Lemma parses_describe_configs r : 1 <= v -> parses_end (describe_configs_decode_request v) (w_describe_configs v r) r.
Proof.
  intros Hv. unfold w_describe_configs, describe_configs_decode_request. rewrite (proj2 (Z.leb_le 1 v)) by done. parse_end.
Qed.

Lemma parses_alter_configs r : 1 <= v -> parses_end (alter_configs_decode_request v) (w_alter_configs v r) r.
Proof.
  intros Hv. unfold w_alter_configs, alter_configs_decode_request. rewrite (proj2 (Z.leb_le 1 v)) by done. parse_end.
Qed.

Lemma parses_operation op : parses read_operation (g_i8 (operation_code op)) op.
Proof.
  intros b Hb. rewrite <-(app_nil_r b). eapply reads_bind; [by apply parses_i8|]. destruct op; apply reads_ret.
Qed.
#[local] Hint Resolve parses_operation : parse.

Lemma parses_incremental_alter_configs r :
  parses_end (incremental_alter_configs_decode_request v) (w_incremental_alter_configs v r) r.
Proof. unfold w_incremental_alter_configs. parse_end. Qed.

Lemma parses_sasl_handshake r : parses sasl_handshake_decode_request (w_sasl_handshake v r) r.
Proof. unfold w_sasl_handshake. parse. Qed.

Lemma parses_describe_client_quotas r : parses_end (decode_describe_request v) (w_describe_client_quotas v r) r.
Proof. unfold w_describe_client_quotas. parse_end. Qed.

Lemma parses_alter_client_quotas r : parses_end (decode_alter_request v) (w_alter_client_quotas v r) r.
Proof. unfold w_alter_client_quotas. parse_end. Qed.
End requests.

Create HintDb decodes discriminated.
#[local] Hint Resolve parses_produce parses_fetch parses_list_offsets parses_metadata
  parses_init_producer_id parses_sasl_handshake parses_sasl_authenticate parses_join_group parses_sync_group
  parses_heartbeat parses_leave_group parses_offset_commit parses_offset_fetch parses_find_coordinator
  parses_list_groups parses_describe_groups parses_create_topics parses_delete_topics parses_describe_configs
  parses_alter_configs parses_incremental_alter_configs parses_describe_client_quotas
  parses_alter_client_quotas : decodes.
#[local] Hint Resolve decode_parses decode_parses_end decode_parses_prefix : decodes.

Lemma describe_configs_from_1 v : supports DescribeConfigs v = true -> 1 <= v.
Proof. change (supports DescribeConfigs v) with ((1 <=? v) && (v <=? 4)). lia. Qed.

Lemma alter_configs_from_1 v : supports AlterConfigs v = true -> (AlterConfigs, v) <> (AlterConfigs, 0) -> 1 <= v.
Proof.
  change (supports AlterConfigs v) with ((0 <=? v) && (v <=? 2)). intros Hs Hne. assert (v <> 0) by congruence. lia.
Qed.
#[local] Hint Resolve describe_configs_from_1 alter_configs_from_1 : decodes.


(** ** The header *)

Lemma parses_prelude key version correlation_id :
  parses prelude (g_i16 key ;;; g_i16 version ;;; g_i32 correlation_id)
    (mkRequestPrelude key version correlation_id).
Proof. unfold prelude. parse. Qed.

Lemma parses_header_fields (flexible : bool) key version correlation_id client :
  parses (header_fields ((if flexible then 1 else 0) + 1))
    (g_i16 key ;;; g_i16 version ;;; g_i32 correlation_id ;;; g_nstr false client ;;; g_tags flexible) client.
Proof.
  unfold header_fields. do 3 (eapply parses_bind; [parse|]). eapply parses_bind.
  - rewrite (proj2 (Z.leb_le 1 _)) by (destruct flexible; lia). apply (parses_nstr false).
  - destruct flexible; cbn [Z.add Z.leb Z.compare Pos.compare Pos.compare_cont Pos.add].
    + intros b (fs & Hw & Hl & ->). rewrite <-(app_nil_r (tags_enc fs)).
      eapply reads_bind; [by apply reads_tagged_fields|apply reads_ret].
    + intros b ->. apply (reads_bind (rd_ret (mkTaggedFields [])) _ [] [] (mkTaggedFields []) client); apply reads_ret.
Qed.

Lemma seq_assoc_3 P Q R X b : (P ;;; Q ;;; R ;;; X) b -> ((P ;;; Q ;;; R) ;;; X) b.
Proof.
  intros (b1 & b2 & -> & H1 & b3 & b4 & -> & H3 & b5 & b6 & -> & H5 & H6).
  exists (b1 ++ b3 ++ b5), b6. split; [by rewrite <-!app_assoc|]. split; [|done].
  exists b1, (b3 ++ b5). split; [done|]. split; [done|]. by exists b3, b5.
Qed.

Lemma header_decodes key version correlation_id client header body :
  request_header_wire key version correlation_id client header ->
  decode_request_header (header ++ body) =
    Ok (mkRequestHeader (as_i16 key) version correlation_id client, length header).
Proof.
  intros Hh. unfold decode_request_header, read_request_prelude.
  assert (decode_body prelude (header ++ body) = Ok (mkRequestPrelude (as_i16 key) version correlation_id)) as ->.
  { apply seq_assoc_3 in Hh as (b1 & b2 & -> & Hp & _). unfold decode_body. rewrite <-app_assoc.
    pose proof (parses_prelude _ _ _ b1 Hp [] (b2 ++ body)) as Hr. cbn [app length] in Hr. by rewrite Hr. }
  cbn [framed res_bind rp_api_key rp_api_version rp_correlation_id]. rewrite from_as_i16.
  unfold request_header_version.
  pose proof (parses_header_fields _ _ _ _ _ header Hh [] body) as Hr. cbn [app length] in Hr. by rewrite Hr.
Qed.

(** ** Untrusted bodies *)

Lemma in_frame_i8 : in_frame read_i8.
Proof. unfold read_i8. frame. Qed.
Lemma in_frame_i16 : in_frame read_i16.
Proof. unfold read_i16. frame. Qed.
Lemma in_frame_i32 : in_frame read_i32.
Proof. unfold read_i32. frame. Qed.
Lemma in_frame_i64 : in_frame read_i64.
Proof. unfold read_i64. frame. Qed.
Lemma in_frame_f64 : in_frame read_f64.
Proof. unfold read_f64. frame. Qed.
#[local] Hint Resolve in_frame_i8 in_frame_i16 in_frame_i32 in_frame_i64 in_frame_f64 : frame.
Lemma in_frame_bool : in_frame read_bool.
Proof. unfold read_bool. frame. Qed.
Lemma in_frame_topic_id : in_frame read_topic_id.
Proof. apply in_frame_take. Qed.
Lemma in_frame_tags flexible : in_frame (skip_tags flexible).
Proof. unfold skip_tags. frame. Qed.
Lemma in_frame_count flexible : in_frame (read_count flexible).
Proof. unfold read_count. frame. Qed.
Lemma in_frame_required flexible : in_frame (required_count flexible).
Proof. unfold required_count, not_null. frame. Qed.
Lemma in_frame_finish {A} (a : A) : in_frame (finish a).
Proof. unfold finish. frame. Qed.
Lemma in_frame_operation : in_frame read_operation.
Proof. unfold read_operation, ConfigOperation_from_i8. frame. Qed.
#[local] Hint Resolve in_frame_bool in_frame_topic_id in_frame_tags in_frame_count in_frame_required
  in_frame_finish in_frame_operation : frame.

Lemma in_frame_nullable_bytes flexible : in_frame (read_nullable_bytes flexible).
Proof.
  unfold read_nullable_bytes, read_compact_nullable_bytes. destruct flexible; [frame|].
  intros buf at_ Hat. unfold read_nullable_length_prefixed. pose proof (in_frame_i32 buf at_ Hat) as H4.
  destruct (read_i32 buf at_) as [[n p]|e|]; cbn [res_bind]; [|done..]. destruct (n =? -1); [done|].
  assert (in_frame (rd! b := read_length_prefixed u32_max in rd_ret (Some b))) as Hf
    by (unfold read_length_prefixed; frame). by apply Hf.
Qed.
#[local] Hint Resolve in_frame_nullable_bytes : frame.

Lemma in_frame_items {A} count (item : WireReader A) :
  in_frame count -> in_frame item -> in_frame (read_items count item).
Proof. intros Hc Hi. unfold read_items. frame. Qed.

Lemma in_frame_optional_items {A} flexible (item : WireReader A) :
  in_frame item -> in_frame (read_optional_items flexible item).
Proof. intros Hi. unfold read_optional_items. frame. Qed.

Lemma in_frame_read_if {A} c (m : WireReader A) absent : in_frame m -> in_frame (read_if c m absent).
Proof. intros Hm. unfold read_if. frame. Qed.

Lemma in_frame_skip_if {A} c (m : WireReader A) : in_frame m -> in_frame (skip_if c m).
Proof. intros Hm. unfold skip_if. frame. Qed.

Ltac frames := repeat first [progress frame | apply in_frame_items | apply in_frame_optional_items
  | apply in_frame_read_if | apply in_frame_skip_if ].

Lemma decode_no_panic {A B} (m : WireReader A) (f : A -> B) body :
  in_frame m -> (let? r := decode_body m body in Ok (f r)) <> Panic.
Proof.
  intros Hm. unfold decode_body. specialize (Hm body 0%nat ltac:(lia)). by destruct (m body 0%nat) as [[? ?]| |].
Qed.

(** ** Claims *)

(** C25. A request frame is decoded to what it says: at every version the broker
    advertises, whatever header and body the published schemas give to a
    request, with any values in the fields the broker does not keep and any
    tagged fields, the header decoder finds the header and where the body
    starts, and the decoder of its key finds the request there, the fields
    that version does not have at their defaults, the rebalance timeout of
    JoinGroup at 0 instead of Kafka's -1.  AlterConfigs is left out at version
    0. *)
Theorem requests_decode version correlation_id client request header body :
  supports (request_key request) version = true -> (request_key request, version) <> (AlterConfigs, 0) ->
  request_header_wire (request_key request) version correlation_id client header ->
  request_wire version request body ->
  exists at_, decode_request_header (header ++ body) =
      Ok (mkRequestHeader (as_i16 (request_key request)) version correlation_id client, at_) /\
    decode_request (request_key request) version (drop at_ (header ++ body)) = Ok request.
Proof.
  intros Hs Hne Hh Hw. exists (length header). split; [by apply header_decodes|]. rewrite drop_app_length.
  destruct request; cbn [request_key decode_request request_wire] in *; try done;
    match goal with |- res_bind (decode_body ?m ?b) _ = Ok (_ ?r) =>
      assert (decode_body m b = Ok r) as -> by eauto 4 with decodes; done end.
Qed.

(** AlterConfigs at version 0 is advertised and never served: its schema
    has a validate_only byte at every version, the decoder reads one only from
    version 1 on, and so refuses every version-0 body for the byte it leaves. *)
Theorem alter_configs_v0_refused request body :
  supports AlterConfigs 0 = true /\
  (w_alter_configs 0 request body ->
   exists at_, decode_request AlterConfigs 0 body = Err (LengthOutOfBounds 1 0 at_)).
Proof.
  split; [done|]. intros (b1 & b2 & -> & H1 & b3 & b4 & -> & H3 & ->). destruct H3 as (z & [_ ->] & _).
  match type of H1 with ?G b1 =>
    assert (parses (read_items (required_count false) (read_alter_resource false)) G (acq_resources request)) as Hp
      by parse end.
  specialize (Hp b1 H1 [] (be_signed 1 z ++ [])). cbn [app length] in Hp.
  unfold decode_request, decode_body, alter_configs_decode_request, rd_bind at 1. cbn [Z.leb Z.compare].
  rewrite Hp. unfold read_if, skip_tags, rd_bind, rd_ret. cbn [res_bind].
  rewrite finish_refuses by (unfold be_signed; rewrite !length_app, be_bytes_length; simpl; lia).
  replace (_ - _)%nat with 1%nat by (unfold be_signed; rewrite !length_app, be_bytes_length; simpl; lia). by eexists.
Qed.

(** No body can make a decoder panic or read past it: whatever the bytes,
    the key and the version, decoding answers with a request or a decode error. *)
Theorem requests_never_panic key version body : decode_request key version body <> Panic.
Proof.
  destruct key; cbn [decode_request]; try done; apply decode_no_panic;
    unfold produce_decode_request, fetch_decode_request, list_offsets_decode_request, metadata_decode_request, init_producer_id_decode_request, sasl_authenticate_decode_request, join_group_decode_request, sync_group_decode_request, heartbeat_decode_request, leave_group_decode_request, offset_commit_decode_request, offset_fetch_decode_request, find_coordinator_decode_request, list_groups_decode_request, describe_groups_decode_request, create_topics_decode_request, delete_topics_decode_request, describe_configs_decode_request, alter_configs_decode_request, incremental_alter_configs_decode_request, sasl_handshake_decode_request, decode_describe_request, decode_alter_request,
      read_produce_topic, read_produce_partition, read_fetch_topic, read_fetch_partition, skip_forgotten_topics,
      read_list_offsets_partition, decode_topic, decode_assignments, decode_configs, decode_resource,
      read_alter_resource, decode_entities; frames.
Qed.

(** ** Their witnesses *)

Definition demo_join : JoinGroupRequest :=
  mkJoinGroupRequest "g" 10000 30000 "m-1" (Some "i") "consumer" [mkJoinGroupRequestProtocol "range" [1; 2]] None.

(** A version-9 JoinGroup of client "c". *)
Definition demo_join_header : bytes := [0; 11; 0; 9; 0; 0; 0; 7; 0; 1; 99; 0].
Definition demo_join_body : bytes :=
  [2; 103; 0; 0; 39; 16; 0; 0; 117; 48; 4; 109; 45; 49; 2; 105; 9; 99; 111; 110; 115; 117; 109; 101; 114;
   2; 6; 114; 97; 110; 103; 101; 3; 1; 2; 0; 0; 0].

Lemma requests_decode_witness :
  exists at_, decode_request_header (demo_join_header ++ demo_join_body) =
      Ok (mkRequestHeader 11 9 7 (Some "c"), at_) /\
    decode_request JoinGroup 9 (drop at_ (demo_join_header ++ demo_join_body)) = Ok (RqJoinGroup demo_join).
Proof.
  apply (requests_decode 9 7 (Some "c") (RqJoinGroup demo_join) demo_join_header demo_join_body);
    [done|done| |].
  - cbn [request_key]. unfold request_header_wire. on_wire.
  - cbn [request_wire]. unfold w_join_group. on_wire.
Defined.

Definition demo_alter : AlterConfigsRequest :=
  mkAlterConfigsRequest [mkAlterConfigsResource 2 "t" [mkAlterConfig "retention.ms" (Some "1")]] false.
Definition demo_alter_body : bytes :=
  [0; 0; 0; 1; 2; 0; 1; 116; 0; 0; 0; 1; 0; 12; 114; 101; 116; 101; 110; 116; 105; 111; 110; 46; 109; 115;
   0; 1; 49; 0].

Lemma alter_configs_v0_refused_witness :
  exists at_, decode_request AlterConfigs 0 demo_alter_body = Err (LengthOutOfBounds 1 0 at_).
Proof.
  apply (alter_configs_v0_refused demo_alter demo_alter_body). unfold w_alter_configs. on_wire.
Defined.

(** * The response encoders follow the schemas *)

Section responses.
Context (v : Z).

Lemma emits_identity f identity : emits_wire (e_identity f identity) (g_identity v f identity).
Proof. intros b out. destruct identity; intros [_ Hb]; [by apply emits_wire_str|by apply emits_wire_uuid]. Qed.
#[local] Hint Resolve emits_identity : parse.

Lemma emits_produce r : emits_wire (produce_encode_response v r) (s_produce v r).
Proof. unfold s_produce, produce_encode_response. emit. Qed.

Lemma emits_fetch r : emits_wire (fetch_encode_response v r) (s_fetch v r).
Proof. unfold s_fetch, fetch_encode_response. emit. Qed.

Lemma emits_list_offsets r : emits_wire (list_offsets_encode_response v r) (s_list_offsets v r).
Proof. unfold s_list_offsets, list_offsets_encode_response. emit. Qed.

(** [i32::try_from(index)] of an index that fits. *)
Lemma emits_index n : emits_wire (e_i32 (clamp i32_max n)) (g_i32 (Z.of_nat n)).
Proof.
  intros b out [Hn ->]. unfold e_i32, put_i32, clamp. rewrite Z.min_l; [done|].
  unfold fits_signed in Hn. change (256 ^ Z.of_nat 4 / 2) with 2147483648 in Hn. unfold i32_max. lia.
Qed.
#[local] Hint Resolve emits_index : parse.

Lemma emits_metadata r : emits_wire (metadata_encode_response v r) (s_metadata v r).
Proof.
  unfold s_metadata, metadata_encode_response, put_int32_array. apply emits_wire_seq; [emit|].
  refine (emits_wire_seq (e_array (9 <=? v) (fun host => e_i32 (mrs_node_id r) >+ e_nstr (9 <=? v) (Some host) >+
    e_i32 (mrs_port r) >+ put_when (1 <=? v) (e_nstr (9 <=? v) None) >+ put_when (9 <=? v) e_tags)
    [mrs_host r]) _ _ _ _ _).
  - emit.
  - emit.
Qed.

Lemma emits_init_producer_id r : emits_wire (init_producer_id_encode_response v r) (s_init_producer_id v r).
Proof. unfold s_init_producer_id, init_producer_id_encode_response. emit. Qed.

Lemma emits_sasl_authenticate r : emits_wire (sasl_authenticate_encode_response v r) (s_sasl_authenticate v r).
Proof. unfold s_sasl_authenticate, sasl_authenticate_encode_response. emit. Qed.

Lemma emits_join_group r : emits_wire (join_group_encode_response v r) (s_join_group v r).
Proof. unfold s_join_group, join_group_encode_response. emit. Qed.

Lemma emits_sync_group r : emits_wire (sync_group_encode_response v r) (s_sync_group v r).
Proof. unfold s_sync_group, sync_group_encode_response. emit. Qed.

Lemma emits_heartbeat r : emits_wire (heartbeat_encode_response v r) (s_heartbeat v r).
Proof. unfold s_heartbeat, heartbeat_encode_response. emit. Qed.

Lemma emits_leave_group r : emits_wire (leave_group_encode_response v r) (s_leave_group v r).
Proof. unfold s_leave_group, leave_group_encode_response. emit. Qed.

Lemma emits_offset_commit r : emits_wire (offset_commit_encode_response v r) (s_offset_commit v r).
Proof. unfold s_offset_commit, offset_commit_encode_response. emit. Qed.

Lemma emits_offset_fetch r : emits_wire (offset_fetch_encode_response v r) (s_offset_fetch v r).
Proof. unfold s_offset_fetch, offset_fetch_encode_response. emit. Qed.

Lemma emits_tags : emits_wire e_tags (g_no_tags true).
Proof. apply (emits_wire_tags true). Qed.

Lemma emits_find_coordinator r : emits_wire (find_coordinator_encode_response v r) (s_find_coordinator v r).
Proof.
  unfold s_find_coordinator, find_coordinator_encode_response. emit.
  change (is_flexible FindCoordinator v) with (3 <=? v). unfold up_to in *.
  rewrite (proj2 (Z.leb_le 3 v)) by lia. apply emits_tags.
Qed.

Lemma emits_list_groups r : emits_wire (list_groups_encode_response v r) (s_list_groups v r).
Proof.
  unfold s_list_groups, list_groups_encode_response. emit.
  change (is_flexible ListGroups v) with (3 <=? v). unfold since in *.
  rewrite (proj2 (Z.leb_le 3 v)) by lia. apply emits_wire_str.
Qed.

Lemma emits_describe_groups r : emits_wire (describe_groups_encode_response v r) (s_describe_groups v r).
Proof. unfold s_describe_groups, describe_groups_encode_response. emit. Qed.

Lemma emits_create_topics r : emits_wire (create_topics_encode_response v r) (s_create_topics v r).
Proof.
  unfold s_create_topics, create_topics_encode_response. change (is_flexible CreateTopics v) with (5 <=? v).
  unfold since. destruct (5 <=? v); emit. apply emits_tags.
Qed.

Lemma emits_delete_topics r : 1 <= v -> emits_wire (delete_topics_encode_response v r) (s_delete_topics v r).
Proof.
  intros Hv. unfold s_delete_topics, delete_topics_encode_response. rewrite (proj2 (Z.leb_le 1 v)) by done.
  change (is_flexible DeleteTopics v) with (4 <=? v). unfold since, put_when at 1.
  destruct (Z.leb_spec 6 v) as [H6|H6].
  - rewrite (proj2 (Z.leb_le 4 v)) by lia. emit. apply emits_tags.
  - destruct (Z.leb_spec 5 v) as [H5|H5]; [rewrite (proj2 (Z.leb_le 4 v)) by lia|]; emit.
Qed.

Lemma emits_describe_configs r :
  1 <= v -> emits_wire (describe_configs_encode_response v r) (s_describe_configs v CONFIG_TYPE_SHORT r).
Proof.
  intros Hv. unfold s_describe_configs, CONFIG_TYPE_SHORT, describe_configs_encode_response.
  rewrite (proj2 (Z.eqb_neq v 0)) by lia. emit.
Qed.

(** [put_array_len] written out, before the rows. *)
Lemma api_versions_array advertised (row : Advertised -> Put) (rest : Put) :
  (if 3 <=? v then fun out => put_compact_array_len out (Some (length advertised))
   else e_i32 (clamp i32_max (length advertised))) >+ put_each row advertised >+ rest =
  e_array (3 <=? v) row advertised >+ rest.
Proof. by destruct (3 <=? v). Qed.

Lemma emits_api_versions error_code advertised :
  emits_wire (api_versions_encode_response_for v error_code advertised) (s_api_versions v error_code advertised).
Proof.
  unfold s_api_versions, api_versions_encode_response_for. rewrite api_versions_array. emit.
Qed.

Lemma emits_sasl_handshake r : emits_wire (sasl_handshake_encode_response r) (s_sasl_handshake v r).
Proof. unfold s_sasl_handshake, sasl_handshake_encode_response. emit. Qed.

Lemma emits_alter_configs f r : emits_wire (alter_configs_body f r) (s_alter_configs f r).
Proof. unfold s_alter_configs, alter_configs_body. emit. Qed.

Lemma emits_entities f l : emits_wire (encode_entities f l) (s_entities f l).
Proof. unfold s_entities, encode_entities. emit. Qed.
#[local] Hint Resolve emits_entities : parse.

Lemma emits_describe_client_quotas r : emits_wire (encode_describe_response v r) (s_describe_client_quotas v r).
Proof. unfold s_describe_client_quotas, encode_describe_response. emit. Qed.

Lemma emits_alter_client_quotas r : emits_wire (encode_alter_response v r) (s_alter_client_quotas v r).
Proof. unfold s_alter_client_quotas, encode_alter_response. emit. Qed.

End responses.

(** ** Any response *)

#[local] Hint Resolve emits_produce emits_fetch emits_list_offsets emits_metadata emits_create_topics
  emits_delete_topics emits_describe_configs emits_alter_configs emits_offset_commit emits_offset_fetch
  emits_find_coordinator emits_join_group emits_heartbeat emits_leave_group emits_sync_group
  emits_describe_groups emits_list_groups emits_sasl_handshake emits_api_versions emits_init_producer_id
  emits_sasl_authenticate emits_describe_client_quotas emits_alter_client_quotas : parse.

Lemma delete_topics_from_1 v : supports DeleteTopics v = true -> 1 <= v.
Proof. change (supports DeleteTopics v) with ((1 <=? v) && (v <=? 6)). lia. Qed.

Lemma emits_response version response :
  supports (response_key response) version = true ->
  emits_wire (encode_response version response) (response_wire version response).
Proof.
  intros Hs. destruct response; cbn [response_key encode_response response_wire] in *; auto 1 with parse.
  - apply emits_delete_topics. by apply delete_topics_from_1.
  - apply emits_describe_configs. by apply describe_configs_from_1.
  - apply emits_alter_configs.
  - apply emits_alter_configs.
  - apply emits_api_versions.
Qed.

Lemma emits_response_header key version correlation_id :
  emits_wire (fun out => encode_response_header out key version correlation_id)
    (response_header_wire key version correlation_id).
Proof.
  intros b out (b1 & b2 & -> & H1 & H2). unfold encode_response_header.
  change (put_i32 out correlation_id) with (e_i32 correlation_id out). rewrite (emits_wire_i32 _ _ _ H1).
  assert ((1 <=? response_header_version key version) =
    is_flexible key version && negb (bool_decide (key = ApiVersions))) as ->.
  { unfold response_header_version. case_bool_decide; [by destruct (is_flexible key version)|].
    by destruct (is_flexible key version). }
  rewrite app_assoc. destruct (_ && _); [|by rewrite H2, app_nil_r].
  apply (emits_wire_tags true b2 (out ++ b1) H2).
Qed.

(** ** Claims *)

(** C26. A response frame says what the response does: at every version the
    broker advertises, a response whose fields fit their wire types is written
    as its published schema has it, behind the header of that key and version
    and the length of both, and nothing else is written.  DescribeConfigs gives
    every setting Kafka's type SHORT. *)
Theorem responses_encode version correlation_id response header body frame out :
  supports (response_key response) version = true ->
  response_header_wire (response_key response) version correlation_id header ->
  response_wire version response body ->
  g_bytes false (header ++ body) frame ->
  write_frame out (encode_response version response
    (encode_response_header [] (response_key response) version correlation_id)) = Ok (out ++ frame).
Proof.
  intros Hs Hh Hb [Hl ->]. rewrite (emits_response_header _ _ _ header [] Hh).
  rewrite (emits_response _ _ Hs body _ Hb). unfold write_frame. cbn [app].
  unfold len_fits in Hl. rewrite (proj2 (Z.leb_le _ _)) by lia.
  unfold put_i32, g_length, legacy_len_enc. by rewrite <-(app_assoc out).
Qed.

Definition demo_joined : JoinGroupResponse :=
  mkJoinGroupResponse 0 3 (Some "consumer") (Some "range") "m-1" false "m-1"
    [mkJoinGroupResponseMember "m-1" None [1; 2]].

Lemma responses_encode_witness :
  write_frame [] (encode_response 7 (RsJoinGroup demo_joined) (encode_response_header [] JoinGroup 7 9)) =
  Ok [0; 0; 0; 49; 0; 0; 0; 9; 0;
      0; 0; 0; 0; 0; 0; 0; 0; 0; 3; 9; 99; 111; 110; 115; 117; 109; 101; 114; 6; 114; 97; 110; 103; 101;
      4; 109; 45; 49; 4; 109; 45; 49; 2; 4; 109; 45; 49; 0; 3; 1; 2; 0; 0].
Proof.
  eapply (responses_encode 7 9 (RsJoinGroup demo_joined) _ _ _ []); [done| | |].
  - cbn [response_key]. unfold response_header_wire. on_wire.
  - cbn [response_wire]. unfold s_join_group. on_wire.
  - on_wire.
Defined.

(** ** What the decoders return is well typed

    The model keeps a machine integer as a [Z] and a Rust [str] as a string of
    bytes.  This section says what the types of a request's fields promise of them,
    and that whatever the decoders accept keeps the promise: an [i32] field fits
    32 bits, a string is UTF-8, a topic id has sixteen bytes. *)

(** ** The types of the fields *)

Class Typed (A : Type) : Type := typed : A -> Prop.

Notation is_i8 := (fits_signed 1).
Notation is_i16 := (fits_signed 2).
Notation is_i32 := (fits_signed 4).
Notation is_i64 := (fits_signed 8).

Definition is_bytes (b : bytes) : Prop := Forall is_byte b.
Definition is_uuid (b : bytes) : Prop := length b = 16%nat /\ is_bytes b.
Definition is_bits (n : nat) (z : Z) : Prop := 0 <= z < 256 ^ Z.of_nat n.
Definition when_some {A} (P : A -> Prop) (o : option A) : Prop := match o with Some a => P a | None => True end.

#[export] Instance string_typed : Typed string := is_str.
#[export] Instance option_typed {A} `{Typed A} : Typed (option A) := when_some typed.

#[export] Instance ProducePartition_typed : Typed ProducePartition := fun p =>
  is_i32 (pp_index p) /\ when_some is_bytes (pp_records p).
#[export] Instance ProduceTopic_typed : Typed ProduceTopic := fun t =>
  typed (pt_name t) /\ is_uuid (pt_topic_id t) /\ Forall typed (pt_partitions t).
#[export] Instance ProduceRequest_typed : Typed ProduceRequest := fun r =>
  is_i16 (pr_acks r) /\ Forall typed (pr_topics r).

#[export] Instance FetchPartition_typed : Typed FetchPartition := fun p =>
  is_i32 (fp_index p) /\ is_i64 (fp_fetch_offset p) /\ is_i32 (fp_partition_max_bytes p).
#[export] Instance FetchTopic_typed : Typed FetchTopic := fun t =>
  typed (ft_name t) /\ is_uuid (ft_topic_id t) /\ Forall typed (ft_partitions t).
#[export] Instance FetchRequest_typed : Typed FetchRequest := fun r =>
  is_i32 (fr_max_wait_ms r) /\ is_i32 (fr_min_bytes r) /\ is_i32 (fr_max_bytes r) /\ is_i8 (fr_isolation_level r) /\
  Forall typed (fr_topics r).

#[export] Instance ListOffsetsPartition_typed : Typed ListOffsetsPartition := fun p =>
  is_i32 (lp_index p) /\ is_i64 (lp_timestamp p).
#[export] Instance ListOffsetsTopic_typed : Typed ListOffsetsTopic := fun t =>
  typed (lt_name t) /\ Forall typed (lt_partitions t).
#[export] Instance ListOffsetsRequest_typed : Typed ListOffsetsRequest := fun r =>
  is_i8 (lr_isolation_level r) /\ Forall typed (lr_topics r).

#[export] Instance MetadataRequestTopic_typed : Typed MetadataRequestTopic := fun t =>
  is_uuid (mt_topic_id t) /\ typed (mt_name t).
#[export] Instance MetadataRequest_typed : Typed MetadataRequest := fun r => when_some (Forall typed) (mr_topics r).
#[export] Instance InitProducerIdRequest_typed : Typed InitProducerIdRequest := fun r => typed (ip_transactional_id r).
#[export] Instance SaslHandshakeRequest_typed : Typed SaslHandshakeRequest := fun r => typed (sh_mechanism r).
#[export] Instance SaslAuthenticateRequest_typed : Typed SaslAuthenticateRequest := fun r => is_bytes (sa_auth_bytes r).

#[export] Instance JoinGroupRequestProtocol_typed : Typed JoinGroupRequestProtocol := fun p =>
  typed (jp_name p) /\ is_bytes (jp_metadata p).
#[export] Instance JoinGroupRequest_typed : Typed JoinGroupRequest := fun r =>
  typed (jr_group_id r) /\ is_i32 (jr_session_timeout_ms r) /\ is_i32 (jr_rebalance_timeout_ms r) /\
  typed (jr_member_id r) /\ typed (jr_group_instance_id r) /\ typed (jr_protocol_type r) /\
  Forall typed (jr_protocols r) /\ typed (jr_reason r).
#[export] Instance SyncGroupRequestAssignment_typed : Typed SyncGroupRequestAssignment := fun a =>
  typed (sg_member_id a) /\ is_bytes (sg_assignment a).
#[export] Instance SyncGroupRequest_typed : Typed SyncGroupRequest := fun r =>
  typed (sr_group_id r) /\ is_i32 (sr_generation_id r) /\ typed (sr_member_id r) /\ typed (sr_protocol_type r) /\
  typed (sr_protocol_name r) /\ Forall typed (sr_assignments r).
#[export] Instance HeartbeatRequest_typed : Typed HeartbeatRequest := fun r =>
  typed (hb_group_id r) /\ is_i32 (hb_generation_id r) /\ typed (hb_member_id r).
#[export] Instance MemberIdentity_typed : Typed MemberIdentity := fun m => typed (mi_member_id m).
#[export] Instance LeaveGroupRequest_typed : Typed LeaveGroupRequest := fun r =>
  typed (lg_group_id r) /\ Forall typed (lg_members r).
#[export] Instance OffsetCommitRequestPartition_typed : Typed OffsetCommitRequestPartition := fun p =>
  is_i32 (op_partition_index p) /\ is_i64 (op_committed_offset p).
#[export] Instance OffsetCommitRequestTopic_typed : Typed OffsetCommitRequestTopic := fun t =>
  typed (ot_name t) /\ Forall typed (ot_partitions t).
#[export] Instance OffsetCommitRequest_typed : Typed OffsetCommitRequest := fun r =>
  typed (oc_group_id r) /\ is_i32 (oc_generation_id r) /\ typed (oc_member_id r) /\ Forall typed (oc_topics r).
#[export] Instance OffsetFetchRequestTopic_typed : Typed OffsetFetchRequestTopic := fun t =>
  typed (oft_name t) /\ Forall is_i32 (oft_partition_indexes t).
#[export] Instance OffsetFetchRequest_typed : Typed OffsetFetchRequest := fun r =>
  typed (ofr_group_id r) /\ when_some (Forall typed) (ofr_topics r).
#[export] Instance FindCoordinatorRequest_typed : Typed FindCoordinatorRequest := fun r =>
  Forall typed (fc_keys r) /\ is_i8 (fc_key_type r).
#[export] Instance ListGroupsRequest_typed : Typed ListGroupsRequest := fun r => when_some (Forall typed) (lgq_states_filter r).
#[export] Instance DescribeGroupsRequest_typed : Typed DescribeGroupsRequest := fun r => Forall typed (dg_groups r).

#[export] Instance CreatableReplicaAssignment_typed : Typed CreatableReplicaAssignment := fun a =>
  is_i32 (ca_partition_index a) /\ Forall is_i32 (ca_broker_ids a).
#[export] Instance CreatableTopicConfig_typed : Typed CreatableTopicConfig := fun c => typed (cc_name c) /\ typed (cc_value c).
#[export] Instance CreatableTopic_typed : Typed CreatableTopic := fun t =>
  typed (ct_name t) /\ is_i32 (ct_num_partitions t) /\ is_i16 (ct_replication_factor t) /\
  Forall typed (ct_assignments t) /\ Forall typed (ct_configs t).
#[export] Instance CreateTopicsRequest_typed : Typed CreateTopicsRequest := fun r =>
  Forall typed (cr_topics r) /\ is_i32 (cr_timeout_ms r).
#[export] Instance DeletableTopic_typed : Typed DeletableTopic := fun t => typed (dt_name t) /\ is_uuid (dt_topic_id t).
#[export] Instance DeleteTopicsRequest_typed : Typed DeleteTopicsRequest := fun r =>
  Forall typed (dr_topics r) /\ is_i32 (dr_timeout_ms r).
#[export] Instance ConfigResource_typed : Typed ConfigResource := fun c =>
  is_i8 (cf_resource_type c) /\ typed (cf_resource_name c) /\ when_some (Forall typed) (cf_config_names c).
#[export] Instance DescribeConfigsRequest_typed : Typed DescribeConfigsRequest := fun r => Forall typed (dc_resources r).
#[export] Instance AlterConfig_typed : Typed AlterConfig := fun c => typed (ac_name c) /\ typed (ac_value c).
#[export] Instance AlterConfigsResource_typed : Typed AlterConfigsResource := fun c =>
  is_i8 (acr_resource_type c) /\ typed (acr_resource_name c) /\ Forall typed (acr_configs c).
#[export] Instance AlterConfigsRequest_typed : Typed AlterConfigsRequest := fun r => Forall typed (acq_resources r).
#[export] Instance IncrementalConfig_typed : Typed IncrementalConfig := fun c => typed (ic_name c) /\ typed (ic_value c).
#[export] Instance IncrementalConfigsResource_typed : Typed IncrementalConfigsResource := fun c =>
  is_i8 (icr_resource_type c) /\ typed (icr_resource_name c) /\ Forall typed (icr_configs c).
#[export] Instance IncrementalAlterConfigsRequest_typed : Typed IncrementalAlterConfigsRequest := fun r =>
  Forall typed (iq_resources r).
#[export] Instance QuotaFilter_typed : Typed QuotaFilter := fun f =>
  typed (qf_entity_type f) /\ is_i8 (qf_match_type f) /\ typed (qf_name f).
#[export] Instance DescribeClientQuotasRequest_typed : Typed DescribeClientQuotasRequest := fun r => Forall typed (dq_components r).
#[export] Instance QuotaEntity_typed : Typed QuotaEntity := fun e => typed (qe_entity_type e) /\ typed (qe_name e).
#[export] Instance QuotaOperation_typed : Typed QuotaOperation := fun o => typed (qo_key o) /\ is_bits 8 (qo_value o).
#[export] Instance AlterClientQuotasEntry_typed : Typed AlterClientQuotasEntry := fun e =>
  Forall typed (qa_entity e) /\ Forall typed (qa_operations e).
#[export] Instance AlterClientQuotasRequest_typed : Typed AlterClientQuotasRequest := fun r => Forall typed (aq_entries r).

#[export] Instance KafkaRequest_typed : Typed KafkaRequest := fun request =>
  match request with
  | RqProduce r => typed r
  | RqFetch r => typed r
  | RqListOffsets r => typed r
  | RqMetadataApi r => typed r
  | RqCreateTopics r => typed r
  | RqDeleteTopics r => typed r
  | RqDescribeConfigs r => typed r
  | RqAlterConfigs r => typed r
  | RqIncrementalAlterConfigs r => typed r
  | RqOffsetCommit r => typed r
  | RqOffsetFetch r => typed r
  | RqFindCoordinator r => typed r
  | RqJoinGroup r => typed r
  | RqHeartbeat r => typed r
  | RqLeaveGroup r => typed r
  | RqSyncGroup r => typed r
  | RqDescribeGroups r => typed r
  | RqListGroups r => typed r
  | RqSaslHandshake r => typed r
  | RqInitProducerId r => typed r
  | RqSaslAuthenticate r => typed r
  | RqDescribeClientQuotas r => typed r
  | RqAlterClientQuotas r => typed r
  | RqApiVersions => True
  end.

(** ** A judgement of readers *)

(** Whatever bytes it reads, what the reader returns has [P]. *)
Definition yields {A} (m : WireReader A) (P : A -> Prop) : Prop :=
  forall buf at_ a after, Forall is_byte buf -> m buf at_ = Ok (a, after) -> P a.

Lemma yields_ret {A} (a : A) P : P a -> yields (rd_ret a) P.
Proof. by intros Hp buf at_ a' after _ [= <- <-]. Qed.

Lemma yields_fail {A} e P : yields (@cur_fail A e) P.
Proof. by intros buf at_ a after _. Qed.

Lemma yields_any {A} (m : WireReader A) : yields m (fun _ => True).
Proof. by intros buf at_ a after _ _. Qed.

Lemma yields_bind {A B} (m : WireReader A) (k : A -> WireReader B) P Q :
  yields m P -> (forall a, P a -> yields (k a) Q) -> yields (rd_bind m k) Q.
Proof.
  intros Hm Hk buf at_ b after Hb. unfold rd_bind. intros ((a & at1) & Ha & Hr)%res_bind_Ok.
  exact (Hk a (Hm _ _ _ _ Hb Ha) _ _ _ _ Hb Hr).
Qed.

Lemma yields_finish {A} (a : A) P : P a -> yields (finish a) P.
Proof.
  intros Hp. unfold finish. eapply yields_bind; [apply yields_any|]. intros n _. eapply yields_bind; [apply yields_any|].
  intros pos _. case_match; [by apply yields_ret|apply yields_fail].
Qed.

Lemma yields_take n : yields (cur_take n) (fun b => length b = n /\ is_bytes b).
Proof.
  intros buf at_ b after Hb. unfold cur_take, remaining. destruct (Nat.ltb_spec (length buf - at_) n) as [|Hn]; [done|].
  intros [= <- <-]. rewrite length_take, length_drop. split; [lia|]. by apply Forall_take, Forall_drop.
Qed.

Lemma yields_times {A} n (m : WireReader A) P : yields m P -> yields (rd_times n m) (Forall P).
Proof.
  intros Hm. induction n as [|n IH]; simpl; [by apply yields_ret|].
  eapply yields_bind; [exact Hm|]. intros a Ha. eapply yields_bind; [exact IH|]. intros l Hl. by apply yields_ret; constructor.
Qed.

Lemma yields_items {A} count (item : WireReader A) P : yields item P -> yields (read_items count item) (Forall P).
Proof. intros Hi. eapply yields_bind; [apply yields_any|]. intros n _. by apply yields_times. Qed.

Lemma yields_optional_items {A} flexible (item : WireReader A) P :
  yields item P -> yields (read_optional_items flexible item) (when_some (Forall P)).
Proof.
  intros Hi. eapply yields_bind; [apply yields_any|]. intros [n|] _; [|by apply yields_ret].
  eapply yields_bind; [by apply yields_times|]. intros l Hl. by apply yields_ret.
Qed.

Lemma yields_if {A} c (m : WireReader A) absent P : P absent -> yields m P -> yields (read_if c m absent) P.
Proof. intros Ha Hm. destruct c; [done|by apply yields_ret]. Qed.

Lemma yields_not_null {A} at_ (a : option A) P : when_some P a -> yields (not_null at_ a) P.
Proof. destruct a; intros Hp; [by apply yields_ret|apply yields_fail]. Qed.

Lemma yields_signed n : (0 < n)%nat -> yields (rd! b := cur_take n in rd_ret (from_be_signed n b)) (fits_signed n).
Proof.
  intros Hn. eapply yields_bind; [apply yields_take|]. intros b [Hl Hb]. apply yields_ret, from_be_signed_fits; [done|done|lia].
Qed.

Lemma yields_wire_str at_ raw : is_bytes raw -> yields (wire_str at_ raw) typed.
Proof.
  intros Hb. unfold wire_str. destruct (utf8_valid raw) eqn:Hu; [|apply yields_fail]. apply yields_ret.
  unfold typed, option_typed, when_some, typed, string_typed, is_str. by rewrite as_of_bytes.
Qed.

(** ** The fields *)

Create HintDb typed discriminated.

Lemma yields_i8 : yields read_i8 is_i8.
Proof. apply yields_signed. lia. Qed.
Lemma yields_i16 : yields read_i16 is_i16.
Proof. apply yields_signed. lia. Qed.
Lemma yields_i32 : yields read_i32 is_i32.
Proof. apply yields_signed. lia. Qed.
Lemma yields_i64 : yields read_i64 is_i64.
Proof. apply yields_signed. lia. Qed.

Lemma yields_f64 : yields read_f64 (is_bits 8).
Proof.
  eapply yields_bind; [apply yields_take|]. intros b [Hl Hb]. apply yields_ret. unfold is_bits.
  pose proof (from_be_bound b Hb) as Hf. by rewrite Hl in Hf.
Qed.

Lemma yields_take_16 : yields (cur_take 16) is_uuid.
Proof. apply yields_take. Qed.
Lemma yields_uuid : yields read_topic_id is_uuid.
Proof. apply yields_take. Qed.

Lemma yields_nullable_string flexible : yields (read_nullable_string flexible) typed.
Proof.
  unfold read_nullable_string, read_compact_nullable_string, read_legacy_nullable_string. destruct flexible.
  - eapply yields_bind; [apply yields_any|]. intros [n|] _; [|by apply yields_ret].
    eapply yields_bind; [apply yields_any|]. intros at_ _. eapply yields_bind; [apply yields_take|].
    intros raw [_ Hb]. by apply yields_wire_str.
  - eapply yields_bind; [apply yields_any|]. intros at_ _. eapply yields_bind; [apply yields_any|]. intros n _.
    case_match; [by apply yields_ret|]. case_match; [apply yields_fail|].
    eapply yields_bind; [apply yields_any|]. intros at1 _. eapply yields_bind; [apply yields_take|].
    intros raw [_ Hb]. by apply yields_wire_str.
Qed.

Lemma yields_string flexible : yields (read_string flexible) typed.
Proof.
  eapply yields_bind; [apply yields_any|]. intros at_ _. eapply yields_bind; [apply yields_nullable_string|].
  intros s Hs. by apply yields_not_null.
Qed.

Lemma yields_length_prefixed max : yields (read_length_prefixed max) is_bytes.
Proof.
  unfold read_length_prefixed. eapply yields_bind; [apply yields_any|]. intros at_ _. eapply yields_bind; [apply yields_any|].
  intros n _. case_match; [apply yields_fail|]. case_match; [apply yields_fail|].
  intros buf at1 b after Hb Hr. by apply (yields_take _ _ _ _ _ Hb Hr).
Qed.

Lemma yields_compact_nullable_bytes : yields read_compact_nullable_bytes (when_some is_bytes).
Proof.
  eapply yields_bind; [apply yields_any|]. intros [n|] _; [|by apply yields_ret].
  eapply yields_bind; [apply yields_take|]. intros raw [_ Hb]. by apply yields_ret.
Qed.

Lemma yields_nullable_bytes flexible : yields (read_nullable_bytes flexible) (when_some is_bytes).
Proof.
  destruct flexible; [apply yields_compact_nullable_bytes|]. intros buf at_ b after Hb. unfold read_nullable_bytes, read_nullable_length_prefixed.
  intros ((n & at1) & _ & Hr)%res_bind_Ok. destruct (n =? -1); [by injection Hr as <- <-|]. revert Hb Hr.
  apply (yields_bind _ _ is_bytes (when_some is_bytes)); [apply yields_length_prefixed|]. intros raw Hraw. by apply yields_ret.
Qed.

Lemma yields_bytes flexible : yields (read_bytes flexible) is_bytes.
Proof.
  unfold read_bytes. destruct flexible.
  - eapply yields_bind; [apply yields_any|]. intros at_ _. eapply yields_bind; [apply yields_compact_nullable_bytes|].
    intros b Hb. by apply yields_not_null.
  - eapply yields_bind; [apply yields_any|]. intros max _. apply yields_length_prefixed.
Qed.
#[local] Hint Resolve yields_i8 yields_i16 yields_i32 yields_i64 yields_f64 yields_take_16 yields_uuid yields_nullable_string yields_string
  yields_nullable_bytes yields_bytes : typed.

Lemma zero_fits n : (0 < n)%nat -> fits_signed n 0.
Proof.
  intros Hn. unfold fits_signed. assert (0 < 256 ^ Z.of_nat n / 2); [|lia].
  apply Z.div_str_pos. split; [lia|]. transitivity (256 ^ 1); [lia|]. apply Z.pow_le_mono_r; lia.
Qed.

Lemma zero_uuid : is_uuid ZERO_TOPIC_ID.
Proof. split; [done|]. unfold ZERO_TOPIC_ID. by repeat constructor. Qed.
#[local] Hint Resolve zero_uuid : typed.

(** ** The requests *)

#[local] Opaque fits_signed is_bits is_bytes is_uuid is_str.

Ltac has_type := first [assumption | exact I | solve [auto 1 with typed] | apply zero_fits; lia | hnf; split_and?; first [assumption | exact I | exact zero_uuid]].

Ltac reader :=
  lazymatch goal with
  | |- yields (rd_bind _ _) _ => eapply yields_bind; [reader|intros ? ?; reader]
  | |- yields (rd_ret _) _ => apply yields_ret; has_type
  | |- yields (finish _) _ => apply yields_finish; has_type
  | |- yields (read_if _ _ _) _ => eapply yields_if; cycle 1; [reader|has_type]
  | |- yields (@read_items ?A _ _) _ =>
      first [eapply yields_items; solve [auto 1 with typed] | apply (yields_items (A:=A) _ _ typed); reader]
  | |- yields (@read_optional_items ?A _ _) _ =>
      first [eapply yields_optional_items; solve [auto 1 with typed] | apply (yields_optional_items (A:=A) _ _ typed); reader]
  | |- yields (if ?c then _ else _) _ => destruct c; reader
  | |- _ => first [solve [auto 1 with typed] | apply yields_any]
  end.

Section requests.
Context (v : Z).

Lemma yields_produce : yields (produce_decode_request v) typed.
Proof. unfold produce_decode_request, read_produce_topic, read_produce_partition; cbv zeta. reader. Qed.

Lemma yields_fetch : yields (fetch_decode_request v) typed.
Proof. unfold fetch_decode_request, read_fetch_topic, read_fetch_partition; cbv zeta. reader. Qed.

Lemma yields_list_offsets : yields (list_offsets_decode_request v) typed.
Proof. unfold list_offsets_decode_request, read_list_offsets_partition; cbv zeta. reader. Qed.

Lemma yields_metadata : yields (metadata_decode_request v) typed.
Proof. unfold metadata_decode_request; cbv zeta. reader. Qed.

Lemma yields_init_producer_id : yields (init_producer_id_decode_request v) typed.
Proof. unfold init_producer_id_decode_request; cbv zeta. reader. Qed.

Lemma yields_sasl_handshake : yields (sasl_handshake_decode_request) typed.
Proof. unfold sasl_handshake_decode_request; cbv zeta. reader. Qed.

Lemma yields_sasl_authenticate : yields (sasl_authenticate_decode_request v) typed.
Proof. unfold sasl_authenticate_decode_request; cbv zeta. reader. Qed.

Lemma yields_join_group : yields (join_group_decode_request v) typed.
Proof. unfold join_group_decode_request; cbv zeta. reader. Qed.

Lemma yields_sync_group : yields (sync_group_decode_request v) typed.
Proof. unfold sync_group_decode_request; cbv zeta. reader. Qed.

Lemma yields_heartbeat : yields (heartbeat_decode_request v) typed.
Proof. unfold heartbeat_decode_request; cbv zeta. reader. Qed.

Lemma yields_leave_group : yields (leave_group_decode_request v) typed.
Proof.
  unfold leave_group_decode_request; cbv zeta. eapply yields_bind; [reader|intros group Hg].
  apply (yields_bind _ _ (Forall typed)); [|intros members Hm; reader].
  destruct (v <=? 2); [|reader]. eapply yields_bind; [reader|intros m Hm]. apply yields_ret. by repeat constructor.
Qed.

Lemma yields_offset_commit : yields (offset_commit_decode_request v) typed.
Proof. unfold offset_commit_decode_request; cbv zeta. reader. Qed.

Lemma yields_offset_fetch : yields (offset_fetch_decode_request v) typed.
Proof. unfold offset_fetch_decode_request; cbv zeta. reader. Qed.

Lemma yields_find_coordinator : yields (find_coordinator_decode_request v) typed.
Proof.
  unfold find_coordinator_decode_request; cbv zeta. apply (yields_bind _ _ typed); [reader|intros single Hs].
  eapply yields_bind; [reader|intros kind Hk]. apply (yields_bind _ _ (Forall typed)); [|intros keys Hkeys; reader].
  destruct (4 <=? v); [reader|]. apply yields_ret. destruct single; by repeat constructor.
Qed.

Lemma yields_list_groups : yields (list_groups_decode_request v) typed.
Proof. unfold list_groups_decode_request; cbv zeta. reader. Qed.

Lemma yields_describe_groups : yields (describe_groups_decode_request v) typed.
Proof. unfold describe_groups_decode_request; cbv zeta. reader. Qed.

Lemma yields_create_topics : yields (create_topics_decode_request v) typed.
Proof. unfold create_topics_decode_request, decode_topic, decode_configs, decode_assignments; cbv zeta. reader. Qed.

Lemma yields_delete_topics : yields (delete_topics_decode_request v) typed.
Proof. unfold delete_topics_decode_request; cbv zeta. reader. Qed.

Lemma yields_describe_configs : yields (describe_configs_decode_request v) typed.
Proof. unfold describe_configs_decode_request, decode_resource; cbv zeta. reader. Qed.

Lemma yields_alter_configs : yields (alter_configs_decode_request v) typed.
Proof. unfold alter_configs_decode_request, read_alter_resource; cbv zeta. reader. Qed.

Lemma yields_incremental_alter_configs : yields (incremental_alter_configs_decode_request v) typed.
Proof. unfold incremental_alter_configs_decode_request; cbv zeta. reader. Qed.

Lemma yields_describe_client_quotas : yields (decode_describe_request v) typed.
Proof. unfold decode_describe_request; cbv zeta. reader. Qed.

Lemma yields_alter_client_quotas : yields (decode_alter_request v) typed.
Proof. unfold decode_alter_request, decode_entities; cbv zeta. reader. Qed.
End requests.

Create HintDb requests discriminated.
#[local] Hint Resolve yields_produce yields_fetch yields_list_offsets yields_metadata yields_init_producer_id yields_sasl_handshake yields_sasl_authenticate yields_join_group yields_sync_group yields_heartbeat yields_leave_group yields_offset_commit
  yields_offset_fetch yields_find_coordinator yields_list_groups yields_describe_groups yields_create_topics yields_delete_topics yields_describe_configs yields_alter_configs yields_incremental_alter_configs yields_describe_client_quotas yields_alter_client_quotas : requests.

Lemma decode_typed {A} `{Typed A} (m : WireReader A) (f : A -> KafkaRequest) body request :
  yields m typed -> (forall a, typed (f a) = typed a) -> is_bytes body ->
  (let? r := decode_body m body in Ok (f r)) = Ok request -> typed request.
Proof.
  intros Hm Hf Hb (r & Hr & [= <-])%res_bind_Ok. rewrite Hf. unfold decode_body in Hr.
  apply res_bind_Ok in Hr as ((a & at_) & Ha & [= <-]). exact (Hm _ _ _ _ Hb Ha).
Qed.

(** A decoded request is well typed: whatever the bytes of a body, if the
    decoder of a key accepts them at a version, every integer of the request fits
    the width of its field, every string is UTF-8, every topic id has sixteen
    bytes and every byte string is of bytes, in the fields that version does not
    have too. *)
Theorem decoded_is_typed key version body request :
  Forall is_byte body -> decode_request key version body = Ok request -> typed request.
Proof.
  intros Hb Hd. destruct key; cbn [decode_request] in Hd; try by injection Hd as <-.
  all: eapply decode_typed in Hd; [exact Hd| |reflexivity|exact Hb]; auto 1 with requests nocore.
Qed.

Lemma decoded_is_typed_witness :
  decode_request JoinGroup 9 demo_join_body = Ok (RqJoinGroup demo_join) /\ typed (RqJoinGroup demo_join).
Proof.
  assert (decode_request JoinGroup 9 demo_join_body = Ok (RqJoinGroup demo_join)) as Hd by (vm_compute; reflexivity).
  split; [exact Hd|]. apply (decoded_is_typed JoinGroup 9 demo_join_body _); [|exact Hd].
  unfold demo_join_body. repeat constructor; vm_compute; discriminate.
Defined.
