(* ===== verification/Group.v ===== *)
(** * Group: consumer groups, their state machine, coordinator and election

    Models [oqueue-core]'s [group_id.rs], [member_id.rs], [group_state.rs],
    [group_coordinator.rs], [group_protocol.rs], [group_metadata_record.rs] and
    the broker's [fencing.rs]. *)

From stdpp Require Import base tactics list numbers strings gmap.
From Stdlib Require Import ZArith Lia.
From S2P Require Import Prelude Types ErrorCodes.

Open Scope Z_scope.

(** ** Identifiers *)

Definition GroupId : Type := string.
Definition GroupId_new (name : string) : Res GroupId :=
  if bool_decide (name = EmptyString) then Err EmptyGroupId else Ok name.

Definition MemberId : Type := string.
Definition MemberId_new (name : string) : Res MemberId :=
  if bool_decide (name = EmptyString) then Err EmptyMemberId else Ok name.

(** ** The state machine ([group_state.rs]) *)

Inductive GroupEvent : Type :=
| EvJoin
| EvJoinBarrierComplete
| EvSyncComplete
| EvMemberJoinedDuringSync
| EvMemberLeft
| EvAllMembersGone
| EvExpire.

Inductive GroupState : Type :=
| GroupEmpty
| PreparingRebalance
| CompletingRebalance
| GroupStable
| GroupDead.

#[export] Instance GroupEvent_eq_dec : EqDecision GroupEvent.
Proof. solve_decision. Defined.
#[export] Instance GroupState_eq_dec : EqDecision GroupState.
Proof. solve_decision. Defined.

(** Their [Debug] text. *)
Definition GroupEvent_debug (event : GroupEvent) : string :=
  match event with
  | EvJoin => "Join"
  | EvJoinBarrierComplete => "JoinBarrierComplete"
  | EvSyncComplete => "SyncComplete"
  | EvMemberJoinedDuringSync => "MemberJoinedDuringSync"
  | EvMemberLeft => "MemberLeft"
  | EvAllMembersGone => "AllMembersGone"
  | EvExpire => "Expire"
  end.

Definition GroupState_debug (state : GroupState) : string :=
  match state with
  | GroupEmpty => "Empty"
  | PreparingRebalance => "PreparingRebalance"
  | CompletingRebalance => "CompletingRebalance"
  | GroupStable => "Stable"
  | GroupDead => "Dead"
  end.

(** A generation and the epoch of an assignment are [i32]s. *)
Definition GenerationId_INITIAL : Z := 0.
Definition AssignmentEpoch_INITIAL : Z := -1.

(** [Self(self.0 + 1)]: every profile checks overflow, and panics on it. *)
Definition GenerationId_next (self : Z) : Res Z :=
  if self <? i32_max then Ok (self + 1) else Panic.

Definition transition (self : GroupState) (event : GroupEvent) (generation assignment_epoch : Z)
    : Res (GroupState * Z * Z) :=
  match self, event with
  | (GroupEmpty | GroupStable), EvJoin
  | CompletingRebalance, EvMemberJoinedDuringSync
  | (PreparingRebalance | GroupStable | CompletingRebalance), EvMemberLeft =>
      Ok (PreparingRebalance, generation, assignment_epoch)
  | GroupEmpty, EvExpire => Ok (GroupDead, generation, assignment_epoch)
  | PreparingRebalance, EvJoinBarrierComplete =>
      let? next := GenerationId_next generation in Ok (CompletingRebalance, next, assignment_epoch)
  | (PreparingRebalance | GroupStable | CompletingRebalance), EvAllMembersGone =>
      Ok (GroupEmpty, generation, assignment_epoch)
  | CompletingRebalance, EvSyncComplete => Ok (GroupStable, generation, generation)
  | state, event => Err (IllegalGroupTransition (GroupState_debug state) (GroupEvent_debug event))
  end.

(** ** The coordinator ([group_coordinator.rs]) *)

Record GroupRosterSnapshot : Type := mkRoster {
  gr_protocol_type : string;
  gr_protocol_name : string;
  gr_member_ids : list string;
}.

Record GroupRecord : Type := mkGroupRecord {
  gr_state : GroupState;
  gr_generation : Z;
  gr_assignment_epoch : Z;
}.

#[export] Instance GroupRosterSnapshot_eq_dec : EqDecision GroupRosterSnapshot.
Proof. solve_decision. Defined.
#[export] Instance GroupRecord_eq_dec : EqDecision GroupRecord.
Proof. solve_decision. Defined.

Definition FRESH : GroupRecord := mkGroupRecord GroupEmpty GenerationId_INITIAL AssignmentEpoch_INITIAL.

Record FakeGroupCoordinator : Type := mkGroupCoordinator {
  gc_groups : gmap GroupId GroupRecord;
  gc_rosters : gmap GroupId GroupRosterSnapshot;
  gc_transition_calls : Z;
}.

Definition FakeGroupCoordinator_new : FakeGroupCoordinator := mkGroupCoordinator ∅ ∅ 0.

(** The record a transition leads to. *)
Definition record_step (current : GroupRecord) (event : GroupEvent) : Res GroupRecord :=
  let? (state, generation, assignment_epoch) :=
    transition (gr_state current) event (gr_generation current) (gr_assignment_epoch current) in
  Ok (mkGroupRecord state generation assignment_epoch).

Definition gc_record (self : FakeGroupCoordinator) (group : GroupId) : option GroupRecord :=
  gc_groups self !! group.

(** The counter is an [AtomicU64], which wraps. *)
Definition gc_transition (self : FakeGroupCoordinator) (group : GroupId) (event : GroupEvent)
    : FakeGroupCoordinator * Res GroupRecord :=
  let calls := (gc_transition_calls self + 1) mod 2 ^ 64 in
  match record_step (default FRESH (gc_groups self !! group)) event with
  | Ok record =>
      (mkGroupCoordinator (<[group := record]> (gc_groups self)) (gc_rosters self) calls, Ok record)
  | Err e => (mkGroupCoordinator (gc_groups self) (gc_rosters self) calls, Err e)
  | Panic => (mkGroupCoordinator (gc_groups self) (gc_rosters self) calls, Panic)
  end.

Definition gc_roster (self : FakeGroupCoordinator) (group : GroupId) : option GroupRosterSnapshot :=
  gc_rosters self !! group.

Definition gc_set_roster (self : FakeGroupCoordinator) (group : GroupId) (roster : option GroupRosterSnapshot)
    : FakeGroupCoordinator :=
  mkGroupCoordinator (gc_groups self)
    (match roster with
     | Some roster => <[group := roster]> (gc_rosters self)
     | None => delete group (gc_rosters self)
     end) (gc_transition_calls self).

(** ** What the group log records ([group_metadata_record.rs]) *)

Inductive GroupMetadataRecord : Type :=
| OffsetCommitted (group : GroupId) (topic : string) (partition offset : Z)
| GroupTransitioned (group : GroupId) (event : GroupEvent)
| GroupRosterUpdated (group : GroupId) (roster : option GroupRosterSnapshot).

Record GroupMetadataEntry : Type := mkGroupEntry {
  ge_version : CommitVersion;
  ge_record : GroupMetadataRecord;
}.

(** ** Electing a protocol ([group_protocol.rs]) *)

Record Candidate : Type := mkCandidate { cd_member_id : string; cd_protocols : list string }.
Record Elected : Type := mkElected { el_leader : string; el_protocol_name : string }.

Definition contains (l : list string) (name : string) : bool := existsb (String.eqb name) l.

(** [candidates.retain(..)], member by member. *)
Definition retain_common (candidates : list string) (members : list Candidate) : list string :=
  foldl (fun candidates member => List.filter (contains (cd_protocols member)) candidates) candidates members.

(** [votes.iter_mut().find(..)], and one more for the entry found. *)
Fixpoint vote_for (name : string) (votes : list (string * Z)) : list (string * Z) :=
  match votes with
  | [] => []
  | (n, count) :: votes =>
      if String.eqb n name then (n, count + 1) :: votes else (n, count) :: vote_for name votes
  end.

Definition cast_vote (candidates : list string) (votes : list (string * Z)) (member : Candidate)
    : list (string * Z) :=
  match List.find (contains candidates) (cd_protocols member) with
  | Some voted_for => vote_for voted_for votes
  | None => votes
  end.

(** The first entry with the most votes. *)
Definition pick_winner (winner : string * Z) (rest : list (string * Z)) : string * Z :=
  foldl (fun winner v => if winner.2 <? v.2 then v else winner) winner rest.

Definition elect (members : list Candidate) : option Elected :=
  match members with
  | [] => None
  | leader :: rest =>
      let candidates := retain_common (cd_protocols leader) rest in
      let votes := foldl (cast_vote candidates) (map (fun name => (name, 0)) candidates) members in
      match votes with
      | [] => None
      | first :: others => Some (mkElected (cd_member_id leader) (pick_winner first others).1)
      end
  end.

(** ** The fence ([fencing.rs]) *)

Record NodeReadiness : Type := mkNodeReadiness {
  is_coordinator : bool;
  coordinator_available : bool;
  load_in_progress : bool;
}.

Record FencingContext : Type := mkFencingContext {
  fx_node : NodeReadiness;
  fx_member_tracked : bool;
  fx_record : option GroupRecord;
  fx_generation_id : option Z;
  fx_acceptable_states : option (list GroupState);
}.

Definition for_this_node (still_loading member_tracked : bool) (record : option GroupRecord)
    (generation_id : option Z) (acceptable_states : option (list GroupState)) : FencingContext :=
  mkFencingContext (mkNodeReadiness true true still_loading) member_tracked record generation_id acceptable_states.

Inductive Refusal : Type :=
| CoordinatorLoadInProgress
| NotCoordinator
| CoordinatorNotAvailable
| UnknownMember
| IllegalGeneration
| RebalanceInProgress.

Definition Refusal_error_code (self : Refusal) : Z :=
  match self with
  | CoordinatorLoadInProgress => COORDINATOR_LOAD_IN_PROGRESS
  | NotCoordinator => NOT_COORDINATOR
  | CoordinatorNotAvailable => COORDINATOR_NOT_AVAILABLE
  | UnknownMember => UNKNOWN_MEMBER_ID
  | IllegalGeneration => ILLEGAL_GENERATION
  | RebalanceInProgress => REBALANCE_IN_PROGRESS
  end.

Definition fence (ctx : FencingContext) : Result Refusal unit :=
  if load_in_progress (fx_node ctx) then Err CoordinatorLoadInProgress
  else if negb (is_coordinator (fx_node ctx)) then Err NotCoordinator
  else if negb (coordinator_available (fx_node ctx)) then Err CoordinatorNotAvailable
  else if negb (fx_member_tracked ctx) then Err UnknownMember
  else match fx_record ctx with
  | None => Err UnknownMember
  | Some record =>
      if match fx_generation_id ctx with
         | Some generation_id => negb (gr_generation record =? generation_id)
         | None => false
         end
      then Err IllegalGeneration
      else if match fx_acceptable_states ctx with
              | Some states => negb (bool_decide (gr_state record ∈ states))
              | None => false
              end
      then Err RebalanceInProgress
      else Ok tt
  end.

(** * What the group state machine, the election and the fence ensure *)

(** ** Records *)

(** A group's record, in every state it can be in: the assignment's epoch is
    the generation once a sync completed, and behind it while one is awaited. *)
Definition group_record_wf (r : GroupRecord) : Prop :=
  0 <= gr_generation r <= i32_max /\ -1 <= gr_assignment_epoch r <= gr_generation r /\
  match gr_state r with
  | CompletingRebalance => gr_assignment_epoch r < gr_generation r /\ 0 < gr_generation r
  | GroupStable => gr_assignment_epoch r = gr_generation r /\ 0 < gr_generation r
  | _ => True
  end.

Lemma FRESH_wf : group_record_wf FRESH.
Proof. unfold group_record_wf; simpl. repeat split; try done; mlia. Qed.

(** Whether a state accepts an event. *)
Definition accepts (state : GroupState) (event : GroupEvent) : bool :=
  match state, event with
  | GroupEmpty, (EvJoin | EvExpire) => true
  | PreparingRebalance, (EvJoinBarrierComplete | EvMemberLeft | EvAllMembersGone) => true
  | CompletingRebalance, (EvSyncComplete | EvMemberJoinedDuringSync | EvMemberLeft | EvAllMembersGone) => true
  | GroupStable, (EvJoin | EvMemberLeft | EvAllMembersGone) => true
  | _, _ => false
  end.

Definition closes (event : GroupEvent) : bool :=
  match event with EvJoinBarrierComplete => true | _ => false end.

Lemma record_step_refused r event :
  accepts (gr_state r) event = false ->
  record_step r event =
    Err (IllegalGroupTransition (GroupState_debug (gr_state r)) (GroupEvent_debug event)).
Proof. destruct r as [[] g a], event; simpl; done. Qed.

(** One accepted event: the record stays well formed, and the generation moves
    by one exactly when the join barrier closes. *)
Lemma record_step_accepted r event :
  group_record_wf r -> accepts (gr_state r) event = true ->
  (closes event = true -> gr_generation r < i32_max) ->
  exists r', record_step r event = Ok r' /\ group_record_wf r' /\
    gr_generation r' = gr_generation r + (if closes event then 1 else 0).
Proof.
  unfold group_record_wf, record_step, transition, GenerationId_next.
  destruct r as [s g a]. cbn [gr_state gr_generation gr_assignment_epoch]. intros (Hg & Ha & Hs) Hacc Hlt.
  destruct s, event; cbn [accepts closes] in Hacc, Hlt; try discriminate;
    try rewrite (proj2 (Z.ltb_lt g i32_max)) by auto;
    cbn [res_bind]; eexists; (split; [reflexivity|]); cbn [gr_state gr_generation gr_assignment_epoch closes];
    try (specialize (Hlt eq_refl)); mlia.
Qed.

Lemma record_step_Ok r event r' :
  group_record_wf r -> record_step r event = Ok r' ->
  accepts (gr_state r) event = true /\ group_record_wf r' /\
  gr_generation r' = gr_generation r + (if closes event then 1 else 0).
Proof.
  intros Hwf Hs. destruct (accepts (gr_state r) event) eqn:Hacc; [|by rewrite record_step_refused in Hs].
  split; [done|]. assert (closes event = true -> gr_generation r < i32_max) as Hlt.
  { intros Hc. destruct event; try done. destruct r as [[] g a]; try done.
    unfold record_step in Hs. simpl in Hs. unfold GenerationId_next in Hs.
    destruct (g <? i32_max) eqn:Hg; [by zbool|done]. }
  destruct (record_step_accepted r event Hwf Hacc Hlt) as (r1 & H1 & H2 & H3). by rewrite H1 in Hs; simplify_eq.
Qed.

(** ** Election *)

Definition common (members : list Candidate) (p : string) : bool :=
  forallb (fun m => contains (cd_protocols m) p) members.

(** A member's vote: its first protocol that all the members have. *)
Definition ballot (members : list Candidate) (m : Candidate) : option string :=
  List.find (common members) (cd_protocols m).

Definition tally (members : list Candidate) (p : string) : Z :=
  Z.of_nat (countb (fun m => bool_decide (ballot members m = Some p)) members).

Lemma contains_spec l p : contains l p = true <-> p ∈ l.
Proof.
  unfold contains. rewrite existsb_exists. split.
  - intros (x & Hx%list_elem_of_In & ->%String.eqb_eq). done.
  - intros Hp%list_elem_of_In. exists p. by rewrite String.eqb_refl.
Qed.

Lemma retain_common_filter cs members :
  retain_common cs members = List.filter (common members) cs.
Proof.
  unfold retain_common. revert cs. induction members as [|m members IH]; intros cs; simpl.
  - unfold common; simpl. induction cs; simpl; congruence.
  - rewrite IH. induction cs as [|c cs IHc]; simpl; [done|].
    destruct (contains (cd_protocols m) c); simpl; [|done]. destruct (common members c); by rewrite IHc.
Qed.

Lemma candidates_filter leader rest :
  retain_common (cd_protocols leader) rest = List.filter (common (leader :: rest)) (cd_protocols leader).
Proof.
  rewrite retain_common_filter. apply List.filter_ext_in. intros p Hp. simpl.
  assert (contains (cd_protocols leader) p = true) as -> by (apply contains_spec; by apply list_elem_of_In).
  done.
Qed.

(** A vote as [cast_vote] finds it is the ballot. *)
Lemma cast_ballot leader rest m :
  m ∈ leader :: rest ->
  List.find (contains (retain_common (cd_protocols leader) rest)) (cd_protocols m) = ballot (leader :: rest) m.
Proof.
  intros Hm. rewrite candidates_filter. unfold ballot. induction (cd_protocols m) as [|p ps IH]; [done|].
  cbn [List.find]. rewrite IH.
  assert (contains (List.filter (common (leader :: rest)) (cd_protocols leader)) p = common (leader :: rest) p) as ->;
    [|done].
  apply Bool.eq_iff_eq_true. rewrite contains_spec, list_elem_of_In, filter_In, <-list_elem_of_In.
  split; [by intros [_ ?]|]. intros Hc. split; [|done]. apply contains_spec.
  simpl in Hc. by apply andb_true_iff in Hc as [? _].
Qed.

(** The vote counts: each candidate's, at its first place in the list. *)
Fixpoint votes_of (seen : list string) (t : string -> Z) (cs : list string) : list (string * Z) :=
  match cs with
  | [] => []
  | c :: cs => (c, if contains seen c then 0 else t c) :: votes_of (c :: seen) t cs
  end.

Lemma votes_of_ext seen t t' cs :
  (forall c, c ∉ seen -> t c = t' c) -> votes_of seen t cs = votes_of seen t' cs.
Proof.
  revert seen. induction cs as [|c cs IH]; intros seen Ht; simpl; [done|]. f_equal.
  - destruct (contains seen c) eqn:Hc; [done|]. rewrite Ht; [done|]. intros Hin%contains_spec. congruence.
  - apply IH. set_solver.
Qed.

Definition add_vote (name : string) (t : string -> Z) (p : string) : Z :=
  if String.eqb p name then t p + 1 else t p.

Lemma vote_for_votes_of name seen t cs :
  name ∉ seen -> vote_for name (votes_of seen t cs) = votes_of seen (add_vote name t) cs.
Proof.
  revert seen. induction cs as [|c cs IH]; intros seen Hn; simpl; [done|].
  unfold add_vote at 1. destruct (String.eqb_spec c name) as [->|Hne].
  - destruct (contains seen name) eqn:Hc; [by apply contains_spec in Hc|]. f_equal.
    apply votes_of_ext. intros c Hc'. unfold add_vote.
    destruct (String.eqb_spec c name) as [->|]; [set_solver|done].
  - f_equal. apply IH. set_solver.
Qed.

Lemma votes_of_zero cs seen : map (fun name => (name, 0)) cs = votes_of seen (fun _ => 0) cs.
Proof. revert seen. induction cs as [|c cs IH]; intros seen; simpl; [done|]. rewrite (IH (c :: seen)). by destruct (contains _ _). Qed.

Lemma cast_all candidates voters (bal : Candidate -> option string) t :
  (forall m, m ∈ voters -> List.find (contains candidates) (cd_protocols m) = bal m) ->
  foldl (cast_vote candidates) (votes_of [] t candidates) voters =
  votes_of [] (fun p => t p + Z.of_nat (countb (fun m => bool_decide (bal m = Some p)) voters)) candidates.
Proof.
  revert t. induction voters as [|m voters IH]; intros t Hb; simpl.
  - apply votes_of_ext. intros c _. unfold countb; simpl. lia.
  - assert (cast_vote candidates (votes_of [] t candidates) m =
      votes_of [] (fun p => t p + if bool_decide (bal m = Some p) then 1 else 0) candidates) as ->.
    { unfold cast_vote. rewrite Hb by set_solver. destruct (bal m) as [q|].
      - rewrite vote_for_votes_of by set_solver. apply votes_of_ext. intros c _. unfold add_vote.
        destruct (String.eqb_spec c q) as [->|]; [by rewrite bool_decide_true|].
        rewrite bool_decide_false by congruence. lia.
      - apply votes_of_ext. intros c _. rewrite bool_decide_false by done. lia. }
    rewrite IH by set_solver. apply votes_of_ext. intros c _. rewrite countb_cons.
    destruct (bool_decide _); lia.
Qed.

Lemma pick_winner_spec w l :
  exists l1 l2, w :: l = l1 ++ pick_winner w l :: l2 /\
    Forall (fun v => v.2 < (pick_winner w l).2) l1 /\ Forall (fun v => v.2 <= (pick_winner w l).2) l2.
Proof.
  revert w. induction l as [|v l IH]; intros w.
  - exists [], []. by repeat constructor.
  - change (pick_winner w (v :: l)) with (pick_winner (if w.2 <? v.2 then v else w) l).
    destruct (w.2 <? v.2) eqn:Hlt; zbool.
    + destruct (IH v) as (l1 & l2 & Hl & H1 & H2). exists (w :: l1), l2. rewrite Hl.
      split; [done|]. split; [|done]. constructor; [|done].
      destruct l1 as [|x l1]; injection Hl as Hx _; [by rewrite <-Hx|].
      apply Forall_cons in H1 as [H1 _]. subst x. lia.
    + destruct (IH w) as (l1 & l2 & Hl & H1 & H2). destruct l1 as [|x l1]; injection Hl as Hx Hl.
      * exists [], (v :: l2). rewrite <-Hx, Hl in *. split; [done|]. split; [constructor|].
        constructor; [lia|done].
      * exists (x :: v :: l1), l2. subst x. split; [cbn [app]; by rewrite <-Hl|].
        split; [|done]. apply Forall_cons in H1 as [H1' H1]. repeat constructor; [done|lia|done].
Qed.

Lemma votes_of_app seen t cs l1 x l2 :
  votes_of seen t cs = l1 ++ x :: l2 ->
  exists cs1 cs2, cs = cs1 ++ x.1 :: cs2 /\ l1 = votes_of seen t cs1 /\
    l2 = votes_of (x.1 :: rev cs1 ++ seen) t cs2 /\
    x.2 = if contains (rev cs1 ++ seen) x.1 then 0 else t x.1.
Proof.
  revert seen l1. induction cs as [|c cs IH]; intros seen l1; [by destruct l1|].
  destruct l1 as [|y l1]; cbn [votes_of app]; intros [= Hx Hl].
  - exists [], cs. by subst.
  - apply IH in Hl as (cs1 & cs2 & -> & -> & -> & Hx2). exists (c :: cs1), cs2. subst y. cbn [rev votes_of app].
    rewrite <-!app_assoc. cbn [app]. done.
Qed.

Lemma votes_of_elem seen t cs q :
  q ∈ cs -> q ∉ seen -> (q, t q) ∈ votes_of seen t cs.
Proof.
  revert seen. induction cs as [|c cs IH]; intros seen Hq Hs; [set_solver|]. cbn [votes_of].
  destruct (decide (q = c)) as [->|Hne].
  - destruct (contains seen c) eqn:Hc; [by apply contains_spec in Hc|]. set_solver.
  - apply list_elem_of_further, IH; set_solver.
Qed.

Lemma filter_split {A} (f : A -> bool) l l1 x l2 :
  List.filter f l = l1 ++ x :: l2 -> exists k1 k2, l = k1 ++ x :: k2 /\ l1 = List.filter f k1 /\ f x = true.
Proof.
  revert l1. induction l as [|a l IH]; intros l1; simpl; [by destruct l1|].
  destruct (f a) eqn:Ha.
  - destruct l1 as [|y l1]; intros [= <- Hl].
    + by exists [], l.
    + apply IH in Hl as (k1 & k2 & -> & -> & Hx). exists (a :: k1), k2. simpl. by rewrite Ha.
  - intros Hl. apply IH in Hl as (k1 & k2 & -> & -> & Hx). exists (a :: k1), k2. simpl. by rewrite Ha.
Qed.

(** The first of the votes that no other passes. *)
Lemma winner_first t cs first others :
  (forall p, 0 <= t p) -> votes_of [] t cs = first :: others ->
  exists cs1 cs2, cs = cs1 ++ (pick_winner first others).1 :: cs2 /\
    (forall q, q ∈ cs1 -> t q < t (pick_winner first others).1) /\
    (forall q, q ∈ cs -> t q <= t (pick_winner first others).1).
Proof.
  intros Ht Hv. destruct (pick_winner_spec first others) as (l1 & l2 & Hl & H1 & H2).
  set (w := pick_winner first others) in *. rewrite Hl in Hv.
  pose proof Hv as Hv'. apply votes_of_app in Hv as (cs1 & cs2 & -> & -> & -> & Hw). rewrite app_nil_r in Hw.
  assert (forall q, q ∈ cs1 -> t q < w.2) as Hlt.
  { intros q Hq. rewrite Forall_forall in H1. apply (H1 (q, t q)). apply votes_of_elem; set_solver. }
  assert (w.2 = t w.1) as Heq.
  { destruct (contains (rev cs1) w.1) eqn:Hc; [|done]. apply contains_spec in Hc.
    assert (w.1 ∈ cs1) as Hin by (apply list_elem_of_In, in_rev, list_elem_of_In, Hc).
    specialize (Hlt _ Hin). specialize (Ht w.1). lia. }
  exists cs1, cs2. rewrite <-Heq. split; [done|]. split; [done|]. intros q Hq.
  assert ((q, t q) ∈ votes_of [] t (cs1 ++ w.1 :: cs2)) as Hin by (apply votes_of_elem; set_solver).
  rewrite Hv' in Hin. apply elem_of_app in Hin as [Hin|[Hin|Hin]%elem_of_cons].
  - rewrite Forall_forall in H1. specialize (H1 _ Hin). simpl in H1. lia.
  - subst. rewrite <-Hin. simpl. lia.
  - rewrite Forall_forall in H2. apply (H2 _ Hin).
Qed.

Lemma common_leader leader rest p : common (leader :: rest) p = true -> p ∈ cd_protocols leader.
Proof. simpl. intros [H _]%andb_true_iff. by apply contains_spec. Qed.

Lemma common_Permutation members members' p : members ≡ₚ members' -> common members p = common members' p.
Proof.
  intros Hp. apply Bool.eq_iff_eq_true. unfold common. rewrite !forallb_forall.
  split; intros H x Hx; apply H, (Permutation_in _ (l := _) (l' := _)) with (2 := Hx); [by symmetry|done].
Qed.

(** What [elect] counts. *)
Lemma elect_votes leader rest :
  foldl (cast_vote (retain_common (cd_protocols leader) rest))
    (map (fun name => (name, 0)) (retain_common (cd_protocols leader) rest)) (leader :: rest) =
  votes_of [] (tally (leader :: rest)) (List.filter (common (leader :: rest)) (cd_protocols leader)).
Proof.
  rewrite (votes_of_zero _ []), (cast_all _ _ (ballot (leader :: rest))) by (intros; by apply cast_ballot).
  rewrite <-candidates_filter. apply votes_of_ext. intros c _. unfold tally. lia.
Qed.

Lemma elect_None members : elect members = None <-> forall p, members = [] \/ common members p = false.
Proof.
  destruct members as [|leader rest]; [split; [by left|done]|]. unfold elect. rewrite elect_votes.
  set (cs := List.filter _ _). assert (cs = [] <-> forall p, common (leader :: rest) p = false) as Hcs.
  { split.
    - intros Hnil p. destruct (common (leader :: rest) p) eqn:Hp; [|done].
      assert (In p cs) as Hin by (apply filter_In; split; [apply list_elem_of_In; by eapply common_leader|done]).
      by rewrite Hnil in Hin.
    - intros Hp. destruct cs as [|c cs'] eqn:Hc; [done|]. assert (In c cs) as Hin by (rewrite Hc; by left).
      apply filter_In in Hin as [_ Hin]. congruence. }
  destruct cs as [|c cs']; cbn [votes_of].
  - split; [|done]. intros _ p. right. by apply Hcs.
  - split; [done|]. intros Hp. exfalso. assert (c :: cs' = []); [|done]. apply Hcs. intros p.
    by destruct (Hp p).
Qed.

(** The specification of an election. *)
Definition elected_by (members : list Candidate) (e : Elected) : Prop :=
  exists leader rest before after,
    members = leader :: rest /\ el_leader e = cd_member_id leader /\
    cd_protocols leader = before ++ el_protocol_name e :: after /\
    common members (el_protocol_name e) = true /\
    (forall q, common members q = true -> tally members q <= tally members (el_protocol_name e)) /\
    (forall q, q ∈ before -> common members q = true ->
       tally members q < tally members (el_protocol_name e)).

Lemma elect_elected members e : elect members = Some e -> elected_by members e.
Proof.
  destruct members as [|leader rest]; [done|]. unfold elect. rewrite elect_votes.
  destruct (votes_of _ _ _) as [|first others] eqn:Hv; [done|]. intros [= <-].
  apply winner_first in Hv as (cs1 & cs2 & Hcs & Hlt & Hle); [|intros; unfold tally; lia].
  apply filter_split in Hcs as Hs. destruct Hs as (k1 & k2 & Hl & -> & Hc).
  exists leader, rest, k1, k2. cbn [el_leader el_protocol_name]. repeat split; try done.
  - intros q Hq. apply Hle, list_elem_of_In, filter_In. split; [|done].
    apply list_elem_of_In. by eapply common_leader.
  - intros q Hq Hcq. apply Hlt, list_elem_of_In, filter_In. split; [by apply list_elem_of_In|done].
Qed.

Lemma elect_common members e : elect members = Some e -> common members (el_protocol_name e) = true.
Proof. by intros (?&?&?&?&?&?&?&?&?)%elect_elected. Qed.

(** ** Claims *)

(** The election picks the protocol the members prefer: the first member
    leads, the protocol elected is one every member has, no other such
    protocol is the first choice of more members, and among those with as many
    it is the earliest of the leader's; there is no election only when no
    member joined or no protocol is common to all. *)
Theorem elect_picks_preferred members :
  match elect members with
  | Some e => elected_by members e
  | None => forall p, members = [] \/ common members p = false
  end.
Proof.
  destruct (elect members) as [e|] eqn:He; [by apply elect_elected|by apply elect_None].
Qed.
