(* ===== verification/Authz.v ===== *)
(** * Authz: principals, grants and how much a principal may have in flight

    Models [oqueue-core]'s [principal.rs], [authz.rs], [topic_grants.rs],
    [group_grants.rs], [admin_grants.rs] and [principal_quota.rs], and
    [oqueue-broker/src/authz.rs]. *)

From stdpp Require Import base tactics list numbers strings gmap.
From Stdlib Require Import ZArith Lia.
From S2P Require Import Prelude Types Group.

Open Scope Z_scope.

Notation Principal := string (only parsing).

Definition Principal_new (name : string) : Res Principal := if decide (name = EmptyString) then Err EmptyPrincipal else Ok name.

(** ** Grants *)

(** [HashMap<Principal, HashSet<X>>], with [entry(..).or_default().insert(..)]
    and a lookup. *)
Notation Grants X := (gmap string (gset X)).

Section grants.
Context {X : Type} `{Countable X}.
Definition grant (self : Grants X) (principal : Principal) (x : X) : Grants X :=
  <[principal := {[x]} ∪ default ∅ (self !! principal)]> self.
Definition granted (self : Grants X) (principal : Principal) (x : X) : bool :=
  match self !! principal with Some xs => bool_decide (x ∈ xs) | None => false end.
End grants.

Definition TopicGrants : Type := Grants TopicId.
Definition TopicGrants_new : TopicGrants := ∅.
Definition can_see (self : TopicGrants) (principal : Principal) (topic : TopicId) : bool := granted self principal topic.
Definition revoke (self : TopicGrants) (principal : Principal) (topic : TopicId) : TopicGrants :=
  match self !! principal with Some topics => <[principal := topics ∖ {[topic]}]> self | None => self end.
Definition revoke_topic (self : TopicGrants) (topic : TopicId) : TopicGrants := (fun topics => topics ∖ {[topic]}) <$> self.
Definition topics_for (self : TopicGrants) (principal : Principal) : list TopicId := elements (default ∅ (self !! principal)).
Definition for_principal (self : TopicGrants) (principal : option Principal) : TopicGrants :=
  match principal with
  | Some principal => foldl (fun scoped topic => grant scoped principal topic) TopicGrants_new (topics_for self principal)
  | None => TopicGrants_new
  end.

Definition GroupGrants : Type := Grants GroupId.
Definition group_allows (self : GroupGrants) (principal : Principal) (group : GroupId) : bool := granted self principal group.

Inductive AdminOperation : Type :=
| OpCreateTopics | OpDeleteTopics | OpDescribeConfigs | OpAlterConfigs | OpDescribeGroups | OpListGroups | OpAlterQuotas.

#[export] Instance AdminOperation_eq_dec : EqDecision AdminOperation.
Proof. solve_decision. Defined.
#[export] Instance AdminOperation_countable : Countable AdminOperation.
Proof.
  refine (inj_countable'
    (fun op => match op with
     | OpCreateTopics => 0%nat | OpDeleteTopics => 1%nat | OpDescribeConfigs => 2%nat | OpAlterConfigs => 3%nat
     | OpDescribeGroups => 4%nat | OpListGroups => 5%nat | OpAlterQuotas => 6%nat end)
    (fun n => match n with
     | 0%nat => OpCreateTopics | 1%nat => OpDeleteTopics | 2%nat => OpDescribeConfigs | 3%nat => OpAlterConfigs
     | 4%nat => OpDescribeGroups | 5%nat => OpListGroups | _ => OpAlterQuotas end) _).
  by intros [].
Defined.

Definition AdminGrants : Type := Grants AdminOperation.
Definition admin_allows (self : AdminGrants) (principal : Principal) (operation : AdminOperation) : bool :=
  granted self principal operation.

(** ** What a connection may do ([authz.rs] of the core and of the broker) *)

Definition authorize (principal : option Principal) (credentials_configured : bool) : bool :=
  negb credentials_configured || match principal with Some _ => true | None => false end.

(** The three contexts of the broker differ in their grants alone. *)
Record AuthzContext (G : Type) : Type := mkAuthzContext {
  az_principal : option Principal;
  az_credentials_configured : bool;
  az_grants : G;
}.
Arguments mkAuthzContext {G}. Arguments az_principal {G}. Arguments az_credentials_configured {G}. Arguments az_grants {G}.

Definition topic_authorized (name : string) (authz : AuthzContext TopicGrants) : bool :=
  if negb (az_credentials_configured authz) then true
  else match az_principal authz with
  | None => false
  | Some principal =>
      match TopicId_new name with
      | Ok topic_id => can_see (az_grants authz) principal topic_id
      | _ => false
      end
  end.

Definition group_authorized (group : GroupId) (authz : AuthzContext GroupGrants) : bool :=
  if negb (az_credentials_configured authz) then true
  else match az_principal authz with
  | None => false
  | Some principal => group_allows (az_grants authz) principal group
  end.

Definition admin_authorized (operation : AdminOperation) (authz : AuthzContext AdminGrants) : bool :=
  if negb (az_credentials_configured authz) then true
  else match az_principal authz with
  | None => false
  | Some principal => admin_allows (az_grants authz) principal operation
  end.

(** ** In-flight requests ([principal_quota.rs])

    The state under the lock; [InFlight] is the guard an admitted request holds,
    and dropping it gives its place back. *)

Record PrincipalQuota : Type := mkPrincipalQuota {
  pq_max_in_flight : Z;
  pq_in_flight : gmap Principal Z;
  pq_overrides : gmap Principal Z;
}.

Definition PrincipalQuota_new (max_in_flight : Z) : PrincipalQuota := mkPrincipalQuota max_in_flight ∅ ∅.

Definition limit_for (self : PrincipalQuota) (principal : Principal) : Z :=
  default (pq_max_in_flight self) (pq_overrides self !! principal).

Definition set_override (self : PrincipalQuota) (principal : Principal) (limit : option Z) : PrincipalQuota :=
  mkPrincipalQuota (pq_max_in_flight self) (pq_in_flight self)
    (match limit with
     | Some limit => <[principal := limit]> (pq_overrides self)
     | None => delete principal (pq_overrides self)
     end).

Definition quota_admit (self : PrincipalQuota) (principal : Principal) : PrincipalQuota * option Principal :=
  let limit := limit_for self principal in
  let count := default 0 (pq_in_flight self !! principal) in
  let with_count n := mkPrincipalQuota (pq_max_in_flight self) (<[principal := n]> (pq_in_flight self)) (pq_overrides self) in
  if limit <=? count then (with_count count, None) else (with_count (count + 1), Some principal).

(** [Drop for InFlight]. *)
Definition quota_release (self : PrincipalQuota) (principal : Principal) : PrincipalQuota :=
  match pq_in_flight self !! principal with
  | Some count =>
      let count := Z.max (count - 1) 0 in
      mkPrincipalQuota (pq_max_in_flight self)
        (if count =? 0 then delete principal (pq_in_flight self) else <[principal := count]> (pq_in_flight self))
        (pq_overrides self)
  | None => self
  end.

(** ** Properties *)

Lemma granted_grant {X} `{Countable X} (self : Grants X) p x q y :
  granted (grant self p x) q y = bool_decide (q = p /\ y = x) || granted self q y.
Proof.
  unfold granted, grant. destruct (decide (q = p)) as [->|Hne].
  - rewrite lookup_insert_eq. destruct (self !! p) as [xs|]; simpl.
    + rewrite <-bool_decide_or. apply bool_decide_ext. set_solver.
    + rewrite orb_false_r. apply bool_decide_ext. set_solver.
  - rewrite lookup_insert_ne by done. by rewrite bool_decide_false by naive_solver.
Qed.

Lemma grant_all (p : Principal) (l : list TopicId) (g : TopicGrants) q t :
  can_see (foldl (fun scoped topic => grant scoped p topic) g l) q t = bool_decide (q = p /\ t ∈ l) || can_see g q t.
Proof.
  revert g. induction l as [|x l IH]; intros g; simpl.
  - by rewrite bool_decide_false by (intros [_ ?%elem_of_nil]; done).
  - rewrite IH. unfold can_see. rewrite granted_grant, orb_assoc. f_equal. rewrite <-bool_decide_or.
    apply bool_decide_ext. rewrite elem_of_cons. naive_solver.
Qed.

(** Scoping grants to a principal gives that principal what it had and
    nobody else anything; without a principal nobody sees anything. *)
Theorem scoped_grants_exact (g : TopicGrants) (principal : option Principal) q t :
  can_see (for_principal g principal) q t = bool_decide (principal = Some q) && can_see g q t.
Proof.
  destruct principal as [p|]; [|done]. unfold for_principal. rewrite grant_all.
  change (can_see TopicGrants_new q t) with false. rewrite orb_false_r. unfold topics_for, can_see, granted, TopicGrants in *.
  destruct (decide (p = q)) as [->|Hne].
  - rewrite (bool_decide_true (Some q = Some q)) by done. simpl. destruct (g !! q) as [ts|] eqn:Hg; simpl.
    + apply bool_decide_ext. rewrite elem_of_elements. naive_solver.
    + rewrite bool_decide_false; [done|]. rewrite elem_of_elements. set_solver.
  - rewrite (bool_decide_false (Some p = Some q)) by congruence. simpl. rewrite bool_decide_false; [done|]. naive_solver.
Qed.

(** Requests come, each to be admitted or refused, end, and limits change. *)
Inductive QuotaOp : Type :=
| QAdmit (principal : Principal)
| QDrop (guard : nat)
| QOverride (principal : Principal) (limit : option Z).

(** The guards handed out, each gone once it is dropped, and whether each
    request was admitted, with how many its principal then held and its limit. *)
Record QuotaWorld : Type := mkQuotaWorld {
  qw_quota : PrincipalQuota;
  qw_guards : list (option Principal);
  qw_answers : list (Principal * Z * Z * bool);
}.

Definition held_by (p : Principal) (guards : list (option Principal)) : nat := countb (fun g => bool_decide (g = Some p)) guards.

Definition quota_step (w : QuotaWorld) (op : QuotaOp) : QuotaWorld :=
  match op with
  | QAdmit p =>
      let '(q, guard) := quota_admit (qw_quota w) p in
      mkQuotaWorld q (match guard with Some p => qw_guards w ++ [Some p] | None => qw_guards w end)
        (qw_answers w ++ [(p, Z.of_nat (held_by p (qw_guards w)), limit_for (qw_quota w) p, bool_decide (guard <> None))])
  | QDrop i =>
      match qw_guards w !! i with
      | Some (Some p) => mkQuotaWorld (quota_release (qw_quota w) p) (<[i := None]> (qw_guards w)) (qw_answers w)
      | _ => w
      end
  | QOverride p limit => mkQuotaWorld (set_override (qw_quota w) p limit) (qw_guards w) (qw_answers w)
  end.

Definition quota_run (max_in_flight : Z) (ops : list QuotaOp) : QuotaWorld :=
  foldl quota_step (mkQuotaWorld (PrincipalQuota_new max_in_flight) [] []) ops.

Lemma held_by_app p l l' : held_by p (l ++ l') = (held_by p l + held_by p l')%nat.
Proof. apply countb_app. Qed.

Lemma held_by_one p q : held_by p [Some q] = if decide (p = q) then 1%nat else 0%nat.
Proof.
  unfold held_by. rewrite countb_cons. destruct (decide (p = q)) as [->|]; [by rewrite bool_decide_true|].
  by rewrite bool_decide_false by congruence.
Qed.

Lemma held_by_drop p q i guards :
  guards !! i = Some (Some q) ->
  (held_by p guards = held_by p (<[i := None]> guards) + if decide (p = q) then 1 else 0)%nat.
Proof.
  intros Hi. pose proof (lookup_lt_Some _ _ _ Hi) as Hlt.
  rewrite insert_take_drop by done. rewrite <-(take_drop_middle guards i _ Hi) at 1. rewrite !held_by_app.
  unfold held_by. rewrite !countb_cons. rewrite (bool_decide_false (None = Some p)) by done.
  destruct (decide (p = q)) as [->|Hne]; [rewrite bool_decide_true by done; lia|].
  rewrite bool_decide_false by congruence. lia.
Qed.

Definition quota_inv (w : QuotaWorld) : Prop :=
  (forall p, default 0 (pq_in_flight (qw_quota w) !! p) = Z.of_nat (held_by p (qw_guards w))) /\
  Forall (fun '(_, held, limit, admitted) => admitted = (held <? limit)) (qw_answers w).

Lemma quota_step_inv w op : quota_inv w -> quota_inv (quota_step w op).
Proof.
  intros [Hc Ha]. destruct op as [p|i|p limit]; simpl.
  - unfold quota_admit. rewrite Hc. destruct (_ <=? _) eqn:Hl; split; simpl.
    + intros p'. destruct (decide (p' = p)) as [->|]; [by rewrite lookup_insert_eq|by rewrite lookup_insert_ne].
    + apply Forall_app. split; [done|]. constructor; [|constructor]. symmetry.
      zbool. by apply Z.ltb_ge.
    + intros p'. rewrite held_by_app, held_by_one. destruct (decide (p' = p)) as [->|Hne].
      * rewrite lookup_insert_eq. simpl. lia.
      * rewrite lookup_insert_ne by done. rewrite Hc. lia.
    + apply Forall_app. split; [done|]. constructor; [|constructor]. symmetry. zbool. by apply Z.ltb_lt.
  - destruct (qw_guards w !! i) as [[p|]|] eqn:Hi; [|by split..]. split; simpl; [|done]. intros p'.
    pose proof (Hc p) as Hp. pose proof (held_by_drop p' p i _ Hi) as Hd. pose proof (held_by_drop p p i _ Hi) as Hd'.
    rewrite decide_True in Hd' by done. pose proof (Hc p') as Hp'. unfold quota_release.
    destruct (pq_in_flight (qw_quota w) !! p) as [count|] eqn:Hq; simpl in Hp; [|lia]. simpl.
    destruct (decide (p' = p)) as [->|Hne].
    + destruct (_ =? 0) eqn:H0; zbool; [rewrite lookup_delete_eq|rewrite lookup_insert_eq]; simpl; lia.
    + destruct (_ =? 0); [rewrite lookup_delete_ne by done|rewrite lookup_insert_ne by done]; lia.
  - by split.
Qed.

(** A principal's requests in flight are counted exactly: whatever requests
    come and end and however limits are changed, the count the quota keeps is the
    number of guards the principal holds, and each request was admitted when the
    principal then held fewer than its limit at that moment and refused
    otherwise. *)
Theorem quota_counts_exact (max_in_flight : Z) (ops : list QuotaOp) :
  let w := quota_run max_in_flight ops in
  (forall p, default 0 (pq_in_flight (qw_quota w) !! p) = Z.of_nat (held_by p (qw_guards w))) /\
  Forall (fun '(_, held, limit, admitted) => admitted = (held <? limit)) (qw_answers w).
Proof.
  intros w. change (quota_inv w). unfold w, quota_run.
  assert (quota_inv (mkQuotaWorld (PrincipalQuota_new max_in_flight) [] [])) as H0 by (split; [done|constructor]).
  revert H0. generalize (mkQuotaWorld (PrincipalQuota_new max_in_flight) [] []).
  induction ops as [|op ops IH]; intros w0 H0; simpl; [done|]. by apply IH, quota_step_inv.
Qed.
