(* ===== verification/Catalog.v ===== *)
(** * Catalog: which topics exist

    Models [oqueue-core]'s [catalog.rs] (entries, ids, the in-memory catalog) and
    [catalog/stored.rs] with its [format.rs], [delete.rs] and [config.rs]: the
    catalog as objects, which several nodes write at once.  A stored operation is
    a program of Machine.v, so it may be interleaved with others at every store
    call. *)

From stdpp Require Import base tactics list numbers strings gmap sorting.
From Stdlib Require Import ZArith Lia Ascii.
From S2P Require Import Prelude Bytes Types Store Machine Segment Bundle Stream Merge Authz.

Open Scope Z_scope.

(** ** Entries ([catalog.rs]) *)

Record CatalogEntry : Type := mkCatalogEntry {
  ce_name : TopicId;
  ce_id : Z;
  ce_partitions : Z;
  ce_key_domain : KeyDomain;
  ce_creator : option Principal;
}.

Definition UUID_OFFSET : Z := 144066263297769815596495629667062367629. (* 0x6c62_272e_07bb_0142_62b8_2175_6295_c58d *)
Definition UUID_PRIME : Z := 309485009821345068724781371. (* 0x0000_0000_0100_0000_0000_0000_0000_013b *)

Definition topic_uuid (name : TopicId) : Z :=
  let hash := foldl (fun hash byte => (Z.lxor hash byte * UUID_PRIME) mod 2 ^ 128) UUID_OFFSET (as_bytes name) in
  let version := Z.shiftl 8 76 in
  let variant := Z.shiftl 2 62 in
  Z.lor (Z.lor (Z.land (Z.land hash (Z.lnot (Z.shiftl 15 76))) (Z.lnot (Z.shiftl 3 62))) version) variant.

Definition CatalogEntry_with_key_domain (name : TopicId) (partitions : Z) (key_domain : KeyDomain) : CatalogEntry :=
  mkCatalogEntry name (topic_uuid name) partitions key_domain None.
Definition CatalogEntry_new (name : TopicId) (partitions : Z) : CatalogEntry :=
  mkCatalogEntry name (topic_uuid name) partitions DefaultDomain None.
Definition CatalogEntry_with_creator (name : TopicId) (partitions : Z) (creator : Principal) : CatalogEntry :=
  mkCatalogEntry name (topic_uuid name) partitions DefaultDomain (Some creator).
Definition CatalogEntry_with_key_domain_and_creator (name : TopicId) (partitions : Z) (key_domain : KeyDomain) (creator : Principal)
    : CatalogEntry :=
  mkCatalogEntry name (topic_uuid name) partitions key_domain (Some creator).

Record TopicCreateOutcome : Type := mkTopicCreateOutcome { tc_entry : CatalogEntry; tc_created : bool }.

Inductive TopicDeleteOutcome : Type :=
| Deleted (entry : CatalogEntry)
| AlreadyDeleted (id : Z)
| MissingTopic
| StaleId (expected actual : Z).

Inductive TopicRetentionUpdate : Type := RetentionApplied (retention_ms : option Z) | RetentionMissing.

(** [expected_id] names another incarnation. *)
Definition stale (expected_id : option Z) (actual : Z) : option TopicDeleteOutcome :=
  match expected_id with
  | Some expected => if expected =? actual then None else Some (StaleId expected actual)
  | None => None
  end.

(** ** In memory ([FakeTopicCatalog]) *)

Record Entries : Type := mkEntries {
  en_by_name : gmap string CatalogEntry;
  en_by_id : gmap Z string;
  en_tombstones : gmap string Z;
  en_retention_ms : gmap string Z;
}.
Definition Entries_default : Entries := mkEntries ∅ ∅ ∅ ∅.

Definition en_insert (e : Entries) (entry : CatalogEntry) : Entries :=
  mkEntries (<[ce_name entry := entry]> (en_by_name e)) (<[ce_id entry := ce_name entry]> (en_by_id e))
    (en_tombstones e) (en_retention_ms e).

Definition fake_lookup (name : TopicId) (e : Entries) : Res (option CatalogEntry) := Ok (en_by_name e !! name).
Definition fake_lookup_id (id : Z) (e : Entries) : Res (option CatalogEntry) :=
  Ok (name ← en_by_id e !! id; en_by_name e !! name).

Definition fake_create_with_key_domain (name : TopicId) (partitions : Z) (key_domain : KeyDomain) (e : Entries)
    : Entries * Res CatalogEntry :=
  match en_tombstones e !! name with
  | Some _ => (e, Err TopicNameReserved)
  | None =>
      match en_by_name e !! name with
      | Some existing => (e, Ok existing)
      | None =>
          let entry := CatalogEntry_with_key_domain name partitions key_domain in
          (en_insert e entry, Ok entry)
      end
  end.
Definition fake_create (name : TopicId) (partitions : Z) (e : Entries) : Entries * Res CatalogEntry :=
  fake_create_with_key_domain name partitions DefaultDomain e.

Definition fake_create_owned (name : TopicId) (partitions : Z) (creator : Principal) (e : Entries)
    : Entries * Res TopicCreateOutcome :=
  match en_tombstones e !! name with
  | Some _ => (e, Err TopicNameReserved)
  | None =>
      match en_by_name e !! name with
      | Some entry => (e, Ok (mkTopicCreateOutcome entry false))
      | None =>
          let entry := CatalogEntry_with_creator name partitions creator in
          (en_insert e entry, Ok (mkTopicCreateOutcome entry true))
      end
  end.

Definition fake_delete_topic (name : TopicId) (expected_id : option Z) (e : Entries) : Entries * Res TopicDeleteOutcome :=
  match en_tombstones e !! name with
  | Some id => (e, Ok (default (AlreadyDeleted id) (stale expected_id id)))
  | None =>
      match en_by_name e !! name with
      | None => (e, Ok MissingTopic)
      | Some entry =>
          match stale expected_id (ce_id entry) with
          | Some outcome => (e, Ok outcome)
          | None =>
              (mkEntries (delete name (en_by_name e)) (delete (ce_id entry) (en_by_id e))
                 (<[name := ce_id entry]> (en_tombstones e)) (delete name (en_retention_ms e)),
               Ok (Deleted entry))
          end
      end
  end.

Definition fake_topic_retention_ms (name : TopicId) (e : Entries) : Res (option Z) :=
  Ok (match en_by_name e !! name with Some _ => en_retention_ms e !! name | None => None end).

Definition fake_set_topic_retention_ms (name : TopicId) (retention_ms : option Z) (e : Entries)
    : Entries * Res TopicRetentionUpdate :=
  match en_by_name e !! name with
  | None => (e, Ok RetentionMissing)
  | Some _ =>
      (mkEntries (en_by_name e) (en_by_id e) (en_tombstones e)
         (match retention_ms with
          | Some value => <[name := value]> (en_retention_ms e)
          | None => delete name (en_retention_ms e)
          end),
       Ok (RetentionApplied retention_ms))
  end.

(** [BTreeMap::range] from the name after [after], in byte order. *)
Definition names_after (after : option TopicId) (e : Entries) : list (string * CatalogEntry) :=
  List.filter (fun ne => match after with Some a => bool_decide (String.compare a ne.1 = Lt) | None => true end)
    (merge_sort (fun x y => String.compare x.1 y.1 <> Gt) (map_to_list (en_by_name e))).

Definition fake_list (after : option TopicId) (limit : nat) (e : Entries) : Res (list TopicId) :=
  Ok (map fst (take limit (names_after after e))).
Definition fake_list_owned (creator : Principal) (after : option TopicId) (limit : nat) (e : Entries) : Res (list TopicId) :=
  Ok (map fst (take limit (List.filter (fun ne => bool_decide (ce_creator ne.2 = Some creator)) (names_after after e)))).

(** ** The format of an entry ([format.rs]) *)

Definition DEFAULT_FORMAT : Z := 1.
Definition CUSTOMER_FORMAT : Z := 2.
Definition OWNER_DEFAULT_FORMAT : Z := 3.
Definition OWNER_CUSTOMER_FORMAT : Z := 4.

(** A length that has to fit a [u16], in two bytes. *)
Definition u16_len (raw : bytes) (at_ : nat) : Res bytes :=
  if Z.of_nat (length raw) <=? u16_max then Ok (be_bytes 2 (Z.of_nat (length raw))) else Err (MalformedMetadataSegment (Z.of_nat at_)).

Definition encode_default (entry : CatalogEntry) : bytes :=
  [DEFAULT_FORMAT] ++ be_bytes 4 (ce_partitions entry) ++ as_bytes (ce_name entry).

Definition encode_owned_default (entry : CatalogEntry) (creator : Principal) : Res bytes :=
  let creator := as_bytes creator in
  let? creator_len := u16_len creator 5 in
  Ok ([OWNER_DEFAULT_FORMAT] ++ be_bytes 4 (ce_partitions entry) ++ creator_len ++ creator ++ as_bytes (ce_name entry)).

Definition encode_customer (entry : CatalogEntry) (key : bytes) : Res bytes :=
  let name := as_bytes (ce_name entry) in
  let? name_len := u16_len name 5 in
  let? key_len := u16_len key (7 + length name) in
  Ok ([CUSTOMER_FORMAT] ++ be_bytes 4 (ce_partitions entry) ++ name_len ++ name ++ key_len ++ key).

Definition encode_owned_customer (entry : CatalogEntry) (key creator : bytes) : Res bytes :=
  let name := as_bytes (ce_name entry) in
  let? name_len := u16_len name 5 in
  let? key_len := u16_len key (7 + length name) in
  let? creator_len := u16_len creator (9 + length name + length key) in
  Ok ([OWNER_CUSTOMER_FORMAT] ++ be_bytes 4 (ce_partitions entry) ++ name_len ++ name ++ key_len ++ key ++ creator_len ++ creator).

Definition ce_encode (entry : CatalogEntry) : Res bytes :=
  match ce_key_domain entry, ce_creator entry with
  | DefaultDomain, None => Ok (encode_default entry)
  | DefaultDomain, Some creator => encode_owned_default entry creator
  | Customer key, None => encode_customer entry (as_bytes key)
  | Customer key, Some creator => encode_owned_customer entry (as_bytes key) (as_bytes creator)
  end.

(** [bytes.get(a..b)] and [bytes.get(a..)]. *)
Definition get_range (a b : nat) (bs : bytes) : option bytes :=
  if (a <=? b)%nat && (b <=? length bs)%nat then Some (take (b - a) (drop a bs)) else None.
Definition get_from (a : nat) (bs : bytes) : option bytes := if (a <=? length bs)%nat then Some (drop a bs) else None.

(** What is read at [a], or malformed there. *)
Definition or_malformed {A} (o : option A) (at_ : nat) : Res A :=
  match o with Some a => Ok a | None => Err (MalformedMetadataSegment (Z.of_nat at_)) end.

(** UTF-8 that a constructor accepts. *)
Definition text (new : string -> Res string) (raw : bytes) : option string :=
  if utf8_valid raw then match new (of_bytes raw) with Ok t => Some t | _ => None end else None.

Definition u16_at (at_ : nat) (bs : bytes) : Res nat := or_malformed ((fun raw => Z.to_nat (from_be raw)) <$> get_range at_ (at_ + 2) bs) at_.

Definition decode_default (bs : bytes) (partitions : Z) : Res CatalogEntry :=
  let? name := or_malformed (get_from 5 bs ≫= text TopicId_new) 5 in
  Ok (CatalogEntry_new name partitions).

Definition decode_customer_prefix (bs : bytes) : Res (nat * TopicId * KeyDomain) :=
  let? name_len := u16_at 5 bs in
  let name_end := (7 + name_len)%nat in
  let? name := or_malformed (get_range 7 name_end bs ≫= text TopicId_new) 7 in
  let? key_len := u16_at name_end bs in
  let key_start := (name_end + 2)%nat in
  let key_end := (key_start + key_len)%nat in
  let? key := or_malformed (get_range key_start key_end bs ≫= text KeyId_new) key_start in
  Ok (key_end, name, Customer key).

(** [decode_customer] repeats the prefix, and then wants the end. *)
Definition decode_customer (bs : bytes) (partitions : Z) : Res CatalogEntry :=
  let? (key_end, name, domain) := decode_customer_prefix bs in
  if negb (key_end =? length bs)%nat then Err (MalformedMetadataSegment (Z.of_nat key_end))
  else Ok (CatalogEntry_with_key_domain name partitions domain).

Definition decode_owner_default (bs : bytes) (partitions : Z) : Res CatalogEntry :=
  let? creator_len := u16_at 5 bs in
  let creator_end := (7 + creator_len)%nat in
  let? creator := or_malformed (get_range 7 creator_end bs ≫= text Principal_new) 7 in
  let? name := or_malformed (get_from creator_end bs ≫= text TopicId_new) creator_end in
  Ok (CatalogEntry_with_creator name partitions creator).

Definition decode_owner_customer (bs : bytes) (partitions : Z) : Res CatalogEntry :=
  let? (key_end, name, domain) := decode_customer_prefix bs in
  let? creator_len := u16_at key_end bs in
  let creator_start := (key_end + 2)%nat in
  let creator_end := (creator_start + creator_len)%nat in
  if negb (creator_end =? length bs)%nat then Err (MalformedMetadataSegment (Z.of_nat creator_end))
  else
    let? creator := or_malformed (get_range creator_start creator_end bs ≫= text Principal_new) creator_start in
    Ok (CatalogEntry_with_key_domain_and_creator name partitions domain creator).

Definition ce_decode (bs : bytes) : Res CatalogEntry :=
  let? format := or_malformed (head bs) 0 in
  let? partitions := or_malformed (get_range 1 5 bs) 1 in
  let partitions := from_be partitions in
  if format =? DEFAULT_FORMAT then decode_default bs partitions
  else if format =? CUSTOMER_FORMAT then decode_customer bs partitions
  else if format =? OWNER_DEFAULT_FORMAT then decode_owner_default bs partitions
  else if format =? OWNER_CUSTOMER_FORMAT then decode_owner_customer bs partitions
  else Err (MalformedMetadataSegment 0).

(** [{byte:02x}], and [{id:032x}]. *)
Definition hex_digit (d : Z) : Ascii.ascii := if d <? 10 then ascii_of_byte (48 + d) else ascii_of_byte (87 + d).
Fixpoint hex_digits (width : nat) (n : Z) : list Ascii.ascii :=
  match width with
  | O => []
  | S width => hex_digits width (n / 16) ++ [hex_digit (n mod 16)]
  end.
Definition hex (bs : bytes) : string := String.string_of_list_ascii (concat (map (hex_digits 2) bs)).

Definition unhex_digit (c : Z) : option Z :=
  if (48 <=? c) && (c <=? 57) then Some (c - 48) else if (97 <=? c) && (c <=? 102) then Some (c - 97 + 10) else None.
Fixpoint unhex_pairs (raw : bytes) : option bytes :=
  match raw with
  | high :: low :: raw =>
      high ← unhex_digit high; low ← unhex_digit low; rest ← unhex_pairs raw; Some (Z.lor (Z.shiftl high 4) low :: rest)
  | _ => Some []
  end.
Definition unhex (text : string) : option bytes :=
  let raw := as_bytes text in if negb (Nat.even (length raw)) then None else unhex_pairs raw.

(** [str::strip_prefix]. *)
Fixpoint str_strip_prefix (prefix s : string) : option string :=
  match prefix, s with
  | EmptyString, s => Some s
  | String a prefix, String b s => if Ascii.eqb a b then str_strip_prefix prefix s else None
  | String _ _, EmptyString => None
  end.

(** ** The catalog as objects ([stored.rs], [delete.rs], [config.rs]) *)

Definition RACE_VISIBILITY_ATTEMPTS : nat := 64.
Definition RETENTION_FORMAT : Z := 1.

Section stored.
(** [T] is what a process keeps in memory, which the catalog has no part in;
    [prefix] is [shard.catalog_prefix()]. *)
Context {T : Type} (prefix : string).

Definition topics : string := prefix +:+ "/topic/".
Definition tombstones : string := prefix +:+ "/tombstone/".
Definition configs : string := prefix +:+ "/config/".
Definition owner_prefix (creator : Principal) : string := prefix +:+ "/owner/" +:+ hex (as_bytes creator) +:+ "/".

Definition topic_key (name : TopicId) : Res ObjectKey := ObjectKey_new (topics +:+ hex (as_bytes name)).
Definition tombstone_key (name : TopicId) : Res ObjectKey := ObjectKey_new (tombstones +:+ hex (as_bytes name)).
Definition id_key (id : Z) : Res ObjectKey := ObjectKey_new (prefix +:+ "/id/" +:+ String.string_of_list_ascii (hex_digits 32 id)).
Definition owner_key (creator : Principal) (name : TopicId) : Res ObjectKey :=
  ObjectKey_new (owner_prefix creator +:+ hex (as_bytes name)).
Definition retention_key (name : TopicId) : Res ObjectKey := ObjectKey_new (configs +:+ hex (as_bytes name)).

Notation Cat := (Prog T).

Definition ct_read (key : ObjectKey) : Cat (option bytes) :=
  let* answer := st_get key Full in
  match answer with
  | Ok bs => preturn (Some bs)
  | Err (ObjectNotFound _) => preturn None
  | Err other => pfail other
  | Panic => PDone Panic
  end.

Definition put_absent (key : ObjectKey) (body : bytes) : Cat bool :=
  let* answer := st_put key body (Some IfAbsent) in
  match answer with
  | Ok _ => preturn true
  | Err (PreconditionFailed _) => preturn false
  | Err other => pfail other
  | Panic => PDone Panic
  end.

(** The entry under a key, which has to be [name]'s. *)
Definition entry_at_key (key : ObjectKey) (name : TopicId) (at_ : Z) : Cat (option CatalogEntry) :=
  let* found := ct_read key in
  match found with
  | None => preturn None
  | Some bs =>
      let* entry := PDone (ce_decode bs) in
      if decide (ce_name entry = name) then preturn (Some entry) else pfail (MalformedMetadataSegment at_)
  end.

Definition find_entry (name : TopicId) : Cat (option CatalogEntry) :=
  let* key := PDone (topic_key name) in entry_at_key key name 5.

Definition tombstone_entry (name : TopicId) : Cat (option CatalogEntry) :=
  let* key := PDone (tombstone_key name) in entry_at_key key name 0.

Definition tombstone_id (name : TopicId) : Cat (option Z) :=
  let* entry := tombstone_entry name in preturn (ce_id <$> entry).

Definition ct_find (name : TopicId) : Cat (option CatalogEntry) :=
  let* gone := tombstone_id name in
  match gone with
  | Some _ => preturn None
  | None =>
      let* found := find_entry name in
      match found with
      | None => preturn None
      | Some entry =>
          let* key := PDone (id_key (ce_id entry)) in
          let* id_bytes := ct_read key in
          match id_bytes with
          | None => preturn None
          | Some id_bytes =>
              if decide (id_bytes = as_bytes name) then
                let* gone := tombstone_id name in
                match gone with Some _ => preturn None | None => preturn (Some entry) end
              else pfail (MalformedMetadataSegment 0)
          end
      end
  end.

Definition ct_find_id (id : Z) : Cat (option CatalogEntry) :=
  let* key := PDone (id_key id) in
  let* found := ct_read key in
  match found with
  | None => preturn None
  | Some bs =>
      let* name := PDone (or_malformed (text TopicId_new bs) 0) in
      let* entry := ct_find name in
      preturn (match entry with Some entry => if ce_id entry =? id then Some entry else None | None => None end)
  end.

Definition delete_live_indexes (entry : CatalogEntry) : Cat unit :=
  let name := ce_name entry in
  let* topic := PDone (topic_key name) in
  let* id := PDone (id_key (ce_id entry)) in
  let* retention := PDone (retention_key name) in
  let* owner := match ce_creator entry with
                | Some creator => let* key := PDone (owner_key creator name) in preturn [key]
                | None => preturn []
                end in
  ask (st_delete ([topic; id; retention] ++ owner)).

Definition reject_if_tombstoned (entry : CatalogEntry) : Cat unit :=
  let* gone := tombstone_id (ce_name entry) in
  match gone with
  | Some _ => let* _ := delete_live_indexes entry in pfail TopicNameReserved
  | None => preturn tt
  end.

(** The body of [find_after_race]'s loop, [n] more times. *)
Fixpoint race_loop (n : nat) (name : TopicId) : Cat CatalogEntry :=
  match n with
  | O => pfail Transient
  | S n =>
      let* gone := tombstone_id name in
      match gone with
      | Some _ => pfail TopicNameReserved
      | None =>
          let* found := find_entry name in
          match found with
          | None => race_loop n name
          | Some entry =>
              let* key := PDone (id_key (ce_id entry)) in
              let* _ := put_absent key (as_bytes name) in
              let* again := ct_find name in
              match again with Some _ => preturn entry | None => race_loop n name end
          end
      end
  end.

Definition find_after_race (name : TopicId) : Cat CatalogEntry :=
  let* gone := tombstone_id name in
  match gone with
  | Some _ => pfail TopicNameReserved
  | None => race_loop RACE_VISIBILITY_ATTEMPTS name
  end.

Definition insert_with_key_domain (name : TopicId) (partitions : Z) (key_domain : KeyDomain) : Cat CatalogEntry :=
  let* gone := tombstone_id name in
  match gone with
  | Some _ => pfail TopicNameReserved
  | None =>
      let entry := CatalogEntry_with_key_domain name partitions key_domain in
      let* key := PDone (topic_key name) in
      let* body := PDone (ce_encode entry) in
      let* fresh := put_absent key body in
      if (fresh : bool) then
        let* key := PDone (id_key (ce_id entry)) in
        let* _ := put_absent key (as_bytes name) in
        let* _ := reject_if_tombstoned entry in
        preturn entry
      else find_after_race name
  end.

Definition ct_insert (name : TopicId) (partitions : Z) : Cat CatalogEntry := insert_with_key_domain name partitions DefaultDomain.

Definition insert_owned (name : TopicId) (partitions : Z) (creator : Principal) : Cat TopicCreateOutcome :=
  let* gone := tombstone_id name in
  match gone with
  | Some _ => pfail TopicNameReserved
  | None =>
      let entry := CatalogEntry_with_creator name partitions creator in
      let* body := PDone (ce_encode entry) in
      let* owner := PDone (owner_key creator name) in
      let* _ := put_absent owner [] in
      let* key := PDone (topic_key name) in
      let* created := put_absent key body in
      if negb created then
        let* entry := find_after_race name in preturn (mkTopicCreateOutcome entry false)
      else
        let* key := PDone (id_key (ce_id entry)) in
        let* _ := put_absent key (as_bytes name) in
        let* _ := reject_if_tombstoned entry in
        preturn (mkTopicCreateOutcome entry created)
  end.

(** The end of a deletion that found a tombstone. *)
Definition already_deleted (tombstone : CatalogEntry) (expected_id : option Z) : Cat TopicDeleteOutcome :=
  match stale expected_id (ce_id tombstone) with
  | Some outcome => preturn outcome
  | None => let* _ := delete_live_indexes tombstone in preturn (AlreadyDeleted (ce_id tombstone))
  end.

Definition delete_topic (name : TopicId) (expected_id : option Z) : Cat TopicDeleteOutcome :=
  let* tombstone := tombstone_entry name in
  match tombstone with
  | Some tombstone => already_deleted tombstone expected_id
  | None =>
      let* found := find_entry name in
      match found with
      | None => preturn MissingTopic
      | Some entry =>
          match stale expected_id (ce_id entry) with
          | Some outcome => preturn outcome
          | None =>
              let* key := PDone (tombstone_key name) in
              let* body := PDone (ce_encode entry) in
              let* fresh := put_absent key body in
              if negb fresh then
                let* tombstone := tombstone_entry name in
                match tombstone with
                | None => pfail Transient
                | Some tombstone => already_deleted tombstone expected_id
                end
              else
                let* _ := delete_live_indexes entry in preturn (Deleted entry)
          end
      end
  end.

Definition read_retention (name : TopicId) : Cat (option Z) :=
  let* live := ct_find name in
  match live with
  | None => preturn None
  | Some _ =>
      let* key := PDone (retention_key name) in
      let* found := ct_read key in
      match found with
      | None => preturn None
      | Some bs =>
          if negb (length bs =? 9)%nat || negb (bool_decide (head bs = Some RETENTION_FORMAT))
          then pfail (MalformedMetadataSegment 0)
          else preturn (Some (from_be_signed 8 (drop 1 bs)))
      end
  end.

Definition write_retention (name : TopicId) (retention_ms : option Z) : Cat TopicRetentionUpdate :=
  let* live := ct_find name in
  match live with
  | None => preturn RetentionMissing
  | Some _ =>
      let* key := PDone (retention_key name) in
      let* _ := match retention_ms with
                | Some value => let* _ := ask (st_put key ([RETENTION_FORMAT] ++ be_signed 8 value) None) in preturn tt
                | None => ask (st_delete [key])
                end in
      let* live := ct_find name in
      preturn (match live with None => RetentionMissing | Some _ => RetentionApplied retention_ms end)
  end.

(** *** Pages of names

    [page] and [owned_page] walk the keys under a prefix and keep the names of
    those topics that a lookup finds and that they [accept]; the first stops after
    a page that is [short].  [turns] bounds the pages. *)

Fixpoint walk_keys (decode : ObjectKey -> Res TopicId) (accept : CatalogEntry -> bool) (limit : nat) (keys : list ObjectKey)
    (names : list TopicId) : Cat (list TopicId) :=
  match keys with
  | [] => preturn names
  | key :: keys =>
      let* name := PDone (decode key) in
      let* found := ct_find name in
      if from_option accept false found then
        let names := names ++ [name] in
        if (length names =? limit)%nat then preturn names else walk_keys decode accept limit keys names
      else walk_keys decode accept limit keys names
  end.

Fixpoint walk_pages (turns : nat) (under : string) (decode : ObjectKey -> Res TopicId) (accept : CatalogEntry -> bool)
    (stop_short : bool) (limit : nat) (cursor : option ObjectKey) (names : list TopicId) : Cat (list TopicId) :=
  match turns with
  | O => PDone Panic
  | S turns =>
      if (length names <? limit)%nat then
        let requested := (limit - length names)%nat in
        let* keys := ask (st_list under cursor requested) in
        match last keys with
        | None => preturn names
        | Some last =>
            let short := (length keys <? requested)%nat in
            let* names := walk_keys decode accept limit keys names in
            if (length names =? limit)%nat || (stop_short && short) then preturn names
            else walk_pages turns under decode accept stop_short limit (Some last) names
        end
      else preturn names
  end.

Definition page_name (key : ObjectKey) : Res TopicId :=
  or_malformed (hex_name ← str_strip_prefix topics key; raw ← unhex hex_name; text TopicId_new raw) 0.

Definition page (turns : nat) (after : option TopicId) (limit : nat) : Cat (list TopicId) :=
  let* cursor := match after with Some name => let* key := PDone (topic_key name) in preturn (Some key) | None => preturn None end in
  walk_pages turns topics page_name (fun _ => true) true limit cursor [].

Definition owned_name (creator : Principal) (key : ObjectKey) : Res TopicId :=
  let under := owner_prefix creator in
  let? hex_name := or_malformed (str_strip_prefix under key) 0 in
  or_malformed (unhex hex_name ≫= text TopicId_new) (String.length under).

Definition owned_page (turns : nat) (creator : Principal) (after : option TopicId) (limit : nat) : Cat (list TopicId) :=
  let* cursor := match after with
                 | Some name => let* key := PDone (owner_key creator name) in preturn (Some key)
                 | None => preturn None
                 end in
  walk_pages turns (owner_prefix creator) (owned_name creator) (fun entry => bool_decide (ce_creator entry = Some creator)) false limit cursor [].

(** ** The operations of the trait, as the nodes of a shard run them *)

Inductive CatalogOp : Type :=
| CatLookup (name : TopicId)
| CatLookupId (id : Z)
| CatCreate (name : TopicId) (partitions : Z) (key_domain : KeyDomain)
| CatCreateOwned (name : TopicId) (partitions : Z) (creator : Principal)
| CatDelete (name : TopicId) (expected_id : option Z)
| CatRetention (name : TopicId)
| CatSetRetention (name : TopicId) (retention_ms : option Z)
| CatList (turns : nat) (after : option TopicId) (limit : nat)
| CatListOwned (turns : nat) (creator : Principal) (after : option TopicId) (limit : nat).

Inductive CatalogAnswer : Type :=
| AnsEntry (entry : option CatalogEntry)
| AnsCreated (outcome : TopicCreateOutcome)
| AnsDeleted (outcome : TopicDeleteOutcome)
| AnsRetention (retention_ms : option Z)
| AnsRetentionSet (update : TopicRetentionUpdate)
| AnsNames (names : list TopicId).

Definition catalog_code (i : nat) (op : CatalogOp) : Cat CatalogAnswer :=
  match op with
  | CatLookup name => let* e := ct_find name in preturn (AnsEntry e)
  | CatLookupId id => let* e := ct_find_id id in preturn (AnsEntry e)
  | CatCreate name partitions domain => let* e := insert_with_key_domain name partitions domain in preturn (AnsEntry (Some e))
  | CatCreateOwned name partitions creator => let* o := insert_owned name partitions creator in preturn (AnsCreated o)
  | CatDelete name expected_id => let* o := delete_topic name expected_id in preturn (AnsDeleted o)
  | CatRetention name => let* r := read_retention name in preturn (AnsRetention r)
  | CatSetRetention name retention_ms => let* u := write_retention name retention_ms in preturn (AnsRetentionSet u)
  | CatList turns after limit => let* names := page turns after limit in preturn (AnsNames names)
  | CatListOwned turns creator after limit => let* names := owned_page turns creator after limit in preturn (AnsNames names)
  end.
End stored.
