(* ===== verification/CatalogProps.v ===== *)
(** * CatalogProps: one topic per name, and none after it is deleted

    The format of an entry round-trips; and, for any number of nodes working on
    one shard's objects at once, what the catalog answers about a name agrees,
    and a deleted name stays deleted. *)

From stdpp Require Import base tactics list numbers strings gmap functions relations.
From Stdlib Require Import ZArith Lia Ascii.
From S2P Require Import Prelude Bytes Types Store Machine Segment SegmentProps StoreLog Bundle Stream Merge Authz Catalog.

Open Scope Z_scope.

(** ** The format *)

Record entry_ok (e : CatalogEntry) : Prop := {
  eo_name : name_wf (ce_name e);
  eo_id : ce_id e = topic_uuid (ce_name e);
  eo_partitions : in_u32 (ce_partitions e);
  eo_domain : match ce_key_domain e with Customer key => is_str key /\ KeyId_new key = Ok key | DefaultDomain => True end;
  eo_creator : match ce_creator e with Some c => name_wf c | None => True end;
}.

Lemma get_range_at pre mid post bs a b :
  bs = pre ++ mid ++ post -> a = length pre -> b = (a + length mid)%nat -> get_range a b bs = Some mid.
Proof.
  intros -> -> ->. unfold get_range. rewrite !length_app. rewrite !(proj2 (Nat.leb_le _ _)) by lia. simpl.
  by rewrite drop_app_length, Nat.add_sub', take_app_length.
Qed.

Lemma get_from_at pre post bs a : bs = pre ++ post -> a = length pre -> get_from a bs = Some post.
Proof. intros -> ->. unfold get_from. rewrite length_app, (proj2 (Nat.leb_le _ _)) by lia. by rewrite drop_app_length. Qed.

Lemma u16_at_of pre raw post bs lenb a at_ :
  u16_len raw at_ = Ok lenb -> bs = pre ++ lenb ++ post -> a = length pre -> u16_at a bs = Ok (length raw).
Proof.
  unfold u16_len. destruct (_ <=? _) eqn:Hle; [|done]. intros [= <-] Hbs Ha. zbool. unfold u16_at.
  rewrite (get_range_at pre (be_bytes 2 (Z.of_nat (length raw))) post) by (done || by rewrite be_bytes_length). simpl.
  rewrite from_be_be; [by rewrite Nat2Z.id|]. change (256 ^ Z.of_nat 2) with 65536. unfold u16_max in *; lia.
Qed.

Lemma u16_len_2 raw at_ lenb : u16_len raw at_ = Ok lenb -> length lenb = 2%nat.
Proof. unfold u16_len. case_match; [|done]. intros [= <-]. apply be_bytes_length. Qed.

Lemma text_as_bytes new s : is_str s -> new s = Ok s -> text new (as_bytes s) = Some s.
Proof. unfold text, is_str. intros -> Hn. by rewrite of_as_bytes, Hn. Qed.

Lemma text_topic s : name_wf s -> text TopicId_new (as_bytes s) = Some s.
Proof. intros [Hs Hne]. apply text_as_bytes; [done|]. unfold TopicId_new. by rewrite decide_False. Qed.
Lemma text_principal s : name_wf s -> text Principal_new (as_bytes s) = Some s.
Proof. intros [Hs Hne]. apply text_as_bytes; [done|]. unfold Principal_new. by rewrite decide_False. Qed.

(** The first five bytes. *)
Lemma decode_front f p rest :
  in_u32 p ->
  ce_decode ([f] ++ be_bytes 4 p ++ rest) =
    let bs := [f] ++ be_bytes 4 p ++ rest in
    if f =? DEFAULT_FORMAT then decode_default bs p
    else if f =? CUSTOMER_FORMAT then decode_customer bs p
    else if f =? OWNER_DEFAULT_FORMAT then decode_owner_default bs p
    else if f =? OWNER_CUSTOMER_FORMAT then decode_owner_customer bs p
    else Err (MalformedMetadataSegment 0).
Proof.
  intros Hp. unfold ce_decode. cbn [head app or_malformed res_bind].
  rewrite (get_range_at [f] (be_bytes 4 p) rest) by (done || by rewrite be_bytes_length). cbn [or_malformed res_bind].
  rewrite from_be_be; [done|]. change (256 ^ Z.of_nat 4) with (2 ^ 32). mlia.
Qed.

(** The name and the key of the customer formats. *)
Lemma decode_prefix_of f p name key name_len key_len at1 at2 rest bs :
  name_wf name -> is_str key -> KeyId_new key = Ok key ->
  u16_len (as_bytes name) at1 = Ok name_len -> u16_len (as_bytes key) at2 = Ok key_len ->
  bs = [f] ++ be_bytes 4 p ++ name_len ++ as_bytes name ++ key_len ++ as_bytes key ++ rest ->
  decode_customer_prefix bs = Ok ((9 + length (as_bytes name) + length (as_bytes key))%nat, name, Customer key).
Proof.
  intros Hn Hk Hkn H1 H2 Hbs. pose proof (u16_len_2 _ _ _ H1) as L1. pose proof (u16_len_2 _ _ _ H2) as L2.
  pose proof (be_bytes_length 4 p) as L4. unfold decode_customer_prefix.
  rewrite (u16_at_of ([f] ++ be_bytes 4 p) (as_bytes name) (as_bytes name ++ key_len ++ as_bytes key ++ rest) bs _ _ _ H1)
    by (by rewrite ?Hbs, <-?app_assoc || (rewrite length_app, L4; done)). cbn [res_bind].
  rewrite (get_range_at ([f] ++ be_bytes 4 p ++ name_len) (as_bytes name) (key_len ++ as_bytes key ++ rest))
    by (by rewrite ?Hbs, <-?app_assoc || (rewrite ?length_app, ?L4, ?L1; done)). cbn [mbind option_bind].
  rewrite text_topic by done. cbn [or_malformed res_bind].
  rewrite (u16_at_of ([f] ++ be_bytes 4 p ++ name_len ++ as_bytes name) (as_bytes key) (as_bytes key ++ rest) bs _ _ _ H2)
    by (by rewrite ?Hbs, <-?app_assoc || (rewrite ?length_app, ?L4, ?L1; simpl; lia)). cbn [res_bind].
  rewrite (get_range_at ([f] ++ be_bytes 4 p ++ name_len ++ as_bytes name ++ key_len) (as_bytes key) rest)
    by (by rewrite ?Hbs, <-?app_assoc || (rewrite ?length_app, ?L4, ?L1, ?L2; simpl; lia)). cbn [mbind option_bind].
  rewrite (text_as_bytes KeyId_new key) by done. cbn [or_malformed res_bind]. do 3 f_equal. lia.
Qed.

Lemma decode_encode e b : entry_ok e -> ce_encode e = Ok b -> ce_decode b = Ok e.
Proof.
  destruct e as [name id p domain creator]. intros [Hn Hid Hp Hd Hc]. simpl in *. subst id. unfold ce_encode. cbn [ce_key_domain ce_creator].
  pose proof (be_bytes_length 4 p) as L4. destruct domain as [|key], creator as [c|].
  - unfold encode_owned_default. cbn [ce_name ce_partitions]. cbv zeta. intros (cl & H1 & <-%Ok_inj)%res_bind_Ok. pose proof (u16_len_2 _ _ _ H1) as L1.
    rewrite (decode_front OWNER_DEFAULT_FORMAT p) by done. cbn [Z.eqb]. cbv beta zeta. simpl (_ =? _). cbn iota. unfold decode_owner_default.
    rewrite (u16_at_of ([OWNER_DEFAULT_FORMAT] ++ be_bytes 4 p) (as_bytes c) (as_bytes c ++ as_bytes name) _ _ _ _ H1)
      by (by rewrite <-?app_assoc || (rewrite length_app, L4; done)). cbn [res_bind].
    rewrite (get_range_at ([OWNER_DEFAULT_FORMAT] ++ be_bytes 4 p ++ cl) (as_bytes c) (as_bytes name))
      by (by rewrite <-?app_assoc || (rewrite ?length_app, ?L4, ?L1; done)). cbn [mbind option_bind].
    rewrite text_principal by done. cbn [or_malformed res_bind].
    rewrite (get_from_at ([OWNER_DEFAULT_FORMAT] ++ be_bytes 4 p ++ cl ++ as_bytes c) (as_bytes name))
      by (by rewrite <-?app_assoc || (rewrite ?length_app, ?L4, ?L1; simpl; lia)). cbn [mbind option_bind].
    by rewrite text_topic by done.
  - unfold encode_default. cbn [ce_name ce_partitions]. intros <-%Ok_inj. rewrite (decode_front DEFAULT_FORMAT p) by done. simpl (_ =? _). cbn iota. unfold decode_default.
    rewrite (get_from_at ([DEFAULT_FORMAT] ++ be_bytes 4 p) (as_bytes name)) by (by rewrite <-?app_assoc || (rewrite length_app, L4; done)).
    cbn [mbind option_bind]. by rewrite text_topic by done.
  - unfold encode_owned_customer. cbn [ce_name ce_partitions]. cbv zeta. intros (nl & H1 & (kl & H2 & (cl & H3 & <-%Ok_inj)%res_bind_Ok)%res_bind_Ok)%res_bind_Ok.
    pose proof (u16_len_2 _ _ _ H1) as L1. pose proof (u16_len_2 _ _ _ H2) as L2. pose proof (u16_len_2 _ _ _ H3) as L3.
    rewrite (decode_front OWNER_CUSTOMER_FORMAT p) by done. simpl (_ =? _). cbn iota zeta. unfold decode_owner_customer.
    destruct Hd as [Hk Hkn].
    rewrite (decode_prefix_of OWNER_CUSTOMER_FORMAT p name key nl kl _ _ (cl ++ as_bytes c) _ Hn Hk Hkn H1 H2) by done.
    cbn [res_bind].
    set (bs := [OWNER_CUSTOMER_FORMAT] ++ be_bytes 4 p ++ nl ++ as_bytes name ++ kl ++ as_bytes key ++ cl ++ as_bytes c).
    rewrite (u16_at_of ([OWNER_CUSTOMER_FORMAT] ++ be_bytes 4 p ++ nl ++ as_bytes name ++ kl ++ as_bytes key) (as_bytes c) (as_bytes c) bs _ _ _ H3)
      by (by unfold bs; rewrite <-?app_assoc || (rewrite ?length_app, ?L4, ?L1, ?L2; simpl; lia)). cbn [res_bind].
    rewrite (proj2 (Nat.eqb_eq _ _)) by (unfold bs; rewrite ?length_app, ?L4, ?L1, ?L2, ?L3; simpl; lia). cbn [negb].
    rewrite (get_range_at ([OWNER_CUSTOMER_FORMAT] ++ be_bytes 4 p ++ nl ++ as_bytes name ++ kl ++ as_bytes key ++ cl) (as_bytes c) [])
      by (by unfold bs; rewrite <-?app_assoc, ?app_nil_r || (rewrite ?length_app, ?L4, ?L1, ?L2, ?L3; simpl; lia)).
    cbn [mbind option_bind]. by rewrite text_principal by done.
  - unfold encode_customer. cbn [ce_name ce_partitions]. cbv zeta. intros (nl & H1 & (kl & H2 & <-%Ok_inj)%res_bind_Ok)%res_bind_Ok.
    pose proof (u16_len_2 _ _ _ H1) as L1. pose proof (u16_len_2 _ _ _ H2) as L2. destruct Hd as [Hk Hkn].
    rewrite (decode_front CUSTOMER_FORMAT p) by done. simpl (_ =? _). cbn iota zeta. unfold decode_customer.
    rewrite (decode_prefix_of CUSTOMER_FORMAT p name key nl kl _ _ [] _ Hn Hk Hkn H1 H2) by (by rewrite app_nil_r).
    cbn [res_bind]. rewrite (proj2 (Nat.eqb_eq _ _)) by (rewrite ?length_app, ?L4, ?L1, ?L2; simpl; lia). done.
Qed.

(** ** Keys *)

Lemma hex_digit_inj a b : 0 <= a < 16 -> 0 <= b < 16 -> hex_digit a = hex_digit b -> a = b.
Proof.
  intros Ha Hb Heq. unfold hex_digit in Heq. apply (f_equal byte_of_ascii) in Heq. revert Heq.
  destruct (Z.ltb_spec a 10), (Z.ltb_spec b 10); rewrite !byte_of_ascii_of_byte by (unfold is_byte, u8_max; lia); lia.
Qed.

Lemma hex_byte_inj a b : is_byte a -> is_byte b -> hex_digits 2 a = hex_digits 2 b -> a = b.
Proof.
  unfold is_byte, u8_max. intros Ha Hb [= H1 H2]. pose proof (Z.div_mod a 16). pose proof (Z.div_mod b 16).
  pose proof (Z.mod_pos_bound a 16). pose proof (Z.mod_pos_bound b 16).
  pose proof (Z.mod_pos_bound (a / 16) 16). pose proof (Z.mod_pos_bound (b / 16) 16).
  apply hex_digit_inj in H1; [|lia..]. apply hex_digit_inj in H2; [|lia..].
  rewrite (Z.mod_small (a / 16)), (Z.mod_small (b / 16)) in H1; [lia|split; [apply Z.div_pos|apply Z.div_lt_upper_bound]; lia..].
Qed.

Lemma hex_inj bs bs' : Forall is_byte bs -> Forall is_byte bs' -> hex bs = hex bs' -> bs = bs'.
Proof.
  intros Hb Hb' Heq. apply (f_equal String.list_ascii_of_string) in Heq. unfold hex in Heq.
  rewrite !String.list_ascii_of_string_of_list_ascii in Heq. revert bs' Hb' Heq.
  induction Hb as [|b bs Hb _ IH]; intros [|b' bs'] Hb'; simpl; intros Heq; [done..|].
  apply Forall_cons in Hb' as [Hb' Hbs']. injection Heq as H1 H2 H3.
  f_equal; [|by apply IH]. apply hex_byte_inj; [done..|]. simpl. by rewrite H1, H2.
Qed.

Lemma as_bytes_inj a b : as_bytes a = as_bytes b -> a = b.
Proof. intros H. by rewrite <-(of_as_bytes a), <-(of_as_bytes b), H. Qed.

Lemma as_bytes_is_byte s : Forall is_byte (as_bytes s).
Proof.
  apply List.Forall_map, Forall_forall. intros a _. unfold is_byte, byte_of_ascii, u8_max.
  pose proof (Ascii.N_ascii_bounded a). lia.
Qed.

Lemma hex_name_inj a b : hex (as_bytes a) = hex (as_bytes b) -> a = b.
Proof. intros H%hex_inj; [by apply as_bytes_inj|apply as_bytes_is_byte..]. Qed.

Section catalog.
Context {T : Type} (prefix : string).

Definition tk (name : TopicId) : string := topics prefix +:+ hex (as_bytes name).
Definition sk (name : TopicId) : string := tombstones prefix +:+ hex (as_bytes name).

(** A key of neither a topic nor a tombstone. *)
Definition other_key (key : string) : Prop := forall n, key <> tk n /\ key <> sk n.

Lemma string_app_assoc (a b c : string) : (a +:+ b) +:+ c = a +:+ b +:+ c.
Proof. induction a as [|x a IH]; [done|]. change (String x ((a +:+ b) +:+ c) = String x (a +:+ b +:+ c)). by rewrite IH. Qed.

Lemma tk_inj a b : tk a = tk b -> a = b.
Proof. unfold tk. intros H. apply (inj _) in H. by apply hex_name_inj. Qed.
Lemma sk_inj a b : sk a = sk b -> a = b.
Proof. unfold sk. intros H. apply (inj _) in H. by apply hex_name_inj. Qed.
Lemma tk_sk a b : tk a <> sk b.
Proof. unfold tk, sk, topics, tombstones. rewrite !string_app_assoc. (intros H; by apply (inj _) in H). Qed.

Lemma other_config n : other_key (configs prefix +:+ hex (as_bytes n)).
Proof. unfold other_key, tk, sk, topics, tombstones, configs. intros m. rewrite !string_app_assoc. split; (intros H; by apply (inj _) in H). Qed.
Lemma other_owner c n : other_key (owner_prefix prefix c +:+ hex (as_bytes n)).
Proof. unfold other_key, tk, sk, topics, tombstones, owner_prefix. intros m. rewrite !string_app_assoc. split; (intros H; by apply (inj _) in H). Qed.
Lemma other_id id : other_key (prefix +:+ "/id/" +:+ String.string_of_list_ascii (hex_digits 32 id)).
Proof. unfold other_key, tk, sk, topics, tombstones. intros m. rewrite !string_app_assoc. split; (intros H; by apply (inj _) in H). Qed.

(** A key that follows a prefix and a separator is not empty. *)
Lemma key_new a b c : b <> EmptyString -> ObjectKey_new (a +:+ b +:+ c) = Ok (a +:+ b +:+ c).
Proof. intros Hb. unfold ObjectKey_new. rewrite decide_False; [done|]. destruct a, b; done. Qed.

Lemma topic_key_new n : topic_key prefix n = Ok (tk n).
Proof. unfold topic_key, tk, topics. rewrite string_app_assoc. by apply key_new. Qed.
Lemma tombstone_key_new n : tombstone_key prefix n = Ok (sk n).
Proof. unfold tombstone_key, sk, tombstones. rewrite string_app_assoc. by apply key_new. Qed.
Lemma other_key_new r : 
  (exists id, r = id_key prefix id) \/ (exists c n, r = owner_key prefix c n) \/ (exists n, r = retention_key prefix n) ->
  exists key, r = Ok key /\ other_key key.
Proof.
  intros [(id & ->)|[(c & n & ->)|(n & ->)]].
  - eexists. split; [by apply key_new|apply other_id].
  - pose proof (other_owner c n) as Ho. unfold owner_key, owner_prefix in *. rewrite !string_app_assoc in *.
    eexists. split; [by apply key_new|done].
  - pose proof (other_config n) as Ho. unfold retention_key, configs in *. rewrite !string_app_assoc in *.
    eexists. split; [by apply key_new|done].
Qed.

(** ** The invariant *)

(** Ghost state: the entry each name was given. *)
Notation CView := (View T (gmap string CatalogEntry)).

Definition tombstoned (v : CView) (n : TopicId) : Prop := is_Some (v_objects v !! sk n).
Definition given (v : CView) (n : TopicId) (e : CatalogEntry) : Prop := v_ghost v !! n = Some e.

Record cat_inv (v : CView) : Prop := {
  ca_given : forall n e, given v n e -> entry_ok e /\ ce_name e = n;
  ca_topic : forall n b token, v_objects v !! sk n = None -> v_objects v !! tk n = Some (b, token) ->
    exists e, given v n e /\ ce_encode e = Ok b;
  ca_live : forall n e, given v n e -> v_objects v !! sk n = None -> is_Some (v_objects v !! tk n);
  ca_tomb : forall n b token, v_objects v !! sk n = Some (b, token) -> exists e, given v n e /\ ce_encode e = Ok b;
}.

(** What anyone does: names keep their entries, and tombstones stay. *)
Definition cat_grows (v v' : CView) : Prop :=
  (forall n e, given v n e -> given v' n e) /\ (forall n, tombstoned v n -> tombstoned v' n).
Definition cat_rely (i : nat) : CView -> CView -> Prop := cat_grows.

Lemma cat_grows_refl v : cat_grows v v.
Proof. by split. Qed.
Lemma cat_grows_trans v1 v2 v3 : cat_grows v1 v2 -> cat_grows v2 v3 -> cat_grows v1 v3.
Proof. intros [H1 H2] [H3 H4]. split; auto. Qed.

(** What a reader that saw [e] for [n] knows from then on. *)
Definition seen_entry (v : CView) (n : TopicId) (e : CatalogEntry) : Prop := given v n e \/ tombstoned v n.

Lemma seen_entry_grows v v' n e : cat_grows v v' -> seen_entry v n e -> seen_entry v' n e.
Proof. intros [H1 H2] [H|H]; [left; auto|right; auto]. Qed.

Lemma seen_entry_given v n e : seen_entry v n e -> v_objects v !! sk n = None -> given v n e.
Proof. intros [H|[x Hx]] Hn; [done|congruence]. Qed.

(** ** The kinds of change *)

(** Objects of neither kind come and go. *)
Lemma others_ok (v : CView) m' :
  cat_inv v -> (forall n, m' !! tk n = v_objects v !! tk n /\ m' !! sk n = v_objects v !! sk n) ->
  let v' := mkView m' (v_local v) (v_clock v) (v_ghost v) in cat_inv v' /\ cat_grows v v'.
Proof.
  intros [H1 H2 H3 H4] Hm v'. split; [split; simpl|split; [done|]].
  - apply H1.
  - intros n b token. destruct (Hm n) as [-> ->]. apply H2.
  - intros n e Hg. destruct (Hm n) as [-> ->]. by eapply H3.
  - intros n b token. destruct (Hm n) as [_ ->]. apply H4.
  - intros n. unfold tombstoned. simpl. by destruct (Hm n) as [_ ->].
Qed.

(** A name is given its entry: unless it is tombstoned, for the first time. *)
Definition give (v : CView) (n : TopicId) (e : CatalogEntry) : gmap string CatalogEntry :=
  match v_objects v !! sk n with Some _ => v_ghost v | None => <[n := e]> (v_ghost v) end.

Lemma put_topic_ok (v : CView) n e b token :
  cat_inv v -> entry_ok e -> ce_name e = n -> ce_encode e = Ok b -> v_objects v !! tk n = None ->
  let v' := mkView (<[tk n := (b, token)]> (v_objects v)) (v_local v) (v_clock v) (give v n e) in
  cat_inv v' /\ cat_grows v v' /\ seen_entry v' n e.
Proof.
  intros Hi He Hn Hb Habs v'.
  assert (forall m, v_objects v' !! sk m = v_objects v !! sk m) as Hsk.
  { intros m. simpl. apply lookup_insert_ne. intros H. by apply tk_sk in H. }
  assert (forall m, m <> n -> v_objects v' !! tk m = v_objects v !! tk m) as Htk.
  { intros m Hm. simpl. apply lookup_insert_ne. intros H. by apply tk_inj in H. }
  assert (v_objects v' !! tk n = Some (b, token)) as Hnew by apply lookup_insert_eq.
  assert (v_ghost v' = give v n e) as Hgh by done. unfold give in Hgh. clearbody v'. unfold given, seen_entry, tombstoned.
  destruct (v_objects v !! sk n) as [x|] eqn:Hs.
  - split; [split; unfold given; rewrite ?Hgh|split; [split; unfold given, tombstoned; rewrite ?Hgh|]]; try done.
    + apply Hi.
    + intros m b' token'. rewrite Hsk. destruct (decide (m = n)) as [->|Hm]; [congruence|]. rewrite Htk by done. apply Hi.
    + intros m e'. rewrite Hsk. intros Hg Hnone. destruct (decide (m = n)) as [->|Hm]; [congruence|]. rewrite Htk by done.
      exact (ca_live _ Hi m e' Hg Hnone).
    + intros m b' token'. rewrite Hsk. apply Hi.
    + intros m. by rewrite Hsk.
    + right. by rewrite Hsk, Hs.
  - assert (v_ghost v !! n = None) as Hfresh.
    { destruct (v_ghost v !! n) as [e0|] eqn:Hg; [|done]. destruct (ca_live _ Hi n e0 Hg Hs). congruence. }
    split; [split; unfold given; rewrite ?Hgh|split; [split; unfold given, tombstoned; rewrite ?Hgh|]].
    + intros m e'. rewrite lookup_insert_Some. intros [[<- <-]|[_ Hg]]; [done|]. by apply Hi.
    + intros m b' token'. rewrite Hsk. destruct (decide (m = n)) as [->|Hm].
      * rewrite Hnew. intros _ [= <- <-]. exists e. split; [apply lookup_insert_eq|done].
      * rewrite Htk by done. intros Hno Hb'. destruct (ca_topic _ Hi m b' token' Hno Hb') as (e' & Hg & He').
        exists e'. by rewrite lookup_insert_ne by done.
    + intros m e'. rewrite Hsk, lookup_insert_Some. intros [[<- <-]|[Hm Hg]] Hno; [by rewrite Hnew|].
      rewrite (Htk m) by done. exact (ca_live _ Hi m e' Hg Hno).
    + intros m b' token'. rewrite Hsk. intros Hb'. destruct (ca_tomb _ Hi m b' token' Hb') as (e' & Hg & He').
      exists e'. split; [|done]. rewrite lookup_insert_ne; [done|]. intros <-. congruence.
    + intros m e' Hg. rewrite lookup_insert_ne; [done|]. intros <-. congruence.
    + intros m. by rewrite Hsk.
    + left. unfold given. rewrite Hgh. apply lookup_insert_eq.
Qed.

(** A name is tombstoned, with the entry it was given. *)
Lemma put_tombstone_ok (v : CView) n e b token :
  cat_inv v -> given v n e -> ce_encode e = Ok b -> v_objects v !! sk n = None ->
  let v' := mkView (<[sk n := (b, token)]> (v_objects v)) (v_local v) (v_clock v) (v_ghost v) in
  cat_inv v' /\ cat_grows v v' /\ tombstoned v' n.
Proof.
  intros Hi Hg Hb Habs v'.
  assert (forall m, v_objects v' !! tk m = v_objects v !! tk m) as Htk.
  { intros m. simpl. apply lookup_insert_ne. intros H. symmetry in H. by apply tk_sk in H. }
  assert (forall m, m <> n -> v_objects v' !! sk m = v_objects v !! sk m) as Hsk.
  { intros m Hm. simpl. apply lookup_insert_ne. intros H. by apply sk_inj in H. }
  assert (v_objects v' !! sk n = Some (b, token)) as Hnew by apply lookup_insert_eq.
  split; [split|split; [split; [done|]|]].
  - apply Hi.
  - intros m b' token'. rewrite Htk. destruct (decide (m = n)) as [->|Hm]; [congruence|]. rewrite Hsk by done. apply Hi.
  - intros m e' Hg'. rewrite Htk. destruct (decide (m = n)) as [->|Hm]; [congruence|]. rewrite Hsk by done. exact (ca_live _ Hi m e' Hg').
  - intros m b' token'. destruct (decide (m = n)) as [->|Hm]; [rewrite Hnew; intros [= <- <-]; by exists e|]. rewrite Hsk by done. apply Hi.
  - intros m. unfold tombstoned. destruct (decide (m = n)) as [->|Hm]; [by rewrite Hnew|]. by rewrite Hsk.
  - unfold tombstoned. by rewrite Hnew.
Qed.

(** The objects of a tombstoned name are removed. *)
Lemma delete_ok (v : CView) n m' :
  cat_inv v -> tombstoned v n ->
  (forall m, m' !! sk m = v_objects v !! sk m) -> (forall m, m <> n -> m' !! tk m = v_objects v !! tk m) ->
  let v' := mkView m' (v_local v) (v_clock v) (v_ghost v) in cat_inv v' /\ cat_grows v v'.
Proof.
  intros Hi [x Hx] Hsk Htk v'. split; [split; simpl|split; [done|]].
  - apply Hi.
  - intros m b token. rewrite Hsk. destruct (decide (m = n)) as [->|Hm]; [congruence|]. rewrite Htk by done. apply Hi.
  - intros m e Hg. rewrite Hsk. destruct (decide (m = n)) as [->|Hm]; [congruence|]. rewrite Htk by done. exact (ca_live _ Hi m e Hg).
  - intros m b token. rewrite Hsk. apply Hi.
  - intros m. unfold tombstoned. simpl. by rewrite Hsk.
Qed.

(** ** The operations

    Each rule says what is known when a part of an operation is done: [v1] is
    the view then, which everything of before has grown into. *)

Context (fault : Error -> Prop) (node : nat -> nat) (fault_opaque : forall e, fault e -> opaque_fault e).

Notation Safe := (safe fault node cat_inv cat_rely cat_grows).
Notation Goes := (goes cat_inv cat_rely cat_grows).

Lemma goes_grown i (v : CView) m' g' (Q : CView -> Prop) :
  let v' := mkView m' (v_local v) (v_clock v) g' in
  cat_inv v' -> cat_grows v v' -> Q v' -> Goes i v m' (v_local v) Q.
Proof. intros v' Hi Hg HQ. exists g'. split; [done|]. split; [split; [done|]|done]. intros j _. exact Hg. Qed.

Lemma goes_kept i (v : CView) (Q : CView -> Prop) : cat_inv v -> Q v -> Goes i v (v_objects v) (v_local v) Q.
Proof. intros Hi HQ. destruct v as [m l c g]. by apply (goes_grown i (mkView m l c g) m g); [|apply cat_grows_refl|]. Qed.

Lemma ct_read_safe i key v (Q : Res (option bytes) -> CView -> Prop) :
  (forall v1 r, cat_grows v v1 -> cat_inv v1 ->
     match r with
     | Ok (Some b) => exists token, v_objects v1 !! key = Some (b, token)
     | Ok None => v_objects v1 !! key = None
     | Err _ => True
     | Panic => False
     end -> Q r v1) ->
  Safe i (ct_read key) Q v.
Proof.
  intros HQ v1 Hr Hi r Hg. apply goes_kept; [done|]. destruct r as [b|e|]; simpl; [| |done].
  - apply HQ; [done..|]. destruct Hg as (payload & token & Hk & [= ->]). eauto.
  - assert (opaque_fault e \/ e = ObjectNotFound key /\ v_objects v1 !! key = None) as [He|[-> Hk]].
    { destruct Hg as [Hf|Hg]; [left; auto|]. destruct (v_objects v1 !! key) as [[payload ?]|]; [done|auto]. }
    + destruct e; try done; by apply HQ.
    + by apply HQ.
Qed.

Lemma put_absent_safe i key body v (Q : Res bool -> CView -> Prop) :
  (forall v1 r, cat_grows v v1 -> cat_inv v1 -> r <> Ok true -> (r = Ok false -> is_Some (v_objects v1 !! key)) -> Q r v1) ->
  (forall v1 r token, cat_grows v v1 -> cat_inv v1 -> v_objects v1 !! key = None -> r <> Ok false ->
     Goes i v1 (<[key := (body, token)]> (v_objects v1)) (v_local v1) (Q r)) ->
  Safe i (put_absent key body) Q v.
Proof.
  intros Hkept Hput v1 Hr Hi r m' Hp. destruct r as [meta|e|]; [| |done].
  - destruct Hp as [Habs ->]. eapply goes_mono; [|by apply (Hput v1 (Ok true))]. done.
  - destruct Hp as [(-> & Hheld & ->)|(Hf & Hm)].
    + apply goes_kept; [done|]. simpl. apply Hkept; [done..|]. intros _. simpl in Hheld.
      destruct (v_objects v1 !! key); [done|]. by destruct Hheld.
    + apply fault_opaque in Hf. assert (Q (Err e) v1 -> safe fault node cat_inv cat_rely cat_grows i
        (match e with PreconditionFailed _ => preturn false | _ => pfail e end) Q v1) as Hend by (by destruct e).
      destruct Hm as [->|(token & Habs & ->)].
      * apply goes_kept; [done|]. eapply Hend, Hkept; done.
      * eapply goes_mono; [|by apply (Hput v1 (Err e) token)]. intros v' HQ. destruct e; done.
Qed.

(** Writing an object of neither kind. *)
Lemma put_other_safe i key body v (Q : Res bool -> CView -> Prop) :
  other_key key -> (forall v1 r, cat_grows v v1 -> cat_inv v1 -> Q r v1) -> Safe i (put_absent key body) Q v.
Proof.
  intros Ho HQ. apply put_absent_safe; [auto|]. intros v1 r token Hg Hi _ _.
  destruct (others_ok v1 (<[key := (body, token)]> (v_objects v1)) Hi) as [Hi' Hg'].
  { intros n. destruct (Ho n). by rewrite !lookup_insert_ne by done. }
  eapply goes_grown; [exact Hi'|exact Hg'|]. apply HQ; [|done]. by eapply cat_grows_trans.
Qed.

Lemma put_topic_safe i n e body v (Q : Res bool -> CView -> Prop) :
  entry_ok e -> ce_name e = n -> ce_encode e = Ok body ->
  (forall v1 r, cat_grows v v1 -> cat_inv v1 -> (r = Ok true -> seen_entry v1 n e) -> Q r v1) ->
  Safe i (put_absent (tk n) body) Q v.
Proof.
  intros He Hn Hb HQ. apply put_absent_safe; [intros; by apply HQ|]. intros v1 r token Hg Hi Habs _.
  destruct (put_topic_ok v1 n e body token Hi He Hn Hb Habs) as (Hi' & Hg' & Hseen).
  eapply goes_grown; [exact Hi'|exact Hg'|]. apply HQ; [|done..]. by eapply cat_grows_trans.
Qed.

Lemma put_tombstone_safe i n e body v (Q : Res bool -> CView -> Prop) :
  ce_encode e = Ok body -> seen_entry v n e ->
  (forall v1 r, cat_grows v v1 -> cat_inv v1 -> (r = Ok true -> given v1 n e /\ tombstoned v1 n) ->
     (r = Ok false -> tombstoned v1 n) -> Q r v1) ->
  Safe i (put_absent (sk n) body) Q v.
Proof.
  intros Hb Hseen HQ. apply put_absent_safe; [intros; by apply HQ|]. intros v1 r token Hg Hi Habs Hne.
  pose proof (seen_entry_given _ _ _ (seen_entry_grows _ _ _ _ Hg Hseen) Habs) as Hgiven.
  destruct (put_tombstone_ok v1 n e body token Hi Hgiven Hb Habs) as (Hi' & Hg' & Ht).
  eapply goes_grown; [exact Hi'|exact Hg'|]. apply HQ; [|done..]. by eapply cat_grows_trans.
Qed.

(** Removing what a tombstoned name leaves behind, or any other objects. *)
Lemma delete_keys_safe i keys n v (Q : Res unit -> CView -> Prop) :
  (forall key, key ∈ keys -> key = tk n /\ tombstoned v n \/ other_key key) ->
  (forall v1 r, cat_grows v v1 -> cat_inv v1 -> Q r v1) ->
  Safe i (ask (st_delete keys)) Q v.
Proof.
  intros Hkeys HQ v1 Hr Hi r m' (Hnp & _ & gone & Hsub & _ & Hm').
  assert (cat_inv (mkView m' (v_local v1) (v_clock v1) (v_ghost v1)) /\ cat_grows v1 (mkView m' (v_local v1) (v_clock v1) (v_ghost v1)))
    as [Hi' Hg'].
  { assert (forall m, m' !! sk m = v_objects v1 !! sk m) as Hsk.
    { intros m. rewrite Hm'. case_decide as Hin; [|done]. apply Hsub, Hkeys in Hin as [[Heq _]|Ho].
      - symmetry in Heq. by apply tk_sk in Heq.
      - by destruct (Ho m). }
    assert (forall m, m' !! tk m = v_objects v1 !! tk m \/ m = n /\ tombstoned v n) as Htk.
    { intros m. rewrite Hm'. case_decide as Hin; [|auto]. apply Hsub, Hkeys in Hin as [[->%tk_inj Ht]|Ho]; [auto|by destruct (Ho m)]. }
    destruct (Htk n) as [Hn|[_ Ht]].
    - apply others_ok; [done|]. intros m. split; [|done]. destruct (Htk m) as [|[-> _]]; done.
    - apply (delete_ok v1 n); [done|by apply Hr|done|]. intros m Hne. destruct (Htk m) as [|[? _]]; done. }
  eapply goes_grown; [exact Hi'|exact Hg'|]. assert (cat_grows v (mkView m' (v_local v1) (v_clock v1) (v_ghost v1))) by (by eapply cat_grows_trans).
  destruct r; simpl; [by apply HQ..|done].
Qed.

Lemma delete_live_safe i e v (Q : Res unit -> CView -> Prop) :
  tombstoned v (ce_name e) -> (forall v1 r, cat_grows v v1 -> cat_inv v1 -> Q r v1) ->
  Safe i (delete_live_indexes prefix e) Q v.
Proof.
  intros Ht HQ. unfold delete_live_indexes. rewrite topic_key_new.
  destruct (other_key_new (id_key prefix (ce_id e))) as (ik & -> & Hik); [eauto|].
  destruct (other_key_new (retention_key prefix (ce_name e))) as (rk & -> & Hrk); [eauto|]. simpl.
  destruct (ce_creator e) as [c|].
  - destruct (other_key_new (owner_key prefix c (ce_name e))) as (ok & -> & Hok); [eauto|]. cbn [pbind preturn app].
    apply (delete_keys_safe i _ (ce_name e)); [|done]. intros key. rewrite !elem_of_cons, elem_of_nil. naive_solver.
  - cbn [pbind preturn app].
    apply (delete_keys_safe i _ (ce_name e)); [|done]. intros key. rewrite !elem_of_cons, elem_of_nil. naive_solver.
Qed.

(** ** Reading *)

Lemma find_entry_safe i n v (Q : Res (option CatalogEntry) -> CView -> Prop) :
  (forall v1 r, cat_grows v v1 -> cat_inv v1 -> (forall e, r = Ok (Some e) -> seen_entry v1 n e /\ ce_name e = n) -> Q r v1) ->
  Safe i (find_entry prefix n) Q v.
Proof.
  intros HQ. unfold find_entry. rewrite topic_key_new. cbn [pbind]. unfold entry_at_key. apply safe_bind, ct_read_safe.
  intros v1 r Hg Hi Hr. destruct r as [[b|]|err|]; simpl; [|by apply HQ..]. destruct Hr as (token & Hk).
  destruct (ce_decode b) as [entry| |] eqn:Hd; simpl; [|by apply HQ..]. case_decide as Hn; simpl; [|by apply HQ].
  apply HQ; [done..|]. intros e [= <-]. split; [|done]. destruct (v_objects v1 !! sk n) as [x|] eqn:Hs.
  - right. unfold tombstoned. by rewrite Hs.
  - left. destruct (ca_topic _ Hi n b token Hs Hk) as (e0 & Hg0 & He0).
    rewrite (decode_encode e0 b) in Hd by (done || by apply (ca_given _ Hi n)). by injection Hd as <-.
Qed.

Lemma tombstone_entry_safe i n v (Q : Res (option CatalogEntry) -> CView -> Prop) :
  (forall v1 r, cat_grows v v1 -> cat_inv v1 -> (r = Ok None -> v_objects v1 !! sk n = None) ->
     (forall e, r = Ok (Some e) -> given v1 n e /\ tombstoned v1 n /\ ce_name e = n) -> Q r v1) ->
  Safe i (tombstone_entry prefix n) Q v.
Proof.
  intros HQ. unfold tombstone_entry. rewrite tombstone_key_new. cbn [pbind]. unfold entry_at_key. apply safe_bind, ct_read_safe.
  intros v1 r Hg Hi Hr. destruct r as [[b|]|err|]; simpl; [|by apply HQ..]. destruct Hr as (token & Hk).
  destruct (ce_decode b) as [entry| |] eqn:Hd; simpl; [|by apply HQ..]. case_decide as Hn; simpl; [|by apply HQ].
  apply HQ; [done..|]. intros e [= <-]. destruct (ca_tomb _ Hi n b token Hk) as (e0 & Hg0 & He0).
  rewrite (decode_encode e0 b) in Hd by (done || by apply (ca_given _ Hi n)). injection Hd as <-.
  split_and!; [done| |done]. unfold tombstoned. by rewrite Hk.
Qed.

Lemma tombstone_id_safe i n v (Q : Res (option Z) -> CView -> Prop) :
  (forall v1 r, cat_grows v v1 -> cat_inv v1 -> (r = Ok None -> v_objects v1 !! sk n = None) ->
     (forall id, r = Ok (Some id) -> tombstoned v1 n) -> Q r v1) ->
  Safe i (tombstone_id prefix n) Q v.
Proof.
  intros HQ. unfold tombstone_id. apply safe_bind, tombstone_entry_safe. intros v1 r Hg Hi Hnone Hsome.
  destruct r as [[e|]|err|]; simpl; apply HQ; try done; [|by intros; apply Hnone]. intros id _. by destruct (Hsome e eq_refl) as (_ & ? & _).
Qed.

(** A name that is found was given its entry, and was not tombstoned when the
    search began. *)
Lemma ct_find_safe i n v (Q : Res (option CatalogEntry) -> CView -> Prop) :
  (forall v1 r, cat_grows v v1 -> cat_inv v1 ->
     (forall e, r = Ok (Some e) -> given v1 n e /\ v_objects v1 !! sk n = None) -> Q r v1) ->
  Safe i (ct_find prefix n) Q v.
Proof.
  intros HQ. unfold ct_find. apply safe_bind, tombstone_id_safe. intros v1 r Hg Hi _ _.
  destruct r as [[id|]|err|]; cbn [then_safe]; [by apply HQ| |by apply HQ..].
  apply safe_bind, find_entry_safe. intros v2 r Hg2 Hi2 Hseen. pose proof (cat_grows_trans _ _ _ Hg Hg2) as Hg02.
  destruct r as [[e|]|err|]; cbn [then_safe]; [|by apply HQ..]. destruct (Hseen e eq_refl) as [Hs _].
  destruct (other_key_new (id_key prefix (ce_id e))) as (ik & -> & _); [eauto|]. cbn [pbind].
  apply safe_bind, ct_read_safe. intros v3 r Hg3 Hi3 _. pose proof (cat_grows_trans _ _ _ Hg02 Hg3) as Hg03.
  destruct r as [[b|]|err|]; cbn [then_safe]; [|by apply HQ..]. case_decide; cbn [then_safe]; [|by apply HQ].
  apply safe_bind, tombstone_id_safe. intros v4 r Hg4 Hi4 Hnone _. pose proof (cat_grows_trans _ _ _ Hg03 Hg4) as Hg04.
  destruct r as [[id|]|err|]; cbn [then_safe]; try by apply HQ. apply HQ; [done..|]. intros e' [= <-].
  split; [|by apply Hnone]. apply seen_entry_given; [|by apply Hnone].
  exact (seen_entry_grows _ _ _ _ Hg4 (seen_entry_grows _ _ _ _ Hg3 Hs)).
Qed.

Lemma ct_find_id_safe i id v (Q : Res (option CatalogEntry) -> CView -> Prop) :
  (forall v1 r, cat_grows v v1 -> cat_inv v1 ->
     (forall e, r = Ok (Some e) -> given v1 (ce_name e) e /\ v_objects v1 !! sk (ce_name e) = None /\ ce_id e = id) -> Q r v1) ->
  Safe i (ct_find_id prefix id) Q v.
Proof.
  intros HQ. unfold ct_find_id. destruct (other_key_new (id_key prefix id)) as (ik & -> & _); [eauto|]. cbn [pbind].
  apply safe_bind, ct_read_safe. intros v1 r Hg Hi _. destruct r as [[b|]|err|]; cbn [then_safe]; [|by apply HQ..].
  destruct (or_malformed _ _) as [n|err|]; cbn [pbind]; [|by apply HQ..].
  apply safe_bind, ct_find_safe. intros v2 r Hg2 Hi2 Hf. pose proof (cat_grows_trans _ _ _ Hg Hg2) as Hg02.
  destruct r as [[e|]|err|]; cbn [then_safe]; [|by apply HQ..]. apply HQ; [done..|].
  destruct (Z.eqb_spec (ce_id e) id) as [Hid|]; [|done]. intros e' [= <-]. destruct (Hf e eq_refl) as [Hgiven Hno].
  destruct (ca_given _ Hi2 n e Hgiven) as [_ ->]. done.
Qed.

(** ** Creating *)

Lemma reject_safe i e v (Q : Res unit -> CView -> Prop) :
  (forall v1 r, cat_grows v v1 -> cat_inv v1 -> (r = Ok tt -> v_objects v1 !! sk (ce_name e) = None) -> Q r v1) ->
  Safe i (reject_if_tombstoned prefix e) Q v.
Proof.
  intros HQ. unfold reject_if_tombstoned. apply safe_bind, tombstone_id_safe. intros v1 r Hg Hi Hnone Hsome.
  destruct r as [[id|]|err|]; cbn [then_safe]; [|by apply HQ; auto|by apply HQ..].
  apply safe_bind, delete_live_safe; [by eapply Hsome|]. intros v2 r Hg2 Hi2. pose proof (cat_grows_trans _ _ _ Hg Hg2).
  destruct r; cbn [then_safe]; by apply HQ.
Qed.

Lemma race_loop_safe i fuel n v (Q : Res CatalogEntry -> CView -> Prop) :
  (forall v1 r, cat_grows v v1 -> cat_inv v1 -> (forall e, r = Ok e -> given v1 n e /\ v_objects v1 !! sk n = None) -> Q r v1) ->
  cat_inv v -> Safe i (race_loop prefix fuel n) Q v.
Proof.
  revert v. induction fuel as [|fuel IH]; intros v HQ Hv; [by apply HQ; [apply cat_grows_refl|..]|]. cbn [race_loop].
  apply safe_bind, tombstone_id_safe. intros v1 r Hg Hi _ _.
  destruct r as [[id|]|err|]; cbn [then_safe]; [by apply HQ| |by apply HQ..].
  apply safe_bind, find_entry_safe. intros v2 r Hg2 Hi2 Hseen. pose proof (cat_grows_trans _ _ _ Hg Hg2) as Hg02.
  assert (forall v3, cat_grows v2 v3 -> cat_inv v3 -> Safe i (race_loop prefix fuel n) Q v3) as Hagain.
  { intros v3 Hg3 Hi3. apply IH; [|done]. intros v4 r4 Hg4. apply HQ. exact (cat_grows_trans _ _ _ Hg02 (cat_grows_trans _ _ _ Hg3 Hg4)). }
  destruct r as [[e|]|err|]; cbn [then_safe]; [|by apply Hagain; [apply cat_grows_refl|]|by apply HQ..].
  destruct (Hseen e eq_refl) as [Hs _]. destruct (other_key_new (id_key prefix (ce_id e))) as (ik & -> & Hik); [eauto|]. cbn [pbind].
  apply safe_bind, put_other_safe; [done|]. intros v3 r Hg3 Hi3. pose proof (cat_grows_trans _ _ _ Hg02 Hg3) as Hg03.
  destruct r as [b|err|]; cbn [then_safe]; [|by apply HQ..].
  apply safe_bind, ct_find_safe. intros v4 r Hg4 Hi4 Hf. pose proof (cat_grows_trans _ _ _ Hg03 Hg4) as Hg04.
  destruct r as [[e'|]|err|]; cbn [then_safe]; [| |by apply HQ..].
  - apply HQ; [done..|]. intros e0 [= <-]. destruct (Hf e' eq_refl) as [_ Hno]. split; [|done].
    apply seen_entry_given; [|done]. exact (seen_entry_grows _ _ _ _ Hg4 (seen_entry_grows _ _ _ _ Hg3 Hs)).
  - apply Hagain; [|done]. exact (cat_grows_trans _ _ _ Hg3 Hg4).
Qed.

Lemma find_after_race_safe i n v (Q : Res CatalogEntry -> CView -> Prop) :
  (forall v1 r, cat_grows v v1 -> cat_inv v1 -> (forall e, r = Ok e -> given v1 n e /\ v_objects v1 !! sk n = None) -> Q r v1) ->
  Safe i (find_after_race prefix n) Q v.
Proof.
  intros HQ. unfold find_after_race. apply safe_bind, tombstone_id_safe. intros v1 r Hg Hi _ _.
  destruct r as [[id|]|err|]; cbn [then_safe]; [by apply HQ| |by apply HQ..].
  apply race_loop_safe; [|done]. intros v2 r Hg2. apply HQ. exact (cat_grows_trans _ _ _ Hg Hg2).
Qed.

(** The end of a creation whose topic object landed. *)
Lemma publish_safe {A} i e (a : A) v (Q : Res A -> CView -> Prop) :
  seen_entry v (ce_name e) e ->
  (forall v1 r, cat_grows v v1 -> cat_inv v1 ->
     (forall a', r = Ok a' -> a' = a /\ given v1 (ce_name e) e /\ v_objects v1 !! sk (ce_name e) = None) -> Q r v1) ->
  Safe i (let* key := PDone (id_key prefix (ce_id e)) in
          let* _ := put_absent key (as_bytes (ce_name e)) in
          let* _ := reject_if_tombstoned prefix e in preturn a) Q v.
Proof.
  intros Hseen HQ. destruct (other_key_new (id_key prefix (ce_id e))) as (ik & -> & Hik); [eauto|]. cbn [pbind].
  apply safe_bind, put_other_safe; [done|]. intros v1 r Hg Hi. destruct r as [b|err|]; cbn [then_safe]; [|by apply HQ..].
  apply safe_bind, reject_safe. intros v2 r Hg2 Hi2 Hno. pose proof (cat_grows_trans _ _ _ Hg Hg2) as Hg02.
  destruct r as [[]|err|]; cbn [then_safe]; [|by apply HQ..]. apply HQ; [done..|]. intros a' [= <-].
  specialize (Hno eq_refl). split_and!; [done| |done]. apply seen_entry_given; [|done]. by eapply seen_entry_grows.
Qed.

Lemma insert_safe i n p domain v (Q : Res CatalogEntry -> CView -> Prop) :
  entry_ok (CatalogEntry_with_key_domain n p domain) ->
  (forall v1 r, cat_grows v v1 -> cat_inv v1 -> (forall e, r = Ok e -> given v1 n e /\ v_objects v1 !! sk n = None) -> Q r v1) ->
  Safe i (insert_with_key_domain prefix n p domain) Q v.
Proof.
  intros Hok HQ. unfold insert_with_key_domain. apply safe_bind, tombstone_id_safe. intros v1 r Hg Hi _ _.
  destruct r as [[id|]|err|]; cbn [then_safe]; [by apply HQ| |by apply HQ..]. cbv zeta.
  set (e := CatalogEntry_with_key_domain n p domain) in *. rewrite topic_key_new. cbn [pbind].
  destruct (ce_encode e) as [body|err|] eqn:Hb; cbn [pbind]; [|by apply HQ..].
  apply safe_bind, (put_topic_safe i n e); [done..|]. intros v2 r Hg2 Hi2 Hseen. pose proof (cat_grows_trans _ _ _ Hg Hg2) as Hg02.
  destruct r as [[]|err|]; cbn [then_safe]; [| |by apply HQ..].
  - apply (publish_safe i e e); [by apply Hseen|]. intros v3 r Hg3 Hi3 Hr. apply HQ; [by eapply cat_grows_trans|done|].
    intros e' He'. destruct (Hr e' He') as (-> & H). exact H.
  - apply find_after_race_safe. intros v3 r Hg3. apply HQ. by eapply cat_grows_trans.
Qed.

Lemma insert_owned_safe i n p c v (Q : Res TopicCreateOutcome -> CView -> Prop) :
  entry_ok (CatalogEntry_with_creator n p c) ->
  (forall v1 r, cat_grows v v1 -> cat_inv v1 ->
     (forall o, r = Ok o -> given v1 n (tc_entry o) /\ v_objects v1 !! sk n = None) -> Q r v1) ->
  Safe i (insert_owned prefix n p c) Q v.
Proof.
  intros Hok HQ. unfold insert_owned. apply safe_bind, tombstone_id_safe. intros v1 r Hg Hi _ _.
  destruct r as [[id|]|err|]; cbn [then_safe]; [by apply HQ| |by apply HQ..]. cbv zeta.
  set (e := CatalogEntry_with_creator n p c) in *.
  destruct (ce_encode e) as [body|err|] eqn:Hb; cbn [pbind]; [|by apply HQ..].
  destruct (other_key_new (owner_key prefix c n)) as (ok & -> & Hk); [eauto|]. cbn [pbind].
  apply safe_bind, put_other_safe; [done|]. intros v2 r Hg2 Hi2. pose proof (cat_grows_trans _ _ _ Hg Hg2) as Hg02.
  destruct r as [b|err|]; cbn [then_safe]; [|by apply HQ..]. rewrite topic_key_new. cbn [pbind].
  apply safe_bind, (put_topic_safe i n e); [done..|]. intros v3 r Hg3 Hi3 Hseen. pose proof (cat_grows_trans _ _ _ Hg02 Hg3) as Hg03.
  destruct r as [[]|err|]; cbn [then_safe negb]; [| |by apply HQ..].
  - apply (publish_safe i e (mkTopicCreateOutcome e true)); [by apply Hseen|]. intros v4 r Hg4 Hi4 Hr.
    apply HQ; [by eapply cat_grows_trans|done|]. intros o Ho. destruct (Hr o Ho) as (-> & H). exact H.
  - apply safe_bind, find_after_race_safe. intros v4 r Hg4 Hi4 Hr. pose proof (cat_grows_trans _ _ _ Hg03 Hg4) as Hg04.
    destruct r as [e'|err|]; cbn [then_safe]; apply HQ; try done. intros o [= <-]. by apply Hr.
Qed.

(** ** Deleting *)

(** What the answer of a deletion says. *)
Definition deletion_means (v : CView) (n : TopicId) (o : TopicDeleteOutcome) : Prop :=
  match o with
  | Deleted e => given v n e /\ tombstoned v n
  | AlreadyDeleted id => (exists e, given v n e /\ ce_id e = id) /\ tombstoned v n
  | MissingTopic | StaleId _ _ => True
  end.

Lemma already_deleted_safe i n e expected v (Q : Res TopicDeleteOutcome -> CView -> Prop) :
  given v n e -> tombstoned v n -> ce_name e = n -> cat_inv v ->
  (forall v1 r, cat_grows v v1 -> cat_inv v1 -> (forall o, r = Ok o -> deletion_means v1 n o) -> Q r v1) ->
  Safe i (already_deleted prefix e expected) Q v.
Proof.
  intros Hgiven Ht Hn Hv HQ. unfold already_deleted. destruct (stale expected (ce_id e)) as [o|] eqn:Hst.
  - apply HQ; [apply cat_grows_refl|done|]. intros o' [= <-]. unfold stale in Hst. repeat case_match; by simplify_eq.
  - apply safe_bind, delete_live_safe; [by rewrite Hn|]. intros v1 r Hg Hi. destruct r as [[]|err|]; cbn [then_safe]; [|by apply HQ..].
    apply HQ; [done..|]. intros o [= <-]. destruct Hg as [Hg1 Hg2]. split; eauto.
Qed.

Lemma delete_topic_safe i n expected v (Q : Res TopicDeleteOutcome -> CView -> Prop) :
  (forall v1 r, cat_grows v v1 -> cat_inv v1 -> (forall o, r = Ok o -> deletion_means v1 n o) -> Q r v1) ->
  Safe i (delete_topic prefix n expected) Q v.
Proof.
  intros HQ. unfold delete_topic. apply safe_bind, tombstone_entry_safe. intros v1 r Hg Hi _ Hsome.
  destruct r as [[e|]|err|]; cbn [then_safe]; [| |by apply HQ..].
  { destruct (Hsome e eq_refl) as (Hgiven & Ht & Hn). apply (already_deleted_safe i n); [done..|].
    intros v2 r Hg2. apply HQ. by eapply cat_grows_trans. }
  apply safe_bind, find_entry_safe. intros v2 r Hg2 Hi2 Hseen. pose proof (cat_grows_trans _ _ _ Hg Hg2) as Hg02.
  destruct r as [[e|]|err|]; cbn [then_safe]; [|by apply HQ; try done; intros o [= <-]|by apply HQ..].
  destruct (stale expected (ce_id e)) as [o|] eqn:Hst.
  { apply HQ; [done..|]. intros o' [= <-]. unfold stale in Hst. repeat case_match; by simplify_eq. }
  destruct (Hseen e eq_refl) as [Hs Hn]. rewrite tombstone_key_new. cbn [pbind].
  destruct (ce_encode e) as [body|err|] eqn:Hb; cbn [pbind]; [|by apply HQ..].
  apply safe_bind, (put_tombstone_safe i n e); [done..|]. intros v3 r Hg3 Hi3 Hput Hheld.
  pose proof (cat_grows_trans _ _ _ Hg02 Hg3) as Hg03.
  destruct r as [[]|err|]; cbn [then_safe negb]; [| |by apply HQ..].
  - destruct (Hput eq_refl) as [Hgiven Ht]. apply safe_bind, delete_live_safe; [by rewrite Hn|]. intros v4 r Hg4 Hi4.
    pose proof (cat_grows_trans _ _ _ Hg03 Hg4) as Hg04. destruct r as [[]|err|]; cbn [then_safe]; [|by apply HQ..].
    apply HQ; [done..|]. intros o [= <-]. destruct Hg4 as [H1 H2]. split; auto.
  - apply safe_bind, tombstone_entry_safe. intros v4 r Hg4 Hi4 _ Hsome'. pose proof (cat_grows_trans _ _ _ Hg03 Hg4) as Hg04.
    destruct r as [[e'|]|err|]; cbn [then_safe]; [|by apply HQ..].
    destruct (Hsome' e' eq_refl) as (Hgiven & Ht & Hn'). apply (already_deleted_safe i n); [done..|].
    intros v5 r Hg5. apply HQ. by eapply cat_grows_trans.
Qed.

(** ** Retention *)

Lemma read_retention_safe i n v : Safe i (read_retention prefix n) (fun _ _ => True) v.
Proof.
  unfold read_retention. apply safe_bind, ct_find_safe. intros v1 r Hg Hi _. destruct r as [[e|]|err|]; cbn [then_safe]; try done.
  destruct (other_key_new (retention_key prefix n)) as (rk & -> & _); [eauto|]. cbn [pbind].
  apply safe_bind, ct_read_safe. intros v2 r _ _ _. destruct r as [[b|]|err|]; cbn [then_safe]; try done. by case_match.
Qed.

Lemma put_config_safe i key body v (Q : Res ObjectMeta -> CView -> Prop) :
  other_key key -> (forall v1 r, cat_grows v v1 -> cat_inv v1 -> Q r v1) -> Safe i (ask (st_put key body None)) Q v.
Proof.
  intros Ho HQ v1 Hr Hi r m' Hp.
  assert (forall n, m' !! tk n = v_objects v1 !! tk n /\ m' !! sk n = v_objects v1 !! sk n) as Hm.
  { intros n. destruct (Ho n). destruct r as [meta|e|]; [destruct Hp as [_ ->]| |done]; [by rewrite !lookup_insert_ne by done|].
    destruct Hp as [(_ & _ & ->)|(_ & [->|(token & _ & ->)])]; [done..|by rewrite !lookup_insert_ne by done]. }
  destruct (others_ok v1 m' Hi Hm) as [Hi' Hg']. eapply goes_grown; [exact Hi'|exact Hg'|].
  assert (cat_grows v (mkView m' (v_local v1) (v_clock v1) (v_ghost v1))) by (by eapply cat_grows_trans).
  destruct r; [by apply HQ..|done].
Qed.

Lemma write_retention_safe i n ms v : Safe i (write_retention prefix n ms) (fun _ _ => True) v.
Proof.
  unfold write_retention. apply safe_bind, ct_find_safe. intros v1 r Hg Hi _. destruct r as [[e|]|err|]; cbn [then_safe]; try done.
  destruct (other_key_new (retention_key prefix n)) as (rk & -> & Hrk); [eauto|]. cbn [pbind].
  apply safe_bind. assert (forall r v2, cat_inv v2 -> then_safe fault node cat_inv cat_rely cat_grows i (fun _ : unit =>
    let* live := ct_find prefix n in
    preturn (match live with None => RetentionMissing | Some _ => RetentionApplied ms end)) (fun _ _ => True) r v2) as Hend.
  { intros r v2 Hi2. destruct r; cbn [then_safe]; try done. apply safe_bind, ct_find_safe. intros v3 r _ _ _. by destruct r. }
  destruct ms as [value|].
  - apply safe_bind, put_config_safe; [done|]. intros v2 r Hg2 Hi2. destruct r; cbn [then_safe]; [by apply (Hend (Ok tt))|done..].
  - apply (delete_keys_safe i _ n); [|auto]. intros key ->%list_elem_of_singleton. by right.
Qed.

(** *** Listings

    What is listed was found by a lookup on the way, so it had no tombstone when
    the listing began. *)

Definition not_gone (v0 : CView) (names : list TopicId) : Prop := Forall (fun n => ~ tombstoned v0 n) names.

Lemma walk_keys_safe i decode accept limit keys names v0 v (Q : Res (list TopicId) -> CView -> Prop) :
  cat_grows v0 v -> not_gone v0 names ->
  (forall v' r, cat_grows v0 v' -> (forall names', r = Ok names' -> not_gone v0 names') -> Q r v') ->
  Safe i (walk_keys prefix decode accept limit keys names) Q v.
Proof.
  intros Hg Hn HQ. revert names v Hg Hn. induction keys as [|key keys IH]; intros names v Hg Hn; cbn [walk_keys].
  { apply HQ; [done|]. by intros names' [= <-]. }
  apply safe_bind. destruct (decode key) as [name|e|]; cbn [safe then_safe]; [|by apply HQ..].
  apply safe_bind, ct_find_safe. intros v1 r Hg1 _ Hr. assert (cat_grows v0 v1) as Hg01 by (by eapply cat_grows_trans).
  destruct r as [[e|]|err|]; cbn [then_safe from_option]; [|by apply IH|by apply HQ..].
  destruct (accept e); [|by apply IH]. destruct (Hr e eq_refl) as [_ Hno].
  assert (not_gone v0 (names ++ [name])) as Hn'.
  { apply Forall_app. split; [done|]. repeat constructor. intros Ht. destruct (proj2 Hg01 _ Ht) as [x Hx]. congruence. }
  case_match; [|by apply IH]. apply HQ; [done|]. by intros names' [= <-].
Qed.

Lemma walk_pages_safe i turns under decode accept stop_short limit cursor names v0 v (Q : Res (list TopicId) -> CView -> Prop) :
  cat_grows v0 v -> not_gone v0 names ->
  (forall v' r, cat_grows v0 v' -> (forall names', r = Ok names' -> not_gone v0 names') -> Q r v') ->
  Safe i (walk_pages prefix turns under decode accept stop_short limit cursor names) Q v.
Proof.
  intros Hg Hn HQ. revert cursor names v Hg Hn. induction turns as [|turns IH]; intros cursor names v Hg Hn; cbn [walk_pages].
  { by apply HQ. }
  case_match; [|apply HQ; [done|]; by intros names' [= <-]].
  intros v1 Hr1 Hi1 r _. assert (cat_grows v0 v1) as Hg1 by (by eapply cat_grows_trans). apply goes_kept; [done|].
  destruct r as [keys|e|]; [|by apply HQ..]. simpl. destruct (last keys) as [key|]; [|apply HQ; [done|]; by intros names' [= <-]].
  apply safe_bind, (walk_keys_safe i _ _ _ _ _ v0); [done|done|]. intros v2 r Hg2 Hr. destruct r as [names'|e|]; cbn [then_safe]; [|by apply HQ..].
  specialize (Hr names' eq_refl). case_match; [apply HQ; [done|]; by intros ? [= <-]|by apply IH].
Qed.

Lemma page_safe i turns after limit v (Q : Res (list TopicId) -> CView -> Prop) :
  (forall v' r, cat_grows v v' -> (forall names, r = Ok names -> not_gone v names) -> Q r v') ->
  Safe i (page prefix turns after limit) Q v.
Proof.
  intros HQ. unfold page. destruct after as [n|].
  - apply safe_bind, safe_bind. rewrite topic_key_new. cbn [safe then_safe]. by apply (walk_pages_safe _ _ _ _ _ _ _ _ _ v); [|constructor|].
  - apply safe_bind. cbn [safe then_safe]. by apply (walk_pages_safe _ _ _ _ _ _ _ _ _ v); [|constructor|].
Qed.

Lemma owned_page_safe i turns creator after limit v (Q : Res (list TopicId) -> CView -> Prop) :
  (forall v' r, cat_grows v v' -> (forall names, r = Ok names -> not_gone v names) -> Q r v') ->
  Safe i (owned_page prefix turns creator after limit) Q v.
Proof.
  intros HQ. unfold owned_page. destruct after as [n|].
  - apply safe_bind, safe_bind. destruct (owner_key prefix creator n) as [key|e|]; cbn [safe then_safe]; [|by apply HQ..].
    by apply (walk_pages_safe _ _ _ _ _ _ _ _ _ v); [|constructor|].
  - apply safe_bind. cbn [safe then_safe]. by apply (walk_pages_safe _ _ _ _ _ _ _ _ _ v); [|constructor|].
Qed.

(** ** What the answers mean *)

(** The entry an answer speaks of. *)
Definition found_entry (a : CatalogAnswer) : option CatalogEntry :=
  match a with
  | AnsEntry e => e
  | AnsCreated o => Some (tc_entry o)
  | _ => None
  end.

Definition op_name (op : CatalogOp) : option TopicId :=
  match op with
  | CatLookup n | CatCreate n _ _ | CatCreateOwned n _ _ | CatDelete n _ | CatRetention n | CatSetRetention n _ => Some n
  | CatLookupId _ | CatList _ _ _ | CatListOwned _ _ _ _ => None
  end.

(** The topics an answer says there are. *)
Definition found_names (a : CatalogAnswer) : list TopicId :=
  match a with AnsNames names => names | _ => from_option (fun e => [ce_name e]) [] (found_entry a) end.

Definition answer_means (v : CView) (op : CatalogOp) (a : CatalogAnswer) : Prop :=
  (forall e, found_entry a = Some e -> given v (ce_name e) e /\ (forall n, op_name op = Some n -> ce_name e = n) /\
     (forall id, op = CatLookupId id -> ce_id e = id)) /\
  (forall o, a = AnsDeleted o -> exists n expected, op = CatDelete n expected /\ deletion_means v n o).

(** The arguments the types of the operations allow. *)
Definition op_ok (op : CatalogOp) : Prop :=
  match op with
  | CatCreate n p domain => entry_ok (CatalogEntry_with_key_domain n p domain)
  | CatCreateOwned n p c => entry_ok (CatalogEntry_with_creator n p c)
  | _ => True
  end.

(** What is known the moment an operation is done that began at [v0]. *)
Definition done_with (v0 : CView) (op : CatalogOp) (r : Res CatalogAnswer) (v : CView) : Prop :=
  forall a, r = Ok a -> answer_means v op a /\ not_gone v0 (found_names a).

Lemma not_gone_one (v0 v : CView) n : cat_grows v0 v -> v_objects v !! sk n = None -> not_gone v0 [n].
Proof. intros [_ Hg] Hno. repeat constructor. intros Ht. destruct (Hg _ Ht) as [x Hx]. congruence. Qed.

Lemma found_means (v0 v : CView) op a n e :
  cat_grows v0 v -> cat_inv v -> op_name op = Some n -> found_entry a = Some e -> (forall o, a <> AnsDeleted o) -> (forall id, op <> CatLookupId id) ->
  given v n e -> v_objects v !! sk n = None ->
  answer_means v op a /\ not_gone v0 (found_names a).
Proof.
  intros Hg0 Hi Hop Hf Ha Hid Hg Hno. destruct (ca_given _ Hi n e Hg) as [_ Hn]. split; [split|].
  - intros e' He'. rewrite Hf in He'. injection He' as <-. rewrite Hn. split_and!; [done|congruence|]. intros id ->. by destruct (Hid id).
  - intros o ->. by destruct (Ha o).
  - assert (found_names a = [n]) as ->; [|by eapply not_gone_one].
    destruct a as [e'|o|o|ms|u|names]; try done; unfold found_names; rewrite Hf; simpl; by rewrite Hn.
Qed.

Lemma catalog_safe i op v : op_ok op -> Safe i (catalog_code prefix i op) (done_with v op) v.
Proof.
  intros Hok. assert (forall op a, found_entry a = None -> (forall o, a <> AnsDeleted o) -> not_gone v (found_names a) -> forall v1,
    answer_means v1 op a /\ not_gone v (found_names a)) as Hnone.
  { intros op' a Hf Ha Hn v1. split; [|done]. split; [congruence|]. intros o ->. by destruct (Ha o). }
  destruct op as [n|id|n p domain|n p c|n expected|n|n ms|turns after limit|turns c after limit]; cbn [catalog_code].
  - apply safe_bind, ct_find_safe. intros v1 r Hg Hi Hr. destruct r as [[e|]|err|]; cbn [then_safe]; intros a [= <-].
    + destruct (Hr e eq_refl). by apply (found_means v v1 _ _ n e).
    + apply Hnone; [done..|constructor].
  - apply safe_bind, ct_find_id_safe. intros v1 r Hg Hi Hr. destruct r as [[e|]|err|]; cbn [then_safe]; intros a [= <-].
    + destruct (Hr e eq_refl) as (Hgiven & Hno & Hid). split; [split|].
      * intros e' [= <-]. split_and!; [done|done|by intros id' [= <-]].
      * done.
      * by apply (not_gone_one v v1).
    + apply Hnone; [done..|constructor].
  - apply safe_bind, insert_safe; [done|]. intros v1 r Hg Hi Hr. destruct r as [e|err|]; cbn [then_safe]; intros a [= <-].
    destruct (Hr e eq_refl). by apply (found_means v v1 _ _ n e).
  - apply safe_bind, insert_owned_safe; [done|]. intros v1 r Hg Hi Hr. destruct r as [o|err|]; cbn [then_safe]; intros a [= <-].
    destruct (Hr o eq_refl). by apply (found_means v v1 _ _ n (tc_entry o)).
  - apply safe_bind, delete_topic_safe. intros v1 r Hg Hi Hr. destruct r as [o|err|]; cbn [then_safe]; intros a [= <-].
    split; [split; [done|]|constructor]. intros o' [= <-]. exists n, expected. split; [done|]. by apply Hr.
  - apply safe_bind. eapply safe_mono; [apply read_retention_safe|]. intros r v1 _. destruct r as [x|err|]; cbn [then_safe]; intros a [= <-]. apply Hnone; [done..|constructor].
  - apply safe_bind. eapply safe_mono; [apply write_retention_safe|]. intros r v1 _. destruct r as [x|err|]; cbn [then_safe]; intros a [= <-]. apply Hnone; [done..|constructor].
  - apply safe_bind, page_safe. intros v1 r Hg Hr. destruct r as [names|err|]; cbn [then_safe]; intros a [= <-]. apply Hnone; [done..|]. by apply Hr.
  - apply safe_bind, owned_page_safe. intros v1 r Hg Hr. destruct r as [names|err|]; cbn [then_safe]; intros a [= <-]. apply Hnone; [done..|]. by apply Hr.
Qed.
End catalog.

(** ** Every interleaving *)

Section interleaving.
Context {S : Type} `{ObjectStoreLaws S} (prefix : string).

Notation CWorld := (World S unit CatalogAnswer CatalogOp).

(** Nobody else writes under the catalog's topics and tombstones. *)
Definition catalog_others (m m' : Objects) : Prop :=
  forall n, m' !! tk prefix n = m !! tk prefix n /\ m' !! sk prefix n = m !! sk prefix n.

Definition catalog_reachable : CWorld -> CWorld -> Prop :=
  reachable (fun n => n) (catalog_code prefix) tt (fun _ => op_ok) (fun _ => True) catalog_others.

(** A shard nobody has created a topic in. *)
Record catalog_start (w : CWorld) : Prop := {
  cs_empty : forall n, objects (w_store w) !! tk prefix n = None /\ objects (w_store w) !! sk prefix n = None;
  cs_idle : forall i, w_task w i = None;
  cs_answers : w_answers w = [];
}.

(** With the names of [gone] tombstoned from the start. *)
Definition inv_without (gone : TopicId -> Prop) (v : View unit (gmap string CatalogEntry)) : Prop :=
  cat_inv prefix v /\ forall n, gone n -> tombstoned prefix v n.

Definition answered_op (gone : TopicId -> Prop) (op : CatalogOp) (r : Res CatalogAnswer) (v : View unit (gmap string CatalogEntry)) : Prop :=
  forall a, r = Ok a -> answer_means prefix v op a /\ forall n, n ∈ found_names a -> ~ gone n.

Lemma answer_means_grows (v v' : View unit (gmap string CatalogEntry)) op a : cat_grows prefix v v' -> answer_means prefix v op a -> answer_means prefix v' op a.
Proof.
  intros [Hg Ht] [H1 H2]. split.
  - intros e He. destruct (H1 e He) as (? & ? & ?). split_and!; auto.
  - intros o Ha. destruct (H2 o Ha) as (n & expected & Hop & Hd). exists n, expected. split; [done|].
    destruct o as [e|id| |]; simpl in *; [destruct Hd; split; auto| |done|done].
    destruct Hd as [(e & He & <-) Hn]. split; eauto.
Qed.

Lemma catalog_obligations gone :
  Obligations os_fault (fun n => n) (inv_without gone) (cat_rely prefix) (cat_grows prefix) (S := S)
    (catalog_code prefix) tt (fun _ => op_ok) (fun _ => True) catalog_others (answered_op gone).
Proof.
  split; try done.
  - intros i op v Hok [Hi Hgone].
    assert (forall v v' : View unit (gmap string CatalogEntry), cat_grows prefix v v' -> (forall n, gone n -> tombstoned prefix v n) ->
      forall n, gone n -> tombstoned prefix v' n) as Hst by (intros ? ? [_ Hs]; auto).
    eapply safe_mono; [eapply (safe_stable _ _ _ _ _ _ _ _ _ _ Hst Hgone), (catalog_safe prefix os_fault _ fault_law); done|].
    intros r v' [Hdone Hg'] a Ha. destruct (Hdone a Ha) as [Hm Hno]. split; [done|]. intros n Hn Hgo.
    unfold not_gone in Hno. rewrite Forall_forall in Hno. by apply (Hno n Hn), Hgone.
  - intros op r v v' Hg Ha a Hr. destruct (Ha a Hr). split; [|done]. by eapply answer_means_grows.
  - intros v clock' [Hi Hgone] _ _. split; [by split; [destruct Hi; split|]|]. split; [|intros i]; exact (cat_grows_refl prefix v).
  - intros v m' [Hi Hgone] Hoth v'. destruct (others_ok prefix v m' Hi Hoth) as [Hi' Hg']. split; [|by split].
    split; [done|]. intros n Hn. by apply Hg', Hgone.
  - intros v n [Hi Hgone]. split; [by split; [destruct Hi; split|]|]. split; [|intros i _]; exact (cat_grows_refl prefix v).
Qed.

Notation catalog_world gone := (world_safe os_fault (fun n => n) (inv_without gone) (cat_rely prefix) (cat_grows prefix) (answered_op gone)).

Lemma catalog_stays_safe gone g w w' : catalog_world gone w g -> catalog_reachable w w' -> exists g', catalog_world gone w' g'.
Proof.
  intros Hw Hreach.
  destruct (reachable_safe _ _ _ _ _ (fun i => cat_grows_refl prefix) (fun i => cat_grows_trans prefix) (cat_grows_refl prefix)
    _ _ _ _ _ _ (catalog_obligations gone) _ _ _ (cat_grows_trans prefix) Hw Hreach) as (g' & Hsafe & _). eauto.
Qed.

Lemma catalog_start_safe w :
  catalog_start w ->
  catalog_world (fun _ => False) w ∅.
Proof.
  intros [He Hidle Hans]. split; [split; [split|done]|split; [intros i o p; by rewrite Hidle|by rewrite Hans; intros o r ?%elem_of_nil]].
  - intros n e Hn. by destruct (lookup_empty_Some n e).
  - intros n b token _ Hn. simpl in Hn. destruct (He n) as [H1 _]. congruence.
  - intros n e Hn. by destruct (lookup_empty_Some n e).
  - intros n b token Hn. simpl in Hn. destruct (He n) as [_ H1]. congruence.
Qed.

(** The entry an answer tells of, a deletion's included. *)
Definition told_entry (a : CatalogAnswer) : option CatalogEntry :=
  match a with AnsDeleted (Deleted e) => Some e | _ => found_entry a end.

(** C12. A name has one topic.  However the creations, lookups and deletions of
    any number of nodes interleave at the store, and although calls fail or land
    with their answers lost and nodes die and come back, everyone who is told of
    a topic of a name is told the same entry: the same id, partitions, key domain
    and creator. *)
Theorem catalog_agrees (w w' : CWorld) op1 op2 a1 a2 e1 e2 :
  catalog_start w -> catalog_reachable w w' ->
  (op1, Ok a1) ∈ w_answers w' -> (op2, Ok a2) ∈ w_answers w' ->
  told_entry a1 = Some e1 -> told_entry a2 = Some e2 -> ce_name e1 = ce_name e2 -> e1 = e2.
Proof.
  intros Hstart Hreach H1 H2 He1 He2 Hn.
  destruct (catalog_stays_safe _ _ _ _ (catalog_start_safe w Hstart) Hreach) as (g & [Hi _] & _ & Hall). set (v := view w' g) in *.
  assert (forall op a e, (op, Ok a) ∈ w_answers w' -> told_entry a = Some e -> given v (ce_name e) e) as Htold.
  { intros op a e Hin Ha. destruct (Hall _ _ Hin a eq_refl) as [[Hm Hd] _].
    destruct a as [x|o|o|ms|u|names]; try (by destruct (Hm e Ha)). destruct o as [e'|id| |]; try done. injection Ha as ->.
    destruct (Hd _ eq_refl) as (n & expected & _ & Hg & _). destruct (ca_given _ _ Hi n e Hg) as [_ Hne]. by rewrite Hne. }
  pose proof (Htold _ _ _ H1 He1) as Hg1. pose proof (Htold _ _ _ H2 He2) as Hg2. rewrite <- Hn in Hg2.
  unfold given in Hg1, Hg2. congruence.
Qed.

(** The deletions an answer confirms. *)
Definition confirmed (o : TopicDeleteOutcome) : bool :=
  match o with Deleted _ | AlreadyDeleted _ => true | MissingTopic | StaleId _ _ => false end.

(** From some moment on, the operations in flight then told from those that
    start later. *)
Definition catalog_marked : World S unit CatalogAnswer (bool * CatalogOp) -> World S unit CatalogAnswer (bool * CatalogOp) -> Prop :=
  marked_reachable (fun n => n) (catalog_code prefix) tt (fun _ => op_ok) (fun _ => True) catalog_others.

(** C13. A deleted topic stays deleted.  Once any node has been answered that the
    topic of a name is deleted, or already was, no lookup, creation or listing
    that starts afterwards, on any node, ever answers with a topic of that name:
    the name is reserved for good, whatever calls fail, whoever dies, and whatever
    creations and other operations were in flight at that moment and go on. *)
Theorem deleted_stays_deleted (w0 w : CWorld) m n expected o :
  catalog_start w0 -> catalog_reachable w0 w ->
  (CatDelete n expected, Ok (AnsDeleted o)) ∈ w_answers w -> confirmed o = true -> catalog_marked (mark w) m ->
  forall op a, ((true, op), Ok a) ∈ w_answers m -> n ∉ found_names a.
Proof.
  intros Hstart Hw Hin Ho Hm op a Ha Hn.
  destruct (catalog_stays_safe _ _ _ _ (catalog_start_safe w0 Hstart) Hw) as (g & [Hi _] & Htasks & Hall).
  assert (tombstoned prefix (view w g) n) as Ht.
  { destruct (Hall _ _ Hin _ eq_refl) as [[_ Hd] _]. destruct (Hd o eq_refl) as (n' & expected' & [= <- <-] & Hd').
    destruct o; try done; apply Hd'. }
  destruct (marked_safe _ _ _ _ _ _ os_fault _ _ _ _ (w_clock m) (fun i => cat_grows_refl prefix) (fun i => cat_grows_trans prefix)
    (catalog_obligations (fun x => x = n)) (mark w) m g) as (g' & _ & _ & Hall'); [|exact Hm|done|].
  { split; [split; [exact Hi|by intros x ->]|]. split; [|intros op' r ?%elem_of_nil; done].
    intros i [b op'] p (q & Hq & [= -> -> ->])%fmap_Some. destruct q as [op'' q]. eapply safe_mono; [|done].
    eapply safe_convert; [| |by apply (Htasks i op'' q)].
    - intros v [[Hv _] _]. by split.
    - intros v m' l' g' v' [[_ Hg] Hb] [Hv' _] Hgr. split; [|exact Hb]. split; [done|]. intros x Hx. by apply Hgr, Hg. }
  destruct (Hall' _ _ Ha a eq_refl) as [_ Hno]. by apply (Hno n Hn).
Qed.
End interleaving.

(** The body of a topic's object is the topic: decoding what is written
    for an entry gives the entry back, its name, its partitions, the id derived
    from the name, the key domain it was given or shares with the prefix, and
    its creator. *)
Theorem catalog_entry_round_trip (e : CatalogEntry) b : entry_ok e -> ce_encode e = Ok b -> ce_decode b = Ok e.
Proof. apply decode_encode. Qed.

(** Node 0 and node 1 create the same topic with different partitions, their
    calls interleaved; then node 0 deletes it, and node 1 tries to create it and
    looks it up once more. *)
Definition demo_catalog : World FakeObjectStore unit CatalogAnswer CatalogOp :=
  mkWorld FakeObjectStore_new (fun _ => tt) (fun _ => 0) (fun _ => None) [].

Definition demo_cat_drive : list (nat * CatalogOp) -> World FakeObjectStore unit CatalogAnswer CatalogOp ->
    World FakeObjectStore unit CatalogAnswer CatalogOp :=
  drive (fun n => n) (catalog_code "shard-0").

Definition twice {X} (n : nat) (a b : X) : list X := concat (replicate n [a; b]).

(** The number of moves each operation takes is the number of its calls, and two. *)
Definition demo_creations : list (nat * CatalogOp) :=
  let create := (0%nat, CatCreate "orders" 3 DefaultDomain) in
  let create_owned := (1%nat, CatCreateOwned "orders" 7 "alice") in
  twice 4 create create_owned ++ replicate 2 create ++ replicate 9 create_owned.

Definition demo_created : World FakeObjectStore unit CatalogAnswer CatalogOp := demo_cat_drive demo_creations demo_catalog.

Definition demo_deletion : list (nat * CatalogOp) := replicate 6 (0%nat, CatDelete "orders" None).

Definition demo_orders : CatalogEntry := CatalogEntry_new "orders" 3.

Lemma demo_create_ok : op_ok (CatCreate "orders" 3 DefaultDomain).
Proof. split; [by apply (bool_decide_unpack _)|done|done|done|done]. Qed.
Lemma demo_recreate_ok : op_ok (CatCreate "orders" 5 DefaultDomain).
Proof. split; [by apply (bool_decide_unpack _)|done|done|done|done]. Qed.
Lemma demo_create_owned_ok : op_ok (CatCreateOwned "orders" 7 "alice").
Proof. split; [by apply (bool_decide_unpack _)|done|done|done|by apply (bool_decide_unpack _)]. Qed.

Ltac demo_ops := repeat first [exact I|exact demo_create_ok|exact demo_recreate_ok|exact demo_create_owned_ok|constructor].

Lemma demo_creates : catalog_reachable "shard-0" demo_catalog demo_created.
Proof. apply drive_reachable. demo_ops. Qed.
Lemma demo_start_catalog : catalog_start "shard-0" demo_catalog.
Proof. by split. Qed.

Lemma catalog_agrees_witness :
  w_answers demo_created = [(CatCreate "orders" 3 DefaultDomain, Ok (AnsEntry (Some demo_orders)));
    (CatCreateOwned "orders" 7 "alice", Ok (AnsCreated (mkTopicCreateOutcome demo_orders false)))] /\ demo_orders = demo_orders.
Proof.
  split; [vm_compute; reflexivity|].
  eapply (catalog_agrees "shard-0" demo_catalog demo_created (CatCreate "orders" 3 DefaultDomain) (CatCreateOwned "orders" 7 "alice")
    (AnsEntry (Some demo_orders)) (AnsCreated (mkTopicCreateOutcome demo_orders false))).
  - exact demo_start_catalog.
  - exact demo_creates.
  - vm_compute. constructor.
  - vm_compute. repeat constructor.
  - reflexivity.
  - reflexivity.
  - reflexivity.
Defined.

(** Node 1 creates the topic; node 2 is creating it too when node 0 is answered
    that it is deleted. *)
Definition demo_creating : list (nat * CatalogOp) :=
  replicate 6 (1%nat, CatCreate "orders" 3 DefaultDomain) ++ replicate 3 (2%nat, CatCreate "orders" 5 DefaultDomain) ++ demo_deletion.

Definition demo_racing : World FakeObjectStore unit CatalogAnswer CatalogOp := demo_cat_drive demo_creating demo_catalog.

(** Node 2 goes on, and node 1 tries to create it, looks it up and lists. *)
Definition demo_raced_on : list (nat * (bool * CatalogOp)) :=
  replicate 3 (1%nat, (true, CatCreate "orders" 3 DefaultDomain)) ++ replicate 10 (2%nat, (true, CatLookup "orders")) ++
  replicate 3 (1%nat, (true, CatLookup "orders")) ++ replicate 3 (1%nat, (true, CatList 5 None 10)).

Definition demo_settled : World FakeObjectStore unit CatalogAnswer (bool * CatalogOp) :=
  drive (fun n => n) (marked_code (catalog_code "shard-0")) demo_raced_on (mark demo_racing).

Lemma deleted_stays_deleted_witness :
  bool_decide (is_Some (w_task demo_racing 2%nat)) = true /\
  ((true, CatLookup "orders"), Ok (AnsEntry None)) ∈ w_answers demo_settled /\
  forall op a, ((true, op), Ok a) ∈ w_answers demo_settled -> "orders" ∉ found_names a.
Proof.
  split; [vm_compute; reflexivity|]. split; [vm_compute; repeat constructor|].
  apply (deleted_stays_deleted "shard-0" demo_catalog demo_racing demo_settled "orders" None (Deleted demo_orders)).
  - exact demo_start_catalog.
  - apply drive_reachable. demo_ops.
  - vm_compute. repeat constructor.
  - reflexivity.
  - apply drive_reachable. repeat first [exact I|reflexivity|exact demo_create_ok|constructor].
Defined.

Lemma catalog_entry_round_trip_witness :
  exists b, ce_encode (CatalogEntry_with_key_domain_and_creator "orders" 3 (Customer "tenant-a") "alice") = Ok b /\
    ce_decode b = Ok (CatalogEntry_with_key_domain_and_creator "orders" 3 (Customer "tenant-a") "alice").
Proof.
  eexists. split; [vm_compute; reflexivity|]. apply catalog_entry_round_trip; [|vm_compute; reflexivity].
  split; [by apply (bool_decide_unpack _)|done|done|by split|by apply (bool_decide_unpack _)].
Defined.
