(* ===== verification/Topics.v ===== *)
(** * Topics: a broker's view of its topics

    [oqueue-broker/src/cluster/topics.rs]: the cache every node keeps in front
    of the topic catalog.  An entry is served from the cache for a second; a
    generation, advanced by everything that forgets, keeps a lookup that was in
    flight meanwhile from putting back what was forgotten.

    The programs run on [Machine.v] over the catalog of [Catalog.v]: a section
    under the cache's lock is one step, and so is a load of the generation.  The
    topic-lifecycle lock, which keeps creations and a deletion of one node
    apart, is not modelled: more interleavings are allowed than happen.  Of the
    listings, [topic_names] and [load_creator_topics] are here; that concurrent
    callers of [creator_topics] share one load is not modelled. *)

From stdpp Require Import base tactics list numbers strings gmap functions relations sorting.
From Stdlib Require Import ZArith Lia Ascii.
From S2P Require Import Prelude Bytes Types Store Machine Bundle Merge Authz Catalog.

Open Scope Z_scope.

(** Instants are nanoseconds of the node's monotonic clock. *)
Definition TOPIC_CACHE_TTL : Z := 1000000000.
Definition LIST_PAGE : nat := 1000.

Record Served : Type := mkServed {
  sv_id : Z;
  sv_partitions : Z;
  sv_key_domain : KeyDomain;
  sv_cached_at : Z;
}.

(** What a node keeps in memory: the cache, its generation, which is taken to
    be unbounded, and the creators whose topics have been listed. *)
Record Node : Type := mkNode {
  nd_by_name : gmap string Served;
  nd_by_id : gmap Z string;
  nd_generation : Z;
  nd_creator_loads : gmap Principal (option (list TopicId));
}.

Definition Node_new : Node := mkNode ∅ ∅ 0 ∅.

Definition cache_is_fresh (now : Z) (served : Served) : bool := Z.max 0 (now - sv_cached_at served) <? TOPIC_CACHE_TTL.

Definition served_entry (entry : CatalogEntry) (now : Z) : Served :=
  mkServed (ce_id entry) (ce_partitions entry) (ce_key_domain entry) now.

(** [forget_name] and [forget]. *)
Definition forget_name (name : TopicId) (id : Z) (node : Node) : Node :=
  mkNode (delete name (nd_by_name node)) (delete id (nd_by_id node)) (nd_generation node + 1) (nd_creator_loads node).

Definition forget_entry (entry : CatalogEntry) (node : Node) : Node := forget_name (ce_name entry) (ce_id entry) node.

Definition forget_topic_name (name : TopicId) (node : Node) : Node :=
  mkNode (delete name (nd_by_name node))
    (match nd_by_name node !! name with Some served => delete (sv_id served) (nd_by_id node) | None => nd_by_id node end)
    (nd_generation node + 1) (nd_creator_loads node).

Definition invalidate_creator_topics (creator : Principal) (node : Node) : Node :=
  mkNode (nd_by_name node) (nd_by_id node) (nd_generation node) (delete creator (nd_creator_loads node)).

Definition invalidate_all_creator_topics (node : Node) : Node :=
  mkNode (nd_by_name node) (nd_by_id node) (nd_generation node) ∅.

(** What the section of [remember_if_generation] does. *)
Definition remember (entry : CatalogEntry) (now generation : Z) (node : Node) : Node :=
  if nd_generation node =? generation then
    mkNode (<[ce_name entry := served_entry entry now]> (nd_by_name node)) (<[ce_id entry := ce_name entry]> (nd_by_id node))
      (nd_generation node) (nd_creator_loads node)
  else node.

Section cluster.
(** The prefix of the catalog's objects. *)
Context (prefix : string).

Notation Task := (Prog Node).

Definition remember_if_generation (entry : CatalogEntry) (generation : Z) : Task (option string) :=
  let* now := clock_now in
  let* node := locked (remember entry now generation) in
  preturn (if nd_generation node =? generation then Some (ce_name entry) else None).

(** The cached entry, or the catalog's. *)
Definition lookup_missed (topic : string) : Task (option Served) :=
  match TopicId_new topic with
  | Ok name =>
      let* node := reading in
      let* found := pcatch (ct_find prefix name) in
      match found with
      | Ok (Some entry) =>
          let* _ := remember_if_generation entry (nd_generation node) in
          let* node := reading in
          preturn (nd_by_name node !! topic)
      | _ => preturn None
      end
  | _ => preturn None
  end.

Definition served (topic : string) : Task (option Served) :=
  let* node := reading in
  match nd_by_name node !! topic with
  | Some hit =>
      let* now := clock_now in
      if cache_is_fresh now hit then preturn (Some hit)
      else
        match TopicId_new topic with
        | Ok name => let* _ := locked (forget_name name (sv_id hit)) in lookup_missed topic
        | _ => preturn None
        end
  | None => lookup_missed topic
  end.

Definition partition_count (topic : string) : Task (option Z) := let* t := served topic in preturn (sv_partitions <$> t).
Definition topic_id (topic : string) : Task (option Z) := let* t := served topic in preturn (sv_id <$> t).
Definition topic_key_domain (topic : TopicId) : Task (option KeyDomain) := let* t := served topic in preturn (sv_key_domain <$> t).

Definition name_missed (id : Z) : Task (option string) :=
  let* node := reading in
  let* found := pcatch (ct_find_id prefix id) in
  match found with
  | Ok (Some entry) => remember_if_generation entry (nd_generation node)
  | _ => preturn None
  end.

Definition topic_name_by_id (id : Z) : Task (option string) :=
  let* node := reading in
  match nd_by_id node !! id with
  | Some name =>
      let* node := reading in
      let* now := clock_now in
      if match nd_by_name node !! name with Some served => cache_is_fresh now served | None => false end then preturn (Some name)
      else
        match TopicId_new name with
        | Ok topic => let* _ := locked (forget_name topic id) in name_missed id
        | _ => preturn None
        end
  | None => name_missed id
  end.

Definition create_topic_while_locked (topic : TopicId) (partitions : Z) : Task (option CatalogEntry) :=
  let* node := reading in
  let* created := pcatch (ct_insert prefix topic partitions) in
  match created with
  | Ok entry => let* _ := remember_if_generation entry (nd_generation node) in preturn (Some entry)
  | _ => preturn None
  end.

Definition ensure_topic (topic : string) : Task bool :=
  match TopicId_new topic with
  | Ok name => let* created := create_topic_while_locked name 1 in preturn (bool_decide (is_Some created))
  | _ => preturn false
  end.

Definition create_topic_owned_while_locked (topic : TopicId) (partitions : Z) (creator : Principal) : Task (option TopicCreateOutcome) :=
  let* node := reading in
  let* created := pcatch (insert_owned prefix topic partitions creator) in
  match created with
  | Ok outcome =>
      let* _ := remember_if_generation (tc_entry outcome) (nd_generation node) in
      if tc_created outcome then let* _ := locked (invalidate_creator_topics creator) in preturn (Some outcome)
      else preturn (Some outcome)
  | _ => preturn None
  end.

Definition evict_durably_absent_topic (name : TopicId) : Task unit :=
  let* _ := locked (forget_topic_name name) in
  let* _ := locked invalidate_all_creator_topics in
  preturn tt.

(** What a node forgets when a deletion is answered. *)
Definition after_deletion (name : TopicId) (outcome : TopicDeleteOutcome) : Task unit :=
  match outcome with
  | Deleted entry =>
      let* _ := locked (forget_entry entry) in
      match ce_creator entry with
      | Some creator => let* _ := locked (invalidate_creator_topics creator) in preturn tt
      | None => preturn tt
      end
  | AlreadyDeleted id =>
      let* _ := locked (forget_name name id) in
      let* _ := locked invalidate_all_creator_topics in
      preturn tt
  | MissingTopic | StaleId _ _ => preturn tt
  end.

Definition cluster_delete_topic (name : TopicId) (expected_id : option Z) : Task TopicDeleteOutcome :=
  let* deleted := pcatch (delete_topic prefix name expected_id) in
  match deleted with
  | Ok outcome => let* _ := after_deletion name outcome in preturn outcome
  | Err error =>
      let* found := pcatch (ct_find prefix name) in
      let* _ := (match found with Ok None => evict_durably_absent_topic name | _ => preturn tt end) in
      pfail error
  | Panic => PDone Panic
  end.

(** *** Listings: [pages] of the catalog, each within [turns] *)

Fixpoint topic_names_loop (pages turns limit : nat) (after : option TopicId) (names : list string) : Task (list string) :=
  match pages with
  | O => PDone Panic
  | S pages =>
      if (length names <? limit)%nat then
        let want := Nat.min LIST_PAGE (limit - length names) in
        let* listed := pcatch (page prefix turns after want) in
        match listed with
        | Ok page =>
            let full := negb (bool_decide (page = [])) && (length page =? want)%nat in
            if full then topic_names_loop pages turns limit (last page) (names ++ page) else preturn (names ++ page)
        | Err _ => preturn names
        | Panic => PDone Panic
        end
      else preturn names
  end.

Definition topic_names (pages turns limit : nat) : Task (list string) :=
  let* names := topic_names_loop pages turns limit None [] in preturn (merge_sort key_le names).

(** [None] is the failure. *)
Fixpoint load_creator_topics (pages turns : nat) (creator : Principal) (after : option TopicId) (topics : list TopicId)
    : Task (option (list TopicId)) :=
  match pages with
  | O => PDone Panic
  | S pages =>
      let* listed := pcatch (owned_page prefix turns creator after LIST_PAGE) in
      match listed with
      | Ok page =>
          let full := (length page =? LIST_PAGE)%nat in
          let topics := topics ++ page in
          if negb full || bool_decide (last page = None) then preturn (Some topics)
          else load_creator_topics pages turns creator (last page) topics
      | Err _ => preturn None
      | Panic => PDone Panic
      end
  end.

(** What a node is asked, and its answers. *)
Inductive TopicOp : Type :=
| OpPartitionCount (topic : string)
| OpTopicId (topic : string)
| OpKeyDomain (topic : TopicId)
| OpNameById (id : Z)
| OpEnsure (topic : string)
| OpCreate (topic : TopicId) (partitions : Z)
| OpCreateOwned (topic : TopicId) (partitions : Z) (creator : Principal)
| OpDelete (name : TopicId) (expected_id : option Z).

Inductive TopicAnswer : Type :=
| AnsCount (partitions : option Z)
| AnsTopicId (id : option Z)
| AnsKeyDomain (key_domain : option KeyDomain)
| AnsName (name : option string)
| AnsEnsured (exists_ : bool)
| AnsCreatedTopic (entry : option CatalogEntry)
| AnsOwned (outcome : option TopicCreateOutcome)
| AnsDeletion (outcome : TopicDeleteOutcome).

(** An operation is asked of a node. *)
Definition topics_code (i : nat) (op : nat * TopicOp) : Task TopicAnswer :=
  match op.2 with
  | OpPartitionCount topic => let* a := partition_count topic in preturn (AnsCount a)
  | OpTopicId topic => let* a := topic_id topic in preturn (AnsTopicId a)
  | OpKeyDomain topic => let* a := topic_key_domain topic in preturn (AnsKeyDomain a)
  | OpNameById id => let* a := topic_name_by_id id in preturn (AnsName a)
  | OpEnsure topic => let* a := ensure_topic topic in preturn (AnsEnsured a)
  | OpCreate topic partitions => let* a := create_topic_while_locked topic partitions in preturn (AnsCreatedTopic a)
  | OpCreateOwned topic partitions creator => let* a := create_topic_owned_while_locked topic partitions creator in preturn (AnsOwned a)
  | OpDelete name expected_id => let* a := cluster_delete_topic name expected_id in preturn (AnsDeletion a)
  end.
End cluster.
