(* ===== verification/TopicsProps.v ===== *)
(** * TopicsProps: a deleted topic is soon served nowhere

    What a node answers about a topic is the topic's one entry in the catalog.
    What starts at the node that deleted a topic after it was answered serves the
    topic no more, and every other node stops once the operations in flight at
    that moment have ended and the second an entry may be served from its cache
    has passed, however lookups, creations and deletions interleave. *)

From stdpp Require Import base tactics list numbers strings gmap functions relations.
From Stdlib Require Import ZArith Lia Ascii.
From S2P Require Import Prelude Bytes Types Store Machine Bundle Merge Authz Catalog CatalogProps Topics.

Open Scope Z_scope.

(** ** The catalog's programs have no part in the cache *)

Create HintDb lockless discriminated.

Ltac lockless :=
  repeat first [ exact I | solve [auto with lockless nocore] | apply lockless_bind; [|intros ?] | case_match; try done | progress simpl | intros ? ].

Section lockless.
Context {T : Type} (prefix : string).

Lemma lockless_ct_read key : lockless (T := T) (ct_read key).
Proof. unfold ct_read. lockless. Qed.
#[local] Hint Resolve lockless_ct_read : lockless.
Lemma lockless_put_absent key body : lockless (T := T) (put_absent key body).
Proof. unfold put_absent. lockless. Qed.
#[local] Hint Resolve lockless_put_absent : lockless.
Lemma lockless_entry_at_key key n at_ : lockless (T := T) (entry_at_key key n at_).
Proof. unfold entry_at_key. lockless. Qed.
#[local] Hint Resolve lockless_entry_at_key : lockless.
Lemma lockless_find_entry n : lockless (T := T) (find_entry prefix n).
Proof. unfold find_entry. lockless. Qed.
#[local] Hint Resolve lockless_find_entry : lockless.
Lemma lockless_tombstone_entry n : lockless (T := T) (tombstone_entry prefix n).
Proof. unfold tombstone_entry. lockless. Qed.
#[local] Hint Resolve lockless_tombstone_entry : lockless.
Lemma lockless_tombstone_id n : lockless (T := T) (tombstone_id prefix n).
Proof. unfold tombstone_id. lockless. Qed.
#[local] Hint Resolve lockless_tombstone_id : lockless.
Lemma lockless_ct_find n : lockless (T := T) (ct_find prefix n).
Proof. unfold ct_find. lockless. Qed.
#[local] Hint Resolve lockless_ct_find : lockless.
Lemma lockless_ct_find_id id : lockless (T := T) (ct_find_id prefix id).
Proof. unfold ct_find_id. lockless. Qed.
#[local] Hint Resolve lockless_ct_find_id : lockless.
Lemma lockless_delete_live_indexes e : lockless (T := T) (delete_live_indexes prefix e).
Proof. unfold delete_live_indexes. lockless. Qed.
#[local] Hint Resolve lockless_delete_live_indexes : lockless.
Lemma lockless_reject_if_tombstoned e : lockless (T := T) (reject_if_tombstoned prefix e).
Proof. unfold reject_if_tombstoned. lockless. Qed.
#[local] Hint Resolve lockless_reject_if_tombstoned : lockless.
Lemma lockless_race_loop fuel n : lockless (T := T) (race_loop prefix fuel n).
Proof. induction fuel as [|fuel IH]; [done|]. cbn [race_loop]. lockless. Qed.
#[local] Hint Resolve lockless_race_loop : lockless.
Lemma lockless_find_after_race n : lockless (T := T) (find_after_race prefix n).
Proof. unfold find_after_race. lockless. Qed.
#[local] Hint Resolve lockless_find_after_race : lockless.
Lemma lockless_insert_with_key_domain n p domain : lockless (T := T) (insert_with_key_domain prefix n p domain).
Proof. unfold insert_with_key_domain. lockless. Qed.
#[local] Hint Resolve lockless_insert_with_key_domain : lockless.
Lemma lockless_insert_owned n p c : lockless (T := T) (insert_owned prefix n p c).
Proof. unfold insert_owned. lockless. Qed.
#[local] Hint Resolve lockless_insert_owned : lockless.
Lemma lockless_already_deleted e expected : lockless (T := T) (already_deleted prefix e expected).
Proof. unfold already_deleted. lockless. Qed.
#[local] Hint Resolve lockless_already_deleted : lockless.
Lemma lockless_delete_topic n expected : lockless (T := T) (delete_topic prefix n expected).
Proof. unfold delete_topic. lockless. Qed.
#[local] Hint Resolve lockless_delete_topic : lockless.
End lockless.

#[export] Hint Resolve lockless_ct_find lockless_ct_find_id lockless_insert_with_key_domain lockless_insert_owned lockless_delete_topic : lockless.

Section cluster.
Context (prefix : string) (fault : Error -> Prop) (node : nat -> nat) (fault_opaque : forall e, fault e -> opaque_fault e).

(** Beside the entries of the catalog: the names each node forgot when it saw
    them deleted. *)
Notation TView := (View Node (gmap string CatalogEntry * (nat -> gset string))).

(** Names known to be forgotten at a node; names known to be deleted, since
    when the clocks showed [since], and whether a second has passed. *)
Context (here : nat -> TopicId -> Prop) (gone : TopicId -> Prop) (since : nat -> Z) (expired : Prop).

Definition forgotten (v : TView) (k : nat) : gset string := (v_ghost v).2 k.
Definition generation (v : TView) (k : nat) : Z := nd_generation (v_local v k).
Definition is_given (v : TView) (n : TopicId) (e : CatalogEntry) : Prop := given (base v) n e.
Definition is_tombstoned (v : TView) (n : TopicId) : Prop := tombstoned prefix (base v) n.

Record topics_inv (v : TView) : Prop := {
  ti_catalog : cat_inv prefix (base v);
  ti_name : forall k n s, nd_by_name (v_local v k) !! n = Some s ->
    n ∉ forgotten v k /\ exists e, is_given v n e /\ s = served_entry e (sv_cached_at s);
  ti_id : forall k id n, nd_by_id (v_local v k) !! id = Some n ->
    n ∉ forgotten v k /\ exists e, is_given v n e /\ ce_id e = id;
  ti_forgotten : forall k n, n ∈ forgotten v k -> is_tombstoned v n;
  ti_here : forall k n, here k n -> n ∈ forgotten v k;
  ti_gone : forall n, gone n -> is_tombstoned v n;
  ti_since : forall k n s, gone n -> nd_by_name (v_local v k) !! n = Some s -> sv_cached_at s <= since k;
  ti_clock : forall k n s, nd_by_name (v_local v k) !! n = Some s -> sv_cached_at s <= v_clock v k;
  ti_expired : expired -> forall k, since k + TOPIC_CACHE_TTL <= v_clock v k;
}.

Definition topics_grows (v v' : TView) : Prop :=
  cat_grows prefix (base v) (base v') /\ forall k, forgotten v k ⊆ forgotten v' k /\ v_clock v k <= v_clock v' k.

(** While the generation of its node stands still, nothing is forgotten there. *)
Definition topics_rely (i : nat) (v v' : TView) : Prop :=
  topics_grows v v' /\ generation v (node i) <= generation v' (node i) /\
  (generation v (node i) = generation v' (node i) -> forgotten v (node i) = forgotten v' (node i)).

Lemma topics_grows_refl v : topics_grows v v.
Proof using Type. split; [apply cat_grows_refl|done]. Qed.
Lemma topics_grows_trans v1 v2 v3 : topics_grows v1 v2 -> topics_grows v2 v3 -> topics_grows v1 v3.
Proof using Type.
  intros [H1 H2] [H3 H4]. split; [by eapply cat_grows_trans|]. intros k. destruct (H2 k), (H4 k). split; by etrans.
Qed.
Lemma topics_rely_refl i v : topics_rely i v v.
Proof using Type. split; [apply topics_grows_refl|done]. Qed.
Lemma topics_rely_trans i v1 v2 v3 : topics_rely i v1 v2 -> topics_rely i v2 v3 -> topics_rely i v1 v3.
Proof using Type.
  intros (H1 & H2 & H3) (H4 & H5 & H6). split; [by eapply topics_grows_trans|]. split; [lia|]. intros Heq.
  rewrite H3, H6 by lia. done.
Qed.

Lemma grows_given v v' n e : topics_grows v v' -> is_given v n e -> is_given v' n e.
Proof using Type. intros [[H _] _]. apply H. Qed.
Lemma grows_tombstoned v v' n : topics_grows v v' -> is_tombstoned v n -> is_tombstoned v' n.
Proof using Type. intros [[_ H] _]. apply H. Qed.
Lemma grows_forgotten v v' k n : topics_grows v v' -> n ∈ forgotten v k -> n ∈ forgotten v' k.
Proof using Type. intros [_ H]. apply H. Qed.
Lemma grows_clock v v' k : topics_grows v v' -> v_clock v k <= v_clock v' k.
Proof using Type. intros [_ H]. apply H. Qed.

Notation TSafe := (safe fault node topics_inv topics_rely topics_grows).
Notation CSafe := (safe fault node (cat_inv prefix) (cat_rely prefix) (cat_grows prefix)).

(** ** The catalog within the cluster *)

Lemma topics_step_frame i (v : TView) m' g' :
  topics_inv v -> cat_inv prefix (base (with_base v m' g')) ->
  guar (cat_rely prefix) (cat_grows prefix) i (base v) (base (with_base v m' g')) ->
  topics_inv (with_base v m' g') /\ guar topics_rely topics_grows i v (with_base v m' g').
Proof.
  intros Hi Hc [Hg _]. assert (topics_grows v (with_base v m' g')) as Hg' by (by split).
  split; [|split; [done|]; intros j _; by split].
  split; [done|..].
  - intros k n s Hs. destruct (ti_name _ Hi k n s Hs) as (Hn & e & He & Hse). split; [done|]. exists e. split; [by eapply grows_given|done].
  - intros k id n Hs. destruct (ti_id _ Hi k id n Hs) as (Hn & e & He & Hse). split; [done|]. exists e. split; [by eapply grows_given|done].
  - intros k n Hn. eapply grows_tombstoned; [done|]. by eapply ti_forgotten.
  - apply Hi.
  - intros n Hn. eapply grows_tombstoned; [done|]. by eapply ti_gone.
  - apply Hi.
  - apply Hi.
  - apply Hi.
Qed.

(** What is known of an entry the catalog answered with, by a task that loaded
    the generation [g] before it asked. *)
Definition live_since (i : nat) (g : Z) (e : CatalogEntry) (v : TView) : Prop :=
  is_given v (ce_name e) e /\ ~ gone (ce_name e) /\ g <= generation v (node i) /\
  (generation v (node i) = g -> ce_name e ∉ forgotten v (node i)).

Lemma live_since_rely i g e v v' : topics_rely i v v' -> live_since i g e v -> live_since i g e v'.
Proof.
  intros (Hg & Hle & Heq) (H1 & H2 & H3 & H4). split; [by eapply grows_given|]. split; [done|]. split; [lia|].
  intros Hgen. rewrite <- Heq by lia. apply H4. lia.
Qed.

(** Asking the catalog, with the generation loaded. *)
Lemma asked_safe {A} i (p : Prog Node A) (entry_of : A -> option CatalogEntry) (Q : Res A -> View Node (gmap string CatalogEntry) -> Prop) v :
  lockless p -> topics_inv v -> CSafe i p Q (base v) ->
  (forall a v', Q (Ok a) v' -> forall e, entry_of a = Some e -> given v' (ce_name e) e /\ v_objects v' !! sk prefix (ce_name e) = None) ->
  TSafe i p (fun r v' => topics_inv v' /\ topics_grows v v' /\ Q r (base v') /\
    forall a e, r = Ok a -> entry_of a = Some e -> live_since i (generation v (node i)) e v') v.
Proof.
  intros Hl Hi Hp Hlive.
  pose proof (safe_frame fault node _ _ _ topics_inv topics_rely topics_grows ti_catalog (fun i v v' H => proj1 (proj1 H))
    topics_step_frame i p Q (fun v' => topics_rely i v v') v Hl) as Hf.
  eapply safe_mono; [apply safe_inv; [apply Hf|done]|].
  - intros v1 v2 H12 H01. by eapply topics_rely_trans.
  - intros v1 m' g' Hg H01. eapply topics_rely_trans; [done|]. by split; [split|].
  - apply topics_rely_refl.
  - done.
  - intros r v' [[HQ (Hg & Hle & Heq)] Hi']. split; [done|]. split; [done|]. split; [done|]. intros a e -> He.
    destruct (Hlive a (base v') HQ e He) as [Hgiven Hno]. split; [done|].
    assert (forall n, is_tombstoned v' n -> v_objects (base v') !! sk prefix n <> None) as Hts by (intros n [x Hx]; congruence).
    split; [intros Hgo; by eapply Hts, Hno; eapply ti_gone|]. split; [done|].
    intros _ Hin. by eapply Hts, Hno; eapply ti_forgotten.
Qed.

(** ** The sections under the cache's lock *)

Lemma topics_now_safe i v (Q : Res Z -> TView -> Prop) :
  (forall v1, topics_rely i v v1 -> topics_inv v1 -> Q (Ok (v_clock v1 (node i))) v1) -> TSafe i clock_now Q v.
Proof.
  intros HQ v1 Hr Hi. exists (v_ghost v1). destruct v1 as [m l c g]; simpl in *.
  split; [done|]. split; [split; [apply topics_grows_refl|intros j _; apply topics_rely_refl]|]. exact (HQ _ Hr Hi).
Qed.

Lemma cached_facts v k n s :
  topics_inv v -> nd_by_name (v_local v k) !! n = Some s ->
  n ∉ forgotten v k /\ (exists e, is_given v n e /\ s = served_entry e (sv_cached_at s)) /\
  (gone n -> sv_cached_at s <= since k) /\ sv_cached_at s <= v_clock v k.
Proof. intros Hi Hs. destruct (ti_name _ Hi _ _ _ Hs). split_and!; [done..| |by eapply ti_clock]. intros Hg. by eapply ti_since. Qed.

(** A section that replaces the node's state. *)
Lemma topics_locked_safe i f forgot v (Q : Res Node -> TView -> Prop) :
  (forall v1, topics_rely i v v1 -> topics_inv v1 ->
     let nd := v_local v1 (node i) in
     let F := forgotten v1 (node i) ∪ forgot v1 in
     let v' := mkView (v_objects v1) (<[node i := f nd]> (v_local v1)) (v_clock v1) ((v_ghost v1).1, <[node i := F]> ((v_ghost v1).2)) in
     nd_generation nd <= nd_generation (f nd) /\ (nd_generation nd = nd_generation (f nd) -> forgot v1 = ∅) /\
     (forall n, n ∈ forgot v1 -> is_tombstoned v1 n) /\
     (forall n s, nd_by_name (f nd) !! n = Some s ->
        n ∉ F /\ (exists e, is_given v1 n e /\ s = served_entry e (sv_cached_at s)) /\ (gone n -> sv_cached_at s <= since (node i)) /\
        sv_cached_at s <= v_clock v1 (node i)) /\
     (forall id n, nd_by_id (f nd) !! id = Some n -> n ∉ F /\ exists e, is_given v1 n e /\ ce_id e = id) /\
     (topics_inv v' -> topics_grows v1 v' -> Q (Ok nd) v')) ->
  TSafe i (locked f) Q v.
Proof.
  intros HQ v1 Hr Hi. destruct (HQ v1 Hr Hi) as (Hgen & Hsame & Ht & Hname & Hid & Hend). clear HQ.
  set (F := forgotten v1 (node i) ∪ forgot v1) in *.
  eexists ((v_ghost v1).1, <[node i := F]> ((v_ghost v1).2)). simpl. match goal with |- topics_inv ?x /\ _ => set (v' := x) in * end.
  assert (forall k, forgotten v' k = if decide (k = node i) then F else forgotten v1 k) as HF.
  { intros k. unfold forgotten, v'. simpl. case_decide; [subst; apply fn_lookup_insert|by rewrite fn_lookup_insert_ne]. }
  assert (forall k, v_local v' k = if decide (k = node i) then f (v_local v1 (node i)) else v_local v1 k) as HL.
  { intros k. unfold v'. simpl. case_decide; [subst; apply fn_lookup_insert|by rewrite fn_lookup_insert_ne]. }
  assert (topics_grows v1 v') as Hg by (split; [by split|]; intros k; rewrite HF; split; [case_decide; set_solver|done]).
  assert (topics_inv v') as Hi'.
  { split.
    - by destruct (ti_catalog _ Hi); split.
    - intros k n s. rewrite HL, HF. case_decide; [intros Hs; by destruct (Hname n s Hs) as (? & ? & _)|apply Hi].
    - intros k id n. rewrite HL, HF. case_decide; [apply Hid|apply Hi].
    - intros k n. rewrite HF. case_decide; [|apply Hi]. intros [Hn|Hn]%elem_of_union; [by eapply (ti_forgotten v1)|by apply Ht].
    - intros k n Hn. eapply grows_forgotten; [done|]. by apply Hi.
    - apply Hi.
    - intros k n s Hgo. rewrite HL. case_decide; [subst; intros Hs; destruct (Hname n s Hs) as (_ & _ & ? & _); auto|by apply Hi].
    - intros k n s. rewrite HL. case_decide; [subst; intros Hs; by destruct (Hname n s Hs) as (_ & _ & _ & ?)|by apply Hi].
    - apply Hi. }
  split; [done|]. split; [|by apply Hend]. split; [done|]. intros j _. split; [done|]. unfold generation. rewrite HL, HF.
  case_decide as Hj; [|done]. rewrite Hj. split; [done|]. intros Heq. unfold F. rewrite Hsame by done. set_solver.
Qed.

Lemma topics_reading_safe i v (Q : Res Node -> TView -> Prop) :
  (forall v1, topics_rely i v v1 -> topics_inv v1 -> Q (Ok (v_local v1 (node i))) v1) -> TSafe i reading Q v.
Proof.
  intros HQ. apply (topics_locked_safe i id (fun _ => ∅)). intros v1 Hr Hi nd F v'.
  assert (F = forgotten v1 (node i)) as HF by set_solver. assert (v_local v' (node i) = nd) as Hl by apply fn_lookup_insert.
  split; [done|]. split; [done|]. split; [set_solver|]. rewrite HF. split_and!.
  - intros n s Hs. by apply cached_facts.
  - intros id n. apply Hi.
  - intros Hi' Hg'. rewrite <-Hl. apply HQ; [|done]. eapply topics_rely_trans; [done|]. split; [done|].
    unfold generation, forgotten. rewrite Hl. split; [done|]. intros _. simpl. by rewrite fn_lookup_insert, HF.
Qed.

(** Sections that only remove. *)
Definition shrinks (f : Node -> Node) : Prop :=
  forall nd, nd_by_name (f nd) ⊆ nd_by_name nd /\ nd_by_id (f nd) ⊆ nd_by_id nd /\ nd_generation nd <= nd_generation (f nd).

Lemma topics_shrinks_safe i f v (Q : Res Node -> TView -> Prop) :
  shrinks f -> (forall v1 nd, topics_grows v v1 -> topics_inv v1 -> Q (Ok nd) v1) -> TSafe i (locked f) Q v.
Proof.
  intros Hf HQ. apply (topics_locked_safe i f (fun _ => ∅)). intros v1 [Hg _] Hi nd F v'. destruct (Hf nd) as (H1 & H2 & H3).
  assert (F = forgotten v1 (node i)) as -> by set_solver.
  split; [done|]. split; [done|]. split; [set_solver|]. split_and!.
  - intros n s Hs. apply (lookup_weaken _ _ _ _ Hs) in H1. by apply cached_facts.
  - intros id n Hs. apply (lookup_weaken _ _ _ _ Hs) in H2. by apply (ti_id _ Hi _ _ _ H2).
  - intros Hi' Hg'. apply HQ; [by eapply topics_grows_trans|done].
Qed.

Lemma forget_name_shrinks n id : shrinks (forget_name n id).
Proof. intros nd. simpl. split; [apply delete_subseteq|]. split; [apply delete_subseteq|lia]. Qed.
Lemma forget_topic_name_shrinks n : shrinks (forget_topic_name n).
Proof. intros nd. simpl. split; [apply delete_subseteq|]. split; [case_match; [apply delete_subseteq|done]|lia]. Qed.
Lemma invalidate_shrinks c : shrinks (invalidate_creator_topics c).
Proof. by intros nd. Qed.
Lemma invalidate_all_shrinks : shrinks invalidate_all_creator_topics.
Proof. by intros nd. Qed.

(** A deleted name is forgotten. *)
Lemma forget_name_safe i n id e v (Q : Res Node -> TView -> Prop) :
  is_given v n e -> ce_id e = id -> is_tombstoned v n ->
  (forall v1 nd, topics_grows v v1 -> topics_inv v1 -> n ∈ forgotten v1 (node i) -> Q (Ok nd) v1) ->
  TSafe i (locked (forget_name n id)) Q v.
Proof.
  intros He Hid Ht HQ. apply (topics_locked_safe i _ (fun _ => {[n]})). intros v1 [Hg _] Hi nd F v'. simpl.
  split; [lia|]. split; [lia|]. split; [intros n' ->%elem_of_singleton; by eapply grows_tombstoned|]. split_and!.
  - intros n' s [Hne Hs]%lookup_delete_Some. destruct (cached_facts _ _ _ _ Hi Hs). split; [set_solver|done].
  - intros id' n' [Hne Hs]%lookup_delete_Some. destruct (ti_id _ Hi _ _ _ Hs) as (Hn' & e' & He' & Hid'). split; [|by eauto].
    enough (n' <> n) by set_solver. intros ->. pose proof (grows_given _ _ _ _ Hg He) as He1. unfold is_given, given in *. congruence.
  - intros Hi' Hg'. apply HQ; [by eapply topics_grows_trans|done|]. unfold forgotten, v'. simpl. rewrite fn_lookup_insert. set_solver.
Qed.

Lemma remember_safe i g e v (Q : Res (option string) -> TView -> Prop) :
  live_since i g e v ->
  (forall v1 o, topics_grows v v1 -> topics_inv v1 -> (forall n, o = Some n -> n = ce_name e /\ ~ here (node i) n) -> Q (Ok o) v1) ->
  TSafe i (remember_if_generation e g) Q v.
Proof.
  intros Hlive HQ. unfold remember_if_generation. apply safe_bind, topics_now_safe. intros v1 Hr1 Hi1. cbn [then_safe].
  apply safe_bind, (topics_locked_safe i _ (fun _ => ∅)). intros v2 Hr2 Hi2 nd F v'.
  pose proof (live_since_rely _ _ _ _ _ (topics_rely_trans _ _ _ _ Hr1 Hr2) Hlive) as (Hgiven & Hgo & _ & Hno).
  assert (F = forgotten v2 (node i)) as -> by set_solver. unfold remember in *. change (nd_generation nd) with (generation v2 (node i)) in *.
  split; [case_match; simpl; done|]. split; [done|]. split; [set_solver|].
  split_and!.
  - destruct (_ =? g) eqn:Hgen; [|intros n s; by apply cached_facts]. apply Z.eqb_eq in Hgen. simpl. intros n s [[<- <-]|[_ Hs]]%lookup_insert_Some; [|by apply cached_facts].
    split; [by apply Hno|]. split; [by exists e|]. split; [done|]. eapply grows_clock, Hr2.
  - destruct (_ =? g) eqn:Hgen; [|apply Hi2]. apply Z.eqb_eq in Hgen. simpl. intros id n [[<- <-]|[_ Hs]]%lookup_insert_Some; [|by apply Hi2].
    split; [by apply Hno|by exists e].
  - intros Hi' Hg'. cbn [then_safe]. apply HQ; [|done|].
    + eapply topics_grows_trans; [apply Hr1|]. eapply topics_grows_trans; [apply Hr2|done].
    + intros n. destruct (_ =? g) eqn:Hgen; [|done]. apply Z.eqb_eq in Hgen. intros [= <-]. split; [done|]. intros Hh.
      by apply (Hno Hgen), (ti_here v2).
Qed.

(** ** The operations *)

Definition servable (k : nat) (n : TopicId) : Prop := ~ here k n /\ (expired -> ~ gone n).

(** What a lookup that serves [s] for [n] says. *)
Definition serves (k : nat) (n : TopicId) (s : Served) (v : TView) : Prop :=
  servable k n /\ exists e, is_given v n e /\ s = served_entry e (sv_cached_at s).

Lemma cached_not_here k n s v : topics_inv v -> nd_by_name (v_local v k) !! n = Some s -> ~ here k n.
Proof. intros Hi Hs Hh. destruct (ti_name _ Hi _ _ _ Hs) as [Hn _]. by apply Hn, Hi. Qed.

(** What is deleted is not fresh once the second is over. *)
Lemma fresh_not_gone k n s now v1 v2 :
  topics_inv v1 -> topics_inv v2 -> nd_by_name (v_local v1 k) !! n = Some s -> now = v_clock v2 k ->
  cache_is_fresh now s = true -> expired -> ~ gone n.
Proof.
  intros Hi1 Hi2 Hs -> Hf%Z.ltb_lt He Hgo. pose proof (ti_since _ Hi1 _ _ _ Hgo Hs). pose proof (ti_expired _ Hi2 He k). lia.
Qed.

(** Asking the catalog for a name. *)
Lemma asked_name_safe i n v (Q : Res (option CatalogEntry) -> TView -> Prop) :
  topics_inv v ->
  (forall v1 r, topics_inv v1 -> topics_grows v v1 ->
     (forall e, r = Ok (Some e) -> ce_name e = n /\ live_since i (generation v (node i)) e v1) -> Q r v1) ->
  TSafe i (ct_find prefix n) Q v.
Proof.
  intros Hi HQ. eapply safe_mono; [apply (asked_safe i _ id (fun r v' => forall e, r = Ok (Some e) ->
    ce_name e = n /\ given v' n e /\ v_objects v' !! sk prefix n = None)); [apply lockless_ct_find|done| |]|].
  - apply (ct_find_safe _ _ _ fault_opaque). intros v1 r _ Hc Hr e He. destruct (Hr e He) as [Hg Hno].
    split; [by destruct (ca_given _ _ Hc n e Hg)|done].
  - intros a v' Ha e He. unfold id in He. subst a. by destruct (Ha e eq_refl) as (<- & ? & ?).
  - intros r v1 (Hi1 & Hg1 & Hr & Hl). apply HQ; [done..|]. intros e ->. split; [by destruct (Hr e eq_refl)|]. by eapply Hl.
Qed.

(** What ends an operation: any answer that means what it should. *)
Definition ends {A} (means : A -> TView -> Prop) (r : Res A) (v : TView) : Prop := topics_inv v /\ forall a, r = Ok a -> means a v.

Lemma ends_none {B} (means : option B -> TView -> Prop) r v :
  means None v -> topics_inv v -> (forall b, r <> Ok (Some b)) -> ends means r v.
Proof. intros Hm Hi Hr. split; [done|]. intros [b|] ->; [by destruct (Hr b)|done]. Qed.

Lemma TopicId_new_same topic name : TopicId_new topic = Ok name -> name = topic.
Proof. unfold TopicId_new. case_decide; congruence. Qed.

Definition serves_opt (k : nat) (n : TopicId) (o : option Served) (v : TView) : Prop := forall s, o = Some s -> serves k n s v.

Lemma lookup_missed_safe i topic v :
  topics_inv v -> TSafe i (lookup_missed prefix topic) (ends (serves_opt (node i) topic)) v.
Proof.
  intros Hi. unfold lookup_missed.
  destruct (TopicId_new topic) as [name|err|] eqn:Hname; [|by apply ends_none..]. apply TopicId_new_same in Hname as ->.
  apply safe_bind, topics_reading_safe. intros v1 Hr1 Hi1. cbn [then_safe].
  apply safe_bind, safe_catch, asked_name_safe; [done|]. intros v2 r Hi2 Hg2 Hlive.
  destruct r as [[e|]|err|]; cbn [then_safe]; [|by apply ends_none..]. destruct (Hlive e eq_refl) as [He Hl].
  apply safe_bind, (remember_safe i _ e); [done|]. intros v3 o Hg3 Hi3 _. cbn [then_safe].
  apply safe_bind, topics_reading_safe. intros v4 Hr4 Hi4. split; [done|]. intros a [= <-] s Hs. split.
  - split; [exact (cached_not_here _ _ _ _ Hi4 Hs)|]. intros _. rewrite <-He. apply Hl.
  - by destruct (ti_name _ Hi4 _ _ _ Hs).
Qed.

Lemma served_safe i topic v : topics_inv v -> TSafe i (served prefix topic) (ends (serves_opt (node i) topic)) v.
Proof.
  intros Hi. unfold served. apply safe_bind, topics_reading_safe. intros v1 Hr1 Hi1. cbn [then_safe].
  destruct (nd_by_name _ !! topic) as [hit|] eqn:Hhit; [|by apply lookup_missed_safe].
  apply safe_bind, topics_now_safe. intros v2 Hr2 Hi2. cbn [then_safe]. destruct (cache_is_fresh _ hit) eqn:Hf.
  - split; [done|]. intros a [= <-] s [= <-]. split; [split|].
    + exact (cached_not_here _ _ _ _ Hi1 Hhit).
    + exact (fresh_not_gone _ _ _ _ _ _ Hi1 Hi2 Hhit eq_refl Hf).
    + destruct (ti_name _ Hi1 _ _ _ Hhit) as (_ & e & He & Hs). exists e. split; [|done]. eapply grows_given; [apply Hr2|done].
  - destruct (TopicId_new topic) as [name|err|]; [|by apply ends_none..].
    apply safe_bind, topics_shrinks_safe; [apply forget_name_shrinks|]. intros v3 nd Hg3 Hi3. by apply lookup_missed_safe.
Qed.

Definition names_opt (k : nat) (id : Z) (o : option string) (v : TView) : Prop :=
  forall n, o = Some n -> servable k n /\ exists e, is_given v n e /\ ce_id e = id.

Lemma name_missed_safe i id v : topics_inv v -> TSafe i (name_missed prefix id) (ends (names_opt (node i) id)) v.
Proof.
  intros Hi. unfold name_missed. apply safe_bind, topics_reading_safe. intros v1 Hr1 Hi1. cbn [then_safe].
  apply safe_bind, safe_catch. eapply safe_mono; [apply (asked_safe i _ Datatypes.id (fun r v' => forall e, r = Ok (Some e) ->
    given v' (ce_name e) e /\ v_objects v' !! sk prefix (ce_name e) = None /\ ce_id e = id)); [apply lockless_ct_find_id|done| |]|].
  - apply (ct_find_id_safe _ _ _ fault_opaque). auto.
  - intros a v' Ha e He. unfold Datatypes.id in He. subst a. by destruct (Ha e eq_refl) as (? & ? & _).
  - intros r v2 (Hi2 & Hg2 & Hr & Hl). destruct r as [[e|]|err|]; cbn [then_safe]; [|by apply ends_none..].
    destruct (Hr e eq_refl) as (Hgiven & _ & Hid). specialize (Hl _ e eq_refl eq_refl).
    apply (remember_safe i _ e); [exact Hl|]. intros v3 o Hg3 Hi3 Ho. split; [done|]. intros a [= <-] n Hn. destruct (Ho n Hn) as [-> Hh].
    split; [split; [done|intros _; apply Hl]|]. exists e. split; [by eapply grows_given|done].
Qed.

Lemma topic_name_by_id_safe i id v : topics_inv v -> TSafe i (topic_name_by_id prefix id) (ends (names_opt (node i) id)) v.
Proof.
  intros Hi. unfold topic_name_by_id. apply safe_bind, topics_reading_safe. intros v1 Hr1 Hi1. cbn [then_safe].
  destruct (nd_by_id _ !! id) as [name|] eqn:Hid; [|by apply name_missed_safe].
  apply safe_bind, topics_reading_safe. intros v2 Hr2 Hi2. cbn [then_safe].
  apply safe_bind, topics_now_safe. intros v3 Hr3 Hi3. cbn [then_safe].
  destruct (nd_by_name _ !! name) as [s|] eqn:Hs; [destruct (cache_is_fresh _ s) eqn:Hf|].
  1: { split; [done|]. intros a [= <-] n [= <-]. split; [split; [exact (cached_not_here _ _ _ _ Hi2 Hs)|exact (fresh_not_gone _ _ _ _ _ _ Hi2 Hi3 Hs eq_refl Hf)]|].
    destruct (ti_id _ Hi1 _ _ _ Hid) as (_ & e & He & Hide). exists e. split; [|done]. eapply grows_given; [|exact He].
    eapply topics_grows_trans; [apply Hr2|apply Hr3]. }
  all: destruct (TopicId_new name) as [topic|err|]; [|by apply ends_none..].
  all: apply safe_bind, topics_shrinks_safe; [apply forget_name_shrinks|]; intros v4 nd Hg4 Hi4; by apply name_missed_safe.
Qed.

(** Creating answers with the topic's entry, and never a deleted topic's. *)
Definition creates_opt (n : TopicId) (o : option CatalogEntry) (v : TView) : Prop := forall e, o = Some e -> is_given v n e /\ ~ gone n.

(** Asking the catalog to create a name. *)
Lemma asked_create_safe {A} i n (p : Prog Node A) (entry_of : A -> CatalogEntry) v (Q : Res A -> TView -> Prop) :
  lockless p -> topics_inv v ->
  (forall v0, CSafe i p (fun r v1 => forall a, r = Ok a -> ce_name (entry_of a) = n /\ given v1 n (entry_of a) /\ v_objects v1 !! sk prefix n = None) v0) ->
  (forall v1 r, topics_inv v1 -> topics_grows v v1 ->
     (forall a, r = Ok a -> ce_name (entry_of a) = n /\ live_since i (generation v (node i)) (entry_of a) v1) -> Q r v1) ->
  TSafe i p Q v.
Proof.
  intros Hl Hi Hp HQ. eapply safe_mono; [apply (asked_safe i _ (fun a => Some (entry_of a)) _ _ Hl Hi (Hp _))|].
  - intros a v' Ha e [= <-]. by destruct (Ha a eq_refl) as (<- & ? & ?).
  - intros r v1 (Hi1 & Hg1 & Hr & Hlive). apply HQ; [done..|]. intros a ->. split; [by destruct (Hr a eq_refl)|]. by eapply Hlive.
Qed.

Lemma create_topic_safe i n p v :
  entry_ok (CatalogEntry_new n p) -> topics_inv v ->
  TSafe i (create_topic_while_locked prefix n p) (ends (creates_opt n)) v.
Proof.
  intros Hok Hi. unfold create_topic_while_locked. apply safe_bind, topics_reading_safe. intros v1 Hr1 Hi1. cbn [then_safe].
  apply safe_bind, safe_catch, (asked_create_safe i n _ Datatypes.id); [apply lockless_insert_with_key_domain|done| |].
  { intros v0. apply (insert_safe _ _ _ fault_opaque); [done|]. intros v2 r _ Hc Hr a Ha. destruct (Hr a Ha) as [Hg Hno].
    split; [by destruct (ca_given _ _ Hc n a Hg)|done]. }
  intros v2 r Hi2 Hg2 Hlive. destruct r as [e|err|]; cbn [then_safe]; [|by apply ends_none..].
  destruct (Hlive e eq_refl) as [He Hl]. unfold Datatypes.id in *.
  apply safe_bind, (remember_safe i _ e); [done|]. intros v3 o Hg3 Hi3 _. split; [done|]. intros a [= <-] e' [= <-].
  destruct Hl as (Hg & Hgo & _). rewrite He in *. split; [by eapply grows_given|done].
Qed.

Definition owns_opt (n : TopicId) (o : option TopicCreateOutcome) (v : TView) : Prop :=
  forall c, o = Some c -> is_given v n (tc_entry c) /\ ~ gone n.

Lemma create_topic_owned_safe i n p c v :
  entry_ok (CatalogEntry_with_creator n p c) -> topics_inv v ->
  TSafe i (create_topic_owned_while_locked prefix n p c) (ends (owns_opt n)) v.
Proof.
  intros Hok Hi. unfold create_topic_owned_while_locked. apply safe_bind, topics_reading_safe. intros v1 Hr1 Hi1. cbn [then_safe].
  apply safe_bind, safe_catch, (asked_create_safe i n _ tc_entry); [apply lockless_insert_owned|done| |].
  { intros v0. apply (insert_owned_safe _ _ _ fault_opaque); [done|]. intros v2 r _ Hc Hr a Ha. destruct (Hr a Ha) as [Hg Hno].
    split; [by destruct (ca_given _ _ Hc n _ Hg)|done]. }
  intros v2 r Hi2 Hg2 Hlive. destruct r as [o|err|]; cbn [then_safe]; [|by apply ends_none..].
  destruct (Hlive o eq_refl) as [He Hl]. apply safe_bind, (remember_safe i _ (tc_entry o)); [done|]. intros v3 o' Hg3 Hi3 _. cbn [then_safe].
  destruct Hl as (Hg & Hgo & _). rewrite He in *. pose proof (grows_given _ _ _ _ Hg3 Hg) as Hg'.
  destruct (tc_created o); [|by split; [done|]; intros a [= <-] c' [= <-]].
  apply safe_bind, topics_shrinks_safe; [apply invalidate_shrinks|]. intros v4 nd Hg4 Hi4. split; [done|].
  intros a [= <-] c' [= <-]. split; [by eapply grows_given|done].
Qed.

Lemma ensure_topic_safe i topic v :
  (forall name, TopicId_new topic = Ok name -> entry_ok (CatalogEntry_new topic 1)) -> topics_inv v ->
  TSafe i (ensure_topic prefix topic) (ends (fun a v => a = true -> (exists e, is_given v topic e) /\ ~ gone topic)) v.
Proof.
  intros Hok Hi. unfold ensure_topic. destruct (TopicId_new topic) as [name|err|] eqn:Hname; [|by split; [done|]; intros a [= <-]..].
  pose proof (TopicId_new_same _ _ Hname) as ->. apply safe_bind. eapply safe_mono; [apply create_topic_safe; eauto|].
  intros r v1 [Hi1 Hr]. destruct r as [o|err|]; cbn [then_safe]; [|by split..]. split; [done|]. intros a [= <-] [e He]%bool_decide_eq_true.
  destruct (Hr _ eq_refl e He). eauto.
Qed.

(** ** Deleting *)

Definition deletes (k : nat) (n : TopicId) (o : TopicDeleteOutcome) (v : TView) : Prop :=
  deletion_means prefix (base v) n o /\ (confirmed o = true -> n ∈ forgotten v k).

Lemma deletion_means_grows v v' n o : topics_grows v v' -> deletion_means prefix (base v) n o -> deletion_means prefix (base v') n o.
Proof.
  intros [[H1 H2] _]. destruct o as [e|id| |]; simpl; [|..|done|done].
  - intros [Hg Ht]. split; auto.
  - intros [(e & Hg & He) Ht]. split; eauto.
Qed.

Lemma after_deletion_safe i n o v :
  deletion_means prefix (base v) n o -> topics_inv v -> TSafe i (after_deletion n o) (ends (fun _ v' => deletes (node i) n o v')) v.
Proof.
  intros Hm Hi. destruct o as [e|id| |]; cbn [after_deletion]; [| |by split..].
  - pose proof Hm as [Hg Ht]. assert (ce_name e = n) as Hn by (by destruct (ca_given _ _ (ti_catalog _ Hi) n e Hg)).
    apply safe_bind. unfold forget_entry. rewrite Hn.
    apply (forget_name_safe i n (ce_id e) e); [done..|]. intros v1 nd Hg1 Hi1 Hf. cbn [then_safe].
    assert (forall v2, topics_grows v1 v2 -> deletes (node i) n (Deleted e) v2) as Hd.
    { intros v2 Hg2. split; [|intros _; by eapply grows_forgotten]. eapply deletion_means_grows; [|exact Hm]. by eapply topics_grows_trans. }
    destruct (ce_creator e) as [c|]; [|split; [done|]; intros; apply Hd, topics_grows_refl].
    apply safe_bind, topics_shrinks_safe; [apply invalidate_shrinks|]. intros v2 nd2 Hg2 Hi2. split; [done|]. intros; by apply Hd.
  - pose proof Hm as [(e & Hg & He) Ht]. apply safe_bind, (forget_name_safe i n id e); [done..|]. intros v1 nd Hg1 Hi1 Hf. cbn [then_safe].
    apply safe_bind, topics_shrinks_safe; [apply invalidate_all_shrinks|]. intros v2 nd2 Hg2 Hi2. split; [done|]. intros _ _.
    split; [|intros _; by eapply grows_forgotten]. eapply deletion_means_grows; [|exact Hm]. by eapply topics_grows_trans.
Qed.

Lemma evict_safe i n v (Q : Res unit -> TView -> Prop) :
  (forall v1, topics_inv v1 -> Q (Ok tt) v1) -> TSafe i (evict_durably_absent_topic n) Q v.
Proof.
  intros HQ. unfold evict_durably_absent_topic. apply safe_bind, topics_shrinks_safe; [apply forget_topic_name_shrinks|].
  intros v1 nd _ Hi1. cbn [then_safe]. apply safe_bind, topics_shrinks_safe; [apply invalidate_all_shrinks|]. intros. by apply HQ.
Qed.

Lemma cluster_delete_safe i n expected v :
  topics_inv v -> TSafe i (cluster_delete_topic prefix n expected) (ends (deletes (node i) n)) v.
Proof.
  intros Hi. unfold cluster_delete_topic. apply safe_bind, safe_catch.
  eapply safe_mono; [apply (asked_safe i _ (fun _ => None) (fun r v' => forall o, r = Ok o -> deletion_means prefix v' n o));
    [apply lockless_delete_topic|done| |done]|].
  { apply (delete_topic_safe _ _ _ fault_opaque). auto. }
  intros r v1 (Hi1 & Hg1 & Hr & _). destruct r as [o|err|]; cbn [then_safe]; [| |by split].
  - apply safe_bind. eapply safe_mono; [apply after_deletion_safe; [by apply Hr|done]|]. intros r v2 [Hi2 Hd].
    destruct r as [[]|err|]; cbn [then_safe]; [|by split..]. split; [done|]. intros a [= <-]. by apply (Hd tt).
  - apply safe_bind, safe_catch, asked_name_safe; [done|]. intros v2 r Hi2 Hg2 _. assert (forall v3, topics_inv v3 ->
      TSafe i (pfail err) (ends (deletes (node i) n)) v3) as Hend by (by split).
    destruct r as [[e|]|err'|]; cbn [then_safe]; apply safe_bind || idtac; [by apply Hend| |by apply Hend|by split].
    apply evict_safe. intros v3 Hi3. by apply Hend.
Qed.

(** ** What the answers mean *)

Definition topic_means (v : TView) (op : nat * TopicOp) (a : TopicAnswer) : Prop :=
  let k := op.1 in
  match op.2, a with
  | OpPartitionCount n, AnsCount (Some c) => servable k n /\ exists e, is_given v n e /\ ce_partitions e = c
  | OpTopicId n, AnsTopicId (Some id) => servable k n /\ exists e, is_given v n e /\ ce_id e = id
  | OpKeyDomain n, AnsKeyDomain (Some d) => servable k n /\ exists e, is_given v n e /\ ce_key_domain e = d
  | OpNameById id, AnsName (Some n) => servable k n /\ exists e, is_given v n e /\ ce_id e = id
  | OpEnsure n, AnsEnsured true => (exists e, is_given v n e) /\ ~ gone n
  | OpCreate n _, AnsCreatedTopic (Some e) => is_given v n e /\ ~ gone n
  | OpCreateOwned n _ _, AnsOwned (Some o) => is_given v n (tc_entry o) /\ ~ gone n
  | OpDelete n _, AnsDeletion o => deletes k n o v
  | _, _ => True
  end.

Definition topic_op_ok (op : TopicOp) : Prop :=
  match op with
  | OpEnsure topic => forall name, TopicId_new topic = Ok name -> entry_ok (CatalogEntry_new topic 1)
  | OpCreate n p => entry_ok (CatalogEntry_new n p)
  | OpCreateOwned n p c => entry_ok (CatalogEntry_with_creator n p c)
  | _ => True
  end.

Definition topic_answered (op : nat * TopicOp) (r : Res TopicAnswer) (v : TView) : Prop := forall a, r = Ok a -> topic_means v op a.

(** A program followed by its answer. *)
Lemma answering_safe {A} i (p : Prog Node A) (f : A -> TopicAnswer) (means : A -> TView -> Prop) op v :
  TSafe i p (ends means) v -> (forall a v', means a v' -> topic_means v' op (f a)) ->
  TSafe i (let* a := p in preturn (f a)) (topic_answered op) v.
Proof.
  intros Hp Hf. apply safe_bind. eapply safe_mono; [exact Hp|]. intros r v' [_ Hr]. destruct r as [a|err|]; cbn [then_safe]; intros b [= <-].
  by apply Hf, Hr.
Qed.

Lemma serving_safe {A} i topic (f : Served -> A) (g : option A -> TopicAnswer) op v :
  topics_inv v ->
  (forall s v', serves (node i) topic s v' -> topic_means v' op (g (Some (f s)))) -> (forall v', topic_means v' op (g None)) ->
  TSafe i (let* a := (let* t := served prefix topic in preturn (f <$> t)) in preturn (g a)) (topic_answered op) v.
Proof.
  intros Hi Hs Hn. apply safe_bind, safe_bind. eapply safe_mono; [by apply served_safe|]. intros r v' [_ Hr].
  destruct r as [[s|]|err|]; cbn; intros b [= <-]; [by apply Hs, (Hr _ eq_refl)|done].
Qed.

Lemma topics_safe i k op v :
  k = node i -> topic_op_ok op -> topics_inv v -> TSafe i (topics_code prefix i (k, op)) (topic_answered (k, op)) v.
Proof.
  intros -> Hok Hi. destruct op as [n|n|n|id|n|n p|n p c|n expected]; unfold topics_code, partition_count, topic_id, topic_key_domain; cbn [snd].
  1-3: apply serving_safe; [done| |done]; intros s v' (Hs & e & He & ->); split; [done|by exists e].
  - eapply answering_safe; [by apply topic_name_by_id_safe|]. intros [n|] v' Hn; [|done]. by apply Hn.
  - eapply answering_safe; [by apply ensure_topic_safe|]. intros [] v' Hn; [|done]. by apply Hn.
  - eapply answering_safe; [by apply create_topic_safe|]. intros [e|] v' Hn; [|done]. by apply Hn.
  - eapply answering_safe; [by apply create_topic_owned_safe|]. intros [o|] v' Hn; [|done]. by apply Hn.
  - eapply answering_safe; [by apply cluster_delete_safe|]. intros o v' Hd. exact Hd.
Qed.

Lemma topic_means_grows v v' op a : topics_grows v v' -> topic_means v op a -> topic_means v' op a.
Proof using Type.
  intros Hg. pose proof (fun n e => grows_given v v' n e Hg) as Hgiven. destruct op as [k op]. unfold topic_means. cbn [fst snd].
  destruct op, a; try done; try (case_match; try done).
  all: try (by intros (? & e & ? & ?); split; [|exists e; auto]).
  all: try (by intros ((e & ?) & ?); split; [exists e; auto|]).
  all: try (by intros (? & ?); split; auto).
  intros [Hm Hf]. split; [by eapply deletion_means_grows|]. intros Hc. eapply grows_forgotten; [done|auto].
Qed.
End cluster.

(** ** Every interleaving *)

Section interleaving.
Context {S : Type} `{ObjectStoreLaws S} (prefix : string) (node : nat -> nat).

Notation TWorld := (World S Node TopicAnswer (nat * TopicOp)).

(** Any task of a node may start what the node is asked; the clocks only go on. *)
Definition topics_reachable : TWorld -> TWorld -> Prop :=
  reachable node (topics_code prefix) Node_new (fun i op => op.1 = node i /\ topic_op_ok op.2) (fun _ => True) (catalog_others prefix).

Record topics_start (w : TWorld) : Prop := {
  ts_empty : forall n, objects (w_store w) !! tk prefix n = None /\ objects (w_store w) !! sk prefix n = None;
  ts_local : forall k, w_local w k = Node_new;
  ts_idle : forall i, w_task w i = None;
  ts_answers : w_answers w = [];
}.

Notation topics_world here gone since expired := (world_safe os_fault node (topics_inv prefix here gone since expired)
  (topics_rely prefix node) (topics_grows prefix) (topic_answered prefix here gone expired)).

Lemma topics_obligations here gone since expired :
  Obligations os_fault node (topics_inv prefix here gone since expired) (topics_rely prefix node) (topics_grows prefix) (S := S)
    (topics_code prefix) Node_new (fun i op => op.1 = node i /\ topic_op_ok op.2) (fun _ => True) (catalog_others prefix)
    (topic_answered prefix here gone expired).
Proof.
  split.
  - done.
  - by intros i v v' [Hg _].
  - intros i [k op] v [Hk Hok] Hi. by apply (topics_safe prefix os_fault node fault_law).
  - intros op r v v' Hg Ha a Hr. exact (topic_means_grows _ _ _ _ _ _ op a Hg (Ha a Hr)).
  - intros v clock' Hi Hle _ v'. assert (topics_grows prefix v v') as Hg by (split; [by split|]; by intros k; split).
    split; [|split; [done|by intros i]]. split; try apply Hi.
    + by destruct (ti_catalog _ _ _ _ _ _ Hi); split.
    + intros k n s Hs. pose proof (ti_clock _ _ _ _ _ _ Hi k n s Hs). specialize (Hle k). simpl. lia.
    + intros He k. pose proof (ti_expired _ _ _ _ _ _ Hi He k). specialize (Hle k). simpl. lia.
  - intros v m' Hi Hoth v'. destruct (others_ok prefix (base v) m' (ti_catalog _ _ _ _ _ _ Hi) Hoth) as [Hc Hg].
    assert (v' = with_base v m' (v_ghost v).1) as -> by (unfold v', with_base; by destruct (v_ghost v)).
    destruct (topics_step_frame prefix node here gone since expired (Datatypes.S (node 0%nat)) v m' (v_ghost v).1 Hi Hc) as [Hi' [Hg' _]].
    { split; [done|by intros]. }
    split; [done|]. split; [done|]. intros i. by split.
  - intros v k Hi v'. assert (topics_grows prefix v v') as Hg by (split; [by split|done]).
    assert (forall j, v_local v' j = if decide (j = k) then Node_new else v_local v j) as HL.
    { intros j. unfold v'. simpl. case_decide; [subst; apply fn_lookup_insert|by rewrite fn_lookup_insert_ne]. }
    split; [|split; [done|]].
    + split; try apply Hi.
      * by destruct (ti_catalog _ _ _ _ _ _ Hi); split.
      * intros j n s. rewrite HL. case_decide; [done|apply Hi].
      * intros j id n. rewrite HL. case_decide; [done|apply Hi].
      * intros j n s Hgo. rewrite HL. case_decide; [done|by apply Hi].
      * intros j n s. rewrite HL. case_decide; [done|apply Hi].
    + intros i Hi'. split; [done|]. unfold generation. rewrite HL, decide_False by done. done.
Qed.

Lemma topics_stay_safe here gone since expired w w' g :
  topics_world here gone since expired w g -> topics_reachable w w' ->
  exists g', topics_world here gone since expired w' g' /\ topics_grows prefix (view w g) (view w' g').
Proof.
  apply (reachable_safe _ _ _ _ _ (topics_rely_refl prefix node) (topics_rely_trans prefix node) (topics_grows_refl prefix)
    _ _ _ _ _ _ (topics_obligations here gone since expired) _ _ _ (topics_grows_trans prefix)).
Qed.

Definition nowhere : nat -> TopicId -> Prop := fun _ _ => False.
Definition none_gone : TopicId -> Prop := fun _ => False.

Lemma topics_start_safe w : topics_start w -> topics_world nowhere none_gone (fun _ => 0) False w (∅, fun _ => ∅).
Proof.
  intros [He Hl Hidle Hans]. split; [split|split; [intros i o p; by rewrite Hidle|by rewrite Hans; intros o r ?%elem_of_nil]]; simpl.
  - split.
    + intros n e Hn. by destruct (lookup_empty_Some n e).
    + intros n b token _ Hn. simpl in Hn. destruct (He n) as [H1 _]. congruence.
    + intros n e Hn. by destruct (lookup_empty_Some n e).
    + intros n b token Hn. simpl in Hn. destruct (He n) as [_ H1]. congruence.
  - intros k n s. by rewrite Hl.
  - intros k id n. by rewrite Hl.
  - intros k n Hn. by apply elem_of_empty in Hn.
  - done.
  - done.
  - done.
  - intros k n s. by rewrite Hl.
  - done.
Qed.

(** Whether an answer serves the topic of a name. *)
Definition serves_name (n : TopicId) (op : TopicOp) (a : TopicAnswer) : Prop :=
  match op, a with
  | OpPartitionCount t, AnsCount (Some _) | OpTopicId t, AnsTopicId (Some _) | OpKeyDomain t, AnsKeyDomain (Some _)
  | OpEnsure t, AnsEnsured true | OpCreate t _, AnsCreatedTopic (Some _) | OpCreateOwned t _ _, AnsOwned (Some _)
  | OpNameById _, AnsName (Some t) => t = n
  | _, _ => False
  end.

Lemma answers_serve here gone expired v k op a n :
  topic_means prefix here gone expired v (k, op) a -> gone n -> (here k n \/ expired) -> ~ serves_name n op a.
Proof.
  intros Hm Hg Hor Hs. unfold topic_means, servable in Hm. cbn [fst snd] in Hm.
  destruct op, a; try done; simpl in Hs; repeat case_match; try done; subst; naive_solver.
Qed.

(** From some moment on, the operations in flight then told from those that
    start later. *)
Definition topics_marked : World S Node TopicAnswer (bool * (nat * TopicOp)) -> World S Node TopicAnswer (bool * (nat * TopicOp)) -> Prop :=
  marked_reachable node (topics_code prefix) Node_new (fun i op => op.1 = node i /\ topic_op_ok op.2) (fun _ => True) (catalog_others prefix).

Notation topics_known here gone since expired until := (world_marked node os_fault (topics_inv prefix here gone since expired)
  (topics_rely prefix node) (topics_grows prefix) (topic_answered prefix here gone expired) until).

Lemma topics_marks_safe here gone since expired m m' g :
  topics_known here gone since expired (w_clock m') m g -> topics_marked m m' ->
  exists g', topics_known here gone since expired (w_clock m') m' g'.
Proof.
  intros Hm Hr. exact (marked_safe _ _ _ _ _ _ os_fault _ _ _ _ (w_clock m') (topics_rely_refl prefix node) (topics_rely_trans prefix node)
    (topics_obligations here gone since expired) m m' g Hm Hr (fun k => Z.le_refl _)).
Qed.

Definition only (k : nat) (n : TopicId) : nat -> TopicId -> Prop := fun k' n' => k' = k /\ n' = n.

(** What is known from the moment a deletion was answered: whatever a node in
    flight still caches, it caches before the time it is watched to. *)
Lemma deletion_answered w g k n expected o until :
  topics_world nowhere none_gone (fun _ => 0) False w g ->
  ((k, OpDelete n expected), Ok (AnsDeletion o)) ∈ w_answers w -> confirmed o = true -> (forall j, w_clock w j <= until j) ->
  topics_known (only k n) (fun n' => n' = n) until False until (mark w) g.
Proof.
  intros (Hi & Htasks & Ha) Hin Ho Hun. specialize (Ha _ _ Hin _ eq_refl) as [Hm Hf]. specialize (Hf Ho).
  assert (is_tombstoned prefix (view w g) n) as Ht by (destruct o; try done; apply Hm).
  assert (forall v, topics_inv prefix nowhere none_gone (fun _ => 0) False v -> n ∈ forgotten v k -> is_tombstoned prefix v n ->
    (forall j, v_clock v j <= until j) -> topics_inv prefix (only k n) (fun n' => n' = n) until False v) as Hmake.
  { intros v [H1 H2 H3 H4 H5 H6 H7 H8 H9] Hfv Htv Hbv. split; try done.
    - by intros k' n' [-> ->].
    - by intros n' ->.
    - intros k' n' s _ Hs. etrans; [by eapply H8|apply Hbv]. }
  split; [by apply Hmake|]. split; [|intros op r ?%elem_of_nil; done].
  intros i [b op] p ([op' q] & Hq & [= -> -> ->])%fmap_Some. eapply safe_mono; [|done].
  eapply safe_convert; [| |by apply (Htasks i op' q)].
  - intros v [[H1 H2 H3 H4 H5 H6 H7 H8 H9] _]. by split.
  - intros v m' l' g' v' [Hv Hb] Hv' Hgr. split; [|exact Hb]. apply Hmake; [done| | |exact Hb].
    + eapply grows_forgotten; [exact Hgr|]. by apply (ti_here _ _ _ _ _ _ Hv).
    + eapply grows_tombstoned; [exact Hgr|]. by apply (ti_gone _ _ _ _ _ _ Hv).
Qed.

(** C14. A node that was answered that a topic is deleted serves it no more: no
    operation that starts at the node afterwards is answered with the topic, from
    the cache or the catalog, by its name or by its id, or by creating it again.
    That holds although lookups and creations that were in flight at that moment,
    at this node and at others, go on and may fill caches. *)
Theorem deleted_not_served_here (w0 w : TWorld) m k n expected o :
  topics_start w0 -> topics_reachable w0 w ->
  ((k, OpDelete n expected), Ok (AnsDeletion o)) ∈ w_answers w -> confirmed o = true -> topics_marked (mark w) m ->
  forall op a, ((true, (k, op)), Ok a) ∈ w_answers m -> ~ serves_name n op a.
Proof.
  intros Hstart Hw Hin Ho Hm op a Hop. destruct (topics_stay_safe _ _ _ _ _ _ _ (topics_start_safe w0 Hstart) Hw) as (g & Hs & _).
  pose proof (deletion_answered _ _ _ _ _ _ (w_clock m) Hs Hin Ho (marked_clocks _ _ _ _ _ _ _ _ Hm)) as Hs2.
  destruct (topics_marks_safe _ _ _ _ _ _ _ Hs2 Hm) as (g' & _ & _ & Ha).
  eapply answers_serve; [by apply (Ha _ _ Hop a eq_refl)|done|by left].
Qed.

(** A second later what is still in flight may be watched as before. *)
Lemma deletion_expired w g k n since until :
  topics_world (only k n) (fun n' => n' = n) since False w g -> (forall j, since j + TOPIC_CACHE_TTL <= w_clock w j) ->
  topics_known (only k n) (fun n' => n' = n) since True until (mark w) g.
Proof.
  intros (Hi & Htasks & _) Hpassed. split; [destruct Hi as [H1 H2 H3 H4 H5 H6 H7 H8 H9]; by split|].
  split; [|intros op r ?%elem_of_nil; done].
  intros i [b op] p ([op' q] & Hq & [= -> -> ->])%fmap_Some. eapply safe_mono; [|done].
  eapply safe_convert; [| |by apply (Htasks i op' q)].
  - intros v [[H1 H2 H3 H4 H5 H6 H7 H8 H9] _]. by split.
  - intros v m' l' g' v' [Hv Hb] [H1 H2 H3 H4 H5 H6 H7 H8 H9] Hgr. split; [|exact Hb]. split; try done.
    intros _ j. by apply (ti_expired _ _ _ _ _ _ Hv).
Qed.

(** C15. A deleted topic expires everywhere.  After a deletion was answered ([w]),
    and the operations that were in flight at any node then have ended ([m1]), and a
    second has passed since on the clock of every node ([w2]), no operation that
    starts at any node serves the topic any more, whatever the node had cached and
    whatever else is in flight.  The second counts from the end of the last of
    those operations, not from the deletion's answer: until it ends, a lookup that
    had found the topic may still put it in its node's cache. *)
Theorem deleted_expires_everywhere (w0 w w2 : TWorld) m1 m3 k n expected o :
  topics_start w0 -> topics_reachable w0 w ->
  ((k, OpDelete n expected), Ok (AnsDeletion o)) ∈ w_answers w -> confirmed o = true ->
  topics_marked (mark w) m1 -> (forall i op p, w_task m1 i <> Some ((false, op), p)) ->
  topics_reachable (unmark m1) w2 -> (forall j, w_clock m1 j + TOPIC_CACHE_TTL <= w_clock w2 j) ->
  topics_marked (mark w2) m3 ->
  forall j op a, ((true, (j, op)), Ok a) ∈ w_answers m3 -> ~ serves_name n op a.
Proof.
  intros Hstart Hw Hin Ho Hm1 Hended Hw2 Hpassed Hm3 j op a Hop.
  destruct (topics_stay_safe _ _ _ _ _ _ _ (topics_start_safe w0 Hstart) Hw) as (g & Hs & _).
  pose proof (deletion_answered _ _ _ _ _ _ (w_clock m1) Hs Hin Ho (marked_clocks _ _ _ _ _ _ _ _ Hm1)) as Hs1.
  destruct (topics_marks_safe _ _ _ _ _ _ _ Hs1 Hm1) as (g1 & Hi1 & Ht1 & _).
  assert (topics_world (only k n) (fun n' => n' = n) (w_clock m1) False (forget (unmark m1)) g1) as Hs2.
  { split; [exact Hi1|]. split; [|intros op' r ?%elem_of_nil; done].
    intros i op' p Hp. apply fmap_Some in Hp as ([[b op2] q] & Hq & [= -> ->]). destruct b; [|by destruct (Hended i op2 q)].
    exact (Ht1 _ _ _ Hq). }
  destruct (reachable_forget _ _ _ _ _ _ _ _ Hw2) as (new & _ & Hreach).
  destruct (topics_stay_safe _ _ _ _ _ _ _ Hs2 Hreach) as (g2 & Hs3 & _).
  pose proof (deletion_expired _ _ _ _ _ (w_clock m3) Hs3 Hpassed) as Hs4.
  destruct (topics_marks_safe _ _ _ _ (mark w2) m3 g2 Hs4 Hm3) as (g3 & _ & _ & Ha).
  eapply answers_serve; [by apply (Ha _ _ Hop a eq_refl)|done|by right].
Qed.

(** Nodes agree on a topic: whatever two nodes answer of the partitions of
    a topic, from their caches or from the catalog, is the same number. *)
Theorem partition_counts_agree (w w' : TWorld) k1 k2 n c1 c2 :
  topics_start w -> topics_reachable w w' ->
  ((k1, OpPartitionCount n), Ok (AnsCount (Some c1))) ∈ w_answers w' ->
  ((k2, OpPartitionCount n), Ok (AnsCount (Some c2))) ∈ w_answers w' -> c1 = c2.
Proof.
  intros Hstart Hw H1 H2. destruct (topics_stay_safe _ _ _ _ _ _ _ (topics_start_safe w Hstart) Hw) as (g & (_ & _ & Ha) & _).
  destruct (Ha _ _ H1 _ eq_refl) as (_ & e1 & He1 & <-). destruct (Ha _ _ H2 _ eq_refl) as (_ & e2 & He2 & <-).
  unfold is_given, given in *. congruence.
Qed.
End interleaving.

(** Node 1 creates a topic.  Node 0 looks it up; while that lookup is with the
    catalog, another task of node 0 deletes the topic. *)
Notation DemoTopics := (World FakeObjectStore Node TopicAnswer (nat * TopicOp)).

Definition demo_node (i : nat) : nat := match i with 0 | 1 => 0 | _ => 1 end%nat.

Definition demo_topics_start : DemoTopics := mkWorld FakeObjectStore_new (fun _ => Node_new) (fun _ => 0) (fun _ => None) [].

Definition demo_topics_drive : list (nat * (nat * TopicOp)) -> DemoTopics -> DemoTopics := drive demo_node (topics_code "shard-0").

Definition count_here : nat * (nat * TopicOp) := (1%nat, (0%nat, OpPartitionCount "orders")).
Definition count_there : nat * (nat * TopicOp) := (3%nat, (1%nat, OpPartitionCount "orders")).
Definition create_there : nat * (nat * TopicOp) := (2%nat, (1%nat, OpCreate "orders" 3)).
Definition delete_here : nat * (nat * TopicOp) := (0%nat, (0%nat, OpDelete "orders" None)).

(** The lookup is in flight when the deletion is answered. *)
Definition demo_race : list (nat * (nat * TopicOp)) :=
  replicate 9 create_there ++ replicate 7 count_here ++ replicate 7 delete_here.
Definition demo_raced : DemoTopics := demo_topics_drive demo_race demo_topics_start.

Definition later (move : nat * (nat * TopicOp)) : nat * (bool * (nat * TopicOp)) := (move.1, (true, move.2)).
Definition demo_topics_marked : list (nat * (nat * TopicOp)) -> World FakeObjectStore Node TopicAnswer (bool * (nat * TopicOp)) ->
    World FakeObjectStore Node TopicAnswer (bool * (nat * TopicOp)) :=
  fun moves => drive demo_node (marked_code (topics_code "shard-0")) (later <$> moves).

(** The lookup ends; then node 0 looks the topic up, and node 1, which has it
    cached. *)
Definition demo_asked : World FakeObjectStore Node TopicAnswer (bool * (nat * TopicOp)) :=
  demo_topics_marked (replicate 4 count_here ++ replicate 5 count_here ++ replicate 4 count_there) (mark demo_raced).

(** A second later node 1 looks it up again. *)
Definition demo_later : DemoTopics :=
  mkWorld (w_store demo_asked) (w_local demo_asked) (fun _ => TOPIC_CACHE_TTL) (w_task (unmark demo_asked)) (w_answers (unmark demo_asked)).
Definition demo_expired : World FakeObjectStore Node TopicAnswer (bool * (nat * TopicOp)) :=
  demo_topics_marked (replicate 7 count_there) (mark demo_later).

Lemma demo_create_there_ok : topic_op_ok (OpCreate "orders" 3).
Proof. split; [by apply (bool_decide_unpack _)|done|done|done|done]. Qed.

Ltac demo_topic_ops := repeat first [exact I|reflexivity|exact demo_create_there_ok|constructor].

Lemma demo_race_reachable : topics_reachable "shard-0" demo_node demo_topics_start demo_raced.
Proof. apply drive_reachable. demo_topic_ops. Qed.
Lemma demo_asked_reachable : topics_marked "shard-0" demo_node (mark demo_raced) demo_asked.
Proof. apply drive_reachable. demo_topic_ops. Qed.
Lemma demo_later_reachable : topics_reachable "shard-0" demo_node (unmark demo_asked) demo_later.
Proof.
  apply rtc_once. unfold demo_later. apply (ws_tick _ _ _ _ _ _ (unmark demo_asked)); [|done]. intros n.
  unfold demo_asked, demo_topics_marked, unmark. cbn [w_clock]. rewrite drive_clock. unfold mark. cbn [w_clock].
  unfold demo_raced, demo_topics_drive. by rewrite drive_clock.
Qed.
Lemma demo_expired_reachable : topics_marked "shard-0" demo_node (mark demo_later) demo_expired.
Proof. apply drive_reachable. demo_topic_ops. Qed.
Lemma demo_topics_started : topics_start "shard-0" demo_topics_start.
Proof. by split. Qed.

Lemma deleted_not_served_here_witness :
  w_answers demo_asked =
    [((false, (0%nat, OpPartitionCount "orders")), Ok (AnsCount None)); ((true, (0%nat, OpPartitionCount "orders")), Ok (AnsCount None));
     ((true, (1%nat, OpPartitionCount "orders")), Ok (AnsCount (Some 3)))] /\
  forall op a, ((true, (0%nat, op)), Ok a) ∈ w_answers demo_asked -> ~ serves_name "orders" op a.
Proof.
  split; [vm_compute; reflexivity|].
  apply (deleted_not_served_here "shard-0" demo_node demo_topics_start demo_raced demo_asked 0%nat "orders" None (Deleted demo_orders)).
  - exact demo_topics_started.
  - exact demo_race_reachable.
  - vm_compute. repeat constructor.
  - reflexivity.
  - exact demo_asked_reachable.
Defined.

Lemma deleted_expires_everywhere_witness :
  w_answers demo_expired = [((true, (1%nat, OpPartitionCount "orders")), Ok (AnsCount None))] /\
  forall j op a, ((true, (j, op)), Ok a) ∈ w_answers demo_expired -> ~ serves_name "orders" op a.
Proof.
  split; [vm_compute; reflexivity|].
  apply (deleted_expires_everywhere "shard-0" demo_node demo_topics_start demo_raced demo_later demo_asked demo_expired
    0%nat "orders" None (Deleted demo_orders)).
  - exact demo_topics_started.
  - exact demo_race_reachable.
  - vm_compute. repeat constructor.
  - reflexivity.
  - exact demo_asked_reachable.
  - intros [|[|[|[|i]]]] op p; vm_compute; discriminate.
  - exact demo_later_reachable.
  - intros j. unfold demo_asked, demo_topics_marked. rewrite drive_clock. unfold mark. cbn [w_clock].
    unfold demo_raced, demo_topics_drive. rewrite drive_clock. simpl. unfold TOPIC_CACHE_TTL. lia.
  - exact demo_expired_reachable.
Defined.

Definition demo_counts : list (nat * (nat * TopicOp)) := replicate 9 create_there ++ replicate 11 count_here ++ replicate 4 count_there.

Lemma partition_counts_agree_witness :
  drop 1 (w_answers (demo_topics_drive demo_counts demo_topics_start)) =
    [((0%nat, OpPartitionCount "orders"), Ok (AnsCount (Some 3))); ((1%nat, OpPartitionCount "orders"), Ok (AnsCount (Some 3)))] /\ 3 = 3.
Proof.
  split; [vm_compute; reflexivity|].
  apply (partition_counts_agree "shard-0" demo_node demo_topics_start (demo_topics_drive demo_counts demo_topics_start) 0%nat 1%nat "orders" 3 3).
  - exact demo_topics_started.
  - apply drive_reachable. demo_topic_ops.
  - vm_compute. repeat constructor.
  - vm_compute. repeat constructor.
Defined.
