(* ===== verification/CatalogList.v ===== *)
(** * CatalogList: pages of topic names

    The listings of the stored catalog ([page] and [owned_page] of
    [catalog/stored.rs]) against those of the in-memory one: on objects that
    nobody is changing, whatever the pages are cut into, they answer the same
    names in the same order.  What they answer while others create and delete is
    in CatalogProps.v. *)

From stdpp Require Import base tactics list numbers strings gmap sorting.
From Stdlib Require Import ZArith Lia Ascii.
From S2P Require Import Prelude Bytes Types Store Machine Segment Bundle Stream Merge Authz Catalog CatalogProps.

Open Scope Z_scope.

(** ** Hexadecimal keeps byte order *)

Lemma key_lt_app p x y : key_lt (p +:+ x) (p +:+ y) <-> key_lt x y.
Proof.
  induction p as [|a p IH]; [done|]. change (key_lt (String a (p +:+ x)) (String a (p +:+ y)) <-> key_lt x y).
  rewrite key_lt_cons, IH. split; [|by right]. intros [|[_ ?]]; [lia|done].
Qed.

Lemma hex_digit_byte d : 0 <= d < 16 -> byte_of_ascii (hex_digit d) = if d <? 10 then 48 + d else 87 + d.
Proof.
  intros Hd. unfold hex_digit. destruct (Z.ltb_spec d 10); apply byte_of_ascii_of_byte; unfold is_byte, u8_max; lia.
Qed.

Lemma hex_cons a s : hex (as_bytes (String a s)) =
  String (hex_digit (byte_of_ascii a / 16 mod 16)) (String (hex_digit (byte_of_ascii a mod 16)) (hex (as_bytes s))).
Proof. done. Qed.

Lemma hex_digit_lt a b : 0 <= a < 16 -> 0 <= b < 16 -> byte_of_ascii (hex_digit a) < byte_of_ascii (hex_digit b) <-> a < b.
Proof. intros Ha Hb. rewrite !hex_digit_byte by done. destruct (Z.ltb_spec a 10), (Z.ltb_spec b 10); lia. Qed.

Lemma hex_lt x y : key_lt (hex (as_bytes x)) (hex (as_bytes y)) <-> key_lt x y.
Proof.
  revert y. induction x as [|a x IH]; intros [|b y]; [done| |done|]; [by rewrite hex_cons|].
  rewrite !hex_cons, !key_lt_cons, IH.
  assert (forall c, 0 <= byte_of_ascii c < 256) as Hb by (intros c; unfold byte_of_ascii; pose proof (Ascii.N_ascii_bounded c); lia).
  pose proof (Hb a) as Ha. specialize (Hb b). set (za := byte_of_ascii a) in *. set (zb := byte_of_ascii b) in *.
  assert (a = b <-> za = zb) as Hab.
  { split; [by unfold za, zb; intros ->|]. unfold za, zb, byte_of_ascii. intros Heq%N2Z.inj.
    by rewrite <-(Ascii.ascii_N_embedding a), <-(Ascii.ascii_N_embedding b), Heq. }
  clearbody za zb. rewrite Hab. clear Hab IH.
  rewrite !hex_digit_lt by (apply Z.mod_pos_bound; lia).
  assert (forall u v, 0 <= u < 16 -> 0 <= v < 16 -> hex_digit u = hex_digit v <-> u = v) as Heq
    by (intros u v Hu Hv; split; [by apply hex_digit_inj|by intros ->]).
  rewrite !Heq by (apply Z.mod_pos_bound; lia).
  rewrite !(Z.mod_small (_ / 16)) by (split; [apply Z.div_pos|apply Z.div_lt_upper_bound]; lia).
  pose proof (Z.div_mod za 16). pose proof (Z.div_mod zb 16). pose proof (Z.mod_pos_bound za 16). pose proof (Z.mod_pos_bound zb 16).
  split.
  - intros [|[? [|[? ?]]]]; [left; lia|left; lia|]. right. split; [lia|done].
  - intros [|[-> ?]]; [|by auto]. destruct (Z.lt_total (za / 16) (zb / 16)) as [|[|]]; [by left| |lia]. right. split; [done|]. left. lia.
Qed.

Lemma keyed_le p x y : key_le (p +:+ hex (as_bytes x)) (p +:+ hex (as_bytes y)) <-> key_le x y.
Proof.
  rewrite !key_le_lt, key_lt_app, hex_lt. split; intros [|Heq]; auto; [|by subst; auto]. apply (inj _) in Heq. right. by apply hex_name_inj.
Qed.

(** ** Lookups on objects that nobody changes *)

Section quiet.
Context {T : Type} (prefix : string) (fault : Error -> Prop) (m : Objects).
Hypothesis fault_opaque : forall e, fault e -> opaque_fault e.

Notation quiet p Q := (quiet (T := T) fault m p Q).
Notation answers := (answers fault).

Lemma quiet_read key : quiet (ct_read key) (answers (Ok (fst <$> m !! key))).
Proof.
  intros i v v1 _ Hv r Hr. rewrite Hv in Hr. destruct r as [b|e|]; simpl in Hr |- *; [| |done].
  - destruct Hr as (payload & token & -> & [= ->]). apply quiet_answer; [by left|done].
  - assert (fault e \/ e = ObjectNotFound key /\ m !! key = None) as [He|[-> ->]].
    { destruct Hr as [|Hr]; [by left|]. destruct (m !! key) as [[payload ?]|]; [done|by right]. }
    + assert (answers (Ok (fst <$> m !! key)) (Err e)) as Ha by (right; eauto). pose proof (fault_opaque e He).
      destruct e; try done; by apply quiet_answer.
    + apply quiet_answer; [by left|done].
Qed.

(** *** What a lookup finds *)

#[local] Arguments pbind : simpl never.

Definition ik (id : Z) : string := prefix +:+ "/id/" +:+ String.string_of_list_ascii (hex_digits 32 id).
Definition ok (creator : Principal) (n : TopicId) : string := owner_prefix prefix creator +:+ hex (as_bytes n).

Definition entry_in (key : ObjectKey) (n : TopicId) (at_ : Z) : Res (option CatalogEntry) :=
  match m !! key with
  | None => Ok None
  | Some (b, _) =>
      let? e := ce_decode b in
      if decide (ce_name e = n) then Ok (Some e) else Err (MalformedMetadataSegment at_)
  end.

(** The topic of a name: its entry, its index by id, and no tombstone. *)
Definition find_in (n : TopicId) : Res (option CatalogEntry) :=
  let? gone := entry_in (sk prefix n) n 0 in
  match gone with
  | Some _ => Ok None
  | None =>
      let? found := entry_in (tk prefix n) n 5 in
      match found with
      | None => Ok None
      | Some e =>
          match m !! ik (ce_id e) with
          | None => Ok None
          | Some (b, _) => if decide (b = as_bytes n) then Ok (Some e) else Err (MalformedMetadataSegment 0)
          end
      end
  end.

Lemma quiet_entry_at key n at_ o : entry_in key n at_ = Ok o -> quiet (entry_at_key key n at_) (answers (Ok o)).
Proof.
  intros Ho. unfold entry_at_key. eapply quiet_bind; [apply quiet_read|]. unfold entry_in in Ho.
  destruct (m !! key) as [[b token]|]; simpl in Ho |- *; [|injection Ho as <-; apply quiet_done].
  destruct (ce_decode b) as [e|e|]; simpl in Ho; try done. eapply quiet_bind; [apply quiet_done|].
  case_decide; [injection Ho as <-; apply quiet_done|done].
Qed.

Lemma quiet_tombstone n o : entry_in (sk prefix n) n 0 = Ok o -> quiet (tombstone_id prefix n) (answers (Ok (ce_id <$> o))).
Proof.
  intros Ho. unfold tombstone_id, tombstone_entry. rewrite tombstone_key_new. eapply quiet_bind; [|apply quiet_done].
  eapply quiet_bind; [apply quiet_done|]. by apply quiet_entry_at.
Qed.

Lemma quiet_find n o : find_in n = Ok o -> quiet (ct_find prefix n) (answers (Ok o)).
Proof.
  unfold find_in. intros (gone & Hgone & Ho)%res_bind_Ok. unfold ct_find. eapply quiet_bind; [by apply quiet_tombstone|].
  destruct gone as [t|]; simpl; [injection Ho as <-; apply quiet_done|]. apply res_bind_Ok in Ho as (found & Hfound & Ho).
  eapply quiet_bind.
  { unfold find_entry. rewrite topic_key_new. eapply quiet_bind; [apply quiet_done|]. by apply quiet_entry_at. }
  destruct found as [e|]; [|injection Ho as <-; apply quiet_done].
  eapply quiet_bind; [unfold id_key; rewrite key_new by done; apply quiet_done|]. fold (ik (ce_id e)).
  eapply quiet_bind; [apply quiet_read|]. destruct (m !! ik (ce_id e)) as [[b token]|]; simpl; [|injection Ho as <-; apply quiet_done].
  case_decide; [|done]. injection Ho as <-. eapply quiet_bind; [by apply quiet_tombstone|]. apply quiet_done.
Qed.

(** *** Walking *)

Section walk.
Context (by_name : gmap string CatalogEntry) (under : string) (decode : ObjectKey -> Res TopicId) (name_of : ObjectKey -> TopicId).
Context (accept : CatalogEntry -> bool) (stop_short : bool) (limit : nat).
Hypothesis found : forall n, find_in n = Ok (by_name !! n).
Hypothesis decodes : forall key, is_Some (m !! key) -> String.prefix under key = true -> decode key = Ok (name_of key).

(** The names that are kept of a run of keys. *)
Definition kept (keys : list ObjectKey) : list TopicId :=
  List.filter (fun n => from_option accept false (by_name !! n)) (map name_of keys).

Lemma kept_app l1 l2 : kept (l1 ++ l2) = kept l1 ++ kept l2.
Proof. unfold kept. by rewrite map_app, List.filter_app. Qed.

Lemma kept_length l : (length (kept l) <= length l)%nat.
Proof. unfold kept. rewrite <-(length_map name_of l). apply List.filter_length_le. Qed.

Lemma quiet_walk_keys keys names :
  Forall (fun key => decode key = Ok (name_of key)) keys -> (length names + length keys <= limit)%nat ->
  quiet (walk_keys prefix decode accept limit keys names) (answers (Ok (names ++ kept keys))).
Proof.
  intros Hd. revert names. induction Hd as [|key keys Hk _ IH]; intros names Hlen; cbn [walk_keys].
  { rewrite app_nil_r. apply quiet_done. }
  simpl in Hlen. rewrite Hk. eapply quiet_bind; [apply quiet_done|]. eapply quiet_bind; [apply quiet_find, found|].
  change (kept (key :: keys)) with (if from_option accept false (by_name !! name_of key) then name_of key :: kept keys else kept keys).
  destruct (from_option accept false (by_name !! name_of key)); [|apply IH; lia].
  destruct (Nat.eqb_spec (length (names ++ [name_of key])) limit) as [Hl|Hl]; rewrite length_app in Hl; simpl in Hl.
  - assert (keys = []) as -> by (destruct keys; [done|simpl in *; lia]). apply quiet_done.
  - replace (names ++ name_of key :: kept keys) with ((names ++ [name_of key]) ++ kept keys) by (by rewrite <-app_assoc). apply IH. rewrite length_app. simpl. lia.
Qed.

Lemma quiet_walk_pages turns cursor names : (length (keys_after m under cursor) < turns)%nat -> (length names <= limit)%nat ->
  quiet (walk_pages prefix turns under decode accept stop_short limit cursor names)
    (answers (Ok (names ++ take (limit - length names) (kept (keys_after m under cursor))))).
Proof.
  revert cursor names. induction turns as [|turns IH]; intros cursor names Ht Hl; [lia|]. cbn [walk_pages].
  destruct (Nat.ltb_spec (length names) limit) as [Hlt|Hge].
  2: { replace (limit - length names)%nat with 0%nat by lia. rewrite take_0, app_nil_r. apply quiet_done. }
  assert (0 < limit - length names)%nat as Hr by lia. set (r := (limit - length names)%nat) in *. set (K := keys_after m under cursor) in *. eapply quiet_bind; [apply quiet_list|]. fold K.
  pose proof (take_drop r K) as HK. destruct (last (take r K)) as [key|] eqn:Hlast.
  2: { apply last_None in Hlast. assert (K = []) as ->. { apply (f_equal length) in Hlast. rewrite length_take in Hlast. simpl in Hlast. apply nil_length_inv. lia. }
       change (kept []) with (@nil TopicId). rewrite take_nil, app_nil_r. apply quiet_done. }
  pose proof (kept_length (take r K)) as Hkl. pose proof (length_take K r) as Htl.
  eapply quiet_bind; [apply quiet_walk_keys|].
  { apply Forall_forall. intros x Hx. assert (x ∈ K) as [Hm Hu]%elem_of_keys_after by (rewrite <-HK; set_solver).
    apply decodes; [done|]. by apply andb_true_iff in Hu as [? _]. }
  { lia. }
  assert (kept K = kept (take r K) ++ kept (drop r K)) as Hkept by (by rewrite <-kept_app, HK).
  rewrite length_app, Hkept, take_app.
  rewrite (take_ge (kept (take r K))) by lia.
  destruct (Nat.eqb_spec (length names + length (kept (take r K))) limit) as [Hfull|Hfull]; simpl.
  { replace (r - length (kept (take r K)))%nat with 0%nat by lia. rewrite take_0, app_nil_r. apply quiet_done. }
  destruct (stop_short && (length (take r K) <? r)%nat) eqn:Hshort.
  { apply andb_true_iff in Hshort as [_ Hshort%Nat.ltb_lt]. rewrite (drop_ge K) by lia.
    change (kept []) with (@nil TopicId). rewrite take_nil, app_nil_r. apply quiet_done. }
  pose proof (keys_after_next m under cursor r key Hlast) as Hnext. fold K in Hnext.
  assert (length (drop r K) < turns)%nat as Hturns.
  { rewrite length_drop. assert (length K <> 0)%nat by (intros HK0; destruct K; [by rewrite take_nil in Hlast|done]). lia. }
  rewrite <-Hnext in Hturns. rewrite <-Hnext, app_assoc.
  specialize (IH (Some key) (names ++ kept (take r K)) Hturns). rewrite length_app in IH.
  replace (r - length (kept (take r K)))%nat with (limit - (length names + length (kept (take r K))))%nat by lia. apply IH. lia.
Qed.
End walk.
End quiet.

(** ** Names and their keys *)

Lemma unhex_digit_hex d : 0 <= d < 16 -> unhex_digit (byte_of_ascii (hex_digit d)) = Some d.
Proof.
  intros Hd. rewrite hex_digit_byte by done. unfold unhex_digit. destruct (Z.ltb_spec d 10).
  - rewrite (proj2 (Z.leb_le _ _)), (proj2 (Z.leb_le _ _)) by lia. simpl. f_equal. lia.
  - rewrite (proj2 (Z.leb_gt (87 + d) 57)) by lia. rewrite andb_false_r, (proj2 (Z.leb_le _ _)), (proj2 (Z.leb_le _ _)) by lia. simpl. f_equal. lia.
Qed.

Lemma nibbles b : is_byte b -> Z.lor (Z.shiftl (b / 16) 4) (b mod 16) = b.
Proof.
  unfold is_byte, u8_max. intros Hb. replace b with (Z.of_nat (Z.to_nat b)) at 1 2 3 by lia.
  assert (forallb (fun n => Z.lor (Z.shiftl (Z.of_nat n / 16) 4) (Z.of_nat n mod 16) =? Z.of_nat n) (seq 0 256) = true) as Hall by (by vm_compute).
  rewrite forallb_forall in Hall. specialize (Hall (Z.to_nat b)). rewrite Z.eqb_eq in Hall. rewrite Hall; [lia|]. apply in_seq. lia.
Qed.

Lemma unhex_hex s : unhex (hex (as_bytes s)) = Some (as_bytes s).
Proof.
  assert (Nat.even (length (as_bytes (hex (as_bytes s)))) = true /\ unhex_pairs (as_bytes (hex (as_bytes s))) = Some (as_bytes s)) as [He Hp].
  { induction s as [|a s [IHe IHp]]; [done|]. rewrite hex_cons. set (h := hex (as_bytes s)) in *.
    pose proof (as_bytes_is_byte (String a s)) as Ha. apply Forall_cons in Ha as [Ha _]. split; [exact IHe|].
    change (as_bytes (String ?x (String ?y h))) with (byte_of_ascii x :: byte_of_ascii y :: as_bytes h).
    change (as_bytes (String a s)) with (byte_of_ascii a :: as_bytes s). cbn [unhex_pairs].
    rewrite !unhex_digit_hex by (apply Z.mod_pos_bound; lia). rewrite IHp. simpl.
    rewrite (Z.mod_small (_ / 16)) by (unfold is_byte, u8_max in Ha; split; [apply Z.div_pos|apply Z.div_lt_upper_bound]; lia).
    by rewrite nibbles. }
  unfold unhex. by rewrite He.
Qed.

Lemma str_strip_prefix_app p s : str_strip_prefix p (p +:+ s) = Some s.
Proof. induction p as [|a p IH]; [done|]. simpl. by rewrite Ascii.eqb_refl. Qed.

Lemma prefix_app p s : String.prefix p (p +:+ s) = true.
Proof. induction p as [|a p IH]; [by destruct s|]. simpl. by destruct (Ascii.ascii_dec a a). Qed.

Lemma page_name_tk prefix n : name_wf n -> page_name prefix (tk prefix n) = Ok n.
Proof. intros Hn. unfold page_name, tk. rewrite str_strip_prefix_app. simpl. rewrite unhex_hex. simpl. by rewrite text_topic. Qed.

Lemma owned_name_ok prefix c n : name_wf n -> owned_name prefix c (ok prefix c n) = Ok n.
Proof. intros Hn. unfold owned_name, ok. rewrite str_strip_prefix_app. simpl. rewrite unhex_hex. simpl. by rewrite text_topic. Qed.

(** ** The stored listing is the in-memory one *)

Lemma StronglySorted_map {A B} (R : relation A) (R' : relation B) (f : A -> B) l :
  (forall x y, x ∈ l -> y ∈ l -> R x y -> R' (f x) (f y)) -> StronglySorted R l -> StronglySorted R' (map f l).
Proof.
  intros HR Hl. induction Hl as [|x l Hl IH Hx]; simpl; constructor.
  - apply IH. intros y z Hy Hz. apply HR; by apply list_elem_of_further.
  - rewrite Forall_forall in Hx. apply Forall_forall. intros y (z & -> & Hz)%list_elem_of_fmap. apply HR; [apply list_elem_of_here|by apply list_elem_of_further|by apply Hx].
Qed.

(** The names of the in-memory catalog, in order. *)
Lemma names_after_sorted after e : StronglySorted key_le (map fst (names_after after e)).
Proof.
  apply (StronglySorted_map (fun x y : string * CatalogEntry => String.compare x.1 y.1 <> Gt)); [done|].
  apply StronglySorted_filter_b, StronglySorted_merge_sort.
  - intros x y z. apply key_le_trans.
  - intros x y. apply key_le_total.
Qed.

Lemma elem_of_names_after after e n x : (n, x) ∈ names_after after e <->
  en_by_name e !! n = Some x /\ match after with Some a => key_lt a n | None => True end.
Proof.
  unfold names_after. rewrite list_elem_of_In, List.filter_In, <-list_elem_of_In, merge_sort_Permutation, elem_of_map_to_list. simpl.
  destruct after as [a|]; [rewrite bool_decide_eq_true|]; naive_solver.
Qed.

Lemma names_after_NoDup after e f : NoDup (map fst (List.filter f (names_after after e))).
Proof.
  unfold names_after. set (l := merge_sort _ _). assert (NoDup (map fst l)) as Hl.
  { unfold l. rewrite merge_sort_Permutation. apply NoDup_fst_map_to_list. }
  clearbody l. assert (forall g (l : list (string * CatalogEntry)), NoDup (map fst l) -> NoDup (map fst (List.filter g l))) as Hg.
  { intros g l0. induction l0 as [|x l0 IH]; simpl; [done|]. intros [Hx Hn]%NoDup_cons. destruct (g x); [|by apply IH].
    simpl. apply NoDup_cons. split; [|by apply IH]. intros (y & Heq & Hy)%list_elem_of_fmap. apply Hx. apply list_elem_of_fmap. exists y.
    split; [done|]. rewrite list_elem_of_In in Hy |- *. by apply List.filter_In in Hy as [? _]. }
  by apply Hg, Hg.
Qed.

Section exact.
Context {T : Type} (prefix : string) (m : Objects) (e : Entries).

(** The objects hold the topics of [e]: a lookup finds just those, and there is
    nothing but names under the prefix of topics. *)
Record represents : Prop := {
  rp_found : forall n, find_in prefix m n = Ok (en_by_name e !! n);
  rp_keys : forall key, is_Some (m !! key) -> String.prefix (topics prefix) key = true -> exists n, name_wf n /\ key = tk prefix n;
}.

(** The index of a creator names the topics of its own, and perhaps more. *)
Record owner_index (creator : Principal) : Prop := {
  oi_keys : forall key, is_Some (m !! key) -> String.prefix (owner_prefix prefix creator) key = true ->
    exists n, name_wf n /\ key = ok prefix creator n;
  oi_all : forall n x, en_by_name e !! n = Some x -> ce_creator x = Some creator -> is_Some (m !! ok prefix creator n);
}.

Lemma keys_after_size under cursor : (length (keys_after m under cursor) <= size m)%nat.
Proof.
  unfold keys_after. rewrite merge_sort_Permutation. etrans; [apply List.filter_length_le|].
  by rewrite length_map, length_map_to_list.
Qed.

(** Under a prefix that is followed by names, the walk keeps what the in-memory
    catalog lists. *)
Lemma kept_names under (name_of : ObjectKey -> TopicId) accept after :
  (forall key, is_Some (m !! key) -> String.prefix under key = true ->
     exists n, name_of key = n /\ key = under +:+ hex (as_bytes n)) ->
  (forall n x, en_by_name e !! n = Some x -> accept x = true -> is_Some (m !! (under +:+ hex (as_bytes n)))) ->
  kept (en_by_name e) name_of accept (keys_after m under ((fun a => under +:+ hex (as_bytes a)) <$> after)) =
  map fst (List.filter (fun ne => accept ne.2) (names_after after e)).
Proof.
  intros Hkeys Hall. set (K := keys_after m under _).
  assert (forall key, key ∈ K -> exists n, name_of key = n /\ key = under +:+ hex (as_bytes n)) as HK.
  { intros key [Hm Hl]%elem_of_keys_after. apply Hkeys; [done|]. by apply andb_true_iff in Hl as [? _]. }
  assert (forall n x, en_by_name e !! n = Some x -> accept x = true ->
    (n ∈ map name_of K <-> match after with Some a => key_lt a n | None => True end)) as Hin.
  { intros n x Hn Hx. split.
    - intros (key & -> & Hkey)%list_elem_of_fmap. destruct (HK key Hkey) as (n' & -> & ->).
      apply elem_of_keys_after in Hkey as [_ Hl]. unfold listed in Hl. destruct after as [a|]; [|done]. simpl in Hl.
      apply andb_true_iff in Hl as [_ Hl%ltb_key_lt]. by rewrite key_lt_app, hex_lt in Hl.
    - intros Ha. assert (under +:+ hex (as_bytes n) ∈ K) as Hkey.
      { apply elem_of_keys_after. split; [by eapply Hall|]. unfold listed. rewrite prefix_app. simpl.
        destruct after as [a|]; [|done]. simpl. apply ltb_key_lt. by rewrite key_lt_app, hex_lt. }
      destruct (HK _ Hkey) as (n' & Hn' & Heq). apply (inj _) in Heq. apply hex_name_inj in Heq. subst n'.
      apply list_elem_of_fmap. eexists. split; [|exact Hkey]. done. }
  apply sorted_same.
  - apply StronglySorted_filter_b, (StronglySorted_map key_le); [|apply keys_after_sorted]. intros x y Hx Hy.
    destruct (HK x Hx) as (n1 & -> & ->), (HK y Hy) as (n2 & -> & ->). apply keyed_le.
  - pose proof (names_after_sorted after e) as Hs. clear -Hs. induction (names_after after e) as [|x l IH]; simpl; [constructor|].
    simpl in Hs. apply StronglySorted_inv in Hs as [Hs Hx]. destruct (accept x.2); [|by apply IH]. simpl. constructor; [by apply IH|].
    rewrite Forall_forall in Hx |- *. intros y (z & -> & Hz)%list_elem_of_fmap. apply Hx, list_elem_of_fmap. exists z. split; [done|].
    rewrite list_elem_of_In in Hz |- *. by apply List.filter_In in Hz as [? _].
  - apply NoDup_ListNoDup, List.NoDup_filter, NoDup_ListNoDup. apply NoDup_fmap_2_strong; [|apply keys_after_NoDup].
    intros x y Hx Hy Heq. destruct (HK x Hx) as (n1 & Hn1 & ->), (HK y Hy) as (n2 & Hn2 & ->). congruence.
  - apply names_after_NoDup.
  - intros n. unfold kept. split.
    + intros [Hn%list_elem_of_In Hx]%list_elem_of_In%List.filter_In. apply list_elem_of_fmap. destruct (en_by_name e !! n) as [x|] eqn:He; [|done]. simpl in Hx. exists (n, x). split; [done|].
      rewrite list_elem_of_In, List.filter_In, <-list_elem_of_In, elem_of_names_after. split; [|done]. split; [done|]. by apply (Hin n x).
    + intros ([n' x] & -> & Hx)%list_elem_of_fmap. rewrite list_elem_of_In, List.filter_In, <-list_elem_of_In, elem_of_names_after in Hx.
      destruct Hx as [[He Ha] Hx]. simpl in *. apply list_elem_of_In, List.filter_In. rewrite He, <-list_elem_of_In. split; [|done].
      by apply (Hin n' x).
Qed.
End exact.

Section listing.
Context {S T : Type} `{ObjectStoreLaws S} (prefix : string).

Lemma quiet_page (m : Objects) e turns after limit : represents prefix m e -> (size m < turns)%nat ->
  quiet (T := T) os_fault m (page prefix turns after limit) (answers os_fault (fake_list after limit e)).
Proof.
  intros [Hfound Hkeys] Ht. set (name_of := fun key => match page_name prefix key with Ok n => n | _ => EmptyString end).
  assert (fake_list after limit e = Ok ([] ++ take (limit - length (@nil TopicId)) (kept (en_by_name e) name_of (fun _ => true)
    (keys_after m (topics prefix) ((fun a => topics prefix +:+ hex (as_bytes a)) <$> after))))) as ->.
  { unfold fake_list. f_equal. simpl. rewrite Nat.sub_0_r, (kept_names m e).
    - rewrite (List.forallb_filter_id (fun _ => true)) by (by apply forallb_forall). by rewrite firstn_map.
    - intros key Hm Hp. destruct (Hkeys key Hm Hp) as (n & Hn & ->). exists n. split; [|done]. unfold name_of. by rewrite page_name_tk.
    - intros n x Hx _. specialize (Hfound n). rewrite Hx in Hfound. unfold find_in in Hfound. apply res_bind_Ok in Hfound as (gone & _ & Hf).
      destruct gone; [done|]. apply res_bind_Ok in Hf as (found & Hf & Hr). unfold entry_in in Hf. fold (tk prefix n).
      destruct (m !! tk prefix n) as [b|]; [by eexists|]. by injection Hf as <-. }
  unfold page. eapply (quiet_bind _ _ _ _ ((fun a => topics prefix +:+ hex (as_bytes a)) <$> after)).
  { destruct after as [a|]; [|apply quiet_done]. rewrite topic_key_new. eapply quiet_bind; apply quiet_done. }
  apply quiet_walk_pages; [apply fault_law|exact Hfound| | |simpl; lia].
  - intros key Hm Hp. destruct (Hkeys key Hm Hp) as (n & Hn & ->). unfold name_of. by rewrite page_name_tk.
  - eapply Nat.le_lt_trans; [apply keys_after_size|done].
Qed.

Lemma quiet_owned_page (m : Objects) e turns creator after limit :
  represents prefix m e -> owner_index prefix m e creator -> (size m < turns)%nat ->
  quiet (T := T) os_fault m (owned_page prefix turns creator after limit) (answers os_fault (fake_list_owned creator after limit e)).
Proof.
  intros [Hfound _] [Hkeys Hall] Ht. set (name_of := fun key => match owned_name prefix creator key with Ok n => n | _ => EmptyString end).
  set (under := owner_prefix prefix creator) in *. set (accept := fun entry => bool_decide (ce_creator entry = Some creator)).
  assert (fake_list_owned creator after limit e = Ok ([] ++ take (limit - length (@nil TopicId)) (kept (en_by_name e) name_of accept
    (keys_after m under ((fun a => under +:+ hex (as_bytes a)) <$> after))))) as ->.
  { unfold fake_list_owned. f_equal. simpl. rewrite Nat.sub_0_r, (kept_names m e).
    - by rewrite firstn_map.
    - intros key Hm Hp. destruct (Hkeys key Hm Hp) as (n & Hn & ->). exists n. split; [|done]. unfold name_of. by rewrite owned_name_ok.
    - intros n x Hx Hc. apply (Hall n x Hx). by apply bool_decide_eq_true in Hc. }
  unfold owned_page. eapply (quiet_bind _ _ _ _ ((fun a => under +:+ hex (as_bytes a)) <$> after)).
  { destruct after as [a|]; [|apply quiet_done]. assert (owner_key prefix creator a = Ok (under +:+ hex (as_bytes a))) as ->.
    { unfold owner_key, under, owner_prefix. rewrite !string_app_assoc. by apply key_new. }
    eapply quiet_bind; apply quiet_done. }
  apply quiet_walk_pages; [apply fault_law|exact Hfound| | |simpl; lia].
  - intros key Hm Hp. destruct (Hkeys key Hm Hp) as (n & Hn & ->). unfold name_of. by rewrite owned_name_ok.
  - eapply Nat.le_lt_trans; [apply keys_after_size|done].
Qed.

End listing.

(** ** A catalog of three topics, one of them deleted *)

Definition demo_list_ops : list CatalogOp :=
  [CatCreateOwned "pears" 1 "alice"; CatCreate "apples" 2 DefaultDomain; CatCreateOwned "plums" 1 "alice"; CatDelete "plums" None].

(** Each run to its end, one after the other. *)
Definition demo_list_store : FakeObjectStore :=
  foldl (fun s op => (run 0 (catalog_code (T := unit) "c" 0 op) s tt).1.1) FakeObjectStore_new demo_list_ops.

Definition demo_list_entries : Entries :=
  foldl (fun e op => match op with
    | CatCreateOwned n p c => (fake_create_owned n p c e).1
    | CatCreate n p d => (fake_create_with_key_domain n p d e).1
    | CatDelete n x => (fake_delete_topic n x e).1
    | _ => e
    end) Entries_default demo_list_ops.

Definition demo_list_keys : list string :=
  [ok "c" "alice" "pears"; ik "c" (topic_uuid "pears"); ik "c" (topic_uuid "apples"); sk "c" "plums"; tk "c" "pears"; tk "c" "apples"].

Lemma demo_list_dom key : is_Some (objects demo_list_store !! key) -> key ∈ demo_list_keys.
Proof.
  intros [x Hx]. apply elem_of_map_to_list, (list_elem_of_fmap_2 fst) in Hx. revert Hx.
  assert (fst <$> map_to_list (objects demo_list_store) = demo_list_keys) as -> by (vm_compute; reflexivity). done.
Qed.

Lemma demo_list_found n : find_in "c" (objects demo_list_store) n = Ok (en_by_name demo_list_entries !! n).
Proof.
  destruct (decide (n ∈ ["apples"; "pears"; "plums"])) as [Hn|Hn].
  { rewrite !elem_of_cons, elem_of_nil in Hn. destruct Hn as [-> |[-> |[-> |[]]]]; vm_compute; reflexivity. }
  assert (forall key, (exists p, key = p "c" n /\ (p = sk \/ p = tk)) -> objects demo_list_store !! key = None) as Hnone.
  { intros key (p & -> & Hp). apply eq_None_not_Some. intros Hin%demo_list_dom. apply Hn. unfold demo_list_keys in Hin.
    destruct Hp as [-> | ->]; repeat (apply elem_of_cons in Hin as [Hin|Hin]; [first [discriminate Hin|apply sk_inj in Hin|apply tk_inj in Hin]; subst n; clear; rewrite !elem_of_cons; tauto|]);
      by apply elem_of_nil in Hin. }
  unfold find_in, entry_in. rewrite (Hnone (sk "c" n)), (Hnone (tk "c" n)) by eauto. simpl.
  assert (en_by_name demo_list_entries !! n = None) as ->; [|done].
  apply eq_None_not_Some. intros [x Hx]. apply elem_of_map_to_list, (list_elem_of_fmap_2 fst) in Hx. apply Hn. revert Hx.
  assert (fst <$> map_to_list (en_by_name demo_list_entries) = ["apples"; "pears"]) as -> by (vm_compute; reflexivity).
  clear. rewrite !elem_of_cons, elem_of_nil. simpl. tauto.
Qed.

Lemma demo_represents : represents "c" (objects demo_list_store) demo_list_entries.
Proof.
  split; [exact demo_list_found|]. intros key Hin%demo_list_dom Hp. unfold demo_list_keys in Hin.
  repeat (apply elem_of_cons in Hin as [-> |Hin]; [first [discriminate Hp|eexists; split; [|reflexivity]; by apply (bool_decide_unpack _)]|]).
  by apply elem_of_nil in Hin.
Qed.

Lemma demo_owner_index : owner_index "c" (objects demo_list_store) demo_list_entries "alice".
Proof.
  split.
  - intros key Hin%demo_list_dom Hp. unfold demo_list_keys in Hin.
    repeat (apply elem_of_cons in Hin as [-> |Hin]; [first [discriminate Hp|eexists; split; [|reflexivity]; by apply (bool_decide_unpack _)]|]).
    by apply elem_of_nil in Hin.
  - intros n x Hx Hc. pose proof Hx as Hin. apply elem_of_map_to_list, (list_elem_of_fmap_2 fst) in Hin. revert Hin.
    assert (fst <$> map_to_list (en_by_name demo_list_entries) = ["apples"; "pears"]) as -> by (vm_compute; reflexivity).
    rewrite !elem_of_cons, elem_of_nil. simpl. intros [-> |[-> |[]]]; [|vm_compute; eauto].
    vm_compute in Hx. injection Hx as <-. discriminate Hc.
Qed.

