(* ===== verification/Fetch.v ===== *)
(** * Fetch: answering Fetch and ListOffsets

    Models [oqueue-broker]'s [fetch/target.rs], [fetch/partition.rs],
    [fetch/pass.rs], [fetch/park.rs], [fetch/deadline.rs], [fetch/mod.rs],
    [session.rs] and [listoffsets.rs].  What a handler sees of the cluster at a
    moment is a [ClusterView]: the index, and what the topic cache answers.
    Metrics are left out. *)

From stdpp Require Import base tactics list numbers strings gmap.
From Stdlib Require Import ZArith Lia.
From S2P Require Import Prelude Bytes Types Retry Store Partition IndexFold ErrorCodes Wire Api Msg MsgData Batch Merge Read Group Authz.

Open Scope Z_scope.

Record ClusterView : Type := mkClusterView {
  cv_index : IndexState;
  cv_partition_count : string -> option nat;
  cv_name_by_id : bytes -> option string;
  cv_key_domain : TopicId -> option KeyDomain;
  cv_epoch : CoordinatorEpoch;
}.

Definition high_watermark (cluster : ClusterView) (topic : TopicId) (partition : PartitionId) : Offset :=
  IndexState_end_offset (cv_index cluster) topic partition.

(** [CacheState::new(self.epoch(), self.index.applied_upto(), 0)]. *)
Definition cache_state (cluster : ClusterView) : CacheState :=
  mkCacheState (cv_epoch cluster) (applied_upto (cv_index cluster)) 0.

(** What a connection does with the answer of a handler ([connection.rs]). *)
Inductive HandlerResponse : Type := Reply (body : bytes) | Silent | Close.

(** ** Budgets ([fetch/target.rs]) *)

Definition READ_BUDGET_BYTES : Z := 1024 * 1024.
Definition MAX_READS_PER_REQUEST : Z := 4.

Record Budget : Type := mkBudget { bg_total : Z; bg_left : Z; bg_returned_anything : bool }.

(** [u64::try_from(v).unwrap_or(0)]. *)
Definition clamp0 (v : Z) : Z := if v <? 0 then 0 else v.

Definition Budget_new (max_bytes : Z) : Budget :=
  let total := Z.min (clamp0 max_bytes) READ_BUDGET_BYTES in mkBudget total total false.

Definition may_overshoot (self : Budget) : bool := negb (bg_returned_anything self).
Definition share (self : Budget) (partition_max_bytes : Z) : Z := Z.min (clamp0 partition_max_bytes) (bg_left self).
Definition budget_allowance (self : Budget) (partition_max_bytes : Z) : Allowance :=
  mkAllowance (share self partition_max_bytes) (may_overshoot self).
Definition budget_spend (self : Budget) (cost : Z) (returned_records : bool) : Budget :=
  mkBudget (bg_total self) (Z.max (bg_left self - cost) 0) (bg_returned_anything self || returned_records).

Definition satisfiable_min_bytes (min_bytes : Z) (budget : Budget) : Z :=
  Z.min (Z.min (clamp0 min_bytes) READ_BUDGET_BYTES) (bg_total budget).

(** ** One partition ([fetch/partition.rs]) *)

Record PartitionOutcome : Type := mkPartitionOutcome {
  po_cost : Z;
  po_index : Z;
  po_error_code : Z;
  po_high_watermark : Z;
  po_last_stable_offset : Z;
  po_log_start_offset : Z;
  po_records : bytes;
}.

Record TopicOutcome : Type := mkTopicOutcome {
  to_name : option string;
  to_topic_id : bytes;
  to_partitions : list PartitionOutcome;
}.

Definition OFFSET_UNSET : Z := -1.

(** A refusal with what it cost. *)
Definition refused_outcome (cost index error_code high : Z) : PartitionOutcome :=
  mkPartitionOutcome cost index error_code high OFFSET_UNSET OFFSET_UNSET [].

(** Both of two results, when both are there. *)
Definition both {E F A B} (r : Result E A) (s : Result F B) : option (A * B) :=
  match r, s with Ok a, Ok b => Some (a, b) | _, _ => None end.

Definition fetch_refused (cluster : ClusterView) (topic : option string) (index error_code : Z) : PartitionOutcome :=
  let high :=
    match topic with
    | Some name =>
        match both (TopicId_new name) (PartitionId_new index) with
        | Some (topic, partition) => high_watermark cluster topic partition
        | None => 0
        end
    | None => 0
    end in
  refused_outcome 0 index error_code high.

Definition hosts (cluster : ClusterView) (name : string) (index : Z) : bool :=
  match cv_partition_count cluster name with
  | Some count => (0 <=? index) && (index <? Z.of_nat count)
  | None => false
  end.

Definition resolve (cluster : ClusterView) (topic : option string) (unknown index fetch_offset : Z)
    : Result (Z * Z) (TopicId * PartitionId * Z * Offset) :=
  match topic with
  | None => Err (unknown, 0)
  | Some name =>
      match (if hosts cluster name index then both (TopicId_new name) (PartitionId_new index) else None) with
      | None => Err (UNKNOWN_TOPIC_OR_PARTITION, 0)
      | Some (topic_id, partition) =>
          let high := high_watermark cluster topic_id partition in
          match Offset_new fetch_offset with
          | Ok start => if high <? fetch_offset then Err (OFFSET_OUT_OF_RANGE, high) else Ok (topic_id, partition, high, start)
          | _ => Err (OFFSET_OUT_OF_RANGE, high)
          end
      end
  end.

Definition refusal_code (error : Error) : Z :=
  match error with
  | ObjectNotFound _ => OFFSET_OUT_OF_RANGE
  | BelowLogStart _ _ => OFFSET_OUT_OF_RANGE
  | _ => OFFSET_NOT_AVAILABLE
  end.

Section fetch.
Context {S : Type} `{ObjectStore S}.

Definition fetch_one_partition (cluster : ClusterView) (topic : option string) (unknown : Z) (asked : FetchPartition)
    (allowance : Allowance) (st : Reading S) : Reading S * Result unit PartitionOutcome :=
  let index := fp_index asked in
  match resolve cluster topic unknown index (fp_fetch_offset asked) with
  | Panic => (st, Panic)
  | Err (code, high) => (st, Ok (refused_outcome 0 index code high))
  | Ok (topic_id, partition, high, start) =>
      let '(st, read) := read_inner (cv_key_domain cluster) (cv_index cluster) topic_id partition start allowance st in
      (st, match read with
           | Panic => Panic
           | Ok read => Ok (mkPartitionOutcome (Z.max (rd_fetched read) (Z.of_nat (length (rd_records read)))) index NO_ERROR
                              high high 0 (rd_records read))
           | Err failure => Ok (refused_outcome (rf_fetched failure) index (refusal_code (rf_error failure)) high)
           end)
  end.

(** ** One pass over the request ([fetch/pass.rs]) *)

Definition resolved_name (cluster : ClusterView) (topic : FetchTopic) (version : Z) : option string :=
  if 13 <=? version then cv_name_by_id cluster (ft_topic_id topic) else ft_name topic.

Definition watermarks (cluster : ClusterView) (request : FetchRequest) (version : Z) : list Z :=
  concat (map (fun topic =>
    let name := resolved_name cluster topic version in
    omap (fun partition =>
      match name with
      | Some name =>
          match both (TopicId_new name) (PartitionId_new (fp_index partition)) with
          | Some (topic, partition) => Some (high_watermark cluster topic partition)
          | None => None
          end
      | None => None
      end) (ft_partitions topic)) (fr_topics request)).

(** The state of a pass: what is left to spend, the request's objects. *)
Record Pass : Type := mkPass { ps_budget : Budget; ps_reading : Reading S }.

Fixpoint pass_partitions (cluster : ClusterView) (name : option string) (unknown : Z) (authorized : bool)
    (partitions : list FetchPartition) (st : Pass) : Pass * Result unit (list PartitionOutcome) :=
  match partitions with
  | [] => (st, Ok [])
  | p :: partitions =>
      if authorized then
        let allowance := budget_allowance (ps_budget st) (fp_partition_max_bytes p) in
        let '(reading, r) := fetch_one_partition cluster name unknown p allowance (ps_reading st) in
        match r with
        | Ok outcome =>
            let st := mkPass (budget_spend (ps_budget st) (po_cost outcome) (bool_decide (po_records outcome <> []))) reading in
            let '(st, rest) := pass_partitions cluster name unknown authorized partitions st in
            (st, let? rest := rest in Ok (outcome :: rest))
        | _ => (mkPass (ps_budget st) reading, Panic)
        end
      else
        let '(st, rest) := pass_partitions cluster name unknown authorized partitions st in
        (st, let? rest := rest in Ok (fetch_refused cluster name (fp_index p) TOPIC_AUTHORIZATION_FAILED :: rest))
  end.

Definition fetch_one_topic (cluster : ClusterView) (authz : AuthzContext TopicGrants) (version : Z) (topic : FetchTopic) (st : Pass)
    : Pass * Result unit TopicOutcome :=
  let name := if 13 <=? version then None else ft_name topic in
  let resolved := resolved_name cluster topic version in
  let unknown := if 13 <=? version then UNKNOWN_TOPIC_ID else UNKNOWN_TOPIC_OR_PARTITION in
  let authorized := match resolved with Some name => topic_authorized name authz | None => true end in
  let '(st, partitions) := pass_partitions cluster resolved unknown authorized (ft_partitions topic) st in
  (st, let? partitions := partitions in Ok (mkTopicOutcome name (ft_topic_id topic) partitions)).

Fixpoint read_topics (cluster : ClusterView) (authz : AuthzContext TopicGrants) (version : Z) (topics : list FetchTopic) (st : Pass)
    : Pass * Result unit (list TopicOutcome) :=
  match topics with
  | [] => (st, Ok [])
  | topic :: topics =>
      let '(st, outcome) := fetch_one_topic cluster authz version topic st in
      match outcome with
      | Ok outcome =>
          let '(st, rest) := read_topics cluster authz version topics st in
          (st, let? rest := rest in Ok (outcome :: rest))
      | _ => (st, Panic)
      end
  end.

Definition read_all (cluster : ClusterView) (request : FetchRequest) (version : Z) (authz : AuthzContext TopicGrants)
    (reading : Reading S) : Reading S * Result unit (list TopicOutcome) :=
  let '(st, outcomes) := read_topics cluster authz version (fr_topics request) (mkPass (Budget_new (fr_max_bytes request)) reading) in
  (ps_reading st, outcomes).

Definition refuse_all (cluster : ClusterView) (request : FetchRequest) (version error_code : Z) : list TopicOutcome :=
  map (fun topic =>
    let resolved := resolved_name cluster topic version in
    mkTopicOutcome (if 13 <=? version then None else ft_name topic) (ft_topic_id topic)
      (map (fun partition => fetch_refused cluster resolved (fp_index partition) error_code) (ft_partitions topic)))
    (fr_topics request).

Fixpoint worth_partitions (partitions : list PartitionOutcome) (bytes_ : Z) : option Z :=
  match partitions with
  | [] => Some bytes_
  | p :: partitions =>
      if negb (po_error_code p =? NO_ERROR) then None
      else worth_partitions partitions (bytes_ + Z.of_nat (length (po_records p)))
  end.

Fixpoint worth_loop (outcomes : list TopicOutcome) (bytes_ : Z) : option Z :=
  match outcomes with
  | [] => Some bytes_
  | topic :: outcomes =>
      match worth_partitions (to_partitions topic) bytes_ with
      | Some bytes_ => worth_loop outcomes bytes_
      | None => None
      end
  end.

(** An error is worth answering at once. *)
Definition worth_answering (outcomes : list TopicOutcome) (min_bytes : Z) : bool :=
  match worth_loop outcomes 0 with Some bytes_ => min_bytes <=? bytes_ | None => true end.

(** ** The session ([session.rs]) *)

Definition session_observe (held : option SessionWatermark) (watermark : SessionWatermark) : option SessionWatermark :=
  let keep :=
    match held with
    | Some current =>
        match wm_epoch current ?= wm_epoch watermark with
        | Gt => true
        | Lt => false
        | Eq => wm_version watermark <=? wm_version current
        end
    | None => false
    end in
  if keep then held else Some watermark.

(** [arrived]: whether the index reached the version before the deadline, and
    the view at that moment. *)
Definition session_catch_up (watermark : option SessionWatermark) (cluster : ClusterView) (arrived : option ClusterView)
    : Result RefreshReason unit :=
  match watermark with
  | None => Ok tt
  | Some want =>
      match admits (cache_state cluster) (AtLeast want) (cv_epoch cluster) with
      | Ok _ => Ok tt
      | Panic => Panic
      | Err refusal =>
          match arrived with
          | None => Err refusal
          | Some cluster => admits (cache_state cluster) (AtLeast want) (cv_epoch cluster)
          end
      end
  end.

(** ** Parking ([fetch/park.rs], [fetch/deadline.rs]) *)

Definition MAX_PARK_MS : Z := 60000.
Definition park_ms (max_wait_ms : Z) : Z := Z.max 0 (Z.min max_wait_ms MAX_PARK_MS).

(** A turn of the loop as the world plays it: the view when the watermarks are
    taken, the view the read is made from, whether the deadline has passed when
    the read is done, and the views at each wake-up after it, until the deadline
    or the end of the watch. *)
Record Turn : Type := mkTurn {
  tn_before : ClusterView;
  tn_read : ClusterView;
  tn_late : bool;
  tn_wakes : list ClusterView;
}.

(** Whether a wake-up of the turn shows other watermarks than before the read. *)
Definition moved_past (request : FetchRequest) (version : Z) (turn : Turn) : bool :=
  existsb (fun view => bool_decide (watermarks view request version <> watermarks (tn_before turn) request version))
    (tn_wakes turn).

(** The views at the request's arrival, when the index has caught up with the
    session (if it does in time), and when a request that cannot be served is
    refused. *)
Record Arrival : Type := mkArrival { ar_view : ClusterView; ar_caught_up : option ClusterView; ar_after : ClusterView }.

(** [reads] counts the reads made; the loop goes round at most
    [MAX_READS_PER_REQUEST] times. *)
Fixpoint park_loop (fuel : nat) (turns : nat -> Turn) (request : FetchRequest) (version : Z) (authz : AuthzContext TopicGrants)
    (target reads : Z) (reading : Reading S) : Reading S * Result unit (list TopicOutcome) :=
  match fuel with
  | O => (reading, Panic)
  | Datatypes.S fuel =>
      let turn := turns 0%nat in
      let '(reading, r) := read_all (tn_read turn) request version authz reading in
      match r with
      | Ok outcomes =>
          let reads := reads + 1 in
          if worth_answering outcomes target || (MAX_READS_PER_REQUEST <=? reads) || tn_late turn then (reading, Ok outcomes)
          else if moved_past request version turn
          then park_loop fuel (fun n => turns (Datatypes.S n)) request version authz target reads reading
          else (reading, Ok outcomes)
      | _ => (reading, Panic)
      end
  end.

Definition read_or_park (turns : nat -> Turn) (session : option SessionWatermark) (arrival : Arrival)
    (request : FetchRequest) (version : Z) (authz : AuthzContext TopicGrants) (store : S)
    : Reading S * Result unit (list TopicOutcome) :=
  let reading := mkReading FetchedObjects_default store in
  if forallb (fun topic => bool_decide (ft_partitions topic = [])) (fr_topics request) then (reading, Ok [])
  else
    match session_catch_up session (ar_view arrival) (ar_caught_up arrival) with
    | Ok _ =>
        let target := satisfiable_min_bytes (fr_min_bytes request) (Budget_new (fr_max_bytes request)) in
        park_loop (Z.to_nat MAX_READS_PER_REQUEST) turns request version authz target 0 reading
    | _ => (reading, Ok (refuse_all (ar_after arrival) request version OFFSET_NOT_AVAILABLE))
    end.

(** ** The handler ([fetch/mod.rs]) *)

Definition fetch_response_topics (version : Z) (outcomes : list TopicOutcome) : list FetchResponseTopic :=
  omap (fun t =>
    identity ← (if version <=? 12 then TopicName <$> to_name t else Some (TopicUuid (to_topic_id t)));
    Some (mkFetchResponseTopic identity (map (fun p =>
      mkFetchResponsePartition (po_index p) (po_error_code p) (po_high_watermark p) (po_last_stable_offset p)
        (po_log_start_offset p) (Some (po_records p))) (to_partitions t)))) outcomes.

Definition fetch_handle (turns : nat -> Turn) (session : option SessionWatermark) (arrival : Arrival)
    (prelude : RequestPrelude) (body : bytes) (authz : AuthzContext TopicGrants) (store : S) : S * Result unit HandlerResponse :=
  let version := rp_api_version prelude in
  match decode_body (fetch_decode_request version) body with
  | Ok request =>
      if negb ((fr_isolation_level request =? 0) || (fr_isolation_level request =? 1)) then (store, Ok Close)
      else if (version <=? 12) && existsb (fun topic => bool_decide (ft_name topic = None)) (fr_topics request) then (store, Ok Close)
      else
        let '(reading, r) := read_or_park turns session arrival request version authz store in
        (rg_store reading,
         let? outcomes := r in
         Ok (Reply (fetch_encode_response version (fetch_response_topics version outcomes)
               (encode_response_header [] Fetch version (rp_correlation_id prelude)))))
  | Panic => (store, Panic)
  | Err _ => (store, Ok Close)
  end.
End fetch.

(** ** ListOffsets ([listoffsets.rs]) *)

Definition refused_partition (index error_code : Z) : ListOffsetsResponsePartition :=
  mkListOffsetsResponsePartition index error_code OFFSET_UNSET OFFSET_UNSET.

Definition authoritative_end_offset (cluster : ClusterView) (topic : TopicId) (partition : PartitionId) : Result Z Z :=
  match admits (cache_state cluster) Linearizable (cv_epoch cluster) with
  | Err Authoritative => Ok (high_watermark cluster topic partition)
  | _ => Err LEADER_NOT_AVAILABLE
  end.

Definition list_offsets_partition (cluster : ClusterView) (topic_id : option TopicId) (hosted : bool) (index timestamp : Z)
    : ListOffsetsResponsePartition :=
  match topic_id, PartitionId_new index, hosted with
  | Some topic_id, Ok partition, true =>
      if timestamp =? EARLIEST_TIMESTAMP then mkListOffsetsResponsePartition index NO_ERROR OFFSET_UNSET 0
      else if timestamp =? LATEST_TIMESTAMP then
        match authoritative_end_offset cluster topic_id partition with
        | Ok offset => mkListOffsetsResponsePartition index NO_ERROR OFFSET_UNSET offset
        | Err code => refused_partition index code
        | Panic => refused_partition index UNKNOWN_SERVER_ERROR
        end
      else refused_partition index UNSUPPORTED_VERSION
  | _, _, _ => refused_partition index UNKNOWN_TOPIC_OR_PARTITION
  end.

Definition list_offsets_topic (cluster : ClusterView) (authz : AuthzContext TopicGrants) (topic : ListOffsetsTopic)
    : option string * list ListOffsetsResponsePartition :=
  let count := lt_name topic ≫= cv_partition_count cluster in
  let topic_id := lt_name topic ≫= (fun name => match TopicId_new name with Ok t => Some t | _ => None end) in
  let authorized := match lt_name topic with Some name => topic_authorized name authz | None => true end in
  (lt_name topic,
   map (fun partition =>
     if negb authorized then refused_partition (lp_index partition) TOPIC_AUTHORIZATION_FAILED
     else
       let hosted := match count with
                     | Some count => (0 <=? lp_index partition) && (lp_index partition <? Z.of_nat count)
                     | None => false
                     end in
       list_offsets_partition cluster topic_id hosted (lp_index partition) (lp_timestamp partition)) (lt_partitions topic)).

Definition list_offsets_handle (cluster : ClusterView) (prelude : RequestPrelude) (body : bytes) (authz : AuthzContext TopicGrants)
    : Result unit HandlerResponse :=
  let version := rp_api_version prelude in
  match decode_body (list_offsets_decode_request version) body with
  | Panic => Panic
  | Err _ => Ok Close
  | Ok request =>
      if negb ((lr_isolation_level request =? 0) || (lr_isolation_level request =? 1)) then Ok Close
      else if existsb (fun topic => bool_decide (lt_name topic = None)) (lr_topics request) then Ok Close
      else
        let outcomes := map (list_offsets_topic cluster authz) (lr_topics request) in
        let topics := omap (fun '(name, partitions) => name ← name; Some (mkListOffsetsResponseTopic name partitions)) outcomes in
        Ok (Reply (list_offsets_encode_response version topics
              (encode_response_header [] ListOffsets version (rp_correlation_id prelude))))
  end.
