(* ===== verification/FetchProps.v ===== *)
(** * FetchProps: what bounds a fetch, and what it promises *)

From stdpp Require Import base tactics list numbers strings gmap.
From Stdlib Require Import ZArith Lia.
From S2P Require Import Prelude Bytes Types Retry Store Coverage Partition IndexFold IndexSpec IndexRefine IndexProps.
From S2P Require Import ErrorCodes Wire Api Msg MsgData Batch BatchProps Bundle Manifest Merge Read ReadProps Group Authz Fetch.

Open Scope Z_scope.

(** No batch the store holds is longer. *)
Definition batches_within (B : Z) (domains : TopicId -> option KeyDomain) (objs : Objects) : Prop :=
  forall topic partition batch raw, stored_batch domains objs topic partition batch raw -> Z.of_nat (length raw) <= B.

Definition returned_bytes (outcomes : list PartitionOutcome) : Z :=
  foldr (fun p n => Z.of_nat (length (po_records p)) + n) 0 outcomes.
Definition response_bytes (outcomes : list TopicOutcome) : Z :=
  foldr (fun t n => returned_bytes (to_partitions t) + n) 0 outcomes.

Section bounded.
Context {S : Type} `{ObjectStoreLaws S}.
Context (cluster : ClusterView) (objs : Objects) (B : Z).
Hypothesis HB : batches_within B (cv_key_domain cluster) objs.
Hypothesis HB0 : 0 <= B.

Lemma read_loop_bytes page topic partition allowance fetched records (st st' : Reading S) read :
  remembers objs st -> 0 <= aw_bytes allowance ->
  read_loop (cv_key_domain cluster) page topic partition allowance fetched records st = (st', Ok read) ->
  Z.of_nat (length (rd_records read)) <= Z.max (Z.of_nat (length records)) (aw_bytes allowance + B) /\
  (aw_bytes allowance = 0 -> aw_may_overshoot allowance = false -> rd_records read = records).
Proof.
  revert fetched records st. induction page as [|batch page IH]; intros fetched records st Hr Ha; simpl.
  { intros [= <- <-]. simpl. split; [lia|done]. }
  destruct (_ && _) eqn:Hstop; [intros [= <- <-]; simpl; split; [lia|done]|].
  assert (Z.of_nat (length records) < aw_bytes allowance \/ records = [] /\ aw_may_overshoot allowance = true) as Hgo.
  { apply andb_false_iff in Hstop as [Hstop|Hstop]; [zbool; left; lia|]. apply negb_false_iff, andb_true_iff in Hstop as [Hn ?].
    right. by apply bool_decide_eq_true in Hn. }
  clear Hstop. destruct (one_batch _ batch topic partition st) as [st1 fetch] eqn:Hone.
  destruct (one_batch_spec _ _ _ _ _ _ _ _ Hr Hone) as (Hr1 & _ & Hok).
  destruct (fd_blob fetch) as [raw|e|] eqn:Hb; [|case_bool_decide; [|done]; intros [= <- <-]; simpl|done].
  2:{ split; [lia|done]. }
  destruct (rewrite_base_offset raw _ 0) as [blob|e|] eqn:Hst; [|done..]. intros Hloop.
  destruct (IH _ _ _ Hr1 Ha Hloop) as [H1 H2].
  pose proof (HB _ _ _ _ (Hok raw eq_refl)) as Hraw. destruct (rewrite_base_offset_Ok _ _ _ _ Hst) as ((Hlen & _) & _ & _).
  rewrite length_app, Nat2Z.inj_add in H1. split; [|intros Hz Hno; destruct Hgo as [Hgo|[_ Hgo]]; [lia|congruence]].
  destruct Hgo as [Hgo|[-> _]]; simpl in *; lia.
Qed.

Lemma fetch_partition_bytes name unknown asked allowance (st st' : Reading S) outcome :
  remembers objs st -> 0 <= aw_bytes allowance ->
  fetch_one_partition cluster name unknown asked allowance st = (st', Ok outcome) ->
  remembers objs st' /\ 0 <= po_cost outcome /\
  Z.of_nat (length (po_records outcome)) <= aw_bytes allowance + B /\
  (po_records outcome <> [] -> Z.of_nat (length (po_records outcome)) <= po_cost outcome) /\
  (aw_bytes allowance = 0 -> aw_may_overshoot allowance = false -> po_records outcome = []).
Proof.
  intros Hr Ha. unfold fetch_one_partition. destruct (resolve _ _ _ _ _) as [[[[topic partition] high] start]|[code high]|]; [| |done].
  2:{ intros [= <- <-]. simpl. split_and!; [done|lia|lia|done|done]. }
  destruct (read_inner _ _ _ _ _ _ _) as [st1 r] eqn:Hread. destruct (read_inner_page _ _ _ _ _ _ _ _ _ _ Hr Hread) as [Hr1 Hpage].
  destruct r as [read|failure|]; [| |done]; intros [= <- <-]; simpl.
  2:{ split_and!; [done|by eapply read_inner_cost|lia|done|done]. }
  destruct (Hpage read eq_refl) as (page & cost & st2 & Hr2 & Hloop).
  destruct (read_loop_bytes _ _ _ _ _ _ _ _ _ Hr2 Ha Hloop) as [H1 H2]. simpl in H1. split_and!; [done|lia|lia|lia|done].
Qed.

(** What has been returned and what is left fit the budget, or the budget is
    spent and was overshot by one batch. *)
Definition within (budget : Budget) (returned : Z) : Prop :=
  0 <= bg_left budget /\
  (returned + bg_left budget <= bg_total budget \/
   bg_left budget = 0 /\ bg_returned_anything budget = true /\ returned <= bg_total budget + B).

Lemma pass_partitions_bytes name unknown authorized partitions (st st' : Pass) outcomes returned :
  remembers objs (ps_reading st) -> within (ps_budget st) returned ->
  pass_partitions (S := S) cluster name unknown authorized partitions st = (st', Ok outcomes) ->
  remembers objs (ps_reading st') /\ bg_total (ps_budget st') = bg_total (ps_budget st) /\
  within (ps_budget st') (returned + returned_bytes outcomes).
Proof.
  revert st outcomes returned. induction partitions as [|p partitions IH]; intros st outcomes returned Hr Hw; simpl.
  { intros [= <- <-]. simpl. rewrite Z.add_0_r. done. }
  destruct authorized.
  2:{ destruct (pass_partitions _ _ _ _ _ _) as [st1 rest] eqn:Hrest. intros [= <- Hok].
      apply res_bind_Ok in Hok as (rest' & -> & [= <-]). destruct (IH _ _ _ Hr Hw Hrest) as (? & ? & ?). simpl. done. }
  destruct (fetch_one_partition _ _ _ _ _ _) as [reading r] eqn:Hone. destruct r as [outcome|[]|]; [|done..].
  destruct (pass_partitions _ _ _ _ _ _) as [st1 rest] eqn:Hrest. intros [= <- Hok].
  apply res_bind_Ok in Hok as (rest' & -> & [= <-]).
  assert (0 <= aw_bytes (budget_allowance (ps_budget st) (fp_partition_max_bytes p)) <= bg_left (ps_budget st)) as Hshare.
  { destruct Hw as [Hw0 _]. simpl. unfold share, clamp0. destruct (_ <? 0) eqn:Hn; zbool; lia. }
  destruct (fetch_partition_bytes _ _ _ _ _ _ _ Hr (proj1 Hshare) Hone) as (Hr1 & Hpos & Hlen & Hcost & Hnone).
  set (st2 := mkPass _ reading) in Hrest.
  assert (within (ps_budget st2) (returned + Z.of_nat (length (po_records outcome)))) as Hw2.
  { destruct Hw as [Hw0 Hw]. unfold st2. simpl. split; [simpl; lia|]. simpl. destruct (po_records outcome) as [|x l] eqn:Hrec; simpl in *.
    - rewrite orb_false_r. destruct Hw as [Hw|(-> & Hx & Hw)]; [left; lia|right; split_and!; [lia|done|lia]].
    - specialize (Hcost ltac:(done)). destruct Hw as [Hw|(Hz & Hx & Hw)].
      + destruct (decide (po_cost outcome <= bg_left (ps_budget st))); [left; lia|right; split_and!; [lia|by rewrite orb_true_r|lia]].
      + specialize (Hnone ltac:(lia)). unfold may_overshoot in Hnone. rewrite Hx in Hnone. by specialize (Hnone eq_refl). }
  destruct (IH st2 rest' _ Hr1 Hw2 Hrest) as (H1 & H2 & H3). split_and!; [done|by rewrite H2|]. simpl. by rewrite Z.add_assoc.
Qed.

Lemma read_topics_bytes authz version topics (st st' : Pass) outcomes returned :
  remembers objs (ps_reading st) -> within (ps_budget st) returned ->
  read_topics (S := S) cluster authz version topics st = (st', Ok outcomes) ->
  remembers objs (ps_reading st') /\ bg_total (ps_budget st') = bg_total (ps_budget st) /\
  within (ps_budget st') (returned + response_bytes outcomes).
Proof.
  revert st outcomes returned. induction topics as [|topic topics IH]; intros st outcomes returned Hr Hw; simpl.
  { intros [= <- <-]. simpl. rewrite Z.add_0_r. done. }
  unfold fetch_one_topic. destruct (pass_partitions _ _ _ _ _ _) as [st1 partitions] eqn:Hp.
  destruct partitions as [partitions|e|]; simpl; [|done..].
  destruct (pass_partitions_bytes _ _ _ _ _ _ _ _ Hr Hw Hp) as (Hr1 & Ht1 & Hw1).
  destruct (read_topics _ _ _ _ _) as [st2 rest] eqn:Hrest. intros [= <- Hok].
  apply res_bind_Ok in Hok as (rest' & -> & [= <-]). destruct (IH _ _ _ Hr1 Hw1 Hrest) as (H1 & H2 & H3).
  split_and!; [done|by rewrite H2|]. simpl. by rewrite Z.add_assoc.
Qed.
End bounded.

Lemma returned_refused cluster name (l : list FetchPartition) code :
  returned_bytes (map (fun p => fetch_refused cluster name (fp_index p) code) l) = 0.
Proof. induction l as [|p l IH]; [done|]. simpl. by rewrite IH. Qed.

Lemma response_refused cluster request version code : response_bytes (refuse_all cluster request version code) = 0.
Proof.
  unfold refuse_all. induction (fr_topics request) as [|t l IH]; [done|]. simpl. by rewrite IH, returned_refused.
Qed.

(** ** A request that is let through is read to its end *)

(** No byte string makes the readers of a footer or of a manifest panic. *)
Definition calm {E A} (m : Reader E A) : Prop := forall buf at_, m buf at_ <> Panic.

Lemma calm_ret {E A} (a : A) : calm (rd_ret (E := E) a).
Proof. by intros buf at_. Qed.

Lemma calm_bind {E A B} (m : Reader E A) (k : A -> Reader E B) : calm m -> (forall a, calm (k a)) -> calm (rd_bind m k).
Proof. intros Hm Hk buf at_ [Hp|([a at1] & _ & Hp)]%res_bind_Panic; [by apply Hm in Hp|by apply Hk in Hp]. Qed.

Lemma calm_times {E A} (m : Reader E A) n : calm m -> calm (rd_times n m).
Proof.
  intros Hm. induction n as [|n IH]; simpl; [apply calm_ret|]. apply calm_bind; [done|]. intros a.
  apply calm_bind; [done|]. intros l. apply calm_ret.
Qed.

Lemma calm_take malformed n : calm (cu_take malformed n).
Proof. intros buf at_. unfold cu_take. by destruct (_ <=? _). Qed.

Lemma calm_malformed {A} malformed : calm (cu_malformed (A := A) malformed).
Proof. by intros buf at_. Qed.

Lemma calm_lift {A} (value : Res A) : value <> Panic -> calm (cu_lift value).
Proof. intros Hv buf at_ [Hp|(a & _ & Hp)]%res_bind_Panic; done. Qed.

Create HintDb calm.
#[local] Hint Resolve calm_ret calm_bind calm_times calm_take calm_malformed : calm.

Ltac calms := repeat first
  [ apply calm_ret | apply calm_bind; [|intros ?] | apply calm_take | apply calm_malformed | apply calm_lift | case_match ];
  try (by intros ? ?).

Lemma calm_string malformed len : calm (cu_string malformed len).
Proof.
  intros buf at_. unfold cu_string.
  assert (calm (rd! raw := cu_take malformed len in
    if utf8_valid raw then rd_ret (of_bytes raw) else fun _ _ => Err (malformed (Z.of_nat at_)))) as Hc by calms.
  apply Hc.
Qed.

Lemma calm_envelope key_len : calm (fun buf at_ => bf_envelope_from key_len at_ buf at_).
Proof.
  intros buf at_. assert (calm (bf_envelope_from key_len at_)) as Hc; [|apply Hc]. unfold bf_envelope_from, cu_u32, bf_malformed. calms.
Qed.

Lemma calm_region : calm bf_region.
Proof.
  unfold bf_region, cu_u16, cu_u32, cu_u64, cu_byte. apply calm_bind; [calms|]. intros name_len. apply calm_bind; [apply calm_string|].
  intros name. calms; unfold TopicId_new, PartitionId_new, ByteRange_bounded, RegionAlg_from_code in *; repeat case_match; try done.
  apply calm_envelope.
Qed.

Lemma check_regions_calm regions payload_end : check_regions regions payload_end <> Panic.
Proof.
  unfold check_regions. intros [Hp|(n & _ & Hp)]%res_bind_Panic; [|by destruct (negb _)]. revert Hp.
  generalize 0%nat at 1 as index. generalize 0 as next_free. induction regions as [|r regions IH]; intros next_free index; simpl; [done|].
  repeat case_match; try done. apply IH.
Qed.

Lemma parse_footer_calm whole size : parse_footer whole size <> Panic.
Proof.
  unfold parse_footer. repeat case_match; try done; (intros [Hp|([regions at_] & _ & Hp)]%res_bind_Panic;
    [by apply (calm_times bf_region) in Hp; [|apply calm_region]|]); repeat case_match; try done.
  apply res_bind_Panic in Hp as [Hp|(? & _ & Hp)]; [by apply check_regions_calm in Hp|done].
Qed.

Lemma calm_entry : calm decode_manifest_entry.
Proof.
  intros buf at_. unfold decode_manifest_entry. assert (calm (decode_manifest_entry_from at_)) as Hc; [|apply Hc].
  unfold decode_manifest_entry_from, cu_u16, cu_u32, cu_u64, cu_i64. apply calm_bind; [calms|]. intros key_len. case_match; [by intros ? ?|].
  apply calm_bind; [apply calm_string|]. intros raw.
  calms; unfold ObjectKey_new, Offset_new, ByteRange_bounded, ManifestEntry_new in *; repeat case_match; done.
Qed.

Lemma calm_entries count seen : calm (decode_entries_loop count seen).
Proof.
  revert seen. induction count as [|count IH]; intros seen; simpl; [apply calm_ret|]. apply calm_bind; [apply calm_entry|].
  intros entry. case_match; [by intros ? ?|]. apply calm_bind; [|intros met; case_match; [by intros ? ?|apply IH]].
  apply calm_lift. unfold meets. case_match; [|done]. intros [Hp|(? & _ & Hp)]%res_bind_Panic; [by apply Offset_add_no_panic in Hp|done].
Qed.

Lemma parse_manifest_calm raw : parse_partition_manifest raw <> Panic.
Proof.
  assert (forall malformed, calm (cu_u32 malformed)) as H4 by (intros; unfold cu_u32; calms).
  assert (forall malformed, calm (cu_byte malformed)) as H1 by (intros; unfold cu_byte; calms).
  assert (calm decode_optional_key) as Hk.
  { unfold decode_optional_key, cu_u16. apply calm_bind; [calms|]. intros len. case_match; [apply calm_ret|].
    apply calm_bind; [apply calm_string|]. intros name. calms. unfold ObjectKey_new in *. by case_decide. }
  unfold parse_partition_manifest. repeat case_match; try done.
  intros [Hp|([count at1] & _ & Hp)]%res_bind_Panic; [by apply H4 in Hp|].
  apply res_bind_Panic in Hp as [Hp|([version at2] & _ & Hp)]; [by apply H1 in Hp|]. case_match; [done|].
  apply res_bind_Panic in Hp as [Hp|([body at3] & _ & Hp)]; [by apply H4 in Hp|]. repeat case_match; try done.
  apply res_bind_Panic in Hp as [Hp|([previous at4] & _ & Hp)]; [by apply Hk in Hp|].
  apply res_bind_Panic in Hp as [Hp|([entries at5] & _ & Hp)]; [by apply calm_entries in Hp|]. by case_match.
Qed.

Lemma slice_region_calm whole topic partition domain : slice_region whole topic partition domain <> Panic.
Proof.
  unfold slice_region. intros [Hp|(regions & _ & Hp)]%res_bind_Panic; [by apply parse_footer_calm in Hp|].
  apply res_bind_Panic in Hp as [Hp|(range & _ & Hp)].
  - unfold region_for in Hp. destruct (List.filter _ _) as [|region [|]]; try done.
    apply res_bind_Panic in Hp as [Hp|(? & _ & Hp)]; [|done]. unfold validate_region in Hp. by repeat case_match.
  - by repeat case_match.
Qed.

Lemma page_loop_calm start page batches : page_loop start page batches <> Panic.
Proof.
  revert page. induction batches as [|b batches IH]; intros page; simpl; [done|].
  intros [Hp|(e & _ & Hp)]%res_bind_Panic; [by apply Offset_add_no_panic in Hp|].
  destruct (start <? e); [|by apply IH in Hp]. destruct (Page_push page b) as [page' []]; [by apply IH in Hp|done].
Qed.

Lemma find_batches_calm index topic partition start max_bytes : find_batches index topic partition start max_bytes <> Panic.
Proof.
  unfold find_batches. repeat case_match; try done. intros [Hp|([page []] & _ & Hp)]%res_bind_Panic; [by apply page_loop_calm in Hp| |done].
  apply res_bind_Panic in Hp as [Hp|([? ?] & _ & Hp)]; [by apply page_loop_calm in Hp|done].
Qed.

(** What every read of an object keeps, a request keeps; and it does not panic. *)
Section keeps.
Context {S : Type} `{ObjectStore S} (P : Reading S -> Prop).
Hypothesis Pget : forall key range st st' r missed, P st -> fo_get key range st = (st', (r, missed)) -> P st' /\ r <> Panic.
Hypothesis Pnote : forall st, P st -> P (noting st).

Lemma one_batch_keeps domains batch topic partition st st' fetch :
  P st -> one_batch domains batch topic partition st = (st', fetch) -> P st' /\ fd_blob fetch <> Panic.
Proof.
  intros HP. unfold one_batch. destruct batch as [entry|object]; destruct (fo_get _ _ st) as [st1 [blob missed]] eqn:Hg;
    destruct (Pget _ _ _ _ _ _ HP Hg) as [HP1 Hn]; [by intros [= <- <-]|].
  destruct blob as [whole|e|]; [|by intros [= <- <-]|done]. intros [= <- <-]. simpl. split; [case_match; [by apply Pnote|done]|].
  case_match; [apply slice_region_calm|done].
Qed.

Lemma read_loop_keeps domains page topic partition allowance fetched records st st' r :
  P st -> read_loop domains page topic partition allowance fetched records st = (st', r) -> P st' /\ r <> Panic.
Proof.
  revert fetched records st. induction page as [|batch page IH]; intros fetched records st HP; simpl; [by intros [= <- <-]|].
  destruct (_ && _); [by intros [= <- <-]|]. destruct (one_batch _ _ _ _ _) as [st1 fetch] eqn:Ho.
  destruct (one_batch_keeps _ _ _ _ _ _ _ HP Ho) as [HP1 Hn]. destruct (fd_blob fetch) as [blob|e|]; [|intros [= <- <-]; split; [done|]; by case_match|done].
  destruct (rewrite_base_offset _ _ _) as [out|e|] eqn:Hrw.
  - by apply IH.
  - intros [= <- <-]. split; [case_match; [by apply Pnote|done]|done].
  - exfalso. unfold rewrite_base_offset in Hrw. apply res_bind_Panic in Hrw as [Hrw|(? & _ & ?)]; [by apply decode_header_no_panic in Hrw|done].
Qed.

Lemma manifest_hops_keeps hops key start upto cost st st' r :
  P st -> manifest_hops hops key start upto cost st = (st', r) -> P st' /\ rs_batches r <> Panic.
Proof.
  revert key cost st. induction hops as [|hops IH]; intros key cost st HP; simpl; [by intros [= <- <-]|].
  destruct (fo_get key Full st) as [st1 [got missed]] eqn:Hg. destruct (Pget _ _ _ _ _ _ HP Hg) as [HP1 Hn].
  destruct got as [raw|e|]; [|by intros [= <- <-]|done].
  destruct (parse_partition_manifest raw) as [parsed|e|] eqn:Hp; [|by intros [= <- <-]|by apply parse_manifest_calm in Hp].
  destruct (pm_position parsed start); [by intros [= <- <-]|].
  destruct (pm_previous parsed); [|by intros [= <- <-]]. destruct (is_older parsed start); [by apply IH|by intros [= <- <-]].
Qed.

Lemma read_inner_keeps domains index topic partition start allowance st st' r :
  P st -> read_inner domains index topic partition start allowance st = (st', r) -> P st' /\ r <> Panic.
Proof.
  intros HP. unfold read_inner. destruct (match IndexState_manifest _ _ _ with Some _ => _ | None => _ end) as [st1 resolved] eqn:Hm.
  assert (P st1 /\ rs_batches resolved <> Panic) as [HP1 Hn].
  { repeat case_match; try (by injection Hm as <- <-). unfold manifest_batches in Hm. by eapply manifest_hops_keeps. }
  destruct (rs_batches resolved) as [older|e|]; [|by intros [= <- <-]|done].
  destruct (find_batches _ _ _ _ _) as [newer|e|] eqn:Hf; [|by intros [= <- <-]|by apply find_batches_calm in Hf].
  by apply read_loop_keeps.
Qed.

Lemma fetch_one_keeps cluster name unknown asked allowance st st' r :
  P st -> fetch_one_partition cluster name unknown asked allowance st = (st', r) -> P st' /\ exists outcome, r = Ok outcome.
Proof.
  intros HP. unfold fetch_one_partition. destruct (resolve _ _ _ _ _) as [[[[topic partition] high] start]|[code high]|] eqn:Hr.
  - destruct (read_inner _ _ _ _ _ _ _) as [st1 read] eqn:Hread. destruct (read_inner_keeps _ _ _ _ _ _ _ _ _ HP Hread) as [HP1 Hn].
    intros [= <- <-]. split; [done|]. destruct read; [by eexists..|done].
  - intros [= <- <-]. split; [done|by eexists].
  - exfalso. unfold resolve in Hr. by repeat case_match.
Qed.

Lemma pass_partitions_keeps cluster name unknown authorized partitions (st st' : Pass) r :
  P (ps_reading st) -> pass_partitions cluster name unknown authorized partitions st = (st', r) ->
  P (ps_reading st') /\ exists outcomes, r = Ok outcomes.
Proof.
  revert st st' r. induction partitions as [|p partitions IH]; intros st st' r HP; simpl; [intros [= <- <-]; split; [done|by eexists]|].
  destruct authorized.
  - destruct (fetch_one_partition _ _ _ _ _ _) as [reading one] eqn:Hone. destruct (fetch_one_keeps _ _ _ _ _ _ _ _ HP Hone) as [HP1 [outcome ->]].
    destruct (pass_partitions _ _ _ _ _ _) as [st1 rest] eqn:Hrest. apply IH in Hrest as [HP2 [outcomes ->]]; [|done].
    intros [= <- <-]. split; [done|by eexists].
  - destruct (pass_partitions _ _ _ _ _ _) as [st1 rest] eqn:Hrest. apply IH in Hrest as [HP2 [outcomes ->]]; [|done].
    intros [= <- <-]. split; [done|by eexists].
Qed.

Lemma read_all_keeps cluster request version authz st st' r :
  P st -> read_all cluster request version authz st = (st', r) -> P st' /\ exists outcomes, r = Ok outcomes.
Proof.
  intros HP. unfold read_all. destruct (read_topics _ _ _ _ _) as [pass outcomes] eqn:Ht. intros [= <- <-]. revert Ht HP.
  change st with (ps_reading (mkPass (Budget_new (fr_max_bytes request)) st)) at 2. generalize (mkPass (Budget_new (fr_max_bytes request)) st) as st0.
  revert pass outcomes. induction (fr_topics request) as [|topic topics IH]; intros pass outcomes st0; simpl; [intros [= <- <-] ?; split; [done|by eexists]|].
  unfold fetch_one_topic. destruct (pass_partitions _ _ _ _ _ _) as [st1 partitions] eqn:Hp. intros Ht HP.
  apply pass_partitions_keeps in Hp as [HP1 [ps ->]]; [|done]. simpl in Ht. destruct (read_topics _ _ _ _ st1) as [st2 rest] eqn:Hrest.
  injection Ht as <- <-. destruct (IH _ _ _ Hrest HP1) as [HP2 [os ->]]. split; [done|by eexists].
Qed.
End keeps.

(** Nothing a request remembers is a panic. *)
Definition seen_calm {S} `{ObjectStore S} (st : Reading S) : Prop := forall id r, fo_seen (rg_objects st) !! id = Some r -> r <> Panic.

Lemma fo_get_calm {S} `{ObjectStoreLaws S} key range (st st' : Reading S) r missed :
  seen_calm st -> fo_get key range st = (st', (r, missed)) -> seen_calm st' /\ r <> Panic.
Proof.
  intros Hs. unfold fo_get. destruct (fo_seen (rg_objects st) !! _) as [seen|] eqn:Hk; [intros [= <- <- <-]; split; [done|by eapply Hs]|].
  case_match; [by intros [= <- <- <-]|]. destruct (os_get key range _) as [store fetched] eqn:Hg. intros [= <- <- <-].
  apply get_law in Hg as [_ Hg]. assert (fetched <> Panic) as Hf by (by intros ->). split; [|done].
  intros id r' Hr. simpl in Hr. apply lookup_insert_Some in Hr as [[<- <-]|[_ Hr]]; [done|by eapply Hs].
Qed.

Lemma read_all_answers {S} `{ObjectStoreLaws S} cluster request version authz (st st' : Reading S) r :
  seen_calm st -> read_all cluster request version authz st = (st', r) -> seen_calm st' /\ exists outcomes, r = Ok outcomes.
Proof. apply (read_all_keeps seen_calm); [intros *; apply fo_get_calm|done]. Qed.

(** ** A store that counts the reads it fails *)

Section counting.
Context {S : Type} `{ObjectStoreLaws S}.

#[export] Instance counted_store : ObjectStore (S * Z) := {
  os_get k range s := let '(s', r) := os_get k range s.1 in ((s', if is_ok r then s.2 else s.2 + 1), r);
  os_put k b pc s := let '(s', r) := os_put k b pc s.1 in ((s', s.2), r);
  os_delete ks s := let '(s', r) := os_delete ks s.1 in ((s', s.2), r);
  os_list prefix after limit s := let '(s', r) := os_list prefix after limit s.1 in ((s', s.2), r);
  os_count s := os_count s.1;
}.

#[export] Instance counted_laws : ObjectStoreLaws (S * Z).
Proof.
  refine {| objects s := objects s.1; os_fault := os_fault |}; simpl.
  - apply fault_law.
  - intros s. apply count_law.
  - intros s k range s' r. destruct (os_get k range s.1) as [s1 r1] eqn:Hop. intros [= <- <-]. simpl. by apply get_law in Hop.
  - intros s k b pc s' r. destruct (os_put k b pc s.1) as [s1 r1] eqn:Hop. intros [= <- <-]. simpl. by apply put_law in Hop.
  - intros s ks s' r. destruct (os_delete ks s.1) as [s1 r1] eqn:Hop. intros [= <- <-]. simpl. by apply delete_law in Hop.
  - intros s prefix after limit s' r. destruct (os_list prefix after limit s.1) as [s1 r1] eqn:Hop. intros [= <- <-]. simpl. by apply list_law in Hop.
Defined.

(** The request has counted every read that failed. *)
Definition failures_counted (st : Reading (S * Z)) : Prop := seen_calm st /\ (rg_store st).2 <= fo_failed (rg_objects st).

Lemma fo_get_counts key range (st st' : Reading (S * Z)) r missed :
  failures_counted st -> fo_get key range st = (st', (r, missed)) -> failures_counted st' /\ r <> Panic.
Proof.
  intros [Hs Hle] Hg. destruct (fo_get_calm _ _ _ _ _ _ Hs Hg) as [Hs' Hn]. split; [|done]. split; [done|].
  unfold fo_get in Hg. destruct (fo_seen (rg_objects st) !! _); [by injection Hg as <- _ _|].
  destruct (_ <=? _); [by injection Hg as <- _ _|]. cbn [os_get counted_store] in Hg.
  destruct (os_get key range (rg_store st).1) as [s1 r1]. injection Hg as <- _ _. simpl. destruct r1; simpl; lia.
Qed.
End counting.

Section claims.
Context {S : Type} `{ObjectStoreLaws S}.

Lemma read_all_bytes cluster request version authz objs B (st st' : Reading S) outcomes :
  batches_within B (cv_key_domain cluster) objs -> 0 <= B -> remembers objs st ->
  read_all cluster request version authz st = (st', Ok outcomes) ->
  remembers objs st' /\ response_bytes outcomes <= bg_total (Budget_new (fr_max_bytes request)) + B.
Proof.
  intros HB H0' Hr. unfold read_all. destruct (read_topics _ _ _ _ _) as [pass r] eqn:Ht. intros [= <- ->].
  assert (within B (Budget_new (fr_max_bytes request)) 0) as Hw.
  { split; [|left; simpl; lia]. simpl. unfold clamp0, READ_BUDGET_BYTES. destruct (_ <? 0) eqn:Hn; zbool; lia. }
  destruct (read_topics_bytes cluster objs B HB H0' authz version _ (mkPass (Budget_new (fr_max_bytes request)) st) pass outcomes 0 Hr Hw Ht)
    as (H1 & H2 & H3 & H4). split; [done|]. rewrite H2 in H4. simpl ps_budget in H4. lia.
Qed.

Lemma park_loop_bytes fuel turns request version authz target reads objs B (st st' : Reading S) outcomes :
  (forall n, batches_within B (cv_key_domain (tn_read (turns n))) objs) -> 0 <= B -> remembers objs st ->
  park_loop fuel turns request version authz target reads st = (st', Ok outcomes) ->
  remembers objs st' /\ response_bytes outcomes <= bg_total (Budget_new (fr_max_bytes request)) + B.
Proof.
  revert turns reads st. induction fuel as [|fuel IH]; intros turns reads st HB H0' Hr; simpl; [done|].
  destruct (read_all _ _ _ _ _) as [st1 r] eqn:Hall. destruct r as [outcomes1|[]|]; [|done..].
  destruct (read_all_bytes _ _ _ _ _ _ _ _ _ (HB 0%nat) H0' Hr Hall) as [Hr1 Hb1].
  destruct (_ || _ || _); [by intros [= <- <-]|]. destruct (moved_past _ _ _); [|by intros [= <- <-]].
  apply IH; [|done|done]. intros n. apply (HB (Datatypes.S n)).
Qed.

Lemma park_loop_keeps (P : Reading S -> Prop) fuel turns request version authz target reads (st st' : Reading S) r :
  (forall key range st st' r missed, P st -> fo_get key range st = (st', (r, missed)) -> P st' /\ r <> Panic) ->
  (forall st, P st -> P (noting st)) -> P st ->
  park_loop fuel turns request version authz target reads st = (st', r) -> P st'.
Proof.
  intros Hg Hn. revert turns reads st. induction fuel as [|fuel IH]; intros turns reads st HP; simpl; [by intros [= <- <-]|].
  destruct (read_all _ _ _ _ _) as [st1 r1] eqn:Hall. destruct (read_all_keeps P Hg Hn _ _ _ _ _ _ _ HP Hall) as [HP1 [outcomes ->]].
  repeat case_match; try (by intros [= <- <-]). by apply IH.
Qed.

Lemma read_or_park_bytes (turns : nat -> Turn) session arrival request version authz (store : S) (st : Reading S) outcomes B :
  (forall n, batches_within B (cv_key_domain (tn_read (turns n))) (objects store)) -> 0 <= B ->
  read_or_park turns session arrival request version authz store = (st, Ok outcomes) ->
  remembers (objects store) st /\ response_bytes outcomes <= bg_total (Budget_new (fr_max_bytes request)) + B.
Proof.
  intros HB H0' Hp. pose proof (remembers_start store) as Hr. unfold read_or_park in Hp.
  assert (0 <= bg_total (Budget_new (fr_max_bytes request))) as Ht.
  { simpl. unfold clamp0, READ_BUDGET_BYTES. destruct (_ <? 0) eqn:Hn; zbool; lia. }
  destruct (forallb _ _); [injection Hp as <- <-; split; [done|simpl in *; lia]|].
  destruct (session_catch_up _ _ _) as [[]|e|].
  - by eapply park_loop_bytes.
  - injection Hp as <- <-. split; [done|]. rewrite response_refused. lia.
  - injection Hp as <- <-. split; [done|]. rewrite response_refused. lia.
Qed.

(** ** Which read a parked fetch is answered with *)

(** The [n]-th read of a request that keeps reading, turn after turn. *)
Fixpoint nth_read (n : nat) (turns : nat -> Turn) (request : FetchRequest) (version : Z) (authz : AuthzContext TopicGrants)
    (reading : Reading S) : Reading S * Result unit (list TopicOutcome) :=
  match n with
  | O => read_all (tn_read (turns 0%nat)) request version authz reading
  | Datatypes.S n => nth_read n (fun k => turns (Datatypes.S k)) request version authz
      (read_all (tn_read (turns 0%nat)) request version authz reading).1
  end.

(** The read is worth an answer, or it is late, or nothing came in while it waited. *)
Definition settled (request : FetchRequest) (version target : Z) (turn : Turn) (outcomes : list TopicOutcome) : Prop :=
  worth_answering outcomes target = true \/ tn_late turn = true \/ moved_past request version turn = false.

Lemma park_loop_answers k reads turns request version authz target (st : Reading S) :
  reads + Z.of_nat (Datatypes.S k) = MAX_READS_PER_REQUEST -> seen_calm st ->
  exists n st' outcomes, (n <= k)%nat /\
    park_loop (Datatypes.S k) turns request version authz target reads st = (st', Ok outcomes) /\
    nth_read n turns request version authz st = (st', Ok outcomes) /\
    (n = k \/ settled request version target (turns n) outcomes) /\
    forall m, (m < n)%nat -> exists st'' earlier, nth_read m turns request version authz st = (st'', Ok earlier) /\
      ~ settled request version target (turns m) earlier.
Proof.
  revert reads turns st. induction k as [|k IH]; intros reads turns st Hk Hs;
    cbn [park_loop]; destruct (read_all _ _ _ _ _) as [st1 r1] eqn:Hall;
    destruct (read_all_answers _ _ _ _ _ _ _ Hs Hall) as [Hs1 [outcomes ->]].
  - exists 0%nat, st1, outcomes. replace (MAX_READS_PER_REQUEST <=? reads + 1) with true by (symmetry; apply Z.leb_le; lia).
    rewrite orb_true_r. simpl. split_and!; [lia|done|done|by left|lia].
  - replace (MAX_READS_PER_REQUEST <=? reads + 1) with false by (symmetry; apply Z.leb_gt; lia). rewrite orb_false_r.
    destruct (worth_answering outcomes target || tn_late (turns 0%nat)) eqn:Hw.
    { exists 0%nat, st1, outcomes. split_and!; [lia|done|done| |lia]. right. apply orb_true_iff in Hw as [?|?]; [by left|right; by left]. }
    apply orb_false_iff in Hw as [Hw Hl]. destruct (moved_past request version (turns 0%nat)) eqn:Hm; cycle 1.
    { exists 0%nat, st1, outcomes. split_and!; [lia|done|done| |lia]. right; right; by right. }
    destruct (IH (reads + 1) (fun n => turns (Datatypes.S n)) st1) as (n & st' & found & Hn & Hp & Hr & Hset & Hall'); [lia|done|].
    exists (Datatypes.S n), st', found. split_and!; [lia|done|simpl; by rewrite Hall|destruct Hset; [left; lia|by right]|].
    intros [|m] Hm'; simpl; rewrite Hall; [|by apply Hall'; lia]. exists st1, outcomes. split; [done|].
    unfold settled. intros [?|[?|?]]; congruence.
Qed.


Lemma session_newest (acked : list SessionWatermark) :
  acked <> [] ->
  exists newest, foldl session_observe None acked = Some newest /\ newest ∈ acked /\
    forall w, w ∈ acked -> wm_epoch w < wm_epoch newest \/ wm_epoch w = wm_epoch newest /\ wm_version w <= wm_version newest.
Proof.
  induction acked as [|x l IH] using rev_ind; [done|]. intros _. rewrite foldl_snoc. setoid_rewrite elem_of_app. setoid_rewrite list_elem_of_singleton.
  destruct (decide (l = [])) as [->|Hne]; [exists x; simpl; set_solver by lia|].
  destruct (IH Hne) as (newest & -> & Hin & Hall). unfold session_observe.
  destruct (Z.compare_spec (wm_epoch newest) (wm_epoch x)); [destruct (_ <=? _) eqn:Hv; zbool|..];
    (eexists; split; [done|]); (split; [auto|]); intros w [Hw| ->]; try (specialize (Hall w Hw)); lia.
Qed.

(** C34. A session reads its own writes.  Of the commits a session was
    acknowledged it keeps the newest watermark, by epoch and then by version; and
    when a fetch of the session is let through, the index it was let through on
    is of that same epoch and has applied that version.  So it has every write of
    the session in that epoch, and no view of another incarnation is taken for
    it, whatever its version numbers. *)
Theorem session_reads_its_writes (acked : list SessionWatermark) arrival :
  acked <> [] ->
  session_catch_up (foldl session_observe None acked) (ar_view arrival) (ar_caught_up arrival) = Ok tt ->
  exists newest view version, newest ∈ acked /\
    (forall w, w ∈ acked -> wm_epoch w < wm_epoch newest \/ wm_epoch w = wm_epoch newest /\ wm_version w <= wm_version newest) /\
    (view = ar_view arrival \/ ar_caught_up arrival = Some view) /\
    applied_upto (cv_index view) = Some version /\ cv_epoch view = wm_epoch newest /\ wm_version newest <= version.
Proof.
  intros (newest & Hs & Hin & Hall)%session_newest Hc. rewrite Hs in Hc. exists newest.
  assert (forall view, admits (cache_state view) (AtLeast newest) (cv_epoch view) = Ok tt ->
    exists version, applied_upto (cv_index view) = Some version /\ cv_epoch view = wm_epoch newest /\ wm_version newest <= version) as Had.
  { intros view. unfold admits, cache_state. simpl. rewrite Z.eqb_refl. simpl. destruct (_ <? _); [done|].
    destruct (wm_epoch newest =? cv_epoch view) eqn:He; simpl; [|done]. destruct (applied_upto (cv_index view)) as [v|]; [|done].
    destruct (_ <=? v) eqn:Hv; [|done]. zbool. eauto. }
  unfold session_catch_up in Hc.
  destruct (admits (cache_state (ar_view arrival)) _ _) as [[]|e|] eqn:Ha; [|destruct (ar_caught_up arrival) as [view|]; [|done]|done].
  - destruct (Had _ Ha) as (v & H1 & H2 & H3). exists (ar_view arrival), v. split_and!; try done. by left.
  - destruct (Had _ Hc) as (v & H1 & H2 & H3). exists view, v. split_and!; try done. by right.
Qed.

(** A partition that has been trimmed has no earliest offset a consumer can
    read: ListOffsets answers 0 for it, and a fetch from 0 is refused with no
    records, whatever the store holds. *)
Theorem earliest_is_unreadable cluster topic index allowance unknown max_bytes (st st' : Reading S) outcome :
  hosts cluster topic index = true -> topic <> EmptyString -> 0 <= index ->
  0 < IndexState_log_start (cv_index cluster) topic index ->
  fetch_one_partition cluster (Some topic) unknown (mkFetchPartition index 0 max_bytes) allowance st = (st', Ok outcome) ->
  list_offsets_partition cluster (Some topic) true index EARLIEST_TIMESTAMP = mkListOffsetsResponsePartition index NO_ERROR OFFSET_UNSET 0 /\
  po_error_code outcome <> NO_ERROR /\ po_records outcome = [].
Proof.
  intros Hh Hne Hi Hs Hf. unfold fetch_one_partition, resolve in Hf. simpl in Hf. rewrite Hh in Hf.
  unfold list_offsets_partition, PartitionId_new, TopicId_new in *. rewrite (proj2 (Z.ltb_ge index 0)) in * by lia.
  rewrite decide_False in Hf by done. split; [done|]. simpl in Hf.
  assert (forall bytes_, is_ok (find_batches (cv_index cluster) topic index 0 bytes_) = false) as Hfind.
  { intros bytes_. unfold find_batches, IndexState_log_start in *. destruct (IndexState_partition _ _ _) as [slot|]; [|done].
    by rewrite (proj2 (Z.ltb_lt _ _)) by done. }
  destruct (high_watermark cluster topic index <? 0); [injection Hf as <- <-; by split|].
  assert (forall read, (read_inner (cv_key_domain cluster) (cv_index cluster) topic index 0 allowance st).2 <> Ok read) as Hread.
  { intros read. unfold read_inner. destruct (match IndexState_manifest _ _ _ with Some _ => _ | None => _ end) as [st1 resolved].
    destruct (rs_batches resolved); [|done..]. specialize (Hfind (aw_bytes allowance)). by destruct (find_batches _ _ _ _ _). }
  destruct (read_inner _ _ _ _ _ _ _) as [st1 r]. destruct r as [read|failure|]; [by specialize (Hread read)| |done].
  injection Hf as <- <-. simpl. split; [|done]. unfold refusal_code. by destruct (rf_error failure).
Qed.
End claims.

(** C33. A fetch is bounded.  Whatever a request asks for and however long it
    waits, what it is answered with is at most the bytes it allows, capped at the
    read budget, and one batch; of the reads it makes of the store, however many
    partitions it names and however often it tries again, at most two fail; and
    it leaves the objects as they were.  The store is one that counts the reads it
    answers with an error. *)
Theorem fetch_bounded {S} `{ObjectStoreLaws S} (turns : nat -> Turn) session arrival request version authz (store : S)
    (st : Reading (S * Z)) outcomes B :
  (forall n, batches_within B (cv_key_domain (tn_read (turns n))) (objects store)) -> 0 <= B ->
  read_or_park turns session arrival request version authz (store, 0) = (st, Ok outcomes) ->
  response_bytes outcomes <= Z.min (clamp0 (fr_max_bytes request)) READ_BUDGET_BYTES + B /\
  (rg_store st).2 <= 2 /\ objects (rg_store st).1 = objects store.
Proof.
  intros HB H0' Hp. pose proof (read_or_park_bytes turns session arrival request version authz (store, 0) st outcomes B) as Hrp.
  destruct (Hrp HB H0' Hp) as [[H1 _ H3] Hb].
  assert (failures_counted st) as [_ Hle].
  { assert (failures_counted (mkReading FetchedObjects_default (store, 0))) as Hf by (split; [by intros ? ? ?|simpl; lia]).
    unfold read_or_park in Hp. destruct (forallb _ _); [by injection Hp as <- _|].
    destruct (session_catch_up _ _ _); [|by injection Hp as <- _..].
    eapply park_loop_keeps; [| |exact Hf|exact Hp]; [intros *; apply fo_get_counts|]. intros st0 [Hs Hc]. split; [done|]. simpl. lia. }
  split_and!; [exact Hb| |done]. unfold MAX_FAILED_FETCHES_PER_REQUEST in H3. lia.
Qed.

(** No batch is longer than the longest object. *)
Lemma payloads_within B domains objs :
  map_Forall (fun (_ : string) (v : bytes * PreconditionToken) => Z.of_nat (length v.1) <= B) objs -> batches_within B domains objs.
Proof.
  intros Hall topic partition batch raw. destruct batch as [entry|object].
  - intros (payload & token & Hp & Hs). specialize (Hall _ _ Hp). simpl in Hall. unfold slice_range in Hs.
    destruct (te_bytes entry) as [|off len]; [by injection Hs as <-|]. destruct (_ <=? _); [|done]. injection Hs as <-.
    rewrite length_take, length_drop. lia.
  - intros (payload & token & domain & Hp & _ & Hs). specialize (Hall _ _ Hp). simpl in Hall. unfold slice_region in Hs.
    apply res_bind_Ok in Hs as (regions & _ & Hs). apply res_bind_Ok in Hs as (range & _ & Hs).
    destruct range as [|off len]; [done|]. destruct (_ || _); [done|]. injection Hs as <-. rewrite length_take, length_drop. lia.
Qed.

(** A consumer of the partition of [demo_index], at offset 3. *)
Definition demo_view (index : IndexState) : ClusterView :=
  mkClusterView index (fun name => if decide (name = "t") then Some 1%nat else None) (fun _ => None) (fun _ => Some DefaultDomain) 1.
Definition demo_turn (n : nat) : Turn := mkTurn (demo_view demo_index) (demo_view demo_index) false [demo_view demo_index].
Definition demo_arrival : Arrival := mkArrival (demo_view demo_index) None (demo_view demo_index).
Definition demo_fetch (offset max_bytes : Z) : FetchRequest :=
  mkFetchRequest 100 1 max_bytes 0 [mkFetchTopic (Some "t") [] [mkFetchPartition 0 offset max_bytes]].
Definition demo_open : AuthzContext TopicGrants := mkAuthzContext None false TopicGrants_new.

Definition demo_answer : Reading (FakeObjectStore * Z) * Result unit (list TopicOutcome) :=
  read_or_park demo_turn None demo_arrival (demo_fetch 3 100) 12 demo_open (demo_read_store, 0).
Definition demo_outcomes : list TopicOutcome := match demo_answer.2 with Ok outcomes => outcomes | _ => [] end.

Lemma fetch_bounded_witness :
  response_bytes demo_outcomes = 69 /\ response_bytes demo_outcomes <= 100 + 200 /\ (rg_store demo_answer.1).2 <= 2.
Proof.
  split; [vm_compute; reflexivity|].
  destruct (fetch_bounded demo_turn None demo_arrival (demo_fetch 3 100) 12 demo_open demo_read_store demo_answer.1 demo_outcomes 200)
    as (Hb & Hf & _); [|lia| |by split].
  - intros n. apply payloads_within. vm_decide.
  - change (demo_answer = (demo_answer.1, Ok demo_outcomes)). rewrite (surjective_pairing demo_answer) at 1. f_equal.
Defined.


Lemma session_reads_its_writes_witness :
  exists newest view version, newest ∈ [mkWatermark 0 300; mkWatermark 1 7; mkWatermark 1 5] /\
    applied_upto (cv_index view) = Some version /\ cv_epoch view = wm_epoch newest /\ wm_version newest <= version.
Proof.
  destruct (session_reads_its_writes [mkWatermark 0 300; mkWatermark 1 7; mkWatermark 1 5] demo_arrival)
    as (newest & view & version & H0 & _ & _ & H1 & H2 & H3).
  - discriminate.
  - vm_compute. reflexivity.
  - exists newest, view, version. by split_and!.
Defined.

Definition demo_trimmed : IndexState := after demo_index [mkMetadataEntry 133 (Trimmed "t" 0 4)].

Definition demo_earliest : Reading FakeObjectStore * Result unit PartitionOutcome :=
  fetch_one_partition (demo_view demo_trimmed) (Some "t") 3 (mkFetchPartition 0 0 100) (mkAllowance 100 true)
    (mkReading FetchedObjects_default demo_read_store).

Lemma earliest_is_unreadable_witness :
  demo_earliest.2 = Ok (refused_outcome 0 0 OFFSET_OUT_OF_RANGE 131) /\ OFFSET_OUT_OF_RANGE <> NO_ERROR.
Proof.
  assert (demo_earliest.2 = Ok (refused_outcome 0 0 OFFSET_OUT_OF_RANGE 131)) as He by (vm_compute; reflexivity).
  split; [exact He|].
  apply (earliest_is_unreadable (demo_view demo_trimmed) "t" 0 (mkAllowance 100 true) 3 100
    (mkReading FetchedObjects_default demo_read_store) demo_earliest.1 (refused_outcome 0 0 OFFSET_OUT_OF_RANGE 131));
    [reflexivity|discriminate|lia|vm_compute; reflexivity|].
  change (demo_earliest = (demo_earliest.1, Ok (refused_outcome 0 0 OFFSET_OUT_OF_RANGE 131))).
  rewrite (surjective_pairing demo_earliest) at 1. by rewrite He.
Defined.
