(* ===== verification/Clients.v ===== *)
(** * Clients: the limits of clients, and the identities of producers

    Models [oqueue-broker/src/quota_admin.rs], the handlers of AlterClientQuotas
    and DescribeClientQuotas, over the limits of Authz.v, and
    [init_producer_id.rs], which mints the identity of a producer.  A quota
    travels as an [f64], which is its 64 bits here: a sign, an exponent of eleven
    bits and a fraction of fifty-two. *)

From stdpp Require Import base tactics list numbers strings gmap sorting.
From Stdlib Require Import ZArith Lia.
From S2P Require Import Prelude Bytes Types ErrorCodes Wire Api Msg MsgData MsgAdmin Authz Fetch.

Open Scope Z_scope.

(** ** The [f64] of a limit *)

Definition f64_negative (bits : Z) : bool := Z.testbit bits 63.
Definition f64_exponent (bits : Z) : Z := Z.land (Z.shiftr bits 52) (Z.ones 11).
Definition f64_fraction (bits : Z) : Z := Z.land bits (Z.ones 52).

(** A finite value is its significand times two to its scale, with its sign. *)
Definition f64_significand (bits : Z) : Z :=
  if f64_exponent bits =? 0 then f64_fraction bits else 2 ^ 52 + f64_fraction bits.
Definition f64_scale (bits : Z) : Z := (if f64_exponent bits =? 0 then 1 else f64_exponent bits) - 1075.

Definition f64_is_finite (bits : Z) : bool := negb (f64_exponent bits =? Z.ones 11).

(** [value >= 0.0], which holds of minus zero, of a finite value. *)
Definition f64_at_least_zero (bits : Z) : bool := negb (f64_negative bits) || (f64_significand bits =? 0).

(** [value.fract() == 0.0]. *)
Definition f64_is_whole (bits : Z) : bool :=
  (0 <=? f64_scale bits) || (f64_significand bits mod 2 ^ (- f64_scale bits) =? 0).

(** [value <= f64::from(limit)], of a finite value that is at least zero. *)
Definition f64_at_most (bits limit : Z) : bool :=
  if 0 <=? f64_scale bits then f64_significand bits * 2 ^ f64_scale bits <=? limit
  else f64_significand bits <=? limit * 2 ^ (- f64_scale bits).

(** [value as u32], of a value in range. *)
Definition f64_as_u32 (bits : Z) : Z := Z.shiftl (f64_significand bits) (f64_scale bits).

(** [f64::from(limit)], which is exact. *)
Definition f64_from_u32 (limit : Z) : Z :=
  if limit =? 0 then 0
  else let k := Z.log2 limit in (1023 + k) * 2 ^ 52 + (limit - 2 ^ k) * 2 ^ (52 - k).

Definition quota_limit (value : Z) : option Z :=
  if f64_is_finite value && f64_at_least_zero value && f64_is_whole value && f64_at_most value u32_max
  then Some (f64_as_u32 value) else None.

(** ** The handlers *)

Definition IN_FLIGHT_REQUESTS : string := "in_flight_requests".
Definition USER_ENTITY : string := "user".
Definition EXACT : Z := 0.
Definition ANY : Z := 2.

Definition pq_listed (self : PrincipalQuota) : list (Principal * Z) :=
  merge_sort (fun left right => String.le left.1 right.1) (map_to_list (pq_overrides self)).

(** What is wrong with a filter, if anything. *)
Definition validate_filter (filter : QuotaFilter) : option string :=
  if negb (bool_decide (qf_entity_type filter = USER_ENTITY)) then Some "only user quota entities are supported"%string
  else if (qf_match_type filter =? EXACT) && match qf_name filter with Some name => negb (bool_decide (name = EmptyString)) | None => false end
       then None
  else if (qf_match_type filter =? ANY) && bool_decide (qf_name filter = None) then None
  else Some "quota filter must be an exact named user or any user"%string.

Definition filter_matches (filter : QuotaFilter) (principal : Principal) : bool :=
  if qf_match_type filter =? EXACT then bool_decide (qf_name filter = Some principal)
  else qf_match_type filter =? ANY.

Fixpoint validate_filters (filters : list QuotaFilter) : option string :=
  match filters with
  | [] => None
  | filter :: filters => match validate_filter filter with Some message => Some message | None => validate_filters filters end
  end.

Definition described_quota (entry : Principal * Z) : DescribeClientQuotasEntry :=
  mkDescribeClientQuotasEntry [mkQuotaEntity USER_ENTITY (Some entry.1)] [mkQuotaValue IN_FLIGHT_REQUESTS (f64_from_u32 entry.2)].

Definition describe_entries (quota : PrincipalQuota) (filters : list QuotaFilter) : string + list DescribeClientQuotasEntry :=
  match validate_filters filters with
  | Some message => inl message
  | None => inr (map described_quota
      (List.filter (fun '(principal, _) => forallb (fun filter => filter_matches filter principal) filters) (pq_listed quota)))
  end.

Definition describe_quotas (quota : option PrincipalQuota) (authz : AuthzContext AdminGrants) (request : DescribeClientQuotasRequest)
    : DescribeClientQuotasResponse :=
  if negb (admin_authorized OpAlterQuotas authz) then
    mkDescribeClientQuotasResponse 0 CLUSTER_AUTHORIZATION_FAILED (Some "DescribeClientQuotas is not authorized"%string) []
  else match quota with
  | Some quota =>
      match describe_entries quota (dq_components request) with
      | inr entries => mkDescribeClientQuotasResponse 0 NO_ERROR None entries
      | inl message => mkDescribeClientQuotasResponse 0 INVALID_REQUEST (Some message) []
      end
  | None => mkDescribeClientQuotasResponse 0 NO_ERROR None []
  end.

Definition entity_principal (entities : list QuotaEntity) : option Principal :=
  match entities with
  | [entity] =>
      if bool_decide (qe_entity_type entity = USER_ENTITY) then
        name ← qe_name entity; match Principal_new name with Ok principal => Some principal | _ => None end
      else None
  | _ => None
  end.

Definition alter_one (quota : option PrincipalQuota) (entry : AlterClientQuotasEntry) (authorized validate_only : bool)
    : option PrincipalQuota * AlterClientQuotasResult :=
  let failure error_code message := (quota, mkAlterClientQuotasResult error_code (Some message) (qa_entity entry)) in
  if negb authorized then failure CLUSTER_AUTHORIZATION_FAILED "AlterClientQuotas is not authorized"%string else
  match quota with
  | None => failure INVALID_REQUEST "client quotas are not configured"%string
  | Some state =>
      match entity_principal (qa_entity entry) with
      | None => failure INVALID_REQUEST "quota entity must be one named user"%string
      | Some principal =>
          match qa_operations entry with
          | [] => failure INVALID_CONFIG "quota operation is missing"%string
          | operation :: rest =>
              if negb (bool_decide (rest = [])) || negb (bool_decide (qo_key operation = IN_FLIGHT_REQUESTS))
              then failure INVALID_CONFIG "quota key is unsupported"%string
              else
                let done limit :=
                  (if validate_only then quota else Some (set_override state principal limit),
                   mkAlterClientQuotasResult NO_ERROR None (qa_entity entry)) in
                if qo_remove operation then done None
                else match quota_limit (qo_value operation) with
                | Some limit => done (Some limit)
                | None => failure INVALID_CONFIG "quota value must be a u32"%string
                end
          end
      end
  end.

Fixpoint alter_entries (quota : option PrincipalQuota) (entries : list AlterClientQuotasEntry) (authorized validate_only : bool)
    : option PrincipalQuota * list AlterClientQuotasResult :=
  match entries with
  | [] => (quota, [])
  | entry :: entries =>
      let '(quota, result) := alter_one quota entry authorized validate_only in
      let '(quota, results) := alter_entries quota entries authorized validate_only in
      (quota, result :: results)
  end.

Definition alter_quotas (quota : option PrincipalQuota) (authz : AuthzContext AdminGrants) (request : AlterClientQuotasRequest)
    : option PrincipalQuota * AlterClientQuotasResponse :=
  let authorized := admin_authorized OpAlterQuotas authz in
  let '(quota, results) := alter_entries quota (aq_entries request) authorized (aq_validate_only request) in
  (quota, mkAlterClientQuotasResponse 0 results).

Definition describe_quotas_handle (quota : option PrincipalQuota) (prelude : RequestPrelude) (body : bytes)
    (authz : AuthzContext AdminGrants) : Result unit HandlerResponse :=
  let version := rp_api_version prelude in
  match decode_body (decode_describe_request version) body with
  | Panic => Panic
  | Err _ => Ok Close
  | Ok request =>
      Ok (Reply (encode_describe_response version (describe_quotas quota authz request)
            (encode_response_header [] DescribeClientQuotas version (rp_correlation_id prelude))))
  end.

Definition alter_quotas_handle (quota : option PrincipalQuota) (prelude : RequestPrelude) (body : bytes)
    (authz : AuthzContext AdminGrants) : option PrincipalQuota * Result unit HandlerResponse :=
  let version := rp_api_version prelude in
  match decode_body (decode_alter_request version) body with
  | Panic => (quota, Panic)
  | Err _ => (quota, Ok Close)
  | Ok request =>
      let '(quota, response) := alter_quotas quota authz request in
      (quota, Ok (Reply (encode_alter_response version response
                    (encode_response_header [] AlterClientQuotas version (rp_correlation_id prelude)))))
  end.

(** ** Producer identities *)

Definition ProducerId_ZERO : ProducerId := 0.
Definition ProducerEpoch_ZERO : Z := 0.

(** [u64::rotate_left]. *)
Definition rotate_left (x k : Z) : Z := Z.lor (Z.shiftl x k mod 2 ^ 64) (Z.shiftr x (64 - k)).

(** What [& 0x7FFF_FFFF_FFFF_FFFF] leaves is not negative as an [i64]. *)
Definition fold (pid stamp nth : Z) : Z :=
  Z.land (Z.lxor (Z.lxor pid (rotate_left stamp 19)) (rotate_left nth 41)) (Z.ones 63).

(** [since_epoch] is the nanoseconds the clock gives since 1970, if it is not
    before it; [minted] is [MINTED], a counter that wraps. *)
Definition mint_producer_id (pid : Z) (since_epoch : option Z) (minted : Z) : Z * ProducerId :=
  let stamp := match since_epoch with Some since => if since <=? u64_max then since else u64_max | None => 0 end in
  ((minted + 1) mod 2 ^ 64, match ProducerId_new (fold pid stamp minted) with Ok id => id | _ => ProducerId_ZERO end).

Definition init_producer_id_answer (pid : Z) (since_epoch : option Z) (minted : Z) (request : InitProducerIdRequest)
    : Z * InitProducerIdResponse :=
  match ip_transactional_id request with
  | Some _ => (minted, mkInitProducerIdResponse INVALID_REQUEST (-1) (-1))
  | None =>
      let '(minted, id) := mint_producer_id pid since_epoch minted in
      (minted, mkInitProducerIdResponse NO_ERROR id ProducerEpoch_ZERO)
  end.

Definition init_producer_id_handle (pid : Z) (since_epoch : option Z) (minted : Z) (prelude : RequestPrelude) (body : bytes)
    : Z * Result unit HandlerResponse :=
  let version := rp_api_version prelude in
  match decode_body (init_producer_id_decode_request version) body with
  | Panic => (minted, Panic)
  | Err _ => (minted, Ok Close)
  | Ok request =>
      let '(minted, response) := init_producer_id_answer pid since_epoch minted request in
      (minted, Ok (Reply (init_producer_id_encode_response version response
                     (encode_response_header [] InitProducerId version (rp_correlation_id prelude)))))
  end.

(** ** What the conversions keep *)

Lemma f64_fields e f : 0 <= e < 2 ^ 11 -> 0 <= f < 2 ^ 52 ->
  f64_negative (e * 2 ^ 52 + f) = false /\ f64_exponent (e * 2 ^ 52 + f) = e /\ f64_fraction (e * 2 ^ 52 + f) = f.
Proof.
  intros He Hf. unfold f64_negative, f64_exponent, f64_fraction. rewrite !Z.land_ones by lia. rewrite Z.shiftr_div_pow2 by lia.
  assert ((e * 2 ^ 52 + f) / 2 ^ 52 = e) as Hd by (rewrite Z.div_add_l by lia; rewrite (Z.div_small f) by lia; lia).
  split_and!.
  - apply Z.testbit_false; [lia|]. rewrite Z.div_small; [done|]. lia.
  - rewrite Hd. by apply Z.mod_small.
  - rewrite Z.add_comm, Z.mod_add by lia. by apply Z.mod_small.
Qed.

Lemma f64_split bits : 0 <= bits < 2 ^ 64 ->
  0 <= f64_exponent bits < 2 ^ 11 /\ 0 <= f64_fraction bits < 2 ^ 52 /\
  bits = (if f64_negative bits then 2 ^ 63 else 0) + f64_exponent bits * 2 ^ 52 + f64_fraction bits.
Proof.
  intros Hb. unfold f64_negative, f64_exponent, f64_fraction. rewrite !Z.land_ones by lia. rewrite Z.shiftr_div_pow2 by lia.
  split_and!; [apply Z.mod_pos_bound; lia..|apply Z.mod_pos_bound; lia|apply Z.mod_pos_bound; lia|].
  pose proof (Z.div_mod bits (2 ^ 52) ltac:(lia)) as H1. pose proof (Z.div_mod (bits / 2 ^ 52) (2 ^ 11) ltac:(lia)) as H2.
  rewrite Z.div_div in H2 by lia. change (2 ^ 52 * 2 ^ 11) with (2 ^ 63) in H2.
  pose proof (Z.mod_pos_bound bits (2 ^ 52) ltac:(lia)). pose proof (Z.mod_pos_bound (bits / 2 ^ 52) (2 ^ 11) ltac:(lia)).
  assert (0 <= bits / 2 ^ 63 < 2) by (split; [apply Z.div_pos|apply Z.div_lt_upper_bound]; lia).
  pose proof (Z.testbit_spec' bits 63 ltac:(lia)) as Ht. rewrite Z.mod_small in Ht by done. rewrite <-Ht in H2.
  destruct (Z.testbit bits 63); simpl Z.b2z in H2; lia.
Qed.

(** A whole [f64] that is a [u32]'s value is the one [f64::from] gives, but for
    minus zero. *)
Lemma quota_limit_from n : 0 <= n <= u32_max -> quota_limit (f64_from_u32 n) = Some n.
Proof.
  intros Hn. unfold f64_from_u32. destruct (Z.eqb_spec n 0) as [->|Hz]; [done|]. cbv zeta.
  set (k := Z.log2 n). pose proof (Z.log2_spec n ltac:(lia)) as [Hlo Hhi]. fold k in Hlo, Hhi.
  assert (0 <= k < 32) as Hk.
  { split; [apply Z.log2_nonneg|]. apply Z.log2_lt_pow2; [lia|]. unfold u32_max in Hn. lia. }
  assert (2 ^ 52 = 2 ^ k * 2 ^ (52 - k)) as Hsplit by (rewrite <-Z.pow_add_r by lia; f_equal; lia).
  assert (0 < 2 ^ (52 - k)) as Hpos by (apply Z.pow_pos_nonneg; lia). rewrite Z.pow_succ_r in Hhi by lia.
  destruct (f64_fields (1023 + k) ((n - 2 ^ k) * 2 ^ (52 - k))) as (Hs & He & Hf); [lia|rewrite Hsplit; nia|].
  set (bits := _ + _) in *. unfold quota_limit, f64_is_finite, f64_at_least_zero, f64_is_whole, f64_at_most, f64_as_u32.
  assert (f64_significand bits = n * 2 ^ (52 - k)) as Hm.
  { unfold f64_significand. rewrite He, Hf, (proj2 (Z.eqb_neq _ _)) by lia. rewrite Hsplit. lia. }
  assert (f64_scale bits = k - 52) as Hsc by (unfold f64_scale; rewrite He, (proj2 (Z.eqb_neq _ _)) by lia; lia).
  rewrite Hm, Hsc, Hs, He. rewrite (proj2 (Z.leb_gt 0 (k - 52))) by lia.
  replace (- (k - 52)) with (52 - k) by lia. rewrite Z.mod_mul by lia.
  rewrite (proj2 (Z.eqb_neq (1023 + k) (Z.ones 11))) by (change (Z.ones 11) with 2047; lia).
  rewrite (proj2 (Z.leb_le _ _)) by nia. simpl. f_equal.
  replace (k - 52) with (- (52 - k)) by lia. rewrite Z.shiftl_opp_r, Z.shiftr_div_pow2 by lia. apply Z.div_mul. lia.
Qed.

Lemma quota_limit_only bits n : 0 <= bits < 2 ^ 64 -> quota_limit bits = Some n ->
  0 <= n <= u32_max /\ (bits = f64_from_u32 n \/ n = 0 /\ bits = 2 ^ 63).
Proof.
  intros Hb. destruct (f64_split bits Hb) as (He & Hf & Hbits). unfold quota_limit.
  destruct (f64_is_finite bits && _ && _ && _) eqn:Hc; [|done]. apply andb_true_iff in Hc as [[[_ Hz]%andb_true_iff Hw]%andb_true_iff Hle].
  intros [= <-]. unfold f64_as_u32. unfold f64_at_least_zero, f64_is_whole, f64_at_most, f64_significand, f64_scale in *.
  set (e := f64_exponent bits) in *. set (f := f64_fraction bits) in *.
  destruct (Z.eqb_spec e 0) as [H0|H0].
  - assert (f = 0) as ->.
    { apply orb_true_iff in Hw as [Hw|Hw]; [by apply Z.leb_le in Hw|]. apply Z.eqb_eq in Hw. rewrite Z.mod_small in Hw; [done|].
      split; [lia|]. eapply Z.lt_le_trans; [apply Hf|]. apply Z.pow_le_mono_r; lia. }
    rewrite Z.shiftl_0_l. split; [unfold u32_max; lia|]. rewrite H0 in Hbits. destruct (f64_negative bits); [right; lia|left; exact Hbits].
  - destruct (f64_negative bits); [simpl in Hz; apply Z.eqb_eq in Hz; lia|].
    destruct (Z.leb_spec 0 (e - 1075)) as [Hs|Hs].
    { apply Z.leb_le in Hle. pose proof (Z.pow_pos_nonneg 2 (e - 1075) ltac:(lia) Hs). unfold u32_max in Hle. nia. }
    simpl in Hw. apply Z.eqb_eq in Hw. apply Z.leb_le in Hle.
    set (d := - (e - 1075)) in *. replace (e - 1075) with (- d) by lia.
    assert (0 < 2 ^ d) as Hpos by (apply Z.pow_pos_nonneg; lia).
    rewrite Z.shiftl_opp_r, Z.shiftr_div_pow2 by lia. set (n := (2 ^ 52 + f) / 2 ^ d).
    assert (2 ^ 52 + f = n * 2 ^ d) as Hn by (unfold n; pose proof (Z.div_mod (2 ^ 52 + f) (2 ^ d) ltac:(lia)); lia).
    assert (0 < n) by nia. split; [nia|]. left.
    assert (d <= 52) by (apply Z.lt_succ_r, (Z.pow_lt_mono_r_iff 2); simpl Z.succ; nia).
    assert (2 ^ 52 = 2 ^ (52 - d) * 2 ^ d) as Hsplit by (rewrite <-Z.pow_add_r by lia; f_equal; lia).
    assert (Z.log2 n = 52 - d) as Hlog by (apply Z.log2_unique; [lia|]; rewrite Z.pow_succ_r by lia; nia).
    unfold f64_from_u32. rewrite (proj2 (Z.eqb_neq n 0)) by lia. cbv zeta. rewrite Hlog.
    replace (52 - (52 - d)) with d by lia. rewrite Z.mul_sub_distr_r, <-Hn, <-Hsplit, Hbits. lia.
Qed.

#[local] Arguments quota_limit _ : simpl never.
#[local] Arguments f64_from_u32 _ : simpl never.

Lemma filter_key_none {V} (l : list (Principal * V)) p :
  p ∉ l.*1 -> List.filter (fun '(q, _) => bool_decide (Some p = Some q) && true) l = [].
Proof.
  induction l as [|[q v] l IH]; simpl; [done|]. rewrite not_elem_of_cons. intros [Hne Hl].
  rewrite bool_decide_eq_false_2 by congruence. by apply IH.
Qed.

Lemma filter_key_one {V} (l : list (Principal * V)) p v :
  NoDup l.*1 -> (p, v) ∈ l -> List.filter (fun '(q, _) => bool_decide (Some p = Some q) && true) l = [(p, v)].
Proof.
  induction l as [|[q w] l IH]; simpl; [set_solver|]. intros [Hq Hl]%NoDup_cons [[= <- <-]|Hin]%elem_of_cons.
  - rewrite bool_decide_eq_true_2 by done. simpl. by rewrite filter_key_none.
  - rewrite bool_decide_eq_false_2; [by apply IH|]. intros [= <-]. apply Hq, list_elem_of_fmap. by exists (p, v).
Qed.

(** Asking for one user gives its limit, if it has one. *)
Lemma describe_exact quota p : p <> EmptyString ->
  describe_entries quota [mkQuotaFilter USER_ENTITY EXACT (Some p)] =
  inr (match pq_overrides quota !! p with Some limit => [described_quota (p, limit)] | None => [] end).
Proof.
  intros Hp. unfold describe_entries. cbn [validate_filters]. unfold validate_filter. cbn [qf_entity_type qf_match_type qf_name].
  rewrite bool_decide_eq_true_2, bool_decide_eq_false_2 by done. cbn [negb andb Z.eqb EXACT forallb].
  unfold filter_matches. cbn [qf_match_type qf_name Z.eqb EXACT]. f_equal.
  assert (NoDup (pq_listed quota).*1) as Hnd.
  { unfold pq_listed. rewrite merge_sort_Permutation. apply NoDup_fst_map_to_list. }
  assert (forall v, (p, v) ∈ pq_listed quota <-> pq_overrides quota !! p = Some v) as Hin.
  { intros v. unfold pq_listed. rewrite merge_sort_Permutation. apply elem_of_map_to_list. }
  destruct (pq_overrides quota !! p) as [limit|] eqn:Hl.
  - by rewrite (filter_key_one _ p limit Hnd (proj2 (Hin limit) eq_refl)).
  - rewrite filter_key_none; [done|]. intros ([q v] & -> & Hv)%list_elem_of_fmap. by apply Hin in Hv.
Qed.

Lemma entity_principal_Some entities p :
  entity_principal entities = Some p -> p <> EmptyString /\ entities = [mkQuotaEntity USER_ENTITY (Some p)].
Proof.
  unfold entity_principal. destruct entities as [|[kind name] [|]]; [done| |done]. simpl. case_bool_decide as Hk; [|done].
  destruct name as [name|]; [|done]. simpl. unfold Principal_new. case_decide; [done|]. intros [= ->]. simpl in Hk. by subst.
Qed.

(** What an alteration that was answered without an error did. *)
Lemma alter_one_NONE state entry quota' result :
  alter_one (Some state) entry true false = (quota', result) -> ar_error_code result = NO_ERROR ->
  exists principal operation limit,
    entity_principal (qa_entity entry) = Some principal /\ qa_operations entry = [operation] /\
    quota' = Some (set_override state principal limit) /\
    (if qo_remove operation then limit = None else exists n, quota_limit (qo_value operation) = Some n /\ limit = Some n).
Proof.
  unfold alter_one. cbn [negb]. destruct (entity_principal _) as [principal|]; [|by intros [= <- <-]].
  destruct (qa_operations entry) as [|operation rest]; [by intros [= <- <-]|].
  case_bool_decide as Hrest; [|by intros [= <- <-]]. subst rest. cbn [negb orb]. case_bool_decide; [|by intros [= <- <-]]. cbn [negb orb].
  destruct (qo_remove operation) eqn:Hrm; [|destruct (quota_limit _) as [n|] eqn:Hq; [|by intros [= <- <-]]]; intros [= <- <-] _.
  - exists principal, operation, None. by rewrite Hrm.
  - exists principal, operation, (Some n). rewrite Hrm. split_and!; try done. by exists n.
Qed.

(** A quota reads back as it was set.  When an AlterClientQuotas entry is
    answered without an error, asking for that user afterwards gives exactly the
    value that was sent (zero for minus zero), or nothing after a removal; the
    user is held to that limit, or to the default; and what is read of any other
    user is what it was. *)
Theorem quota_reads_back state entry quota' result :
  Forall (fun operation => 0 <= qo_value operation < 2 ^ 64) (qa_operations entry) ->
  alter_one (Some state) entry true false = (quota', result) -> ar_error_code result = NO_ERROR ->
  exists principal operation state',
    qa_entity entry = [mkQuotaEntity USER_ENTITY (Some principal)] /\ qa_operations entry = [operation] /\ quota' = Some state' /\
    (let asked := describe_entries state' [mkQuotaFilter USER_ENTITY EXACT (Some principal)] in
     if qo_remove operation then asked = inr [] /\ limit_for state' principal = pq_max_in_flight state
     else exists value, asked = inr [mkDescribeClientQuotasEntry (qa_entity entry) [mkQuotaValue IN_FLIGHT_REQUESTS value]] /\
       (value = qo_value operation \/ value = 0 /\ qo_value operation = 2 ^ 63) /\
       quota_limit value = Some (limit_for state' principal)) /\
    forall other, other <> principal -> other <> EmptyString ->
      describe_entries state' [mkQuotaFilter USER_ENTITY EXACT (Some other)] =
      describe_entries state [mkQuotaFilter USER_ENTITY EXACT (Some other)].
Proof.
  intros Hbits Halter Hok. destruct (alter_one_NONE _ _ _ _ Halter Hok) as (principal & operation & limit & Hent & Hops & -> & Hlimit).
  apply entity_principal_Some in Hent as [Hne Hent]. rewrite Hops in Hbits. apply Forall_cons in Hbits as [Hv _].
  exists principal, operation, (set_override state principal limit). split_and!; try done.
  - cbv zeta. rewrite describe_exact by done. unfold limit_for. simpl. destruct (qo_remove operation).
    + subst limit. by rewrite lookup_delete_eq.
    + destruct Hlimit as (n & Hn & ->). rewrite lookup_insert_eq. exists (f64_from_u32 n). rewrite Hent. split; [done|].
      destruct (quota_limit_only _ _ Hv Hn) as [Hr Hcase]. split; [|by apply quota_limit_from].
      destruct Hcase as [He|[-> He]]; [by left|by right].
  - intros other Ho Hoe. rewrite !describe_exact by done. simpl. destruct limit; simpl.
    + by rewrite lookup_insert_ne.
    + by rewrite lookup_delete_ne.
Qed.

Definition demo_alteration (value : Z) : AlterClientQuotasEntry :=
  mkAlterClientQuotasEntry [mkQuotaEntity USER_ENTITY (Some "u"%string)] [mkQuotaOperation IN_FLIGHT_REQUESTS value false].
Definition demo_altered := alter_one (Some (PrincipalQuota_new 4)) (demo_alteration (f64_from_u32 7)) true false.

Lemma quota_reads_back_witness :
  quota_limit (f64_from_u32 7) = Some 7 /\
  exists principal operation state',
    qa_entity (demo_alteration (f64_from_u32 7)) = [mkQuotaEntity USER_ENTITY (Some principal)] /\
    qa_operations (demo_alteration (f64_from_u32 7)) = [operation] /\ demo_altered.1 = Some state' /\
    forall other, other <> principal -> other <> EmptyString ->
      describe_entries state' [mkQuotaFilter USER_ENTITY EXACT (Some other)] =
      describe_entries (PrincipalQuota_new 4) [mkQuotaFilter USER_ENTITY EXACT (Some other)].
Proof.
  split; [vm_compute; reflexivity|].
  destruct (quota_reads_back (PrincipalQuota_new 4) (demo_alteration (f64_from_u32 7)) demo_altered.1 demo_altered.2)
    as (principal & operation & state' & He & Ho & Hs & _ & Hother);
    [constructor; [split; vm_compute; [discriminate|reflexivity]|constructor]|apply surjective_pairing|vm_compute; reflexivity|].
  exists principal, operation, state'. exact (conj He (conj Ho (conj Hs Hother))).
Defined.

(** ** What separates two identities *)

Lemma rotate_left_bit x k j : 0 <= x < 2 ^ 64 -> 0 <= j -> 0 <= k -> k + j < 64 ->
  Z.testbit (rotate_left x k) (k + j) = Z.testbit x j.
Proof.
  intros Hx Hj Hk Hb. unfold rotate_left. rewrite Z.lor_spec, Z.mod_pow2_bits_low by lia.
  rewrite Z.shiftl_spec by lia. replace (k + j - k) with j by lia.
  rewrite Z.shiftr_spec by lia. rewrite (Z.bits_above_log2 x (k + j + (64 - k))); [apply orb_false_r|lia|].
  destruct (decide (x = 0)) as [->|]; [rewrite Z.log2_nonpos; lia|]. apply Z.log2_lt_pow2; [lia|].
  eapply Z.lt_le_trans; [apply Hx|]. apply Z.pow_le_mono_r; lia.
Qed.

Lemma fold_bit pid stamp nth i : 0 <= i < 63 ->
  Z.testbit (fold pid stamp nth) i =
    xorb (xorb (Z.testbit pid i) (Z.testbit (rotate_left stamp 19) i)) (Z.testbit (rotate_left nth 41) i).
Proof.
  intros Hi. unfold fold. rewrite Z.land_spec, Z.ones_spec_low, andb_true_r by lia. by rewrite !Z.lxor_spec.
Qed.

Lemma fold_range pid stamp nth : 0 <= fold pid stamp nth < 2 ^ 63.
Proof. unfold fold. rewrite Z.land_ones by lia. apply Z.mod_pos_bound. lia. Qed.

Lemma fold_low_bits pid stamp n1 n2 : 0 <= n1 < 2 ^ 64 -> 0 <= n2 < 2 ^ 64 ->
  fold pid stamp n1 = fold pid stamp n2 -> n1 mod 2 ^ 22 = n2 mod 2 ^ 22.
Proof.
  intros H1 H2 Heq. apply Z.bits_inj'. intros j Hj. destruct (Z.lt_ge_cases j 22) as [Hlt|Hge].
  - rewrite !Z.mod_pow2_bits_low by lia. pose proof (f_equal (fun z => Z.testbit z (41 + j)) Heq) as Hb. simpl in Hb.
    rewrite !fold_bit, !rotate_left_bit in Hb by lia.
    by destruct (xorb (Z.testbit pid (41 + j)) (Z.testbit (rotate_left stamp 19) (41 + j))), (Z.testbit n1 j), (Z.testbit n2 j).
  - by rewrite !Z.mod_pow2_bits_high by lia.
Qed.

(** Two identities that one process mints in the same nanosecond differ, as
    long as it minted fewer than four million between them. *)
Theorem minted_apart pid since n1 n2 :
  0 <= n1 -> n1 < n2 -> n2 < n1 + 2 ^ 22 -> n2 < 2 ^ 64 ->
  (mint_producer_id pid since n1).2 <> (mint_producer_id pid since n2).2.
Proof.
  intros Hn1 Hlt Hclose Hn2. unfold mint_producer_id. cbn [snd]. set (stamp := match since with Some _ => _ | None => _ end).
  unfold ProducerId_new. pose proof (fold_range pid stamp n1). pose proof (fold_range pid stamp n2).
  rewrite !(proj2 (Z.ltb_ge _ 0)) by lia. intros Heq%fold_low_bits; [|lia..].
  assert ((n2 - n1) mod 2 ^ 22 = 0) as Hm by (rewrite Zminus_mod, Heq, Z.sub_diag; done).
  rewrite Z.mod_small in Hm; lia.
Qed.

(** Identities of one process minted apart in time can be the same: the
    counter and the clock are folded over the same bits, so that the second
    identity a process mints is the first, when it is minted exactly 2^22
    nanoseconds, some four milliseconds, later. *)
Theorem minted_again :
  exists pid first second : Z, second = first + 2 ^ 22 /\
    (mint_producer_id pid (Some first) 0).2 = (mint_producer_id pid (Some second) 1).2.
Proof. exists 4711, 1700000000000000000, (1700000000000000000 + 2 ^ 22). split; [done|]. vm_compute. reflexivity. Qed.
