(* ===== verification/Produce.v ===== *)
(** * Produce: from a request's batches to acknowledged offsets

    Models [oqueue-broker]'s [produce/mod.rs], [produce/answer.rs] and
    [flush.rs].  The region sealer is the [RegionSealer] trait object, a
    parameter; the coordinator is reached through a channel, and [commit] is what
    it answers.  Metrics and traces are left out. *)

From stdpp Require Import base tactics list numbers strings gmap.
From Stdlib Require Import ZArith Lia.
From S2P Require Import Prelude Bytes Types Retry Store Allocator Log Coordinator ErrorCodes Wire Api Msg MsgData Batch.
From S2P Require Import Segment Bundle Stream Merge Group Authz Fetch.

Open Scope Z_scope.

#[export] Instance KeyDomain_eq_dec : EqDecision KeyDomain.
Proof. solve_decision. Defined.
#[export] Instance KeyDomain_countable : Countable KeyDomain.
Proof.
  refine (inj_countable' kd_key_id (fun k => match k with Some k => Customer k | None => DefaultDomain end) _). by intros [].
Defined.

(** ** Outcomes ([produce/answer.rs], [cluster.rs]) *)

Inductive FlushError : Type := FlushStore (e : Error) | FlushCommit (e : CoordinatorError).

Inductive Slot : Type := SlotRefused (code : Z) | SlotPushed (nth : nat).
Record PartitionSlot : Type := mkPartitionSlot { sl_index : Z; sl_slot : Slot }.

Inductive PushOutcome : Type := PushAssigned (offset : Z) | PushRefused (code : Z) | PushFailed (code : Z).

Definition from_rejection (reason : RejectReason) : PushOutcome :=
  PushRefused (match reason with
               | OutOfOrder => OUT_OF_ORDER_SEQUENCE_NUMBER
               | Duplicate => DUPLICATE_SEQUENCE_NUMBER
               | StaleEpoch => INVALID_PRODUCER_EPOCH
               end).

Definition answer (slot : PartitionSlot) (flushed : Result FlushError (list PushOutcome)) : ProduceResponsePartition :=
  let '(error_code, base_offset) :=
    match sl_slot slot, flushed with
    | SlotRefused code, _ => (code, UNASSIGNED_OFFSET)
    | SlotPushed nth, Ok outcomes =>
        match outcomes !! nth with
        | Some (PushAssigned offset) => (NO_ERROR, offset)
        | Some (PushRefused code) | Some (PushFailed code) => (code, UNASSIGNED_OFFSET)
        | None => (UNKNOWN_SERVER_ERROR, UNASSIGNED_OFFSET)
        end
    | SlotPushed _, Err (FlushStore _) => (NOT_ENOUGH_REPLICAS, UNASSIGNED_OFFSET)
    | SlotPushed _, Err (FlushCommit _) => (LEADER_NOT_AVAILABLE, UNASSIGNED_OFFSET)
    | SlotPushed _, Panic => (UNKNOWN_SERVER_ERROR, UNASSIGNED_OFFSET)
    end in
  mkProduceResponsePartition (sl_index slot) error_code base_offset.

Definition failure_code (error : FlushError) : Z :=
  match error with FlushStore _ => NOT_ENOUGH_REPLICAS | FlushCommit _ => LEADER_NOT_AVAILABLE end.

Definition failed_outcomes (outcomes : list (option PushOutcome)) (code : Z) : list PushOutcome :=
  map (default (PushFailed code)) outcomes.

(** ** What a request has pushed ([produce/mod.rs]) *)

Record Pending : Type := mkPending {
  pn_bundles : list BundleBuilder;
  pn_by_domain : gmap KeyDomain nat;
  pn_routes : list (list nat);
  pn_pushed : nat;
  pn_seen : gset (string * Z);
}.
Definition Pending_new : Pending := mkPending [] ∅ [] 0 ∅.

Record PendingRecord : Type := mkPendingRecord {
  pd_topic : TopicId;
  pd_partition : PartitionId;
  pd_pushed : PushedRecords;
  pd_records : bytes;
}.

Inductive PendingPushError : Type := InvalidRecord | EncryptionUnavailable.

(** A bundle is opened for a domain the first time it is pushed to, and stays
    when that push fails. *)
Definition pn_open (self : Pending) (domain : KeyDomain) : Pending * nat :=
  match pn_by_domain self !! domain with
  | Some index => (self, index)
  | None =>
      let index := length (pn_bundles self) in
      (mkPending (pn_bundles self ++ [BundleBuilder_new]) (<[domain := index]> (pn_by_domain self))
         (pn_routes self ++ [[]]) (pn_pushed self) (pn_seen self), index)
  end.

Section sealing.
Context (seal : KeyDomain -> TopicId -> PartitionId -> bytes -> Res SealedRegion).

Definition pn_push (self : Pending) (domain : KeyDomain) (record : PendingRecord) : Pending * Result PendingPushError nat :=
  let sealed :=
    if requires_sealing domain
    then match seal domain (pd_topic record) (pd_partition record) (pd_records record) with
         | Ok region => Ok (Some region)
         | _ => Err EncryptionUnavailable
         end
    else Ok None in
  match sealed with
  | Panic => (self, Panic)
  | Err e => (self, Err e)
  | Ok sealed =>
      let '(self, index) := pn_open self domain in
      match pn_bundles self !! index, pn_routes self !! index with
      | Some bundle, Some route =>
          let pushed :=
            match sealed with
            | Some region =>
                match bb_push_sealed bundle (pd_topic record) (pd_partition record) (pd_pushed record) region with
                | Ok bundle => Ok bundle
                | _ => Err EncryptionUnavailable
                end
            | None =>
                match bb_push bundle (pd_topic record) (pd_partition record) (pd_pushed record) (pd_records record) with
                | Ok bundle => Ok bundle
                | _ => Err InvalidRecord
                end
            end in
          match pushed with
          | Ok bundle =>
              let global := pn_pushed self in
              (mkPending (<[index := bundle]> (pn_bundles self)) (pn_by_domain self)
                 (<[index := route ++ [global]]> (pn_routes self)) (global + 1) (pn_seen self), Ok global)
          | Err e => (self, Err e)
          | Panic => (self, Panic)
          end
      | _, _ => (self, Panic)
      end
  end.

Definition append_partition (pending : Pending) (domain : KeyDomain) (record : PendingRecord) : Pending * Result unit Slot :=
  let '(pending, r) := pn_push pending domain record in
  (pending, match r with
            | Ok nth => Ok (SlotPushed nth)
            | Err InvalidRecord => Ok (SlotRefused INVALID_RECORD)
            | Err EncryptionUnavailable => Ok (SlotRefused INVALID_REQUEST)
            | Panic => Panic
            end).

Record TopicMode : Type := mkTopicMode { tm_version : Z; tm_acks_valid : bool }.

Definition admitted (resolved_name : option string) (mode : TopicMode) (authz : AuthzContext TopicGrants) : Result Z string :=
  if negb (tm_acks_valid mode) then Err INVALID_REQUIRED_ACKS
  else match resolved_name with
  | None => Err UNKNOWN_TOPIC_ID
  | Some name => if negb (topic_authorized name authz) then Err TOPIC_AUTHORIZATION_FAILED else Ok name
  end.

Section partitions.
Context `{Checksum} (cluster : ClusterView).

Definition produce_one_partition (pending : Pending) (topic : string) (index : Z) (records : option bytes)
    : Pending * Result unit Slot :=
  let refused code := (pending, Ok (SlotRefused code)) in
  match PartitionId_new index with
  | Ok partition =>
      if negb (hosts cluster topic index) then refused UNKNOWN_TOPIC_OR_PARTITION
      else match records with
      | None => refused INVALID_RECORD
      | Some records =>
          match verify records with
          | Panic => (pending, Panic)
          | Err code => refused code
          | Ok verified =>
              match TopicId_new topic with
              | Ok topic_id =>
                  if bool_decide ((topic, index) ∈ pn_seen pending) then refused INVALID_RECORD
                  else
                    let pending := mkPending (pn_bundles pending) (pn_by_domain pending) (pn_routes pending) (pn_pushed pending)
                                     ({[(topic, index)]} ∪ pn_seen pending) in
                    match cv_key_domain cluster topic_id with
                    | None => (pending, Ok (SlotRefused UNKNOWN_TOPIC_OR_PARTITION))
                    | Some domain =>
                        append_partition pending domain
                          (mkPendingRecord topic_id partition (mkPushedRecords (vf_records verified) (vf_producer verified)) records)
                    end
              | _ => refused UNKNOWN_TOPIC_OR_PARTITION
              end
          end
      end
  | _ => refused UNKNOWN_TOPIC_OR_PARTITION
  end.

Fixpoint produce_partitions (pending : Pending) (resolved : option string) (mode : TopicMode) (authz : AuthzContext TopicGrants)
    (partitions : list ProducePartition) : Pending * Result unit (list PartitionSlot) :=
  match partitions with
  | [] => (pending, Ok [])
  | p :: partitions =>
      let '(pending, slot) :=
        match admitted resolved mode authz with
        | Ok name => produce_one_partition pending name (pp_index p) (pp_records p)
        | Err code => (pending, Ok (SlotRefused code))
        | Panic => (pending, Panic)
        end in
      match slot with
      | Ok slot =>
          let '(pending, rest) := produce_partitions pending resolved mode authz partitions in
          (pending, let? rest := rest in Ok (mkPartitionSlot (pp_index p) slot :: rest))
      | _ => (pending, Panic)
      end
  end.

Record ProduceOutcome : Type := mkProduceOutcome {
  pc_name : option string;
  pc_topic_id : bytes;
  pc_partitions : list PartitionSlot;
}.

(** The name a topic of the request is looked up under. *)
Definition produce_name (version : Z) (topic : ProduceTopic) : option string :=
  if 13 <=? version then cv_name_by_id cluster (pt_topic_id topic) else pt_name topic.

Definition produce_one_topic (pending : Pending) (topic : ProduceTopic) (mode : TopicMode) (authz : AuthzContext TopicGrants)
    : Pending * Result unit ProduceOutcome :=
  let name := if 13 <=? tm_version mode then None else pt_name topic in
  let '(pending, partitions) :=
    produce_partitions pending (produce_name (tm_version mode) topic) mode authz (pt_partitions topic) in
  (pending, let? partitions := partitions in Ok (mkProduceOutcome name (pt_topic_id topic) partitions)).

Fixpoint produce_topics (pending : Pending) (topics : list ProduceTopic) (mode : TopicMode) (authz : AuthzContext TopicGrants)
    : Pending * Result unit (list ProduceOutcome) :=
  match topics with
  | [] => (pending, Ok [])
  | topic :: topics =>
      let '(pending, outcome) := produce_one_topic pending topic mode authz in
      match outcome with
      | Ok outcome =>
          let '(pending, rest) := produce_topics pending topics mode authz in
          (pending, let? rest := rest in Ok (outcome :: rest))
      | _ => (pending, Panic)
      end
  end.
End partitions.
End sealing.

(** ** Flushing ([flush.rs], [produce/mod.rs]) *)

Section flushing.
Context {S C : Type} `{ObjectStore S}.
Context (commit : ObjectKey -> list CommittedSpan -> C -> C * Result CoordinatorError CommitAck).

(** The store, the broker's names for bundles, and the coordinator. *)
Record Broker : Type := mkBroker { br_store : S; br_namer : BundleNamer; br_coordinator : C }.

Definition flush_inner (bundle : BundleBuilder) (br : Broker) : Broker * Result FlushError CommitAck :=
  match bb_seal bundle with
  | Panic => (br, Panic)
  | Err e => (br, Err (FlushStore e))
  | Ok sealed =>
      match bn_next_key (br_namer br) with
      | Panic => (br, Panic)
      | Err e => (br, Err (FlushStore e))
      | Ok (namer, key) =>
          let '(store, put) := os_put key (sd_payload sealed) None (br_store br) in
          match put with
          | Panic => (mkBroker store namer (br_coordinator br), Panic)
          | Err e => (mkBroker store namer (br_coordinator br), Err (FlushStore e))
          | Ok _ =>
              let '(coordinator, r) := commit key (sd_spans sealed) (br_coordinator br) in
              (mkBroker store namer coordinator,
               match r with Ok ack => Ok ack | Err e => Err (FlushCommit e) | Panic => Panic end)
          end
      end
  end.

Definition span_outcome (outcome : SpanOutcome) : PushOutcome :=
  match outcome with
  | Assigned assignment => PushAssigned (as_base_offset assignment)
  | Rejected reason => from_rejection reason
  end.

(** The outcomes of one bundle, filed where its route says. *)
Fixpoint file_outcomes (route : list nat) (acked : list SpanOutcome) (outcomes : list (option PushOutcome)) {struct acked}
    : Result FlushError (list (option PushOutcome)) :=
  match acked with
  | [] => Ok outcomes
  | outcome :: acked =>
      match route with
      | [] => Err (FlushStore IndexObjectMismatch)
      | global :: route =>
          if (global <? length outcomes)%nat
          then file_outcomes route acked (<[global := Some (span_outcome outcome)]> outcomes)
          else Panic
      end
  end.

Definition any_assigned (acked : list SpanOutcome) : bool :=
  existsb (fun outcome => match outcome with Assigned _ => true | Rejected _ => false end) acked.

(** What the loop stops with when a bundle's flush fails, or goes on with. *)
Inductive Flushing : Type := Stopped (outcomes : list PushOutcome) | Going (outcomes : list (option PushOutcome)).

Fixpoint flush_loop (bundles : list BundleBuilder) (routes : list (list nat)) (session : option SessionWatermark)
    (outcomes : list (option PushOutcome)) (br : Broker) : Broker * option SessionWatermark * Result FlushError Flushing :=
  match bundles with
  | [] => (br, session, Ok (Going outcomes))
  | bundle :: bundles =>
      let '(br, r) := flush_inner bundle br in
      match r with
      | Panic => (br, session, Panic)
      | Err error => (br, session, Ok (Stopped (failed_outcomes outcomes (failure_code error))))
      | Ok ack =>
          let session := if any_assigned (ca_outcomes ack)
                         then session_observe session (mkWatermark (ca_epoch ack) (ca_version ack)) else session in
          match routes with
          | [] => (br, session, Err (FlushStore IndexObjectMismatch))
          | route :: routes =>
              match file_outcomes route (ca_outcomes ack) outcomes with
              | Ok outcomes => flush_loop bundles routes session outcomes br
              | Err e => (br, session, Err e)
              | Panic => (br, session, Panic)
              end
          end
      end
  end.

Fixpoint all_filed (outcomes : list (option PushOutcome)) : Result FlushError (list PushOutcome) :=
  match outcomes with
  | [] => Ok []
  | Some outcome :: outcomes => let? rest := all_filed outcomes in Ok (outcome :: rest)
  | None :: _ => Err (FlushStore IndexObjectMismatch)
  end.

Definition flush (session : option SessionWatermark) (pending : Pending) (br : Broker)
    : Broker * option SessionWatermark * Result FlushError (list PushOutcome) :=
  if (pn_pushed pending =? 0)%nat then (br, session, Ok [])
  else
    let '(br, session, r) := flush_loop (pn_bundles pending) (pn_routes pending) session (replicate (pn_pushed pending) None) br in
    (br, session, let? flushing := r in
                  match flushing with Stopped outcomes => Ok outcomes | Going outcomes => all_filed outcomes end).

(** ** The handler *)

Definition unanswerable (request : ProduceRequest) (version : Z) : bool :=
  (version <=? 12) && existsb (fun topic => bool_decide (pt_name topic = None)) (pr_topics request).

Definition build_response_topics (outcomes : list ProduceOutcome) (version : Z) (flushed : Result FlushError (list PushOutcome))
    : list ProduceResponseTopic :=
  omap (fun topic =>
    identity ← (if version <=? 12 then TopicName <$> pc_name topic else Some (TopicUuid (pc_topic_id topic)));
    Some (mkProduceResponseTopic identity (map (fun p => answer p flushed) (pc_partitions topic)))) outcomes.

Context `{Checksum} (seal : KeyDomain -> TopicId -> PartitionId -> bytes -> Res SealedRegion).

(** What the request is answered with, before it is encoded. *)
Definition produce_request (cluster : ClusterView) (session : option SessionWatermark) (version : Z) (request : ProduceRequest)
    (authz : AuthzContext TopicGrants) (br : Broker)
    : Broker * option SessionWatermark * Result unit (list ProduceOutcome * Result FlushError (list PushOutcome)) :=
  let acks_valid := (-1 <=? pr_acks request) && (pr_acks request <=? 1) in
  let '(pending, outcomes) := produce_topics seal cluster Pending_new (pr_topics request) (mkTopicMode version acks_valid) authz in
  match outcomes with
  | Ok outcomes => let '(br, session, flushed) := flush session pending br in (br, session, Ok (outcomes, flushed))
  | _ => (br, session, Panic)
  end.

Definition produce_handle (cluster : ClusterView) (session : option SessionWatermark) (prelude : RequestPrelude) (body : bytes)
    (authz : AuthzContext TopicGrants) (br : Broker) : Broker * option SessionWatermark * Result unit HandlerResponse :=
  let version := rp_api_version prelude in
  match decode_body (produce_decode_request version) body with
  | Panic => (br, session, Panic)
  | Err _ => (br, session, Ok Close)
  | Ok request =>
      if unanswerable request version then (br, session, Ok Close)
      else
        let '(br, session, r) := produce_request cluster session version request authz br in
        (br, session,
         let? (outcomes, flushed) := r in
         if pr_acks request =? 0 then Ok Silent
         else match flushed with
         | Panic => Panic
         | _ => Ok (Reply (produce_encode_response version (build_response_topics outcomes version flushed)
                      (encode_response_header [] Api.Produce version (rp_correlation_id prelude))))
         end)
  end.
End flushing.
Arguments Broker : clear implicits.
