(* ===== verification/ProduceProps.v ===== *)
(** * ProduceProps: an acknowledged batch is stored, and stored first

    What a produce request has pushed, bundle by bundle, and which answer is
    filed for which push; then the theorem that a partition answered without an
    error has its records in an object the coordinator assigned offsets to. *)

From stdpp Require Import base tactics list numbers strings gmap.
From Stdlib Require Import ZArith Lia.
From S2P Require Import Prelude Bytes Types Retry Store Machine Allocator Log Coordinator ErrorCodes Wire Api Msg MsgData Batch BatchProps.
From S2P Require Import Segment Bundle BundleProps Stream Merge Group Authz Read ReadProps Fetch FetchProps Produce.

Open Scope Z_scope.

(** ** Writers only append *)

Definition appends (w : Writer Error) : Prop := forall out out', w out = Ok out' -> exists rest, out' = out ++ rest.

Lemma appends_nil : appends wr_nil.
Proof. intros out out' [= <-]. exists []. by rewrite app_nil_r. Qed.
Lemma appends_bytes bs : appends (wr_bytes bs).
Proof. intros out out' [= <-]. by exists bs. Qed.
Lemma appends_fail e : appends (fun _ => Err e).
Proof. by intros out out'. Qed.
Lemma appends_if (c : bytes -> bool) (bs : bytes) e : appends (fun out => if c out then Ok (out ++ bs) else Err e).
Proof. intros out out'. case_match; [|done]. intros [= <-]. by exists bs. Qed.
Lemma appends_seq w1 w2 : appends w1 -> appends w2 -> appends (w1 +> w2).
Proof.
  intros H1 H2 out out'. unfold wr_seq. intros (out1 & (r1 & ->)%H1 & (r2 & ->)%H2)%res_bind_Ok.
  exists (r1 ++ r2). by rewrite app_assoc.
Qed.
Lemma appends_each {A} (f : A -> Writer Error) l : (forall a, appends (f a)) -> appends (wr_each f l).
Proof. intros Hf. induction l; simpl; [apply appends_nil|by apply appends_seq]. Qed.

Create HintDb appends.
#[local] Hint Resolve appends_nil appends_bytes appends_fail appends_seq appends_each : appends.
#[local] Hint Extern 1 (appends (fun out => if ?c then Ok (out ++ ?bs) else Err ?e)) => apply (appends_if (fun _ => c) bs e) : appends.

Lemma encode_region_appends r : appends (encode_region r).
Proof.
  unfold encode_region, put_name, encode_envelope, put_name.
  destruct (rg_bytes r), (rg_alg r), (rg_envelope r); auto 10 with appends.
Qed.

Lemma encode_footer_appends regions : appends (encode_footer regions).
Proof.
  intros out out'. unfold encode_footer. intros (out1 & H1 & H2)%res_bind_Ok.
  apply (appends_each _ _ encode_region_appends) in H1 as (rest & ->).
  case_match; [done|]. case_match; [done|]. apply Ok_inj in H2 as <-. rewrite <-app_assoc. eauto.
Qed.

(** What a sealed bundle holds: the records pushed to it, in order, and a span
    for each push. *)
Definition span_of (p : Push) (region : Region) : CommittedSpan :=
  mkCommittedSpan (push_topic p) (push_partition p) (pr_count (push_records p)) (rg_bytes region) (pr_producer (push_records p)).

Lemma spans_of_pushes at_ ps :
  zip_with (fun region producer =>
    mkCommittedSpan (rg_topic region) (rg_partition region) (rg_record_count region) (rg_bytes region) producer)
    (regions_of at_ ps) (map (fun p => pr_producer (push_records p)) ps) =
  zip_with span_of ps (regions_of at_ ps).
Proof. revert at_. induction ps as [|p ps IH]; intros at_; simpl; [done|]. by rewrite IH. Qed.

Lemma bb_seal_built ps b sealed :
  build ps = Ok b -> bb_seal b = Ok sealed ->
  sd_spans sealed = zip_with span_of ps (regions_of 0 ps) /\
  exists rest, sd_payload sealed = concat (map push_bytes ps) ++ rest.
Proof.
  intros [Hp Hr Hpr _]%build_built. unfold bb_seal. case_match; [done|].
  intros (payload & (rest & ->)%encode_footer_appends & [= <-])%res_bind_Ok. simpl. split.
  - unfold bb_spans. rewrite Hr, Hpr. apply spans_of_pushes.
  - rewrite Hp. eauto.
Qed.

(** The span of a push, and the bytes at it. *)
Lemma pushed_span ps l p key rest :
  ps !! l = Some p ->
  exists span, zip_with span_of ps (regions_of 0 ps) !! l = Some span /\
    cs_topic span = push_topic p /\ cs_partition span = push_partition p /\
    cs_record_count span = pr_count (push_records p) /\ cs_producer span = pr_producer (push_records p) /\
    slice_range key (concat (map push_bytes ps) ++ rest) (cs_bytes span) = Ok (push_bytes p).
Proof.
  intros Hl. pose proof (slice_of_region key [] ps rest) as Hs. simpl in Hs.
  destruct (Forall2_lookup_l _ _ _ _ _ Hs Hl) as (r & Hr & Hslice).
  change (Z.of_nat 0) with 0 in Hr. exists (span_of p r). rewrite lookup_zip_with, Hl. simpl. by rewrite Hr.
Qed.

(** ** What a request has pushed *)

(** What the types of a push's arguments guarantee. *)
Definition push_ok (p : Push) : Prop :=
  name_wf (push_topic p) /\ partition_wf (push_partition p) /\ in_u32 (pr_count (push_records p)) /\
  producer_wf (pr_producer (push_records p)).

(** [pss] are the pushes of each bundle. *)
Record pend_inv (pn : Pending) (pss : list (list Push)) : Prop := {
  pi_built : Forall2 (fun b ps => build ps = Ok b) (pn_bundles pn) pss;
  pi_routes : Forall2 (fun (route : list nat) ps => length route = length ps) (pn_routes pn) pss;
  pi_domain : map_Forall (fun _ i => (i < length pss)%nat) (pn_by_domain pn);
  pi_below : Forall (fun g => (g < pn_pushed pn)%nat) (concat (pn_routes pn));
  pi_nodup : NoDup (concat (pn_routes pn));
  pi_ok : Forall (Forall push_ok) pss;
}.

(** The push the request counted as its [g]-th. *)
Definition placed (routes : list (list nat)) (pss : list (list Push)) (g : nat) (p : Push) : Prop :=
  exists i l route ps, routes !! i = Some route /\ pss !! i = Some ps /\ route !! l = Some g /\ ps !! l = Some p.

(** What a request has pushed is still there when it has pushed more. *)
Definition extends (pn : Pending) (pss : list (list Push)) (pn' : Pending) (pss' : list (list Push)) : Prop :=
  pend_inv pn' pss' /\ forall g p, placed (pn_routes pn) pss g p -> placed (pn_routes pn') pss' g p.

Lemma extends_refl pn pss : pend_inv pn pss -> extends pn pss pn pss.
Proof. by split. Qed.

Lemma extends_trans pn1 pss1 pn2 pss2 pn3 pss3 :
  extends pn1 pss1 pn2 pss2 -> extends pn2 pss2 pn3 pss3 -> extends pn1 pss1 pn3 pss3.
Proof. intros [_ H1] [H3 H2]. split; auto. Qed.

Lemma pend_inv_new : pend_inv Pending_new [].
Proof. split; try constructor. apply map_Forall_empty. Qed.

(** A route that is given one more place. *)
Lemma concat_insert_app {A} (ls : list (list A)) i l a :
  ls !! i = Some l -> concat (<[i := l ++ [a]]> ls) ≡ₚ a :: concat ls.
Proof.
  revert i. induction ls as [|l0 ls IH]; intros [|i]; simpl; intros Hi; try done.
  - injection Hi as ->. rewrite <-app_assoc. simpl. by rewrite Permutation_middle.
  - rewrite IH by done. by rewrite Permutation_middle.
Qed.

Lemma build_snoc ps b p b' : build ps = Ok b -> push_one b p = Ok b' -> build (ps ++ [p]) = Ok b'.
Proof. unfold build. intros Hb Hp. rewrite res_foldl_app, Hb. simpl. by rewrite Hp. Qed.

Lemma pn_open_extends pn pss domain pn' index :
  pend_inv pn pss -> pn_open pn domain = (pn', index) ->
  exists pss', extends pn pss pn' pss' /\ (index < length pss')%nat.
Proof.
  intros Hinv. unfold pn_open. destruct (pn_by_domain pn !! domain) as [i|] eqn:Hd; intros [= <- <-].
  - exists pss. split; [by apply extends_refl|]. by apply (pi_domain _ _ Hinv) in Hd.
  - destruct Hinv as [H1 H2 H3 H4 H5 H6]. pose proof (Forall2_length _ _ _ H1) as Hlen.
    exists (pss ++ [[]]). split; [|rewrite length_app; simpl; lia]. split; [split; simpl|]; simpl.
    + by apply Forall2_app; [|repeat constructor].
    + by apply Forall2_app; [|repeat constructor].
    + apply map_Forall_insert_2; [rewrite length_app; simpl; lia|].
      eapply map_Forall_impl; [done|]. intros. simpl. rewrite length_app. simpl in *. lia.
    + by rewrite concat_app, app_nil_r.
    + by rewrite concat_app, app_nil_r.
    + by apply Forall_app; split; [|repeat constructor].
    + intros g p (i & l & route & ps & Hr & Hps & Hl & Hp). exists i, l, route, ps.
      split_and!; try done; by apply lookup_app_l_Some.
Qed.

(** Pushing one thing to a bundle that is open. *)
Lemma pushed_extends pn pss index bundle route p bundle' :
  pend_inv pn pss -> pn_bundles pn !! index = Some bundle -> pn_routes pn !! index = Some route ->
  push_one bundle p = Ok bundle' -> push_ok p ->
  let pn' := mkPending (<[index := bundle']> (pn_bundles pn)) (pn_by_domain pn)
               (<[index := route ++ [pn_pushed pn]]> (pn_routes pn)) (pn_pushed pn + 1) (pn_seen pn) in
  exists pss', extends pn pss pn' pss' /\ placed (pn_routes pn') pss' (pn_pushed pn) p.
Proof.
  intros [H1 H2 H3 H4 H5 H6] Hb Hr Hp Hok pn'.
  destruct (Forall2_lookup_l _ _ _ _ _ H1 Hb) as (ps & Hps & Hbuild).
  pose proof (Forall2_lookup_lr _ _ _ _ _ _ H2 Hr Hps) as Hlen. simpl in Hlen.
  exists (<[index := ps ++ [p]]> pss). split; [split; [split|]|]; simpl.
  - apply Forall2_insert; [done|]. by eapply build_snoc.
  - apply Forall2_insert; [done|]. rewrite !length_app. simpl. lia.
  - eapply map_Forall_impl; [done|]. intros. simpl. by rewrite length_insert.
  - rewrite concat_insert_app by done. constructor; [lia|]. eapply Forall_impl; [done|]. simpl. lia.
  - rewrite concat_insert_app by done. constructor; [|done]. intros Hin.
    rewrite Forall_forall in H4. apply H4 in Hin. lia.
  - apply Forall_insert; [done|]. apply Forall_app. split; [|by constructor]. by eapply Forall_lookup_1 in Hps.
  - intros g q (i & l & route0 & ps0 & Hr0 & Hps0 & Hl & Hq). destruct (decide (i = index)) as [->|Hne].
    + simplify_eq. exists index, l, (route ++ [pn_pushed pn]), (ps ++ [p]).
      rewrite !list_lookup_insert_eq by (by eapply lookup_lt_Some).
      split_and!; try done; by apply lookup_app_l_Some.
    + exists i, l, route0, ps0. by rewrite !list_lookup_insert_ne by done.
  - exists index, (length route), (route ++ [pn_pushed pn]), (ps ++ [p]).
    rewrite !list_lookup_insert_eq by (by eapply lookup_lt_Some).
    split_and!; try done; [by rewrite lookup_app_r, Nat.sub_diag by lia|].
    rewrite Hlen, lookup_app_r, Nat.sub_diag by lia. done.
Qed.

Section pushing.
Context (seal : KeyDomain -> TopicId -> PartitionId -> bytes -> Res SealedRegion).

(** What is pushed for a record: its bytes, or what the domain's key seals them
    to. *)
Definition push_for (domain : KeyDomain) (record : PendingRecord) (p : Push) : Prop :=
  if requires_sealing domain
  then exists region, seal domain (pd_topic record) (pd_partition record) (pd_records record) = Ok region /\
         p = PushSealed (pd_topic record) (pd_partition record) (pd_pushed record) region
  else p = PushPlain (pd_topic record) (pd_partition record) (pd_pushed record) (pd_records record).

Definition record_ok (record : PendingRecord) : Prop :=
  name_wf (pd_topic record) /\ partition_wf (pd_partition record) /\ in_u32 (pr_count (pd_pushed record)) /\
  producer_wf (pr_producer (pd_pushed record)).

Lemma pn_push_extends pn pss domain record pn' r :
  pend_inv pn pss -> record_ok record -> pn_push seal pn domain record = (pn', r) ->
  exists pss', extends pn pss pn' pss' /\
    forall nth, r = Ok nth -> exists p, push_for domain record p /\ placed (pn_routes pn') pss' nth p.
Proof.
  intros Hinv Hrok. unfold pn_push.
  destruct (if requires_sealing domain then _ else _) as [sealed|e|] eqn:Hs;
    [|intros [= <- <-]; exists pss; split; [by apply extends_refl|done]..].
  destruct (pn_open pn domain) as [pn1 index] eqn:Ho.
  destruct (pn_open_extends _ _ _ _ _ Hinv Ho) as (pss1 & He1 & Hlt).
  assert (exists bundle route, pn_bundles pn1 !! index = Some bundle /\ pn_routes pn1 !! index = Some route) as (bundle & route & Hb & Hr).
  { destruct He1 as [[Hf1 Hf2 _ _ _ _] _]. apply Forall2_length in Hf1, Hf2.
    destruct (lookup_lt_is_Some_2 (pn_bundles pn1) index) as [b Hb]; [lia|].
    destruct (lookup_lt_is_Some_2 (pn_routes pn1) index) as [r0 Hr]; [lia|]. eauto. }
  rewrite Hb, Hr. set (p := match sealed with
    | Some region => PushSealed (pd_topic record) (pd_partition record) (pd_pushed record) region
    | None => PushPlain (pd_topic record) (pd_partition record) (pd_pushed record) (pd_records record) end).
  match goal with |- (match ?m with _ => _ end = _) -> _ => assert (forall b', m = Ok b' -> push_one bundle p = Ok b') as Hpush end.
  { subst p. destruct sealed; simpl; intros b'; [destruct (bb_push_sealed _ _ _ _ _)|destruct (bb_push _ _ _ _ _)]; by intros [= ->]. }
  match goal with |- (match ?m with _ => _ end = _) -> _ => destruct m as [b'|e|] end;
    [|intros [= <- <-]; exists pss1; split; done..].
  specialize (Hpush _ eq_refl). intros [= <- <-].
  destruct (pushed_extends _ _ _ _ _ _ _ (proj1 He1) Hb Hr Hpush) as (pss2 & He2 & Hpl); [by subst p; destruct sealed|].
  exists pss2. split; [exact (extends_trans _ _ _ _ _ _ He1 He2)|]. intros nth [= <-]. exists p. split; [|done].
  unfold push_for. subst p. destruct (requires_sealing domain); [|by injection Hs as <-].
  destruct (seal _ _ _ _) as [region| |]; try done. injection Hs as <-. eauto.
Qed.

Context `{Checksum} (cluster : ClusterView) (version : Z) (authz : AuthzContext TopicGrants) (mode : TopicMode).

(** A batch of the request that was taken: its topic is the one the client may
    write to, the partition is one it has, its checksum and its records were
    checked, and the [g]-th push is of it. *)
Record taken (routes : list (list nat)) (pss : list (list Push)) (resolved : option string) (part : ProducePartition)
    (g : nat) (name : string) (records : bytes) (v : Verified) (domain : KeyDomain) (p : Push) : Prop := {
  tk_admitted : admitted resolved mode authz = Ok name;
  tk_hosted : hosts cluster name (pp_index part) = true;
  tk_records : pp_records part = Some records;
  tk_verified : verify records = Ok v;
  tk_domain : cv_key_domain cluster name = Some domain;
  tk_push : push_for domain (mkPendingRecord name (pp_index part) (mkPushedRecords (vf_records v) (vf_producer v)) records) p;
  tk_placed : placed routes pss g p;
}.

Definition slot_means routes pss resolved (part : ProducePartition) (slot : Slot) : Prop :=
  match slot with
  | SlotRefused code => code <> NO_ERROR
  | SlotPushed g => exists name records v domain p, taken routes pss resolved part g name records v domain p
  end.

Lemma slot_means_extends pn pss pn' pss' resolved part slot :
  extends pn pss pn' pss' -> slot_means (pn_routes pn) pss resolved part slot -> slot_means (pn_routes pn') pss' resolved part slot.
Proof.
  intros [_ He]. destruct slot; [done|]. intros (name & records & v & domain & p & []).
  exists name, records, v, domain, p. split; auto.
Qed.

(** What a request's types guarantee of a partition of it. *)
Definition part_wf (resolved : option string) (part : ProducePartition) : Prop :=
  (forall name, resolved = Some name -> is_str name) /\ pp_index part <= i32_max /\
  (forall records, pp_records part = Some records -> Forall is_byte records).

Lemma verify_wf batch v :
  Forall is_byte batch -> verify batch = Ok v -> in_u32 (vf_records v) /\ producer_wf (vf_producer v).
Proof.
  intros Hb. unfold verify. destruct (decode_batch_header batch) as [header|[]|] eqn:Hh; [|done..].
  apply decode_header_Ok in Hh as (Hlen & _ & ->). case_bool_decide; [done|]. case_match; [done|]. case_bool_decide; [done|].
  destruct (count_records batch) as [n| |] eqn:Hc; [|done..]. case_match; [done|]. case_match; [done|].
  destruct (producer_identity _) as [producer| |] eqn:Hp; [|done..]. intros [= <-]. simpl. split.
  - unfold count_records in Hc. apply res_bind_Ok in Hc as (records & _ & Hc).
    pose proof (count_loop_bounds (length records) 0 records 0%nat ltac:(lia) ltac:(unfold remaining; lia)) as Hbd.
    destruct (count_loop _ _ _ _) as [[n' ?]| |]; simpl in Hc; [|done..]. case_match; [done|]. injection Hc as <-. zbool. mlia.
  - assert (forall at_ n, (0 < n)%nat -> fits_signed n (from_be_signed n (slice at_ n batch))) as Hfit.
    { intros at_ w Hw. apply from_be_signed_fits; [done|by apply Forall_take, Forall_drop|unfold slice; rewrite length_take; lia]. }
    unfold producer_identity, ProducerId_new, ProducerEpoch_new in Hp. case_match; [by injection Hp as <-|].
    case_match eqn:Hid; [|done..]. case_match eqn:Hep; [|done..]. injection Hp as <-. simpl.
    repeat case_match; simplify_eq. simpl in *. zbool.
    pose proof (Hfit 43%nat 8%nat ltac:(lia)) as Hw8. pose proof (Hfit 51%nat 2%nat ltac:(lia)) as Hw2. pose proof (Hfit 53%nat 4%nat ltac:(lia)) as Hw4.
    unfold fits_signed in *. change (256 ^ Z.of_nat 8 / 2) with 9223372036854775808 in Hw8. change (256 ^ Z.of_nat 2 / 2) with 32768 in Hw2.
    change (256 ^ Z.of_nat 4 / 2) with 2147483648 in Hw4. mlia.
Qed.

Lemma admitted_Ok resolved name : admitted resolved mode authz = Ok name -> resolved = Some name.
Proof. unfold admitted. repeat case_match; congruence. Qed.

Lemma verify_Err_code batch code : verify batch = Err code -> code <> NO_ERROR.
Proof. unfold verify. repeat case_match; try done; intros [= <-]; done. Qed.

Lemma admitted_Err_code resolved code : admitted resolved mode authz = Err code -> code <> NO_ERROR.
Proof. unfold admitted. repeat case_match; intros [= <-]; done. Qed.

Lemma produce_one_partition_extends pn pss resolved name part pn' r :
  pend_inv pn pss -> part_wf resolved part -> admitted resolved mode authz = Ok name ->
  produce_one_partition seal cluster pn name (pp_index part) (pp_records part) = (pn', r) ->
  exists pss', extends pn pss pn' pss' /\ forall slot, r = Ok slot -> slot_means (pn_routes pn') pss' resolved part slot.
Proof.
  intros Hinv (Hstr & Hidx & Hbytes) Hadm. unfold produce_one_partition.
  assert (forall code, code <> NO_ERROR -> (pn, Ok (SlotRefused code)) = (pn', r) -> exists pss', extends pn pss pn' pss' /\
    forall slot, r = Ok slot -> slot_means (pn_routes pn') pss' resolved part slot) as Href.
  { intros code Hc [= <- <-]. exists pss. split; [by apply extends_refl|]. by intros slot [= <-]. }
  destruct (PartitionId_new (pp_index part)) as [partition| |] eqn:Hpid; [|by apply Href..].
  assert (partition = pp_index part /\ 0 <= pp_index part) as [-> Hidx0].
  { unfold PartitionId_new in Hpid. case_match eqn:Hneg; [done|]. injection Hpid as <-. zbool. by split. }
  destruct (hosts _ _ _) eqn:Hh; [simpl|by apply Href]. destruct (pp_records part) as [records|] eqn:Hrec; [|by apply Href].
  destruct (verify records) as [v|code|] eqn:Hv;
    [|by apply Href, (verify_Err_code records)|intros [= <- <-]; exists pss; split; [by apply extends_refl|done]].
  destruct (TopicId_new name) as [topic| |] eqn:Ht; [|by apply Href..].
  assert (topic = name /\ name <> EmptyString) as [-> Hne]. { unfold TopicId_new in Ht. case_match; [done|]. injection Ht as <-. by split. }
  destruct (verify_wf records v (Hbytes _ eq_refl) Hv) as [Hcount Hprod].
  pose proof (Hstr name (admitted_Ok _ _ Hadm)) as Hs.
  case_bool_decide; [by apply Href|]. set (pn1 := mkPending _ _ _ _ _).
  assert (pend_inv pn1 pss) as Hinv1 by (by destruct Hinv).
  assert (extends pn pss pn1 pss) as He1 by (by split).
  destruct (cv_key_domain cluster name) as [domain|] eqn:Hd.
  2: { intros [= <- <-]. exists pss. split; [done|]. by intros slot [= <-]. }
  unfold append_partition. destruct (pn_push seal pn1 domain _) as [pn2 r2] eqn:Hpush. intros [= <- <-].
  eapply pn_push_extends in Hpush as (pss2 & He2 & Hok); [|exact Hinv1|by split_and!].
  exists pss2. split; [exact (extends_trans _ _ _ _ _ _ He1 He2)|]. intros slot.
  destruct r2 as [nth|[]|]; intros [= <-]; simpl; try done.
  destruct (Hok _ eq_refl) as (p & Hfor & Hpl). exists name, records, v, domain, p. by split.
Qed.

Definition partition_means routes pss resolved (part : ProducePartition) (slot : PartitionSlot) : Prop :=
  sl_index slot = pp_index part /\ slot_means routes pss resolved part (sl_slot slot).

Lemma produce_partitions_extends parts pn pss resolved pn' r :
  pend_inv pn pss -> Forall (part_wf resolved) parts -> produce_partitions seal cluster pn resolved mode authz parts = (pn', r) ->
  exists pss', extends pn pss pn' pss' /\
    forall slots, r = Ok slots -> Forall2 (partition_means (pn_routes pn') pss' resolved) parts slots.
Proof.
  intros Hinv Hwf. revert pn pss r Hinv. induction Hwf as [|part parts Hpart _ IH]; intros pn pss r Hinv; simpl.
  - intros [= <- <-]. exists pss. split; [by apply extends_refl|]. by intros slots [= <-].
  - match goal with |- (let '(_, _) := ?m in _) = _ -> _ => destruct m as [pn1 r1] eqn:Hone end.
    assert (exists pss1, extends pn pss pn1 pss1 /\ forall slot, r1 = Ok slot -> slot_means (pn_routes pn1) pss1 resolved part slot)
      as (pss1 & He1 & Hslot).
    { destruct (admitted resolved mode authz) as [name|code|] eqn:Hadm.
      - by eapply produce_one_partition_extends.
      - injection Hone as <- <-. exists pss. split; [by apply extends_refl|]. intros slot [= <-]. by eapply admitted_Err_code.
      - injection Hone as <- <-. exists pss. by split; [apply extends_refl|]. }
    destruct r1 as [slot| |]; [|intros [= <- <-]; exists pss1; done..].
    destruct (produce_partitions _ _ pn1 _ _ _ _) as [pn2 rest] eqn:Hrest. intros [= <- <-].
    destruct (IH _ _ _ (proj1 He1) Hrest) as (pss2 & He2 & Hall).
    exists pss2. split; [exact (extends_trans _ _ _ _ _ _ He1 He2)|]. intros slots (slots1 & -> & [= <-])%res_bind_Ok.
    constructor; [|by apply Hall]. split; [done|]. by eapply slot_means_extends; [|apply Hslot].
Qed.

Definition outcome_means routes pss (topic : ProduceTopic) (outcome : ProduceOutcome) : Prop :=
  pc_topic_id outcome = pt_topic_id topic /\ pc_name outcome = (if 13 <=? tm_version mode then None else pt_name topic) /\
  Forall2 (partition_means routes pss (produce_name cluster (tm_version mode) topic)) (pt_partitions topic) (pc_partitions outcome).

Lemma outcome_means_extends pn pss pn' pss' topic outcome :
  extends pn pss pn' pss' -> outcome_means (pn_routes pn) pss topic outcome -> outcome_means (pn_routes pn') pss' topic outcome.
Proof.
  intros He (? & ? & Hf). split_and!; try done. eapply Forall2_impl; [done|].
  intros part slot []. split; [done|]. by eapply slot_means_extends.
Qed.

(** What a request's types guarantee of a topic of it. *)
Definition topic_wf (topic : ProduceTopic) : Prop :=
  Forall (part_wf (produce_name cluster (tm_version mode) topic)) (pt_partitions topic).

Lemma produce_topics_extends topics pn pss pn' r :
  pend_inv pn pss -> Forall topic_wf topics -> produce_topics seal cluster pn topics mode authz = (pn', r) ->
  exists pss', extends pn pss pn' pss' /\
    forall outcomes, r = Ok outcomes -> Forall2 (outcome_means (pn_routes pn') pss') topics outcomes.
Proof.
  intros Hinv Hwf. revert pn pss r Hinv. induction Hwf as [|topic topics Htopic _ IH]; intros pn pss r Hinv; simpl.
  - intros [= <- <-]. exists pss. split; [by apply extends_refl|]. by intros slots [= <-].
  - unfold produce_one_topic. destruct (produce_partitions _ _ pn _ _ _ _) as [pn1 slots] eqn:Hone.
    destruct (produce_partitions_extends _ _ _ _ _ _ Hinv Htopic Hone) as (pss1 & He1 & Hslots).
    destruct slots as [slots| |]; simpl; [|intros [= <- <-]; exists pss1; done..].
    destruct (produce_topics _ _ pn1 _ _ _) as [pn2 rest] eqn:Hrest. intros [= <- <-].
    destruct (IH _ _ _ (proj1 He1) Hrest) as (pss2 & He2 & Hall).
    exists pss2. split; [exact (extends_trans _ _ _ _ _ _ He1 He2)|]. intros outcomes (outcomes1 & -> & [= <-])%res_bind_Ok.
    constructor; [|by apply Hall]. eapply outcome_means_extends; [done|]. split_and!; auto.
Qed.
End pushing.

(** ** Filing the answers *)

Lemma file_outcomes_assigned route acked outcomes outcomes' g o :
  file_outcomes route acked outcomes = Ok outcomes' -> outcomes' !! g = Some (Some (PushAssigned o)) ->
  outcomes !! g = Some (Some (PushAssigned o)) \/
  exists l a, route !! l = Some g /\ acked !! l = Some (Assigned a) /\ o = as_base_offset a.
Proof.
  revert route outcomes. induction acked as [|outcome acked IH]; intros route outcomes; simpl; [intros [= <-]; auto|].
  destruct route as [|global route]; [done|]. case_match; [|done]. intros Hf Hg.
  destruct (IH _ _ Hf Hg) as [Hin|(l & a & Hl & Ha & ->)].
  - destruct (decide (g = global)) as [->|Hne]; [|rewrite list_lookup_insert_ne in Hin by done; auto].
    apply list_lookup_insert_Some in Hin as [(_ & Ho & _)|(? & _)]; [|done].
    right. destruct outcome as [a|[]]; [|done..]. injection Ho as <-. by exists 0%nat, a.
  - right. by exists (S l), a.
Qed.

Lemma all_filed_lookup outcomes filed g o :
  all_filed outcomes = Ok filed -> filed !! g = Some o -> outcomes !! g = Some (Some o).
Proof.
  revert filed g. induction outcomes as [|[o'|] outcomes IH]; simpl; intros filed g; [by intros [= <-]| |done].
  intros (rest & Hr & [= <-])%res_bind_Ok. destruct g as [|g]; simpl; [by intros [= ->]|]. by apply IH.
Qed.

Lemma failed_outcomes_assigned outcomes code g o :
  failed_outcomes outcomes code !! g = Some (PushAssigned o) -> outcomes !! g = Some (Some (PushAssigned o)).
Proof.
  unfold failed_outcomes. change (map ?f ?l) with (f <$> l). rewrite list_lookup_fmap.
  destruct (outcomes !! g) as [[o'|]|]; simpl; congruence.
Qed.

(** A coordinator that also keeps what it acknowledged. *)
Record Acked : Type := mkAcked { ak_object : ObjectKey; ak_spans : list CommittedSpan; ak_ack : CommitAck }.

Definition recorded {C} (commit : ObjectKey -> list CommittedSpan -> C -> C * Result CoordinatorError CommitAck)
    (key : ObjectKey) (spans : list CommittedSpan) (st : C * list Acked) : (C * list Acked) * Result CoordinatorError CommitAck :=
  let '(c, r) := commit key spans st.1 in
  ((c, match r with Ok ack => st.2 ++ [mkAcked key spans ack] | _ => st.2 end), r).

Section flush.
Context {S C : Type} `{ObjectStoreLaws S}.
Context (commit : ObjectKey -> list CommittedSpan -> C -> C * Result CoordinatorError CommitAck).

Notation broker := (Broker S (C * list Acked)).

Definition bundle_key (writer : string) (n : Z) : string := "bundles/" +:+ writer +:+ "/" +:+ pad20 n.

Lemma bundle_key_inj writer n m : in_pad n -> in_pad m -> bundle_key writer n = bundle_key writer m -> n = m.
Proof. unfold bundle_key. intros Hn Hm Heq. do 3 apply (inj _) in Heq. by apply pad20_inj. Qed.

(** What a broker has come to: the names it has used are behind it, what is
    under them stays, and what it acknowledged is remembered. *)
Record moves (br br' : broker) : Prop := {
  mv_writer : bn_writer (br_namer br') = bn_writer (br_namer br);
  mv_next : bn_next (br_namer br) <= bn_next (br_namer br');
  mv_kept : forall n, 0 <= n < bn_next (br_namer br) ->
    objects (br_store br') !! bundle_key (bn_writer (br_namer br)) n = objects (br_store br) !! bundle_key (bn_writer (br_namer br)) n;
  mv_acked : (br_coordinator br).2 `prefix_of` (br_coordinator br').2;
}.

Lemma broker_moves_refl br : moves br br.
Proof. by split. Qed.

Lemma broker_moves_trans br1 br2 br3 : moves br1 br2 -> moves br2 br3 -> moves br1 br3.
Proof.
  intros [Hw1 Hn1 Hk1 Ha1] [Hw2 Hn2 Hk2 Ha2]. split; [congruence|lia| |by etrans].
  intros n Hn. rewrite <-Hk1 by done. rewrite <-Hw1. apply Hk2. lia.
Qed.

(** A bundle the coordinator acknowledged: the object is in the store, under a
    name used before, with what was pushed. *)
Definition acknowledged (br : broker) (ps : list Push) (ack : CommitAck) : Prop :=
  exists n rest token, 0 <= n < bn_next (br_namer br) /\
    let key := bundle_key (bn_writer (br_namer br)) n in
    mkAcked key (zip_with span_of ps (regions_of 0 ps)) ack ∈ (br_coordinator br).2 /\
    objects (br_store br) !! key = Some (concat (map push_bytes ps) ++ rest, token).

Lemma acknowledged_moves br br' ps ack : moves br br' -> acknowledged br ps ack -> acknowledged br' ps ack.
Proof.
  intros [Hw Hn Hk Ha] (n & rest & token & Hlt & Hin & Hobj). exists n, rest, token. simpl.
  rewrite Hw, Hk by done. split_and!; [lia|lia| |done]. by eapply elem_of_prefix.
Qed.

Lemma bn_next_key_Ok namer namer' key :
  bn_next_key namer = Ok (namer', key) ->
  bn_next namer < u64_max /\ namer' = mkBundleNamer (bn_writer namer) (bn_next namer + 1) /\ key = bundle_key (bn_writer namer) (bn_next namer).
Proof.
  unfold bn_next_key, u64_checked_add. case_match eqn:Hle; [|done]. case_match; [|done]. simplify_eq. zbool.
  intros (k & Hk & [= <- <-])%res_bind_Ok. unfold ObjectKey_new in Hk. case_match; [done|]. injection Hk as <-.
  split_and!; [lia|done..].
Qed.

(** A put leaves the other keys alone. *)
Lemma put_other s k b pc s' r k' : os_put k b pc s = (s', r) -> k' <> k -> objects s' !! k' = objects s !! k'.
Proof.
  intros Hput Hne. apply put_law in Hput. unfold put_spec in Hput.
  destruct r; [destruct Hput as [_ ->]| |done]; [by rewrite lookup_insert_ne|].
  destruct Hput as [(_ & _ & ->)|(_ & [->|(token & _ & ->)])]; [done..|by rewrite lookup_insert_ne].
Qed.

Lemma flush_inner_moves bundle ps br br' r :
  build ps = Ok bundle -> 0 <= bn_next (br_namer br) -> flush_inner (recorded commit) bundle br = (br', r) ->
  moves br br' /\ forall ack, r = Ok ack -> acknowledged br' ps ack.
Proof.
  intros Hb Hn. unfold flush_inner.
  destruct (bb_seal bundle) as [sealed|e|] eqn:Hs; [|intros [= <- <-]; by split; [apply broker_moves_refl|]..].
  destruct (bb_seal_built _ _ _ Hb Hs) as (Hsp & rest & Hpay).
  destruct (bn_next_key (br_namer br)) as [[namer key]|e|] eqn:Hk; [|intros [= <- <-]; by split; [apply broker_moves_refl|]..].
  apply bn_next_key_Ok in Hk as (Hmax & -> & ->). set (key := bundle_key _ _). set (namer := mkBundleNamer _ _).
  destruct (os_put key _ _ _) as [store put] eqn:Hput.
  assert (forall trace, (br_coordinator br).2 `prefix_of` trace.2 -> moves br (mkBroker store namer trace)) as Hmv.
  { intros trace Htr. split; simpl; [done|lia| |done]. intros n Hlt. eapply put_other; [done|].
    intros Heq%bundle_key_inj; [lia|apply in_u64_pad; mlia..]. }
  destruct put as [meta|e|]; [|intros [= <- <-]; by split; [apply Hmv|]..].
  unfold recorded. destruct (commit key _ _) as [c rc]. intros [= <- <-].
  split; [apply Hmv; destruct rc; simpl; try done; by eexists|].
  intros ack. destruct rc as [ack'| |]; intros [= <-]. apply put_law in Hput as [_ Hobj].
  exists (bn_next (br_namer br)), rest, (om_token meta). simpl. split_and!; [lia|lia| |].
  - rewrite <-Hsp. apply elem_of_app. right. by apply list_elem_of_singleton.
  - by rewrite Hobj, lookup_insert_eq, Hpay.
Qed.

(** A bundle's answer that is filed for the [g]-th push. *)
Definition filed (br : broker) (routes : list (list nat)) (pss : list (list Push)) (g : nat) (o : Z) : Prop :=
  exists i l route ps ack a, routes !! i = Some route /\ pss !! i = Some ps /\ route !! l = Some g /\
    acknowledged br ps ack /\ ca_outcomes ack !! l = Some (Assigned a) /\ o = as_base_offset a.

Definition answers (r : Result FlushError Flushing) (g : nat) (o : Z) : Prop :=
  match r with
  | Ok (Stopped outcomes) => outcomes !! g = Some (PushAssigned o)
  | Ok (Going outcomes) => outcomes !! g = Some (Some (PushAssigned o))
  | _ => False
  end.

Lemma flush_loop_filed bundles pss routes session outcomes br br' session' r :
  Forall2 (fun b ps => build ps = Ok b) bundles pss -> 0 <= bn_next (br_namer br) ->
  flush_loop (recorded commit) bundles routes session outcomes br = (br', session', r) ->
  moves br br' /\ forall g o, answers r g o -> outcomes !! g = Some (Some (PushAssigned o)) \/ filed br' routes pss g o.
Proof.
  intros Hf. revert routes session outcomes br. induction Hf as [|bundle ps bundles pss Hb _ IH]; intros routes session outcomes br Hn; simpl.
  { intros [= <- <- <-]. split; [apply broker_moves_refl|]. simpl. auto. }
  destruct (flush_inner _ bundle br) as [br1 r1] eqn:Hin.
  destruct (flush_inner_moves _ _ _ _ _ Hb Hn Hin) as [Hmv Hack].
  destruct r1 as [ack|error|]; [|intros [= <- <- <-]; split; [done|]; simpl; eauto using failed_outcomes_assigned|intros [= <- <- <-]; by split].
  destruct routes as [|route routes]; [intros [= <- <- <-]; by split|].
  destruct (file_outcomes _ _ _) as [outcomes1| |] eqn:Hfile; [|intros [= <- <- <-]; by split..].
  intros Hloop. destruct (IH _ _ _ _ (Z.le_trans _ _ _ Hn (mv_next _ _ Hmv)) Hloop) as [Hmv1 Hall].
  split; [exact (broker_moves_trans _ _ _ Hmv Hmv1)|]. intros g o [Hg|(i & l & route' & ps' & ack' & a & Hr & ? & ?)]%Hall.
  - destruct (file_outcomes_assigned _ _ _ _ _ _ Hfile Hg) as [?|(l & a & Hl & Ha & ->)]; [by left|].
    right. exists 0%nat, l, route, ps, ack, a. split_and!; try done. by eapply acknowledged_moves; [|apply Hack].
  - right. by exists (Datatypes.S i), l, route', ps', ack', a.
Qed.

Lemma flush_filed session pn pss br br' session' flushed :
  pend_inv pn pss -> 0 <= bn_next (br_namer br) -> flush (recorded commit) session pn br = (br', session', flushed) ->
  moves br br' /\ forall outcomes g o, flushed = Ok outcomes -> outcomes !! g = Some (PushAssigned o) -> filed br' (pn_routes pn) pss g o.
Proof.
  intros Hinv Hn. unfold flush. case_match.
  { intros [= <- <- <-]. split; [apply broker_moves_refl|]. by intros outcomes g o [= <-]. }
  destruct (flush_loop _ _ _ _ _ _) as [[br1 session1] r] eqn:Hl. intros [= <- <- <-].
  destruct (flush_loop_filed _ _ _ _ _ _ _ _ _ (pi_built _ _ Hinv) Hn Hl) as [Hmv Hall].
  split; [done|]. intros outcomes g o (fl & -> & Hfl)%res_bind_Ok Hg.
  destruct (Hall g o) as [Hrep|?]; [|apply lookup_replicate in Hrep as [? _]; done|done].
  destruct fl; simpl; [by injection Hfl as ->|]. by eapply all_filed_lookup.
Qed.

(** ** A partition that is answered without an error *)

Lemma concat_position {A} (ls : list (list A)) i j l m x (li lj : list A) :
  NoDup (concat ls) -> ls !! i = Some li -> ls !! j = Some lj -> li !! l = Some x -> lj !! m = Some x -> i = j /\ l = m.
Proof.
  revert i j. induction ls as [|l0 ls IH]; intros [|i] [|j]; simpl; intros Hnd Hi Hj Hl Hm; try done;
    apply NoDup_app in Hnd as (Hnd0 & Hdis & Hnd); simplify_eq.
  - split; [done|]. exact (NoDup_lookup _ _ _ _ Hnd0 Hl Hm).
  - exfalso. apply (Hdis x); [by eapply list_elem_of_lookup_2|]. apply list_elem_of_In, in_concat.
    exists lj. by split; apply list_elem_of_In; eapply list_elem_of_lookup_2.
  - exfalso. apply (Hdis x); [by eapply list_elem_of_lookup_2|]. apply list_elem_of_In, in_concat.
    exists li. by split; apply list_elem_of_In; eapply list_elem_of_lookup_2.
  - destruct (IH i j Hnd Hi Hj Hl Hm). auto.
Qed.

Context (seal : KeyDomain -> TopicId -> PartitionId -> bytes -> Res SealedRegion).

(** The bytes stored for a batch of a topic's domain. *)
Definition stored_as (domain : KeyDomain) (name : TopicId) (index : PartitionId) (records stored : bytes) : Prop :=
  if requires_sealing domain
  then exists region, seal domain name index records = Ok region /\ stored = sr_bytes region
  else stored = records.

(** A span the coordinator acknowledged in [br], with its object in the store. *)
Record acked_span (br : broker) (acked : Acked) (l : nat) (span : CommittedSpan) (a : Assignment) (stored : bytes) : Prop := {
  as_recorded : acked ∈ (br_coordinator br).2;
  as_span : ak_spans acked !! l = Some span;
  as_assigned : ca_outcomes (ak_ack acked) !! l = Some (Assigned a);
  as_stored : exists payload token, objects (br_store br) !! ak_object acked = Some (payload, token) /\
    slice_range (ak_object acked) payload (cs_bytes span) = Ok stored;
}.

Lemma filed_span br pn pss g o p :
  pend_inv pn pss -> placed (pn_routes pn) pss g p -> filed br (pn_routes pn) pss g o ->
  exists acked l span a, acked_span br acked l span a (push_bytes p) /\ o = as_base_offset a /\
    cs_topic span = push_topic p /\ cs_partition span = push_partition p /\
    cs_record_count span = pr_count (push_records p) /\ cs_producer span = pr_producer (push_records p).
Proof.
  intros Hinv (i & l & route & ps & Hr & Hps & Hl & Hp) (j & m & route' & ps' & ack & a & Hr' & Hps' & Hm & Hack & Ha & Ho).
  destruct (concat_position _ _ _ _ _ _ _ _ (pi_nodup _ _ Hinv) Hr Hr' Hl Hm) as [-> ->].
  rewrite Hr in Hr'. rewrite Hps in Hps'. injection Hr' as <-. injection Hps' as <-.
  destruct Hack as (n & rest & token & _ & Hin & Hobj). set (key := bundle_key _ _) in *.
  destruct (pushed_span ps m p key rest Hp) as (span & Hs & Ht & Hpt & Hc & Hpr & Hslice).
  exists (mkAcked key (zip_with span_of ps (regions_of 0 ps)) ack), m, span, a.
  split_and!; try done. split; [done..|]. simpl. eauto.
Qed.

Context `{Checksum}.

(** What the answer to a partition says: its index, and when it says that
    nothing went wrong, that the batch was checked, is in the store, and has
    the offset the coordinator assigned to it. *)
Definition answered_partition (cluster : ClusterView) (version : Z) (mode : TopicMode) (authz : AuthzContext TopicGrants)
    (br : broker) (topic : ProduceTopic) (part : ProducePartition) (reply : ProduceResponsePartition) : Prop :=
  prp_index reply = pp_index part /\
  (prp_error_code reply = NO_ERROR ->
    exists name records v domain acked l span a stored,
      admitted (produce_name cluster version topic) mode authz = Ok name /\ hosts cluster name (pp_index part) = true /\
      pp_records part = Some records /\ verify records = Ok v /\ cv_key_domain cluster name = Some domain /\
      stored_as domain name (pp_index part) records stored /\ acked_span br acked l span a stored /\
      cs_topic span = name /\ cs_partition span = pp_index part /\ cs_record_count span = vf_records v /\
      cs_producer span = vf_producer v /\ prp_base_offset reply = as_base_offset a).

Lemma push_for_fields domain record p :
  push_for seal domain record p ->
  push_topic p = pd_topic record /\ push_partition p = pd_partition record /\ push_records p = pd_pushed record /\
  stored_as domain (pd_topic record) (pd_partition record) (pd_records record) (push_bytes p).
Proof. unfold push_for, stored_as. destruct (requires_sealing domain); [intros (region & ? & ->)|intros ->]; simpl; eauto 8. Qed.

Lemma answer_slot cluster mode authz br pn pss topic part slot flushed :
  pend_inv pn pss ->
  (forall outcomes g o, flushed = Ok outcomes -> outcomes !! g = Some (PushAssigned o) -> filed br (pn_routes pn) pss g o) ->
  (forall outcomes g code, flushed = Ok outcomes -> outcomes !! g = Some (PushRefused code) \/ outcomes !! g = Some (PushFailed code) -> code <> NO_ERROR) ->
  partition_means seal cluster authz mode (pn_routes pn) pss (produce_name cluster (tm_version mode) topic) part slot ->
  answered_partition cluster (tm_version mode) mode authz br topic part (answer slot flushed).
Proof.
  intros Hinv Hfiled Hcode [Hi Hslot]. unfold answered_partition, answer.
  destruct (sl_slot slot) as [code|g]; [split; [done|simpl; by intros ->]|].
  destruct flushed as [outcomes|[]|]; [|by split..].
  destruct (outcomes !! g) as [[o|code|code]|] eqn:Hg; simpl;
    [|split; [done|intros ->; exfalso; by eapply Hcode; eauto]..|by split].
  split; [done|]. intros _. destruct Hslot as (name & records & v & domain & p & [Ha Hh Hr Hv Hd Hp Hpl]).
  destruct (filed_span _ _ _ _ _ _ Hinv Hpl (Hfiled _ _ _ eq_refl Hg)) as (acked & l & span & a & Hack & -> & Ht & Hpt & Hc & Hpr).
  destruct (push_for_fields _ _ _ Hp) as (E1 & E2 & E3 & Hst). simpl in *.
  exists name, records, v, domain, acked, l, span, a, (push_bytes p). rewrite Ht, Hpt, Hc, Hpr, E1, E2, E3. by split_and!.
Qed.

(** No answer that refuses a push refuses it with no error. *)
Definition refuses (o : PushOutcome) : Prop :=
  match o with PushAssigned _ => True | PushRefused code | PushFailed code => code <> NO_ERROR end.
Definition may_refuse (o : option PushOutcome) : Prop := match o with Some o => refuses o | None => True end.

Lemma file_outcomes_refuses route acked outcomes outcomes' :
  Forall may_refuse outcomes -> file_outcomes route acked outcomes = Ok outcomes' -> Forall may_refuse outcomes'.
Proof.
  revert route outcomes. induction acked as [|outcome acked IH]; intros route outcomes Hf; simpl; [by intros [= <-]|].
  destruct route as [|global route]; [done|]. case_match; [|done]. apply IH, Forall_insert; [done|].
  by destruct outcome as [|[]].
Qed.

Lemma failed_outcomes_refuses outcomes error :
  Forall may_refuse outcomes -> Forall refuses (failed_outcomes outcomes (failure_code error)).
Proof. intros Hf. apply List.Forall_map. eapply Forall_impl; [done|]. intros [[]|]; simpl; try done. by destruct error. Qed.

Lemma all_filed_refuses outcomes outcomes' :
  Forall may_refuse outcomes -> all_filed outcomes = Ok outcomes' -> Forall refuses outcomes'.
Proof.
  intros Hf. revert outcomes'. induction Hf as [|[o|] outcomes Ho _ IH]; simpl; intros outcomes'; [by intros [= <-]| |done].
  intros (rest & Hr & [= <-])%res_bind_Ok. constructor; auto.
Qed.

Lemma flush_loop_refuses bundles routes session outcomes br br' session' r :
  Forall may_refuse outcomes -> flush_loop (recorded commit) bundles routes session outcomes br = (br', session', r) ->
  match r with
  | Ok (Stopped outcomes) => Forall refuses outcomes
  | Ok (Going outcomes) => Forall may_refuse outcomes
  | _ => True
  end.
Proof.
  revert routes session outcomes br. induction bundles as [|bundle bundles IH]; intros routes session outcomes br Hf; simpl.
  { by intros [= <- <- <-]. }
  destruct (flush_inner _ bundle br) as [br1 [ack|error|]];
    [|intros [= <- <- <-]; by apply failed_outcomes_refuses|by intros [= <- <- <-]].
  destruct routes as [|route routes]; [by intros [= <- <- <-]|].
  destruct (file_outcomes _ _ _) as [outcomes1| |] eqn:Hfile; [|by intros [= <- <- <-]..].
  apply IH. by eapply file_outcomes_refuses.
Qed.

Lemma flush_refuses session pn br br' session' flushed :
  flush (recorded commit) session pn br = (br', session', flushed) ->
  forall outcomes, flushed = Ok outcomes -> Forall refuses outcomes.
Proof.
  unfold flush. case_match; [intros [= <- <- <-] outcomes [= <-]; constructor|].
  destruct (flush_loop _ _ _ _ _ _) as [[br1 session1] r] eqn:Hl. intros [= <- <- <-] outcomes (fl & -> & Hfl)%res_bind_Ok.
  apply flush_loop_refuses in Hl; [|by apply Forall_replicate].
  destruct fl; [by injection Hfl as <-|by eapply all_filed_refuses].
Qed.

(** How a request is to be taken. *)
Definition request_mode (version : Z) (request : ProduceRequest) : TopicMode :=
  mkTopicMode version ((-1 <=? pr_acks request) && (pr_acks request <=? 1)).

(** Every partition of a request is answered, and an answer without an error
    keeps its promise. *)
Lemma produce_request_answers cluster session version request authz br br' session' outcomes flushed :
  let mode := request_mode version request in
  0 <= bn_next (br_namer br) -> Forall (topic_wf cluster mode) (pr_topics request) ->
  produce_request (recorded commit) seal cluster session version request authz br = (br', session', Ok (outcomes, flushed)) ->
  Forall2 (fun topic outcome => pc_topic_id outcome = pt_topic_id topic /\
      pc_name outcome = (if 13 <=? version then None else pt_name topic) /\
      Forall2 (fun part slot => answered_partition cluster version mode authz br' topic part (answer slot flushed))
        (pt_partitions topic) (pc_partitions outcome)) (pr_topics request) outcomes.
Proof.
  intros mode Hn Hwf. unfold produce_request. fold (request_mode version request). fold mode.
  destruct (produce_topics _ _ _ _ _ _) as [pn r] eqn:Ht.
  destruct (produce_topics_extends _ _ _ _ _ _ _ _ _ pend_inv_new Hwf Ht) as (pss & [Hinv _] & Hall).
  destruct r as [outcomes1| |]; [|done..]. destruct (flush _ session pn br) as [[br1 session1] flushed1] eqn:Hfl.
  intros [= <- <- <- <-]. destruct (flush_filed _ _ _ _ _ _ _ Hinv Hn Hfl) as [_ Hfiled].
  pose proof (flush_refuses _ _ _ _ _ _ Hfl) as Href.
  eapply Forall2_impl; [by apply Hall|]. intros topic outcome (Hid & Hnm & Hparts). split_and!; [done..|].
  eapply Forall2_impl; [done|]. intros part slot Hslot. simpl.
  apply (answer_slot cluster mode authz br1 pn pss topic part slot flushed1 Hinv Hfiled); [|done].
  intros os g code Hos Hg. specialize (Href _ Hos). rewrite Forall_forall in Href.
  destruct Hg as [Hg|Hg]; apply (Href _ (list_elem_of_lookup_2 _ _ _ Hg)).
Qed.
End flush.
