(* ===== verification/ProduceDurable.v ===== *)
(** * ProduceDurable: produce, the store and the coordinator together

    [ProduceProps] holds for whatever answers the commits.  Here they go through
    the coordinator's loop, over a log that keeps its contract: what a client is
    told is in the durable log, at the offset that log gives it. *)

From stdpp Require Import base tactics list numbers strings gmap.
From Stdlib Require Import ZArith Lia.
From S2P Require Import Prelude Bytes Types Retry Store Machine Partition IndexFold Allocator AllocatorProps Log Coordinator CoordinatorProps.
From S2P Require Import StoreLog ErrorCodes Wire Api Msg MsgData Batch BatchProps Segment Bundle BundleProps Stream Merge Group Authz.
From S2P Require Import Read ReadProps Fetch FetchProps Produce ProduceProps.

Open Scope Z_scope.

(** ** What is committed is well formed *)

Lemma spans_wf at_ ps :
  Forall push_ok ps -> Forall push_accepted ps -> 0 <= at_ -> at_ + Z.of_nat (length (concat (map push_bytes ps))) <= u64_max ->
  Forall span_wf (zip_with span_of ps (regions_of at_ ps)).
Proof.
  intros Hok Hacc. revert at_ Hok. induction Hacc as [|p ps [_ Hb] _ IH]; intros at_ Hok Hat Hle; simpl; [done|].
  apply Forall_cons in Hok as [(Ht & Hp & Hc & Hpr) Hok]. simpl in Hle. rewrite length_app in Hle. constructor.
  - unfold span_wf, range_wf. simpl. destruct (push_bytes p); [done|]. simpl in *. split_and!; try done; mlia.
  - apply IH; [done|lia|lia].
Qed.

Lemma bundle_key_name writer n : is_str writer -> name_wf (bundle_key writer n).
Proof.
  intros Hw. split; [|done]. unfold bundle_key.
  apply is_str_app; [done|]. apply is_str_app; [done|]. apply is_str_app; [done|]. apply is_str_pad20.
Qed.

(** ** An invariant of the coordinator through a request *)

Section invariant.
Context {S C : Type} `{ObjectStoreLaws S}.
Context (commit : ObjectKey -> list CommittedSpan -> C -> C * Result CoordinatorError CommitAck).
Context (I : C * list Acked -> Prop).
Context (keeps : forall key spans c c' r, commit_wf key spans -> I c -> recorded commit key spans c = (c', r) -> I c').

(** No bundle is longer than its length can be counted. *)
Definition countable_bundles (bundles : list BundleBuilder) : Prop :=
  Forall (fun b => Z.of_nat (length (bb_payload b)) <= u64_max) bundles.

Lemma flush_inner_keeps bundle ps (br br' : Broker S (C * list Acked)) r :
  build ps = Ok bundle -> Forall push_ok ps -> Z.of_nat (length (bb_payload bundle)) <= u64_max ->
  is_str (bn_writer (br_namer br)) -> I (br_coordinator br) ->
  flush_inner (recorded commit) bundle br = (br', r) -> I (br_coordinator br').
Proof.
  intros Hb Hok Hlen Hw HI. unfold flush_inner.
  destruct (bb_seal bundle) as [sealed|e|] eqn:Hs; [|by intros [= <- <-]..].
  destruct (bb_seal_built _ _ _ Hb Hs) as (Hsp & _).
  destruct (bn_next_key (br_namer br)) as [[namer key]|e|] eqn:Hk; [|by intros [= <- <-]..].
  apply bn_next_key_Ok in Hk as (_ & -> & ->). destruct (os_put _ _ _ _) as [store [meta|e|]]; [|by intros [= <- <-]..].
  destruct (recorded commit _ _ _) as [c rc] eqn:Hc. intros [= <- <-]. simpl.
  eapply keeps; [|done|exact Hc]. split; [by apply bundle_key_name|].
  apply build_built in Hb as [Hp _ _ Hacc]. rewrite Hsp. apply spans_wf; [done|done|lia|]. by rewrite <-Hp.
Qed.

Lemma flush_loop_keeps bundles pss routes session outcomes (br br' : Broker S (C * list Acked)) session' r :
  Forall2 (fun b ps => build ps = Ok b) bundles pss -> Forall (Forall push_ok) pss -> countable_bundles bundles ->
  0 <= bn_next (br_namer br) -> is_str (bn_writer (br_namer br)) -> I (br_coordinator br) ->
  flush_loop (recorded commit) bundles routes session outcomes br = (br', session', r) -> I (br_coordinator br').
Proof.
  intros Hf. revert routes session outcomes br.
  induction Hf as [|bundle ps bundles pss Hb _ IH]; intros routes session outcomes br Hok Hlen Hn Hw HI; simpl; [by intros [= <- _ _]|].
  apply Forall_cons in Hok as [Hok1 Hok]. apply Forall_cons in Hlen as [Hlen1 Hlen].
  destruct (flush_inner _ bundle br) as [br1 r1] eqn:Hin.
  destruct (flush_inner_moves _ _ _ _ _ _ Hb Hn Hin) as [[Hw1 Hn1 _ _] _].
  pose proof (flush_inner_keeps _ _ _ _ _ Hb Hok1 Hlen1 Hw HI Hin) as HI1.
  destruct r1 as [ack|error|]; [|by intros [= <- _ _]..]. destruct routes as [|route routes]; [by intros [= <- _ _]|].
  destruct (file_outcomes _ _ _); [|by intros [= <- _ _]..]. apply IH; [done|done|lia|by rewrite Hw1|done].
Qed.

Context `{Checksum} (seal : KeyDomain -> TopicId -> PartitionId -> bytes -> Res SealedRegion).

Lemma produce_request_keeps cluster session version request authz (br br' : Broker S (C * list Acked)) session' r :
  let mode := request_mode version request in
  Forall (topic_wf cluster mode) (pr_topics request) ->
  countable_bundles (pn_bundles (produce_topics seal cluster Pending_new (pr_topics request) mode authz).1) ->
  0 <= bn_next (br_namer br) -> is_str (bn_writer (br_namer br)) -> I (br_coordinator br) ->
  produce_request (recorded commit) seal cluster session version request authz br = (br', session', r) -> I (br_coordinator br').
Proof.
  intros mode Hwf Hlen Hn Hw HI. unfold produce_request. fold (request_mode version request). fold mode.
  destruct (produce_topics _ _ _ _ _ _) as [pn rt] eqn:Ht.
  destruct (produce_topics_extends _ _ _ _ _ _ _ _ _ pend_inv_new Hwf Ht) as (pss & [Hinv _] & _).
  destruct rt; [|by intros [= <- _ _]..]. unfold flush.
  destruct (pn_pushed pn =? 0)%nat; [by intros [= <- _ _]|].
  destruct (flush_loop _ _ _ _ _ _) as [[br1 session1] r1] eqn:Hl. intros [= <- _ _].
  by eapply flush_loop_keeps; [apply (pi_built _ _ Hinv)|apply (pi_ok _ _ Hinv)|..|exact Hl].
Qed.
End invariant.

(** ** Through the coordinator's loop *)

Section durable.
Context {S H L : Type} `{ObjectStoreLaws S} {log_ops : MetadataLog H L} {log_laws : MetadataLogLaws H L} `{Checksum}.
Context (seal : KeyDomain -> TopicId -> PartitionId -> bytes -> Res SealedRegion).

(** The loop's invariant, and that what it acknowledged is durable. *)
Definition ack_ok (c : CoordinatorLoop H L) (acked : Acked) : Prop :=
  forall l span a, ak_spans acked !! l = Some span -> ca_outcomes (ak_ack acked) !! l = Some (Assigned a) ->
    span_answered c (ak_object acked) span a.

Definition ledger_ok (c : CoordinatorLoop H L * list Acked) : Prop := inv c.1 /\ Forall (ack_ok c.1) c.2.

Lemma ledger_keeps fuel key spans c c' r :
  commit_wf key spans -> ledger_ok c -> recorded (coordinator_commit fuel) key spans c = (c', r) -> ledger_ok c'.
Proof.
  intros Hwf [Hinv Hall]. unfold recorded, coordinator_commit. cbn [handle].
  destruct ((may_write fuel ;;; serve fuel key spans) c.1) as [s' r'] eqn:Hc. intros [= <- <-].
  destruct (commit_durable _ _ _ _ _ _ Hinv Hwf Hc) as (Hinv' & Hg & Hdur). split; [done|]. simpl.
  assert (Forall (ack_ok s') c.2) as Hall'.
  { eapply Forall_impl; [exact Hall|]. intros acked Hk l span a Hl Ha. by eapply span_answered_grew, Hk. }
  destruct r' as [ack|e|]; [|done..]. apply Forall_app. split; [done|]. apply Forall_singleton. intros l span a. simpl. eauto.
Qed.

(** What a reply without an error promises: the batch was checked, the object
    that holds it is in the store with the bytes at its span's place, and the
    durable log has, at the offset the reply gives, that span of that object or,
    when a producer numbers the batch, the span of the first copy of it. *)
Definition produced (cluster : ClusterView) (mode : TopicMode) (authz : AuthzContext TopicGrants)
    (br : Broker S (CoordinatorLoop H L * list Acked)) (topic : ProduceTopic) (part : ProducePartition)
    (reply : ProduceResponsePartition) : Prop :=
  exists name records v domain key span stored payload token,
    admitted (produce_name cluster (tm_version mode) topic) mode authz = Ok name /\ hosts cluster name (pp_index part) = true /\
    pp_records part = Some records /\ verify records = Ok v /\ cv_key_domain cluster name = Some domain /\
    stored_as seal domain name (pp_index part) records stored /\
    objects (br_store br) !! key = Some (payload, token) /\ slice_range key payload (cs_bytes span) = Ok stored /\
    cs_topic span = name /\ cs_partition span = pp_index part /\ cs_record_count span = vf_records v /\
    cs_producer span = vf_producer v /\
    exists version key' first a,
      span_durable (br_coordinator br).1 version key' first a /\ prp_base_offset reply = as_base_offset a /\
      same_batch first span /\ ((key', first) = (key, span) \/ vf_producer v <> None).

Lemma produce_request_durable fuel cluster session version request authz br br' session' outcomes flushed :
  let mode := request_mode version request in
  Forall (topic_wf cluster mode) (pr_topics request) ->
  countable_bundles (pn_bundles (produce_topics seal cluster Pending_new (pr_topics request) mode authz).1) ->
  0 <= bn_next (br_namer br) -> is_str (bn_writer (br_namer br)) ->
  inv (br_coordinator br).1 -> (br_coordinator br).2 = [] ->
  produce_request (recorded (coordinator_commit fuel)) seal cluster session version request authz br =
    (br', session', Ok (outcomes, flushed)) ->
  Forall2 (fun topic outcome =>
    Forall2 (fun part slot =>
      let reply := answer slot flushed in
      prp_index reply = pp_index part /\ (prp_error_code reply = NO_ERROR -> produced cluster mode authz br' topic part reply))
      (pt_partitions topic) (pc_partitions outcome)) (pr_topics request) outcomes.
Proof.
  intros mode Hwf Hlen Hn Hw Hinv Hnew Hreq.
  assert (ledger_ok (br_coordinator br')) as [_ Hled].
  { eapply (produce_request_keeps (coordinator_commit fuel) ledger_ok (ledger_keeps fuel) seal); try done.
    split; [done|]. rewrite Hnew. constructor. }
  pose proof (produce_request_answers (coordinator_commit fuel) seal _ _ _ _ _ _ _ _ _ _ Hn Hwf Hreq) as Hall.
  eapply Forall2_impl; [exact Hall|]. intros topic outcome (_ & _ & Hparts). eapply Forall2_impl; [exact Hparts|].
  intros part slot [Hi Hok]. split; [done|]. intros (name & records & v & domain & acked & l & span & a & stored & Ha & Hh & Hr & Hv & Hd & Hst & [Hin Hsp Has (payload & token & Hobj & Hslice)] & Ht & Hp & Hc & Hpr & Ho)%Hok.
  exists name, records, v, domain, (ak_object acked), span, stored, payload, token. split_and!; try done.
  rewrite Forall_forall in Hled. destruct (Hled _ Hin l span a) as (version' & key' & first & Hdur & Hsame & Hfirst); [done..|].
  rewrite Hpr in Hfirst. by exists version', key', first, a.
Qed.

(** C3. An acknowledged batch is stored and sequenced.  Every partition of a
    produce request is answered under its index, and one that is answered without
    an error was allowed to its client, passed its checksum and count, and is in
    the store (sealed, when its topic's domain asks for it) where its span says;
    and the coordinator's durable log has, at the offset the client is told, that
    span of that object.  Only for a batch that an idempotent producer numbers may
    it be another span instead: one committed for the same topic and partition
    under the same producer id, epoch and sequence with as many records, that is,
    the first copy of a batch sent again.  All this whatever the store and the log
    answer on the way. *)
Theorem produce_is_durable fuel cluster session version request authz br br' session' outcomes flushed :
  let mode := request_mode version request in
  Forall (topic_wf cluster mode) (pr_topics request) ->
  countable_bundles (pn_bundles (produce_topics seal cluster Pending_new (pr_topics request) mode authz).1) ->
  0 <= bn_next (br_namer br) -> is_str (bn_writer (br_namer br)) ->
  inv (br_coordinator br).1 -> (br_coordinator br).2 = [] ->
  produce_request (recorded (coordinator_commit fuel)) seal cluster session version request authz br =
    (br', session', Ok (outcomes, flushed)) ->
  Forall2 (fun topic outcome =>
    Forall2 (fun part slot =>
      let reply := answer slot flushed in
      prp_index reply = pp_index part /\ (prp_error_code reply = NO_ERROR -> produced cluster mode authz br' topic part reply))
      (pt_partitions topic) (pc_partitions outcome)) (pr_topics request) outcomes.
Proof. apply produce_request_durable. Qed.
End durable.

(** ** A concrete request *)

#[local] Existing Instance demo_checksum.

Definition no_seal (domain : KeyDomain) (topic : TopicId) (partition : PartitionId) (records : bytes) : Res SealedRegion :=
  Err EntropyUnavailable.
Definition demo_produce : ProduceRequest :=
  mkProduceRequest (-1) [mkProduceTopic (Some "t") ZERO_TOPIC_ID
    [mkProducePartition 0 (Some demo_batch); mkProducePartition 1 (Some demo_batch); mkProducePartition 0 None]].
Definition demo_broker : Broker FakeObjectStore (CoordinatorLoop unit FakeMetadataLog * list Acked) :=
  mkBroker FakeObjectStore_new (mkBundleNamer "w" 7) (demo_loop, []).
Definition demo_produced :=
  produce_request (recorded (coordinator_commit 10)) no_seal (demo_view IndexState_new) None 9 demo_produce demo_open demo_broker.
Definition demo_slots : list ProduceOutcome * Result FlushError (list PushOutcome) :=
  match demo_produced.2 with Ok r => r | _ => ([], Ok []) end.

Definition demo_topic : ProduceTopic := default (mkProduceTopic None [] []) (head (pr_topics demo_produce)).
Definition demo_replies : list ProduceResponsePartition :=
  map (fun slot => answer slot demo_slots.2) (default [] (pc_partitions <$> head demo_slots.1)).

Lemma demo_produced_Ok :
  demo_produced = (demo_produced.1.1, demo_produced.1.2, Ok (demo_slots.1, demo_slots.2)).
Proof. vm_compute. reflexivity. Qed.

Lemma demo_topic_wf : Forall (topic_wf (demo_view IndexState_new) (request_mode 9 demo_produce)) (pr_topics demo_produce).
Proof.
  assert (forall name, produce_name (demo_view IndexState_new) 9 demo_topic = Some name -> is_str name) as Hstr by (by intros name [= <-]).
  repeat constructor; try exact Hstr; try done; intros records [= <-]; apply demo_bytes.
Qed.

Lemma produce_is_durable_witness :
  demo_replies = [mkProduceResponsePartition 0 NO_ERROR 0; mkProduceResponsePartition 1 UNKNOWN_TOPIC_OR_PARTITION (-1);
                  mkProduceResponsePartition 0 INVALID_RECORD (-1)] /\
  produced no_seal (demo_view IndexState_new) (request_mode 9 demo_produce) demo_open demo_produced.1.1 demo_topic
    (mkProducePartition 0 (Some demo_batch)) (mkProduceResponsePartition 0 NO_ERROR 0).
Proof.
  split; [vm_compute; reflexivity|].
  assert (inv (br_coordinator demo_broker).1) as Hinv by apply open_deferred_inv.
  assert (countable_bundles (pn_bundles (produce_topics no_seal (demo_view IndexState_new) Pending_new (pr_topics demo_produce)
    (request_mode 9 demo_produce) demo_open).1)) as Hlen.
  { apply Forall_forall. intros b Hb. apply list_elem_of_In in Hb. vm_compute in Hb. destruct Hb as [<-|[]]. vm_compute. discriminate. }
  pose proof (produce_is_durable no_seal 10 (demo_view IndexState_new) None 9 demo_produce demo_open demo_broker
    demo_produced.1.1 demo_produced.1.2 demo_slots.1 demo_slots.2 demo_topic_wf Hlen ltac:(vm_compute; discriminate)
    eq_refl Hinv eq_refl demo_produced_Ok) as Hall.
  assert (exists outcome slot, demo_slots.1 !! 0%nat = Some outcome /\ pc_partitions outcome !! 0%nat = Some slot /\
    answer slot demo_slots.2 = mkProduceResponsePartition 0 NO_ERROR 0) as (outcome & slot & Ho & Hs & Ha).
  { eexists _, _. split; [vm_compute; reflexivity|]. split; vm_compute; reflexivity. }
  pose proof (Forall2_lookup_lr _ _ _ 0 demo_topic outcome Hall eq_refl Ho) as Hparts.
  pose proof (Forall2_lookup_lr _ _ _ 0 (mkProducePartition 0 (Some demo_batch)) slot Hparts eq_refl Hs) as [_ Hok].
  rewrite Ha in Hok. exact (Hok eq_refl).
Defined.
