(* ===== verification/Delivery.v ===== *)
(** * Delivery: what was produced is what is fetched

    The two halves of the broker's data path together, over the store, the
    coordinator's log and the index: a batch that a produce request had
    acknowledged is what a fetch at its offset serves first, whatever was
    committed, compacted or trimmed since, as long as the batch is in the tail
    window of its partition. *)

From stdpp Require Import base tactics list numbers strings gmap.
From Stdlib Require Import ZArith Lia.
From S2P Require Import Prelude Bytes Types Retry Store Machine Coverage Partition IndexFold IndexSpec IndexRefine IndexProps Allocator AllocatorProps.
From S2P Require Import Log Coordinator CoordinatorProps StoreLog ErrorCodes Wire Api Msg MsgData Batch BatchProps Segment Bundle BundleProps.
From S2P Require Import MsgSpec MsgProps Stream Merge Group Authz Read ReadProps Fetch FetchProps Produce ProduceProps ProduceDurable.

Open Scope Z_scope.

(** ** The tail window says where a batch is for as long as it covers it *)

Section tail.
Context (E : TailEntry) (o : Offset).

(** Whatever entry of the tail contains [o] is [E], and [o] was written. *)
Definition tail_is (p : PartitionIndex) : Prop :=
  o < p_end_offset p /\ forall te, te ∈ p_tail p -> or_base_offset (te_reference te) <= o < or_end (te_reference te) -> te = E.

Lemma tail_is_shrinks p p' : p_end_offset p' = p_end_offset p -> p_tail p' ⊆ p_tail p -> tail_is p -> tail_is p'.
Proof. intros He Ht [H1 H2]. split; [by rewrite He|]. intros te Hte. by apply H2, Ht. Qed.

Lemma push_tail p e te : te ∈ p_tail (push p e) -> te ∈ p_tail p \/ te = e.
Proof.
  unfold push. destruct (_ <? _)%nat; [destruct (p_tail p ++ [e]) as [|x l] eqn:Hl|]; simpl.
  - by intros ?%elem_of_nil.
  - intros Hte. assert (te ∈ x :: l) as Hin by (by right). rewrite <-Hl in Hin. by apply elem_of_app in Hin as [?|?%list_elem_of_singleton]; auto.
  - by intros [?|?%list_elem_of_singleton]%elem_of_app; auto.
Qed.

Lemma push_end p e : p_end_offset (push p e) = p_end_offset p.
Proof. unfold push. destruct (_ <? _)%nat; [|done]. by destruct (p_tail p ++ [e]). Qed.

(** What is pushed later lies above [o]. *)
Lemma tail_is_span object when a span a' k :
  tail_is (abs_slot a k) -> spec_span object when a span = Ok a' -> tail_is (abs_slot a' k).
Proof.
  intros Hk. unfold spec_span. destruct (_ =? 0); [done|]. intros (next & Hn & [= <-])%res_bind_Ok. rewrite abs_slot_insert.
  case_decide as Heq; [|done]. subst k. destruct Hk as [H1 H2]. apply Offset_add_Ok in Hn as (Hn0 & Hn1 & ->). split; [simpl; lia|].
  intros te [Hte| ->]%push_tail Hin; [by apply H2|]. simpl in Hin. lia.
Qed.

Lemma apply_effect_tail p t k e p' cs te :
  apply_effect p t k e = Ok (p', cs) -> p_end_offset p' = p_end_offset p /\ (te ∈ p_tail p' -> te ∈ p_tail p).
Proof.
  destruct e as [m upto|retiring installing|start]; simpl.
  - destruct (boundary p upto); [done|]. by intros [= <- _].
  - intros (p1 & Hs & [= <- _])%res_bind_Ok. unfold apply_swap in Hs. apply res_bind_Ok in Hs as (u & _ & Hs).
    destruct (first_unheld p retiring); [done|]. by injection Hs as <-.
  - destruct (_ <? _); [done|]. unfold trim. destruct (_ <=? _); intros [= <- _]; [done|]. simpl. split; [done|].
    rewrite !list_elem_of_In. by intros [? _]%filter_In.
Qed.

Lemma tail_is_effect t p e a a' k : tail_is (abs_slot a k) -> spec_effect a t p e = Ok a' -> tail_is (abs_slot a' k).
Proof.
  intros Hk. unfold spec_effect. intros ([q cs] & Hq & [= <-])%res_bind_Ok. rewrite abs_slot_insert. case_decide as Heq; [|done]. subst k.
  destruct Hk as [H1 H2]. split; [by rewrite (proj1 (apply_effect_tail _ _ _ _ _ _ E Hq))|]. intros te Hte.
  apply H2. by eapply apply_effect_tail.
Qed.

Lemma tail_is_entry a e a' k : tail_is (abs_slot a k) -> spec_entry a e = Ok a' -> tail_is (abs_slot a' k).
Proof.
  intros Hk. unfold spec_entry. assert (forall a1, spec_record a (me_record e) = Ok a1 -> tail_is (abs_slot a1 k)) as Hr.
  { intros a1. destruct (me_record e) as [object spans at_|t p m u|t p ri ii|t p s|ep|t rms]; simpl;
      [|by apply tail_is_effect..|by intros [= <-]|by intros [= <-]].
    apply (res_foldl_inv (fun a => tail_is (abs_slot a k))); [done|]. intros b span b' _. apply tail_is_span. }
  destruct (ai_upto a) as [prev|]; [destruct (_ <=? _); [done|]|]; intros (a1 & H1 & [= <-])%res_bind_Ok; by apply Hr in H1.
Qed.

Lemma tail_is_fold a es a' k : tail_is (abs_slot a k) -> spec_fold a es = Ok a' -> tail_is (abs_slot a' k).
Proof. intros Hk. apply (res_foldl_inv (fun a => tail_is (abs_slot a k))); [done|]. intros b e b' _. apply tail_is_entry. Qed.

Lemma chain_ends lo rs hi r : chain lo rs hi -> r ∈ rs -> or_end r <= hi.
Proof.
  revert lo. induction rs as [|x rs IH]; intros lo; simpl; [by intros _ ?%elem_of_nil|].
  intros (_ & _ & Hc) [->|Hr]%elem_of_cons; [by eapply chain_le|by eapply IH].
Qed.
End tail.

(** The commit of a span puts its entry there. *)
Lemma tail_is_new object when a span a' :
  abs_wf a -> span_wf span -> spec_span object when a span = Ok a' ->
  let base := abs_end a (span_key span) in
  tail_is (span_entry object base span) base (abs_slot a' (span_key span)).
Proof.
  intros Hwf Hs Hspan base. pose proof (abs_slot_wf a (span_key span) Hwf) as Hp. unfold spec_span in Hspan.
  destruct (_ =? 0) eqn:H0; [done|]. zbool. apply res_bind_Ok in Hspan as (next & Hn & [= <-]). fold (span_key span) in *.
  rewrite abs_slot_insert, decide_True by done. apply Offset_add_Ok in Hn as (Hn0 & Hn1 & ->).
  split; [simpl; unfold base, abs_end; lia|]. intros te [Hte| ->]%push_tail Hin; [exfalso|done].
  destruct (pw_chain _ Hp) as (lo & _ & _ & Hc). unfold entries_of in Hc.
  assert (or_end (te_reference te) <= p_end_offset (abs_slot a (span_key span))) as Hle.
  { eapply chain_ends; [exact Hc|]. apply elem_of_app. right. by apply list_elem_of_fmap_2. }
  unfold base, abs_end in Hin. lia.
Qed.

(** An entry of the log with a span, folded into any index: from then on. *)
Lemma span_located pre version object spans now more j span a :
  Forall entry_wf (pre ++ mkMetadataEntry version (BatchCommitted object spans now) :: more) ->
  spec_fold abs_empty (pre ++ mkMetadataEntry version (BatchCommitted object spans now) :: more) = Ok a -> spans !! j = Some span ->
  let base := log_end pre (span_key span) + sumZ (map (span_count (cs_topic span) (cs_partition span)) (take j spans)) in
  tail_is (span_entry object base span) base (abs_slot a (span_key span)).
Proof.
  intros Hwf Hfold Hj base. apply Forall_app in Hwf as [Hpre Hwf]. apply Forall_cons in Hwf as [He Hmore].
  unfold spec_fold in Hfold. rewrite res_foldl_app in Hfold. apply res_bind_Ok in Hfold as (a0 & Ha0 & Hfold).
  cbn [res_foldl] in Hfold. apply res_bind_Ok in Hfold as (a1 & Ha1 & Hfold). eapply tail_is_fold; [|exact Hfold].
  pose proof (spec_fold_wf _ _ _ abs_wf_empty Hpre Ha0) as Hw0. destruct He as [_ (_ & _ & Hspans)].
  assert (exists a2, res_foldl (spec_span object (TimeSpan_at now)) a0 spans = Ok a2 /\ a1 = set_upto version a2) as (a2 & H2 & ->).
  { unfold spec_entry in Ha1. simpl in Ha1. destruct (ai_upto a0); [destruct (_ <=? _); [done|]|];
      apply res_bind_Ok in Ha1 as (a2 & H2 & [= <-]); eauto. }
  change (abs_slot (set_upto version a2) (span_key span)) with (abs_slot a2 (span_key span)).
  rewrite <-(take_drop_middle _ _ _ Hj), res_foldl_app in H2. apply res_bind_Ok in H2 as (b & Hb & H2).
  cbn [res_foldl] in H2. apply res_bind_Ok in H2 as (b' & Hb' & H2).
  rewrite <-(take_drop_middle _ _ _ Hj) in Hspans. apply Forall_app in Hspans as [Hs1 Hs2]. apply Forall_cons in Hs2 as [Hs _].
  assert (abs_wf b) as Hwb.
  { revert Hb. apply (res_foldl_inv abs_wf); [done|]. intros x s x' Hx Hxw. apply spec_span_wf; [done|]. rewrite Forall_forall in Hs1. auto. }
  assert (abs_end b (span_key span) = base) as Hbase.
  { unfold base. rewrite <-(log_end_spec pre a0 (span_key span) Hpre Ha0). clear -Hb. revert a0 Hb.
    induction (take j spans) as [|s l IH]; intros a0; simpl; [intros [= <-]; lia|]. intros (a1 & H1 & H2)%res_bind_Ok.
    rewrite (IH _ H2). destruct (spec_span_moves _ _ _ _ _ (cs_topic span) (cs_partition span) H1) as [Hm _].
    unfold span_key in *. rewrite Hm. lia. }
  rewrite <-Hbase. pose proof (tail_is_new _ _ _ _ _ Hwb Hs Hb') as Hnew. cbv zeta in Hnew.
  revert H2. apply (res_foldl_inv (fun a => tail_is _ _ (abs_slot a (span_key span)))); [done|]. intros x s x' _. apply tail_is_span.
Qed.

(** ** Reading it back *)

(** [o] lies in the tail window of a partition, above what was trimmed and what
    a manifest covers. *)
Definition in_tail (part : PartitionIndex) (o : Offset) : Prop :=
  Forall (fun e => batch_sized (Inline e)) (p_tail part) /\ p_log_start part <= o /\
  (forall m upto, p_manifest part = Some (m, upto) -> upto <= o) /\
  exists te, te ∈ p_tail part /\ or_base_offset (te_reference te) <= o < or_end (te_reference te).

Lemma chain_starts lo rs hi r : chain lo rs hi -> r ∈ rs -> lo <= or_base_offset r.
Proof.
  revert lo. induction rs as [|x rs IH]; intros lo; simpl; [by intros _ ?%elem_of_nil|].
  intros (<- & Hl & Hc) [->|Hr]%elem_of_cons; [done|]. pose proof (IH _ Hc Hr). pose proof (ref_live_lt x Hl). lia.
Qed.

(** The candidate that contains an offset of the tail is the tail's. *)
Lemma candidate_is (part : PartitionIndex) E o b :
  Partition.part_wf part -> tail_is E o part -> in_tail part o -> b ∈ candidates part o ->
  ObjectRef_contains (IndexedBatch_reference b) o = Ok true -> b = Inline E.
Proof.
  intros Hwf [_ Htail] (_ & _ & _ & te & Hte & Hin) Hb Hc. destruct (pw_chain _ Hwf) as (lo & _ & _ & Hchain).
  unfold entries_of in Hchain. pose proof (chain_live _ _ _ Hchain) as Hlive. apply chain_app in Hchain as (mid & Hh & Ht).
  rewrite Forall_forall in Hlive. unfold candidates in Hb. apply list_elem_of_In, filter_In in Hb as [Hb _].
  assert (forall r, ref_live r -> ObjectRef_contains r o = Ok true -> or_base_offset r <= o < or_end r) as Hspan.
  { intros r Hl Hr. pose proof (contains_b_live o r Hl) as Hx. unfold contains_b in Hx. rewrite Hr in Hx. simpl in Hx.
    symmetry in Hx. apply andb_true_iff in Hx as [? ?]. zbool. lia. }
  apply in_app_or in Hb as [(r & <- & Hr)%in_map_iff|(te' & <- & Hr)%in_map_iff]; apply list_elem_of_In in Hr; simpl in Hc.
  - exfalso. specialize (Hspan r ltac:(apply Hlive, elem_of_app; auto) Hc). pose proof (chain_ends _ _ _ _ Hh Hr).
    pose proof (chain_starts _ _ _ (te_reference te) Ht ltac:(by apply list_elem_of_fmap_2)). lia.
  - f_equal. apply Htail; [done|]. apply Hspan; [|done]. apply Hlive, elem_of_app. right. by apply list_elem_of_fmap_2.
Qed.

Section read.
Context {S : Type} `{ObjectStoreLaws S} (topic_key_domain : TopicId -> option KeyDomain).

Lemma read_serves_tail (index : IndexState) topic partition part E o allowance objs (st st' : Reading S) read :
  IndexProps.reachable index -> IndexState_partition index topic partition = Some part -> tail_is E o part -> in_tail part o ->
  0 < aw_bytes allowance < u64_max -> remembers objs st ->
  read_inner topic_key_domain index topic partition o allowance st = (st', Ok read) ->
  exists blob rest, rd_records read = blob ++ rest /\ ReadProps.served topic_key_domain objs topic partition (Inline E) blob.
Proof.
  intros Hr Hp Htail Hin Hcan Hrem Hread. pose proof Hin as (Hsz & Hs & Hman & _).
  assert (IndexState_log_start index topic partition <= o < IndexState_end_offset index topic partition) as Hrange.
  { unfold IndexState_log_start, IndexState_end_offset. rewrite Hp. split; [done|apply Htail]. }
  assert (forall m upto, IndexState_manifest index topic partition = Some (m, upto) -> upto <= o) as Hman'.
  { unfold IndexState_manifest. rewrite Hp. exact Hman. }
  destruct (read_is_contiguous index topic partition part o (aw_bytes allowance) Hr Hp (proj2 Hcan) Hsz Hrange Hman')
    as (first & rest & hi & Hfind & _ & Hhas & _).
  destruct (find_batches_prefix index topic partition part o (aw_bytes allowance) Hr Hp Hs (proj2 Hcan) Hsz) as (n & page & Hfind' & Hpage & _).
  assert (first ∈ candidates part o) as Hfirst.
  { assert (first :: rest = page) as Heq by congruence. assert (first ∈ take n (candidates part o)) as Hx by (rewrite <-Hpage, <-Heq; by left).
    by apply elem_of_take in Hx as (i & Hx & _); apply list_elem_of_lookup_2 in Hx. }
  apply (candidate_is part E o first (reachable_part _ _ _ _ Hr Hp) Htail Hin) in Hfirst as ->; [|done].
  assert (read_loop topic_key_domain (Inline E :: rest) topic partition allowance 0 [] st = (st', Ok read)) as Hloop.
  { unfold read_inner in Hread. destruct (IndexState_manifest index topic partition) as [[key upto]|].
    - rewrite (proj2 (Z.ltb_ge _ _)) in Hread by (by eapply Hman'). simpl in Hread. by rewrite Hfind in Hread.
    - simpl in Hread. by rewrite Hfind in Hread. }
  destruct (read_loop_spec topic_key_domain _ _ _ _ _ _ _ _ _ _ Hrem Hloop) as [_ Hok].
  destruct (Hok read eq_refl) as (k & blobs & HF & Hrec & Hk).
  destruct k as [|k]; [exfalso; enough (1 <= 0)%nat by lia; apply Hk; [left; lia|done..]|].
  cbn [take] in HF. apply Forall2_cons_inv_l in HF as (blob & blobs' & Hserved & _ & ->). exists blob, (concat blobs'). by rewrite Hrec.
Qed.

(** A fetch answered without an error read its partition. *)
Lemma fetch_one_read cluster name unknown asked allowance (st st' : Reading S) got :
  fetch_one_partition cluster (Some name) unknown asked allowance st = (st', Ok got) -> po_error_code got = NO_ERROR ->
  exists read, po_records got = rd_records read /\
    read_inner (cv_key_domain cluster) (cv_index cluster) name (fp_index asked) (fp_fetch_offset asked) allowance st = (st', Ok read).
Proof.
  unfold fetch_one_partition, resolve. intros Hf Hcode.
  destruct (hosts cluster name (fp_index asked)); [|by injection Hf as <- <-].
  unfold both in Hf. destruct (TopicId_new name) as [t|?|] eqn:Ht; [|by injection Hf as <- <-..].
  destruct (PartitionId_new (fp_index asked)) as [p|?|] eqn:Hp; [|by injection Hf as <- <-..].
  destruct (Offset_new (fp_fetch_offset asked)) as [start|?|] eqn:Ho; [|by injection Hf as <- <-..].
  destruct (_ <? _); [by injection Hf as <- <-|].
  assert (t = name /\ p = fp_index asked /\ start = fp_fetch_offset asked) as (-> & -> & ->).
  { unfold TopicId_new in Ht. unfold PartitionId_new in Hp. unfold Offset_new in Ho. repeat case_decide; repeat case_match; simplify_eq; done. }
  destruct (read_inner _ _ _ _ _ _ _) as [st1 [read|failure|]]; [|injection Hf as <- <-; exfalso|done].
  - injection Hf as <- <-. exists read. done.
  - simpl in Hcode. unfold refusal_code in Hcode. by destruct (rf_error failure).
Qed.
End read.

(** ** Both halves *)

Lemma span_count_nonneg t p span : span_wf span -> 0 <= span_count t p span.
Proof. intros (_ & _ & Hc & _). unfold span_count. case_decide; [|done]. unfold in_u32 in Hc. lia. Qed.

Lemma sum_counts_nonneg t p spans : Forall span_wf spans -> 0 <= sumZ (map (span_count t p) spans).
Proof. induction 1 as [|s l Hs _ IH]; simpl; [done|]. pose proof (span_count_nonneg t p s Hs). lia. Qed.

Lemma log_end_nonneg es k : Forall entry_wf es -> 0 <= log_end es k.
Proof.
  unfold log_end. induction 1 as [|e l [_ He] _ IH]; simpl; [done|]. unfold appended at 1.
  destruct (me_record e) as [object spans at_|?|?|?|?|?]; try lia. destruct He as (_ & _ & Hs). pose proof (sum_counts_nonneg k.1 k.2 spans Hs). lia.
Qed.

Section delivery.
Context {S H L : Type} `{ObjectStoreLaws S} {log_ops : MetadataLog H L} {log_laws : MetadataLogLaws H L} `{Checksum}.

(** An index that folded a prefix of the log, and has the offset in a tail: the
    entry there is the span's. *)
Lemma durable_span_located (s later : CoordinatorLoop H L) version object span a index es part :
  span_durable s version object span a -> grew s later -> index_at index es -> es `prefix_of` contents (cl_store later) ->
  IndexState_partition index (cs_topic span) (cs_partition span) = Some part -> IndexProps.reachable index ->
  in_tail part (as_base_offset a) -> tail_is (span_entry object (as_base_offset a) span) (as_base_offset a) part.
Proof.
  intros Hdur Hgrew (b & Hb & Heq) [rest Hes] Hp Hr Hin.
  destruct (span_durable_grew _ _ _ _ _ _ Hgrew Hdur) as (pre & now & more & spans & j & Hd & Hj & ->). cbn [as_base_offset] in *.
  destruct (durable_ordered later (proj1 Hgrew)) as [_ Hwf]. set (k := span_key span).
  set (o := log_end pre k + sumZ (map (span_count (cs_topic span) (cs_partition span)) (take j spans))) in *.
  assert (abs_slot b k = part) as Hslot.
  { rewrite <-(abs_slot_equiv _ _ k Heq). unfold abs_slot, abs, k, span_key. simpl. rewrite lookup_flat. unfold IndexState_partition in Hp. by rewrite Hp. }
  assert (0 <= sumZ (map (span_count (cs_topic span) (cs_partition span)) (take j spans))) as Hsum.
  { apply sum_counts_nonneg, Forall_take. rewrite Hd in Hwf. apply Forall_app in Hwf as [_ Hwf]. by apply Forall_cons in Hwf as [(_ & _ & _ & Hs) _]. }
  assert (o < log_end es k) as Hlt.
  { rewrite <-(log_end_spec es b k) by (done || (rewrite Hes in Hwf; by apply Forall_app in Hwf as [? _])).
    unfold abs_end. rewrite Hslot. destruct Hin as (_ & _ & _ & te & Hte & Ho).
    destruct (pw_chain _ (reachable_part _ _ _ _ Hr Hp)) as (lo & _ & _ & Hc).
    pose proof (chain_ends _ _ _ (te_reference te) Hc) as Hle. unfold entries_of in Hle. rewrite elem_of_app in Hle.
    specialize (Hle (or_intror (list_elem_of_fmap_2 _ _ _ Hte))). unfold o, k; lia. }
  rewrite <-Hslot. rewrite Hd in Hes, Hwf. apply app_eq_inv in Hes as [(m & Hpre & Hm)|(m & Hes & Hm)].
  - exfalso. rewrite Hpre in Hwf. apply Forall_app in Hwf as [Hwf _]. pose proof (log_end_app es m k) as Happ. rewrite <-Hpre in Happ.
    pose proof (log_end_nonneg m k ltac:(rewrite Forall_app in Hwf; by destruct Hwf)). unfold o in Hlt. lia.
  - destruct m as [|x m]; [exfalso; rewrite app_nil_r in Hes; rewrite Hes in Hlt; unfold o in Hlt; lia|].
    simpl in Hm. injection Hm as <- ->. subst es. eapply (span_located pre version object spans now m j span b); [|done|done].
    apply Forall_app in Hwf as [Hw1 Hw2]. apply Forall_cons in Hw2 as [Hw2 Hw3]. apply Forall_app in Hw3 as [Hw3 _].
    apply Forall_app. split; [done|]. by apply Forall_cons.
Qed.

(** What the decoder accepts has what the handler relies on. *)
Lemma decoded_topics_wf cluster version body request :
  (forall id name, cv_name_by_id cluster id = Some name -> is_str name) ->
  Forall is_byte body -> decode_request Produce version body = Ok (RqProduce request) ->
  Forall (topic_wf cluster (request_mode version request)) (pr_topics request).
Proof.
  intros Hnames Hb Hd.
  assert (typed request) as [_ Hts] by (apply (decode_typed (produce_decode_request version) RqProduce body (RqProduce request)); [apply yields_produce|done..]).
  eapply Forall_impl; [exact Hts|]. intros topic (Hname & _ & Hps). eapply Forall_impl; [exact Hps|]. intros part [Hi Hr].
  split_and!.
  - intros name. unfold produce_name. case_match; [apply Hnames|]. intros He. by rewrite He in Hname.
  - unfold fits_signed in Hi. change (256 ^ Z.of_nat 4 / 2) with 2147483648 in Hi. unfold i32_max. lia.
  - intros records He. by rewrite He in Hr.
Qed.

(** C4. What is produced is what is fetched.  Decode a produce request from its
    bytes, handle it, and take a partition that was answered without an error,
    with a batch that is not sealed and that no producer numbers.  At any later
    time, when the coordinator's log may have grown and a node reads an index
    that folded any part of it, a fetch at the offset the producer was told,
    answered without an error, begins with the batch: its bytes, with that offset
    as its base, and with a checksum that holds.  The store must hold what it
    held, and the offset must be in the tail window of its partition, not trimmed
    and not behind a manifest. *)
Theorem produced_is_fetched seal fuel cluster session version body request authz br br' session' outcomes flushed
    i j topic part outcome slot name records (later : CoordinatorLoop H L) view es partition unknown asked allowance (store : S) st' got :
  let mode := request_mode version request in
  let reply := answer slot flushed in
  Forall is_byte body -> decode_request Produce version body = Ok (RqProduce request) ->
  (forall id topic, cv_name_by_id cluster id = Some topic -> is_str topic) ->
  countable_bundles (pn_bundles (produce_topics seal cluster Pending_new (pr_topics request) mode authz).1) ->
  0 <= bn_next (br_namer br) -> is_str (bn_writer (br_namer br)) -> inv (br_coordinator br).1 -> (br_coordinator br).2 = [] ->
  produce_request (recorded (coordinator_commit fuel)) seal cluster session version request authz br = (br', session', Ok (outcomes, flushed)) ->
  pr_topics request !! i = Some topic -> pt_partitions topic !! j = Some part ->
  outcomes !! i = Some outcome -> pc_partitions outcome !! j = Some slot -> prp_error_code reply = NO_ERROR ->
  admitted (produce_name cluster (tm_version mode) topic) mode authz = Ok name ->
  pp_records part = Some records -> (forall v, verify records = Ok v -> vf_producer v = None) ->
  (forall domain, cv_key_domain cluster name = Some domain -> requires_sealing domain = false) ->
  grew (br_coordinator br').1 later -> index_at (cv_index view) es -> es `prefix_of` contents (cl_store later) ->
  IndexProps.reachable (cv_index view) -> IndexState_partition (cv_index view) name (pp_index part) = Some partition ->
  in_tail partition (prp_base_offset reply) ->
  (forall key object, objects (br_store br') !! key = Some object -> objects store !! key = Some object) ->
  fp_index asked = pp_index part -> fp_fetch_offset asked = prp_base_offset reply -> 0 < aw_bytes allowance < u64_max ->
  fetch_one_partition view (Some name) unknown asked allowance (mkReading FetchedObjects_default store) = (st', Ok got) ->
  po_error_code got = NO_ERROR ->
  exists batch rest v, po_records got = batch ++ rest /\ rewrite_base_offset records (prp_base_offset reply) 0 = Ok batch /\
    drop 16 batch = drop 16 records /\ verify batch = Ok v.
Proof.
  intros mode reply Hbody Hdec Hnames Hlen Hn Hw Hinv Hnew Hreq Hi Hj Hoi Hoj Hcode Hname Hrec Hprod Hseal Hgrew Hat Hpre Hr Hpart Hin Hobjs Hai Hao Hcan Hf Hgot.
  pose proof (produce_request_durable seal fuel cluster session version request authz br br' session' outcomes flushed
    (decoded_topics_wf _ _ _ _ Hnames Hbody Hdec) Hlen Hn Hw Hinv Hnew Hreq) as Hall.
  pose proof (Forall2_lookup_lr _ _ _ _ _ _ Hall Hi Hoi) as Hparts. destruct (Forall2_lookup_lr _ _ _ _ _ _ Hparts Hj Hoj) as [_ Hok].
  destruct (Hok Hcode) as (name' & records' & v & domain & key & span & stored & payload & token & Hadm & _ & Hrec' & Hv & Hdom & Hst & Hobj & Hslice & Ht & Hp & _ & Hpr & Hdur).
  assert (name' = name) as -> by (unfold mode in Hname; congruence). assert (records' = records) as -> by congruence.
  destruct Hdur as (ver & key' & first & a & Hspan & Ho & _ & [[= -> ->]|Hnum]); [|by specialize (Hprod v Hv)]. change (prp_base_offset (answer slot flushed)) with (prp_base_offset reply) in Ho.
  unfold stored_as in Hst. rewrite (Hseal _ Hdom) in Hst. subst stored. rewrite Ho in *.
  destruct (fetch_one_read _ _ _ _ _ _ _ _ Hf Hgot) as (read & -> & Hread). rewrite Hai, Hao in Hread. rewrite <-Ht, <-Hp in *.
  pose proof (durable_span_located _ _ _ _ _ _ _ _ _ Hspan Hgrew Hat Hpre Hpart Hr Hin) as Htail.
  destruct (read_serves_tail _ _ _ _ _ _ _ _ _ _ _ _ Hr Hpart Htail Hin Hcan (remembers_start store) Hread) as (blob & rest & -> & raw & Hraw & Hblob).
  destruct Hraw as (payload' & token' & Hobj' & Hslice'). simpl in Hobj', Hslice', Hblob. rewrite (Hobjs _ _ Hobj) in Hobj'. injection Hobj' as <- <-.
  assert (raw = records) as -> by congruence. exists blob, rest, v.
  destruct (rewrite_base_offset_Ok _ _ _ _ Hblob) as (Hs & _). pose proof Hs as (_ & _ & Hd).
  split_and!; [done|done|done|by eapply verify_same_body].
Qed.
End delivery.

(** ** A concrete delivery: the request of [ProduceDurable], then a fetch *)

#[local] Existing Instance demo_checksum.

Definition demo_committed : CoordinatorLoop unit FakeMetadataLog := (br_coordinator demo_produced.1.1).1.
Definition demo_log : list MetadataEntry := contents (cl_store demo_committed).
Definition demo_folded : IndexState := match IndexState_apply IndexState_new demo_log with Ok i => i | _ => IndexState_new end.
Definition demo_delivery : Reading FakeObjectStore * Result unit PartitionOutcome :=
  fetch_one_partition (demo_view demo_folded) (Some "t") 3 (mkFetchPartition 0 0 1000) (mkAllowance 1000 true)
    (mkReading FetchedObjects_default (br_store demo_produced.1.1)).
Definition demo_got : PartitionOutcome := match demo_delivery.2 with Ok got => got | _ => refused_outcome 0 0 NO_ERROR 0 end.

(** The request's body, at version 9. *)
Definition demo_body : bytes :=
  [0; 255; 255; 0; 0; 0; 0; 2; 2; 116; 4; 0; 0; 0; 0; 70] ++ demo_batch ++ [0; 0; 0; 0; 1; 70] ++ demo_batch ++ [0; 0; 0; 0; 0; 0; 0; 0; 0].

Lemma demo_body_bytes : Forall is_byte demo_body.
Proof. unfold demo_body. pose proof demo_bytes. rewrite !Forall_app. split_and!; try done; repeat constructor; vm_compute; discriminate. Qed.

Lemma demo_body_decodes : decode_request Produce 9 demo_body = Ok (RqProduce demo_produce).
Proof. vm_compute. reflexivity. Qed.

Lemma demo_countable : countable_bundles (pn_bundles (produce_topics no_seal (demo_view IndexState_new) Pending_new
  (pr_topics demo_produce) (request_mode 9 demo_produce) demo_open).1).
Proof. apply Forall_forall. intros b Hb. apply list_elem_of_In in Hb. vm_compute in Hb. destruct Hb as [<-|[]]. vm_compute. discriminate. Qed.

Lemma demo_grew : grew demo_committed demo_committed.
Proof.
  assert (ledger_ok (br_coordinator demo_produced.1.1)) as [Hinv _].
  { apply (produce_request_keeps (coordinator_commit 10) ledger_ok (ledger_keeps 10) no_seal (demo_view IndexState_new) None 9
      demo_produce demo_open demo_broker demo_produced.1.1 demo_produced.1.2 (Ok (demo_slots.1, demo_slots.2))
      demo_topic_wf demo_countable ltac:(vm_compute; discriminate) eq_refl); [|exact demo_produced_Ok].
    split; [apply open_deferred_inv|constructor]. }
  split; [apply Hinv|]. exists []. by rewrite app_nil_r.
Qed.

Lemma demo_folded_at : index_at demo_folded demo_log /\ IndexProps.reachable demo_folded.
Proof.
  assert (Forall entry_wf demo_log) as Hwf by apply (durable_ordered _ (proj1 demo_grew)).
  assert (IndexState_apply IndexState_new demo_log = Ok demo_folded) as Ha by (vm_compute; reflexivity).
  split; [|by eapply reach_apply; [apply reach_new|..]].
  by apply (index_at_apply IndexState_new [] demo_log); [apply (index_at_clear IndexState_new)|..].
Qed.

Lemma produced_is_fetched_witness :
  po_error_code demo_got = NO_ERROR /\ exists batch rest v, po_records demo_got = batch ++ rest /\
    rewrite_base_offset demo_batch 0 0 = Ok batch /\ drop 16 batch = drop 16 demo_batch /\ verify batch = Ok v.
Proof.
  split; [vm_compute; reflexivity|]. destruct demo_folded_at as [Hat Hr].
  assert (exists outcome slot, demo_slots.1 !! 0%nat = Some outcome /\ pc_partitions outcome !! 0%nat = Some slot /\
    answer slot demo_slots.2 = mkProduceResponsePartition 0 NO_ERROR 0) as (outcome & slot & Ho & Hs & Ha).
  { eexists _, _. split; [vm_compute; reflexivity|]. split; vm_compute; reflexivity. }
  assert (exists part, IndexState_partition demo_folded "t" 0 = Some part /\ in_tail part 0) as (part & Hp & Hin).
  { eexists. split; [vm_compute; reflexivity|]. split_and!; [repeat constructor; vm_compute; discriminate|vm_compute; discriminate|discriminate|].
    eexists. split; [apply list_elem_of_here|]. split; vm_compute; [discriminate|reflexivity]. }
  pose proof (produced_is_fetched no_seal 10 (demo_view IndexState_new) None 9 demo_body demo_produce demo_open demo_broker
    demo_produced.1.1 demo_produced.1.2 demo_slots.1 demo_slots.2 0 0 demo_topic (mkProducePartition 0 (Some demo_batch))
    outcome slot "t" demo_batch demo_committed (demo_view demo_folded) demo_log part 3 (mkFetchPartition 0 0 1000) (mkAllowance 1000 true)
    (br_store demo_produced.1.1) demo_delivery.1 demo_got) as Hall.
  rewrite Ha in Hall. refine (Hall demo_body_bytes demo_body_decodes _ demo_countable ltac:(vm_compute; discriminate) eq_refl (open_deferred_inv _) eq_refl demo_produced_Ok
    eq_refl eq_refl Ho Hs eq_refl ltac:(vm_compute; reflexivity) eq_refl _ _ demo_grew Hat _ Hr Hp Hin (fun _ _ Hk => Hk) eq_refl eq_refl _ _ eq_refl).
  - discriminate.
  - intros v Hv. assert (verify demo_batch = Ok (mkVerified 1 None)) as Hd by (vm_compute; reflexivity).
    rewrite Hd in Hv. injection Hv as <-. reflexivity.
  - intros domain Hd. injection Hd as <-. reflexivity.
  - exists []. by rewrite app_nil_r.
  - split; reflexivity.
  - change (demo_delivery = (demo_delivery.1, Ok demo_got)). vm_compute. reflexivity.
Defined.
