(* ===== verification/GroupSegment.v ===== *)
(** * GroupSegment: the group log's durable format

    Models [oqueue-core/src/group_segment.rs].  Its cursor reads as the one of
    [metadata_segment.rs] does, and is modelled by the same readers. *)

From stdpp Require Import base tactics list numbers strings.
From Stdlib Require Import ZArith Lia.
From S2P Require Import Prelude Types Bytes Segment Group.
From S2P Require Import SegmentProps.

Open Scope Z_scope.

(** [*b"OQGL"]. *)
Definition GROUP_MAGIC : bytes := [79; 81; 71; 76].
Definition GROUP_FORMAT : Z := 1.
Definition TAG_OFFSET : Z := 1.
Definition TAG_TRANSITION : Z := 2.
Definition TAG_ROSTER : Z := 3.

Definition event_tag (event : GroupEvent) : Z :=
  match event with
  | EvJoin => 1
  | EvJoinBarrierComplete => 2
  | EvSyncComplete => 3
  | EvMemberJoinedDuringSync => 4
  | EvMemberLeft => 5
  | EvAllMembersGone => 6
  | EvExpire => 7
  end.

Definition event_from (tag : Z) : option GroupEvent :=
  if tag =? 1 then Some EvJoin
  else if tag =? 2 then Some EvJoinBarrierComplete
  else if tag =? 3 then Some EvSyncComplete
  else if tag =? 4 then Some EvMemberJoinedDuringSync
  else if tag =? 5 then Some EvMemberLeft
  else if tag =? 6 then Some EvAllMembersGone
  else if tag =? 7 then Some EvExpire
  else None.

(** ** Encoding *)

(** [u16::try_from(len)], then its bytes. *)
Definition put_len16 (len : nat) : SegWriter := fun out =>
  if Z.of_nat len <=? u16_max then Ok (out ++ be_bytes 2 (Z.of_nat len))
  else Err (MalformedMetadataSegment (Z.of_nat (length out))).

Definition put_roster (roster : option GroupRosterSnapshot) : SegWriter :=
  match roster with
  | None => wr_bytes [0]
  | Some roster =>
      wr_bytes [1] +> put_str (gr_protocol_type roster) +> put_str (gr_protocol_name roster) +>
      put_len16 (length (gr_member_ids roster)) +> wr_each put_str (gr_member_ids roster)
  end.

Definition encode_group_record (record : GroupMetadataRecord) : SegWriter :=
  match record with
  | OffsetCommitted group topic partition offset =>
      wr_bytes [TAG_OFFSET] +> put_str group +> put_str topic +>
      wr_bytes (be_signed 4 partition) +> wr_bytes (be_signed 8 offset)
  | GroupTransitioned group event => wr_bytes [TAG_TRANSITION] +> put_str group +> wr_bytes [event_tag event]
  | GroupRosterUpdated group roster => wr_bytes [TAG_ROSTER] +> put_str group +> put_roster roster
  end.

Definition encode_group_entry (entry : GroupMetadataEntry) : SegWriter :=
  wr_bytes (be_bytes 8 (ge_version entry)) +> encode_group_record (ge_record entry).

Definition encode_group_segment (entries : list GroupMetadataEntry) : Res bytes :=
  (wr_bytes GROUP_MAGIC +> wr_bytes [GROUP_FORMAT] +> put_len32 (length entries) +>
   wr_each encode_group_entry entries) [].

(** ** Decoding *)

Definition seg_group : SegReader GroupId :=
  rd! raw := seg_string in seg_checked (GroupId_new raw).

Definition seg_roster : SegReader (option GroupRosterSnapshot) :=
  rd! tag := seg_u8 in
  if tag =? 0 then rd_ret None
  else if tag =? 1 then
    rd! protocol_type := seg_string in
    rd! protocol_name := seg_string in
    rd! count := seg_u16 in
    rd! member_ids := rd_times (Z.to_nat count) seg_string in
    rd_ret (Some (mkRoster protocol_type protocol_name member_ids))
  else seg_malformed.

Definition decode_offset : SegReader GroupMetadataRecord :=
  rd! group := seg_group in
  rd! topic := seg_topic in
  rd! partition := seg_i32 in
  rd! offset := cur_i64 in
  rd_ret (OffsetCommitted group topic partition offset).

Definition decode_transition : SegReader GroupMetadataRecord :=
  rd! group := seg_group in
  rd! tag := seg_u8 in
  match event_from tag with
  | Some event => rd_ret (GroupTransitioned group event)
  | None => seg_malformed
  end.

Definition decode_roster : SegReader GroupMetadataRecord :=
  rd! group := seg_group in
  rd! roster := seg_roster in
  rd_ret (GroupRosterUpdated group roster).

(** The arm a tag read at [at_] selects. *)
Definition group_decoder (at_ : nat) (tag : Z) : SegReader GroupMetadataRecord :=
  if tag =? TAG_OFFSET then decode_offset
  else if tag =? TAG_TRANSITION then decode_transition
  else if tag =? TAG_ROSTER then decode_roster
  else fun _ _ => Err (MalformedMetadataSegment (Z.of_nat at_)).

Definition decode_group_record : SegReader GroupMetadataRecord := fun buf at_ =>
  (rd! tag := seg_u8 in group_decoder at_ tag) buf at_.

Definition decode_group_entry : SegReader GroupMetadataEntry :=
  rd! version := seg_u64 in
  rd! record := decode_group_record in
  rd_ret (mkGroupEntry version record).

Definition decode_group_entries : SegReader (list GroupMetadataEntry) :=
  rd! magic := seg_take 4 in
  if bool_decide (magic = GROUP_MAGIC) then
    rd! format := seg_u8 in
    if format =? GROUP_FORMAT then
      rd! count := seg_u32 in
      rd_times (Z.to_nat count) decode_group_entry
    else seg_malformed
  else seg_malformed.

Definition decode_group_segment (buf : bytes) : Res (list GroupMetadataEntry) :=
  let? (entries, at_) := decode_group_entries buf 0%nat in
  if (at_ =? length buf)%nat then Ok entries
  else Err (MalformedMetadataSegment (Z.of_nat at_)).

(** * The group log's format round-trips and is unambiguous *)

(** ** What the types of the fields allow *)

Definition roster_wf (r : GroupRosterSnapshot) : Prop :=
  is_str (gr_protocol_type r) /\ is_str (gr_protocol_name r) /\ Forall is_str (gr_member_ids r).

Definition group_meta_wf (r : GroupMetadataRecord) : Prop :=
  match r with
  | OffsetCommitted group topic partition offset =>
      name_wf group /\ name_wf topic /\ fits_signed 4 partition /\ fits_signed 8 offset
  | GroupTransitioned group _ => name_wf group
  | GroupRosterUpdated group roster => name_wf group /\ from_option roster_wf True roster
  end.

Definition group_entry_wf (e : GroupMetadataEntry) : Prop :=
  in_u64 (ge_version e) /\ group_meta_wf (ge_record e).

#[export] Instance roster_wf_dec r : Decision (roster_wf r).
Proof. apply _. Defined.
#[export] Instance fits_signed_dec n v : Decision (fits_signed n v).
Proof. apply _. Defined.
#[export] Instance group_meta_wf_dec r : Decision (group_meta_wf r).
Proof. destruct r as [| |g [r|]]; apply _. Defined.
#[export] Instance group_entry_wf_dec e : Decision (group_entry_wf e).
Proof. apply _. Defined.

(** ** Reading back what was written *)

Lemma inverts_len16 n : inverts (put_len16 n) seg_u16 (Z.of_nat n).
Proof.
  intros out out'. unfold put_len16. destruct (_ <=? _) eqn:Hle; [|done]. zbool.
  intros Heq. exists (be_bytes 2 (Z.of_nat n)). split; [by injection Heq|]. apply reads_unsigned. width.
Qed.

Lemma inverts_group s : name_wf s -> inverts (put_str s) seg_group s.
Proof.
  intros [Hs Hne]. eapply inverts_checked; [by apply inverts_str|].
  unfold GroupId_new. by rewrite bool_decide_false.
Qed.

Lemma inverts_roster roster :
  from_option roster_wf True roster -> inverts (put_roster roster) seg_roster roster.
Proof.
  destruct roster as [[ptype pname ids]|]; simpl.
  - intros (Ht & Hn & Hi). eapply inverts_seq; [apply inverts_tag, byte_1|]. simpl.
    eapply inverts_seq; [by apply inverts_str|]. eapply inverts_seq; [by apply inverts_str|].
    eapply inverts_seq; [apply inverts_len16|]. rewrite Nat2Z.id.
    apply (inverts_last _ _ (fun l => Some (mkRoster ptype pname l))), inverts_each.
    eapply Forall_impl; [exact Hi|]. apply inverts_str.
  - intros _. apply inverts_bytes. eapply reads_check; [apply reads_byte, byte_0|done].
Qed.

Lemma event_from_tag e : event_from (event_tag e) = Some e.
Proof. by destruct e. Qed.

Lemma inverts_event g e :
  inverts (wr_bytes [event_tag e])
    (rd! tag := seg_u8 in match event_from tag with
                          | Some event => rd_ret (GroupTransitioned g event)
                          | None => seg_malformed end) (GroupTransitioned g e).
Proof.
  apply inverts_bytes. eapply reads_check; [apply reads_byte|].
  - destruct e; unfold is_byte; simpl; mlia.
  - intros buf at_. by rewrite event_from_tag.
Qed.

Lemma inverts_group_record r :
  group_meta_wf r -> inverts (encode_group_record r) decode_group_record r.
Proof.
  destruct r as [g t p o|g e|g roster]; simpl.
  - intros (Hg & Ht & Hp & Ho). apply (inverts_selected group_decoder _ _ decode_offset); [by apply byte_tag|done|].
    eapply inverts_seq; [by apply inverts_group|]. eapply inverts_seq; [by apply inverts_topic|].
    eapply inverts_seq; [apply inverts_bytes, reads_signed; [lia|done]|].
    apply (inverts_last _ _ (OffsetCommitted g t p)), inverts_i64. width.
  - intros Hg. apply (inverts_selected group_decoder _ _ decode_transition); [by apply byte_tag|done|].
    eapply inverts_seq; [by apply inverts_group|]. apply inverts_event.
  - intros [Hg Hr]. apply (inverts_selected group_decoder _ _ decode_roster); [by apply byte_tag|done|].
    eapply inverts_seq; [by apply inverts_group|].
    by apply (inverts_last _ _ (GroupRosterUpdated g)), inverts_roster.
Qed.

Lemma inverts_group_entry e : group_entry_wf e -> inverts (encode_group_entry e) decode_group_entry e.
Proof.
  intros [Hv Hr]. destruct e as [v r]; simpl in *. eapply inverts_seq; [by apply inverts_u64|].
  by apply (inverts_last _ _ (mkGroupEntry v)), inverts_group_record.
Qed.

Lemma decode_encode_group_segment entries buf :
  Forall group_entry_wf entries -> encode_group_segment entries = Ok buf -> decode_group_segment buf = Ok entries.
Proof.
  intros Hes Henc. unfold encode_group_segment in Henc.
  assert (inverts (wr_bytes GROUP_MAGIC +> wr_bytes [GROUP_FORMAT] +>
    put_len32 (length entries) +> wr_each encode_group_entry entries) decode_group_entries entries) as Hinv.
  { eapply inverts_seq; [apply inverts_bytes, (reads_take GROUP_MAGIC)|]. simpl.
    eapply inverts_seq; [by apply inverts_tag, byte_1|]. simpl.
    apply inverts_counted. eapply Forall_impl; [exact Hes|]. apply inverts_group_entry. }
  destruct (Hinv _ _ Henc) as (bs & -> & Hr). specialize (Hr [] []).
  rewrite !app_nil_l, app_nil_r in *. change (length (@nil Z)) with 0%nat in Hr.
  unfold decode_group_segment. rewrite Hr. simpl. by rewrite Nat.eqb_refl.
Qed.

(** ** No segment is the start of another *)

Lemma prefix_safe_group_entries : prefix_safe decode_group_entries.
Proof.
  pose proof prefix_safe_string. assert (prefix_safe decode_group_record) as Hrec.
  { assert (forall n tag, prefix_safe (group_decoder n tag)) as Hdec.
    { intros n tag. unfold group_decoder, decode_offset, decode_transition, decode_roster, seg_group, seg_topic,
        seg_roster, seg_u16, seg_u8, seg_i32, cur_i64. safe.
      all: first [by intros ? ? ? ? ? | destruct (event_from _); safe]. }
    intros buf ext at_ a at'. apply prefix_safe_bind; [unfold seg_u8; safe|done]. }
  unfold decode_group_entries, decode_group_entry, seg_u8, seg_u32, seg_u64. safe.
Qed.

Lemma decode_group_segment_consumes buf entries :
  decode_group_segment buf = Ok entries -> decode_group_entries buf 0%nat = Ok (entries, length buf).
Proof.
  unfold decode_group_segment. intros ([es at_] & Hd & Hat)%res_bind_Ok.
  destruct (_ =? _)%nat eqn:He; [|done]. apply Nat.eqb_eq in He. injection Hat as <-. by subst at_.
Qed.

(** ** Claims *)

(** The group log's segments round-trip and are unambiguous: whatever the
    encoder accepts, of entries whose fields are what the types allow, decodes
    to those entries, and no proper prefix of it decodes. *)
Theorem group_segment_round_trip entries buf :
  Forall group_entry_wf entries -> encode_group_segment entries = Ok buf ->
  decode_group_segment buf = Ok entries /\
  forall n entries', (n < length buf)%nat -> decode_group_segment (take n buf) <> Ok entries'.
Proof.
  intros Hwf Henc. pose proof (decode_encode_group_segment _ _ Hwf Henc) as Hd. split; [done|].
  intros n entries' Hn Hpre. apply decode_group_segment_consumes in Hd, Hpre.
  apply (prefix_safe_group_entries _ (drop n buf)) in Hpre. rewrite take_drop, Hd in Hpre.
  injection Hpre as _ Hlen. rewrite length_take in Hlen. lia.
Qed.

Definition demo_group_entries : list GroupMetadataEntry :=
  [ mkGroupEntry 0 (GroupTransitioned "g" EvJoin);
    mkGroupEntry 1 (GroupTransitioned "g" EvJoinBarrierComplete);
    mkGroupEntry 2 (GroupRosterUpdated "g" (Some (mkRoster "consumer" "range" ["m-1"; "m-2"])));
    mkGroupEntry 3 (OffsetCommitted "g" "orders" 3 41);
    mkGroupEntry 4 (GroupRosterUpdated "g" None) ].
Definition demo_group_segment : bytes :=
  match encode_group_segment demo_group_entries with Ok b => b | _ => [] end.

Lemma group_segment_round_trip_witness :
  decode_group_segment demo_group_segment = Ok demo_group_entries /\
  forall n entries', (n < length demo_group_segment)%nat ->
    decode_group_segment (take n demo_group_segment) <> Ok entries'.
Proof.
  apply (group_segment_round_trip demo_group_entries demo_group_segment).
  - vm_decide.
  - vm_compute; reflexivity.
Defined.
