(* ===== verification/Tasks.v ===== *)
(** * Tasks: concurrent handlers over shared memory

    The broker runs each request in a task of its own; tasks share memory behind
    locks and meet at [await] points.  A [Task] is a handler cut at those
    points: each [Act] is one section of it that nothing interrupts, which may
    have to wait ([None]) and which may depend on what the environment decides
    ([Choice]: whether a call to the log fails, which branch of a [select!]
    fires).  [wstep] interleaves any number of tasks; [safe] is the judgement
    they are reasoned with, and [treachable_safe] carries it to every
    interleaving. *)

From stdpp Require Import base tactics list numbers gmap relations.
From S2P Require Import Prelude Types.

(** What the environment decides of one section. *)
Record Choice : Type := mkChoice {
  ch_fault : option Error;
  ch_landed : bool;
  ch_timer : bool;
}.

Inductive Task (S A : Type) : Type :=
| Ret (a : A)
| Act (X : Type) (f : Choice -> S -> option (S * X)) (k : X -> Task S A).
Arguments Ret {S A} a.
Arguments Act {S A X} f k.

Fixpoint tbind {S A B} (t : Task S A) (k : A -> Task S B) : Task S B :=
  match t with
  | Ret a => k a
  | Act f c => Act f (fun x => tbind (c x) k)
  end.

Notation "'do!' x ':=' t 'in' k" := (tbind t (fun x => k))
  (at level 10, x pattern, t at level 200, k at level 200) : oq_scope.

(** A section that never waits and that nothing outside decides. *)
Definition section {S X} (f : S -> S * X) : Task S X := Act (fun _ s => Some (f s)) Ret.
Definition look {S X} (f : S -> X) : Task S X := section (fun s => (s, f s)).
Definition change {S} (f : S -> S) : Task S unit := section (fun s => (f s, tt)).

(** Which branch of a [select!] between a timer and something else. *)
Definition woken_by_timer {S} : Task S bool := Act (fun c s => Some (s, ch_timer c)) Ret.

(** Waiting for what does not come. *)
Definition parked {S A} : Task S A := Act (fun _ _ => None) Ret.

(** One section of a task, if it can run. *)
Definition task_step {S A} (c : Choice) (s : S) (t : Task S A) : option (S * Task S A) :=
  match t with
  | Ret _ => None
  | Act f k => match f c s with Some (s', x) => Some (s', k x) | None => None end
  end.

(** ** Interleavings *)

Record TWorld (S A O : Type) : Type := mkTWorld {
  tw_state : S;
  tw_tasks : gmap nat (O * Task S A);
}.
Arguments mkTWorld {S A O}.
Arguments tw_state {S A O}.
Arguments tw_tasks {S A O}.

Section interleaving.
Context {S A O : Type}.
(** What a request runs, what the environment may decide, which requests may
    start in a world, and what happens to the state by itself. *)
Context (code : O -> Task S A) (allowed : Choice -> Prop).
Context (may_start : TWorld S A O -> nat -> O -> Prop) (ticks : S -> S -> Prop).

Inductive twstep : TWorld S A O -> TWorld S A O -> Prop :=
| tw_run w i o t c s' t' :
    tw_tasks w !! i = Some (o, t) -> allowed c -> task_step c (tw_state w) t = Some (s', t') ->
    twstep w (mkTWorld s' (<[i := (o, t')]> (tw_tasks w)))
| tw_start w i o :
    tw_tasks w !! i = None -> may_start w i o ->
    twstep w (mkTWorld (tw_state w) (<[i := (o, code o)]> (tw_tasks w)))
| tw_tick w s' :
    ticks (tw_state w) s' -> twstep w (mkTWorld s' (tw_tasks w)).

(** A schedule, for running a world: which task, and what is decided. *)
Inductive Move : Type :=
| MRun (i : nat) (c : Choice)
| MStart (i : nat) (o : O).

Definition tw_move (w : TWorld S A O) (m : Move) : TWorld S A O :=
  match m with
  | MRun i c =>
      match tw_tasks w !! i with
      | Some (o, t) =>
          match task_step c (tw_state w) t with
          | Some (s', t') => mkTWorld s' (<[i := (o, t')]> (tw_tasks w))
          | None => w
          end
      | None => w
      end
  | MStart i o =>
      match tw_tasks w !! i with
      | Some _ => w
      | None => mkTWorld (tw_state w) (<[i := (o, code o)]> (tw_tasks w))
      end
  end.

Definition move_ok (w : TWorld S A O) (m : Move) : Prop :=
  match m with MRun _ c => allowed c | MStart i o => may_start w i o end.

Lemma tw_move_reachable w m : move_ok w m -> rtc twstep w (tw_move w m).
Proof.
  intros Hm. destruct m as [i c|i o]; simpl in *.
  - destruct (tw_tasks w !! i) as [[o t]|] eqn:Hi; [|done].
    destruct (task_step c (tw_state w) t) as [[s' t']|] eqn:Ht; [|done].
    by apply rtc_once, (tw_run w i o t c).
  - destruct (tw_tasks w !! i) eqn:Hi; [done|]. by apply rtc_once, tw_start.
Qed.

Fixpoint moves_ok (w : TWorld S A O) (ms : list Move) : Prop :=
  match ms with
  | [] => True
  | m :: ms => move_ok w m /\ moves_ok (tw_move w m) ms
  end.

Lemma tw_moves_reachable ms w : moves_ok w ms -> rtc twstep w (foldl tw_move w ms).
Proof.
  revert w. induction ms as [|m ms IH]; intros w; simpl; [done|]. intros [Hm Hms].
  etrans; [by apply (tw_move_reachable w m)|by apply IH].
Qed.
End interleaving.

(** ** The logic *)

(** What assertions are about: the shared state, ghost state, and which request
    each task runs. *)
Record TView (S G O : Type) : Type := mkTView {
  tv_state : S;
  tv_ghost : G;
  tv_ops : gmap nat O;
}.
Arguments mkTView {S G O}.
Arguments tv_state {S G O}.
Arguments tv_ghost {S G O}.
Arguments tv_ops {S G O}.

Section logic.
Context {S G O : Type} (allowed : Choice -> Prop).
(** [Inv] holds after every section; [rely i] is what the others may do to task
    [i] between its sections, and [grows] what any section does. *)
Context (Inv : TView S G O -> Prop) (rely : nat -> TView S G O -> TView S G O -> Prop).
Context (grows : TView S G O -> TView S G O -> Prop).

(** Some ghost state completes the next view. *)
Definition tgoes (i : nat) (v : TView S G O) (s' : S) (Q : TView S G O -> Prop) : Prop :=
  exists g', let v' := mkTView s' g' (tv_ops v) in
    Inv v' /\ grows v v' /\ (forall j, j <> i -> rely j v v') /\ Q v'.

Fixpoint tsafe {A} (i : nat) (t : Task S A) (Q : A -> TView S G O -> Prop) (v : TView S G O) : Prop :=
  match t with
  | Ret a => Q a v
  | Act f k => forall v1, rely i v v1 -> Inv v1 ->
      forall c s' x, allowed c -> f c (tv_state v1) = Some (s', x) -> tgoes i v1 s' (tsafe i (k x) Q)
  end.

Lemma tgoes_mono i v s' (Q Q' : TView S G O -> Prop) :
  (forall v', Q v' -> Q' v') -> tgoes i v s' Q -> tgoes i v s' Q'.
Proof. intros HQ (g' & Hi & Hg & Hr & Hq). exists g'. auto. Qed.

Lemma tsafe_mono {A} i (t : Task S A) (Q Q' : A -> TView S G O -> Prop) v :
  tsafe i t Q v -> (forall a v', Q a v' -> Q' a v') -> tsafe i t Q' v.
Proof.
  intros Hs HQ. revert v Hs. induction t as [a|X f k IH]; intros v; simpl; [auto|].
  intros Hs v1 Hr Hi c s' x Hc Hf. eapply tgoes_mono; [|by eapply Hs]. intros v'. apply IH.
Qed.

Lemma tsafe_bind {A B} i (t : Task S A) (k : A -> Task S B) Q v :
  tsafe i t (fun a v' => tsafe i (k a) Q v') v -> tsafe i (tbind t k) Q v.
Proof.
  revert v. induction t as [a|X f c IH]; intros v; simpl; [done|].
  intros Hs v1 Hr Hi ch s' x Hc Hf. eapply tgoes_mono; [|by eapply Hs]. intros v'. apply IH.
Qed.

Lemma tsafe_inv {A} i (t : Task S A) Q v :
  tsafe i t Q v -> Inv v -> tsafe i t (fun a v' => Q a v' /\ Inv v') v.
Proof.
  revert v. induction t as [a|X f c IH]; intros v; simpl; [auto|].
  intros Hs _ v1 Hr Hi ch s' x Hc Hf. destruct (Hs v1 Hr Hi ch s' x Hc Hf) as (g' & Hi' & Hg & Ho & Hq).
  exists g'. auto.
Qed.

(** One part after another, the invariant in between. *)
Lemma tsafe_seq {A B} i (t : Task S A) (k : A -> Task S B) (Q' : A -> TView S G O -> Prop) Q v :
  tsafe i t Q' v -> Inv v -> (forall a v', Q' a v' -> Inv v' -> tsafe i (k a) Q v') ->
  tsafe i (tbind t k) Q v.
Proof.
  intros Ht Hi Hk. apply tsafe_bind. eapply tsafe_mono; [by apply tsafe_inv|]. intros a v' [HQ Hi']. auto.
Qed.

(** The rule of a section. *)
Lemma tsafe_act {X} i (f : Choice -> S -> option (S * X)) (Q : X -> TView S G O -> Prop) v :
  (forall v1 c s' x, rely i v v1 -> Inv v1 -> allowed c -> f c (tv_state v1) = Some (s', x) ->
    tgoes i v1 s' (Q x)) ->
  tsafe i (Act f Ret) Q v.
Proof. intros H v1 Hr Hi c s' x Hc Hf. eapply tgoes_mono; [|by apply (H v1 c s' x)]. done. Qed.

Lemma tsafe_section {X} i (f : S -> S * X) (Q : X -> TView S G O -> Prop) v :
  (forall v1, rely i v v1 -> Inv v1 -> tgoes i v1 (f (tv_state v1)).1 (Q (f (tv_state v1)).2)) ->
  tsafe i (section f) Q v.
Proof. intros H. apply tsafe_act. intros v1 c s' x Hr Hi _ [= Hf]. specialize (H v1 Hr Hi). by rewrite Hf in H. Qed.

Lemma tsafe_parked {A} i (Q : A -> TView S G O -> Prop) v : tsafe i parked Q v.
Proof. apply tsafe_act. by intros. Qed.

Section laws.
Hypothesis rely_refl : forall i v, rely i v v.
Hypothesis rely_trans : forall i v1 v2 v3, rely i v1 v2 -> rely i v2 v3 -> rely i v1 v3.
Hypothesis grows_refl : forall v, grows v v.

(** A section that changes nothing. *)
Lemma tgoes_id i v Q : Inv v -> Q v -> tgoes i v (tv_state v) Q.
Proof. intros Hi HQ. exists (tv_ghost v). destruct v; simpl in *. split; [done|]. by repeat split. Qed.

Lemma tsafe_look {X} i (f : S -> X) (Q : X -> TView S G O -> Prop) v :
  (forall v1, rely i v v1 -> Inv v1 -> Q (f (tv_state v1)) v1) -> tsafe i (look f) Q v.
Proof. intros H. apply tsafe_section. intros v1 Hr Hi. apply tgoes_id; [done|]. by apply H. Qed.

Lemma tsafe_timer i (Q : bool -> TView S G O -> Prop) v :
  (forall v1 b, rely i v v1 -> Inv v1 -> Q b v1) -> tsafe i woken_by_timer Q v.
Proof. intros H. apply tsafe_act. intros v1 c s' x Hr Hi _ [= <- <-]. apply tgoes_id; [done|]. by apply H. Qed.

Lemma tsafe_rely {A} i (t : Task S A) Q v v' :
  (forall a v v', rely i v v' -> Q a v -> Q a v') -> rely i v v' -> tsafe i t Q v -> tsafe i t Q v'.
Proof. intros HQ Hr. destruct t; simpl; [by eauto|]. intros Hs v1 Hr1; apply Hs; eauto. Qed.

(** ** Every interleaving *)

Section soundness.
Context {A : Type} (code : O -> Task S A).
Context (may_start : TWorld S A O -> nat -> O -> Prop) (ticks : S -> S -> Prop).
(** What an answer claims, and what the logic knows of a world's tasks. *)
Context (Ans : nat -> O -> A -> TView S G O -> Prop).

Definition tview (w : TWorld S A O) (g : G) : TView S G O := mkTView (tw_state w) g (fst <$> tw_tasks w).

(** What holds in every reachable world. *)
Definition tworld_safe (w : TWorld S A O) (g : G) : Prop :=
  Inv (tview w g) /\ forall i o t, tw_tasks w !! i = Some (o, t) -> tsafe i t (Ans i o) (tview w g).

Record TObligations : Prop := {
  tob_rely_grows : forall i v v', rely i v v' -> grows v v';
  tob_answer : forall i o a v v', grows v v' -> Ans i o a v -> Ans i o a v';
  tob_start : forall w i o g, may_start w i o -> tw_tasks w !! i = None -> tworld_safe w g ->
    exists g', let v' := mkTView (tw_state w) g' (<[i := o]> (fst <$> tw_tasks w)) in
    Inv v' /\ grows (tview w g) v' /\ (forall j, j <> i -> rely j (tview w g) v') /\
    tsafe i (code o) (Ans i o) v';
  tob_tick : forall v s', Inv v -> ticks (tv_state v) s' ->
    let v' := mkTView s' (tv_ghost v) (tv_ops v) in
    Inv v' /\ grows v v' /\ forall j, rely j v v';
}.

Hypothesis obligations : TObligations.

Lemma twstep_safe w w' g :
  tworld_safe w g -> twstep code allowed may_start ticks w w' -> exists g', tworld_safe w' g'.
Proof.
  intros [Hinv Htasks] Hstep.
  assert (forall i o a v v', rely i v v' -> Ans i o a v -> Ans i o a v') as Hans.
  { intros i o a v v' Hr. apply (tob_answer obligations). by eapply (tob_rely_grows obligations). }
  destruct Hstep as [w i o t c s' t' Hi Hc Ht|w i o Hi Hm|w s' Hs].
  - destruct t as [a|X f k]; [done|]. simpl in Ht.
    destruct (f c (tw_state w)) as [[s1 x]|] eqn:Hf; [|done]. injection Ht as <- <-.
    pose proof (Htasks i o _ Hi (tview w g) (rely_refl _ _) Hinv c s1 x Hc Hf) as (g' & Hi' & Hg & Hr & Hk).
    assert (mkTView s1 g' (tv_ops (tview w g)) =
      tview (mkTWorld s1 (<[i := (o, k x)]> (tw_tasks w))) g') as Hv.
    { unfold tview; simpl. f_equal. rewrite fmap_insert. symmetry. apply insert_id.
      by rewrite lookup_fmap, Hi. }
    rewrite Hv in *. exists g'. split; [done|]. simpl. intros j o' t' [[-> [= <- <-]]|[Hne Hj]]%lookup_insert_Some; [done|].
    eapply tsafe_rely; [by eauto|by apply Hr|by apply Htasks].
  - destruct (tob_start obligations w i o g Hm Hi (conj Hinv Htasks)) as (g' & Hi' & Hg & Hr & Hk). exists g'. unfold tworld_safe, tview.
    simpl. rewrite fmap_insert. simpl. split; [done|]. simpl.
    intros j o' t' [[<- [= <- <-]]|[Hne Hj]]%lookup_insert_Some; [done|].
    eapply tsafe_rely; [by eauto|by apply Hr|by apply Htasks].
  - destruct (tob_tick obligations (tview w g) s' Hinv Hs) as (Hi' & Hg & Hr). exists g. split; [done|].
    intros j o' t' Hj. eapply tsafe_rely; [by eauto|by apply Hr|by apply Htasks].
Qed.

Lemma treachable_safe w w' g :
  tworld_safe w g -> rtc (twstep code allowed may_start ticks) w w' -> exists g', tworld_safe w' g'.
Proof. intros Hs Hr. revert g Hs. induction Hr as [|w1 w2 w3 H1 _ IH]; intros g Hs; [eauto|].
  destruct (twstep_safe _ _ _ Hs H1) as [g' Hg']. eauto.
Qed.
End soundness.
End laws.
End logic.
