(* ===== verification/Keys.v ===== *)
(** * Keys: the data keys a broker seals with and opens with

    Models [oqueue-crypto]'s [dek_cache.rs] and [unwrap_cache.rs], with the
    [KeyProvider] trait of [oqueue-core/src/key.rs], its in-memory provider, and
    [mint_dek] of [entropy.rs].  The write side keeps one live data key per topic
    and retires it by bytes or by age; the read side keeps what the key service
    unwrapped, for five minutes and for at most 1024 blobs.

    A call of the key service is the only [await]; the requests are tasks of
    Tasks.v, the clock is read on its own, and a section under a cache's lock is
    one step.  The closures that seal and open run under the lock; what they are
    run on is recorded, in order.  A key that is dropped is wiped, which is not
    modelled; metrics are left out. *)

From stdpp Require Import base tactics list numbers strings gmap relations.
From Stdlib Require Import ZArith Lia.
From S2P Require Import Prelude Types Bytes Bundle Tasks.

Open Scope Z_scope.

(** ** Keys and their provider ([key.rs], [entropy.rs]) *)

Notation KeyId := string (only parsing).
Notation WrappedKey := bytes (only parsing).
Notation Dek := bytes (only parsing).

Definition DEK_BYTES : nat := 32.

Definition Dek_from_slice (raw : bytes) : Res Dek :=
  if (length raw =? DEK_BYTES)%nat then Ok raw else Err (DekLength (Z.of_nat (length raw))).

(** A provider may answer each call as it likes: the number is that of the call,
    and so it is for a source of entropy. *)
Class KeyProvider : Type := {
  wrap : nat -> KeyId -> bytes -> Res WrappedKey;
  unwrap : nat -> KeyId -> WrappedKey -> Res bytes;
}.

(** What an implementor must guarantee: [unwrap(wrap(k))] is [k] under the same
    key id, and nothing unwraps under another. *)
Class KeyProviderLaws `{KeyProvider} : Prop := {
  unwrap_wrap : forall n m key other plaintext wrapped raw,
    KeyId_new key = Ok key -> KeyId_new other = Ok other ->
    wrap n key plaintext = Ok wrapped -> unwrap m other wrapped = Ok raw -> other = key /\ raw = plaintext;
}.

Class Entropy : Type := fill : nat -> Res bytes.

(** Two calls never agree, except by a chance that is neglected. *)
Class EntropyLaws `{Entropy} : Prop := fill_fresh : forall n m dek, fill n = Ok dek -> fill m = Ok dek -> n = m.

(** What it fills is an array of [DEK_BYTES] bytes. *)
Definition mint_dek `{Entropy} (n : nat) : Res Dek := fill n.

(** *** [FakeKeyProvider] *)

Definition fake_tag (key : KeyId) : bytes := be_bytes 8 (Z.of_nat (length (as_bytes key))) ++ as_bytes key.

Fixpoint strip_prefix (prefix l : bytes) : option bytes :=
  match prefix, l with
  | [], l => Some l
  | x :: prefix, y :: l => if x =? y then strip_prefix prefix l else None
  | _ :: _, [] => None
  end.

Definition FakeKeyProvider : KeyProvider := {|
  wrap _ key plaintext := Ok (fake_tag key ++ plaintext);
  unwrap _ key wrapped :=
    match strip_prefix (fake_tag key) wrapped with
    | Some plaintext => Ok plaintext
    | None => Err (SecretRejected "unwrapping a data encryption key" key)
    end;
|}.

(** ** The live key of a topic ([dek_cache.rs]) *)

Definition DEK_MAX_SEALED_BYTES : Z := 68719476736.
Definition DEK_MAX_AGE_MS : Z := 604800000.

Record LiveDek : Type := mkLiveDek {
  ld_key_id : KeyId;
  ld_wrapped : WrappedKey;
  ld_dek : Dek;
  ld_minted_at : Timestamp;
  ld_sealed_bytes : Z;
}.

Definition usable (self : LiveDek) (key_id : KeyId) (now : Timestamp) : bool :=
  bool_decide (ld_key_id self = key_id) && (ld_sealed_bytes self <? DEK_MAX_SEALED_BYTES) &&
  (i64_saturating_sub now (ld_minted_at self) <? DEK_MAX_AGE_MS).

(** ** What the key service unwrapped ([unwrap_cache.rs]) *)

Definition UNWRAPPED_DEK_TTL_MS : Z := 300000.
Definition UNWRAPPED_DEK_CACHE_ENTRIES : nat := 1024.

Notation BlobId := (string * bytes)%type (only parsing).

Record CachedDek : Type := mkCachedDek {
  cd_dek : Dek;
  cd_unwrapped_at : Timestamp;
  cd_last_used : Z;
}.

Definition fresh_at (self : CachedDek) (now : Timestamp) : bool :=
  i64_saturating_sub now (cd_unwrapped_at self) <? UNWRAPPED_DEK_TTL_MS.

(** The entry with the least [last_used]; ticks are given out once, until they
    saturate. *)
Definition least_used (entries : gmap BlobId CachedDek) : option BlobId :=
  fst <$> foldl (fun best entry =>
    match best with
    | Some b => if cd_last_used entry.2 <? cd_last_used b.2 then Some entry else best
    | None => Some entry
    end) None (map_to_list entries).

(** [while by_blob.len() >= UNWRAPPED_DEK_CACHE_ENTRIES]: every turn removes an
    entry, so as many turns as entries are enough. *)
Fixpoint evict_least_used (fuel : nat) (entries : gmap BlobId CachedDek) : gmap BlobId CachedDek :=
  match fuel with
  | 0%nat => entries
  | S fuel =>
      if (UNWRAPPED_DEK_CACHE_ENTRIES <=? size entries)%nat then
        match least_used entries with
        | Some victim => evict_least_used fuel (delete victim entries)
        | None => entries
        end
      else entries
  end.

Definition make_room (now : Timestamp) (entries : gmap BlobId CachedDek) : gmap BlobId CachedDek :=
  let kept := filter (fun entry => fresh_at entry.2 now = true) entries in
  evict_least_used (size kept) kept.

(** ** The caches as shared state *)

(** What a [seal] or an [open] was run on, and the time its caller had read; an
    opening that called the key service is marked. *)
Record Sealed : Type := mkSealed {
  sd_topic : TopicId;
  sd_key : KeyId;
  sd_dek : Dek;
  sd_wrapped : WrappedKey;
  sd_bytes : Z;
  sd_at : Timestamp;
}.
Record Opened : Type := mkOpened { od_id : BlobId; od_dek : Dek; od_at : Timestamp; od_called : bool }.

Record Keys : Type := mkKeys {
  ks_now : Timestamp;
  ks_live : gmap TopicId LiveDek;
  ks_mints : gmap TopicId Z;
  ks_by_blob : gmap BlobId CachedDek;
  ks_next_use : Z;
  ks_calls : nat;
  ks_draws : nat;
  ks_sealed : list Sealed;
  ks_opened : list Opened;
}.

Definition Keys_new (now : Timestamp) : Keys := mkKeys now ∅ ∅ ∅ 0 0 0 [] [].

Definition with_mints (mints : gmap TopicId Z) (s : Keys) : Keys :=
  mkKeys (ks_now s) (ks_live s) mints (ks_by_blob s) (ks_next_use s) (ks_calls s) (ks_draws s) (ks_sealed s) (ks_opened s).
Definition with_blobs (by_blob : gmap BlobId CachedDek) (s : Keys) : Keys :=
  mkKeys (ks_now s) (ks_live s) (ks_mints s) by_blob (ks_next_use s) (ks_calls s) (ks_draws s) (ks_sealed s) (ks_opened s).
Definition called (s : Keys) : Keys :=
  mkKeys (ks_now s) (ks_live s) (ks_mints s) (ks_by_blob s) (ks_next_use s) (S (ks_calls s)) (ks_draws s) (ks_sealed s) (ks_opened s).
Definition drawn (s : Keys) : Keys :=
  mkKeys (ks_now s) (ks_live s) (ks_mints s) (ks_by_blob s) (ks_next_use s) (ks_calls s) (S (ks_draws s)) (ks_sealed s) (ks_opened s).
Definition with_clock (now : Timestamp) (s : Keys) : Keys :=
  mkKeys now (ks_live s) (ks_mints s) (ks_by_blob s) (ks_next_use s) (ks_calls s) (ks_draws s) (ks_sealed s) (ks_opened s).

(** What [seal] is run on. *)
Notation Envelope := (Dek * KeyId * WrappedKey)%type.

Definition envelope (entry : LiveDek) : Envelope := (ld_dek entry, ld_key_id entry, ld_wrapped entry).

Definition charged (entry : LiveDek) (n : Z) : LiveDek :=
  mkLiveDek (ld_key_id entry) (ld_wrapped entry) (ld_dek entry) (ld_minted_at entry)
    (u64_saturating_add (ld_sealed_bytes entry) n).

(** [seal] run on an entry, and the entry charged. *)
Definition seal_with (topic : TopicId) (entry : LiveDek) (n : Z) (now : Timestamp) (s : Keys) : Keys :=
  mkKeys (ks_now s) (<[topic := charged entry n]> (ks_live s)) (ks_mints s) (ks_by_blob s) (ks_next_use s) (ks_calls s) (ks_draws s)
    (ks_sealed s ++ [mkSealed topic (ld_key_id entry) (ld_dek entry) (ld_wrapped entry) n now]) (ks_opened s).

(** [entry.last_used = tick], and [open] run on the entry. *)
Definition touched (entry : CachedDek) (tick : Z) : CachedDek := mkCachedDek (cd_dek entry) (cd_unwrapped_at entry) tick.

Definition open_with (id : BlobId) (entry : CachedDek) (now : Timestamp) (service : bool) (s : Keys) : Keys :=
  mkKeys (ks_now s) (ks_live s) (ks_mints s) (<[id := touched entry (ks_next_use s)]> (ks_by_blob s))
    (u64_saturating_add (ks_next_use s) 1) (ks_calls s) (ks_draws s) (ks_sealed s)
    (ks_opened s ++ [mkOpened id (cd_dek entry) now service]).

Section keys.
Context `{KeyProvider} `{Entropy}.

Notation KTask := (Task Keys).

(** [self.clock.now()], read before the lock is taken. *)
Definition clock_now : KTask Timestamp := look ks_now.

Definition use_live (topic : TopicId) (key_id : KeyId) (n : Z) (now : Timestamp) (s : Keys) : Keys * option Envelope :=
  match ks_live s !! topic with
  | Some entry => if usable entry key_id now then (seal_with topic entry n now s, Some (envelope entry)) else (s, None)
  | None => (s, None)
  end.

(** The section that follows the call: install, unless another task did, and
    seal; [true] when it was installed. *)
Definition install_live (topic : TopicId) (key_id : KeyId) (n : Z) (dek : Dek) (wrapped : WrappedKey) (now : Timestamp) (s : Keys)
    : Keys * (bool * Envelope) :=
  let fresh := mkLiveDek key_id wrapped dek now 0 in
  let '(installed, entry) :=
    match ks_live s !! topic with
    | Some entry => if usable entry key_id now then (false, entry) else (true, fresh)
    | None => (true, fresh)
    end in
  (seal_with topic entry n now s, (installed, envelope entry)).

Definition rotate_and_use (topic : TopicId) (key_id : KeyId) (n : Z) : KTask (Res Envelope) :=
  do! minted := section (fun s => (drawn s, mint_dek (ks_draws s))) in
  match minted with
  | Ok dek =>
      do! wrapped := section (fun s => (called s, wrap (ks_calls s) key_id dek)) in
      match wrapped with
      | Ok wrapped =>
          do! now := clock_now in
          do! (installed, sealed) := section (install_live topic key_id n dek wrapped now) in
          do! _ := (if (installed : bool) then
                      change (fun s => with_mints (<[topic := default 0 (ks_mints s !! topic) + 1]> (ks_mints s)) s)
                    else Ret tt) in
          Ret (Ok sealed)
      | Err e => Ret (Err e)
      | Panic => Ret Panic
      end
  | Err e => Ret (Err e)
  | Panic => Ret Panic
  end.

Definition with_live_dek (topic : TopicId) (key_id : KeyId) (n : Z) : KTask (Res Envelope) :=
  do! now := clock_now in
  do! used := section (use_live topic key_id n now) in
  match used with
  | Some sealed => Ret (Ok sealed)
  | None => rotate_and_use topic key_id n
  end.

Definition use_fresh (id : BlobId) (now : Timestamp) (s : Keys) : Keys * option Dek :=
  match ks_by_blob s !! id with
  | Some entry =>
      if fresh_at entry now then (open_with id entry now false s, Some (cd_dek entry))
      else (with_blobs (delete id (ks_by_blob s)) s, None)
  | None => (s, None)
  end.

Definition install_unwrapped (id : BlobId) (dek : Dek) (now : Timestamp) (s : Keys) : Keys * Dek :=
  let s := with_blobs (make_room now (ks_by_blob s)) s in
  let cached := mkCachedDek dek now 0 in
  let entry := match ks_by_blob s !! id with
               | Some entry => if fresh_at entry now then entry else cached
               | None => cached
               end in
  (open_with id entry now true s, cd_dek entry).

Definition fetch_and_use (key_id : KeyId) (wrapped : WrappedKey) : KTask (Res Dek) :=
  do! plaintext := section (fun s => (called s, unwrap (ks_calls s) key_id wrapped)) in
  match plaintext with
  | Ok raw =>
      do! now := clock_now in
      match Dek_from_slice raw with
      | Ok dek => do! opened := section (install_unwrapped (key_id, wrapped) dek now) in Ret (Ok opened)
      | Err e => Ret (Err e)
      | Panic => Ret Panic
      end
  | Err e => Ret (Err e)
  | Panic => Ret Panic
  end.

Definition with_dek (key_id : KeyId) (wrapped : WrappedKey) : KTask (Res Dek) :=
  do! now := clock_now in
  do! used := section (use_fresh (key_id, wrapped) now) in
  match used with
  | Some opened => Ret (Ok opened)
  | None => fetch_and_use key_id wrapped
  end.

(** ** The requests *)

Inductive KeyOp : Type :=
| OpSeal (topic : TopicId) (key_id : KeyId) (n : Z)
| OpOpen (key_id : KeyId) (wrapped : WrappedKey).
Inductive KeyAnswer : Type :=
| AnSealed (r : Res Envelope)
| AnOpened (r : Res Dek).

Definition keys_code (op : KeyOp) : KTask KeyAnswer :=
  match op with
  | OpSeal topic key_id n => do! r := with_live_dek topic key_id n in Ret (AnSealed r)
  | OpOpen key_id wrapped => do! r := with_dek key_id wrapped in Ret (AnOpened r)
  end.

(** The bytes are a [u64]; the clock may do anything. *)
Definition key_may_start (w : TWorld Keys KeyAnswer KeyOp) (i : nat) (op : KeyOp) : Prop :=
  match op with OpSeal _ _ n => 0 <= n <= u64_max | OpOpen _ _ => True end.
Definition key_ticks (s s' : Keys) : Prop := exists now, s' = with_clock now s.

Definition kstep := twstep keys_code (fun _ => True) key_may_start key_ticks.
End keys.

(** ** What is known of every interleaving *)

(** A key that was installed, with the call of the entropy source it is from, and
    a sealing by a task under one. *)
Record Gen : Type := mkGen {
  gn_draw : nat; gn_topic : TopicId; gn_key : KeyId; gn_dek : Dek; gn_wrapped : WrappedKey; gn_minted_at : Timestamp }.
Record Sealing : Type := mkSealing { sl_task : nat; sl_gen : nat; sl_bytes : Z; sl_at : Timestamp }.

(** The task of each call of the entropy source is known too. *)
Record KGhost : Type := mkKGhost {
  gh_draws : list nat;
  gh_gens : list Gen;
  gh_live : gmap TopicId nat;
  gh_seals : list Sealing;
}.

(** The bytes sealed under a key. *)
Definition sealed_under (n : nat) (seals : list Sealing) : Z :=
  sumZ (map sl_bytes (filter (fun s => sl_gen s = n) seals)).

(** When a sealing happened, its key was not worn out; the first under a key
    happened when it was minted. *)
Definition seal_ok (gens : list Gen) (before : list Sealing) (s : Sealing) : Prop :=
  exists gen, gens !! sl_gen s = Some gen /\ sealed_under (sl_gen s) before < DEK_MAX_SEALED_BYTES /\
    i64_saturating_sub (sl_at s) (gn_minted_at gen) < DEK_MAX_AGE_MS /\
    (sl_gen s ∉ map sl_gen before -> sl_at s = gn_minted_at gen).

Definition ledger_ok (gens : list Gen) (seals : list Sealing) : Prop :=
  forall before s after, seals = before ++ s :: after -> seal_ok gens before s.

(** An opening is by a key that was unwrapped for it, and not long ago. *)
Definition opened_ok (before : list Opened) (x : Opened) : Prop :=
  exists y, y ∈ before ++ [x] /\ od_called y = true /\ od_id y = od_id x /\ od_dek y = od_dek x /\
    i64_saturating_sub (od_at x) (od_at y) < UNWRAPPED_DEK_TTL_MS.

Definition opens_ok (opens : list Opened) : Prop :=
  forall before x after, opens = before ++ x :: after -> opened_ok before x.

Lemma sealed_under_app n l1 l2 : sealed_under n (l1 ++ l2) = sealed_under n l1 + sealed_under n l2.
Proof. unfold sealed_under. by rewrite filter_app, map_app, sumZ_app. Qed.

Lemma sealed_under_one n s : sealed_under n [s] = if decide (sl_gen s = n) then sl_bytes s else 0.
Proof. unfold sealed_under. rewrite filter_cons, filter_nil. case_decide; simpl; lia. Qed.

Lemma sealed_under_nonneg n l : Forall (fun s => 0 <= sl_bytes s) l -> 0 <= sealed_under n l.
Proof.
  intros Hl. unfold sealed_under. induction Hl as [|s l Hs _ IH]; [done|]. rewrite filter_cons. case_decide; simpl in *; [|done].
  unfold sumZ in *. simpl. lia.
Qed.

Lemma sealed_under_new n l : Forall (fun s => (sl_gen s < n)%nat) l -> sealed_under n l = 0.
Proof.
  intros Hl. unfold sealed_under. induction Hl as [|s l Hs _ IH]; [done|]. rewrite filter_cons, decide_False by lia. done.
Qed.

Lemma snoc_split {A} (l before after : list A) s x : l ++ [s] = before ++ x :: after ->
  (before = l /\ x = s /\ after = []) \/ exists after', l = before ++ x :: after'.
Proof.
  intros Heq. destruct (decide (after = [])) as [->|Hne].
  - apply app_inj_tail in Heq as [<- <-]. by left.
  - destruct (exists_last Hne) as (after' & y & ->). rewrite app_comm_cons, app_assoc in Heq. apply app_inj_tail in Heq as [-> _].
    right. by exists after'.
Qed.

Lemma ledger_ok_snoc gens more seals s : ledger_ok gens seals -> seal_ok (gens ++ more) seals s -> ledger_ok (gens ++ more) (seals ++ [s]).
Proof.
  intros Hl Hs before s' after [(-> & -> & _)|[after' Heq]]%snoc_split; [done|].
  destruct (Hl _ _ _ Heq) as (gen & Hg & Hrest). exists gen. split; [by apply lookup_app_l_Some|done].
Qed.

Lemma opens_ok_snoc opens x : opens_ok opens -> opened_ok opens x -> opens_ok (opens ++ [x]).
Proof. intros Ho Hx before x' after [(-> & -> & _)|[after' Heq]]%snoc_split; [done|by eapply Ho]. Qed.

(** *** Making room *)

Lemma least_used_Some entries : entries <> ∅ -> exists id, least_used entries = Some id /\ is_Some (entries !! id).
Proof.
  intros Hne. unfold least_used.
  assert (forall (l : list (BlobId * CachedDek)) best, (forall b, best = Some b -> is_Some (entries !! b.1)) ->
    (forall x, x ∈ l -> is_Some (entries !! x.1)) -> (best <> None \/ l <> []) ->
    exists b, foldl (fun best entry => match best with
      | Some b => if cd_last_used entry.2 <? cd_last_used b.2 then Some entry else best | None => Some entry end) best l = Some b /\
      is_Some (entries !! b.1)) as Hfold.
  { induction l as [|x l IH]; intros best Hb Hl Hor; simpl.
    - destruct best as [b|]; [|by destruct Hor]. exists b. auto.
    - apply IH; [|set_solver|left; destruct best; [by case_match|done]].
      intros b Heq. destruct best as [b0|]; [|injection Heq as <-; apply Hl; set_solver].
      case_match; injection Heq as <-; [apply Hl; set_solver|by apply Hb]. }
  destruct (Hfold (map_to_list entries) None) as (b & -> & Hb); [done| | |by exists b.1].
  - intros [id c] Hin%elem_of_map_to_list. by exists c.
  - right. by rewrite map_to_list_empty_iff.
Qed.

Lemma evict_least_used_spec fuel entries : (size entries <= fuel)%nat ->
  evict_least_used fuel entries ⊆ entries /\ (size (evict_least_used fuel entries) < UNWRAPPED_DEK_CACHE_ENTRIES)%nat.
Proof.
  revert entries. induction fuel as [|fuel IH]; intros entries Hs; cbn [evict_least_used].
  - split; [done|]. unfold UNWRAPPED_DEK_CACHE_ENTRIES. lia.
  - destruct (Nat.leb_spec UNWRAPPED_DEK_CACHE_ENTRIES (size entries)) as [Hge|Hlt]; [|by split].
    destruct (least_used_Some entries) as (id & -> & c & Hc).
    { intros ->. rewrite map_size_empty in Hge. unfold UNWRAPPED_DEK_CACHE_ENTRIES in Hge. lia. }
    assert (is_Some (entries !! id)) as Hsome by (by exists c). assert (size (delete id entries) = pred (size entries)) as Hd by (by apply map_size_delete_Some).
    destruct (IH (delete id entries)) as [Hsub Hsz]; [lia|]. split; [|done]. etrans; [exact Hsub|apply delete_subseteq].
Qed.

Lemma make_room_spec now entries :
  make_room now entries ⊆ entries /\ (size (make_room now entries) < UNWRAPPED_DEK_CACHE_ENTRIES)%nat.
Proof.
  unfold make_room. destruct (evict_least_used_spec (size (filter (fun entry => fresh_at entry.2 now = true) entries))
    (filter (fun entry => fresh_at entry.2 now = true) entries) (le_n _)) as [Hsub Hsz].
  split; [|done]. etrans; [exact Hsub|apply map_filter_subseteq].
Qed.

Section invariant.
Context `{KeyProvider} `{Entropy}.

Definition gen_of (draw : nat) (topic : TopicId) (e : LiveDek) : Gen :=
  mkGen draw topic (ld_key_id e) (ld_dek e) (ld_wrapped e) (ld_minted_at e).

(** What the closure of a sealing was run on. *)
Definition logged (gens : list Gen) (x : Sealed) (s : Sealing) : Prop :=
  exists gen, gens !! sl_gen s = Some gen /\
    x = mkSealed (gn_topic gen) (gn_key gen) (gn_dek gen) (gn_wrapped gen) (sl_bytes s) (sl_at s).

Definition gen_ok (gen : Gen) : Prop :=
  fill (gn_draw gen) = Ok (gn_dek gen) /\ exists m, wrap m (gn_key gen) (gn_dek gen) = Ok (gn_wrapped gen).

(** An opening that called the service is by what it unwrapped. *)
Definition call_ok (y : Opened) : Prop :=
  od_called y = true -> exists m, unwrap m (od_id y).1 (od_id y).2 = Ok (od_dek y).

Record kinv (s : Keys) (g : KGhost) (ops : gmap nat KeyOp) : Prop := {
  ki_live : forall topic e, ks_live s !! topic = Some e -> exists k draw, gh_live g !! topic = Some k /\
    gh_gens g !! k = Some (gen_of draw topic e) /\ k ∈ map sl_gen (gh_seals g) /\
    ld_sealed_bytes e = Z.min (sealed_under k (gh_seals g)) u64_max;
  ki_gens : Forall gen_ok (gh_gens g);
  ki_draws : NoDup (map gn_draw (gh_gens g));
  ki_drawn : length (gh_draws g) = ks_draws s;
  ki_below : Forall (fun gen => (gn_draw gen < ks_draws s)%nat) (gh_gens g);
  ki_ledger : ledger_ok (gh_gens g) (gh_seals g);
  ki_logged : Forall2 (logged (gh_gens g)) (ks_sealed s) (gh_seals g);
  ki_bytes : Forall (fun x => 0 <= sl_bytes x) (gh_seals g);
  ki_tasks : NoDup (map sl_task (gh_seals g));
  ki_ops : Forall (fun x => is_Some (ops !! sl_task x)) (gh_seals g);
  ki_blobs : forall id c, ks_by_blob s !! id = Some c ->
    exists y, y ∈ ks_opened s /\ od_called y = true /\ od_id y = id /\ od_dek y = cd_dek c /\ od_at y = cd_unwrapped_at c;
  ki_calls : Forall call_ok (ks_opened s);
  ki_opens : opens_ok (ks_opened s);
  ki_size : (size (ks_by_blob s) <= UNWRAPPED_DEK_CACHE_ENTRIES)%nat;
}.

Definition KView : Type := TView Keys KGhost KeyOp.
Definition key_inv (v : KView) : Prop := kinv (tv_state v) (tv_ghost v) (tv_ops v).

Definition ghost_grows (g g' : KGhost) : Prop :=
  gh_draws g `prefix_of` gh_draws g' /\ gh_gens g `prefix_of` gh_gens g' /\ gh_seals g `prefix_of` gh_seals g'.

Definition key_grows (v v' : KView) : Prop :=
  ghost_grows (tv_ghost v) (tv_ghost v') /\ ks_opened (tv_state v) `prefix_of` ks_opened (tv_state v').

Notation tasks_of g := (map sl_task (gh_seals g)).
Notation used_draws g := (map gn_draw (gh_gens g)).

(** The others seal nothing as task [i], and install nothing it has drawn. *)
Definition leaves_alone (i : nat) (g g' : KGhost) : Prop :=
  (i ∉ tasks_of g -> i ∉ tasks_of g') /\
  (forall d, gh_draws g !! d = Some i -> d ∉ used_draws g -> d ∉ used_draws g').

Definition key_rely (i : nat) (v v' : KView) : Prop :=
  key_grows v v' /\ (is_Some (tv_ops v !! i) -> is_Some (tv_ops v' !! i)) /\ leaves_alone i (tv_ghost v) (tv_ghost v').

Definition sealed_as (i : nat) (topic : TopicId) (key : KeyId) (n : Z) (e : Envelope) (g : KGhost) : Prop :=
  exists s gen, s ∈ gh_seals g /\ sl_task s = i /\ sl_bytes s = n /\ gh_gens g !! sl_gen s = Some gen /\
    gn_topic gen = topic /\ gn_key gen = key /\ e = (gn_dek gen, key, gn_wrapped gen).

Definition opened_as (id : BlobId) (dek : Dek) (s : Keys) : Prop := exists o, o ∈ ks_opened s /\ od_id o = id /\ od_dek o = dek.

Definition key_means (i : nat) (op : KeyOp) (a : KeyAnswer) (v : KView) : Prop :=
  match op, a with
  | OpSeal topic key n, AnSealed (Ok e) => sealed_as i topic key n e (tv_ghost v)
  | OpOpen key wrapped, AnOpened (Ok dek) => opened_as (key, wrapped) dek (tv_state v)
  | _, _ => True
  end.

Lemma usable_spec e key now : usable e key now = true ->
  ld_key_id e = key /\ ld_sealed_bytes e < DEK_MAX_SEALED_BYTES /\ i64_saturating_sub now (ld_minted_at e) < DEK_MAX_AGE_MS.
Proof. unfold usable. rewrite !andb_true_iff, bool_decide_eq_true, !Z.ltb_lt. naive_solver. Qed.

Lemma fresh_usable key wrapped dek now : usable (mkLiveDek key wrapped dek now 0) key now = true.
Proof.
  unfold usable. simpl. rewrite bool_decide_eq_true_2 by done. unfold i64_saturating_sub. by rewrite Z.sub_diag.
Qed.

Definition seals_more (topic : TopicId) (k : nat) (more : list Gen) (x : Sealing) (g : KGhost) : KGhost :=
  mkKGhost (gh_draws g) (gh_gens g ++ more) (<[topic := k]> (gh_live g)) (gh_seals g ++ [x]).

Lemma ledger_lt gens seals : ledger_ok gens seals -> Forall (fun x => (sl_gen x < length gens)%nat) seals.
Proof.
  intros Hl. apply Forall_forall. intros x (before & after & Hx)%list_elem_of_split. destruct (Hl _ _ _ Hx) as (gen & Hg & _).
  by apply lookup_lt_Some in Hg.
Qed.

(** A usable key is sealed with, one that was live or one of [more]. *)
Lemma kinv_seal s g ops i topic key k draw e more n now :
  kinv s g ops -> (gh_gens g ++ more) !! k = Some (gen_of draw topic e) ->
  ld_sealed_bytes e = Z.min (sealed_under k (gh_seals g)) u64_max -> usable e key now = true -> 0 <= n ->
  (k ∉ map sl_gen (gh_seals g) -> now = ld_minted_at e) ->
  Forall gen_ok more -> NoDup (map gn_draw (gh_gens g ++ more)) -> Forall (fun gen => (gn_draw gen < ks_draws s)%nat) more ->
  is_Some (ops !! i) -> i ∉ tasks_of g ->
  let g' := seals_more topic k more (mkSealing i k n now) g in
  kinv (seal_with topic e n now s) g' ops /\ sealed_as i topic key n (envelope e) g'.
Proof.
  intros Hi Hgen Hsum (Hkey & Hbytes & Hage)%usable_spec Hn Hfirst Hmore Hdraws Hbelow Hop Hnew. cbv zeta.
  assert (sealed_under k (gh_seals g) < DEK_MAX_SEALED_BYTES) as Hlt.
  { rewrite Hsum in Hbytes. unfold DEK_MAX_SEALED_BYTES, u64_max in *. lia. }
  split.
  - split; simpl; try apply Hi; try done.
    + intros topic' e' [(<- & <-)|(Hne & He')]%lookup_insert_Some.
      * exists k, draw. rewrite lookup_insert_eq. split_and!; [done..|rewrite map_app; set_solver|].
        simpl. rewrite Hsum, sealed_under_app, sealed_under_one, decide_True by done.
        pose proof (sealed_under_nonneg k _ (ki_bytes _ _ _ Hi)). unfold u64_saturating_add. simpl. lia.
      * destruct (ki_live _ _ _ Hi _ _ He') as (k' & draw' & Hk' & Hgen' & Hin' & Hsum'). exists k', draw'.
        rewrite lookup_insert_ne by done. apply (lookup_app_l_Some _ more) in Hgen'.
        split_and!; try done; [rewrite map_app; set_solver|].
        rewrite sealed_under_app, sealed_under_one, decide_False, Z.add_0_r; [done|]. simpl. intros <-.
        rewrite Hgen in Hgen'. unfold gen_of in Hgen'. congruence.
    + apply Forall_app. split; [apply Hi|done].
    + apply Forall_app. split; [apply Hi|done].
    + apply ledger_ok_snoc; [apply Hi|]. by exists (gen_of draw topic e).
    + apply Forall2_app.
      * eapply Forall2_impl; [apply Hi|]. intros x y (gen & Hg & ->). exists gen. split; [by apply lookup_app_l_Some|done].
      * repeat constructor. by exists (gen_of draw topic e).
    + apply Forall_app. split; [apply Hi|by repeat constructor].
    + rewrite map_app. simpl. apply NoDup_app. split_and!; [apply Hi|set_solver|apply NoDup_singleton].
    + apply Forall_app. split; [apply Hi|by repeat constructor].
  - exists (mkSealing i k n now), (gen_of draw topic e). split; [apply elem_of_app; right; apply list_elem_of_here|]. simpl.
    split_and!; try done. unfold envelope. by rewrite Hkey.
Qed.

Lemma kinv_use s g ops i topic key e n now :
  kinv s g ops -> ks_live s !! topic = Some e -> usable e key now = true -> 0 <= n -> is_Some (ops !! i) -> i ∉ tasks_of g ->
  exists k, let g' := seals_more topic k [] (mkSealing i k n now) g in
    kinv (seal_with topic e n now s) g' ops /\ sealed_as i topic key n (envelope e) g'.
Proof.
  intros Hi He Hu Hn Hop Hnew. destruct (ki_live _ _ _ Hi _ _ He) as (k & draw & Hk & Hgen & Hin & Hsum). exists k.
  apply (kinv_seal s g ops i topic key k draw e [] n now); try done; rewrite ?app_nil_r; [done|apply Hi].
Qed.

(** A new key takes the place of what was live, and is sealed with. *)
Lemma kinv_install s g ops i topic key dek wrapped m d n now :
  kinv s g ops -> fill d = Ok dek -> wrap m key dek = Ok wrapped -> d ∉ used_draws g -> (d < ks_draws s)%nat -> 0 <= n ->
  is_Some (ops !! i) -> i ∉ tasks_of g ->
  let e := mkLiveDek key wrapped dek now 0 in
  let g' := seals_more topic (length (gh_gens g)) [gen_of d topic e] (mkSealing i (length (gh_gens g)) n now) g in
  kinv (seal_with topic e n now s) g' ops /\ sealed_as i topic key n (envelope e) g'.
Proof.
  intros Hi Hf Hw Hd Hlt Hn Hop Hnew. cbv zeta. apply (kinv_seal s g ops i topic key _ d); try done.
  - by apply list_lookup_middle.
  - simpl. rewrite sealed_under_new; [done|]. by apply ledger_lt, Hi.
  - apply fresh_usable.
  - repeat constructor; [exact Hf|]. by exists m.
  - rewrite map_app. simpl. apply NoDup_app. split_and!; [apply Hi|set_solver|apply NoDup_singleton].
  - by repeat constructor.
Qed.

(** *** Openings *)

Lemma kinv_blobs s g ops by_blob :
  kinv s g ops -> by_blob ⊆ ks_by_blob s -> (size by_blob <= UNWRAPPED_DEK_CACHE_ENTRIES)%nat -> kinv (with_blobs by_blob s) g ops.
Proof. intros Hi Hb Hs. split; simpl; try apply Hi; [|done]. intros id c Hc. apply Hi. by eapply lookup_weaken. Qed.

(** A cached key, or one just unwrapped, is opened with. *)
Lemma kinv_open s g ops id c now service :
  kinv s g ops -> (size (<[id := c]> (ks_by_blob s)) <= UNWRAPPED_DEK_CACHE_ENTRIES)%nat -> fresh_at c now = true ->
  (ks_by_blob s !! id = Some c \/ service = true /\ cd_unwrapped_at c = now) ->
  (service = true -> exists m, unwrap m id.1 id.2 = Ok (cd_dek c)) ->
  kinv (open_with id c now service s) g ops.
Proof.
  intros Hi Hs Hf Hc Hcall. set (x := mkOpened id (cd_dek c) now service).
  assert (exists y, y ∈ ks_opened s ++ [x] /\ od_called y = true /\ od_id y = id /\ od_dek y = cd_dek c /\ od_at y = cd_unwrapped_at c) as Hy.
  { destruct Hc as [Hc|[-> Hat]].
    - destruct (ki_blobs _ _ _ Hi _ _ Hc) as (y & Hy & Hrest). exists y. split; [set_solver|done].
    - exists x. split; [apply elem_of_app; right; apply list_elem_of_here|done]. }
  split; simpl; try apply Hi.
  - intros id' c' [(<- & <-)|(_ & Hc')]%lookup_insert_Some; [exact Hy|].
    destruct (ki_blobs _ _ _ Hi _ _ Hc') as (y & Hin & Hrest). exists y. split; [set_solver|done].
  - apply Forall_app. split; [apply Hi|]. by repeat constructor.
  - apply opens_ok_snoc; [apply Hi|]. destruct Hy as (y & Hin & Hcl & Hid & Hd & Hat). exists y. split_and!; try done.
    rewrite Hat. by apply Z.ltb_lt.
  - by rewrite !map_size_insert in *.
Qed.

Lemma opened_with id c now service s : opened_as id (cd_dek c) (open_with id c now service s).
Proof. eexists. split; [apply elem_of_app; right; apply list_elem_of_here|done]. Qed.

Lemma kinv_use_fresh s g ops id now : kinv s g ops ->
  kinv (use_fresh id now s).1 g ops /\ from_option (fun dek => opened_as id dek (use_fresh id now s).1) True (use_fresh id now s).2.
Proof.
  intros Hi. unfold use_fresh. destruct (ks_by_blob s !! id) as [c|] eqn:Hc; [|done]. destruct (fresh_at c now) eqn:Hf; simpl.
  - split; [|apply opened_with]. apply kinv_open; try done; [|by left]. rewrite map_size_insert_Some by by eexists. apply Hi.
  - split; [|done]. apply kinv_blobs; [done|apply delete_subseteq|].
    etrans; [|apply (ki_size _ _ _ Hi)]. apply map_subseteq_size, delete_subseteq.
Qed.

Lemma kinv_install_unwrapped s g ops id m raw dek now :
  kinv s g ops -> unwrap m id.1 id.2 = Ok raw -> Dek_from_slice raw = Ok dek ->
  kinv (install_unwrapped id dek now s).1 g ops /\ opened_as id (install_unwrapped id dek now s).2 (install_unwrapped id dek now s).1.
Proof.
  intros Hi Hu Hd. unfold install_unwrapped. destruct (make_room_spec now (ks_by_blob s)) as [Hsub Hsz]. cbv zeta. simpl ks_by_blob.
  assert (raw = dek) as -> by (unfold Dek_from_slice in Hd; by case_match; [injection Hd|]).
  split; [|apply opened_with]. apply kinv_open.
  - apply kinv_blobs; [done|done|lia].
  - simpl. rewrite map_size_insert. case_match; simpl; lia.
  - case_match; [|unfold fresh_at, i64_saturating_sub; simpl; by rewrite Z.sub_diag].
    case_match; [done|]. unfold fresh_at, i64_saturating_sub. simpl. by rewrite Z.sub_diag.
  - simpl. destruct (make_room now (ks_by_blob s) !! id) as [c|] eqn:Hc; [|by right]. destruct (fresh_at c now); [by left|by right].
  - intros _. destruct (make_room now (ks_by_blob s) !! id) as [c|] eqn:Hc; [|by exists m]. destruct (fresh_at c now); [|by exists m].
    destruct (ki_blobs _ _ _ Hi _ _ (lookup_weaken _ _ _ _ Hc Hsub)) as (y & Hy & Hcl & <- & <- & _).
    pose proof (ki_calls _ _ _ Hi) as Hcalls. rewrite Forall_forall in Hcalls. by apply (Hcalls y).
Qed.

(** *** The tasks *)

Notation ksafe := (tsafe (fun _ => True) key_inv key_rely key_grows).
Notation kgoes := (tgoes key_inv key_rely key_grows).

#[local] Instance ghost_grows_preorder : PreOrder ghost_grows.
Proof. split; [by intros g|]. intros g1 g2 g3 (? & ? & ?) (? & ? & ?). split_and!; by etrans. Qed.

#[local] Instance key_grows_preorder : PreOrder key_grows.
Proof. split; [by intros v|]. intros v1 v2 v3 [] []. split; by etrans. Qed.

Lemma key_rely_refl i v : key_rely i v v.
Proof. done. Qed.

Lemma key_rely_trans i v1 v2 v3 : key_rely i v1 v2 -> key_rely i v2 v3 -> key_rely i v1 v3.
Proof.
  intros (H1 & H2 & H3 & H4) (H5 & H6 & H7 & H8). split_and!; [by etrans|by auto|]. split; [by auto|].
  intros d Hd Hn. apply H8; [|by apply H4]. destruct H1 as [(Hp & _) _]. by eapply prefix_lookup_Some.
Qed.

(** A task that has not sealed yet, and one that has drawn a key besides. *)
Definition ready (i : nat) (v : KView) : Prop := is_Some (tv_ops v !! i) /\ i ∉ tasks_of (tv_ghost v).
Definition holds_draw (i d : nat) (v : KView) : Prop :=
  ready i v /\ gh_draws (tv_ghost v) !! d = Some i /\ d ∉ used_draws (tv_ghost v).

Lemma ready_rely i v v' : key_rely i v v' -> ready i v -> ready i v'.
Proof. intros (_ & Ho & Ht & _) []. split; auto. Qed.

Lemma holds_draw_rely i d v v' : key_rely i v v' -> holds_draw i d v -> holds_draw i d v'.
Proof.
  intros Hr (Hready & Hd & Hn). split_and!; [by eapply ready_rely| |].
  - destruct Hr as [[(Hp & _) _] _]. by eapply prefix_lookup_Some.
  - destruct Hr as (_ & _ & _ & Ha). by apply Ha.
Qed.

Lemma key_goes i v s' g' (Q : KView -> Prop) :
  kinv s' g' (tv_ops v) -> ghost_grows (tv_ghost v) g' -> ks_opened (tv_state v) `prefix_of` ks_opened s' ->
  (forall j, j <> i -> leaves_alone j (tv_ghost v) g') ->
  Q (mkTView s' g' (tv_ops v)) -> kgoes i v s' Q.
Proof. intros Hi Hg Hp Ht HQ. exists g'. split_and!; try done. intros j Hj. split_and!; [done|done|]. by apply Ht. Qed.

(** A section that does not touch the ghost. *)
Lemma key_goes_same i v s' (Q : KView -> Prop) :
  kinv s' (tv_ghost v) (tv_ops v) -> ks_opened (tv_state v) `prefix_of` ks_opened s' ->
  Q (mkTView s' (tv_ghost v) (tv_ops v)) -> kgoes i v s' Q.
Proof. intros Hi Hp HQ. by apply (key_goes i v s' (tv_ghost v)). Qed.

Lemma key_goes_look i v (Q : KView -> Prop) : key_inv v -> Q v -> kgoes i v (tv_state v) Q.
Proof. intros Hi HQ. apply key_goes_same; [done|done|by destruct v]. Qed.

Lemma key_goes_called i v (Q : KView -> Prop) :
  key_inv v -> Q (mkTView (called (tv_state v)) (tv_ghost v) (tv_ops v)) -> kgoes i v (called (tv_state v)) Q.
Proof. intros [] HQ. apply key_goes_same; [by split|done|done]. Qed.

Lemma grows_seals topic k more x g : ghost_grows g (seals_more topic k more x g).
Proof. split_and!; simpl; try done; by apply prefix_app_r. Qed.

Lemma others_use topic i k n now g j : j <> i -> leaves_alone j g (seals_more topic k [] (mkSealing i k n now) g).
Proof.
  intros Hj. split; simpl; [|by rewrite app_nil_r]. rewrite map_app, elem_of_app. simpl. rewrite list_elem_of_singleton. naive_solver.
Qed.

Lemma others_install topic i k gen n now g j : gh_draws g !! gn_draw gen = Some i -> j <> i ->
  leaves_alone j g (seals_more topic k [gen] (mkSealing i k n now) g).
Proof.
  intros Hd Hj. split; simpl; rewrite ?map_app; simpl.
  - rewrite elem_of_app, list_elem_of_singleton. naive_solver.
  - intros d Hd' Hn. rewrite elem_of_app, list_elem_of_singleton. intros [Hin | ->]; [done|]. congruence.
Qed.

(** The key that is live is sealed with. *)
Lemma use_safe i v topic key e n now :
  key_inv v -> ready i v -> 0 <= n -> ks_live (tv_state v) !! topic = Some e -> usable e key now = true ->
  kgoes i v (seal_with topic e n now (tv_state v)) (fun v' => sealed_as i topic key n (envelope e) (tv_ghost v')).
Proof.
  intros Hi [Hop Hnew] Hn He Hu. destruct (kinv_use _ _ _ i topic key e n now Hi He Hu Hn Hop Hnew) as (k & Hi' & Hs).
  eapply key_goes; [exact Hi'|apply grows_seals|done|intros j; apply others_use|exact Hs].
Qed.

(** The section that seals, with the key that is live or one to install. *)
Lemma install_live_safe i v topic key n dek wrapped m d now :
  key_inv v -> holds_draw i d v -> 0 <= n -> fill d = Ok dek -> wrap m key dek = Ok wrapped ->
  kgoes i v (install_live topic key n dek wrapped now (tv_state v)).1
    (fun v' => sealed_as i topic key n (install_live topic key n dek wrapped now (tv_state v)).2.2 (tv_ghost v')).
Proof.
  intros Hi (Hready & Hd & Hnd) Hn Hf Hw. pose proof Hready as [Hop Hnew]. unfold install_live.
  set (fresh := mkLiveDek key wrapped dek now 0).
  assert (d < ks_draws (tv_state v))%nat as Hlt by (rewrite <-(ki_drawn _ _ _ Hi); by eapply lookup_lt_Some).
  assert (kgoes i v (seal_with topic fresh n now (tv_state v)) (fun v' => sealed_as i topic key n (envelope fresh) (tv_ghost v'))) as Hinstall.
  { destruct (kinv_install _ _ _ i topic key dek wrapped m d n now Hi Hf Hw Hnd Hlt Hn Hop Hnew) as [Hi' Hs].
    eapply key_goes; [exact Hi'|apply grows_seals|done|intros j; by apply others_install|exact Hs]. }
  destruct (ks_live (tv_state v) !! topic) as [e|] eqn:He; [|exact Hinstall].
  destruct (usable e key now) eqn:Hu; [by apply use_safe|exact Hinstall].
Qed.

(** A draw is its task's own. *)
Lemma drawn_safe i v : key_inv v -> ready i v ->
  kgoes i v (drawn (tv_state v)) (fun v' => holds_draw i (ks_draws (tv_state v)) v').
Proof.
  intros Hi Hready. set (g := tv_ghost v). pose proof (ki_drawn _ _ _ Hi) as Hlen. fold g in Hlen.
  pose proof (ki_below _ _ _ Hi) as Hb. fold g in Hb.
  apply (key_goes _ _ _ (mkKGhost (gh_draws g ++ [i]) (gh_gens g) (gh_live g) (gh_seals g))); [| |done|done|].
  - destruct Hi. split; simpl; try done; [rewrite length_app; simpl; lia|]. eapply Forall_impl; [exact Hb|]. simpl. lia.
  - split_and!; simpl; try done. by apply prefix_app_r.
  - split_and!; [exact Hready|simpl; rewrite <-Hlen; by apply list_lookup_middle|]. simpl.
    intros (gen & Heq & Hin)%list_elem_of_fmap. rewrite Forall_forall in Hb. specialize (Hb gen Hin). simpl in Hb. lia.
Qed.

Lemma sealed_as_grows i topic key n e g g' : ghost_grows g g' -> sealed_as i topic key n e g -> sealed_as i topic key n e g'.
Proof.
  intros (_ & Hg & Hs) (x & gen & Hx & Ht & Hb & Hgen & Hrest). exists x, gen.
  split_and!; try done; [by eapply elem_of_prefix|by eapply prefix_lookup_Some|apply Hrest..].
Qed.

Lemma rotate_and_use_safe i topic key n v :
  ready i v -> 0 <= n ->
  ksafe i (rotate_and_use topic key n) (fun r v' => key_means i (OpSeal topic key n) (AnSealed r) v') v.
Proof.
  intros Hready Hn. unfold rotate_and_use. apply tsafe_bind, tsafe_section. intros v1 Hr1 Hi1.
  apply (ready_rely _ _ _ Hr1) in Hready. set (d := ks_draws (tv_state v1)). cbn [fst snd].
  eapply tgoes_mono; [|by apply drawn_safe]. fold d. intros v2 Hold2. clear Hr1 Hi1 Hready v. unfold mint_dek.
  destruct (fill d) as [dek|e|] eqn:Hf; [|done..].
  apply tsafe_bind, tsafe_section. intros v3 Hr3 Hi3. apply key_goes_called; [done|]. cbn [snd].
  destruct (wrap (ks_calls (tv_state v3)) key dek) as [wrapped|e|] eqn:Hw; [|done..].
  apply (holds_draw_rely _ _ _ _ Hr3) in Hold2.
  assert (holds_draw i d (mkTView (called (tv_state v3)) (tv_ghost v3) (tv_ops v3))) as Hold4 by exact Hold2.
  revert Hold4. generalize (mkTView (called (tv_state v3)) (tv_ghost v3) (tv_ops v3)). intros v4 Hold4.
  apply tsafe_bind, tsafe_section. intros v5 Hr5 Hi5. apply key_goes_look; [done|]. cbn [snd].
  apply (holds_draw_rely _ _ _ _ Hr5) in Hold4. apply tsafe_bind, tsafe_section. intros v6 Hr6 Hi6.
  eapply tgoes_mono; [|eapply install_live_safe; [done|by eapply holds_draw_rely|done|exact Hf|exact Hw]].
  destruct (install_live topic key n dek wrapped _ (tv_state v6)).2 as [installed e]. intros v7 Hs.
  apply tsafe_bind. destruct installed; [|exact Hs].
  apply tsafe_section. intros v8 Hr8 Hi8. apply key_goes_same; [destruct Hi8; by split|done|]. simpl.
  eapply sealed_as_grows; [|exact Hs]. apply Hr8.
Qed.

Lemma with_live_dek_safe i topic key n v :
  ready i v -> 0 <= n ->
  ksafe i (with_live_dek topic key n) (fun r v' => key_means i (OpSeal topic key n) (AnSealed r) v') v.
Proof.
  intros Hready Hn. unfold with_live_dek. apply tsafe_bind, tsafe_section. intros v1 Hr1 Hi1. apply key_goes_look; [done|]. cbn [snd].
  apply (ready_rely _ _ _ Hr1) in Hready. apply tsafe_bind, tsafe_section. intros v2 Hr2 Hi2.
  apply (ready_rely _ _ _ Hr2) in Hready. unfold use_live. set (now := ks_now _).
  destruct (ks_live (tv_state v2) !! topic) as [e|] eqn:He; [destruct (usable _ _ _) eqn:Hu|].
  2,3: apply key_goes_look; [done|]; by apply rotate_and_use_safe.
  by apply use_safe.
Qed.

Lemma with_dek_safe i key wrapped v :
  ksafe i (with_dek key wrapped) (fun r v' => key_means i (OpOpen key wrapped) (AnOpened r) v') v.
Proof.
  unfold with_dek. apply tsafe_bind, tsafe_section. intros v1 _ Hi1. apply key_goes_look; [done|]. cbn [snd].
  apply tsafe_bind, tsafe_section. intros v2 _ Hi2. set (now := ks_now _).
  destruct (kinv_use_fresh _ _ _ (key, wrapped) now Hi2) as [Hi2' Ho].
  apply key_goes_same; [exact Hi2'|unfold use_fresh; repeat case_match; simpl; try done; by apply prefix_app_r|].
  destruct (use_fresh (key, wrapped) now (tv_state v2)) as [s' [dek|]]; cbn [fst snd]; [exact Ho|]. unfold fetch_and_use.
  apply tsafe_bind, tsafe_section. intros v3 _ Hi3. apply key_goes_called; [done|]. cbn [snd].
  destruct (unwrap (ks_calls (tv_state v3)) key wrapped) as [raw|e|] eqn:Hraw; [|done..].
  apply tsafe_bind, tsafe_section. intros v4 _ Hi4. apply key_goes_look; [done|]. cbn [snd].
  destruct (Dek_from_slice raw) as [dek|e|] eqn:Hd; [|done..].
  apply tsafe_bind, tsafe_section. intros v5 _ Hi5.
  destruct (kinv_install_unwrapped _ _ _ (key, wrapped) _ _ _ (ks_now (tv_state v4)) Hi5 Hraw Hd) as [Hi6 Ho6].
  apply key_goes_same; [exact Hi6|by apply prefix_app_r|exact Ho6].
Qed.

Lemma key_means_grows i op a v v' : key_grows v v' -> key_means i op a v -> key_means i op a v'.
Proof.
  intros [Hg Ho]. destruct op as [topic key n|key wrapped], a as [[e| |]|[dek| |]]; try done; simpl.
  - by apply sealed_as_grows.
  - intros (o & Hin & Hrest). exists o. split; [by eapply elem_of_prefix|done].
Qed.

Lemma key_obligations :
  TObligations (fun _ => True) key_inv key_rely key_grows keys_code key_may_start key_ticks key_means.
Proof.
  split.
  - by intros i v v' [].
  - intros i o a v v'. apply key_means_grows.
  - intros w i op g Hm Hnone [Hinv _]. exists g. cbv zeta.
    set (v' := mkTView (tw_state w) g (<[i := op]> (fst <$> tw_tasks w))).
    assert (key_inv v') as Hinv'.
    { destruct Hinv. split; try done. simpl. eapply Forall_impl; [exact ki_ops0|]. intros x Hx. simpl in Hx.
      destruct (decide (sl_task x = i)) as [->|]; [by rewrite lookup_insert_eq|by rewrite lookup_insert_ne]. }
    assert (i ∉ tasks_of g) as Hnew.
    { intros (x & -> & Hx)%list_elem_of_fmap. pose proof (ki_ops _ _ _ Hinv) as Ho. rewrite Forall_forall in Ho.
      destruct (Ho x Hx) as [o Ho']. simpl in Ho'. by rewrite lookup_fmap, Hnone in Ho'. }
    split_and!; [done|done| |].
    + intros j Hj. split_and!; [done| |done]. simpl. by rewrite lookup_insert_ne.
    + assert (ready i v') as Hready by (split; [simpl; by rewrite lookup_insert_eq|done]).
      destruct op as [topic key n|key wrapped]; cbn [keys_code]; apply tsafe_bind.
      * eapply tsafe_mono; [apply with_live_dek_safe; [done|by destruct Hm]|done].
      * eapply tsafe_mono; [apply with_dek_safe|done].
  - intros v s' Hinv [now ->]. cbv zeta. split_and!; [|done|done]. destruct Hinv. by split.
Qed.

(** Every state the caches reach, and every answer. *)
Lemma keys_reachable now w : rtc kstep (mkTWorld (Keys_new now) ∅) w ->
  exists g, key_inv (tview w g) /\
    forall i op a, tw_tasks w !! i = Some (op, Ret a) -> key_means i op a (tview w g).
Proof.
  intros Hr.
  assert (tworld_safe (fun _ => True) key_inv key_rely key_grows key_means (mkTWorld (Keys_new now) ∅) (mkKGhost [] [] ∅ [])) as Hinit.
  { split; [|done]. split; simpl; try done; try constructor; [by intros [] ? ?|by intros [] ? ?|]. rewrite map_size_empty. lia. }
  destruct (treachable_safe _ _ _ _ key_rely_refl key_rely_trans keys_code key_may_start key_ticks key_means
    key_obligations _ w _ Hinit Hr) as (g & Hi & Ht).
  exists g. split; [exact Hi|]. intros i op a Ha. exact (Ht i op _ Ha).
Qed.
End invariant.

(** ** Claims *)

Section claims.
Context `{KeyProvider} `{Entropy} {entropy_laws : EntropyLaws}.

Lemma same_gen gens k k' gen gen' :
  Forall gen_ok gens -> NoDup (map gn_draw gens) -> gens !! k = Some gen -> gens !! k' = Some gen' ->
  gn_dek gen = gn_dek gen' -> k = k'.
Proof.
  intros Hok Hnd Hk Hk' Hdek. rewrite Forall_lookup in Hok. destruct (Hok _ _ Hk) as [Hf _]. destruct (Hok _ _ Hk') as [Hf' _].
  rewrite Hdek in Hf. pose proof (fill_fresh _ _ _ Hf Hf') as Hd.
  apply (NoDup_lookup _ k k' (gn_draw gen) Hnd); [|rewrite Hd]; by apply list_lookup_fmap_Some_2.
Qed.

(** The log counts what the ledger counts. *)
Lemma logged_sum gens k gen log seals :
  Forall gen_ok gens -> NoDup (map gn_draw gens) -> gens !! k = Some gen -> Forall2 (logged gens) log seals ->
  sumZ (map sd_bytes (filter (fun y => sd_dek y = gn_dek gen) log)) = sealed_under k seals.
Proof.
  intros Hok Hnd Hk Hl. unfold sealed_under. induction Hl as [|x s log seals (gen' & Hg' & ->) _ IH]; [done|].
  rewrite !filter_cons. simpl. destruct (decide (sl_gen s = k)) as [<-|Hne].
  - rewrite Hk in Hg'. injection Hg' as <-. rewrite decide_True by done. simpl. unfold sumZ in *. simpl. lia.
  - rewrite decide_False; [done|]. intros Heq. apply Hne. by eapply same_gen.
Qed.

Lemma logged_first gens k gen log seals :
  Forall gen_ok gens -> NoDup (map gn_draw gens) -> gens !! k = Some gen -> Forall2 (logged gens) log seals ->
  gn_dek gen ∉ map sd_dek log -> k ∉ map sl_gen seals.
Proof.
  intros Hok Hnd Hk Hl Hn (s & -> & Hs)%list_elem_of_fmap. apply Hn.
  apply list_elem_of_lookup in Hs as [p Hp]. destruct (Forall2_lookup_r _ _ _ _ _ Hl Hp) as (x & Hx & gen' & Hg' & ->).
  rewrite Hk in Hg'. injection Hg' as <-. apply list_elem_of_fmap. eexists. split; [|by eapply list_elem_of_lookup_2]. done.
Qed.

(** C30. A data key is retired in time.  However sealings, openings and calls
    of the key service interleave, and whatever the clock does: when a sealing
    was run, less than 64 GiB had been sealed under its key before, the time
    read for it was less than seven days after the time of the first sealing
    under that key, and the earlier sealings under the key were for the same
    topic and key id.  Every answered request sealed exactly once, what it was
    answered. *)
Theorem data_keys_retire now w : rtc kstep (mkTWorld (Keys_new now) ∅) w ->
  (forall before x after, ks_sealed (tw_state w) = before ++ x :: after ->
    sumZ (map sd_bytes (filter (fun y => sd_dek y = sd_dek x) before)) < DEK_MAX_SEALED_BYTES /\
    (forall b1 first b2, before ++ [x] = b1 ++ first :: b2 -> sd_dek first = sd_dek x -> sd_dek x ∉ map sd_dek b1 ->
      i64_saturating_sub (sd_at x) (sd_at first) < DEK_MAX_AGE_MS) /\
    (forall y, y ∈ before -> sd_dek y = sd_dek x ->
      (sd_topic y, sd_key y, sd_wrapped y) = (sd_topic x, sd_key x, sd_wrapped x))) /\
  exists tasks, NoDup tasks /\ length tasks = length (ks_sealed (tw_state w)) /\
    forall i topic key n dek kid wrapped,
      tw_tasks w !! i = Some (OpSeal topic key n, Ret (AnSealed (Ok (dek, kid, wrapped)))) ->
      kid = key /\ exists p at_, tasks !! p = Some i /\
        ks_sealed (tw_state w) !! p = Some (mkSealed topic key dek wrapped n at_).
Proof.
  intros Hr. destruct (keys_reachable _ _ Hr) as (g & Hi & Ht). pose proof (ki_logged _ _ _ Hi) as Hlog. simpl in Hlog.
  pose proof (ki_gens _ _ _ Hi) as Hok. pose proof (ki_draws _ _ _ Hi) as Hnd. simpl in Hok, Hnd. split.
  - intros before x after Heq. rewrite Heq in Hlog. apply Forall2_app_inv_l in Hlog as (sb & rest & Hsb & Hrest & Hs).
    inversion Hrest as [|? s ? sa Hx Hsa]; subst rest. destruct Hx as (gen & Hg & ->). simpl.
    destruct (ki_ledger _ _ _ Hi _ _ _ Hs) as (gen' & Hg' & Hsum & Hage & _). simpl in Hg'. rewrite Hg in Hg'. injection Hg' as <-.
    split_and!; [by erewrite logged_sum| |].
    + intros b1 first b2 Hb Hdek Hfirst. assert (Forall2 (logged (gh_gens g)) (b1 ++ first :: b2) (sb ++ [s])) as Hall.
      { rewrite <-Hb. apply Forall2_app; [done|]. repeat constructor. by exists gen. }
      apply Forall2_app_inv_l in Hall as (s1 & rest & Hs1 & Hrest1 & Hsplit). inversion Hrest1 as [|? s0 ? s2 H0' H2']; subst rest.
      destruct H0' as (gen0 & Hg0 & ->). simpl in *. assert (sl_gen s0 = sl_gen s) as Hk by (by eapply same_gen).
      destruct (ki_ledger _ _ _ Hi s1 s0 (s2 ++ sa)) as (gen1 & Hg1 & _ & _ & Hat).
      { simpl. rewrite Hs, app_comm_cons, app_assoc, <-Hsplit, <-app_assoc. done. }
      simpl in Hg1. rewrite Hk, Hg in Hg1. injection Hg1 as <-. rewrite Hat; [done|]. rewrite Hk. by eapply logged_first.
    + intros y (p & Hp)%list_elem_of_lookup Hdek. destruct (Forall2_lookup_l _ _ _ _ _ Hsb Hp) as (s' & _ & gen' & Hg' & ->). simpl in *.
      assert (sl_gen s' = sl_gen s) as Hk by (by eapply same_gen). rewrite Hk, Hg in Hg'. by injection Hg' as <-.
  - exists (map sl_task (gh_seals g)). split_and!; [apply Hi|rewrite length_map; symmetry; by eapply Forall2_length|].
    intros i topic key n dek kid wrapped Hans.
    destruct (Ht _ _ _ Hans) as (s & gen & Hs & Htask & Hb & Hg & Htopic & Hkey & [= -> -> ->]). split; [done|].
    apply list_elem_of_lookup in Hs as [p Hp]. destruct (Forall2_lookup_r _ _ _ _ _ Hlog Hp) as (x & Hx & gen' & Hg' & ->).
    simpl in Hg, Hg'. rewrite Hg in Hg'. injection Hg' as <-. subst. exists p, (sl_at s). split; [by apply list_lookup_fmap_Some_2|done].
Qed.
End claims.

Section openings.
Context `{KeyProvider} `{Entropy}.

Lemma opening_was_unwrapped s g ops before x after : kinv s g ops -> ks_opened s = before ++ x :: after ->
  exists y m, y ∈ before ++ [x] /\ od_called y = true /\ od_id y = od_id x /\ od_dek y = od_dek x /\
    i64_saturating_sub (od_at x) (od_at y) < UNWRAPPED_DEK_TTL_MS /\ unwrap m (od_id x).1 (od_id x).2 = Ok (od_dek x).
Proof.
  intros Hi Heq. destruct (ki_opens _ _ _ Hi _ _ _ Heq) as (y & Hy & Hc & Hid & Hdek & Ht).
  pose proof (ki_calls _ _ _ Hi) as Hcalls. rewrite Forall_forall in Hcalls.
  destruct (Hcalls y) as (m & Hm); [rewrite Heq; set_solver|done|]. exists y, m. rewrite Hid, Hdek in Hm. done.
Qed.

(** C31. What was sealed is opened by its own key.  If a sealing was answered
    with an envelope, an opening of the wrapped key in it that succeeds, before
    or after, cached or not, is by the same data key, and was asked for under
    the same key id. *)
Theorem sealed_opens {provider_laws : KeyProviderLaws} now w i j topic key n dek kid wrapped other opened :
  rtc kstep (mkTWorld (Keys_new now) ∅) w -> KeyId_new key = Ok key -> KeyId_new other = Ok other ->
  tw_tasks w !! i = Some (OpSeal topic key n, Ret (AnSealed (Ok (dek, kid, wrapped)))) ->
  tw_tasks w !! j = Some (OpOpen other wrapped, Ret (AnOpened (Ok opened))) ->
  other = kid /\ opened = dek.
Proof.
  intros Hr Hkey Hother Hi Hj. destruct (keys_reachable _ _ Hr) as (g & Hinv & Ht).
  destruct (Ht _ _ _ Hi) as (s & gen & _ & _ & _ & Hg & _ & Hk & [= -> -> ->]).
  destruct (Ht _ _ _ Hj) as (o & (before & after & Ho)%list_elem_of_split & Hid & <-).
  pose proof (ki_gens _ _ _ Hinv) as Hgens. rewrite Forall_lookup in Hgens. destruct (Hgens _ _ Hg) as (_ & m & Hw). rewrite Hk in Hw.
  destruct (opening_was_unwrapped _ _ _ _ _ _ Hinv Ho) as (y & m' & _ & _ & _ & _ & _ & Hm'). rewrite Hid in Hm'.
  destruct (unwrap_wrap _ _ _ _ _ _ _ Hkey Hother Hw Hm') as [-> ->]. done.
Qed.

(** An unwrapped key is not kept.  The cache never holds more than 1024
    of them; every opening is by what the key service unwraps for that very blob,
    and at the time read for it, less than five minutes had gone since the
    time read for an opening of the blob that called the service.  Every request
    that is answered was run so. *)
Theorem unwrapped_keys_expire now w : rtc kstep (mkTWorld (Keys_new now) ∅) w ->
  (size (ks_by_blob (tw_state w)) <= UNWRAPPED_DEK_CACHE_ENTRIES)%nat /\
  (forall before x after, ks_opened (tw_state w) = before ++ x :: after ->
    exists y m, y ∈ before ++ [x] /\ od_called y = true /\ od_id y = od_id x /\ od_dek y = od_dek x /\
      i64_saturating_sub (od_at x) (od_at y) < UNWRAPPED_DEK_TTL_MS /\ unwrap m (od_id x).1 (od_id x).2 = Ok (od_dek x)) /\
  forall i key wrapped dek, tw_tasks w !! i = Some (OpOpen key wrapped, Ret (AnOpened (Ok dek))) ->
    exists x, x ∈ ks_opened (tw_state w) /\ od_id x = (key, wrapped) /\ od_dek x = dek.
Proof.
  intros Hr. destruct (keys_reachable _ _ Hr) as (g & Hinv & Ht). split_and!; [apply Hinv| |].
  - intros before x after. exact (opening_was_unwrapped _ _ _ _ _ _ Hinv).
  - intros i key wrapped dek Hi. exact (Ht _ _ _ Hi).
Qed.
End openings.

(** ** The in-memory provider keeps its promise *)

Lemma strip_prefix_Some prefix l rest : strip_prefix prefix l = Some rest -> l = prefix ++ rest.
Proof.
  revert l. induction prefix as [|x prefix IH]; intros l; simpl; [congruence|].
  destruct l as [|y l]; [done|]. destruct (Z.eqb_spec x y) as [->|]; [|done]. by intros ->%IH.
Qed.

Lemma KeyId_new_length key : KeyId_new key = Ok key -> 0 <= Z.of_nat (length (as_bytes key)) < 256 ^ Z.of_nat 8.
Proof.
  unfold KeyId_new. case_match; [done|]. destruct (Z.ltb_spec MAX_KEY_ID_LEN (Z.of_nat (length (as_bytes key)))) as [|Hle]; [done|].
  intros _. change MAX_KEY_ID_LEN with 65535 in Hle. change (256 ^ Z.of_nat 8) with 18446744073709551616. lia.
Qed.

Lemma fake_tag_inj key other l l' : KeyId_new key = Ok key -> KeyId_new other = Ok other ->
  fake_tag key ++ l = fake_tag other ++ l' -> other = key /\ l' = l.
Proof.
  intros Hk%KeyId_new_length Ho%KeyId_new_length. unfold fake_tag. rewrite <-!app_assoc. intros [Hlen Hrest]%app_inj_1;
    [|by rewrite !be_bytes_length].
  apply (f_equal from_be) in Hlen. rewrite !from_be_be in Hlen by done. apply app_inj_1 in Hrest as [Hid ->]; [|lia].
  split; [|done]. apply (f_equal of_bytes) in Hid. by rewrite !of_as_bytes in Hid.
Qed.

Lemma FakeKeyProvider_laws : @KeyProviderLaws FakeKeyProvider.
Proof.
  split. intros n m key other plaintext wrapped raw Hk Ho. cbn [wrap unwrap FakeKeyProvider]. intros [= <-].
  destruct (strip_prefix _ _) as [rest|] eqn:Hs; [|done]. intros [= <-]. eapply fake_tag_inj; [done..|]. by apply strip_prefix_Some.
Qed.

(** ** A run of two sealings and two openings *)

#[local] Existing Instance FakeKeyProvider.
#[local] Existing Instance FakeKeyProvider_laws.
#[local] Instance demo_entropy : Entropy := fun n => Ok (replicate DEK_BYTES (Z.of_nat n)).
#[local] Instance demo_entropy_laws : EntropyLaws.
Proof.
  intros n m dek [= Hn] [= Hm]. rewrite <-Hm in Hn. change DEK_BYTES with (S 31) in Hn. cbn [replicate] in Hn.
  injection Hn as Hn _. lia.
Qed.

Definition demo_blob : bytes := fake_tag "k" ++ replicate DEK_BYTES 1.
Definition demo_key_moves : list (@Move KeyOp) :=
  [MStart 0 (OpSeal "t" "k" 10); MStart 1 (OpSeal "t" "k" 20)] ++
  replicate 4 (MRun 0 (mkChoice None false false)) ++ replicate 8 (MRun 1 (mkChoice None false false)) ++ replicate 4 (MRun 0 (mkChoice None false false)) ++
  [MStart 2 (OpOpen "k" demo_blob); MStart 3 (OpOpen "k" demo_blob)] ++
  replicate 6 (MRun 2 (mkChoice None false false)) ++ replicate 6 (MRun 3 (mkChoice None false false)).
Definition demo_keys : TWorld Keys KeyAnswer KeyOp := foldl (tw_move keys_code) (mkTWorld (Keys_new 1000) ∅) demo_key_moves.

Lemma demo_keys_reachable : rtc kstep (mkTWorld (Keys_new 1000) ∅) demo_keys.
Proof. unfold demo_keys. apply tw_moves_reachable. vm_compute. repeat split; discriminate. Qed.

(** The second task to start is the first to install, and both seal with its key. *)
Definition demo_sealed (n : Z) : Sealed := mkSealed "t" "k" (replicate DEK_BYTES 1) demo_blob n 1000.

Lemma data_keys_retire_witness :
  ks_sealed (tw_state demo_keys) = [demo_sealed 20; demo_sealed 10] /\
  sumZ (map sd_bytes (filter (fun y => sd_dek y = sd_dek (demo_sealed 10)) [demo_sealed 20])) < DEK_MAX_SEALED_BYTES.
Proof.
  assert (ks_sealed (tw_state demo_keys) = [demo_sealed 20] ++ demo_sealed 10 :: []) as Hlog by by vm_compute.
  split; [exact Hlog|]. exact (proj1 (proj1 (data_keys_retire 1000 demo_keys demo_keys_reachable) _ _ _ Hlog)).
Defined.

Lemma sealed_opens_witness :
  KeyId_new "k" = Ok "k" /\ "k"%string = "k"%string /\ replicate DEK_BYTES 1 = replicate DEK_BYTES 1.
Proof.
  split; [done|].
  apply (sealed_opens 1000 demo_keys 0%nat 2%nat "t" "k" 10 (replicate DEK_BYTES 1) "k" demo_blob "k" (replicate DEK_BYTES 1)
    demo_keys_reachable); by vm_compute.
Defined.

Lemma unwrapped_keys_expire_witness :
  (size (ks_by_blob (tw_state demo_keys)) <= 1024)%nat /\ map od_called (ks_opened (tw_state demo_keys)) = [true; false].
Proof. split; [apply (unwrapped_keys_expire 1000 demo_keys demo_keys_reachable)|by vm_compute]. Defined.
