(* ===== verification/GroupRounds.v ===== *)
(** * GroupRounds: join rounds, the sync barrier, sessions and committed offsets

    The broker's shared state for consumer groups and what its sections under a
    lock do to it: [oqueue-broker/src/join_group/round/] ([slot.rs], [plan.rs],
    [state.rs], [sync_wait.rs], the sections of [mod.rs] and [close.rs]),
    [sync_group/barrier.rs], [sync_group/deadline.rs], [join_group/deadline.rs],
    [heartbeat.rs] with its [deadline.rs], and the map of [offset_commit.rs].

    A [Notify] only wakes waiters, and every waiter looks again when it wakes;
    here a waiter may wake at any time, so the notifications themselves are not
    kept.  A round's [Arc<OnceLock<..>>] is a cell of [g_outcomes], named by a
    number as the pointer names it; [Instant]s are milliseconds. *)

From stdpp Require Import base tactics list numbers strings gmap pretty.
From Stdlib Require Import ZArith Lia.
From S2P Require Import Prelude Types Bytes Group MsgGroup.

Open Scope Z_scope.

(** ** Rounds ([state.rs]) *)

Record RoundMember : Type := mkRoundMember {
  rm_member_id : string;
  rm_protocol_type : string;
  rm_protocols : list (string * bytes);
  rm_rebalance_timeout : Z;
}.

Record RoundClose : Type := mkRoundClose {
  rc_generation : Z;
  rc_leader : string;
  rc_protocol_type : string;
  rc_protocol_name : string;
  rc_members : list RoundMember;
}.

(** A round's published end: a close, or none for an abandoned round. *)
Definition RoundOutcome : Type := option RoundClose.

Record OpenRound : Type := mkOpenRound {
  rd_members : list RoundMember;
  rd_awaiting : option (list string);
  rd_deadline : Z;
  rd_outcome : nat;
}.

Record JoinEntry : Type := mkJoinEntry {
  je_open : option OpenRound;
  je_last_round_members : option (list string);
  je_in_flight : bool;
}.
Definition JoinEntry_default : JoinEntry := mkJoinEntry None None false.

Inductive JoinOutcome : Type :=
| JUnavailable
| JBusy
| JReady (close : RoundClose)
| JPending (deadline : Z) (outcome : nat)
| JRefused.

Inductive Step : Type :=
| SWait
| SOpen (event : GroupEvent)
| SClose
| SDone (outcome : JoinOutcome).

Inductive Reprune : Type :=
| RosterDead
| Recheck (next : Z)
| NotWaiting.

Definition MAX_JOIN_REPLANS : nat := 8.
Definition INITIAL_REBALANCE_DELAY : Z := 3000.

(** ** The shared state *)

(** [barrier.rs]'s cell: a generation, and its assignment or that it was refused. *)
Record SyncAssignment : Type := mkSyncAssignment {
  sa_generation : Z;
  sa_map : option (gmap string bytes);
}.
Record SyncEntry : Type := mkSyncEntry {
  sy_assignments : option SyncAssignment;
  sy_rebalance_timeout : option Z;
}.
Definition SyncEntry_default : SyncEntry := mkSyncEntry None None.

Record MemberSession : Type := mkMemberSession {
  ms_deadline : Z;
  ms_session_timeout_ms : Z;
}.

Inductive ActorRequest : Type :=
| RqTransition (group : GroupId) (event : GroupEvent)
| RqRoster (group : GroupId) (roster : option GroupRosterSnapshot).
Inductive ActorReply : Type :=
| RpTransition (r : Res GroupRecord)
| RpRoster (r : Res unit).

Definition OffsetKey : Type := GroupId * TopicId * Z.

Record Groups : Type := mkGroups {
  g_now : Z;
  g_loading : bool;
  g_log : list GroupMetadataEntry;
  g_coordinator : FakeGroupCoordinator;
  g_offsets : gmap OffsetKey (CommitVersion * Z);
  g_joins : gmap GroupId JoinEntry;
  g_outcomes : gmap nat RoundOutcome;
  g_next_outcome : nat;
  g_sync : gmap GroupId SyncEntry;
  g_heartbeats : gmap GroupId (gmap string MemberSession);
  g_minted : Z;
  g_queue : list (nat * ActorRequest);
  g_replies : gmap nat ActorReply;
  g_next_request : nat;
}.

Definition with_log (l : list GroupMetadataEntry) (g : Groups) : Groups :=
  mkGroups (g_now g) (g_loading g) l (g_coordinator g) (g_offsets g) (g_joins g) (g_outcomes g)
    (g_next_outcome g) (g_sync g) (g_heartbeats g) (g_minted g) (g_queue g) (g_replies g) (g_next_request g).
Definition with_coordinator (c : FakeGroupCoordinator) (g : Groups) : Groups :=
  mkGroups (g_now g) (g_loading g) (g_log g) c (g_offsets g) (g_joins g) (g_outcomes g)
    (g_next_outcome g) (g_sync g) (g_heartbeats g) (g_minted g) (g_queue g) (g_replies g) (g_next_request g).
Definition with_offsets (o : gmap OffsetKey (CommitVersion * Z)) (g : Groups) : Groups :=
  mkGroups (g_now g) (g_loading g) (g_log g) (g_coordinator g) o (g_joins g) (g_outcomes g)
    (g_next_outcome g) (g_sync g) (g_heartbeats g) (g_minted g) (g_queue g) (g_replies g) (g_next_request g).
Definition with_joins (j : gmap GroupId JoinEntry) (g : Groups) : Groups :=
  mkGroups (g_now g) (g_loading g) (g_log g) (g_coordinator g) (g_offsets g) j (g_outcomes g)
    (g_next_outcome g) (g_sync g) (g_heartbeats g) (g_minted g) (g_queue g) (g_replies g) (g_next_request g).
Definition with_outcomes (o : gmap nat RoundOutcome) (g : Groups) : Groups :=
  mkGroups (g_now g) (g_loading g) (g_log g) (g_coordinator g) (g_offsets g) (g_joins g) o
    (g_next_outcome g) (g_sync g) (g_heartbeats g) (g_minted g) (g_queue g) (g_replies g) (g_next_request g).
Definition with_next_outcome (n : nat) (g : Groups) : Groups :=
  mkGroups (g_now g) (g_loading g) (g_log g) (g_coordinator g) (g_offsets g) (g_joins g) (g_outcomes g)
    n (g_sync g) (g_heartbeats g) (g_minted g) (g_queue g) (g_replies g) (g_next_request g).
Definition with_sync (s : gmap GroupId SyncEntry) (g : Groups) : Groups :=
  mkGroups (g_now g) (g_loading g) (g_log g) (g_coordinator g) (g_offsets g) (g_joins g) (g_outcomes g)
    (g_next_outcome g) s (g_heartbeats g) (g_minted g) (g_queue g) (g_replies g) (g_next_request g).
Definition with_heartbeats (h : gmap GroupId (gmap string MemberSession)) (g : Groups) : Groups :=
  mkGroups (g_now g) (g_loading g) (g_log g) (g_coordinator g) (g_offsets g) (g_joins g) (g_outcomes g)
    (g_next_outcome g) (g_sync g) h (g_minted g) (g_queue g) (g_replies g) (g_next_request g).
Definition with_minted (n : Z) (g : Groups) : Groups :=
  mkGroups (g_now g) (g_loading g) (g_log g) (g_coordinator g) (g_offsets g) (g_joins g) (g_outcomes g)
    (g_next_outcome g) (g_sync g) (g_heartbeats g) n (g_queue g) (g_replies g) (g_next_request g).
Definition with_channel (q : list (nat * ActorRequest)) (r : gmap nat ActorReply) (n : nat) (g : Groups) : Groups :=
  mkGroups (g_now g) (g_loading g) (g_log g) (g_coordinator g) (g_offsets g) (g_joins g) (g_outcomes g)
    (g_next_outcome g) (g_sync g) (g_heartbeats g) (g_minted g) q r n.
Definition with_now (now : Z) (g : Groups) : Groups :=
  mkGroups now (g_loading g) (g_log g) (g_coordinator g) (g_offsets g) (g_joins g) (g_outcomes g)
    (g_next_outcome g) (g_sync g) (g_heartbeats g) (g_minted g) (g_queue g) (g_replies g) (g_next_request g).

Definition join_entry (group : GroupId) (g : Groups) : JoinEntry := default JoinEntry_default (g_joins g !! group).
Definition sync_entry (group : GroupId) (g : Groups) : SyncEntry := default SyncEntry_default (g_sync g !! group).

(** [OnceLock::get] and [OnceLock::set] of a round's outcome. *)
Definition outcome_get (id : nat) (g : Groups) : option RoundOutcome := g_outcomes g !! id.
Definition outcome_set (id : nat) (o : RoundOutcome) (g : Groups) : Groups :=
  match g_outcomes g !! id with
  | Some _ => g
  | None => with_outcomes (<[id := o]> (g_outcomes g)) g
  end.

(** ** Timeouts ([deadline.rs], twice) *)

Definition MAX_BARRIER_MS : Z := 3000000.
Definition barrier_ms (rebalance_timeout_ms : Z) : Z := Z.max 0 (Z.min rebalance_timeout_ms MAX_BARRIER_MS).

Definition effective_timeout_ms (rebalance_timeout_ms session_timeout_ms : Z) : Z :=
  if 0 <? rebalance_timeout_ms then rebalance_timeout_ms else session_timeout_ms.

Definition MIN_SYNC_WAIT_MS : Z := 6000.
Definition MAX_MEMBER_SYNC_WAIT_MS : Z := 1800000.
Definition MAX_SYNC_WAIT_MS : Z := 3000000.
Definition sync_wait_ms (rebalance_timeout : option Z) : Z :=
  match rebalance_timeout with
  | None => MAX_SYNC_WAIT_MS
  | Some timeout => Z.max MIN_SYNC_WAIT_MS (Z.min timeout MAX_SYNC_WAIT_MS)
  end.

Definition MIN_SESSION_TIMEOUT_MS : Z := 6000.
Definition MAX_SESSION_TIMEOUT_MS : Z := 1800000.
Definition clamp_session_timeout_ms (requested : Z) : Z :=
  Z.max MIN_SESSION_TIMEOUT_MS (Z.min requested MAX_SESSION_TIMEOUT_MS).

(** ** Sessions ([heartbeat.rs]) *)

Definition hb_register (group : GroupId) (member_id : string) (session_timeout_ms : Z) (g : Groups) : Groups :=
  let session := mkMemberSession (g_now g + clamp_session_timeout_ms session_timeout_ms) session_timeout_ms in
  with_heartbeats
    (<[group := <[member_id := session]> (default ∅ (g_heartbeats g !! group))]> (g_heartbeats g)) g.

Definition hb_session (group : GroupId) (member_id : string) (g : Groups) : option MemberSession :=
  g_heartbeats g !! group ≫= fun members => members !! member_id.

Definition hb_renew (group : GroupId) (member_id : string) (g : Groups) : Groups :=
  match g_heartbeats g !! group, hb_session group member_id g with
  | Some members, Some session =>
      let session' := mkMemberSession (g_now g + clamp_session_timeout_ms (ms_session_timeout_ms session))
        (ms_session_timeout_ms session) in
      with_heartbeats (<[group := <[member_id := session']> members]> (g_heartbeats g)) g
  | _, _ => g
  end.

Definition hb_is_live (group : GroupId) (member_id : string) (g : Groups) : bool :=
  match hb_session group member_id g with Some session => g_now g <? ms_deadline session | None => false end.

Definition hb_is_tracked (group : GroupId) (member_id : string) (g : Groups) : bool :=
  bool_decide (is_Some (hb_session group member_id g)).

(** [.filter_map(..).max()]. *)
Definition max_option (l : list Z) : option Z :=
  match l with [] => None | x :: l => Some (foldl Z.max x l) end.

Definition hb_latest_deadline (group : GroupId) (member_ids : list string) (g : Groups) : option Z :=
  max_option (omap (fun id => ms_deadline <$> hb_session group id g) member_ids).

(** ** The sync barrier ([barrier.rs]) *)

Inductive Known : Type :=
| KMine (map : gmap string bytes)
| KSuperseded
| KRefused
| KWaiting.

Definition assignment_for (cell : option SyncAssignment) (generation : Z) : Known :=
  match cell with
  | None => KWaiting
  | Some a =>
      if sa_generation a =? generation
      then match sa_map a with Some map => KMine map | None => KRefused end
      else if generation <? sa_generation a then KSuperseded else KWaiting
  end.

Definition set_rebalance_timeout (group : GroupId) (from_round : option Z) (g : Groups) : Groups :=
  match from_round with
  | None => g
  | Some fold =>
      with_sync (<[group := mkSyncEntry (sy_assignments (sync_entry group g))
        (Some (Z.min fold MAX_MEMBER_SYNC_WAIT_MS))]> (g_sync g)) g
  end.

Definition sync_rebalance_timeout (group : GroupId) (g : Groups) : option Z :=
  g_sync g !! group ≫= sy_rebalance_timeout.

Definition set_assignment (group : GroupId) (a : SyncAssignment) (g : Groups) : Groups :=
  with_sync (<[group := mkSyncEntry (Some a) (sy_rebalance_timeout (sync_entry group g))]> (g_sync g)) g.

(** [entries.entry(group).or_default()]. *)
Definition touch_sync (group : GroupId) (g : Groups) : Groups :=
  with_sync (<[group := sync_entry group g]> (g_sync g)) g.

Definition sync_submit (group : GroupId) (generation : Z) (map : gmap string bytes)
    (still_at_this_generation : Groups -> bool) (g : Groups) : Groups * option (gmap string bytes) :=
  let superseded := match sy_assignments (sync_entry group g) with
                    | Some a => generation <? sa_generation a
                    | None => false
                    end in
  if superseded || negb (still_at_this_generation g) then (touch_sync group g, None)
  else (set_assignment group (mkSyncAssignment generation (Some map)) g, Some map).

Definition sync_refuse (group : GroupId) (generation : Z) (g : Groups) : Groups :=
  let holds_an_assignment :=
    match sy_assignments (sync_entry group g) with
    | Some a => (generation <? sa_generation a) ||
                ((sa_generation a =? generation) && bool_decide (is_Some (sa_map a)))
    | None => false
    end in
  if holds_an_assignment then touch_sync group g
  else set_assignment group (mkSyncAssignment generation None) g.

(** ** The slot ([slot.rs]) *)

(** [true]: someone else holds it. *)
Definition claim_or_wait (group : GroupId) (g : Groups) : Groups * bool :=
  let entry := join_entry group g in
  if je_in_flight entry then (with_joins (<[group := entry]> (g_joins g)) g, true)
  else (with_joins (<[group := mkJoinEntry (je_open entry) (je_last_round_members entry) true]> (g_joins g)) g,
        false).

Definition release (group : GroupId) (g : Groups) : Groups :=
  match g_joins g !! group with
  | Some entry =>
      with_joins (<[group := mkJoinEntry (je_open entry) (je_last_round_members entry) false]> (g_joins g)) g
  | None => g
  end.

(** ** Planning ([plan.rs]) *)

Definition as_candidates (members : list RoundMember) : list Candidate :=
  map (fun m => mkCandidate (rm_member_id m) (map fst (rm_protocols m))) members.

(** [Err(())] for a dead group. *)
Definition opening_event (record : option GroupRecord) : Result unit (option GroupEvent) :=
  match gr_state <$> record with
  | None | Some (GroupEmpty | GroupStable) => Ok (Some EvJoin)
  | Some CompletingRebalance => Ok (Some EvMemberJoinedDuringSync)
  | Some PreparingRebalance => Ok None
  | Some GroupDead => Err tt
  end.

Definition set_open (group : GroupId) (open : option OpenRound) (g : Groups) : Groups :=
  let entry := join_entry group g in
  with_joins (<[group := mkJoinEntry open (je_last_round_members entry) (je_in_flight entry)]> (g_joins g)) g.

Definition install_round (group : GroupId) (rebalance_timeout : Z) (g : Groups) : Groups :=
  let awaiting := je_last_round_members (join_entry group g) in
  let wait := match awaiting with
              | None => Z.min INITIAL_REBALANCE_DELAY rebalance_timeout
              | Some _ => rebalance_timeout
              end in
  with_next_outcome (S (g_next_outcome g))
    (set_open group (Some (mkOpenRound [] awaiting (g_now g + wait) (g_next_outcome g))) g).

Definition plan_open (group : GroupId) (rebalance_timeout : Z) (g : Groups) : Groups * option Step :=
  let (g, held) := claim_or_wait group g in
  if held then (g, Some SWait)
  else match opening_event (gc_record (g_coordinator g) group) with
  | Ok (Some event) => (g, Some (SOpen event))
  | Ok None => (release group (install_round group rebalance_timeout g), None)
  | _ => (release group g, Some (SDone JRefused))
  end.

(** [Some(existing)] is replaced in its place; a new member goes last. *)
Definition put_member (member : RoundMember) (members : list RoundMember) : list RoundMember :=
  if existsb (fun m => String.eqb (rm_member_id m) (rm_member_id member)) members
  then (fix go ms := match ms with
        | [] => []
        | m :: ms => if String.eqb (rm_member_id m) (rm_member_id member) then member :: ms else m :: go ms
        end) members
  else members ++ [member].

Definition needs_open (group : GroupId) (g : Groups) : bool :=
  match je_open (join_entry group g) with
  | None => true
  | Some round => bool_decide (is_Some (outcome_get (rd_outcome round) g))
  end.

(** The rest of [plan_join], with a round to join. *)
Definition join_round (group : GroupId) (member : RoundMember) (round : OpenRound) (g : Groups) : Groups * Step :=
  let trial := put_member member (rd_members round) in
  match elect (as_candidates trial) with
  | None => (g, SDone JRefused)
  | Some _ =>
      let awaiting := List.filter (fun id => negb (String.eqb id (rm_member_id member))) <$> rd_awaiting round in
      let round := mkOpenRound trial awaiting (rd_deadline round) (rd_outcome round) in
      let g := set_open group (Some round) g in
      let pending := SDone (JPending (rd_deadline round) (rd_outcome round)) in
      if bool_decide (awaiting = Some [])
      then let (g, held) := claim_or_wait group g in (g, if held then pending else SClose)
      else (g, pending)
  end.

Definition plan_join (group : GroupId) (member : RoundMember) (rebalance_timeout : Z) (g : Groups)
    : Groups * Step :=
  let '(g, step) := if needs_open group g then plan_open group rebalance_timeout g else (g, None) in
  match step with
  | Some step => (g, step)
  | None =>
      match je_open (join_entry group g) with
      | None => (g, SDone JRefused)
      | Some round => join_round group member round g
      end
  end.

Inductive DeadlineClaim : Type := NotMine | ClaimWait | Claimed.

Definition is_own_open_round (round : OpenRound) (own_outcome : nat) (g : Groups) : bool :=
  bool_decide (rd_outcome round = own_outcome) && bool_decide (outcome_get (rd_outcome round) g = None).

Definition deadline_claim (group : GroupId) (own_outcome : nat) (g : Groups) : Groups * DeadlineClaim :=
  match je_open (join_entry group g) with
  | Some round =>
      if is_own_open_round round own_outcome g
      then let (g, held) := claim_or_wait group g in (g, if held then ClaimWait else Claimed)
      else (g, NotMine)
  | None => (g, NotMine)
  end.

Definition abandon_round (group : GroupId) (forget_roster : bool) (g : Groups) : Groups :=
  match je_open (join_entry group g) with
  | None => g
  | Some round =>
      let g := outcome_set (rd_outcome round) None g in
      let entry := join_entry group g in
      with_joins (<[group := mkJoinEntry None
        (if forget_roster then None else je_last_round_members entry) (je_in_flight entry)]> (g_joins g)) g
  end.

Inductive Barrier : Type :=
| BClosed (generation : Z)
| BIllegal
| BUnavailable.

(** [rank.get(id).copied().unwrap_or(usize::MAX)]: a later duplicate of an id
    overwrites an earlier one in the map. *)
Definition rank (previous : list string) (id : string) : Z :=
  default usize_max (Z.of_nat <$> (list_to_map (reverse (zip previous (seq 0 (length previous)))) : gmap string nat) !! id).

Definition close_of (generation : Z) (members : list RoundMember) : RoundClose :=
  let '(leader, protocol_name) :=
    match elect (as_candidates members) with
    | Some e => (el_leader e, el_protocol_name e)
    | None => (match members with m :: _ => rm_member_id m | [] => EmptyString end, EmptyString)
    end in
  let protocol_type :=
    match List.find (fun m => String.eqb (rm_member_id m) leader) members with
    | Some m => rm_protocol_type m
    | None => EmptyString
    end in
  mkRoundClose generation leader protocol_type protocol_name members.

Definition finalize_close (group : GroupId) (generation : Z) (g : Groups) : Groups * option RoundClose :=
  match g_joins g !! group with
  | None => (g, None)
  | Some entry =>
      match je_open entry with
      | None => (g, None)
      | Some round =>
          match outcome_get (rd_outcome round) g with
          | Some already => (g, already)
          | None =>
              let previous := default [] (je_last_round_members entry) in
              let members := sort_by_key (fun m => rank previous (rm_member_id m)) (rd_members round) in
              let close := close_of generation members in
              let round := mkOpenRound [] (rd_awaiting round) (rd_deadline round) (rd_outcome round) in
              let g := outcome_set (rd_outcome round) (Some close) g in
              (with_joins (<[group := mkJoinEntry (Some round) (Some (map rm_member_id (rc_members close)))
                 (je_in_flight entry)]> (g_joins g)) g, Some close)
          end
      end
  end.

(** ** What a round tells the sync barrier ([sync_wait.rs]) *)

Definition fold_timeouts (members : list RoundMember) : option Z := max_option (map rm_rebalance_timeout members).

Definition publish (group : GroupId) (closed : option RoundClose) (g : Groups) : Groups :=
  set_rebalance_timeout group
    (match closed with
     | Some close => fold_timeouts (rc_members close)
     | None => match je_open (join_entry group g) with
               | Some round => fold_timeouts (rd_members round)
               | None => None
               end
     end) g.

(** ** The sections of [close.rs] and [mod.rs] *)

Definition withdraw (group : GroupId) (member_id : string) (own_outcome : nat) (g : Groups) : Groups :=
  match je_open (join_entry group g) with
  | Some round =>
      if is_own_open_round round own_outcome g then
        let members := List.filter (fun m => negb (String.eqb (rm_member_id m) member_id)) (rd_members round) in
        set_rebalance_timeout group (fold_timeouts members)
          (set_open group
            (Some (mkOpenRound members (rd_awaiting round) (rd_deadline round) (rd_outcome round))) g)
      else g
  | None => g
  end.

Definition reprune_awaiting (group : GroupId) (own_outcome : nat) (g : Groups) : Groups * Reprune :=
  match je_open (join_entry group g) with
  | Some round =>
      if is_own_open_round round own_outcome g then
        match rd_awaiting round with
        | None => (g, NotWaiting)
        | Some awaiting =>
            let awaiting := List.filter (fun id => hb_is_live group id g) awaiting in
            let g := set_open group
              (Some (mkOpenRound (rd_members round) (Some awaiting) (rd_deadline round) (rd_outcome round))) g in
            (g, match hb_latest_deadline group awaiting g with Some next => Recheck next | None => RosterDead end)
        end
      else (g, NotWaiting)
  | None => (g, NotWaiting)
  end.

(** The section of [apply_close] and [finish_deadline_close]. *)
Definition settle_round (group : GroupId) (barrier : Barrier) (g : Groups) : Groups * option RoundClose :=
  match barrier with
  | BClosed generation =>
      let (g, closed) := finalize_close group generation g in
      (match closed with Some close => publish group (Some close) g | None => g end, closed)
  | BIllegal => (abandon_round group true g, None)
  | BUnavailable => (abandon_round group false g, None)
  end.

(** [mint_member_id]. *)
Definition mint_member_id (g : Groups) : Groups * MemberId :=
  (with_minted ((g_minted g + 1) mod 2 ^ 64) g, "member-" +:+ pretty (g_minted g)).

(** ** Committed offsets ([offset_commit.rs]) *)

Definition apply_offset (version : CommitVersion) (record : GroupMetadataRecord)
    (offsets : gmap OffsetKey (CommitVersion * Z)) : gmap OffsetKey (CommitVersion * Z) :=
  match record with
  | OffsetCommitted group topic partition offset =>
      let key := (group, topic, partition) in
      let stale := match offsets !! key with Some (existing, _) => version <=? existing | None => false end in
      if stale then offsets else <[key := (version, offset)]> offsets
  | GroupTransitioned _ _ | GroupRosterUpdated _ _ => offsets
  end.

Definition committed_get (group : GroupId) (topic : TopicId) (partition : Z) (g : Groups) : option Z :=
  snd <$> g_offsets g !! (group, topic, partition).
