(* ===== verification/GroupHandlers.v ===== *)
(** * GroupHandlers: the consumer-group requests, as tasks

    Models the broker's group handlers, cut at their [await] points:
    [group_transitions.rs] (the single writer of group state and its journal),
    [join_group/mod.rs] with the asynchronous half of [join_group/round/],
    [sync_group.rs], [heartbeat.rs], [leave_group.rs] and [offset_commit.rs].

    The log is the trait's contract: appends are checked against its last
    version and are atomic, and any call may fail; what a failed append leaves
    behind is the environment's choice ([ch_landed]).  A section that holds one
    of the locks is one step, with what it looks at behind another. *)

From stdpp Require Import base tactics list numbers strings gmap pretty.
From Stdlib Require Import ZArith Lia.
From S2P Require Import Prelude Types Bytes ErrorCodes Wire Api Msg MsgData MsgGroup MsgSpec MsgRespSpec Group Tasks GroupRounds.
From S2P Require Import Retry.

Open Scope Z_scope.

Notation GTask := (Task Groups).

(** ** The log ([group_metadata_log.rs]) *)

Definition group_last_version (l : list GroupMetadataEntry) : option CommitVersion := ge_version <$> last l.

Fixpoint group_validate (entries : list GroupMetadataEntry) (previous : option CommitVersion) : Res unit :=
  match entries with
  | [] => Ok tt
  | entry :: entries =>
      match previous with
      | Some prev =>
          if ge_version entry <=? prev
          then Err (NonMonotonicCommitVersion prev (ge_version entry))
          else group_validate entries (Some (ge_version entry))
      | None => group_validate entries (Some (ge_version entry))
      end
  end.

Definition group_append (l entries : list GroupMetadataEntry) : list GroupMetadataEntry * Res unit :=
  match group_validate entries (group_last_version l) with
  | Ok _ => (l ++ entries, Ok tt)
  | Err e => (l, Err e)
  | Panic => (l, Panic)
  end.

Definition group_read_from (l : list GroupMetadataEntry) (start : CommitVersion) (max_entries : nat)
    : list GroupMetadataEntry :=
  take max_entries (List.filter (fun e => start <=? ge_version e) l).

(** The calls of a task. *)
Definition log_last_version : GTask (Res (option CommitVersion)) :=
  Act (fun c g => Some (g, match ch_fault c with
                           | Some e => Err e
                           | None => Ok (group_last_version (g_log g))
                           end)) Ret.

Definition log_append (entries : list GroupMetadataEntry) : GTask (Res unit) :=
  Act (fun c g =>
    let (l, r) := group_append (g_log g) entries in
    Some (match ch_fault c with
          | Some e => (if ch_landed c then with_log l g else g, Err e)
          | None => (with_log l g, r)
          end)) Ret.

(** ** The journal of group state ([group_transitions.rs]) *)

Definition MAX_APPEND_RETRIES : nat := 8.

Definition is_non_monotonic (e : Error) : bool :=
  match e with NonMonotonicCommitVersion _ _ => true | _ => false end.
Definition is_illegal (e : Error) : bool :=
  match e with IllegalGroupTransition _ _ => true | _ => false end.

Definition next_version (last : option CommitVersion) : Res CommitVersion :=
  match last with
  | Some last => CommitVersion_advance last 1
  | None => Ok CommitVersion_ZERO
  end.

(** The loop [append_durably] and [CommittedOffsets::commit] share: the version
    the record was appended at. *)
Fixpoint append_retrying (retries : nat) (record : GroupMetadataRecord) : GTask (Res CommitVersion) :=
  match retries with
  | 0%nat => Ret (Err Transient)
  | S retries =>
      do! last := log_last_version in
      match (let? last := last in next_version last) with
      | Err e => Ret (Err e)
      | Panic => Ret Panic
      | Ok next =>
          do! appended := log_append [mkGroupEntry next record] in
          match appended with
          | Ok _ => Ret (Ok next)
          | Err e => if is_non_monotonic e then append_retrying retries record else Ret (Err e)
          | Panic => Ret Panic
          end
      end
  end.

Definition append_durably (record : GroupMetadataRecord) : GTask (Res CommitVersion) :=
  append_retrying MAX_APPEND_RETRIES record.

Definition clears_roster (event : GroupEvent) : bool :=
  match event with EvAllMembersGone | EvExpire => true | _ => false end.

Definition clear_roster (group : GroupId) (g : Groups) : Groups :=
  with_coordinator (gc_set_roster (g_coordinator g) group None) g.

(** [coordinator.transition(group, event)?], then the roster. *)
Definition apply_event (group : GroupId) (event : GroupEvent) : GTask (Res GroupRecord) :=
  do! r := section (fun g => let (c, r) := gc_transition (g_coordinator g) group event in (with_coordinator c g, r)) in
  match r with
  | Ok record =>
      if clears_roster event
      then do! _ := change (clear_roster group) in Ret (Ok record)
      else Ret (Ok record)
  | r => Ret r
  end.

Definition handle_one (group : GroupId) (event : GroupEvent) : GTask (Res GroupRecord) :=
  do! current := look (fun g => default FRESH (gc_record (g_coordinator g) group)) in
  match record_step current event with
  | Err e => Ret (Err e)
  | Panic => Ret Panic
  | Ok _ =>
      do! appended := append_durably (GroupTransitioned group event) in
      match appended with
      | Err e => Ret (Err e)
      | Panic => Ret Panic
      | Ok _ => apply_event group event
      end
  end.

Definition update_roster (group : GroupId) (roster : option GroupRosterSnapshot) : GTask (Res unit) :=
  do! appended := append_durably (GroupRosterUpdated group roster) in
  match appended with
  | Err e => Ret (Err e)
  | Panic => Ret Panic
  | Ok _ => do! _ := change (fun g => with_coordinator (gc_set_roster (g_coordinator g) group roster) g) in Ret (Ok tt)
  end.

(** The channel: [enqueue], and waiting for the answer. *)
Definition enqueue (request : ActorRequest) (g : Groups) : Groups * nat :=
  (with_channel (g_queue g ++ [(g_next_request g, request)]) (g_replies g) (S (g_next_request g)) g,
   g_next_request g).

Definition receive : GTask (nat * ActorRequest) :=
  Act (fun _ g => match g_queue g with
                  | [] => None
                  | request :: queue => Some (with_channel queue (g_replies g) (g_next_request g) g, request)
                  end) Ret.

Definition respond (id : nat) (reply : ActorReply) : GTask unit :=
  change (fun g => with_channel (g_queue g) (<[id := reply]> (g_replies g)) (g_next_request g) g).

(** One turn of [serve]. *)
Definition serve_one : GTask (Res unit) :=
  do! (id, request) := receive in
  match request with
  | RqTransition group event =>
      do! result := handle_one group event in
      match result with
      | Panic => Ret Panic
      | result => do! _ := respond id (RpTransition result) in Ret (Ok tt)
      end
  | RqRoster group roster =>
      do! result := update_roster group roster in
      match result with
      | Panic => Ret Panic
      | result => do! _ := respond id (RpRoster result) in Ret (Ok tt)
      end
  end.

(** The answer to request [id], once there is one; a sender that is dropped
    without one, the actor having died, is [None]. *)
Definition reply_to (id : nat) : GTask (option ActorReply) :=
  Act (fun c g => match g_replies g !! id, ch_fault c with
                  | Some reply, _ => Some (g, Some reply)
                  | None, Some _ => Some (g, None)
                  | None, None => None
                  end) Ret.

Definition await_record (id : nat) : GTask (Res GroupRecord) :=
  do! reply := reply_to id in
  Ret (match reply with Some (RpTransition r) => r | _ => Err Transient end).

Definition request_transition (group : GroupId) (event : GroupEvent) : GTask (Res GroupRecord) :=
  do! id := section (enqueue (RqTransition group event)) in await_record id.

Definition request_roster (group : GroupId) (roster : GroupRosterSnapshot) : GTask (Res unit) :=
  do! id := section (enqueue (RqRoster group (Some roster))) in
  do! reply := reply_to id in
  Ret (match reply with Some (RpRoster r) => r | _ => Err Transient end).

(** ** Rounds ([join_group/round/mod.rs], [close.rs]) *)

Inductive Applied : Type := Installed | Raced | AppliedUnavailable.

Definition apply_open (group : GroupId) (event : GroupEvent) (rebalance_timeout : Z) : GTask Applied :=
  do! applied := request_transition group event in
  do! _ := change (fun g => if is_ok applied then install_round group rebalance_timeout g else g) in
  do! _ := (match applied, event with
            | Ok record, EvMemberJoinedDuringSync => change (sync_refuse group (gr_generation record))
            | _, _ => Ret tt
            end) in
  Ret (match applied with
       | Ok _ => Installed
       | Err e => if is_illegal e then Raced else AppliedUnavailable
       | Panic => AppliedUnavailable
       end).

Definition open_holding_slot (group : GroupId) (event : GroupEvent) (rebalance_timeout : Z)
    : GTask (option JoinOutcome) :=
  do! applied := apply_open group event rebalance_timeout in
  do! _ := change (release group) in
  Ret (match applied with Installed | Raced => None | AppliedUnavailable => Some JUnavailable end).

Definition close_generation (group : GroupId) : GTask Barrier :=
  do! r := request_transition group EvJoinBarrierComplete in
  Ret (match r with
       | Ok record => BClosed (gr_generation record)
       | Err e => if is_illegal e then BIllegal else BUnavailable
       | Panic => BUnavailable
       end).

Definition roster_snapshot (close : RoundClose) : GroupRosterSnapshot :=
  mkRoster (rc_protocol_type close) (rc_protocol_name close) (map rm_member_id (rc_members close)).

Definition persist_roster (group : GroupId) (close : option RoundClose) : GTask bool :=
  match close with
  | None => Ret true
  | Some close => do! r := request_roster group (roster_snapshot close) in Ret (is_ok r)
  end.

Definition apply_close (group : GroupId) : GTask (option JoinOutcome) :=
  do! barrier := close_generation group in
  do! closed := section (settle_round group barrier) in
  do! persisted := persist_roster group closed in
  Ret (if persisted then JReady <$> closed else Some JUnavailable).

Definition close_holding_slot (group : GroupId) : GTask (option JoinOutcome) :=
  do! outcome := apply_close group in
  do! _ := change (release group) in
  Ret outcome.

Definition finish_deadline_close (group : GroupId) : GTask unit :=
  do! barrier := close_generation group in
  do! closed := section (settle_round group barrier) in
  do! _ := persist_roster group closed in
  Ret tt.

Fixpoint claim_deadline (tries : nat) (group : GroupId) (own_outcome : nat) : GTask bool :=
  match tries with
  | 0%nat => Ret false
  | S tries =>
      do! claim := section (deadline_claim group own_outcome) in
      match claim with
      | NotMine => Ret false
      | Claimed => Ret true
      | ClaimWait =>
          do! timed_out := woken_by_timer in
          if timed_out then Ret false else claim_deadline tries group own_outcome
      end
  end.

Definition close_on_deadline (group : GroupId) (own_outcome : nat) : GTask unit :=
  do! claimed := claim_deadline MAX_JOIN_REPLANS group own_outcome in
  if claimed then
    do! _ := finish_deadline_close group in
    change (release group)
  else Ret tt.

Fixpoint plan_and_join (replans : nat) (group : GroupId) (member : RoundMember) : GTask JoinOutcome :=
  match replans with
  | 0%nat => Ret JBusy
  | S replans =>
      do! step := section (plan_join group member (rm_rebalance_timeout member)) in
      match step with
      | SDone outcome => Ret outcome
      | SWait => do! _ := woken_by_timer in plan_and_join replans group member
      | SOpen event =>
          do! answer := open_holding_slot group event (rm_rebalance_timeout member) in
          match answer with Some outcome => Ret outcome | None => plan_and_join replans group member end
      | SClose =>
          do! answer := close_holding_slot group in
          match answer with Some outcome => Ret outcome | None => plan_and_join replans group member end
      end
  end.

Definition join (group : GroupId) (member : RoundMember) : GTask JoinOutcome :=
  do! outcome := plan_and_join MAX_JOIN_REPLANS group member in
  do! _ := change (publish group None) in
  Ret outcome.

(** ** JoinGroup ([join_group/mod.rs]) *)


Definition join_refusal_code (outcome : JoinOutcome) : Z :=
  match outcome with
  | JUnavailable => Refusal_error_code CoordinatorNotAvailable
  | JBusy => Refusal_error_code RebalanceInProgress
  | JRefused | JReady _ | JPending _ _ => INCONSISTENT_GROUP_PROTOCOL
  end.

Definition next_wake (group : GroupId) (outcome : nat) (deadline : Z) : GTask Z :=
  do! pruned := section (reprune_awaiting group outcome) in
  match pruned with
  | RosterDead => do! _ := close_on_deadline group outcome in Ret deadline
  | Recheck next => Ret (Z.min next deadline)
  | NotWaiting => Ret deadline
  end.

(** The loop waits until the round is settled or given up; [fuel] bounds how
    often it wakes, and a task that has used it up is still waiting. *)
Fixpoint wait_for_close (fuel : nat) (group : GroupId) (member_id : string) (deadline : Z) (outcome : nat)
    (deadline_tried : bool) : GTask (option RoundClose) :=
  match fuel with
  | 0%nat => parked
  | S fuel =>
      do! published := look (outcome_get outcome) in
      match published with
      | Some published => Ret published
      | None =>
          do! next_check := next_wake group outcome deadline in
          do! published := look (outcome_get outcome) in
          match published with
          | Some published => Ret published
          | None =>
              do! timer := woken_by_timer in
              if timer then
                do! now := look (fun g => g_now g) in
                if now <? deadline then wait_for_close fuel group member_id deadline outcome deadline_tried
                else
                  do! _ := close_on_deadline group outcome in
                  do! published := look (outcome_get outcome) in
                  match published with
                  | Some published => Ret published
                  | None =>
                      if deadline_tried then
                        do! _ := change (withdraw group member_id outcome) in Ret None
                      else wait_for_close fuel group member_id deadline outcome true
                  end
              else wait_for_close fuel group member_id deadline outcome deadline_tried
          end
      end
  end.

Definition join_response_for (close : RoundClose) (member_id : string) (version : Z) : JoinGroupResponse :=
  let members :=
    if String.eqb (rc_leader close) member_id
    then map (fun m => mkJoinGroupResponseMember (rm_member_id m) None
           (match List.find (fun p => String.eqb p.1 (rc_protocol_name close)) (rm_protocols m) with
            | Some (_, metadata) => metadata
            | None => []
            end)) (rc_members close)
    else [] in
  mkJoinGroupResponse NO_ERROR (rc_generation close)
    (if 7 <=? version then Some (rc_protocol_type close) else None)
    (Some (rc_protocol_name close)) (rc_leader close) false member_id members.

Definition join_refusal (error_code : Z) : JoinGroupResponse :=
  mkJoinGroupResponse error_code (-1) None None EmptyString false EmptyString [].

(** [fence] for a request of this node. *)
Definition fence_here (group : GroupId) (member_id : string) (generation_id : option Z)
    (acceptable_states : option (list GroupState)) (g : Groups) : Result Refusal unit :=
  fence (for_this_node (g_loading g) (hb_is_tracked group member_id g) (gc_record (g_coordinator g) group)
    generation_id acceptable_states).

Definition round_member (request : JoinGroupRequest) (member_id : string) (rebalance_timeout : Z) : RoundMember :=
  mkRoundMember member_id (jr_protocol_type request)
    (map (fun p => (jp_name p, jp_metadata p)) (jr_protocols request)) rebalance_timeout.

Definition member_id_for (requested : string) : GTask MemberId :=
  if String.eqb requested EmptyString then section mint_member_id else Ret requested.

(** Joining, once the request is let in. *)
Definition join_member (fuel : nat) (version : Z) (request : JoinGroupRequest) (group : GroupId)
    (member_id : string) : GTask JoinGroupResponse :=
  let rebalance_timeout :=
    barrier_ms (effective_timeout_ms (jr_rebalance_timeout_ms request) (jr_session_timeout_ms request)) in
  do! outcome := join group (round_member request member_id rebalance_timeout) in
  do! close := (match outcome with
                | JReady close => Ret (inl close)
                | JPending deadline id =>
                    do! close := wait_for_close fuel group member_id deadline id false in
                    Ret (match close with
                         | Some close => inl close
                         | None => inr (Refusal_error_code RebalanceInProgress)
                         end)
                | refused => Ret (inr (join_refusal_code refused))
                end) in
  match close with
  | inr code => Ret (join_refusal code)
  | inl close =>
      do! _ := change (hb_register group member_id (jr_session_timeout_ms request)) in
      Ret (join_response_for close member_id version)
  end.

Definition join_handle (fuel : nat) (version : Z) (group_authorized : GroupId -> bool) (request : JoinGroupRequest)
    : GTask JoinGroupResponse :=
  match GroupId_new (jr_group_id request) with
  | Ok group =>
      if negb (group_authorized group) then Ret (join_refusal GROUP_AUTHORIZATION_FAILED) else
      do! member_id := member_id_for (jr_member_id request) in
      do! fenced := (if String.eqb (jr_member_id request) EmptyString then Ret (Ok tt)
                     else look (fence_here group member_id None None)) in
      match fenced with
      | Err refused => Ret (join_refusal (Refusal_error_code refused))
      | _ => join_member fuel version request group member_id
      end
  | _ => Ret (join_refusal INVALID_REQUEST)
  end.

(** ** SyncGroup ([sync_group.rs]) *)

Definition is_stable_at (group : GroupId) (generation : Z) (g : Groups) : bool :=
  match gc_record (g_coordinator g) group with
  | Some r => bool_decide (gr_state r = GroupStable) && (gr_generation r =? generation)
  | None => false
  end.

Definition sync_refusal (error_code : Z) : SyncGroupResponse := mkSyncGroupResponse error_code None None [].

Definition sync_response_for (map : gmap string bytes) (request : SyncGroupRequest) (version : Z) : SyncGroupResponse :=
  mkSyncGroupResponse NO_ERROR
    (if 5 <=? version then sr_protocol_type request else None)
    (if 5 <=? version then sr_protocol_name request else None)
    (default [] (map !! sr_member_id request)).

(** [.collect()] of the assignments: the last of a member's wins. *)
Definition assignment_map (request : SyncGroupRequest) : gmap string bytes :=
  list_to_map (reverse (map (fun a => (sg_member_id a, sg_assignment a)) (sr_assignments request))).

Definition refuse_sync (group : GroupId) (generation : Z) (refusal : Refusal) : GTask SyncGroupResponse :=
  do! _ := change (sync_refuse group generation) in Ret (sync_refusal (Refusal_error_code refusal)).

Definition submit_assignment (group : GroupId) (request : SyncGroupRequest) (version : Z) : GTask SyncGroupResponse :=
  let generation := sr_generation_id request in
  do! r := request_transition group EvSyncComplete in
  do! record := (match r with
                 | Ok record => Ret (inl (Some record))
                 | Err e => if is_illegal e then do! record := look (fun g => gc_record (g_coordinator g) group) in Ret (inl record)
                            else Ret (inr tt)
                 | Panic => Ret (inr tt)
                 end) in
  match record with
  | inr _ => refuse_sync group generation CoordinatorNotAvailable
  | inl record =>
      let synced := match record with
                    | Some r => bool_decide (gr_state r = GroupStable) && (gr_generation r =? generation)
                    | None => false
                    end in
      if negb synced then refuse_sync group generation RebalanceInProgress
      else
        do! submitted := section (sync_submit group generation (assignment_map request) (is_stable_at group generation)) in
        match submitted with
        | None => refuse_sync group generation RebalanceInProgress
        | Some map => Ret (sync_response_for map request version)
        end
  end.

Fixpoint wait_for_assignment (fuel : nat) (group : GroupId) (generation : Z) : GTask Known :=
  match fuel with
  | 0%nat => parked
  | S fuel =>
      do! known := look (fun g => assignment_for (sy_assignments (sync_entry group g)) generation) in
      match known with
      | KWaiting =>
          do! timer := woken_by_timer in
          if timer then look (fun g => assignment_for (sy_assignments (sync_entry group g)) generation)
          else wait_for_assignment fuel group generation
      | answer => Ret answer
      end
  end.

Definition sync_handle (fuel : nat) (version : Z) (group_authorized : GroupId -> bool) (request : SyncGroupRequest)
    : GTask SyncGroupResponse :=
  match GroupId_new (sr_group_id request) with
  | Ok group =>
      if negb (group_authorized group) then Ret (sync_refusal GROUP_AUTHORIZATION_FAILED) else
      do! fenced := look (fence_here group (sr_member_id request) (Some (sr_generation_id request))
        (Some [CompletingRebalance; GroupStable])) in
      match fenced with
      | Err refused => Ret (sync_refusal (Refusal_error_code refused))
      | _ =>
          match sr_assignments request with
          | _ :: _ => submit_assignment group request version
          | [] =>
              do! _ := change (touch_sync group) in
              do! known := wait_for_assignment fuel group (sr_generation_id request) in
              Ret (match known with
                   | KMine map => sync_response_for map request version
                   | _ => sync_refusal (Refusal_error_code RebalanceInProgress)
                   end)
          end
      end
  | _ => Ret (sync_refusal INVALID_REQUEST)
  end.

(** ** Heartbeat and LeaveGroup ([heartbeat.rs], [leave_group.rs]) *)

(** Drops the sessions that are not kept and, under the same lock, queues the
    event this makes. *)
Definition drop_sessions (group : GroupId) (keep : string -> MemberSession -> bool) (g : Groups)
    : Groups * option nat :=
  match g_heartbeats g !! group with
  | None => (g, None)
  | Some members =>
      let kept := filter (fun kv : string * MemberSession => keep kv.1 kv.2 = true) members in
      let g := with_heartbeats (<[group := kept]> (g_heartbeats g)) g in
      if (size kept =? size members)%nat then (g, None)
      else
        let event := if bool_decide (kept = ∅) then EvAllMembersGone else EvMemberLeft in
        let (g, id) := enqueue (RqTransition group event) g in (g, Some id)
  end.

Definition remove_where (group : GroupId) (keep : string -> MemberSession -> bool) : GTask unit :=
  do! generation := look (fun g => fmap (M := option) gr_generation (gc_record (g_coordinator g) group)) in
  do! receiver := section (drop_sessions group keep) in
  match receiver with
  | None => Ret tt
  | Some id =>
      do! _ := await_record id in
      match generation with
      | Some generation => change (sync_refuse group generation)
      | None => Ret tt
      end
  end.

Definition sweep (group : GroupId) : GTask unit :=
  do! now := look (fun g => g_now g) in
  remove_where group (fun _ session => now <? ms_deadline session).

Definition leave (group : GroupId) (member_ids : list string) : GTask unit :=
  remove_where group (fun id _ => negb (contains member_ids id)).

Definition heartbeat_handle (group_authorized : GroupId -> bool) (request : HeartbeatRequest) : GTask Z :=
  match GroupId_new (hb_group_id request) with
  | Ok group =>
      if negb (group_authorized group) then Ret GROUP_AUTHORIZATION_FAILED else
      do! _ := sweep group in
      do! fenced := look (fence_here group (hb_member_id request) (Some (hb_generation_id request))
        (Some [GroupStable])) in
      match fenced with
      | Err refusal =>
          do! _ := (match refusal with
                    | RebalanceInProgress => change (hb_renew group (hb_member_id request))
                    | _ => Ret tt
                    end) in
          Ret (Refusal_error_code refusal)
      | _ => do! _ := change (hb_renew group (hb_member_id request)) in Ret NO_ERROR
      end
  | _ => Ret INVALID_REQUEST
  end.

Definition member_gone (group : GroupId) (member_id : string) : GTask MemberGone :=
  do! fenced := look (fence_here group member_id None None) in
  Ret (mkMemberGone member_id (match fenced with Err refusal => Refusal_error_code refusal | _ => NO_ERROR end)).

Fixpoint each_task {A B} (f : A -> GTask B) (l : list A) : GTask (list B) :=
  match l with
  | [] => Ret []
  | a :: l => do! b := f a in do! bs := each_task f l in Ret (b :: bs)
  end.

Definition leave_handle (group_authorized : GroupId -> bool) (request : LeaveGroupRequest) : GTask LeaveGroupResponse :=
  match GroupId_new (lg_group_id request) with
  | Ok group =>
      if negb (group_authorized group) then Ret (mkLeaveGroupResponse GROUP_AUTHORIZATION_FAILED []) else
      let member_ids := map mi_member_id (lg_members request) in
      do! members := each_task (member_gone group) member_ids in
      do! _ := leave group member_ids in
      Ret (mkLeaveGroupResponse NO_ERROR members)
  | _ => Ret (mkLeaveGroupResponse INVALID_REQUEST [])
  end.

(** ** OffsetCommit ([offset_commit.rs]) *)

Definition MAX_COMMIT_RETRIES : nat := 8.

Definition commit (group : GroupId) (topic : TopicId) (partition offset : Z) : GTask (Res unit) :=
  let record := OffsetCommitted group topic partition offset in
  do! appended := append_retrying MAX_COMMIT_RETRIES record in
  match appended with
  | Ok version =>
      do! _ := change (fun g => with_offsets (apply_offset version record (g_offsets g)) g) in Ret (Ok tt)
  | Err e => Ret (Err e)
  | Panic => Ret Panic
  end.

Definition refused_topic (topic : OffsetCommitRequestTopic) (error_code : Z) : OffsetCommitResponseTopic :=
  mkOffsetCommitResponseTopic (ot_name topic)
    (map (fun p => mkOffsetCommitResponsePartition (op_partition_index p) error_code) (ot_partitions topic)).

Definition commit_partition (group : GroupId) (topic : TopicId) (partition : OffsetCommitRequestPartition)
    : GTask OffsetCommitResponsePartition :=
  do! r := commit group topic (op_partition_index partition) (op_committed_offset partition) in
  Ret (mkOffsetCommitResponsePartition (op_partition_index partition)
    (match r with Ok _ => NO_ERROR | _ => UNKNOWN_SERVER_ERROR end)).

Definition commit_topic (topic_authorized : string -> bool) (group : GroupId) (topic : OffsetCommitRequestTopic)
    : GTask OffsetCommitResponseTopic :=
  if negb (topic_authorized (ot_name topic)) then Ret (refused_topic topic TOPIC_AUTHORIZATION_FAILED) else
  match TopicId_new (ot_name topic) with
  | Ok topic_id =>
      do! partitions := each_task (commit_partition group topic_id) (ot_partitions topic) in
      Ret (mkOffsetCommitResponseTopic (ot_name topic) partitions)
  | _ => Ret (refused_topic topic UNKNOWN_TOPIC_OR_PARTITION)
  end.

Definition top_level_refusal (request : OffsetCommitRequest) (error_code : Z) : list OffsetCommitResponseTopic :=
  map (fun topic => refused_topic topic error_code) (oc_topics request).

Definition offset_commit_handle (group_authorized : GroupId -> bool) (topic_authorized : string -> bool)
    (request : OffsetCommitRequest) : GTask (list OffsetCommitResponseTopic) :=
  match GroupId_new (oc_group_id request) with
  | Ok group =>
      if negb (group_authorized group) then Ret (top_level_refusal request GROUP_AUTHORIZATION_FAILED) else
      do! fenced := look (fence_here group (oc_member_id request) (Some (oc_generation_id request))
        (Some [GroupStable])) in
      match fenced with
      | Err refused => Ret (top_level_refusal request (Refusal_error_code refused))
      | _ => each_task (commit_topic topic_authorized group) (oc_topics request)
      end
  | _ => Ret (top_level_refusal request INVALID_REQUEST)
  end.

(** ** The requests *)

Inductive GroupOp : Type :=
| OpJoin (version : Z) (group_authorized : GroupId -> bool) (request : JoinGroupRequest)
| OpSync (version : Z) (group_authorized : GroupId -> bool) (request : SyncGroupRequest)
| OpHeartbeat (group_authorized : GroupId -> bool) (request : HeartbeatRequest)
| OpLeave (group_authorized : GroupId -> bool) (request : LeaveGroupRequest)
| OpCommit (group_authorized : GroupId -> bool) (topic_authorized : string -> bool) (request : OffsetCommitRequest)
| OpServe.

Inductive GroupAnswer : Type :=
| AnJoin (response : JoinGroupResponse)
| AnSync (response : SyncGroupResponse)
| AnHeartbeat (error_code : Z)
| AnLeave (response : LeaveGroupResponse)
| AnCommit (topics : list OffsetCommitResponseTopic)
| AnServed (r : Res unit).

Definition group_code (fuel : nat) (op : GroupOp) : GTask GroupAnswer :=
  match op with
  | OpJoin version authorized request => do! r := join_handle fuel version authorized request in Ret (AnJoin r)
  | OpSync version authorized request => do! r := sync_handle fuel version authorized request in Ret (AnSync r)
  | OpHeartbeat authorized request => do! r := heartbeat_handle authorized request in Ret (AnHeartbeat r)
  | OpLeave authorized request => do! r := leave_handle authorized request in Ret (AnLeave r)
  | OpCommit authorized topic_authorized request =>
      do! r := offset_commit_handle authorized topic_authorized request in Ret (AnCommit r)
  | OpServe => do! r := serve_one in Ret (AnServed r)
  end.

(** Any request at any time; the actor takes its next turn when it is done with
    the last, and none after a panic. *)
Definition group_may_start (w : TWorld Groups GroupAnswer GroupOp) (i : nat) (op : GroupOp) : Prop :=
  op = OpServe -> forall j t, tw_tasks w !! j = Some (OpServe, t) -> t = Ret (AnServed (Ok tt)).

(** Time passes. *)
Definition group_ticks (g g' : Groups) : Prop := exists now, g_now g <= now /\ g' = with_now now g.

(** ** Rebuilding group state from its log

    Models [GroupTransitionsTask::replay] of [group_transitions.rs],
    [CommittedOffsets::replay] of [offset_commit.rs] and the loop of
    [cluster/replay.rs] that runs both until they succeed. *)

Definition REPLAY_PAGE_SIZE : nat := 256.

(** ** One entry *)

Notation ReplayState := (FakeGroupCoordinator * gset GroupId)%type.

(** The coordinator is changed whatever the answer, the poisoned groups are the
    call's own. *)
Definition replay_entry (st : ReplayState) (entry : GroupMetadataEntry) : ReplayState * Res unit :=
  let '(c, poisoned) := st in
  match ge_record entry with
  | GroupTransitioned group event =>
      if decide (group ∈ poisoned) then (st, Ok tt)
      else match gc_transition c group event with
      | (c, Ok _) => ((if clears_roster event then gc_set_roster c group None else c, poisoned), Ok tt)
      | (c, Err e) => if is_illegal e then ((c, {[group]} ∪ poisoned), Ok tt) else ((c, poisoned), Err e)
      | (c, Panic) => ((c, poisoned), Panic)
      end
  | GroupRosterUpdated group roster =>
      if decide (group ∈ poisoned) then (st, Ok tt) else ((gc_set_roster c group roster, poisoned), Ok tt)
  | OffsetCommitted _ _ _ _ => (st, Ok tt)
  end.

Fixpoint replay_page (st : ReplayState) (page : list GroupMetadataEntry) : ReplayState * Res unit :=
  match page with
  | [] => (st, Ok tt)
  | entry :: page =>
      match replay_entry st entry with
      | (st, Ok _) => replay_page st page
      | failed => failed
      end
  end.

(** ** The loops

    [reads n] is whether the [n]-th read from the end of the fuel fails; the
    log only grows, and is taken as it is when the replay starts.  [Panic] is
    also what running out of fuel answers. *)

Fixpoint replay_loop (fuel : nat) (reads : nat -> option Error) (log : list GroupMetadataEntry)
    (start : CommitVersion) (st : ReplayState) : FakeGroupCoordinator * Res unit :=
  match fuel with
  | 0%nat => (st.1, Panic)
  | S fuel =>
      match reads fuel with
      | Some e => (st.1, Err e)
      | None =>
          let page := group_read_from log start REPLAY_PAGE_SIZE in
          match replay_page st page with
          | (st, Ok _) =>
              match last page with
              | None => (st.1, Ok tt)
              | Some entry =>
                  if (length page <? REPLAY_PAGE_SIZE)%nat then (st.1, Ok tt)
                  else match CommitVersion_advance (ge_version entry) 1 with
                  | Ok start => replay_loop fuel reads log start st
                  | Err e => (st.1, Err e)
                  | Panic => (st.1, Panic)
                  end
              end
          | (st, r) => (st.1, r)
          end
      end
  end.

Definition replay_transitions (fuel : nat) (reads : nat -> option Error) (log : list GroupMetadataEntry)
    (c : FakeGroupCoordinator) : FakeGroupCoordinator * Res unit :=
  replay_loop fuel reads log CommitVersion_ZERO (c, ∅).

Fixpoint offsets_loop (fuel : nat) (reads : nat -> option Error) (log : list GroupMetadataEntry)
    (start : CommitVersion) (offsets : gmap OffsetKey (CommitVersion * Z))
    : Res (gmap OffsetKey (CommitVersion * Z)) :=
  match fuel with
  | 0%nat => Panic
  | S fuel =>
      match reads fuel with
      | Some e => Err e
      | None =>
          let page := group_read_from log start REPLAY_PAGE_SIZE in
          let offsets := foldl (fun o e => apply_offset (ge_version e) (ge_record e) o) offsets page in
          match last page with
          | None => Ok offsets
          | Some entry =>
              if (length page <? REPLAY_PAGE_SIZE)%nat then Ok offsets
              else let? start := CommitVersion_advance (ge_version entry) 1 in
                   offsets_loop fuel reads log start offsets
          end
      end
  end.

(** The map is replaced only by a replay that succeeds. *)
Definition replay_offsets (fuel : nat) (reads : nat -> option Error) (log : list GroupMetadataEntry)
    (held : gmap OffsetKey (CommitVersion * Z)) : gmap OffsetKey (CommitVersion * Z) * Res unit :=
  match offsets_loop fuel reads log CommitVersion_ZERO ∅ with
  | Ok offsets => (offsets, Ok tt)
  | Err e => (held, Err e)
  | Panic => (held, Panic)
  end.

Definition never (e : Error) : bool := match retry_class e with RetryNever => true | _ => false end.

(** A result the retry loop ends on. *)
Definition permanent {A} (r : Res A) : bool :=
  match r with Err e => never e | Panic => true | Ok _ => false end.

(** [replay_groups]: both again and again until both are done; [reads k b n] is
    the [n]-th read of one of them in round [k], both counted down.  An error
    that is not worth a retry ends it; [false] is also the answer when the
    rounds are used up. *)
Fixpoint replay_groups (rounds fuel : nat) (reads : nat -> bool -> nat -> option Error) (log : list GroupMetadataEntry)
    (offsets_done transitions_done : bool) (offsets : gmap OffsetKey (CommitVersion * Z)) (c : FakeGroupCoordinator)
    : gmap OffsetKey (CommitVersion * Z) * FakeGroupCoordinator * bool :=
  match rounds with
  | 0%nat => (offsets, c, false)
  | S rounds =>
      let '(offsets, r1) := if offsets_done then (offsets, Ok tt)
                            else replay_offsets fuel (reads rounds false) log offsets in
      if permanent r1 then (offsets, c, false)
      else
        let '(c, r2) := if transitions_done then (c, Ok tt) else replay_transitions fuel (reads rounds true) log c in
        if permanent r2 then (offsets, c, false)
        else if is_ok r1 && is_ok r2 then (offsets, c, true)
        else replay_groups rounds fuel reads log (is_ok r1) (is_ok r2) offsets c
  end.
