(* ===== verification/GroupInv.v ===== *)
(** * GroupInv: the invariant of the group handlers

    What holds of the shared state between any two sections of any handlers,
    with the ghost state it is stated with, and what a task may rely on the
    others not to do. *)

From stdpp Require Import base tactics list numbers strings gmap.
From Stdlib Require Import ZArith Lia.
From S2P Require Import Prelude Types Bytes Group MsgGroup Tasks GroupRounds GroupHandlers.

Open Scope Z_scope.

(** ** Ghost state *)

(** What the actor has journaled and not yet applied. *)
Inductive Pending : Type :=
| PNone
| PJournaled (record : GroupMetadataRecord)
| PClearing (group : GroupId).

Record GGhost : Type := mkGGhost {
  gh_pending : Pending;
  gh_server : option nat;
  gh_retired : gset nat;
  gh_cells : gmap nat GroupId;
  gh_requests : gmap nat ActorRequest;
  gh_owner : gmap nat nat;
  gh_closed : gmap (GroupId * Z) nat;
  gh_spent : gset nat;
  gh_submitted : list (GroupId * Z * gmap string bytes * nat);
}.

Notation GView := (TView Groups GGhost GroupOp).

(** ** The parts of the invariant *)

Fixpoint group_increasing (prev : option CommitVersion) (es : list GroupMetadataEntry) : Prop :=
  match es with
  | [] => True
  | e :: es =>
      match prev with Some v => v < ge_version e | None => True end /\ group_increasing (Some (ge_version e)) es
  end.

(** The same records and rosters. *)
Definition same_groups (c c' : FakeGroupCoordinator) : Prop :=
  gc_groups c = gc_groups c' /\ gc_rosters c = gc_rosters c'.

(** The live coordinator is what replaying the log gives. *)
Definition lockstep (c : FakeGroupCoordinator) (l : list GroupMetadataEntry) : Prop :=
  exists c', replay_page (FakeGroupCoordinator_new, ∅) l = ((c', ∅), Ok tt) /\ same_groups c' c.

Definition is_offset (e : GroupMetadataEntry) : bool :=
  match ge_record e with OffsetCommitted _ _ _ _ => true | _ => false end.
Definition offsets_only (l : list GroupMetadataEntry) : Prop := Forall (fun e => is_offset e = true) l.

Definition in_step (p : Pending) (c : FakeGroupCoordinator) (l : list GroupMetadataEntry) : Prop :=
  match p with
  | PNone => lockstep c l
  | PJournaled record =>
      exists l1 e l2, l = l1 ++ e :: l2 /\ ge_record e = record /\ offsets_only l2 /\ lockstep c l1
  | PClearing group => lockstep (gc_set_roster c group None) l
  end.

Definition coord_wf (c : FakeGroupCoordinator) : Prop :=
  forall g r, gc_groups c !! g = Some r -> group_record_wf r.

(** The record a group has, or would start from. *)
Definition record_of (c : FakeGroupCoordinator) (g : GroupId) : GroupRecord := default FRESH (gc_groups c !! g).

Section parts.
Context (clean : bool).

Definition log_part (l : list GroupMetadataEntry) (c : FakeGroupCoordinator) (p : Pending) : Prop :=
  group_increasing None l /\ coord_wf c /\ (clean = true -> in_step p c l).
End parts.

(** A round's members: no one twice, and a protocol they share. *)
Definition members_ok (ms : list RoundMember) : Prop :=
  NoDup (map rm_member_id ms) /\ (ms = [] \/ exists p, common (as_candidates ms) p = true).

Definition close_ok (close : RoundClose) : Prop :=
  members_ok (rc_members close) /\ close = close_of (rc_generation close) (rc_members close).

Definition round_part (joins : gmap GroupId JoinEntry) (outcomes : gmap nat RoundOutcome) (next : nat)
    (cells : gmap nat GroupId) (closed : gmap (GroupId * Z) nat) : Prop :=
  (forall g entry round, joins !! g = Some entry -> je_open entry = Some round ->
     cells !! rd_outcome round = Some g /\ members_ok (rd_members round)) /\
  (forall id g, cells !! id = Some g -> (id < next)%nat) /\
  (forall id close, outcomes !! id = Some (Some close) ->
     close_ok close /\ exists g, cells !! id = Some g /\ closed !! (g, rc_generation close) = Some id).

(** A request that closed a group's join barrier, and the generation it made. *)
Definition barrier_at (requests : gmap nat ActorRequest) (replies : gmap nat ActorReply) (rid : nat)
    (g : GroupId) (generation : Z) : Prop :=
  requests !! rid = Some (RqTransition g EvJoinBarrierComplete) /\
  exists record, replies !! rid = Some (RpTransition (Ok record)) /\ gr_generation record = generation.

Definition ticket_part (requests : gmap nat ActorRequest) (replies : gmap nat ActorReply)
    (c : FakeGroupCoordinator) (closed : gmap (GroupId * Z) nat) (spent : gset nat) : Prop :=
  (forall rid g generation, barrier_at requests replies rid g generation ->
     generation <= gr_generation (record_of c g)) /\
  (forall rid rid' g generation, barrier_at requests replies rid g generation ->
     barrier_at requests replies rid' g generation -> rid = rid') /\
  (forall g generation id, closed !! (g, generation) = Some id ->
     exists rid, rid ∈ spent /\ barrier_at requests replies rid g generation) /\
  (forall rid, rid ∈ spent -> is_Some (requests !! rid)).

Definition channel_part (queue : list (nat * ActorRequest)) (replies : gmap nat ActorReply) (next : nat)
    (requests : gmap nat ActorRequest) (owner : gmap nat nat) : Prop :=
  NoDup (queue.*1) /\
  (forall rid r, (rid, r) ∈ queue -> requests !! rid = Some r /\ replies !! rid = None) /\
  (forall rid, is_Some (requests !! rid) -> (rid < next)%nat) /\
  (forall rid, is_Some (replies !! rid) -> is_Some (requests !! rid)) /\
  (forall rid, is_Some (owner !! rid) <-> is_Some (requests !! rid)).

(** An assignment someone submitted for a generation the group completed. *)
Definition submission (ops : gmap nat GroupOp) (c : FakeGroupCoordinator) (g : GroupId) (generation : Z)
    (assignments : gmap string bytes) (i : nat) : Prop :=
  generation <= gr_assignment_epoch (record_of c g) /\
  exists version authorized request, ops !! i = Some (OpSync version authorized request) /\
    sr_group_id request = g /\ sr_generation_id request = generation /\ sr_assignments request <> [] /\
    assignments = assignment_map request.

Definition sync_part (sync : gmap GroupId SyncEntry) (submitted : list (GroupId * Z * gmap string bytes * nat))
    (ops : gmap nat GroupOp) (c : FakeGroupCoordinator) : Prop :=
  (forall g generation m i, (g, generation, m, i) ∈ submitted -> submission ops c g generation m i) /\
  (forall g entry a m, sync !! g = Some entry -> sy_assignments entry = Some a -> sa_map a = Some m ->
     exists i, (g, sa_generation a, m, i) ∈ submitted).

Definition offset_part (offsets : gmap OffsetKey (CommitVersion * Z)) (l : list GroupMetadataEntry) : Prop :=
  forall g t p v o, offsets !! (g, t, p) = Some (v, o) -> mkGroupEntry v (OffsetCommitted g t p o) ∈ l.

Definition server_part (server : option nat) (retired : gset nat) (ops : gmap nat GroupOp) (p : Pending) : Prop :=
  (forall i, server = Some i -> ops !! i = Some OpServe /\ i ∉ retired) /\
  (server = None -> p = PNone) /\
  (forall i, i ∈ retired -> is_Some (ops !! i)).

(** ** The invariant *)

Definition group_inv (clean : bool) (v : GView) : Prop :=
  let s := tv_state v in let gh := tv_ghost v in
  log_part clean (g_log s) (g_coordinator s) (gh_pending gh) /\
  round_part (g_joins s) (g_outcomes s) (g_next_outcome s) (gh_cells gh) (gh_closed gh) /\
  ticket_part (gh_requests gh) (g_replies s) (g_coordinator s) (gh_closed gh) (gh_spent gh) /\
  channel_part (g_queue s) (g_replies s) (g_next_request s) (gh_requests gh) (gh_owner gh) /\
  sync_part (g_sync s) (gh_submitted gh) (tv_ops v) (g_coordinator s) /\
  offset_part (g_offsets s) (g_log s) /\
  server_part (gh_server gh) (gh_retired gh) (tv_ops v) (gh_pending gh).

(** ** What every section does *)

Definition coord_le (c c' : FakeGroupCoordinator) : Prop :=
  forall g, gr_generation (record_of c g) <= gr_generation (record_of c' g) /\
    gr_assignment_epoch (record_of c g) <= gr_assignment_epoch (record_of c' g).

Definition offsets_le (o o' : gmap OffsetKey (CommitVersion * Z)) : Prop :=
  forall k v x, o !! k = Some (v, x) -> exists v' x', o' !! k = Some (v', x') /\ v <= v'.

Record group_grows (v v' : GView) : Prop := {
  gg_log : g_log (tv_state v) `prefix_of` g_log (tv_state v');
  gg_coord : coord_le (g_coordinator (tv_state v)) (g_coordinator (tv_state v'));
  gg_offsets : offsets_le (g_offsets (tv_state v)) (g_offsets (tv_state v'));
  gg_outcomes : g_outcomes (tv_state v) ⊆ g_outcomes (tv_state v');
  gg_replies : g_replies (tv_state v) ⊆ g_replies (tv_state v');
  gg_next : (g_next_request (tv_state v) <= g_next_request (tv_state v'))%nat;
  gg_cells : gh_cells (tv_ghost v) ⊆ gh_cells (tv_ghost v');
  gg_requests : gh_requests (tv_ghost v) ⊆ gh_requests (tv_ghost v');
  gg_owner : gh_owner (tv_ghost v) ⊆ gh_owner (tv_ghost v');
  gg_submitted : gh_submitted (tv_ghost v) ⊆ gh_submitted (tv_ghost v');
  gg_retired : gh_retired (tv_ghost v) ⊆ gh_retired (tv_ghost v');
  gg_ops : tv_ops v ⊆ tv_ops v';
}.

(** ** What task [i] relies on *)

(** To the actor, the others only append offsets to the log and requests to its
    queue. *)
Record server_frame (v v' : GView) : Prop := {
  sf_server : gh_server (tv_ghost v') = gh_server (tv_ghost v);
  sf_pending : gh_pending (tv_ghost v') = gh_pending (tv_ghost v);
  sf_coord : g_coordinator (tv_state v') = g_coordinator (tv_state v);
  sf_replies : g_replies (tv_state v') = g_replies (tv_state v);
  sf_queue : exists q, g_queue (tv_state v') = g_queue (tv_state v) ++ q /\
    Forall (fun x => (g_next_request (tv_state v) <= x.1)%nat) q;
  sf_log : exists l, g_log (tv_state v') = g_log (tv_state v) ++ l /\ offsets_only l;
}.

Record group_rely (i : nat) (v v' : GView) : Prop := {
  gr_grows : group_grows v v';
  gr_frame : gh_server (tv_ghost v) = Some i -> server_frame v v';
  gr_tickets : forall rid, gh_owner (tv_ghost v) !! rid = Some i ->
    rid ∈ gh_spent (tv_ghost v') -> rid ∈ gh_spent (tv_ghost v);
}.

(** ** They are preorders *)

Lemma coord_le_refl c : coord_le c c.
Proof. intros g. lia. Qed.
Lemma offsets_le_refl o : offsets_le o o.
Proof. intros k v x Hk. eauto with lia. Qed.
#[export] Hint Resolve coord_le_refl offsets_le_refl : oq.

Lemma group_grows_refl v : group_grows v v.
Proof. split; auto with oq. Qed.

Lemma group_grows_trans v1 v2 v3 : group_grows v1 v2 -> group_grows v2 v3 -> group_grows v1 v3.
Proof.
  intros [] []. split; try (etrans; eassumption).
  - intros g. destruct (gg_coord0 g), (gg_coord1 g). lia.
  - intros k v x Hk. apply gg_offsets0 in Hk as (v' & x' & Hk & Hv).
    apply gg_offsets1 in Hk as (v'' & x'' & Hk & Hv'). exists v'', x''. split; [done|lia].
Qed.

Lemma server_frame_same v v' :
  gh_server (tv_ghost v') = gh_server (tv_ghost v) -> gh_pending (tv_ghost v') = gh_pending (tv_ghost v) ->
  g_coordinator (tv_state v') = g_coordinator (tv_state v) -> g_replies (tv_state v') = g_replies (tv_state v) ->
  g_queue (tv_state v') = g_queue (tv_state v) -> g_log (tv_state v') = g_log (tv_state v) -> server_frame v v'.
Proof. intros. split; try done; exists []; (split; [by rewrite app_nil_r|constructor]). Qed.

Lemma server_frame_refl v : server_frame v v.
Proof. by apply server_frame_same. Qed.

Lemma group_rely_refl i v : group_rely i v v.
Proof. split; [apply group_grows_refl|by intros; apply server_frame_refl|done]. Qed.

Lemma group_rely_trans i v1 v2 v3 : group_rely i v1 v2 -> group_rely i v2 v3 -> group_rely i v1 v3.
Proof.
  intros [G1 F1 T1] [G2 F2 T2]. split; [by eapply group_grows_trans| |].
  - intros Hs. destruct (F1 Hs) as [A1 A2 A3 A4 (q & A5 & A6) (l & A7 & A8)].
    rewrite <-A1 in Hs. destruct (F2 Hs) as [B1 B2 B3 B4 (q' & B5 & B6) (l' & B7 & B8)].
    split; [congruence..| |].
    + exists (q ++ q'). rewrite B5, A5, app_assoc. split; [done|]. apply Forall_app. split; [done|].
      eapply Forall_impl; [exact B6|]. simpl. intros x Hx. pose proof (gg_next _ _ G1). lia.
    + exists (l ++ l'). rewrite B7, A7, app_assoc. split; [done|]. by apply Forall_app.
  - intros rid Ho Hs. apply (T1 rid Ho). apply T2; [|done].
    eapply lookup_weaken; [done|]. apply (gg_owner _ _ G1).
Qed.

(** * What the sections on join rounds preserve *)

(** ** Members *)

Lemma common_as_candidates ms p :
  common (as_candidates ms) p = true <-> forall m, m ∈ ms -> p ∈ map fst (rm_protocols m).
Proof.
  unfold common, as_candidates. rewrite forallb_forall. split.
  - intros H m Hm. apply contains_spec. apply (H (mkCandidate (rm_member_id m) (map fst (rm_protocols m)))).
    apply in_map_iff. exists m. split; [done|]. by apply list_elem_of_In.
  - intros H x (m & <- & Hm)%in_map_iff. apply contains_spec. apply H. by apply list_elem_of_In.
Qed.

Lemma members_ok_nil : members_ok [].
Proof. split; [constructor|by left]. Qed.

Lemma members_ok_filter (f : RoundMember -> bool) ms : members_ok ms -> members_ok (List.filter f ms).
Proof.
  intros [Hnd Hc]. split.
  - clear Hc. induction ms as [|m ms IH]; simpl in *; [constructor|]. apply NoDup_cons in Hnd as [Hm Hnd].
    destruct (f m); [|by apply IH]. simpl. apply NoDup_cons. split; [|by apply IH].
    intros Hin. apply Hm. apply list_elem_of_In in Hin. apply in_map_iff in Hin as (m' & Heq & Hin).
    apply filter_In in Hin as [Hin _]. apply list_elem_of_In. apply in_map_iff. eauto.
  - destruct Hc as [->|[p Hp]]; [by left|]. right. exists p. rewrite common_as_candidates in *. intros m Hm.
    apply Hp. apply list_elem_of_In. apply list_elem_of_In, filter_In in Hm. tauto.
Qed.

Lemma members_ok_Permutation ms ms' : ms ≡ₚ ms' -> members_ok ms -> members_ok ms'.
Proof.
  intros Hp [Hnd Hc]. split; [by rewrite <-Hp|]. destruct Hc as [->|[p Hc]].
  - apply Permutation_nil_l in Hp as ->. by left.
  - right. exists p. rewrite common_as_candidates in *. intros m Hm. apply Hc. by rewrite Hp.
Qed.

(** Replacing the entry of a member that is there keeps the ids. *)
Lemma put_member_ids member ms : NoDup (map rm_member_id ms) -> NoDup (map rm_member_id (put_member member ms)).
Proof.
  intros Hnd. unfold put_member. destruct (existsb _ ms) eqn:He.
  - match goal with |- context [?go ms] => set (put := go) end.
    assert (map rm_member_id (put ms) = map rm_member_id ms) as ->; [|done]. clear He Hnd.
    induction ms as [|m ms IH]; [done|]. cbn. destruct (String.eqb_spec (rm_member_id m) (rm_member_id member)) as [->|];
      [done|]. simpl. f_equal. exact IH.
  - rewrite map_app. simpl. apply NoDup_app. split; [done|]. split; [|apply NoDup_singleton].
    intros x Hx ->%list_elem_of_singleton. apply list_elem_of_In, in_map_iff in Hx as (m & Heq & Hin).
    assert (existsb (fun m => String.eqb (rm_member_id m) (rm_member_id member)) ms = true) as Ht; [|congruence].
    apply existsb_exists. exists m. split; [done|]. by apply String.eqb_eq.
Qed.

Lemma members_ok_put member ms :
  members_ok ms -> elect (as_candidates (put_member member ms)) <> None -> members_ok (put_member member ms).
Proof.
  intros [Hnd _] He. split; [by apply put_member_ids|]. right.
  destruct (elect _) as [e|] eqn:Hel; [|done]. exists (el_protocol_name e). by apply elect_common in Hel.
Qed.

(** ** Sections that settle nothing *)

(** Each sync cell holds what it held. *)
Definition cell_of (s : gmap GroupId SyncEntry) (g : GroupId) : option SyncAssignment :=
  sy_assignments (default SyncEntry_default (s !! g)).
Definition sync_same (s s' : gmap GroupId SyncEntry) : Prop := forall g, cell_of s' g = cell_of s g.

(** A section on the rounds that closes none, with the cells it names. *)
Record quiet (cells : gmap nat GroupId) (s : Groups) (cells' : gmap nat GroupId) (s' : Groups) : Prop := {
  q_log : g_log s' = g_log s;
  q_coordinator : g_coordinator s' = g_coordinator s;
  q_offsets : g_offsets s' = g_offsets s;
  q_queue : g_queue s' = g_queue s;
  q_replies : g_replies s' = g_replies s;
  q_next : g_next_request s' = g_next_request s;
  q_sync : sync_same (g_sync s) (g_sync s');
  q_outcomes : g_outcomes s ⊆ g_outcomes s';
  q_cells : cells ⊆ cells';
  q_rounds : forall closed, round_part (g_joins s) (g_outcomes s) (g_next_outcome s) cells closed ->
    round_part (g_joins s') (g_outcomes s') (g_next_outcome s') cells' closed;
}.

Lemma quiet_refl cells s : quiet cells s cells s.
Proof. by split. Qed.

Lemma quiet_trans c1 s1 c2 s2 c3 s3 : quiet c1 s1 c2 s2 -> quiet c2 s2 c3 s3 -> quiet c1 s1 c3 s3.
Proof.
  intros [L1 C1 O1 Q1 R1 N1 S1 U1 E1 P1] [L2 C2 O2 Q2 R2 N2 S2 U2 E2 P2]. 
  split; try congruence; try (by etrans); auto.
Qed.

Lemma round_insert joins outcomes next cells closed g entry :
  round_part joins outcomes next cells closed ->
  (forall round, je_open entry = Some round -> cells !! rd_outcome round = Some g /\ members_ok (rd_members round)) ->
  round_part (<[g := entry]> joins) outcomes next cells closed.
Proof.
  intros (H1 & H2 & H3) He. split; [|done].
  intros g' entry' round [[-> <-]|[Hne Hl]]%lookup_insert_Some Ho; [by apply He|by eapply H1].
Qed.

Lemma round_open joins outcomes next cells closed s g round :
  round_part joins outcomes next cells closed -> joins = g_joins s ->
  je_open (join_entry g s) = Some round -> cells !! rd_outcome round = Some g /\ members_ok (rd_members round).
Proof.
  intros (H1 & _) -> Ho. unfold join_entry in Ho. destruct (g_joins s !! g) eqn:Hg; simpl in Ho; [|done]. eauto.
Qed.

(** An entry that keeps its round. *)
Lemma quiet_entry cells s g last in_flight :
  quiet cells s cells (with_joins (<[g := mkJoinEntry (je_open (join_entry g s)) last in_flight]> (g_joins s)) s).
Proof.
  split; try done. simpl. intros closed Hr. apply round_insert; [done|]. simpl. intros round Ho. by eapply round_open.
Qed.

(** A round with other members. *)
Lemma quiet_members cells s g round members awaiting :
  je_open (join_entry g s) = Some round -> (members_ok (rd_members round) -> members_ok members) ->
  quiet cells s cells (set_open g (Some (mkOpenRound members awaiting (rd_deadline round) (rd_outcome round))) s).
Proof.
  intros Ho Hm. split; try done. simpl. intros closed Hr. apply round_insert; [done|]. simpl.
  intros ? [= <-]. simpl. destruct (round_open _ _ _ _ _ s g round Hr eq_refl Ho). auto.
Qed.

Lemma quiet_claim cells s g : quiet cells s cells (claim_or_wait g s).1.
Proof.
  unfold claim_or_wait. destruct (join_entry g s) as [o l f] eqn:He. simpl. destruct f; simpl.
  - replace o with (je_open (join_entry g s)) by (by rewrite He). apply quiet_entry.
  - replace o with (je_open (join_entry g s)) by (by rewrite He). apply quiet_entry.
Qed.

Lemma quiet_release cells s g : quiet cells s cells (release g s).
Proof.
  unfold release. destruct (g_joins s !! g) as [entry|] eqn:Hg; [|apply quiet_refl].
  replace (je_open entry) with (je_open (join_entry g s)) by (unfold join_entry; by rewrite Hg). apply quiet_entry.
Qed.

Lemma quiet_timeout cells s g fold : quiet cells s cells (set_rebalance_timeout g fold s).
Proof.
  destruct fold as [fold|]; [|apply quiet_refl]. split; try done. intros g'. unfold cell_of. simpl.
  destruct (decide (g = g')) as [<-|Hne]; [by rewrite lookup_insert_eq|by rewrite lookup_insert_ne].
Qed.

Lemma quiet_publish cells s g closed : quiet cells s cells (publish g closed s).
Proof. apply quiet_timeout. Qed.

Lemma quiet_touch cells s g : quiet cells s cells (touch_sync g s).
Proof.
  split; try done. intros g'. unfold cell_of, touch_sync, sync_entry. simpl.
  destruct (decide (g = g')) as [<-|Hne]; [by rewrite lookup_insert_eq|by rewrite lookup_insert_ne].
Qed.

(** A new round takes the next cell. *)
Lemma round_fresh joins outcomes next cells closed :
  round_part joins outcomes next cells closed -> cells !! next = None.
Proof. intros (_ & H2 & _). destruct (cells !! next) eqn:Hn; [|done]. apply H2 in Hn. lia. Qed.

Lemma quiet_install cells s g timeout closed :
  round_part (g_joins s) (g_outcomes s) (g_next_outcome s) cells closed ->
  quiet cells s (<[g_next_outcome s := g]> cells) (install_round g timeout s).
Proof.
  intros Hr0. pose proof (round_fresh _ _ _ _ _ Hr0) as Hf. split; try done; simpl.
  - by apply insert_subseteq.
  - intros closed' (H1 & H2 & H3). apply round_insert.
    + split; [|split].
      * intros g' entry round Hg Ho. destruct (H1 _ _ _ Hg Ho) as [Hc Hm]. split; [|done].
        rewrite lookup_insert_ne; [done|]. intros Heq. congruence.
      * intros id g' [[<- _]|[_ Hid]]%lookup_insert_Some; [lia|]. apply H2 in Hid. lia.
      * intros id close Hid. destruct (H3 _ _ Hid) as (Hc & g' & Hcell & Hcl). split; [done|]. exists g'.
        split; [|done]. rewrite lookup_insert_ne; [done|]. intros Heq. congruence.
    + simpl. intros round [= <-]. simpl. rewrite lookup_insert_eq. split; [done|apply members_ok_nil].
Qed.

(** Abandoning publishes no close. *)
Lemma quiet_abandon cells s g forget : quiet cells s cells (abandon_round g forget s).
Proof.
  unfold abandon_round. destruct (je_open (join_entry g s)) as [round|] eqn:Ho; [|apply quiet_refl].
  unfold outcome_set. destruct (g_outcomes s !! rd_outcome round) as [o|] eqn:Hid.
  - split; try done; simpl. intros closed Hr. by apply round_insert.
  - split; try done; simpl; [by apply insert_subseteq|]. intros closed (H1 & H2 & H3). apply round_insert; [|done].
    split; [done|]. split; [done|]. intros id close [[_ ?]|[_ Hc]]%lookup_insert_Some; [done|by apply H3].
Qed.

Lemma quiet_withdraw cells s g member_id id : quiet cells s cells (withdraw g member_id id s).
Proof.
  unfold withdraw. destruct (je_open (join_entry g s)) as [round|] eqn:Ho; [|apply quiet_refl].
  destruct (is_own_open_round round id s); [|apply quiet_refl].
  eapply quiet_trans; [apply (quiet_members cells s g round); [done|apply members_ok_filter]|apply quiet_timeout].
Qed.

Lemma quiet_reprune cells s g id : quiet cells s cells (reprune_awaiting g id s).1.
Proof.
  unfold reprune_awaiting. destruct (je_open (join_entry g s)) as [round|] eqn:Ho; [|apply quiet_refl].
  destruct (is_own_open_round round id s); [|apply quiet_refl].
  destruct (rd_awaiting round); [|apply quiet_refl]. by apply quiet_members.
Qed.

Lemma quiet_deadline_claim cells s g id : quiet cells s cells (deadline_claim g id s).1.
Proof.
  unfold deadline_claim. destruct (je_open (join_entry g s)) as [round|]; [|apply quiet_refl].
  destruct (is_own_open_round round id s); [|apply quiet_refl].
  pose proof (quiet_claim cells s g) as Hq. destruct (claim_or_wait g s). exact Hq.
Qed.

(** ** Planning *)

Lemma join_entry_insert g e s : join_entry g (with_joins (<[g := e]> (g_joins s)) s) = e.
Proof. unfold join_entry. simpl. by rewrite lookup_insert_eq. Qed.

(** What the steps of a plan say of the cell a pending join waits on. *)
Definition step_names (g : GroupId) (cells : gmap nat GroupId) (step : Step) : Prop :=
  match step with
  | SDone (JPending _ id) => cells !! id = Some g
  | SDone (JReady _) => False
  | _ => True
  end.

Lemma quiet_join_round cells s g member round closed :
  round_part (g_joins s) (g_outcomes s) (g_next_outcome s) cells closed -> je_open (join_entry g s) = Some round ->
  quiet cells s cells (join_round g member round s).1 /\ step_names g cells (join_round g member round s).2.
Proof.
  intros Hr Ho. unfold join_round. destruct (elect _) as [e|] eqn:He; [|by split; [apply quiet_refl|]].
  destruct (round_open _ _ _ _ _ s g round Hr eq_refl Ho) as [Hcell Hm].
  set (round' := mkOpenRound _ _ _ _). assert (quiet cells s cells (set_open g (Some round') s)) as Hq.
  { apply quiet_members; [done|]. intros Hok. apply members_ok_put; [done|]. by rewrite He. }
  case_bool_decide; [|by split].
  pose proof (quiet_claim cells (set_open g (Some round') s) g) as Hc.
  destruct (claim_or_wait g (set_open g (Some round') s)) as [s' held]. simpl in *.
  split; [by eapply quiet_trans|]. by destruct held.
Qed.

Lemma quiet_plan_open cells s g timeout closed :
  round_part (g_joins s) (g_outcomes s) (g_next_outcome s) cells closed ->
  exists cells', quiet cells s cells' (plan_open g timeout s).1 /\
    match (plan_open g timeout s).2 with Some step => step_names g cells' step | None => True end.
Proof.
  intros Hr. unfold plan_open. pose proof (quiet_claim cells s g) as Hc.
  destruct (claim_or_wait g s) as [s1 held]. simpl in Hc. destruct held; [by exists cells|].
  destruct (opening_event _) as [[event|]|[]|]; simpl.
  - by exists cells.
  - pose proof (q_rounds _ _ _ _ Hc _ Hr) as Hr1. eexists. split; [|done].
    eapply quiet_trans; [exact Hc|]. eapply quiet_trans; [by eapply quiet_install|apply quiet_release].
  - exists cells. split; [|done]. eapply quiet_trans; [exact Hc|apply quiet_release].
  - exists cells. split; [|done]. eapply quiet_trans; [exact Hc|apply quiet_release].
Qed.

Lemma quiet_plan_join cells s g member timeout closed :
  round_part (g_joins s) (g_outcomes s) (g_next_outcome s) cells closed ->
  exists cells', quiet cells s cells' (plan_join g member timeout s).1 /\
    step_names g cells' (plan_join g member timeout s).2.
Proof.
  intros Hr. unfold plan_join.
  assert (exists cells', let p := (if needs_open g s then plan_open g timeout s else (s, None)) in
    quiet cells s cells' p.1 /\ match p.2 with Some step => step_names g cells' step | None => True end) as H.
  { destruct (needs_open g s); [by eapply quiet_plan_open|]. exists cells. by split; [apply quiet_refl|]. }
  destruct H as (cells' & Hq & Hs). destruct (if needs_open g s then _ else _) as [s1 [step|]]; simpl in *.
  - by exists cells'.
  - pose proof (q_rounds _ _ _ _ Hq _ Hr) as Hr1.
    destruct (je_open (join_entry g s1)) as [round|] eqn:Ho.
    + destruct (quiet_join_round cells' s1 g member round closed Hr1 Ho) as [Hq2 Hn].
      exists cells'. split; [by eapply quiet_trans|done].
    + exists cells'. by split.
Qed.
