(* ===== verification/GroupSafe.v ===== *)
(** * GroupSafe: every group handler keeps the invariant

    The rule of each section of the handlers, and from them a judgement per
    handler, with what its answer claims. *)

From stdpp Require Import base tactics list numbers strings gmap.
From Stdlib Require Import ZArith Lia.
From S2P Require Import Prelude Types Bytes Group MsgGroup Tasks GroupRounds GroupHandlers GroupInv.

Open Scope Z_scope.

(** ** Changes of the ghost state *)

Definition gh_with_cells (cells : gmap nat GroupId) (gh : GGhost) : GGhost :=
  mkGGhost (gh_pending gh) (gh_server gh) (gh_retired gh) cells (gh_requests gh) (gh_owner gh)
    (gh_closed gh) (gh_spent gh) (gh_submitted gh).
Definition gh_with_closed (closed : gmap (GroupId * Z) nat) (spent : gset nat) (gh : GGhost) : GGhost :=
  mkGGhost (gh_pending gh) (gh_server gh) (gh_retired gh) (gh_cells gh) (gh_requests gh) (gh_owner gh)
    closed spent (gh_submitted gh).
Definition gh_with_submitted (submitted : list (GroupId * Z * gmap string bytes * nat)) (gh : GGhost) : GGhost :=
  mkGGhost (gh_pending gh) (gh_server gh) (gh_retired gh) (gh_cells gh) (gh_requests gh) (gh_owner gh)
    (gh_closed gh) (gh_spent gh) submitted.
Definition gh_with_request (rid i : nat) (request : ActorRequest) (gh : GGhost) : GGhost :=
  mkGGhost (gh_pending gh) (gh_server gh) (gh_retired gh) (gh_cells gh) (<[rid := request]> (gh_requests gh))
    (<[rid := i]> (gh_owner gh)) (gh_closed gh) (gh_spent gh) (gh_submitted gh).
Definition gh_with_pending (p : Pending) (gh : GGhost) : GGhost :=
  mkGGhost p (gh_server gh) (gh_retired gh) (gh_cells gh) (gh_requests gh) (gh_owner gh)
    (gh_closed gh) (gh_spent gh) (gh_submitted gh).
Definition gh_with_server (server : option nat) (retired : gset nat) (gh : GGhost) : GGhost :=
  mkGGhost (gh_pending gh) server retired (gh_cells gh) (gh_requests gh) (gh_owner gh)
    (gh_closed gh) (gh_spent gh) (gh_submitted gh).

Lemma sync_part_same sync sync' submitted ops c :
  sync_same sync sync' -> sync_part sync submitted ops c -> sync_part sync' submitted ops c.
Proof.
  intros Hs [H1 H2]. split; [done|]. intros g entry a m He Ha Hm. specialize (Hs g). unfold cell_of in Hs.
  rewrite He in Hs. simpl in Hs. rewrite Ha in Hs. destruct (sync !! g) as [entry'|] eqn:Hg; [|done].
  by eapply (H2 g entry' a m).
Qed.

(** ** The log *)

Lemma group_increasing_last prev es e :
  group_increasing prev es -> group_validate [e] (match group_last_version es with Some v => Some v | None => prev end) = Ok tt ->
  group_increasing prev (es ++ [e]).
Proof.
  revert prev. induction es as [|x es IH]; intros prev; simpl.
  - intros _ Hv. split; [|done]. destruct prev as [p|]; [|done]. destruct (ge_version e <=? p) eqn:Hle; [done|]. by zbool.
  - intros [Hx Hes] Hv. split; [done|]. apply IH; [done|]. unfold group_last_version in *. simpl in Hv.
    rewrite last_cons in Hv. by destruct (last es).
Qed.

(** What an append of one entry leaves. *)
Lemma group_append_one l e l' r :
  group_append l [e] = (l', r) ->
  (r = Ok tt /\ l' = l ++ [e] /\ (group_increasing None l -> group_increasing None l')) \/
  ((exists err, r = Err err) /\ l' = l).
Proof.
  unfold group_append. destruct (group_validate [e] (group_last_version l)) as [[]|err|] eqn:Hv.
  - intros [= <- <-]. left. split_and!; [done..|]. intros Hi. apply group_increasing_last; [done|].
    by destruct (group_last_version l).
  - intros [= <- <-]. right. eauto.
  - simpl in Hv. by repeat case_match.
Qed.

Lemma replay_page_app st l1 l2 :
  replay_page st (l1 ++ l2) =
    match replay_page st l1 with (st', Ok _) => replay_page st' l2 | failed => failed end.
Proof.
  revert st. induction l1 as [|e l1 IH]; intros st; simpl; [done|].
  destruct (replay_entry st e) as [st' [[]|err|]]; [apply IH|done|done].
Qed.

Lemma replay_offset st e : is_offset e = true -> replay_entry st e = (st, Ok tt).
Proof. destruct st, e as [v [| |]]; done. Qed.

Lemma lockstep_offset c l e : is_offset e = true -> lockstep c l -> lockstep c (l ++ [e]).
Proof.
  intros He (c' & Hr & Hs). exists c'. split; [|done]. rewrite replay_page_app, Hr. cbn [replay_page].
  by rewrite replay_offset.
Qed.

Lemma in_step_offset p c l e : is_offset e = true -> in_step p c l -> in_step p c (l ++ [e]).
Proof.
  intros He. destruct p as [|record|group]; simpl; [by apply lockstep_offset| |by apply lockstep_offset].
  intros (l1 & e1 & l2 & -> & Hrec & Hl2 & Hls). exists l1, e1, (l2 ++ [e]). rewrite <-app_assoc.
  split_and!; try done. apply Forall_app. split; [done|by constructor].
Qed.

Section safe.
Context (clean : bool).

(** With [clean], no append lands whose caller is told it failed. *)
Definition group_allowed (c : Choice) : Prop := clean = true -> ch_landed c = false.

Notation goes := (tgoes (group_inv clean) group_rely group_grows).
Notation safe := (tsafe group_allowed (group_inv clean) group_rely group_grows).

(** A section on the rounds that closes none. *)
Lemma goes_quiet i v cells' s' (Q : GView -> Prop) :
  group_inv clean v -> quiet (gh_cells (tv_ghost v)) (tv_state v) cells' s' ->
  (forall v', group_grows v v' -> gh_cells (tv_ghost v') = cells' -> tv_state v' = s' ->
     (forall j, group_rely j v v') -> Q v') ->
  goes i v s' Q.
Proof.
  intros (HL & HR & HT & HC & HS & HO & HV) Hq HQ. exists (gh_with_cells cells' (tv_ghost v)).
  destruct Hq as [L C O Qu R N S U E P]. set (v' := mkTView _ _ _).
  assert (group_grows v v') as Hg.
  { split; simpl; rewrite ?L, ?C, ?O, ?R, ?N; auto with oq. }
  assert (forall j, group_rely j v v') as Hr.
  { intros j. split; [done| |done]. intros _. by apply server_frame_same. }
  split; [|by auto].
  unfold group_inv; simpl. rewrite ?L, ?C, ?O, ?R, ?N, ?Qu. split_and!; try done; [by apply P|].
  by eapply sync_part_same.
Qed.

(** A section on what the invariant says nothing of. *)
Lemma quiet_elsewhere cells s s' :
  g_log s' = g_log s -> g_coordinator s' = g_coordinator s -> g_offsets s' = g_offsets s ->
  g_queue s' = g_queue s -> g_replies s' = g_replies s -> g_next_request s' = g_next_request s ->
  g_sync s' = g_sync s -> g_outcomes s' = g_outcomes s -> g_joins s' = g_joins s ->
  g_next_outcome s' = g_next_outcome s -> quiet cells s cells s'.
Proof.
  intros L C O Q R N S U J E. split; try done; [intros g; by rewrite S|by rewrite U|].
  intros closed. by rewrite J, U, E.
Qed.

Lemma safe_quiet i f (Q : GView -> Prop) v :
  (forall v1, group_rely i v v1 -> group_inv clean v1 ->
     exists cells', quiet (gh_cells (tv_ghost v1)) (tv_state v1) cells' (f (tv_state v1)) /\
       forall v', group_rely i v1 v' -> gh_cells (tv_ghost v') = cells' -> tv_state v' = f (tv_state v1) -> Q v') ->
  safe i (change f) (fun _ => Q) v.
Proof.
  intros H. apply tsafe_section. intros v1 Hr Hi. destruct (H v1 Hr Hi) as (cells' & Hq & HQ).
  eapply goes_quiet; [done..|]. intros v' Hg Hc Hs Hrel. by apply HQ.
Qed.

Lemma safe_change i f (Q : GView -> Prop) v :
  (forall cells s, quiet cells s cells (f s)) -> (forall v', group_rely i v v' -> Q v') ->
  safe i (change f) (fun _ => Q) v.
Proof.
  intros Hf HQ. apply safe_quiet. intros v1 Hr _. eexists. split; [apply Hf|]. intros v' Hr' _ _.
  apply HQ. by eapply group_rely_trans.
Qed.

Lemma safe_section {X} i (f : Groups -> Groups * X) (Q : X -> GView -> Prop) v :
  (forall cells s, quiet cells s cells (f s).1) -> (forall x v', group_rely i v v' -> Q x v') ->
  safe i (section f) Q v.
Proof.
  intros Hf HQ. apply tsafe_section. intros v1 Hr Hi. eapply goes_quiet; [done|apply Hf|].
  intros v' _ _ _ Hr'. apply HQ. by eapply group_rely_trans.
Qed.

Lemma safe_look {X} i (f : Groups -> X) (Q : X -> GView -> Prop) v :
  (forall v1, group_rely i v v1 -> group_inv clean v1 -> Q (f (tv_state v1)) v1) -> safe i (look f) Q v.
Proof. apply tsafe_look; [apply group_rely_refl|apply group_grows_refl]. Qed.

Lemma safe_timer i (Q : bool -> GView -> Prop) v :
  (forall b v', group_rely i v v' -> Q b v') -> safe i woken_by_timer Q v.
Proof. intros HQ. apply tsafe_timer; [apply group_rely_refl|apply group_grows_refl|auto]. Qed.

(** An action that changes nothing. *)
Lemma goes_unchanged i v (Q : GView -> Prop) : group_inv clean v -> Q v -> goes i v (tv_state v) Q.
Proof. apply tgoes_id; [apply group_rely_refl|apply group_grows_refl]. Qed.

(** ** The channel *)

Lemma channel_enqueue queue replies next requests owner rid i request :
  rid = next -> channel_part queue replies next requests owner ->
  channel_part (queue ++ [(rid, request)]) replies (S next) (<[rid := request]> requests) (<[rid := i]> owner).
Proof.
  intros -> (H1 & H2 & H3 & H4 & H5).
  assert (requests !! next = None) as Hreq.
  { destruct (requests !! next) eqn:Hn; [|done]. assert (next < next)%nat; [apply H3; by eexists|lia]. }
  assert (replies !! next = None) as Hrep.
  { destruct (replies !! next) eqn:Hn; [|done]. assert (is_Some (requests !! next)) as [? ?]; [apply H4; by eexists|congruence]. }
  split_and!.
  - rewrite fmap_app. apply NoDup_app. split; [done|]. split; [|apply NoDup_singleton].
    intros x Hx ->%list_elem_of_singleton. apply list_elem_of_fmap in Hx as ([r q] & Heq & Hin). simpl in Heq. subst r.
    apply H2 in Hin as [Hin _]. congruence.
  - intros r q [Hin|[= -> ->]%list_elem_of_singleton]%elem_of_app.
    + destruct (H2 _ _ Hin) as [? ?]. split; [|done]. rewrite lookup_insert_ne; [done|]. intros <-. congruence.
    + by rewrite lookup_insert_eq.
  - intros r [q [[<- _]|[_ Hr]]%lookup_insert_Some]; [lia|]. assert (r < next)%nat; [apply H3; by eexists|lia].
  - intros r Hr. destruct (decide (next = r)) as [<-|Hne].
    + destruct Hr as [? ?]. congruence.
    + rewrite lookup_insert_ne by done. by apply H4.
  - intros r. destruct (decide (next = r)) as [<-|Hne]; [by rewrite !lookup_insert_eq|].
    by rewrite !lookup_insert_ne by done.
Qed.

Lemma barrier_at_requests requests requests' replies rid g generation :
  requests ⊆ requests' -> barrier_at requests replies rid g generation -> barrier_at requests' replies rid g generation.
Proof. intros Hs [H1 H2]. split; [by eapply lookup_weaken|done]. Qed.

(** A reply is only to a request there is. *)
Lemma ticket_enqueue queue replies next requests owner c closed spent request :
  channel_part queue replies next requests owner -> ticket_part requests replies c closed spent ->
  ticket_part (<[next := request]> requests) replies c closed spent.
Proof.
  intros (_ & _ & H3 & H4 & _) (T1 & T2 & T3 & T4).
  assert (forall rid g generation, barrier_at (<[next := request]> requests) replies rid g generation ->
    barrier_at requests replies rid g generation) as Hb.
  { intros rid g generation [Hr (record & Hrep & Hgen)]. split; [|by eauto].
    rewrite lookup_insert_ne in Hr; [done|]. intros ->.
    assert (is_Some (requests !! rid)) as Hs; [apply H4; by eexists|]. apply H3 in Hs. lia. }
  assert (requests ⊆ <[next := request]> requests) as Hsub.
  { apply insert_subseteq. destruct (requests !! next) eqn:Hn; [|done].
    assert (next < next)%nat; [apply H3; by eexists|lia]. }
  split_and!.
  - intros rid g generation ?%Hb. eauto.
  - intros rid rid' g generation ?%Hb ?%Hb. eauto.
  - intros g generation id Hc. destruct (T3 _ _ _ Hc) as (rid & Hs & Hbar). exists rid. split; [done|].
    by eapply barrier_at_requests.
  - intros rid [? Hr]%T4. exists x. by eapply lookup_weaken.
Qed.

(** What the enqueuing task holds: an unspent request of its own. *)
Definition mine (i rid : nat) (request : ActorRequest) (v : GView) : Prop :=
  gh_owner (tv_ghost v) !! rid = Some i /\ gh_requests (tv_ghost v) !! rid = Some request /\
  rid ∉ gh_spent (tv_ghost v).

Lemma mine_rely i rid request v v' : group_rely i v v' -> mine i rid request v -> mine i rid request v'.
Proof.
  intros [Hg _ Ht] (H1 & H2 & H3). split_and!.
  - eapply lookup_weaken; [done|apply (gg_owner _ _ Hg)].
  - eapply lookup_weaken; [done|apply (gg_requests _ _ Hg)].
  - intros Hs. apply H3. by apply (Ht rid).
Qed.

Lemma goes_enqueue i v s request (Q : GView -> Prop) :
  group_inv clean v -> quiet (gh_cells (tv_ghost v)) (tv_state v) (gh_cells (tv_ghost v)) s ->
  (forall v', group_rely i v v' -> mine i (g_next_request s) request v' -> Q v') ->
  goes i v (enqueue request s).1 Q.
Proof.
  intros (HL & HR & HT & HC & HS & HO & HV) Hq HQ.
  exists (gh_with_request (g_next_request s) i request (tv_ghost v)).
  destruct Hq as [L C O Qu R N Sy U E P]. set (v' := mkTView _ _ _).
  pose proof HC as (HC1 & HC2 & HC3 & HC4 & HC5).
  assert (gh_requests (tv_ghost v) !! g_next_request s = None) as Hfresh.
  { destruct (gh_requests (tv_ghost v) !! g_next_request s) eqn:Hn; [|done].
    assert (g_next_request s < g_next_request (tv_state v))%nat; [apply HC3; by eexists|rewrite N in *; lia]. }
  assert (gh_owner (tv_ghost v) !! g_next_request s = None) as Hfresh'.
  { destruct (gh_owner (tv_ghost v) !! g_next_request s) eqn:Hn; [|done].
    assert (is_Some (gh_requests (tv_ghost v) !! g_next_request s)) as [? ?]; [apply HC5; by eexists|congruence]. }
  assert (group_grows v v') as Hg.
  { split; simpl; rewrite ?L, ?C, ?O, ?R, ?N; auto with oq; apply insert_subseteq; by rewrite <-?N. }
  assert (forall j, group_rely j v v') as Hr.
  { intros j. split; [done| |].
    - intros _. split; simpl; try done.
      + exists [(g_next_request s, request)]. rewrite Qu. split; [done|]. repeat constructor. simpl. lia.
      + exists []. split; [by rewrite app_nil_r|constructor].
    - simpl. done. }
  split; [|split; [done|split; [by auto|]]].
  - unfold group_inv; simpl. rewrite ?L, ?C, ?O, ?R, ?Qu.
    split_and!; try done.
    + by apply P.
    + rewrite N. by eapply ticket_enqueue.
    + rewrite N. by apply channel_enqueue.
    + by eapply sync_part_same.
  - apply HQ; [done|]. split_and!; simpl; [by rewrite lookup_insert_eq..|].
    intros Hs. destruct HT as (_ & _ & _ & T4). apply T4 in Hs as [? ?]. congruence.
Qed.

Lemma safe_enqueue i request (Q : nat -> GView -> Prop) v :
  (forall rid v', group_rely i v v' -> mine i rid request v' -> Q rid v') -> safe i (section (enqueue request)) Q v.
Proof.
  intros HQ. apply tsafe_section. intros v1 Hr Hi. apply goes_enqueue; [done|apply quiet_refl|].
  intros v' Hr' Hm. apply HQ; [by eapply group_rely_trans|done].
Qed.

Lemma safe_reply i rid (Q : option ActorReply -> GView -> Prop) v :
  (forall r v', group_rely i v v' -> (forall reply, r = Some reply -> g_replies (tv_state v') !! rid = Some reply) ->
     Q r v') ->
  safe i (reply_to rid) Q v.
Proof.
  intros HQ. apply tsafe_act. intros v1 c s' x Hr Hi _ Hf.
  assert (s' = tv_state v1 /\ forall reply, x = Some reply -> g_replies (tv_state v1) !! rid = Some reply) as [-> Hx].
  { repeat case_match; by simplify_eq. }
  apply goes_unchanged; [done|]. by apply HQ.
Qed.

(** What a task knows when the actor has answered it. *)
Definition answered (i : nat) (group : GroupId) (event : GroupEvent) (r : Res GroupRecord) (v : GView) : Prop :=
  forall record, r = Ok record -> exists rid, mine i rid (RqTransition group event) v /\
    g_replies (tv_state v) !! rid = Some (RpTransition (Ok record)).

Lemma safe_await i rid group event (Q : Res GroupRecord -> GView -> Prop) v :
  mine i rid (RqTransition group event) v ->
  (forall r v', group_rely i v v' -> answered i group event r v' -> Q r v') -> safe i (await_record rid) Q v.
Proof.
  intros Hm HQ. apply tsafe_bind, safe_reply. intros r v' Hr Hrep. simpl. apply HQ; [done|].
  intros record Hok. exists rid. split; [by eapply mine_rely|]. destruct r as [[r|r]|]; simplify_eq/=. by apply Hrep.
Qed.

Lemma safe_request i group event (Q : Res GroupRecord -> GView -> Prop) v :
  (forall r v', group_rely i v v' -> answered i group event r v' -> Q r v') ->
  safe i (request_transition group event) Q v.
Proof.
  intros HQ. apply tsafe_bind, safe_enqueue. intros rid v1 Hr Hm. eapply safe_await; [done|].
  intros r v' Hr' Ha. apply HQ; [by eapply group_rely_trans|done].
Qed.

Lemma safe_request_roster i group roster (Q : Res unit -> GView -> Prop) v :
  (forall r v', group_rely i v v' -> Q r v') -> safe i (request_roster group roster) Q v.
Proof.
  intros HQ. apply tsafe_bind, safe_enqueue. intros rid v1 Hr _. apply tsafe_bind, safe_reply.
  intros r v' Hr' _. apply HQ. by eapply group_rely_trans.
Qed.

(** ** Closing a round *)

(** A close some round of the group ended with. *)
Definition published (group : GroupId) (close : RoundClose) (v : GView) : Prop :=
  exists id, gh_cells (tv_ghost v) !! id = Some group /\ g_outcomes (tv_state v) !! id = Some (Some close).

Lemma published_grows group close v v' : group_grows v v' -> published group close v -> published group close v'.
Proof.
  intros Hg (id & Hc & Ho). exists id. split.
  - eapply lookup_weaken; [done|apply (gg_cells _ _ Hg)].
  - eapply lookup_weaken; [done|apply (gg_outcomes _ _ Hg)].
Qed.

Lemma close_of_ok generation members : members_ok members -> close_ok (close_of generation members).
Proof.
  intros Hm. assert (rc_generation (close_of generation members) = generation /\
    rc_members (close_of generation members) = members) as [Hg Hms].
  { unfold close_of. by destruct (elect _). }
  split; [by rewrite Hms|by rewrite Hg, Hms].
Qed.

Lemma close_of_generation generation members : rc_generation (close_of generation members) = generation.
Proof. unfold close_of. by destruct (elect _). Qed.

(** The ticket's generation has not been closed. *)
Lemma ticket_unused i rid group record v :
  group_inv clean v -> mine i rid (RqTransition group EvJoinBarrierComplete) v ->
  g_replies (tv_state v) !! rid = Some (RpTransition (Ok record)) ->
  gh_closed (tv_ghost v) !! (group, gr_generation record) = None.
Proof.
  intros (_ & _ & (T1 & T2 & T3 & T4) & _) (Ho & Hq & Hs) Hrep.
  destruct (gh_closed _ !! _) as [id|] eqn:Hc; [|done]. destruct (T3 _ _ _ Hc) as (rid' & Hs' & Hb).
  assert (rid = rid') as <-; [|done]. eapply T2; [|exact Hb]. split; [done|]. eauto.
Qed.

Lemma goes_finalize i rid group record v (Q : GView -> Prop) :
  group_inv clean v -> mine i rid (RqTransition group EvJoinBarrierComplete) v ->
  g_replies (tv_state v) !! rid = Some (RpTransition (Ok record)) ->
  (forall v', group_grows v v' ->
     (forall close, (finalize_close group (gr_generation record) (tv_state v)).2 = Some close ->
        published group close v') -> Q v') ->
  goes i v (finalize_close group (gr_generation record) (tv_state v)).1 Q.
Proof.
  intros Hi Hm Hrep HQ. pose proof (ticket_unused i rid group record v Hi Hm Hrep) as Hunused.
  pose proof Hi as (HL & HR & HT & HC & HS & HO & HV). unfold finalize_close in *.
  destruct (g_joins (tv_state v) !! group) as [entry|] eqn:He;
    [|apply goes_unchanged; [done|]; apply HQ; [apply group_grows_refl|done]].
  destruct (je_open entry) as [round|] eqn:Hop;
    [|apply goes_unchanged; [done|]; apply HQ; [apply group_grows_refl|done]].
  destruct (proj1 HR _ _ _ He Hop) as [Hcell Hmem].
  destruct (outcome_get (rd_outcome round) (tv_state v)) as [already|] eqn:Hout.
  { apply goes_unchanged; [done|]. apply HQ; [apply group_grows_refl|]. simpl. intros close ->. by eexists. }
  unfold outcome_get in Hout. simpl in *. unfold outcome_set in *. rewrite Hout in *.
  set (members := sort_by_key _ _) in *. set (close := close_of _ members) in *.
  assert (close_ok close) as Hok.
  { apply close_of_ok. eapply members_ok_Permutation; [|exact Hmem]. symmetry. apply sort_by_key_Permutation. }
  exists (gh_with_closed (<[(group, gr_generation record) := rd_outcome round]> (gh_closed (tv_ghost v)))
    ({[rid]} ∪ gh_spent (tv_ghost v)) (tv_ghost v)).
  set (v' := mkTView _ _ _). destruct Hm as (Hown & Hreq & Hspent).
  assert (group_grows v v') as Hg.
  { split; simpl; auto with oq. by apply insert_subseteq. }
  assert (group_inv clean v') as Hi'.
  { unfold group_inv; simpl. split_and!; try done.
    - apply round_insert; [|simpl; intros ? [= <-]; simpl; split; [done|apply members_ok_nil]].
      destruct HR as (R1 & R2 & R3). split; [done|]. split; [done|].
      intros id close' [[<- [= <-]]|[Hne Hid]]%lookup_insert_Some.
      + split; [done|]. exists group. split; [done|]. unfold close. by rewrite close_of_generation, lookup_insert_eq.
      + destruct (R3 _ _ Hid) as (Hc' & g' & Hcell' & Hcl). split; [done|]. exists g'. split; [done|].
        rewrite lookup_insert_ne; [done|]. intros [= <- Heq]. congruence.
    - destruct HT as (T1 & T2 & T3 & T4). split; [done|]. split; [done|]. split.
      + intros g generation id [[[= <- <-] _]|[_ Hc]]%lookup_insert_Some.
        * exists rid. split; [set_solver|]. split; [done|]. eauto.
        * destruct (T3 _ _ _ Hc) as (rid' & Hs' & Hb). exists rid'. split; [set_solver|done].
      + intros rid' [->%elem_of_singleton|Hs']%elem_of_union; [by eexists|by apply T4]. }
  assert (forall j, j <> i -> group_rely j v v') as Hr.
  { intros j Hj. split; [done|by intros _; apply server_frame_same|]. simpl.
    intros rid' Ho' [->%elem_of_singleton|Hs']%elem_of_union; [congruence|done]. }
  split; [done|]. split; [done|]. split; [done|]. apply HQ; [done|]. simpl. intros close' [= <-].
  exists (rd_outcome round). split; [done|]. simpl. by rewrite lookup_insert_eq.
Qed.

(** The section both closers run. *)
Definition barrier_from (i : nat) (group : GroupId) (barrier : Barrier) (v : GView) : Prop :=
  match barrier with
  | BClosed generation => exists rid record, mine i rid (RqTransition group EvJoinBarrierComplete) v /\
      g_replies (tv_state v) !! rid = Some (RpTransition (Ok record)) /\ gr_generation record = generation
  | _ => True
  end.

Lemma barrier_from_rely i group barrier v v' :
  group_rely i v v' -> barrier_from i group barrier v -> barrier_from i group barrier v'.
Proof.
  intros Hr. destruct barrier as [generation| |]; [|done..]. intros (rid & record & Hm & Hrep & Hgen).
  exists rid, record. split; [by eapply mine_rely|]. split; [|done].
  eapply lookup_weaken; [done|apply (gg_replies _ _ (gr_grows _ _ _ Hr))].
Qed.

(** Two changes in one section. *)
Lemma goes_then_quiet i v s1 s2 (Q : GView -> Prop) :
  (forall cells, quiet cells s1 cells s2) ->
  goes i v s1 (fun v1 => forall v', group_grows v1 v' -> Q v') -> goes i v s2 Q.
Proof.
  intros Hq (g1 & Hi1 & Hg1 & Hr1 & HQ). set (v1 := mkTView s1 g1 (tv_ops v)) in *.
  destruct (goes_quiet i v1 _ s2 Q Hi1 (Hq _)) as (g2 & Hi2 & Hg2 & Hr2 & HQ2).
  { intros v' Hg _ _ _. by apply HQ. }
  exists g2. split; [done|]. split; [by eapply group_grows_trans|]. split; [|done].
  intros j Hj. eapply group_rely_trans; [by apply Hr1|by apply Hr2].
Qed.

Lemma safe_settle i group barrier (Q : option RoundClose -> GView -> Prop) v :
  barrier_from i group barrier v ->
  (forall closed v', group_grows v v' -> (forall close, closed = Some close -> published group close v') -> Q closed v') ->
  safe i (section (settle_round group barrier)) Q v.
Proof.
  intros Hb HQ. apply tsafe_section. intros v1 Hr Hi. apply (barrier_from_rely _ _ _ _ _ Hr) in Hb.
  pose proof (gr_grows _ _ _ Hr) as Hg.
  assert (forall s', quiet (gh_cells (tv_ghost v1)) (tv_state v1) (gh_cells (tv_ghost v1)) s' -> goes i v1 s' (Q None)) as Hnone.
  { intros s' Hq. eapply goes_quiet; [done..|]. intros v' Hg' _ _ _. apply HQ; [by eapply group_grows_trans|done]. }
  destruct barrier as [generation| |]; simpl; [|apply Hnone, quiet_abandon..].
  destruct Hb as (rid & record & Hm & Hrep & <-).
  pose proof (goes_finalize i rid group record v1) as Hfin.
  destruct (finalize_close group (gr_generation record) (tv_state v1)) as [s1 closed]. simpl in *.
  destruct closed as [close|].
  - eapply goes_then_quiet; [intros; apply quiet_publish|]. apply Hfin; [done..|]. intros v2 Hg2 Hp v' Hg'.
    apply HQ; [exact (group_grows_trans _ _ _ Hg (group_grows_trans _ _ _ Hg2 Hg'))|]. intros ? [= <-].
    eapply published_grows; [done|by apply Hp].
  - apply Hfin; [done..|]. intros v2 Hg2 Hp. apply HQ; [by eapply group_grows_trans|done].
Qed.

(** ** The sync barrier *)

Lemma sync_entry_cell g s : sy_assignments (sync_entry g s) = cell_of (g_sync s) g.
Proof. done. Qed.

Lemma sync_part_refused sync submitted ops c g a timeout :
  sa_map a = None -> sync_part sync submitted ops c ->
  sync_part (<[g := mkSyncEntry (Some a) timeout]> sync) submitted ops c.
Proof.
  intros Ha [H1 H2]. split; [done|]. intros g' entry a' m [[<- <-]|[_ He]]%lookup_insert_Some Ha' Hm; [|by eapply H2].
  simplify_eq/=.
Qed.

Lemma goes_sync i v sync' submitted' (Q : GView -> Prop) :
  group_inv clean v -> gh_submitted (tv_ghost v) ⊆ submitted' ->
  sync_part sync' submitted' (tv_ops v) (g_coordinator (tv_state v)) ->
  (forall v', group_rely i v v' -> gh_submitted (tv_ghost v') = submitted' -> Q v') ->
  goes i v (with_sync sync' (tv_state v)) Q.
Proof.
  intros (HL & HR & HT & HC & HS & HO & HV) Hsub Hs HQ. exists (gh_with_submitted submitted' (tv_ghost v)).
  set (v' := mkTView _ _ _).
  assert (forall j, group_rely j v v') as Hr.
  { intros j. split; [by split; simpl; auto with oq|by intros _; apply server_frame_same|done]. }
  split; [by unfold group_inv; simpl; split_and!|]. split; [apply (gr_grows _ _ _ (Hr i))|]. split; [by auto|]. by apply HQ.
Qed.

Lemma goes_refuse i v group generation (Q : GView -> Prop) :
  group_inv clean v -> (forall v', group_rely i v v' -> Q v') -> goes i v (sync_refuse group generation (tv_state v)) Q.
Proof.
  intros Hi HQ. unfold sync_refuse. destruct (match _ with Some _ => _ | None => _ end).
  - eapply goes_quiet; [done|apply quiet_touch|]. auto.
  - apply (goes_sync i v _ (gh_submitted (tv_ghost v))); [done|done| |auto].
    apply sync_part_refused; [done|]. by destruct Hi as (_ & _ & _ & _ & HS & _).
Qed.

Lemma safe_refuse i group generation (Q : GView -> Prop) v :
  (forall v', group_rely i v v' -> Q v') -> safe i (change (sync_refuse group generation)) (fun _ => Q) v.
Proof.
  intros HQ. apply tsafe_section. intros v1 Hr Hi. apply goes_refuse; [done|]. intros v' Hr'.
  apply HQ. by eapply group_rely_trans.
Qed.

(** An assignment that was submitted for a generation. *)
Definition submitted_for (group : GroupId) (generation : Z) (m : gmap string bytes) (v : GView) : Prop :=
  exists j, (group, generation, m, j) ∈ gh_submitted (tv_ghost v).

Lemma submitted_grows group generation m v v' :
  group_grows v v' -> submitted_for group generation m v -> submitted_for group generation m v'.
Proof. intros Hg [j Hj]. exists j. by apply (gg_submitted _ _ Hg). Qed.

Lemma stable_epoch v group generation :
  group_inv clean v -> is_stable_at group generation (tv_state v) = true ->
  generation <= gr_assignment_epoch (record_of (g_coordinator (tv_state v)) group).
Proof.
  intros ((_ & Hwf & _) & _). unfold is_stable_at, gc_record, record_of.
  destruct (gc_groups _ !! group) as [r|] eqn:Hr; [|done]. intros [Hs Hg]%andb_true_iff. simpl.
  apply bool_decide_eq_true in Hs. apply Z.eqb_eq in Hg. destruct (Hwf _ _ Hr) as (_ & _ & Hst).
  rewrite Hs in Hst. lia.
Qed.

Lemma safe_submit i version authorized request (Q : option (gmap string bytes) -> GView -> Prop) v :
  let group := sr_group_id request in let generation := sr_generation_id request in
  tv_ops v !! i = Some (OpSync version authorized request) -> sr_assignments request <> [] ->
  (forall r v', group_rely i v v' -> (forall m, r = Some m -> submitted_for group generation m v') -> Q r v') ->
  safe i (section (sync_submit group generation (assignment_map request) (is_stable_at group generation))) Q v.
Proof.
  intros group generation Hop Hne HQ. apply tsafe_section. intros v1 Hr Hi. unfold sync_submit.
  assert (tv_ops v1 !! i = Some (OpSync version authorized request)) as Hop1.
  { eapply lookup_weaken; [done|apply (gg_ops _ _ (gr_grows _ _ _ Hr))]. }
  set (superseded := match _ with Some _ => _ | None => _ end).
  destruct (superseded || _) eqn:Hsup; simpl.
  - eapply goes_quiet; [done|apply quiet_touch|]. intros v' _ _ _ Hr'. apply HQ; [by eapply group_rely_trans|done].
  - apply orb_false_iff in Hsup as [_ Hst]. apply negb_false_iff in Hst.
    apply (goes_sync i v1 _ ((group, generation, assignment_map request, i) :: gh_submitted (tv_ghost v1)));
      [done|set_solver| |].
    + pose proof Hi as (_ & _ & _ & _ & [S1 S2] & _). split.
      * intros g gen m j [[= -> -> -> ->]|Hin]%elem_of_cons; [|by apply S1].
        split; [by apply stable_epoch|]. by exists version, authorized, request.
      * intros g entry a m [[<- <-]|[_ He]]%lookup_insert_Some Ha Hm.
        -- simplify_eq/=. exists i. set_solver.
        -- destruct (S2 _ _ _ _ He Ha Hm) as [j Hj]. exists j. set_solver.
    + intros v' Hr' Hsub. apply HQ; [by eapply group_rely_trans|]. intros m [= <-]. exists i. rewrite Hsub. set_solver.
Qed.

(** What a waiting member finds. *)
Lemma known_submitted v group generation m :
  group_inv clean v -> assignment_for (sy_assignments (sync_entry group (tv_state v))) generation = KMine m ->
  submitted_for group generation m v.
Proof.
  intros (_ & _ & _ & _ & [_ S2] & _). unfold sync_entry. destruct (g_sync _ !! group) as [entry|] eqn:He; [|done].
  simpl. unfold assignment_for. destruct (sy_assignments entry) as [a|] eqn:Ha; [|done].
  destruct (sa_generation a =? generation) eqn:Hg; [|by case_match]. zbool. destruct (sa_map a) as [m'|] eqn:Hm; [|done].
  intros [= <-]. destruct (S2 _ _ _ _ He Ha Hm) as [j Hj]. exists j. by rewrite <-Hg.
Qed.

(** ** Committing offsets *)

Lemma offset_part_mono offsets l l' : l ⊆ l' -> offset_part offsets l -> offset_part offsets l'.
Proof. intros Hl Ho g t p v o H. by apply Hl, Ho. Qed.

Lemma goes_append_offset i v e (Q : GView -> Prop) :
  group_inv clean v -> is_offset e = true -> group_increasing None (g_log (tv_state v) ++ [e]) ->
  (forall v', group_rely i v v' -> g_log (tv_state v') = g_log (tv_state v) ++ [e] -> Q v') ->
  goes i v (with_log (g_log (tv_state v) ++ [e]) (tv_state v)) Q.
Proof.
  intros ((L1 & L2 & L3) & HR & HT & HC & HS & HO & HV) He Hinc HQ. exists (tv_ghost v). set (v' := mkTView _ _ _).
  assert (forall j, group_rely j v v') as Hr.
  { intros j. split; [|intros _|done].
    - split; simpl; auto with oq. by apply prefix_app_r.
    - split; simpl; try done.
      + exists []. split; [by rewrite app_nil_r|constructor].
      + exists [e]. split; [done|by constructor]. }
  split.
  - unfold group_inv; simpl. split_and!; try done.
    + split_and!; [done..|]. intros Hc. by apply in_step_offset, L3.
    + eapply offset_part_mono; [|done]. set_solver.
  - split; [apply (gr_grows _ _ _ (Hr i))|]. split; [by auto|]. by apply HQ.
Qed.

Lemma safe_log_append i e (Q : Res unit -> GView -> Prop) v :
  is_offset e = true ->
  (forall r v', group_rely i v v' -> (r = Ok tt -> e ∈ g_log (tv_state v')) -> Q r v') -> safe i (log_append [e]) Q v.
Proof.
  intros He HQ. apply tsafe_act. intros v1 c s' x Hr Hi _ Hf.
  destruct (group_append (g_log (tv_state v1)) [e]) as [l' r] eqn:Ha.
  pose proof Hi as ((L1 & _) & _).
  assert (goes i v1 (with_log l' (tv_state v1)) (fun v' => group_rely i v1 v' /\ (r = Ok tt -> e ∈ g_log (tv_state v')))) as Hgoes.
  { apply group_append_one in Ha as [(-> & -> & Hinc)|[[err ->] ->]].
    - apply goes_append_offset; [done..|by apply Hinc|]. intros v' Hr' ->. split; [done|]. intros _. set_solver.
    - assert (with_log (g_log (tv_state v1)) (tv_state v1) = tv_state v1) as -> by (by destruct (tv_state v1)).
      apply goes_unchanged; [done|]. by split; [apply group_rely_refl|]. }
  assert (forall err, goes i v1 (tv_state v1) (Q (Err err))) as Hsame.
  { intros err. apply goes_unchanged; [done|]. by apply HQ. }
  destruct (ch_fault c) as [err|]; [destruct (ch_landed c)|]; injection Hf as <- <-; [|apply Hsame|];
    (eapply tgoes_mono; [|exact Hgoes]); intros v' [Hr' Hin]; apply HQ; try done; by eapply group_rely_trans.
Qed.

Lemma safe_last_version i (Q : Res (option CommitVersion) -> GView -> Prop) v :
  (forall r v', group_rely i v v' -> Q r v') -> safe i log_last_version Q v.
Proof. intros HQ. apply tsafe_act. intros v1 c s' x Hr Hi _ [= <- <-]. apply goes_unchanged; [done|]. by apply HQ. Qed.

Lemma safe_append_retrying n i record (Q : Res CommitVersion -> GView -> Prop) v :
  (forall version, is_offset (mkGroupEntry version record) = true) ->
  (forall r v', group_rely i v v' ->
     (forall version, r = Ok version -> mkGroupEntry version record ∈ g_log (tv_state v')) -> Q r v') ->
  safe i (append_retrying n record) Q v.
Proof.
  intros Ho. revert v. induction n as [|n IH]; intros v HQ; cbn [append_retrying].
  { apply HQ; [apply group_rely_refl|done]. }
  apply tsafe_bind, safe_last_version. intros last v1 Hr1.
  destruct (let? l := last in next_version l) as [next|err|]; [|by apply HQ..].
  apply tsafe_bind, safe_log_append; [apply Ho|]. intros r v2 Hr2 Hin.
  assert (group_rely i v v2) as Hr by (by eapply group_rely_trans).
  destruct r as [[]|err|]; [|destruct (is_non_monotonic err)|].
  - apply HQ; [done|]. intros version [= <-]. by apply Hin.
  - apply IH. intros r v' Hr' HQ'. apply HQ; [by eapply group_rely_trans|done].
  - by apply HQ.
  - by apply HQ.
Qed.

(** An offset a commit was acknowledged for. *)
Definition committed (group : GroupId) (topic : TopicId) (partition offset : Z) (v : GView) : Prop :=
  exists version version' offset',
    mkGroupEntry version (OffsetCommitted group topic partition offset) ∈ g_log (tv_state v) /\
    g_offsets (tv_state v) !! (group, topic, partition) = Some (version', offset') /\ version <= version'.

Lemma committed_grows group topic partition offset v v' :
  group_grows v v' -> committed group topic partition offset v -> committed group topic partition offset v'.
Proof.
  intros Hg (version & v1 & o1 & Hin & Ho & Hle). apply (gg_offsets _ _ Hg) in Ho as (v2 & o2 & Ho & Hle').
  exists version, v2, o2. split_and!; [|done|lia]. destruct (gg_log _ _ Hg) as [l ->]. set_solver.
Qed.

Lemma apply_offset_spec version group topic partition offset offsets :
  let offsets' := apply_offset version (OffsetCommitted group topic partition offset) offsets in
  offsets_le offsets offsets' /\
  (exists version' offset', offsets' !! (group, topic, partition) = Some (version', offset') /\ version <= version') /\
  (forall k x, offsets' !! k = Some x -> offsets !! k = Some x \/ (k, x) = ((group, topic, partition), (version, offset))).
Proof.
  simpl. set (key := (group, topic, partition)). destruct (offsets !! key) as [[existing o]|] eqn:Hk.
  - destruct (version <=? existing) eqn:Hle; zbool.
    + split; [auto with oq|]. split; [by exists existing, o|by left].
    + split_and!.
      * intros k v x Hkx. destruct (decide (key = k)) as [Heq|Hne].
        -- exists version, offset. subst k. rewrite lookup_insert_eq. split; [done|].
           assert (Some (v, x) = Some (existing, o)) as [= -> ->] by (rewrite <-Hkx; exact Hk). lia.
        -- exists v, x. rewrite lookup_insert_ne by done. split; [done|lia].
      * exists version, offset. rewrite lookup_insert_eq. split; [done|lia].
      * intros k x [[<- <-]|[_ Hkx]]%lookup_insert_Some; [by right|by left].
  - split_and!.
    + intros k v x Hkx. exists v, x. rewrite lookup_insert_ne by (intros <-; by rewrite Hk in Hkx || (assert (None = Some (v, x)) by (rewrite <-Hkx; symmetry; exact Hk); done)).
      split; [done|lia].
    + exists version, offset. rewrite lookup_insert_eq. split; [done|lia].
    + intros k x [[<- <-]|[_ Hkx]]%lookup_insert_Some; [by right|by left].
Qed.

Lemma safe_apply_offset i version group topic partition offset (Q : GView -> Prop) v :
  let record := OffsetCommitted group topic partition offset in
  mkGroupEntry version record ∈ g_log (tv_state v) ->
  (forall v', group_grows v v' -> committed group topic partition offset v' -> Q v') ->
  safe i (change (fun g => with_offsets (apply_offset version record (g_offsets g)) g)) (fun _ => Q) v.
Proof.
  intros record Hin HQ. apply tsafe_section. intros v1 Hr (HL & HR & HT & HC & HS & HO & HV). exists (tv_ghost v1).
  cbn [fst snd].
  destruct (apply_offset_spec version group topic partition offset (g_offsets (tv_state v1))) as (Hle & Hat & Hof).
  fold record in Hle, Hat, Hof. set (offsets' := apply_offset _ _ _) in *. set (v' := mkTView _ _ _).
  assert (mkGroupEntry version record ∈ g_log (tv_state v1)) as Hin1.
  { destruct (gg_log _ _ (gr_grows _ _ _ Hr)) as [l ->]. set_solver. }
  assert (forall j, group_rely j v1 v') as Hr1.
  { intros j. split; [by split; simpl; auto with oq|by intros _; apply server_frame_same|done]. }
  split; [|split; [apply (gr_grows _ _ _ (Hr1 i))|split; [by auto|]]].
  - unfold group_inv; simpl. split_and!; try done. intros g t p w o Hk.
    destruct (Hof _ _ Hk) as [Hold|[= -> -> -> -> ->]]; [by apply HO|done].
  - apply HQ.
    + eapply group_grows_trans; [apply (gr_grows _ _ _ Hr)|apply (gr_grows _ _ _ (Hr1 i))].
    + destruct Hat as (v2 & o2 & Hk & Hv). exists version, v2, o2. by split_and!.
Qed.
End safe.
