(* ===== verification/GroupTasksSafe.v ===== *)
(** * GroupTasksSafe: the handlers, one judgement each *)

From stdpp Require Import base tactics list numbers strings gmap.
From Stdlib Require Import ZArith Lia.
From S2P Require Import Prelude Types Bytes ErrorCodes Group MsgGroup Tasks GroupRounds GroupHandlers.
From S2P Require Import GroupInv GroupSafe.

Open Scope Z_scope.

Section handlers.
Context (clean : bool).
Notation safe := (tsafe (group_allowed clean) (group_inv clean) group_rely group_grows).

(** [grows] through the views named in the context. *)
Ltac growing :=
  first [ assumption | apply group_grows_refl
        | match goal with H : group_rely _ ?a ?b |- group_grows ?a ?b => exact (gr_grows _ _ _ H) end
        | match goal with
          | H : group_rely _ ?a ?b |- group_grows ?a _ => eapply group_grows_trans; [exact (gr_grows _ _ _ H)|growing]
          | H : group_grows ?a ?b |- group_grows ?a _ => eapply group_grows_trans; [exact H|growing]
          end ].

(** ** OffsetCommit *)

Lemma safe_commit i group topic partition offset (Q : Res unit -> GView -> Prop) v :
  (forall r v', group_grows v v' -> (r = Ok tt -> committed group topic partition offset v') -> Q r v') ->
  safe i (commit group topic partition offset) Q v.
Proof.
  intros HQ. apply tsafe_bind, safe_append_retrying; [done|]. intros r v1 Hr Hin.
  destruct r as [version|err|]; [|apply HQ; [growing|done]..].
  apply tsafe_bind, safe_apply_offset; [by apply Hin|]. intros v2 Hg Hc. apply HQ; [growing|done].
Qed.

Lemma safe_each {A B} i (f : A -> GTask B) (R : A -> B -> GView -> Prop) l (Q : list B -> GView -> Prop) v :
  (forall a b v v', group_grows v v' -> R a b v -> R a b v') ->
  (forall a Q v, (forall b v', group_grows v v' -> R a b v' -> Q b v') -> safe i (f a) Q v) ->
  (forall bs v', group_grows v v' -> Forall2 (fun a b => R a b v') l bs -> Q bs v') -> safe i (each_task f l) Q v.
Proof.
  intros Hmono Hf. revert Q v. induction l as [|a l IH]; intros Q v HQ; cbn [each_task].
  { apply HQ; [growing|constructor]. }
  apply tsafe_bind, Hf. intros b v1 Hg1 HR. apply tsafe_bind, IH. intros bs v2 Hg2 HRs.
  apply HQ; [growing|]. constructor; [by eapply Hmono|done].
Qed.

(** What the answer for one topic, or for all of them, says. *)
Definition partition_answered (group : GroupId) (topic : TopicId) (p : OffsetCommitRequestPartition)
    (rp : OffsetCommitResponsePartition) (v : GView) : Prop :=
  ocp_partition_index rp = op_partition_index p /\
  (ocp_error_code rp = NO_ERROR -> committed group topic (op_partition_index p) (op_committed_offset p) v).

Definition topic_answered (group : GroupId) (t : OffsetCommitRequestTopic) (rt : OffsetCommitResponseTopic)
    (v : GView) : Prop :=
  oct_name rt = ot_name t /\
  Forall2 (fun p rp => partition_answered group (ot_name t) p rp v) (ot_partitions t) (oct_partitions rt).

Lemma partition_answered_grows group topic p rp v v' :
  group_grows v v' -> partition_answered group topic p rp v -> partition_answered group topic p rp v'.
Proof. intros Hg [H1 H2]. split; [done|]. intros Hc. eapply committed_grows; [done|auto]. Qed.

Lemma topic_answered_grows group t rt v v' :
  group_grows v v' -> topic_answered group t rt v -> topic_answered group t rt v'.
Proof.
  intros Hg [H1 H2]. split; [done|]. eapply Forall2_impl; [exact H2|]. intros p rp. by apply partition_answered_grows.
Qed.

Lemma refused_answered group t code v : code <> NO_ERROR -> topic_answered group t (refused_topic t code) v.
Proof.
  intros Hc. split; [done|]. simpl. induction (ot_partitions t) as [|p ps IH]; simpl; constructor; [|done]. by split.
Qed.

Lemma safe_commit_topic i topic_authorized group t (Q : OffsetCommitResponseTopic -> GView -> Prop) v :
  (forall rt v', group_grows v v' -> topic_answered group t rt v' -> Q rt v') ->
  safe i (commit_topic topic_authorized group t) Q v.
Proof.
  intros HQ. unfold commit_topic. destruct (negb _); [by apply HQ; [growing|apply refused_answered]|].
  destruct (TopicId_new (ot_name t)) as [topic|e|] eqn:Ht; [|by apply HQ; [growing|apply refused_answered]..].
  assert (topic = ot_name t) as -> by (unfold TopicId_new in Ht; repeat case_decide; by simplify_eq).
  apply tsafe_bind, (safe_each i _ (partition_answered group (ot_name t)));
    [intros; by eapply partition_answered_grows| |].
  - intros p Q' v' HQ'. apply tsafe_bind, safe_commit. intros r v1 Hg Hc. apply HQ'; [done|]. split; [done|].
    simpl. destruct r as [[]|err|]; [by auto|done|done].
  - intros ps v1 Hg Hps. by apply HQ.
Qed.

Lemma top_level_answered group request code v :
  code <> NO_ERROR -> Forall2 (fun t rt => topic_answered group t rt v) (oc_topics request) (top_level_refusal request code).
Proof.
  intros Hc. unfold top_level_refusal. induction (oc_topics request); simpl; constructor; [|done]. by apply refused_answered.
Qed.

Lemma refusal_code_error r : Refusal_error_code r <> NO_ERROR.
Proof. by destruct r. Qed.

Lemma safe_offset_commit i authorized topic_authorized request (Q : list OffsetCommitResponseTopic -> GView -> Prop) v :
  (forall topics v', group_grows v v' ->
     Forall2 (fun t rt => topic_answered (oc_group_id request) t rt v') (oc_topics request) topics -> Q topics v') ->
  safe i (offset_commit_handle authorized topic_authorized request) Q v.
Proof.
  intros HQ. unfold offset_commit_handle. destruct (GroupId_new (oc_group_id request)) as [group|e|] eqn:Hg;
    [|by apply HQ; [growing|apply top_level_answered]..].
  assert (group = oc_group_id request) as -> by (unfold GroupId_new in Hg; case_bool_decide; by simplify_eq).
  destruct (negb _); [by apply HQ; [growing|apply top_level_answered]|].
  apply tsafe_bind, safe_look. intros v1 Hr _.
  destruct (fence_here _ _ _ _ _) as [[]|refused|]; [|apply HQ; [growing|apply top_level_answered, refusal_code_error]|];
    apply (safe_each i _ (topic_answered (oc_group_id request)));
    try (intros; by eapply topic_answered_grows);
    try (intros; by apply safe_commit_topic); intros topics v2 Hg2 Ht; apply HQ; [growing|done|growing|done].
Qed.

(** ** JoinGroup *)

(** Any section that settles nothing, as a step of a proof about what grows. *)
Lemma safe_changing i f (Q : GView -> Prop) v :
  (forall cells s, quiet cells s cells (f s)) -> (forall v', group_grows v v' -> Q v') -> safe i (change f) (fun _ => Q) v.
Proof. intros Hf HQ. apply safe_change; [done|]. intros v' Hr. apply HQ. growing. Qed.

Lemma safe_release i group (Q : GView -> Prop) v :
  (forall v', group_grows v v' -> Q v') -> safe i (change (release group)) (fun _ => Q) v.
Proof. apply safe_changing. intros. apply quiet_release. Qed.

Lemma safe_apply_open i group event timeout (Q : Applied -> GView -> Prop) v :
  (forall a v', group_grows v v' -> Q a v') -> safe i (apply_open group event timeout) Q v.
Proof.
  intros HQ. apply tsafe_bind, safe_request. intros r v1 Hr1 _. apply tsafe_bind, safe_quiet.
  intros v2 Hr2 Hi2. pose proof Hi2 as (_ & HR & _).
  assert (exists cells', quiet (gh_cells (tv_ghost v2)) (tv_state v2) cells'
    (if is_ok r then install_round group timeout (tv_state v2) else tv_state v2)) as (cells' & Hq).
  { destruct (is_ok r); [eexists; by eapply quiet_install|eexists; apply quiet_refl]. }
  exists cells'. split; [done|]. intros v3 Hr3 _ _. apply tsafe_bind.
  assert (forall v4, group_grows v3 v4 -> Q (match r with Ok _ => Installed | Err e => if is_illegal e then Raced else AppliedUnavailable
    | Panic => AppliedUnavailable end) v4) as Hend by (intros v4 Hg; apply HQ; growing).
  destruct r as [record|e|]; [|apply Hend; growing..].
  destruct event; try (apply Hend; growing). apply safe_refuse. intros v4 Hr4. apply Hend. growing.
Qed.

Lemma safe_open_holding i group event timeout (Q : option JoinOutcome -> GView -> Prop) v :
  (forall o v', group_grows v v' -> (forall outcome, o = Some outcome -> outcome = JUnavailable) -> Q o v') ->
  safe i (open_holding_slot group event timeout) Q v.
Proof.
  intros HQ. apply tsafe_bind, safe_apply_open. intros a v1 Hg1. apply tsafe_bind, safe_release. intros v2 Hg2.
  apply HQ; [growing|]. destruct a; intros outcome Ho; by simplify_eq.
Qed.

Lemma safe_close_generation i group (Q : Barrier -> GView -> Prop) v :
  (forall b v', group_grows v v' -> barrier_from i group b v' -> Q b v') -> safe i (close_generation group) Q v.
Proof.
  intros HQ. apply tsafe_bind, safe_request. intros r v1 Hr Ha. apply HQ; [growing|].
  destruct r as [record|e|]; [|by destruct (is_illegal e)|done].
  destruct (Ha record eq_refl) as (rid & Hm & Hrep). by exists rid, record.
Qed.

Lemma safe_persist i group close (Q : bool -> GView -> Prop) v :
  (forall b v', group_grows v v' -> Q b v') -> safe i (persist_roster group close) Q v.
Proof.
  intros HQ. destruct close as [close|]; [|apply HQ; growing]. apply tsafe_bind, safe_request_roster.
  intros r v1 Hr. apply HQ. growing.
Qed.

(** What an outcome of a join says. *)
Definition outcome_says (group : GroupId) (o : JoinOutcome) (v : GView) : Prop :=
  match o with
  | JReady close => published group close v
  | JPending _ id => gh_cells (tv_ghost v) !! id = Some group
  | _ => True
  end.

Lemma outcome_says_grows group o v v' : group_grows v v' -> outcome_says group o v -> outcome_says group o v'.
Proof.
  intros Hg. destruct o; simpl; try done; [by apply published_grows|]. intros Hc.
  eapply lookup_weaken; [done|apply (gg_cells _ _ Hg)].
Qed.

Lemma safe_close_holding i group (Q : option JoinOutcome -> GView -> Prop) v :
  (forall o v', group_grows v v' -> (forall outcome, o = Some outcome -> outcome_says group outcome v') -> Q o v') ->
  safe i (close_holding_slot group) Q v.
Proof.
  intros HQ. apply tsafe_bind, tsafe_bind, safe_close_generation. intros b v1 Hg1 Hb.
  apply tsafe_bind, safe_settle; [done|]. intros closed v2 Hg2 Hp. apply tsafe_bind, safe_persist. intros ok v3 Hg3.
  apply tsafe_bind, safe_release. intros v4 Hg4. apply HQ; [growing|].
  intros outcome. destruct ok; [|by intros [= <-]]. destruct closed as [close|]; [|done]. intros [= <-]. simpl.
  eapply published_grows; [|by apply Hp]. growing.
Qed.

Lemma safe_finish i group (Q : GView -> Prop) v :
  (forall v', group_grows v v' -> Q v') -> safe i (finish_deadline_close group) (fun _ => Q) v.
Proof.
  intros HQ. apply tsafe_bind, safe_close_generation. intros b v1 Hg1 Hb.
  apply tsafe_bind, safe_settle; [done|]. intros closed v2 Hg2 _. apply tsafe_bind, safe_persist. intros ok v3 Hg3.
  apply HQ. growing.
Qed.

Lemma safe_claim_deadline n i group id (Q : bool -> GView -> Prop) v :
  (forall b v', group_grows v v' -> Q b v') -> safe i (claim_deadline n group id) Q v.
Proof.
  revert v. induction n as [|n IH]; intros v HQ; cbn [claim_deadline]; [apply HQ; growing|].
  apply tsafe_bind, safe_section; [intros; apply quiet_deadline_claim|]. intros claim v1 Hr1.
  destruct claim; [apply HQ; growing| |apply HQ; growing].
  apply tsafe_bind, safe_timer. intros b v2 Hr2. destruct b; [apply HQ; growing|].
  apply IH. intros b v3 Hg3. apply HQ. growing.
Qed.

Lemma safe_close_on_deadline i group id (Q : GView -> Prop) v :
  (forall v', group_grows v v' -> Q v') -> safe i (close_on_deadline group id) (fun _ => Q) v.
Proof.
  intros HQ. apply tsafe_bind, safe_claim_deadline. intros claimed v1 Hg1. destruct claimed; [|apply HQ; growing].
  apply tsafe_bind, safe_finish. intros v2 Hg2. apply safe_release. intros v3 Hg3. apply HQ. growing.
Qed.

Lemma safe_plan i group member timeout (Q : Step -> GView -> Prop) v :
  (forall step v', group_grows v v' -> (forall o, step = SDone o -> outcome_says group o v') -> Q step v') ->
  safe i (section (plan_join group member timeout)) Q v.
Proof.
  intros HQ. apply tsafe_section. intros v1 Hr1 Hi1. pose proof Hi1 as (_ & HR & _).
  destruct (quiet_plan_join _ _ group member timeout _ HR) as (cells' & Hq & Hn).
  eapply goes_quiet; [done..|]. intros v' Hg Hc Hs _. apply HQ; [growing|].
  intros o Ho. rewrite Ho in Hn. destruct o; simpl in *; try done. by rewrite Hc.
Qed.

Lemma safe_plan_and_join n i group member (Q : JoinOutcome -> GView -> Prop) v :
  (forall o v', group_grows v v' -> outcome_says group o v' -> Q o v') -> safe i (plan_and_join n group member) Q v.
Proof.
  revert v. induction n as [|n IH]; intros v HQ; cbn [plan_and_join]; [apply HQ; [growing|done]|].
  apply tsafe_bind, safe_plan. intros step v1 Hg1 Hs.
  assert (forall v2, group_grows v1 v2 -> safe i (plan_and_join n group member) Q v2) as Hagain.
  { intros v2 Hg2. apply IH. intros o v3 Hg3 Ho. apply HQ; [growing|done]. }
  destruct step as [|event| |o].
  - apply tsafe_bind, safe_timer. intros b v2 Hr2. apply Hagain. growing.
  - apply tsafe_bind, safe_open_holding. intros o v2 Hg2 Ho. destruct o as [o|]; [|by apply Hagain].
    rewrite (Ho o eq_refl). apply HQ; [growing|done].
  - apply tsafe_bind, safe_close_holding. intros o v2 Hg2 Ho. destruct o as [o|]; [|by apply Hagain].
    apply HQ; [growing|by apply Ho].
  - apply HQ; [growing|by apply Hs].
Qed.

Lemma safe_join i group member (Q : JoinOutcome -> GView -> Prop) v :
  (forall o v', group_grows v v' -> outcome_says group o v' -> Q o v') -> safe i (join group member) Q v.
Proof.
  intros HQ. apply tsafe_bind, safe_plan_and_join. intros o v1 Hg1 Ho. apply tsafe_bind, safe_changing.
  { intros. apply quiet_publish. }
  intros v2 Hg2. apply HQ; [growing|by eapply outcome_says_grows].
Qed.

Lemma safe_next_wake i group id deadline (Q : Z -> GView -> Prop) v :
  (forall z v', group_grows v v' -> Q z v') -> safe i (next_wake group id deadline) Q v.
Proof.
  intros HQ. apply tsafe_bind, safe_section; [intros; apply quiet_reprune|]. intros pruned v1 Hr1.
  destruct pruned; [|apply HQ; growing..]. apply tsafe_bind, safe_close_on_deadline. intros v2 Hg2. apply HQ. growing.
Qed.

Lemma safe_wait n i group member_id deadline id tried (Q : option RoundClose -> GView -> Prop) v :
  gh_cells (tv_ghost v) !! id = Some group ->
  (forall r v', group_grows v v' -> (forall close, r = Some close -> published group close v') -> Q r v') ->
  safe i (wait_for_close n group member_id deadline id tried) Q v.
Proof.
  revert v tried. induction n as [|n IH]; intros v tried Hcell HQ; cbn [wait_for_close]; [apply tsafe_parked|].
  assert (forall v1 o, group_grows v v1 -> outcome_get id (tv_state v1) = Some o -> Q o v1) as Hdone.
  { intros v1 o Hg Ho. apply HQ; [done|]. intros close ->. exists id. split; [|done].
    eapply lookup_weaken; [done|apply (gg_cells _ _ Hg)]. }
  assert (forall v1 tried, group_grows v v1 -> safe i (wait_for_close n group member_id deadline id tried) Q v1) as Hagain.
  { intros v1 tried' Hg. apply IH; [eapply lookup_weaken; [done|apply (gg_cells _ _ Hg)]|].
    intros r v2 Hg2 Hp. apply HQ; [growing|done]. }
  apply tsafe_bind, safe_look. intros v1 Hr1 _.
  destruct (outcome_get id (tv_state v1)) as [o|] eqn:Ho1; [apply Hdone; [growing|done]|].
  apply tsafe_bind, safe_next_wake. intros z v2 Hg2. apply tsafe_bind, safe_look. intros v3 Hr3 _.
  destruct (outcome_get id (tv_state v3)) as [o|] eqn:Ho3; [apply Hdone; [growing|done]|].
  apply tsafe_bind, safe_timer. intros timer v4 Hr4. destruct timer; [|apply Hagain; growing].
  apply tsafe_bind, safe_look. intros v5 Hr5 _. destruct (_ <? _); [apply Hagain; growing|].
  apply tsafe_bind, safe_close_on_deadline. intros v6 Hg6. apply tsafe_bind, safe_look. intros v7 Hr7 _.
  destruct (outcome_get id (tv_state v7)) as [o|] eqn:Ho7; [apply Hdone; [growing|done]|].
  destruct tried; [|apply Hagain; growing].
  apply tsafe_bind, safe_changing; [intros; apply quiet_withdraw|]. intros v8 Hg8. apply HQ; [growing|done].
Qed.

(** What a JoinGroup answer says. *)
Definition join_answered (version : Z) (request : JoinGroupRequest) (response : JoinGroupResponse) (v : GView) : Prop :=
  js_error_code response = NO_ERROR ->
  exists close member_id, published (jr_group_id request) close v /\
    (jr_member_id request <> EmptyString -> member_id = jr_member_id request) /\
    response = join_response_for close member_id version.

Lemma safe_join_member fuel i version request member_id (Q : JoinGroupResponse -> GView -> Prop) v :
  (jr_member_id request <> EmptyString -> member_id = jr_member_id request) ->
  (forall response v', group_grows v v' -> join_answered version request response v' -> Q response v') ->
  safe i (join_member fuel version request (jr_group_id request) member_id) Q v.
Proof.
  intros Hid HQ. apply tsafe_bind, safe_join. intros o v1 Hg1 Ho.
  assert (forall code v', code <> NO_ERROR -> group_grows v v' -> Q (join_refusal code) v') as Hrefuse.
  { intros code v' Hc Hg. apply HQ; [done|]. intros Hz. simpl in Hz. by rewrite Hz in Hc. }
  assert (forall close v', group_grows v v' -> published (jr_group_id request) close v' ->
    safe i (do! _ := change (hb_register (jr_group_id request) member_id (jr_session_timeout_ms request)) in
      Ret (join_response_for close member_id version)) Q v') as Haccept.
  { intros close v' Hg Hp. apply tsafe_bind, safe_changing.
    - intros cells s. by apply quiet_elsewhere.
    - intros v2 Hg2. apply HQ; [growing|]. intros _. exists close, member_id. split; [by eapply published_grows|done]. }
  apply tsafe_bind. destruct o as [| |close|deadline id|]; simpl.
  - by apply Hrefuse.
  - by apply Hrefuse.
  - by apply Haccept.
  - apply tsafe_bind, safe_wait; [done|]. intros r v2 Hg2 Hp. simpl. destruct r as [close|].
    + apply Haccept; [growing|by apply Hp].
    + apply Hrefuse; [done|growing].
  - by apply Hrefuse.
Qed.

Lemma GroupId_new_Ok name group : GroupId_new name = Ok group -> group = name.
Proof. unfold GroupId_new. case_bool_decide; by intros [= <-]. Qed.

Lemma safe_join_handle fuel i version authorized request (Q : JoinGroupResponse -> GView -> Prop) v :
  (forall response v', group_grows v v' -> join_answered version request response v' -> Q response v') ->
  safe i (join_handle fuel version authorized request) Q v.
Proof.
  intros HQ. assert (forall code v', code <> NO_ERROR -> group_grows v v' -> Q (join_refusal code) v') as Hrefuse.
  { intros code v' Hc Hg. apply HQ; [done|]. intros Hz. simpl in Hz. by rewrite Hz in Hc. }
  unfold join_handle. destruct (GroupId_new (jr_group_id request)) as [group|e|] eqn:Hg;
    [|by apply Hrefuse; [|growing]..]. apply GroupId_new_Ok in Hg as ->.
  destruct (negb _); [by apply Hrefuse; [|growing]|].
  assert (forall member_id v1, (jr_member_id request <> EmptyString -> member_id = jr_member_id request) ->
    group_grows v v1 -> safe i (join_member fuel version request (jr_group_id request) member_id) Q v1) as Hjoin.
  { intros member_id v1 Hid Hg1. apply safe_join_member; [done|]. intros response v2 Hg2 Ha. apply HQ; [growing|done]. }
  unfold member_id_for. destruct (String.eqb_spec (jr_member_id request) EmptyString) as [Hempty|Hne].
  - apply tsafe_bind, safe_section; [intros; by apply quiet_elsewhere|]. intros member_id v1 Hr1. simpl.
    apply Hjoin; [done|growing].
  - cbn [tbind]. apply tsafe_bind, safe_look. intros v1 Hr1 _. destruct (fence_here _ _ _ _ _) as [[]|refused|].
    + apply Hjoin; [done|growing].
    + apply Hrefuse; [apply refusal_code_error|growing].
    + apply Hjoin; [done|growing].
Qed.

(** ** SyncGroup *)

(** What a SyncGroup answer says. *)
Definition sync_answered (version : Z) (request : SyncGroupRequest) (response : SyncGroupResponse) (v : GView) : Prop :=
  ss_error_code response = NO_ERROR ->
  exists m, submitted_for (sr_group_id request) (sr_generation_id request) m v /\
    response = sync_response_for m request version.

Lemma safe_refuse_sync i version request refusal (Q : SyncGroupResponse -> GView -> Prop) v :
  (forall response v', group_grows v v' -> sync_answered version request response v' -> Q response v') ->
  safe i (refuse_sync (sr_group_id request) (sr_generation_id request) refusal) Q v.
Proof.
  intros HQ. apply tsafe_bind, safe_refuse. intros v1 Hr1. apply HQ; [growing|].
  intros Hz. by apply refusal_code_error in Hz.
Qed.

Lemma safe_submit_assignment i version authorized request (Q : SyncGroupResponse -> GView -> Prop) v :
  tv_ops v !! i = Some (OpSync version authorized request) -> sr_assignments request <> [] ->
  (forall response v', group_grows v v' -> sync_answered version request response v' -> Q response v') ->
  safe i (submit_assignment (sr_group_id request) request version) Q v.
Proof.
  intros Hop Hne HQ.
  assert (forall refusal v', group_grows v v' ->
    safe i (refuse_sync (sr_group_id request) (sr_generation_id request) refusal) Q v') as Hrefuse.
  { intros refusal v' Hg. apply (safe_refuse_sync i version). intros response v2 Hg2 Ha. apply HQ; [growing|done]. }
  assert (forall record v', group_grows v v' ->
    safe i (if negb (match record with
                     | Some r => bool_decide (gr_state r = GroupStable) && (gr_generation r =? sr_generation_id request)
                     | None => false
                     end)
            then refuse_sync (sr_group_id request) (sr_generation_id request) RebalanceInProgress
            else do! submitted := section (sync_submit (sr_group_id request) (sr_generation_id request)
                   (assignment_map request) (is_stable_at (sr_group_id request) (sr_generation_id request))) in
                 match submitted with
                 | None => refuse_sync (sr_group_id request) (sr_generation_id request) RebalanceInProgress
                 | Some map => Ret (sync_response_for map request version)
                 end) Q v') as Hrest.
  { intros record v' Hg. destruct (negb _); [by apply Hrefuse|]. apply tsafe_bind. eapply safe_submit; [|done|].
    { eapply lookup_weaken; [done|apply (gg_ops _ _ Hg)]. }
    intros r v2 Hr2 Hm. destruct r as [m|]; [|apply Hrefuse; growing]. apply HQ; [growing|].
    intros _. exists m. split; [by apply Hm|done]. }
  apply tsafe_bind, safe_request. intros r v1 Hr1 _. apply tsafe_bind. destruct r as [record|e|].
  - apply (Hrest (Some record)). growing.
  - destruct (is_illegal e); [|apply Hrefuse; growing].
    apply tsafe_bind, safe_look. intros v2 Hr2 _. apply Hrest. growing.
  - apply Hrefuse. growing.
Qed.

Lemma safe_wait_for_assignment n i group generation (Q : Known -> GView -> Prop) v :
  (forall known v', group_grows v v' -> (forall m, known = KMine m -> submitted_for group generation m v') -> Q known v') ->
  safe i (wait_for_assignment n group generation) Q v.
Proof.
  revert v. induction n as [|n IH]; intros v HQ; cbn [wait_for_assignment]; [apply tsafe_parked|].
  apply tsafe_bind, safe_look. intros v1 Hr1 Hi1.
  assert (forall known v', group_inv clean v' -> group_grows v v' ->
    assignment_for (sy_assignments (sync_entry group (tv_state v'))) generation = known -> Q known v') as Hknown.
  { intros known v' Hi Hg Hk. apply HQ; [done|]. intros m ->. by eapply known_submitted. }
  destruct (assignment_for _ generation) as [m| | |] eqn:Hk;
    try (apply (Hknown _ v1 Hi1); [growing|exact Hk]).
  apply tsafe_bind, safe_timer. intros timer v2 Hr2. destruct timer.
  - apply safe_look. intros v3 Hr3 Hi3. apply (Hknown _ v3 Hi3); [growing|done].
  - apply IH. intros known v3 Hg3 Hm. apply HQ; [growing|done].
Qed.

Lemma safe_sync_handle fuel i version authorized request (Q : SyncGroupResponse -> GView -> Prop) v :
  tv_ops v !! i = Some (OpSync version authorized request) ->
  (forall response v', group_grows v v' -> sync_answered version request response v' -> Q response v') ->
  safe i (sync_handle fuel version authorized request) Q v.
Proof.
  intros Hop HQ. assert (forall code v', code <> NO_ERROR -> group_grows v v' -> Q (sync_refusal code) v') as Hrefuse.
  { intros code v' Hc Hg. apply HQ; [done|]. intros Hz. simpl in Hz. by rewrite Hz in Hc. }
  unfold sync_handle. destruct (GroupId_new (sr_group_id request)) as [group|e|] eqn:Hg;
    [|by apply Hrefuse; [|growing]..]. apply GroupId_new_Ok in Hg as ->.
  destruct (negb _); [by apply Hrefuse; [|growing]|].
  apply tsafe_bind, safe_look. intros v1 Hr1 _.
  assert (safe i (match sr_assignments request with
          | _ :: _ => submit_assignment (sr_group_id request) request version
          | [] =>
              do! _ := change (touch_sync (sr_group_id request)) in
              do! known := wait_for_assignment fuel (sr_group_id request) (sr_generation_id request) in
              Ret (match known with
                   | KMine map => sync_response_for map request version
                   | _ => sync_refusal (Refusal_error_code RebalanceInProgress)
                   end)
          end) Q v1) as Hlet.
  { destruct (sr_assignments request) as [|a l] eqn:Ha.
    - apply tsafe_bind, safe_changing; [intros; apply quiet_touch|]. intros v2 Hg2.
      apply tsafe_bind, safe_wait_for_assignment. intros known v3 Hg3 Hm.
      destruct known as [m| | |]; [|apply Hrefuse; [done|growing]..].
      apply HQ; [growing|]. intros _. exists m. split; [by apply Hm|done].
    - eapply safe_submit_assignment; [|by rewrite Ha|].
      + eapply lookup_weaken; [done|apply (gg_ops _ _ (gr_grows _ _ _ Hr1))].
      + intros response v2 Hg2 Hans. apply HQ; [growing|done]. }
  destruct (fence_here _ _ _ _ _) as [[]|refused|]; [done| |done]. apply Hrefuse; [apply refusal_code_error|growing].
Qed.

(** ** Heartbeat and LeaveGroup *)

Lemma safe_drop i group keep (Q : option nat -> GView -> Prop) v :
  (forall r v', group_grows v v' ->
     (forall rid, r = Some rid -> exists event, mine i rid (RqTransition group event) v') -> Q r v') ->
  safe i (section (drop_sessions group keep)) Q v.
Proof.
  intros HQ. apply tsafe_section. intros v1 Hr1 Hi1. unfold drop_sessions.
  destruct (g_heartbeats _ !! group) as [members|]; [|apply goes_unchanged; [done|]; apply HQ; [growing|done]].
  set (kept := filter _ members). destruct (_ =? _)%nat.
  - eapply goes_quiet; [done|by apply quiet_elsewhere|]. intros v' Hg _ _ _. apply HQ; [growing|done].
  - set (event := if bool_decide _ then _ else _). apply goes_enqueue; [done|by apply quiet_elsewhere|].
    intros v' Hr' Hm. apply HQ; [growing|]. intros rid [= <-]. by exists event.
Qed.

Lemma safe_remove i group keep (Q : GView -> Prop) v :
  (forall v', group_grows v v' -> Q v') -> safe i (remove_where group keep) (fun _ => Q) v.
Proof.
  intros HQ. apply tsafe_bind, safe_look. intros v1 Hr1 _. apply tsafe_bind, safe_drop. intros r v2 Hg2 Hm.
  destruct r as [rid|]; [|apply HQ; growing]. destruct (Hm rid eq_refl) as [event Hmine].
  apply tsafe_bind. eapply safe_await; [exact Hmine|]. intros record v3 Hr3 _.
  destruct (gr_generation <$> _); [|apply HQ; growing]. apply safe_refuse. intros v4 Hr4. apply HQ. growing.
Qed.

Lemma quiet_renew cells group member s : quiet cells s cells (hb_renew group member s).
Proof. unfold hb_renew. repeat case_match; by apply quiet_elsewhere. Qed.

Lemma safe_heartbeat i authorized request (Q : Z -> GView -> Prop) v :
  (forall code v', group_grows v v' -> Q code v') -> safe i (heartbeat_handle authorized request) Q v.
Proof.
  intros HQ. unfold heartbeat_handle. destruct (GroupId_new _) as [group|e|]; [|apply HQ; growing..].
  destruct (negb _); [apply HQ; growing|]. apply tsafe_bind. unfold sweep.
  apply tsafe_bind, safe_look. intros v1 Hr1 _. apply safe_remove. intros v2 Hg2.
  apply tsafe_bind, safe_look. intros v3 Hr3 _.
  assert (forall code, safe i (do! _ := change (hb_renew group (hb_member_id request)) in Ret code) Q v3) as Hrenew.
  { intros code. apply tsafe_bind, safe_changing; [intros; apply quiet_renew|]. intros v4 Hg4. apply HQ. growing. }
  destruct (fence_here _ _ _ _ _) as [[]|refusal|]; [apply Hrenew| |apply Hrenew].
  destruct refusal; try (apply HQ; growing). apply Hrenew.
Qed.

Lemma safe_leave i authorized request (Q : LeaveGroupResponse -> GView -> Prop) v :
  (forall response v', group_grows v v' -> Q response v') -> safe i (leave_handle authorized request) Q v.
Proof.
  intros HQ. unfold leave_handle. destruct (GroupId_new _) as [group|e|]; [|apply HQ; growing..].
  destruct (negb _); [apply HQ; growing|]. apply tsafe_bind, (safe_each i _ (fun _ _ _ => True)); [done| |].
  - intros id Q' v' HQ'. apply tsafe_bind, safe_look. intros v1 Hr1 _. apply HQ'; [growing|done].
  - intros bs v1 Hg1 _. apply tsafe_bind, safe_remove. intros v2 Hg2. apply HQ. growing.
Qed.
End handlers.
