(* ===== verification/GroupActor.v ===== *)
(** * GroupActor: the single writer of group state

    The judgement of one turn of [serve] in [group_transitions.rs]: it journals
    before it applies, and what it answers is what it applied. *)

From stdpp Require Import base tactics list numbers strings gmap.
From Stdlib Require Import ZArith Lia.
From S2P Require Import Prelude Types Bytes Group MsgGroup Tasks GroupRounds GroupHandlers.
From S2P Require Import GroupInv GroupSafe.

Open Scope Z_scope.

(** ** Journaled, then applied *)

Lemma replay_offsets_only st l : offsets_only l -> replay_page st l = (st, Ok tt).
Proof. induction 1 as [|e l He _ IH]; [done|]. cbn [replay_page]. by rewrite replay_offset. Qed.

(** Replaying one more record, then offsets. *)
Lemma lockstep_applied c c' l1 e l2 :
  lockstep c l1 -> offsets_only l2 ->
  (forall c0, same_groups c0 c -> exists c0', replay_entry (c0, ∅) e = ((c0', ∅), Ok tt) /\ same_groups c0' c') ->
  lockstep c' (l1 ++ e :: l2).
Proof.
  intros (c0 & Hr & Hs) Hl2 Hstep. destruct (Hstep c0 Hs) as (c0' & He & Hs'). exists c0'. split; [|done].
  rewrite replay_page_app, Hr. cbn [replay_page]. rewrite He. by apply replay_offsets_only.
Qed.

Definition cleared (event : GroupEvent) (group : GroupId) (c : FakeGroupCoordinator) : FakeGroupCoordinator :=
  if clears_roster event then gc_set_roster c group None else c.

Lemma lockstep_transition c l1 v group event l2 record :
  lockstep c l1 -> offsets_only l2 -> record_step (record_of c group) event = Ok record ->
  lockstep (cleared event group (gc_transition c group event).1)
    (l1 ++ mkGroupEntry v (GroupTransitioned group event) :: l2).
Proof.
  intros Hl Hl2 Hstep. eapply lockstep_applied; [done..|]. intros c0 [Hg Hr]. unfold record_of in Hstep.
  cbn [replay_entry ge_record]. rewrite decide_False by set_solver. unfold gc_transition.
  rewrite Hg, Hstep. eexists. split; [reflexivity|]. unfold same_groups, cleared.
  destruct (clears_roster event); simpl; by rewrite ?Hg, ?Hr.
Qed.

Lemma lockstep_roster c l1 v group roster l2 :
  lockstep c l1 -> offsets_only l2 ->
  lockstep (gc_set_roster c group roster) (l1 ++ mkGroupEntry v (GroupRosterUpdated group roster) :: l2).
Proof.
  intros Hl Hl2. eapply lockstep_applied; [done..|]. intros c0 [Hg Hr].
  cbn [replay_entry ge_record]. rewrite decide_False by set_solver. eexists. split; [reflexivity|].
  unfold same_groups; simpl. by rewrite Hg, Hr.
Qed.

(** ** Records only move forward *)

Lemma record_step_le r event r' :
  group_record_wf r -> record_step r event = Ok r' ->
  gr_generation r <= gr_generation r' /\ gr_assignment_epoch r <= gr_assignment_epoch r'.
Proof.
  intros Hwf Hs. destruct (record_step_Ok _ _ _ Hwf Hs) as (_ & _ & Hg). split; [rewrite Hg; destruct (closes event); lia|].
  destruct Hwf as (_ & He & _). unfold record_step, transition, GenerationId_next in Hs.
  destruct r as [s g a]; simpl in *. repeat case_match; simplify_eq/=; lia.
Qed.

Lemma record_of_wf c group : coord_wf c -> group_record_wf (record_of c group).
Proof.
  intros Hc. unfold record_of. destruct (gc_groups c !! group) as [r|] eqn:Hr; [by apply (Hc group)|apply FRESH_wf].
Qed.

Lemma gc_transition_Ok c group event record :
  coord_wf c -> record_step (record_of c group) event = Ok record ->
  let c' := (gc_transition c group event).1 in
  (gc_transition c group event).2 = Ok record /\ coord_wf c' /\ coord_le c c' /\
  record_of c' group = record /\ gc_rosters c' = gc_rosters c.
Proof.
  intros Hwf Hs. unfold gc_transition. unfold record_of in Hs. rewrite Hs. simpl.
  pose proof (record_of_wf c group Hwf) as Hr. fold (record_of c group) in Hs.
  destruct (record_step_Ok _ _ _ Hr Hs) as (_ & Hwf' & _). destruct (record_step_le _ _ _ Hr Hs).
  split_and!; [done| | |unfold record_of; simpl; by rewrite lookup_insert_eq|done].
  - intros g r Hin. simpl in Hin. apply lookup_insert_Some in Hin as [[<- <-]|[_ Hg]]; [done|by apply (Hwf g)].
  - intros g. unfold record_of at 2 4; simpl. destruct (decide (group = g)) as [<-|Hne].
    + by rewrite lookup_insert_eq.
    + rewrite lookup_insert_ne by done. unfold record_of. lia.
Qed.

Section actor.
Context (clean : bool).
Notation goes := (tgoes (group_inv clean) group_rely group_grows).
Notation safe := (tsafe (group_allowed clean) (group_inv clean) group_rely group_grows).

(** ** What the actor holds *)

Record serving (i : nat) (p : Pending) (c : FakeGroupCoordinator) (v : GView) : Prop := {
  sv_server : gh_server (tv_ghost v) = Some i;
  sv_pending : gh_pending (tv_ghost v) = p;
  sv_coord : g_coordinator (tv_state v) = c;
}.

Record held (rid : nat) (request : ActorRequest) (v : GView) : Prop := {
  hd_request : gh_requests (tv_ghost v) !! rid = Some request;
  hd_reply : g_replies (tv_state v) !! rid = None;
  hd_queue : rid ∉ (g_queue (tv_state v)).*1;
  hd_next : (rid < g_next_request (tv_state v))%nat;
}.

(** What it is about to answer closes no generation twice. *)
Definition reply_ok (request : ActorRequest) (reply : ActorReply) (v : GView) : Prop :=
  forall group record, request = RqTransition group EvJoinBarrierComplete -> reply = RpTransition (Ok record) ->
    gr_generation record <= gr_generation (record_of (g_coordinator (tv_state v)) group) /\
    forall rid, is_Some (g_replies (tv_state v) !! rid) -> is_Some (gh_requests (tv_ghost v) !! rid) /\
      forall generation, barrier_at (gh_requests (tv_ghost v)) (g_replies (tv_state v)) rid group generation ->
        generation < gr_generation record.

Lemma serving_rely i p c v v' : group_rely i v v' -> serving i p c v -> serving i p c v'.
Proof. intros [_ Hf _] [Hs Hp Hc]. destruct (Hf Hs) as [A1 A2 A3 _ _ _]. split; congruence. Qed.

Lemma held_rely i p c rid request v v' :
  group_rely i v v' -> serving i p c v -> held rid request v -> held rid request v'.
Proof.
  intros [Hg Hf _] [Hs _ _] [H1 H2 H3 H4]. destruct (Hf Hs) as [_ _ _ A4 (q & A5 & A6) _]. split.
  - eapply lookup_weaken; [done|apply (gg_requests _ _ Hg)].
  - by rewrite A4.
  - rewrite A5, fmap_app. intros [Hin|Hin]%elem_of_app; [done|].
    apply list_elem_of_fmap in Hin as ([r x] & -> & Hin). rewrite Forall_forall in A6. apply A6 in Hin. simpl in *. lia.
  - pose proof (gg_next _ _ Hg). lia.
Qed.

Lemma reply_ok_rely i p c request reply v v' :
  group_rely i v v' -> serving i p c v -> reply_ok request reply v -> reply_ok request reply v'.
Proof.
  intros [Hg Hf _] [Hs _ _] Hok group record Hreq Hrep. destruct (Hf Hs) as [_ _ A3 A4 _ _].
  destruct (Hok _ _ Hreq Hrep) as [Hle Hlt]. rewrite A3, A4. split; [done|]. intros rid Hr.
  destruct (Hlt rid Hr) as [[q Hq] Hb].
  assert (gh_requests (tv_ghost v') !! rid = Some q) as Hq'.
  { eapply lookup_weaken; [done|apply (gg_requests _ _ Hg)]. }
  split; [by eexists|]. intros generation [Hbr Hbp]. apply Hb. split; [congruence|done].
Qed.

(** ** A section of the actor *)

Lemma ticket_coord requests replies c c' closed spent :
  coord_le c c' -> ticket_part requests replies c closed spent -> ticket_part requests replies c' closed spent.
Proof.
  intros Hle (T1 & T2 & T3 & T4). split_and!; try done. intros rid g generation Hb.
  apply T1 in Hb. destruct (Hle g). lia.
Qed.

Lemma sync_coord sync submitted ops c c' :
  coord_le c c' -> sync_part sync submitted ops c -> sync_part sync submitted ops c'.
Proof.
  intros Hle [S1 S2]. split; [|done]. intros g generation m i Hin. destruct (S1 _ _ _ _ Hin) as [He Hop].
  split; [|done]. destruct (Hle g). lia.
Qed.

(** Its ghost state: what is pending, and who serves. *)
Definition gh_actor (p : Pending) (server : option nat) (retired : gset nat) (gh : GGhost) : GGhost :=
  gh_with_pending p (gh_with_server server retired gh).

Record actor_step (i : nat) (v : GView) (s' : Groups) (p' : Pending) (server' : option nat) (retired' : gset nat)
    : Prop := {
  as_server : gh_server (tv_ghost v) = Some i;
  as_rest : with_channel (g_queue (tv_state v)) (g_replies (tv_state v)) (g_next_request (tv_state v))
    (with_log (g_log (tv_state v)) (with_coordinator (g_coordinator (tv_state v)) s')) = tv_state v;
  as_log : g_log (tv_state v) `prefix_of` g_log s';
  as_coord : coord_le (g_coordinator (tv_state v)) (g_coordinator s');
  as_replies : g_replies (tv_state v) ⊆ g_replies s';
  as_next : g_next_request s' = g_next_request (tv_state v);
  as_log_part : log_part clean (g_log s') (g_coordinator s') p';
  as_ticket : ticket_part (gh_requests (tv_ghost v)) (g_replies s') (g_coordinator s')
    (gh_closed (tv_ghost v)) (gh_spent (tv_ghost v));
  as_channel : channel_part (g_queue s') (g_replies s') (g_next_request s')
    (gh_requests (tv_ghost v)) (gh_owner (tv_ghost v));
  as_server_part : server_part server' retired' (tv_ops v) p';
  as_retired : gh_retired (tv_ghost v) ⊆ retired';
}.

Lemma goes_actor i v s' p' server' retired' (Q : GView -> Prop) :
  group_inv clean v -> actor_step i v s' p' server' retired' ->
  Q (mkTView s' (gh_actor p' server' retired' (tv_ghost v)) (tv_ops v)) -> goes i v s' Q.
Proof.
  intros (HL & HR & HT & HC & HS & HO & HV) [As Ar Al Ac Arep An Alp At Ach Asp Aret] HQ.
  exists (gh_actor p' server' retired' (tv_ghost v)). set (v' := mkTView _ _ _).
  assert (g_joins s' = g_joins (tv_state v) /\ g_outcomes s' = g_outcomes (tv_state v) /\
    g_next_outcome s' = g_next_outcome (tv_state v) /\ g_sync s' = g_sync (tv_state v) /\
    g_offsets s' = g_offsets (tv_state v)) as (E1 & E2 & E3 & E4 & E5).
  { rewrite <-Ar. by destruct s'. }
  assert (group_grows v v') as Hg.
  { split; simpl; rewrite ?An, ?E2, ?E5; auto with oq. }
  split; [|split; [done|split; [|done]]].
  - unfold group_inv; simpl. rewrite E1, E2, E3, E4, E5. split_and!; try done; [by eapply sync_coord|].
    eapply offset_part_mono; [|done]. destruct Al as [l ->]. set_solver.
  - intros j Hj. split; [done| |done]. intros Hs. congruence.
Qed.

(** The parts that stay as they are. *)
Lemma server_part_pending server retired ops p p' :
  server <> None -> server_part server retired ops p -> server_part server retired ops p'.
Proof. intros Hne (S1 & S2 & S3). by split_and!. Qed.

(** Receiving a request. *)
Lemma safe_receive i c (Q : nat * ActorRequest -> GView -> Prop) v :
  serving i PNone c v ->
  (forall rid request v', serving i PNone c v' -> held rid request v' -> Q (rid, request) v') -> safe i receive Q v.
Proof.
  intros Hs HQ. apply tsafe_act. intros v1 ch s' x Hr Hi _ Hf. apply (serving_rely _ _ _ _ _ Hr) in Hs.
  destruct (g_queue (tv_state v1)) as [|[rid request] queue] eqn:Hq; simplify_eq.
  pose proof Hi as (HL & HR & HT & (C1 & C2 & C3 & C4 & C5) & HS & HO & HV). destruct Hs as [S1 S2 S3].
  rewrite Hq in C1, C2. apply NoDup_cons in C1 as [Hnin Hnd].
  destruct (C2 rid request) as [Hreq Hrep]; [set_solver|].
  apply (goes_actor i v1 _ (gh_pending (tv_ghost v1)) (gh_server (tv_ghost v1)) (gh_retired (tv_ghost v1))); [done| |].
  - split; simpl; auto with oq; [by destruct (tv_state v1); simplify_eq/=|].
    split_and!; try done. intros rid' r Hin. apply C2. set_solver.
  - apply HQ; [by split|]. split; simpl; [done..|]. apply C3. by eexists.
Qed.

(** ** Journaling *)

Definition journal_ends (i : nat) (c : FakeGroupCoordinator) (rid : nat) (request : ActorRequest)
    (record : GroupMetadataRecord) (r : Res CommitVersion) (v : GView) : Prop :=
  held rid request v /\
  match r with
  | Ok _ => serving i (PJournaled record) c v
  | _ => serving i PNone c v
  end.

Lemma log_part_journaled c l e :
  log_part clean l c PNone -> group_increasing None (l ++ [e]) -> log_part clean (l ++ [e]) c (PJournaled (ge_record e)).
Proof.
  intros (L1 & L2 & L3) Hinc. split_and!; [done..|]. intros Hc. exists l, e, []. split_and!; [done..|constructor|by apply L3].
Qed.

Lemma safe_journal_append i c rid request e (Q : Res unit -> GView -> Prop) v :
  serving i PNone c v -> held rid request v ->
  (forall r v', held rid request v' ->
     match r with Ok _ => serving i (PJournaled (ge_record e)) c v' | _ => serving i PNone c v' end -> Q r v') ->
  safe i (log_append [e]) Q v.
Proof.
  intros Hs Hh HQ. apply tsafe_act. intros v1 ch s' x Hr Hi Hch Hf.
  apply (held_rely _ _ _ _ _ _ _ Hr Hs) in Hh. apply (serving_rely _ _ _ _ _ Hr) in Hs.
  destruct (group_append (g_log (tv_state v1)) [e]) as [l' r] eqn:Ha.
  pose proof Hi as (HL & _ & HT & HC & _ & _ & HV). destruct Hs as [S1 S2 S3].
  assert (forall err, goes i v1 (tv_state v1) (Q (Err err))) as Hsame.
  { intros err. apply goes_unchanged; [done|]. apply HQ; [done|by split]. }
  assert (forall p (R : GView -> Prop), log_part clean l' (g_coordinator (tv_state v1)) p ->
    g_log (tv_state v1) `prefix_of` l' -> (forall v', held rid request v' -> serving i p c v' -> R v') ->
    goes i v1 (with_log l' (tv_state v1)) R) as Hlog.
  { intros p R Hp Hpre HR.
    apply (goes_actor i v1 _ p (gh_server (tv_ghost v1)) (gh_retired (tv_ghost v1))); [done| |].
    - split; simpl; auto with oq; [by destruct (tv_state v1)|].
      eapply server_part_pending; [by rewrite S1|done].
    - apply HR; [by destruct Hh|by split]. }
  rewrite S2 in HL. apply group_append_one in Ha as [(-> & -> & Hinc)|[[err ->] ->]].
  - destruct (ch_fault ch) as [err|].
    + destruct (ch_landed ch) eqn:Hland; injection Hf as <- <-; [|apply Hsame].
      apply (Hlog PNone); [|by apply prefix_app_r|by auto].
      destruct HL as (L1 & L2 & L3). split_and!; [by apply Hinc|done|]. intros Hc. by rewrite (Hch Hc) in Hland.
    + injection Hf as <- <-. apply (Hlog (PJournaled (ge_record e))); [|by apply prefix_app_r|by auto].
      apply log_part_journaled; [done|]. apply Hinc, HL.
  - assert (with_log (g_log (tv_state v1)) (tv_state v1) = tv_state v1) as Hid by (by destruct (tv_state v1)).
    rewrite Hid in Hf. destruct (ch_fault ch) as [err'|]; [destruct (ch_landed ch)|]; injection Hf as <- <-; apply Hsame.
Qed.

Lemma safe_journal n i c rid request record (Q : Res CommitVersion -> GView -> Prop) v :
  serving i PNone c v -> held rid request v ->
  (forall r v', journal_ends i c rid request record r v' -> Q r v') -> safe i (append_retrying n record) Q v.
Proof.
  revert v. induction n as [|n IH]; intros v Hs Hh HQ; cbn [append_retrying]; [by apply HQ|].
  apply tsafe_bind, safe_last_version. intros last v1 Hr1.
  apply (held_rely _ _ _ _ _ _ _ Hr1 Hs) in Hh. apply (serving_rely _ _ _ _ _ Hr1) in Hs.
  destruct (let? l := last in next_version l) as [next|err|]; [|by apply HQ..].
  apply tsafe_bind. eapply safe_journal_append; [done..|]. intros r v2 Hh2 Hs2.
  destruct r as [[]|err|]; [by apply HQ|destruct (is_non_monotonic err)|by apply HQ]; [by apply IH|by apply HQ].
Qed.

(** ** Applying *)

(** A section on the coordinator alone. *)
Lemma goes_coordinator i v c' p' (Q : GView -> Prop) :
  group_inv clean v -> gh_server (tv_ghost v) = Some i ->
  coord_wf c' -> coord_le (g_coordinator (tv_state v)) c' -> (clean = true -> in_step p' c' (g_log (tv_state v))) ->
  Q (mkTView (with_coordinator c' (tv_state v)) (gh_actor p' (Some i) (gh_retired (tv_ghost v)) (tv_ghost v)) (tv_ops v)) ->
  goes i v (with_coordinator c' (tv_state v)) Q.
Proof.
  intros Hi Hs Hwf Hle Hstep HQ. pose proof Hi as ((L1 & _) & _ & HT & HC & _ & _ & HV).
  eapply goes_actor; [done| |exact HQ].
  split; simpl; auto with oq; [by destruct (tv_state v)|done|by eapply ticket_coord|].
  rewrite <-Hs. eapply server_part_pending; [by rewrite Hs|done].
Qed.

Lemma record_of_set_roster c group roster g : record_of (gc_set_roster c group roster) g = record_of c g.
Proof. done. Qed.

Lemma safe_apply_transition i c rid group event record (Q : Res GroupRecord -> GView -> Prop) v :
  serving i (PJournaled (GroupTransitioned group event)) c v -> held rid (RqTransition group event) v ->
  record_step (record_of c group) event = Ok record ->
  (forall c' v', serving i PNone c' v' -> held rid (RqTransition group event) v' ->
     reply_ok (RqTransition group event) (RpTransition (Ok record)) v' -> Q (Ok record) v') ->
  safe i (apply_event group event) Q v.
Proof.
  intros Hs Hh Hstep HQ. apply tsafe_bind, tsafe_section. intros v1 Hr Hi.
  apply (held_rely _ _ _ _ _ _ _ Hr Hs) in Hh. apply (serving_rely _ _ _ _ _ Hr) in Hs. destruct Hs as [S1 S2 S3].
  pose proof Hi as ((L1 & L2 & L3) & _ & (T1 & T2 & T3 & T4) & (_ & _ & _ & C4 & _) & _). rewrite S2 in L3. rewrite S3 in *.
  destruct (gc_transition_Ok c group event record L2 Hstep) as (Hres & Hwf & Hle & Hrec & Hros).
  destruct (gc_transition c group event) as [c1 r] eqn:Hgc. simpl in Hres, Hwf, Hle, Hrec, Hros. subst r. cbn [fst snd].
  assert (clean = true -> lockstep (cleared event group c1) (g_log (tv_state v1))) as Hlock.
  { intros Hc. destruct (L3 Hc) as (l1 & e & l2 & Hl & He & Hl2 & Hls). rewrite Hl. destruct e as [ver rec]. simpl in He.
    subst rec. replace c1 with (gc_transition c group event).1 by (by rewrite Hgc). by eapply lockstep_transition. }
  assert (forall v', g_replies (tv_state v') = g_replies (tv_state v1) ->
    gh_requests (tv_ghost v') = gh_requests (tv_ghost v1) -> record_of (g_coordinator (tv_state v')) group = record ->
    reply_ok (RqTransition group event) (RpTransition (Ok record)) v') as Hok.
  { intros v' E1 E2 E3 g r [= <- ->] [= <-]. rewrite E1, E2, E3. split; [done|]. intros rid' Hrid'.
    split; [by apply C4|]. intros generation Hb%T1.
    destruct (record_step_Ok _ _ _ (record_of_wf c group L2) Hstep) as (_ & _ & ->). simpl. lia. }
  unfold cleared in Hlock. destruct (clears_roster event) eqn:Hclears.
  - apply (goes_coordinator i v1 c1 (PClearing group)); [done..|by rewrite S3| |].
    { done. }
    apply tsafe_bind, tsafe_section. intros v2 Hr2 Hi2. cbn [fst snd].
    set (v1' := mkTView _ _ _) in Hr2.
    assert (serving i (PClearing group) c1 v1') as Hs1 by done.
    assert (held rid (RqTransition group event) v1') as Hh1 by (by destruct Hh).
    assert (reply_ok (RqTransition group event) (RpTransition (Ok record)) v1') as Hok1 by (by apply Hok).
    apply (reply_ok_rely _ _ _ _ _ _ _ Hr2 Hs1) in Hok1.
    apply (held_rely _ _ _ _ _ _ _ Hr2 Hs1) in Hh1. apply (serving_rely _ _ _ _ _ Hr2) in Hs1. destruct Hs1 as [A1 A2 A3].
    pose proof Hi2 as ((M1 & M2 & M3) & _). rewrite A2 in M3.
    apply (goes_coordinator i v2 (gc_set_roster (g_coordinator (tv_state v2)) group None) PNone); [done..| |].
    { done. }
    eapply HQ; [by split|by destruct Hh1|]. intros g r E1 E2. by apply (Hok1 g r).
  - apply (goes_coordinator i v1 c1 PNone); [done..|by rewrite S3|done|].
    eapply HQ; [by split|by destruct Hh|]. by apply Hok.
Qed.

Lemma safe_handle_one i c rid group event (Q : Res GroupRecord -> GView -> Prop) v :
  serving i PNone c v -> held rid (RqTransition group event) v ->
  (forall r c' v', r <> Panic -> serving i PNone c' v' -> held rid (RqTransition group event) v' ->
     reply_ok (RqTransition group event) (RpTransition r) v' -> Q r v') ->
  (forall v', Q Panic v') -> safe i (handle_one group event) Q v.
Proof.
  intros Hs Hh HQ HP. apply tsafe_bind, safe_look. intros v1 Hr1 _.
  apply (held_rely _ _ _ _ _ _ _ Hr1 Hs) in Hh. apply (serving_rely _ _ _ _ _ Hr1) in Hs.
  pose proof (sv_coord _ _ _ _ Hs) as Hc.
  change (default FRESH (gc_record (g_coordinator (tv_state v1)) group)) with (record_of (g_coordinator (tv_state v1)) group).
  rewrite Hc.
  assert (forall e v', serving i PNone c v' -> held rid (RqTransition group event) v' -> Q (Err e) v') as Herr.
  { intros e v' Hs' Hh'. by eapply HQ. }
  destruct (record_step (record_of c group) event) as [record|e|] eqn:Hstep; [|by apply Herr|apply HP].
  apply tsafe_bind. eapply safe_journal; [done..|]. intros r v2 [Hh2 Hs2]. destruct r as [version|e|].
  - eapply safe_apply_transition; [done..|]. intros c' v3 Hs3 Hh3 Hok. by eapply HQ.
  - by apply Herr.
  - apply HP.
Qed.

Lemma safe_update_roster i c rid group roster (Q : Res unit -> GView -> Prop) v :
  serving i PNone c v -> held rid (RqRoster group roster) v ->
  (forall r c' v', r <> Panic -> serving i PNone c' v' -> held rid (RqRoster group roster) v' -> Q r v') ->
  (forall v', Q Panic v') -> safe i (update_roster group roster) Q v.
Proof.
  intros Hs Hh HQ HP. apply tsafe_bind. eapply safe_journal; [done..|]. intros r v1 [Hh1 Hs1].
  destruct r as [version|e|]; [|by eapply HQ|apply HP]. apply tsafe_bind, tsafe_section. intros v2 Hr2 Hi2. cbn [fst snd].
  apply (held_rely _ _ _ _ _ _ _ Hr2 Hs1) in Hh1. apply (serving_rely _ _ _ _ _ Hr2) in Hs1. destruct Hs1 as [A1 A2 A3].
  pose proof Hi2 as ((M1 & M2 & M3) & _). rewrite A2 in M3.
  apply (goes_coordinator i v2 (gc_set_roster (g_coordinator (tv_state v2)) group roster) PNone); [done..| | |].
  - intros g. rewrite record_of_set_roster. lia.
  - intros Hc. destruct (M3 Hc) as (l1 & [ver rec] & l2 & -> & He & Hl2 & Hls). simpl in He. subst rec.
    by apply lockstep_roster.
  - eapply HQ; [done|by split|by destruct Hh1].
Qed.

(** ** Answering *)

Lemma ticket_reply requests replies c closed spent rid request reply :
  requests !! rid = Some request -> replies !! rid = None ->
  (forall group record, request = RqTransition group EvJoinBarrierComplete -> reply = RpTransition (Ok record) ->
     gr_generation record <= gr_generation (record_of c group) /\
     forall rid' generation, barrier_at requests replies rid' group generation -> generation < gr_generation record) ->
  ticket_part requests replies c closed spent -> ticket_part requests (<[rid := reply]> replies) c closed spent.
Proof.
  intros Hreq Hnone Hok (T1 & T2 & T3 & T4).
  assert (forall rid' g generation, barrier_at requests (<[rid := reply]> replies) rid' g generation ->
    (rid' <> rid /\ barrier_at requests replies rid' g generation) \/
    (rid' = rid /\ exists record, request = RqTransition g EvJoinBarrierComplete /\ reply = RpTransition (Ok record) /\
       gr_generation record = generation)) as Hcases.
  { intros rid' g generation [Hr (record & [[<- ->]|[Hne Hp]]%lookup_insert_Some & Hgen)].
    - right. split; [done|]. exists record. split_and!; [congruence|done|done].
    - left. split; [done|]. split; [done|]. eauto. }
  split_and!; [| | |done].
  - intros rid' g generation [[_ Hb]|(-> & record & Hq & Hp & <-)]%Hcases; [by eapply T1|by apply Hok].
  - intros rid1 rid2 g generation H1 H2. destruct (Hcases _ _ _ H1) as [[N1 B1]|(-> & r1 & Q1 & P1 & G1)],
      (Hcases _ _ _ H2) as [[N2 B2]|(-> & r2 & Q2 & P2 & G2)]; [by eapply T2| | |done].
    + destruct (Hok _ _ Q2 P2) as [_ Hlt]. apply Hlt in B1. lia.
    + destruct (Hok _ _ Q1 P1) as [_ Hlt]. apply Hlt in B2. lia.
  - intros g generation id Hcl. destruct (T3 _ _ _ Hcl) as (rid' & Hs & Hq & record & Hp & Hg). exists rid'.
    split; [done|]. split; [done|]. exists record. split; [|done]. rewrite lookup_insert_ne; [done|]. intros <-. congruence.
Qed.

Lemma safe_respond i c rid request reply (Q : GView -> Prop) v :
  serving i PNone c v -> held rid request v -> reply_ok request reply v ->
  (forall v', i ∈ gh_retired (tv_ghost v') -> Q v') -> safe i (respond rid reply) (fun _ => Q) v.
Proof.
  intros Hs Hh Hok HQ. apply tsafe_section. intros v1 Hr Hi. cbn [fst snd].
  apply (reply_ok_rely _ _ _ _ _ _ _ Hr Hs) in Hok. apply (held_rely _ _ _ _ _ _ _ Hr Hs) in Hh.
  apply (serving_rely _ _ _ _ _ Hr) in Hs. destruct Hs as [S1 S2 S3], Hh as [H1 H2 H3 H4].
  pose proof Hi as (HL & _ & HT & HC & _ & _ & (V1 & V2 & V3)). rewrite S2 in HL.
  apply (goes_actor i v1 _ PNone None ({[i]} ∪ gh_retired (tv_ghost v1))); [done| |apply HQ; simpl; set_solver].
  split; simpl; auto with oq; [by destruct (tv_state v1)|by apply insert_subseteq| | |split_and!; [done..|]|set_solver].
  - eapply ticket_reply; [done..| |done]. intros group record Eq Ep. destruct (Hok _ _ Eq Ep) as [Hle Hlt]. split; [done|].
    intros rid' generation Hb. apply (Hlt rid'); [|done]. destruct Hb as [_ (r & Hp & _)]. by eexists.
  - destruct HC as (C1 & C2 & C3 & C4 & C5). split_and!; try done.
    + intros rid' r Hin. destruct (C2 _ _ Hin) as [Hq Hp]. split; [done|]. rewrite lookup_insert_ne; [done|].
      intros <-. apply H3. apply list_elem_of_fmap. by exists (rid, r).
    + intros rid' [x [[<- _]|[_ Hx]]%lookup_insert_Some]; [by eexists|]. apply C4. by eexists.
  - intros j [->%elem_of_singleton|Hj]%elem_of_union; [|by apply V3]. destruct (V1 i S1) as [Hop _]. by eexists.
Qed.

Lemma safe_serve_one i c (Q : Res unit -> GView -> Prop) v :
  serving i PNone c v -> (forall v', i ∈ gh_retired (tv_ghost v') -> Q (Ok tt) v') -> (forall v', Q Panic v') ->
  safe i serve_one Q v.
Proof.
  intros Hs HQ HP. apply tsafe_bind. eapply safe_receive; [done|]. intros rid request v1 Hs1 Hh1.
  destruct request as [group event|group roster]; apply tsafe_bind.
  - eapply safe_handle_one; [done..| |by intros; apply HP]. intros r c' v2 Hr Hs2 Hh2 Hok.
    destruct r as [record|e|]; [| |done]; (apply tsafe_bind; eapply safe_respond; [done..|]; by intros; apply HQ).
  - eapply safe_update_roster; [done..| |by intros; apply HP]. intros r c' v2 Hr Hs2 Hh2.
    destruct r as [record|e|]; [| |done]; (apply tsafe_bind; eapply safe_respond; [done..| |]; [done|by intros; apply HQ]).
Qed.
End actor.
