(* ===== verification/GroupWorld.v ===== *)
(** * GroupWorld: what clients of consumer groups are promised

    Any number of JoinGroup, SyncGroup, Heartbeat, LeaveGroup and OffsetCommit
    requests run beside the actor that writes group state, interleaved at their
    [await] points; here are the properties of every world they reach. *)

From stdpp Require Import base tactics list numbers strings gmap relations.
From Stdlib Require Import ZArith Lia.
From S2P Require Import Prelude Types Bytes ErrorCodes Group MsgGroup Tasks GroupRounds GroupHandlers.
From S2P Require Import GroupInv GroupSafe GroupTasksSafe GroupActor.
From S2P Require Import Retry.

Open Scope Z_scope.

(** ** A broker that opens a log *)

(** What a log says was committed: under each key the version and the offset of
    the last commit to it (of the bindings of a key, [list_to_map] takes the
    first), whatever the broker does to arrive at it. *)
Definition commit_of (e : GroupMetadataEntry) : option (OffsetKey * (CommitVersion * Z)) :=
  match ge_record e with
  | OffsetCommitted group topic partition offset => Some ((group, topic, partition), (ge_version e, offset))
  | GroupTransitioned _ _ | GroupRosterUpdated _ _ => None
  end.

Definition offsets_of (l : list GroupMetadataEntry) : gmap OffsetKey (CommitVersion * Z) :=
  list_to_map (reverse (omap commit_of l)).

Lemma offsets_of_snoc l e :
  offsets_of (l ++ [e]) = match commit_of e with Some (k, x) => <[k := x]> (offsets_of l) | None => offsets_of l end.
Proof.
  unfold offsets_of. rewrite omap_app, reverse_app. cbn [omap list_omap]. by destruct (commit_of e) as [[k x]|].
Qed.

Lemma offsets_of_in l k x : offsets_of l !! k = Some x -> exists e, e ∈ l /\ commit_of e = Some (k, x).
Proof. intros Hk%elem_of_list_to_map_2. by rewrite elem_of_reverse, list_elem_of_omap in Hk. Qed.

(** Nothing is in flight; the coordinator and the offsets are those replayed. *)
Definition groups_opened (now : Z) (l : list GroupMetadataEntry) (c : FakeGroupCoordinator) : Groups :=
  mkGroups now false l c (offsets_of l) ∅ ∅ 0 ∅ ∅ 0 [] ∅ 0.

Definition ghost_opened : GGhost := mkGGhost PNone None ∅ ∅ ∅ ∅ ∅ ∅ [].

(** A log a broker may open, and the coordinator it gets from it. *)
Record opens (l : list GroupMetadataEntry) (c : FakeGroupCoordinator) : Prop := {
  op_increasing : group_increasing None l;
  op_replay : replay_page (FakeGroupCoordinator_new, ∅) l = ((c, ∅), Ok tt);
}.

Lemma coord_wf_new : coord_wf FakeGroupCoordinator_new.
Proof. by intros g r Hr. Qed.

Lemma replay_entry_wf st e : coord_wf st.1 -> coord_wf (replay_entry st e).1.1.
Proof.
  destruct st as [c poisoned], e as [v [g t p o|g ev|g r]]; simpl; intros Hc; [done| |by case_decide].
  case_decide; [done|]. destruct (record_step (record_of c g) ev) as [record|e|] eqn:Hs.
  - destruct (gc_transition_Ok c g ev record Hc Hs) as (Hr & Hwf & _).
    destruct (gc_transition c g ev) as [c' r]; simpl in *; subst r. simpl. by destruct (clears_roster ev).
  - unfold record_of in Hs. unfold gc_transition. rewrite Hs. by destruct (is_illegal e).
  - unfold record_of in Hs. unfold gc_transition. by rewrite Hs.
Qed.

Lemma replay_page_wf l st : coord_wf st.1 -> coord_wf (replay_page st l).1.1.
Proof.
  revert st. induction l as [|e l IH]; intros st Hc; simpl; [done|]. apply (replay_entry_wf st e) in Hc.
  destruct (replay_entry st e) as [st' [[]|err|]]; [by apply IH|done|done].
Qed.

Lemma offsets_of_part l : offset_part (offsets_of l) l.
Proof.
  intros g t p v o ([v' r] & Hin & He)%offsets_of_in. unfold commit_of in He. destruct r; by simplify_eq/=.
Qed.

Lemma opened_inv clean now l c :
  opens l c -> group_inv clean (mkTView (groups_opened now l c) ghost_opened ∅).
Proof.
  intros [Hinc Hrep]. unfold group_inv; simpl. split_and!.
  - split_and!; [done| |].
    + pose proof (replay_page_wf l (FakeGroupCoordinator_new, ∅) coord_wf_new) as Hwf. by rewrite Hrep in Hwf.
    + intros _. exists c. by split.
  - split_and!; intros; by simplify_map_eq.
  - split_and!; [intros rid g generation [Hb _]|intros rid rid' g generation [Hb _]|intros g generation id Hb|intros rid Hb];
      [by simplify_map_eq..|set_solver].
  - split_and!; [apply NoDup_nil; done|set_solver|by intros rid [? ?]|by intros rid [? ?]|by intros rid; split; intros [? ?]].
  - split; [set_solver|]. intros; by simplify_map_eq.
  - apply offsets_of_part.
  - split_and!; [done|done|set_solver].
Qed.

(** ** Every interleaving *)

Section world.
Context (fuel : nat) (clean : bool).

Definition gstep := twstep (group_code fuel) (group_allowed clean) group_may_start group_ticks.

Definition group_answer (i : nat) (op : GroupOp) (a : GroupAnswer) (v : GView) : Prop :=
  match op, a with
  | OpJoin version _ request, AnJoin response => join_answered version request response v
  | OpSync version _ request, AnSync response => sync_answered version request response v
  | OpHeartbeat _ _, AnHeartbeat _ => True
  | OpLeave _ _, AnLeave _ => True
  | OpCommit _ _ request, AnCommit topics =>
      Forall2 (fun t rt => topic_answered (oc_group_id request) t rt v) (oc_topics request) topics
  | OpServe, AnServed (Ok _) => i ∈ gh_retired (tv_ghost v)
  | OpServe, AnServed _ => True
  | _, _ => False
  end.

Lemma group_answer_grows i op a v v' : group_grows v v' -> group_answer i op a v -> group_answer i op a v'.
Proof.
  intros Hg. destruct op, a as [response|response|code|response|topics|[[]|e|]]; simpl; try done.
  - intros Ha Hz. destruct (Ha Hz) as (close & m & Hp & Hm). exists close, m. split; [by eapply published_grows|done].
  - intros Ha Hz. destruct (Ha Hz) as (m & Hs & Hr). exists m. split; [by eapply submitted_grows|done].
  - intros Ha. eapply Forall2_impl; [exact Ha|]. intros t rt. by apply topic_answered_grows.
  - intros Hi. by apply (gg_retired _ _ Hg).
Qed.

Lemma submission_ops ops ops' c g generation m i :
  ops ⊆ ops' -> submission ops c g generation m i -> submission ops' c g generation m i.
Proof.
  intros Hs (He & version & au & request & Hop & Hrest). split; [done|]. exists version, au, request.
  split; [by eapply lookup_weaken|done].
Qed.

(** A new task changes no shared state; a turn of the actor takes its role. *)
Lemma start_view (w : TWorld Groups GroupAnswer GroupOp) i op g server' :
  let v := tview w g in
  let v' := mkTView (tw_state w) (gh_with_server server' (gh_retired g) g) (<[i := op]> (tv_ops v)) in
  group_inv clean v -> tw_tasks w !! i = None -> gh_server g = None \/ server' = gh_server g ->
  server_part server' (gh_retired g) (tv_ops v') (gh_pending g) ->
  group_inv clean v' /\ group_grows v v' /\ forall j, group_rely j v v'.
Proof.
  intros v v' (HL & HR & HT & HC & HS & HO & HV) Hi Hserver Hsp.
  assert (tv_ops v ⊆ tv_ops v') as Hops.
  { apply insert_subseteq. simpl. by rewrite lookup_fmap, Hi. }
  assert (group_grows v v') as Hg by (split; simpl; auto with oq).
  split_and!; [|done|].
  - unfold group_inv; simpl. split_and!; try done; try apply HL. destruct HS as [S1 S2]. split; [|done].
    intros g' generation m j Hin. eapply submission_ops; [exact Hops|by apply S1].
  - intros j. split; [done| |done]. intros Hs. apply server_frame_same; try done. simpl in *. by destruct Hserver; congruence.
Qed.

Lemma server_part_start server retired ops p i op :
  ops !! i = None -> server_part server retired ops p -> server_part server retired (<[i := op]> ops) p.
Proof.
  intros Hi (V1 & V2 & V3). split_and!; [|done|].
  - intros j Hj. destruct (V1 j Hj) as [Hop Hr]. split; [|done]. rewrite lookup_insert_ne; [done|]. congruence.
  - intros j [x Hj]%V3. exists x. rewrite lookup_insert_ne; [done|]. congruence.
Qed.

Notation safe := (tsafe (group_allowed clean) (group_inv clean) group_rely group_grows).
Notation world_safe := (tworld_safe (group_allowed clean) (group_inv clean) group_rely group_grows group_answer).

(** The actor's last turn is over when the next may start. *)
Lemma server_idle w g i :
  world_safe w g -> group_may_start w i OpServe -> gh_server g = None.
Proof.
  intros [Hinv Htasks] Hm. destruct (gh_server g) as [j|] eqn:Hs; [|done]. exfalso.
  pose proof Hinv as (_ & _ & _ & _ & _ & _ & (V1 & _)). destruct (V1 j Hs) as [Hop Hret]. simpl in Hop.
  rewrite lookup_fmap in Hop. destruct (tw_tasks w !! j) as [[o t]|] eqn:Hj; [|done]. simpl in Hop. simplify_eq.
  pose proof (Hm eq_refl j t Hj) as ->. pose proof (Htasks _ _ _ Hj) as Ha. by apply Hret.
Qed.

Lemma safe_code i op v :
  tv_ops v !! i = Some op -> (op = OpServe -> exists c, serving i PNone c v) ->
  safe i (group_code fuel op) (group_answer i op) v.
Proof.
  intros Hop Hs. destruct op as [version au request|version au request|au request|au request|au tau request|];
    apply tsafe_bind.
  - apply safe_join_handle. by intros.
  - eapply safe_sync_handle; [done|]. by intros.
  - apply safe_heartbeat. by intros.
  - apply safe_leave. by intros.
  - apply safe_offset_commit. by intros.
  - destruct (Hs eq_refl) as [c Hsv]. eapply safe_serve_one; [done|by intros|by intros].
Qed.

Lemma group_obligations :
  TObligations (group_allowed clean) (group_inv clean) group_rely group_grows (group_code fuel)
    group_may_start group_ticks group_answer.
Proof.
  split.
  - intros i v v' []. done.
  - intros i op a v v'. apply group_answer_grows.
  - intros w i op g Hm Hi Hw. pose proof Hw as [Hinv _].
    pose proof Hinv as (_ & _ & _ & _ & _ & _ & HV).
    assert (tv_ops (tview w g) !! i = None) as Hfresh by (simpl; by rewrite lookup_fmap, Hi).
    assert (server_part (gh_server g) (gh_retired g) (<[i := op]> (tv_ops (tview w g))) (gh_pending g)) as Hsp
      by (by apply server_part_start).
    destruct (match op with OpServe => true | _ => false end) eqn:Hserve.
    + destruct op; try done. pose proof (server_idle w g i Hw Hm) as Hnone.
      exists (gh_with_server (Some i) (gh_retired g) g).
      destruct Hsp as (V1 & V2 & V3). destruct (start_view w i OpServe g (Some i)) as (H1 & H2 & H3); [done..|by left| |].
      { split_and!; [|done|done]. intros j [= <-]. split; [apply lookup_insert_eq|].
        intros Hret. destruct HV as (_ & _ & V3'). apply V3' in Hret as [? ?]. congruence. }
      split_and!; [done..|]. apply safe_code; [apply lookup_insert_eq|]. intros _.
      eexists. split; [done|by apply V2|done].
    + exists g. destruct (start_view w i op g (gh_server g)) as (H1 & H2 & H3); [done..|by right|done|].
      replace (gh_with_server (gh_server g) (gh_retired g) g) with g in * by (by destruct g).
      split_and!; [done..|]. apply safe_code; [apply lookup_insert_eq|]. by intros ->.
  - intros v s' Hinv (now & _ & ->). split; [done|]. split; [by split; simpl; auto with oq|].
    intros j. split; [by split; simpl; auto with oq|by intros _; apply server_frame_same|done].
Qed.

(** What is known of every world reached from an opened log. *)
Lemma group_reachable now l c w :
  opens l c -> rtc gstep (mkTWorld (groups_opened now l c) ∅) w -> exists g, world_safe w g.
Proof.
  intros Ho Hr. eapply treachable_safe; [apply group_rely_refl|apply group_rely_trans|exact group_obligations| |exact Hr].
  split; [|by intros ???]. unfold tview. simpl. rewrite fmap_empty. by apply opened_inv.
Qed.
End world.

(** ** What the answers promise *)

Lemma close_of_elected generation members :
  members_ok members -> members <> [] ->
  let close := close_of generation members in
  rc_leader close ∈ map rm_member_id members /\
  forall m, m ∈ members -> rc_protocol_name close ∈ map fst (rm_protocols m).
Proof.
  intros [_ [->|[p Hp]]] Hne; [done|]. unfold close_of. destruct (elect (as_candidates members)) as [e|] eqn:He.
  - simpl. split; [|by apply common_as_candidates, elect_common].
    apply elect_elected in He as (leader & rest & before & after & Hm & -> & _).
    destruct members as [|m ms]; [done|]. simpl in *. simplify_eq/=. set_solver.
  - destruct members as [|m ms]; [done|]. rewrite elect_None in He. destruct (He p) as [?|Hf]; [done|congruence].
Qed.

(** A round two successful joins of one generation both belong to. *)
Lemma published_unique v group close close' :
  group_inv false v -> published group close v -> published group close' v ->
  rc_generation close = rc_generation close' -> close = close'.
Proof.
  intros (_ & (_ & _ & R3) & _) (id & Hc & Ho) (id' & Hc' & Ho') Hg.
  destruct (R3 _ _ Ho) as (_ & g & Hcell & Hcl), (R3 _ _ Ho') as (_ & g' & Hcell' & Hcl').
  assert (g' = g) as -> by congruence. rewrite Hg in Hcl. congruence.
Qed.

(** C8. Consumers of one generation agree.  However requests interleave, and
    whatever calls to the log fail, two JoinGroup requests for one group that
    both succeed with the same generation were answered from one and the same
    round: same leader, same protocol type and name, and no member in it twice.
    Either its leader is one of its members and every member supports the
    protocol, or the last member had been withdrawn before the round closed; then
    leader and protocol are the empty string. *)
Theorem joins_agree fuel now l c w i j vi vj ai aj (ri rj : JoinGroupRequest) ansi ansj :
  opens l c -> rtc (gstep fuel false) (mkTWorld (groups_opened now l c) ∅) w ->
  tw_tasks w !! i = Some (OpJoin vi ai ri, Ret (AnJoin ansi)) ->
  tw_tasks w !! j = Some (OpJoin vj aj rj, Ret (AnJoin ansj)) ->
  js_error_code ansi = NO_ERROR -> js_error_code ansj = NO_ERROR ->
  jr_group_id ri = jr_group_id rj -> js_generation_id ansi = js_generation_id ansj ->
  exists members mi mj, let close := close_of (js_generation_id ansi) members in
    NoDup (map rm_member_id members) /\
    ansi = join_response_for close mi vi /\ ansj = join_response_for close mj vj /\
    (rc_leader close ∈ map rm_member_id members /\
       (forall m, m ∈ members -> rc_protocol_name close ∈ map fst (rm_protocols m)) \/
     members = [] /\ rc_leader close = EmptyString /\ rc_protocol_name close = EmptyString).
Proof.
  intros Ho Hr Hi Hj Ei Ej Hgroup Hgen. destruct (group_reachable _ _ _ _ _ _ Ho Hr) as (g & Hinv & Htasks).
  destruct (Htasks _ _ _ Hi Ei) as (ci & mi & Hpi & _ & Hai), (Htasks _ _ _ Hj Ej) as (cj & mj & Hpj & _ & Haj).
  rewrite Hgroup in Hpi. assert (rc_generation ci = js_generation_id ansi) as Hci by (by rewrite Hai).
  assert (cj = ci) as ->.
  { eapply published_unique; [done..|]. transitivity (js_generation_id ansj); [by rewrite Haj|congruence]. }
  destruct Hpi as (id & _ & Hout). pose proof Hinv as (_ & (_ & _ & R3) & _).
  destruct (R3 _ _ Hout) as ([Hok Hci'] & _). exists (rc_members ci), mi, mj. rewrite <-Hci.
  split_and!; [apply Hok|by rewrite <-Hci'|by rewrite <-Hci'|].
  destruct (decide (rc_members ci = [])) as [->|Hne]; [by right|]. left. by apply close_of_elected.
Qed.

(** C23. A SyncGroup answer is what was submitted.  A SyncGroup request that
    succeeds is answered with the asking member's slice of an assignment that
    some SyncGroup request submitted for that very group and generation, never
    another generation's, and the group had completed that generation. *)
Theorem sync_answers_submitted fuel now l c w i vi ai (ri : SyncGroupRequest) ans :
  opens l c -> rtc (gstep fuel false) (mkTWorld (groups_opened now l c) ∅) w ->
  tw_tasks w !! i = Some (OpSync vi ai ri, Ret (AnSync ans)) -> ss_error_code ans = NO_ERROR ->
  exists j vj aj rj t, tw_tasks w !! j = Some (OpSync vj aj rj, t) /\
    sr_group_id rj = sr_group_id ri /\ sr_generation_id rj = sr_generation_id ri /\ sr_assignments rj <> [] /\
    ss_assignment ans = default [] (assignment_map rj !! sr_member_id ri) /\
    sr_generation_id ri <= gr_assignment_epoch (record_of (g_coordinator (tw_state w)) (sr_group_id ri)).
Proof.
  intros Ho Hr Hi Hz. destruct (group_reachable _ _ _ _ _ _ Ho Hr) as (g & Hinv & Htasks).
  destruct (Htasks _ _ _ Hi Hz) as (m & [j Hsub] & ->). pose proof Hinv as (_ & _ & _ & _ & [S1 _] & _).
  destruct (S1 _ _ _ _ Hsub) as (He & vj & aj & rj & Hop & Hg & Hgen & Hne & ->). simpl in Hop.
  rewrite lookup_fmap in Hop. destruct (tw_tasks w !! j) as [[o t]|] eqn:Hj; simplify_eq/=.
  exists j, vj, aj, rj, t. by split_and!.
Qed.

Lemma group_increasing_above prev l : group_increasing (Some prev) l -> Forall (fun e => prev < ge_version e) l.
Proof.
  revert prev. induction l as [|e l IH]; intros prev; simpl; [constructor|]. intros [He Hl]. constructor; [done|].
  eapply Forall_impl; [by apply IH|]. simpl. lia.
Qed.

Lemma group_increasing_app prev l1 l2 :
  group_increasing prev (l1 ++ l2) ->
  group_increasing prev l1 /\ group_increasing (match last l1 with Some e => Some (ge_version e) | None => prev end) l2.
Proof.
  revert prev. induction l1 as [|e l1 IH]; intros prev; simpl; [done|]. intros [He Hl].
  destruct (IH _ Hl) as [H1 H2]. split; [done|]. rewrite last_cons. by destruct (last l1).
Qed.

Lemma group_increasing_below prev l e : group_increasing prev (l ++ [e]) -> Forall (fun x => ge_version x < ge_version e) l.
Proof.
  revert prev. induction l as [|x l IH]; intros prev; simpl; [constructor|]. intros [_ Hl]. constructor; [|by eapply IH].
  apply group_increasing_above in Hl. rewrite Forall_app, Forall_singleton in Hl. apply Hl.
Qed.

(** Replaying keeps the newest commit of every partition. *)
Lemma offsets_of_newest l v group topic partition offset :
  group_increasing None l ->
  mkGroupEntry v (OffsetCommitted group topic partition offset) ∈ l ->
  exists v' offset', offsets_of l !! (group, topic, partition) = Some (v', offset') /\ v <= v'.
Proof.
  induction l as [|e l IH] using rev_ind; intros Hinc Hin; [set_solver|].
  pose proof (group_increasing_below _ _ _ Hinc) as Hbelow. rewrite Forall_forall in Hbelow.
  apply group_increasing_app in Hinc as [Hinc _]. rewrite offsets_of_snoc.
  apply elem_of_app in Hin as [Hin|<-%list_elem_of_singleton].
  - destruct (IH Hinc Hin) as (v' & o' & Hk & Hle). destruct (commit_of e) as [[k [v1 o1]]|] eqn:He; [|by exists v', o'].
    destruct (decide (k = (group, topic, partition))) as [->|Hne]; [|exists v', o'; by rewrite lookup_insert_ne].
    exists v1, o1. rewrite lookup_insert_eq. split; [done|]. apply Hbelow in Hin. simpl in Hin.
    unfold commit_of in He. destruct (ge_record e); simplify_eq/=. lia.
  - exists v, offset. simpl. by rewrite lookup_insert_eq.
Qed.

(** On a log in order no commit is stale, so applying one after another gives
    the last of each key. *)
Lemma apply_offset_folds l :
  group_increasing None l -> foldl (fun o e => apply_offset (ge_version e) (ge_record e) o) ∅ l = offsets_of l.
Proof.
  induction l as [|e l IH] using rev_ind; intros Hinc; [done|].
  pose proof (group_increasing_below _ _ _ Hinc) as Hbelow. rewrite Forall_forall in Hbelow.
  apply group_increasing_app in Hinc as [Hinc _]. rewrite foldl_snoc, IH, offsets_of_snoc by done.
  unfold commit_of. destruct e as [v [g t p o|g ev|g r]]; [|done..]. cbn [ge_version ge_record apply_offset].
  destruct (offsets_of l !! (g, t, p)) as [[v' o']|] eqn:Hk; [|done].
  apply offsets_of_in in Hk as ([v1 r1] & Hin & He). apply Hbelow in Hin. simpl in Hin.
  unfold commit_of in He. destruct r1; simplify_eq/=. by rewrite (proj2 (Z.leb_gt _ _)).
Qed.

Lemma acknowledged_commit_held fuel now l c w i ai ti (request : OffsetCommitRequest) topics k t rt n p rp :
  opens l c -> rtc (gstep fuel false) (mkTWorld (groups_opened now l c) ∅) w ->
  tw_tasks w !! i = Some (OpCommit ai ti request, Ret (AnCommit topics)) ->
  oc_topics request !! k = Some t -> topics !! k = Some rt ->
  ot_partitions t !! n = Some p -> oct_partitions rt !! n = Some rp -> ocp_error_code rp = NO_ERROR ->
  let s := tw_state w in
  exists version version' offset',
    mkGroupEntry version (OffsetCommitted (oc_group_id request) (ot_name t) (op_partition_index p)
      (op_committed_offset p)) ∈ g_log s /\
    g_offsets s !! (oc_group_id request, ot_name t, op_partition_index p) = Some (version', offset') /\ version <= version' /\
    mkGroupEntry version' (OffsetCommitted (oc_group_id request) (ot_name t) (op_partition_index p) offset') ∈ g_log s.
Proof.
  intros Ho Hr Hi Ht Hrt Hp Hrp Hz. destruct (group_reachable _ _ _ _ _ _ Ho Hr) as (g & Hinv & Htasks).
  pose proof (Htasks _ _ _ Hi) as Hans. simpl in Hans.
  destruct (Forall2_lookup_lr _ _ _ _ _ _ Hans Ht Hrt) as [_ Hps].
  destruct (Forall2_lookup_lr _ _ _ _ _ _ Hps Hp Hrp) as [_ Hc]. destruct (Hc Hz) as (v & v' & o' & Hin & Hoff & Hle).
  pose proof Hinv as (_ & _ & _ & _ & _ & HO & _). exists v, v', o'. split_and!; try done. by apply HO.
Qed.


(** C11. The log and the live group state stay in step.  As long as every
    append the broker is told failed really left nothing behind, then whenever
    no turn of the actor is running, replaying the whole log poisons no group
    and gives exactly the records and rosters the live coordinator holds. *)
Theorem group_log_lockstep fuel now l c w :
  opens l c -> rtc (gstep fuel true) (mkTWorld (groups_opened now l c) ∅) w ->
  (forall i t, tw_tasks w !! i = Some (OpServe, t) -> t = Ret (AnServed (Ok tt))) ->
  exists c', replay_page (FakeGroupCoordinator_new, ∅) (g_log (tw_state w)) = ((c', ∅), Ok tt) /\
    gc_groups c' = gc_groups (g_coordinator (tw_state w)) /\ gc_rosters c' = gc_rosters (g_coordinator (tw_state w)).
Proof.
  intros Ho Hr Hidle. destruct (group_reachable _ _ _ _ _ _ Ho Hr) as (g & Hw).
  assert (gh_server g = None) as Hnone.
  { eapply server_idle; [done|]. intros _ j t Hj. by eapply (Hidle j). Unshelve. exact 0%nat. }
  destruct Hw as [((_ & _ & Hstep) & _ & _ & _ & _ & _ & (_ & V2 & _)) _]. simpl in *.
  rewrite (V2 Hnone) in Hstep. destruct (Hstep eq_refl) as (c' & Hrep & Hsame). by exists c'.
Qed.

(** ** A run: two consumers join, sync and commit *)

Section schedule.
Context (fuel : nat) (clean : bool).

Definition serve_done (task : GroupOp * GTask GroupAnswer) : bool :=
  match task with
  | (OpServe, Ret (AnServed (Ok tt))) => true
  | (OpServe, _) => false
  | _ => true
  end.
Definition serve_idle (w : TWorld Groups GroupAnswer GroupOp) : bool :=
  forallb serve_done (map_to_list (tw_tasks w)).*2.

Definition group_move_ok (w : TWorld Groups GroupAnswer GroupOp) (m : Move) : bool :=
  match m with
  | MRun _ ch => negb (ch_landed ch) || negb clean
  | MStart _ OpServe => serve_idle w
  | MStart _ _ => true
  end.

Fixpoint group_moves_ok (w : TWorld Groups GroupAnswer GroupOp) (ms : list Move) : bool :=
  match ms with
  | [] => true
  | m :: ms => group_move_ok w m && group_moves_ok (tw_move (group_code fuel) w m) ms
  end.

Lemma serve_idle_done w :
  serve_idle w = true -> forall i t, tw_tasks w !! i = Some (OpServe, t) -> t = Ret (AnServed (Ok tt)).
Proof.
  unfold serve_idle. rewrite forallb_forall. intros H i t Hi.
  assert (serve_done (OpServe, t) = true) as Hd.
  { apply H, list_elem_of_In, list_elem_of_fmap. exists (i, (OpServe, t)). split; [done|]. by apply elem_of_map_to_list. }
  simpl in Hd. destruct t as [[| | | | |[[]|e|]]|X f k]; done.
Qed.

Lemma group_moves_reachable ms w :
  group_moves_ok w ms = true -> rtc (gstep fuel clean) w (foldl (tw_move (group_code fuel)) w ms).
Proof.
  intros Hok. apply tw_moves_reachable. revert w Hok. induction ms as [|m ms IH]; intros w; simpl; [done|].
  intros [Hm Hms]%andb_true_iff. split; [|by apply IH]. destruct m as [i ch|i op]; simpl in *.
  - intros ->. by destruct (ch_landed ch).
  - intros ->. by apply serve_idle_done.
Qed.
End schedule.

Definition demo_steps (i n : nat) (timer : bool) : list (Move (O := GroupOp)) :=
  replicate n (MRun i (mkChoice None false timer)).
Definition demo_serve (i : nat) : list (Move (O := GroupOp)) := MStart i OpServe :: demo_steps i 10 false.

Definition demo_join_request : JoinGroupRequest :=
  mkJoinGroupRequest "g" 0 0 EmptyString None "consumer" [mkJoinGroupRequestProtocol "range" []] None.
Definition demo_sync_request (member : string) (assignments : list SyncGroupRequestAssignment) : SyncGroupRequest :=
  mkSyncGroupRequest "g" 1 member None None assignments.
Definition demo_commit_request : OffsetCommitRequest :=
  mkOffsetCommitRequest "g" 1 "member-0" [mkOffsetCommitRequestTopic "t" [mkOffsetCommitRequestPartition 0 42]].

Definition demo_moves : list (Move (O := GroupOp)) :=
  [MStart 0 (OpJoin 5 (fun _ => true) demo_join_request)] ++ demo_steps 0 6 false ++ demo_serve 10 ++ demo_steps 0 12 false ++
  [MStart 1 (OpJoin 5 (fun _ => true) demo_join_request)] ++ demo_steps 1 10 false ++
  demo_steps 0 20 true ++ demo_serve 11 ++ demo_steps 0 20 true ++ demo_serve 12 ++ demo_steps 0 20 true ++
  demo_steps 1 20 false ++
  [MStart 2 (OpSync 3 (fun _ => true) (demo_sync_request "member-1" []))] ++ demo_steps 2 5 false ++
  [MStart 3 (OpSync 3 (fun _ => true) (demo_sync_request "member-0" [mkSyncGroupRequestAssignment "member-1" [7]]))] ++
  demo_steps 3 5 false ++ demo_serve 13 ++ demo_steps 3 10 false ++ demo_steps 2 10 false ++
  [MStart 4 (OpCommit (fun _ => true) (fun _ => true) demo_commit_request)] ++ demo_steps 4 10 false.

Definition demo_world : TWorld Groups GroupAnswer GroupOp :=
  foldl (tw_move (group_code 20)) (mkTWorld (groups_opened 0 [] FakeGroupCoordinator_new) ∅) demo_moves.

Lemma demo_opens : opens [] FakeGroupCoordinator_new.
Proof. by split. Qed.

Lemma demo_world_reachable clean :
  rtc (gstep 20 clean) (mkTWorld (groups_opened 0 [] FakeGroupCoordinator_new) ∅) demo_world.
Proof. apply group_moves_reachable. vm_compute. reflexivity. Qed.

Definition demo_join_answer (member : string) (members : list JoinGroupResponseMember) : JoinGroupResponse :=
  mkJoinGroupResponse 0 1 None (Some "range") "member-0" false member members.
Definition demo_members : list JoinGroupResponseMember :=
  [mkJoinGroupResponseMember "member-0" None []; mkJoinGroupResponseMember "member-1" None []].

Lemma joins_agree_witness :
  exists members mi mj, let close := close_of 1 members in
    NoDup (map rm_member_id members) /\
    demo_join_answer "member-0" demo_members = join_response_for close mi 5 /\
    demo_join_answer "member-1" [] = join_response_for close mj 5 /\
    (rc_leader close ∈ map rm_member_id members /\
       (forall m, m ∈ members -> rc_protocol_name close ∈ map fst (rm_protocols m)) \/
     members = [] /\ rc_leader close = EmptyString /\ rc_protocol_name close = EmptyString).
Proof.
  apply (joins_agree 20 0 [] FakeGroupCoordinator_new demo_world 0 1 5 5 (fun _ => true) (fun _ => true)
    demo_join_request demo_join_request (demo_join_answer "member-0" demo_members) (demo_join_answer "member-1" []));
    [exact demo_opens|exact (demo_world_reachable _)|vm_compute; reflexivity..].
Defined.

Lemma sync_answers_submitted_witness :
  exists j vj aj rj t, tw_tasks demo_world !! j = Some (OpSync vj aj rj, t) /\
    sr_group_id rj = "g" /\ sr_generation_id rj = 1 /\ sr_assignments rj <> [] /\
    [7] = default [] (assignment_map rj !! "member-1") /\
    1 <= gr_assignment_epoch (record_of (g_coordinator (tw_state demo_world)) "g").
Proof.
  apply (sync_answers_submitted 20 0 [] FakeGroupCoordinator_new demo_world 2 3 (fun _ => true)
    (demo_sync_request "member-1" []) (mkSyncGroupResponse 0 None None [7]));
    [exact demo_opens|exact (demo_world_reachable _)|vm_compute; reflexivity..].
Defined.


Lemma group_log_lockstep_witness :
  exists c', replay_page (FakeGroupCoordinator_new, ∅) (g_log (tw_state demo_world)) = ((c', ∅), Ok tt) /\
    gc_groups c' = gc_groups (g_coordinator (tw_state demo_world)) /\
    gc_rosters c' = gc_rosters (g_coordinator (tw_state demo_world)).
Proof.
  apply (group_log_lockstep 20 0 [] FakeGroupCoordinator_new demo_world);
    [exact demo_opens|exact (demo_world_reachable _)|apply serve_idle_done; vm_compute; reflexivity].
Defined.

(** * Rebuilding group state from the log *)

(** ** Pages *)

(** Versions a log can hold, with one to spare for the next page. *)
Definition versions_ok (l : list GroupMetadataEntry) : Prop := Forall (fun e => 0 <= ge_version e < u64_max) l.


(** Where a read starts. *)
Definition starts (l1 l2 : list GroupMetadataEntry) (start : CommitVersion) : Prop :=
  Forall (fun e => ge_version e < start) l1 /\ Forall (fun e => start <= ge_version e) l2.

Lemma filter_none (f : GroupMetadataEntry -> bool) l : Forall (fun e => f e = false) l -> List.filter f l = [].
Proof. induction 1 as [|e l He _ IH]; simpl; [done|]. by rewrite He. Qed.
Lemma filter_whole (f : GroupMetadataEntry -> bool) l : Forall (fun e => f e = true) l -> List.filter f l = l.
Proof. induction 1 as [|e l He _ IH]; simpl; [done|]. by rewrite He, IH. Qed.

Lemma read_from_suffix l1 l2 start n : starts l1 l2 start -> group_read_from (l1 ++ l2) start n = take n l2.
Proof.
  intros [H1 H2]. unfold group_read_from. rewrite List.filter_app, filter_none, filter_whole; [done|..].
  - eapply Forall_impl; [exact H2|]. simpl. intros e He. by apply Z.leb_le.
  - eapply Forall_impl; [exact H1|]. simpl. intros e He. by apply Z.leb_gt.
Qed.

(** The next page starts where this one ends. *)
Lemma starts_next l1 l2 n e :
  group_increasing None (l1 ++ l2) -> last (take n l2) = Some e ->
  starts (l1 ++ take n l2) (drop n l2) (ge_version e + 1).
Proof.
  intros Hinc He. rewrite <-(take_drop n l2), (app_assoc l1) in Hinc.
  assert (last (l1 ++ take n l2) = Some e) as Hlast by (by rewrite last_app, He).
  pose proof (group_increasing_app _ _ _ Hinc) as [Hinc1 Hinc2]. rewrite Hlast in Hinc2. split.
  - apply last_Some in Hlast as [l Hl]. rewrite Hl in *. apply Forall_app. split; [|by constructor; [lia|constructor]].
    eapply Forall_impl; [by eapply group_increasing_below|]. simpl. lia.
  - eapply Forall_impl; [by apply group_increasing_above|]. simpl. lia.
Qed.

Section paging.
Context (log : list GroupMetadataEntry).
Hypothesis increasing : group_increasing None log.
Hypothesis versions : versions_ok log.

(** A full page goes on, a short one ends the log. *)
Lemma page_step l1 l2 start :
  log = l1 ++ l2 -> starts l1 l2 start ->
  let page := group_read_from log start REPLAY_PAGE_SIZE in
  page = take REPLAY_PAGE_SIZE l2 /\
  ((last page = None \/ (length page <? REPLAY_PAGE_SIZE)%nat = true) /\ page = l2 \/
   exists e, last page = Some e /\ (length page <? REPLAY_PAGE_SIZE)%nat = false /\
     CommitVersion_advance (ge_version e) 1 = Ok (ge_version e + 1) /\
     log = (l1 ++ page) ++ drop REPLAY_PAGE_SIZE l2 /\
     starts (l1 ++ page) (drop REPLAY_PAGE_SIZE l2) (ge_version e + 1)).
Proof.
  intros Hlog Hst page. assert (page = take REPLAY_PAGE_SIZE l2) as Hpage
    by (unfold page; rewrite Hlog; by apply read_from_suffix).
  split; [done|]. rewrite Hpage. destruct (last (take REPLAY_PAGE_SIZE l2)) as [e|] eqn:He.
  - destruct (length _ <? REPLAY_PAGE_SIZE)%nat eqn:Hlen.
    + left. split; [by right|]. apply Nat.ltb_lt in Hlen. rewrite length_take in Hlen. apply take_ge. lia.
    + right. exists e. split_and!; [done..| | |].
      * apply CommitVersion_advance_Ok. split; [|done].
        assert (e ∈ log) as Hin. { rewrite Hlog. apply last_Some in He as [l Hl]. rewrite <-(take_drop REPLAY_PAGE_SIZE l2), Hl. set_solver. }
        unfold versions_ok in versions. rewrite Forall_forall in versions. apply versions in Hin. lia.
      * by rewrite <-app_assoc, take_drop.
      * apply starts_next; [by rewrite <-Hlog|done].
  - left. split; [by left|]. apply last_None in He. rewrite He. destruct l2; [done|]. simpl in He. done.
Qed.

(** Enough reads for the rest of the log: full pages, and a short one. *)
Definition enough (fuel : nat) (l2 : list GroupMetadataEntry) : Prop := (length l2 < fuel * REPLAY_PAGE_SIZE)%nat.

Lemma enough_next fuel l2 :
  enough (S fuel) l2 -> (length (take REPLAY_PAGE_SIZE l2) <? REPLAY_PAGE_SIZE)%nat = false ->
  enough fuel (drop REPLAY_PAGE_SIZE l2).
Proof. unfold enough. intros He Hl. apply Nat.ltb_ge in Hl. rewrite length_take in Hl. rewrite length_drop. lia. Qed.

Lemma replay_loop_whole fuel reads l1 l2 start st :
  (forall n, reads n = None) -> log = l1 ++ l2 -> starts l1 l2 start -> enough fuel l2 ->
  replay_loop fuel reads log start st = ((replay_page st l2).1.1, (replay_page st l2).2).
Proof.
  intros Hreads. revert l1 l2 start st. induction fuel as [|fuel IH]; intros l1 l2 start st Hlog Hst Hen.
  { unfold enough in Hen. lia. }
  cbn [replay_loop]. rewrite Hreads. destruct (page_step l1 l2 start Hlog Hst) as [Hpage Hcases].
  destruct Hcases as [[Hend Hl2]|(e & Hlast & Hlen & Hadv & Hlog' & Hst')].
  - rewrite Hl2 in *. destruct (replay_page st l2) as [st' [[]|err|]]; [|done|done].
    destruct (last l2) as [e|]; [|done]. destruct Hend as [Hend| ->]; done.
  - rewrite Hlast, Hlen, Hadv. rewrite Hpage in Hlen.
    assert (replay_page st l2 = match replay_page st (take REPLAY_PAGE_SIZE l2) with
      (st', Ok _) => replay_page st' (drop REPLAY_PAGE_SIZE l2) | failed => failed end) as ->.
    { rewrite <-replay_page_app, take_drop. done. }
    rewrite Hpage. destruct (replay_page st (take REPLAY_PAGE_SIZE l2)) as [st' [[]|err|]]; [|done|done].
    rewrite Hpage in Hlog', Hst'. eapply IH; [done..|]. by apply enough_next.
Qed.

Lemma offsets_loop_whole fuel reads l1 l2 start o :
  (forall n, reads n = None) -> log = l1 ++ l2 -> starts l1 l2 start -> enough fuel l2 ->
  offsets_loop fuel reads log start o = Ok (foldl (fun o e => apply_offset (ge_version e) (ge_record e) o) o l2).
Proof.
  intros Hreads. revert l1 l2 start o. induction fuel as [|fuel IH]; intros l1 l2 start o Hlog Hst Hen.
  { unfold enough in Hen. lia. }
  cbn [offsets_loop]. rewrite Hreads. destruct (page_step l1 l2 start Hlog Hst) as [Hpage Hcases].
  destruct Hcases as [[Hend Hl2]|(e & Hlast & Hlen & Hadv & Hlog' & Hst')].
  - rewrite Hl2 in *. destruct (last l2) as [e|]; [|done]. destruct Hend as [Hend| ->]; done.
  - rewrite Hlast, Hlen, Hadv. cbn [res_bind]. rewrite Hpage in *.
    erewrite IH; [|done..|by apply enough_next]. f_equal. rewrite <-foldl_app, take_drop. done.
Qed.
End paging.

(** ** The whole replay *)

Lemma starts_zero l : versions_ok l -> starts [] l CommitVersion_ZERO.
Proof. intros Hv. split; [constructor|]. eapply Forall_impl; [exact Hv|]. unfold CommitVersion_ZERO. simpl. lia. Qed.

Lemma replay_transitions_whole fuel reads l c :
  group_increasing None l -> versions_ok l -> enough fuel l -> (forall n, reads n = None) ->
  replay_transitions fuel reads l c = ((replay_page (c, ∅) l).1.1, (replay_page (c, ∅) l).2).
Proof. intros Hi Hv He Hr. by apply (replay_loop_whole l Hi Hv fuel reads [] l); [| |apply starts_zero|]. Qed.

Lemma replay_offsets_whole fuel reads l o :
  group_increasing None l -> versions_ok l -> enough fuel l -> (forall n, reads n = None) ->
  replay_offsets fuel reads l o = (offsets_of l, Ok tt).
Proof.
  intros Hi Hv He Hr. unfold replay_offsets.
  rewrite (offsets_loop_whole l Hi Hv fuel reads [] l); [|done|done|by apply starts_zero|done].
  by rewrite apply_offset_folds.
Qed.

(** Reads that fail when the log is opened, and not after. *)
Definition reads_at_open (fuel : nat) (faults : nat -> bool -> option Error) (k : nat) (b : bool) (n : nat) : option Error :=
  if (n =? fuel - 1)%nat then faults k b else None.

Section open_failures.
Context (fuel : nat) (faults : nat -> bool -> option Error) (l : list GroupMetadataEntry) (c : FakeGroupCoordinator).
Hypothesis opened : opens l c.
Hypothesis versions : versions_ok l.
Hypothesis fueled : enough fuel l.
Hypothesis retried : forall k b e, faults k b = Some e -> never e = false.

Lemma transitions_round k :
  replay_transitions fuel (reads_at_open fuel faults k true) l FakeGroupCoordinator_new =
    match faults k true with Some e => (FakeGroupCoordinator_new, Err e) | None => (c, Ok tt) end.
Proof.
  destruct (faults k true) as [e|] eqn:Hf.
  - unfold replay_transitions. destruct fuel as [|f] eqn:Hfuel; [unfold enough in fueled; lia|]. cbn [replay_loop].
    unfold reads_at_open. by rewrite Nat.sub_1_r, Nat.eqb_refl, Hf.
  - rewrite replay_transitions_whole; [by rewrite (op_replay _ _ opened)|apply opened|done..|].
    intros n. unfold reads_at_open. by destruct (_ =? _)%nat.
Qed.

Lemma offsets_round k o :
  replay_offsets fuel (reads_at_open fuel faults k false) l o =
    match faults k false with Some e => (o, Err e) | None => (offsets_of l, Ok tt) end.
Proof.
  destruct (faults k false) as [e|] eqn:Hf.
  - unfold replay_offsets. destruct fuel as [|f] eqn:Hfuel; [unfold enough in fueled; lia|]. cbn [offsets_loop].
    unfold reads_at_open. by rewrite Nat.sub_1_r, Nat.eqb_refl, Hf.
  - apply replay_offsets_whole; [apply opened|done..|]. intros n. unfold reads_at_open. by destruct (_ =? _)%nat.
Qed.

(** What a half that is done, or not yet, has left. *)
Definition half_left {A} (done : bool) (held new whole : A) : Prop := held = if done then whole else new.
Definition half_clears (done : bool) (rounds : nat) (b : bool) : Prop :=
  done = true \/ exists k, (k < rounds)%nat /\ faults k b = None.

Lemma half_clears_next done rounds b :
  half_clears done (S rounds) b -> faults rounds b <> None \/ done = true -> half_clears done rounds b.
Proof.
  intros [->|(k & Hk & Hf)] Hn; [by left|]. destruct Hn as [Hn| ->]; [|by left]. right. exists k. split; [|done].
  destruct (decide (k = rounds)) as [->|Hne]; [done|lia].
Qed.

Lemma replay_rounds rounds od td o c0 :
  (od = true -> o = offsets_of l) -> half_left td c0 FakeGroupCoordinator_new c ->
  half_clears od rounds false -> half_clears td rounds true -> od && td = false ->
  replay_groups rounds fuel (reads_at_open fuel faults) l od td o c0 = (offsets_of l, c, true).
Proof.
  revert od td o c0. induction rounds as [|rounds IH]; intros od td o c0 Ho Hc0 Hco Hct Hboth.
  { destruct Hco as [->|(k & Hk & _)]; [|lia]. destruct Hct as [->|(k & Hk & _)]; [done|lia]. }
  cbn [replay_groups].
  set (p1 := if od then (o, Ok tt) else replay_offsets _ _ l o).
  assert (exists r1, p1 = (if is_ok r1 then offsets_of l else o, r1) /\ permanent r1 = false /\
    (od = true -> is_ok r1 = true) /\ (is_ok r1 = false -> faults rounds false <> None)) as (r1 & -> & Hp1 & Hod & Hf1).
  { unfold p1. destruct od; [exists (Ok tt); simpl; by rewrite Ho|]. rewrite offsets_round.
    destruct (faults rounds false) as [e|] eqn:Hf; [exists (Err e)|exists (Ok tt)]; [|done].
    split_and!; [done| |done|done]. simpl. by eapply retried. }
  cbv zeta. rewrite Hp1.
  set (p2 := if td then (c0, Ok tt) else replay_transitions _ _ l c0).
  assert (exists r2, p2 = (if is_ok r2 then c else FakeGroupCoordinator_new, r2) /\ permanent r2 = false /\
    (td = true -> is_ok r2 = true) /\ (is_ok r2 = false -> faults rounds true <> None)) as (r2 & -> & Hp2 & Htd & Hf2).
  { unfold p2, half_left in *. destruct td; [exists (Ok tt); simpl; by rewrite Hc0|]. rewrite Hc0, transitions_round.
    destruct (faults rounds true) as [e|] eqn:Hf; [exists (Err e)|exists (Ok tt)]; [|done].
    split_and!; [done| |done|done]. simpl. by eapply retried. }
  rewrite Hp2. destruct (is_ok r1 && is_ok r2) eqn:Hok.
  - apply andb_true_iff in Hok as [-> ->]. done.
  - apply IH; [by intros ->|done|..|done].
    + destruct (is_ok r1) eqn:E; [by left|]. destruct od; [by specialize (Hod eq_refl)|]. apply half_clears_next; [done|]. left. auto.
    + destruct (is_ok r2) eqn:E; [by left|]. destruct td; [by specialize (Htd eq_refl)|]. apply half_clears_next; [done|]. left. auto.
Qed.
End open_failures.


Definition demo_faults (k : nat) (b : bool) : option Error :=
  if (k =? 2)%nat then Some Transient else if (k =? 1)%nat then (if b then Some Throttled else None) else None.


(** ** What the replay does not promise *)

(** A group whose replay meets an event its state does not accept keeps the
    record it had got to: it is not as if it had never been seen. *)
Theorem poisoned_group_keeps_record (g : GroupId) v1 v2 :
  let '((c, poisoned), r) := replay_page (FakeGroupCoordinator_new, ∅)
    [mkGroupEntry v1 (GroupTransitioned g EvJoin); mkGroupEntry v2 (GroupTransitioned g EvJoin)] in
  r = Ok tt /\ g ∈ poisoned /\ gc_record c g = Some (mkGroupRecord PreparingRebalance 0 (-1)).
Proof.
  cbn [replay_page replay_entry ge_record]. rewrite decide_False by set_solver. unfold gc_transition at 1.
  cbn [gc_groups FakeGroupCoordinator_new]. rewrite lookup_empty. cbn. rewrite decide_False by set_solver.
  unfold gc_transition. cbn [gc_groups]. rewrite lookup_insert_eq. cbn. split_and!; [done|set_solver|].
  unfold gc_record. simpl. by rewrite lookup_insert_eq.
Qed.

(** A run in which the append of a group's first [Join] lands although the
    broker is told that it failed, and the group then forms all the same. *)
Definition landed : Choice := mkChoice (Some Transient) true false.
Definition landed_moves : list (Move (O := GroupOp)) :=
  [MStart 0 (OpJoin 5 (fun _ => true) demo_join_request)] ++ demo_steps 0 6 false ++
  [MStart 10 OpServe] ++ demo_steps 10 3 false ++ [MRun 10 landed] ++ demo_steps 10 5 false ++ demo_steps 0 10 false ++
  [MStart 1 (OpJoin 5 (fun _ => true) demo_join_request)] ++ demo_steps 1 6 false ++ demo_serve 11 ++
  demo_steps 1 20 true ++ demo_serve 12 ++ demo_steps 1 20 true ++ demo_serve 13 ++ demo_steps 1 20 true.
Definition landed_world : TWorld Groups GroupAnswer GroupOp :=
  foldl (tw_move (group_code 20)) (mkTWorld (groups_opened 0 [] FakeGroupCoordinator_new) ∅) landed_moves.

(** Journaling before applying does not by itself keep the log and the live
    state in step: an append that fails after it landed leaves an event in the
    log that was never applied, and once the group moves on, replaying the log
    stops short of the generation the live group is at. *)
Theorem landed_append_breaks_lockstep :
  exists w c poisoned,
    rtc (gstep 20 false) (mkTWorld (groups_opened 0 [] FakeGroupCoordinator_new) ∅) w /\
    (forall i t, tw_tasks w !! i = Some (OpServe, t) -> t = Ret (AnServed (Ok tt))) /\
    gc_record (g_coordinator (tw_state w)) "g" = Some (mkGroupRecord CompletingRebalance 1 (-1)) /\
    replay_page (FakeGroupCoordinator_new, ∅) (g_log (tw_state w)) = ((c, poisoned), Ok tt) /\
    gc_record c "g" = Some (mkGroupRecord PreparingRebalance 0 (-1)).
Proof.
  exists landed_world, (replay_page (FakeGroupCoordinator_new, ∅) (g_log (tw_state landed_world))).1.1,
    (replay_page (FakeGroupCoordinator_new, ∅) (g_log (tw_state landed_world))).1.2.
  split_and!; [apply group_moves_reachable|apply serve_idle_done|..]; vm_compute; reflexivity.
Qed.

(** ** A round whose last member is withdrawn

    Two joins under one member id wait for a round that another member does not
    come to.  One closes it at the deadline and waits for the log; the other gives
    up and withdraws the member they share; the round closes with nobody in it,
    and the first is told it succeeded, with no leader and no protocol. *)

Definition demo_rejoin_request : JoinGroupRequest :=
  mkJoinGroupRequest "g" 0 0 "member-0" None "consumer" [mkJoinGroupRequestProtocol "range" []] None.

Definition demo_withdrawn_moves : list (Move (O := GroupOp)) :=
  [MStart 0 (OpJoin 5 (fun _ => true) demo_join_request)] ++ demo_steps 0 6 false ++ demo_serve 10 ++ demo_steps 0 12 false ++
  [MStart 1 (OpJoin 5 (fun _ => true) demo_join_request)] ++ demo_steps 1 10 false ++
  demo_steps 0 20 true ++ demo_serve 11 ++ demo_steps 0 20 true ++ demo_serve 12 ++ demo_steps 0 20 true ++ demo_steps 1 20 false ++
  [MStart 5 (OpJoin 5 (fun _ => true) demo_rejoin_request)] ++ demo_steps 5 6 false ++ demo_serve 13 ++ demo_steps 5 10 false ++
  [MStart 6 (OpJoin 5 (fun _ => true) demo_rejoin_request)] ++ demo_steps 6 6 false ++ demo_steps 6 10 true ++ demo_steps 5 30 true ++
  demo_serve 14 ++ demo_steps 6 10 false ++ demo_serve 15 ++ demo_steps 6 10 false.

Definition demo_withdrawn : TWorld Groups GroupAnswer GroupOp :=
  foldl (tw_move (group_code 20)) (mkTWorld (groups_opened 0 [] FakeGroupCoordinator_new) ∅) demo_withdrawn_moves.

Lemma empty_round_is_answered :
  rtc (gstep 20 true) (mkTWorld (groups_opened 0 [] FakeGroupCoordinator_new) ∅) demo_withdrawn /\
  tw_tasks demo_withdrawn !! 6%nat = Some (OpJoin 5 (fun _ => true) demo_rejoin_request,
    Ret (AnJoin (mkJoinGroupResponse NO_ERROR 2 None (Some EmptyString) EmptyString false "member-0" []))).
Proof. split; [apply group_moves_reachable|]; vm_compute; reflexivity. Qed.
