(* ===== verification/GroupQueries.v ===== *)
(** * GroupQueries: the requests that read group state

    Models [oqueue-broker/src/offset_fetch.rs] with [CommittedOffsets]'s
    [topics_for_group] of [offset_commit.rs], [group_admin.rs] (DescribeGroups and
    ListGroups) and [find_coordinator.rs].  None of them waits, so each is a
    function of the state it finds.  The theorems put them beside the requests of
    GroupHandlers.v that change that state. *)

From stdpp Require Import base tactics list numbers strings gmap sorting.
From Stdlib Require Import ZArith Lia.
From S2P Require Import Prelude Bytes Types ErrorCodes Wire Api Msg MsgData MsgGroup Allocator Group Authz Fetch.
From S2P Require Import Tasks GroupRounds GroupHandlers GroupInv GroupTasksSafe GroupWorld.

Open Scope Z_scope.

(** ** OffsetFetch *)

(** Strings are ordered by their bytes, as [str::cmp] orders them. *)
Definition push_committed (group : GroupId) (by_topic : gmap TopicId (list (Z * Z)))
    (entry : OffsetKey * (CommitVersion * Z)) : gmap TopicId (list (Z * Z)) :=
  let '((g, topic, partition), (_, offset)) := entry in
  if decide (g = group) then <[topic := default [] (by_topic !! topic) ++ [(partition, offset)]]> by_topic else by_topic.

Definition topics_for_group (g : Groups) (group : GroupId) : list (TopicId * list (Z * Z)) :=
  let by_topic := foldl (push_committed group) ∅ (map_to_list (g_offsets g)) in
  let result := merge_sort (fun x y => String.le x.1 y.1) (map_to_list by_topic) in
  map (fun '(topic, partitions) => (topic, sort_by_key fst partitions)) result.

Definition refused_fetch_topic (topic : OffsetFetchRequestTopic) (error_code : Z) : OffsetFetchResponseTopic :=
  mkOffsetFetchResponseTopic (oft_name topic)
    (map (fun partition_index => mkOffsetFetchResponsePartition partition_index UNASSIGNED_OFFSET error_code)
       (oft_partition_indexes topic)).

Definition explicit_topic (g : Groups) (group : GroupId) (authz : AuthzContext TopicGrants) (topic : OffsetFetchRequestTopic)
    : OffsetFetchResponseTopic :=
  if negb (topic_authorized (oft_name topic) authz) then refused_fetch_topic topic TOPIC_AUTHORIZATION_FAILED else
  match TopicId_new (oft_name topic) with
  | Ok topic_id =>
      mkOffsetFetchResponseTopic (oft_name topic)
        (map (fun partition_index =>
           mkOffsetFetchResponsePartition partition_index
             (default UNASSIGNED_OFFSET (committed_get group topic_id partition_index g)) NO_ERROR)
          (oft_partition_indexes topic))
  | _ => refused_fetch_topic topic UNKNOWN_TOPIC_OR_PARTITION
  end.

Definition all_topics (committed : list (TopicId * list (Z * Z))) (authz : AuthzContext TopicGrants)
    : list OffsetFetchResponseTopic :=
  map (fun '(topic, partitions) =>
         mkOffsetFetchResponseTopic topic
           (map (fun '(partition_index, committed_offset) =>
              mkOffsetFetchResponsePartition partition_index committed_offset NO_ERROR) partitions))
    (List.filter (fun '(topic, _) => topic_authorized topic authz) committed).

(** What [handle] answers a request it could decode. *)
Definition offset_fetch_answer (g : Groups) (authz : AuthzContext TopicGrants) (group_authz : AuthzContext GroupGrants)
    (request : OffsetFetchRequest) : OffsetFetchResponse :=
  match GroupId_new (ofr_group_id request) with
  | Ok group =>
      if negb (group_authorized group group_authz) then mkOffsetFetchResponse GROUP_AUTHORIZATION_FAILED [] else
      if g_loading g then mkOffsetFetchResponse (Refusal_error_code CoordinatorLoadInProgress) [] else
      let committed := topics_for_group g group in
      let topics := match ofr_topics request with
                    | None => all_topics committed authz
                    | Some explicit => map (explicit_topic g group authz) explicit
                    end in
      mkOffsetFetchResponse NO_ERROR topics
  | _ => mkOffsetFetchResponse INVALID_REQUEST []
  end.

Definition offset_fetch_handle (g : Groups) (prelude : RequestPrelude) (body : bytes)
    (authz : AuthzContext TopicGrants) (group_authz : AuthzContext GroupGrants) : Result unit HandlerResponse :=
  let version := rp_api_version prelude in
  match decode_body (offset_fetch_decode_request version) body with
  | Panic => Panic
  | Err _ => Ok Close
  | Ok request =>
      Ok (Reply (offset_fetch_encode_response version (offset_fetch_answer g authz group_authz request)
            (encode_response_header [] OffsetFetch version (rp_correlation_id prelude))))
  end.

(** ** DescribeGroups and ListGroups *)

Definition group_state_name (state : GroupState) : string :=
  match state with
  | GroupEmpty => "Empty"
  | PreparingRebalance => "PreparingRebalance"
  | CompletingRebalance => "CompletingRebalance"
  | GroupStable => "Stable"
  | GroupDead => "Dead"
  end.

Definition empty_description (name : string) (error_code : Z) : DescribeGroup :=
  mkDescribeGroup error_code name EmptyString EmptyString EmptyString [] AUTHORIZED_OPERATIONS_OMITTED.

Definition describe_record (c : FakeGroupCoordinator) (name : string) (group : GroupId) (record : GroupRecord) : DescribeGroup :=
  let '(protocol_type, protocol_data, member_ids) :=
    if decide (gr_state record = GroupStable) then
      match gc_roster c group with
      | Some roster => (gr_protocol_type roster, gr_protocol_name roster, gr_member_ids roster)
      | None => (EmptyString, EmptyString, [])
      end
    else (EmptyString, EmptyString, []) in
  mkDescribeGroup NO_ERROR name (group_state_name (gr_state record)) protocol_type protocol_data
    (map (fun member_id => mkDescribeGroupMember member_id None EmptyString EmptyString [] []) member_ids)
    AUTHORIZED_OPERATIONS_OMITTED.

Definition describe_one (c : FakeGroupCoordinator) (authz : AuthzContext GroupGrants) (name : string) : DescribeGroup :=
  match GroupId_new name with
  | Ok group =>
      if negb (group_authorized group authz) then empty_description name GROUP_AUTHORIZATION_FAILED else
      match gc_record c group with
      | None => empty_description name GROUP_ID_NOT_FOUND
      | Some record => describe_record c name group record
      end
  | _ => empty_description name INVALID_REQUEST
  end.

Definition describe_groups_handle (c : FakeGroupCoordinator) (prelude : RequestPrelude) (body : bytes)
    (authz : AuthzContext GroupGrants) : Result unit HandlerResponse :=
  let version := rp_api_version prelude in
  match decode_body (describe_groups_decode_request version) body with
  | Panic => Panic
  | Err _ => Ok Close
  | Ok request =>
      let groups := map (describe_one c authz) (dg_groups request) in
      Ok (Reply (describe_groups_encode_response version (mkDescribeGroupsResponse 0 groups)
            (encode_response_header [] DescribeGroups version (rp_correlation_id prelude))))
  end.

Definition gc_records (c : FakeGroupCoordinator) : list (GroupId * GroupRecord) := map_to_list (gc_groups c).

(** The states a request asks for; an empty list asks for all. *)
Definition state_wanted (filter : option (list string)) (state : GroupState) : bool :=
  match filter with
  | None => true
  | Some states => bool_decide (states = []) || existsb (fun s => bool_decide (s = group_state_name state)) states
  end.

Definition listed_group (c : FakeGroupCoordinator) (entry : GroupId * GroupRecord) : ListedGroup :=
  let '(group, record) := entry in
  mkListedGroup group
    (if decide (gr_state record = GroupStable) then
       match gc_roster c group with Some roster => gr_protocol_type roster | None => EmptyString end
     else EmptyString)
    (group_state_name (gr_state record)).

Definition listed_groups (c : FakeGroupCoordinator) (authz : AuthzContext GroupGrants) (filter : option (list string))
    : list ListedGroup :=
  merge_sort (fun left right => String.le (lgd_group_id left) (lgd_group_id right))
    (map (listed_group c)
      (List.filter (fun '(group, record) => group_authorized group authz && state_wanted filter (gr_state record))
        (gc_records c))).

Definition list_groups_handle (c : FakeGroupCoordinator) (prelude : RequestPrelude) (body : bytes)
    (authz : AuthzContext GroupGrants) : Result unit HandlerResponse :=
  let version := rp_api_version prelude in
  match decode_body (list_groups_decode_request version) body with
  | Panic => Panic
  | Err _ => Ok Close
  | Ok request =>
      Ok (Reply (list_groups_encode_response version
            (mkListGroupsResponse 0 NO_ERROR (listed_groups c authz (lgq_states_filter request)))
            (encode_response_header [] ListGroups version (rp_correlation_id prelude))))
  end.

(** ** FindCoordinator *)

Definition GROUP : Z := 0.

(** Where this node can be reached. *)
Record NodeAddr : Type := mkNodeAddr { na_node_id : Z; na_host : string; na_port : Z }.

Definition fc_resolved (cluster : NodeAddr) (key : string) : CoordinatorAddr :=
  mkCoordinatorAddr key NO_ERROR None (na_node_id cluster) (na_host cluster) (na_port cluster).
Definition fc_refused (key : string) : CoordinatorAddr :=
  mkCoordinatorAddr key INVALID_REQUEST (Some "this broker coordinates consumer groups only"%string) (-1) EmptyString (-1).
Definition fc_refused_group (key : string) : CoordinatorAddr :=
  mkCoordinatorAddr key GROUP_AUTHORIZATION_FAILED (Some "the principal is not authorized for this group"%string) (-1)
    EmptyString (-1).

Definition find_coordinator (cluster : NodeAddr) (authz : AuthzContext GroupGrants) (key_type : Z) (key : string)
    : CoordinatorAddr :=
  if negb (key_type =? GROUP) then fc_refused key else
  match GroupId_new key with
  | Ok group => if group_authorized group authz then fc_resolved cluster key else fc_refused_group key
  | _ => fc_refused_group key
  end.

Definition find_coordinator_handle (cluster : NodeAddr) (prelude : RequestPrelude) (body : bytes)
    (authz : AuthzContext GroupGrants) : Result unit HandlerResponse :=
  let version := rp_api_version prelude in
  match decode_body (find_coordinator_decode_request version) body with
  | Panic => Panic
  | Err _ => Ok Close
  | Ok request =>
      let coordinators := map (find_coordinator cluster authz (fc_key_type request)) (fc_keys request) in
      Ok (Reply (find_coordinator_encode_response version coordinators
            (encode_response_header [] FindCoordinator version (rp_correlation_id prelude))))
  end.

(** ** What a listing of committed offsets holds *)

Definition committed_at (group : GroupId) (topic : TopicId) (entry : OffsetKey * (CommitVersion * Z)) : option (Z * Z) :=
  let '((g, t, partition), (_, offset)) := entry in
  if decide (g = group /\ t = topic) then Some (partition, offset) else None.

Lemma push_committed_all group topic entries by_topic :
  default [] (foldl (push_committed group) by_topic entries !! topic) =
  default [] (by_topic !! topic) ++ omap (committed_at group topic) entries.
Proof.
  revert by_topic. induction entries as [|[[[g t] p] [v o]] entries IH]; intros m; simpl; [by rewrite app_nil_r|].
  rewrite IH. destruct (decide (g = group)) as [->|Hg].
  - destruct (decide (t = topic)) as [->|Ht].
    + rewrite lookup_insert_eq, decide_True by done. simpl. by rewrite <-app_assoc.
    + rewrite lookup_insert_ne by done. rewrite decide_False by (by intros [_ ?]). done.
  - rewrite decide_False by (by intros [? _]). done.
Qed.

Lemma elem_of_committed g group topic partition offset :
  (partition, offset) ∈ omap (committed_at group topic) (map_to_list (g_offsets g)) <->
  committed_get group topic partition g = Some offset.
Proof.
  rewrite list_elem_of_omap. unfold committed_get. split.
  - intros ([[[g' t'] p'] [v o]] & Hin%elem_of_map_to_list & Hc). simpl in Hc. case_decide as Hd; [|done].
    destruct Hd as [-> ->]. injection Hc as <- <-. exact (f_equal (fmap snd) Hin).
  - intros ([v o] & Hk & Hv)%fmap_Some. simpl in Hv. subst o. exists ((group, topic, partition), (v, offset)).
    split; [by apply elem_of_map_to_list|]. simpl. by rewrite decide_True.
Qed.

Lemma topics_for_group_spec g group topic partition offset :
  committed_get group topic partition g = Some offset <->
  exists partitions, (topic, partitions) ∈ topics_for_group g group /\ (partition, offset) ∈ partitions.
Proof.
  set (B := foldl (push_committed group) ∅ (map_to_list (g_offsets g))).
  assert (forall ps, B !! topic = Some ps -> ps = omap (committed_at group topic) (map_to_list (g_offsets g))) as HB.
  { intros ps Hps. pose proof (push_committed_all group topic (map_to_list (g_offsets g)) ∅) as Ha.
    fold B in Ha. rewrite Hps, lookup_empty in Ha. done. }
  assert (forall qs, (topic, qs) ∈ topics_for_group g group <-> exists ps, B !! topic = Some ps /\ qs = sort_by_key fst ps) as Hin.
  { intros qs. unfold topics_for_group. fold B. rewrite list_elem_of_fmap. split.
    - intros ([t ps] & [= -> ->] & Hm). rewrite merge_sort_Permutation in Hm. apply elem_of_map_to_list in Hm. by exists ps.
    - intros (ps & Hps & ->). exists (topic, ps). split; [done|]. rewrite merge_sort_Permutation. by apply elem_of_map_to_list. }
  rewrite <-elem_of_committed. split.
  - intros Hc. destruct (B !! topic) as [ps|] eqn:Hps.
    + exists (sort_by_key fst ps). split; [apply Hin; by exists ps|]. rewrite sort_by_key_Permutation. by rewrite (HB ps eq_refl).
    + exfalso. pose proof (push_committed_all group topic (map_to_list (g_offsets g)) ∅) as Ha.
      fold B in Ha. rewrite Hps, lookup_empty in Ha. simpl in Ha. rewrite <-Ha in Hc. by apply elem_of_nil in Hc.
  - intros (qs & (ps & Hps & ->)%Hin & Hq). rewrite sort_by_key_Permutation in Hq. by rewrite <-(HB ps Hps).
Qed.

Lemma TopicId_new_Ok name topic : TopicId_new name = Ok topic -> topic = name.
Proof. unfold TopicId_new. case_match; congruence. Qed.

(** What is answered without an error was looked up. *)
Lemma offset_fetch_looks_up g authz group_authz request :
  ofs_error_code (offset_fetch_answer g authz group_authz request) = NO_ERROR ->
  ofs_topics (offset_fetch_answer g authz group_authz request) =
    match ofr_topics request with
    | None => all_topics (topics_for_group g (ofr_group_id request)) authz
    | Some explicit => map (explicit_topic g (ofr_group_id request) authz) explicit
    end.
Proof.
  unfold offset_fetch_answer. destruct (GroupId_new _) as [group| |] eqn:Hg; [|done..]. apply GroupId_new_Ok in Hg as ->.
  destruct (negb _); [done|]. destruct (g_loading g); [done|]. done.
Qed.

Lemma explicit_topic_looks_up g group authz topic j partition p :
  oft_partition_indexes topic !! j = Some partition -> oftr_partitions (explicit_topic g group authz topic) !! j = Some p ->
  ofp_error_code p = NO_ERROR ->
  ofp_partition_index p = partition /\
  ofp_committed_offset p = default UNASSIGNED_OFFSET (committed_get group (oft_name topic) partition g).
Proof.
  intros Hj. unfold explicit_topic, refused_fetch_topic.
  destruct (negb _); [|destruct (TopicId_new _) as [id| |] eqn:Hid]; simpl; rewrite list_lookup_fmap, Hj; intros [= <-]; try done.
  by apply TopicId_new_Ok in Hid as ->.
Qed.

Lemma all_topics_looks_up g group authz topic partition offset :
  topic_authorized topic authz = true -> committed_get group topic partition g = Some offset ->
  exists got, got ∈ all_topics (topics_for_group g group) authz /\ oftr_name got = topic /\
    mkOffsetFetchResponsePartition partition offset NO_ERROR ∈ oftr_partitions got.
Proof.
  intros Ha (ps & Hin & Hp)%topics_for_group_spec. eexists. split; [|split].
  - unfold all_topics. apply list_elem_of_fmap. exists (topic, ps). split; [done|].
    apply list_elem_of_In, filter_In. split; [by apply list_elem_of_In|done].
  - done.
  - simpl. apply list_elem_of_fmap. by exists (partition, offset).
Qed.

(** ** Claims *)

(** The log has the offset for the partition, committed no earlier than
    [version]. *)
Definition serves (g : Groups) (group topic : string) (version : CommitVersion) (p : OffsetFetchResponsePartition) : Prop :=
  ofp_error_code p = NO_ERROR /\ exists version', version <= version' /\
    mkGroupEntry version' (OffsetCommitted group topic (ofp_partition_index p) (ofp_committed_offset p)) ∈ g_log g.

(** C10. What a group commits is what it fetches.  Once an OffsetCommit was
    answered without an error for a partition, every OffsetFetch of the group
    that is answered without an error, at any later time, gives that offset or
    one the log has at a later version: whether it names the partition or asks
    for everything the group committed. *)
Theorem committed_is_fetched fuel now l c w i ai ti (request : OffsetCommitRequest) topics k t rt n p rp
    authz group_authz (fetch : OffsetFetchRequest) :
  opens l c -> rtc (gstep fuel false) (mkTWorld (groups_opened now l c) ∅) w ->
  tw_tasks w !! i = Some (OpCommit ai ti request, Ret (AnCommit topics)) ->
  oc_topics request !! k = Some t -> topics !! k = Some rt ->
  ot_partitions t !! n = Some p -> oct_partitions rt !! n = Some rp -> ocp_error_code rp = NO_ERROR ->
  ofr_group_id fetch = oc_group_id request ->
  let answer := offset_fetch_answer (tw_state w) authz group_authz fetch in
  ofs_error_code answer = NO_ERROR ->
  exists version, mkGroupEntry version (OffsetCommitted (oc_group_id request) (ot_name t) (op_partition_index p)
      (op_committed_offset p)) ∈ g_log (tw_state w) /\
  match ofr_topics fetch with
  | Some explicit => forall a asked b got gp,
      explicit !! a = Some asked -> oft_name asked = ot_name t -> oft_partition_indexes asked !! b = Some (op_partition_index p) ->
      ofs_topics answer !! a = Some got -> oftr_partitions got !! b = Some gp -> ofp_error_code gp = NO_ERROR ->
      serves (tw_state w) (oc_group_id request) (ot_name t) version gp
  | None => topic_authorized (ot_name t) authz = true -> exists got gp,
      got ∈ ofs_topics answer /\ oftr_name got = ot_name t /\ gp ∈ oftr_partitions got /\
      ofp_partition_index gp = op_partition_index p /\
      serves (tw_state w) (oc_group_id request) (ot_name t) version gp
  end.
Proof.
  intros Ho Hr Hi Ht Hrt Hp Hrp Hz Hgroup answer Hok.
  destruct (acknowledged_commit_held _ _ _ _ _ _ _ _ _ _ _ _ _ _ _ _ Ho Hr Hi Ht Hrt Hp Hrp Hz) as (v & v' & o' & Hin & Hoff & Hle & Hin').
  assert (committed_get (oc_group_id request) (ot_name t) (op_partition_index p) (tw_state w) = Some o') as Hget
    by exact (f_equal (fmap snd) Hoff).
  exists v. split; [exact Hin|]. unfold answer. rewrite (offset_fetch_looks_up _ _ _ _ Hok), Hgroup.
  destruct (ofr_topics fetch) as [explicit|].
  - intros a asked b got gp Ha Hname Hb. rewrite list_lookup_fmap, Ha. intros [= <-] Hgp Hcode.
    destruct (explicit_topic_looks_up _ _ _ _ _ _ _ Hb Hgp Hcode) as [Hidx Hoffset]. rewrite Hname, Hget in Hoffset.
    split; [done|]. exists v'. split; [done|]. by rewrite Hidx, Hoffset.
  - intros Ha. destruct (all_topics_looks_up _ _ _ _ _ _ Ha Hget) as (got & Hgot & Hname & Hgp).
    exists got, (mkOffsetFetchResponsePartition (op_partition_index p) o' NO_ERROR). split_and!; try done. split; [done|]. by exists v'.
Qed.

Lemma in_listed_groups c authz filter entry :
  entry ∈ listed_groups c authz filter <->
  exists group record, gc_record c group = Some record /\ group_authorized group authz = true /\
    state_wanted filter (gr_state record) = true /\ entry = listed_group c (group, record).
Proof.
  unfold listed_groups, gc_records, gc_record. rewrite merge_sort_Permutation, list_elem_of_fmap. split.
  - intros ([group record] & -> & Hin%list_elem_of_In%filter_In). destruct Hin as [Hin [Ha Hs]%andb_true_iff].
    apply list_elem_of_In, elem_of_map_to_list in Hin. by exists group, record.
  - intros (group & record & Hg & Ha & Hs & ->). exists (group, record). split; [done|].
    apply list_elem_of_In, filter_In. rewrite Ha, Hs. split; [|done]. by apply list_elem_of_In, elem_of_map_to_list.
Qed.

Lemma listed_groups_ids c authz filter : NoDup (map lgd_group_id (listed_groups c authz filter)).
Proof.
  unfold listed_groups. change (map lgd_group_id ?l) with (lgd_group_id <$> l). rewrite merge_sort_Permutation.
  change (map ?f ?l) with (f <$> l). rewrite <-list_fmap_compose. unfold gc_records.
  assert (NoDup ((map_to_list (gc_groups c)).*1)) as Hnd by apply NoDup_fst_map_to_list. revert Hnd.
  induction (map_to_list (gc_groups c)) as [|[group record] l IH]; simpl; [constructor|].
  intros [Hn Hl]%NoDup_cons. case_match; [|by apply IH]. simpl. apply NoDup_cons. split; [|by apply IH].
  contradict Hn. apply list_elem_of_fmap in Hn as ([g r] & -> & Hin%list_elem_of_In%filter_In). destruct Hin as [Hin _].
  apply list_elem_of_fmap. exists (g, r). by rewrite list_elem_of_In.
Qed.

(** ListGroups and DescribeGroups agree: a listing has exactly the groups
    its client may see, in the states it asked for, each once and in the order
    of their names, and describing a listed group answers the state and the
    protocol type the listing gave. *)
Theorem listing_is_described c authz filter :
  gc_record c EmptyString = None ->
  let listing := listed_groups c authz filter in
  StronglySorted (fun left right => String.le (lgd_group_id left) (lgd_group_id right)) listing /\
  NoDup (map lgd_group_id listing) /\
  (forall group, group ∈ map lgd_group_id listing <->
    exists record, gc_record c group = Some record /\ group_authorized group authz = true /\ state_wanted filter (gr_state record) = true) /\
  forall entry, entry ∈ listing ->
    let described := describe_one c authz (lgd_group_id entry) in
    dgr_error_code described = NO_ERROR /\ dgr_group_state described = lgd_group_state entry /\
    dgr_protocol_type described = lgd_protocol_type entry.
Proof.
  intros Hempty listing. split_and!.
  - apply Sorted_StronglySorted; [intros x y z; apply transitivity|]. apply Sorted_merge_sort. intros x y. apply (total String.le).
  - apply listed_groups_ids.
  - intros group. rewrite list_elem_of_fmap. split.
    + intros (entry & -> & (g & record & Hg & Ha & Hs & ->)%in_listed_groups). by exists record.
    + intros (record & Hg & Ha & Hs). exists (listed_group c (group, record)). split; [done|]. apply in_listed_groups. by exists group, record.
  - intros entry (group & record & Hg & Ha & _ & ->)%in_listed_groups. unfold describe_one, describe_record, listed_group. simpl.
    assert (GroupId_new group = Ok group) as -> by (unfold GroupId_new; case_bool_decide as Hb; [by rewrite Hb, Hempty in Hg|done]). rewrite Ha, Hg. simpl.
    case_decide; [|done]. by destruct (gc_roster c group).
Qed.

(** ** Their witnesses *)

Definition open_to_all {G} (grants : G) : AuthzContext G := mkAuthzContext None false grants.

Definition demo_fetched (topics : option (list OffsetFetchRequestTopic)) : OffsetFetchResponse :=
  offset_fetch_answer (tw_state demo_world) (open_to_all ∅) (open_to_all ∅) (mkOffsetFetchRequest "g" topics).

Lemma committed_is_fetched_witness :
  demo_fetched None = mkOffsetFetchResponse NO_ERROR
    [mkOffsetFetchResponseTopic "t" [mkOffsetFetchResponsePartition 0 42 NO_ERROR]] /\
  exists version got gp, mkGroupEntry version (OffsetCommitted "g" "t" 0 42) ∈ g_log (tw_state demo_world) /\
    got ∈ ofs_topics (demo_fetched None) /\ oftr_name got = "t" /\ gp ∈ oftr_partitions got /\
    serves (tw_state demo_world) "g" "t" version gp.
Proof.
  split; [vm_compute; reflexivity|].
  pose proof (committed_is_fetched 20 0 [] FakeGroupCoordinator_new demo_world 4 (fun _ => true) (fun _ => true)
    demo_commit_request [mkOffsetCommitResponseTopic "t" [mkOffsetCommitResponsePartition 0 0]] 0
    (mkOffsetCommitRequestTopic "t" [mkOffsetCommitRequestPartition 0 42])
    (mkOffsetCommitResponseTopic "t" [mkOffsetCommitResponsePartition 0 0]) 0
    (mkOffsetCommitRequestPartition 0 42) (mkOffsetCommitResponsePartition 0 0) (open_to_all ∅) (open_to_all ∅) (mkOffsetFetchRequest "g" None)
    demo_opens (demo_world_reachable _) ltac:(vm_compute; reflexivity) eq_refl eq_refl eq_refl eq_refl eq_refl eq_refl
    ltac:(vm_compute; reflexivity)) as (version & Hin & Hall).
  destruct (Hall eq_refl) as (got & gp & Hgot & Hname & Hgp & _ & Hs). exists version, got, gp.
  exact (conj Hin (conj Hgot (conj Hname (conj Hgp Hs)))).
Defined.

Definition demo_groups : FakeGroupCoordinator :=
  mkGroupCoordinator {["b" := mkGroupRecord GroupStable 1 1; "a" := FRESH; "c" := FRESH]}
    {["b" := mkRoster "consumer" "range" ["m"]]} 0.
Definition demo_grants : AuthzContext GroupGrants := mkAuthzContext (Some "u") true (grant (grant ∅ "u" "a") "u" "b").

Lemma listing_is_described_witness :
  listed_groups demo_groups demo_grants None = [mkListedGroup "a" "" "Empty"; mkListedGroup "b" "consumer" "Stable"] /\
  dgr_group_state (describe_one demo_groups demo_grants "b") = "Stable".
Proof.
  assert (listed_groups demo_groups demo_grants None = [mkListedGroup "a" "" "Empty"; mkListedGroup "b" "consumer" "Stable"]) as Hl
    by (vm_compute; reflexivity).
  split; [exact Hl|]. destruct (listing_is_described demo_groups demo_grants None ltac:(vm_compute; reflexivity)) as (_ & _ & _ & Hd).
  apply (Hd (mkListedGroup "b" "consumer" "Stable")). rewrite Hl. apply list_elem_of_further, list_elem_of_here.
Defined.
